(* ===== verification/_CoqProject ===== *)
-Q . S2P
Prelude.v
Kernel.v
ElfTraits.v
Sample.v
LinkerPhdr.v
ElfLoader.v
ElfView.v
ElfSymbols.v
Relocations.v
Util.v
SearchPath.v
LineReader.v
ProcMaps.v
Relro.v
RDebug.v
SharedLibrary.v
LibraryList.v
Registry.v
Messages.v
Api.v
CpuFeatures.v
Paths.v
Vfs.v
VfsSessions.v
SystemDriver.v
AssetDriver.v
AssetJava.v
AssetSessions.v
AssetTable.v
AssetVfs.v
AppGlue.v
AppThreads.v
AppContract.v
AppRuns.v
Crystax.v
Exec.v
AwkRegex.v
AwkFollow.v
AwkDfa.v
AwkStates.v
AwkMatch.v
AwkSearch.v
AwkResults.v
AwkCache.v
AwkSub.v
StdMap.v
DependsElf.v
Depends.v
DependsSort.v
DependsGraph.v
MakeHash.v
MakeText.v
MakeFilter.v
MakeStrings.v
