(* ===== verification/Prelude.v ===== *)
(** * Verification of the native code of the CrystaX NDK

    The NDK adds native code to Android applications.  This development models
    eight parts of it, in C and C++ under [sources/]:

    - the crazy linker ([sources/crystax/crazy_linker]), a dynamic linker that
      loads ELF shared libraries next to the one of the system, at chosen addresses
      and from chosen offsets of files, and shares their RELRO sections between
      processes;
    - the library cpufeatures ([sources/android/cpufeatures]), which tells the
      family, the features and the number of the CPUs;
    - the virtual file system ([sources/crystax/vfs]), which replaces the functions
      of the C library on files by functions over drivers mounted on directories;
    - native_app_glue ([sources/android/native_app_glue]), which runs an application
      on a thread of its own beside the thread of the activity;
    - functions of libcrystax ([sources/crystax/src]) that complete the C library:
      numbers, version strings, random numbers, and [execve] of scripts;
    - the regular expressions of awk ([sources/host-tools/nawk-20071023]), which the
      build scripts run on the host: the parser, the automata that are built while they
      match, their cache, and the operators and functions of the language on them;
    - ndk-depends ([sources/host-tools/ndk-depends]), a tool on the host that prints the
      libraries a file needs in the order in which they have to be loaded;
    - of make ([sources/host-tools/make-3.81]), which runs the build on the host: its hash
      tables, its cache of strings, and the functions that makefiles call on lists of
      words.

    The linker is one program with the layers below; the other parts do not call each
    other.

    ** How the code is modelled

    Functions are Rocq functions with the names of the source.  Code that changes
    state is written in the monad [M] below: from a state it returns a value and a
    state, fails with the message the code sets, or crashes.  A crash is any
    undefined behaviour the model sees: an access to memory that is not mapped or
    not permitted, a call of a null pointer, a use of a deleted object, an
    overflow of a buffer.  Where a file needs no more than that, it uses [option]
    instead.  Machine integers are numbers of [Z] with their width written out
    ([wrap], [swrap], [addr]); C strings are lists of characters without the final
    NUL; pointers that may be null are options or 0.  Code that is not in the
    repository is a parameter in a type class (the kernel, the C library, the
    system linker, the code of loaded libraries, the Java machine), and a second
    class of the same name with the suffix [Ok] says what its documentation
    promises; each is satisfied by an instance that the examples compute with.

    ** The files

    The crazy linker:

    - [Kernel]: address spaces with pages, [mmap], [munmap], [mprotect] and loads
      and stores; the class [Kernel] chooses addresses and may refuse.
    - [ElfTraits]: [elf_traits.h], the structures of ELF on the four CPUs
      (the type [arch]).
    - [Sample]: the bytes of a small library for the examples.
    - [LinkerPhdr]: [linker_phdr.cpp], tables of program headers.
    - [ElfLoader]: [crazy_linker_elf_loader.cpp], from the file to the segments in
      memory.
    - [ElfView]: [crazy_linker_elf_view.cpp], what a loaded library says of itself.
    - [ElfSymbols]: [crazy_linker_elf_symbols.cpp], lookup of symbols.
    - [Relocations]: [crazy_linker_elf_relocations.cpp].
    - [Util]: [crazy_linker_util.cpp] (String, Vector, Set), and the functions on
      characters and strings that other files share.
    - [SearchPath], [LineReader], [ProcMaps]: [crazy_linker_search_path_list.cpp],
      [crazy_linker_line_reader.cpp], [crazy_linker_proc_maps.cpp].
    - [Relro]: [crazy_linker_elf_relro.cpp], [crazy_linker_ashmem.cpp] and
      [crazy_linker_memory_mapping.h].
    - [RDebug]: [crazy_linker_rdebug.cpp], the list of libraries of the debugger.
    - [SharedLibrary]: [crazy_linker_shared_library.cpp], which puts the above
      together for one library.
    - [LibraryList]: [crazy_linker_library_list.cpp],
      [crazy_linker_library_view.cpp] and part of [crazy_linker_system.cpp]: all
      libraries, on a heap of objects.
    - [Registry]: the invariant of [LibraryList].
    - [Messages]: [crazy_linker_error.cpp] and [crazy_linker_thread.cpp].
    - [Api]: [crazy_linker_api.cpp], [crazy_linker_wrappers.cpp] and
      [crazy_linker_globals.cpp]: the state of the program and the functions of the
      client and of loaded libraries.

    The other parts:

    - [CpuFeatures]: [cpu-features.c].
    - [Paths]: [futils.cpp] and [path.hpp].
    - [Vfs]: [fileio.cpp], [mount.cpp] and the files with one function each.
    - [VfsSessions]: the steps of a client of [Vfs] and their invariants.
    - [SystemDriver]: [sdriver.cpp], the driver that calls the C library, over the class
      [Libc] of the dynamic linker.
    - [AssetDriver]: [adriver.cpp], the driver of the files of an application package, over
      the class [Android] of Java's methods and over the driver below it.
    - [AssetJava]: what the documentation of Java's streams promises, and a machine for the
      examples.
    - [AssetSessions]: abstract files, and the driver of assets as their implementation.
    - [AssetTable]: the type of the driver's table.
    - [AssetVfs]: [Vfs] over both drivers, as one world.
    - [AppGlue]: [android_native_app_glue.c], two threads whose functions are lists
      of instructions.
    - [AppThreads]: a type system for the programs of the threads, and the invariant
      of both.
    - [AppContract]: assertions between the instructions of the main thread.
    - [AppRuns]: the theorems on runs of both threads.
    - [Crystax]: [strntoimax.c], [strverscmp.c], [rand.c], [makedev.c], [memswap.c].
    - [Exec]: [execve.c], and the class [ExecSystem] of files and of the system call.

    The regular expressions of awk:

    - [AwkRegex]: the lexer and the parser of [b.c], and a printer of trees for the
      round trip.
    - [AwkFollow]: the positions of a tree and the sets of those that follow, and what
      a tree matches.
    - [AwkDfa]: the structure [fa] and the functions from [mkdfa] to [nematch].
    - [AwkStates]: the invariant of the table of states, and a transition.
    - [AwkMatch]: runs of the automaton.
    - [AwkSearch]: the searches, from the first and from later calls.
    - [AwkResults]: the searches in terms of the parts of a text that match, and the
      automaton that [mkdfa] makes.
    - [AwkCache]: [makedfa] and [freefa], the automata as objects of a heap, and
      [matchop] of [run.c].
    - [AwkSub]: [sub], [gsub] and [split] of [run.c], [refldbld] of [lib.c].

    The tool ndk-depends ([ndk-depends.cc]):

    - [StdMap]: [std::map] with strings as keys.
    - [DependsElf]: the readers of both byte orders, [ElfParser], [DynamicIterator] and
      [ElfFile], and a writer of files for the round trip.
    - [Depends]: search paths, [BuildDependencyGraph], [GetTopologicalSortedLibraries] and
      [main], over the class [Host] of files and environment.
    - [DependsSort]: the theorems on the sorted list.
    - [DependsGraph]: the theorems on the graph and on the output.

    The functions of make:

    - [MakeHash]: [hash.c] and the hash functions of [hash.h].
    - [MakeText]: the functions of [function.c] on words, patterns and names of files and the
      separation of the arguments of a call, with the tokens of [misc.c] and
      [find_char_unquote] of [read.c].
    - [MakeFilter]: [func_filter_filterout] of [function.c] on its memory, with [MakeHash].
    - [MakeStrings]: [strcache.c], with [MakeHash].

    ** What the theorems show

    - Loading: on a valid library [LoadAt] does not crash, and leaves the segments of
      the file in a range that was free, each byte with the content and the protection
      that its segment says, the rest of the memory untouched; the size of the range is
      the hull of the segments; removing and restoring write protection gives the
      protections back; the header is accepted exactly when every check of the
      format holds.
    - Symbols and relocations: the hash is the one of System V; lookup by name is
      sound and complete on a well-formed table and ends; the nearest symbol is the
      nearest; [ApplyAll] writes the word that each relocation defines and no other;
      [CopyAndRelocate] gives the section that relocation at the other address would
      give.
    - Helpers: the containers refine lists and sets under every sequence of
      operations; the search path finds the first file; the line reader gives the
      lines of the file for every way in which the kernel cuts it, short of the defect
      below; the lines of the memory map are read back as they are printed; shared
      pages keep the content of the section.
    - Libraries: under every sequence of calls of the interface the reference
      counts, the vector of known libraries and the doubly linked list agree
      ([session_registry]); unloading terminates; symbols are found in breadth-first
      order; opening and closing a known library gives the state back; constructors
      and destructors run in the documented order; the string of [dlerror] stays
      valid until the next call.
    - CPUs: the initialisation of an ARM process ends with features that imply each
      other as documented; the count of CPUs is the size of the intersection of the
      printed lists; capabilities are the words of the Features line; the first call
      settles the state.
    - Files: normalisation of absolute paths is resolution of their components with
      a stack, and is idempotent; sub-paths are prefixes of components; after any
      sequence of calls mounts refer to drivers that exist; descriptors reach the
      driver that opened them and are given back by [close].
    - Drivers: each function of the driver of the system calls the function of its name
      ([system_driver_calls]); the table of the driver of assets has its type after every
      call, whatever Java answers ([asset_table_typed]); a program that opens, reads, seeks and
      closes files of a mount of assets sees the bytes of the assets, through the virtual
      file system and both drivers ([vfs_asset_sessions]).
    - Threads: under every interleaving of the two threads of native_app_glue, no step
      is undefined behaviour and shared members are accessed under the mutex
      ([threads_safe]); every callback returns ([callbacks_return]); between callbacks
      the application has no window or queue but the current one; saved states are
      returned as the application saved them, and freed.
    - libcrystax: [strntoimax] reads back a number that is printed in any base;
      [strverscmp] orders by the values of numbers; [rand_r] is the generator of Park
      and Miller, without overflow; [execve] runs the interpreter of a script with the
      arguments in the right order.
    - Regular expressions: the parser returns for every pattern that does not end with
      a backslash, and reads back printed trees; in every program with constant and
      computed patterns [~] finds a part that matches exactly if there is one, and
      [match] gives the longest of the leftmost ones ([program_answers]); the cache
      holds the 20 patterns that were used last ([cache_is_lru]); [sub], [gsub] and
      [split] replace and separate what a scan of the text from left to right finds
      ([edits_right]).
    - ndk-depends: reading ends on every file, and the names in a file are read back for
      both byte orders and classes ([elf_roundtrip]); the graph has exactly the libraries
      that are needed directly or through others ([graph_is_reachable]); the sorting
      returns exactly when no library needs itself, and then puts each library before
      those it needs ([sorted_iff_acyclic]); the output is this list in each of the
      formats ([depends_prints]).
    - make: a hash table is a finite map under every sequence of operations, for all hash
      functions, and searches end ([hash_table_is_map]); [filter] with its table selects
      what a comparison of each word with each pattern selects ([filter_selects]); the cache of
      strings has one address for each string, where the string stays ([strcache_interns]);
      [patsubst] replaces the words that a pattern matches ([patsubst_replaces]) or equals
      ([patsubst_by_word]); [abspath] resolves components ([abspath_resolves]); arguments of a
      call are found within the memory for them ([call_arguments]); [sort], [word],
      [wordlist], [dir], [suffix] and others do on lists of words what their names say.
    - Defects: theorems also state behaviour that the code does not intend, on the
      inputs that show it: a line of 256 bytes or more makes the line reader read past
      its first buffer when the heap moves the second one ([long_line_overrun]); a
      parent directory is lost by normalisation ([normalize_loses_parent]);
      descriptors outlive the driver they refer to ([umount_leaves_descriptors]);
      libraries that need each other are sorted for ever ([circular_never_sorted]); a seek to
      before the start of an asset goes to its end ([seek_before_start]); an asset
      that is opened for writing is not copied ([copy_copies_nothing]); the
      files have further examples.

    ** Bounds and fuel

    Loops over words of memory run under [loop 64], which is [2 ^ 64] rounds and
    more than an address space can hold; the theorems show that they end.  Loops
    over texts take the length of the text as fuel, and each round consumes a
    character.  The search of a symbol visits each known library once, and takes
    their number plus two.  [UnloadLibrary] takes a fuel that
    [UnloadLibrary_terminates] shows to be enough when it is the number of
    references plus one.  [LoadLibrary] takes the depth of the stack: libraries that
    depend on each other in a circle exhaust it, as in the code, and the model
    crashes.  The current directory is read with doubling buffers under a fuel that
    the length of the path bounds.  The parser of regular expressions takes three
    times the length of the pattern and four, and [reparse_total] shows that it is
    enough; the loops of [gsub] and [split] take the length of the text, and each
    round reads a character of it.  In ndk-depends [stack] bounds the depth of included
    files and [memory] the rounds of the two loops that allocate; the theorems show that
    they return for every [memory] above a number that the files determine.  The loop that
    copies an asset takes a bound on its rounds, which [copy_copies_nothing] shows to be used up
    whatever it is; drivers over drivers take the number of mounts plus one, since a mount is
    on an earlier one.  The search in a hash table runs under [loop 32], and the
    table has at most [2 ^ 31] slots, which the odd step of the search all visits; following a
    chain of words takes their number plus one.  Sizes of buffers, tables and paths are those of
    the source; the size of the table of descriptors is a constant of the build and
    a parameter.

    ** Conventions and limits

    The member [link_map_] of a library is in the memory of the process, since the
    debugger's list links it.  Memory that several processes share is the content
    of a region, written back when a mapping is.  Code of loaded libraries
    (constructors, [JNI_OnLoad], callbacks) acts on memory and does not call the
    linker back.  Every public function of the linker, of cpufeatures and of the file
    system is one step (the linker runs under one lock); only native_app_glue is
    modelled with threads interleaved inside functions.  There the pipe holds
    [capacity] bytes, a parameter, and the theorem on termination needs room for the
    commands of one callback; the code of the application is taken to poll its looper,
    and to return from [android_main] when it is asked to and not before.  Allocation
    does not fail where the code does not test it.

    The theorems on regular expressions exclude the inputs of four defects that the
    examples of [AwkCache] and [AwkSub] show: texts with the byte 2 ([clean]), patterns
    whose positions fill the arrays exactly ([roomy]), and runs in which a state is
    entered into the full table from state 2 ([calm] of a run with [guarded]) or, for
    [gsub] and [split], in which the table becomes full ([calm] of a run with
    [strict]).  These last two conditions are computed on a concrete run.  Arguments of
    the operators are evaluated before the pattern is looked up.

    The theorems on make are for fewer than [2 ^ 30] items or words; strings of the cache are shorter
    than a buffer, since one of exactly its length is a defect ([add_string_exact]).

    ** Not modelled

    Logging; the locks themselves; file operations that are one system call; in
    [adriver.cpp] the metadata of removed files, whose calls are commented out; the native methods of Java's file system ([osfs]); the functions of
    libcrystax that are one system call or a stub; ndk-stack, and ndk-depends for
    Windows; the language of awk apart from its regular expressions; other third-party code in the
    repository (libc++abi, googletest), build scripts, samples and tests.  Of make the
    reading of makefiles, the expansion of variables and the functions that need it, the
    update of targets and the jobs are not modelled: they work on files, processes and
    global tables that refer to each other throughout the program. *)

From Stdlib Require Export Ascii.
From Stdlib Require String.
From stdpp Require Export base tactics list strings gmap numbers.
From Stdlib Require Export ZArith Lia.

#[export] Set Default Goal Selector "!".

(** ** Notation and error values *)

Declare Scope ndk_scope.
Delimit Scope ndk_scope with ndk.
Open Scope Z_scope.

(** A C string is the list of its characters, without the final NUL. *)
Abbreviation cstr := (list ascii).

(** The characters of a string literal. *)
Definition str (s : string) : cstr := Stdlib.Strings.String.list_ascii_of_string s.

(** The code of a character, as the [unsigned char] the C code reads. *)
Definition zc (c : ascii) : Z := Z.of_N (N_of_ascii c).

Definition cz (z : Z) : ascii := ascii_of_N (Z.to_N z).

(** A text that a C string can hold. *)
Definition no_nul (s : cstr) : Prop := Forall (fun c => zc c <> 0) s.

(** An argument of a [printf]-like format. *)
Inductive arg :=
| AZ (z : Z)
| AS (s : cstr).

(** The content of a [crazy::Error]: the format string and its arguments. *)
Inductive Error :=
| Msg (fmt : string) (args : list arg).

(** The outcome of an operation on a state [S]: it returns a value, it fails
    with an error message (the C++ functions then return [false] or [NULL] and
    leave the state they have modified so far), or it makes the process crash
    by an invalid memory access. *)
Inductive outcome (S A : Type) : Type :=
| Ret (a : A) (s : S)
| Fail (e : Error) (s : S)
| Crash.
Arguments Ret {S A} a s.
Arguments Fail {S A} e s.
Arguments Crash {S A}.

(** The state-and-error monad of the development. *)
Definition M (S A : Type) : Type := S -> outcome S A.

Definition lret {S A} (a : A) : M S A := fun s => Ret a s.

Definition lfail {S A} (e : Error) : M S A := fun s => Fail e s.

Definition lcrash {S A} : M S A := fun _ => Crash.

Definition lget {S} : M S S := fun s => Ret s s.

Definition lput {S} (s : S) : M S unit := fun _ => Ret tt s.

Definition lbind {S A B} (c : M S A) (k : A -> M S B) : M S B :=
  fun s =>
    match c s with
    | Ret a s' => k a s'
    | Fail e s' => Fail e s'
    | Crash => Crash
    end.

(** A partial read: [None] is an access that faults. *)
Definition lread {S A} (f : S -> option A) : M S A :=
  fun s => match f s with Some a => Ret a s | None => Crash end.

Notation "'let*' x ':=' c 'in' k" := (lbind c (fun x => k))
  (at level 10, x name, c at level 200, k at level 200) : ndk_scope.
Notation "'do*' c 'in' k" := (lbind c (fun _ => k))
  (at level 10, c at level 200, k at level 200) : ndk_scope.

(** ** Fixed-width unsigned arithmetic *)

(** The value of [x] in an unsigned type of [w] bits. *)
Definition wrap (w x : Z) : Z := x mod 2 ^ w.

(** [x] is a value of an unsigned type of [w] bits. *)
Definition fits (w x : Z) : Prop := 0 <= x < 2 ^ w.

(** The value of [x] in a two's complement signed type of [w] bits. *)
Definition swrap (w x : Z) : Z :=
  let y := wrap w x in if y <? 2 ^ (w - 1) then y else y - 2 ^ w.

(** ** Loops *)

(** [k] rounds of a loop whose body ends the loop with [inl] or goes on with
    [inr]. *)
Fixpoint rounds {St R} (k : nat) (step : St -> R + St) (st : St) : R + St :=
  match k with
  | O => inr st
  | S k => match step st with inl r => inl r | inr st' => rounds k step st' end
  end.

(** [2 ^ n] rounds, in a form that stops as soon as the loop does: the bound on
    a loop over machine words is a power of two that no run can reach, and it
    costs nothing to write it down. *)
Fixpoint loop {St R} (n : nat) (step : St -> R + St) (st : St) : R + St :=
  match n with
  | O => step st
  | S n => match loop n step st with inl r => inl r | inr st' => loop n step st' end
  end.

(** ** Tactics *)

(** Split conjunctions of hypotheses and boolean tests into propositions. *)
Ltac bool_to_prop :=
  repeat match goal with
  | H : (_ && _)%bool = true |- _ => apply andb_prop in H; destruct H
  | H : (_ && _)%bool = false |- _ => apply andb_false_iff in H
  | H : (_ || _)%bool = false |- _ => apply orb_false_elim in H; destruct H
  | H : (_ || _)%bool = true |- _ => apply orb_prop in H
  | H : negb _ = true |- _ => apply negb_true_iff in H
  | H : negb _ = false |- _ => apply negb_false_iff in H
  | H : (_ =? _) = true |- _ => apply Z.eqb_eq in H
  | H : (_ =? _) = false |- _ => apply Z.eqb_neq in H
  | H : (_ <? _) = true |- _ => apply Z.ltb_lt in H
  | H : (_ <? _) = false |- _ => apply Z.ltb_ge in H
  | H : (_ <=? _) = true |- _ => apply Z.leb_le in H
  | H : (_ <=? _) = false |- _ => apply Z.leb_gt in H
  end.

(** Case analysis on the boolean tests of the goal. *)
Ltac case_bool :=
  match goal with
  | |- context [if ?b then _ else _] => let E := fresh "E" in destruct b eqn:E
  | H : context [if ?b then _ else _] |- _ => let E := fresh "E" in destruct b eqn:E
  end; bool_to_prop.

(** Case analysis on the outcome of the first step of a monadic program. *)
Ltac step_outcome H :=
  match type of H with
  | lbind ?c ?k ?s = _ =>
      unfold lbind at 1 in H; let E := fresh "E" in destruct (c s) eqn:E;
      try discriminate
  end.

(** Membership in a list built with [++] and [::]. *)
Ltac list_in :=
  rewrite ?elem_of_app, ?elem_of_cons, ?list_elem_of_singleton, ?elem_of_app; tauto.

(** One goal per element of a list given in extension. *)
Ltac elem_inv H :=
  lazymatch type of H with
  | _ ∈ _ :: _ => apply elem_of_cons in H as [->|H]; [|elem_inv H]
  | _ ∈ [] => exfalso; exact (not_elem_of_nil _ H)
  end.

Create HintDb ndk.
Create Rewrite HintDb wrap.

(** ** Lemmas on the monad *)

Lemma lbind_step {S A B} (c : M S A) (k : A -> M S B) s x s' :
  c s = Ret x s' -> lbind c k s = k x s'.
Proof. intros E. unfold lbind. by rewrite E. Qed.

(** ** Triples

    [triple P c Q E]: from a state that satisfies [P], the operation [c] returns
    in [Q], fails in [E], or crashes. *)
Definition triple {S A} (P : S -> Prop) (c : M S A) (Q : A -> S -> Prop) (E : Error -> S -> Prop) : Prop :=
  forall s, P s -> match c s with
                   | Ret x s' => Q x s'
                   | Fail e s' => E e s'
                   | Crash => True
                   end.

Lemma triple_bind {S A B} P (c : M S A) (k : A -> M S B) R Q E :
  triple P c R E -> (forall x, triple (R x) (k x) Q E) -> triple P (lbind c k) Q E.
Proof.
  intros Hc Hk s Hs. specialize (Hc s Hs). unfold lbind. destruct (c s); [|done|done]. by apply Hk.
Qed.

Lemma triple_ret {S A} (x : A) (Q : A -> S -> Prop) E : triple (Q x) (lret x) Q E.
Proof. by intros s Hs. Qed.

Lemma triple_read {S A} (P : S -> Prop) (f : S -> option A) Q E :
  (forall s x, P s -> f s = Some x -> Q x s) -> triple P (lread f) Q E.
Proof. intros H s Hs. unfold lread. destruct (f s) eqn:Ef; [by apply H|done]. Qed.

Lemma triple_conseq {S A} (P P' : S -> Prop) (c : M S A) (Q Q' : A -> S -> Prop) (E E' : Error -> S -> Prop) :
  triple P' c Q' E' -> (forall s, P s -> P' s) -> (forall x s, Q' x s -> Q x s) ->
  (forall e s, E' e s -> E e s) -> triple P c Q E.
Proof. intros H HP HQ HE s Hs. specialize (H s (HP s Hs)). destruct (c s); auto. Qed.

Lemma lbind_Ret {S A B} (c : M S A) (k : A -> M S B) s b s' :
  lbind c k s = Ret b s' <-> exists a s1, c s = Ret a s1 /\ k a s1 = Ret b s'.
Proof.
  unfold lbind. split.
  - destruct (c s) eqn:E; intros H; try discriminate. eauto.
  - intros (a & s1 & H1 & H2). by rewrite H1.
Qed.

(** ** Lemmas on loops *)

Lemma rounds_S {St R} k (step : St -> R + St) st :
  rounds (S k) step st = match step st with inl r => inl r | inr st' => rounds k step st' end.
Proof. done. Qed.

Lemma rounds_add {St R} j k (step : St -> R + St) st :
  rounds (j + k) step st =
    match rounds j step st with inl r => inl r | inr st' => rounds k step st' end.
Proof.
  revert st. induction j as [|j IH]; intros st; [done|]. cbn. destruct (step st); [done|apply IH].
Qed.

Lemma loop_rounds {St R} n (step : St -> R + St) st : loop n step st = rounds (2 ^ n) step st.
Proof.
  revert st. induction n as [|n IH]; intros st.
  - cbn. by destruct (step st).
  - change (2 ^ S n)%nat with (2 ^ n + (2 ^ n + 0))%nat. rewrite Nat.add_0_r, rounds_add. cbn.
    rewrite IH. destruct (rounds _ _ st); [done|apply IH].
Qed.

(** A loop that ends within its bound has the result of the rounds it needs. *)
Lemma loop_ends {St R} n k (step : St -> R + St) st r :
  rounds k step st = inl r -> Z.of_nat k <= 2 ^ Z.of_nat n -> loop n step st = inl r.
Proof.
  intros Hr Hk. rewrite loop_rounds.
  assert (k <= 2 ^ n)%nat by (apply Nat2Z.inj_le; rewrite Nat2Z.inj_pow; lia).
  replace (2 ^ n)%nat with (k + (2 ^ n - k))%nat by lia. by rewrite rounds_add, Hr.
Qed.

(** Proofs use these lemmas; conversion never unfolds a loop. *)
#[global] Opaque loop.

(** ** Lemmas on characters *)

Lemma cz_zc c : cz (zc c) = c.
Proof. unfold cz, zc. rewrite N2Z.id. apply ascii_N_embedding. Qed.

Lemma zc_cz z : 0 <= z < 256 -> zc (cz z) = z.
Proof. intros Hz. unfold zc, cz. rewrite N_ascii_embedding by lia. lia. Qed.

Lemma zc_bound c : 0 <= zc c < 256.
Proof. unfold zc. pose proof (N_ascii_bounded c). lia. Qed.

Lemma zc_inj c d : zc c = zc d -> c = d.
Proof. intros H. by rewrite <-(cz_zc c), H, cz_zc. Qed.

(** ** Lemmas on fixed-width arithmetic *)

Lemma pow2_pos w : 0 <= w -> 0 < 2 ^ w.
Proof. intros. apply Z.pow_pos_nonneg; lia. Qed.

Lemma wrap_fits w x : 0 <= w -> fits w (wrap w x).
Proof. intros. apply Z.mod_pos_bound, pow2_pos; done. Qed.

Lemma wrap_small w x : fits w x -> wrap w x = x.
Proof. apply Z.mod_small. Qed.

Lemma wrap_wrap_add_l w x y : wrap w (wrap w x + y) = wrap w (x + y).
Proof. apply Zplus_mod_idemp_l. Qed.

Lemma wrap_wrap_add_r w x y : wrap w (x + wrap w y) = wrap w (x + y).
Proof. apply Zplus_mod_idemp_r. Qed.

Lemma wrap_wrap_sub_l w x y : wrap w (wrap w x - y) = wrap w (x - y).
Proof. apply Zminus_mod_idemp_l. Qed.

Lemma wrap_wrap_sub_r w x y : wrap w (x - wrap w y) = wrap w (x - y).
Proof. apply Zminus_mod_idemp_r. Qed.

Lemma wrap_wrap w x : wrap w (wrap w x) = wrap w x.
Proof. apply Zmod_mod. Qed.

Lemma swrap_id w x : 1 <= w -> - 2 ^ (w - 1) <= x < 2 ^ (w - 1) -> swrap w x = x.
Proof.
  intros Hw Hx. assert (2 ^ w = 2 * 2 ^ (w - 1)) by (rewrite <-Z.pow_succ_r by lia; f_equal; lia).
  unfold swrap, wrap. destruct (decide (0 <= x)).
  - rewrite Z.mod_small by lia. case_bool; lia.
  - rewrite <-(Z.mod_unique x (2 ^ w) (-1) (x + 2 ^ w)) by lia. case_bool; lia.
Qed.

Lemma swrap_small x : - 2 ^ 31 <= x < 2 ^ 31 -> swrap 32 x = x.
Proof. intros Hx. apply swrap_id; lia. Qed.

#[export] Hint Rewrite @wrap_wrap_add_l @wrap_wrap_add_r @wrap_wrap_sub_l
  @wrap_wrap_sub_r @wrap_wrap : wrap.
#[export] Hint Resolve pow2_pos wrap_fits wrap_small : ndk.
