(* ===== verification/Kernel.v ===== *)
(** * Address spaces and the memory system calls

    The process address space the linker works on: protection and content of
    every byte, the loads and stores of the C++ code (which crash when the page
    is not mapped or its protection forbids them), and the [mmap], [munmap] and
    [mprotect] calls.  What the kernel is free to choose (where a mapping goes,
    whether a call is refused) is the class [Kernel]; what the system-call
    documentation promises about these choices is the class [KernelOk]. *)

From S2P Require Import Prelude.

Open Scope Z_scope.

(** ** Pages *)

Definition PAGE_SIZE : Z := 4096.

Definition PAGE_MASK : Z := Z.lnot (PAGE_SIZE - 1).

(** The page macros of [linker_phdr.cpp] and [crazy_linker_elf_loader.cpp];
    [w] is the width of the unsigned type they are used at. *)
Definition PAGE_START (x : Z) : Z := Z.land x PAGE_MASK.

Definition PAGE_OFFSET (x : Z) : Z := Z.land x (Z.lnot PAGE_MASK).

Definition PAGE_END (w x : Z) : Z := PAGE_START (wrap w (x + (PAGE_SIZE - 1))).

(** The size the kernel rounds a length to. *)
Definition round_up (len : Z) : Z := PAGE_START (len + (PAGE_SIZE - 1)).

(** ** Address spaces *)

Definition PROT_NONE : Z := 0.
Definition PROT_READ : Z := 1.
Definition PROT_WRITE : Z := 2.
Definition PROT_EXEC : Z := 4.

(** [prot_at a] is the protection of the mapped byte [a] ([None]: unmapped);
    [byte_at a] is its content ([None]: nothing behind it, e.g. past the end of
    the mapped file). *)
Record aspace := mk_aspace {
  prot_at : Z -> option Z;
  byte_at : Z -> option Z;
}.

Definition in_range (lo len a : Z) : bool := (lo <=? a) && (a <? lo + len).

Definition can (flag : Z) (s : aspace) (a : Z) : bool :=
  match prot_at s a with
  | Some p => negb (Z.land p flag =? 0)
  | None => false
  end.

Definition load_byte (s : aspace) (a : Z) : option Z :=
  if can PROT_READ s a then byte_at s a else None.

(** [f] is true of the [n] addresses from [a]. *)
Fixpoint all_from (f : Z -> bool) (n : nat) (a : Z) : bool :=
  match n with
  | O => true
  | S n => if f a then all_from f n (a + 1) else false
  end.

Definition range_all (f : Z -> bool) (a n : Z) : bool := all_from f (Z.to_nat n) a.

Definition set_bytes (s : aspace) (a n : Z) (f : Z -> option Z) : aspace :=
  mk_aspace (prot_at s) (fun x => if in_range a n x then f (x - a) else byte_at s x).

Definition writable (s : aspace) (x : Z) : bool :=
  can PROT_WRITE s x && match byte_at s x with Some _ => true | None => false end.

(** [memset(a, c, n)] *)
Definition memset (s : aspace) (a c n : Z) : option aspace :=
  if range_all (writable s) a n then Some (set_bytes s a n (fun _ => Some c)) else None.

Definition readable (s : aspace) (x : Z) : bool :=
  match load_byte s x with Some _ => true | None => false end.

(** [memcpy(dst, src, n)] *)
Definition memcpy (s : aspace) (dst src n : Z) : option aspace :=
  if range_all (writable s) dst n && range_all (readable s) src n
  then Some (set_bytes s dst n (fun i => byte_at s (src + i))) else None.

(** A little-endian integer of [n] bytes, read with [rd]. *)
Fixpoint read_le (rd : Z -> option Z) (n : nat) (a : Z) : option Z :=
  match n with
  | O => Some 0
  | S n =>
      b ← rd a;
      r ← read_le rd n (a + 1);
      Some (b + 256 * r)
  end.

Definition load_le (n : nat) (s : aspace) (a : Z) : option Z := read_le (load_byte s) n a.

(** Byte [i] of the little-endian encoding of [v]. *)
Definition le_byte (v i : Z) : Z := v / 256 ^ i mod 256.

(** Store of the [n] low bytes of [v]. *)
Definition store_le (n : nat) (s : aspace) (a v : Z) : option aspace :=
  if range_all (writable s) a (Z.of_nat n)
  then Some (set_bytes s a (Z.of_nat n) (fun i => Some (le_byte v i))) else None.

(** The C string at [p]. *)
Definition read_cstr (s : aspace) (p : Z) : option cstr :=
  match loop 64 (fun '(q, acc) =>
    match load_byte s q with
    | None => inl None
    | Some b => if b =? 0 then inl (Some (rev acc)) else inr (q + 1, cz b :: acc)
    end) (p, []) with
  | inl r => r
  | inr _ => None
  end.

(** ** Files *)

Record file := mk_file {
  f_size : Z;
  f_byte : Z -> Z;
}.

(** The content of a mapping of [f] from offset [off]: past the end of the file
    the last page is filled with zeros, and the pages after it cannot be
    accessed. *)
Definition file_content (f : file) (off i : Z) : option Z :=
  if off + i <? f_size f then Some (f_byte f (off + i))
  else if off + i <? round_up (f_size f) then Some 0
  else None.

(** ** System calls *)

Class Kernel := {
  (** where a mapping of that many bytes goes when the address is a hint *)
  kplace : aspace -> Z -> Z -> option Z;
  (** whether a fixed mapping, an unmapping or a protection change is granted *)
  kmap_ok : aspace -> Z -> Z -> bool;
  kunmap_ok : aspace -> Z -> Z -> bool;
  kprot_ok : aspace -> Z -> Z -> Z -> bool;
}.

Definition page_aligned (x : Z) : Prop := x mod PAGE_SIZE = 0.

(** What [mmap(2)] documents of a successful call without [MAP_FIXED]: the
    address is page-aligned and the pages were free; the last page of the address
    space is never used, since [MAP_FAILED] lies in it.  Unmapping a non-empty
    range of pages succeeds. *)
Class KernelOk (w : Z) (K : Kernel) := {
  kplace_aligned s hint len a : kplace s hint len = Some a -> page_aligned a;
  kplace_range s hint len a :
    kplace s hint len = Some a -> 0 < a /\ a + round_up len < 2 ^ w;
  kplace_free s hint len a x :
    kplace s hint len = Some a -> in_range a (round_up len) x = true -> prot_at s x = None;
  kunmap_valid s a len : page_aligned a -> 0 < len -> kunmap_ok s a len = true;
}.

Definition map_range (s : aspace) (a len prot : Z) (content : Z -> option Z) : aspace :=
  mk_aspace
    (fun x => if in_range a (round_up len) x then Some prot else prot_at s x)
    (fun x => if in_range a (round_up len) x then content (x - a) else byte_at s x).

(** [mmap] with the address and the address space it leads to, [None] when it
    returns [MAP_FAILED]. *)
Definition mmap `{Kernel} (s : aspace) (addr len prot : Z) (fixed : bool)
    (content : Z -> option Z) : option (Z * aspace) :=
  if len <=? 0 then None
  else if fixed
  then if kmap_ok s addr len then Some (addr, map_range s addr len prot content) else None
  else a ← kplace s addr len; Some (a, map_range s a len prot content).

(** The content of an anonymous mapping. *)
Definition anonymous (_ : Z) : option Z := Some 0.

Definition munmap `{Kernel} (s : aspace) (addr len : Z) : option aspace :=
  if kunmap_ok s addr len
  then Some (mk_aspace
    (fun x => if in_range addr (round_up len) x then None else prot_at s x)
    (fun x => if in_range addr (round_up len) x then None else byte_at s x))
  else None.

Definition mapped (s : aspace) (a : Z) : bool :=
  match prot_at s a with Some _ => true | None => false end.

Definition set_prot (s : aspace) (a len prot : Z) : aspace :=
  mk_aspace (fun x => if in_range a (round_up len) x then Some prot else prot_at s x)
    (byte_at s).

(** Every page of the range is mapped. *)
Definition pages_mapped (s : aspace) (addr len : Z) : bool :=
  forallb (fun i => mapped s (addr + Z.of_nat i * PAGE_SIZE))
    (seq 0 (Z.to_nat (round_up len / PAGE_SIZE))).

Definition mprotect `{Kernel} (s : aspace) (addr len prot : Z) : option aspace :=
  if pages_mapped s addr len && kprot_ok s addr len prot
  then Some (set_prot s addr len prot) else None.

(** ** The file system

    What the process can see of the file system, as the [FileDescriptor] class
    and the helpers of [crazy_linker_system.cpp] use it. *)

Class FileSystem := {
  fs_open : cstr -> option file;
  (** whether a seek, or a read at a position, succeeds *)
  fs_seek_ok : file -> Z -> bool;
  fs_read_ok : file -> Z -> bool;
  (** whether a path is a regular file; the current directory *)
  fs_is_file : cstr -> bool;
  fs_cwd : cstr;
}.

(** [FileDescriptor::Read]: the number of bytes of a regular file read at
    [pos], or -1. *)
Definition fd_read `{FileSystem} (f : file) (pos n : Z) : Z :=
  if fs_read_ok f pos then Z.max 0 (Z.min n (f_size f - pos)) else -1.

(** The bytes of the file, for the decoders of its structures. *)
Definition file_reader (f : file) (p : Z) : option Z :=
  if (0 <=? p) && (p <? f_size f) then Some (f_byte f p) else None.

(** ** Page arithmetic *)

Lemma page_start_mod x : PAGE_START x = x - x mod PAGE_SIZE.
Proof.
  unfold PAGE_START, PAGE_MASK. rewrite <-Z.sub_land_same_l.
  change (PAGE_SIZE - 1) with (Z.ones 12). rewrite Z.land_ones by lia. done.
Qed.

Lemma page_offset_mod x : PAGE_OFFSET x = x mod PAGE_SIZE.
Proof.
  unfold PAGE_OFFSET, PAGE_MASK. rewrite Z.lnot_involutive.
  change (PAGE_SIZE - 1) with (Z.ones 12). rewrite Z.land_ones by lia. done.
Qed.

(** Replaces the page macros by quotients and remainders [lia] understands. *)
Ltac page_arith :=
  unfold page_aligned, round_up, PAGE_END in *;
  rewrite ?page_start_mod, ?page_offset_mod in *; unfold PAGE_SIZE in *;
  Z.div_mod_to_equations; lia.

Lemma page_start_le x : PAGE_START x <= x < PAGE_START x + PAGE_SIZE.
Proof. page_arith. Qed.

Lemma page_start_aligned x : page_aligned (PAGE_START x).
Proof. page_arith. Qed.

Lemma page_start_id x : page_aligned x -> PAGE_START x = x.
Proof. intros; page_arith. Qed.

Lemma page_start_mono x y : x <= y -> PAGE_START x <= PAGE_START y.
Proof. intros; page_arith. Qed.

Lemma page_end_small w x :
  0 <= x -> x + (PAGE_SIZE - 1) < 2 ^ w -> PAGE_END w x = round_up x.
Proof. intros. unfold PAGE_END. rewrite wrap_small; [done|]. split; unfold PAGE_SIZE in *; lia. Qed.

Lemma round_up_ge x : x <= round_up x < x + PAGE_SIZE.
Proof. page_arith. Qed.

Lemma round_up_aligned x : page_aligned (round_up x).
Proof. page_arith. Qed.

Lemma round_up_mono x y : x <= y -> round_up x <= round_up y.
Proof. intros; page_arith. Qed.

Lemma round_up_id x : page_aligned x -> round_up x = x.
Proof. intros; page_arith. Qed.

Lemma page_start_add a x : page_aligned a -> PAGE_START (a + x) = a + PAGE_START x.
Proof. intros; page_arith. Qed.

Lemma round_up_add a x : page_aligned a -> round_up (a + x) = a + round_up x.
Proof. intros; page_arith. Qed.

Lemma aligned_add x y : page_aligned x -> page_aligned y -> page_aligned (x + y).
Proof. intros; page_arith. Qed.

Lemma aligned_sub x y : page_aligned x -> page_aligned y -> page_aligned (x - y).
Proof. intros; page_arith. Qed.

Lemma page_start_nonneg x : 0 <= x -> 0 <= PAGE_START x.
Proof. intros; page_arith. Qed.

#[export] Hint Resolve page_start_aligned round_up_aligned aligned_add aligned_sub : ndk.

(** ** Ranges, loads and stores *)

Lemma in_range_true lo len a : in_range lo len a = true <-> lo <= a < lo + len.
Proof. unfold in_range. rewrite andb_true_iff, Z.leb_le, Z.ltb_lt. done. Qed.

Lemma in_range_false lo len a : in_range lo len a = false <-> ~ lo <= a < lo + len.
Proof. rewrite <-not_true_iff_false, in_range_true. done. Qed.

Lemma range_all_true f a n :
  range_all f a n = true <-> forall x, a <= x < a + n -> f x = true.
Proof.
  unfold range_all.
  assert (forall k y, all_from f k y = true <-> forall x, y <= x < y + Z.of_nat k -> f x = true) as H.
  { induction k as [|k IH]; intros y; [split; [intros; lia|done]|]. cbn [all_from].
    destruct (f y) eqn:E; [rewrite IH|split; [done|intros H; rewrite <-E; apply H; lia]].
    split; intros H x Hx; [|apply H; lia].
    destruct (decide (x = y)) as [->|]; [done|apply H; lia]. }
  rewrite H. split; intros Ha x Hx; apply Ha; lia.
Qed.

Lemma read_le_bound rd n a v :
  (forall x b, rd x = Some b -> 0 <= b < 256) -> read_le rd n a = Some v ->
  0 <= v < 256 ^ Z.of_nat n.
Proof.
  intros Hrd. revert a v. induction n as [|n IH]; intros a v H; simpl in H.
  { simplify_eq. simpl. lia. }
  destruct (rd a) as [b|] eqn:Eb; simplify_eq/=.
  destruct (read_le rd n (a + 1)) as [r|] eqn:Er; simplify_eq/=.
  apply IH in Er. apply Hrd in Eb.
  rewrite Nat2Z.inj_succ, Z.pow_succ_r by lia. lia.
Qed.

Lemma read_le_shift rd rd' n p p' :
  (forall i, 0 <= i < Z.of_nat n -> rd (p + i) = rd' (p' + i)) ->
  read_le rd n p = read_le rd' n p'.
Proof.
  revert p p'. induction n as [|n IH]; intros p p' H; [done|]. cbn [read_le].
  pose proof (H 0) as H0. rewrite !Z.add_0_r in H0. rewrite <-H0 by lia.
  destruct (rd p); [|done]. cbn. rewrite (IH (p + 1) (p' + 1)); [done|].
  intros i Hi. rewrite <-!Z.add_assoc. apply H. lia.
Qed.

Lemma read_le_ext rd rd' n a :
  (forall x, a <= x < a + Z.of_nat n -> rd x = rd' x) -> read_le rd n a = read_le rd' n a.
Proof. intros H. apply read_le_shift. intros i Hi. apply H. lia. Qed.

Lemma read_le_Some rd n a :
  (forall x, a <= x < a + Z.of_nat n -> exists b, rd x = Some b) ->
  exists v, read_le rd n a = Some v.
Proof.
  revert a. induction n as [|n IH]; intros a H; [by eexists|]. cbn [read_le].
  destruct (H a) as [b ->]; [lia|]. destruct (IH (a + 1)) as [v Hv]; [intros; apply H; lia|].
  cbn. rewrite Hv. by eexists.
Qed.

(** Reading back the bytes of an integer gives the integer at that width. *)
Lemma read_le_bytes n v a rd :
  (forall i, 0 <= i < Z.of_nat n -> rd (a + i) = Some (le_byte v i)) ->
  read_le rd n a = Some (v mod 256 ^ Z.of_nat n).
Proof.
  revert v a. induction n as [|n IH]; intros v a H.
  { simpl. by rewrite Z.mod_1_r. }
  cbn [read_le]. assert (rd a = Some (le_byte v 0)) as ->.
  { rewrite <-(H 0) by lia. f_equal. lia. }
  cbn. rewrite (IH (v / 256)).
  - cbn. f_equal. unfold le_byte. rewrite Z.pow_0_r, Z.div_1_r.
    rewrite Nat2Z.inj_succ, Z.pow_succ_r by lia.
    rewrite Z.rem_mul_r by (try apply Z.pow_pos_nonneg; lia). done.
  - intros i Hi. replace (a + 1 + i) with (a + (i + 1)) by lia.
    rewrite H by lia. f_equal. unfold le_byte.
    rewrite Z.div_div by (try apply Z.pow_pos_nonneg; lia).
    replace (256 * 256 ^ i) with (256 ^ (i + 1)); [done|].
    rewrite Z.pow_add_r by lia. lia.
Qed.

Lemma store_le_prot n s a v s' x : store_le n s a v = Some s' -> prot_at s' x = prot_at s x.
Proof. unfold store_le. case_match; intros; simplify_eq; done. Qed.

Lemma store_le_byte_out n s a v s' x :
  store_le n s a v = Some s' -> ~ a <= x < a + Z.of_nat n -> byte_at s' x = byte_at s x.
Proof.
  unfold store_le. case_match; intros; simplify_eq. cbn.
  destruct (in_range a (Z.of_nat n) x) eqn:E; [|done]. apply in_range_true in E. lia.
Qed.

Lemma store_le_load_other n s a v s' m b :
  store_le n s a v = Some s' -> b + Z.of_nat m <= a \/ a + Z.of_nat n <= b ->
  load_le m s' b = load_le m s b.
Proof.
  intros H Hd. apply read_le_ext. intros x Hx. unfold load_byte, can.
  rewrite (store_le_prot _ _ _ _ _ x H). case_match; [|done].
  erewrite store_le_byte_out by (eassumption || lia). done.
Qed.

Lemma store_le_load_same n s a v s' :
  store_le n s a v = Some s' ->
  (forall x, a <= x < a + Z.of_nat n -> can PROT_READ s x = true) ->
  load_le n s' a = Some (v mod 256 ^ Z.of_nat n).
Proof.
  intros H Hr. apply read_le_bytes. intros i Hi. unfold load_byte.
  assert (can PROT_READ s' (a + i) = true) as ->.
  { unfold can. erewrite store_le_prot by done. apply Hr. lia. }
  unfold store_le in H. case_match; simplify_eq. cbn.
  destruct (in_range a (Z.of_nat n) (a + i)) eqn:E.
  - do 2 f_equal. lia.
  - apply in_range_false in E. lia.
Qed.

(** The string [name] is at [p]. *)
Definition string_at (s : aspace) (p : Z) (name : cstr) : Prop :=
  (forall i c, name !! i = Some c -> load_byte s (p + Z.of_nat i) = Some (zc c) /\ zc c <> 0) /\
  load_byte s (p + Z.of_nat (length name)) = Some 0.

Lemma string_at_cons s p c name :
  string_at s p (c :: name) <->
  load_byte s p = Some (zc c) /\ zc c <> 0 /\ string_at s (p + 1) name.
Proof.
  unfold string_at. split.
  - intros [Hc H0]. pose proof (Hc 0%nat c eq_refl) as [Hb Hnz]. rewrite Z.add_0_r in Hb.
    split_and!; [done..| |].
    + intros i d Hd. specialize (Hc (S i) d Hd). rewrite Nat2Z.inj_succ in Hc.
      replace (p + 1 + Z.of_nat i) with (p + Z.succ (Z.of_nat i)) by lia. done.
    + cbn in H0. by replace (p + 1 + Z.of_nat (length name)) with (p + Z.of_nat (S (length name))) by lia.
  - intros (Hb & Hnz & Hc & H0). split.
    + intros [|i] d Hd; cbn in Hd; simplify_eq; [by rewrite Z.add_0_r|].
      replace (p + Z.of_nat (S i)) with (p + 1 + Z.of_nat i) by lia. by apply Hc.
    + cbn [length]. by replace (p + Z.of_nat (S (length name))) with (p + 1 + Z.of_nat (length name)) by lia.
Qed.

Lemma read_cstr_string s p name :
  string_at s p name -> Z.of_nat (length name) < 2 ^ 64 -> read_cstr s p = Some name.
Proof.
  intros Hs Hlen. unfold read_cstr.
  erewrite (loop_ends 64 (S (length name)) _ (p, []) (Some (rev [] ++ name))); [done| |lia].
  clear Hlen. generalize (@nil ascii) as acc. revert p Hs.
  induction name as [|c name IH]; intros p Hs acc.
  - destruct Hs as [_ H0]. rewrite Z.add_0_r in H0. cbn. rewrite H0. cbn. by rewrite app_nil_r.
  - apply string_at_cons in Hs as (Hb & Hnz & Hs). cbn [length]. rewrite rounds_S.
    rewrite Hb. apply Z.eqb_neq in Hnz. rewrite Hnz, cz_zc. rewrite (IH (p + 1) Hs (c :: acc)).
    cbn. by rewrite <-app_assoc.
Qed.

#[global] Opaque read_cstr.

(** The little-endian bytes of an integer, and an address space that holds the
    bytes [l] from [base], for concrete examples. *)
Definition le_bytes (n : nat) (v : Z) : list Z := map (le_byte v) (seqZ 0 (Z.of_nat n)).

Definition bytes_space (base prot : Z) (l : list Z) : aspace :=
  mk_aspace (fun x => if in_range base (Z.of_nat (length l)) x then Some prot else None)
            (fun x => if in_range base (Z.of_nat (length l)) x
                      then l !! Z.to_nat (x - base) else None).

(** Whether a new mapping of [len] bytes can go at [p]. *)
Definition free_at (s : aspace) (len p : Z) : bool :=
  (0 <? p) && (p mod PAGE_SIZE =? 0) && (p + round_up len <? 2 ^ 32)
  && range_all (fun x => negb (mapped s x)) p (round_up len).

(** A kernel that grants every request and places a mapping at the address it
    is given when the pages there are free, or at one of two other places. *)
#[export] Instance eager_kernel : Kernel := {|
  kplace s hint len := List.find (free_at s len) [hint; 0x40000000; 0x50000000];
  kmap_ok _ _ _ := true;
  kunmap_ok _ _ _ := true;
  kprot_ok _ _ _ _ := true;
|}.

#[export] Instance eager_kernel_ok w : 32 <= w -> KernelOk w eager_kernel.
Proof.
  intros Hw. assert (2 ^ 32 <= 2 ^ w) by (apply Z.pow_le_mono_r; lia).
  assert (forall s len p, free_at s len p = true ->
    page_aligned p /\ 0 < p /\ p + round_up len < 2 ^ w /\
    forall x, in_range p (round_up len) x = true -> prot_at s x = None) as Hfree.
  { unfold free_at. intros s len p E. bool_to_prop. split_and!; try done; try lia.
    intros x Hx. rewrite in_range_true in Hx. rewrite range_all_true in *.
    match goal with H : forall _, _ -> _ = true |- _ => specialize (H x Hx); unfold mapped in H end.
    by destruct (prot_at s x). }
  split; [cbv [eager_kernel kplace]..|done]; intros * [_ Hf]%find_some; apply Hfree in Hf;
    intros; destruct Hf as (? & ? & ? & ?); auto.
Qed.

(** The address space with nothing mapped. *)
Definition no_space : aspace := mk_aspace (fun _ => None) (fun _ => None).
