(* ===== verification/ElfTraits.v ===== *)
(** * ELF types for the supported CPUs ([elf_traits.h])

    The preprocessor configuration of the crazy linker is the type [arch]: the
    four CPUs [elf_traits.h] accepts.  The [ELF] traits structure becomes a set
    of functions of the architecture: word size, structure sizes, and decoding
    of the [<elf.h>] structures from little-endian bytes. *)

From S2P Require Import Prelude Kernel.

Open Scope Z_scope.

(** The values of [ELF_MACHINE] the header accepts. *)
Inductive arch :=
| arm
| i386
| mips
| aarch64.

#[export] Instance arch_eq_dec : EqDecision arch.
Proof. solve_decision. Defined.

(** [ELF::kElfBits] *)
Definition kElfBits (a : arch) : Z := match a with aarch64 => 64 | _ => 32 end.

(** [ELF::kElfClass]: [ELFCLASS32] or [ELFCLASS64] *)
Definition kElfClass (a : arch) : Z := match a with aarch64 => 2 | _ => 1 end.

(** [EM_ARM], [EM_386], [EM_MIPS], [EM_AARCH64] *)
Definition ELF_MACHINE (a : arch) : Z :=
  match a with arm => 40 | i386 => 3 | mips => 8 | aarch64 => 183 end.

(** [sizeof(ELF::Addr)] *)
Definition sizeof_Addr (a : arch) : nat := match a with aarch64 => 8 | _ => 4 end.

(** ** Structures of [<elf.h>] *)

Record Ehdr := mk_Ehdr {
  e_ident : list Z;
  e_type : Z;
  e_machine : Z;
  e_version : Z;
  e_phoff : Z;
  e_phentsize : Z;
  e_phnum : Z;
}.

Record Phdr := mk_Phdr {
  p_type : Z;
  p_offset : Z;
  p_vaddr : Z;
  p_filesz : Z;
  p_memsz : Z;
  p_flags : Z;
}.

Record Dyn := mk_Dyn {
  d_tag : Z;
  d_val : Z;
}.

Record Sym := mk_Sym {
  st_name : Z;
  st_value : Z;
  st_size : Z;
  st_info : Z;
  st_shndx : Z;
}.

(** A relocation entry; [r_addend] is 0 for an [ELF::Rel]. *)
Record Rela := mk_Rela {
  r_offset : Z;
  r_info : Z;
  r_addend : Z;
}.

#[export] Instance Phdr_eq_dec : EqDecision Phdr.
Proof. solve_decision. Defined.
#[export] Instance Sym_eq_dec : EqDecision Sym.
Proof. solve_decision. Defined.

Definition PT_LOAD : Z := 1.
Definition PT_DYNAMIC : Z := 2.
Definition PT_PHDR : Z := 6.
Definition PT_GNU_RELRO : Z := 0x6474e552.
Definition PT_ARM_EXIDX : Z := 0x70000001.

Definition PF_X : Z := 1.
Definition PF_W : Z := 2.
Definition PF_R : Z := 4.

Definition ET_DYN : Z := 3.
Definition EV_CURRENT : Z := 1.
Definition ELFDATA2LSB : Z := 1.

Definition SHN_UNDEF : Z := 0.
Definition STB_GLOBAL : Z := 1.
Definition STB_WEAK : Z := 2.

Definition ELF_ST_BIND (info : Z) : Z := Z.shiftr info 4.

Definition sizeof_Ehdr (a : arch) : Z := match a with aarch64 => 64 | _ => 52 end.
Definition sizeof_Phdr (a : arch) : Z := match a with aarch64 => 56 | _ => 32 end.
Definition sizeof_Dyn (a : arch) : Z := match a with aarch64 => 16 | _ => 8 end.
Definition sizeof_Sym (a : arch) : Z := match a with aarch64 => 24 | _ => 16 end.
Definition sizeof_Rel (a : arch) : Z := match a with aarch64 => 16 | _ => 8 end.
Definition sizeof_Rela (a : arch) : Z := match a with aarch64 => 24 | _ => 12 end.

(** [ELF32_R_TYPE] and [ELF64_R_TYPE] *)
Definition ELF_R_TYPE (a : arch) (info : Z) : Z :=
  match a with aarch64 => Z.land info 0xffffffff | _ => Z.land info 0xff end.

(** [ELF32_R_SYM] and [ELF64_R_SYM] *)
Definition ELF_R_SYM (a : arch) (info : Z) : Z :=
  match a with aarch64 => Z.shiftr info 32 | _ => Z.shiftr info 8 end.

(** ** Decoding *)

Section Decode.
Context (a : arch) (rd : Z -> option Z).

(** The first [n] bytes at [p]. *)
Fixpoint read_bytes (n : nat) (p : Z) : option (list Z) :=
  match n with
  | O => Some []
  | S n => b ← rd p; bs ← read_bytes n (p + 1); Some (b :: bs)
  end.

Definition read_addr (p : Z) : option Z := read_le rd (sizeof_Addr a) p.

Definition read_Ehdr (p : Z) : option Ehdr :=
  let w := Z.of_nat (sizeof_Addr a) in
  id ← read_bytes 16 p;
  ty ← read_le rd 2 (p + 16);
  mc ← read_le rd 2 (p + 18);
  vs ← read_le rd 4 (p + 20);
  po ← read_addr (p + 24 + w);
  pe ← read_le rd 2 (p + 24 + 3 * w + 6);
  pn ← read_le rd 2 (p + 24 + 3 * w + 8);
  Some (mk_Ehdr id ty mc vs po pe pn).

Definition read_Phdr (p : Z) : option Phdr :=
  match a with
  | aarch64 =>
      ty ← read_le rd 4 p;
      fl ← read_le rd 4 (p + 4);
      off ← read_addr (p + 8);
      va ← read_addr (p + 16);
      fsz ← read_addr (p + 32);
      msz ← read_addr (p + 40);
      Some (mk_Phdr ty off va fsz msz fl)
  | _ =>
      ty ← read_le rd 4 p;
      off ← read_addr (p + 4);
      va ← read_addr (p + 8);
      fsz ← read_addr (p + 16);
      msz ← read_addr (p + 20);
      fl ← read_le rd 4 (p + 24);
      Some (mk_Phdr ty off va fsz msz fl)
  end.

Definition read_Dyn (p : Z) : option Dyn :=
  t ← read_addr p;
  v ← read_addr (p + Z.of_nat (sizeof_Addr a));
  Some (mk_Dyn t v).

Definition read_Sym (p : Z) : option Sym :=
  match a with
  | aarch64 =>
      nm ← read_le rd 4 p;
      info ← rd (p + 4);
      shndx ← read_le rd 2 (p + 6);
      v ← read_addr (p + 8);
      sz ← read_addr (p + 16);
      Some (mk_Sym nm v sz info shndx)
  | _ =>
      nm ← read_le rd 4 p;
      v ← read_addr (p + 4);
      sz ← read_addr (p + 8);
      info ← rd (p + 12);
      shndx ← read_le rd 2 (p + 14);
      Some (mk_Sym nm v sz info shndx)
  end.

Definition read_Rel (p : Z) : option Rela :=
  off ← read_addr p;
  info ← read_addr (p + Z.of_nat (sizeof_Addr a));
  Some (mk_Rela off info 0).

(** [r_addend] is a signed word of the pointer size. *)
Definition read_Rela (p : Z) : option Rela :=
  let w := Z.of_nat (sizeof_Addr a) in
  off ← read_addr p;
  info ← read_addr (p + w);
  add ← read_addr (p + 2 * w);
  Some (mk_Rela off info (swrap (kElfBits a) add)).

(** The array of [n] structures of [sz] bytes from [p]. *)
Fixpoint read_array {A} (elt : Z -> option A) (sz : Z) (n : nat) (p : Z) : option (list A) :=
  match n with
  | O => Some []
  | S n => x ← elt p; xs ← read_array elt sz n (p + sz); Some (x :: xs)
  end.

End Decode.

(** ** Facts about the traits *)

Lemma kElfBits_bytes a : kElfBits a = 8 * Z.of_nat (sizeof_Addr a).
Proof. by destruct a. Qed.

Lemma kElfBits_nonneg a : 0 <= kElfBits a.
Proof. by destruct a. Qed.

Lemma pow_kElfBits a : 256 ^ Z.of_nat (sizeof_Addr a) = 2 ^ kElfBits a.
Proof. by destruct a. Qed.

Lemma kElfBits_large a : 2 ^ 32 <= 2 ^ kElfBits a.
Proof. destruct a; cbn; lia. Qed.

#[export] Hint Resolve kElfBits_nonneg : ndk.

Lemma read_array_length {A} (elt : Z -> option A) sz n p l :
  read_array elt sz n p = Some l -> length l = n.
Proof.
  revert p l. induction n as [|n IH]; intros p l H; simpl in H; [by simplify_eq|].
  destruct (elt p); simplify_eq/=. destruct (read_array elt sz n (p + sz)) eqn:E; simplify_eq/=.
  f_equal. eauto.
Qed.

Lemma read_array_lookup {A} (elt : Z -> option A) sz n p l i :
  read_array elt sz n p = Some l -> (i < n)%nat -> l !! i = elt (p + Z.of_nat i * sz).
Proof.
  revert p l i. induction n as [|n IH]; intros p l i H Hi; simpl in H; [lia|].
  destruct (elt p) eqn:E; simplify_eq/=.
  destruct (read_array elt sz n (p + sz)) eqn:E'; simplify_eq/=.
  destruct i as [|i]; cbn.
  - rewrite <-E. f_equal. lia.
  - rewrite (IH _ _ _ E') by lia. f_equal. lia.
Qed.

Lemma read_Phdr_shift a rd rd' p p' :
  (forall i, 0 <= i < sizeof_Phdr a -> rd (p + i) = rd' (p' + i)) ->
  read_Phdr a rd p = read_Phdr a rd' p'.
Proof.
  intros H. unfold read_Phdr, read_addr.
  assert (forall n k, 0 <= k -> k + Z.of_nat n <= sizeof_Phdr a ->
    read_le rd n (p + k) = read_le rd' n (p' + k)) as Hf.
  { intros n k Hk Hn. apply read_le_shift. intros i Hi. rewrite <-!Z.add_assoc. apply H. lia. }
  assert (read_le rd 4 p = read_le rd' 4 p') as H0.
  { specialize (Hf 4%nat 0). rewrite !Z.add_0_r in Hf. apply Hf; destruct a; cbn; lia. }
  destruct a; cbn [sizeof_Phdr sizeof_Addr] in *; rewrite H0, !Hf by lia; done.
Qed.

Lemma read_Phdr_ext a rd rd' p :
  (forall x, p <= x < p + sizeof_Phdr a -> rd x = rd' x) -> read_Phdr a rd p = read_Phdr a rd' p.
Proof. intros H. apply read_Phdr_shift. intros i Hi. apply H. lia. Qed.

Lemma read_array_shift {A} (elt elt' : Z -> option A) sz n p p' :
  (forall k, 0 <= k < Z.of_nat n -> elt (p + k * sz) = elt' (p' + k * sz)) ->
  read_array elt sz n p = read_array elt' sz n p'.
Proof.
  revert p p'. induction n as [|n IH]; intros p p' H; [done|]. cbn [read_array].
  pose proof (H 0) as H0. rewrite Z.mul_0_l, !Z.add_0_r in H0. rewrite <-H0 by lia.
  destruct (elt p); [|done]. cbn. rewrite (IH (p + sz) (p' + sz)); [done|].
  intros k Hk. specialize (H (k + 1)).
  replace (p + sz + k * sz) with (p + (k + 1) * sz) by lia.
  replace (p' + sz + k * sz) with (p' + (k + 1) * sz) by lia. apply H. lia.
Qed.

Lemma read_array_intro {A} (elt : Z -> option A) sz p l :
  (forall k x, l !! k = Some x -> elt (p + Z.of_nat k * sz) = Some x) ->
  read_array elt sz (length l) p = Some l.
Proof.
  revert p. induction l as [|x l IH]; intros p H; [done|]. cbn [length read_array].
  pose proof (H 0%nat x eq_refl) as H0. rewrite Z.mul_0_l, Z.add_0_r in H0. rewrite H0. cbn.
  rewrite IH; [done|]. intros k y Hk. specialize (H (S k) y Hk).
  replace (p + sz + Z.of_nat k * sz) with (p + Z.of_nat (S k) * sz) by lia. done.
Qed.

Lemma read_bytes_shift rd rd' n p p' :
  (forall i, 0 <= i < Z.of_nat n -> rd (p + i) = rd' (p' + i)) ->
  read_bytes rd n p = read_bytes rd' n p'.
Proof.
  revert p p'. induction n as [|n IH]; intros p p' H; [done|]. cbn [read_bytes].
  pose proof (H 0) as H0. rewrite !Z.add_0_r in H0. rewrite <-H0 by lia.
  destruct (rd p); [|done]. cbn. rewrite (IH (p + 1) (p' + 1)); [done|].
  intros i Hi. rewrite <-!Z.add_assoc. apply H. lia.
Qed.

Lemma read_Ehdr_shift a rd rd' p p' :
  (forall i, 0 <= i < sizeof_Ehdr a -> rd (p + i) = rd' (p' + i)) ->
  read_Ehdr a rd p = read_Ehdr a rd' p'.
Proof.
  intros H. unfold read_Ehdr, read_addr.
  rewrite (read_bytes_shift rd rd' 16 p p') by (intros; apply H; destruct a; cbn; lia).
  assert (forall n k, 0 <= k -> k + Z.of_nat n <= sizeof_Ehdr a ->
    read_le rd n (p + k) = read_le rd' n (p' + k)) as Hf.
  { intros n k Hk Hn. apply read_le_shift. intros i Hi. rewrite <-!Z.add_assoc. apply H. lia. }
  rewrite <-!Z.add_assoc. destruct a; cbn [sizeof_Ehdr sizeof_Addr] in *; rewrite !Hf by lia; done.
Qed.

Lemma read_bytes_Some rd n p :
  (forall x, p <= x < p + Z.of_nat n -> exists b, rd x = Some b) ->
  exists l, read_bytes rd n p = Some l.
Proof.
  revert p. induction n as [|n IH]; intros p H; [by eexists|]. cbn [read_bytes].
  destruct (H p) as [b ->]; [lia|]. destruct (IH (p + 1)) as [v Hv]; [intros; apply H; lia|].
  cbn. rewrite Hv. by eexists.
Qed.

Lemma read_Ehdr_Some a rd p :
  (forall x, p <= x < p + sizeof_Ehdr a -> exists b, rd x = Some b) ->
  exists h, read_Ehdr a rd p = Some h.
Proof.
  intros H. unfold read_Ehdr, read_addr.
  destruct (read_bytes_Some rd 16 p) as [l Hl].
  { intros x Hx. apply H. destruct a; cbn; lia. }
  assert (forall n k, 0 <= k -> k + Z.of_nat n <= sizeof_Ehdr a ->
    exists v, read_le rd n (p + k) = Some v) as Hf.
  { intros n k Hk Hn. apply read_le_Some. intros x Hx. apply H. lia. }
  rewrite Hl. cbn [mbind option_bind]. rewrite <-!Z.add_assoc.
  repeat match goal with
  | |- context [read_le rd ?n (p + ?k)] =>
      let v := fresh "v" in let E := fresh "E" in
      destruct (Hf n k) as [v E]; [destruct a; cbn; lia..|rewrite E; cbn [mbind option_bind]]
  end.
  by eexists.
Qed.
