(* ===== verification/Sample.v ===== *)
(** * A sample library

    The bytes of a small 32-bit ARM shared library, built field by field, for
    the concrete examples of the development: one segment of two pages with the
    ELF header, the program header table, a dynamic section, three symbols, their
    hash table, relocations and a few words of data. *)

From S2P Require Import Prelude Kernel ElfTraits.
Open Scope Z_scope.

Definition word (v : Z) : list Z := le_bytes 4 v.

Definition half (v : Z) : list Z := le_bytes 2 v.

Definition enc_Phdr (ph : Phdr) : list Z :=
  word (p_type ph) ++ word (p_offset ph) ++ word (p_vaddr ph) ++ word (p_vaddr ph) ++
  word (p_filesz ph) ++ word (p_memsz ph) ++ word (p_flags ph) ++ word PAGE_SIZE.

Definition enc_Sym (sym : Sym) : list Z :=
  word (st_name sym) ++ word (st_value sym) ++ word (st_size sym) ++
  [st_info sym; 0] ++ half (st_shndx sym).

Definition enc_pair (p : Z * Z) : list Z := word p.1 ++ word p.2.

Definition enc_string (s : string) : list Z := map zc (str s) ++ [0].

Definition sample_header : list Z :=
  [127; 69; 76; 70; 1; 1; 1; 0; 0; 0; 0; 0; 0; 0; 0; 0] ++
  half ET_DYN ++ half 40 ++ word 1 ++ word 0 ++ word 52 ++ word 0 ++ word 0 ++
  half 52 ++ half 32 ++ half 2 ++ half 0 ++ half 0 ++ half 0.

Definition sample_phdrs : list Phdr :=
  [mk_Phdr PT_LOAD 0 0 0x140 0x1400 (PF_R + PF_W);
   mk_Phdr PT_DYNAMIC 0x80 0x80 0x40 0x40 (PF_R + PF_W)].

(** At 0x80: [DT_HASH], [DT_STRTAB], [DT_SYMTAB], [DT_REL], [DT_RELSZ],
    [DT_PLTREL], [DT_SONAME], [DT_NULL]. *)
Definition sample_dynamic : list (Z * Z) :=
  [(4, 0x100); (5, 0xf0); (6, 0xc0); (17, 0x118); (18, 16); (20, 17); (14, 1); (0, 0)].

(** At 0xc0: the null symbol, the function [foo], the reference [bar]. *)
Definition sample_syms : list Sym :=
  [mk_Sym 0 0 0 0 0; mk_Sym 1 0x130 4 0x12 1; mk_Sym 5 0 0 0x10 0].

(** At 0xf0: the string table. *)
Definition sample_strings : list Z :=
  [0] ++ enc_string "foo" ++ enc_string "bar" ++ [0; 0; 0; 0; 0; 0; 0].

(** At 0x100: one bucket; the chain goes through symbols 2 and 1. *)
Definition sample_hash : list Z := flat_map word [1; 3; 2; 0; 0; 1].

(** At 0x118: the word at 0x128 is relative, the word at 0x12c refers to [bar]. *)
Definition sample_rels : list (Z * Z) := [(0x128, 23); (0x12c, 2 * 256 + 21)].

(** At 0x128: data. *)
Definition sample_data : list Z := word 0x130 ++ word 0 ++ word 7 ++ word 0 ++ word 0 ++ word 0.

Definition sample_bytes : list Z := Eval vm_compute in
  sample_header ++ flat_map enc_Phdr sample_phdrs ++ repeat 0 12 ++
  flat_map enc_pair sample_dynamic ++ flat_map enc_Sym sample_syms ++
  sample_strings ++ sample_hash ++ flat_map enc_pair sample_rels ++ sample_data.

(** The library mapped at [base]. *)
Definition sample_space (base : Z) : aspace :=
  bytes_space base (PROT_READ + PROT_WRITE) sample_bytes.
