(* ===== verification/LinkerPhdr.v ===== *)
(** * Program header tables ([linker_phdr.cpp])

    The functions of [linker_phdr.cpp] on a program header table, the
    [phdr_table]/[phdr_count] pair being the list of its entries. *)

From S2P Require Import Prelude Kernel ElfTraits.

Open Scope Z_scope.

(** [MAYBE_MAP_FLAG] *)
Definition MAYBE_MAP_FLAG (x from to : Z) : Z := if Z.land x from =? 0 then 0 else to.

(** [PFLAGS_TO_PROT] *)
Definition PFLAGS_TO_PROT (x : Z) : Z :=
  Z.lor (Z.lor (MAYBE_MAP_FLAG x PF_X PROT_EXEC) (MAYBE_MAP_FLAG x PF_R PROT_READ))
    (MAYBE_MAP_FLAG x PF_W PROT_WRITE).

(** Width and page rounding of the target's [ELF::Addr]. *)
Definition addr (a : arch) (x : Z) : Z := wrap (kElfBits a) x.

Definition page_end (a : arch) (x : Z) : Z := PAGE_END (kElfBits a) x.

(** One iteration of the loop of [phdr_table_get_load_size] on
    [(found_pt_load, min_vaddr, max_vaddr)]. *)
Definition load_size_step (a : arch) (st : bool * Z * Z) (phdr : Phdr) : bool * Z * Z :=
  let '(found, min_vaddr, max_vaddr) := st in
  if negb (p_type phdr =? PT_LOAD) then st
  else
    let min_vaddr := if p_vaddr phdr <? min_vaddr then p_vaddr phdr else min_vaddr in
    let max_vaddr :=
      if max_vaddr <? addr a (p_vaddr phdr + p_memsz phdr)
      then addr a (p_vaddr phdr + p_memsz phdr) else max_vaddr in
    (true, min_vaddr, max_vaddr).

(** The load size, [*out_min_vaddr] and [*out_max_vaddr]. *)
Definition phdr_table_get_load_size (a : arch) (phdr_table : list Phdr) : Z * Z * Z :=
  let '(found, min_vaddr, max_vaddr) :=
    fold_left (load_size_step a) phdr_table (false, addr a (-1), 0) in
  let min_vaddr := if found then min_vaddr else 0 in
  let min_vaddr := PAGE_START min_vaddr in
  let max_vaddr := page_end a max_vaddr in
  (addr a (max_vaddr - min_vaddr), min_vaddr, max_vaddr).

(** [_phdr_table_set_load_prot]: the result, and the address space with the
    protections changed before a failure. *)
Fixpoint phdr_table_set_load_prot `{Kernel} (a : arch) (phdr_table : list Phdr)
    (load_bias extra_prot_flags : Z) (s : aspace) : Z * aspace :=
  match phdr_table with
  | [] => (0, s)
  | phdr :: rest =>
      if negb (p_type phdr =? PT_LOAD) || negb (Z.land (p_flags phdr) PF_W =? 0)
      then phdr_table_set_load_prot a rest load_bias extra_prot_flags s
      else
        let seg_page_start := addr a (PAGE_START (p_vaddr phdr) + load_bias) in
        let seg_page_end :=
          addr a (page_end a (addr a (p_vaddr phdr + p_memsz phdr)) + load_bias) in
        match mprotect s seg_page_start (addr a (seg_page_end - seg_page_start))
                (Z.lor (PFLAGS_TO_PROT (p_flags phdr)) extra_prot_flags) with
        | None => (-1, s)
        | Some s' => phdr_table_set_load_prot a rest load_bias extra_prot_flags s'
        end
  end.

Definition phdr_table_protect_segments `{Kernel} (a : arch) (phdr_table : list Phdr)
    (load_bias : Z) (s : aspace) : Z * aspace :=
  phdr_table_set_load_prot a phdr_table load_bias 0 s.

Definition phdr_table_unprotect_segments `{Kernel} (a : arch) (phdr_table : list Phdr)
    (load_bias : Z) (s : aspace) : Z * aspace :=
  phdr_table_set_load_prot a phdr_table load_bias PROT_WRITE s.

(** [(relro_start, relro_size)] of the first [PT_GNU_RELRO] entry, [None] for
    the result -1. *)
Fixpoint phdr_table_get_relro_info (a : arch) (phdr_table : list Phdr) (load_bias : Z)
    : option (Z * Z) :=
  match phdr_table with
  | [] => None
  | phdr :: rest =>
      if negb (p_type phdr =? PT_GNU_RELRO)
      then phdr_table_get_relro_info a rest load_bias
      else
        let relro_start := addr a (PAGE_START (p_vaddr phdr) + load_bias) in
        let relro_size :=
          addr a (page_end a (addr a (p_vaddr phdr + p_memsz phdr)) + load_bias - relro_start) in
        Some (relro_start, relro_size)
  end.

Definition phdr_table_protect_gnu_relro `{Kernel} (a : arch) (phdr_table : list Phdr)
    (load_bias : Z) (s : aspace) : Z * aspace :=
  match phdr_table_get_relro_info a phdr_table load_bias with
  | None => (-1, s)
  | Some (relro_start, relro_size) =>
      match mprotect s relro_start relro_size PROT_READ with
      | Some s' => (0, s')
      | None => (-1, s)
      end
  end.

(** [(arm_exidx, arm_exidx_count)], or [None] for the result -1 (the outputs
    are then 0). *)
Fixpoint phdr_table_get_arm_exidx (a : arch) (phdr_table : list Phdr) (load_bias : Z)
    : option (Z * Z) :=
  match phdr_table with
  | [] => None
  | phdr :: rest =>
      if negb (p_type phdr =? PT_ARM_EXIDX)
      then phdr_table_get_arm_exidx a rest load_bias
      else Some (addr a (load_bias + p_vaddr phdr), wrap 32 (p_memsz phdr / 8))
  end.

(** [(dynamic, dynamic_count, dynamic_flags)]; the flags stay unset when there
    is no [PT_DYNAMIC] entry. *)
Fixpoint phdr_table_get_dynamic_section (a : arch) (phdr_table : list Phdr) (load_bias : Z)
    : Z * Z * option Z :=
  match phdr_table with
  | [] => (0, 0, None)
  | phdr :: rest =>
      if negb (p_type phdr =? PT_DYNAMIC)
      then phdr_table_get_dynamic_section a rest load_bias
      else (addr a (load_bias + p_vaddr phdr), wrap 32 (p_memsz phdr / sizeof_Dyn a),
            Some (p_flags phdr))
  end.

(** ** Specification vocabulary *)

Definition is_load (ph : Phdr) : Prop := p_type ph = PT_LOAD.

#[export] Instance is_load_dec ph : Decision (is_load ph).
Proof. unfold is_load. apply _. Defined.

(** The segment's pages lie inside the address range of the target. *)
Definition seg_ok (a : arch) (ph : Phdr) : Prop :=
  0 <= p_vaddr ph /\ 0 <= p_memsz ph /\
  p_vaddr ph + p_memsz ph + (PAGE_SIZE - 1) < 2 ^ kElfBits a.

(** The pages of a segment, before the load bias is added. *)
Definition seg_lo (ph : Phdr) : Z := PAGE_START (p_vaddr ph).

Definition seg_hi (ph : Phdr) : Z := round_up (p_vaddr ph + p_memsz ph).

(** The pages of a segment in memory. *)
Definition seg_base (a : arch) (load_bias : Z) (ph : Phdr) : Z :=
  addr a (seg_lo ph + load_bias).

Definition in_seg (a : arch) (load_bias : Z) (ph : Phdr) (x : Z) : Prop :=
  seg_base a load_bias ph <= x < seg_base a load_bias ph + (seg_hi ph - seg_lo ph).

(** The segments [_phdr_table_set_load_prot] acts on. *)
Definition readonly_load (ph : Phdr) : Prop :=
  is_load ph /\ Z.land (p_flags ph) PF_W = 0.

(** The page hull of the loadable segments. *)
Record load_hull (a : arch) (phdr_table : list Phdr) (size lo hi : Z) : Prop := {
  hull_lo_aligned : page_aligned lo;
  hull_hi_aligned : page_aligned hi;
  hull_size : size = hi - lo;
  hull_fits : 0 <= lo <= hi /\ hi < 2 ^ kElfBits a;
  hull_covers ph : ph ∈ phdr_table -> is_load ph -> lo <= seg_lo ph /\ seg_hi ph <= hi;
  hull_lo_tight : exists ph, ph ∈ phdr_table /\ is_load ph /\ lo = seg_lo ph;
  hull_hi_tight : exists ph, ph ∈ phdr_table /\ is_load ph /\ hi = seg_hi ph;
}.

(** ** Load size *)

Lemma addr_small a x : 0 <= x < 2 ^ kElfBits a -> addr a x = x.
Proof. apply wrap_small. Qed.

Lemma addr_fits a x : 0 <= addr a x < 2 ^ kElfBits a.
Proof. apply wrap_fits, kElfBits_nonneg. Qed.

Lemma page_end_seg a x :
  0 <= x -> x + (PAGE_SIZE - 1) < 2 ^ kElfBits a -> page_end a x = round_up x.
Proof. apply page_end_small. Qed.

(** The loop invariant: with a loadable segment seen, the accumulators are the
    least start and the greatest end of the segments seen so far. *)
Definition load_size_inv (seen : list Phdr) (st : bool * Z * Z) : Prop :=
  let '(found, lo, hi) := st in
  if found : bool then
    (forall ph, ph ∈ seen -> is_load ph -> lo <= p_vaddr ph /\ p_vaddr ph + p_memsz ph <= hi) /\
    (exists ph, ph ∈ seen /\ is_load ph /\ lo = p_vaddr ph) /\
    (exists ph, ph ∈ seen /\ is_load ph /\ hi = p_vaddr ph + p_memsz ph)
  else forall ph, ph ∈ seen -> ~ is_load ph.

Lemma load_size_step_inv a seen st ph :
  (is_load ph -> seg_ok a ph) ->
  st.1.1 = true \/ st = (false, addr a (-1), 0) ->
  load_size_inv seen st ->
  load_size_inv (seen ++ [ph]) (load_size_step a st ph) /\
  ((load_size_step a st ph).1.1 = true \/ load_size_step a st ph = (false, addr a (-1), 0)).
Proof.
  intros Hok Hst Hinv. destruct st as [[found lo] hi]. unfold load_size_step.
  destruct (p_type ph =? PT_LOAD) eqn:Et; bool_to_prop; cbn [negb].
  - specialize (Hok Et). destruct Hok as (H1 & H2 & H3).
    rewrite addr_small by (unfold PAGE_SIZE in *; lia).
    split; [|by left]. destruct Hst as [Hf|Hf]; simplify_eq/=.
    + destruct Hinv as (Hall & (p1 & Hp1 & Hl1 & ->) & (p2 & Hp2 & Hl2 & ->)). split_and!.
      * intros q [Hq| ->%list_elem_of_singleton]%elem_of_app Hlq.
        -- specialize (Hall _ Hq Hlq). repeat case_bool; lia.
        -- repeat case_bool; lia.
      * case_bool; [exists ph|exists p1]; rewrite elem_of_app, list_elem_of_singleton; auto.
      * case_bool; [exists ph|exists p2]; rewrite elem_of_app, list_elem_of_singleton; auto.
    + assert (addr a (-1) = 2 ^ kElfBits a - 1) as -> by (destruct a; reflexivity).
      assert ((p_vaddr ph <? 2 ^ kElfBits a - 1) = true) as ->
        by (unfold PAGE_SIZE in *; apply Z.ltb_lt; lia).
      split_and!.
      * intros q [Hq| ->%list_elem_of_singleton]%elem_of_app Hlq; [by destruct (Hinv q)|].
        case_bool; lia.
      * exists ph. rewrite elem_of_app, list_elem_of_singleton; auto.
      * exists ph. rewrite elem_of_app, list_elem_of_singleton. case_bool; split_and!; auto. lia.
  - split; [|done]. destruct found; cbn in *.
    + destruct Hinv as (Hall & (p1 & Hp1 & Hl1 & ->) & (p2 & Hp2 & Hl2 & ->)). split_and!.
      * intros q [Hq| ->%list_elem_of_singleton]%elem_of_app Hlq; auto. by destruct Et.
      * exists p1. rewrite elem_of_app; auto.
      * exists p2. rewrite elem_of_app; auto.
    + intros q [Hq| ->%list_elem_of_singleton]%elem_of_app; auto.
Qed.

Lemma load_size_fold_inv a rest seen st :
  (forall ph, ph ∈ rest -> is_load ph -> seg_ok a ph) ->
  st.1.1 = true \/ st = (false, addr a (-1), 0) ->
  load_size_inv seen st ->
  load_size_inv (seen ++ rest) (fold_left (load_size_step a) rest st).
Proof.
  revert seen st. induction rest as [|ph rest IH]; intros seen st Hok Hst Hinv; cbn.
  { by rewrite app_nil_r. }
  destruct (load_size_step_inv a seen st ph) as [Hi Hs]; try done.
  { apply Hok. set_solver. }
  replace (seen ++ ph :: rest) with ((seen ++ [ph]) ++ rest) by (by rewrite <-app_assoc).
  apply IH; try done. intros q Hq. apply Hok. set_solver.
Qed.

Lemma load_size_hull_core a phdr_table :
  (forall ph, ph ∈ phdr_table -> is_load ph -> seg_ok a ph) ->
  (exists ph, ph ∈ phdr_table /\ is_load ph) ->
  let '(size, lo, hi) := phdr_table_get_load_size a phdr_table in
  load_hull a phdr_table size lo hi.
Proof.
  intros Hok (ph0 & Hin0 & Hl0).
  pose proof (load_size_fold_inv a phdr_table [] (false, addr a (-1), 0) Hok) as Hinv.
  destruct (fold_left _ _ _) as [[found lo] hi] eqn:E.
  unfold phdr_table_get_load_size. rewrite E.
  destruct found; [|exfalso; destruct (Hinv (or_intror eq_refl)) with ph0; set_solver].
  destruct Hinv as (Hall & (p1 & Hp1 & Hl1 & ->) & (p2 & Hp2 & Hl2 & ->));
    [by right|set_solver|]. cbn [app] in *.
  pose proof (Hok _ Hp1 Hl1) as (? & ? & ?). pose proof (Hok _ Hp2 Hl2) as (? & ? & ?).
  rewrite page_end_seg by lia.
  assert (PAGE_START (p_vaddr p1) <= round_up (p_vaddr p2 + p_memsz p2)).
  { destruct (Hall _ Hp1 Hl1). pose proof (page_start_le (p_vaddr p1)).
    pose proof (round_up_ge (p_vaddr p2 + p_memsz p2)). lia. }
  pose proof (page_start_nonneg (p_vaddr p1)).
  pose proof (round_up_ge (p_vaddr p2 + p_memsz p2)).
  rewrite addr_small by lia.
  split; eauto with ndk; [lia|].
  intros ph Hin Hl. destruct (Hall _ Hin Hl). split.
  - by apply page_start_mono.
  - by apply round_up_mono.
Qed.

Lemma load_size_none_core a phdr_table :
  (forall ph, ph ∈ phdr_table -> ~ is_load ph) ->
  phdr_table_get_load_size a phdr_table = (0, 0, 0).
Proof.
  intros Hno. unfold phdr_table_get_load_size.
  assert (fold_left (load_size_step a) phdr_table (false, addr a (-1), 0)
          = (false, addr a (-1), 0)) as ->.
  { induction phdr_table as [|ph t IH]; [done|]. cbn.
    destruct (p_type ph =? PT_LOAD) eqn:E; bool_to_prop; [|apply IH; set_solver].
    by destruct (Hno ph); [set_solver|]. }
  by destruct a.
Qed.

(** ** Protection of the segments *)

Lemma seg_len_nonneg a ph : seg_ok a ph -> 0 <= seg_hi ph - seg_lo ph.
Proof.
  intros (? & ? & ?). unfold seg_hi, seg_lo.
  pose proof (page_start_le (p_vaddr ph)). pose proof (round_up_ge (p_vaddr ph + p_memsz ph)). lia.
Qed.

Lemma mprotect_Some `{Kernel} s p len prot s' :
  mprotect s p len prot = Some s' -> s' = set_prot s p len prot.
Proof. unfold mprotect. case_match; intros; by simplify_eq. Qed.

(** The [mprotect] arguments computed by the loop are the pages of the segment. *)
Lemma set_load_prot_args a load_bias ph :
  seg_ok a ph ->
  addr a (addr a (page_end a (addr a (p_vaddr ph + p_memsz ph)) + load_bias)
          - addr a (PAGE_START (p_vaddr ph) + load_bias)) = seg_hi ph - seg_lo ph.
Proof.
  intros Hok. pose proof (seg_len_nonneg _ _ Hok). destruct Hok as (? & ? & ?).
  rewrite (addr_small a (p_vaddr ph + p_memsz ph)) by (unfold PAGE_SIZE in *; lia).
  rewrite page_end_seg by lia. unfold addr. autorewrite with wrap.
  replace (round_up (p_vaddr ph + p_memsz ph) + load_bias - (PAGE_START (p_vaddr ph) + load_bias))
    with (seg_hi ph - seg_lo ph) by (unfold seg_hi, seg_lo; lia).
  apply wrap_small. split; [done|]. unfold seg_hi, seg_lo in *.
  pose proof (round_up_ge (p_vaddr ph + p_memsz ph)).
  pose proof (page_start_nonneg (p_vaddr ph)). lia.
Qed.

Lemma seg_len_aligned ph : page_aligned (seg_hi ph - seg_lo ph).
Proof. unfold seg_hi, seg_lo. auto with ndk. Qed.

(** A successful pass leaves the content, sets the protection of the pages of
    the read-only segments to that of one of them, and keeps the others. *)
Lemma set_load_prot_spec `{Kernel} a phdr_table load_bias extra s s' :
  (forall ph, ph ∈ phdr_table -> readonly_load ph -> seg_ok a ph) ->
  phdr_table_set_load_prot a phdr_table load_bias extra s = (0, s') ->
  byte_at s' = byte_at s /\
  forall x,
    (prot_at s' x = prot_at s x /\
     forall ph, ph ∈ phdr_table -> readonly_load ph -> ~ in_seg a load_bias ph x) \/
    (exists ph, ph ∈ phdr_table /\ readonly_load ph /\ in_seg a load_bias ph x /\
       prot_at s' x = Some (Z.lor (PFLAGS_TO_PROT (p_flags ph)) extra)).
Proof.
  revert s. induction phdr_table as [|ph t IH]; intros s Hok Hrun; cbn in Hrun.
  { simplify_eq. split; [done|]. left. split; [done|]. set_solver. }
  assert (forall q, q ∈ t -> readonly_load q -> seg_ok a q) as Hok'
    by (intros q Hq; apply Hok; by right).
  case_bool.
  - destruct (IH s Hok' Hrun) as [Hb Hp]. split; [done|]. intros x.
    destruct (Hp x) as [[Hx Hn]|(q & ? & ? & ? & ?)].
    + left. split; [done|]. intros q [->|Hq]%elem_of_cons [Hl Hw]; [|by apply Hn].
      unfold is_load in Hl. destruct E; bool_to_prop; done.
    + right. exists q. set_solver.
  - assert (readonly_load ph) as Hro by done.
    assert (seg_ok a ph) as Hph by (apply Hok; [by left|done]).
    rewrite set_load_prot_args in Hrun by done.
    destruct (mprotect _ _ _ _) as [s1|] eqn:Em; [|simplify_eq].
    apply mprotect_Some in Em.
    destruct (IH s1 Hok' Hrun) as [Hb Hp]. split; [by rewrite Hb, Em|]. intros x.
    destruct (Hp x) as [[Hx Hn]|(q & ? & ? & ? & ?)]; [|right; exists q; set_solver].
    rewrite Em in Hx. cbn in Hx. rewrite round_up_id in Hx by apply seg_len_aligned.
    destruct (in_range _ _ x) eqn:Er.
    + right. exists ph. apply in_range_true in Er. split_and!; [set_solver|done|done|done].
    + left. split; [done|]. apply in_range_false in Er.
      intros q [->|Hq]%elem_of_cons ?; [done|by apply Hn].
Qed.

Lemma relro_info_first a phdr_table load_bias start size :
  phdr_table_get_relro_info a phdr_table load_bias = Some (start, size) ->
  exists pre ph post, phdr_table = pre ++ ph :: post /\ p_type ph = PT_GNU_RELRO /\
    (forall q, q ∈ pre -> p_type q <> PT_GNU_RELRO) /\ start = seg_base a load_bias ph /\
    (seg_ok a ph -> size = seg_hi ph - seg_lo ph).
Proof.
  induction phdr_table as [|ph t IH]; cbn; intros H; [done|].
  destruct (p_type ph =? PT_GNU_RELRO) eqn:E; cbn in H; bool_to_prop.
  - simplify_eq. exists [], ph, t. split_and!; [done|done|set_solver|done|].
    intros Hok. rewrite <-(set_load_prot_args a load_bias ph Hok).
    unfold addr. by autorewrite with wrap.
  - destruct (IH H) as (pre & q & post & -> & Hq & Hpre & ? & ?).
    exists (ph :: pre), q, post. split_and!; try done.
    intros r [->|Hr]%elem_of_cons; [done|by apply Hpre].
Qed.

(** ** Properties *)

(** [phdr_table_get_load_size] computes the page hull of the loadable
    segments: the smallest page-aligned range of addresses that contains every
    [PT_LOAD] segment of the table, with the size the loader reserves. *)
Theorem load_size_hull a phdr_table :
  (forall ph, ph ∈ phdr_table -> is_load ph -> seg_ok a ph) ->
  (exists ph, ph ∈ phdr_table /\ is_load ph) ->
  let '(size, lo, hi) := phdr_table_get_load_size a phdr_table in
  load_hull a phdr_table size lo hi.
Proof. apply load_size_hull_core. Qed.

(** Two segments as in the technical note of [linker_phdr.cpp]. *)
Definition note_table : list Phdr :=
  [mk_Phdr PT_LOAD 0 0x30000 0x4000 0x4000 (PF_R + PF_X);
   mk_Phdr PT_DYNAMIC 0x4100 0x40100 0x80 0x80 (PF_R + PF_W);
   mk_Phdr PT_LOAD 0x4000 0x40000 0x2000 0x8000 (PF_R + PF_W);
   mk_Phdr PT_GNU_RELRO 0x4000 0x40000 0x1000 0x1000 PF_R].

Lemma load_size_hull_witness :
  phdr_table_get_load_size arm note_table = (0x18000, 0x30000, 0x48000) /\
  load_hull arm note_table 0x18000 0x30000 0x48000.
Proof.
  split; [reflexivity|].
  apply (load_size_hull arm note_table).
  - intros ph Hin _. unfold seg_ok, note_table in *. elem_inv Hin; split_and!; vm_compute; congruence.
  - eexists. split; [apply elem_of_cons; by left|reflexivity].
Defined.

(** Relocating a library with text relocations is bracketed by
    [phdr_table_unprotect_segments] and [phdr_table_protect_segments].  When
    both succeed, the read-only segments are writable in between, their content
    is untouched, and afterwards every page of the process has the protection
    it had before. *)
Theorem unprotect_protect_restores `{Kernel} a phdr_table load_bias s s1 s2 :
  (forall ph, ph ∈ phdr_table -> readonly_load ph -> seg_ok a ph) ->
  (forall ph x, ph ∈ phdr_table -> readonly_load ph -> in_seg a load_bias ph x ->
     prot_at s x = Some (PFLAGS_TO_PROT (p_flags ph))) ->
  phdr_table_unprotect_segments a phdr_table load_bias s = (0, s1) ->
  phdr_table_protect_segments a phdr_table load_bias s1 = (0, s2) ->
  (forall ph x, ph ∈ phdr_table -> readonly_load ph -> in_seg a load_bias ph x ->
     can PROT_WRITE s1 x = true) /\
  (forall x, prot_at s2 x = prot_at s x) /\ byte_at s2 = byte_at s.
Proof.
  intros Hok Hinit H1 H2.
  destruct (set_load_prot_spec _ _ _ _ _ _ Hok H1) as [Hb1 Hp1].
  destruct (set_load_prot_spec _ _ _ _ _ _ Hok H2) as [Hb2 Hp2].
  split_and!; [| |congruence].
  - intros ph x Hin Hro Hx. unfold can.
    destruct (Hp1 x) as [[_ Hn]|(q & _ & _ & _ & ->)]; [by destruct (Hn ph)|].
    apply negb_true_iff, Z.eqb_neq. intros Hz.
    apply (f_equal (fun z => Z.testbit z 1)) in Hz.
    rewrite Z.land_spec, Z.lor_spec in Hz. by rewrite orb_true_r in Hz.
  - intros x. destruct (Hp2 x) as [[-> Hn]|(q & Hq & Hro & Hx & ->)].
    + destruct (Hp1 x) as [[-> _]|(q & Hq & Hro & Hx & _)]; [done|by destruct (Hn q)].
    + rewrite (Hinit q x Hq Hro Hx), Z.lor_0_r. done.
Qed.

(** The address space with the segments of [note_table] mapped at their
    addresses. *)
Definition note_space : aspace :=
  map_range (map_range no_space 0x30000 0x4000 (PROT_READ + PROT_EXEC) anonymous)
    0x40000 0x8000 (PROT_READ + PROT_WRITE) anonymous.

Lemma unprotect_protect_restores_witness :
  let s1 := (phdr_table_unprotect_segments arm note_table 0 note_space).2 in
  let s2 := (phdr_table_protect_segments arm note_table 0 s1).2 in
  can PROT_WRITE s1 0x30010 = true /\ (forall x, prot_at s2 x = prot_at note_space x).
Proof.
  intros s1 s2.
  destruct (unprotect_protect_restores arm note_table 0 note_space s1 s2) as (Hw & Hr & _);
    [..|split; [|exact Hr]].
  - intros ph Hin _. unfold seg_ok, note_table in *. elem_inv Hin; split_and!; vm_compute; congruence.
  - intros ph x Hin [Hl Hw] Hx.
    unfold note_table in Hin. elem_inv Hin; try discriminate.
    unfold in_seg in Hx. change (seg_base arm 0 _) with 0x30000 in Hx.
    change (seg_hi _ - seg_lo _) with 0x4000 in Hx. unfold note_space, map_range. cbn [prot_at].
    destruct (in_range 0x40000 _ x) eqn:E1.
    { apply in_range_true in E1. change (round_up 0x8000) with 0x8000 in E1. lia. }
    destruct (in_range 0x30000 _ x) eqn:E2; [reflexivity|].
    apply in_range_false in E2. change (round_up 0x4000) with 0x4000 in E2. lia.
  - apply injective_projections; [vm_compute|]; reflexivity.
  - apply injective_projections; [vm_compute|]; reflexivity.
  - apply (Hw (mk_Phdr PT_LOAD 0 0x30000 0x4000 0x4000 (PF_R + PF_X))).
    + apply elem_of_cons; by left.
    + by split.
    + split; vm_compute; congruence.
Defined.
