(* ===== verification/ElfLoader.v ===== *)
(** * Loading the segments of an ELF file ([crazy_linker_elf_loader.cpp])

    The class [ElfLoader]: the header checks, the temporary mapping of the
    program header table, the reservation of the address range, the mapping of
    the loadable segments and the search of the loaded program header.  The
    state is the object together with the address space of the process. *)

From S2P Require Import Prelude Kernel ElfTraits LinkerPhdr.

Open Scope Z_scope.
Open Scope ndk_scope.

(** The fields of the class; a null pointer is 0. *)
Record ElfLoader := mk_ElfLoader {
  fd_ : option file;
  header_ : option Ehdr;
  phdr_num_ : Z;
  phdr_mmap_ : Z;
  phdr_table_ : Z;
  phdr_size_ : Z;
  file_offset_ : Z;
  wanted_load_address_ : Z;
  load_start_ : Z;
  load_size_ : Z;
  load_bias_ : Z;
  loaded_phdr_ : Z;
  space : aspace;
}.

(** The object the constructor makes, in a process with address space [s]. *)
Definition new_ElfLoader (s : aspace) : ElfLoader :=
  mk_ElfLoader None None 0 0 0 0 0 0 0 0 0 0 s.

Definition set_space (sp : aspace) (l : ElfLoader) : ElfLoader :=
  mk_ElfLoader (fd_ l) (header_ l) (phdr_num_ l) (phdr_mmap_ l) (phdr_table_ l) (phdr_size_ l)
    (file_offset_ l) (wanted_load_address_ l) (load_start_ l) (load_size_ l) (load_bias_ l)
    (loaded_phdr_ l) sp.

Definition set_request (wanted off : Z) (l : ElfLoader) : ElfLoader :=
  mk_ElfLoader (fd_ l) (header_ l) (phdr_num_ l) (phdr_mmap_ l) (phdr_table_ l) (phdr_size_ l)
    off wanted (load_start_ l) (load_size_ l) (load_bias_ l) (loaded_phdr_ l) (space l).

Definition set_fd (f : file) (l : ElfLoader) : ElfLoader :=
  mk_ElfLoader (Some f) (header_ l) (phdr_num_ l) (phdr_mmap_ l) (phdr_table_ l) (phdr_size_ l)
    (file_offset_ l) (wanted_load_address_ l) (load_start_ l) (load_size_ l) (load_bias_ l)
    (loaded_phdr_ l) (space l).

Definition set_header (h : Ehdr) (l : ElfLoader) : ElfLoader :=
  mk_ElfLoader (fd_ l) (Some h) (phdr_num_ l) (phdr_mmap_ l) (phdr_table_ l) (phdr_size_ l)
    (file_offset_ l) (wanted_load_address_ l) (load_start_ l) (load_size_ l) (load_bias_ l)
    (loaded_phdr_ l) (space l).

Definition set_phdr_num (n sz : Z) (l : ElfLoader) : ElfLoader :=
  mk_ElfLoader (fd_ l) (header_ l) n (phdr_mmap_ l) (phdr_table_ l) sz
    (file_offset_ l) (wanted_load_address_ l) (load_start_ l) (load_size_ l) (load_bias_ l)
    (loaded_phdr_ l) (space l).

Definition set_phdr_map (map table : Z) (l : ElfLoader) : ElfLoader :=
  mk_ElfLoader (fd_ l) (header_ l) (phdr_num_ l) map table (phdr_size_ l)
    (file_offset_ l) (wanted_load_address_ l) (load_start_ l) (load_size_ l) (load_bias_ l)
    (loaded_phdr_ l) (space l).

Definition set_load_size (size : Z) (l : ElfLoader) : ElfLoader :=
  mk_ElfLoader (fd_ l) (header_ l) (phdr_num_ l) (phdr_mmap_ l) (phdr_table_ l) (phdr_size_ l)
    (file_offset_ l) (wanted_load_address_ l) (load_start_ l) size (load_bias_ l)
    (loaded_phdr_ l) (space l).

Definition set_load (start bias : Z) (l : ElfLoader) : ElfLoader :=
  mk_ElfLoader (fd_ l) (header_ l) (phdr_num_ l) (phdr_mmap_ l) (phdr_table_ l) (phdr_size_ l)
    (file_offset_ l) (wanted_load_address_ l) start (load_size_ l) bias
    (loaded_phdr_ l) (space l).

Definition set_loaded_phdr (p : Z) (l : ElfLoader) : ElfLoader :=
  mk_ElfLoader (fd_ l) (header_ l) (phdr_num_ l) (phdr_mmap_ l) (phdr_table_ l) (phdr_size_ l)
    (file_offset_ l) (wanted_load_address_ l) (load_start_ l) (load_size_ l) (load_bias_ l)
    p (space l).

Definition modify (f : ElfLoader -> ElfLoader) : M ElfLoader unit := fun l => Ret tt (f l).

(** [if (!ok) { error->Set(e); return false; }] *)
Definition require (ok : bool) (e : Error) : M ElfLoader unit :=
  fun l => if ok then Ret tt l else Fail e l.

Section Operations.
Context (a : arch) `{K : Kernel} `{FS : FileSystem}.

(** Entry [i] of the temporary copy of the program header table. *)
Definition phdr_entry (i : Z) : M ElfLoader Phdr :=
  lread (fun l => read_Phdr a (load_byte (space l)) (phdr_table_ l + i * sizeof_Phdr a)).

(** The [phdr_num_] entries of the table. *)
Definition phdr_entries : M ElfLoader (list Phdr) :=
  lread (fun l => read_array (read_Phdr a (load_byte (space l))) (sizeof_Phdr a)
                    (Z.to_nat (phdr_num_ l)) (phdr_table_ l)).

(** [ElfLoader::ReadElfHeader] on the open file, positioned at [file_offset_]. *)
Definition ReadElfHeader (f : file) : M ElfLoader unit :=
  let* l := lget in
  let ret := fd_read f (file_offset_ l) (sizeof_Ehdr a) in
  do* require (0 <=? ret) (Msg "Can't read file: %s" []) in
  do* require (ret =? sizeof_Ehdr a) (Msg "File too small to be ELF" []) in
  let* h := lread (fun l => read_Ehdr a (file_reader f) (file_offset_ l)) in
  do* modify (set_header h) in
  do* require (bool_decide (take 4 (e_ident h) = [127; 69; 76; 70])) (Msg "Bad ELF magic" []) in
  let ei_class := nth 4 (e_ident h) 0 in
  do* require (ei_class =? kElfClass a)
        (Msg "Not a %d-bit class: %d" [AZ (kElfBits a); AZ ei_class]) in
  let ei_data := nth 5 (e_ident h) 0 in
  do* require (ei_data =? ELFDATA2LSB) (Msg "Not little-endian class: %d" [AZ ei_data]) in
  do* require (e_type h =? ET_DYN) (Msg "Not a shared library type: %d" [AZ (e_type h)]) in
  do* require (e_version h =? EV_CURRENT)
        (Msg "Unexpected ELF version: %d" [AZ (e_version h)]) in
  require (e_machine h =? ELF_MACHINE a)
    (Msg "Unexpected ELF machine type: %d" [AZ (e_machine h)]).

(** [ElfLoader::ReadProgramHeader] *)
Definition ReadProgramHeader (f : file) (h : Ehdr) : M ElfLoader unit :=
  let phdr_num := e_phnum h in
  do* modify (fun l => set_phdr_num phdr_num (phdr_size_ l) l) in
  do* require ((1 <=? phdr_num) && (phdr_num <=? 65536 / sizeof_Phdr a))
        (Msg "Invalid program header count: %d" [AZ phdr_num]) in
  let page_min := PAGE_START (e_phoff h) in
  let page_max := page_end a (addr a (e_phoff h + phdr_num * sizeof_Phdr a)) in
  let page_offset := PAGE_OFFSET (e_phoff h) in
  let phdr_size := addr a (page_max - page_min) in
  do* modify (set_phdr_num phdr_num phdr_size) in
  let* l := lget in
  match mmap (space l) 0 phdr_size PROT_READ false
          (file_content f (page_min + file_offset_ l)) with
  | None => lfail (Msg "Phdr mmap failed: %s" [])
  | Some (mmap_result, sp) =>
      do* modify (set_space sp) in
      modify (set_phdr_map mmap_result (addr a (mmap_result + page_offset)))
  end.

(** [ElfLoader::ReserveAddressSpace] *)
Definition ReserveAddressSpace : M ElfLoader unit :=
  let* tbl := phdr_entries in
  let '(load_size, min_vaddr, _) := phdr_table_get_load_size a tbl in
  do* modify (set_load_size load_size) in
  do* require (negb (load_size =? 0)) (Msg "No loadable segments" []) in
  let* l := lget in
  let fixed := negb (wanted_load_address_ l =? 0) in
  let address := if fixed then wanted_load_address_ l else min_vaddr in
  match mmap (space l) address load_size PROT_NONE fixed anonymous with
  | None => lfail (Msg "Could not reserve %d bytes of address space" [AZ load_size])
  | Some (start, sp) =>
      do* modify (set_space sp) in
      modify (set_load start (addr a (start - min_vaddr)))
  end.

(** [ElfLoader::CheckPhdr] *)
Definition CheckPhdr (loaded : Z) : M ElfLoader unit :=
  let* tbl := phdr_entries in
  let* l := lget in
  let loaded_end := addr a (loaded + phdr_num_ l * sizeof_Phdr a) in
  let inside (phdr : Phdr) :=
    let seg_start := addr a (p_vaddr phdr + load_bias_ l) in
    let seg_end := addr a (p_filesz phdr + seg_start) in
    (p_type phdr =? PT_LOAD) && (seg_start <=? loaded) && (loaded_end <=? seg_end) in
  if existsb inside tbl then modify (set_loaded_phdr loaded)
  else lfail (Msg "Loaded program header %x not in loadable segment" [AZ loaded]).

(** [ElfLoader::FindPhdr] *)
Definition FindPhdr : M ElfLoader unit :=
  let* tbl := phdr_entries in
  let* l := lget in
  match List.find (fun phdr => p_type phdr =? PT_PHDR) tbl with
  | Some phdr => CheckPhdr (addr a (load_bias_ l + p_vaddr phdr))
  | None =>
      match List.find (fun phdr => p_type phdr =? PT_LOAD) tbl with
      | Some phdr =>
          if p_offset phdr =? 0
          then
            let elf_addr := addr a (load_bias_ l + p_vaddr phdr) in
            let* ehdr := lread (fun l => read_Ehdr a (load_byte (space l)) elf_addr) in
            CheckPhdr (addr a (elf_addr + e_phoff ehdr))
          else lfail (Msg "Can't find loaded program header" [])
      | None => lfail (Msg "Can't find loaded program header" [])
      end
  end.

(** The [fd_.Map] call of the loop of [ElfLoader::LoadSegments]. *)
Definition map_file_part (f : file) (i seg_page_start file_length prot off : Z) : M aspace unit :=
  fun s =>
    if file_length =? 0 then Ret tt s
    else match mmap s seg_page_start file_length prot true (file_content f off) with
         | None => Fail (Msg "Could not map segment %d: %s" [AZ i]) s
         | Some (_, s') => Ret tt s'
         end.

(** Zero-filling up to the page limit in a writable segment. *)
Definition zero_tail (flags seg_file_end : Z) : M aspace unit :=
  fun s =>
    if negb (Z.land flags PF_W =? 0) && (0 <? PAGE_OFFSET seg_file_end)
    then match memset s seg_file_end 0 (PAGE_SIZE - PAGE_OFFSET seg_file_end) with
         | None => Crash
         | Some s' => Ret tt s'
         end
    else Ret tt s.

(** The anonymous mapping of the extra pages. *)
Definition map_zero_part (seg_file_end seg_page_end prot : Z) : M aspace unit :=
  fun s =>
    if seg_file_end <? seg_page_end
    then match mmap s seg_file_end (addr a (seg_page_end - seg_file_end)) prot true anonymous with
         | None => Fail (Msg "Could not zero-fill gap: %s" []) s
         | Some (_, s') => Ret tt s'
         end
    else Ret tt s.

(** The body of the loop of [ElfLoader::LoadSegments] on the loadable segment
    of index [i]. *)
Definition load_segment (f : file) (load_bias file_offset i : Z) (phdr : Phdr)
    : M aspace unit :=
  let seg_start := addr a (p_vaddr phdr + load_bias) in
  let seg_end := addr a (seg_start + p_memsz phdr) in
  let seg_page_start := PAGE_START seg_start in
  let seg_page_end := page_end a seg_end in
  let seg_file_end := addr a (seg_start + p_filesz phdr) in
  let file_start := p_offset phdr in
  let file_end := addr a (file_start + p_filesz phdr) in
  let file_page_start := PAGE_START file_start in
  let file_length := addr a (file_end - file_page_start) in
  let prot := PFLAGS_TO_PROT (p_flags phdr) in
  do* map_file_part f i seg_page_start file_length prot (file_page_start + file_offset) in
  do* zero_tail (p_flags phdr) seg_file_end in
  map_zero_part (page_end a seg_file_end) seg_page_end prot.

(** Runs an operation on the address space of the loader. *)
Definition on_space {A} (c : M aspace A) : M ElfLoader A :=
  fun l => match c (space l) with
           | Ret x s => Ret x (set_space s l)
           | Fail e s => Fail e (set_space s l)
           | Crash => Crash
           end.

(** The loop of [ElfLoader::LoadSegments] over the entries from [i]. *)
Fixpoint load_segments_from (f : file) (n : nat) (i : Z) : M ElfLoader unit :=
  match n with
  | O => lret tt
  | S n =>
      let* phdr := phdr_entry i in
      let* l := lget in
      do* (if negb (p_type phdr =? PT_LOAD) then lret tt
           else on_space (load_segment f (load_bias_ l) (file_offset_ l) i phdr)) in
      load_segments_from f n (i + 1)
  end.

(** [ElfLoader::LoadSegments] *)
Definition LoadSegments (f : file) : M ElfLoader unit :=
  let* l := lget in load_segments_from f (Z.to_nat (phdr_num_ l)) 0.

(** The last part of [ElfLoader::LoadAt]: the reserved range is unmapped when
    the segments cannot be loaded. *)
Definition load_reserved_range (f : file) : M ElfLoader unit := fun l =>
  match (do* LoadSegments f in FindPhdr) l with
  | Ret tt l' => Ret tt l'
  | Fail e l' =>
      let cleanup :=
        if (load_start_ l' =? 0) || (load_size_ l' =? 0) then None
        else munmap (space l') (load_start_ l') (load_size_ l') in
      Fail e (match cleanup with Some s => set_space s l' | None => l' end)
  | Crash => Crash
  end.

(** [ElfLoader::LoadAt] *)
Definition LoadAt (lib_path : cstr) (file_offset wanted_address : Z) : M ElfLoader unit :=
  do* require (wanted_address =? PAGE_START wanted_address)
        (Msg "Load address is not page aligned (%08x)" [AZ wanted_address]) in
  do* modify (fun l => set_request wanted_address (file_offset_ l) l) in
  do* require (Z.land file_offset (PAGE_SIZE - 1) =? 0)
        (Msg "File offset is not page aligned (%08x)" [AZ file_offset]) in
  do* modify (set_request wanted_address file_offset) in
  match fs_open lib_path with
  | None => lfail (Msg "Can't open file: %s" [])
  | Some f =>
      do* modify (set_fd f) in
      do* require ((file_offset =? 0) || fs_seek_ok f file_offset)
            (Msg "Can't seek to file offset %08x: %s" [AZ file_offset]) in
      do* ReadElfHeader f in
      let* h := lread header_ in
      do* ReadProgramHeader f h in
      do* ReserveAddressSpace in
      load_reserved_range f
  end.

(** The destructor: the temporary copy of the table is unmapped. *)
Definition delete_ElfLoader (l : ElfLoader) : aspace :=
  if phdr_mmap_ l =? 0 then space l
  else match munmap (space l) (phdr_mmap_ l) (phdr_size_ l) with
       | Some s => s
       | None => space l
       end.

End Operations.

(** ** Specification vocabulary *)

Section Image.
Context (a : arch) (f : file) (load_bias file_offset : Z).

(** Where a segment starts in memory, and the pages it takes. *)
Definition mem_start (ph : Phdr) : Z := addr a (p_vaddr ph + load_bias).

Definition mem_lo (ph : Phdr) : Z := PAGE_START (mem_start ph).

Definition mem_hi (ph : Phdr) : Z := round_up (mem_start ph + p_memsz ph).

(** The end of the pages that hold file data. *)
Definition mem_file_hi (ph : Phdr) : Z := round_up (mem_start ph + p_filesz ph).

Definition in_pages (ph : Phdr) (x : Z) : Prop := mem_lo ph <= x < mem_hi ph.

(** The conditions ELF puts on a loadable segment: sizes in range, data inside
    the file, and file offset and address equal modulo the page size. *)
Record seg_fits (ph : Phdr) : Prop := {
  fits_sizes : 0 <= p_filesz ph <= p_memsz ph;
  fits_memory : mem_start ph + p_memsz ph + (PAGE_SIZE - 1) < 2 ^ kElfBits a;
  fits_offset : 0 <= p_offset ph /\ p_offset ph + p_filesz ph < 2 ^ kElfBits a;
  fits_file : file_offset + p_offset ph + p_filesz ph <= f_size f;
  fits_page : p_offset ph mod PAGE_SIZE = mem_start ph mod PAGE_SIZE;
}.

(** What a process sees at offset [i] of a loaded segment: the data of the
    file, then zeros.  In a segment that is not writable the rest of the last
    file page keeps the bytes that follow in the file. *)
Definition image_byte (ph : Phdr) (i : Z) : option Z :=
  if i <? p_filesz ph then Some (f_byte f (file_offset + p_offset ph + i))
  else if negb (Z.land (p_flags ph) PF_W =? 0) || (mem_file_hi ph <=? mem_start ph + i)
  then Some 0
  else file_content f (file_offset + p_offset ph) i.

Definition seg_image (ph : Phdr) (s : aspace) : Prop :=
  forall i, 0 <= i < p_memsz ph ->
    prot_at s (mem_start ph + i) = Some (PFLAGS_TO_PROT (p_flags ph)) /\
    byte_at s (mem_start ph + i) = image_byte ph i.

(** [s'] differs from [s] on the pages of the segment only. *)
Definition seg_frame (ph : Phdr) (s s' : aspace) : Prop :=
  forall x, ~ in_pages ph x -> prot_at s' x = prot_at s x /\ byte_at s' x = byte_at s x.

End Image.

(** The kernel refuses some fixed mapping. *)
Definition map_refused `{Kernel} : Prop := exists s p len, kmap_ok s p len = false.

(** ** Mapping one segment *)

Lemma file_content_shift f off d i : file_content f (off + d) i = file_content f off (d + i).
Proof. unfold file_content. by rewrite Z.add_assoc. Qed.

Lemma land_flag_nonzero x k : 0 <= k -> Z.testbit x k = true -> Z.land x (2 ^ k) <> 0.
Proof.
  intros Hk Hb Hz. apply (f_equal (fun z => Z.testbit z k)) in Hz.
  rewrite Z.land_spec, Hb, Z.pow2_bits_true, Z.bits_0 in Hz by done. done.
Qed.

Lemma pflags_write x : Z.land x PF_W <> 0 -> Z.land (PFLAGS_TO_PROT x) PROT_WRITE <> 0.
Proof.
  intros H. apply (land_flag_nonzero _ 1); [lia|]. unfold PFLAGS_TO_PROT, MAYBE_MAP_FLAG.
  rewrite Z.lor_spec. apply Z.eqb_neq in H. rewrite H. by rewrite orb_true_r.
Qed.

Section OneSegment.
Context (a : arch) `{K : Kernel} (f : file) (load_bias file_offset i : Z) (ph : Phdr).
Context (Hfo : page_aligned file_offset)
  (Hfit : seg_fits a f load_bias file_offset ph).

Let S0 := mem_start a load_bias ph.
Let prot := PFLAGS_TO_PROT (p_flags ph).
Let content (x : Z) : option Z := file_content f (file_offset + p_offset ph) (x - S0).

Lemma seg_arith :
  0 <= S0 /\ addr a (S0 + p_memsz ph) = S0 + p_memsz ph /\
  addr a (S0 + p_filesz ph) = S0 + p_filesz ph /\
  page_end a (S0 + p_memsz ph) = mem_hi a load_bias ph /\
  page_end a (S0 + p_filesz ph) = mem_file_hi a load_bias ph /\
  addr a (p_offset ph + p_filesz ph) = p_offset ph + p_filesz ph /\
  addr a (p_offset ph + p_filesz ph - PAGE_START (p_offset ph))
    = p_filesz ph + p_offset ph mod PAGE_SIZE.
Proof.
  destruct Hfit as [? ? ? ? ?]. subst S0.
  pose proof (addr_fits a (p_vaddr ph + load_bias)) as Hs.
  change (addr a (p_vaddr ph + load_bias)) with (mem_start a load_bias ph) in Hs.
  set (S0 := mem_start a load_bias ph) in *.
  assert (PAGE_SIZE = 4096) as HP by done.
  rewrite !addr_small by lia.
  rewrite !page_end_seg by lia.
  pose proof (page_start_mod (p_offset ph)). pose proof (page_start_nonneg (p_offset ph)).
  pose proof (Z.mod_pos_bound (p_offset ph) PAGE_SIZE).
  split_and!; try done; try lia.
  rewrite addr_small by lia. lia.
Qed.

Lemma file_range_end : PAGE_START S0 + round_up (p_filesz ph + p_offset ph mod PAGE_SIZE)
  = mem_file_hi a load_bias ph.
Proof.
  destruct Hfit as [_ _ _ _ Hp]. rewrite Hp. fold S0. unfold mem_file_hi. fold S0.
  rewrite <-round_up_add by apply page_start_aligned. f_equal. rewrite page_start_mod. lia.
Qed.

Lemma lo_le_file_hi :
  mem_lo a load_bias ph <= S0 /\ S0 + p_filesz ph <= mem_file_hi a load_bias ph /\
  mem_file_hi a load_bias ph <= mem_hi a load_bias ph /\ S0 + p_memsz ph <= mem_hi a load_bias ph.
Proof.
  destruct Hfit as [? _ _ _ _]. unfold mem_lo, mem_file_hi, mem_hi. fold S0.
  pose proof (page_start_le S0). pose proof (round_up_ge (S0 + p_filesz ph)).
  pose proof (round_up_ge (S0 + p_memsz ph)).
  pose proof (round_up_mono (S0 + p_filesz ph) (S0 + p_memsz ph)). lia.
Qed.

(** In the pages of file data, the mapping has the bytes of the file. *)
Lemma content_data x :
  S0 <= x < S0 + p_filesz ph -> content x = Some (f_byte f (file_offset + p_offset ph + (x - S0))).
Proof.
  intros Hx. unfold content, file_content. destruct Hfit as [_ _ _ ? _].
  rewrite (proj2 (Z.ltb_lt _ _)); [done|lia].
Qed.

Lemma content_tail x :
  S0 + p_filesz ph <= x < mem_file_hi a load_bias ph -> exists b, content x = Some b.
Proof.
  intros Hx. unfold content, file_content. destruct Hfit as [_ _ _ Hf Hp].
  case_bool; [by eexists|]. rewrite (proj2 (Z.ltb_lt _ _)); [by eexists|].
  unfold mem_file_hi in Hx. fold S0 in Hx, Hp.
  assert (page_aligned (file_offset + p_offset ph - S0)) as Hal.
  { clear - Hfo Hp. page_arith. }
  pose proof (round_up_add _ (S0 + p_filesz ph) Hal) as Hr.
  pose proof (round_up_mono _ _ Hf).
  replace (file_offset + p_offset ph - S0 + (S0 + p_filesz ph))
    with (file_offset + p_offset ph + p_filesz ph) in Hr by lia. lia.
Qed.

(** The three steps of the loop body, on the pages of the segment. *)
Let LO := mem_lo a load_bias ph.
Let FHI := mem_file_hi a load_bias ph.
Let HI := mem_hi a load_bias ph.

Lemma content_mapped x : LO <= x < FHI -> exists b, content x = Some b.
Proof.
  intros Hx. destruct (Z.lt_ge_cases x (S0 + p_filesz ph)); [|apply content_tail; lia].
  destruct (Z.lt_ge_cases x S0) as [Hlt|]; [|rewrite content_data by lia; by eexists].
  unfold content, file_content. destruct Hfit as [? ? Ho ? Hp]. fold S0 in Hp.
  case_bool; [by eexists|]. case_bool; [by eexists|].
  pose proof (round_up_ge (f_size f)). lia.
Qed.

Lemma map_file_part_spec s :
  match map_file_part f i (PAGE_START S0) (p_filesz ph + p_offset ph mod PAGE_SIZE) prot
          (PAGE_START (p_offset ph) + file_offset) s with
  | Ret _ s' =>
      forall x, prot_at s' x = (if in_range LO (FHI - LO) x then Some prot else prot_at s x) /\
                byte_at s' x = (if in_range LO (FHI - LO) x then content x else byte_at s x)
  | Fail _ s' => map_refused /\ s' = s
  | Crash => False
  end.
Proof.
  pose proof file_range_end as Hend. fold FHI in Hend. destruct Hfit as [? ? ? ? Hp].
  pose proof (Z.mod_pos_bound (p_offset ph) PAGE_SIZE).
  unfold map_file_part. destruct (_ =? 0) eqn:E; bool_to_prop.
  - intros x. rewrite E in Hend. change (round_up 0) with 0 in Hend.
    assert (in_range LO (FHI - LO) x = false) as ->; [|done].
    apply in_range_false. unfold LO, mem_lo. fold S0. lia.
  - unfold mmap. rewrite (proj2 (Z.leb_gt _ _)) by (unfold PAGE_SIZE in *; lia).
    destruct (kmap_ok _ _ _) eqn:Ek; [|split; [by do 3 eexists|done]].
    intros x. unfold map_range. cbn [prot_at byte_at].
    replace (round_up (p_filesz ph + p_offset ph mod PAGE_SIZE)) with (FHI - PAGE_START S0) by lia.
    change (PAGE_START S0) with LO. split; [done|].
    destruct (in_range LO (FHI - LO) x); [|done].
    unfold content, file_content. rewrite page_start_mod. unfold LO, mem_lo. fold S0.
    rewrite (page_start_mod S0), Hp. fold S0.
    replace (p_offset ph - S0 mod PAGE_SIZE + file_offset + (x - (S0 - S0 mod PAGE_SIZE)))
      with (file_offset + p_offset ph + (x - S0)) by lia. done.
Qed.

Lemma zero_tail_spec s :
  (forall x, LO <= x < FHI -> prot_at s x = Some prot /\ exists b, byte_at s x = Some b) ->
  match zero_tail (p_flags ph) (S0 + p_filesz ph) s with
  | Ret _ s' =>
      forall x, prot_at s' x = prot_at s x /\
                byte_at s' x =
                  (if negb (Z.land (p_flags ph) PF_W =? 0)
                      && in_range (S0 + p_filesz ph) (FHI - (S0 + p_filesz ph)) x
                   then Some 0 else byte_at s x)
  | _ => False
  end.
Proof.
  intros Hm. pose proof lo_le_file_hi as (Hl1 & Hl2 & _ & _). fold LO FHI in Hl1, Hl2.
  destruct Hfit as [? _ _ _ _].
  assert (0 < PAGE_OFFSET (S0 + p_filesz ph) /\
          S0 + p_filesz ph + (PAGE_SIZE - PAGE_OFFSET (S0 + p_filesz ph)) = FHI \/
          PAGE_OFFSET (S0 + p_filesz ph) = 0 /\ FHI = S0 + p_filesz ph) as HF.
  { unfold FHI, mem_file_hi. fold S0. generalize (S0 + p_filesz ph). clear. intros y. page_arith. }
  assert (0 <= PAGE_OFFSET (S0 + p_filesz ph)) as HO.
  { rewrite page_offset_mod. apply Z.mod_pos_bound. done. }
  unfold zero_tail. destruct (Z.land (p_flags ph) PF_W =? 0) eqn:EW; bool_to_prop; cbn [negb andb].
  { done. }
  destruct (0 <? PAGE_OFFSET (S0 + p_filesz ph)) eqn:EO; bool_to_prop.
  - destruct HF as [[_ HF]|]; [|lia]. unfold memset.
    replace (PAGE_SIZE - PAGE_OFFSET (S0 + p_filesz ph)) with (FHI - (S0 + p_filesz ph)) by lia.
    assert (range_all (writable s) (S0 + p_filesz ph) (FHI - (S0 + p_filesz ph)) = true) as ->.
    { apply range_all_true. intros x Hx. unfold writable, can.
      destruct (Hm x) as (-> & b & ->); [lia|].
      rewrite andb_true_r. apply negb_true_iff, Z.eqb_neq, pflags_write. done. }
    done.
  - assert (FHI = S0 + p_filesz ph) as -> by lia. intros x. split; [done|].
    assert (in_range (S0 + p_filesz ph) (S0 + p_filesz ph - (S0 + p_filesz ph)) x = false) as ->;
      [|done]. apply in_range_false. lia.
Qed.

Lemma map_zero_part_spec s :
  match map_zero_part a FHI HI prot s with
  | Ret _ s' =>
      forall x, prot_at s' x = (if in_range FHI (HI - FHI) x then Some prot else prot_at s x) /\
                byte_at s' x = (if in_range FHI (HI - FHI) x then Some 0 else byte_at s x)
  | Fail _ s' => map_refused /\ s' = s
  | Crash => False
  end.
Proof.
  pose proof lo_le_file_hi as (Hl1 & Hl2 & Hl3 & Hl4). fold LO FHI HI in Hl1, Hl2, Hl3, Hl4.
  destruct Hfit as [Hs Hm _ _ _]. fold S0 in Hm.
  assert (HI < 2 ^ kElfBits a).
  { unfold HI, mem_hi. fold S0. pose proof (round_up_ge (S0 + p_memsz ph)). lia. }
  unfold map_zero_part. destruct (FHI <? HI) eqn:E; bool_to_prop.
  - pose proof seg_arith as (? & _). rewrite addr_small by lia. unfold mmap.
    rewrite (proj2 (Z.leb_gt _ _)) by lia.
    destruct (kmap_ok _ _ _) eqn:Ek; [|split; [by do 3 eexists|done]].
    intros x. unfold map_range. cbn [prot_at byte_at].
    rewrite round_up_id; [done|]. unfold HI, FHI, mem_hi, mem_file_hi. auto with ndk.
  - intros x. assert (in_range FHI (HI - FHI) x = false) as ->; [|done].
    apply in_range_false. lia.
Qed.

Lemma load_segment_spec s :
  match load_segment a f load_bias file_offset i ph s with
  | Ret _ s' =>
      seg_image a f load_bias file_offset ph s' /\ seg_frame a load_bias ph s s'
  | Fail _ s' => map_refused /\ seg_frame a load_bias ph s s'
  | Crash => False
  end.
Proof.
  pose proof seg_arith as (H0 & Hme & Hfe & Hmp & Hfp & Hoe & Hlen).
  pose proof lo_le_file_hi as (Hl1 & Hl2 & Hl3 & Hl4). fold LO FHI HI in Hl1, Hl2, Hl3, Hl4.
  pose proof (fits_sizes _ _ _ _ _ Hfit) as Hsz.
  unfold load_segment, lbind. fold (mem_start a load_bias ph). fold S0.
  rewrite Hme, Hfe, Hmp, Hfp, Hoe, Hlen. fold FHI HI prot.
  pose proof (map_file_part_spec s) as H1.
  destruct (map_file_part _ _ _ _ _ _ s) as [[] s1|e1 s1|]; [|destruct H1; subst; by split|done].
  assert (forall x, LO <= x < FHI -> prot_at s1 x = Some prot /\ exists b, byte_at s1 x = Some b)
    as Hm.
  { intros x Hx. destruct (H1 x) as [-> ->]. rewrite (proj2 (in_range_true _ _ _)) by lia.
    split; [done|]. by apply content_mapped. }
  pose proof (zero_tail_spec s1 Hm) as H2.
  destruct (zero_tail _ _ s1) as [[] s2|e2 s2|]; [|done..].
  pose proof (map_zero_part_spec s2) as H3.
  destruct (map_zero_part _ _ _ _ s2) as [[] s3|e3 s3|]; [split| |done].
  - intros j Hj. fold S0. destruct (H3 (S0 + j)) as [-> ->].
    destruct (H2 (S0 + j)) as [-> ->]. destruct (H1 (S0 + j)) as [-> ->].
    unfold image_byte. fold S0 FHI. split.
    + destruct (in_range FHI _ _) eqn:E; [done|]. apply in_range_false in E.
      rewrite (proj2 (in_range_true _ _ _)) by lia. done.
    + destruct (in_range FHI _ _) eqn:E.
      { apply in_range_true in E. rewrite (proj2 (Z.ltb_ge _ _)) by lia.
        rewrite (proj2 (Z.leb_le _ _)) by lia. by rewrite orb_true_r. }
      apply in_range_false in E. rewrite (proj2 (in_range_true LO _ _)) by lia.
      destruct (j <? p_filesz ph) eqn:Ej; bool_to_prop.
      * rewrite (proj2 (in_range_false _ _ _)) by lia. rewrite andb_false_r.
        rewrite content_data by lia. do 2 f_equal. lia.
      * rewrite (proj2 (in_range_true _ _ _)), andb_true_r by lia.
        rewrite (proj2 (Z.leb_gt _ _)), orb_false_r by lia.
        case_bool; [done|]. unfold content. f_equal. lia.
  - intros x Hx. unfold in_pages in Hx. fold LO HI in Hx.
    destruct (H3 x) as [-> ->]. destruct (H2 x) as [-> ->]. destruct (H1 x) as [-> ->].
    rewrite !(proj2 (in_range_false _ _ _)) by lia. by rewrite andb_false_r.
  - destruct H3 as [Hr ->]. split; [done|]. intros x Hx. unfold in_pages in Hx. fold LO HI in Hx.
    destruct (H2 x) as [-> ->]. destruct (H1 x) as [-> ->].
    rewrite !(proj2 (in_range_false _ _ _)) by lia. by rewrite andb_false_r.
Qed.

End OneSegment.

(** ** Mapping all the segments *)

Section AllSegments.
Context (a : arch) `{K : Kernel} (f : file) (tbl : list Phdr).

(** Distinct loadable segments do not share a page. *)
Definition pages_disjoint (load_bias : Z) : Prop :=
  forall j k p q, tbl !! j = Some p -> tbl !! k = Some q -> j <> k -> is_load p -> is_load q ->
    mem_hi a load_bias p <= mem_lo a load_bias q \/ mem_hi a load_bias q <= mem_lo a load_bias p.

(** The copy of the table at [phdr_table_] holds [tbl], outside the segments. *)
Definition table_copied (l : ElfLoader) : Prop :=
  phdr_num_ l = Z.of_nat (length tbl) /\
  (forall k ph, tbl !! k = Some ph ->
     read_Phdr a (load_byte (space l)) (phdr_table_ l + Z.of_nat k * sizeof_Phdr a) = Some ph) /\
  (forall ph x, ph ∈ tbl -> is_load ph ->
     phdr_table_ l <= x < phdr_table_ l + phdr_num_ l * sizeof_Phdr a ->
     ~ in_pages a (load_bias_ l) ph x).

(** A well-formed request: what [ReserveAddressSpace] leaves for a valid file. *)
Record loadable (l : ElfLoader) : Prop := {
  ld_offset : page_aligned (file_offset_ l);
  ld_segs ph : ph ∈ tbl -> is_load ph -> seg_fits a f (load_bias_ l) (file_offset_ l) ph;
  ld_disjoint : pages_disjoint (load_bias_ l);
  ld_table : table_copied l;
}.

(** The state of the loop after the entries [pre]. *)
Record loop_inv (l l' : ElfLoader) (pre : list Phdr) : Prop := {
  li_fields : l' = set_space (space l') l;
  li_image ph : ph ∈ pre -> is_load ph ->
    seg_image a f (load_bias_ l) (file_offset_ l) ph (space l');
  li_frame x : (forall ph, ph ∈ pre -> is_load ph -> ~ in_pages a (load_bias_ l) ph x) ->
    prot_at (space l') x = prot_at (space l) x /\ byte_at (space l') x = byte_at (space l) x;
}.

Lemma seg_image_frame load_bias fo p q s s' :
  seg_fits a f load_bias fo p ->
  mem_hi a load_bias p <= mem_lo a load_bias q \/ mem_hi a load_bias q <= mem_lo a load_bias p ->
  seg_frame a load_bias q s s' -> seg_image a f load_bias fo p s -> seg_image a f load_bias fo p s'.
Proof.
  intros Hfit Hd Hfr Him j Hj. pose proof (lo_le_file_hi a f load_bias fo p Hfit).
  destruct (Hfr (mem_start a load_bias p + j)) as [-> ->]; [unfold in_pages; lia|by apply Him].
Qed.

Lemma loop_inv_entry l l' pre ph post :
  loadable l -> tbl = pre ++ ph :: post -> loop_inv l l' pre ->
  phdr_entry a (Z.of_nat (length pre)) l' = Ret ph l'.
Proof.
  intros [_ _ _ (Hn & Hr & Ho)] Htbl [Hf _ Hfr].
  assert (tbl !! length pre = Some ph) as Hk by (rewrite Htbl; by rewrite list_lookup_middle).
  pose proof (lookup_lt_Some _ _ _ Hk) as Hlt.
  specialize (Hr _ _ Hk). unfold phdr_entry, lread.
  rewrite (read_Phdr_ext a _ (load_byte (space l))); [rewrite Hf; cbn; by rewrite Hr|].
  intros x Hx. rewrite Hf in Hx. cbn in Hx. unfold load_byte, can.
  destruct (Hfr x) as [-> ->]; [|done].
  intros q Hq Hl. apply Ho; [rewrite Htbl; list_in|done|].
  assert (0 < sizeof_Phdr a) by (by destruct a). nia.
Qed.

(** Every address outside the loadable segments keeps its content. *)
Definition outside_kept (l l' : ElfLoader) : Prop :=
  forall x, (forall ph, ph ∈ tbl -> is_load ph -> ~ in_pages a (load_bias_ l) ph x) ->
    prot_at (space l') x = prot_at (space l) x /\ byte_at (space l') x = byte_at (space l) x.

(** Mapping the next loadable segment keeps the invariant. *)
Lemma loop_inv_load l l' pre ph post s' :
  loadable l -> tbl = pre ++ ph :: post -> is_load ph -> loop_inv l l' pre ->
  seg_image a f (load_bias_ l) (file_offset_ l) ph s' ->
  seg_frame a (load_bias_ l) ph (space l') s' ->
  loop_inv l (set_space s' l') (pre ++ [ph]).
Proof.
  intros [_ Hs Hd _] Htbl Hl [Hf Hi Hfr] Him Hframe. split; cbn.
  - rewrite Hf. done.
  - intros q [Hq| ->%list_elem_of_singleton]%elem_of_app Hlq; [|done].
    pose proof Hq as (k & Hk)%list_elem_of_lookup.
    assert (k < length pre)%nat as Hlt by (by eapply lookup_lt_Some).
    eapply seg_image_frame; [apply Hs; [rewrite Htbl; list_in|done]| |done|].
    + eapply (Hd k (length pre)); [| |lia|done|done]; rewrite Htbl.
      * by rewrite lookup_app_l.
      * by rewrite list_lookup_middle.
    + by apply Hi.
  - intros x Hx. destruct (Hframe x) as [-> ->]; [apply Hx; [list_in|done]|].
    apply Hfr. intros q Hq. apply Hx. list_in.
Qed.

Lemma loop_inv_skip l l' pre ph :
  ~ is_load ph -> loop_inv l l' pre -> loop_inv l l' (pre ++ [ph]).
Proof.
  intros Hl [Hf Hi Hfr]. split; [done| |].
  - intros q [Hq| ->%list_elem_of_singleton]%elem_of_app Hlq; auto. done.
  - intros x Hx. apply Hfr. intros q Hq. apply Hx. list_in.
Qed.

Lemma load_segments_from_spec l l' pre rest :
  loadable l -> tbl = pre ++ rest -> loop_inv l l' pre ->
  match load_segments_from a f (length rest) (Z.of_nat (length pre)) l' with
  | Ret _ l2 => loop_inv l l2 tbl
  | Fail _ l2 => map_refused /\ l2 = set_space (space l2) l /\ outside_kept l l2
  | Crash => False
  end.
Proof.
  intros Hld. revert l' pre. induction rest as [|ph rest IH]; intros l' pre Htbl Hinv.
  { cbn. by rewrite Htbl, app_nil_r. }
  cbn [length load_segments_from]. unfold lbind at 1.
  rewrite (loop_inv_entry l l' pre ph rest) by done.
  assert (forall l2, loop_inv l l2 (pre ++ [ph]) ->
    match load_segments_from a f (length rest) (Z.of_nat (length pre) + 1) l2 with
    | Ret _ l3 => loop_inv l l3 tbl
    | Fail _ l3 => map_refused /\ l3 = set_space (space l3) l /\ outside_kept l l3
    | Crash => False
    end) as Hnext.
  { intros l2 Hl2. specialize (IH l2 (pre ++ [ph])). rewrite length_app in IH. cbn [length] in IH.
    rewrite Nat2Z.inj_add in IH. apply IH; [|done]. by rewrite <-app_assoc. }
  unfold lbind, lget. destruct (p_type ph =? PT_LOAD) eqn:Et; bool_to_prop; cbn [negb].
  - unfold on_space. pose proof Hinv as [Hf _ _].
    assert (load_bias_ l' = load_bias_ l /\ file_offset_ l' = file_offset_ l) as [-> ->]
      by (rewrite Hf; done).
    assert (seg_fits a f (load_bias_ l) (file_offset_ l) ph) as Hfit
      by (apply Hld; [rewrite Htbl; list_in|done]).
    pose proof (load_segment_spec a f (load_bias_ l) (file_offset_ l) (Z.of_nat (length pre)) ph
      (ld_offset _ Hld) Hfit (space l')) as Hseg.
    destruct (load_segment _ _ _ _ _ _ _) as [[] s2|e s2|]; [| |done].
    + destruct Hseg. apply Hnext. eapply loop_inv_load; eauto.
    + destruct Hseg as [Hr Hfr]. split_and!; [done|by rewrite Hf|]. intros x Hx. cbn.
      destruct (Hfr x) as [-> ->]; [apply Hx; [rewrite Htbl; list_in|done]|].
      apply (li_frame _ _ _ Hinv). intros q Hq. apply Hx. rewrite Htbl. list_in.
  - apply Hnext. by apply loop_inv_skip.
Qed.

Lemma load_segments_core l :
  loadable l ->
  match LoadSegments a f l with
  | Ret _ l' =>
      (forall ph, ph ∈ tbl -> is_load ph ->
         seg_image a f (load_bias_ l) (file_offset_ l) ph (space l')) /\
      l' = set_space (space l') l /\ outside_kept l l'
  | Fail _ l' => map_refused /\ l' = set_space (space l') l /\ outside_kept l l'
  | Crash => False
  end.
Proof.
  intros Hld. unfold LoadSegments, lbind, lget.
  pose proof (load_segments_from_spec l l [] tbl Hld eq_refl) as H.
  pose proof Hld as [_ _ _ (-> & _)]. rewrite Nat2Z.id.
  change (Z.of_nat (length [])) with 0 in H.
  destruct (load_segments_from _ _ _ _ _); [|apply H|apply H];
    try (split; [by destruct l|by intros ? ?%elem_of_nil|done]).
  destruct H as [? Hi Hfr]; [split; [by destruct l|by intros ? ?%elem_of_nil|done]|].
  split_and!; done.
Qed.

(** The copy of the table can still be read after the segments are mapped. *)
Lemma table_kept l l' :
  loadable l -> l' = set_space (space l') l -> outside_kept l l' -> phdr_entries a l' = Ret tbl l'.
Proof.
  intros [_ _ _ (Hn & Hr & Ho)] Hl' Hk. unfold phdr_entries, lread.
  assert (phdr_num_ l' = Z.of_nat (length tbl) /\ phdr_table_ l' = phdr_table_ l) as [-> ->]
    by (rewrite Hl'; done).
  rewrite Nat2Z.id, (read_array_intro _ _ _ tbl); [done|]. intros k ph Hkk.
  rewrite <-(Hr k ph Hkk). apply read_Phdr_ext. intros x Hx. unfold load_byte, can.
  destruct (Hk x) as [-> ->]; [|done]. intros q Hq Hql. apply Ho; [done..|].
  apply lookup_lt_Some in Hkk. assert (0 < sizeof_Phdr a) by (by destruct a). nia.
Qed.

End AllSegments.

(** ** Reserving the address range *)

Section Reserve.
Context (a : arch) `{K : Kernel} (HK : KernelOk (kElfBits a) K) (f : file) (fo : Z)
  (tbl : list Phdr).

(** What ELF requires of a program header table, in terms of the file only. *)
Record valid_table : Prop := {
  vt_segs ph : ph ∈ tbl -> is_load ph ->
    seg_ok a ph /\ 0 <= p_filesz ph <= p_memsz ph /\
    0 <= p_offset ph /\ p_offset ph + p_filesz ph < 2 ^ kElfBits a /\
    fo + p_offset ph + p_filesz ph <= f_size f /\
    p_offset ph mod PAGE_SIZE = p_vaddr ph mod PAGE_SIZE;
  vt_disjoint j k p q : tbl !! j = Some p -> tbl !! k = Some q -> j <> k ->
    is_load p -> is_load q -> seg_hi p <= seg_lo q \/ seg_hi q <= seg_lo p;
  vt_nonempty : exists ph, ph ∈ tbl /\ is_load ph /\ 0 < p_memsz ph;
}.

(** The copy of the table is mapped and holds [tbl]. *)
Record table_mapped (l : ElfLoader) : Prop := {
  tm_num : phdr_num_ l = Z.of_nat (length tbl);
  tm_read : phdr_entries a l = Ret tbl l;
  tm_mapped x : phdr_table_ l <= x < phdr_table_ l + phdr_num_ l * sizeof_Phdr a ->
    prot_at (space l) x <> None;
}.

(** The addresses of a segment when the hull [lo, hi) is loaded at [start]. *)
Lemma mem_start_hull size lo hi start ph :
  load_hull a tbl size lo hi -> page_aligned start -> 0 <= start -> start + size < 2 ^ kElfBits a ->
  valid_table -> ph ∈ tbl -> is_load ph ->
  mem_start a (addr a (start - lo)) ph = start - lo + p_vaddr ph /\
  mem_lo a (addr a (start - lo)) ph = start - lo + seg_lo ph /\
  mem_hi a (addr a (start - lo)) ph = start - lo + seg_hi ph.
Proof.
  intros Hh Hal Hs0 Hs Hv Hin Hl. destruct (vt_segs Hv ph Hin Hl) as ((? & ? & ?) & ? & _).
  destruct (hull_covers _ _ _ _ _ Hh ph Hin Hl) as [Hc1 Hc2].
  destruct Hh as [Hla Hha -> Hfit _ _ _].
  pose proof (page_start_le (p_vaddr ph)) as Hp1.
  pose proof (round_up_ge (p_vaddr ph + p_memsz ph)) as Hp2.
  assert (page_aligned (start - lo)) as Hd by auto with ndk.
  assert (mem_start a (addr a (start - lo)) ph = start - lo + p_vaddr ph) as He.
  { unfold mem_start, addr. autorewrite with wrap. fold (addr a (p_vaddr ph + (start - lo))).
    rewrite addr_small; unfold seg_lo, seg_hi in *; lia. }
  unfold mem_lo, mem_hi, seg_lo, seg_hi. rewrite He. split_and!; [done| |].
  - by rewrite page_start_add.
  - by rewrite <-round_up_add, Z.add_assoc.
Qed.

(** Loading the hull at a free, page-aligned range of addresses makes the table
    loadable there. *)
Lemma hull_loadable l size lo hi start :
  load_hull a tbl size lo hi -> page_aligned start -> 0 <= start -> start + size < 2 ^ kElfBits a ->
  valid_table -> table_mapped l -> page_aligned fo -> file_offset_ l = fo ->
  (forall x, in_range start size x = true -> prot_at (space l) x = None) ->
  loadable a f tbl (set_load start (addr a (start - lo))
    (set_space (map_range (space l) start size PROT_NONE anonymous) (set_load_size size l))).
Proof.
  intros Hh Hal Hs0 Hs Hv Ht Hfo Hlfo Hfree.
  assert (size = round_up size) as Hsz.
  { symmetry. apply round_up_id. rewrite (hull_size _ _ _ _ _ Hh).
    apply aligned_sub; apply Hh. }
  split; cbn.
  - congruence.
  - intros ph Hin Hl. destruct (vt_segs Hv ph Hin Hl) as ((? & ? & ?) & ? & ? & ? & ? & Hp).
    destruct (mem_start_hull size lo hi start ph) as (E & _); try done.
    split; rewrite ?E, ?Hlfo; try done.
    + destruct (hull_covers _ _ _ _ _ Hh ph Hin Hl) as [_ Hc]. unfold seg_hi in Hc.
      pose proof (round_up_ge (p_vaddr ph + p_memsz ph)).
      assert (page_aligned (2 ^ kElfBits a)) by (by destruct a).
      assert (start + size <= 2 ^ kElfBits a - PAGE_SIZE).
      { rewrite Hsz in *. generalize dependent (2 ^ kElfBits a). clear - Hal. intros. page_arith. }
      rewrite (hull_size _ _ _ _ _ Hh) in *. unfold PAGE_SIZE in *. lia.
    + rewrite Hp. pose proof (hull_lo_aligned _ _ _ _ _ Hh) as Hla.
      clear - Hal Hla. page_arith.
  - intros j k p q Hj Hk Hne Hlp Hlq.
    assert (p ∈ tbl /\ q ∈ tbl) as [Hip Hiq] by (split; apply list_elem_of_lookup; eauto).
    destruct (mem_start_hull size lo hi start p) as (_ & -> & ->); try done.
    destruct (mem_start_hull size lo hi start q) as (_ & -> & ->); try done.
    destruct (vt_disjoint Hv j k p q); try done; lia.
  - destruct Ht as [Hn Hr Hm]. split_and!; cbn; [done| |].
    + intros k ph Hk. unfold phdr_entries, lread in Hr.
      destruct (read_array _ _ _ _) eqn:E; [|done]. simplify_eq.
      pose proof (lookup_lt_Some _ _ _ Hk) as Hlt. pose proof E as E2.
      apply read_array_length in E2.
      rewrite (read_array_lookup _ _ _ _ _ k E) in Hk by lia.
      rewrite <-Hk. apply read_Phdr_ext. intros x Hx. unfold load_byte, can. cbn.
      rewrite <-Hsz. destruct (in_range start size x) eqn:Ex; [|done].
      exfalso. apply Hfree in Ex. apply (Hm x); [|done].
      assert (0 < sizeof_Phdr a) by (by destruct a). rewrite Hn. nia.
    + intros ph x Hin Hl Hx Hp. apply (Hm x Hx), Hfree, in_range_true.
      unfold in_pages in Hp. destruct (mem_start_hull size lo hi start ph) as (_ & E2 & E3); try done.
      rewrite E2, E3 in Hp. destruct (hull_covers _ _ _ _ _ Hh ph Hin Hl).
      rewrite (hull_size _ _ _ _ _ Hh). lia.
Qed.

(** Whether the kernel finds no room for a mapping. *)
Definition no_room : Prop := exists s hint len, kplace s hint len = None.

Lemma reserve_spec l :
  valid_table -> table_mapped l -> page_aligned fo -> file_offset_ l = fo ->
  wanted_load_address_ l = 0 ->
  match ReserveAddressSpace a l with
  | Ret _ l' =>
      loadable a f tbl l' /\
      (forall x, in_range (load_start_ l') (load_size_ l') x = true -> prot_at (space l) x = None) /\
      (forall x, in_range (load_start_ l') (load_size_ l') x = false ->
         prot_at (space l') x = prot_at (space l) x /\ byte_at (space l') x = byte_at (space l) x) /\
      page_aligned (load_size_ l') /\ page_aligned (load_start_ l') /\
      0 < load_start_ l' /\ 0 < load_size_ l' /\
      (forall ph x, ph ∈ tbl -> is_load ph -> in_pages a (load_bias_ l') ph x ->
         in_range (load_start_ l') (load_size_ l') x = true) /\
      phdr_mmap_ l' = phdr_mmap_ l /\ phdr_size_ l' = phdr_size_ l /\
      phdr_num_ l' = phdr_num_ l /\ file_offset_ l' = file_offset_ l
  | Fail _ l' => no_room /\ space l' = space l /\
                 phdr_mmap_ l' = phdr_mmap_ l /\ phdr_size_ l' = phdr_size_ l
  | Crash => False
  end.
Proof.
  intros Hv Ht Hfo Hlfo Hw. unfold ReserveAddressSpace, lbind at 1. rewrite (tm_read _ Ht).
  pose proof (load_size_hull_core a tbl) as Hh.
  destruct (phdr_table_get_load_size a tbl) as [[size lo] hi].
  destruct (vt_nonempty Hv) as (ph0 & Hin0 & Hl0 & Hm0).
  specialize (Hh (fun ph Hin Hl => proj1 (vt_segs Hv ph Hin Hl)) (ex_intro _ ph0 (conj Hin0 Hl0))).
  assert (page_aligned size) as Hsa.
  { rewrite (hull_size _ _ _ _ _ Hh). apply aligned_sub; apply Hh. }
  assert (0 < size) as Hpos.
  { destruct (hull_covers _ _ _ _ _ Hh ph0 Hin0 Hl0). unfold seg_lo, seg_hi in *.
    pose proof (page_start_le (p_vaddr ph0)). pose proof (round_up_ge (p_vaddr ph0 + p_memsz ph0)).
    rewrite (hull_size _ _ _ _ _ Hh). lia. }
  unfold lbind, modify, require. rewrite (proj2 (Z.eqb_neq _ _)) by lia. cbn [negb lget].
  cbn [set_load_size wanted_load_address_ space]. rewrite Hw. cbn [Z.eqb negb].
  unfold mmap. rewrite (proj2 (Z.leb_gt _ _)) by lia.
  destruct (kplace _ _ _) as [start|] eqn:Ek; cbn; [|split_and!; try done; by do 3 eexists].
  pose proof (kplace_aligned _ _ _ _ Ek) as Hal. pose proof (kplace_range _ _ _ _ Ek) as Hr.
  pose proof (fun x => kplace_free _ _ _ _ x Ek) as Hfree.
  rewrite round_up_id in Hr by done.
  assert (forall x, in_range start size x = true -> prot_at (space l) x = None) as Hfree'.
  { intros x Hx. apply Hfree. by rewrite round_up_id. }
  split_and!; try done; try lia.
  - apply (hull_loadable l size lo hi start); try done; lia.
  - intros x Hx. rewrite round_up_id by done. by rewrite Hx.
  - intros ph x Hin Hl Hx. unfold in_pages in Hx.
    destruct (mem_start_hull size lo hi start ph) as (_ & E2 & E3); try done; try lia.
    rewrite E2, E3 in Hx. destruct (hull_covers _ _ _ _ _ Hh ph Hin Hl).
    apply in_range_true. rewrite (hull_size _ _ _ _ _ Hh). lia.
Qed.

End Reserve.

(** ** Reading the headers *)

(** The checks of [ReadElfHeader] on the header. *)
Definition header_ok (a : arch) (h : Ehdr) : bool :=
  bool_decide (take 4 (e_ident h) = [127; 69; 76; 70]) &&
  (nth 4 (e_ident h) 0 =? kElfClass a) && (nth 5 (e_ident h) 0 =? ELFDATA2LSB) &&
  (e_type h =? ET_DYN) && (e_version h =? EV_CURRENT) && (e_machine h =? ELF_MACHINE a).

Section Headers.
Context (a : arch) `{K : Kernel} `{FS : FileSystem} (f : file).

Lemma read_elf_header_spec l :
  0 <= file_offset_ l ->
  (exists h, ReadElfHeader a f l = Ret tt (set_header h l) /\
     read_Ehdr a (file_reader f) (file_offset_ l) = Some h /\ header_ok a h = true) \/
  (exists e l', ReadElfHeader a f l = Fail e l' /\ space l' = space l /\
     phdr_mmap_ l' = phdr_mmap_ l /\
     (fs_read_ok f (file_offset_ l) = false \/ f_size f < file_offset_ l + sizeof_Ehdr a \/
      exists h, read_Ehdr a (file_reader f) (file_offset_ l) = Some h /\ header_ok a h = false)).
Proof.
  intros Hfo. unfold ReadElfHeader, lbind, lget, require, fd_read.
  assert (0 < sizeof_Ehdr a) as Hse by (by destruct a).
  destruct (fs_read_ok f (file_offset_ l)) eqn:Er; cbn [Z.leb];
    [|right; do 2 eexists; split_and!; [done|done|done|by left]].
  rewrite (proj2 (Z.leb_le 0 _)) by lia.
  destruct (_ =? sizeof_Ehdr a) eqn:Es; bool_to_prop;
    [|right; do 2 eexists; split_and!; [done|done|done|right; left; lia]].
  destruct (read_Ehdr_Some a (file_reader f) (file_offset_ l)) as [h Hh].
  { intros x Hx. unfold file_reader. rewrite (proj2 (Z.leb_le _ _)), (proj2 (Z.ltb_lt _ _)) by lia.
    by eexists. }
  unfold lread. rewrite Hh. unfold modify.
  assert (forall (b : bool) (e : Error) (l1 : ElfLoader) (c : M ElfLoader unit),
    match (if b then Ret tt l1 else Fail e l1) with
    | Ret _ l2 => c l2 | Fail e l2 => Fail e l2 | Crash => Crash
    end = if b then c l1 else Fail e l1) as Hreq by (by intros []).
  rewrite !Hreq.
  repeat match goal with
  | |- context [if ?b then _ else Fail _ _] =>
      destruct b eqn:?; [|right; do 2 eexists; split_and!;
        [done|done|done|right; right; exists h; split; [done|]; unfold header_ok;
         repeat match goal with E : _ = true |- _ => rewrite E; clear E end;
         by repeat match goal with E : _ = false |- _ => rewrite E; clear E end]]
  end.
  left. exists h. split_and!; [done..|]. unfold header_ok.
  by repeat match goal with E : _ = true |- _ => rewrite E; clear E end.
Qed.

(** The table of [h] lies in the file. *)
Definition table_in_file (fo : Z) (h : Ehdr) (tbl : list Phdr) : Prop :=
  1 <= e_phnum h <= 65536 / sizeof_Phdr a /\ 0 <= e_phoff h /\
  e_phoff h + e_phnum h * sizeof_Phdr a + (PAGE_SIZE - 1) < 2 ^ kElfBits a /\
  fo + e_phoff h + e_phnum h * sizeof_Phdr a <= f_size f /\
  read_array (read_Phdr a (file_reader f)) (sizeof_Phdr a) (Z.to_nat (e_phnum h))
    (fo + e_phoff h) = Some tbl.

Lemma read_program_header_spec (HK : KernelOk (kElfBits a) K) l h tbl :
  0 <= file_offset_ l -> table_in_file (file_offset_ l) h tbl ->
  match ReadProgramHeader a f h l with
  | Ret _ l' =>
      table_mapped a tbl l' /\ file_offset_ l' = file_offset_ l /\
      wanted_load_address_ l' = wanted_load_address_ l /\
      phdr_num_ l' = e_phnum h /\ 0 < phdr_mmap_ l' /\ page_aligned (phdr_mmap_ l') /\
      0 < phdr_size_ l' /\ page_aligned (phdr_size_ l') /\
      (forall x, in_range (phdr_mmap_ l') (phdr_size_ l') x = true -> prot_at (space l') x <> None) /\
      (forall x, in_range (phdr_mmap_ l') (phdr_size_ l') x = true -> prot_at (space l) x = None) /\
      (forall x, in_range (phdr_mmap_ l') (phdr_size_ l') x = false ->
         prot_at (space l') x = prot_at (space l) x /\ byte_at (space l') x = byte_at (space l) x)
  | Fail _ l' => no_room /\ space l' = space l /\ phdr_mmap_ l' = phdr_mmap_ l
  | Crash => False
  end.
Proof.
  intros Hfo (Hnum & Hoff & Hmax & Hfile & Htbl).
  assert (0 < sizeof_Phdr a) as Hsp by (by destruct a).
  set (off := e_phoff h) in *. set (n := e_phnum h) in *. set (sz := sizeof_Phdr a) in *.
  assert (0 < n * sz) as Hn0 by nia.
  pose proof (page_start_le off) as Hps. pose proof (page_start_nonneg off Hoff) as Hps0.
  pose proof (round_up_ge (off + n * sz)) as Hru.
  unfold ReadProgramHeader, lbind, modify, require. fold off n sz.
  rewrite (proj2 (Z.leb_le 1 _)), (proj2 (Z.leb_le n _)) by lia. cbn [andb].
  rewrite (addr_small a (off + n * sz)) by (unfold PAGE_SIZE in *; lia).
  rewrite page_end_seg by lia. rewrite addr_small by lia.
  set (size := round_up (off + n * sz) - PAGE_START off).
  assert (page_aligned size) as Hsa by (unfold size; auto with ndk).
  unfold lget, mmap. rewrite (proj2 (Z.leb_gt _ _)) by lia.
  cbn [set_phdr_num space file_offset_].
  destruct (kplace _ _ _) as [m|] eqn:Ek; cbn; [|split_and!; try done; by do 3 eexists].
  pose proof (kplace_aligned _ _ _ _ Ek) as Hal. pose proof (kplace_range _ _ _ _ Ek) as Hr.
  pose proof (fun x => kplace_free _ _ _ _ x Ek) as Hfree.
  rewrite round_up_id in * by done. pose proof (page_offset_mod off) as Hpo.
  pose proof (page_start_mod off) as Hpm.
  assert (0 <= PAGE_OFFSET off) as Hpo0 by (rewrite Hpo; by apply Z.mod_pos_bound).
  assert (PAGE_OFFSET off + n * sz <= size) as Hin by (unfold size; lia).
  rewrite (addr_small a (m + PAGE_OFFSET off)) by lia.
  set (T := m + PAGE_OFFSET off).
  assert (forall x, T <= x < T + n * sz -> in_range m size x = true) as HT.
  { intros x Hx. apply in_range_true. unfold T in Hx. lia. }
  split_and!; try done; try lia.
  - split; cbn; fold n sz T.
    + apply read_array_length in Htbl. lia.
    + unfold phdr_entries, lread. cbn. fold n sz T.
      rewrite (read_array_shift _ (read_Phdr a (file_reader f)) sz (Z.to_nat n) T
        (file_offset_ l + off)), Htbl; [done|].
      intros k Hk. apply read_Phdr_shift. intros i Hi. fold sz in Hi.
      assert (0 <= k * sz + i < n * sz) as Hki by nia.
      unfold load_byte, can. cbn. rewrite (round_up_id size), !HT by (done || lia). cbn.
      unfold file_content, file_reader.
      replace (PAGE_START off + file_offset_ l + (T + k * sz + i - m))
        with (file_offset_ l + off + k * sz + i) by (unfold T; lia).
      rewrite (proj2 (Z.ltb_lt _ _)), (proj2 (Z.leb_le _ _)) by lia. done.
    + intros x Hx. by rewrite (round_up_id size), HT.
  - intros x Hx. by rewrite Hx.
  - intros x Hx. by rewrite Hx.
Qed.

End Headers.

(** ** Loading a file *)

Section Load.
Context (a : arch) `{K : Kernel} `{FS : FileSystem} (HK : KernelOk (kElfBits a) K)
  (f : file) (fo : Z) (h : Ehdr) (tbl : list Phdr).

(** The first loadable segment [ph0] holds the ELF header and the table, and
    [PT_PHDR], if there is one, says where. *)
Definition header_segment (ph0 : Phdr) : Prop :=
  List.find (fun ph => p_type ph =? PT_LOAD) tbl = Some ph0 /\
  p_offset ph0 = 0 /\ Z.land (PFLAGS_TO_PROT (p_flags ph0)) PROT_READ <> 0 /\
  sizeof_Ehdr a <= p_filesz ph0 /\
  e_phoff h + e_phnum h * sizeof_Phdr a <= p_filesz ph0 /\
  (forall ph, List.find (fun ph => p_type ph =? PT_PHDR) tbl = Some ph ->
     p_vaddr ph = p_vaddr ph0 + e_phoff h).

(** A shared library at offset [fo] of the file [f]. *)
Record valid_library : Prop := {
  vl_offset : 0 <= fo /\ page_aligned fo;
  vl_header : read_Ehdr a (file_reader f) fo = Some h;
  vl_accepted : header_ok a h = true;
  vl_in_file : table_in_file a f fo h tbl;
  vl_table : valid_table a f fo tbl;
  vl_segment : exists ph0, header_segment ph0;
}.

(** The bytes of the first segment that the loader reads back. *)
Lemma header_bytes ph0 lb s i :
  header_segment ph0 -> seg_fits a f lb fo ph0 -> seg_image a f lb fo ph0 s -> 0 <= fo ->
  0 <= i < p_filesz ph0 ->
  load_byte s (mem_start a lb ph0 + i) = file_reader f (fo + i).
Proof.
  intros (_ & Ho & Hr & _) [Hs _ _ Hf _] Him Hfo Hi.
  destruct (Him i) as [Hp Hb]; [lia|]. unfold load_byte, can. rewrite Hp, Hb.
  rewrite (proj2 (Z.eqb_neq _ _) Hr). cbn [negb].
  unfold image_byte, file_reader. rewrite (proj2 (Z.ltb_lt i _)) by lia.
  rewrite (proj2 (Z.leb_le _ _)), (proj2 (Z.ltb_lt _ _)) by lia. rewrite Ho. by rewrite Z.add_0_r.
Qed.

(** The table in the loaded image. *)
Lemma header_table ph0 lb s :
  valid_library -> header_segment ph0 -> seg_fits a f lb fo ph0 -> seg_image a f lb fo ph0 s ->
  read_array (read_Phdr a (load_byte s)) (sizeof_Phdr a) (length tbl)
    (mem_start a lb ph0 + e_phoff h) = Some tbl.
Proof.
  intros Hv Hh Hfit Him. destruct (vl_in_file Hv) as (Hn & Ho & _ & _ & Ht).
  pose proof (read_array_length _ _ _ _ _ Ht) as Hlen. rewrite Hlen.
  rewrite <-Ht. apply read_array_shift. intros k Hk. apply read_Phdr_shift. intros i Hi.
  pose proof Hh as (_ & _ & _ & _ & Hsz & _).
  rewrite <-!Z.add_assoc. apply header_bytes; [done..|apply Hv|nia].
Qed.

Lemma find_in_table ph0 : header_segment ph0 -> ph0 ∈ tbl /\ is_load ph0.
Proof.
  intros (H & _). apply find_some in H as [Hin Ht]. bool_to_prop.
  split; [by apply list_elem_of_In|done].
Qed.

(** [CheckPhdr] accepts the address of the table. *)
Lemma check_phdr_ok ph0 l :
  header_segment ph0 -> 0 <= e_phoff h -> 0 <= e_phnum h ->
  phdr_entries a l = Ret tbl l -> phdr_num_ l = e_phnum h ->
  seg_fits a f (load_bias_ l) fo ph0 ->
  CheckPhdr a (mem_start a (load_bias_ l) ph0 + e_phoff h) l
    = Ret tt (set_loaded_phdr (mem_start a (load_bias_ l) ph0 + e_phoff h) l).
Proof.
  intros Hh Hoff Hn Htbl Hnum [? ? _ _ _]. destruct (find_in_table ph0 Hh) as [Hin Hl].
  destruct Hh as (_ & _ & _ & _ & Hsz & _).
  pose proof (addr_fits a (p_vaddr ph0 + load_bias_ l)) as Hs.
  change (addr a (p_vaddr ph0 + load_bias_ l)) with (mem_start a (load_bias_ l) ph0) in Hs.
  unfold CheckPhdr, lbind, lget. rewrite Htbl, Hnum.
  assert (0 <= e_phnum h * sizeof_Phdr a) by (apply Z.mul_nonneg_nonneg; [done|by destruct a]).
  unfold PAGE_SIZE in *. rewrite (addr_small a (_ + _ * _)) by lia.
  rewrite (proj2 (existsb_exists _ _)); [done|].
  exists ph0. split; [by apply list_elem_of_In|].
  rewrite (proj2 (Z.eqb_eq _ _) Hl).
  change (addr a (p_vaddr ph0 + load_bias_ l)) with (mem_start a (load_bias_ l) ph0).
  rewrite (addr_small a (p_filesz ph0 + _)) by lia.
  rewrite !(proj2 (Z.leb_le _ _)) by lia. done.
Qed.

Lemma find_phdr_ok ph0 l :
  valid_library -> header_segment ph0 -> phdr_entries a l = Ret tbl l ->
  phdr_num_ l = e_phnum h -> seg_fits a f (load_bias_ l) fo ph0 ->
  seg_image a f (load_bias_ l) fo ph0 (space l) ->
  FindPhdr a l = Ret tt (set_loaded_phdr (mem_start a (load_bias_ l) ph0 + e_phoff h) l).
Proof.
  intros Hv Hh Htbl Hnum Hfit Him.
  destruct (vl_in_file Hv) as (Hn & Ho & _). pose proof Hh as (Hf & Hz & _ & He & Hsz & Hp).
  pose proof Hfit as [? ? _ _ _]. unfold PAGE_SIZE in *.
  pose proof (addr_fits a (p_vaddr ph0 + load_bias_ l)) as Hs.
  set (S0 := mem_start a (load_bias_ l) ph0) in *.
  assert (0 < sizeof_Phdr a) by (by destruct a).
  assert (addr a (load_bias_ l + p_vaddr ph0) = S0) as Hlb by (by rewrite Z.add_comm).
  change (addr a (p_vaddr ph0 + load_bias_ l)) with S0 in Hs.
  assert (addr a (S0 + e_phoff h) = S0 + e_phoff h) as Hsmall by (apply addr_small; nia).
  unfold FindPhdr, lbind, lget. rewrite Htbl.
  destruct (List.find (fun ph => p_type ph =? PT_PHDR) tbl) as [php|] eqn:Ep.
  - rewrite (Hp _ eq_refl), Z.add_assoc.
    replace (addr a (load_bias_ l + p_vaddr ph0 + e_phoff h)) with (S0 + e_phoff h).
    { by apply check_phdr_ok; try lia. }
    rewrite <-Hsmall, <-Hlb. unfold addr. by autorewrite with wrap.
  - rewrite Hf, (proj2 (Z.eqb_eq _ _) Hz), Hlb. unfold lread.
    rewrite (read_Ehdr_shift a _ (file_reader f) S0 fo), (vl_header Hv).
    { rewrite Hsmall. by apply check_phdr_ok; try lia. }
    intros i Hi. apply header_bytes; [done..|apply Hv|lia].
Qed.

(** An address keeps its mapping, and its content when it has one. *)
Definition same_at (s s' : aspace) (x : Z) : Prop :=
  prot_at s' x = prot_at s x /\ (prot_at s x <> None -> byte_at s' x = byte_at s x).

(** The library is in the address space [s'], and nothing else has changed
    since [s]. *)
Record loaded (s s' : aspace) (l : ElfLoader) : Prop := {
  loaded_image ph : ph ∈ tbl -> is_load ph -> seg_image a f (load_bias_ l) fo ph s';
  loaded_table : read_array (read_Phdr a (load_byte s')) (sizeof_Phdr a) (length tbl)
                   (loaded_phdr_ l) = Some tbl;
  loaded_range x : in_range (load_start_ l) (load_size_ l) x = true -> prot_at s x = None;
  loaded_frame x : in_range (load_start_ l) (load_size_ l) x = false -> same_at s s' x;
}.

(** Unmapping the copy of the table. *)
Lemma delete_loader_spec l x :
  0 < phdr_mmap_ l -> page_aligned (phdr_mmap_ l) -> 0 < phdr_size_ l ->
  page_aligned (phdr_size_ l) ->
  (in_range (phdr_mmap_ l) (phdr_size_ l) x = true -> prot_at (delete_ElfLoader l) x = None) /\
  (in_range (phdr_mmap_ l) (phdr_size_ l) x = false ->
     prot_at (delete_ElfLoader l) x = prot_at (space l) x /\
     byte_at (delete_ElfLoader l) x = byte_at (space l) x).
Proof.
  intros H1 H2 H3 H4. unfold delete_ElfLoader, munmap.
  rewrite (proj2 (Z.eqb_neq _ _)), kunmap_valid by (done || lia).
  rewrite round_up_id by done. cbn. by split; intros ->.
Qed.

(** The two phases after the reservation. *)
Lemma load_reserved ph0 l :
  valid_library -> header_segment ph0 -> loadable a f tbl l -> file_offset_ l = fo ->
  phdr_num_ l = e_phnum h ->
  match (let* _ := LoadSegments a f in FindPhdr a) l with
  | Ret _ l' =>
      (forall ph, ph ∈ tbl -> is_load ph -> seg_image a f (load_bias_ l) fo ph (space l')) /\
      l' = set_loaded_phdr (mem_start a (load_bias_ l) ph0 + e_phoff h) (set_space (space l') l) /\
      outside_kept a tbl l l'
  | Fail _ l' => map_refused /\ l' = set_space (space l') l /\ outside_kept a tbl l l'
  | Crash => False
  end.
Proof.
  intros Hv Hh Hld Hfo Hnum. pose proof (load_segments_core a f tbl l Hld) as Hls.
  unfold lbind at 1. destruct (LoadSegments a f l) as [[] l4|e l4|]; [|done|done].
  destruct Hls as (Him & Hl4 & Hk). destruct (find_in_table ph0 Hh) as [Hin Hl].
  assert (load_bias_ l4 = load_bias_ l /\ phdr_num_ l4 = phdr_num_ l) as [Hb Hn]
    by (rewrite Hl4; done).
  rewrite Hfo in Him.
  rewrite (find_phdr_ok ph0 l4); try done; try congruence.
  - rewrite Hb. split_and!; [done| |done]. rewrite Hl4. done.
  - by eapply table_kept.
  - rewrite Hb, <-Hfo. by apply Hld.
  - rewrite Hb. by apply Him.
Qed.

(** The state once the headers are read, in a process that was at [s]. *)
Record prepared (s : aspace) (l : ElfLoader) : Prop := {
  pr_table : table_mapped a tbl l;
  pr_request : file_offset_ l = fo /\ wanted_load_address_ l = 0 /\ phdr_num_ l = e_phnum h;
  pr_range : 0 < phdr_mmap_ l /\ page_aligned (phdr_mmap_ l) /\
             0 < phdr_size_ l /\ page_aligned (phdr_size_ l);
  pr_mapped x : in_range (phdr_mmap_ l) (phdr_size_ l) x = true -> prot_at (space l) x <> None;
  pr_free x : in_range (phdr_mmap_ l) (phdr_size_ l) x = true -> prot_at s x = None;
  pr_frame x : in_range (phdr_mmap_ l) (phdr_size_ l) x = false ->
    prot_at (space l) x = prot_at s x /\ byte_at (space l) x = byte_at s x;
}.

(** What is left when the loader is deleted, if only the pages of the range
    [start], [size] differ from [l] in [l']. *)
Lemma delete_prepared s l l' start size x :
  prepared s l -> phdr_mmap_ l' = phdr_mmap_ l -> phdr_size_ l' = phdr_size_ l ->
  (forall y, in_range start size y = false -> same_at (space l) (space l') y) ->
  in_range start size x = false -> same_at s (delete_ElfLoader l') x.
Proof.
  intros [_ _ Hr _ Hfree Hfr] Hm Hz Hk Hx. rewrite <-Hm, <-Hz in *.
  destruct (delete_loader_spec l' x) as [Hin Hout]; try apply Hr.
  unfold same_at in *. destruct (in_range (phdr_mmap_ l') (phdr_size_ l') x) eqn:E.
  - rewrite Hin, Hfree by done. done.
  - destruct Hout as [-> ->]; [done|]. destruct (Hfr x E) as [<- <-]. by apply Hk.
Qed.

(** The state after the reservation. *)
Record reserved (l l3 : ElfLoader) : Prop := {
  rs_loadable : loadable a f tbl l3;
  rs_free x : in_range (load_start_ l3) (load_size_ l3) x = true -> prot_at (space l) x = None;
  rs_frame x : in_range (load_start_ l3) (load_size_ l3) x = false ->
    prot_at (space l3) x = prot_at (space l) x /\ byte_at (space l3) x = byte_at (space l) x;
  rs_range : page_aligned (load_size_ l3) /\ page_aligned (load_start_ l3) /\
             0 < load_start_ l3 /\ 0 < load_size_ l3;
  rs_pages ph x : ph ∈ tbl -> is_load ph -> in_pages a (load_bias_ l3) ph x ->
    in_range (load_start_ l3) (load_size_ l3) x = true;
  rs_fields : phdr_mmap_ l3 = phdr_mmap_ l /\ phdr_size_ l3 = phdr_size_ l /\
              phdr_num_ l3 = phdr_num_ l /\ file_offset_ l3 = file_offset_ l;
}.

(** Only the reserved range can differ after the segments are mapped. *)
Lemma reserved_frame l l3 l5 y :
  reserved l l3 -> outside_kept a tbl l3 l5 ->
  in_range (load_start_ l3) (load_size_ l3) y = false -> same_at (space l) (space l5) y.
Proof.
  intros Hr Hk Hy. unfold same_at. destruct (Hk y) as [-> ->].
  { intros ph Hin Hl Hpg. by rewrite (rs_pages _ _ Hr ph y Hin Hl Hpg) in Hy. }
  by destruct (rs_frame _ _ Hr y Hy) as [-> ->].
Qed.

(** The reserved range and the copy of the table are apart. *)
Lemma reserved_disjoint s l l3 x :
  prepared s l -> reserved l l3 -> in_range (load_start_ l3) (load_size_ l3) x = true ->
  in_range (phdr_mmap_ l) (phdr_size_ l) x = false.
Proof.
  intros Hp Hr Hx. apply (rs_free _ _ Hr) in Hx. destruct (in_range _ _ x) eqn:E; [|done].
  by apply (pr_mapped _ _ Hp) in E.
Qed.

Lemma finish_loaded s l l3 l5 ph0 :
  valid_library -> header_segment ph0 -> prepared s l -> reserved l l3 ->
  (forall ph, ph ∈ tbl -> is_load ph -> seg_image a f (load_bias_ l3) fo ph (space l5)) ->
  l5 = set_loaded_phdr (mem_start a (load_bias_ l3) ph0 + e_phoff h) (set_space (space l5) l3) ->
  outside_kept a tbl l3 l5 -> loaded s (delete_ElfLoader l5) l5.
Proof.
  intros Hv Hh Hp Hr Him Hl5 Hk. pose proof (rs_fields _ _ Hr) as (Hm & Hz & _ & Hf3).
  pose proof (pr_range _ _ Hp) as Hrg. pose proof (pr_request _ _ Hp) as (Hfo & _).
  assert (load_bias_ l5 = load_bias_ l3 /\ load_start_ l5 = load_start_ l3 /\
    load_size_ l5 = load_size_ l3 /\ phdr_mmap_ l5 = phdr_mmap_ l /\ phdr_size_ l5 = phdr_size_ l
    /\ loaded_phdr_ l5 = mem_start a (load_bias_ l3) ph0 + e_phoff h)
    as (Eb & Es & Ez & Em & Ezp & El) by (rewrite Hl5; cbn; split_and!; congruence).
  assert (forall ph, ph ∈ tbl -> is_load ph ->
    seg_image a f (load_bias_ l3) fo ph (delete_ElfLoader l5)) as Him'.
  { intros ph Hin Hl i Hi. destruct (Him ph Hin Hl i Hi) as [H1 H2].
    destruct (delete_loader_spec l5 (mem_start a (load_bias_ l3) ph + i)) as [_ Hout];
      [rewrite ?Em, ?Ezp; apply Hrg..|].
    rewrite <-H1, <-H2. apply Hout. rewrite Em, Ezp.
    eapply reserved_disjoint, (rs_pages _ _ Hr ph); [done..|].
    pose proof (lo_le_file_hi a f _ _ ph (ld_segs _ _ _ _ (rs_loadable _ _ Hr) ph Hin Hl)).
    unfold in_pages. lia. }
  destruct (find_in_table ph0 Hh) as [Hin0 Hl0].
  split; rewrite ?Eb, ?Es, ?Ez; [done| | |].
  - rewrite El. apply header_table; auto. rewrite <-Hfo, <-Hf3. by apply (rs_loadable _ _ Hr).
  - intros x Hx. pose proof (reserved_disjoint _ _ _ _ Hp Hr Hx) as Hd.
    destruct (pr_frame _ _ Hp x Hd) as [<- _]. by apply (rs_free _ _ Hr).
  - intros x Hx. eapply delete_prepared; [done..| |done]. intros y. by eapply reserved_frame.
Qed.

Lemma finish_failed s l l3 l5 x :
  prepared s l -> reserved l l3 -> l5 = set_space (space l5) l3 -> outside_kept a tbl l3 l5 ->
  same_at s (delete_ElfLoader
    match (if (load_start_ l5 =? 0) || (load_size_ l5 =? 0) then None
           else munmap (space l5) (load_start_ l5) (load_size_ l5)) with
    | Some sp => set_space sp l5 | None => l5 end) x.
Proof.
  intros Hp Hr Hl5 Hk. pose proof (rs_range _ _ Hr) as (Hza & Hsa & Hs0 & Hz0).
  pose proof (rs_fields _ _ Hr) as (Hm & Hz & _ & _).
  assert (load_start_ l5 = load_start_ l3 /\ load_size_ l5 = load_size_ l3 /\
    phdr_mmap_ l5 = phdr_mmap_ l /\ phdr_size_ l5 = phdr_size_ l) as (-> & -> & Em & Ez)
    by (rewrite Hl5; cbn; split_and!; congruence).
  rewrite !(proj2 (Z.eqb_neq _ _)) by lia. cbn [orb]. unfold munmap.
  rewrite kunmap_valid by done.
  eapply (delete_prepared s l _ 0 0); try done; [|apply in_range_false; lia].
  intros y _. unfold same_at. cbn. rewrite round_up_id by done.
  destruct (in_range _ _ y) eqn:E; [by rewrite (rs_free _ _ Hr)|by apply (reserved_frame l l3 l5)].
Qed.

Lemma load_prepared s l :
  valid_library -> prepared s l ->
  match (let* _ := ReserveAddressSpace a in load_reserved_range a f) l with
  | Ret _ l' => loaded s (delete_ElfLoader l') l'
  | Fail _ l' => (no_room \/ map_refused) /\ forall x, same_at s (delete_ElfLoader l') x
  | Crash => False
  end.
Proof.
  intros Hv Hp. pose proof Hp as [Ht (Hfo & Hw & Hnum) _ _ _ _].
  destruct (vl_segment Hv) as (ph0 & Hh).
  pose proof (reserve_spec a HK f fo tbl l (vl_table Hv) Ht (proj2 (vl_offset Hv)) Hfo Hw) as Hres.
  unfold lbind at 1. destruct (ReserveAddressSpace a l) as [[] l3|e l3|]; [| |done].
  2: { destruct Hres as (Hno & Hsp & Hm & Hz). split; [by left|]. intros x.
       eapply (delete_prepared s l l3 0 0); try done; [by rewrite Hsp|apply in_range_false; lia]. }
  assert (reserved l l3) as Hr.
  { destruct Hres as (? & ? & ? & ? & ? & ? & ? & ? & ? & ? & ? & ?).
    split; [done|done|done|split_and!; done|done|split_and!; done]. }
  pose proof (rs_fields _ _ Hr) as (_ & _ & Hn3 & Hf3).
  pose proof (load_reserved ph0 l3 Hv Hh (rs_loadable _ _ Hr)) as Hrs. unfold load_reserved_range.
  specialize (Hrs ltac:(congruence) ltac:(congruence)).
  destruct ((let* _ := LoadSegments a f in FindPhdr a) l3) as [[] l5|e l5|];
    [destruct Hrs as (H1 & Hl5 & Hk)..|done].
  - by eapply finish_loaded.
  - split; [by right|]. intros x. by apply (finish_failed s l l3).
Qed.

(** Reading the headers of a valid library. *)
Lemma headers_prepared s l :
  valid_library -> space l = s -> file_offset_ l = fo -> wanted_load_address_ l = 0 ->
  match ReadProgramHeader a f h l with
  | Ret _ l' => prepared s l'
  | Fail _ l' => no_room /\ space l' = s /\ phdr_mmap_ l' = phdr_mmap_ l
  | Crash => False
  end.
Proof.
  intros Hv <- Hfo Hw.
  pose proof (read_program_header_spec a f HK l h tbl) as Hph. rewrite Hfo in Hph.
  specialize (Hph (proj1 (vl_offset Hv)) (vl_in_file Hv)).
  destruct (ReadProgramHeader a f h l); [|done|done].
  destruct Hph as (? & ? & ? & ? & ? & ? & ? & ? & ? & ? & ?).
  split; [done|split_and!; congruence|done..].
Qed.

Lemma load_at_core path s :
  valid_library -> fs_open path = Some f -> fs_read_ok f fo = true ->
  fo = 0 \/ fs_seek_ok f fo = true ->
  match LoadAt a path fo 0 (new_ElfLoader s) with
  | Ret _ l => loaded s (delete_ElfLoader l) l
  | Fail _ l => (no_room \/ map_refused) /\ forall x, same_at s (delete_ElfLoader l) x
  | Crash => False
  end.
Proof.
  intros Hv Ho Hr Hs. pose proof (vl_offset Hv) as [Hfo Hal].
  unfold LoadAt, lbind, modify, require. change (0 =? PAGE_START 0) with true. cbn iota.
  rewrite (proj2 (Z.eqb_eq (Z.land fo (PAGE_SIZE - 1)) 0)).
  2: { rewrite <-Hal. apply page_offset_mod. }
  rewrite Ho. cbn iota. replace ((fo =? 0) || fs_seek_ok f fo) with true.
  2: { destruct Hs as [-> | ->]; [done|by rewrite orb_true_r]. }
  set (l1 := set_fd _ _).
  destruct (read_elf_header_spec a f l1) as [(h' & -> & Hh & Hok)|(e & l' & _ & _ & _ & Hbad)]; [done| |].
  2: { change (file_offset_ l1) with fo in Hbad. exfalso.
       destruct Hbad as [?|[Hlt|(h' & Hh & Hok)]]; [congruence| |].
       - destruct (vl_segment Hv) as (ph0 & Hseg). destruct (find_in_table ph0 Hseg) as [Hin Hl].
         destruct (vt_segs _ _ _ _ (vl_table Hv) ph0 Hin Hl) as (_ & _ & _ & _ & Hsz & _).
         destruct Hseg as (_ & Hz & _ & He & _). lia.
       - rewrite (vl_header Hv) in Hh. simplify_eq. by rewrite (vl_accepted Hv) in Hok. }
  change (file_offset_ l1) with fo in Hh. rewrite (vl_header Hv) in Hh. simplify_eq.
  unfold lread. cbn [set_header header_].
  pose proof (headers_prepared s (set_header h l1) Hv eq_refl eq_refl eq_refl) as Hp.
  destruct (ReadProgramHeader _ _ _ _) as [[] l2|e l2|]; [| |done].
  - apply (load_prepared s l2 Hv Hp).
  - destruct Hp as (Hno & Hsp & Hm). split; [by left|]. intros x. unfold delete_ElfLoader.
    rewrite Hm. cbn [Z.eqb]. rewrite Hsp. done.
Qed.

End Load.

(** ** A small library *)

(** A library of 116 bytes with a text and a data segment. *)
Definition demo_bytes : list Z :=
  [127; 69; 76; 70; 1; 1; 1; 0; 0; 0; 0; 0; 0; 0; 0; 0; 3; 0; 40; 0; 1; 0; 0; 0; 0; 0;
   0; 0; 52; 0; 0; 0; 0; 0; 0; 0; 0; 0; 0; 0; 52; 0; 32; 0; 2; 0; 0; 0; 0; 0; 0; 0; 1;
   0; 0; 0; 0; 0; 0; 0; 0; 0; 1; 0; 0; 0; 1; 0; 116; 0; 0; 0; 116; 0; 0; 0; 5; 0; 0; 0;
   0; 16; 0; 0; 1; 0; 0; 0; 100; 0; 0; 0; 100; 16; 1; 0; 100; 16; 1; 0; 16; 0; 0; 0; 0;
   24; 0; 0; 6; 0; 0; 0; 0; 16; 0; 0].

Definition demo_file : file := mk_file 116 (fun i => nth (Z.to_nat i) demo_bytes 0).

Definition demo_header : Ehdr :=
  mk_Ehdr (take 16 demo_bytes) ET_DYN (ELF_MACHINE arm) EV_CURRENT 52 32 2.

Definition demo_table : list Phdr :=
  [mk_Phdr PT_LOAD 0 0x10000 116 116 (PF_R + PF_X);
   mk_Phdr PT_LOAD 100 0x11064 16 0x1800 (PF_R + PF_W)].

(** A file system with this library only. *)
#[local] Instance demo_fs : FileSystem := {|
  fs_open path := if bool_decide (path = str "libdemo.so") then Some demo_file else None;
  fs_seek_ok _ _ := true;
  fs_read_ok _ _ := true;
  fs_is_file path := bool_decide (path = str "libdemo.so");
  fs_cwd := str "/";
|}.

Lemma demo_segs ph : ph ∈ demo_table -> is_load ph ->
  seg_ok arm ph /\ 0 <= p_filesz ph <= p_memsz ph /\
  0 <= p_offset ph /\ p_offset ph + p_filesz ph < 2 ^ kElfBits arm /\
  0 + p_offset ph + p_filesz ph <= f_size demo_file /\
  p_offset ph mod PAGE_SIZE = p_vaddr ph mod PAGE_SIZE.
Proof.
  intros Hin _. unfold demo_table in Hin.
  elem_inv Hin; unfold seg_ok; split_and!; vm_compute; congruence.
Qed.

Lemma demo_disjoint lo hi j k p q :
  (forall p q, demo_table !! 0%nat = Some p -> demo_table !! 1%nat = Some q -> hi p <= lo q) ->
  demo_table !! j = Some p -> demo_table !! k = Some q -> j <> k ->
  hi p <= lo q \/ hi q <= lo p.
Proof.
  intros H Hj Hk Hne.
  assert (j = 0 /\ k = 1 \/ j = 1 /\ k = 0)%nat as [[-> ->]|[-> ->]].
  { apply lookup_lt_Some in Hj, Hk. cbn in *. lia. }
  - left. by apply H.
  - right. by apply H.
Qed.

Lemma demo_valid : valid_library arm demo_file 0 demo_header demo_table.
Proof.
  split.
  - done.
  - vm_compute. reflexivity.
  - vm_compute. reflexivity.
  - unfold table_in_file. split_and!; vm_compute; congruence.
  - split.
    + apply demo_segs.
    + intros j k p q Hj Hk Hne _ _. apply (demo_disjoint seg_lo seg_hi j k); try done.
      intros ? ? [= <-] [= <-]. vm_compute. congruence.
    + eexists. split; [apply elem_of_cons; by left|done].
  - eexists. split; [reflexivity|]. split_and!; vm_compute; congruence.
Qed.

(** The state of a loader that has reserved the range for it. *)
Definition demo_loader : ElfLoader :=
  mk_ElfLoader (Some demo_file) (Some demo_header) 2 0x50000000 0x50000034 0x1000 0 0
    0x40000000 0x3000 (0x40000000 - 0x10000) 0
    (map_range (map_range no_space 0x50000000 0x1000 PROT_READ (file_content demo_file 0))
       0x40000000 0x3000 PROT_NONE anonymous).

Lemma demo_loadable : loadable arm demo_file demo_table demo_loader.
Proof.
  split; [done| | |split_and!].
  - intros ph Hin _. unfold demo_table in Hin. elem_inv Hin; split; vm_compute; intuition congruence.
  - intros j k p q Hj Hk Hne _ _.
    apply (demo_disjoint (mem_lo arm _) (mem_hi arm _) j k); try done.
    intros ? ? [= <-] [= <-]. vm_compute. congruence.
  - done.
  - intros k ph Hk. destruct k as [|[|k]]; cbn in Hk; simplify_eq; vm_compute; reflexivity.
  - intros ph x Hin _ Hx. unfold demo_table in Hin. unfold in_pages.
    change (phdr_table_ demo_loader) with 0x50000034 in Hx.
    elem_inv Hin; intros [_ Hp]; [change (mem_hi arm _ _) with 0x40001000 in Hp
                                 |change (mem_hi arm _ _) with 0x40003000 in Hp]; lia.
Qed.

(** ** Properties *)

(** The memory image of a library.  For a program header table that
    satisfies the ELF rules (data inside the file, offsets and addresses equal
    modulo the page size, no page shared by two segments), [LoadSegments] never
    crashes; it fails only when the kernel refuses a mapping; and when it
    returns, every loadable segment has its protection and its content: the
    bytes of the file, then zeros up to [p_memsz] (in a segment that is not
    writable, the bytes that follow in the file up to the end of the page).  No
    other byte of the process changes. *)
Theorem LoadSegments_image a `{Kernel} f tbl l :
  loadable a f tbl l ->
  match LoadSegments a f l with
  | Ret _ l' =>
      (forall ph, ph ∈ tbl -> is_load ph ->
         seg_image a f (load_bias_ l) (file_offset_ l) ph (space l')) /\
      l' = set_space (space l') l /\ outside_kept a tbl l l'
  | Fail _ l' => map_refused /\ l' = set_space (space l') l /\ outside_kept a tbl l l'
  | Crash => False
  end.
Proof. apply load_segments_core. Qed.

Lemma LoadSegments_image_witness :
  loadable arm demo_file demo_table demo_loader /\
  match LoadSegments arm demo_file demo_loader with
  | Ret _ l' => seg_image arm demo_file (0x40000000 - 0x10000) 0
                  (mk_Phdr PT_LOAD 100 0x11064 16 0x1800 (PF_R + PF_W)) (space l')
  | Fail _ _ => map_refused
  | Crash => False
  end.
Proof.
  split; [apply demo_loadable|].
  pose proof (LoadSegments_image arm demo_file demo_table demo_loader demo_loadable) as H.
  destruct (LoadSegments arm demo_file demo_loader) as [u l'|e l'|]; [|apply H|apply H].
  destruct H as [Him _]. apply Him; [apply elem_of_cons; right; apply elem_of_cons; by left|done].
Defined.



(** C22: The header check.  At any offset of any file, [ReadElfHeader] never
    crashes and maps nothing; it accepts exactly when the file has a complete
    header there with the right magic, class, byte order, type, version and
    machine. *)
Theorem ReadElfHeader_accepts a `{FS : FileSystem} f l :
  0 <= file_offset_ l ->
  (exists h, ReadElfHeader a f l = Ret tt (set_header h l) /\
     read_Ehdr a (file_reader f) (file_offset_ l) = Some h /\ header_ok a h = true) \/
  (exists e l', ReadElfHeader a f l = Fail e l' /\ space l' = space l /\
     (fs_read_ok f (file_offset_ l) = false \/ f_size f < file_offset_ l + sizeof_Ehdr a \/
      exists h, read_Ehdr a (file_reader f) (file_offset_ l) = Some h /\ header_ok a h = false)).
Proof.
  intros Hfo. destruct (read_elf_header_spec a f l Hfo) as [?|(e & l' & ? & ? & _ & ?)]; [by left|].
  right. by exists e, l'.
Qed.

Lemma ReadElfHeader_accepts_witness :
  exists h, ReadElfHeader arm demo_file (new_ElfLoader no_space)
    = Ret tt (set_header h (new_ElfLoader no_space)) /\ header_ok arm h = true.
Proof.
  destruct (ReadElfHeader_accepts arm demo_file (new_ElfLoader no_space)) as
    [(h & H & _ & Hok)|(e & l' & H & _)]; [done|by exists h|].
  exfalso. vm_compute in H. discriminate.
Defined.
