(* ===== verification/ElfView.v ===== *)
(** * The view of a mapped ELF binary

    Models [crazy_linker_elf_view.cpp] and [crazy_linker_elf_view.h]: the class
    [ElfView], which collects the addresses a library needs from its program
    header table, and the iteration over the dynamic table.  The table and the
    ELF header are read in the address space of the process. *)

From S2P Require Import Prelude Kernel ElfTraits Sample LinkerPhdr.
Open Scope Z_scope.
Open Scope ndk_scope.

Record ElfView := mk_ElfView {
  phdr_ : Z;
  phdr_count_ : Z;
  dynamic_ : Z;
  dynamic_count_ : Z;
  dynamic_flags_ : Z;
  load_address_ : Z;
  load_size_ : Z;
  load_bias_ : Z;
}.

Definition new_ElfView : ElfView := mk_ElfView 0 0 0 0 0 0 0 0.

Section Operations.
Context (a : arch) (s : aspace).

(** The address of the first entry with a given type, in a table at [p]. *)
Fixpoint find_entry (type p : Z) (tbl : list Phdr) : option (Z * Phdr) :=
  match tbl with
  | [] => None
  | entry :: rest =>
      if p_type entry =? type then Some (p, entry)
      else find_entry type (p + sizeof_Phdr a) rest
  end.

(** The search for [phdr0] in [ElfView::InitUnmapped]; 0 for [NULL]. *)
Definition find_phdr0 (phdr load_bias : Z) (tbl : list Phdr) : option Z :=
  match find_entry PT_PHDR phdr tbl with
  | Some (entry, _) => Some entry
  | None =>
      match find_entry PT_LOAD phdr tbl with
      | Some (_, entry) =>
          if p_offset entry =? 0
          then
            let elf_addr := addr a (load_bias + p_vaddr entry) in
            ehdr ← read_Ehdr a (load_byte s) elf_addr;
            Some (addr a (elf_addr + e_phoff ehdr))
          else Some 0
      | None => Some 0
      end
  end.

(** Whether the table at [phdr0] is inside a segment. *)
Definition phdr0_found (phdr0 load_bias : Z) (tbl : list Phdr) : bool :=
  let phdr0_limit := addr a (phdr0 + sizeof_Phdr a * Z.of_nat (length tbl)) in
  existsb (fun phdr =>
    let seg_start := addr a (load_bias + p_vaddr phdr) in
    let seg_end := addr a (seg_start + p_filesz phdr) in
    (seg_start <=? phdr0) && (phdr0_limit <=? seg_end)) tbl.

(** [ElfView::InitUnmapped] on the [phdr_count] entries at [phdr]. *)
Definition InitUnmapped (load_address phdr phdr_count : Z) : M ElfView unit :=
  let* tbl := lread (fun _ => read_array (read_Phdr a (load_byte s)) (sizeof_Phdr a)
                                (Z.to_nat phdr_count) phdr) in
  let '(load_size, min_vaddr, _) := phdr_table_get_load_size a tbl in
  let* v := lget in
  let v := mk_ElfView (phdr_ v) (phdr_count_ v) (dynamic_ v) (dynamic_count_ v)
             (dynamic_flags_ v) (load_address_ v) load_size (load_bias_ v) in
  do* lput v in
  if load_size =? 0 then lfail (Msg "Invalid program header table" []) else
  let load_bias := addr a (load_address - min_vaddr) in
  let '(dynamic, dynamic_count, dynamic_flags) :=
    phdr_table_get_dynamic_section a tbl load_address in
  let v := mk_ElfView (phdr_ v) (phdr_count_ v) dynamic dynamic_count
             (default (dynamic_flags_ v) dynamic_flags)
             (if load_address =? 0 then min_vaddr else load_address) load_size load_bias in
  do* lput v in
  if dynamic =? 0 then lfail (Msg "No PT_DYNAMIC section!" []) else
  let* phdr0 := lread (fun _ => find_phdr0 phdr load_bias tbl) in
  if (phdr0 =? 0) || negb (phdr0_found phdr0 load_bias tbl)
  then lfail (Msg "Malformed ELF binary" [])
  else lput (mk_ElfView phdr0 phdr_count dynamic dynamic_count (dynamic_flags_ v)
               (load_address_ v) load_size load_bias).

(** [ElfView::ProtectRelroSection] on the address space. *)
Definition ProtectRelroSection `{Kernel} (v : ElfView) : M aspace unit := fun s =>
  match read_array (read_Phdr a (load_byte s)) (sizeof_Phdr a)
          (Z.to_nat (phdr_count_ v)) (phdr_ v) with
  | None => Crash
  | Some tbl =>
      let '(ret, s') := phdr_table_protect_gnu_relro a tbl (load_bias_ v) s in
      if ret <? 0 then Fail (Msg "Can't enable GNU RELRO protection: %s" []) s' else Ret tt s'
  end.

End Operations.

(** A loop [for (; dyn.HasNext(); dyn.GetNext())] over [n] entries of the
    dynamic table from [p]; [rd] reads memory in the state of the loop, and the
    body has the address of the entry and its content. *)
Fixpoint for_dynamic {S} (a : arch) (rd : S -> Z -> option Z) (n : nat) (p : Z)
    (body : Z -> Dyn -> M S unit) : M S unit :=
  match n with
  | O => lret tt
  | Datatypes.S n =>
      let* d := lread (fun st => read_Dyn a (rd st) p) in
      do* body p d in
      for_dynamic a rd n (p + sizeof_Dyn a) body
  end.

(** [DynamicIterator::GetAddress] *)
Definition GetAddress (a : arch) (d : Dyn) (load_bias : Z) : Z := addr a (load_bias + d_val d).

(** ** Lemmas *)

(** A loop whose body cannot fail folds over the entries. *)
(** An invariant of the body is one of the loop. *)
Lemma triple_for_dynamic {S} a (rd : S -> Z -> option Z) n p body (P : S -> Prop) E :
  (forall p d, triple P (body p d) (fun _ => P) E) ->
  triple P (for_dynamic a rd n p body) (fun _ => P) E.
Proof.
  intros Hb. revert p. induction n as [|n IH]; intros p; [by intros s Hs|].
  cbn [for_dynamic]. apply (triple_bind _ _ _ (fun _ => P)); [by apply triple_read|]. intros d.
  apply (triple_bind _ _ _ (fun _ => P)); [apply Hb|]. intros []. apply IH.
Qed.

Lemma for_dynamic_fold {S} a rd (step : S -> Dyn -> S) ds p st :
  read_array (read_Dyn a rd) (sizeof_Dyn a) (length ds) p = Some ds ->
  for_dynamic a (fun _ => rd) (length ds) p (fun _ d st => Ret tt (step st d)) st
  = Ret tt (fold_left step ds st).
Proof.
  revert p st. induction ds as [|d ds IH]; intros p st Hr; [done|].
  cbn [length read_array] in Hr. cbn [length for_dynamic fold_left]. unfold lbind, lread.
  destruct (read_Dyn a rd p) as [d'|]; [|done]. cbn in Hr.
  destruct (read_array _ _ _ (p + _)) eqn:E; [|done]. cbn in Hr. simplify_eq. by apply IH.
Qed.

Lemma dynamic_section_first a tbl lb ph :
  List.find (fun ph => p_type ph =? PT_DYNAMIC) tbl = Some ph ->
  phdr_table_get_dynamic_section a tbl lb =
    (addr a (lb + p_vaddr ph), wrap 32 (p_memsz ph / sizeof_Dyn a), Some (p_flags ph)).
Proof.
  induction tbl as [|q tbl IH]; [done|]. cbn. destruct (p_type q =? PT_DYNAMIC); cbn; [|done].
  by intros [= ->].
Qed.

Lemma find_entry_none a type p tbl :
  List.find (fun ph => p_type ph =? type) tbl = None -> find_entry a type p tbl = None.
Proof.
  revert p. induction tbl as [|q tbl IH]; intros p; [done|]. cbn.
  destruct (p_type q =? type); [done|]. apply IH.
Qed.

Lemma find_entry_some a type p tbl ph :
  List.find (fun ph => p_type ph =? type) tbl = Some ph ->
  exists q, find_entry a type p tbl = Some (q, ph).
Proof.
  revert p. induction tbl as [|q tbl IH]; intros p; [done|]. cbn.
  destruct (p_type q =? type); [|apply IH]. intros [= ->]. by eexists.
Qed.

Lemma dynamic_section_none a tbl lb :
  List.find (fun ph => p_type ph =? PT_DYNAMIC) tbl = None ->
  phdr_table_get_dynamic_section a tbl lb = (0, 0, None).
Proof.
  induction tbl as [|q tbl IH]; [done|]. cbn. by destruct (p_type q =? PT_DYNAMIC).
Qed.

(** ** Properties *)

(** The view of a library.  When [InitUnmapped] succeeds, the size and the
    bias are those of the program header table, the table it found lies in a
    segment, and the dynamic section is the one of the first [PT_DYNAMIC] entry,
    but at its address relative to the load address: it is where the library has
    it (load bias plus [p_vaddr]) exactly when the lowest page of the library
    is 0. *)
Theorem InitUnmapped_view a s load_address phdr phdr_count tbl size lo hi v0 v :
  InitUnmapped a s load_address phdr phdr_count v0 = Ret tt v ->
  read_array (read_Phdr a (load_byte s)) (sizeof_Phdr a) (Z.to_nat phdr_count) phdr = Some tbl ->
  phdr_table_get_load_size a tbl = (size, lo, hi) -> fits (kElfBits a) lo ->
  load_size_ v = size /\ size <> 0 /\ load_bias_ v = addr a (load_address - lo) /\
  phdr_count_ v = phdr_count /\ phdr0_found a (phdr_ v) (load_bias_ v) tbl = true /\
  exists dyn, List.find (fun ph => p_type ph =? PT_DYNAMIC) tbl = Some dyn /\
    dynamic_count_ v = wrap 32 (p_memsz dyn / sizeof_Dyn a) /\ dynamic_flags_ v = p_flags dyn /\
    dynamic_ v = addr a (load_bias_ v + p_vaddr dyn + lo) /\
    (dynamic_ v = addr a (load_bias_ v + p_vaddr dyn) <-> lo = 0).
Proof.
  intros H Htbl Hsize Hlo. unfold InitUnmapped, lbind, lread, lget, lput in H.
  rewrite Htbl, Hsize in H. destruct (size =? 0) eqn:Ez; [done|]. bool_to_prop.
  destruct (List.find (fun ph => p_type ph =? PT_DYNAMIC) tbl) as [dyn|] eqn:Ed.
  2: { rewrite dynamic_section_none in H by done. done. }
  rewrite (dynamic_section_first a tbl load_address dyn Ed) in H.
  destruct (_ =? 0); [done|]. destruct (find_phdr0 _ _ _ _ _) as [phdr0|]; [|done].
  destruct (phdr0 =? 0); [done|]. destruct (phdr0_found _ _ _ _) eqn:Ef; [|done].
  cbn in H. injection H as <-. cbn.
  split_and!; try done. exists dyn. unfold addr. autorewrite with wrap.
  replace (load_address - lo + p_vaddr dyn + lo) with (load_address + p_vaddr dyn) by lia.
  replace (wrap (kElfBits a) (wrap (kElfBits a) (load_address - lo) + p_vaddr dyn + lo))
    with (wrap (kElfBits a) (load_address + p_vaddr dyn)).
  2: { rewrite <-Z.add_assoc, wrap_wrap_add_l. f_equal. lia. }
  split_and!; try done. split; intros Heq; [|subst lo; f_equal; lia].
  unfold wrap, fits in *. set (x := load_address + p_vaddr dyn) in *.
  replace (load_address - lo + p_vaddr dyn) with (x - lo) in Heq by (unfold x; lia).
  apply Z.cong_iff_0 in Heq. replace (x - (x - lo)) with lo in Heq by lia.
  by rewrite Z.mod_small in Heq.
Qed.

(** The view of the sample library. *)
Definition sample_view (base : Z) : ElfView :=
  mk_ElfView (base + 52) 2 (base + 0x80) 8 (PF_R + PF_W) base 0x2000 base.

Lemma sample_view_ok :
  InitUnmapped arm (sample_space 0x40000000) 0x40000000 0x40000034 2 new_ElfView
  = Ret tt (sample_view 0x40000000).
Proof. vm_compute. reflexivity. Qed.

Lemma InitUnmapped_view_witness :
  dynamic_ (sample_view 0x40000000) = 0x40000080 /\ load_bias_ (sample_view 0x40000000) = 0x40000000.
Proof.
  destruct (InitUnmapped_view arm (sample_space 0x40000000) 0x40000000 0x40000034 2 sample_phdrs
    0x2000 0 0x2000 new_ElfView (sample_view 0x40000000)) as (_ & _ & Hb & _ & _ & dyn & Hd & _ & _ & He & _).
  - apply sample_view_ok.
  - vm_compute. reflexivity.
  - vm_compute. reflexivity.
  - by split.
  - split; [|exact Hb]. rewrite He. vm_compute in Hd. injection Hd as <-. reflexivity.
Defined.
