(* ===== verification/ElfSymbols.v ===== *)
(** * Symbol lookup

    Models [crazy_linker_elf_symbols.cpp] and [crazy_linker_elf_symbols.h]: the
    hash function of ELF, the parsing of the dynamic table into an [ElfSymbols]
    object, and the lookups by name, index and address in the symbol table of a
    mapped library.  A lookup returns the symbol, [None] inside for [NULL], and
    [None] outside when it reads memory that is not mapped or never ends. *)

From S2P Require Import Prelude Kernel ElfTraits Sample LinkerPhdr ElfView.
Open Scope Z_scope.
Open Scope ndk_scope.

Definition DT_HASH : Z := 4.
Definition DT_STRTAB : Z := 5.
Definition DT_SYMTAB : Z := 6.

(** One round of the loop of [ElfHash]: [h] is an [unsigned]. *)
Definition hash_step (h : Z) (c : ascii) : Z :=
  let h := wrap 32 (Z.shiftl h 4 + zc c) in
  let g := Z.land h 0xf0000000 in
  let h := Z.lxor h g in
  Z.lxor h (Z.shiftr g 24).

Definition ElfHash (name : cstr) : Z := fold_left hash_step name 0.

Record ElfSymbols := mk_ElfSymbols {
  symbol_table_ : Z;
  string_table_ : Z;
  hash_bucket_ : Z;
  hash_bucket_size_ : Z;
  hash_chain_ : Z;
  hash_chain_size_ : Z;
}.

Definition new_ElfSymbols : ElfSymbols := mk_ElfSymbols 0 0 0 0 0 0.

(** [strcmp(p, name) == 0] for a string in memory. *)
Fixpoint strcmp_eq (s : aspace) (p : Z) (name : cstr) : option bool :=
  b ← load_byte s p;
  match name with
  | [] => Some (b =? 0)
  | c :: rest => if b =? zc c then strcmp_eq s (p + 1) rest else Some false
  end.

Section Operations.
Context (a : arch) (s : aspace).

(** The effect of a dynamic entry in [ElfSymbols::Init]. *)
Definition init_entry (load_bias : Z) (d : Dyn) : M ElfSymbols unit :=
  let* e := lget in
  let dyn_addr := GetAddress a d load_bias in
  if d_tag d =? DT_HASH then
    let* bucket_size := lread (fun _ => load_le 4 s dyn_addr) in
    let* chain_size := lread (fun _ => load_le 4 s (addr a (dyn_addr + 4))) in
    lput (mk_ElfSymbols (symbol_table_ e) (string_table_ e)
      (addr a (dyn_addr + 8)) bucket_size (addr a (dyn_addr + 8 + 4 * bucket_size)) chain_size)
  else if d_tag d =? DT_STRTAB then
    lput (mk_ElfSymbols (symbol_table_ e) dyn_addr
      (hash_bucket_ e) (hash_bucket_size_ e) (hash_chain_ e) (hash_chain_size_ e))
  else if d_tag d =? DT_SYMTAB then
    lput (mk_ElfSymbols dyn_addr (string_table_ e)
      (hash_bucket_ e) (hash_bucket_size_ e) (hash_chain_ e) (hash_chain_size_ e))
  else lret tt.

(** [ElfSymbols::Init]; the result is the returned value. *)
Definition Init (view : ElfView) : M ElfSymbols bool :=
  do* for_dynamic a (fun _ => load_byte s) (Z.to_nat (dynamic_count_ view)) (dynamic_ view)
        (fun _ d => init_entry (load_bias_ view) d) in
  let* e := lget in
  lret (negb ((symbol_table_ e =? 0) || (string_table_ e =? 0) || (hash_bucket_ e =? 0))).

Context (e : ElfSymbols).

(** [symbol_table_[n]] *)
Definition LookupById (n : Z) : option Sym :=
  read_Sym a (load_byte s) (addr a (symbol_table_ e + n * sizeof_Sym a)).

Definition IsWeakById (n : Z) : option bool :=
  sym ← LookupById n; Some (ELF_ST_BIND (st_info sym) =? STB_WEAK).

(** [ElfSymbols::LookupNameById]: the address of the name. *)
Definition LookupNameById (n : Z) : option Z :=
  sym ← LookupById n; Some (addr a (string_table_ e + st_name sym)).

Definition GetStringById (str_id : Z) : Z := addr a (string_table_ e + str_id).

Definition bucket (b : Z) : option Z := load_le 4 s (addr a (hash_bucket_ e + 4 * b)).

Definition chain (n : Z) : option Z := load_le 4 s (addr a (hash_chain_ e + 4 * n)).

(** Whether the symbol is the definition the loop of [LookupByName] wants. *)
Definition matches (symbol_name : cstr) (symbol : Sym) : option bool :=
  same ← strcmp_eq s (addr a (string_table_ e + st_name symbol)) symbol_name;
  Some (same && negb (st_shndx symbol =? SHN_UNDEF) &&
        ((ELF_ST_BIND (st_info symbol) =? STB_GLOBAL) ||
         (ELF_ST_BIND (st_info symbol) =? STB_WEAK))).

(** One round of the loop of [ElfSymbols::LookupByName]. *)
Definition lookup_round (symbol_name : cstr) (n : Z) : option (option Sym) + Z :=
  if n =? 0 then inl (Some None)
  else match LookupById n with
       | None => inl None
       | Some symbol =>
           match matches symbol_name symbol with
           | None => inl None
           | Some true => inl (Some (Some symbol))
           | Some false => match chain n with None => inl None | Some n' => inr n' end
           end
       end.

Definition LookupByName (symbol_name : cstr) : option (option Sym) :=
  let hash := ElfHash symbol_name in
  if hash_bucket_size_ e =? 0 then None
  else
    n ← bucket (hash mod hash_bucket_size_ e);
    match loop 64 (lookup_round symbol_name) n with inl r => r | inr _ => None end.

(** [ElfSymbols::LookupAddressByName]; 0 for [NULL]. *)
Definition LookupAddressByName (symbol_name : cstr) (load_bias : Z) : option Z :=
  r ← LookupByName symbol_name;
  Some (match r with Some sym => addr a (load_bias + st_value sym) | None => 0 end).

(** The test for a symbol that contains an address. *)
Definition contains (elf_addr : Z) (sym : Sym) : bool :=
  (st_value sym <=? elf_addr) && (elf_addr <? addr a (st_value sym + st_size sym)).

(** The loop of [ElfSymbols::LookupByAddress] over [k] symbols from [n]. *)
Fixpoint lookup_by_address (elf_addr : Z) (k : nat) (n : Z) : option (option Sym) :=
  match k with
  | O => Some None
  | S k =>
      sym ← LookupById n;
      if negb (st_shndx sym =? SHN_UNDEF) && contains elf_addr sym then Some (Some sym)
      else lookup_by_address elf_addr k (n + 1)
  end.

Definition LookupByAddress (address load_bias : Z) : option (option Sym) :=
  lookup_by_address (addr a (address - load_bias)) (Z.to_nat (hash_chain_size_ e)) 0.

(** The distance computed by [ElfSymbols::LookupNearestByAddress]. *)
Definition distance (elf_addr : Z) (sym : Sym) : Z :=
  if elf_addr <? st_value sym then addr a (st_value sym - elf_addr)
  else addr a (elf_addr - st_value sym - st_size sym).

(** The loop of [ElfSymbols::LookupNearestByAddress]. *)
Fixpoint lookup_nearest (elf_addr : Z) (k : nat) (n : Z) (nearest_sym : option Sym)
    (nearest_diff : Z) : option (option Sym) :=
  match k with
  | O => Some nearest_sym
  | S k =>
      sym ← LookupById n;
      if st_shndx sym =? SHN_UNDEF
      then lookup_nearest elf_addr k (n + 1) nearest_sym nearest_diff
      else if contains elf_addr sym then Some (Some sym)
      else
        let diff := distance elf_addr sym in
        if diff <? nearest_diff then lookup_nearest elf_addr k (n + 1) (Some sym) diff
        else lookup_nearest elf_addr k (n + 1) nearest_sym nearest_diff
  end.

(** [ElfSymbols::LookupNearestByAddress]: name, address and size. *)
Definition LookupNearestByAddress (address load_bias : Z) : option (option (Z * Z * Z)) :=
  r ← lookup_nearest (addr a (address - load_bias)) (Z.to_nat (hash_chain_size_ e)) 0
        None (addr a (-1));
  Some (match r with
        | None => None
        | Some sym => Some (addr a (string_table_ e + st_name sym),
                            addr a (st_value sym + load_bias), st_size sym)
        end).

End Operations.

(** ** The hash function *)

(** The function of the System V ABI, as the ELF specification prints it. *)
Definition sysv_step (h : Z) (c : ascii) : Z :=
  let h := wrap 32 (Z.shiftl h 4 + zc c) in
  let g := Z.land h 0xf0000000 in
  let h := if g =? 0 then h else Z.lxor h (Z.shiftr g 24) in
  Z.land h (Z.lnot g).

Definition sysv_hash (name : cstr) : Z := fold_left sysv_step name 0.

Lemma testbit_high_nibble n :
  0 <= n -> Z.testbit 0xf0000000 n = (28 <=? n) && (n <? 32).
Proof.
  intros Hn. change 0xf0000000 with (Z.shiftl (Z.ones 4) 28).
  rewrite Z.shiftl_spec by done.
  destruct (28 <=? n) eqn:E1; bool_to_prop; cbn.
  - rewrite Z.testbit_ones_nonneg by lia. apply eq_bool_prop_intro. rewrite !Is_true_true.
    rewrite !Z.ltb_lt. lia.
  - apply Z.testbit_neg_r. lia.
Qed.

Lemma hash_step_sysv h c : hash_step h c = sysv_step h c.
Proof.
  unfold hash_step, sysv_step. set (x := wrap 32 _). set (g := Z.land x _).
  replace (if g =? 0 then x else Z.lxor x (Z.shiftr g 24)) with (Z.lxor x (Z.shiftr g 24)).
  2: { case_bool; [|done]. rewrite E. cbn. by rewrite Z.lxor_0_r. }
  apply Z.bits_inj'. intros n Hn. unfold g.
  rewrite !Z.land_spec, Z.lnot_spec, !Z.lxor_spec, Z.shiftr_spec, !Z.land_spec by done.
  rewrite !testbit_high_nibble by lia.
  assert (28 <= n -> (28 <=? n + 24) && (n + 24 <? 32) = false) as Hhi.
  { intros. rewrite (proj2 (Z.ltb_ge (n + 24) 32)) by lia. apply andb_false_r. }
  destruct (28 <=? n) eqn:E; bool_to_prop.
  - rewrite Hhi by done. destruct (Z.testbit x n), (n <? 32), (Z.testbit x (n + 24)); done.
  - destruct (Z.testbit x n), (Z.testbit x (n + 24)); cbn;
      destruct (28 <=? n + 24), (n + 24 <? 32); done.
Qed.

Lemma hash_step_bound h c : 0 <= hash_step h c < 2 ^ 28.
Proof.
  rewrite hash_step_sysv. unfold sysv_step. set (x := wrap 32 _). set (g := Z.land x _).
  pose proof (wrap_fits 32 (Z.shiftl h 4 + zc c) ltac:(done)) as Hx. fold x in Hx.
  assert (0 <= g) as Hg by (unfold g; apply Z.land_nonneg; unfold fits in Hx; lia).
  set (y := if g =? 0 then x else _).
  assert (0 <= y) as Hy.
  { unfold y. unfold fits in Hx. case_bool; [lia|]. apply Z.lxor_nonneg.
    split; intros; [apply Z.shiftr_nonneg|]; lia. }
  assert (forall n, 28 <= n -> Z.testbit (Z.land y (Z.lnot g)) n = false) as Hbits.
  { intros n Hn. rewrite Z.land_spec, Z.lnot_spec by lia.
    unfold y, g. rewrite !Z.land_spec, testbit_high_nibble by lia.
    destruct (decide (n < 32)) as [Hlt|Hge].
    - rewrite (proj2 (Z.leb_le _ _)), (proj2 (Z.ltb_lt _ _)) by lia. rewrite andb_true_r.
      case_match; [by rewrite andb_negb_r|].
      rewrite Z.lxor_spec, Z.shiftr_spec, Z.land_spec, testbit_high_nibble by lia.
      rewrite (proj2 (Z.ltb_ge (n + 24) 32)), !andb_false_r, xorb_false_r by lia.
      by rewrite andb_negb_r.
    - assert (Z.testbit x n = false) as Hxn.
      { apply Z.bits_above_log2; [apply Hx|]. destruct (decide (x = 0)) as [->|]; [cbn; lia|].
        apply Z.log2_lt_pow2; [unfold fits in Hx; lia|].
        eapply Z.lt_le_trans; [apply Hx|]. apply Z.pow_le_mono_r; lia. }
      case_match; [by rewrite Hxn|].
      rewrite Z.lxor_spec, Hxn, Z.shiftr_spec, Z.land_spec, testbit_high_nibble by lia.
      by rewrite (proj2 (Z.ltb_ge (n + 24) 32)), !andb_false_r by lia. }
  split; [by apply Z.land_nonneg; left|].
  destruct (decide (Z.land y (Z.lnot g) = 0)) as [->|Hnz]; [done|].
  assert (0 < Z.land y (Z.lnot g)) by (pose proof (proj2 (Z.land_nonneg y (Z.lnot g)) (or_introl Hy)); lia).
  apply Z.log2_lt_pow2; [done|]. apply Z.nle_gt. intros Hle.
  specialize (Hbits _ Hle). by rewrite Z.bit_log2 in Hbits.
Qed.

(** ** Lookup by name *)

Section Lookup.
Context (a : arch) (s : aspace) (e : ElfSymbols) (syms : Z -> Sym) (names : Z -> cstr).

(** The symbol table holds [syms] and the string table their [names]. *)
Definition symbols_ok : Prop :=
  hash_chain_size_ e <= 2 ^ 32 /\
  forall n, 0 <= n < hash_chain_size_ e ->
    LookupById a s e n = Some (syms n) /\
    string_at s (addr a (string_table_ e + st_name (syms n))) (names n).

(** The indices [l] that the hash chain from [n] goes through. *)
Fixpoint walk (n : Z) (l : list Z) : Prop :=
  match l with
  | [] => n = 0
  | m :: l => n = m /\ m <> 0 /\ exists n', chain a s e m = Some n' /\ walk n' l
  end.

(** The hash table of the library is well formed: the chain of a bucket goes
    once through the symbols whose hash falls in it. *)
Record hash_table_ok : Prop := {
  ht_symbols : symbols_ok;
  ht_buckets : 0 < hash_bucket_size_ e;
  ht_chain b : 0 <= b < hash_bucket_size_ e -> exists n l,
    bucket a s e b = Some n /\ walk n l /\ NoDup l /\
    forall m, m ∈ l <-> 0 < m < hash_chain_size_ e /\
                        ElfHash (names m) mod hash_bucket_size_ e = b;
}.

(** A definition visible to other libraries. *)
Definition exported (sym : Sym) : bool :=
  negb (st_shndx sym =? SHN_UNDEF) &&
  ((ELF_ST_BIND (st_info sym) =? STB_GLOBAL) || (ELF_ST_BIND (st_info sym) =? STB_WEAK)).

Lemma strcmp_eq_string p name' name :
  string_at s p name' -> no_nul name -> strcmp_eq s p name = Some (bool_decide (name' = name)).
Proof.
  intros Hs Hn. revert p name' Hs. induction Hn as [|c name Hc Hn IH]; intros p name' Hs.
  - cbn. destruct name' as [|c' name'].
    + destruct Hs as [_ H0]. rewrite Z.add_0_r in H0. by rewrite H0.
    + apply string_at_cons in Hs as (-> & Hnz & _). cbn. by rewrite (proj2 (Z.eqb_neq _ _) Hnz).
  - cbn. destruct name' as [|c' name'].
    + destruct Hs as [_ H0]. rewrite Z.add_0_r in H0. rewrite H0. cbn [mbind option_bind].
      by rewrite (proj2 (Z.eqb_neq 0 _)) by congruence.
    + apply string_at_cons in Hs as (-> & Hnz & Hs). cbn. destruct (decide (c' = c)) as [->|Hne].
      * rewrite Z.eqb_refl, (IH _ _ Hs). f_equal. apply bool_decide_ext. naive_solver.
      * rewrite (proj2 (Z.eqb_neq _ _)) by (intros ?%zc_inj; done).
        by rewrite bool_decide_eq_false_2 by congruence.
Qed.

Lemma matches_spec name n :
  symbols_ok -> no_nul name -> 0 <= n < hash_chain_size_ e ->
  matches a s e name (syms n) = Some (bool_decide (names n = name) && exported (syms n)).
Proof.
  intros [_ Hs] Hn Hr. destruct (Hs n Hr) as [_ Hstr]. unfold matches.
  rewrite (strcmp_eq_string _ _ _ Hstr Hn). cbn. unfold exported. by rewrite andb_assoc.
Qed.

(** Following a chain finds the first matching symbol. *)
Lemma lookup_walk name n l :
  symbols_ok -> no_nul name -> walk n l -> (forall m, m ∈ l -> 0 <= m < hash_chain_size_ e) ->
  rounds (S (length l)) (lookup_round a s e name) n =
    inl (Some (syms <$> List.find (fun m => bool_decide (names m = name) && exported (syms m)) l)).
Proof.
  intros Hok Hn. revert n. induction l as [|m l IH]; intros n Hw Hin.
  - cbn in Hw. by subst n.
  - destruct Hw as (-> & Hm & n' & Hc & Hw). cbn [length]. rewrite rounds_S.
    assert (0 <= m < hash_chain_size_ e) as Hr by (apply Hin; list_in).
    unfold lookup_round at 1. rewrite (proj2 (Z.eqb_neq _ _) Hm).
    destruct (proj2 Hok m Hr) as [-> _]. rewrite matches_spec by done. cbn [List.find].
    destruct (_ && _); [done|]. rewrite Hc. apply IH; [done|]. intros k Hk. apply Hin. list_in.
Qed.

Lemma NoDup_bound (l : list Z) n :
  NoDup l -> (forall m, m ∈ l -> 0 < m < n) -> Z.of_nat (length l) <= Z.max 0 n.
Proof.
  intros Hd Hin. assert (l ⊆+ seqZ 0 n) as Hsub.
  { apply NoDup_submseteq; [done|]. intros m Hm. apply elem_of_seqZ. specialize (Hin m Hm). lia. }
  apply submseteq_length in Hsub. rewrite length_seqZ in Hsub. lia.
Qed.

Lemma lookup_by_name_core name :
  hash_table_ok -> no_nul name ->
  exists r, LookupByName a s e name = Some r /\
    match r with
    | Some sym => exists n, 0 < n < hash_chain_size_ e /\ sym = syms n /\
                            names n = name /\ exported sym = true
    | None => forall n, 0 < n < hash_chain_size_ e -> names n = name -> exported (syms n) = false
    end.
Proof.
  intros [Hok Hb Hch] Hn. set (b := ElfHash name mod hash_bucket_size_ e).
  destruct (Hch b) as (n & l & Hn0 & Hw & Hd & Hl); [apply Z.mod_pos_bound; lia|].
  assert (forall m, m ∈ l -> 0 < m < hash_chain_size_ e) as Hin
    by (intros m Hm; apply (proj1 (Hl m) Hm)).
  pose proof (lookup_walk name n l Hok Hn Hw (fun m Hm => ltac:(specialize (Hin m Hm); lia))) as Hr.
  pose proof (NoDup_bound l _ Hd Hin) as Hlen.
  apply (loop_ends 64) in Hr.
  2: { destruct Hok as [? _]. change (2 ^ Z.of_nat 64) with (2 ^ 64). lia. }
  exists (syms <$> List.find (fun m => bool_decide (names m = name) && exported (syms m)) l).
  unfold LookupByName. rewrite (proj2 (Z.eqb_neq _ _)) by lia. fold b. rewrite Hn0. cbn [mbind option_bind].
  rewrite Hr. split; [done|]. destruct (List.find _ l) as [m|] eqn:Ef; cbn.
  - apply find_some in Ef as [Hm Ht]. bool_to_prop. apply bool_decide_eq_true in H.
    exists m. split; [by apply Hin, list_elem_of_In|done].
  - intros m Hm Hname. pose proof (find_none _ _ Ef m) as Hno. cbn in Hno.
    rewrite bool_decide_eq_true_2 in Hno by done. apply Hno.
    apply list_elem_of_In, Hl. subst name. done.
Qed.

End Lookup.

(** ** Lookup by address *)

Section ByAddress.
Context (a : arch) (s : aspace) (e : ElfSymbols) (syms : Z -> Sym).

Definition defined (sym : Sym) : Prop := st_shndx sym <> SHN_UNDEF.

(** A symbol whose bytes are below the end of the address space. *)
Definition sym_in_range (sym : Sym) : Prop :=
  0 <= st_value sym /\ 0 <= st_size sym /\ st_value sym + st_size sym < 2 ^ kElfBits a - 1.

(** The bytes of a symbol, and how far an address is from them. *)
Definition covers (sym : Sym) (x : Z) : Prop := st_value sym <= x < st_value sym + st_size sym.

Definition gap (sym : Sym) (x : Z) : Z :=
  Z.max 0 (Z.max (st_value sym - x) (x - (st_value sym + st_size sym))).

Lemma contains_covers x sym : sym_in_range sym -> contains a x sym = true <-> covers sym x.
Proof.
  intros (? & ? & ?). unfold contains, covers. rewrite addr_small by lia.
  rewrite andb_true_iff, Z.leb_le, Z.ltb_lt. done.
Qed.

Lemma distance_gap x sym :
  sym_in_range sym -> 0 <= x < 2 ^ kElfBits a -> ~ covers sym x -> distance a x sym = gap sym x.
Proof.
  intros (? & ? & ?) Hx Hc. unfold distance, gap, covers in *.
  destruct (x <? st_value sym) eqn:E; bool_to_prop; rewrite addr_small by lia; lia.
Qed.

(** The symbols [n], ..., [n + k - 1] can be read. *)
Definition readable_syms (n : Z) (k : nat) : Prop :=
  forall m, n <= m < n + Z.of_nat k ->
    LookupById a s e m = Some (syms m) /\ sym_in_range (syms m).

Lemma lookup_by_address_spec x k n :
  readable_syms n k ->
  exists r, lookup_by_address a s e x k n = Some r /\
    match r with
    | Some sym => exists m, n <= m < n + Z.of_nat k /\ sym = syms m /\ defined sym /\ covers sym x
    | None => forall m, n <= m < n + Z.of_nat k -> defined (syms m) -> ~ covers (syms m) x
    end.
Proof.
  revert n. induction k as [|k IH]; intros n Hs.
  { exists None. split; [done|]. intros; lia. }
  destruct (Hs n) as [Hn Hr]; [lia|]. cbn [lookup_by_address]. rewrite Hn. cbn [mbind option_bind].
  pose proof (contains_covers x _ Hr) as Hc.
  destruct (negb _ && _) eqn:E.
  - bool_to_prop. exists (Some (syms n)). split; [done|]. exists n. rewrite <-Hc. split; [lia|done].
  - destruct (IH (n + 1)) as (r & -> & Hspec); [intros m Hm; apply Hs; lia|].
    exists r. split; [done|]. destruct r as [sym|].
    + destruct Hspec as (m & Hm & ?). exists m. split; [lia|done].
    + intros m Hm Hd. destruct (decide (m = n)) as [->|]; [|apply Hspec; [lia|done]].
      rewrite <-Hc. unfold defined in Hd. apply Z.eqb_neq in Hd. rewrite Hd in E. cbn in E. congruence.
Qed.

(** The loop of the nearest lookup, from a best candidate so far. *)
Lemma lookup_nearest_spec x k n best diff :
  readable_syms n k -> 0 <= x < 2 ^ kElfBits a ->
  let among m := n <= m < n + Z.of_nat k /\ defined (syms m) in
  exists r, lookup_nearest a s e x k n best diff = Some r /\
    ((exists m, among m /\ r = Some (syms m) /\ covers (syms m) x) \/
     (forall m, among m -> ~ covers (syms m) x) /\
     (r = best /\ (forall m, among m -> diff <= gap (syms m) x) \/
      exists m, among m /\ r = Some (syms m) /\ gap (syms m) x < diff /\
        forall m', among m' -> gap (syms m) x <= gap (syms m') x)).
Proof.
  intros Hs Hx. revert n best diff Hs. induction k as [|k IH]; intros n best diff Hs among.
  { exists best. split; [done|]. right. split; [intros m [? _]; lia|]. left. split; [done|].
    intros m [? _]; lia. }
  destruct (Hs n) as [Hn Hr]; [lia|]. cbn [lookup_nearest]. rewrite Hn. cbn [mbind option_bind].
  assert (readable_syms (n + 1) k) as Hs' by (intros m Hm; apply Hs; lia).
  pose proof (contains_covers x _ Hr) as Hc.
  assert (forall m, among m <-> (m = n /\ defined (syms n)) \/
    (n + 1 <= m < n + 1 + Z.of_nat k /\ defined (syms m))) as Hsplit.
  { intros m. unfold among. split.
    - intros [? ?]. destruct (decide (m = n)) as [->|]; [by left|right; split; [lia|done]].
    - intros [[-> ?]|[? ?]]; (split; [lia|done]). }
  destruct (st_shndx (syms n) =? SHN_UNDEF) eqn:Eu; [|destruct (contains _ _ _) eqn:Ec];
    bool_to_prop.
  - destruct (IH (n + 1) best diff Hs') as (r & -> & Hspec). exists r. split; [done|].
    assert (forall m, among m <-> n + 1 <= m < n + 1 + Z.of_nat k /\ defined (syms m)) as Heq.
    { intros m. rewrite Hsplit. unfold defined in *. naive_solver. }
    clear - Heq Hspec. setoid_rewrite Heq. exact Hspec.
  - exists (Some (syms n)). split; [done|]. left. exists n. rewrite <-Hc. split; [|done].
    apply Hsplit. by left.
  - assert (~ covers (syms n) x) as Hnc by (rewrite <-Hc; congruence).
    rewrite distance_gap by done.
    assert (among n) as Hamn by (apply Hsplit; by left).
    destruct (gap (syms n) x <? diff) eqn:Ed; bool_to_prop;
      [destruct (IH (n + 1) (Some (syms n)) (gap (syms n) x) Hs') as (r & -> & Hspec)
      |destruct (IH (n + 1) best diff Hs') as (r & -> & Hspec)];
      exists r; (split; [done|]);
      (destruct Hspec as [(m & Hm & ? & ?)|[Hno Hbest]];
       [left; exists m; split_and!; [apply Hsplit; by right|done|done]|right]);
      (split; [intros m [[-> _]|Hm]%Hsplit; auto|]).
    + destruct Hbest as [[-> Hle]|(m & Hm & -> & Hlt & Hle)]; right.
      * exists n. split_and!; try done. intros m' [[-> _]|Hm']%Hsplit; [lia|auto].
      * exists m. split_and!; [apply Hsplit; by right|done|lia|].
        intros m' [[-> _]|Hm']%Hsplit; [lia|auto].
    + destruct Hbest as [[-> Hle]|(m & Hm & -> & Hlt & Hle)]; [left|right].
      * split; [done|]. intros m' [[-> _]|Hm']%Hsplit; [lia|auto].
      * exists m. split_and!; [apply Hsplit; by right|done|lia|].
        intros m' [[-> _]|Hm']%Hsplit; [lia|auto].
Qed.

End ByAddress.

(** ** The symbols of the sample library *)

Definition sample_symbols (base : Z) : ElfSymbols :=
  mk_ElfSymbols (base + 0xc0) (base + 0xf0) (base + 0x108) 1 (base + 0x10c) 3.

Definition sample_sym (n : Z) : Sym := nth (Z.to_nat n) sample_syms (mk_Sym 0 0 0 0 0).

Definition sample_name (n : Z) : cstr :=
  if n =? 1 then str "foo" else if n =? 2 then str "bar" else [].

Lemma sample_table_ok :
  hash_table_ok arm (sample_space 0x40000000) (sample_symbols 0x40000000) sample_sym sample_name.
Proof.
  split.
  - split; [done|]. intros n Hn. change (hash_chain_size_ _) with 3 in Hn.
    assert (n = 0 \/ n = 1 \/ n = 2) as [->|[->| ->]] by lia;
      (split; [vm_compute; reflexivity|split; [|vm_compute; reflexivity]]);
      intros [|[|[|i]]] c Hc; try discriminate; injection Hc as <-; split; vm_compute; congruence.
  - done.
  - intros b Hb. change (hash_bucket_size_ _) with 1 in *. assert (b = 0) as -> by lia.
    exists 2, [2; 1]. split_and!.
    + vm_compute. reflexivity.
    + split_and!; [done..|]. exists 1. split; [vm_compute; reflexivity|]. split_and!; [done..|].
      exists 0. split; [vm_compute; reflexivity|done].
    + repeat constructor; rewrite ?elem_of_cons, ?elem_of_nil; lia.
    + intros m. change (hash_chain_size_ _) with 3. rewrite Z.mod_1_r.
      rewrite !elem_of_cons, elem_of_nil. lia.
Qed.

(** ** Properties *)

(** The hash function is the one of the System V ABI (the table that the
    static linker wrote is searched with the same function), and its values
    have 28 bits. *)
Theorem ElfHash_sysv name : ElfHash name = sysv_hash name /\ 0 <= ElfHash name < 2 ^ 28.
Proof.
  split.
  - unfold ElfHash, sysv_hash. generalize 0. induction name as [|c name IH]; intros h; [done|].
    cbn [fold_left]. rewrite hash_step_sysv. apply IH.
  - assert (forall h, 0 <= h < 2 ^ 28 -> 0 <= fold_left hash_step name h < 2 ^ 28) as H.
    { induction name as [|c name IH]; intros h Hh; [done|]. cbn [fold_left].
      apply IH, hash_step_bound. }
    by apply H.
Qed.

(** C8: Lookup by name.  On a well-formed hash table [LookupByName] ends, and
    it finds a symbol of that name that is defined and global or weak if and
    only if the library has one. *)
Theorem LookupByName_correct a s e syms names name :
  hash_table_ok a s e syms names -> no_nul name ->
  exists r, LookupByName a s e name = Some r /\
    match r with
    | Some sym => exists n, 0 < n < hash_chain_size_ e /\ sym = syms n /\
                            names n = name /\ exported sym = true
    | None => forall n, 0 < n < hash_chain_size_ e -> names n = name -> exported (syms n) = false
    end.
Proof. apply lookup_by_name_core. Qed.

Lemma LookupByName_correct_witness :
  exists r, LookupByName arm (sample_space 0x40000000) (sample_symbols 0x40000000) (str "foo") = Some r
    /\ r <> None.
Proof.
  destruct (LookupByName_correct arm (sample_space 0x40000000) (sample_symbols 0x40000000)
    sample_sym sample_name (str "foo") sample_table_ok) as (r & Hr & Hspec).
  - repeat constructor; vm_compute; congruence.
  - exists r. split; [exact Hr|]. intros ->. specialize (Hspec 1).
    assert (exported (sample_sym 1) = false) as H; [|vm_compute in H; discriminate].
    apply Hspec; [change (hash_chain_size_ _) with 3; lia|reflexivity].
Defined.

(** Lookup by address.  When the symbol table can be read and the address
    is not the last one of the address space, the nearest lookup ends; it fails only if no symbol is defined, and otherwise returns a
    defined symbol that contains the address if there is one, and in any case
    one whose bytes are at the smallest distance from the address. *)
Theorem LookupNearestByAddress_minimal a s e syms address load_bias :
  readable_syms a s e syms 0 (Z.to_nat (hash_chain_size_ e)) -> 0 <= hash_chain_size_ e ->
  addr a (address - load_bias) <> 2 ^ kElfBits a - 1 ->
  let x := addr a (address - load_bias) in
  let among m := 0 <= m < hash_chain_size_ e /\ defined (syms m) in
  exists r, LookupNearestByAddress a s e address load_bias = Some r /\
    match r with
    | None => forall m, ~ among m
    | Some (sym_name, sym_addr, sym_size) => exists m, among m /\
        sym_name = addr a (string_table_ e + st_name (syms m)) /\
        sym_addr = addr a (st_value (syms m) + load_bias) /\ sym_size = st_size (syms m) /\
        (forall m', among m' -> gap (syms m) x <= gap (syms m') x) /\
        ((exists m', among m' /\ covers (syms m') x) -> covers (syms m) x)
    end.
Proof.
  intros Hr Hsz Hlast x among. fold x in Hlast.
  assert (0 <= x < 2 ^ kElfBits a) as Hx by apply addr_fits.
  destruct (lookup_nearest_spec a s e syms x _ 0 None (addr a (-1)) Hr Hx) as (r & He & Hspec).
  rewrite Z2Nat.id in Hspec by done. fold among in Hspec.
  unfold LookupNearestByAddress. fold x. rewrite He. cbn [mbind option_bind].
  assert (forall m, among m -> gap (syms m) x < addr a (-1)) as Hmax.
  { intros m [Hm _]. destruct (Hr m) as [_ (? & ? & ?)]; [lia|]. unfold gap.
    replace (addr a (-1)) with (2 ^ kElfBits a - 1) by (by destruct a). lia. }
  eexists. split; [done|].
  destruct Hspec as [(m & Hm & -> & Hc)|[Hno [[-> Hle]|(m & Hm & -> & _ & Hle)]]].
  - exists m. split_and!; try done. intros m' Hm'. unfold gap, covers in *. lia.
  - intros m Hm. specialize (Hle m Hm). specialize (Hmax m Hm). lia.
  - exists m. split_and!; try done. intros (m' & Hm' & Hc). by destruct (Hno m').
Qed.

Lemma LookupNearestByAddress_minimal_witness :
  exists r, LookupNearestByAddress arm (sample_space 0x40000000) (sample_symbols 0x40000000)
              0x40000139 0x40000000 = Some r /\ r <> None.
Proof.
  destruct (LookupNearestByAddress_minimal arm (sample_space 0x40000000) (sample_symbols 0x40000000)
    sample_sym 0x40000139 0x40000000) as (r & Hr & Hspec).
  - intros m Hm. change (0 <= m < 3) in Hm.
    assert (m = 0 \/ m = 1 \/ m = 2) as [->|[->| ->]] by lia;
      (split; [vm_compute; reflexivity|]); unfold sym_in_range; split_and!; vm_compute; congruence.
  - vm_compute. congruence.
  - vm_compute. congruence.
  - exists r. split; [exact Hr|]. intros ->. apply (Hspec 1).
    split; [change (0 <= 1 < 3); lia|vm_compute; congruence].
Defined.
