(* ===== verification/Relocations.v ===== *)
(** * Relocations

    Models [crazy_linker_elf_relocations.cpp] and its header: parsing of the
    relocation entries of the dynamic table, application of the relocations of
    a mapped library with a symbol resolver, and [CopyAndRelocate], which copies
    a section and adjusts its relative relocations to another load address. *)

From S2P Require Import Prelude Kernel ElfTraits Sample LinkerPhdr ElfView ElfSymbols.
Open Scope Z_scope.
Open Scope ndk_scope.

Definition DT_PLTRELSZ : Z := 2.
Definition DT_PLTGOT : Z := 3.
Definition DT_RELA : Z := 7.
Definition DT_RELASZ : Z := 8.
Definition DT_SYMBOLIC : Z := 16.
Definition DT_REL : Z := 17.
Definition DT_RELSZ : Z := 18.
Definition DT_PLTREL : Z := 20.
Definition DT_TEXTREL : Z := 22.
Definition DT_JMPREL : Z := 23.
Definition DT_FLAGS : Z := 30.
Definition DT_MIPS_LOCAL_GOTNO : Z := 0x7000000a.
Definition DT_MIPS_SYMTABNO : Z := 0x70000011.
Definition DT_MIPS_GOTSYM : Z := 0x70000013.

Definition DF_SYMBOLIC : Z := 2.
Definition DF_TEXTREL : Z := 4.

Definition R_ARM_ABS32 : Z := 2.
Definition R_ARM_REL32 : Z := 3.
Definition R_ARM_GLOB_DAT : Z := 21.
Definition R_ARM_JUMP_SLOT : Z := 22.
Definition R_ARM_COPY : Z := 20.
Definition R_ARM_RELATIVE : Z := 23.

Definition R_AARCH64_ABS64 : Z := 257.
Definition R_AARCH64_COPY : Z := 1024.
Definition R_AARCH64_GLOB_DAT : Z := 1025.
Definition R_AARCH64_JUMP_SLOT : Z := 1026.
Definition R_AARCH64_RELATIVE : Z := 1027.

Definition R_386_32 : Z := 1.
Definition R_386_PC32 : Z := 2.
Definition R_386_GLOB_DAT : Z := 6.
Definition R_386_JMP_SLOT : Z := 7.
Definition R_386_RELATIVE : Z := 8.

Definition R_MIPS_REL32 : Z := 3.

Inductive RelocationType :=
| RELOCATION_TYPE_UNKNOWN
| RELOCATION_TYPE_ABSOLUTE
| RELOCATION_TYPE_RELATIVE
| RELOCATION_TYPE_PC_RELATIVE
| RELOCATION_TYPE_COPY.

Definition one_of (x : Z) (l : list Z) : bool := existsb (Z.eqb x) l.

Definition GetRelocationType (a : arch) (r_type : Z) : RelocationType :=
  match a with
  | arm =>
      if one_of r_type [R_ARM_JUMP_SLOT; R_ARM_GLOB_DAT; R_ARM_ABS32] then RELOCATION_TYPE_ABSOLUTE
      else if one_of r_type [R_ARM_REL32; R_ARM_RELATIVE] then RELOCATION_TYPE_RELATIVE
      else if r_type =? R_ARM_COPY then RELOCATION_TYPE_COPY
      else RELOCATION_TYPE_UNKNOWN
  | aarch64 =>
      if one_of r_type [R_AARCH64_JUMP_SLOT; R_AARCH64_GLOB_DAT; R_AARCH64_ABS64]
      then RELOCATION_TYPE_ABSOLUTE
      else if r_type =? R_AARCH64_RELATIVE then RELOCATION_TYPE_RELATIVE
      else if r_type =? R_AARCH64_COPY then RELOCATION_TYPE_COPY
      else RELOCATION_TYPE_UNKNOWN
  | i386 =>
      if one_of r_type [R_386_JMP_SLOT; R_386_GLOB_DAT; R_386_32] then RELOCATION_TYPE_ABSOLUTE
      else if r_type =? R_386_RELATIVE then RELOCATION_TYPE_RELATIVE
      else if r_type =? R_386_PC32 then RELOCATION_TYPE_PC_RELATIVE
      else RELOCATION_TYPE_UNKNOWN
  | mips =>
      if r_type =? R_MIPS_REL32 then RELOCATION_TYPE_RELATIVE else RELOCATION_TYPE_UNKNOWN
  end.

Record ElfRelocations := mk_ElfRelocations {
  r_phdr_ : Z;
  r_phdr_count_ : Z;
  r_load_bias_ : Z;
  relocations_type_ : Z;
  plt_relocations_ : Z;
  plt_relocations_size_ : Z;
  plt_got_ : Z;
  relocations_ : Z;
  relocations_size_ : Z;
  mips_symtab_count_ : Z;
  mips_local_got_count_ : Z;
  mips_gotsym_ : Z;
  has_text_relocations_ : bool;
  has_symbolic_ : bool;
}.

Definition new_ElfRelocations : ElfRelocations :=
  mk_ElfRelocations 0 0 0 0 0 0 0 0 0 0 0 0 false false.

(** The state of the loop of [ElfRelocations::Init]: the object and the two
    local flags. *)
Record init_state := mk_init_state {
  obj : ElfRelocations;
  has_rela_relocations : bool;
  has_rel_relocations : bool;
}.

Definition set_view (phdr count bias : Z) (r : ElfRelocations) : ElfRelocations :=
  mk_ElfRelocations phdr count bias (relocations_type_ r) (plt_relocations_ r)
    (plt_relocations_size_ r) (plt_got_ r) (relocations_ r) (relocations_size_ r)
    (mips_symtab_count_ r) (mips_local_got_count_ r) (mips_gotsym_ r)
    (has_text_relocations_ r) (has_symbolic_ r).

Definition set_type (t : Z) (r : ElfRelocations) : ElfRelocations :=
  mk_ElfRelocations (r_phdr_ r) (r_phdr_count_ r) (r_load_bias_ r) t (plt_relocations_ r)
    (plt_relocations_size_ r) (plt_got_ r) (relocations_ r) (relocations_size_ r)
    (mips_symtab_count_ r) (mips_local_got_count_ r) (mips_gotsym_ r)
    (has_text_relocations_ r) (has_symbolic_ r).

Definition set_plt (p size got : Z) (r : ElfRelocations) : ElfRelocations :=
  mk_ElfRelocations (r_phdr_ r) (r_phdr_count_ r) (r_load_bias_ r) (relocations_type_ r)
    p size got (relocations_ r) (relocations_size_ r)
    (mips_symtab_count_ r) (mips_local_got_count_ r) (mips_gotsym_ r)
    (has_text_relocations_ r) (has_symbolic_ r).

Definition set_relocations (p size : Z) (r : ElfRelocations) : ElfRelocations :=
  mk_ElfRelocations (r_phdr_ r) (r_phdr_count_ r) (r_load_bias_ r) (relocations_type_ r)
    (plt_relocations_ r) (plt_relocations_size_ r) (plt_got_ r) p size
    (mips_symtab_count_ r) (mips_local_got_count_ r) (mips_gotsym_ r)
    (has_text_relocations_ r) (has_symbolic_ r).

Definition set_mips (symtab got gotsym : Z) (r : ElfRelocations) : ElfRelocations :=
  mk_ElfRelocations (r_phdr_ r) (r_phdr_count_ r) (r_load_bias_ r) (relocations_type_ r)
    (plt_relocations_ r) (plt_relocations_size_ r) (plt_got_ r) (relocations_ r)
    (relocations_size_ r) symtab got gotsym (has_text_relocations_ r) (has_symbolic_ r).

Definition set_flags (text symbolic : bool) (r : ElfRelocations) : ElfRelocations :=
  mk_ElfRelocations (r_phdr_ r) (r_phdr_count_ r) (r_load_bias_ r) (relocations_type_ r)
    (plt_relocations_ r) (plt_relocations_size_ r) (plt_got_ r) (relocations_ r)
    (relocations_size_ r) (mips_symtab_count_ r) (mips_local_got_count_ r) (mips_gotsym_ r)
    text symbolic.

(** Updates the object, keeping the local flags. *)
Definition upd (f : ElfRelocations -> ElfRelocations) : M init_state unit :=
  fun st => Ret tt (mk_init_state (f (obj st)) (has_rela_relocations st) (has_rel_relocations st)).

(** Sets one of the two flags: that of [DT_RELA] or that of [DT_REL]. *)
Definition note_kind (rela : bool) : M init_state unit :=
  fun st => Ret tt (mk_init_state (obj st) (rela || has_rela_relocations st)
                      (negb rela || has_rel_relocations st)).

(** The [switch] of [ElfRelocations::Init] on one dynamic entry. *)
Definition init_dyn (a : arch) (load_bias : Z) (d : Dyn) : M init_state unit :=
  let dyn_value := d_val d in
  let dyn_addr := GetAddress a d load_bias in
  let tag := d_tag d in
  let* st := lget in
  let r := obj st in
  if tag =? DT_PLTREL then
    if negb (dyn_value =? DT_REL) && negb (dyn_value =? DT_RELA)
    then lfail (Msg "Invalid DT_PLTREL value in dynamic section" [])
    else upd (set_type dyn_value)
  else if tag =? DT_JMPREL then upd (set_plt dyn_addr (plt_relocations_size_ r) (plt_got_ r))
  else if tag =? DT_PLTRELSZ then upd (set_plt (plt_relocations_ r) dyn_value (plt_got_ r))
  else if (tag =? DT_RELA) || (tag =? DT_REL) then
    if negb (relocations_ r =? 0)
    then lfail (Msg "Unsupported DT_RELA/DT_REL combination in dynamic section" [])
    else do* upd (set_relocations dyn_addr (relocations_size_ r)) in note_kind (tag =? DT_RELA)
  else if (tag =? DT_RELASZ) || (tag =? DT_RELSZ) then
    if negb (relocations_size_ r =? 0)
    then lfail (Msg "Unsupported DT_RELASZ/DT_RELSZ combination in dyn section" [])
    else do* upd (set_relocations (relocations_ r) dyn_value) in note_kind (tag =? DT_RELASZ)
  else if tag =? DT_PLTGOT then
    upd (set_plt (plt_relocations_ r) (plt_relocations_size_ r) dyn_addr)
  else if tag =? DT_TEXTREL then upd (set_flags true (has_symbolic_ r))
  else if tag =? DT_SYMBOLIC then upd (set_flags (has_text_relocations_ r) true)
  else if tag =? DT_FLAGS then
    upd (set_flags (negb (Z.land dyn_value DF_TEXTREL =? 0) || has_text_relocations_ r)
                   (negb (Z.land dyn_value DF_SYMBOLIC =? 0) || has_symbolic_ r))
  else match a with
  | mips =>
      if tag =? DT_MIPS_SYMTABNO
      then upd (set_mips dyn_value (mips_local_got_count_ r) (mips_gotsym_ r))
      else if tag =? DT_MIPS_LOCAL_GOTNO
      then upd (set_mips (mips_symtab_count_ r) dyn_value (mips_gotsym_ r))
      else if tag =? DT_MIPS_GOTSYM
      then upd (set_mips (mips_symtab_count_ r) (mips_local_got_count_ r) dyn_value)
      else lret tt
  | _ => lret tt
  end.

(** [ElfRelocations::Init] on a view, in the address space [s]. *)
Definition Init (a : arch) (s : aspace) (view : ElfView) : M init_state unit :=
  do* upd (set_view (phdr_ view) (phdr_count_ view) (load_bias_ view)) in
  do* for_dynamic a (fun _ => load_byte s) (Z.to_nat (dynamic_count_ view)) (dynamic_ view)
        (fun _ d => init_dyn a (load_bias_ view) d) in
  let* st := lget in
  let t := relocations_type_ (obj st) in
  if negb (t =? DT_REL) && negb (t =? DT_RELA)
  then lfail (Msg "Unsupported or missing DT_PLTREL in dynamic section" [])
  else if (t =? DT_REL) && has_rela_relocations st
  then lfail (Msg "Found DT_RELA in dyn section, but DT_PLTREL is DT_REL" [])
  else if (t =? DT_RELA) && has_rel_relocations st
  then lfail (Msg "Found DT_REL in dyn section, but DT_PLTREL is DT_RELA" [])
  else lret tt.

(** A loop over the [n] entries of [sz] bytes of a relocation table at [p],
    read with [elt]. *)
Fixpoint for_table (elt : (Z -> option Z) -> Z -> option Rela) (sz : Z)
    (body : Rela -> M aspace unit) (n : nat) (p : Z) : M aspace unit :=
  match n with
  | O => lret tt
  | S n =>
      let* rel := lread (fun s => elt (load_byte s) p) in
      do* body rel in
      for_table elt sz body n (p + sz)
  end.

(** ** Applying relocations *)

(** Resolution of symbol names by the client: the abstract class
    [SymbolResolver].  The result is the address of the symbol, 0 for [NULL],
    or [None] if the lookup faults. *)
Class SymbolResolver := { Lookup : aspace -> cstr -> option Z }.

Section Apply.
Context (a : arch).

(** [*p] and [*p = v] for a pointer to [ELF::Addr]. *)
Definition load_addr (p : Z) : M aspace Z := lread (fun s => load_le (sizeof_Addr a) s p).

Definition store_addr (p v : Z) : M aspace unit := fun s =>
  match store_le (sizeof_Addr a) s p (addr a v) with
  | Some s' => Ret tt s'
  | None => Crash
  end.

(** [*p += v] *)
Definition add_addr (p v : Z) : M aspace unit :=
  let* x := load_addr p in store_addr p (x + v).

Context (r : ElfRelocations).

(** [ElfRelocations::ApplyRelaReloc]; the addend is an [ELF::Sword] of 32 bits. *)
Definition ApplyRelaReloc (rela : Rela) (sym_addr : Z) : M aspace unit :=
  let rela_type := ELF_R_TYPE a (r_info rela) in
  let rela_symbol := ELF_R_SYM a (r_info rela) in
  let addend := swrap 32 (r_addend rela) in
  let reloc := addr a (r_offset rela + r_load_bias_ r) in
  let target := reloc in
  let invalid := lfail (Msg "Invalid relocation type (%d)" [AZ rela_type]) in
  match a with
  | aarch64 =>
      if rela_type =? R_AARCH64_JUMP_SLOT then store_addr target (sym_addr + addend)
      else if rela_type =? R_AARCH64_GLOB_DAT then store_addr target (sym_addr + addend)
      else if rela_type =? R_AARCH64_ABS64 then add_addr target (sym_addr + addend)
      else if rela_type =? R_AARCH64_RELATIVE then
        if negb (rela_symbol =? 0) then lfail (Msg "Invalid relative relocation with symbol" [])
        else store_addr target (r_load_bias_ r + addend)
      else if rela_type =? R_AARCH64_COPY
      then lfail (Msg "Invalid R_AARCH64_COPY relocation in shared library" [])
      else invalid
  | _ => invalid
  end.

(** [ElfRelocations::ApplyRelReloc] *)
Definition ApplyRelReloc (rel : Rela) (sym_addr : Z) (resolved : bool) : M aspace unit :=
  let rel_type := ELF_R_TYPE a (r_info rel) in
  let rel_symbol := ELF_R_SYM a (r_info rel) in
  let reloc := addr a (r_offset rel + r_load_bias_ r) in
  let target := reloc in
  let invalid := lfail (Msg "Invalid relocation type (%d)" [AZ rel_type]) in
  match a with
  | arm =>
      if rel_type =? R_ARM_JUMP_SLOT then store_addr target sym_addr
      else if rel_type =? R_ARM_GLOB_DAT then store_addr target sym_addr
      else if rel_type =? R_ARM_ABS32 then add_addr target sym_addr
      else if rel_type =? R_ARM_REL32 then add_addr target (sym_addr - r_offset rel)
      else if rel_type =? R_ARM_RELATIVE then
        if negb (rel_symbol =? 0) then lfail (Msg "Invalid relative relocation with symbol" [])
        else add_addr target (r_load_bias_ r)
      else if rel_type =? R_ARM_COPY
      then lfail (Msg "Invalid R_ARM_COPY relocation in shared library" [])
      else invalid
  | i386 =>
      if rel_type =? R_386_JMP_SLOT then store_addr target sym_addr
      else if rel_type =? R_386_GLOB_DAT then store_addr target sym_addr
      else if rel_type =? R_386_RELATIVE then
        if negb (rel_symbol =? 0) then lfail (Msg "Invalid relative relocation with symbol" [])
        else add_addr target (r_load_bias_ r)
      else if rel_type =? R_386_32 then add_addr target sym_addr
      else if rel_type =? R_386_PC32 then add_addr target (sym_addr - reloc)
      else invalid
  | mips =>
      if rel_type =? R_MIPS_REL32
      then add_addr target (if resolved then sym_addr else r_load_bias_ r)
      else invalid
  | aarch64 => invalid
  end.

Context (symbols : ElfSymbols) `{SymbolResolver}.

(** The name of the symbol, looked up by the resolver. *)
Definition lookup_id (rel_symbol : Z) : M aspace Z :=
  lread (fun s =>
    match LookupNameById a s symbols rel_symbol with
    | None => None
    | Some sym_name =>
        match read_cstr s sym_name with
        | None => None
        | Some name => Lookup s name
        end
    end).

(** [ElfRelocations::ResolveSymbol]: the returned value and [*sym_addr], which
    is initially 0. *)
Definition ResolveSymbol (rel_type rel_symbol reloc : Z) : M aspace (bool * Z) :=
  let* address := lookup_id rel_symbol in
  if negb (address =? 0) then lret (true, address)
  else
    let* weak := lread (fun s => IsWeakById a s symbols rel_symbol) in
    if negb weak then lret (false, 0)
    else match GetRelocationType a rel_type with
         | RELOCATION_TYPE_ABSOLUTE | RELOCATION_TYPE_RELATIVE => lret (true, 0)
         | RELOCATION_TYPE_PC_RELATIVE => lret (true, reloc)
         | _ => lret (false, 0)
         end.

(** The body of the loops of [ApplyRelRelocs] and [ApplyRelaRelocs]. *)
Definition apply_entry (is_rela : bool) (rel : Rela) : M aspace unit :=
  let rel_type := ELF_R_TYPE a (r_info rel) in
  let rel_symbol := ELF_R_SYM a (r_info rel) in
  let reloc := addr a (r_offset rel + r_load_bias_ r) in
  if rel_type =? 0 then lret tt
  else
    let* res := (if negb (rel_symbol =? 0) then ResolveSymbol rel_type rel_symbol reloc
                 else lret (false, 0)) in
    let '(resolved, sym_addr) := res in
    if is_rela then ApplyRelaReloc rel sym_addr else ApplyRelReloc rel sym_addr resolved.

Definition ApplyRelRelocs (rel rel_count : Z) : M aspace unit :=
  if rel =? 0 then lret tt
  else for_table (read_Rel a) (sizeof_Rel a) (apply_entry false) (Z.to_nat rel_count) rel.

Definition ApplyRelaRelocs (rela rela_count : Z) : M aspace unit :=
  if rela =? 0 then lret tt
  else for_table (read_Rela a) (sizeof_Rela a) (apply_entry true) (Z.to_nat rela_count) rela.

(** [ElfRelocations::RelocateMipsGot]: the local entries [n], ... of the table *)
Fixpoint relocate_local_got (k : nat) (n : Z) : M aspace unit :=
  match k with
  | O => lret tt
  | S k =>
      do* add_addr (addr a (plt_got_ r + n * Z.of_nat (sizeof_Addr a))) (r_load_bias_ r) in
      relocate_local_got k (n + 1)
  end.

(** and the global ones, for [k] symbols from [idx] with entries from [got]. *)
Fixpoint relocate_global_got (k : nat) (idx got : Z) : M aspace unit :=
  match k with
  | O => lret tt
  | S k =>
      let* sym_addr := lookup_id idx in
      do* (if negb (sym_addr =? 0) then store_addr got sym_addr
           else
             let* weak := lread (fun s => IsWeakById a s symbols idx) in
             if weak then store_addr got 0
             else lfail (Msg "Cannot locate symbol %s" [])) in
      relocate_global_got k (idx + 1) (addr a (got + Z.of_nat (sizeof_Addr a)))
  end.

Definition RelocateMipsGot : M aspace unit :=
  if plt_got_ r =? 0 then lret tt
  else
    let got := plt_got_ r in
    let w := Z.of_nat (sizeof_Addr a) in
    do* store_addr got 0xdeadbeef in
    let* got1 := load_addr (addr a (got + w)) in
    do* (if negb (Z.land got1 0x80000000 =? 0) then store_addr (addr a (got + w)) 0xdeadbeef
         else lret tt) in
    do* relocate_local_got (Z.to_nat (mips_local_got_count_ r - 2)) 2 in
    relocate_global_got (Z.to_nat (mips_symtab_count_ r - mips_gotsym_ r)) (mips_gotsym_ r)
      (addr a (got + mips_local_got_count_ r * w)).

(** A call of a function of [linker_phdr.cpp] on the table of the library,
    which fails when it returns a negative value. *)
Definition on_segments (f : list Phdr -> Z -> aspace -> Z * aspace) (e : Error) : M aspace unit :=
  let* tbl := lread (fun s => read_array (read_Phdr a (load_byte s)) (sizeof_Phdr a)
                                (Z.to_nat (r_phdr_count_ r)) (r_phdr_ r)) in
  fun s =>
    let '(ret, s') := f tbl (r_load_bias_ r) s in
    if ret <? 0 then Fail e s' else Ret tt s'.

(** [ElfRelocations::ApplyAll] *)
Definition ApplyAll `{Kernel} : M aspace unit :=
  do* (if has_text_relocations_ r
       then on_segments (phdr_table_unprotect_segments a)
              (Msg "Can't unprotect loadable segments: %s" [])
       else lret tt) in
  do* (if relocations_type_ r =? DT_REL then
         do* ApplyRelRelocs (plt_relocations_ r) (plt_relocations_size_ r / sizeof_Rel a) in
         ApplyRelRelocs (relocations_ r) (relocations_size_ r / sizeof_Rel a)
       else if relocations_type_ r =? DT_RELA then
         do* ApplyRelaRelocs (plt_relocations_ r) (plt_relocations_size_ r / sizeof_Rela a) in
         ApplyRelaRelocs (relocations_ r) (relocations_size_ r / sizeof_Rela a)
       else lret tt) in
  do* (match a with mips => RelocateMipsGot | _ => lret tt end) in
  if has_text_relocations_ r
  then on_segments (phdr_table_protect_segments a)
         (Msg "Can't reprotect loadable segments: %s" [])
  else lret tt.

End Apply.

(** ** Copying a section *)

Section Copy.
Context (a : arch) (r : ElfRelocations).

Definition relative_type : Z :=
  match a with
  | arm => R_ARM_RELATIVE
  | aarch64 => R_AARCH64_RELATIVE
  | i386 => R_386_RELATIVE
  | mips => R_MIPS_REL32
  end.

(** [ElfRelocations::AdjustRelocation] *)
Definition AdjustRelocation (rel_type src_reloc dst_delta map_delta : Z) : M aspace unit :=
  let dst_ptr := addr a (src_reloc + dst_delta) in
  if rel_type =? relative_type then add_addr a dst_ptr map_delta else lret tt.

(** The body of the loops of [RelocateRel] and [RelocateRela]. *)
Definition adjust_entry (src_addr dst_addr map_addr size : Z) (rel : Rela) : M aspace unit :=
  let dst_delta := addr a (dst_addr - src_addr) in
  let map_delta := addr a (map_addr - src_addr) in
  let rel_type := ELF_R_TYPE a (r_info rel) in
  let rel_symbol := ELF_R_SYM a (r_info rel) in
  let src_reloc := addr a (r_offset rel + r_load_bias_ r) in
  if (rel_type =? 0) || negb (rel_symbol =? 0) then lret tt
  else if (src_reloc <? src_addr) || (addr a (src_addr + size) <=? src_reloc) then lret tt
  else AdjustRelocation rel_type src_reloc dst_delta map_delta.

Definition RelocateRel (src_addr dst_addr map_addr size : Z) : M aspace unit :=
  for_table (read_Rel a) (sizeof_Rel a) (adjust_entry src_addr dst_addr map_addr size)
    (Z.to_nat (relocations_size_ r / sizeof_Rel a)) (relocations_ r).

Definition RelocateRela (src_addr dst_addr map_addr size : Z) : M aspace unit :=
  for_table (read_Rela a) (sizeof_Rela a) (adjust_entry src_addr dst_addr map_addr size)
    (Z.to_nat (relocations_size_ r / sizeof_Rela a)) (relocations_ r).

(** The loop on the local GOT entries at the end of [CopyAndRelocate]. *)
Fixpoint adjust_got (src_addr dst_addr map_addr size : Z) (k : nat) (n : Z) : M aspace unit :=
  match k with
  | O => lret tt
  | S k =>
      let dst_delta := addr a (dst_addr - src_addr) in
      let map_delta := addr a (map_addr - src_addr) in
      let got_addr := addr a (plt_got_ r + n * Z.of_nat (sizeof_Addr a)) in
      do* (if (got_addr <? src_addr) || (addr a (src_addr + size) <=? got_addr) then lret tt
           else add_addr a (addr a (got_addr + dst_delta)) map_delta) in
      adjust_got src_addr dst_addr map_addr size k (n + 1)
  end.

(** [ElfRelocations::CopyAndRelocate] *)
Definition CopyAndRelocate (src_addr dst_addr map_addr size : Z) : M aspace unit :=
  do* (fun s => match memcpy s dst_addr src_addr size with
                | Some s' => Ret tt s'
                | None => Crash
                end) in
  do* (if relocations_type_ r =? DT_REL then RelocateRel src_addr dst_addr map_addr size
       else if relocations_type_ r =? DT_RELA then RelocateRela src_addr dst_addr map_addr size
       else lret tt) in
  match a with
  | mips =>
      if plt_got_ r =? 0 then lret tt
      else adjust_got src_addr dst_addr map_addr size (Z.to_nat (mips_local_got_count_ r - 2)) 2
  | _ => lret tt
  end.

End Copy.

(** ** Sequences of word updates *)

Section Words.
Context (a : arch).

Let W := Z.of_nat (sizeof_Addr a).

(** An update of the word at an address: its new value from the old one. *)
Definition word_op : Type := Z * (Z -> Z).

Definition rmw (op : word_op) : M aspace unit :=
  let* x := load_addr a op.1 in store_addr a op.1 (op.2 x).

Fixpoint rmw_all (ops : list word_op) : M aspace unit :=
  match ops with
  | [] => lret tt
  | op :: ops => do* rmw op in rmw_all ops
  end.

(** The word at [p] can be read and written. *)
Definition word_ok (s : aspace) (p : Z) : Prop :=
  forall x, p <= x < p + W ->
    can PROT_READ s x = true /\ can PROT_WRITE s x = true /\ byte_at s x <> None.

(** [x] is a byte of the word at [p]. *)
Definition in_word (p x : Z) : Prop := p <= x < p + W.

(** The words at the addresses of a list do not overlap. *)
Fixpoint apart (ps : list Z) : Prop :=
  match ps with
  | [] => True
  | p :: ps => (forall q x, q ∈ ps -> ~ (in_word p x /\ in_word q x)) /\ apart ps
  end.

(** [s'] differs from [s] in the content of the words of [ops] only. *)
Definition words_frame (ops : list word_op) (s s' : aspace) : Prop :=
  (forall x, prot_at s' x = prot_at s x) /\
  (forall x, (forall op, op ∈ ops -> ~ in_word op.1 x) -> byte_at s' x = byte_at s x) /\
  (forall x, byte_at s x <> None -> byte_at s' x <> None).

(** Every word of [ops] has its new value in [s']. *)
Definition words_updated (ops : list word_op) (s s' : aspace) : Prop :=
  forall op, op ∈ ops -> exists v, load_le (sizeof_Addr a) s op.1 = Some v /\
    load_le (sizeof_Addr a) s' op.1 = Some (addr a (op.2 v)).

Lemma words_frame_refl ops s : words_frame ops s s.
Proof. by split_and!. Qed.

Lemma words_frame_trans ops s s1 s2 :
  words_frame ops s s1 -> words_frame ops s1 s2 -> words_frame ops s s2.
Proof.
  intros (P1 & B1 & N1) (P2 & B2 & N2). split_and!; intros x; [by rewrite P2, P1| |auto].
  intros Hx. rewrite B2, B1; done.
Qed.

Lemma words_frame_mono ops ops' s s' :
  (forall op, op ∈ ops -> op ∈ ops') -> words_frame ops s s' -> words_frame ops' s s'.
Proof. intros Hsub (P & B & N). split_and!; auto. Qed.

Lemma word_ok_frame ops s s' p : words_frame ops s s' -> word_ok s p -> word_ok s' p.
Proof.
  intros (P & _ & N) Hok x Hx. destruct (Hok x Hx) as (H1 & H2 & H3). unfold can in *.
  rewrite P. auto.
Qed.

Lemma words_frame_load ops s s' x :
  words_frame ops s s' -> (forall op, op ∈ ops -> ~ in_word op.1 x) ->
  load_byte s' x = load_byte s x.
Proof.
  intros (P & B & _) Hx. unfold load_byte, can. rewrite P. case_match; [|done]. by apply B.
Qed.

Lemma rmw_spec op s :
  word_ok s op.1 ->
  exists s', rmw op s = Ret tt s' /\ words_frame [op] s s' /\ words_updated [op] s s'.
Proof.
  intros Hok. unfold rmw, lbind, load_addr, lread.
  destruct (read_le_Some (load_byte s) (sizeof_Addr a) op.1) as [v Hv].
  { intros x Hx. destruct (Hok x Hx) as (H1 & _ & H3). unfold load_byte. rewrite H1.
    destruct (byte_at s x); [by eexists|done]. }
  unfold load_le. rewrite Hv. unfold store_addr.
  destruct (store_le (sizeof_Addr a) s op.1 (addr a (op.2 v))) as [s'|] eqn:Es.
  2: { exfalso. unfold store_le in Es. case_match; [done|].
       match goal with H : range_all _ _ _ = false |- _ => apply not_true_iff_false in H; apply H end.
       apply range_all_true. intros x Hx. destruct (Hok x Hx) as (_ & H2 & H3).
       unfold writable. rewrite H2. by destruct (byte_at s x). }
  exists s'. split; [done|]. unfold words_frame. split_and!.
  - intros x. by eapply store_le_prot.
  - intros x Hx. eapply store_le_byte_out; [done|]. apply (Hx op). list_in.
  - intros x Hx. unfold store_le in Es. case_match; [|done]. simplify_eq. cbn.
    by destruct (in_range _ _ x).
  - intros op' ->%list_elem_of_singleton. exists v. split; [done|].
    erewrite store_le_load_same; [|done|intros x Hx; by apply Hok].
    unfold addr, wrap. rewrite pow_kElfBits. by rewrite Zmod_mod.
Qed.

Lemma rmw_all_spec ops s :
  apart ops.*1 -> (forall op, op ∈ ops -> word_ok s op.1) ->
  exists s', rmw_all ops s = Ret tt s' /\ words_frame ops s s' /\ words_updated ops s s'.
Proof.
  revert s. induction ops as [|op ops IH]; intros s Hap Hok.
  { exists s. split_and!; [done|apply words_frame_refl|by intros ? ?%elem_of_nil]. }
  destruct Hap as [Hd Hap]. destruct (rmw_spec op s) as (s1 & E1 & F1 & U1); [apply Hok; list_in|].
  destruct (IH s1 Hap) as (s2 & E2 & F2 & U2).
  { intros op' Hin. eapply word_ok_frame; [done|]. apply Hok. list_in. }
  exists s2. cbn [rmw_all]. unfold lbind. rewrite E1. split; [done|]. split.
  - apply (words_frame_trans _ _ s1); [apply (words_frame_mono [op])|apply (words_frame_mono ops)];
      try done; intros op' Hin.
    + apply list_elem_of_singleton in Hin as ->. list_in.
    + list_in.
  - intros op' [->|Hin]%elem_of_cons.
    + destruct (U1 op) as (v & Hv & Hv'); [list_in|]. exists v. split; [done|]. rewrite <-Hv'.
      apply read_le_ext. intros x Hx. eapply words_frame_load; [done|]. intros op' Hin Hw.
      by apply (Hd op'.1 x (list_elem_of_fmap_2 fst _ _ Hin)).
    + destruct (U2 op' Hin) as (v & Hv & Hv'). exists v. split; [|done]. rewrite <-Hv.
      apply read_le_ext. intros x Hx. symmetry. eapply words_frame_load; [done|].
      intros op1 ->%list_elem_of_singleton Hw.
      by apply (Hd op'.1 x (list_elem_of_fmap_2 fst _ _ Hin)).
Qed.

Lemma store_rmw s p v : word_ok s p -> store_addr a p v s = rmw_all [(p, fun _ => v)] s.
Proof.
  intros Hok. cbn [rmw_all]. unfold rmw, lbind, load_addr, lread. cbn [fst snd].
  destruct (read_le_Some (load_byte s) (sizeof_Addr a) p) as [x Hx].
  { intros y Hy. destruct (Hok y Hy) as (H1 & _ & H3). unfold load_byte. rewrite H1.
    destruct (byte_at s y); [by eexists|done]. }
  unfold load_le. rewrite Hx. by destruct (store_addr a p v s) as [[]| |].
Qed.

Lemma add_rmw s p v f : (forall x, f x = x + v) -> add_addr a p v s = rmw_all [(p, f)] s.
Proof.
  intros Hf. cbn [rmw_all]. unfold rmw, add_addr, lbind. cbn [fst snd].
  destruct (load_addr a p s) as [x s1|e s1|]; [|done..]. rewrite Hf.
  by destruct (store_addr a p (x + v) s1) as [[]| |].
Qed.

Lemma rmw_all_app xs ys s : rmw_all (xs ++ ys) s = lbind (rmw_all xs) (fun _ => rmw_all ys) s.
Proof.
  revert s. induction xs as [|x xs IH]; intros s; [done|]. cbn [app rmw_all]. unfold lbind.
  destruct (rmw x s); [|done|done]. rewrite IH. done.
Qed.

Lemma apart_app xs ys : apart (xs ++ ys) -> apart xs /\ apart ys.
Proof.
  induction xs as [|x xs IH]; [done|]. intros [H Hap]. destruct (IH Hap). split; [|done].
  split; [|done]. intros q y Hin. apply H. list_in.
Qed.

(** A loop over a table whose body makes word updates outside the table. *)
Section Table.
Context (elt : (Z -> option Z) -> Z -> option Rela) (sz : Z) (body : Rela -> M aspace unit)
  (ops_of : Rela -> list word_op) (all : list word_op) (s0 : aspace).
Context (Hsz : 0 < sz)
  (Helt : forall rd rd' p, (forall x, p <= x < p + sz -> rd x = rd' x) -> elt rd p = elt rd' p)
  (Hok : forall op, op ∈ all -> word_ok s0 op.1).

Lemma for_table_ops rels p s :
  (forall rel s', rel ∈ rels -> words_frame all s0 s' -> body rel s' = rmw_all (ops_of rel) s') ->
  (forall op, op ∈ flat_map ops_of rels -> op ∈ all) -> apart (flat_map ops_of rels).*1 ->
  read_array (elt (load_byte s0)) sz (length rels) p = Some rels ->
  (forall op x, op ∈ all -> p <= x < p + Z.of_nat (length rels) * sz -> ~ in_word op.1 x) ->
  words_frame all s0 s ->
  for_table elt sz body (length rels) p s = rmw_all (flat_map ops_of rels) s.
Proof.
  revert p s. induction rels as [|rel rels IH]; intros p s Hbody Hall Hap Hrd Hout Hs; [done|].
  cbn [length read_array] in Hrd. destruct (elt (load_byte s0) p) as [rel'|] eqn:Er; [|done].
  cbn in Hrd. destruct (read_array _ _ _ (p + sz)) eqn:Ers; [|done]. cbn in Hrd. simplify_eq.
  cbn [length for_table flat_map] in *. unfold lbind at 1, lread.
  rewrite (Helt _ (load_byte s0)), Er.
  2: { intros x Hx. eapply words_frame_load; [done|]. intros op Hin. apply Hout; [done|]. nia. }
  rewrite rmw_all_app. unfold lbind. rewrite Hbody by (done || list_in).
  rewrite fmap_app in Hap. destruct (apart_app _ _ Hap) as [Hap1 Hap2].
  assert (forall op, op ∈ ops_of rel -> op ∈ all) as Hsub by (intros op Hin; apply Hall; list_in).
  destruct (rmw_all_spec (ops_of rel) s Hap1) as (s1 & -> & F1 & _).
  { intros op Hin. eapply word_ok_frame; [done|]. auto. }
  apply IH; try done.
  - intros rel' s' Hin. apply Hbody. list_in.
  - intros op Hin. apply Hall. list_in.
  - intros op x Hin Hx. apply Hout; [done|]. lia.
  - eapply words_frame_trans; [done|]. by apply (words_frame_mono (ops_of rel)).
Qed.

End Table.

End Words.

Lemma read_Rel_ext a rd rd' p :
  (forall x, p <= x < p + sizeof_Rel a -> rd x = rd' x) -> read_Rel a rd p = read_Rel a rd' p.
Proof.
  intros H. unfold read_Rel, read_addr.
  rewrite !(read_le_ext rd rd') by (intros; apply H; destruct a; cbn in *; lia). done.
Qed.

Lemma read_Rela_ext a rd rd' p :
  (forall x, p <= x < p + sizeof_Rela a -> rd x = rd' x) -> read_Rela a rd p = read_Rela a rd' p.
Proof.
  intros H. unfold read_Rela, read_addr.
  rewrite !(read_le_ext rd rd') by (intros; apply H; destruct a; cbn in *; lia). done.
Qed.

(** ** The copy of a section *)

Section CopySpec.
Context (a : arch) (r : ElfRelocations) (src dst map size : Z).

Local Notation W := (Z.of_nat (sizeof_Addr a)).
Local Notation d := (addr a (map - src)).

Definition in_section (t : Z) : bool := (src <=? t) && (t <? src + size).

(** The address of a relative relocation of the section. *)
Definition rel_target (rel : Rela) : list Z :=
  let t := addr a (r_offset rel + r_load_bias_ r) in
  if (ELF_R_TYPE a (r_info rel) =? relative_type a) && (ELF_R_SYM a (r_info rel) =? 0) && in_section t
  then [t] else [].

(** The local entries of the global offset table on MIPS. *)
Definition got_target (n : Z) : list Z :=
  let t := addr a (plt_got_ r + n * W) in if in_section t then [t] else [].

Definition got_targets : list Z :=
  match a with
  | mips => if plt_got_ r =? 0 then [] else flat_map got_target (seqZ 2 (mips_local_got_count_ r - 2))
  | _ => []
  end.

(** All the addresses of the section that hold a load address. *)
Definition section_targets (rels : list Rela) : list Z := flat_map rel_target rels ++ got_targets.

(** The relocation table in memory. *)
Definition relocation_table (s : aspace) (rels : list Rela) : Prop :=
  (relocations_type_ r = DT_REL /\ relocations_size_ r / sizeof_Rel a = Z.of_nat (length rels) /\
   read_array (read_Rel a (load_byte s)) (sizeof_Rel a) (length rels) (relocations_ r) = Some rels) \/
  (relocations_type_ r = DT_RELA /\ relocations_size_ r / sizeof_Rela a = Z.of_nat (length rels) /\
   read_array (read_Rela a (load_byte s)) (sizeof_Rela a) (length rels) (relocations_ r) = Some rels).

(** The bytes of the table. *)
Definition table_bytes : Z :=
  if relocations_type_ r =? DT_REL then relocations_size_ r / sizeof_Rel a * sizeof_Rel a
  else relocations_size_ r / sizeof_Rela a * sizeof_Rela a.

(** What [CopyAndRelocate] asks of its caller: a readable section, a separate
    writable destination outside the relocation table, and relocated words that
    lie in the section and do not overlap. *)
Record copy_ok (s : aspace) (rels : list Rela) : Prop := {
  co_src : 0 <= src /\ 0 <= size /\ src + size < 2 ^ kElfBits a;
  co_dst : 0 <= dst /\ dst + size < 2 ^ kElfBits a;
  co_apart : src + size <= dst \/ dst + size <= src;
  co_read x : src <= x < src + size -> readable s x = true;
  co_write x : dst <= x < dst + size -> can PROT_READ s x = true /\ writable s x = true;
  co_table : relocation_table s rels;
  co_outside x : relocations_ r <= x < relocations_ r + table_bytes -> ~ dst <= x < dst + size;
  co_targets t : t ∈ section_targets rels -> t + W <= src + size;
  co_words : apart a (section_targets rels);
}.

(** The update of the copy of a target. *)
Definition copy_op (t : Z) : word_op := (t + (dst - src), fun x => x + d).

Lemma apart_shift ps k : apart a ps -> apart a (List.map (fun t => t + k) ps).
Proof.
  induction ps as [|p ps IH]; [done|]. intros [H Hap]. split; [|by apply IH].
  intros q x (q' & <- & Hin)%list_elem_of_In%in_map_iff [Hp Hq].
  apply (H q' (x - k)); [by apply list_elem_of_In|]. unfold in_word in *. lia.
Qed.

Lemma in_section_true t : in_section t = true <-> src <= t < src + size.
Proof. unfold in_section. rewrite andb_true_iff, Z.leb_le, Z.ltb_lt. done. Qed.

Lemma section_target_range rels t : t ∈ section_targets rels -> src <= t < src + size.
Proof.
  unfold section_targets. intros [Hin|Hin]%elem_of_app.
  - apply list_elem_of_In, in_flat_map in Hin as (rel & _ & Hin).
    unfold rel_target in Hin. case_match eqn:E; [|done]. destruct Hin as [<-|[]].
    bool_to_prop. by apply in_section_true.
  - unfold got_targets in Hin. destruct a; try by apply elem_of_nil in Hin.
    case_match; [by apply elem_of_nil in Hin|].
    apply list_elem_of_In, in_flat_map in Hin as (n & _ & Hin).
    unfold got_target in Hin. case_match eqn:E; [|done]. destruct Hin as [<-|[]].
    by apply in_section_true.
Qed.

Lemma section_end_small : 0 <= src /\ 0 <= size /\ src + size < 2 ^ kElfBits a ->
  addr a (src + size) = src + size.
Proof. intros. rewrite addr_small by lia. done. Qed.

(** The address of the copy of a target. *)
Lemma copy_address t :
  0 <= dst /\ dst + size < 2 ^ kElfBits a -> src <= t < src + size ->
  addr a (t + addr a (dst - src)) = t + (dst - src).
Proof.
  intros ? ?. unfold addr. rewrite wrap_wrap_add_r. fold (addr a (t + (dst - src))).
  apply addr_small. lia.
Qed.

(** The body of the loop on one entry. *)
Lemma adjust_entry_ops rel s :
  0 <= src /\ 0 <= size /\ src + size < 2 ^ kElfBits a -> 0 <= dst /\ dst + size < 2 ^ kElfBits a ->
  adjust_entry a r src dst map size rel s = rmw_all a (List.map copy_op (rel_target rel)) s.
Proof.
  intros Hs Hd. unfold adjust_entry, rel_target. rewrite section_end_small by done.
  set (t := addr a (r_offset rel + r_load_bias_ r)).
  assert (relative_type a <> 0) as Hnz by (by destruct a).
  destruct (ELF_R_SYM a (r_info rel) =? 0) eqn:E2; cbn [negb].
  2: { by rewrite orb_true_r, andb_false_r. }
  destruct (ELF_R_TYPE a (r_info rel) =? 0) eqn:E1; cbn [orb].
  { bool_to_prop. rewrite E1, (proj2 (Z.eqb_neq 0 _)) by congruence. done. }
  unfold AdjustRelocation, in_section. rewrite andb_true_r.
  destruct (src <=? t) eqn:E3; [rewrite (proj2 (Z.ltb_ge _ _)) by (bool_to_prop; lia)
    |rewrite (proj2 (Z.ltb_lt _ _)) by (bool_to_prop; lia); by rewrite andb_false_r].
  destruct (t <? src + size) eqn:E4; [rewrite (proj2 (Z.leb_gt _ _)) by (bool_to_prop; lia)
    |rewrite (proj2 (Z.leb_le _ _)) by (bool_to_prop; lia); by rewrite andb_false_r].
  cbn [orb andb]. rewrite andb_true_r. case_match; [|done]. bool_to_prop.
  rewrite copy_address by (done || lia). cbn [List.map rmw_all]. unfold lbind.
  unfold rmw, add_addr, copy_op, lbind. cbn [fst snd].
  destruct (load_addr a _ s) as [v s1|e s1|]; [|done|done].
  by destruct (store_addr a _ _ s1) as [[]| |].
Qed.

Lemma adjust_got_ops k n s :
  0 <= src /\ 0 <= size /\ src + size < 2 ^ kElfBits a -> 0 <= dst /\ dst + size < 2 ^ kElfBits a ->
  adjust_got a r src dst map size k n s
  = rmw_all a (List.map copy_op (flat_map got_target (seqZ n (Z.of_nat k)))) s.
Proof.
  intros Hs Hd. revert n s. induction k as [|k IH]; intros n s; [done|].
  rewrite Nat2Z.inj_succ, seqZ_cons by lia. cbn [adjust_got flat_map].
  replace (Z.pred (Z.succ (Z.of_nat k))) with (Z.of_nat k) by lia.
  rewrite List.map_app, rmw_all_app, section_end_small by done. unfold lbind at 1.
  replace (Z.succ n) with (n + 1) by lia. unfold got_target at 1.
  set (t := addr a (plt_got_ r + n * W)). unfold in_section.
  destruct (src <=? t) eqn:E3; [rewrite (proj2 (Z.ltb_ge _ _)) by (bool_to_prop; lia)
    |rewrite (proj2 (Z.ltb_lt _ _)) by (bool_to_prop; lia); apply IH].
  destruct (t <? src + size) eqn:E4; [rewrite (proj2 (Z.leb_gt _ _)) by (bool_to_prop; lia)
    |rewrite (proj2 (Z.leb_le _ _)) by (bool_to_prop; lia); apply IH].
  bool_to_prop. cbn [orb andb]. rewrite copy_address by (done || lia).
  cbn [List.map rmw_all]. unfold rmw, add_addr, copy_op, lbind. cbn [fst snd].
  destruct (load_addr a _ s) as [v s1|e s1|]; [|done|done].
  destruct (store_addr a _ _ s1) as [[]| |]; [apply IH|done|done].
Qed.

(** The state after the straight copy. *)
Lemma memcpy_copy s rels :
  copy_ok s rels ->
  exists s1, memcpy s dst src size = Some s1 /\
    (forall x, prot_at s1 x = prot_at s x) /\
    (forall x, ~ dst <= x < dst + size -> byte_at s1 x = byte_at s x) /\
    (forall i, 0 <= i < size -> byte_at s1 (dst + i) = byte_at s (src + i)).
Proof.
  intros H. unfold memcpy.
  rewrite (proj2 (range_all_true _ _ _)) by (intros x Hx; by apply (co_write _ _ H)).
  rewrite (proj2 (range_all_true _ _ _)) by (intros x Hx; by apply (co_read _ _ H)).
  eexists. split; [done|]. split_and!.
  - done.
  - intros x Hx. cbn. destruct (in_range dst size x) eqn:E; [apply in_range_true in E; lia|done].
  - intros i Hi. cbn. rewrite (proj2 (in_range_true _ _ _)) by lia. f_equal. lia.
Qed.

(** The words of the copy can be updated. *)
Lemma copy_word_ok s rels s1 t :
  copy_ok s rels -> (forall x, prot_at s1 x = prot_at s x) ->
  (forall i, 0 <= i < size -> byte_at s1 (dst + i) = byte_at s (src + i)) ->
  t ∈ section_targets rels -> word_ok a s1 (copy_op t).1.
Proof.
  intros H Hp Hb Ht x Hx. cbn in Hx. pose proof (section_target_range rels t Ht) as Hr.
  pose proof (co_targets _ _ H t Ht).
  assert (dst <= x < dst + size) as Hxd by lia.
  destruct (co_write _ _ H x Hxd) as [H1 H2]. unfold writable in H2. bool_to_prop.
  unfold can in *. rewrite Hp. split_and!; [done..|].
  replace x with (dst + (x - dst)) by lia. rewrite Hb by lia.
  pose proof (co_read _ _ H (src + (x - dst)) ltac:(lia)) as Hrd.
  unfold readable, load_byte in Hrd. destruct (can _ _ _); [|done].
  by destruct (byte_at s (src + (x - dst))).
Qed.

Lemma map_flat_map {A B C} (g : B -> C) (f : A -> list B) l :
  List.map g (flat_map f l) = flat_map (fun x => List.map g (f x)) l.
Proof. by rewrite !flat_map_concat_map, concat_map, List.map_map. Qed.

(** The loop over the relocation table updates the copies of its targets. *)
Lemma relocate_loop s rels s1 elt sz :
  copy_ok s rels -> (forall x, prot_at s1 x = prot_at s x) ->
  (forall x, ~ dst <= x < dst + size -> byte_at s1 x = byte_at s x) ->
  (forall t, t ∈ section_targets rels -> word_ok a s1 (copy_op t).1) ->
  apart a (List.map copy_op (section_targets rels)).*1 ->
  0 < sz -> (forall rd rd' p, (forall x, p <= x < p + sz -> rd x = rd' x) -> elt rd p = elt rd' p) ->
  table_bytes = Z.of_nat (length rels) * sz ->
  read_array (elt (load_byte s)) sz (length rels) (relocations_ r) = Some rels ->
  for_table elt sz (adjust_entry a r src dst map size) (length rels) (relocations_ r) s1
  = rmw_all a (List.map copy_op (flat_map rel_target rels)) s1.
Proof.
  intros H Hp Hb Hok Hap Hsz Helt Htb Hrd. rewrite map_flat_map.
  assert (forall rel op, rel ∈ rels -> op ∈ List.map copy_op (rel_target rel) ->
    op ∈ List.map copy_op (section_targets rels)) as Hsub.
  { intros rel op Hrel (t & <- & Ht)%list_elem_of_In%in_map_iff.
    apply list_elem_of_In, in_map, list_elem_of_In, elem_of_app. left.
    apply list_elem_of_In, in_flat_map. exists rel. split; [by apply list_elem_of_In|done]. }
  apply (for_table_ops a elt sz _ _ (List.map copy_op (section_targets rels)) s1); try done.
  - intros op (t & <- & Ht)%list_elem_of_In%in_map_iff. apply Hok. by apply list_elem_of_In.
  - intros rel s' _ _. apply adjust_entry_ops; apply H.
  - intros op (rel & Hrel & Hop)%list_elem_of_In%in_flat_map.
    apply (Hsub rel); by apply list_elem_of_In.
  - unfold section_targets in Hap. rewrite List.map_app, fmap_app in Hap.
    apply apart_app in Hap as [Hap _]. by rewrite map_flat_map in Hap.
  - rewrite <-Hrd. apply read_array_shift. intros k Hk. apply Helt. intros x Hx.
    unfold load_byte, can. rewrite Hp, Hb; [done|]. apply (co_outside _ _ H). nia.
  - intros op x (t & <- & Ht)%list_elem_of_In%in_map_iff Hx Hw. rewrite <-Htb in Hx.
    apply (co_outside _ _ H x Hx). apply list_elem_of_In in Ht.
    pose proof (section_target_range rels t Ht). pose proof (co_targets _ _ H t Ht).
    unfold in_word, copy_op in Hw. cbn in Hw. lia.
Qed.

Lemma got_loop s rels s2 :
  copy_ok s rels ->
  match a with
  | mips => if plt_got_ r =? 0 then lret tt
            else adjust_got a r src dst map size (Z.to_nat (mips_local_got_count_ r - 2)) 2
  | _ => lret tt
  end s2 = rmw_all a (List.map copy_op got_targets) s2.
Proof.
  intros H. pose proof (adjust_got_ops (Z.to_nat (mips_local_got_count_ r - 2)) 2 s2
    (co_src _ _ H) (co_dst _ _ H)) as E. clear H.
  unfold got_targets. destruct a; try done. case_match; [done|].
  rewrite E. destruct (decide (0 <= mips_local_got_count_ r - 2)).
  - by rewrite Z2Nat.id.
  - rewrite !seqZ_nil by lia. done.
Qed.

(** The whole of [CopyAndRelocate] as a copy and word updates. *)
Lemma copy_and_relocate_ops s rels s1 :
  copy_ok s rels -> memcpy s dst src size = Some s1 -> (forall x, prot_at s1 x = prot_at s x) ->
  (forall x, ~ dst <= x < dst + size -> byte_at s1 x = byte_at s x) ->
  (forall t, t ∈ section_targets rels -> word_ok a s1 (copy_op t).1) ->
  apart a (List.map copy_op (section_targets rels)).*1 ->
  CopyAndRelocate a r src dst map size s = rmw_all a (List.map copy_op (section_targets rels)) s1.
Proof.
  intros H Hm Hp Hb Hok Hap. unfold CopyAndRelocate, lbind at 1. rewrite Hm.
  pose proof (fun elt sz => relocate_loop s rels s1 elt sz H Hp Hb Hok Hap) as Hloop.
  unfold section_targets. rewrite List.map_app, rmw_all_app. unfold lbind.
  unfold table_bytes in Hloop. destruct (co_table _ _ H) as [(Ht & Hn & Hrd)|(Ht & Hn & Hrd)];
    rewrite Ht in *; unfold RelocateRel, RelocateRela.
  - change (DT_REL =? DT_REL) with true in *. cbn iota in *. rewrite Hn, Nat2Z.id.
    rewrite (Hloop (read_Rel a) (sizeof_Rel a)); try done; [|by destruct a|apply read_Rel_ext|].
    + destruct (rmw_all _ _ s1); [by eapply got_loop|done|done].
    + by rewrite <-Hn.
  - change (DT_RELA =? DT_REL) with false in *. change (DT_RELA =? DT_RELA) with true in *.
    cbn iota in *. rewrite Hn, Nat2Z.id.
    rewrite (Hloop (read_Rela a) (sizeof_Rela a)); try done; [|by destruct a|apply read_Rela_ext|].
    + destruct (rmw_all _ _ s1); [by eapply got_loop|done|done].
    + by rewrite <-Hn.
Qed.

Lemma copy_core s rels :
  copy_ok s rels ->
  exists s', CopyAndRelocate a r src dst map size s = Ret tt s' /\
    (forall t, t ∈ section_targets rels -> exists v,
       load_le (sizeof_Addr a) s t = Some v /\
       load_le (sizeof_Addr a) s' (t + (dst - src)) = Some (addr a (v + (map - src)))) /\
    (forall i, 0 <= i < size -> (forall t, t ∈ section_targets rels -> ~ in_word a t (src + i)) ->
       byte_at s' (dst + i) = byte_at s (src + i)) /\
    (forall x, ~ dst <= x < dst + size -> byte_at s' x = byte_at s x) /\
    (forall x, prot_at s' x = prot_at s x).
Proof.
  intros H. destruct (memcpy_copy s rels H) as (s1 & Hm & Hp & Hb & Hc).
  assert (forall t, t ∈ section_targets rels -> word_ok a s1 (copy_op t).1) as Hok
    by (intros t Ht; by eapply copy_word_ok).
  assert (apart a (List.map copy_op (section_targets rels)).*1) as Hap.
  { replace ((List.map copy_op (section_targets rels)).*1)
      with (List.map (fun t => t + (dst - src)) (section_targets rels)).
    - apply apart_shift, (co_words _ _ H).
    - change (fst <$> List.map copy_op (section_targets rels))
        with (List.map fst (List.map copy_op (section_targets rels))). by rewrite List.map_map. }
  rewrite (copy_and_relocate_ops s rels s1) by done.
  destruct (rmw_all_spec a (List.map copy_op (section_targets rels)) s1 Hap) as (s' & -> & F & U).
  { intros op (t & <- & Ht)%list_elem_of_In%in_map_iff. apply Hok. by apply list_elem_of_In. }
  exists s'. destruct F as (Fp & Fb & _).
  assert (forall x, (forall t, t ∈ section_targets rels -> ~ in_word a (t + (dst - src)) x) ->
    byte_at s' x = byte_at s1 x) as Fb'.
  { intros x Hx. apply Fb. intros op (t & <- & Ht)%list_elem_of_In%in_map_iff.
    apply Hx. by apply list_elem_of_In. }
  split_and!; [done| | | |].
  - intros t Ht. destruct (U (copy_op t)) as (v & Hv & Hv').
    { by apply list_elem_of_In, in_map, list_elem_of_In. }
    exists v. pose proof (section_target_range rels t Ht). pose proof (co_targets _ _ H t Ht). split.
    + rewrite <-Hv. apply read_le_shift. intros i Hi. cbn. unfold load_byte.
      replace (t + (dst - src) + i) with (dst + (t - src + i)) by lia.
      rewrite Hc by lia. replace (src + (t - src + i)) with (t + i) by lia.
      assert (can PROT_READ s1 (dst + (t - src + i)) = true) as ->.
      { unfold can. rewrite Hp. apply (co_write _ _ H (dst + (t - src + i)) ltac:(lia)). }
      pose proof (co_read _ _ H (t + i) ltac:(lia)) as Hrs. unfold readable, load_byte in Hrs.
      by destruct (can PROT_READ s (t + i)).
    + change (t + (dst - src)) with (copy_op t).1. rewrite Hv'. cbn. unfold addr.
      by rewrite wrap_wrap_add_r.
  - intros i Hi Hno. rewrite Fb', Hc; [done|lia|]. intros t Ht Hw. apply (Hno t Ht).
    unfold in_word in *. lia.
  - intros x Hx. rewrite Fb'; [by apply Hb|]. intros t Ht Hw.
    pose proof (section_target_range rels t Ht). pose proof (co_targets _ _ H t Ht).
    unfold in_word in Hw. lia.
  - intros x. by rewrite Fp.
Qed.

End CopySpec.

(** ** The relocations of a library *)

Lemma read_Sym_ext a rd rd' p :
  (forall x, p <= x < p + sizeof_Sym a -> rd x = rd' x) -> read_Sym a rd p = read_Sym a rd' p.
Proof.
  intros H. unfold read_Sym, read_addr.
  assert (forall n k, 0 <= k -> k + Z.of_nat n <= sizeof_Sym a ->
    read_le rd n (p + k) = read_le rd' n (p + k)) as Hf.
  { intros n k Hk Hn. apply read_le_ext. intros x Hx. apply H. lia. }
  assert (read_le rd 4 p = read_le rd' 4 p) as H0.
  { specialize (Hf 4%nat 0). rewrite !Z.add_0_r in Hf. apply Hf; destruct a; cbn; lia. }
  destruct a; cbn [sizeof_Sym sizeof_Addr] in *; rewrite H0, !Hf, ?(H (p + 4)), ?(H (p + 12)) by lia;
    done.
Qed.

Section ApplySpec.
Context (a : arch) (r : ElfRelocations) (symbols : ElfSymbols) `{SymbolResolver}.

(** The value the ELF supplement of each processor gives to the relocated word
    from its old value [x], the value [S] of the symbol, and the load bias; for
    [R_ARM_REL32] the place is counted from the load bias. *)
Definition reloc_value (is_rela : bool) (rel : Rela) (sym_value : Z) : option (Z -> Z) :=
  let type := ELF_R_TYPE a (r_info rel) in
  let sym := ELF_R_SYM a (r_info rel) in
  let bias := r_load_bias_ r in
  let place := addr a (r_offset rel + bias) in
  let addend := r_addend rel in
  match a, is_rela with
  | arm, false =>
      if one_of type [R_ARM_JUMP_SLOT; R_ARM_GLOB_DAT] then Some (fun _ => sym_value)
      else if type =? R_ARM_ABS32 then Some (fun x => x + sym_value)
      else if type =? R_ARM_REL32 then Some (fun x => x + sym_value - r_offset rel)
      else if (type =? R_ARM_RELATIVE) && (sym =? 0) then Some (fun x => x + bias)
      else None
  | i386, false =>
      if one_of type [R_386_JMP_SLOT; R_386_GLOB_DAT] then Some (fun _ => sym_value)
      else if type =? R_386_32 then Some (fun x => x + sym_value)
      else if type =? R_386_PC32 then Some (fun x => x + sym_value - place)
      else if (type =? R_386_RELATIVE) && (sym =? 0) then Some (fun x => x + bias)
      else None
  | mips, false =>
      if type =? R_MIPS_REL32
      then Some (fun x => if sym =? 0 then x + bias else x + sym_value) else None
  | aarch64, true =>
      if one_of type [R_AARCH64_JUMP_SLOT; R_AARCH64_GLOB_DAT]
      then Some (fun _ => sym_value + addend)
      else if (type =? R_AARCH64_RELATIVE) && (sym =? 0) then Some (fun _ => bias + addend)
      else None
  | _, _ => None
  end.

(** The word updates of an entry. *)
Definition reloc_ops (is_rela : bool) (sym_value : Rela -> Z) (rel : Rela) : list word_op :=
  if ELF_R_TYPE a (r_info rel) =? 0 then []
  else match reloc_value is_rela rel (sym_value rel) with
       | Some f => [(addr a (r_offset rel + r_load_bias_ r), f)]
       | None => []
       end.

(** The symbol of an entry has the value [v] in every state that differs from
    [s] in the words of [all] only: the resolver finds it there, or it is weak
    and the relocation type says what an undefined weak symbol is worth. *)
Definition resolves (all : list word_op) (s : aspace) (rel : Rela) (v : Z) : Prop :=
  let n := ELF_R_SYM a (r_info rel) in
  let type := ELF_R_TYPE a (r_info rel) in
  exists sym name,
    LookupById a s symbols n = Some sym /\
    (forall op x, op ∈ all -> addr a (symbol_table_ symbols + n * sizeof_Sym a) <= x
       < addr a (symbol_table_ symbols + n * sizeof_Sym a) + sizeof_Sym a -> ~ in_word a op.1 x) /\
    string_at s (addr a (string_table_ symbols + st_name sym)) name /\
    Z.of_nat (length name) < 2 ^ 64 /\
    (forall op x, op ∈ all -> addr a (string_table_ symbols + st_name sym) <= x
       <= addr a (string_table_ symbols + st_name sym) + Z.of_nat (length name) ->
       ~ in_word a op.1 x) /\
    exists found, (forall s', words_frame a all s s' -> Lookup s' name = Some found) /\
      (found <> 0 /\ v = found \/
       found = 0 /\ ELF_ST_BIND (st_info sym) = STB_WEAK /\
       match GetRelocationType a type with
       | RELOCATION_TYPE_ABSOLUTE | RELOCATION_TYPE_RELATIVE => v = 0
       | RELOCATION_TYPE_PC_RELATIVE => v = addr a (r_offset rel + r_load_bias_ r)
       | _ => False
       end).

Lemma string_at_frame all s s' p name :
  words_frame a all s s' -> string_at s p name ->
  (forall op x, op ∈ all -> p <= x <= p + Z.of_nat (length name) -> ~ in_word a op.1 x) ->
  string_at s' p name.
Proof.
  intros Hf [Hc H0] Hout. split.
  - intros i c Hi. erewrite words_frame_load; [by apply Hc|done|].
    intros op Hin. apply Hout; [done|]. apply lookup_lt_Some in Hi. lia.
  - erewrite words_frame_load; [done..|]. intros op Hin. apply Hout; [done|]. lia.
Qed.

Lemma lookup_id_ok s n sym name v :
  LookupById a s symbols n = Some sym ->
  read_cstr s (addr a (string_table_ symbols + st_name sym)) = Some name ->
  Lookup s name = Some v -> lookup_id a symbols n s = Ret v s.
Proof.
  intros Hs Hn Hl. unfold lookup_id, lread.
  assert (LookupNameById a s symbols n = Some (addr a (string_table_ symbols + st_name sym))) as ->.
  { unfold LookupNameById. by rewrite Hs. }
  by rewrite Hn, Hl.
Qed.

Lemma is_weak_ok s n sym :
  LookupById a s symbols n = Some sym ->
  IsWeakById a s symbols n = Some (ELF_ST_BIND (st_info sym) =? STB_WEAK).
Proof. intros Hs. unfold IsWeakById. by rewrite Hs. Qed.

Lemma resolve_symbol_ok all s s' rel v :
  resolves all s rel v -> words_frame a all s s' ->
  ResolveSymbol a symbols (ELF_R_TYPE a (r_info rel)) (ELF_R_SYM a (r_info rel))
    (addr a (r_offset rel + r_load_bias_ r)) s' = Ret (true, v) s'.
Proof.
  intros (sym & name & Hsym & Hsout & Hstr & Hlen & Hnout & found & Hlk & Hv) Hf.
  assert (LookupById a s' symbols (ELF_R_SYM a (r_info rel)) = Some sym) as Hsym'.
  { rewrite <-Hsym. apply read_Sym_ext. intros x Hx. eapply words_frame_load; [done|]. eauto. }
  pose proof (string_at_frame _ _ _ _ _ Hf Hstr Hnout) as Hstr'.
  unfold ResolveSymbol, lbind.
  rewrite (lookup_id_ok s' _ sym name found Hsym' (read_cstr_string _ _ _ Hstr' Hlen) (Hlk s' Hf)).
  destruct Hv as [[Hnz ->]|(-> & Hw & Hv)].
  - by rewrite (proj2 (Z.eqb_neq _ _) Hnz).
  - unfold lread. cbn [Z.eqb negb]. rewrite (is_weak_ok s' _ sym Hsym'), Hw.
    change (STB_WEAK =? STB_WEAK) with true. cbn iota beta.
    destruct (GetRelocationType _ _); by subst v || done.
Qed.

(** An entry the linker supports, whose symbol has the value [v]. *)
Definition entry_ok (all : list word_op) (s : aspace) (is_rela : bool) (rel : Rela) (v : Z) : Prop :=
  ELF_R_TYPE a (r_info rel) = 0 \/
  (reloc_value is_rela rel v <> None /\ - 2 ^ 31 <= r_addend rel < 2 ^ 31 /\
   if ELF_R_SYM a (r_info rel) =? 0 then v = 0 else resolves all s rel v).

Ltac reloc_consts :=
  unfold R_ARM_ABS32, R_ARM_REL32, R_ARM_GLOB_DAT, R_ARM_JUMP_SLOT, R_ARM_COPY, R_ARM_RELATIVE,
    R_AARCH64_ABS64, R_AARCH64_COPY, R_AARCH64_GLOB_DAT, R_AARCH64_JUMP_SLOT, R_AARCH64_RELATIVE,
    R_386_32, R_386_PC32, R_386_GLOB_DAT, R_386_JMP_SLOT, R_386_RELATIVE, R_MIPS_REL32 in *.

(** The body of the loops makes the word update of the entry. *)
Lemma apply_entry_ops all s s' is_rela rel sv :
  entry_ok all s is_rela rel (sv rel) -> words_frame a all s s' ->
  (forall op, op ∈ reloc_ops is_rela sv rel -> word_ok a s' op.1) ->
  apply_entry a r symbols is_rela rel s' = rmw_all a (reloc_ops is_rela sv rel) s'.
Proof.
  intros Hok Hf Hw. unfold apply_entry, reloc_ops in *.
  destruct (ELF_R_TYPE a (r_info rel) =? 0) eqn:Et; [done|].
  destruct Hok as [?|(Hv & Hadd & Hsym)]; [bool_to_prop; done|].
  destruct (reloc_value is_rela rel (sv rel)) as [f|] eqn:Ef; [|done].
  assert (word_ok a s' (addr a (r_offset rel + r_load_bias_ r))) as Hwt
    by (apply (Hw (_, f)); list_in).
  unfold lbind at 1.
  assert ((if negb (ELF_R_SYM a (r_info rel) =? 0)
           then ResolveSymbol a symbols (ELF_R_TYPE a (r_info rel)) (ELF_R_SYM a (r_info rel))
                  (addr a (r_offset rel + r_load_bias_ r))
           else lret (false, 0)) s' =
          Ret (negb (ELF_R_SYM a (r_info rel) =? 0), sv rel) s') as ->.
  { destruct (ELF_R_SYM a (r_info rel) =? 0); cbn [negb]; [by rewrite Hsym|].
    by apply (resolve_symbol_ok all s). }
  cbn iota beta. clear Hsym Hw Hf Et. revert Hwt Ef.
  unfold ApplyRelaReloc, ApplyRelReloc, reloc_value. rewrite (swrap_small _ Hadd).
  destruct a, is_rela; intros Hwt Ef; try discriminate; cbn [one_of existsb] in Ef;
    set (t := ELF_R_TYPE _ _) in *; repeat case_match; simplify_eq; try done;
    first [by apply store_rmw|by apply add_rmw; intros; lia
          |exfalso; reloc_consts; lia].
Qed.

(** The table of [rels] in memory at [p], with [bytes] bytes, outside the words
    of [all]; an absent table has the address 0. *)
Definition table_at (all : list word_op) (s : aspace) (is_rela : bool) (p bytes : Z)
    (rels : list Rela) : Prop :=
  let sz := if is_rela then sizeof_Rela a else sizeof_Rel a in
  let elt := if is_rela then read_Rela a else read_Rel a in
  p = 0 /\ rels = [] \/
  p <> 0 /\ bytes / sz = Z.of_nat (length rels) /\
  read_array (elt (load_byte s)) sz (length rels) p = Some rels /\
  (forall op x, op ∈ all -> p <= x < p + Z.of_nat (length rels) * sz -> ~ in_word a op.1 x).

(** The relocations [plt] and [rels] of the library can be applied: the tables
    are in memory, every entry is supported and its symbol has a value, and the
    relocated words can be accessed and do not overlap. *)
Record relocs_ok (s : aspace) (is_rela : bool) (sv : Rela -> Z) (plt rels : list Rela) : Prop := {
  ro_type : relocations_type_ r = if is_rela then DT_RELA else DT_REL;
  ro_plt : table_at (flat_map (reloc_ops is_rela sv) (plt ++ rels)) s is_rela
             (plt_relocations_ r) (plt_relocations_size_ r) plt;
  ro_rels : table_at (flat_map (reloc_ops is_rela sv) (plt ++ rels)) s is_rela
              (relocations_ r) (relocations_size_ r) rels;
  ro_entries rel : rel ∈ plt ++ rels ->
    entry_ok (flat_map (reloc_ops is_rela sv) (plt ++ rels)) s is_rela rel (sv rel);
  ro_words : apart a (flat_map (reloc_ops is_rela sv) (plt ++ rels)).*1;
  ro_access op : op ∈ flat_map (reloc_ops is_rela sv) (plt ++ rels) -> word_ok a s op.1;
}.

(** One table. *)
Lemma apply_table s s' is_rela sv plt rels p bytes l :
  relocs_ok s is_rela sv plt rels -> words_frame a (flat_map (reloc_ops is_rela sv) (plt ++ rels)) s s' ->
  table_at (flat_map (reloc_ops is_rela sv) (plt ++ rels)) s is_rela p bytes l ->
  (forall rel, rel ∈ l -> rel ∈ plt ++ rels) -> apart a (flat_map (reloc_ops is_rela sv) l).*1 ->
  (if is_rela then ApplyRelaRelocs a r symbols p (bytes / sizeof_Rela a)
   else ApplyRelRelocs a r symbols p (bytes / sizeof_Rel a)) s'
  = rmw_all a (flat_map (reloc_ops is_rela sv) l) s'.
Proof.
  intros Ho Hf Ht Hl Hap. set (all := flat_map (reloc_ops is_rela sv) (plt ++ rels)) in *.
  assert (forall rel op, rel ∈ plt ++ rels -> op ∈ reloc_ops is_rela sv rel -> op ∈ all) as Hsub.
  { intros rel op Hrel Hop. apply list_elem_of_In, in_flat_map. exists rel.
    split; by apply list_elem_of_In. }
  pose proof (fun elt sz Hsz Helt => for_table_ops a elt sz (apply_entry a r symbols is_rela)
    (reloc_ops is_rela sv) all s Hsz Helt (ro_access _ _ _ _ _ Ho) l p s') as Hloop.
  assert (forall rel s2, rel ∈ l -> words_frame a all s s2 ->
    apply_entry a r symbols is_rela rel s2 = rmw_all a (reloc_ops is_rela sv rel) s2) as Hbody.
  { intros rel s2 Hrel Hf2. apply (apply_entry_ops all s); [by apply (ro_entries _ _ _ _ _ Ho), Hl|done|].
    intros op Hop. eapply word_ok_frame; [done|]. apply (ro_access _ _ _ _ _ Ho). by eapply Hsub, Hop; apply Hl. }
  assert (forall op, op ∈ flat_map (reloc_ops is_rela sv) l -> op ∈ all) as Hin.
  { intros op (rel & Hrel & Hop)%list_elem_of_In%in_flat_map.
    apply (Hsub rel); [apply Hl|]; by apply list_elem_of_In. }
  destruct Ht as [[-> ->]|(Hp & Hn & Hrd & Hout)]; [by destruct is_rela|].
  destruct is_rela; unfold ApplyRelaRelocs, ApplyRelRelocs;
    rewrite (proj2 (Z.eqb_neq _ _) Hp), Hn, Nat2Z.id; apply Hloop; try done; try (by destruct a).
  - apply read_Rela_ext.
  - apply read_Rel_ext.
Qed.

Lemma apply_all_core `{Kernel} s is_rela sv plt rels :
  relocs_ok s is_rela sv plt rels -> a <> mips -> has_text_relocations_ r = false ->
  let all := flat_map (reloc_ops is_rela sv) (plt ++ rels) in
  exists s', ApplyAll a r symbols s = Ret tt s' /\ words_frame a all s s' /\ words_updated a all s s'.
Proof.
  intros Ho Hm Htext all. destruct (rmw_all_spec a all s) as (s' & Hs' & F & U); [apply Ho..|].
  exists s'. split; [|done]. unfold ApplyAll. rewrite Htext. unfold lbind at 1. cbn [lret].
  pose proof (ro_words _ _ _ _ _ Ho) as Hap. fold all in Hap. unfold all in Hap.
  rewrite flat_map_app, fmap_app in Hap. apply apart_app in Hap as [Hap1 Hap2].
  unfold all in Hs'. rewrite flat_map_app, rmw_all_app in Hs'. unfold lbind in Hs'.
  assert ((if relocations_type_ r =? DT_REL then
         let* _ := ApplyRelRelocs a r symbols (plt_relocations_ r) (plt_relocations_size_ r / sizeof_Rel a) in
         ApplyRelRelocs a r symbols (relocations_ r) (relocations_size_ r / sizeof_Rel a)
       else if relocations_type_ r =? DT_RELA then
         let* _ := ApplyRelaRelocs a r symbols (plt_relocations_ r) (plt_relocations_size_ r / sizeof_Rela a) in
         ApplyRelaRelocs a r symbols (relocations_ r) (relocations_size_ r / sizeof_Rela a)
       else lret tt) s = Ret tt s') as Htab.
  { destruct (rmw_all a (flat_map (reloc_ops is_rela sv) plt) s) as [[] s1| |] eqn:E1; [|done|done].
    assert (words_frame a all s s1) as F1.
    { destruct (rmw_all_spec a (flat_map (reloc_ops is_rela sv) plt) s Hap1) as (s1' & E1' & F1 & _).
      - intros op Hop. apply (ro_access _ _ _ _ _ Ho). rewrite flat_map_app. list_in.
      - rewrite E1 in E1'. simplify_eq. eapply words_frame_mono; [|done].
        intros op Hop. unfold all. rewrite flat_map_app. list_in. }
    pose proof (apply_table s s is_rela sv plt rels _ _ plt Ho (words_frame_refl _ _ _)
      (ro_plt _ _ _ _ _ Ho) ltac:(intros; list_in) Hap1) as T1.
    pose proof (apply_table s s1 is_rela sv plt rels _ _ rels Ho F1
      (ro_rels _ _ _ _ _ Ho) ltac:(intros; list_in) Hap2) as T2.
    rewrite (ro_type _ _ _ _ _ Ho). destruct is_rela; cbn in *; unfold lbind; rewrite T1, E1, T2; done. }
  unfold lbind at 1. rewrite Htab. by destruct a.
Qed.

End ApplySpec.

(** ** The relocations of the sample library *)

Lemma word_ok_check a s p :
  range_all (fun x => can PROT_READ s x && writable s x) p (Z.of_nat (sizeof_Addr a)) = true ->
  word_ok a s p.
Proof.
  rewrite range_all_true. intros H x Hx. specialize (H x Hx). unfold writable in H. bool_to_prop.
  split_and!; try done. by destruct (byte_at s x).
Qed.

Definition sample_relocations (base : Z) : ElfRelocations :=
  mk_ElfRelocations (base + 52) 2 base DT_REL 0 0 0 (base + 0x118) 16 0 0 0 false false.

Lemma sample_relocations_ok :
  Init arm (sample_space 0x40000000) (sample_view 0x40000000)
    (mk_init_state new_ElfRelocations false false)
  = Ret tt (mk_init_state (sample_relocations 0x40000000) false true).
Proof. vm_compute. reflexivity. Qed.

(** A resolver that knows the symbol [bar]. *)
#[local] Instance bar_resolver : SymbolResolver := {|
  Lookup _ name := Some (if bool_decide (name = str "bar") then 0x50001000 else 0);
|}.

Definition sample_rel_list : list Rela := List.map (fun p => mk_Rela p.1 p.2 0) sample_rels.

Definition sample_value (rel : Rela) : Z :=
  if ELF_R_SYM arm (r_info rel) =? 0 then 0 else 0x50001000.

Lemma sample_relocs_ok :
  relocs_ok arm (sample_relocations 0x40000000) (sample_symbols 0x40000000)
    (sample_space 0x40000000) false sample_value [] sample_rel_list.
Proof.
  assert (forall op, op ∈ flat_map (reloc_ops arm (sample_relocations 0x40000000) false sample_value)
    sample_rel_list -> op.1 = 0x40000128 \/ op.1 = 0x4000012c) as Hops.
  { intros op Hop. apply (list_elem_of_fmap_2 fst) in Hop. change (op.1 ∈ [0x40000128; 0x4000012c]) in Hop.
    apply elem_of_cons in Hop as [?|Hop]; [by left|right]. by apply list_elem_of_singleton. }
  split.
  - reflexivity.
  - left. done.
  - right. split_and!; [done..|vm_compute; reflexivity|].
    intros op x Hop Hx. apply Hops in Hop. unfold in_word. cbn in Hx |- *. lia.
  - intros rel Hrel. change (rel ∈ [mk_Rela 0x128 23 0; mk_Rela 0x12c (2 * 256 + 21) 0]) in Hrel.
    elem_inv Hrel; right; (split; [vm_compute; congruence|split; [split; vm_compute; congruence|]]);
      [reflexivity|].
    change (resolves arm (sample_relocations 0x40000000) (sample_symbols 0x40000000)
      (flat_map (reloc_ops arm (sample_relocations 0x40000000) false sample_value) sample_rel_list)
      (sample_space 0x40000000) (mk_Rela 0x12c (2 * 256 + 21) 0) 0x50001000).
    exists (mk_Sym 5 0 0 0x10 0), (str "bar"). split_and!.
    + vm_compute. reflexivity.
    + intros op x Hop Hx. apply Hops in Hop. change (addr arm _) with 0x400000e0 in Hx.
      unfold in_word. cbn in Hx |- *. lia.
    + split; [|vm_compute; reflexivity].
      intros [|[|[|i]]] c Hc; try discriminate; injection Hc as <-; split; vm_compute; congruence.
    + vm_compute. congruence.
    + intros op x Hop Hx. apply Hops in Hop. change (addr arm _) with 0x400000f5 in Hx.
      unfold in_word. cbn in Hx |- *. lia.
    + exists 0x50001000. split; [by intros|by left].
  - change (apart arm [0x40000128; 0x4000012c]). split; [|split; [|done]].
    + intros q x ->%list_elem_of_singleton. unfold in_word. cbn. lia.
    + by intros q x Hq%elem_of_nil.
  - intros op Hop. apply word_ok_check. apply Hops in Hop as [-> | ->]; vm_compute; reflexivity.
Qed.

(** A copy of the two data words of the sample library to another page. *)
Definition copy_space : aspace :=
  mk_aspace (fun x => if in_range 0x60000000 8 x then Some (PROT_READ + PROT_WRITE)
                      else prot_at (sample_space 0x40000000) x)
            (fun x => if in_range 0x60000000 8 x then Some 0
                      else byte_at (sample_space 0x40000000) x).

Lemma sample_copy_ok :
  copy_ok arm (sample_relocations 0x40000000) 0x40000128 0x60000000 8 copy_space sample_rel_list.
Proof.
  assert (section_targets arm (sample_relocations 0x40000000) 0x40000128 8 sample_rel_list
          = [0x40000128]) as Ht by (vm_compute; reflexivity).
  split.
  - split_and!; vm_compute; congruence.
  - split; vm_compute; congruence.
  - left. vm_compute. congruence.
  - apply range_all_true. vm_compute. reflexivity.
  - intros x Hx. apply andb_prop. revert x Hx.
    apply (range_all_true (fun x => can PROT_READ copy_space x && writable copy_space x)).
    vm_compute. reflexivity.
  - left. split_and!; vm_compute; reflexivity.
  - intros x Hx. change (table_bytes _ _) with 16 in Hx.
    change (relocations_ _) with 0x40000118 in Hx. lia.
  - rewrite Ht. intros t ->%list_elem_of_singleton. vm_compute. congruence.
  - rewrite Ht. split; [by intros q x Hq%elem_of_nil|done].
Qed.

(** ** Properties *)



(** Copying a section to another load address.  [CopyAndRelocate] copies
    the section and gives every word that a relative relocation (on MIPS also a
    local entry of the global offset table) has made an address of the library
    the address it has when the section is mapped at [map_addr]; the other bytes
    are copied unchanged and no other memory is written. *)
Theorem CopyAndRelocate_rebases a r src_addr dst_addr map_addr size s rels :
  copy_ok a r src_addr dst_addr size s rels ->
  exists s', CopyAndRelocate a r src_addr dst_addr map_addr size s = Ret tt s' /\
    (forall t, t ∈ section_targets a r src_addr size rels -> exists v,
       load_le (sizeof_Addr a) s t = Some v /\
       load_le (sizeof_Addr a) s' (t + (dst_addr - src_addr))
         = Some (addr a (v + (map_addr - src_addr)))) /\
    (forall i, 0 <= i < size ->
       (forall t, t ∈ section_targets a r src_addr size rels -> ~ in_word a t (src_addr + i)) ->
       byte_at s' (dst_addr + i) = byte_at s (src_addr + i)) /\
    (forall x, ~ dst_addr <= x < dst_addr + size -> byte_at s' x = byte_at s x) /\
    (forall x, prot_at s' x = prot_at s x).
Proof. apply copy_core. Qed.

Lemma CopyAndRelocate_rebases_witness :
  exists s', CopyAndRelocate arm (sample_relocations 0x40000000) 0x40000128 0x60000000 0x70000128 8
               copy_space = Ret tt s' /\
    load_le 4 s' 0x60000000 = Some 0x30000130 /\ byte_at s' 0x60000004 = Some 0.
Proof.
  destruct (CopyAndRelocate_rebases arm (sample_relocations 0x40000000) 0x40000128 0x60000000
    0x70000128 8 copy_space sample_rel_list sample_copy_ok) as (s' & Hs' & Hw & Hb & _).
  assert (section_targets arm (sample_relocations 0x40000000) 0x40000128 8 sample_rel_list
          = [0x40000128]) as Ht by (vm_compute; reflexivity).
  exists s'. split; [exact Hs'|]. split.
  - destruct (Hw 0x40000128) as (v & Hv & Hv'); [rewrite Ht; apply elem_of_cons; by left|].
    assert (load_le 4 copy_space 0x40000128 = Some 0x130) as E by (vm_compute; reflexivity).
    change (load_le 4 copy_space 0x40000128 = Some v) in Hv.
    rewrite E in Hv. injection Hv as <-. exact Hv'.
  - change 0x60000004 with (0x60000000 + 4).
    rewrite (Hb 4); [vm_compute; reflexivity|lia|].
    rewrite Ht. intros t ->%list_elem_of_singleton. unfold in_word. cbn. lia.
Defined.

(** A missing symbol.  [ResolveSymbol] reports a symbol that is neither
    found nor weak, but the loop that calls it only keeps the result as a flag:
    a jump slot or a data reference to the missing symbol is filled with 0 and
    the relocation goes on as if it had succeeded. *)
Theorem missing_symbol_is_null r symbols `{SymbolResolver} rel s :
  let n := ELF_R_SYM arm (r_info rel) in
  n <> 0 -> lookup_id arm symbols n s = Ret 0 s -> IsWeakById arm s symbols n = Some false ->
  ELF_R_TYPE arm (r_info rel) = R_ARM_JUMP_SLOT \/ ELF_R_TYPE arm (r_info rel) = R_ARM_GLOB_DAT ->
  apply_entry arm r symbols false rel s = store_addr arm (addr arm (r_offset rel + r_load_bias_ r)) 0 s.
Proof.
  intros n Hn Hl Hw Ht. unfold apply_entry, lbind at 1.
  rewrite (proj2 (Z.eqb_neq (ELF_R_TYPE arm (r_info rel)) 0)) by (destruct Ht as [-> | ->]; done).
  fold n. rewrite (proj2 (Z.eqb_neq _ _) Hn). cbn [negb].
  unfold ResolveSymbol, lbind. rewrite Hl. cbn [Z.eqb negb]. unfold lread. rewrite Hw. cbn [negb lret].
  unfold ApplyRelReloc. by destruct Ht as [-> | ->].
Qed.

(** A resolver that knows no symbol. *)
Definition no_resolver : SymbolResolver := {| Lookup _ _ := Some 0 |}.

Lemma missing_symbol_is_null_witness :
  apply_entry arm (sample_relocations 0x40000000) (sample_symbols 0x40000000)
    (H := no_resolver) false (mk_Rela 0x12c (2 * 256 + 21) 0) (sample_space 0x40000000)
  = store_addr arm 0x4000012c 0 (sample_space 0x40000000).
Proof.
  apply (missing_symbol_is_null (sample_relocations 0x40000000) (sample_symbols 0x40000000)
    (H := no_resolver) (mk_Rela 0x12c (2 * 256 + 21) 0) (sample_space 0x40000000)).
  - vm_compute. congruence.
  - apply (lookup_id_ok arm (sample_symbols 0x40000000) (H := no_resolver) _ _ (mk_Sym 5 0 0 0x10 0)
      (str "bar")); vm_compute; reflexivity.
  - vm_compute. reflexivity.
  - by right.
Defined.

(** Addends on AArch64.  The addend of a relative relocation is read into
    a 32-bit variable: the word gets the load bias plus the addend exactly when
    the addend fits in 32 bits. *)
Theorem aarch64_relative_addend r rela sym_addr s :
  ELF_R_TYPE aarch64 (r_info rela) = R_AARCH64_RELATIVE -> ELF_R_SYM aarch64 (r_info rela) = 0 ->
  - 2 ^ 63 <= r_addend rela < 2 ^ 63 ->
  exists v, ApplyRelaReloc aarch64 r rela sym_addr s
            = store_addr aarch64 (addr aarch64 (r_offset rela + r_load_bias_ r)) v s /\
    (addr aarch64 v = addr aarch64 (r_load_bias_ r + r_addend rela)
     <-> - 2 ^ 31 <= r_addend rela < 2 ^ 31).
Proof.
  intros Ht Hs Ha. exists (r_load_bias_ r + swrap 32 (r_addend rela)). split.
  { unfold ApplyRelaReloc. by rewrite Ht, Hs. }
  assert (- 2 ^ 31 <= swrap 32 (r_addend rela) < 2 ^ 31) as Hsw.
  { unfold swrap, wrap. change (2 ^ (32 - 1)) with (2 ^ 31).
    pose proof (Z.mod_pos_bound (r_addend rela) (2 ^ 32) ltac:(done)). case_bool; lia. }
  split; [|intros Hr; by rewrite swrap_small].
  unfold addr, wrap. change (kElfBits aarch64) with 64. intros Heq%Z.cong_iff_0.
  replace (r_load_bias_ r + swrap 32 (r_addend rela) - (r_load_bias_ r + r_addend rela))
    with (swrap 32 (r_addend rela) - r_addend rela) in Heq by lia.
  apply Z.mod_divide in Heq as [k Hk]; [|done]. assert (k = 0) as -> by lia. lia.
Qed.

Lemma aarch64_relative_addend_witness :
  exists v, ApplyRelaReloc aarch64 new_ElfRelocations (mk_Rela 0x1000 1027 0x100000000) 0
      (sample_space 0x1000)
    = store_addr aarch64 0x1000 v (sample_space 0x1000) /\ addr aarch64 v <> 0x100000000.
Proof.
  destruct (aarch64_relative_addend new_ElfRelocations (mk_Rela 0x1000 1027 0x100000000) 0
    (sample_space 0x1000)) as (v & Hv & Hiff); [reflexivity|reflexivity|split; vm_compute; congruence|].
  exists v. split; [exact Hv|]. intros E. assert (r_addend (mk_Rela 0x1000 1027 0x100000000) < 2 ^ 31)
    as H by (apply Hiff; exact E). vm_compute in H. discriminate.
Defined.
