(* ===== verification/Util.v ===== *)
(** * Containers of the crazy linker

    Models [crazy_linker_util.cpp] and [crazy_linker_util.h]: the base name of a
    path, and the classes [String], [Vector] and [Set], which the linker uses
    instead of the C++ standard library.  The storage of an object is the list
    of its cells, the unused ones included; memory that [realloc] adds holds
    unspecified values ([junk]).  Allocation is assumed to succeed: the code does
    not test for failure.  The theorems relate the objects to lists and sets. *)

From S2P Require Import Prelude Kernel.
Open Scope Z_scope.

(** ** Characters *)

Definition slash : ascii := "/"%char.
Definition colon : ascii := ":"%char.
Definition comma : ascii := ","%char.
Definition dash : ascii := "-"%char.
Definition space : ascii := " "%char.
Definition tab : ascii := Ascii.ascii_of_nat 9.
Definition newline : ascii := Ascii.ascii_of_nat 10.

Definition isspace (c : ascii) : bool := (zc c =? 32) || ((9 <=? zc c) && (zc c <=? 13)).

Fixpoint skip_while (f : ascii -> bool) (p : cstr) : cstr :=
  match p with
  | c :: p' => if f c then skip_while f p' else p
  | [] => []
  end.

(** The format [%u] for an unsigned integer of 32 bits. *)
Fixpoint decimal_digits (fuel : nat) (v : Z) : cstr :=
  match fuel with
  | O => []
  | S fuel => (if v <? 10 then [] else decimal_digits fuel (v / 10)) ++ [cz (48 + v mod 10)]
  end.

Definition decimal (v : Z) : cstr := decimal_digits 10 (wrap 32 v).

(** ** [GetBaseNamePtr] *)

(** The offset of the last occurrence of a character ([strrchr]). *)
Fixpoint strrchr (s : cstr) (c : ascii) : option nat :=
  match s with
  | [] => None
  | d :: s =>
      match strrchr s c with
      | Some n => Some (S n)
      | None => if bool_decide (d = c) then Some 0%nat else None
      end
  end.

(** The result is a suffix of the path. *)
Definition GetBaseNamePtr (path : cstr) : cstr :=
  match strrchr path slash with
  | None => path
  | Some p => drop (S p) path
  end.

(** ** Characters in strings *)

(** The prefix before the first [c], and what follows it ([memchr]). *)
Fixpoint memchr (c : ascii) (p : cstr) : option (cstr * cstr) :=
  match p with
  | [] => None
  | d :: p =>
      if bool_decide (d = c) then Some ([], p)
      else match memchr c p with
           | Some (before, after) => Some (d :: before, after)
           | None => None
           end
  end.

(** The pieces of a string between separators. *)
Fixpoint split_on (c : ascii) (l : cstr) : list cstr :=
  match l with
  | [] => [[]]
  | d :: l =>
      if bool_decide (d = c) then [] :: split_on c l
      else match split_on c l with
           | h :: t => (d :: h) :: t
           | [] => [[d]]
           end
  end.

(** The last piece is left out when it is empty. *)
Fixpoint trim_last (l : list cstr) : list cstr :=
  match l with
  | [] => []
  | [[]] => []
  | x :: l => x :: trim_last l
  end.

Lemma split_on_nonempty c l : split_on c l <> [].
Proof. destruct l as [|d l]; cbn; [done|]. case_match; [done|]. by destruct (split_on c l). Qed.

Lemma split_on_memchr c l :
  split_on c l = match memchr c l with
                 | Some (before, after) => before :: split_on c after
                 | None => [l]
                 end.
Proof.
  induction l as [|d l IH]; [done|]. cbn. destruct (bool_decide (d = c)); [done|].
  rewrite IH. destruct (memchr c l) as [[before after]|]; done.
Qed.

Lemma memchr_length c l before after :
  memchr c l = Some (before, after) -> (length after < length l)%nat.
Proof.
  revert before. induction l as [|d l IH]; intros before; [done|]. cbn.
  destruct (bool_decide (d = c)); [intros [= _ <-]; lia|].
  destruct (memchr c l) as [[b a]|]; [|done]. intros [= _ <-]. specialize (IH b eq_refl). lia.
Qed.

Lemma memchr_split c before after : c ∉ before -> memchr c (before ++ c :: after) = Some (before, after).
Proof.
  induction before as [|d before IH]; intros Hc; simpl; [by rewrite bool_decide_eq_true_2|].
  apply not_elem_of_cons in Hc as [? ?]. rewrite bool_decide_eq_false_2 by congruence. by rewrite IH.
Qed.

Lemma memchr_Some c l before after :
  memchr c l = Some (before, after) -> l = before ++ c :: after /\ memchr c before = None.
Proof.
  revert before. induction l as [|d l IH]; intros before; [done|]. cbn.
  destruct (bool_decide (d = c)) eqn:E; [apply bool_decide_eq_true in E as ->; by intros [= <- <-]|].
  destruct (memchr c l) as [[b a]|]; [|done]. intros [= <- <-].
  destruct (IH b eq_refl) as [-> Hb]. cbn. by rewrite E, Hb.
Qed.

Lemma memchr_not_elem c l : memchr c l = None <-> c ∉ l.
Proof.
  induction l as [|d l IH]; cbn; [split; [by intros _ ?%not_elem_of_nil|done]|].
  case_bool_decide as E; [subst; split; [done|set_solver]|].
  destruct (memchr c l) as [[]|]; [|set_solver]. split; [done|]. intros Hn. set_solver.
Qed.

Lemma trim_last_cons x l : l <> [] -> trim_last (x :: l) = x :: trim_last l.
Proof. destruct l; [done|]. by destruct x. Qed.

Lemma split_on_app c l e : split_on c (l ++ c :: e) = split_on c l ++ split_on c e.
Proof.
  induction l as [|d l IH]; cbn.
  - by rewrite bool_decide_eq_true_2.
  - destruct (bool_decide (d = c)); [by rewrite IH|]. rewrite IH.
    destruct (split_on c l) eqn:E; [by apply split_on_nonempty in E|done].
Qed.

Lemma trim_last_app l e : e <> [] -> trim_last (l ++ e) = l ++ trim_last e.
Proof.
  intros He. induction l as [|x l IH]; [done|]. cbn [app]. rewrite trim_last_cons, IH; [done|].
  by destruct l, e.
Qed.

(** Copies inside a list of cells: [memmove(l + d, l + s, k)] and
    [memcpy(l + d, src, length src)]. *)
Definition memmove {T} (l : list T) (d s k : nat) : list T :=
  take d l ++ take k (drop s l) ++ drop (d + k) l.

Definition write_at {T} (l : list T) (d : nat) (src : list T) : list T :=
  take d l ++ src ++ drop (d + length src) l.

(** [realloc] of a list of cells to [n] cells. *)
Definition realloc {T} (junk : T) (l : list T) (n : nat) : list T :=
  take n l ++ repeat junk (n - length l).

(** ** [String] *)

Module Str.

Definition nul : ascii := Ascii.zero.

(** [ptr_] is [None] when it points to the shared empty string [kEmpty]. *)
Record String := mk_String {
  ptr_ : option (list ascii);
  size_ : nat;
  capacity_ : nat;
}.

Definition Init : String := mk_String None 0 0.

Section Ops.
Context (junk : ascii).

Definition Reserve (new_capacity : nat) (s : String) : String :=
  let old := default [] (ptr_ s) in
  let p := write_at (realloc junk old (new_capacity + 1)) new_capacity [nul] in
  mk_String (Some p) (Nat.min (size_ s) new_capacity) new_capacity.

(** The loop of [String::Resize] that computes the new capacity. *)
Fixpoint grow (fuel new_capacity new_size : nat) : nat :=
  match fuel with
  | O => new_capacity
  | S fuel =>
      if (new_capacity <? new_size)%nat
      then grow fuel (new_capacity + (new_capacity / 2 + 16)) new_size
      else new_capacity
  end.

Definition Resize (new_size : nat) (s : String) : String :=
  let s := if (capacity_ s <? new_size)%nat
           then Reserve (grow new_size (capacity_ s) new_size) s else s in
  let p := if (size_ s <? new_size)%nat
           then (fun l => write_at l (size_ s) (repeat nul (new_size - size_ s))) <$> ptr_ s
           else ptr_ s in
  mk_String ((fun l => write_at l new_size [nul]) <$> p) new_size (capacity_ s).

Definition Assign (str : cstr) (s : String) : String :=
  let len := length str in
  let s := Resize len s in
  if (0 <? len)%nat
  then mk_String ((fun l => write_at (write_at l 0 str) len [nul]) <$> ptr_ s) len (capacity_ s)
  else s.

Definition Append (str : cstr) (s : String) : String :=
  let len := length str in
  if (0 <? len)%nat
  then
    let old_size := size_ s in
    let s := Resize (old_size + len) s in
    mk_String ((fun l => write_at l old_size str) <$> ptr_ s) (size_ s) (capacity_ s)
  else s.

(** The characters up to the first NUL, as a caller of [c_str] sees them. *)
Fixpoint until_nul (l : list ascii) : cstr :=
  match l with
  | [] => []
  | c :: l => if bool_decide (c = nul) then [] else c :: until_nul l
  end.

Definition c_str (s : String) : cstr := until_nul (default [nul] (ptr_ s)).

Definition IsEmpty (s : String) : bool := (size_ s =? 0)%nat.

End Ops.

(** The string an object stands for. *)
Definition value (s : String) : cstr := take (size_ s) (default [] (ptr_ s)).

(** The invariant of the class: the buffer has one cell more than the capacity,
    and a NUL follows the characters. *)
Definition wf (s : String) : Prop :=
  match ptr_ s with
  | None => size_ s = 0%nat /\ capacity_ s = 0%nat
  | Some l => length l = S (capacity_ s) /\ (size_ s <= capacity_ s)%nat /\
              l !! size_ s = Some nul
  end.

End Str.

(** ** [Vector] *)

Module Vec.

Record Vector (T : Type) := mk_Vector {
  items_ : list T;
  count_ : nat;
  capacity_ : nat;
}.
Arguments mk_Vector {T}.
Arguments items_ {T}.
Arguments count_ {T}.
Arguments capacity_ {T}.

Section Ops.
Context {T : Type} `{EqDecision T} (junk zero : T).

Definition new : Vector T := mk_Vector [] 0 0.

Definition Reserve (new_capacity : nat) (v : Vector T) : Vector T :=
  mk_Vector (realloc junk (items_ v) new_capacity) (Nat.min (count_ v) new_capacity) new_capacity.

Definition Resize (new_size : nat) (v : Vector T) : Vector T :=
  let v := if (capacity_ v <? new_size)%nat then Reserve new_size v else v in
  let l := if (count_ v <? new_size)%nat
           then write_at (items_ v) (count_ v) (repeat zero (new_size - count_ v)) else items_ v in
  mk_Vector l new_size (capacity_ v).

(** The loop of [Vector::IndexOf] over the cells from [n]. *)
Fixpoint index_of (item : T) (k n : nat) (l : list T) : Z :=
  match k, l with
  | S k, x :: l => if bool_decide (x = item) then Z.of_nat n else index_of item k (S n) l
  | _, _ => -1
  end.

Definition IndexOf (item : T) (v : Vector T) : Z := index_of item (count_ v) 0 (items_ v).

Definition Has (item : T) (v : Vector T) : bool := 0 <=? IndexOf item v.

Definition InsertAt (index : Z) (item : T) (v : Vector T) : Vector T :=
  let v := if (capacity_ v <=? count_ v)%nat
           then Reserve (capacity_ v + capacity_ v / 2 + 4) v else v in
  let n := Z.to_nat (Z.max 0 index) in
  let '(n, l) := if (count_ v <? n)%nat then (count_ v, items_ v)
                 else (n, memmove (items_ v) (n + 1) n (count_ v - n)) in
  mk_Vector (<[n := item]> l) (S (count_ v)) (capacity_ v).

Definition RemoveAt (index : Z) (v : Vector T) : Vector T :=
  if index <? 0 then v
  else
    let n := Z.to_nat index in
    if (count_ v <=? n)%nat then v
    else mk_Vector (memmove (items_ v) n (n + 1) (count_ v - n - 1)) (count_ v - 1) (capacity_ v).

Definition PushBack (item : T) (v : Vector T) : Vector T := InsertAt (Z.of_nat (count_ v)) item v.

Definition PopFirst (v : Vector T) : option T * Vector T := (items_ v !! 0%nat, RemoveAt 0 v).

Definition PopLast (v : Vector T) : option T * Vector T :=
  (items_ v !! (count_ v - 1)%nat, Resize (count_ v - 1) v).

Definition Remove (item : T) (v : Vector T) : Vector T :=
  let index := IndexOf item v in if 0 <=? index then RemoveAt index v else v.

End Ops.

(** The list an object stands for, and the invariant of the class. *)
Definition value {T} (v : Vector T) : list T := take (count_ v) (items_ v).

Definition wf {T} (v : Vector T) : Prop :=
  length (items_ v) = capacity_ v /\ (count_ v <= capacity_ v)%nat.

End Vec.

(** ** [Set] *)

Module CrazySet.

Section Ops.
Context {T : Type} `{EqDecision T} (junk : T).

Definition Add (item : T) (s : Vec.Vector T) : bool * Vec.Vector T :=
  if 0 <=? Vec.IndexOf item s then (false, s) else (true, Vec.PushBack junk item s).

Definition Del (item : T) (s : Vec.Vector T) : bool * Vec.Vector T :=
  let idx := Vec.IndexOf item s in
  if idx <? 0 then (false, s) else (true, Vec.RemoveAt idx s).

End Ops.

End CrazySet.

(** ** Lemmas on cells *)

#[local] Arguments write_at : simpl never.
#[local] Arguments memmove : simpl never.
#[local] Arguments realloc : simpl never.
#[local] Arguments Nat.ltb : simpl never.
#[local] Arguments Nat.leb : simpl never.

Lemma length_write_at {T} (l : list T) d src :
  (d + length src <= length l)%nat -> length (write_at l d src) = length l.
Proof. intros H. unfold write_at. rewrite !length_app, length_take, length_drop. lia. Qed.

Lemma take_write_at {T} (l : list T) d src n :
  (d + length src <= length l)%nat -> (n <= d)%nat -> take n (write_at l d src) = take n l.
Proof.
  intros H Hn. unfold write_at. rewrite take_app_le by (rewrite length_take; lia).
  rewrite take_take. f_equal. lia.
Qed.

Lemma take_write_at_end {T} (l : list T) d src :
  (d + length src <= length l)%nat -> take (d + length src) (write_at l d src) = take d l ++ src.
Proof.
  intros H. unfold write_at. rewrite app_assoc. rewrite take_app_length'; [done|].
  rewrite length_app, length_take. lia.
Qed.

Lemma lookup_write_at_one {T} (l : list T) d x :
  (d < length l)%nat -> write_at l d [x] !! d = Some x.
Proof.
  intros H. unfold write_at. rewrite lookup_app_r by (rewrite length_take; lia).
  rewrite length_take. replace (d - d `min` length l)%nat with 0%nat by lia. done.
Qed.

Lemma length_realloc {T} (junk : T) l n : length (realloc junk l n) = n.
Proof. unfold realloc. rewrite length_app, length_take, repeat_length. lia. Qed.

Lemma take_realloc {T} (junk : T) l n k :
  (k <= n)%nat -> (k <= length l)%nat -> take k (realloc junk l n) = take k l.
Proof.
  intros H1 H2. unfold realloc. rewrite take_app_le by (rewrite length_take; lia).
  rewrite take_take. f_equal. lia.
Qed.

Lemma length_memmove {T} (l : list T) d s k :
  (d + k <= length l)%nat -> (s + k <= length l)%nat -> length (memmove l d s k) = length l.
Proof.
  intros H1 H2. unfold memmove. rewrite !length_app, !length_take, !length_drop. lia.
Qed.

(** ** [String] as a list of characters *)

Module StrFacts.
Import Str.

Section Facts.
Context (junk : ascii).

(** What holds of an object between two operations of the class, except that the
    NUL may be missing. *)
Definition sized (s : String) : Prop :=
  match ptr_ s with
  | None => size_ s = 0%nat /\ capacity_ s = 0%nat
  | Some l => length l = S (capacity_ s) /\ (size_ s <= capacity_ s)%nat
  end.

Lemma wf_sized s : wf s -> sized s.
Proof. unfold wf, sized. destruct (ptr_ s); [|done]. by intros (? & ? & _). Qed.

Lemma grow_ge fuel c n : (n <= c + fuel)%nat -> (n <= grow fuel c n)%nat.
Proof.
  revert c. induction fuel as [|fuel IH]; intros c H; [cbn; lia|]. cbn [grow].
  destruct (c <? n)%nat eqn:E; [|apply Nat.ltb_ge in E; lia]. apply IH. lia.
Qed.

Lemma str_reserve_spec c s :
  sized s -> (size_ s <= c)%nat ->
  exists l, Reserve junk c s = mk_String (Some l) (size_ s) c /\ length l = S c /\
    take (size_ s) l = value s.
Proof.
  intros Hs Hc. unfold Reserve. rewrite Nat.min_l by done.
  set (old := default [] (ptr_ s)). eexists. split; [done|].
  assert (size_ s <= length old)%nat as Hold.
  { unfold old, sized in *. destruct (ptr_ s); cbn; lia. }
  split.
  - rewrite length_write_at; rewrite length_realloc; cbn; lia.
  - rewrite take_write_at; [|rewrite length_realloc; cbn; lia|done].
    rewrite take_realloc by lia. done.
Qed.

Lemma str_value_length s : sized s -> length (value s) = size_ s.
Proof.
  intros Hs. unfold value. rewrite length_take. unfold sized in Hs.
  destruct (ptr_ s); cbn in *; lia.
Qed.

Lemma str_resize_spec n s :
  sized s -> wf (Resize junk n s) /\ size_ (Resize junk n s) = n /\
  value (Resize junk n s) = take n (value s) ++ repeat nul (n - size_ s).
Proof.
  intros Hs. unfold Resize.
  set (s1 := if (capacity_ s <? n)%nat then _ else s).
  assert (sized s1 /\ size_ s1 = size_ s /\ value s1 = value s /\ (n <= capacity_ s1)%nat)
    as (H1 & Hz & Hv & Hc).
  { unfold s1. destruct (capacity_ s <? n)%nat eqn:E.
    - apply Nat.ltb_lt in E. pose proof (grow_ge n (capacity_ s) n ltac:(lia)) as Hg.
      destruct (str_reserve_spec (grow n (capacity_ s) n) s Hs) as (l & -> & Hl & Ht).
      { unfold sized in Hs. destruct (ptr_ s); lia. }
      split_and!; [|done|done|done]. split; [done|].
      unfold sized in Hs. cbn. destruct (ptr_ s); lia.
    - apply Nat.ltb_ge in E. done. }
  clearbody s1. pose proof (str_value_length s1 H1) as Hlen. rewrite <-Hv, <-Hz. clear Hv Hz Hs s.
  unfold sized in H1. destruct s1 as [[l|] z c]; cbn in *.
  2: { destruct H1 as [-> ->]. assert (n = 0%nat) as -> by lia. done. }
  destruct H1 as [Hl Hzc]. unfold value in *. cbn in *.
  destruct (z <? n)%nat eqn:E; [apply Nat.ltb_lt in E|apply Nat.ltb_ge in E].
  - assert (length (write_at l z (repeat nul (n - z))) = length l) as Hlw
      by (apply length_write_at; rewrite repeat_length; lia).
    split; [|split; [done|]]; unfold wf; cbn.
    + split_and!; [rewrite length_write_at; cbn; lia|lia|]. apply lookup_write_at_one. lia.
    + rewrite take_write_at by (cbn; lia).
      pose proof (take_write_at_end l z (repeat nul (n - z))) as Ht. rewrite repeat_length in Ht.
      replace (z + (n - z))%nat with n in Ht by lia. rewrite Ht by lia. f_equal.
      rewrite take_take. f_equal. lia.
  - split; [|split; [done|]]; unfold wf; cbn.
    + split_and!; [rewrite length_write_at; cbn; lia|lia|]. apply lookup_write_at_one. lia.
    + rewrite take_write_at by (cbn; lia). replace (n - z)%nat with 0%nat by lia.
      cbn. rewrite app_nil_r, take_take. f_equal. lia.
Qed.

Lemma assign_spec str s :
  sized s -> wf (Assign junk str s) /\ value (Assign junk str s) = str.
Proof.
  intros Hs. destruct (str_resize_spec (length str) s Hs) as (Hw & Hz & Hv). unfold Assign.
  destruct (0 <? length str)%nat eqn:E; [apply Nat.ltb_lt in E|apply Nat.ltb_ge in E].
  2: { split; [done|]. rewrite Hv. destruct str; [|cbn in E; lia]. by rewrite take_0. }
  unfold wf, value in *. rewrite Hz in *.
  destruct (Resize junk (length str) s) as [[l|] z c]; cbn in *; [|lia].
  destruct Hw as (Hl & Hzc & _). subst z.
  assert (length (write_at l 0 str) = length l) as Hlw by (apply length_write_at; lia).
  split_and!; [rewrite length_write_at; cbn; lia|done|apply lookup_write_at_one; lia|].
  rewrite take_write_at by (cbn; lia). pose proof (take_write_at_end l 0 str) as Ht.
  cbn in Ht. rewrite Ht by lia. by rewrite take_0.
Qed.

Lemma append_spec str s :
  wf s -> wf (Append junk str s) /\ value (Append junk str s) = value s ++ str.
Proof.
  intros Hs. pose proof (wf_sized s Hs) as Hsz. unfold Append.
  destruct (0 <? length str)%nat eqn:E; [apply Nat.ltb_lt in E|apply Nat.ltb_ge in E].
  2: { split; [done|]. destruct str; [|cbn in E; lia]. by rewrite app_nil_r. }
  destruct (str_resize_spec (size_ s + length str) s Hsz) as (Hw & Hz & Hv).
  pose proof (str_value_length s Hsz) as Hlen.
  unfold wf in Hw |- *. unfold value in Hv at 1. unfold value at 1.
  destruct (Resize junk (size_ s + length str) s) as [[l|] z c]; cbn in *; [|lia].
  subst z. destruct Hw as (Hl & Hzc & Hnul).
  assert (length (write_at l (size_ s) str) = length l) as Hlw by (apply length_write_at; lia).
  split_and!; [lia|done| |].
  - unfold write_at. rewrite lookup_app_r by (rewrite length_take; lia).
    rewrite length_take, lookup_app_r by lia. rewrite lookup_drop, <-Hnul. f_equal. lia.
  - rewrite take_write_at_end by lia. f_equal.
    apply (f_equal (take (size_ s))) in Hv. rewrite take_take in Hv.
    rewrite Nat.min_l in Hv by lia. rewrite Hv, take_app_le by (rewrite length_take; lia).
    rewrite take_take, Nat.min_l by lia. rewrite <-Hlen. apply take_ge. lia.
Qed.

(** What [c_str] shows is the value, when it has no NUL inside. *)
Lemma until_nul_take l n :
  l !! n = Some nul -> Forall (fun c => c <> nul) (take n l) -> until_nul l = take n l.
Proof.
  revert n. induction l as [|c l IH]; intros n Hn Hf; [done|]. destruct n as [|n]; cbn in *.
  - simplify_eq. done.
  - apply Forall_cons_1 in Hf as [Hc Hf]. rewrite bool_decide_eq_false_2 by done. f_equal. by apply IH.
Qed.

Lemma c_str_spec s : wf s -> Forall (fun c => c <> nul) (value s) -> c_str s = value s.
Proof.
  unfold wf, value, c_str. destruct (ptr_ s) as [l|]; cbn.
  - intros (_ & _ & Hn) Hf. by apply until_nul_take.
  - intros [-> _] _. done.
Qed.

End Facts.

End StrFacts.

(** ** [Vector] as a list *)

Module VecFacts.
Import Vec.

Section Facts.
Context {T : Type} `{EqDecision T} (junk zero : T).
Implicit Type v : Vector T.

Lemma vec_value_length v : wf v -> length (value v) = count_ v.
Proof. intros [H1 H2]. unfold value. rewrite length_take. lia. Qed.

Lemma vec_reserve_spec c v :
  wf v -> (count_ v <= c)%nat ->
  wf (Reserve junk c v) /\ value (Reserve junk c v) = value v /\
  count_ (Reserve junk c v) = count_ v /\ capacity_ (Reserve junk c v) = c.
Proof.
  intros [H1 H2] Hc. unfold Reserve, wf, value. cbn. rewrite length_realloc, Nat.min_l by done.
  rewrite take_realloc by lia. done.
Qed.

Lemma insert_at_spec i x v :
  wf v ->
  let n := Nat.min (Z.to_nat (Z.max 0 i)) (count_ v) in
  wf (InsertAt junk i x v) /\
  value (InsertAt junk i x v) = take n (value v) ++ x :: drop n (value v).
Proof.
  intros Hwf n0. unfold InsertAt.
  set (v1 := if (capacity_ v <=? count_ v)%nat then _ else v).
  assert (wf v1 /\ value v1 = value v /\ count_ v1 = count_ v /\ (count_ v1 < capacity_ v1)%nat)
    as (H1 & Hv & Hc & Hlt).
  { unfold v1. destruct (capacity_ v <=? count_ v)%nat eqn:E;
      [apply Nat.leb_le in E|apply Nat.leb_gt in E; done].
    destruct (vec_reserve_spec (capacity_ v + capacity_ v / 2 + 4) v Hwf) as (? & ? & ? & ?);
      [destruct Hwf; lia|]. split_and!; try done. destruct Hwf. lia. }
  clearbody v1. unfold n0. clear n0. rewrite <-Hv, <-Hc. clear Hv Hc Hwf v.
  destruct v1 as [l count cap], H1 as [Hl Hcap]. unfold wf, value in *. cbn in *.
  set (n := Z.to_nat (Z.max 0 i)).
  destruct (count <? n)%nat eqn:E; [apply Nat.ltb_lt in E|apply Nat.ltb_ge in E]; cbn.
  - rewrite Nat.min_r by lia. split; [rewrite length_insert; lia|].
    rewrite insert_take_drop by lia. rewrite (drop_ge (take count l)) by (rewrite length_take; lia).
    rewrite (take_take l count count), Nat.min_id.
    replace (S count) with (count + 1)%nat at 1 by lia.
    by rewrite take_app_add' by (rewrite length_take; lia).
  - rewrite Nat.min_l by lia.
    assert (length (memmove l (n + 1) n (count - n)) = length l) as Hm by (apply length_memmove; lia).
    split; [rewrite length_insert; lia|].
    rewrite insert_take_drop by lia. unfold memmove.
    rewrite (take_app_le (take (n + 1) l)) by (rewrite length_take; lia).
    rewrite (take_take l n (n + 1)), Nat.min_l by lia.
    rewrite drop_app_length' by (rewrite length_take; lia).
    rewrite (take_take l n count), Nat.min_l by lia. rewrite skipn_firstn_comm.
    replace (S count) with (n + S (count - n))%nat by lia.
    rewrite take_app_add' by (rewrite length_take; lia). cbn. f_equal. f_equal.
    rewrite take_app_le, take_take by (rewrite length_take, length_drop; lia). f_equal. lia.
Qed.

Lemma remove_at_spec i v :
  wf v -> wf (RemoveAt i v) /\
  value (RemoveAt i v) = if i <? 0 then value v else delete (Z.to_nat i) (value v).
Proof.
  intros Hwf. pose proof (vec_value_length v Hwf) as Hlen. unfold RemoveAt.
  destruct (i <? 0) eqn:E0; [done|]. bool_to_prop. set (n := Z.to_nat i).
  destruct (count_ v <=? n)%nat eqn:E; [apply Nat.leb_le in E|apply Nat.leb_gt in E].
  { split; [done|]. rewrite delete_take_drop, take_ge, drop_ge by lia. by rewrite app_nil_r. }
  destruct v as [l count cap], Hwf as [Hl Hcap]. unfold wf, value in *. cbn in *. split.
  - rewrite length_memmove by lia. lia.
  - rewrite delete_take_drop, take_take, Nat.min_l by lia. unfold memmove.
    replace (count - 1)%nat with (n + (count - n - 1))%nat at 1 by lia.
    rewrite take_app_add' by (rewrite length_take; lia). f_equal.
    rewrite take_app_le by (rewrite length_take, length_drop; lia).
    rewrite take_take, Nat.min_id, skipn_firstn_comm. f_equal; [lia|]. f_equal. lia.
Qed.

Lemma vec_resize_spec n v :
  wf v -> wf (Resize junk zero n v) /\
  value (Resize junk zero n v) = take n (value v) ++ repeat zero (n - count_ v).
Proof.
  intros Hwf. unfold Resize.
  set (v1 := if (capacity_ v <? n)%nat then _ else v).
  assert (wf v1 /\ value v1 = value v /\ count_ v1 = count_ v /\ (n <= capacity_ v1)%nat)
    as (H1 & Hv & Hc & Hlt).
  { unfold v1. destruct (capacity_ v <? n)%nat eqn:E; [apply Nat.ltb_lt in E|apply Nat.ltb_ge in E; done].
    destruct (vec_reserve_spec n v Hwf) as (? & ? & ? & ?); [destruct Hwf; lia|].
    split_and!; done || lia. }
  clearbody v1. rewrite <-Hv, <-Hc. clear Hv Hc Hwf v.
  destruct v1 as [l count cap], H1 as [Hl Hcap]. unfold wf, value in *. cbn in *.
  destruct (count <? n)%nat eqn:E; [apply Nat.ltb_lt in E|apply Nat.ltb_ge in E].
  - split; [rewrite length_write_at; rewrite ?repeat_length; lia|].
    pose proof (take_write_at_end l count (repeat zero (n - count))) as Ht.
    rewrite repeat_length in Ht. replace (count + (n - count))%nat with n in Ht by lia.
    rewrite Ht by lia. rewrite take_take, Nat.min_r by lia. done.
  - split; [lia|]. replace (n - count)%nat with 0%nat by lia. cbn.
    rewrite app_nil_r, take_take, Nat.min_l by lia. done.
Qed.

Lemma index_of_spec (item : T) k n l :
  match index_of item k n l with
  | Zneg _ => item ∉ take k l
  | z => exists j, z = Z.of_nat (n + j) /\ take k l !! j = Some item /\
                   forall j', (j' < j)%nat -> take k l !! j' <> Some item
  end.
Proof.
  revert n l. induction k as [|k IH]; intros n [|x l]; cbn [index_of take]; try apply not_elem_of_nil.
  destruct (bool_decide (x = item)) eqn:E.
  - apply bool_decide_eq_true in E as ->.
    assert (exists j, Z.of_nat n = Z.of_nat (n + j) /\ (item :: take k l) !! j = Some item /\
      forall j', (j' < j)%nat -> (item :: take k l) !! j' <> Some item) as H.
    { exists 0%nat. split_and!; [f_equal; lia|done|intros; lia]. }
    destruct (Z.of_nat n) eqn:Ez; [done|done|lia].
  - apply bool_decide_eq_false in E. specialize (IH (S n) l).
    assert (forall z, (exists j, z = Z.of_nat (S n + j) /\ take k l !! j = Some item /\
      forall j', (j' < j)%nat -> take k l !! j' <> Some item) ->
      exists j, z = Z.of_nat (n + j) /\ (x :: take k l) !! j = Some item /\
      forall j', (j' < j)%nat -> (x :: take k l) !! j' <> Some item) as Hshift.
    { intros z (j & -> & Hj & Hmin). exists (S j). split_and!; [f_equal; lia|done|].
      intros [|j'] Hlt; cbn; [congruence|]. apply Hmin. lia. }
    destruct (index_of item k (S n) l); [by apply Hshift|by apply Hshift|].
    rewrite not_elem_of_cons. split; [congruence|done].
Qed.

(** [IndexOf] is the first index of the item, or negative. *)
Lemma IndexOf_spec (item : T) v :
  (IndexOf item v < 0 /\ item ∉ value v) \/
  (exists j, IndexOf item v = Z.of_nat j /\ value v !! j = Some item /\
     forall j', (j' < j)%nat -> value v !! j' <> Some item).
Proof.
  pose proof (index_of_spec item (count_ v) 0 (items_ v)) as H. fold (IndexOf item v) in H.
  destruct (IndexOf item v); [right..|left; split; [lia|done]]; by destruct H as (j & ? & ?); exists j.
Qed.

Lemma push_back_spec item v :
  wf v -> wf (PushBack junk item v) /\ value (PushBack junk item v) = value v ++ [item].
Proof.
  intros Hwf. destruct (insert_at_spec (Z.of_nat (count_ v)) item v Hwf) as [H1 H2].
  split; [done|]. unfold PushBack. rewrite H2, Z.max_r, Nat2Z.id, Nat.min_id by lia.
  rewrite <-(vec_value_length v Hwf), take_ge, drop_ge by lia. done.
Qed.

End Facts.

End VecFacts.

(** ** [Set] as a set *)

Module SetFacts.
Import Vec CrazySet.

Section Facts.
Context {T : Type} `{EqDecision T} (junk : T).

(** The representation: a well-formed vector without duplicates. *)
Definition set_wf (s : Vector T) : Prop := wf s /\ NoDup (value s).

Lemma has_spec (x : T) s : Has x s = true <-> x ∈ value s.
Proof.
  unfold Has. destruct (VecFacts.IndexOf_spec x s) as [[Hn Hx]|(j & Hj & Hx & _)].
  - rewrite Z.leb_le. split; [lia|done].
  - rewrite Z.leb_le, Hj. split; [|lia]. intros _. by eapply list_elem_of_lookup_2.
Qed.

Lemma add_spec x s :
  set_wf s ->
  let '(added, s') := Add junk x s in
  set_wf s' /\ (added = true <-> x ∉ value s) /\ (forall y, y ∈ value s' <-> y = x \/ y ∈ value s).
Proof.
  intros [Hwf Hnd]. unfold Add. destruct (VecFacts.IndexOf_spec x s) as [[Hn Hx]|(j & Hj & Hx & _)].
  - rewrite (proj2 (Z.leb_gt _ _)) by lia.
    destruct (VecFacts.push_back_spec junk x s Hwf) as [Hw' Hv']. split_and!.
    + split; [done|]. rewrite Hv'. apply list.NoDup_app. split_and!; [done| |apply NoDup_singleton].
      by intros y Hy ->%list_elem_of_singleton.
    + done.
    + intros y. rewrite Hv', elem_of_app, list_elem_of_singleton. tauto.
  - rewrite (proj2 (Z.leb_le _ _)) by lia. apply list_elem_of_lookup_2 in Hx. split_and!.
    + done.
    + split; [done|]. intros Hnx. by destruct Hnx.
    + intros y. split; [by right|intros [->|?]; done].
Qed.

Lemma del_spec (x : T) s :
  set_wf s ->
  let '(deleted, s') := Del x s in
  set_wf s' /\ (deleted = true <-> x ∈ value s) /\ (forall y, y ∈ value s' <-> y <> x /\ y ∈ value s).
Proof.
  intros [Hwf Hnd]. unfold Del. destruct (VecFacts.IndexOf_spec x s) as [[Hn Hx]|(j & Hj & Hx & _)].
  - rewrite (proj2 (Z.ltb_lt _ _)) by lia. split_and!; [done|split; [done|by intros]|].
    intros y. split; [|tauto]. intros Hy. split; [by intros ->|done].
  - rewrite (proj2 (Z.ltb_ge _ _)) by lia.
    destruct (VecFacts.remove_at_spec (IndexOf x s) s Hwf) as [Hw' Hv'].
    rewrite (proj2 (Z.ltb_ge _ _)), Hj, Nat2Z.id in Hv' by lia. rewrite Hj in *.
    pose proof (delete_take_drop (value s) j) as Hd.
    assert (value s = take j (value s) ++ x :: drop (S j) (value s)) as Hs
      by (by rewrite take_drop_middle).
    assert (NoDup (take j (value s) ++ drop (S j) (value s)) /\ x ∉ take j (value s) ++ drop (S j) (value s))
      as [Hnd' Hnx].
    { rewrite Hs in Hnd. apply list.NoDup_app in Hnd as (N1 & N2 & N3). apply list.NoDup_cons in N3 as [N3 N4].
      split.
      - apply list.NoDup_app. split_and!; [done| |done]. intros y Hy Hy'. apply (N2 y Hy). list_in.
      - rewrite elem_of_app. intros [Hy|Hy]; [|done]. apply (N2 x Hy). list_in. }
    split_and!.
    + split; [done|]. by rewrite Hv', Hd.
    + split; intros _; [by eapply list_elem_of_lookup_2|done].
    + intros y. rewrite Hv', Hd. rewrite Hs at 3. rewrite !elem_of_app, elem_of_cons. split.
      * intros Hy. split; [intros ->; apply Hnx; by rewrite elem_of_app|tauto].
      * intros [Hne [?|[?|?]]]; tauto.
Qed.

End Facts.

End SetFacts.

(** ** Sequences of operations *)

Inductive string_op :=
| SAssign (str : cstr)
| SAppend (str : cstr)
| SResize (n : nat).

Definition run_string_op (junk : ascii) (s : Str.String) (op : string_op) : Str.String :=
  match op with
  | SAssign str => Str.Assign junk str s
  | SAppend str => Str.Append junk str s
  | SResize n => Str.Resize junk n s
  end.

(** The same operations on a list of characters. *)
Definition spec_string_op (l : cstr) (op : string_op) : cstr :=
  match op with
  | SAssign str => str
  | SAppend str => l ++ str
  | SResize n => take n l ++ repeat Str.nul (n - length l)
  end.

Inductive vector_op (T : Type) :=
| VInsertAt (index : Z) (item : T)
| VRemoveAt (index : Z)
| VPushBack (item : T)
| VRemove (item : T)
| VResize (n : nat).
Arguments VInsertAt {T}.
Arguments VRemoveAt {T}.
Arguments VPushBack {T}.
Arguments VRemove {T}.
Arguments VResize {T}.

Section VectorOps.
Context {T : Type} `{EqDecision T} (junk zero : T).

Definition run_vector_op (v : Vec.Vector T) (op : vector_op T) : Vec.Vector T :=
  match op with
  | VInsertAt i x => Vec.InsertAt junk i x v
  | VRemoveAt i => Vec.RemoveAt i v
  | VPushBack x => Vec.PushBack junk x v
  | VRemove x => Vec.Remove x v
  | VResize n => Vec.Resize junk zero n v
  end.

(** Deletion of the first occurrence of an item. *)
Fixpoint remove_first (x : T) (l : list T) : list T :=
  match l with
  | [] => []
  | y :: l => if decide (y = x) then l else y :: remove_first x l
  end.

Definition spec_vector_op (l : list T) (op : vector_op T) : list T :=
  match op with
  | VInsertAt i x => let n := Nat.min (Z.to_nat (Z.max 0 i)) (length l) in take n l ++ x :: drop n l
  | VRemoveAt i => if i <? 0 then l else delete (Z.to_nat i) l
  | VPushBack x => l ++ [x]
  | VRemove x => remove_first x l
  | VResize n => take n l ++ repeat zero (n - length l)
  end.

Lemma remove_first_delete x l j :
  l !! j = Some x -> (forall j', (j' < j)%nat -> l !! j' <> Some x) -> delete j l = remove_first x l.
Proof.
  revert j. induction l as [|y l IH]; intros j Hj Hmin; [done|]. cbn [remove_first].
  destruct j as [|j]; cbn in Hj |- *.
  - simplify_eq. by rewrite decide_True.
  - rewrite decide_False.
    + f_equal. apply IH; [done|]. intros j' Hlt. apply (Hmin (S j')). lia.
    + intros ->. apply (Hmin 0%nat); [lia|done].
Qed.

Lemma remove_first_id x l : x ∉ l -> remove_first x l = l.
Proof.
  induction l as [|y l IH]; [done|]. rewrite not_elem_of_cons. intros [Hne Hx]. cbn.
  rewrite decide_False by congruence. f_equal. auto.
Qed.

Lemma vector_op_refines op v :
  Vec.wf v -> Vec.wf (run_vector_op v op) /\
  Vec.value (run_vector_op v op) = spec_vector_op (Vec.value v) op.
Proof.
  intros Hwf. pose proof (VecFacts.vec_value_length v Hwf) as Hlen.
  destruct op as [i x|i|x|x|n]; cbn; rewrite ?Hlen.
  - by apply VecFacts.insert_at_spec.
  - by apply VecFacts.remove_at_spec.
  - by apply VecFacts.push_back_spec.
  - unfold Vec.Remove. destruct (VecFacts.IndexOf_spec x v) as [[Hn Hx]|(j & Hj & Hx & Hmin)].
    + rewrite (proj2 (Z.leb_gt _ _)) by lia. by rewrite remove_first_id.
    + rewrite (proj2 (Z.leb_le _ _)) by lia. rewrite Hj.
      destruct (VecFacts.remove_at_spec (Z.of_nat j) v Hwf) as [H1 H2]. split; [done|].
      rewrite H2, (proj2 (Z.ltb_ge _ _)), Nat2Z.id by lia. by apply remove_first_delete.
  - by apply VecFacts.vec_resize_spec.
Qed.

End VectorOps.

Inductive set_op (T : Type) :=
| SetAdd (item : T)
| SetDel (item : T).
Arguments SetAdd {T}.
Arguments SetDel {T}.

Section SetOps.
Context {T : Type} `{Countable T} (junk : T).

Definition run_set_op (st : list bool * Vec.Vector T) (op : set_op T) : list bool * Vec.Vector T :=
  let '(r, s) := match op with
                 | SetAdd x => CrazySet.Add junk x st.2
                 | SetDel x => CrazySet.Del x st.2
                 end in (st.1 ++ [r], s).

Definition spec_set_op (st : list bool * gset T) (op : set_op T) : list bool * gset T :=
  match op with
  | SetAdd x => (st.1 ++ [bool_decide (x ∉ st.2)], {[x]} ∪ st.2)
  | SetDel x => (st.1 ++ [bool_decide (x ∈ st.2)], st.2 ∖ {[x]})
  end.

(** The vector represents the set. *)
Definition represents (s : Vec.Vector T) (S : gset T) : Prop :=
  SetFacts.set_wf s /\ forall x, x ∈ Vec.value s <-> x ∈ S.

Lemma set_op_refines op rs s S :
  represents s S ->
  (run_set_op (rs, s) op).1 = (spec_set_op (rs, S) op).1 /\
  represents (run_set_op (rs, s) op).2 (spec_set_op (rs, S) op).2.
Proof.
  intros [Hwf HS]. unfold run_set_op, spec_set_op. cbn [fst snd]. destruct op as [x|x]; cbn [fst snd].
  - pose proof (SetFacts.add_spec junk x s Hwf) as Ha.
    destruct (CrazySet.Add junk x s) as [b s']. destruct Ha as (Hw' & Hb & Hv'). cbn. split.
    + f_equal. f_equal. apply eq_bool_prop_intro. rewrite !Is_true_true, bool_decide_eq_true.
      by rewrite Hb, HS.
    + split; [done|]. intros y. rewrite Hv', elem_of_union, elem_of_singleton, HS. done.
  - pose proof (SetFacts.del_spec x s Hwf) as Ha.
    destruct (CrazySet.Del x s) as [b s']. destruct Ha as (Hw' & Hb & Hv'). cbn. split.
    + f_equal. f_equal. apply eq_bool_prop_intro. rewrite !Is_true_true, bool_decide_eq_true.
      by rewrite Hb, HS.
    + split; [done|]. intros y. rewrite Hv', elem_of_difference, elem_of_singleton, HS. tauto.
Qed.

End SetOps.

(** ** Properties *)


(** [Vector] implements lists.  After any sequence of insertions, removals
    and resizes, with indices in or out of range, the object is well formed and
    its items are those that the same operations give on lists. *)
Theorem Vector_refines_list {T} `{EqDecision T} (junk zero : T) ops :
  Vec.wf (fold_left (run_vector_op junk zero) ops Vec.new) /\
  Vec.value (fold_left (run_vector_op junk zero) ops Vec.new) = fold_left (spec_vector_op zero) ops [].
Proof.
  assert (forall ops v, Vec.wf v -> Vec.wf (fold_left (run_vector_op junk zero) ops v) /\
    Vec.value (fold_left (run_vector_op junk zero) ops v)
      = fold_left (spec_vector_op zero) ops (Vec.value v)) as H.
  { clear ops. induction ops as [|op ops IH]; intros v Hv; [done|]. cbn [fold_left].
    destruct (vector_op_refines junk zero op v Hv) as [Hw <-]. by apply IH. }
  by apply H.
Qed.

(** [Set] implements finite sets.  Any sequence of [Add] and [Del] returns
    the booleans that the set operations call for, and [Has] then decides
    membership in the resulting set. *)
Theorem Set_refines_gset {T} `{Countable T} (junk : T) ops :
  let '(rs, s) := fold_left (run_set_op junk) ops ([], Vec.new) in
  let '(rs', X) := fold_left spec_set_op ops ([], ∅) in
  rs = rs' /\ forall x, Vec.Has x s = bool_decide (x ∈ X).
Proof.
  assert (forall ops rs s S, represents s S ->
    (fold_left (run_set_op junk) ops (rs, s)).1 = (fold_left spec_set_op ops (rs, S)).1 /\
    represents (fold_left (run_set_op junk) ops (rs, s)).2 (fold_left spec_set_op ops (rs, S)).2) as Hrun.
  { clear ops. induction ops as [|op ops IH]; intros rs s S Hr; [done|]. cbn [fold_left].
    destruct (set_op_refines junk op rs s S Hr) as [H1 H2].
    destruct (run_set_op junk (rs, s) op) as [rs1 s1], (spec_set_op (rs, S) op) as [rs2 S2].
    cbn in H1, H2. subst rs2. by apply IH. }
  destruct (Hrun ops [] Vec.new ∅) as [H1 [H2 H3]].
  { split; [split; [done|apply NoDup_nil_2]|]. intros x. cbn. rewrite elem_of_nil. set_solver. }
  destruct (fold_left (run_set_op junk) ops _) as [rs s], (fold_left spec_set_op ops _) as [rs' X].
  cbn in *. split; [done|]. intros x. apply eq_bool_prop_intro.
  by rewrite !Is_true_true, SetFacts.has_spec, bool_decide_eq_true.
Qed.
