(* ===== verification/SearchPath.v ===== *)
(** * Search paths

    Models [crazy_linker_search_path_list.cpp] and its header: the class
    [SearchPathList], a colon-separated list of directories followed by the one
    of an environment variable, and the search for a file in it.  The strings
    are those that the class [String] implements (see [Util]); the environment
    and the file system are parameters. *)

From S2P Require Import Prelude Kernel Util.
Open Scope Z_scope.

Record SearchPathList := mk_SearchPathList {
  list_ : cstr;
  env_list_ : cstr;
  full_path_ : cstr;
}.

Definition new_SearchPathList : SearchPathList := mk_SearchPathList [] [] [].

(** [if (s.size() > 0 && s[s.size() - 1] != c) s += c;] *)
Definition terminate (c : ascii) (s : cstr) : cstr :=
  match list.last s with
  | Some d => if bool_decide (d = c) then s else s ++ [c]
  | None => s
  end.

Definition Reset (st : SearchPathList) : SearchPathList := new_SearchPathList.

Definition ResetFromEnv (GetEnv : cstr -> option cstr) (var_name : cstr) (st : SearchPathList)
    : SearchPathList :=
  let st := Reset st in
  match GetEnv var_name with
  | Some ((_ :: _) as env) => mk_SearchPathList (list_ st) env (full_path_ st)
  | _ => st
  end.

Definition AddPaths (paths : cstr) (st : SearchPathList) : SearchPathList :=
  mk_SearchPathList (terminate colon (list_ st) ++ paths) (env_list_ st) (full_path_ st).

(** The string [full_list] of [FindFile]. *)
Definition full_list (st : SearchPathList) : cstr :=
  match env_list_ st with
  | [] => list_ st
  | env => terminate colon (list_ st) ++ env
  end.

(** The path of [file_name] in the directory [item]. *)
Definition candidate (file_name item : cstr) : cstr := terminate slash item ++ file_name.

(** The loop of [SearchPathList::FindFile] from the position [p]; the result
    is the found path and the value of [full_path_]. *)
Fixpoint find_from `{FileSystem} (fuel : nat) (file_name p full_path : cstr)
    : option cstr * cstr :=
  match fuel, p with
  | S fuel, _ :: _ =>
      let '(item, next) := default (p, []) (memchr colon p) in
      let full_path := candidate file_name item in
      if fs_is_file full_path then (Some full_path, full_path)
      else find_from fuel file_name next full_path
  | _, _ => (None, full_path)
  end.

(** [SearchPathList::FindFile] *)
Definition FindFile `{FileSystem} (file_name : cstr) (st : SearchPathList)
    : option cstr * SearchPathList :=
  match file_name with
  | [] => (None, st)
  | _ =>
      let l := full_list st in
      let '(r, path) := find_from (length l) file_name l (full_path_ st) in
      (r, mk_SearchPathList (list_ st) (env_list_ st) path)
  end.

(** ** Specification vocabulary *)

(** The directories of a search list. *)
Definition path_items (l : cstr) : list cstr := trim_last (split_on colon l).

(** ** Lemmas *)

Lemma find_from_cons `{FileSystem} fuel file_name p full_path :
  p <> [] ->
  find_from (S fuel) file_name p full_path
  = let '(item, next) := default (p, []) (memchr colon p) in
    let full_path := candidate file_name item in
    if fs_is_file full_path then (Some full_path, full_path)
    else find_from fuel file_name next full_path.
Proof. by destruct p. Qed.

(** The loop tries the items in order. *)
Lemma find_from_spec `{FileSystem} fuel file_name p full_path :
  (length p <= fuel)%nat ->
  (find_from fuel file_name p full_path).1
  = List.find fs_is_file (map (candidate file_name) (path_items p)).
Proof.
  revert p full_path. induction fuel as [|fuel IH]; intros p full_path Hlen.
  { destruct p; [done|cbn in Hlen; lia]. }
  destruct p as [|d p]; [done|]. rewrite find_from_cons by done. set (q := d :: p) in *.
  unfold path_items. rewrite split_on_memchr.
  destruct (memchr colon q) as [[item next]|] eqn:Em; cbn [default id].
  - rewrite trim_last_cons by apply split_on_nonempty. cbn [map List.find].
    destruct (fs_is_file (candidate file_name item)); [done|].
    apply IH. apply memchr_length in Em. lia.
  - cbn. destruct (fs_is_file (candidate file_name q)); [done|]. by destruct fuel.
Qed.

Lemma trim_split_last l d : d <> colon -> trim_last (split_on colon (l ++ [d])) = split_on colon (l ++ [d]).
Proof.
  intros Hd. induction l as [|x l IH]; cbn.
  - by rewrite bool_decide_eq_false_2.
  - pose proof (split_on_nonempty colon (l ++ [d])) as Hne.
    destruct (bool_decide (x = colon)); [by rewrite trim_last_cons, IH|].
    destruct (split_on colon (l ++ [d])) as [|h t] eqn:E; [done|].
    destruct t as [|h2 t]; [done|]. rewrite !trim_last_cons in * by done. congruence.
Qed.

(** Joining two lists joins their items. *)
Lemma path_items_terminate l e :
  path_items (terminate colon l ++ e) = path_items l ++ path_items e.
Proof.
  unfold path_items, terminate. destruct l as [|x l' _] using rev_ind; [done|].
  rewrite last_snoc. destruct (bool_decide (x = colon)) eqn:E.
  - apply bool_decide_eq_true in E as ->. rewrite <-app_assoc. cbn [app].
    rewrite !split_on_app, !trim_last_app by apply split_on_nonempty. cbn. by rewrite app_nil_r.
  - apply bool_decide_eq_false in E. rewrite <-(app_assoc (l' ++ [x])). cbn [app].
    rewrite split_on_app, trim_last_app by apply split_on_nonempty. by rewrite trim_split_last.
Qed.

(** ** Properties *)

(** Searching a file.  With the list built by [ResetFromEnv] and any number
    of [AddPaths], [FindFile] returns the first path that is a file among those
    of the given name in the directories added, in the order of the calls,
    followed by the directories of the environment variable; it returns [NULL]
    when there is none, and for an empty name. *)
Theorem FindFile_first `{FileSystem} GetEnv var_name added file_name st :
  (FindFile file_name
     (fold_left (fun st paths => AddPaths paths st) added (ResetFromEnv GetEnv var_name st))).1
  = match file_name with
    | [] => None
    | _ => List.find fs_is_file
             (map (candidate file_name)
                (flat_map path_items (added ++ option_list (GetEnv var_name))))
    end.
Proof.
  set (st1 := ResetFromEnv GetEnv var_name st).
  assert (forall added st, let st' := fold_left (fun st paths => AddPaths paths st) added st in
    env_list_ st' = env_list_ st /\
    path_items (list_ st') = path_items (list_ st) ++ flat_map path_items added) as Hadd.
  { clear. induction added as [|p added IH]; intros st; cbn; [by rewrite app_nil_r|].
    destruct (IH (AddPaths p st)) as [H1 H2]. split; [done|]. rewrite H2. cbn [list_ AddPaths].
    rewrite path_items_terminate. by rewrite app_assoc. }
  destruct (Hadd added st1) as [He Hl]. set (st2 := fold_left _ added st1) in *.
  assert (path_items (full_list st2)
          = flat_map path_items (added ++ option_list (GetEnv var_name))) as Hfull.
  { assert (path_items (list_ st2) = flat_map path_items added) as Hl2.
    { rewrite Hl. unfold st1, ResetFromEnv. by destruct (GetEnv var_name) as [[]|]. }
    rewrite flat_map_app, <-Hl2. unfold full_list. rewrite He.
    unfold st1, ResetFromEnv. destruct (GetEnv var_name) as [[|c env]|]; [by rewrite app_nil_r| |by rewrite app_nil_r].
    cbn [env_list_ Reset]. rewrite path_items_terminate. cbn. by rewrite app_nil_r. }
  unfold FindFile. destruct file_name as [|c name]; [done|].
  pose proof (find_from_spec (length (full_list st2)) (c :: name) (full_list st2) (full_path_ st2)
    ltac:(lia)) as Hf.
  destruct (find_from _ _ _ _) as [r path]. cbn in Hf |- *. by rewrite Hf, Hfull.
Qed.
