(* ===== verification/LineReader.v ===== *)
(** * Reading text line by line

    Models [crazy_linker_line_reader.cpp] and its header: the class
    [LineReader], its two buffers and its loop that finds the next line, moves
    it to the front, grows the buffer and reads more input.  The operating
    system decides how many bytes a [read] returns, and the C library whether
    [realloc] moves a block: both are parameters. *)

From S2P Require Import Prelude Kernel Util.
Open Scope Z_scope.

(** Text files: the content of a file that can be opened, and what [read]
    returns for a buffer of some size when some content remains. *)
Class TextFiles := {
  tf_open : cstr -> option cstr;
  tf_read : nat -> cstr -> Z;
}.

(** The contract of [read] on a readable file: at the end it returns 0, and
    before it a positive number of bytes that fits the buffer. *)
Class TextFilesOk (T : TextFiles) : Prop := {
  tf_read_end avail : tf_read avail [] = 0;
  tf_read_some avail rest :
    (0 < avail)%nat -> rest <> [] ->
    0 < tf_read avail rest <= Z.of_nat (avail `min` length rest);
}.

(** The heap: the content of fresh bytes, and whether the reallocation of a
    heap block to some size moves it. *)
Class Heap := {
  heap_junk : ascii;
  heap_moves : nat -> bool;
}.

(** [heap_] is [None] while [buff_ == buff0_]; otherwise it is the block that
    [buff_] points to.  [fd_] is the content left to read. *)
Record LineReader := mk_LineReader {
  fd_ : cstr;
  eof_ : bool;
  line_start_ : nat;
  line_len_ : nat;
  buff_size_ : nat;
  buff_capacity_ : nat;
  heap_ : option cstr;
  buff0_ : cstr;
}.

Definition buff (r : LineReader) : cstr := default (buff0_ r) (heap_ r).

Definition set_buff (b : cstr) (r : LineReader) : LineReader :=
  match heap_ r with
  | Some _ => mk_LineReader (fd_ r) (eof_ r) (line_start_ r) (line_len_ r) (buff_size_ r)
                (buff_capacity_ r) (Some b) (buff0_ r)
  | None => mk_LineReader (fd_ r) (eof_ r) (line_start_ r) (line_len_ r) (buff_size_ r)
              (buff_capacity_ r) None b
  end.

(** The counters, leaving the buffers and the file. *)
Definition set_counters (start len size : nat) (r : LineReader) : LineReader :=
  mk_LineReader (fd_ r) (eof_ r) start len size (buff_capacity_ r) (heap_ r) (buff0_ r).

Section Reader.
Context `{TextFiles} `{Heap}.

(** [LineReader::Reset] *)
Definition Reset (r : LineReader) : LineReader :=
  mk_LineReader (fd_ r) false 0 0 0 (length (buff0_ r)) None (buff0_ r).

(** The constructor without arguments; [raw] is the initial content of the
    array [buff0_]. *)
Definition new_LineReader (raw : cstr) : LineReader :=
  let r := Reset (mk_LineReader [] false 0 0 0 0 None raw) in
  mk_LineReader (fd_ r) true (line_start_ r) (line_len_ r) (buff_size_ r) (buff_capacity_ r)
    (heap_ r) (buff0_ r).

(** [LineReader::Open] *)
Definition Open (path : cstr) (r : LineReader) : LineReader :=
  let r := Reset r in
  let content := tf_open path in
  mk_LineReader (default [] content) (bool_decide (content = None)) (line_start_ r)
    (line_len_ r) (buff_size_ r) (buff_capacity_ r) (heap_ r) (buff0_ r).

(** The bytes of the buffer from [line_start_]. *)
Definition current (r : LineReader) : cstr :=
  drop (line_start_ r) (take (buff_size_ r) (buff r)).

(** "Eat the start of the buffer" *)
Definition eat (r : LineReader) : LineReader :=
  if (0 <? line_start_ r)%nat then
    let n := (buff_size_ r - line_start_ r)%nat in
    set_counters 0 (line_len_ r) n (set_buff (memmove (buff r) 0 (line_start_ r) n) r)
  else r.

(** "Handle end of input now" *)
Definition last_line (r : LineReader) : bool * LineReader :=
  if (0 <? buff_size_ r)%nat && (buff_size_ r <? buff_capacity_ r)%nat then
    (true, set_counters (line_start_ r) (S (buff_size_ r)) (S (buff_size_ r))
             (set_buff (write_at (buff r) (buff_size_ r) [newline]) r))
  else (false, r).

(** "Before reading more data, grow the buffer if needed": the copy is from
    [buff0_], whatever the old buffer is; reading past its end faults. *)
Definition grow_buffer (r : LineReader) : option LineReader :=
  if (buff_size_ r =? buff_capacity_ r)%nat then
    let new_capacity := (buff_capacity_ r * 2)%nat in
    let block := realloc heap_junk (default [] (heap_ r)) new_capacity in
    let moved := match heap_ r with None => true | Some _ => heap_moves new_capacity end in
    let done b := Some (mk_LineReader (fd_ r) (eof_ r) (line_start_ r) (line_len_ r)
                          (buff_size_ r) new_capacity (Some b) (buff0_ r)) in
    if moved then
      if (buff_capacity_ r <=? length (buff0_ r))%nat
      then done (write_at block 0 (take (buff_capacity_ r) (buff0_ r)))
      else None
    else done block
  else Some r.

(** "Try to fill the rest of buffer after current content" *)
Definition fill (r : LineReader) : LineReader :=
  let ret := tf_read (buff_capacity_ r - buff_size_ r) (fd_ r) in
  if ret <=? 0 then
    mk_LineReader (fd_ r) true (line_start_ r) (line_len_ r) (buff_size_ r) (buff_capacity_ r)
      (heap_ r) (buff0_ r)
  else
    let n := Z.to_nat ret in
    let r' := set_buff (write_at (buff r) (buff_size_ r) (take n (fd_ r))) r in
    mk_LineReader (drop n (fd_ r)) (eof_ r') (line_start_ r') (line_len_ r')
      (buff_size_ r' + n) (buff_capacity_ r') (heap_ r') (buff0_ r').

(** The loop of [LineReader::GetNextLine]; [Fail] is for too little fuel. *)
Fixpoint get_line (fuel : nat) (r : LineReader) : outcome LineReader bool :=
  match fuel with
  | O => Fail (Msg "out of fuel" []) r
  | S fuel =>
      match memchr newline (current r) with
      | Some (before, _) =>
          Ret true (set_counters (line_start_ r) (length before + 1) (buff_size_ r) r)
      | None =>
          let r := eat r in
          if eof_ r then let '(found, r) := last_line r in Ret found r
          else
            match grow_buffer r with
            | Some r => get_line fuel (fill r)
            | None => Crash
            end
      end
  end.

(** [LineReader::GetNextLine]: every round but the last two reads a byte. *)
Definition GetNextLine (r : LineReader) : outcome LineReader bool :=
  get_line (length (fd_ r) + 2)
    (set_counters (line_start_ r + line_len_ r) 0 (buff_size_ r) r).

(** [LineReader::line] with [LineReader::length]. *)
Definition line (r : LineReader) : cstr := take (line_len_ r) (drop (line_start_ r) (buff r)).

(** The loop of the clients, [while (reader.GetNextLine())]. *)
Fixpoint read_lines (fuel : nat) (r : LineReader) : option (list cstr) :=
  match fuel with
  | O => None
  | S fuel =>
      match GetNextLine r with
      | Ret true r =>
          match read_lines fuel r with Some ls => Some (line r :: ls) | None => None end
      | Ret false _ => Some []
      | _ => None
      end
  end.

End Reader.

(** ** Specification vocabulary *)

(** The lines of a text, each with a final newline. *)
Definition text_lines (content : cstr) : list cstr :=
  map (fun l => l ++ [newline]) (trim_last (split_on newline content)).

(** Lines that fit the first enlarged buffer, newline included. *)
Definition short_line (l : cstr) : Prop := (length l < 256)%nat.

(** ** Lemmas *)

Lemma split_on_none c l rest :
  memchr c l = None ->
  exists h t, split_on c rest = h :: t /\ split_on c (l ++ rest) = (l ++ h) :: t.
Proof.
  induction l as [|d l IH]; cbn.
  - intros _. destruct (split_on c rest) as [|h t] eqn:E; [by apply split_on_nonempty in E|]. eauto.
  - destruct (bool_decide (d = c)); [done|]. destruct (memchr c l) as [[]|]; [done|].
    intros _. destruct (IH eq_refl) as (h & t & -> & ->). eauto.
Qed.

Lemma text_lines_found before after :
  memchr newline before = None ->
  text_lines (before ++ newline :: after) = (before ++ [newline]) :: text_lines after.
Proof.
  intros Hb. unfold text_lines. rewrite split_on_app, trim_last_app by apply split_on_nonempty.
  rewrite (split_on_memchr newline before), Hb. done.
Qed.

Lemma text_lines_last l :
  memchr newline l = None -> text_lines l = if bool_decide (l = []) then [] else [l ++ [newline]].
Proof. intros Hl. unfold text_lines. rewrite split_on_memchr, Hl. by destruct l. Qed.

Section Proofs.
Context `{TextFilesOk} `{Heap}.

(** What is still to be delivered. *)
Definition unread (r : LineReader) : cstr :=
  drop (line_start_ r + line_len_ r) (take (buff_size_ r) (buff r)) ++ fd_ r.

(** The state of a reader between calls. *)
Record reader_ok (r : LineReader) : Prop := {
  ok_line : (line_start_ r + line_len_ r <= buff_size_ r)%nat;
  ok_size : (buff_size_ r <= buff_capacity_ r)%nat;
  ok_buff : length (buff r) = buff_capacity_ r;
  ok_buff0 : length (buff0_ r) = 128%nat;
  ok_heap : is_Some (heap_ r) -> (256 <= buff_capacity_ r)%nat;
  ok_eof : eof_ r = true ->
           fd_ r = [] /\ (buff_size_ r = (line_start_ r + line_len_ r)%nat
                          \/ (buff_size_ r < buff_capacity_ r)%nat);
}.

(** Growing the buffer while reading [content] never copies from the wrong
    buffer: the lines are short, or blocks are enlarged in place. *)
Definition growth_safe (content : cstr) : Prop :=
  Forall short_line (split_on newline content) \/ forall n, heap_moves n = false.

Lemma growth_safe_after before after :
  growth_safe (before ++ newline :: after) -> growth_safe after.
Proof.
  intros [Hs|Hm]; [left|by right]. rewrite split_on_app in Hs. by apply Forall_app in Hs as [_ Hs].
Qed.

Lemma buff_set_buff b r : buff (set_buff b r) = b.
Proof. unfold buff, set_buff. by destruct (heap_ r). Qed.

Lemma set_buff_fields b r :
  fd_ (set_buff b r) = fd_ r /\ eof_ (set_buff b r) = eof_ r /\
  line_start_ (set_buff b r) = line_start_ r /\ line_len_ (set_buff b r) = line_len_ r /\
  buff_size_ (set_buff b r) = buff_size_ r /\ buff_capacity_ (set_buff b r) = buff_capacity_ r /\
  (is_Some (heap_ (set_buff b r)) -> is_Some (heap_ r)).
Proof. unfold set_buff. destruct (heap_ r) eqn:E; cbn; rewrite ?E; eauto 10. Qed.

Lemma set_buff_buff0 b r :
  length b = length (buff r) -> length (buff0_ r) = 128%nat -> length (buff0_ (set_buff b r)) = 128%nat.
Proof. unfold set_buff, buff. destruct (heap_ r); cbn; congruence. Qed.

(** [r] holds exactly [u] at the front of its buffer. *)
Definition holds (u : cstr) (r : LineReader) : Prop :=
  line_start_ r = 0%nat /\ line_len_ r = 0%nat /\ buff_size_ r = length u /\
  take (length u) (buff r) = u.

Lemma eat_holds r :
  reader_ok r -> line_len_ r = 0%nat ->
  reader_ok (eat r) /\ holds (current r) (eat r) /\ fd_ (eat r) = fd_ r /\ eof_ (eat r) = eof_ r
  /\ unread r = current r ++ fd_ r.
Proof.
  intros [Hl Hs Hb Hb0 Hh He] Hlen. rewrite Hlen in *. rewrite Nat.add_0_r in *.
  assert (unread r = current r ++ fd_ r) as Hu by (unfold unread, current; by rewrite Hlen, Nat.add_0_r).
  assert (length (current r) = (buff_size_ r - line_start_ r)%nat) as Hc.
  { unfold current. rewrite length_drop, length_take. lia. }
  unfold eat. destruct (0 <? line_start_ r)%nat eqn:E.
  2: { apply Nat.ltb_ge in E. assert (line_start_ r = 0%nat) as E0 by lia.
       split; [by constructor; rewrite ?Hlen, ?Nat.add_0_r|]. split; [|done].
       split_and!; [done|done|rewrite Hc; lia|].
       unfold current. rewrite E0, drop_0, length_take, Nat.min_l by lia. done. }
  apply Nat.ltb_lt in E.
  set (n := (buff_size_ r - line_start_ r)%nat) in *.
  set (b := memmove (buff r) 0 (line_start_ r) n).
  assert (take n b = current r) as Htk.
  { unfold b, memmove, current. rewrite take_0. cbn [app]. rewrite take_app_le.
    - rewrite take_take, Nat.min_id. unfold n. by rewrite take_drop_commute, Nat.add_comm, Nat.sub_add by lia.
    - rewrite length_take, length_drop. lia. }
  assert (length b = length (buff r)) as Hbl.
  { unfold b, memmove. rewrite !length_app, !length_take, !length_drop. lia. }
  destruct (set_buff_fields b r) as (F1 & F2 & F3 & F4 & F5 & F6 & F7).
  split; [constructor|split; [split_and!|done]]; cbn; rewrite ?F1, ?F2, ?F4, ?F6, ?Hlen; try done; try lia.
  - change (length (buff (set_buff b r)) = buff_capacity_ r). rewrite buff_set_buff. lia.
  - by apply set_buff_buff0.
  - intros Hx. apply Hh, F7, Hx.
  - intros He1. apply He in He1 as [? Hx]. split; [done|]. lia.
  - change (take (length (current r)) (buff (set_buff b r)) = current r).
    rewrite buff_set_buff. by rewrite Hc.
Qed.

Lemma grow_buffer_holds u r :
  reader_ok r -> holds u r -> eof_ r = false ->
  heap_ r = None \/ (forall n, heap_moves n = false) \/ (buff_size_ r < buff_capacity_ r)%nat ->
  exists r', grow_buffer r = Some r' /\ reader_ok r' /\ holds u r' /\ fd_ r' = fd_ r /\
             eof_ r' = false /\ (buff_size_ r' < buff_capacity_ r')%nat.
Proof.
  intros [Hl Hs Hb Hb0 Hh He] (Hst & Hln & Hsz & Hu) Hef Hgrow. unfold grow_buffer.
  destruct (buff_size_ r =? buff_capacity_ r)%nat eqn:E.
  2: { apply Nat.eqb_neq in E. exists r. split; [done|]. split; [by constructor|].
       split; [by split_and!|]. split_and!; [done|done|lia]. }
  apply Nat.eqb_eq in E. unfold buff in *. destruct (heap_ r) as [blk|] eqn:Eh; cbn [default] in *.
  - destruct Hgrow as [|[Hm|]]; [done| |lia]. rewrite Hm.
    specialize (Hh ltac:(eauto)).
    eexists; split; [done|]. split; [constructor|split; [split_and!|split_and!]]; cbn; try done; try lia.
    + unfold realloc. rewrite length_app, length_take, repeat_length. lia.
    + by rewrite Hef.
    + unfold realloc. cbn. unfold id in *.
      rewrite take_app_le, take_take, Nat.min_l by (rewrite ?length_take; lia). done.
  - unfold id in *. rewrite (proj2 (Nat.leb_le _ _)) by lia.
    assert (length (write_at (realloc heap_junk [] (buff_capacity_ r * 2)) 0
              (take (buff_capacity_ r) (buff0_ r))) = (buff_capacity_ r * 2)%nat) as Hlen.
    { rewrite length_write_at; unfold realloc; rewrite ?take_nil; cbn; rewrite repeat_length, ?length_take; lia. }
    eexists; split; [done|]. split; [constructor|split; [split_and!|split_and!]]; cbn; try done; try lia.
    + by rewrite Hef.
    + rewrite <-Hsz, E. unfold write_at. rewrite take_0, app_nil_l.
      rewrite take_app_le by (rewrite length_take; lia).
      rewrite take_take, Nat.min_id. by rewrite <-E, Hsz.
Qed.

Lemma fill_holds u r :
  reader_ok r -> holds u r -> eof_ r = false -> (buff_size_ r < buff_capacity_ r)%nat ->
  reader_ok (fill r) /\ line_len_ (fill r) = 0%nat /\ unread (fill r) = u ++ fd_ r /\
  (length (fd_ (fill r)) + (if eof_ (fill r) then 1 else 2) < length (fd_ r) + 2)%nat.
Proof.
  intros [Hl Hs Hb Hb0 Hh He] (Hst & Hln & Hsz & Hu) Hef Hroom. unfold fill.
  destruct (decide (fd_ r = [])) as [Hfd|Hfd].
  { rewrite Hfd, tf_read_end. cbn.
    split; [constructor; cbn; rewrite ?Hst, ?Hln; try done; [lia|eauto]|].
    unfold buff in Hu. rewrite Hst, Hln, Hsz, Hu. split_and!; [done|done|lia]. }
  pose proof (tf_read_some (buff_capacity_ r - buff_size_ r) (fd_ r) ltac:(lia) Hfd) as Hret.
  rewrite (proj2 (Z.leb_gt _ _)) by lia.
  set (n := Z.to_nat _). assert (0 < n <= length (fd_ r) /\ n <= buff_capacity_ r - buff_size_ r)%nat as Hn
    by (unfold n; lia).
  set (b := write_at (buff r) (buff_size_ r) (take n (fd_ r))).
  assert (length (take n (fd_ r)) = n) as Htn by (rewrite length_take; lia).
  assert (length b = length (buff r)) as Hbl by (unfold b; apply length_write_at; lia).
  assert (take (buff_size_ r + n) b = u ++ take n (fd_ r)) as Htk.
  { unfold b. rewrite <-Htn at 1. rewrite take_write_at_end by lia. by rewrite Hsz, Hu. }
  destruct (set_buff_fields b r) as (F1 & F2 & F3 & F4 & F5 & F6 & F7).
  pose proof (buff_set_buff b r) as Fb. unfold buff at 1 in Fb.
  split; [constructor|]; unfold buff, unread; cbn; rewrite ?F2, ?F3, ?F4, ?F5, ?F6, ?Fb, ?Hst, ?Hln;
    try done; try lia.
  - by apply set_buff_buff0.
  - intros Hx. apply Hh, F7, Hx.
  - by rewrite Hef.
  - rewrite Htk, Hef. cbn. rewrite drop_0, length_drop.
    split_and!; [done|by rewrite <-app_assoc, take_drop|lia].
Qed.

Lemma last_line_spec u r :
  reader_ok r -> holds u r -> eof_ r = true -> memchr newline u = None ->
  let '(found, r') := last_line r in
  match text_lines u with
  | l :: ls => found = true /\ line r' = l /\ text_lines (unread r') = ls /\
               reader_ok r' /\ unread r' = []
  | [] => found = false /\ u = []
  end.
Proof.
  intros [Hl Hs Hb Hb0 Hh He] (Hst & Hln & Hsz & Hu) Hef Hnone.
  destruct (He Hef) as [Hfd Hroom]. rewrite text_lines_last by done. unfold last_line.
  destruct (decide (u = [])) as [->|Hne]; [by rewrite Hsz|].
  rewrite (bool_decide_eq_false_2 _ Hne).
  assert (0 < buff_size_ r < buff_capacity_ r)%nat as Hlt.
  { destruct u; [done|]. cbn in Hsz. lia. }
  rewrite !(proj2 (Nat.ltb_lt _ _)) by lia. cbn [andb].
  set (b := write_at _ _ _).
  assert (length b = length (buff r)) as Hbl by (unfold b; apply length_write_at; cbn; lia).
  assert (take (S (buff_size_ r)) b = u ++ [newline]) as Htk.
  { unfold b. replace (S (buff_size_ r)) with (buff_size_ r + length [newline])%nat by (cbn; lia).
    rewrite take_write_at_end by (cbn; lia). by rewrite Hsz, Hu. }
  destruct (set_buff_fields b r) as (F1 & F2 & F3 & F4 & F5 & F6 & F7).
  pose proof (buff_set_buff b r) as Fb. unfold buff at 1 in Fb.
  assert (unread (set_counters (line_start_ r) (S (buff_size_ r)) (S (buff_size_ r)) (set_buff b r)) = []) as Hun.
  { unfold unread, buff. cbn. rewrite Fb, F1, Hfd, Hst, app_nil_r. cbn [Nat.add].
    apply drop_ge. rewrite length_take. lia. }
  split; [done|]. split; [|split; [by rewrite Hun|split; [constructor|done]]].
  - unfold line, buff. cbn. rewrite Fb, Hst, drop_0. done.
  - cbn. lia.
  - cbn. lia.
  - unfold buff. cbn. rewrite Fb, F6. lia.
  - by apply set_buff_buff0.
  - cbn. rewrite F6. intros Hx. apply Hh, F7, Hx.
  - cbn. intros _. rewrite F1. split; [done|]. left. lia.
Qed.

(** A line is found in the buffer. *)
Lemma found_spec r before after :
  reader_ok r -> line_len_ r = 0%nat -> memchr newline (current r) = Some (before, after) ->
  let r' := set_counters (line_start_ r) (length before + 1) (buff_size_ r) r in
  reader_ok r' /\ line r' = before ++ [newline] /\ unread r' = after ++ fd_ r.
Proof.
  intros [Hl Hs Hb Hb0 Hh He] Hlen Hm. apply memchr_Some in Hm as [Hm _]. cbn zeta.
  assert (length (current r) = (buff_size_ r - line_start_ r)%nat) as Hc.
  { unfold current. rewrite length_drop, length_take. lia. }
  rewrite Hm, length_app in Hc. cbn in Hc. unfold current in Hm.
  split; [constructor; cbn; try done; try lia|].
  - intros Hx. apply He in Hx as [? Hx]. split; [done|]. rewrite Hlen in Hx. lia.
  - split.
    + unfold line. cbn [line_start_ line_len_ set_counters].
      change (buff (set_counters _ _ _ r)) with (buff r).
      transitivity (take (length before + 1) (drop (line_start_ r) (take (buff_size_ r) (buff r)))).
      { rewrite !take_drop_commute, take_take, Nat.min_l by lia. done. }
      rewrite Hm, take_app_add'; done.
    + unfold unread. cbn [line_start_ line_len_ buff_size_ fd_ set_counters].
      change (buff (set_counters _ _ _ r)) with (buff r).
      rewrite <-drop_drop, Hm, <-drop_drop, drop_app_length. done.
Qed.

(** A buffer of 256 bytes without a newline is not the start of a short line. *)
Lemma growth_safe_room u rest r :
  reader_ok r -> holds u r -> memchr newline u = None -> growth_safe (u ++ rest) ->
  heap_ r = None \/ (forall n, heap_moves n = false) \/ (buff_size_ r < buff_capacity_ r)%nat.
Proof.
  intros Hok (_ & _ & Hsz & _) Hnone [Hs|Hm]; [|by right; left].
  destruct (heap_ r) eqn:E; [|by left]. right; right.
  pose proof (ok_heap _ Hok ltac:(rewrite E; eauto)) as Hcap.
  destruct (split_on_none newline u rest Hnone) as (h & t & _ & Hsp).
  rewrite Hsp in Hs. apply Forall_cons_1 in Hs as [Hs _]. unfold short_line in Hs.
  rewrite length_app in Hs. lia.
Qed.

(** What a call of [GetNextLine] does when [content] remains. *)
Definition next_line_spec (content : cstr) (o : outcome LineReader bool) : Prop :=
  match text_lines content with
  | l :: ls => exists r, o = Ret true r /\ line r = l /\ text_lines (unread r) = ls /\
                         reader_ok r /\ growth_safe (unread r)
  | [] => exists r, o = Ret false r
  end.

Lemma get_line_spec fuel r :
  reader_ok r -> line_len_ r = 0%nat -> growth_safe (unread r) ->
  (length (fd_ r) + (if eof_ r then 1 else 2) <= fuel)%nat ->
  next_line_spec (unread r) (get_line fuel r).
Proof.
  revert r. induction fuel as [|fuel IH]; intros r Hok Hlen Hsafe Hfuel.
  { destruct (eof_ r); lia. }
  destruct (eat_holds r Hok Hlen) as (Hok1 & Hh1 & Hfd1 & Hef1 & Hun). cbn [get_line].
  destruct (memchr newline (current r)) as [[before after]|] eqn:Em.
  - destruct (found_spec r before after Hok Hlen Em) as (Hok' & Hline & Hun').
    destruct (memchr_Some _ _ _ _ Em) as [Hc Hb]. unfold next_line_spec.
    rewrite Hun, Hc, <-app_assoc in *. cbn [app] in *. rewrite text_lines_found by done.
    eexists; split; [done|]. split; [done|]. rewrite Hun'. split; [done|]. split; [done|].
    by eapply growth_safe_after.
  - rewrite Hef1. destruct (eof_ r) eqn:Ee.
    + destruct (ok_eof _ Hok Ee) as [Hfd _]. rewrite Hun, Hfd, app_nil_r.
      pose proof (last_line_spec (current r) (eat r) Hok1 Hh1 Hef1 Em) as Hlast.
      destruct (last_line (eat r)) as [found r']. unfold next_line_spec.
      destruct (text_lines (current r)); [destruct Hlast as [-> _]; eauto|].
      destruct Hlast as (-> & Hl & Hls & Hok' & Hun'). eexists; split_and!; try done.
      rewrite Hun'. left. cbn. by repeat constructor.
    + rewrite Hun in Hsafe |- *.
      destruct (grow_buffer_holds (current r) (eat r) Hok1 Hh1 Hef1
        (growth_safe_room _ _ _ Hok1 Hh1 Em Hsafe)) as (r2 & -> & Hok2 & Hh2 & Hfd2 & Hef2 & Hroom).
      destruct (fill_holds (current r) r2 Hok2 Hh2 Hef2 Hroom) as (Hok3 & Hlen3 & Hun3 & Hm).
      rewrite Hfd2, Hfd1 in Hun3, Hm. rewrite <-Hun3. apply IH; [done|done|by rewrite Hun3|].
      lia.
Qed.

Lemma eat_previous r :
  reader_ok r ->
  let r' := set_counters (line_start_ r + line_len_ r) 0 (buff_size_ r) r in
  reader_ok r' /\ unread r' = unread r.
Proof.
  intros [Hl Hs Hb Hb0 Hh He]. split; [constructor; cbn; try done; rewrite ?Nat.add_0_r; done|].
  unfold unread. cbn. by rewrite Nat.add_0_r.
Qed.

Lemma GetNextLine_spec r :
  reader_ok r -> growth_safe (unread r) -> next_line_spec (unread r) (GetNextLine r).
Proof.
  intros Hok Hsafe. destruct (eat_previous r Hok) as [Hok' Hun']. unfold GetNextLine.
  rewrite <-Hun' in Hsafe |- *. apply get_line_spec; [done|done|done|]. cbn. destruct (eof_ r); lia.
Qed.

Lemma read_lines_spec fuel r :
  reader_ok r -> growth_safe (unread r) -> (length (text_lines (unread r)) < fuel)%nat ->
  read_lines fuel r = Some (text_lines (unread r)).
Proof.
  revert r. induction fuel as [|fuel IH]; intros r Hok Hsafe Hfuel; [lia|].
  pose proof (GetNextLine_spec r Hok Hsafe) as Hspec. unfold next_line_spec in Hspec. cbn.
  destruct (text_lines (unread r)) as [|l ls]; [by destruct Hspec as [? ->]|].
  destruct Hspec as (r' & -> & <- & <- & Hok' & Hsafe').
  rewrite IH; [done|done|done|cbn in Hfuel; lia].
Qed.

(** A reader just opened. *)
Lemma Open_ok path raw :
  length raw = 128%nat ->
  reader_ok (Open path (new_LineReader raw)) /\
  unread (Open path (new_LineReader raw)) = default [] (tf_open path).
Proof.
  intros Hraw. split; [|done]. constructor; cbn; try done; try lia.
  intros Hx. apply bool_decide_eq_true in Hx as ->. eauto.
Qed.

Lemma memchr_prefix c l rest : memchr c (l ++ rest) = None -> memchr c l = None.
Proof.
  induction l as [|d l IH]; [done|]. cbn. destruct (bool_decide (d = c)); [done|].
  destruct (memchr c (l ++ rest)) as [[]|]; [done|]. by rewrite IH.
Qed.

Lemma set_buff_capacity b r : buff_capacity_ (set_buff b r) = buff_capacity_ r.
Proof. apply set_buff_fields. Qed.

Lemma eat_capacity r : buff_capacity_ (eat r) = buff_capacity_ r.
Proof. unfold eat. case_match; [apply set_buff_capacity|done]. Qed.

Lemma fill_capacity r : buff_capacity_ (fill r) = buff_capacity_ r.
Proof. unfold fill. case_match; [done|apply set_buff_capacity]. Qed.

Lemma grow_capacity r r' :
  reader_ok r -> grow_buffer r = Some r' ->
  buff_capacity_ r' = buff_capacity_ r \/
  buff_size_ r = buff_capacity_ r /\ buff_capacity_ r' = (buff_capacity_ r * 2)%nat.
Proof.
  intros Hok. unfold grow_buffer.
  destruct (buff_size_ r =? buff_capacity_ r)%nat eqn:E; [|intros [= <-]; by left].
  apply Nat.eqb_eq in E. repeat case_match; intros [= <-]; cbn; auto.
Qed.

(** A first line of at least 256 bytes makes the reader copy 256 bytes out of
    the 128 bytes of [buff0_], if the block of 256 bytes is moved. *)
Lemma get_line_overrun fuel r :
  reader_ok r -> line_len_ r = 0%nat -> (buff_capacity_ r <= 256)%nat ->
  (256 <= length (unread r))%nat -> memchr newline (take 256 (unread r)) = None ->
  heap_moves 512 = true -> (length (fd_ r) + (if eof_ r then 1 else 2) <= fuel)%nat ->
  get_line fuel r = Crash.
Proof.
  intros Hok Hlen Hcap Hlong Hnone Hmv. revert r Hok Hlen Hcap Hlong Hnone.
  induction fuel as [|fuel IH]; intros r Hok Hlen Hcap Hlong Hnone Hfuel.
  { destruct (eof_ r); lia. }
  destruct (eat_holds r Hok Hlen) as (Hok1 & Hh1 & Hfd1 & Hef1 & Hun).
  pose proof (eat_capacity r) as Hcap1. pose proof (ok_size _ Hok1) as Hsize1.
  pose proof Hh1 as (Hst1 & Hln1 & Hsz1 & _). cbn [get_line].
  assert (memchr newline (current r) = None) as ->.
  { rewrite Hun, take_app_ge in Hnone by lia. by eapply memchr_prefix. }
  rewrite Hef1. destruct (eof_ r) eqn:Ee.
  { destruct (ok_eof _ Hok1 Hef1) as [Hfd Hroom]. rewrite Hun, <-Hfd1, Hfd, app_nil_r in Hlong. lia. }
  destruct (grow_buffer (eat r)) as [r2|] eqn:Eg; [|done].
  assert (heap_ (eat r) = None \/ (buff_size_ (eat r) < buff_capacity_ (eat r))%nat) as Hno.
  { unfold grow_buffer in Eg. destruct (heap_ (eat r)) eqn:Eh; [|by left]. right.
    pose proof (ok_heap _ Hok1 ltac:(rewrite Eh; eauto)) as Hge.
    destruct (buff_size_ (eat r) =? buff_capacity_ (eat r))%nat eqn:E; [|apply Nat.eqb_neq in E; lia].
    assert (buff_capacity_ (eat r) = 256%nat) as Hc by lia. rewrite Hc in Eg. cbn [Nat.mul Nat.add] in Eg.
    rewrite Hmv, (ok_buff0 _ Hok1) in Eg. done. }
  assert (buff_capacity_ r2 <= 256)%nat as Hcap2.
  { destruct (grow_capacity _ _ Hok1 Eg) as [->|[Hs ->]]; [lia|]. destruct Hno as [Hno|]; [|lia].
    pose proof (ok_buff _ Hok1) as Hb. unfold buff in Hb. rewrite Hno in Hb. cbn in Hb.
    unfold id in Hb. rewrite (ok_buff0 _ Hok1) in Hb. lia. }
  destruct (grow_buffer_holds (current r) (eat r) Hok1 Hh1 Hef1 ltac:(tauto))
    as (r3 & Eg' & Hok2 & Hh2 & Hfd2 & Hef2 & Hroom). rewrite Eg in Eg'. injection Eg' as <-.
  destruct (fill_holds (current r) r2 Hok2 Hh2 Hef2 Hroom) as (Hok3 & Hlen3 & Hun3 & Hm).
  rewrite Hfd2, Hfd1, <-Hun in Hun3. rewrite Hfd2, Hfd1 in Hm.
  apply IH; rewrite ?fill_capacity, ?Hun3; try done. lia.
Qed.

End Proofs.

(** ** Properties *)

(** A file system with one text file that is read in chunks of 100 bytes, and a
    heap that enlarges blocks in place. *)
Definition one_text (content : cstr) : TextFiles :=
  {| tf_open := fun _ => Some content;
     tf_read := fun avail rest => Z.of_nat (100 `min` (avail `min` length rest)) |}.

Lemma one_text_ok content : TextFilesOk (one_text content).
Proof.
  constructor; [intros avail; cbn [tf_read one_text length]; lia|]. intros avail rest Hav Hne. cbn [tf_read one_text].
  destruct rest; [done|]. cbn [length]. lia.
Qed.

Definition in_place_heap : Heap := {| heap_junk := Ascii.zero; heap_moves := fun _ => false |}.

Definition moving_heap : Heap := {| heap_junk := Ascii.zero; heap_moves := fun _ => true |}.



(** The second growth of the buffer.  When the first line has at least 256
    bytes and the heap moves the block of 256 bytes as it is enlarged,
    [GetNextLine] copies 256 bytes from the array [buff0_] of 128 bytes: it
    reads out of bounds. *)
Theorem long_line_overrun `{TextFilesOk} `{Heap} path raw content :
  length raw = 128%nat -> tf_open path = Some content -> heap_moves 512 = true ->
  (256 <= length content)%nat -> memchr newline (take 256 content) = None ->
  GetNextLine (Open path (new_LineReader raw)) = Crash.
Proof.
  intros Hraw Hopen Hmv Hlong Hnone. destruct (Open_ok path raw Hraw) as [Hok Hun].
  rewrite Hopen in Hun. cbn [default id] in Hun. destruct (eat_previous _ Hok) as [Hok' Hun'].
  unfold GetNextLine. apply get_line_overrun; try done; rewrite ?Hun', ?Hun; try done.
  - cbn. lia.
  - cbn. case_match; lia.
Qed.

Lemma long_line_overrun_witness :
  @GetNextLine (one_text (repeat slash 300)) moving_heap
    (@Open (one_text (repeat slash 300)) (str "/f") (new_LineReader (repeat Ascii.zero 128)))
  = Crash.
Proof.
  apply (@long_line_overrun (one_text (repeat slash 300)) (one_text_ok _) moving_heap (str "/f")
    (repeat Ascii.zero 128) (repeat slash 300)); try reflexivity. cbn. lia.
Defined.
