(* ===== verification/ProcMaps.v ===== *)
(** * The memory map of the process

    Models [crazy_linker_proc_maps.cpp] and its header: the parser of the lines
    of [/proc/$PID/maps], the class [ProcMaps] over the class [LineReader], and
    the searches in it. *)

From S2P Require Import Prelude Kernel ElfTraits LinkerPhdr Util LineReader.
Open Scope Z_scope.

(** ** [strtoumax] in base 16 *)

Definition hex_value (c : ascii) : option Z :=
  let z := zc c in
  if (48 <=? z) && (z <=? 57) then Some (z - 48)
  else if (97 <=? z) && (z <=? 102) then Some (z - 87)
  else if (65 <=? z) && (z <=? 70) then Some (z - 55)
  else None.

Fixpoint hex_prefix (acc : Z) (p : cstr) : Z :=
  match p with
  | c :: p => match hex_value c with Some d => hex_prefix (acc * 16 + d) p | None => acc end
  | [] => acc
  end.

Definition UINTMAX_MAX : Z := 2 ^ 64 - 1.

(** An optional prefix [0x], when a digit follows. *)
Definition skip_0x (p : cstr) : cstr :=
  match p with
  | z :: x :: d :: rest =>
      if bool_decide (z = "0"%char) && (bool_decide (x = "x"%char) || bool_decide (x = "X"%char))
         && bool_decide (is_Some (hex_value d))
      then d :: rest else p
  | _ => p
  end.

(** [strtoumax(p, NULL, 16)] *)
Definition strtoumax_16 (p : cstr) : Z :=
  match skip_while isspace p with
  | c :: p' =>
      let negative := bool_decide (c = dash) in
      let digits := if negative || bool_decide (c = "+"%char) then p' else c :: p' in
      let v := hex_prefix 0 (skip_0x digits) in
      if UINTMAX_MAX <? v then UINTMAX_MAX
      else if negative then wrap 64 (- v) else v
  | [] => 0
  end.

(** ** [ProcMaps::Entry] and [ParseProcMapsLine] *)

(** [path] is [None] for [NULL]; [path_len] is the length of the list. *)
Record Entry := mk_Entry {
  vma_start : Z;
  vma_end : Z;
  prot_flags : Z;
  load_offset : Z;
  path : option cstr;
}.

Definition path_len (e : Entry) : nat := length (default [] (path e)).

Definition zero_entry : Entry := mk_Entry 0 0 0 0 None.

(** The protection bits of a token. *)
Definition prot_of_token (tok : cstr) : Z :=
  fold_left (fun flags t =>
    let flags := if bool_decide (t = "r"%char) then Z.lor flags PROT_READ else flags in
    let flags := if bool_decide (t = "w"%char) then Z.lor flags PROT_WRITE else flags in
    if bool_decide (t = "x"%char) then Z.lor flags PROT_EXEC else flags) tok 0.

(** Get rid of trailing newlines. *)
Fixpoint trim_newlines (tok : cstr) : cstr :=
  match tok with
  | [] => []
  | c :: tok =>
      match trim_newlines tok with
      | [] => if bool_decide (c = newline) then [] else [c]
      | tok => c :: tok
      end
  end.

(** The cases of the [switch]: [tok] is the token and [tok_start] the line from
    its first character. *)
Definition set_field (a : arch) (token : nat) (tok tok_start : cstr) (e : Entry) : Entry :=
  match token with
  | 0 => mk_Entry (addr a (strtoumax_16 tok_start)) (vma_end e) (prot_flags e) (load_offset e) (path e)
  | 1 => mk_Entry (vma_start e) (addr a (strtoumax_16 tok_start)) (prot_flags e) (load_offset e) (path e)
  | 2 => mk_Entry (vma_start e) (vma_end e) (prot_of_token tok) (load_offset e) (path e)
  | 3 => mk_Entry (vma_start e) (vma_end e) (prot_flags e)
           (addr a (addr a (strtoumax_16 tok_start) * PAGE_SIZE)) (path e)
  | 6 => mk_Entry (vma_start e) (vma_end e) (prot_flags e) (load_offset e) (Some (trim_newlines tok))
  | _ => e
  end%nat.

(** The [for] loop with [count] tokens to go. *)
Fixpoint parse_tokens (a : arch) (count token : nat) (p : cstr) (e : Entry) : option Entry :=
  match count with
  | O => Some e
  | S count =>
      let separator := if (token =? 0)%nat then dash else space in
      let tok_start := skip_while (fun c => bool_decide (c = separator)) p in
      let '(tok, p) := default (tok_start, []) (memchr separator tok_start) in
      match tok with
      | [] =>
          if (token =? 6)%nat
          then Some (mk_Entry (vma_start e) (vma_end e) (prot_flags e) (load_offset e) None)
          else None
      | _ => parse_tokens a count (S token) p (set_field a token tok tok_start e)
      end
  end.

(** [ParseProcMapsLine] *)
Definition ParseProcMapsLine (a : arch) (line : cstr) : option Entry :=
  parse_tokens a 7 0 line zero_entry.

(** ** [ProcMapsInternal] and [ProcMaps] *)

Record ProcMapsInternal := mk_ProcMapsInternal {
  index_ : nat;
  entries_ : list Entry;
}.

Section Maps.
Context (a : arch) `{TextFiles} `{Heap}.

(** The loop of [ProcMapsInternal::Open]. *)
Fixpoint read_entries (fuel : nat) (r : LineReader) (entries : list Entry) : option (list Entry) :=
  match fuel with
  | O => None
  | S fuel =>
      match GetNextLine r with
      | Ret true r =>
          match ParseProcMapsLine a (line r) with
          | Some entry => read_entries fuel r (entries ++ [entry])
          | None => read_entries fuel r entries
          end
      | Ret false _ => Some entries
      | _ => None
      end
  end.

(** [ProcMapsInternal::Open] on a fresh object; [raw] is the initial content of
    the array of the reader.  [None] is a crash of the reader. *)
Definition Open (raw maps_file : cstr) : option ProcMapsInternal :=
  let reader := LineReader.Open maps_file (new_LineReader raw) in
  match read_entries (length (fd_ reader) + 2) reader [] with
  | Some entries => Some (mk_ProcMapsInternal 0 entries)
  | None => None
  end.

(** The constructor [ProcMaps::ProcMaps()] *)
Definition ProcMaps (raw : cstr) : option ProcMapsInternal := Open raw (str "/proc/self/maps").

(** The constructor [ProcMaps::ProcMaps(pid_t)] *)
Definition ProcMaps_pid (raw : cstr) (pid : Z) : option ProcMapsInternal :=
  Open raw (str "/proc/" ++ decimal pid ++ str "/maps").

Definition Rewind (maps : ProcMapsInternal) : ProcMapsInternal :=
  mk_ProcMapsInternal 0 (entries_ maps).

Definition GetNextEntry (maps : ProcMapsInternal) : option Entry * ProcMapsInternal :=
  match entries_ maps !! index_ maps with
  | Some entry => (Some entry, mk_ProcMapsInternal (S (index_ maps)) (entries_ maps))
  | None => (None, maps)
  end.

(** The loops [while (maps.GetNextEntry(&entry)) { if (f entry) ... }] of the
    searches. *)
Fixpoint next_matching (fuel : nat) (f : Entry -> bool) (maps : ProcMapsInternal)
    : option Entry * ProcMapsInternal :=
  match fuel with
  | O => (None, maps)
  | S fuel =>
      match GetNextEntry maps with
      | (Some entry, maps) => if f entry then (Some entry, maps) else next_matching fuel f maps
      | (None, maps) => (None, maps)
      end
  end.

Definition search (f : Entry -> bool) (maps : ProcMapsInternal) : option Entry * ProcMapsInternal :=
  next_matching (S (length (entries_ maps))) f maps.

Definition entry_contains (address : Z) (e : Entry) : bool :=
  (vma_start e <=? address) && (address <? vma_end e).

(** [ProcMaps::GetProtectionFlagsForAddress] *)
Definition GetProtectionFlagsForAddress (address : Z) (maps : ProcMapsInternal)
    : Z * ProcMapsInternal :=
  match search (entry_contains address) (Rewind maps) with
  | (Some entry, maps) => (prot_flags entry, maps)
  | (None, maps) => (0, maps)
  end.

(** [FindElfBinaryForAddress]: the value of [*load_address], when it is set,
    and the string in [path_buffer], when the function returns true. *)
Definition FindElfBinaryForAddress (raw : cstr) (address : Z) (path_buffer_len : nat)
    : option (option (Z * option cstr)) :=
  match ProcMaps raw with
  | None => None
  | Some self_maps =>
      Some
        match (search (entry_contains address) self_maps).1 with
        | Some entry =>
            Some (vma_start entry,
                  match path entry with
                  | None => None
                  | Some path => if (path_buffer_len <=? length path)%nat then None else Some path
                  end)
        | None => None
        end
  end.

(** [FindProtectionFlagsForAddress] *)
Definition FindProtectionFlagsForAddress (raw : cstr) (address : Z) : option (option Z) :=
  match ProcMaps raw with
  | None => None
  | Some self_maps => Some (prot_flags <$> (search (entry_contains address) self_maps).1)
  end.

(** The test of the loop of [FindLoadAddressForFile]. *)
Definition entry_matches (file_name : cstr) (e : Entry) : bool :=
  let is_base_name := bool_decide (memchr slash file_name = None) in
  match path e with
  | Some ((c :: _) as path) =>
      negb (bool_decide (c = "["%char)) &&
      let entry_name :=
        if is_base_name then
          match strrchr path slash with Some p => drop (S p) path | None => path end
        else path in
      bool_decide (file_name = entry_name)
  | _ => false
  end.

(** [FindLoadAddressForFile]: the load address and the load offset. *)
Definition FindLoadAddressForFile (raw file_name : cstr) : option (option (Z * Z)) :=
  match ProcMaps raw with
  | None => None
  | Some self_maps =>
      Some ((fun e => (vma_start e, load_offset e)) <$>
            (search (entry_matches file_name) self_maps).1)
  end.

End Maps.

(** ** Specification vocabulary: the format of the kernel

    [show_map_vma] of the Linux kernel prints a mapping as
    [%08lx-%08lx %c%c%c%c %08llx %02x:%02x %lu ], pads with spaces, and prints
    the name of the mapping and a newline. *)

Record vma := mk_vma {
  v_start : Z;
  v_end : Z;
  v_r : bool;
  v_w : bool;
  v_x : bool;
  v_shared : bool;
  v_offset : Z;
  v_dev : cstr;
  v_inode : cstr;
  v_pad : nat;
  v_path : cstr;
}.

Definition hex_char (d : Z) : ascii := cz (if d <? 10 then 48 + d else 87 + d).

Fixpoint hex_of (k : nat) (v : Z) : cstr :=
  match k with
  | O => []
  | S k => hex_of k (v / 16) ++ [hex_char (v mod 16)]
  end.

(** The format [%08lx]. *)
Definition hex08 (v : Z) : cstr := hex_of (Z.to_nat (Z.max 8 (Z.log2 v / 4 + 1))) v.

Definition perm_text (v : vma) : cstr :=
  [if v_r v then "r"%char else dash; if v_w v then "w"%char else dash;
   if v_x v then "x"%char else dash; if v_shared v then "s"%char else "p"%char].

Definition vma_text (v : vma) : cstr :=
  hex08 (v_start v) ++ dash :: hex08 (v_end v) ++ space :: perm_text v ++ space ::
  hex08 (v_offset v) ++ space :: v_dev v ++ space :: v_inode v ++ space ::
  repeat space (v_pad v) ++ v_path v.

(** The protection flags of a mapping. *)
Definition vma_prot (v : vma) : Z :=
  (if v_r v then PROT_READ else 0) + (if v_w v then PROT_WRITE else 0)
  + (if v_x v then PROT_EXEC else 0).

(** The entry of a mapping. *)
Definition vma_entry (a : arch) (v : vma) : Entry :=
  mk_Entry (v_start v) (v_end v) (vma_prot v) (addr a (v_offset v * PAGE_SIZE)) (Some (v_path v)).

Definition plain (l : cstr) : Prop := Forall (fun c => c <> space /\ c <> newline) l.

Record vma_ok (a : arch) (v : vma) : Prop := {
  vma_start_ok : 0 <= v_start v < 2 ^ kElfBits a;
  vma_end_ok : 0 <= v_end v < 2 ^ kElfBits a;
  vma_offset_ok : 0 <= v_offset v < 2 ^ kElfBits a;
  vma_dev_ok : v_dev v <> [] /\ plain (v_dev v);
  vma_inode_ok : v_inode v <> [] /\ plain (v_inode v);
  vma_path_ok : plain (v_path v);
}.

(** ** Lemmas *)

Lemma hex_value_char d : 0 <= d < 16 -> hex_value (hex_char d) = Some d.
Proof.
  intros Hd. unfold hex_value, hex_char.
  rewrite zc_cz by (destruct (d <? 10) eqn:E; [apply Z.ltb_lt in E|apply Z.ltb_ge in E]; lia).
  destruct (d <? 10) eqn:E; [apply Z.ltb_lt in E|apply Z.ltb_ge in E].
  - rewrite (proj2 (Z.leb_le 48 _)), (proj2 (Z.leb_le _ 57)) by lia. cbn. f_equal. lia.
  - rewrite (proj2 (Z.leb_le 48 _)), (proj2 (Z.leb_gt _ 57)) by lia. cbn.
    rewrite (proj2 (Z.leb_le 97 _)), (proj2 (Z.leb_le _ 102)) by lia. cbn. f_equal. lia.
Qed.

Definition is_hex (c : ascii) : Prop := is_Some (hex_value c).

Lemma hex_of_hex k v : Forall is_hex (hex_of k v).
Proof.
  revert v. induction k as [|k IH]; intros v; [constructor|]. cbn. apply Forall_app. split; [apply IH|].
  constructor; [|constructor]. eexists. apply hex_value_char, Z.mod_pos_bound. lia.
Qed.

Lemma hex_of_length k v : length (hex_of k v) = k.
Proof. revert v. induction k as [|k IH]; intros v; [done|]. cbn. rewrite length_app, IH. cbn. lia. Qed.

Lemma hex_prefix_of k acc v rest :
  0 <= v < 16 ^ Z.of_nat k ->
  hex_prefix acc (hex_of k v ++ rest) = hex_prefix (acc * 16 ^ Z.of_nat k + v) rest.
Proof.
  revert v rest. induction k as [|k IH]; intros v rest Hv.
  { cbn in *. f_equal. lia. }
  rewrite Nat2Z.inj_succ, Z.pow_succ_r in Hv |- * by lia. cbn [hex_of]. rewrite <-app_assoc. cbn [app].
  pose proof (Z.div_mod v 16 ltac:(lia)). pose proof (Z.mod_pos_bound v 16 ltac:(lia)).
  rewrite IH by (split; [apply Z.div_pos; lia|apply Z.div_lt_upper_bound; lia]).
  cbn [hex_prefix]. rewrite hex_value_char by lia. f_equal. lia.
Qed.

(** A hexadecimal digit is none of the characters the parser looks for. *)
Lemma is_hex_other c d : is_hex c -> hex_value d = None -> c <> d.
Proof. intros [x Hx] Hd ->. congruence. Qed.

Lemma is_hex_space c : is_hex c -> isspace c = false.
Proof.
  intros [d Hd]. unfold hex_value in Hd. unfold isspace.
  assert (48 <= zc c) as Hge.
  { repeat (match type of Hd with context [if ?b then _ else _] => destruct b eqn:? end); try done;
      rewrite ?andb_true_iff, ?Z.leb_le in *; lia. }
  rewrite (proj2 (Z.eqb_neq _ _)), (proj2 (Z.leb_gt _ 13)) by lia. by rewrite andb_false_r.
Qed.

Lemma hex08_cons v : exists c d l, hex08 v = c :: d :: l /\ is_hex c /\ is_hex d /\ Forall is_hex l.
Proof.
  unfold hex08. set (k := Z.to_nat _). assert (8 <= k)%nat by lia.
  pose proof (hex_of_hex k v) as Hf. pose proof (hex_of_length k v) as Hl.
  destruct (hex_of k v) as [|c [|d l]]; [cbn in Hl; lia..|].
  apply Forall_cons_1 in Hf as [? Hf]. apply Forall_cons_1 in Hf as [? Hf]. eauto 10.
Qed.

Lemma skip_0x_hex c d l : is_hex d -> skip_0x (c :: d :: l) = c :: d :: l.
Proof.
  intros Hd. destruct l as [|e l]; [done|]. cbn.
  rewrite !(bool_decide_eq_false_2 (d = _)) by (by apply is_hex_other). by rewrite andb_false_r.
Qed.

Lemma strtoumax_hex08 v c rest :
  0 <= v < 2 ^ 64 -> hex_value c = None -> strtoumax_16 (hex08 v ++ c :: rest) = v.
Proof.
  intros Hv Hc. assert (hex_prefix 0 (hex08 v ++ c :: rest) = v) as Hval.
  { unfold hex08. rewrite hex_prefix_of; [cbn; by rewrite Hc|]. split; [lia|].
    destruct (decide (v = 0)) as [->|Hne]; [by vm_compute|].
    pose proof (Z.log2_spec v ltac:(lia)) as [_ Hlog]. pose proof (Z.log2_nonneg v).
    pose proof (Z.div_mod (Z.log2 v) 4 ltac:(lia)). pose proof (Z.mod_pos_bound (Z.log2 v) 4 ltac:(lia)).
    change 16 with (2 ^ 4). rewrite <-Z.pow_mul_r by lia.
    eapply Z.lt_le_trans; [exact Hlog|]. apply Z.pow_le_mono_r; lia. }
  destruct (hex08_cons v) as (x & y & l & E & Hx & Hy & Hl). rewrite E in *. cbn [app] in *.
  unfold strtoumax_16. cbn [skip_while]. rewrite is_hex_space by done.
  rewrite !(bool_decide_eq_false_2 (x = _)) by (by apply is_hex_other). cbn [orb].
  rewrite skip_0x_hex by done. rewrite Hval. unfold UINTMAX_MAX.
  by rewrite (proj2 (Z.ltb_ge _ _)) by lia.
Qed.

Lemma memchr_none sep tok : Forall (fun c => c <> sep) tok -> memchr sep tok = None.
Proof.
  induction 1 as [|c tok Hc _ IH]; [done|]. cbn. by rewrite bool_decide_eq_false_2, IH.
Qed.

Lemma memchr_first sep tok rest :
  Forall (fun c => c <> sep) tok -> memchr sep (tok ++ sep :: rest) = Some (tok, rest).
Proof.
  induction 1 as [|c tok Hc _ IH]; cbn; [by rewrite bool_decide_eq_true_2|].
  by rewrite bool_decide_eq_false_2, IH.
Qed.

Lemma skip_separators sep n l :
  Forall (fun c => c <> sep) (take 1 l) ->
  skip_while (fun c => bool_decide (c = sep)) (repeat sep n ++ l) = l.
Proof.
  intros Hl. induction n as [|n IH]; cbn; [|by rewrite bool_decide_eq_true_2].
  destruct l as [|c l]; [done|]. apply Forall_cons_1 in Hl as [Hc _]. cbn.
  by rewrite bool_decide_eq_false_2.
Qed.

Lemma parse_token a count token sep tok rest e :
  sep = (if (token =? 0)%nat then dash else space) ->
  tok <> [] -> Forall (fun c => c <> sep) tok ->
  parse_tokens a (S count) token (tok ++ sep :: rest) e
  = parse_tokens a count (S token) rest (set_field a token tok (tok ++ sep :: rest) e).
Proof.
  intros Hsep Hne Htok. cbn [parse_tokens]. rewrite <-Hsep.
  pose proof (skip_separators sep 0 (tok ++ sep :: rest)) as Hskip. cbn [repeat app] in Hskip.
  rewrite Hskip by (destruct tok; [done|]; inversion Htok; subst; by repeat constructor).
  rewrite memchr_first by done. cbn [default id]. by destruct tok.
Qed.

Lemma parse_last_token a n tok e :
  tok <> [] -> Forall (fun c => c <> space) tok ->
  parse_tokens a 1 6 (repeat space n ++ tok) e = Some (set_field a 6 tok tok e).
Proof.
  intros Hne Htok. cbn [parse_tokens]. cbn [Nat.eqb].
  rewrite skip_separators by (destruct tok; [done|]; inversion Htok; subst; by repeat constructor).
  rewrite memchr_none by done. cbn [default id]. by destruct tok.
Qed.

Lemma is_hex_no sep l : Forall is_hex l -> hex_value sep = None -> Forall (fun c => c <> sep) l.
Proof. intros Hl Hs. eapply Forall_impl; [|exact Hl]. intros c Hc. by apply is_hex_other. Qed.

Lemma hex08_no sep v : hex_value sep = None -> hex08 v <> [] /\ Forall (fun c => c <> sep) (hex08 v).
Proof.
  intros Hs. split; [destruct (hex08_cons v) as (? & ? & ? & -> & _); done|].
  apply is_hex_no; [apply hex_of_hex|done].
Qed.

Lemma trim_newlines_path l :
  Forall (fun c => c <> newline) l -> trim_newlines (l ++ [newline]) = l.
Proof.
  induction 1 as [|c l Hc _ IH]; [done|]. cbn. rewrite IH.
  destruct l; [by rewrite bool_decide_eq_false_2|done].
Qed.

Lemma perm_text_prot v : prot_of_token (perm_text v) = vma_prot v.
Proof. unfold perm_text, vma_prot. by destruct (v_r v), (v_w v), (v_x v), (v_shared v). Qed.

Lemma perm_text_ok v : perm_text v <> [] /\ plain (perm_text v).
Proof.
  split; [done|]. unfold plain, perm_text.
  destruct (v_r v), (v_w v), (v_x v), (v_shared v); by repeat constructor.
Qed.

Lemma plain_space l : plain l -> Forall (fun c => c <> space) l.
Proof. apply Forall_impl. by intros c [? ?]. Qed.

Lemma plain_newline l : plain l -> Forall (fun c => c <> newline) l.
Proof. apply Forall_impl. by intros c [? ?]. Qed.

Lemma bits_64 a v : 0 <= v < 2 ^ kElfBits a -> 0 <= v < 2 ^ 64.
Proof. destruct a; cbn; lia. Qed.

Lemma ParseProcMapsLine_core a v :
  vma_ok a v -> ParseProcMapsLine a (vma_text v ++ [newline]) = Some (vma_entry a v).
Proof.
  intros [Hs He Ho [Hd1 Hd2] [Hi1 Hi2] Hp]. unfold ParseProcMapsLine, vma_text.
  repeat (rewrite <-app_assoc || rewrite <-app_comm_cons).
  destruct (hex08_no dash (v_start v) eq_refl) as [H1 H1'].
  destruct (hex08_no space (v_end v) eq_refl) as [H2 H2'].
  destruct (hex08_no space (v_offset v) eq_refl) as [H3 H3'].
  destruct (perm_text_ok v) as [H4 H4'].
  rewrite (parse_token a 6 0 _ (hex08 (v_start v))) by done.
  rewrite (parse_token a 5 1 _ (hex08 (v_end v))) by done.
  rewrite (parse_token a 4 2 _ (perm_text v)) by auto using plain_space.
  rewrite (parse_token a 3 3 _ (hex08 (v_offset v))) by done.
  rewrite (parse_token a 2 4 _ (v_dev v)) by auto using plain_space.
  rewrite (parse_token a 1 5 _ (v_inode v)) by auto using plain_space.
  rewrite parse_last_token.
  2: { by destruct (v_path v). }
  2: { apply Forall_app. split; [by apply plain_space|by repeat constructor]. }
  cbn [set_field vma_start vma_end prot_flags load_offset path].
  rewrite !strtoumax_hex08 by (done || by eapply bits_64).
  rewrite trim_newlines_path by (by apply plain_newline).
  rewrite perm_text_prot, 
    (addr_small a (v_start v)), (addr_small a (v_end v)), (addr_small a (v_offset v)) by done. done.
Qed.

Lemma vma_text_line a v : vma_ok a v -> memchr newline (vma_text v) = None.
Proof.
  intros [Hs He Ho [Hd1 Hd2] [Hi1 Hi2] Hp]. apply memchr_none. unfold vma_text.
  repeat first [apply Forall_app; split | apply Forall_cons; [done|]];
    try (by apply hex08_no); try (by apply plain_newline); [apply plain_newline, perm_text_ok|].
  induction (v_pad v); by constructor.
Qed.

Section MapsFacts.
Context (a : arch) `{TextFilesOk} `{Heap}.

Lemma read_entries_lines fuel r ls entries :
  read_lines fuel r = Some ls ->
  read_entries a fuel r entries = Some (entries ++ omap (ParseProcMapsLine a) ls).
Proof.
  revert r ls entries. induction fuel as [|fuel IH]; intros r ls entries; [done|].
  cbn [read_lines read_entries].
  destruct (GetNextLine r) as [[] r'| |]; [|intros [= <-]; by rewrite app_nil_r|done|done].
  destruct (read_lines fuel r') as [ls'|] eqn:E; [|done]. intros [= <-]. cbn [omap list_omap].
  destruct (ParseProcMapsLine a (line r')) as [e|]; rewrite (IH _ _ _ E); [|done].
  by rewrite <-app_assoc.
Qed.

Lemma trim_split_length c l : (length (trim_last (split_on c l)) <= length l)%nat.
Proof.
  induction l as [|d l IH]; [done|]. cbn. pose proof (split_on_nonempty c l) as Hne.
  destruct (bool_decide (d = c)); [rewrite trim_last_cons by done; cbn; lia|].
  destruct (split_on c l) as [|h t]; [done|]. destruct t as [|h2 t]; [cbn; lia|].
  rewrite !trim_last_cons in * by done. cbn in *. lia.
Qed.

(** Opening a file of text. *)
Lemma Open_entries raw maps_file content :
  length raw = 128%nat -> tf_open maps_file = Some content -> growth_safe content ->
  Open a raw maps_file
  = Some (mk_ProcMapsInternal 0 (omap (ParseProcMapsLine a) (text_lines content))).
Proof.
  intros Hraw Hopen Hsafe. destruct (Open_ok maps_file raw Hraw) as [Hok Hun].
  rewrite Hopen in Hun. cbn [default id] in Hun. unfold Open.
  erewrite read_entries_lines; [done|]. rewrite <-Hun. apply read_lines_spec; [done|by rewrite Hun|].
  rewrite Hun. unfold text_lines. rewrite length_map.
  pose proof (trim_split_length newline content). cbn. rewrite Hopen. cbn. unfold id. lia.
Qed.

(** The text that the kernel presents for a list of mappings. *)
Definition maps_text (vmas : list vma) : cstr :=
  flat_map (fun v => vma_text v ++ [newline]) vmas.

Lemma maps_text_lines vmas :
  Forall (vma_ok a) vmas -> text_lines (maps_text vmas) = map (fun v => vma_text v ++ [newline]) vmas.
Proof.
  induction 1 as [|v vmas Hv _ IH]; [done|]. cbn [maps_text flat_map map]. rewrite <-app_assoc. cbn [app].
  rewrite text_lines_found by (by eapply vma_text_line). by rewrite <-IH.
Qed.

(** The object [ProcMaps] holds the entries of the mappings. *)
Lemma ProcMaps_entries raw vmas :
  length raw = 128%nat -> tf_open (str "/proc/self/maps") = Some (maps_text vmas) ->
  growth_safe (maps_text vmas) -> Forall (vma_ok a) vmas ->
  ProcMaps a raw = Some (mk_ProcMapsInternal 0 (map (vma_entry a) vmas)).
Proof.
  intros Hraw Hopen Hsafe Hok. unfold ProcMaps. erewrite Open_entries by done.
  rewrite maps_text_lines by done. do 2 f_equal. clear Hopen Hsafe.
  induction Hok as [|v vmas Hv _ IH]; [done|].
  cbn [map omap list_omap]. rewrite ParseProcMapsLine_core by done. by f_equal.
Qed.

End MapsFacts.

Lemma next_matching_find fuel f i entries :
  (length entries - i < fuel)%nat ->
  (next_matching fuel f (mk_ProcMapsInternal i entries)).1 = List.find f (drop i entries).
Proof.
  revert i. induction fuel as [|fuel IH]; intros i Hlt; [lia|]. cbn [next_matching]. unfold GetNextEntry.
  cbn [entries_ index_]. destruct (entries !! i) as [e|] eqn:E.
  - rewrite (drop_S _ _ _ E). cbn [List.find]. destruct (f e); [done|]. apply IH.
    apply lookup_lt_Some in E. lia.
  - apply lookup_ge_None in E. by rewrite drop_ge.
Qed.

Lemma search_find f entries : (search f (mk_ProcMapsInternal 0 entries)).1 = List.find f entries.
Proof. unfold search. rewrite next_matching_find; [by rewrite drop_0|]. cbn. lia. Qed.

Lemma find_map {A B} (g : A -> B) f l : List.find f (map g l) = g <$> List.find (fun x => f (g x)) l.
Proof. induction l as [|x l IH]; [done|]. cbn. destruct (f (g x)); done. Qed.

Lemma find_protection_core a `{TextFilesOk} `{Heap} raw vmas address :
  length raw = 128%nat -> tf_open (str "/proc/self/maps") = Some (maps_text vmas) ->
  growth_safe (maps_text vmas) -> Forall (vma_ok a) vmas ->
  FindProtectionFlagsForAddress a raw address
  = Some (vma_prot <$> List.find (fun v => (v_start v <=? address) && (address <? v_end v)) vmas).
Proof.
  intros Hraw Hopen Hsafe Hok. unfold FindProtectionFlagsForAddress.
  rewrite (ProcMaps_entries a raw vmas) by done. rewrite search_find, find_map.
  unfold entry_contains. cbn [vma_entry vma_start vma_end]. by destruct (List.find _ vmas).
Qed.

(** Two mappings of a library, for the examples. *)
Definition sample_vmas : list vma :=
  [mk_vma 0x40231000 0x40277000 true false true false 0 (str "b3:01") (str "638") 8
     (str "/system/lib/libc.so");
   mk_vma 0x40277000 0x40279000 true false false false 0x46000 (str "b3:01") (str "638") 8
     (str "/system/lib/libc.so")].

Lemma sample_vmas_ok : Forall (vma_ok arm) sample_vmas.
Proof.
  assert (forall l, forallb (fun c => negb (bool_decide (c = space)) && negb (bool_decide (c = newline))) l
                    = true -> plain l) as Hplain.
  { intros l Hl. apply list.Forall_forall. intros c Hc. rewrite forallb_forall in Hl.
    apply list_elem_of_In in Hc. specialize (Hl c Hc). rewrite andb_true_iff, !negb_true_iff in Hl.
    by rewrite !bool_decide_eq_false in Hl. }
  repeat constructor; cbn; try lia; try done; by apply Hplain.
Qed.

(** ** Properties *)



(** Searching the memory map.  When [/proc/self/maps] lists some mappings
    in the kernel's format, [FindProtectionFlagsForAddress] and
    [FindElfBinaryForAddress] answer with the first mapping that contains the
    address, and [FindLoadAddressForFile] with the first one of the file of that
    path, or of that base name if the name has no slash. *)
Theorem Find_in_maps a `{TextFilesOk} `{Heap} raw vmas :
  length raw = 128%nat -> tf_open (str "/proc/self/maps") = Some (maps_text vmas) ->
  growth_safe (maps_text vmas) -> Forall (vma_ok a) vmas ->
  (forall address,
     let mapping := List.find (fun v => (v_start v <=? address) && (address <? v_end v)) vmas in
     FindProtectionFlagsForAddress a raw address = Some (vma_prot <$> mapping) /\
     forall len, FindElfBinaryForAddress a raw address len
       = Some ((fun v => (v_start v, if (len <=? length (v_path v))%nat then None
                                     else Some (v_path v))) <$> mapping)) /\
  (forall file_name, file_name <> [] ->
     FindLoadAddressForFile a raw file_name
     = Some ((fun v => (v_start v, addr a (v_offset v * PAGE_SIZE))) <$>
         List.find (fun v =>
           negb (bool_decide (hd_error (v_path v) = Some "["%char)) &&
           bool_decide (file_name = if bool_decide (memchr slash file_name = None)
                                    then GetBaseNamePtr (v_path v) else v_path v)) vmas)).
Proof.
  intros Hraw Hopen Hsafe Hok. pose proof (ProcMaps_entries a raw vmas Hraw Hopen Hsafe Hok) as Hmaps.
  unfold FindProtectionFlagsForAddress, FindElfBinaryForAddress, FindLoadAddressForFile.
  rewrite Hmaps. split.
  - intros address. rewrite search_find, find_map. cbn zeta. unfold entry_contains. cbn [vma_entry vma_start vma_end].
    split; [|intros len]; by destruct (List.find _ vmas).
  - intros file_name Hne. rewrite search_find, find_map. f_equal.
    rewrite <-option_fmap_compose. f_equal.
    clear Hopen Hsafe Hmaps Hok. induction vmas as [|v vmas IH]; [done|]. cbn [List.find]. rewrite IH.
    replace (entry_matches file_name (vma_entry a v)) with
      (negb (bool_decide (hd_error (v_path v) = Some "["%char)) &&
       bool_decide (file_name = if bool_decide (memchr slash file_name = None)
                                then GetBaseNamePtr (v_path v) else v_path v)); [done|].
    unfold entry_matches, GetBaseNamePtr. cbn [path vma_entry].
    destruct (v_path v) as [|c p]; cbn [hd_error].
    + cbn [strrchr]. rewrite (bool_decide_eq_false_2 (file_name = _)); [by rewrite andb_false_r|].
      by destruct (bool_decide (memchr slash file_name = None)).
    + f_equal. by rewrite (bool_decide_ext (Some c = Some "["%char) (c = "["%char)) by naive_solver.
Qed.

Lemma Find_in_maps_witness :
  @FindProtectionFlagsForAddress arm (one_text (maps_text sample_vmas)) in_place_heap
    (repeat Ascii.zero 128) 0x40277004 = Some (Some PROT_READ) /\
  @FindLoadAddressForFile arm (one_text (maps_text sample_vmas)) in_place_heap
    (repeat Ascii.zero 128) (str "libc.so") = Some (Some (0x40231000, 0)).
Proof.
  destruct (@Find_in_maps arm (one_text (maps_text sample_vmas)) (one_text_ok _) in_place_heap
    (repeat Ascii.zero 128) sample_vmas) as [Haddress Hfile]; [done|done|by right|exact sample_vmas_ok|].
  split.
  - exact (proj1 (Haddress 0x40277004)).
  - exact (Hfile (str "libc.so") ltac:(done)).
Defined.
