(* ===== verification/Relro.v ===== *)
(** * Sharing the RELRO section

    Models [crazy_linker_elf_relro.cpp], [crazy_linker_ashmem.cpp] and
    [crazy_linker_memory_mapping.h] with their headers: shared memory regions of
    the Android driver [ashmem], their temporary mappings, and the class
    [SharedRelro] that copies the RELRO section of a library into a region and
    replaces pages of a section by those of a region of another process. *)

From S2P Require Import Prelude Kernel ElfTraits LinkerPhdr Util ElfView Relocations.
Open Scope Z_scope.
Open Scope ndk_scope.

Definition EPERM : Z := 1.
Definition EBADF : Z := 9.
Definition ENOMEM : Z := 12.
Definition EACCES : Z := 13.
Definition EINVAL : Z := 22.

(** ** Regions *)

(** A region of shared memory: its size, its name, its bytes and the protection
    mask. *)
Record region := mk_region {
  r_size : Z;
  r_name : cstr;
  r_byte : Z -> Z;
  r_mask : Z;
}.

Definition region_content (r : region) (off i : Z) : option Z :=
  if off + i <? round_up (r_size r) then Some (r_byte r (off + i)) else None.

(** The process and the regions it has a descriptor of. *)
Record world := mk_world {
  w_space : aspace;
  w_dev : gmap Z region;
}.

(** The driver: the descriptor of a new region, whether it accepts a size, a
    name or a mask, and the error number when it refuses a mapping of a region
    or a change of the protection of such a mapping. *)
Class Ashmem := {
  ash_open : gmap Z region -> option Z;
  ash_size_ok : Z -> bool;
  ash_name_ok : cstr -> bool;
  ash_mask_ok : region -> Z -> bool;
  ash_map_errno : region -> Z -> option Z;
  ash_protect_errno : region -> Z -> option Z;
}.

(** [prot] is within the mask. *)
Definition within_mask (prot mask : Z) : bool := Z.land prot (Z.lnot mask) =? 0.

(** What the driver promises: a fresh descriptor, and no mapping beyond the
    mask, neither by [mmap] nor by [mprotect]. *)
Class AshmemOk (A : Ashmem) : Prop := {
  ash_open_fresh dev fd : ash_open dev = Some fd -> 0 <= fd /\ dev !! fd = None;
  ash_map_mask r prot :
    ash_map_errno r prot = if within_mask prot (r_mask r) then None else Some EPERM;
  ash_protect_mask r prot :
    ash_protect_errno r prot = if within_mask prot (r_mask r) then None else Some EACCES;
}.

Section Operations.
Context (a : arch) `{Kernel} `{Ashmem}.

(** ** [MemoryMapping] *)

(** The mapping and the descriptor it is a mapping of. *)
Record MemoryMapping := mk_MemoryMapping {
  map_ : Z;
  size_ : Z;
  map_fd : Z;
  map_writable : bool;
}.

(** [MemoryMapping::Allocate], or the value of [errno].  Without a descriptor
    the flags are [MAP_ANONYMOUS] alone, which [mmap] refuses. *)
Definition mapping_Allocate (address size prot fd : Z) (w : world)
    : (MemoryMapping * world) + Z :=
  if 0 <=? fd then
    match w_dev w !! fd with
    | None => inr EBADF
    | Some r =>
        match ash_map_errno r prot with
        | Some errno => inr errno
        | None =>
            match mmap (w_space w) address size prot (negb (address =? 0)) (region_content r 0) with
            | Some (p, s) =>
                inl (mk_MemoryMapping p size fd (negb (Z.land prot PROT_WRITE =? 0)),
                     mk_world s (w_dev w))
            | None => inr ENOMEM
            end
        end
    end
  else inr EINVAL.

(** [MemoryMapping::SetProtection], or the value of [errno]. *)
Definition mapping_SetProtection (m : MemoryMapping) (prot : Z) (w : world) : world + Z :=
  match w_dev w !! map_fd m with
  | None => inr EBADF
  | Some r =>
      match ash_protect_errno r prot with
      | Some errno => inr errno
      | None =>
          match mprotect (w_space w) (map_ m) (size_ m) prot with
          | Some s => inl (mk_world s (w_dev w))
          | None => inr EACCES
          end
      end
  end.

(** The bytes of the region after writes through a mapping. *)
Definition written_back (m : MemoryMapping) (s : aspace) (r : region) : region :=
  mk_region (r_size r) (r_name r)
    (fun i => if (0 <=? i) && (i <? size_ m) then default 0 (byte_at s (map_ m + i)) else r_byte r i)
    (r_mask r).

(** [MemoryMapping::Deallocate].  The mapping is shared: what the process has
    written to it is in the region. *)
Definition mapping_Deallocate (m : MemoryMapping) (w : world) : world :=
  let dev := if map_writable m then alter (written_back m (w_space w)) (map_fd m) (w_dev w)
             else w_dev w in
  match munmap (w_space w) (map_ m) (size_ m) with
  | Some s => mk_world s dev
  | None => mk_world (w_space w) dev
  end.

(** ** [AshmemRegion] *)

(** The name as [strlcpy] copies it to a buffer of 256 characters. *)
Definition short_name (name : cstr) : cstr := take 255 name.

(** [AshmemRegion::Allocate]: the descriptor of the new region. *)
Definition ashmem_Allocate (region_size : Z) (region_name : option cstr) (w : world)
    : option (Z * world) :=
  match ash_open (w_dev w) with
  | None => None
  | Some fd =>
      if ash_size_ok region_size
         && match region_name with Some name => ash_name_ok (short_name name) | None => true end
      then
        let r := mk_region region_size (match region_name with Some n => short_name n | None => [] end)
                   (fun _ => 0) (Z.lor PROT_READ (Z.lor PROT_WRITE PROT_EXEC)) in
        Some (fd, mk_world (w_space w) (<[fd := r]> (w_dev w)))
      else None
  end.

(** [AshmemRegion::SetProtectionFlags] *)
Definition SetProtectionFlags (fd prot : Z) (w : world) : option world :=
  match w_dev w !! fd with
  | None => None
  | Some r =>
      if ash_mask_ok r prot
      then Some (mk_world (w_space w)
                   (<[fd := mk_region (r_size r) (r_name r) (r_byte r) prot]> (w_dev w)))
      else None
  end.

(** [AshmemRegion::CheckFileDescriptorIsReadOnly]; the temporary mapping is
    unmapped at the end of the function. *)
Definition CheckFileDescriptorIsReadOnly (fd : Z) (w : world) : bool * world :=
  match mapping_Allocate 0 PAGE_SIZE PROT_WRITE fd w with
  | inl (m, w) => (false, mapping_Deallocate m w)
  | inr errno =>
      if negb (errno =? EPERM) then (false, w)
      else
        match mapping_Allocate 0 PAGE_SIZE PROT_READ fd w with
        | inr _ => (false, w)
        | inl (m, w) =>
            match mapping_SetProtection m (Z.lor PROT_READ PROT_WRITE) w with
            | inl w => (false, mapping_Deallocate m w)
            | inr errno => (errno =? EACCES, mapping_Deallocate m w)
            end
        end
  end.

(** ** [SharedRelro] *)

Record SharedRelro := mk_SharedRelro {
  start_ : Z;
  relro_size : Z;
  ashmem_ : Z;
}.

Definition new_SharedRelro : SharedRelro := mk_SharedRelro 0 0 (-1).

(** [SharedRelro::Allocate] *)
Definition relro_Allocate (relro_size : Z) (library_name : cstr) : M (SharedRelro * world) unit :=
  fun '(o, w) =>
    match ashmem_Allocate relro_size (Some (str "RELRO:" ++ library_name)) w with
    | None => Fail (Msg "Could not allocate RELRO ashmem region for %s: %s" [AS library_name]) (o, w)
    | Some (fd, w) => Ret tt (mk_SharedRelro 0 relro_size fd, w)
    end.

(** [SharedRelro::CopyFrom] *)
Definition CopyFrom (relro_start relro_size : Z) : M (SharedRelro * world) unit :=
  fun '(o, w) =>
    match mapping_Allocate 0 relro_size PROT_WRITE (ashmem_ o) w with
    | inr _ => Fail (Msg "Could not allocate RELRO mapping: %s" []) (o, w)
    | inl (m, w) =>
        match memcpy (w_space w) (map_ m) relro_start relro_size with
        | None => Crash
        | Some s =>
            Ret tt (mk_SharedRelro relro_start relro_size (ashmem_ o),
                    mapping_Deallocate m (mk_world s (w_dev w)))
        end
    end.

(** [SharedRelro::CopyFromRelocated] *)
Definition CopyFromRelocated (view : ElfView) (load_address relro_start relro_size : Z)
    : M (SharedRelro * world) unit :=
  fun '(o, w) =>
    let relro_offset := addr a (relro_start - load_address_ view) in
    match Relocations.Init a (w_space w) view (mk_init_state new_ElfRelocations false false) with
    | Crash => Crash
    | Fail e _ => Fail e (o, w)
    | Ret _ st =>
        match mapping_Allocate 0 relro_size (Z.lor PROT_READ PROT_WRITE) (ashmem_ o) w with
        | inr _ => Fail (Msg "Could not allocate RELRO mapping for: %s" []) (o, w)
        | inl (m, w) =>
            match CopyAndRelocate a (obj st) relro_start (map_ m)
                    (addr a (load_address + relro_offset)) relro_size (w_space w) with
            | Ret _ s =>
                Ret tt (mk_SharedRelro (addr a (load_address + relro_offset)) relro_size (ashmem_ o),
                        mapping_Deallocate m (mk_world s (w_dev w)))
            | _ => Crash
            end
        end
    end.

(** [SharedRelro::ForceReadOnly] *)
Definition ForceReadOnly : M (SharedRelro * world) unit :=
  fun '(o, w) =>
    match SetProtectionFlags (ashmem_ o) PROT_READ w with
    | None => Fail (Msg "Could not make RELRO ashmem region read-only: %s" []) (o, w)
    | Some w => Ret tt (o, w)
    end.

(** [PageEquals]; [None] when a byte cannot be read. *)
Definition PageEquals (s : aspace) (p1 p2 : Z) : option bool :=
  if range_all (readable s) p1 PAGE_SIZE && range_all (readable s) p2 PAGE_SIZE
  then Some (range_all (fun x => bool_decide (byte_at s x = byte_at s (x - p1 + p2))) p1 PAGE_SIZE)
  else None.

(** [while (p < size && PageEquals(cur_page + p, fd_page + p) == same) p += PAGE_SIZE;] *)
Fixpoint skip_pages (fuel : nat) (same : bool) (s : aspace) (cur_page fd_page p size : Z)
    : option Z :=
  match fuel with
  | O => None
  | S fuel =>
      if p <? size then
        match PageEquals s (cur_page + p) (fd_page + p) with
        | None => None
        | Some e =>
            if Bool.eqb e same then skip_pages fuel same s cur_page fd_page (p + PAGE_SIZE) size
            else Some p
        end
      else Some p
  end.

(** [SwapPagesFromFd] *)
Definition SwapPagesFromFd (address size fd offset : Z) : M world unit :=
  fun w =>
    match munmap (w_space w) address size with
    | None => Fail (Msg "SwapPagesFromFd: Could not unmap %p-%p: %s"
                      [AZ address; AZ (address + size)]) w
    | Some s =>
        let w := mk_world s (w_dev w) in
        let failed := Fail (Msg "SwapPagesFromFd: Could not map %p-%p: %s"
                              [AZ address; AZ (address + size)]) w in
        match w_dev w !! fd with
        | None => failed
        | Some r =>
            match ash_map_errno r PROT_READ, mmap s address size PROT_READ true (region_content r offset) with
            | None, Some (_, s) => Ret tt (mk_world s (w_dev w))
            | _, _ => failed
            end
        end
    end.

(** The [do] loop of [SharedRelro::InitFrom] from position [p]: the result is
    the value of [similar_size]. *)
Fixpoint swap_similar (fuel : nat) (cur_page fd_page p size fd similar_size : Z) : M world Z :=
  match fuel with
  | O => lcrash
  | S fuel =>
      let* p := lread (fun w => skip_pages fuel false (w_space w) cur_page fd_page p size) in
      let* p2 := lread (fun w => skip_pages fuel true (w_space w) cur_page fd_page p size) in
      let* similar_size :=
        (if p <? p2 then
           do* SwapPagesFromFd (cur_page + p) (p2 - p) fd p in
           lret (similar_size + (p2 - p))
         else lret similar_size) in
      if p2 <? size then swap_similar fuel cur_page fd_page p2 size fd similar_size
      else lret similar_size
  end.

(** [SharedRelro::InitFrom]: [Ret false] is a failure without a message. *)
Definition InitFrom (relro_start relro_size ashmem_fd : Z) : M (SharedRelro * world) bool :=
  fun '(o, w) =>
    match CheckFileDescriptorIsReadOnly ashmem_fd w with
    | (false, w) => Fail (Msg "Ashmem file descriptor is not read-only: %s" []) (o, w)
    | (true, w) =>
        match mapping_Allocate 0 relro_size PROT_READ ashmem_fd w with
        | inr _ => Fail (Msg "Cannot map RELRO ashmem region as read-only: %s" []) (o, w)
        | inl (m, w) =>
            match swap_similar (Z.to_nat (relro_size / PAGE_SIZE) + 2) relro_start (map_ m) 0
                    relro_size ashmem_fd 0 w with
            | Crash => Crash
            | Fail e w => Fail e (o, mapping_Deallocate m w)
            | Ret similar_size w =>
                let w := mapping_Deallocate m w in
                if similar_size =? 0 then Ret false (o, w)
                else Ret true (mk_SharedRelro relro_start relro_size (ashmem_ o), w)
            end
        end
    end.

End Operations.

(** ** Lemmas on mappings *)

(** Address spaces with the same mappings and the same bytes in them. *)
Definition space_eq (s s' : aspace) : Prop :=
  forall x, prot_at s' x = prot_at s x /\ (prot_at s x <> None -> byte_at s' x = byte_at s x).

Lemma space_eq_load s s' x : space_eq s s' -> load_byte s' x = load_byte s x.
Proof.
  intros He. destruct (He x) as [Hp Hb]. unfold load_byte, can. rewrite Hp.
  destruct (prot_at s x); [|done]. by rewrite Hb.
Qed.

Lemma within_mask_ok prot mask : Z.land prot (Z.lnot mask) = 0 -> within_mask prot mask = true.
Proof. intros H. unfold within_mask. by rewrite H. Qed.

Section Facts.
Context (a : arch) `{K : Kernel} (HK : KernelOk (kElfBits a) K) `{A : Ashmem} (HA : AshmemOk A).

Lemma allocate_ok size prot fd w r p :
  w_dev w !! fd = Some r -> 0 <= fd -> within_mask prot (r_mask r) = true -> 0 < size ->
  kplace (w_space w) 0 size = Some p ->
  mapping_Allocate 0 size prot fd w
  = inl (mk_MemoryMapping p size fd (negb (Z.land prot PROT_WRITE =? 0)),
         mk_world (map_range (w_space w) p size prot (region_content r 0)) (w_dev w)).
Proof.
  intros Hr Hfd Hm Hs Hp. unfold mapping_Allocate. rewrite (proj2 (Z.leb_le _ _)), Hr by lia.
  rewrite ash_map_mask, Hm. unfold mmap. rewrite (proj2 (Z.leb_gt _ _)) by lia.
  cbn [Z.eqb negb]. by rewrite Hp.
Qed.

(** A mapping placed by the kernel, then changed only in its content and
    unmapped, leaves the address space as it was. *)
Lemma unmap_placed s size prot content p s2 s3 :
  kplace s 0 size = Some p -> 0 < size ->
  (forall x, prot_at s2 x = prot_at (map_range s p size prot content) x) ->
  (forall x, ~ p <= x < p + round_up size -> byte_at s2 x = byte_at s x) ->
  munmap s2 p size = Some s3 -> space_eq s s3.
Proof.
  intros Hp Hs Hprot Hbyte Hun x. unfold munmap in Hun.
  destruct (kunmap_ok s2 p size); [|done]. injection Hun as <-. cbn.
  destruct (in_range p (round_up size) x) eqn:Hx.
  - rewrite (kplace_free _ _ _ _ _ Hp Hx). done.
  - rewrite Hprot. cbn. rewrite Hx. split; [done|]. intros _. apply Hbyte. by apply in_range_false.
Qed.

Lemma munmap_ok s p size : page_aligned p -> 0 < size -> exists s', munmap s p size = Some s'.
Proof. intros. unfold munmap. rewrite (kunmap_valid (w := kElfBits a)); eauto. Qed.

Lemma check_read_only fd w r :
  w_dev w !! fd = Some r -> 0 <= fd -> r_mask r = PROT_READ ->
  is_Some (kplace (w_space w) 0 PAGE_SIZE) ->
  exists s', CheckFileDescriptorIsReadOnly fd w = (true, mk_world s' (w_dev w)) /\
             space_eq (w_space w) s'.
Proof.
  intros Hr Hfd Hm [p Hp]. unfold CheckFileDescriptorIsReadOnly.
  unfold mapping_Allocate at 1. rewrite (proj2 (Z.leb_le _ _)), Hr, ash_map_mask, Hm by lia.
  cbn [within_mask Z.eqb negb]. change (within_mask PROT_WRITE PROT_READ) with false. cbn match.
  change (negb (EPERM =? EPERM)) with false. cbn match.
  rewrite (allocate_ok PAGE_SIZE PROT_READ fd w r p) by (by rewrite ?Hm).
  unfold mapping_SetProtection. cbn [w_dev map_fd]. rewrite Hr, ash_protect_mask, Hm.
  change (within_mask _ PROT_READ) with false. cbn match. change (EACCES =? EACCES) with true.
  unfold mapping_Deallocate. cbn [map_writable w_dev w_space map_ size_].
  change (negb _) with false. cbn match.
  destruct (munmap_ok (map_range (w_space w) p PAGE_SIZE PROT_READ (region_content r 0)) p PAGE_SIZE)
    as [s' Hs']; [by eapply kplace_aligned|done|]. rewrite Hs'. eexists; split; [done|].
  eapply (unmap_placed _ PAGE_SIZE PROT_READ); [done|done|done| |done].
  intros x Hx. cbn. by rewrite (proj2 (in_range_false _ _ _) Hx).
Qed.

(** ** The loop over the pages *)

Section Swap.
Context (s : aspace) (cur size fd p0 : Z) (r : region).

(** A page of the section with the content of the region. *)
Definition similar (q : Z) : Prop :=
  forall i, 0 <= i < PAGE_SIZE -> byte_at s (cur + q + i) = Some (r_byte r (q + i)).

(** The pages that have been replaced when the loop is at [p]. *)
Definition swapped (p x : Z) : Prop :=
  exists q, page_aligned q /\ 0 <= q < p /\ similar q /\ cur + q <= x < cur + q + PAGE_SIZE.

Record swap_ok : Prop := {
  so_cur : page_aligned cur;
  so_size : page_aligned size;
  so_pos : 0 < size <= r_size r;
  so_readable : forall x, cur <= x < cur + size -> readable s x = true;
  so_place : kplace s 0 size = Some p0;
  so_grant : forall s x n, kmap_ok s x n = true;
  so_mask : r_mask r = PROT_READ;
  so_dev : 0 <= fd;
}.

Context (H : swap_ok).

Definition mapped_space : aspace := map_range s p0 size PROT_READ (region_content r 0).

Record swap_inv (p : Z) (sp : aspace) : Prop := {
  si_byte : forall x, byte_at sp x = byte_at mapped_space x;
  si_swapped : forall x, swapped p x -> prot_at sp x = Some PROT_READ;
  si_other : forall x, ~ swapped p x -> prot_at sp x = prot_at mapped_space x;
}.

Lemma p0_aligned : page_aligned p0.
Proof. eapply (kplace_aligned (w := kElfBits a)), so_place, H. Qed.

Lemma section_prot x : cur <= x < cur + size -> exists pr, prot_at s x = Some pr.
Proof.
  intros Hx. pose proof (so_readable H x Hx) as Hr. unfold readable, load_byte, can in Hr.
  destruct (prot_at s x); [eauto|done].
Qed.

(** The temporary mapping is outside the section. *)
Lemma section_outside x : cur <= x < cur + size -> in_range p0 (round_up size) x = false.
Proof.
  intros Hx. destruct (in_range p0 (round_up size) x) eqn:E; [|done].
  destruct (section_prot x Hx) as [pr Hp].
  by rewrite (kplace_free (w := kElfBits a) _ _ _ _ _ (so_place H) E) in Hp.
Qed.

Lemma mapped_section x :
  cur <= x < cur + size ->
  byte_at mapped_space x = byte_at s x /\ prot_at mapped_space x = prot_at s x.
Proof. intros Hx. cbn. by rewrite section_outside. Qed.

Lemma mapped_region i :
  0 <= i < size ->
  byte_at mapped_space (p0 + i) = Some (r_byte r i) /\ prot_at mapped_space (p0 + i) = Some PROT_READ.
Proof.
  intros Hi. pose proof (so_pos H). pose proof (round_up_id _ (so_size H)) as Hru. cbn.
  rewrite (proj2 (in_range_true _ _ _)) by lia. split; [|done]. unfold region_content.
  pose proof (round_up_ge (r_size r)). rewrite (proj2 (Z.ltb_lt _ _)) by lia. do 2 f_equal. lia.
Qed.

Lemma inv_readable_section p sp x :
  swap_inv p sp -> cur <= x < cur + size -> readable sp x = true.
Proof.
  intros [Hb Hs Ho] Hx. pose proof (so_readable H x Hx) as Hr.
  destruct (mapped_section x Hx) as [Hmb Hmp]. unfold readable, load_byte, can in *.
  rewrite Hb, Hmb. destruct (decide (prot_at sp x = Some PROT_READ)) as [->|Hne].
  - cbn. destruct (prot_at s x); [|done]. destruct (negb _); [done|done].
  - rewrite Ho by (intros Hsw; by apply Hs in Hsw). by rewrite Hmp.
Qed.

Lemma swapped_section p x : p <= size -> swapped p x -> cur <= x < cur + size.
Proof.
  intros Hp (q & Hq & Hq' & _ & Hx). pose proof (so_size H). unfold page_aligned, PAGE_SIZE in *.
  assert (q + 4096 <= size) by (Z.div_mod_to_equations; lia). lia.
Qed.

Lemma inv_readable_region p sp i :
  swap_inv p sp -> p <= size -> 0 <= i < size -> readable sp (p0 + i) = true.
Proof.
  intros [Hb Hs Ho] Hp Hi. destruct (mapped_region i Hi) as [Hmb Hmp].
  unfold readable, load_byte, can. rewrite Hb, Hmb, Ho, Hmp; [done|].
  intros Hsw. apply swapped_section in Hsw; [|done]. apply section_outside in Hsw.
  apply in_range_false in Hsw. rewrite (round_up_id _ (so_size H)) in Hsw. lia.
Qed.

(** The comparison decides similarity, at any point of the loop. *)
Lemma page_equals p sp q :
  swap_inv p sp -> p <= size -> page_aligned q -> 0 <= q < size ->
  exists b : bool, PageEquals sp (cur + q) (p0 + q) = Some b /\ (b = true <-> similar q).
Proof.
  intros Hinv Hp Hq Hq'. assert (q + PAGE_SIZE <= size) as Hle.
  { pose proof (so_size H). unfold page_aligned, PAGE_SIZE in *. Z.div_mod_to_equations; lia. }
  unfold PageEquals. rewrite (proj2 (range_all_true (readable sp) (cur + q) _)),
    (proj2 (range_all_true (readable sp) (p0 + q) _)).
  2: { intros x Hx. replace x with (p0 + (x - p0)) by lia. eapply inv_readable_region; [done|done|lia]. }
  2: { intros x Hx. eapply inv_readable_section; [done|lia]. }
  cbn [andb]. eexists; split; [done|]. rewrite range_all_true. split.
  - intros He i Hi. specialize (He (cur + q + i) ltac:(lia)). apply bool_decide_eq_true in He.
    rewrite !(si_byte _ _ Hinv) in He. rewrite (proj1 (mapped_section (cur + q + i) ltac:(lia))) in He.
    rewrite He. replace (cur + q + i - (cur + q) + (p0 + q)) with (p0 + (q + i)) by lia.
    apply mapped_region. lia.
  - intros Hsim x Hx. apply bool_decide_eq_true. rewrite !(si_byte _ _ Hinv).
    rewrite (proj1 (mapped_section x ltac:(lia))).
    replace (x - (cur + q) + (p0 + q)) with (p0 + (x - cur)) by lia.
    rewrite (proj1 (mapped_region (x - cur) ltac:(lia))).
    pose proof (Hsim (x - cur - q) ltac:(lia)) as Hs. replace (cur + q + (x - cur - q)) with x in Hs by lia.
    rewrite Hs. do 2 f_equal; lia.
Qed.

(** The [while] loops stop at the first page that is not (dis)similar. *)
Lemma skip_pages_spec p0' sp same fuel p :
  swap_inv p0' sp -> p0' <= size -> page_aligned p -> 0 <= p <= size ->
  size - p < Z.of_nat fuel * PAGE_SIZE ->
  exists p', skip_pages fuel same sp cur p0 p size = Some p' /\ page_aligned p' /\ p <= p' <= size /\
    (forall q, page_aligned q -> p <= q < p' -> (same = true <-> similar q)) /\
    (p' < size -> ~ (same = true <-> similar p')).
Proof.
  intros Hinv Hp0. revert p. induction fuel as [|fuel IH]; intros p Hp Hr Hf; [lia|].
  cbn [skip_pages]. destruct (p <? size) eqn:E.
  2: { apply Z.ltb_ge in E. exists p. split_and!; try done; try lia. }
  apply Z.ltb_lt in E. destruct (page_equals p0' sp p Hinv Hp0 Hp ltac:(lia)) as (b & -> & Hb).
  destruct (Bool.eqb b same) eqn:Eb.
  - apply eqb_prop in Eb as ->. assert (p + PAGE_SIZE <= size) as Hle.
    { pose proof (so_size H). unfold page_aligned, PAGE_SIZE in *. Z.div_mod_to_equations; lia. }
    destruct (IH (p + PAGE_SIZE)) as (p' & Hs & Hp' & Hr' & Hq & Hn).
    { by apply aligned_add. } { unfold PAGE_SIZE in *; lia. } { unfold PAGE_SIZE in *; lia. }
    exists p'. split_and!; try done; try (unfold PAGE_SIZE in *; lia).
    intros q Hqa Hqr. destruct (decide (q = p)) as [->|Hne]; [done|]. apply Hq; [done|].
    unfold page_aligned, PAGE_SIZE in *. Z.div_mod_to_equations; lia.
  - exists p. split_and!; try done; try lia. intros _ Hx. rewrite <-Hb in Hx.
    destruct b, same; cbn in Eb; try done; naive_solver.
Qed.

Lemma swapped_dissimilar p p' x :
  p <= p' -> (forall q, page_aligned q -> p <= q < p' -> ~ similar q) ->
  swapped p' x <-> swapped p x.
Proof.
  intros Hle Hno. split; intros (q & Hq & Hr & Hs & Hx); exists q; split_and!; try done; try lia.
  destruct (decide (q < p)); [lia|]. exfalso. apply (Hno q); [done|lia|done].
Qed.

Lemma swapped_similar p p' x :
  page_aligned p -> page_aligned p' -> 0 <= p <= p' ->
  (forall q, page_aligned q -> p <= q < p' -> similar q) ->
  swapped p' x <-> swapped p x \/ cur + p <= x < cur + p'.
Proof.
  intros Hp Hp' Hle Hs. split.
  - intros (q & Hq & Hr & Hsq & Hx). destruct (decide (q < p)); [left; exists q; split_and!; try done; lia|right].
    unfold page_aligned, PAGE_SIZE in *. Z.div_mod_to_equations; lia.
  - intros [(q & Hq & Hr & Hsq & Hx)|Hx]; [exists q; split_and!; try done; lia|].
    pose proof (page_start_aligned (x - cur)) as Ha. pose proof (page_start_le (x - cur)) as Hl.
    pose proof (page_start_mono p (x - cur) ltac:(lia)) as Hm. rewrite page_start_id in Hm by done.
    exists (PAGE_START (x - cur)). split_and!; try done; try lia. apply Hs; [done|lia].
Qed.

(** The swap of a run of similar pages. *)
Lemma swap_run sp dev p p' :
  swap_inv p sp -> dev !! fd = Some r ->
  page_aligned p -> page_aligned p' -> 0 <= p < p' -> p' <= size ->
  (forall q, page_aligned q -> p <= q < p' -> similar q) ->
  exists sp', SwapPagesFromFd (cur + p) (p' - p) fd p (mk_world sp dev) = Ret tt (mk_world sp' dev)
              /\ swap_inv p' sp'.
Proof.
  intros Hinv Hdev Hp Hp' Hlt Hle Hsim. unfold SwapPagesFromFd. cbn [w_space w_dev].
  destruct (munmap_ok sp (cur + p) (p' - p)) as [s2 Hs2]; [apply aligned_add; [apply H|done]|lia|].
  rewrite Hs2, Hdev, ash_map_mask, (so_mask H).
  change (within_mask PROT_READ PROT_READ) with true. cbn match. unfold mmap.
  rewrite (proj2 (Z.leb_gt _ _)), (so_grant H) by lia. eexists; split; [done|].
  unfold munmap in Hs2. destruct (kunmap_ok sp (cur + p) (p' - p)); [|done]. injection Hs2 as <-.
  assert (round_up (p' - p) = p' - p) as Hru by (apply round_up_id, aligned_sub; done).
  pose proof (so_pos H). pose proof (round_up_ge (r_size r)).
  split; cbn; rewrite Hru; intros x; destruct (in_range (cur + p) (p' - p) x) eqn:Hx.
  - apply in_range_true in Hx. unfold region_content. rewrite (proj2 (Z.ltb_lt _ _)) by lia.
    pose proof (section_outside x ltac:(lia)) as ->.
    pose proof (page_start_aligned (x - cur)) as Ha. pose proof (page_start_le (x - cur)) as Hl.
    pose proof (page_start_mono p (x - cur) ltac:(lia)) as Hm. rewrite page_start_id in Hm by done.
    pose proof (Hsim (PAGE_START (x - cur)) Ha ltac:(lia) (x - cur - PAGE_START (x - cur)) ltac:(lia)) as Hb.
    replace (cur + PAGE_START (x - cur) + (x - cur - PAGE_START (x - cur))) with x in Hb by lia.
    rewrite Hb. do 2 f_equal. lia.
  - apply (si_byte _ _ Hinv).
  - done.
  - intros Hsw. apply (si_swapped _ _ Hinv). apply (swapped_similar p p') in Hsw; try done; [|lia].
    apply in_range_false in Hx. destruct Hsw; [done|lia].
  - intros Hno. exfalso. apply Hno. apply (swapped_similar p p'); try done; [lia|].
    right. apply in_range_true in Hx. lia.
  - intros Hno. apply (si_other _ _ Hinv). intros Hsw. apply Hno.
    apply (swapped_similar p p'); try done; [lia|by left].
Qed.

Lemma swap_similar_spec dev fuel p sp n :
  swap_inv p sp -> dev !! fd = Some r -> page_aligned p -> 0 <= p < size -> 0 <= n ->
  size - p < (Z.of_nat fuel - 1) * PAGE_SIZE ->
  exists sp' n', swap_similar fuel cur p0 p size fd n (mk_world sp dev) = Ret n' (mk_world sp' dev) /\
    swap_inv size sp' /\ n <= n' /\
    (n < n' <-> exists q, page_aligned q /\ p <= q < size /\ similar q).
Proof.
  intros Hinv Hdev. revert p sp n Hinv. induction fuel as [|fuel IH]; intros p sp n Hinv Hp Hr Hn Hf;
    [unfold PAGE_SIZE in *; lia|].
  cbn [swap_similar]. unfold lbind, lread. cbn [w_space].
  destruct (skip_pages_spec p sp false fuel p Hinv ltac:(lia) Hp ltac:(lia)) as (p1 & -> & Hp1 & Hr1 & Hq1 & Hn1);
    [unfold PAGE_SIZE in *; lia|].
  cbn beta iota. cbn [w_space].
  assert (swap_inv p1 sp) as Hinv1.
  { assert (forall x, swapped p1 x <-> swapped p x) as Heq.
    { intros x. apply swapped_dissimilar; [lia|]. intros q Hqa Hqr Hs. destruct (Hq1 q Hqa Hqr) as [_ Hx].
      by specialize (Hx Hs). }
    split; [apply Hinv|..]; intros x Hx; apply Hinv; by rewrite <-Heq. }
  destruct (skip_pages_spec p1 sp true fuel p1 Hinv1 ltac:(lia) Hp1 ltac:(lia))
    as (p2 & -> & Hp2 & Hr2 & Hq2 & Hn2); [unfold PAGE_SIZE in *; lia|]. cbn beta iota.
  assert (forall q, page_aligned q -> p1 <= q < p2 -> similar q) as Hsim by (intros q ? ?; by apply Hq2).
  destruct (p1 <? p2) eqn:E12; [apply Z.ltb_lt in E12|apply Z.ltb_ge in E12].
  - destruct (swap_run sp dev p1 p2 Hinv1 Hdev Hp1 Hp2 ltac:(lia) ltac:(lia) Hsim) as (sp2 & -> & Hinv2).
    unfold lret. assert (exists q, page_aligned q /\ p <= q < size /\ similar q) as Hex.
    { exists p1. split_and!; [done|lia|lia|]. apply Hsim; [done|lia]. }
    destruct (p2 <? size) eqn:E2.
    + apply Z.ltb_lt in E2. assert (p1 + PAGE_SIZE <= p2) as Hadv.
      { unfold page_aligned, PAGE_SIZE in *. Z.div_mod_to_equations; lia. }
      destruct (IH p2 sp2 (n + (p2 - p1)) Hinv2 Hp2 ltac:(lia) ltac:(lia))
        as (sp' & n' & -> & Hinv' & Hle & _); [unfold PAGE_SIZE in *; lia|].
      exists sp', n'. split_and!; [done|done|lia|]. split; [done|lia].
    + apply Z.ltb_ge in E2. replace p2 with size in * by lia.
      eexists _, _. split; [done|]. split; [done|]. split; [lia|]. split; [done|lia].
  - assert (p2 = p1) as -> by lia. assert (p1 = size) as ->.
    { destruct (decide (p1 = size)); [done|]. exfalso. specialize (Hn1 ltac:(lia)).
      specialize (Hn2 ltac:(lia)). assert (false <> true) by done. tauto. }
    unfold lret. rewrite Z.ltb_irrefl. eexists _, _. split; [done|]. split; [done|]. split; [lia|].
    split; [lia|]. intros (q & Hqa & Hqr & Hs). destruct (Hq1 q Hqa Hqr) as [_ Hx].
    by specialize (Hx Hs).
Qed.

(** The loop of [InitFrom] and the removal of the temporary mapping. *)
Lemma swap_all dev :
  dev !! fd = Some r ->
  exists sp n s', swap_similar (Z.to_nat (size / PAGE_SIZE) + 2) cur p0 0 size fd 0
                 (mk_world mapped_space dev) = Ret n (mk_world sp dev) /\
    munmap sp p0 size = Some s' /\
    (0 <= n /\ (0 < n <-> exists q, page_aligned q /\ 0 <= q < size /\ similar q)) /\
    (forall x, byte_at s' x = byte_at s x \/ prot_at s x = None) /\
    (forall x, swapped size x -> prot_at s' x = Some PROT_READ) /\
    (forall x, ~ swapped size x -> prot_at s' x = prot_at s x).
Proof.
  intros Hdev. pose proof (so_pos H) as Hpos. pose proof (so_size H) as Hsz.
  destruct (swap_similar_spec dev (Z.to_nat (size / PAGE_SIZE) + 2) 0 mapped_space 0)
    as (sp & n & -> & Hinv & Hn & Hex); [|done|done|lia|lia| |].
  { split; [done| |done]. intros x (q & _ & Hq & _). lia. }
  { unfold page_aligned, PAGE_SIZE in *. Z.div_mod_to_equations; lia. }
  destruct (munmap_ok sp p0 size p0_aligned ltac:(lia)) as [s' Hs'].
  exists sp, n, s'. split; [done|]. split; [done|]. split; [done|].
  unfold munmap in Hs'. destruct (kunmap_ok sp p0 size); [|done]. injection Hs' as <-. cbn.
  split_and!; intros x; destruct (in_range p0 (round_up size) x) eqn:Hx.
  - right. by apply (kplace_free (w := kElfBits a) _ _ _ _ _ (so_place H)).
  - left. rewrite (si_byte _ _ Hinv). cbn. by rewrite Hx.
  - intros Hsw. apply swapped_section in Hsw; [|lia]. by rewrite section_outside in Hx.
  - apply (si_swapped _ _ Hinv).
  - intros _. symmetry. by apply (kplace_free (w := kElfBits a) _ _ _ _ _ (so_place H)).
  - intros Hno. rewrite (si_other _ _ Hinv) by done. cbn. by rewrite Hx.
Qed.

End Swap.

(** A request the kernel grants while the address space stays the same. *)
Definition placeable (s : aspace) (size : Z) : Prop :=
  forall s', space_eq s s' -> is_Some (kplace s' 0 size).

Record relro_ready (w : world) (cur size fd : Z) (r : region) : Prop := {
  rr_region : w_dev w !! fd = Some r;
  rr_fd : 0 <= fd;
  rr_mask : r_mask r = PROT_READ;
  rr_size : 0 < size <= r_size r;
  rr_aligned : page_aligned cur /\ page_aligned size;
  rr_readable : forall x, cur <= x < cur + size -> readable (w_space w) x = true;
  rr_place : placeable (w_space w) PAGE_SIZE /\ placeable (w_space w) size;
  rr_grant : forall s x n, kmap_ok s x n = true;
}.

Lemma space_eq_refl s : space_eq s s.
Proof. done. Qed.

(** Replacing readable pages by read-only ones of the same content changes no
    byte that can be read. *)
Lemma replaced_load s s1 s' cur size (P : Z -> Prop) :
  space_eq s s1 -> (forall x, cur <= x < cur + size -> readable s x = true) ->
  (forall x, byte_at s' x = byte_at s1 x \/ prot_at s1 x = None) ->
  (forall x, ~ P x -> prot_at s' x = prot_at s x) ->
  (forall x, P x -> cur <= x < cur + size) ->
  (forall x, P x -> prot_at s' x = Some PROT_READ) ->
  forall x, load_byte s' x = load_byte s x.
Proof.
  intros Heq Hrd Hbyte Hother HP Hin x. destruct (Heq x) as [Hpx Hbx].
  destruct (decide (prot_at s' x = prot_at s x)) as [Hsame|Hne].
  - unfold load_byte, can. rewrite Hsame. destruct (prot_at s x) eqn:Ep; [|done].
    destruct (Hbyte x) as [->|]; [by rewrite Hbx|congruence].
  - destruct (decide (cur <= x < cur + size)) as [Hx|Hx].
    2: { exfalso. apply Hne, Hother. intros Hxs. by apply Hx, HP. }
    pose proof (Hrd x Hx) as Hread. unfold readable, load_byte, can in *.
    assert (prot_at s' x = Some PROT_READ) as ->.
    { destruct (decide (prot_at s' x = Some PROT_READ)) as [|Hn2]; [done|]. exfalso. apply Hne, Hother.
      intros Hxs. by apply Hin in Hxs. }
    change (Z.land PROT_READ PROT_READ) with 1. cbn.
    destruct (prot_at s x) eqn:Ep; [|done].
    destruct (Hbyte x) as [->|]; [|congruence]. rewrite Hbx by done. by destruct (negb _).
Qed.

Lemma init_from_core o w cur size fd r :
  relro_ready w cur size fd r ->
  exists b o' w', InitFrom cur size fd (o, w) = Ret b (o', w') /\ w_dev w' = w_dev w /\
    (b = true <-> exists q, page_aligned q /\ 0 <= q < size /\ similar (w_space w) cur r q) /\
    (forall x, load_byte (w_space w') x = load_byte (w_space w) x) /\
    (forall x, swapped (w_space w) cur r size x -> prot_at (w_space w') x = Some PROT_READ) /\
    (forall x, ~ swapped (w_space w) cur r size x -> prot_at (w_space w') x = prot_at (w_space w) x).
Proof.
  intros [Hr Hfd Hm Hs [Ha1 Ha2] Hrd [Hp1 Hp2] Hg]. unfold InitFrom.
  destruct (check_read_only fd w r Hr Hfd Hm (Hp1 _ (space_eq_refl _))) as (s1 & -> & Heq1).
  destruct (Hp2 _ Heq1) as [p0 Hp0].
  rewrite (allocate_ok size PROT_READ fd (mk_world s1 (w_dev w)) r p0); cbn [w_dev w_space];
    [|done|done|by rewrite Hm|lia|done].
  assert (forall x, cur <= x < cur + size -> prot_at (w_space w) x <> None) as Hmap.
  { intros x Hx. specialize (Hrd x Hx). unfold readable, load_byte, can in Hrd.
    by destruct (prot_at (w_space w) x). }
  assert (swap_ok s1 cur size fd p0 r) as Hok.
  { split; try done. intros x Hx. unfold readable. rewrite (space_eq_load _ _ _ Heq1). by apply Hrd. }
  assert (forall q, page_aligned q -> 0 <= q < size -> similar s1 cur r q <-> similar (w_space w) cur r q) as Hsim.
  { intros q Hq Hq'. assert (q + PAGE_SIZE <= size).
    { unfold page_aligned, PAGE_SIZE in *. Z.div_mod_to_equations; lia. }
    unfold similar. split; intros Hall i Hi; specialize (Hall i Hi);
      rewrite <-Hall; [symmetry|]; apply Heq1, Hmap; lia. }
  assert (forall x, swapped s1 cur r size x <-> swapped (w_space w) cur r size x) as Hsw.
  { intros x. split; intros (q & Hq & Hq' & Hsq & Hx); exists q; split_and!; try done; try lia;
      by apply Hsim. }
  destruct (swap_all s1 cur size fd p0 r Hok (w_dev w) Hr)
    as (sp & n & s' & E & Hun & [Hn0 Hn] & Hbyte & Hin & Hout).
  unfold mapped_space in E. cbn [map_]. rewrite E. unfold mapping_Deallocate.
  cbn [map_writable w_dev w_space map_ size_]. change (negb (Z.land PROT_READ PROT_WRITE =? 0)) with false.
  cbn match. rewrite Hun.
  assert (exists b o', (if n =? 0 then Ret false (o, mk_world s' (w_dev w))
            else Ret true (mk_SharedRelro cur size (ashmem_ o), mk_world s' (w_dev w)))
          = Ret b (o', mk_world s' (w_dev w)) /\ (b = true <-> 0 < n)) as (b & o' & -> & Hb).
  { destruct (n =? 0) eqn:En; [apply Z.eqb_eq in En|apply Z.eqb_neq in En];
      eexists _, _; split; [done| |done|]; [split; [done|lia]|split; [lia|done]]. }
  exists b, o', (mk_world s' (w_dev w)). cbn. split; [done|]. split; [done|]. split.
  { rewrite Hb, Hn. split; intros (q & Hq & Hq' & Hsq); exists q; split_and!; try done; try lia;
      by apply Hsim. }
  assert (forall x, ~ swapped (w_space w) cur r size x -> prot_at s' x = prot_at (w_space w) x) as Hother.
  { intros x Hx. rewrite Hout by (by rewrite Hsw). apply Heq1. }
  split_and!; [|intros x Hx; apply Hin; by rewrite Hsw|done].
  eapply (replaced_load _ s1 s' cur size (swapped (w_space w) cur r size)); try done.
  - intros x Hx. rewrite <-Hsw in Hx. apply (swapped_section s1 cur size fd p0 r Hok) in Hx; [done|lia].
  - intros x Hx. apply Hin. by rewrite Hsw.
Qed.

(** What the driver accepts for a region of [size] bytes. *)
Record region_granted (w : world) (size fd : Z) (name : cstr) : Prop := {
  rg_open : ash_open (w_dev w) = Some fd;
  rg_size : ash_size_ok size = true;
  rg_name : forall n, ash_name_ok n = true;
  rg_mask : forall r, ash_mask_ok r PROT_READ = true;
  rg_place : placeable (w_space w) size;
}.

(** A copy of a readable section through a fresh mapping. *)
Lemma copy_from_spec o w cur size r :
  w_dev w !! ashmem_ o = Some r -> 0 <= ashmem_ o -> within_mask PROT_WRITE (r_mask r) = true ->
  r_size r = size -> 0 < size -> page_aligned size -> is_Some (kplace (w_space w) 0 size) ->
  (forall x, cur <= x < cur + size -> readable (w_space w) x = true) ->
  exists s' r', CopyFrom cur size (o, w)
      = Ret tt (mk_SharedRelro cur size (ashmem_ o), mk_world s' (<[ashmem_ o := r']> (w_dev w))) /\
    space_eq (w_space w) s' /\ r_size r' = size /\ r_name r' = r_name r /\
    forall i, 0 <= i < size -> byte_at (w_space w) (cur + i) = Some (r_byte r' i).
Proof.
  intros Hr Hfd Hm Hsz Hs Hal [p Hp] Hrd. unfold CopyFrom.
  rewrite (allocate_ok size PROT_WRITE (ashmem_ o) w r p) by done.
  pose proof (round_up_id _ Hal) as Hru.
  assert (forall x, cur <= x < cur + size ->
    in_range p (round_up size) x = false /\ exists v, byte_at (w_space w) x = Some v) as Hsec.
  { intros x Hx. specialize (Hrd x Hx). unfold readable, load_byte, can in Hrd.
    split; [|destruct (prot_at (w_space w) x); [|done]; destruct (negb _); [|done];
             destruct (byte_at (w_space w) x); [eauto|done]].
    destruct (in_range p (round_up size) x) eqn:E; [|done].
    by rewrite (kplace_free (w := kElfBits a) _ _ _ _ _ Hp E) in Hrd. }
  cbn [map_ w_space]. unfold memcpy.
  rewrite (proj2 (range_all_true (writable _) _ _)), (proj2 (range_all_true (readable _) _ _)).
  2: { intros x Hx. destruct (Hsec x Hx) as [Ho _]. specialize (Hrd x Hx).
       unfold readable, load_byte, can in *. cbn. by rewrite Ho. }
  2: { intros x Hx. unfold writable, can. cbn. rewrite (proj2 (in_range_true _ _ _)) by lia.
       unfold region_content. by rewrite (proj2 (Z.ltb_lt _ _)) by (rewrite Hsz, Hru; lia). }
  cbn [andb]. unfold mapping_Deallocate. cbn [map_writable w_dev w_space map_ size_ map_fd].
  change (negb (Z.land PROT_WRITE PROT_WRITE =? 0)) with true. cbn match.
  set (s2 := set_bytes _ _ _ _).
  destruct (munmap_ok s2 p size) as [s3 Hs3]; [by eapply kplace_aligned|done|]. rewrite Hs3.
  eexists s3, _. split; [do 3 f_equal|].
  { apply map_eq. intros i. destruct (decide (i = ashmem_ o)) as [->|Hne].
    - by rewrite lookup_alter_eq, lookup_insert_eq, Hr.
    - by rewrite lookup_alter_ne, lookup_insert_ne. }
  split_and!; [|done|done|].
  - eapply (unmap_placed (w_space w) size PROT_WRITE (region_content r 0) p s2); try done.
    intros x Hx. unfold s2. cbn. rewrite !(proj2 (in_range_false _ _ _)) by (rewrite ?Hru in *; lia). done.
  - intros i Hi. destruct (Hsec (cur + i) ltac:(lia)) as [Ho [v Hv]]. cbn.
    rewrite (proj2 (Z.leb_le _ _)), (proj2 (Z.ltb_lt _ _)) by lia. cbn.
    rewrite (proj2 (in_range_true _ _ _)) by lia.
    replace (cur + (p + i - p)) with (cur + i) by lia. rewrite Ho, Hv. done.
Qed.

End Facts.

(** ** An example *)

(** A driver that accepts every request within the masks. *)
#[export] Instance plain_ashmem : Ashmem := {|
  ash_open dev := if decide (dev !! 3 = None) then Some 3 else None;
  ash_size_ok _ := true;
  ash_name_ok _ := true;
  ash_mask_ok _ _ := true;
  ash_map_errno r prot := if within_mask prot (r_mask r) then None else Some EPERM;
  ash_protect_errno r prot := if within_mask prot (r_mask r) then None else Some EACCES;
|}.

#[export] Instance plain_ashmem_ok : AshmemOk plain_ashmem.
Proof.
  split; [|done|done]. intros dev fd. cbn. case_decide as E; [|done]. by intros [= <-].
Qed.

(** A process with a section of two pages of bytes 7, and a region that has the
    same first page. *)
Definition demo_space : aspace :=
  mk_aspace (fun x => if in_range 0x60000000 8192 x then Some 3 else None)
    (fun x => if in_range 0x60000000 8192 x then Some 7 else None).

Definition demo_region : region :=
  mk_region 8192 [] (fun i => if i <? 4096 then 7 else 0) PROT_READ.

Definition demo_world : world := mk_world demo_space {[3 := demo_region]}.

Lemma demo_placeable size : 0 < size <= 8192 -> placeable demo_space size.
Proof.
  intros Hs s' Heq. cbn [kplace eager_kernel List.find].
  change (free_at s' size 0) with false. cbn match.
  assert (free_at s' size 0x40000000 = true) as ->; [|eauto].
  assert (round_up size <= 8192) by (change 8192 with (round_up 8192); apply round_up_mono; lia).
  unfold free_at. change (0 <? 0x40000000) with true. change (0x40000000 mod PAGE_SIZE =? 0) with true.
  rewrite (proj2 (Z.ltb_lt _ _)) by lia. cbn [andb]. apply range_all_true. intros x Hx.
  unfold mapped. rewrite (proj1 (Heq x)). cbn.
  by rewrite (proj2 (in_range_false _ _ _)) by lia.
Qed.

Lemma demo_ready : relro_ready demo_world 0x60000000 8192 3 demo_region.
Proof.
  split; try done.
  - intros x Hx. unfold readable, load_byte, can. cbn.
    by rewrite (proj2 (in_range_true _ _ _)) by lia.
  - split; apply demo_placeable; [unfold PAGE_SIZE|]; lia.
Qed.

(** ** Properties *)

(** C26: Using a shared RELRO section.  With a read-only region, [InitFrom]
    replaces the pages of the section that have the content of the region by
    read-only mappings of the region, and keeps the other ones: the process
    reads the same bytes everywhere before and after, no other mapping changes
    its protection, and the result is true exactly when a page is shared. *)
Theorem InitFrom_keeps_content a `{K : Kernel} `{A : Ashmem} o w relro_start size fd r :
  KernelOk (kElfBits a) K -> AshmemOk A -> relro_ready w relro_start size fd r ->
  exists b o' w', InitFrom relro_start size fd (o, w) = Ret b (o', w') /\ w_dev w' = w_dev w /\
    (b = true <-> exists q, page_aligned q /\ 0 <= q < size /\ similar (w_space w) relro_start r q) /\
    (forall x, load_byte (w_space w') x = load_byte (w_space w) x) /\
    (forall x, swapped (w_space w) relro_start r size x ->
       prot_at (w_space w') x = Some PROT_READ) /\
    (forall x, ~ swapped (w_space w) relro_start r size x ->
       prot_at (w_space w') x = prot_at (w_space w) x).
Proof. intros HK HA Hr. by apply (init_from_core a). Qed.

Lemma InitFrom_keeps_content_witness :
  exists o' w', InitFrom 0x60000000 8192 3 (new_SharedRelro, demo_world) = Ret true (o', w') /\
    prot_at (w_space w') 0x60000010 = Some PROT_READ /\ load_byte (w_space w') 0x60001010 = Some 7.
Proof.
  destruct (InitFrom_keeps_content arm new_SharedRelro demo_world 0x60000000 8192 3 demo_region
    (eager_kernel_ok 32 ltac:(lia)) plain_ashmem_ok demo_ready)
    as (b & o' & w' & E & _ & Hb & Hload & Hin & _).
  assert (similar demo_space 0x60000000 demo_region 0) as Hsim.
  { intros i Hi. unfold PAGE_SIZE in Hi. cbn. rewrite (proj2 (in_range_true _ _ _)) by lia.
    by rewrite (proj2 (Z.ltb_lt _ _)) by lia. }
  assert (b = true) as ->.
  { apply Hb. exists 0. split_and!; [done|lia|lia|done]. }
  exists o', w'. split; [exact E|]. split.
  - apply Hin. exists 0. unfold PAGE_SIZE. split_and!; [done|lia|lia|done|lia|lia].
  - rewrite Hload. reflexivity.
Defined.
