(* ===== verification/RDebug.v ===== *)
(** * The list of libraries of the debugger

    Models [crazy_linker_rdebug.cpp] and its header: the class [RDebug], which
    finds the variable [_r_debug] of the system linker and keeps the libraries of
    the crazy linker in its doubly linked list [r_map], so that debuggers see
    them.  The list, made of structures [link_map_t], is in the address space of
    the process, in pages that may be read-only. *)

From S2P Require Import Prelude Kernel ElfTraits LinkerPhdr Util LineReader ProcMaps ElfView ElfSymbols Relocations.
Open Scope Z_scope.
Open Scope ndk_scope.

Definition RT_CONSISTENT : Z := 0.
Definition RT_ADD : Z := 1.
Definition RT_DELETE : Z := 2.

Definition DT_DEBUG : Z := 21.

(** The object.  [r_debug_] is the address of the structure, 0 for [NULL];
    [poster_] the context of the callback poster, if there is one. *)
Record RDebug := mk_RDebug {
  r_debug_ : Z;
  init_ : bool;
  readonly_entries_ : bool;
  poster_ : option Z;
}.

Definition new_RDebug : RDebug := mk_RDebug 0 false false None.

(** The functions a callback runs: [AddEntryInternal] and [DelEntryInternal]. *)
Inductive handler := AddEntryInternal | DelEntryInternal.

(** The process: the address space, the object, the values of [r_state] that
    the debugger has seen when [r_brk] was called, and the posted callbacks. *)
Record rstate := mk_rstate {
  rs_space : aspace;
  rs_obj : RDebug;
  rs_seen : list Z;
  rs_posted : list (handler * Z);
}.

Definition set_space (s : aspace) (st : rstate) : rstate :=
  mk_rstate s (rs_obj st) (rs_seen st) (rs_posted st).

Definition set_obj (o : RDebug) (st : rstate) : rstate :=
  mk_rstate (rs_space st) o (rs_seen st) (rs_posted st).

(** What the process finds outside itself: the text of [/proc/self/maps] for an
    address space, the target of [/proc/self/exe], and whether a context accepts
    a callback. *)
Class ProcFs := {
  proc_text : aspace -> TextFiles;
  proc_heap : Heap;
  proc_exe : option cstr;
  post_ok : Z -> bool;
}.

Section Operations.
Context (a : arch) `{Kernel} `{FileSystem} `{ProcFs} (raw : cstr).

Local Notation W := (Z.of_nat (sizeof_Addr a)).

(** ** Memory accesses *)

Definition load_word (p : Z) : M rstate Z :=
  lread (fun st => load_le (sizeof_Addr a) (rs_space st) p).

Definition store_bytes (n : nat) (p v : Z) : M rstate unit := fun st =>
  match store_le n (rs_space st) p v with
  | Some s => Ret tt (set_space s st)
  | None => Crash
  end.

Definition store_word (p v : Z) : M rstate unit := store_bytes (sizeof_Addr a) p v.

(** The fields of [link_map_t] and of [r_debug]. *)
Definition l_next (p : Z) : Z := p + 3 * W.
Definition l_prev (p : Z) : Z := p + 4 * W.
Definition r_version (p : Z) : Z := p.
Definition r_map (p : Z) : Z := p + W.
Definition r_state (p : Z) : Z := p + 3 * W.

(** [r_debug_->r_state = v; r_debug_->r_brk();] *)
Definition notify (v : Z) : M rstate unit := fun st =>
  match store_bytes 4 (r_state (r_debug_ (rs_obj st))) v st with
  | Ret _ st => Ret tt (mk_rstate (rs_space st) (rs_obj st) (rs_seen st ++ [v]) (rs_posted st))
  | _ => Crash
  end.

(** ** [ScopedPageMapper] *)

Definition kPageSize : Z := 4096.

(** [FindProtectionFlagsForAddress] in the current process. *)
Definition find_prot (s : aspace) (address : Z) : option (option Z) :=
  @FindProtectionFlagsForAddress a (proc_text s) proc_heap raw address.

(** [ScopedPageMapper::MapReadWrite]: the page and the flags to restore. *)
Definition MapReadWrite (address : Z) : M rstate (Z * Z) := fun st =>
  let page_address := Z.land address (Z.lnot (kPageSize - 1)) in
  match find_prot (rs_space st) address with
  | None => Crash
  | Some None => Ret (0, 0) st
  | Some (Some page_prot) =>
      let rw := Z.lor PROT_READ PROT_WRITE in
      if Z.land page_prot rw =? rw then Ret (0, page_prot) st
      else match mprotect (rs_space st) page_address kPageSize (Z.lor page_prot rw) with
           | Some s => Ret (page_address, page_prot) (set_space s st)
           | None => Ret (0, page_prot) st
           end
  end.

(** The destructor. *)
Definition delete_ScopedPageMapper (m : Z * Z) : M rstate unit := fun st =>
  let '(page_address, page_prot) := m in
  if page_address =? 0 then Ret tt st
  else match mprotect (rs_space st) page_address kPageSize page_prot with
       | Some s => Ret tt (set_space s st)
       | None => Ret tt st
       end.

(** The blocks that store a word of an entry through a mapper. *)
Definition with_mapper (entry field v : Z) : M rstate unit :=
  let* st := lget in
  let* m := (if readonly_entries_ (rs_obj st) then MapReadWrite entry else lret (0, 0)) in
  do* store_word field v in
  delete_ScopedPageMapper m.

(** ** [RDebug::Init] *)

(** [FindExecutablePath]: [readlink] with a buffer of 512 characters. *)
Definition FindExecutablePath : option cstr := take 512 <$> proc_exe.

(** The program headers that [FindElfDynamicSection] reads one after another:
    the first loadable segment and the first dynamic one. *)
Fixpoint scan_phdrs (f : file) (n : nat) (pos : Z) (load0 dyn : option Phdr)
    : option (option Phdr * option Phdr) :=
  match n with
  | O => Some (load0, dyn)
  | S n =>
      if fd_read f pos (sizeof_Phdr a) =? sizeof_Phdr a then
        match read_Phdr a (file_reader f) pos with
        | None => None
        | Some phdr =>
            let '(load0, dyn) :=
              if (p_type phdr =? PT_LOAD) && bool_decide (load0 = None) then (Some phdr, dyn)
              else if (p_type phdr =? PT_DYNAMIC) && bool_decide (dyn = None) then (load0, Some phdr)
              else (load0, dyn) in
            scan_phdrs f n (pos + sizeof_Phdr a) load0 dyn
        end
      else None
  end.

(** [FindElfDynamicSection]: the address and the size of the dynamic section. *)
Definition FindElfDynamicSection (path : cstr) (maps : ProcMapsInternal) : option (Z * Z) :=
  match fs_open path with
  | None => None
  | Some f =>
      if negb (fd_read f 0 (sizeof_Ehdr a) =? sizeof_Ehdr a) then None else
      match read_Ehdr a (file_reader f) 0 with
      | None => None
      | Some header =>
          if negb (bool_decide (take 5 (e_ident header) = [127; 69; 76; 70; kElfClass a])) then None
          else if (e_phoff header =? 0) || negb (e_phentsize header =? sizeof_Phdr a) then None
          else if negb (fs_seek_ok f (e_phoff header)) then None
          else
            match scan_phdrs f (Z.to_nat (e_phnum header)) (e_phoff header) None None with
            | Some (Some phdr_load0, Some phdr_dyn) =>
                match (search (fun e => bool_decide (ProcMaps.path e = Some path)) (Rewind maps)).1 with
                | Some entry =>
                    let load_bias := addr a (vma_start entry - p_vaddr phdr_load0) in
                    Some (addr a (load_bias + p_vaddr phdr_dyn), p_memsz phdr_dyn)
                | None => None
                end
            | _ => None
            end
      end
  end.

(** The loop of [RDebug::Init] over the dynamic table. *)
Fixpoint find_debug (fuel : nat) (maps : ProcMapsInternal) (dyn_section dynamic_size : Z)
    : M rstate bool :=
  match fuel with
  | O => lret false
  | S fuel =>
      if sizeof_Dyn a <=? dynamic_size then
        let* d := lread (fun st => read_Dyn a (load_byte (rs_space st)) dyn_section) in
        if (d_tag d =? DT_DEBUG) && negb (d_val d =? 0) then
          let* version := lread (fun st => load_le 4 (rs_space st) (r_version (d_val d))) in
          let p := if version =? 1 then d_val d else 0 in
          let* st := lget in
          do* lput (set_obj (mk_RDebug p (init_ (rs_obj st)) (readonly_entries_ (rs_obj st))
                               (poster_ (rs_obj st))) st) in
          let* first := load_word (r_map p) in
          let prot := (GetProtectionFlagsForAddress first maps).1 in
          let* st := lget in
          do* lput (set_obj (mk_RDebug p (init_ (rs_obj st)) (Z.land prot PROT_WRITE =? 0)
                               (poster_ (rs_obj st))) st) in
          lret true
        else find_debug fuel maps (dyn_section + sizeof_Dyn a) (dynamic_size - sizeof_Dyn a)
      else lret false
  end.

(** [RDebug::Init] *)
Definition Init : M rstate bool := fun st =>
  let st := set_obj (mk_RDebug (r_debug_ (rs_obj st)) true (readonly_entries_ (rs_obj st))
                       (poster_ (rs_obj st))) st in
  match FindExecutablePath with
  | None => Ret false st
  | Some path =>
      match @ProcMaps.ProcMaps a (proc_text (rs_space st)) proc_heap raw with
      | None => Crash
      | Some self_maps =>
          match FindElfDynamicSection path self_maps with
          | None => Ret false st
          | Some (dynamic_addr, dynamic_size) =>
              find_debug (Z.to_nat (dynamic_size / sizeof_Dyn a)) self_maps dynamic_addr
                dynamic_size st
          end
      end
  end.

(** ** Updates of the list *)

Definition reset_r_debug : M rstate unit := fun st =>
  Ret tt (set_obj (mk_RDebug 0 (init_ (rs_obj st)) (readonly_entries_ (rs_obj st))
                     (poster_ (rs_obj st))) st).

(** [RDebug::AddEntryImpl] *)
Definition AddEntryImpl (entry : Z) : M rstate unit :=
  let* st := lget in
  do* (if init_ (rs_obj st) then lret true else Init) in
  let* st := lget in
  let p := r_debug_ (rs_obj st) in
  if p =? 0 then lret tt else
  do* notify RT_ADD in
  let* first := load_word (r_map p) in
  if first =? 0 then reset_r_debug else
  let* before := load_word (l_next first) in
  if before =? 0 then reset_r_debug else
  let* after := load_word (l_next before) in
  if after =? 0 then reset_r_debug else
  do* store_word (l_prev entry) before in
  do* store_word (l_next entry) after in
  do* with_mapper before (l_next before) entry in
  do* with_mapper after (l_prev after) entry in
  notify RT_CONSISTENT.

(** The last part of [RDebug::DelEntryImpl]: the entry is no longer the first
    one, and has no neighbours. *)
Definition clear_entry (p entry : Z) : M rstate unit :=
  let* first := load_word (r_map p) in
  let* next := load_word (l_next entry) in
  do* (if first =? entry then store_word (r_map p) next else lret tt) in
  do* store_word (l_prev entry) 0 in
  do* store_word (l_next entry) 0 in
  notify RT_CONSISTENT.

(** [RDebug::DelEntryImpl] *)
Definition DelEntryImpl (entry : Z) : M rstate unit :=
  let* st := lget in
  let p := r_debug_ (rs_obj st) in
  if p =? 0 then lret tt else
  do* notify RT_DELETE in
  let* prev := load_word (l_prev entry) in
  let* next := load_word (l_next entry) in
  do* (if prev =? 0 then lret tt else with_mapper prev (l_next prev) next) in
  let* prev := load_word (l_prev entry) in
  let* next := load_word (l_next entry) in
  do* (if next =? 0 then lret tt else with_mapper next (l_prev next) prev) in
  clear_entry p entry.

(** ** Callbacks *)

Definition run_handler (h : handler) (entry : Z) : M rstate unit :=
  match h with
  | AddEntryInternal => AddEntryImpl entry
  | DelEntryInternal => DelEntryImpl entry
  end.

(** [RDebug::PostCallback] *)
Definition PostCallback (h : handler) (entry : Z) : M rstate bool := fun st =>
  match poster_ (rs_obj st) with
  | None => Ret false st
  | Some context =>
      if post_ok context
      then Ret true (mk_rstate (rs_space st) (rs_obj st) (rs_seen st) (rs_posted st ++ [(h, entry)]))
      else Ret false st
  end.

(** [RDebug::RunOrDelay] *)
Definition RunOrDelay (h : handler) (entry : Z) : M rstate unit :=
  let* posted := PostCallback h entry in
  if posted then lret tt else run_handler h entry.

Definition AddEntry (entry : Z) : M rstate unit := RunOrDelay AddEntryInternal entry.

Definition DelEntry (entry : Z) : M rstate unit := RunOrDelay DelEntryInternal entry.

(** [RDebugRunnable::Run] on the oldest posted callback. *)
Definition Run : M rstate unit := fun st =>
  match rs_posted st with
  | [] => Ret tt st
  | (h, entry) :: rest =>
      run_handler h entry (mk_rstate (rs_space st) (rs_obj st) (rs_seen st) rest)
  end.

(** [RDebug::SetDelayedCallbackPoster] *)
Definition SetDelayedCallbackPoster (poster : option Z) : M rstate unit := fun st =>
  Ret tt (set_obj (mk_RDebug (r_debug_ (rs_obj st)) (init_ (rs_obj st))
                     (readonly_entries_ (rs_obj st)) poster) st).

End Operations.

(** ** Words in memory *)

(** [s'] is [s] after the store of the [n] bytes of [v] at [p]. *)
Definition wrote (n : nat) (p v : Z) (s s' : aspace) : Prop :=
  (forall x, prot_at s' x = prot_at s x) /\
  (forall x, byte_at s' x
             = if in_range p (Z.of_nat n) x then Some (le_byte v (x - p)) else byte_at s x).

Definition can_store (s : aspace) (n : nat) (p : Z) : Prop :=
  forall x, p <= x < p + Z.of_nat n -> can PROT_WRITE s x = true /\ byte_at s x <> None.

Lemma store_wrote n s p v :
  can_store s n p -> exists s', store_le n s p v = Some s' /\ wrote n p v s s'.
Proof.
  intros Hs. unfold store_le. rewrite (proj2 (range_all_true _ _ _)).
  2: { intros x Hx. destruct (Hs x Hx) as [Hw Hb]. unfold writable. rewrite Hw.
       by destruct (byte_at s x). }
  eexists; split; [done|]. split; done.
Qed.

Lemma wrote_load_other n p v s s' m q :
  wrote n p v s s' -> q + Z.of_nat m <= p \/ p + Z.of_nat n <= q -> load_le m s' q = load_le m s q.
Proof.
  intros [Hp Hb] Hd. apply read_le_ext. intros x Hx. unfold load_byte, can. rewrite Hp, Hb.
  by rewrite (proj2 (in_range_false _ _ _)) by lia.
Qed.

Lemma wrote_load_same n p v s s' :
  wrote n p v s s' -> (forall x, p <= x < p + Z.of_nat n -> can PROT_READ s x = true) ->
  load_le n s' p = Some (v mod 256 ^ Z.of_nat n).
Proof.
  intros [Hp Hb] Hr. apply read_le_bytes. intros i Hi. unfold load_byte.
  assert (can PROT_READ s' (p + i) = true) as ->.
  { unfold can. rewrite Hp. apply Hr. lia. }
  rewrite Hb, (proj2 (in_range_true _ _ _)) by lia. do 2 f_equal. lia.
Qed.

Lemma wrote_trans n p v s s1 s2 :
  wrote n p v s s1 -> (forall x, prot_at s2 x = prot_at s x) ->
  (forall x, byte_at s2 x = byte_at s1 x) -> wrote n p v s s2.
Proof. intros [Hp Hb] Hp2 Hb2. split; intros x; [done|]. by rewrite Hb2, Hb. Qed.

(** ** Doubly linked lists

    [ld] gives the words of memory, [nx] and [pv] the addresses of the fields of
    an entry: the entries [l] are linked, the first one back to [prev] and the
    last one forward to [next]. *)
Section Lists.
Context (nx pv : Z -> Z).

Fixpoint linked (ld : Z -> option Z) (prev : Z) (l : list Z) (next : Z) : Prop :=
  match l with
  | [] => True
  | p :: l => ld (nx p) = Some (hd next l) /\ ld (pv p) = Some prev /\ linked ld p l next
  end.

Definition upd (ld : Z -> option Z) (f v : Z) : Z -> option Z :=
  fun p => if decide (p = f) then Some v else ld p.

Lemma linked_ext ld ld' prev l next :
  (forall p, p ∈ l -> ld' (nx p) = ld (nx p) /\ ld' (pv p) = ld (pv p)) ->
  linked ld prev l next -> linked ld' prev l next.
Proof.
  revert prev. induction l as [|p l IH]; intros prev Heq; [done|]. cbn. intros (H1 & H2 & H3).
  destruct (Heq p ltac:(list_in)) as [-> ->]. split_and!; [done|done|].
  apply IH; [|done]. intros q Hq. apply Heq. list_in.
Qed.

Lemma linked_app ld prev l1 l2 next :
  linked ld prev (l1 ++ l2) next
  <-> linked ld prev l1 (hd next l2) /\ linked ld (List.last l1 prev) l2 next.
Proof.
  revert prev. induction l1 as [|p l1 IH]; intros prev; cbn [linked app]; [tauto|].
  rewrite IH. replace (hd next (l1 ++ l2)) with (hd (hd next l2) l1) by (by destruct l1).
  replace (List.last (p :: l1) prev) with (List.last l1 p); [tauto|].
  clear. revert p prev. induction l1 as [|q l1 IH]; intros p prev; [done|].
  cbn [List.last] in *. destruct l1; [done|]. apply IH.
Qed.

End Lists.

(** ** Stores to entries *)

Section Facts.
Context (a : arch) `{K : Kernel} `{FS : FileSystem} `{PF : ProcFs} (raw : cstr).
Context (d : Z) (es : list Z) (ro : bool) (prots : Z -> option Z).

Local Notation W := (Z.of_nat (sizeof_Addr a)).

Definition allows (flag x : Z) : Prop :=
  exists p, prots x = Some p /\ Z.land p flag <> 0.

(** The fields of an entry can be stored: its memory is writable, or the mapper
    is used and the entry is in one page. *)
Definition entry_writable (e : Z) : Prop :=
  (forall y, e <= y < e + 5 * W -> allows PROT_WRITE y) \/
  ro = true /\ e + 5 * W <= PAGE_START e + PAGE_SIZE /\
  (forall y, PAGE_START e <= y < PAGE_START e + PAGE_SIZE -> prots y = prots e).

(** The objects of the list: the structure [r_debug] at [d] and the entries
    [es], in memory with protections [prots]. *)
Record layout : Prop := {
  ly_apart : forall x y, x ∈ d :: es -> y ∈ d :: es -> x <> y -> x + 5 * W <= y \/ y + 5 * W <= x;
  ly_fresh : d ∉ es;
  ly_range : forall x, x ∈ d :: es -> PAGE_SIZE <= x /\ x + 5 * W <= 2 ^ kElfBits a;
  ly_read : forall x y, x ∈ d :: es -> x <= y < x + 5 * W -> allows PROT_READ y;
  ly_debug : forall y, d <= y < d + 5 * W -> allows PROT_WRITE y;
  ly_entry : forall e, e ∈ es -> entry_writable e;
  ly_proc : forall s x, (forall x, prot_at s x = prots x) -> find_prot a raw s x = Some (prots x);
  ly_grant : forall s x n p, kprot_ok s x n p = true;
}.

Context (L : layout).

Lemma W_cases : W = 4 \/ W = 8.
Proof. destruct a; auto. Qed.

Lemma allows_can s flag x :
  (forall x, prot_at s x = prots x) -> allows flag x -> can flag s x = true.
Proof.
  intros Hs (p & Hp & Hf). unfold can. rewrite Hs, Hp. by apply negb_true_iff, Z.eqb_neq.
Qed.

Lemma land_pow2 p k : 0 <= k -> Z.land p (2 ^ k) = if Z.testbit p k then 2 ^ k else 0.
Proof.
  intros Hk. apply Z.bits_inj'. intros n Hn. rewrite Z.land_spec, Z.pow2_bits_eqb by done.
  destruct (k =? n) eqn:E.
  - apply Z.eqb_eq in E as <-. rewrite andb_true_r.
    destruct (Z.testbit p k); [by rewrite Z.pow2_bits_true|by rewrite Z.bits_0].
  - rewrite andb_false_r. destruct (Z.testbit p k); [|by rewrite Z.bits_0].
    by rewrite Z.pow2_bits_eqb, E.
Qed.

Lemma land_rw p : Z.land p PROT_READ <> 0 -> Z.land p PROT_WRITE <> 0 ->
  Z.land p (Z.lor PROT_READ PROT_WRITE) = Z.lor PROT_READ PROT_WRITE.
Proof.
  rewrite Z.land_lor_distr_r. change PROT_READ with (2 ^ 0). change PROT_WRITE with (2 ^ 1).
  rewrite !land_pow2 by lia. by destruct (Z.testbit p 0), (Z.testbit p 1).
Qed.

Lemma lor_rw p : Z.land (Z.lor p (Z.lor PROT_READ PROT_WRITE)) PROT_WRITE <> 0.
Proof.
  assert (Z.testbit (Z.land (Z.lor p (Z.lor PROT_READ PROT_WRITE)) PROT_WRITE) 1 = true) as Hb.
  { rewrite Z.land_spec, Z.lor_spec. change (Z.testbit (Z.lor _ _) 1) with true at 1.
    by rewrite orb_true_r. }
  intros E. by rewrite E in Hb.
Qed.

(** A state whose protections are [prots]. *)
Definition steady (st : rstate) : Prop :=
  (forall x, prot_at (rs_space st) x = prots x) /\ readonly_entries_ (rs_obj st) = ro.

(** The bytes of a word are there. *)
Definition cell (s : aspace) (n : nat) (p : Z) : Prop :=
  forall x, p <= x < p + Z.of_nat n -> byte_at s x <> None.

Lemma store_direct n p v st :
  steady st -> cell (rs_space st) n p ->
  (forall x, p <= x < p + Z.of_nat n -> allows PROT_WRITE x) ->
  exists s', store_bytes n p v st = Ret tt (set_space s' st) /\ wrote n p v (rs_space st) s'.
Proof.
  intros [Hs _] Hc Hw. destruct (store_wrote n (rs_space st) p v) as (s' & E & Hwr).
  { intros x Hx. split; [by apply allows_can, Hw|by apply Hc]. }
  exists s'. unfold store_bytes. by rewrite E.
Qed.

(** Changing the protection of the page of an entry. *)
Lemma protect_page e s prot :
  PAGE_SIZE <= e -> mapped s (PAGE_START e) = true ->
  mprotect s (PAGE_START e) kPageSize prot = Some (set_prot s (PAGE_START e) kPageSize prot).
Proof.
  intros He Hm. unfold mprotect, pages_mapped. change (Z.to_nat _) with 1%nat.
  cbn [seq forallb]. replace (PAGE_START e + Z.of_nat 0 * PAGE_SIZE) with (PAGE_START e) by lia.
  by rewrite Hm, (ly_grant L).
Qed.

Lemma page_address e : Z.land e (Z.lnot (kPageSize - 1)) = PAGE_START e.
Proof. done. Qed.

(** The store between the two changes of protection. *)
Lemma store_mapped e f v st p :
  e ∈ es -> steady st -> e <= f -> f + W <= e + 5 * W -> cell (rs_space st) (sizeof_Addr a) f ->
  e + 5 * W <= PAGE_START e + PAGE_SIZE ->
  (forall y, PAGE_START e <= y < PAGE_START e + PAGE_SIZE -> prots y = Some p) ->
  let rw := Z.lor p (Z.lor PROT_READ PROT_WRITE) in
  let st1 := set_space (set_prot (rs_space st) (PAGE_START e) kPageSize rw) st in
  exists s', (do* store_word a f v in delete_ScopedPageMapper (PAGE_START e, p)) st1
             = Ret tt (set_space s' st) /\ wrote (sizeof_Addr a) f v (rs_space st) s'.
Proof.
  intros He [Hp Hro] Hf1 Hf2 Hc Hpg Hu rw st1. pose proof W_cases as HW.
  assert (e ∈ d :: es) as He' by list_in. destruct (ly_range L e He') as [Hr _].
  pose proof (page_start_le e) as Hps. unfold PAGE_SIZE in *.
  assert (forall x, prot_at (rs_space st1) x
    = if in_range (PAGE_START e) 4096 x then Some rw else prots x) as Hp1.
  { intros x. cbn. change (round_up kPageSize) with 4096. by rewrite Hp. }
  destruct (store_wrote (sizeof_Addr a) (rs_space st1) f v) as (s2 & E2 & Hw2).
  { intros x Hx. split; [|by apply Hc]. unfold can. rewrite Hp1, (proj2 (in_range_true _ _ _)) by lia.
    apply negb_true_iff, Z.eqb_neq, lor_rw. }
  destruct Hw2 as [Hw2p Hw2b]. unfold lbind, store_word, store_bytes. rewrite E2.
  unfold delete_ScopedPageMapper. rewrite (proj2 (Z.eqb_neq _ _)).
  2: { pose proof (page_start_mono 4096 e Hr). change (PAGE_START 4096) with 4096 in *. lia. }
  cbn [rs_space set_space]. rewrite protect_page; [|done|].
  2: { unfold mapped. rewrite Hw2p, Hp1, (proj2 (in_range_true _ _ _)) by lia. done. }
  eexists; split; [done|]. split; intros x; cbn; change (round_up kPageSize) with 4096.
  - destruct (in_range (PAGE_START e) 4096 x) eqn:Ex.
    + apply in_range_true in Ex. rewrite Hp. symmetry. apply Hu. lia.
    + by rewrite Hw2p, Hp1, Ex, Hp.
  - by rewrite Hw2b.
Qed.

(** Storing a field through the mapper. *)
Lemma with_mapper_ok e f v st :
  e ∈ es -> steady st -> e <= f -> f + W <= e + 5 * W -> cell (rs_space st) (sizeof_Addr a) f ->
  exists s', with_mapper a raw e f v st = Ret tt (set_space s' st)
             /\ wrote (sizeof_Addr a) f v (rs_space st) s'.
Proof.
  intros He Hst Hf1 Hf2 Hc. pose proof Hst as [Hp Hro].
  assert (e ∈ d :: es) as He' by list_in. pose proof W_cases as HW.
  destruct (ly_range L e He') as [Hr _]. unfold with_mapper, lbind at 1 2, lget. rewrite Hro.
  assert ((forall y, e <= y < e + 5 * W -> allows PROT_WRITE y) ->
    exists s', (do* store_word a f v in delete_ScopedPageMapper (0, 0)) st = Ret tt (set_space s' st)
               /\ wrote (sizeof_Addr a) f v (rs_space st) s') as Hdirect.
  { intros Hw. destruct (store_direct (sizeof_Addr a) f v st Hst Hc) as (s' & E & Hwr).
    { intros x Hx. apply Hw. lia. }
    exists s'. unfold lbind, store_word. by rewrite E. }
  assert (forall z, (do* store_word a f v in delete_ScopedPageMapper (0, z)) st
                    = (do* store_word a f v in delete_ScopedPageMapper (0, 0)) st) as Hz by done.
  destruct (decide (ro = true)) as [Ero|Ero].
  2: { apply not_true_is_false in Ero. rewrite Ero. apply Hdirect.
       destruct (ly_entry L e He) as [Hw|[? _]]; [done|congruence]. }
  rewrite Ero. unfold MapReadWrite. rewrite (ly_proc L) by done.
  destruct (ly_read L e e He' ltac:(lia)) as (p & Hpe & Hpr). rewrite Hpe.
  destruct (Z.land p (Z.lor PROT_READ PROT_WRITE) =? Z.lor PROT_READ PROT_WRITE) eqn:Erw.
  - rewrite Hz. apply Hdirect. destruct (ly_entry L e He) as [Hw|(_ & Hpg & Hu)]; [done|].
    intros y Hy. exists p. pose proof (page_start_le e). rewrite Hu by lia. split; [done|].
    intros E0. apply Z.eqb_eq in Erw. rewrite Z.land_lor_distr_r, E0, Z.lor_0_r in Erw.
    pose proof (land_pow2 p 0 ltac:(lia)) as E1. change (2 ^ 0) with PROT_READ in E1.
    rewrite Erw in E1. by destruct (Z.testbit p 0).
  - destruct (ly_entry L e He) as [Hw|(_ & Hpg & Hu)].
    + exfalso. apply Z.eqb_neq in Erw. apply Erw, land_rw; [done|].
      destruct (Hw e ltac:(lia)) as (p' & Hp' & Hpw). congruence.
    + rewrite page_address. pose proof (page_start_le e) as Hps.
      rewrite protect_page; [|done|unfold mapped; by rewrite Hp, Hu, Hpe by (unfold PAGE_SIZE; lia)].
      apply (store_mapped e f v st p); try done. intros y Hy. by rewrite Hu.
Qed.

(** ** The words of the list *)

Context (s0 : aspace).

Definition field (p : Z) : Prop :=
  p = r_map a d \/ exists e, e ∈ es /\ (p = l_next a e \/ p = l_prev a e).

Definition inside (y : Z) : Prop := exists x, x ∈ d :: es /\ x <= y < x + 5 * W.

(** The words of the list are those of [ld]; the memory outside the list is
    that of [s0]. *)
Record mem (ld : Z -> option Z) (st : rstate) : Prop := {
  m_steady : steady st;
  m_debug : r_debug_ (rs_obj st) = d;
  m_words : forall p, field p -> load_le (sizeof_Addr a) (rs_space st) p = ld p;
  m_bytes : forall y, inside y -> byte_at (rs_space st) y <> None;
  m_outside : forall y, ~ inside y -> byte_at (rs_space st) y = byte_at s0 y;
}.

Lemma field_object p : field p -> exists x, x ∈ d :: es /\ x <= p /\ p + W <= x + 5 * W.
Proof.
  pose proof W_cases as HW.
  intros [->|(e & He & [->| ->])]; [exists d|exists e..]; split_and!;
    try list_in; unfold r_map, l_next, l_prev; lia.
Qed.

Lemma field_apart p q : field p -> field q -> p <> q -> p + W <= q \/ q + W <= p.
Proof.
  intros Hp Hq Hne. pose proof W_cases as HW. pose proof (ly_apart L) as Ha. pose proof (ly_fresh L) as Hf.
  unfold field, r_map, l_next, l_prev in *.
  assert (forall e, e ∈ es -> d + 5 * W <= e \/ e + 5 * W <= d) as Hd.
  { intros e He. apply Ha; [list_in|list_in|]. intros Heq. apply Hf. by rewrite Heq. }
  destruct Hp as [->|(e & He & Hpe)], Hq as [->|(e' & He' & Hqe)]; [done| | |].
  - destruct (Hd e' He'); destruct Hqe as [->| ->]; lia.
  - destruct (Hd e He); destruct Hpe as [->| ->]; lia.
  - destruct (decide (e = e')) as [->|Hee]; [destruct Hpe as [->| ->], Hqe as [->| ->]; lia|].
    destruct (Ha e e' ltac:(list_in) ltac:(list_in) Hee); destruct Hpe as [->| ->], Hqe as [->| ->]; lia.
Qed.

Lemma field_state p : field p -> p + W <= r_state a d \/ r_state a d + 4 <= p.
Proof.
  intros Hp. pose proof W_cases as HW. unfold field, r_state, r_map, l_next, l_prev in *.
  destruct Hp as [->|(e & He & Hpe)]; [lia|].
  destruct (ly_apart L d e ltac:(list_in) ltac:(list_in)).
  { intros Heq. apply (ly_fresh L). by rewrite Heq. }
  all: destruct Hpe as [->| ->]; lia.
Qed.

Lemma inside_word p x : field p -> p <= x < p + W -> inside x.
Proof. intros Hp Hx. destruct (field_object p Hp) as (o & Ho & ? & ?). exists o. split; [done|lia]. Qed.

Lemma mem_cell ld st p : mem ld st -> field p -> cell (rs_space st) (sizeof_Addr a) p.
Proof. intros Hm Hp x Hx. apply (m_bytes _ _ Hm). by eapply inside_word. Qed.

Lemma mem_store ld st f v s' :
  mem ld st -> field f -> 0 <= v < 2 ^ kElfBits a ->
  wrote (sizeof_Addr a) f v (rs_space st) s' -> mem (upd ld f v) (set_space s' st).
Proof.
  intros [[Hp Hro] Hd Hw Hb Ho] Hf Hv Hwr. destruct (field_object f Hf) as (o & Hoo & Hof1 & Hof2).
  split; cbn.
  - split; [|done]. intros x. cbn. rewrite <-Hp. apply Hwr.
  - done.
  - intros p Hpf. unfold upd. case_decide as E.
    + subst p. rewrite (wrote_load_same _ _ _ _ _ Hwr).
      * rewrite pow_kElfBits, Z.mod_small by done. done.
      * intros x Hx. apply allows_can; [done|]. apply (ly_read L o); [done|lia].
    + rewrite (wrote_load_other _ _ _ _ _ _ _ Hwr); [by apply Hw|]. by apply field_apart.
  - intros y Hy. rewrite (proj2 Hwr). case_match; [done|by apply Hb].
  - intros y Hy. rewrite (proj2 Hwr). rewrite (proj2 (in_range_false _ _ _)); [by apply Ho|].
    intros Hx. apply Hy. exists o. split; [done|lia].
Qed.

Lemma mem_load ld st p v : mem ld st -> field p -> ld p = Some v -> load_word a p st = Ret v st.
Proof. intros Hm Hp Hl. unfold load_word, lread. by rewrite (m_words _ _ Hm), Hl. Qed.

Lemma mem_store_word ld st f v :
  mem ld st -> field f -> 0 <= v < 2 ^ kElfBits a ->
  (forall x, f <= x < f + W -> allows PROT_WRITE x) ->
  exists s', store_word a f v st = Ret tt (set_space s' st) /\ mem (upd ld f v) (set_space s' st).
Proof.
  intros Hm Hf Hv Hw. destruct (store_direct (sizeof_Addr a) f v st) as (s' & E & Hwr);
    [apply Hm|by eapply mem_cell|done|]. exists s'. split; [done|]. by apply mem_store.
Qed.

Lemma mem_with_mapper ld st e f v :
  mem ld st -> e ∈ es -> f = l_next a e \/ f = l_prev a e -> 0 <= v < 2 ^ kElfBits a ->
  exists s', with_mapper a raw e f v st = Ret tt (set_space s' st)
             /\ mem (upd ld f v) (set_space s' st).
Proof.
  intros Hm He Hf Hv. assert (field f) as Hff by (right; eauto). pose proof W_cases as HW.
  destruct (with_mapper_ok e f v st) as (s' & E & Hwr); [done|apply Hm| | |by eapply mem_cell|].
  1, 2: unfold l_next, l_prev in Hf; lia.
  exists s'. split; [done|]. by apply mem_store.
Qed.

Lemma mem_notify ld st v :
  mem ld st ->
  exists st', notify a v st = Ret tt st' /\ mem ld st' /\ rs_obj st' = rs_obj st /\
              rs_seen st' = rs_seen st ++ [v] /\ rs_posted st' = rs_posted st.
Proof.
  intros Hm. pose proof W_cases as HW. pose proof Hm as [[Hp Hro] Hd Hw Hb Ho].
  destruct (store_direct 4 (r_state a d) v st) as (s' & E & Hwr); [by split| | |].
  { intros x Hx. apply Hb. exists d. split; [list_in|]. unfold r_state in Hx. lia. }
  { intros x Hx. apply (ly_debug L). unfold r_state in Hx. lia. }
  unfold notify. rewrite Hd, E. eexists; split; [done|]. split; [|done]. split; cbn.
  - split; [|done]. intros x. cbn. rewrite <-Hp. apply Hwr.
  - done.
  - intros p Hpf. rewrite (wrote_load_other _ _ _ _ _ _ _ Hwr); [by apply Hw|]. by apply field_state.
  - intros y Hy. rewrite (proj2 Hwr). case_match; [done|by apply Hb].
  - intros y Hy. rewrite (proj2 Hwr). rewrite (proj2 (in_range_false _ _ _)); [by apply Ho|].
    intros Hx. apply Hy. exists d. split; [list_in|]. unfold r_state in Hx. lia.
Qed.

(** Fields of entries are different words. *)
Lemma next_ne e e' : e <> e' -> l_next a e <> l_next a e'.
Proof. unfold l_next. lia. Qed.

Lemma prev_ne e e' : e <> e' -> l_prev a e <> l_prev a e'.
Proof. unfold l_prev. lia. Qed.

Lemma next_prev_ne e e' : e ∈ es -> e' ∈ es -> l_next a e <> l_prev a e'.
Proof.
  intros He He'. pose proof W_cases as HW. unfold l_next, l_prev.
  destruct (decide (e = e')) as [->|Hne]; [lia|].
  destruct (ly_apart L e e' ltac:(list_in) ltac:(list_in) Hne); lia.
Qed.

Lemma map_ne e : e ∈ es -> r_map a d <> l_next a e /\ r_map a d <> l_prev a e.
Proof.
  intros He. pose proof W_cases as HW. unfold r_map, l_next, l_prev.
  destruct (ly_apart L d e ltac:(list_in) ltac:(list_in)); [|lia..].
  intros Heq. apply (ly_fresh L). by rewrite Heq.
Qed.

Lemma upd_eq ld f v : upd ld f v f = Some v.
Proof. unfold upd. by rewrite decide_True. Qed.

Lemma upd_ne ld f v p : p <> f -> upd ld f v p = ld p.
Proof. intros. unfold upd. by rewrite decide_False. Qed.

Lemma entry_value e : e ∈ es -> e <> 0 /\ 0 <= e < 2 ^ kElfBits a.
Proof.
  intros He. pose proof W_cases as HW. pose proof (ly_range L e ltac:(list_in)).
  unfold PAGE_SIZE in *. lia.
Qed.

Lemma field_next e : e ∈ es -> field (l_next a e).
Proof. right; eauto. Qed.

Lemma field_prev e : e ∈ es -> field (l_prev a e).
Proof. right; eauto. Qed.

Lemma field_map : field (r_map a d).
Proof. by left. Qed.

(** The entry is in memory of the crazy linker, which is writable. *)
Definition own_entry (e : Z) : Prop := forall y, e <= y < e + 5 * W -> allows PROT_WRITE y.

Lemma own_field e f : own_entry e -> f = l_next a e \/ f = l_prev a e ->
  forall x, f <= x < f + W -> allows PROT_WRITE x.
Proof.
  intros Ho Hf x Hx. apply Ho. pose proof W_cases. unfold l_next, l_prev in Hf. lia.
Qed.

Lemma add_entry_words ld st e p1 p2 q :
  mem ld st -> init_ (rs_obj st) = true -> d <> 0 ->
  e ∈ es -> own_entry e -> p1 ∈ es -> p2 ∈ es -> q ∈ es ->
  ld (r_map a d) = Some p1 -> ld (l_next a p1) = Some p2 -> ld (l_next a p2) = Some q ->
  exists st', AddEntryImpl a raw e st = Ret tt st' /\
    mem (upd (upd (upd (upd ld (l_prev a e) p2) (l_next a e) q) (l_next a p2) e) (l_prev a q) e) st' /\
    rs_obj st' = rs_obj st /\ rs_seen st' = rs_seen st ++ [RT_ADD; RT_CONSISTENT] /\
    rs_posted st' = rs_posted st.
Proof.
  intros Hm Hi Hd He Ho H1 H2 Hq L1 L2 L3. unfold AddEntryImpl, lbind at 1 2, lget. rewrite Hi.
  unfold lret at 1. unfold lbind at 1. rewrite (m_debug _ _ Hm), (proj2 (Z.eqb_neq _ _) Hd).
  destruct (mem_notify ld st RT_ADD Hm) as (st1 & E1 & Hm1 & Ob1 & Se1 & Po1).
  rewrite (lbind_step _ _ _ _ _ E1).
  rewrite (lbind_step _ _ _ _ _ (mem_load _ _ _ _ Hm1 field_map L1)).
  rewrite (proj2 (Z.eqb_neq _ _) (proj1 (entry_value p1 H1))).
  rewrite (lbind_step _ _ _ _ _ (mem_load _ _ _ _ Hm1 (field_next p1 H1) L2)).
  rewrite (proj2 (Z.eqb_neq _ _) (proj1 (entry_value p2 H2))).
  rewrite (lbind_step _ _ _ _ _ (mem_load _ _ _ _ Hm1 (field_next p2 H2) L3)).
  rewrite (proj2 (Z.eqb_neq _ _) (proj1 (entry_value q Hq))).
  destruct (mem_store_word _ _ (l_prev a e) p2 Hm1) as (s2 & E2 & Hm2);
    [by apply field_prev|by apply entry_value|eapply own_field; eauto|].
  rewrite (lbind_step _ _ _ _ _ E2).
  destruct (mem_store_word _ _ (l_next a e) q Hm2) as (s3 & E3 & Hm3);
    [by apply field_next|by apply entry_value|eapply own_field; eauto|].
  rewrite (lbind_step _ _ _ _ _ E3).
  destruct (mem_with_mapper _ _ p2 (l_next a p2) e Hm3 H2) as (s4 & E4 & Hm4);
    [by left|by apply entry_value|]. rewrite (lbind_step _ _ _ _ _ E4).
  destruct (mem_with_mapper _ _ q (l_prev a q) e Hm4 Hq) as (s5 & E5 & Hm5);
    [by right|by apply entry_value|]. rewrite (lbind_step _ _ _ _ _ E5).
  destruct (mem_notify _ _ RT_CONSISTENT Hm5) as (st6 & E6 & Hm6 & Ob6 & Se6 & Po6).
  exists st6. rewrite E6. split; [done|]. split; [done|].
  rewrite Ob6, Se6, Po6. cbn. rewrite Ob1, Se1, Po1, <-app_assoc. done.
Qed.

(** Linking [e] between [p2] and [q]. *)
Lemma add_entry_linked ld e p1 p2 q l :
  Forall (fun p => p ∈ es) (e :: p1 :: p2 :: q :: l) -> NoDup (e :: p1 :: p2 :: q :: l) ->
  linked (l_next a) (l_prev a) ld 0 (p1 :: p2 :: q :: l) 0 ->
  linked (l_next a) (l_prev a)
    (upd (upd (upd (upd ld (l_prev a e) p2) (l_next a e) q) (l_next a p2) e) (l_prev a q) e)
    0 (p1 :: p2 :: e :: q :: l) 0.
Proof.
  intros Hes Hnd Hl. repeat (apply Forall_cons_1 in Hes as [? Hes]).
  rewrite !list.NoDup_cons, !not_elem_of_cons in Hnd.
  destruct Hnd as ((?&?&?&?) & (?&?&?) & (?&?) & ? & _).
  destruct Hl as (A1 & A2 & B1 & B2 & C1 & C2 & Hr). cbn [hd] in *.
  cbn [linked hd]. split_and!.
  1-8: repeat first [rewrite upd_eq; done | rewrite upd_ne
         by (auto using next_ne, prev_ne, next_prev_ne, not_eq_sym)]; done.
  eapply linked_ext; [|exact Hr]. intros p Hp.
  assert (p ∈ es) by (by eapply list.Forall_forall in Hes).
  assert (p <> e /\ p <> p2 /\ p <> q) as (? & ? & ?) by (split_and!; intros ->; done).
  rewrite !upd_ne by (auto using next_ne, prev_ne, next_prev_ne, not_eq_sym). done.
Qed.

Lemma last_nonzero l : Forall (fun p => p ∈ es) l -> List.last l 0 = 0 -> l = [].
Proof.
  intros Hl Hz. destruct l as [|x l _] using rev_ind; [done|]. rewrite List.last_last in Hz.
  apply Forall_app in Hl as [_ Hl]. apply Forall_cons_1 in Hl as [Hl _].
  by apply entry_value in Hl as [? _].
Qed.

Lemma head_nonzero l : Forall (fun p => p ∈ es) l -> hd 0 l = 0 -> l = [].
Proof.
  intros Hl Hz. destruct l; [done|]. apply Forall_cons_1 in Hl as [Hl _]. cbn in Hz.
  by apply entry_value in Hl as [? _].
Qed.

(** The words after the removal of [e], between [l1] and [l2]. *)
Definition unlink (ld : Z -> option Z) (l1 : list Z) (e : Z) (l2 : list Z) : Z -> option Z :=
  let prev := List.last l1 0 in
  let next := hd 0 l2 in
  let ld := if prev =? 0 then ld else upd ld (l_next a prev) next in
  let ld := if next =? 0 then ld else upd ld (l_prev a next) prev in
  let ld := if hd 0 (l1 ++ [e]) =? e then upd ld (r_map a d) next else ld in
  upd (upd ld (l_prev a e) 0) (l_next a e) 0.

Lemma mem_step (c : bool) ld st (m : M rstate unit) f v :
  mem ld st ->
  (c = false -> exists s', m st = Ret tt (set_space s' st) /\ mem (upd ld f v) (set_space s' st)) ->
  exists s', (if c then lret tt else m) st = Ret tt (set_space s' st) /\
             mem (if c then ld else upd ld f v) (set_space s' st).
Proof.
  intros Hm Hn. destruct c; [|by apply Hn].
  exists (rs_space st). unfold lret. by destruct st.
Qed.

Lemma last_elem l : l <> [] -> List.last l 0 ∈ l.
Proof.
  intros Hl. destruct l as [|x l _] using rev_ind; [done|]. rewrite List.last_last. list_in.
Qed.

Lemma clear_entry_words ld st l1 e next :
  mem ld st -> e ∈ es -> own_entry e -> 0 <= next < 2 ^ kElfBits a ->
  ld (r_map a d) = Some (hd 0 (l1 ++ [e])) -> ld (l_next a e) = Some next ->
  exists st', clear_entry a d e st = Ret tt st' /\
    mem (upd (upd (if hd 0 (l1 ++ [e]) =? e then upd ld (r_map a d) next else ld)
           (l_prev a e) 0) (l_next a e) 0) st' /\
    rs_obj st' = rs_obj st /\ rs_seen st' = rs_seen st ++ [RT_CONSISTENT] /\
    rs_posted st' = rs_posted st.
Proof.
  intros Hm He Ho Vn Lm Ln. unfold clear_entry.
  rewrite (lbind_step _ _ _ _ _ (mem_load _ _ _ _ Hm field_map Lm)).
  rewrite (lbind_step _ _ _ _ _ (mem_load _ _ _ _ Hm (field_next e He) Ln)).
  set (ld4 := if hd 0 (l1 ++ [e]) =? e then _ else ld).
  assert (exists s4, (if hd 0 (l1 ++ [e]) =? e then store_word a (r_map a d) next else lret tt) st
            = Ret tt (set_space s4 st) /\ mem ld4 (set_space s4 st)) as (s4 & E4 & Hm4).
  { unfold ld4. destruct (hd 0 (l1 ++ [e]) =? e).
    - apply mem_store_word; [done|apply field_map|done|]. intros x Hx. apply (ly_debug L).
      unfold r_map in Hx. pose proof W_cases. lia.
    - exists (rs_space st). unfold lret. by destruct st. }
  rewrite (lbind_step _ _ _ _ _ E4).
  assert (0 <= 0 < 2 ^ kElfBits a) as V0 by (destruct a; cbn; lia).
  destruct (mem_store_word _ _ (l_prev a e) 0 Hm4) as (s5 & E5 & Hm5);
    [by apply field_prev|done|eapply own_field; eauto|]. rewrite (lbind_step _ _ _ _ _ E5).
  destruct (mem_store_word _ _ (l_next a e) 0 Hm5) as (s6 & E6 & Hm6);
    [by apply field_next|done|eapply own_field; eauto|]. rewrite (lbind_step _ _ _ _ _ E6).
  destruct (mem_notify _ _ RT_CONSISTENT Hm6) as (st7 & E7 & Hm7 & Ob7 & Se7 & Po7). eauto 10.
Qed.

Lemma del_entry_words ld st l1 e l2 :
  mem ld st -> d <> 0 -> e ∈ es -> own_entry e ->
  Forall (fun p => p ∈ es) l1 -> Forall (fun p => p ∈ es) l2 -> e ∉ l1 -> e ∉ l2 ->
  ld (r_map a d) = Some (hd 0 (l1 ++ [e])) ->
  ld (l_next a e) = Some (hd 0 l2) -> ld (l_prev a e) = Some (List.last l1 0) ->
  exists st', DelEntryImpl a raw e st = Ret tt st' /\ mem (unlink ld l1 e l2) st' /\
    rs_obj st' = rs_obj st /\ rs_seen st' = rs_seen st ++ [RT_DELETE; RT_CONSISTENT] /\
    rs_posted st' = rs_posted st.
Proof.
  intros Hm Hd He Ho F1 F2 N1 N2 Lm Ln Lp. unfold DelEntryImpl, unlink.
  set (prev := List.last l1 0) in *. set (next := hd 0 l2) in *.
  assert (prev <> 0 -> prev ∈ es /\ prev <> e) as Hprev.
  { intros Hz. assert (prev ∈ l1) as Hin by (apply last_elem; intros ->; done).
    split; [by eapply list.Forall_forall in F1|]. intros ->. done. }
  assert (next <> 0 -> next ∈ es /\ next <> e) as Hnext.
  { intros Hz. assert (next ∈ l2) as Hin by (destruct l2; [done|]; cbn; list_in).
    split; [by eapply list.Forall_forall in F2|]. intros ->. done. }
  assert (0 <= next < 2 ^ kElfBits a) as Vn.
  { destruct (decide (next = 0)) as [->|Hz]; [destruct a; cbn; lia|]. by apply entry_value, Hnext. }
  assert (0 <= prev < 2 ^ kElfBits a) as Vp.
  { destruct (decide (prev = 0)) as [->|Hz]; [destruct a; cbn; lia|]. by apply entry_value, Hprev. }
  unfold lbind at 1, lget. rewrite (m_debug _ _ Hm), (proj2 (Z.eqb_neq _ _) Hd).
  destruct (mem_notify ld st RT_DELETE Hm) as (st1 & E1 & Hm1 & Ob1 & Se1 & Po1).
  rewrite (lbind_step _ _ _ _ _ E1).
  rewrite (lbind_step _ _ _ _ _ (mem_load _ _ _ _ Hm1 (field_prev e He) Lp)).
  rewrite (lbind_step _ _ _ _ _ (mem_load _ _ _ _ Hm1 (field_next e He) Ln)).
  destruct (mem_step (prev =? 0) ld st1 (with_mapper a raw prev (l_next a prev) next) (l_next a prev) next Hm1)
    as (s2 & E2 & Hm2).
  { intros Hz%Z.eqb_neq. apply mem_with_mapper; [done|by apply Hprev|by left|done]. }
  rewrite (lbind_step _ _ _ _ _ E2). clear E2.
  set (ld2 := if prev =? 0 then ld else _) in *. set (st2 := set_space s2 st1) in *.
  assert (ld2 (l_next a e) = Some next /\ ld2 (l_prev a e) = Some prev
          /\ ld2 (r_map a d) = Some (hd 0 (l1 ++ [e]))) as (Ln2 & Lp2 & Lm2).
  { unfold ld2. destruct (prev =? 0) eqn:Ez; [done|]. apply Z.eqb_neq in Ez.
    destruct (Hprev Ez) as [Hpe Hne]. rewrite !upd_ne; try done.
    - by apply map_ne.
    - apply not_eq_sym, next_prev_ne; done.
    - by apply next_ne, not_eq_sym. }
  rewrite (lbind_step _ _ _ _ _ (mem_load _ _ _ _ Hm2 (field_prev e He) Lp2)).
  rewrite (lbind_step _ _ _ _ _ (mem_load _ _ _ _ Hm2 (field_next e He) Ln2)).
  destruct (mem_step (next =? 0) ld2 st2 (with_mapper a raw next (l_prev a next) prev) (l_prev a next) prev Hm2)
    as (s3 & E3 & Hm3).
  { intros Hz%Z.eqb_neq. apply mem_with_mapper; [done|by apply Hnext|by right|done]. }
  rewrite (lbind_step _ _ _ _ _ E3). clear E3.
  set (ld3 := if next =? 0 then ld2 else _) in *. set (st3 := set_space s3 st2) in *.
  assert (ld3 (l_next a e) = Some next /\ ld3 (r_map a d) = Some (hd 0 (l1 ++ [e]))) as (Ln3 & Lm3).
  { unfold ld3. destruct (next =? 0) eqn:Ez; [done|]. apply Z.eqb_neq in Ez.
    destruct (Hnext Ez) as [Hpe Hne]. rewrite !upd_ne; try done; [by apply map_ne|].
    by apply next_prev_ne. }
  destruct (clear_entry_words ld3 st3 l1 e next Hm3 He Ho Vn Lm3 Ln3) as (st7 & E7 & Hm7 & Ob7 & Se7 & Po7).
  exists st7. rewrite E7. split; [done|]. split; [done|].
  rewrite Ob7, Se7, Po7. cbn. rewrite Ob1, Se1, Po1, <-app_assoc. done.
Qed.

(** [e] stands between two lists of other entries. *)
Record between (l1 : list Z) (e : Z) (l2 : list Z) : Prop := {
  bt_entry : e ∈ es;
  bt_before : Forall (fun p => p ∈ es) l1;
  bt_after : Forall (fun p => p ∈ es) l2;
  bt_not_before : e ∉ l1;
  bt_not_after : e ∉ l2;
  bt_disjoint : forall x, x ∈ l1 -> x ∉ l2;
}.

Local Notation prev l := (List.last l 0).
Local Notation next l := (hd 0 l).

Lemma unlink_other ld l1 e l2 p :
  (prev l1 <> 0 -> p <> l_next a (prev l1)) -> (next l2 <> 0 -> p <> l_prev a (next l2)) ->
  p <> r_map a d -> p <> l_prev a e -> p <> l_next a e -> unlink ld l1 e l2 p = ld p.
Proof.
  intros Hp Hn Hm Hpe Hne. unfold unlink. rewrite !upd_ne by done.
  destruct (hd 0 (l1 ++ [e]) =? e); rewrite ?upd_ne by done;
    destruct (next l2 =? 0) eqn:En; rewrite ?upd_ne by (apply Hn; by apply Z.eqb_neq);
    destruct (prev l1 =? 0) eqn:Ep; rewrite ?upd_ne by (apply Hp; by apply Z.eqb_neq); done.
Qed.

Lemma in_l1 l1 e l2 p : between l1 e l2 -> p ∈ l1 -> p ∈ es /\ p <> e.
Proof. intros [? F1 F2 N1 N2 _] Hp. split; [by eapply list.Forall_forall in F1|by intros ->]. Qed.

Lemma in_l2 l1 e l2 p : between l1 e l2 -> p ∈ l2 -> p ∈ es /\ p <> e.
Proof. intros [? F1 F2 N1 N2 _] Hp. split; [by eapply list.Forall_forall in F2|by intros ->]. Qed.

Lemma prev_in l1 : prev l1 <> 0 -> prev l1 ∈ l1.
Proof. intros Hz. apply last_elem. by intros ->. Qed.

Lemma next_in l2 : next l2 <> 0 -> next l2 ∈ l2.
Proof. intros Hz. destruct l2; [done|]. cbn. list_in. Qed.

Lemma unlink_prev ld l1 e l2 :
  between l1 e l2 -> prev l1 <> 0 -> unlink ld l1 e l2 (l_next a (prev l1)) = Some (next l2).
Proof.
  intros U Hz. pose proof (bt_entry _ _ _ U) as He. destruct (in_l1 _ _ _ _ U (prev_in _ Hz)) as [Hpe Hne]. unfold unlink.
  rewrite !upd_ne by (auto using next_prev_ne, next_ne).
  rewrite (proj2 (Z.eqb_neq _ _) Hz).
  assert (l_next a (prev l1) <> r_map a d) by (apply not_eq_sym, map_ne; done).
  destruct (hd 0 (l1 ++ [e]) =? e); rewrite ?upd_ne by done;
    destruct (next l2 =? 0) eqn:En; rewrite ?upd_eq; try done;
    apply Z.eqb_neq in En; destruct (in_l2 _ _ _ _ U (next_in _ En)); rewrite upd_ne by (by apply next_prev_ne);
    apply upd_eq.
Qed.

Lemma unlink_next ld l1 e l2 :
  between l1 e l2 -> next l2 <> 0 -> unlink ld l1 e l2 (l_prev a (next l2)) = Some (prev l1).
Proof.
  intros U Hz. pose proof (bt_entry _ _ _ U) as He. destruct (in_l2 _ _ _ _ U (next_in _ Hz)) as [Hpe Hne]. unfold unlink.
  rewrite (upd_ne _ (l_next a e)) by (by apply not_eq_sym, next_prev_ne).
  rewrite (upd_ne _ (l_prev a e)) by (by apply prev_ne). rewrite (proj2 (Z.eqb_neq _ _) Hz).
  assert (l_prev a (next l2) <> r_map a d) by (apply not_eq_sym, map_ne; done).
  destruct (hd 0 (l1 ++ [e]) =? e); rewrite ?upd_ne by done; apply upd_eq.
Qed.

Lemma unlink_map ld l1 e l2 :
  between l1 e l2 -> ld (r_map a d) = Some (hd 0 (l1 ++ [e])) -> unlink ld l1 e l2 (r_map a d) = Some (hd 0 (l1 ++ l2)).
Proof.
  intros U Hm. destruct (map_ne e (bt_entry _ _ _ U)) as [Hn Hp]. unfold unlink. rewrite !upd_ne by done.
  destruct (hd 0 (l1 ++ [e]) =? e) eqn:E.
  - rewrite upd_eq. apply Z.eqb_eq in E. destruct l1 as [|p l]; [done|]. cbn in E. subst p.
    exfalso. apply (bt_not_before _ _ _ U). list_in.
  - apply Z.eqb_neq in E. destruct l1 as [|p l] eqn:El; [done|]. rewrite <-El in *.
    replace (hd 0 (l1 ++ l2)) with (hd 0 (l1 ++ [e])) by (by rewrite El).
    destruct (next l2 =? 0) eqn:En; [|apply Z.eqb_neq in En; destruct (in_l2 _ _ _ _ U (next_in _ En));
                                   rewrite upd_ne by (by apply map_ne)];
    (destruct (prev l1 =? 0) eqn:Ep; [done|]; apply Z.eqb_neq in Ep; destruct (in_l1 _ _ _ _ U (prev_in _ Ep));
     rewrite upd_ne by (by apply map_ne); done).
Qed.

(** The fields of the other entries do not change, up to the neighbours. *)
Lemma unlink_next_field ld l1 e l2 p :
  between l1 e l2 -> p ∈ es -> p <> e -> (prev l1 <> 0 -> p <> prev l1) ->
  unlink ld l1 e l2 (l_next a p) = ld (l_next a p).
Proof.
  intros U Hp Hne Hprev. pose proof (bt_entry _ _ _ U) as He. apply unlink_other.
  - intros Hz. by apply next_ne, Hprev.
  - intros Hz. destruct (in_l2 _ _ _ _ U (next_in _ Hz)). by apply next_prev_ne.
  - apply not_eq_sym. by apply map_ne.
  - by apply next_prev_ne.
  - by apply next_ne.
Qed.

Lemma unlink_prev_field ld l1 e l2 p :
  between l1 e l2 -> p ∈ es -> p <> e -> (next l2 <> 0 -> p <> next l2) ->
  unlink ld l1 e l2 (l_prev a p) = ld (l_prev a p).
Proof.
  intros U Hp Hne Hnext. pose proof (bt_entry _ _ _ U) as He. apply unlink_other.
  - intros Hz. destruct (in_l1 _ _ _ _ U (prev_in _ Hz)). by apply not_eq_sym, next_prev_ne.
  - intros Hz. by apply prev_ne, Hnext.
  - apply not_eq_sym. by apply map_ne.
  - by apply prev_ne.
  - by apply not_eq_sym, next_prev_ne.
Qed.

(** The list without [e] is linked. *)
Lemma unlink_linked ld l1 e l2 :
  between l1 e l2 -> NoDup l1 -> NoDup l2 ->
  linked (l_next a) (l_prev a) ld 0 (l1 ++ e :: l2) 0 ->
  linked (l_next a) (l_prev a) (unlink ld l1 e l2) 0 (l1 ++ l2) 0.
Proof.
  intros U D1 D2 Hl. apply linked_app in Hl as [Hl1 Hl2]. cbn [hd] in Hl1.
  destruct Hl2 as (_ & _ & Hl2). pose proof (bt_disjoint _ _ _ U) as N12.
  apply linked_app. split.
  - destruct l1 as [|b k _] using rev_ind; [done|].
    apply linked_app in Hl1 as [Hk (_ & Hb & _)]. apply list.NoDup_app in D1 as (Dk & Dkb & _).
    assert (List.last (k ++ [b]) 0 = b) as Hlast by apply List.last_last.
    destruct (in_l1 _ _ _ b U ltac:(list_in)) as [Hbe Hbn].
    assert (forall p, p ∈ k ++ [b] -> hd 0 l2 <> 0 -> p <> hd 0 l2) as Hnot.
    { intros p Hp Hz ->. apply (N12 _ Hp), next_in, Hz. }
    apply linked_app. split; [|split_and!; [| |done]].
    + eapply linked_ext; [|exact Hk]. intros p Hp.
      destruct (in_l1 _ _ _ p U ltac:(list_in)) as [Hpe Hpn]. split.
      * apply unlink_next_field; try done. intros _. rewrite Hlast. intros ->.
        apply (Dkb b Hp). list_in.
      * apply unlink_prev_field; try done. apply Hnot. list_in.
    + pose proof (unlink_prev ld (k ++ [b]) e l2 U) as Hup. rewrite Hlast in Hup. apply Hup.
      by apply entry_value.
    + rewrite unlink_prev_field; try done. apply Hnot. list_in.
  - destruct l2 as [|c m]; [done|]. destruct Hl2 as (Hc & _ & Hm).
    apply list.NoDup_cons in D2 as [Dc Dm]. destruct (in_l2 _ _ _ c U ltac:(list_in)) as [Hce Hcn].
    assert (forall p, p ∈ c :: m -> prev l1 <> 0 -> p <> prev l1) as Hnot.
    { intros p Hp Hz ->. by apply (N12 _ (prev_in _ Hz)). }
    split_and!.
    + rewrite unlink_next_field; try done. apply Hnot. list_in.
    + apply (unlink_next ld l1 e (c :: m) U). cbn. by apply entry_value.
    + eapply linked_ext; [|exact Hm]. intros p Hp.
      destruct (in_l2 _ _ _ p U ltac:(list_in)) as [Hpe Hpn]. split.
      * apply unlink_next_field; try done. apply Hnot. list_in.
      * apply unlink_prev_field; try done. cbn. intros _ ->. done.
Qed.

End Facts.

(** ** The list as the debugger sees it *)

Section Specification.
Context (a : arch) `{K : Kernel} `{FS : FileSystem} `{PF : ProcFs} (raw : cstr).
Context (d : Z) (es : list Z) (ro : bool) (prots : Z -> option Z).

(** The structure at [d] heads the doubly linked list [l] of entries. *)
Record debug_list (st : rstate) (l : list Z) : Prop := {
  dl_init : init_ (rs_obj st) = true;
  dl_debug : r_debug_ (rs_obj st) = d;
  dl_steady : steady ro prots st;
  dl_map : load_le (sizeof_Addr a) (rs_space st) (r_map a d) = Some (hd 0 l);
  dl_linked : linked (l_next a) (l_prev a) (load_le (sizeof_Addr a) (rs_space st)) 0 l 0;
  dl_entries : Forall (fun p => p ∈ es) l;
  dl_nodup : NoDup l;
  dl_bytes : forall y, inside a d es y -> byte_at (rs_space st) y <> None;
}.

(** A change of the list: the entries are now [l], the debugger was notified of
    [states], and nothing outside the entries and the structure has changed. *)
Definition relinked (st st' : rstate) (l : list Z) (states : list Z) : Prop :=
  debug_list st' l /\ rs_obj st' = rs_obj st /\ rs_posted st' = rs_posted st /\
  rs_seen st' = rs_seen st ++ states /\
  (forall y, prot_at (rs_space st') y = prot_at (rs_space st) y) /\
  (forall y, ~ inside a d es y -> byte_at (rs_space st') y = byte_at (rs_space st) y).

Context (L : layout a raw d es ro prots).

Lemma debug_list_mem st l :
  debug_list st l ->
  mem a d es ro prots (rs_space st) (load_le (sizeof_Addr a) (rs_space st)) st.
Proof. intros Hl. by split; try apply Hl. Qed.

Lemma mem_relinked st st' l l' ld states :
  debug_list st l -> mem a d es ro prots (rs_space st) ld st' ->
  ld (r_map a d) = Some (hd 0 l') -> linked (l_next a) (l_prev a) ld 0 l' 0 ->
  Forall (fun p => p ∈ es) l' -> NoDup l' ->
  rs_obj st' = rs_obj st -> rs_posted st' = rs_posted st -> rs_seen st' = rs_seen st ++ states ->
  relinked st st' l' states.
Proof.
  intros Hl Hm Hmap Hlink Hes Hnd Hobj Hpost Hseen.
  pose proof (m_words _ _ _ _ _ _ _ _ Hm) as Hw.
  split_and!; try done.
  - split; try done.
    + rewrite Hobj. apply Hl.
    + rewrite Hobj. apply Hl.
    + apply Hm.
    + rewrite Hw; [done|by left].
    + eapply linked_ext; [|exact Hlink]. intros p Hp.
      assert (p ∈ es) by (by eapply list.Forall_forall in Hes).
      split; apply Hw; right; eauto.
    + apply Hm.
  - intros y. rewrite (proj1 (m_steady _ _ _ _ _ _ _ _ Hm)). symmetry. apply (dl_steady _ _ Hl).
  - apply Hm.
Qed.

Lemma d_nonzero : d <> 0.
Proof. pose proof (ly_range _ _ _ _ _ _ L d ltac:(list_in)). unfold PAGE_SIZE in *. lia. Qed.

Lemma add_entry_core st e p1 p2 q l :
  debug_list st (p1 :: p2 :: q :: l) -> e ∈ es -> own_entry a prots e -> e ∉ p1 :: p2 :: q :: l ->
  exists st', AddEntryImpl a raw e st = Ret tt st' /\
    relinked st st' (p1 :: p2 :: e :: q :: l) [RT_ADD; RT_CONSISTENT].
Proof.
  intros Hl He Ho Hn. pose proof (dl_entries _ _ Hl) as Hes. pose proof (dl_nodup _ _ Hl) as Hnd.
  pose proof Hes as (H1 & (H2 & (Hq & _)%Forall_cons_1)%Forall_cons_1)%Forall_cons_1.
  destruct (dl_linked _ _ Hl) as (L1 & _ & L2 & _ & _).
  destruct (add_entry_words a raw d es ro prots L (rs_space st) _ st e p1 p2 q
    (debug_list_mem _ _ Hl) (dl_init _ _ Hl) d_nonzero He Ho H1 H2 Hq (dl_map _ _ Hl) L1 L2)
    as (st' & E & Hm & Hobj & Hseen & Hpost).
  exists st'. split; [done|]. eapply mem_relinked; try done.
  - destruct (map_ne a raw d es ro prots L e He) as [? ?].
    destruct (map_ne a raw d es ro prots L p2 H2) as [? ?].
    destruct (map_ne a raw d es ro prots L q Hq) as [? ?].
    rewrite !upd_ne by done. apply Hl.
  - apply (add_entry_linked a raw d es ro prots L); [by constructor|by constructor|apply Hl].
  - apply Forall_cons_1 in Hes as [_ Hes]. apply Forall_cons_1 in Hes as [_ Hes].
    do 3 (apply Forall_cons; [done|]). exact Hes.
  - rewrite !list.NoDup_cons, !not_elem_of_cons in *. naive_solver.
Qed.

Lemma del_entry_core st l1 e l2 :
  debug_list st (l1 ++ e :: l2) -> own_entry a prots e ->
  exists st', DelEntryImpl a raw e st = Ret tt st' /\
    relinked st st' (l1 ++ l2) [RT_DELETE; RT_CONSISTENT].
Proof.
  intros Hl Ho. pose proof (dl_entries _ _ Hl) as Hes. pose proof (dl_nodup _ _ Hl) as Hnd.
  apply Forall_app in Hes as [F1 Hes]. apply Forall_cons_1 in Hes as [He F2].
  apply list.NoDup_app in Hnd as (D1 & Dx & De). apply list.NoDup_cons in De as [Ne D2].
  assert (between es l1 e l2) as U.
  { split; try done; [intros Hin; apply (Dx e Hin); list_in|].
    intros x Hx Hx2. apply (Dx x Hx). list_in. }
  pose proof (proj1 (linked_app _ _ _ _ _ _ _) (dl_linked _ _ Hl)) as [_ (Ln & Lp & _)].
  assert (hd 0 (l1 ++ e :: l2) = hd 0 (l1 ++ [e])) as Hhd by (by destruct l1).
  pose proof (dl_map _ _ Hl) as Lm. rewrite Hhd in Lm.
  destruct (del_entry_words a raw d es ro prots L (rs_space st) _ st l1 e l2
    (debug_list_mem _ _ Hl) d_nonzero He Ho F1 F2 (bt_not_before _ _ _ _ U) Ne Lm Ln Lp)
    as (st' & E & Hm & Hobj & Hseen & Hpost).
  exists st'. split; [done|]. eapply mem_relinked; try done.
  - by eapply unlink_map.
  - eapply unlink_linked; try done. apply Hl.
  - by apply Forall_app.
  - apply list.NoDup_app. split_and!; try done. apply U.
Qed.

Lemma short_list_core st e p1 p2 :
  debug_list st [p1; p2] ->
  exists st', AddEntryImpl a raw e st = Ret tt st' /\
    r_debug_ (rs_obj st') = 0 /\ rs_seen st' = rs_seen st ++ [RT_ADD] /\
    load_le (sizeof_Addr a) (rs_space st') (r_map a d) = Some p1 /\
    linked (l_next a) (l_prev a) (load_le (sizeof_Addr a) (rs_space st')) 0 [p1; p2] 0.
Proof.
  intros Hl. pose proof (dl_entries _ _ Hl) as (H1 & (H2 & _)%Forall_cons_1)%Forall_cons_1.
  pose proof (debug_list_mem _ _ Hl) as Hm. destruct (dl_linked _ _ Hl) as (L1 & P1 & L2 & P2 & _).
  unfold AddEntryImpl, lbind at 1 2, lget. rewrite (dl_init _ _ Hl). unfold lret at 1, lbind at 1.
  rewrite (dl_debug _ _ Hl), (proj2 (Z.eqb_neq _ _) d_nonzero).
  destruct (mem_notify a raw d es ro prots L _ _ st RT_ADD Hm) as (st1 & E1 & Hm1 & Ob1 & Se1 & Po1).
  rewrite (lbind_step _ _ _ _ _ E1).
  rewrite (lbind_step _ _ _ _ _ (mem_load _ _ _ _ _ _ _ _ _ _ Hm1 (field_map a d es) (dl_map _ _ Hl))).
  cbn [hd]. rewrite (proj2 (Z.eqb_neq _ _) (proj1 (entry_value a raw d es ro prots L p1 H1))).
  rewrite (lbind_step _ _ _ _ _ (mem_load _ _ _ _ _ _ _ _ _ _ Hm1 (field_next a d es p1 H1) L1)).
  cbn [hd]. rewrite (proj2 (Z.eqb_neq _ _) (proj1 (entry_value a raw d es ro prots L p2 H2))).
  rewrite (lbind_step _ _ _ _ _ (mem_load _ _ _ _ _ _ _ _ _ _ Hm1 (field_next a d es p2 H2) L2)).
  cbn [hd]. change (0 =? 0) with true. cbn match. eexists; split; [done|]. cbn [rs_obj set_obj r_debug_ rs_seen rs_space].
  split; [done|]. split; [done|]. pose proof (m_words _ _ _ _ _ _ _ _ Hm1) as Hw. split.
  - rewrite Hw by apply field_map. apply Hl.
  - eapply linked_ext; [|exact (dl_linked _ _ Hl)]. intros p Hp.
    assert (p ∈ es) by (elem_inv Hp; done). split; apply Hw; right; eauto.
Qed.

End Specification.

(** ** An example: three entries of the system linker in a read-only page *)

Definition demo_vmas : list vma :=
  [mk_vma 0x10000 0x11000 true true false false 0 (str "00:00") (str "0") 0 [];
   mk_vma 0x11000 0x12000 true false false false 0 (str "00:00") (str "0") 0 [];
   mk_vma 0x12000 0x13000 true true false false 0 (str "00:00") (str "0") 0 []].

Definition demo_prots (x : Z) : option Z :=
  vma_prot <$> List.find (fun v => (v_start v <=? x) && (x <? v_end v)) demo_vmas.

#[local] Instance demo_proc : ProcFs := {|
  proc_text _ := one_text (maps_text demo_vmas);
  proc_heap := in_place_heap;
  proc_exe := None;
  post_ok _ := false;
|}.

#[local] Instance no_files : FileSystem := {|
  fs_open _ := None;
  fs_seek_ok _ _ := false;
  fs_read_ok _ _ := false;
  fs_is_file _ := false;
  fs_cwd := [];
|}.

(** The words that are not 0. *)
Definition demo_words : list (Z * Z) :=
  [(0x10000, 1); (0x10004, 0x11000); (0x1100c, 0x11020); (0x1102c, 0x11040); (0x11030, 0x11000);
   (0x11050, 0x11020)].

Definition demo_byte (x : Z) : Z :=
  match List.find (fun w => (w.1 <=? x) && (x <? w.1 + 4)) demo_words with
  | Some (p, v) => le_byte v (x - p)
  | None => 0
  end.

Definition demo_rspace : aspace :=
  mk_aspace demo_prots (fun x => if in_range 0x10000 0x3000 x then Some (demo_byte x) else None).

Definition demo_state : rstate :=
  mk_rstate demo_rspace (mk_RDebug 0x10000 true true None) [] [].

Definition demo_entries : list Z := [0x11000; 0x11020; 0x11040; 0x12000].

Lemma demo_vmas_ok : Forall (vma_ok arm) demo_vmas.
Proof.
  assert (plain (str "00:00") /\ plain (str "0")) as [? ?] by (split; by repeat constructor).
  repeat constructor; cbn; try done; try lia.
Qed.

Lemma demo_prots_at x :
  0x10000 <= x < 0x13000 ->
  demo_prots x = Some (if (0x11000 <=? x) && (x <? 0x12000) then 1 else 3).
Proof.
  intros Hx. unfold demo_prots. cbn [List.find v_start v_end demo_vmas].
  repeat case_match; rewrite ?andb_true_iff, ?andb_false_iff, ?Z.leb_le, ?Z.leb_gt, ?Z.ltb_lt, ?Z.ltb_ge in *;
    try done; lia.
Qed.

Lemma demo_layout :
  layout arm (repeat Ascii.zero 128) 0x10000 demo_entries true demo_prots.
Proof.
  unfold demo_entries. split.
  - intros x y Hx Hy Hne. cbn. elem_inv Hx; elem_inv Hy; lia.
  - rewrite !not_elem_of_cons. split_and!; [lia..|apply not_elem_of_nil].
  - intros x Hx. cbn. unfold PAGE_SIZE. elem_inv Hx; lia.
  - intros x y Hx Hy. cbn in Hy. assert (0x10000 <= y < 0x13000) as Hr by (elem_inv Hx; lia).
    eexists. rewrite demo_prots_at by done. split; [done|]. by case_match.
  - intros y Hy. cbn in Hy. eexists. rewrite demo_prots_at by lia. split; [done|].
    case_match; [|done]. rewrite andb_true_iff, Z.leb_le in *. lia.
  - intros e He. elem_inv He; [right..|left].
    1-3: split; [done|]; change (PAGE_START _) with 0x11000; unfold PAGE_SIZE; change (5 * Z.of_nat (sizeof_Addr arm)) with 20; split; [lia|];
      intros y Hy; rewrite !demo_prots_at by lia;
      by rewrite (proj2 (Z.leb_le _ y)), (proj2 (Z.ltb_lt y _)) by lia.
    intros y Hy. cbn in Hy. eexists. rewrite demo_prots_at by lia. split; [done|].
    by rewrite (proj2 (Z.ltb_ge y 0x12000)), andb_false_r by lia.
  - intros s x _. unfold find_prot. cbn [proc_text proc_heap demo_proc].
    apply (@find_protection_core arm _ (one_text_ok _) in_place_heap); [done|done|by right|].
    exact demo_vmas_ok.
  - done.
Qed.

Lemma demo_debug_list :
  debug_list arm 0x10000 demo_entries true demo_prots demo_state [0x11000; 0x11020; 0x11040].
Proof.
  split; try done.
  - repeat (apply Forall_cons; [unfold demo_entries; list_in|]). constructor.
  - rewrite !list.NoDup_cons, !not_elem_of_cons. split_and!; try lia; try apply not_elem_of_nil. constructor.
  - intros y (x & Hx & Hy). unfold demo_entries in Hx. cbn in Hy |- *. rewrite (proj2 (in_range_true _ _ _)); [done|].
    elem_inv Hx; lia.
Qed.

Lemma demo_own : own_entry arm demo_prots 0x12000.
Proof.
  intros y Hy. cbn in Hy. eexists. rewrite demo_prots_at by lia. split; [done|].
  by rewrite (proj2 (Z.ltb_ge y 0x12000)), andb_false_r by lia.
Qed.

(** ** Properties *)

(** Adding a library to the list of the debugger.  On a list of at least
    three entries, [AddEntry] (not delayed) links the new entry after the second
    one, with both neighbours and the back links right, also when the entries of
    the system linker are in read-only pages; the protections are as before, no
    other memory has changed, and the debugger has been notified before and
    after. *)
Theorem AddEntry_inserts a `{Kernel} `{FileSystem} `{ProcFs} raw d es ro prots st e p1 p2 q l :
  layout a raw d es ro prots -> poster_ (rs_obj st) = None ->
  debug_list a d es ro prots st (p1 :: p2 :: q :: l) ->
  e ∈ es -> own_entry a prots e -> e ∉ p1 :: p2 :: q :: l ->
  exists st', AddEntry a raw e st = Ret tt st' /\
    relinked a d es ro prots st st' (p1 :: p2 :: e :: q :: l) [RT_ADD; RT_CONSISTENT].
Proof.
  intros L Hp Hl He Ho Hn. unfold AddEntry, RunOrDelay, PostCallback, lbind. rewrite Hp.
  by apply add_entry_core.
Qed.

Lemma AddEntry_inserts_witness :
  exists st', AddEntry arm (repeat Ascii.zero 128) 0x12000 demo_state = Ret tt st' /\
    load_le 4 (rs_space st') 0x1102c = Some 0x12000 /\ load_le 4 (rs_space st') 0x11050 = Some 0x12000.
Proof.
  destruct (AddEntry_inserts arm (repeat Ascii.zero 128) 0x10000 demo_entries true demo_prots demo_state
    0x12000 0x11000 0x11020 0x11040 [] demo_layout eq_refl demo_debug_list) as (st' & E & Hl & _).
  - unfold demo_entries. list_in.
  - exact demo_own.
  - rewrite !not_elem_of_cons. split_and!; [lia..|apply not_elem_of_nil].
  - destruct (dl_linked _ _ _ _ _ _ _ Hl) as (_ & _ & H2 & _ & _ & _ & _ & H4 & _).
    exists st'. split; [exact E|]. split; [exact H2|exact H4].
Defined.

(** Removing a library from the list of the debugger.  [DelEntry] (not
    delayed) unlinks an entry wherever it is in the list, which stays a doubly
    linked list of the other entries; the protections are as before, no other
    memory has changed, and the debugger has been notified before and after. *)
Theorem DelEntry_removes a `{Kernel} `{FileSystem} `{ProcFs} raw d es ro prots st l1 e l2 :
  layout a raw d es ro prots -> poster_ (rs_obj st) = None ->
  debug_list a d es ro prots st (l1 ++ e :: l2) -> own_entry a prots e ->
  exists st', DelEntry a raw e st = Ret tt st' /\
    relinked a d es ro prots st st' (l1 ++ l2) [RT_DELETE; RT_CONSISTENT].
Proof.
  intros L Hp Hl Ho. unfold DelEntry, RunOrDelay, PostCallback, lbind. rewrite Hp.
  by apply del_entry_core.
Qed.

Lemma DelEntry_removes_witness :
  exists st st', debug_list arm 0x10000 demo_entries true demo_prots st
                   ([0x11000; 0x11020] ++ 0x12000 :: [0x11040]) /\
    DelEntry arm (repeat Ascii.zero 128) 0x12000 st = Ret tt st' /\
    debug_list arm 0x10000 demo_entries true demo_prots st' [0x11000; 0x11020; 0x11040].
Proof.
  destruct (add_entry_core arm (repeat Ascii.zero 128) 0x10000 demo_entries true demo_prots
    demo_layout demo_state 0x12000 0x11000 0x11020 0x11040 [] demo_debug_list)
    as (st & _ & Hl & Hobj & _).
  - unfold demo_entries. list_in.
  - exact demo_own.
  - rewrite !not_elem_of_cons. split_and!; [lia..|apply not_elem_of_nil].
  - destruct (DelEntry_removes arm (repeat Ascii.zero 128) 0x10000 demo_entries true demo_prots st
      [0x11000; 0x11020] 0x12000 [0x11040] demo_layout) as (st' & E & Hl' & _);
      [rewrite Hobj; reflexivity|exact Hl|exact demo_own|].
    exists st, st'. split; [exact Hl|]. split; [exact E|exact Hl'].
Defined.

(** A list of two entries.  When the list of the system linker has two
    entries, [AddEntryImpl] takes it for malformed: it drops the list for good,
    and the debugger is left with the state [RT_ADD] and no second
    notification. *)
Theorem two_entries_disable a `{Kernel} `{FileSystem} `{ProcFs} raw d es ro prots st e p1 p2 :
  layout a raw d es ro prots -> debug_list a d es ro prots st [p1; p2] ->
  exists st', AddEntryImpl a raw e st = Ret tt st' /\
    r_debug_ (rs_obj st') = 0 /\ rs_seen st' = rs_seen st ++ [RT_ADD] /\
    load_le (sizeof_Addr a) (rs_space st') (r_map a d) = Some p1 /\
    linked (l_next a) (l_prev a) (load_le (sizeof_Addr a) (rs_space st')) 0 [p1; p2] 0.
Proof. intros L Hl. by apply (short_list_core a raw d es ro prots). Qed.

(** The list of the example without its last entry. *)
Definition short_words : list (Z * Z) :=
  [(0x10000, 1); (0x10004, 0x11000); (0x1100c, 0x11020); (0x11030, 0x11000)].

Definition short_byte (x : Z) : Z :=
  match List.find (fun w => (w.1 <=? x) && (x <? w.1 + 4)) short_words with
  | Some (p, v) => le_byte v (x - p)
  | None => 0
  end.

Definition short_state : rstate :=
  mk_rstate
    (mk_aspace demo_prots (fun x => if in_range 0x10000 0x3000 x then Some (short_byte x) else None))
    (mk_RDebug 0x10000 true true None) [] [].

Lemma short_debug_list :
  debug_list arm 0x10000 demo_entries true demo_prots short_state [0x11000; 0x11020].
Proof.
  split; try done.
  - repeat (apply Forall_cons; [unfold demo_entries; list_in|]). constructor.
  - rewrite !list.NoDup_cons, !not_elem_of_cons. split_and!; try lia; try apply not_elem_of_nil. constructor.
  - intros y (x & Hx & Hy). unfold demo_entries in Hx. cbn in Hy |- *.
    rewrite (proj2 (in_range_true _ _ _)); [done|]. elem_inv Hx; lia.
Qed.

Lemma two_entries_disable_witness :
  exists st', AddEntryImpl arm (repeat Ascii.zero 128) 0x12000 short_state = Ret tt st' /\
    r_debug_ (rs_obj st') = 0 /\ rs_seen st' = [RT_ADD].
Proof.
  destruct (two_entries_disable arm (repeat Ascii.zero 128) 0x10000 demo_entries true demo_prots short_state
    0x12000 0x11000 0x11020 demo_layout short_debug_list) as (st' & E & Hd & Hs & _).
  exists st'. split; [exact E|]. split; [exact Hd|exact Hs].
Defined.
