(* ===== verification/SharedLibrary.v ===== *)
(** * Shared libraries

    Models [crazy_linker_shared_library.cpp] and its header, with the function
    [WrapLinkerSymbol] of [crazy_linker_wrappers.cpp]: the class [SharedLibrary],
    which loads a library with [ElfLoader], describes it with [ElfView] and
    [ElfSymbols], relocates it with [ElfRelocations] and a resolver over its
    dependencies, runs its constructors and destructors, and shares its RELRO
    section. *)

From S2P Require Import Prelude Kernel ElfTraits LinkerPhdr ElfLoader ElfView ElfSymbols.
From S2P Require Import Relocations Util ProcMaps Relro RDebug.
Open Scope Z_scope.
Open Scope ndk_scope.

Definition DT_NEEDED : Z := 1.
Definition DT_INIT : Z := 12.
Definition DT_FINI : Z := 13.
Definition DT_INIT_ARRAY : Z := 25.
Definition DT_FINI_ARRAY : Z := 26.
Definition DT_INIT_ARRAYSZ : Z := 27.
Definition DT_FINI_ARRAYSZ : Z := 28.
Definition DT_PREINIT_ARRAY : Z := 32.
Definition DT_PREINIT_ARRAYSZ : Z := 33.
Definition DT_MIPS_RLD_MAP : Z := 0x70000016.

(** ** The object

    Pointers are addresses, 0 for [NULL].  The member [link_map_] is in the
    memory of the process, at the address of the object; [base_name_] is the base
    name of [full_path_]. *)
Record SharedLibrary := mk_SharedLibrary {
  view_ : ElfView;
  symbols_ : ElfSymbols;
  relro_start_ : Z;
  relro_size_ : Z;
  relro_used_ : bool;
  list_next_ : Z;
  list_prev_ : Z;
  preinit_array_ : Z;
  preinit_array_count_ : Z;
  init_array_ : Z;
  init_array_count_ : Z;
  fini_array_ : Z;
  fini_array_count_ : Z;
  init_func_ : Z;
  fini_func_ : Z;
  arm_exidx_ : Z;
  arm_exidx_count_ : Z;
  has_DT_SYMBOLIC_ : bool;
  java_vm_ : Z;
  full_path_ : cstr;
}.

(** The constructor fills the object with zeros. *)
Definition new_SharedLibrary : SharedLibrary :=
  mk_SharedLibrary new_ElfView new_ElfSymbols 0 0 false 0 0 0 0 0 0 0 0 0 0 0 0 false 0 [].

Definition set_view (view : ElfView) (l : SharedLibrary) : SharedLibrary :=
  mk_SharedLibrary view (symbols_ l) (relro_start_ l) (relro_size_ l) (relro_used_ l)
    (list_next_ l) (list_prev_ l) (preinit_array_ l) (preinit_array_count_ l) (init_array_ l)
    (init_array_count_ l) (fini_array_ l) (fini_array_count_ l) (init_func_ l) (fini_func_ l)
    (arm_exidx_ l) (arm_exidx_count_ l) (has_DT_SYMBOLIC_ l) (java_vm_ l) (full_path_ l).

Definition set_symbols (symbols : ElfSymbols) (l : SharedLibrary) : SharedLibrary :=
  mk_SharedLibrary (view_ l) symbols (relro_start_ l) (relro_size_ l) (relro_used_ l)
    (list_next_ l) (list_prev_ l) (preinit_array_ l) (preinit_array_count_ l) (init_array_ l)
    (init_array_count_ l) (fini_array_ l) (fini_array_count_ l) (init_func_ l) (fini_func_ l)
    (arm_exidx_ l) (arm_exidx_count_ l) (has_DT_SYMBOLIC_ l) (java_vm_ l) (full_path_ l).

Definition set_relro (relro_start : Z) (relro_size : Z) (l : SharedLibrary) : SharedLibrary :=
  mk_SharedLibrary (view_ l) (symbols_ l) relro_start relro_size (relro_used_ l) (list_next_ l)
    (list_prev_ l) (preinit_array_ l) (preinit_array_count_ l) (init_array_ l)
    (init_array_count_ l) (fini_array_ l) (fini_array_count_ l) (init_func_ l) (fini_func_ l)
    (arm_exidx_ l) (arm_exidx_count_ l) (has_DT_SYMBOLIC_ l) (java_vm_ l) (full_path_ l).

Definition set_relro_used (relro_used : bool) (l : SharedLibrary) : SharedLibrary :=
  mk_SharedLibrary (view_ l) (symbols_ l) (relro_start_ l) (relro_size_ l) relro_used
    (list_next_ l) (list_prev_ l) (preinit_array_ l) (preinit_array_count_ l) (init_array_ l)
    (init_array_count_ l) (fini_array_ l) (fini_array_count_ l) (init_func_ l) (fini_func_ l)
    (arm_exidx_ l) (arm_exidx_count_ l) (has_DT_SYMBOLIC_ l) (java_vm_ l) (full_path_ l).

Definition set_links (list_next : Z) (list_prev : Z) (l : SharedLibrary) : SharedLibrary :=
  mk_SharedLibrary (view_ l) (symbols_ l) (relro_start_ l) (relro_size_ l) (relro_used_ l)
    list_next list_prev (preinit_array_ l) (preinit_array_count_ l) (init_array_ l)
    (init_array_count_ l) (fini_array_ l) (fini_array_count_ l) (init_func_ l) (fini_func_ l)
    (arm_exidx_ l) (arm_exidx_count_ l) (has_DT_SYMBOLIC_ l) (java_vm_ l) (full_path_ l).

Definition set_preinit (preinit_array : Z) (preinit_array_count : Z) (l : SharedLibrary) : SharedLibrary :=
  mk_SharedLibrary (view_ l) (symbols_ l) (relro_start_ l) (relro_size_ l) (relro_used_ l)
    (list_next_ l) (list_prev_ l) preinit_array preinit_array_count (init_array_ l)
    (init_array_count_ l) (fini_array_ l) (fini_array_count_ l) (init_func_ l) (fini_func_ l)
    (arm_exidx_ l) (arm_exidx_count_ l) (has_DT_SYMBOLIC_ l) (java_vm_ l) (full_path_ l).

Definition set_init (init_array : Z) (init_array_count : Z) (l : SharedLibrary) : SharedLibrary :=
  mk_SharedLibrary (view_ l) (symbols_ l) (relro_start_ l) (relro_size_ l) (relro_used_ l)
    (list_next_ l) (list_prev_ l) (preinit_array_ l) (preinit_array_count_ l) init_array
    init_array_count (fini_array_ l) (fini_array_count_ l) (init_func_ l) (fini_func_ l)
    (arm_exidx_ l) (arm_exidx_count_ l) (has_DT_SYMBOLIC_ l) (java_vm_ l) (full_path_ l).

Definition set_fini (fini_array : Z) (fini_array_count : Z) (l : SharedLibrary) : SharedLibrary :=
  mk_SharedLibrary (view_ l) (symbols_ l) (relro_start_ l) (relro_size_ l) (relro_used_ l)
    (list_next_ l) (list_prev_ l) (preinit_array_ l) (preinit_array_count_ l) (init_array_ l)
    (init_array_count_ l) fini_array fini_array_count (init_func_ l) (fini_func_ l) (arm_exidx_ l)
    (arm_exidx_count_ l) (has_DT_SYMBOLIC_ l) (java_vm_ l) (full_path_ l).

Definition set_funcs (init_func : Z) (fini_func : Z) (l : SharedLibrary) : SharedLibrary :=
  mk_SharedLibrary (view_ l) (symbols_ l) (relro_start_ l) (relro_size_ l) (relro_used_ l)
    (list_next_ l) (list_prev_ l) (preinit_array_ l) (preinit_array_count_ l) (init_array_ l)
    (init_array_count_ l) (fini_array_ l) (fini_array_count_ l) init_func fini_func (arm_exidx_ l)
    (arm_exidx_count_ l) (has_DT_SYMBOLIC_ l) (java_vm_ l) (full_path_ l).

Definition set_exidx (arm_exidx : Z) (arm_exidx_count : Z) (l : SharedLibrary) : SharedLibrary :=
  mk_SharedLibrary (view_ l) (symbols_ l) (relro_start_ l) (relro_size_ l) (relro_used_ l)
    (list_next_ l) (list_prev_ l) (preinit_array_ l) (preinit_array_count_ l) (init_array_ l)
    (init_array_count_ l) (fini_array_ l) (fini_array_count_ l) (init_func_ l) (fini_func_ l)
    arm_exidx arm_exidx_count (has_DT_SYMBOLIC_ l) (java_vm_ l) (full_path_ l).

Definition set_symbolic (has_DT_SYMBOLIC : bool) (l : SharedLibrary) : SharedLibrary :=
  mk_SharedLibrary (view_ l) (symbols_ l) (relro_start_ l) (relro_size_ l) (relro_used_ l)
    (list_next_ l) (list_prev_ l) (preinit_array_ l) (preinit_array_count_ l) (init_array_ l)
    (init_array_count_ l) (fini_array_ l) (fini_array_count_ l) (init_func_ l) (fini_func_ l)
    (arm_exidx_ l) (arm_exidx_count_ l) has_DT_SYMBOLIC (java_vm_ l) (full_path_ l).

Definition set_java_vm (java_vm : Z) (l : SharedLibrary) : SharedLibrary :=
  mk_SharedLibrary (view_ l) (symbols_ l) (relro_start_ l) (relro_size_ l) (relro_used_ l)
    (list_next_ l) (list_prev_ l) (preinit_array_ l) (preinit_array_count_ l) (init_array_ l)
    (init_array_count_ l) (fini_array_ l) (fini_array_count_ l) (init_func_ l) (fini_func_ l)
    (arm_exidx_ l) (arm_exidx_count_ l) (has_DT_SYMBOLIC_ l) java_vm (full_path_ l).

Definition set_path (full_path : cstr) (l : SharedLibrary) : SharedLibrary :=
  mk_SharedLibrary (view_ l) (symbols_ l) (relro_start_ l) (relro_size_ l) (relro_used_ l)
    (list_next_ l) (list_prev_ l) (preinit_array_ l) (preinit_array_count_ l) (init_array_ l)
    (init_array_count_ l) (fini_array_ l) (fini_array_count_ l) (init_func_ l) (fini_func_ l)
    (arm_exidx_ l) (arm_exidx_count_ l) (has_DT_SYMBOLIC_ l) (java_vm_ l) full_path.

Definition load_address (l : SharedLibrary) : Z := load_address_ (view_ l).
Definition load_size (l : SharedLibrary) : Z := load_size_ (view_ l).
Definition load_bias (l : SharedLibrary) : Z := load_bias_ (view_ l).
Definition base_name (l : SharedLibrary) : cstr := GetBaseNamePtr (full_path_ l).

(** ** The process *)

(** Calls into the code of libraries. *)
Inductive call :=
| Fn (address : Z)
| JniOnLoad (address java_vm : Z)
| JniOnUnload (address java_vm : Z).

Record process := mk_process {
  p_rs : rstate;
  p_dev : gmap Z region;
  p_calls : list call;
}.

Definition p_space (p : process) : aspace := rs_space (p_rs p).

Definition set_p_space (s : aspace) (p : process) : process :=
  mk_process (RDebug.set_space s (p_rs p)) (p_dev p) (p_calls p).

(** The effect of the code of libraries on memory: a function without result,
    and a JNI entry point called with a virtual machine. *)
Class Code := {
  code_run : Z -> aspace -> aspace;
  code_jni : Z -> Z -> aspace -> Z * aspace;
}.

(** The system linker, and the addresses of the wrappers of this program that
    replace its functions. *)
Class SystemLinker := {
  sys_dlsym : Z -> cstr -> Z;
  sys_dlopen : cstr -> Z -> option Z;
  wrapper_address : cstr -> Z;
}.

(** A library that a symbol is looked up in, as a [LibraryView] shows it. *)
Inductive dependency :=
| SystemLib (handle : Z) (name : cstr)
| CrazyLib (lib : SharedLibrary)
| NoLib.

Definition lib_state : Type := SharedLibrary * process.

Section Operations.
Context (a : arch) `{K : Kernel} `{FS : FileSystem} `{A : Ashmem} `{C : Code} `{SL : SystemLinker}.

Local Notation W := (Z.of_nat (sizeof_Addr a)).

(** ** Loading *)

(** [*dyn.GetValuePointer() = v] for the entry at [p]. *)
Definition store_value (p v : Z) : M lib_state unit := fun '(l, pr) =>
  match store_le (sizeof_Addr a) (p_space pr) (p + W) v with
  | Some s => Ret tt (l, set_p_space s pr)
  | None => Crash
  end.

Definition modify_lib (f : SharedLibrary -> SharedLibrary) : M lib_state unit :=
  fun '(l, pr) => Ret tt (f l, pr).

(** The body of the loop of [SharedLibrary::Load] over the dynamic table. *)
Definition load_entry (p : Z) (d : Dyn) : M lib_state unit := fun '(l, pr) =>
  let dyn_value := d_val d in
  let dyn_addr := GetAddress a d (load_bias l) in
  let count := dyn_value / W in
  let tag := d_tag d in
  let r_debug := r_debug_ (rs_obj (p_rs pr)) in
  (if tag =? DT_DEBUG then
     if negb (Z.land (dynamic_flags_ (view_ l)) PF_W =? 0) then store_value p r_debug else lret tt
   else if tag =? DT_INIT then modify_lib (set_funcs dyn_addr (fini_func_ l))
   else if tag =? DT_FINI then modify_lib (set_funcs (init_func_ l) dyn_addr)
   else if tag =? DT_INIT_ARRAY then modify_lib (set_init dyn_addr (init_array_count_ l))
   else if tag =? DT_INIT_ARRAYSZ then modify_lib (set_init (init_array_ l) count)
   else if tag =? DT_FINI_ARRAY then modify_lib (set_fini dyn_addr (fini_array_count_ l))
   else if tag =? DT_FINI_ARRAYSZ then modify_lib (set_fini (fini_array_ l) count)
   else if tag =? DT_PREINIT_ARRAY then modify_lib (set_preinit dyn_addr (preinit_array_count_ l))
   else if tag =? DT_PREINIT_ARRAYSZ then modify_lib (set_preinit (preinit_array_ l) count)
   else if tag =? DT_SYMBOLIC then modify_lib (set_symbolic true)
   else if tag =? DT_FLAGS then
     if negb (Z.land dyn_value DF_SYMBOLIC =? 0) then modify_lib (set_symbolic true) else lret tt
   else match a with
        | mips => if tag =? DT_MIPS_RLD_MAP then store_value p r_debug else lret tt
        | _ => lret tt
        end) (l, pr).

(** The part of [SharedLibrary::Load] after the block of the loader. *)
Definition load_info : M lib_state unit := fun '(l, pr) =>
  let v := view_ l in
  match read_array (read_Phdr a (load_byte (p_space pr))) (sizeof_Phdr a)
          (Z.to_nat (phdr_count_ v)) (phdr_ v) with
  | None => Crash
  | Some tbl =>
      let '(start, size) := default (0, 0) (phdr_table_get_relro_info a tbl (load_bias_ v)) in
      let l := set_relro start size l in
      let l := match a with
               | arm => let '(exidx, count) := default (0, 0) (phdr_table_get_arm_exidx a tbl (load_bias_ v)) in
                        set_exidx exidx count l
               | _ => l
               end in
      for_dynamic a (fun st => load_byte (p_space st.2)) (Z.to_nat (dynamic_count_ v)) (dynamic_ v)
        load_entry (l, pr)
  end.

(** [SharedLibrary::Load]; the destructor of the loader runs when its block is
    left. *)
Definition Load (full_path : cstr) (load_address file_offset : Z) : M lib_state unit :=
  fun '(l, pr) =>
    if (512 <=? length full_path)%nat then Fail (Msg "Path too long: %s" [AS full_path]) (l, pr) else
    let l := set_path full_path l in
    match LoadAt a full_path file_offset load_address (new_ElfLoader (p_space pr)) with
    | Crash => Crash
    | Fail e ld => Fail e (l, set_p_space (delete_ElfLoader ld) pr)
    | Ret _ ld =>
        let s := ElfLoader.space ld in
        let pr := set_p_space (delete_ElfLoader ld) pr in
        match InitUnmapped a s (load_start_ ld) (loaded_phdr_ ld) (phdr_num_ ld) (view_ l) with
        | Crash => Crash
        | Fail e v => Fail e (set_view v l, pr)
        | Ret _ v =>
            let l := set_view v l in
            match ElfSymbols.Init a s v (symbols_ l) with
            | Ret true sy => load_info (set_symbols sy l, pr)
            | Ret false sy => Fail (Msg "Missing or malformed symbol table" []) (set_symbols sy l, pr)
            | Fail e sy => Fail e (set_symbols sy l, pr)
            | Crash => Crash
            end
        end
    end.

(** The destructor [SharedLibrary::~SharedLibrary]. *)
Definition delete_SharedLibrary (l : SharedLibrary) (pr : process) : process :=
  if load_address l =? 0 then pr
  else match munmap (p_space pr) (load_address l) (load_size l) with
       | Some s => set_p_space s pr
       | None => pr
       end.

(** [SharedLibrary::ContainsAddress] *)
Definition ContainsAddress (address : Z) (l : SharedLibrary) : bool :=
  (load_address l <=? address) && (address <=? addr a (load_address l + load_size l)).

(** ** Symbols *)

(** [SharedLibrary::LookupSymbolEntry] *)
Definition LookupSymbolEntry (l : SharedLibrary) (s : aspace) (symbol_name : cstr) : option (option Sym) :=
  LookupByName a s (symbols_ l) symbol_name.

(** [SharedLibrary::FindAddressForSymbol]; 0 for [NULL]. *)
Definition FindAddressForSymbol (l : SharedLibrary) (s : aspace) (symbol_name : cstr) : option Z :=
  LookupAddressByName a s (symbols_ l) symbol_name (load_bias l).

(** [SharedLibrary::FindNearestSymbolForAddress] *)
Definition FindNearestSymbolForAddress (l : SharedLibrary) (s : aspace) (address : Z)
    : option (option (Z * Z * Z)) :=
  LookupNearestByAddress a s (symbols_ l) address (load_bias l).

(** The table [kSymbols] of [WrapLinkerSymbol]. *)
Definition kSymbols : list cstr :=
  [str "dlopen"; str "dlclose"; str "dlerror"; str "dlsym"; str "dladdr";
   match a with arm => str "dl_unwind_find_exidx" | _ => str "dl_iterate_phdr" end].

(** [WrapLinkerSymbol]; 0 for [NULL]. *)
Definition WrapLinkerSymbol (name : cstr) : Z :=
  if negb (bool_decide (take 2 name = str "dl")) then
    match a with
    | arm => if bool_decide (name = str "__aeabi_atexit") then wrapper_address name else 0
    | _ => 0
    end
  else if bool_decide (name ∈ kSymbols) then wrapper_address name
  else 0.

(** The address of a definition, if there is one. *)
Definition own_address (l : SharedLibrary) (s : aspace) (symbol_name : cstr) : option (option Z) :=
  match LookupSymbolEntry l s symbol_name with
  | None => None
  | Some None => Some None
  | Some (Some entry) => Some (Some (addr a (load_bias l + st_value entry)))
  end.

(** [dlsym] in a system library, with the exception for [isnanf] on ARM. *)
Definition system_address (handle : Z) (name symbol_name : cstr) : Z :=
  let address := sys_dlsym handle symbol_name in
  match a with
  | arm =>
      if (address =? 0) && bool_decide (symbol_name = str "isnanf") && bool_decide (name = str "libm.so")
      then sys_dlsym handle (str "__isnanf") else address
  | _ => address
  end.

(** The loop of [SharedLibraryResolver::Lookup] over the dependencies. *)
Fixpoint lookup_dependencies (deps : list dependency) (s : aspace) (symbol_name : cstr) : option Z :=
  match deps with
  | [] => Some 0
  | SystemLib handle name :: deps =>
      let address := system_address handle name symbol_name in
      if negb (address =? 0) then Some address else lookup_dependencies deps s symbol_name
  | CrazyLib dep :: deps =>
      match own_address dep s symbol_name with
      | None => None
      | Some (Some address) => Some address
      | Some None => lookup_dependencies deps s symbol_name
      end
  | NoLib :: deps => lookup_dependencies deps s symbol_name
  end.

(** [SharedLibraryResolver::Lookup] *)
Definition resolver_Lookup (l : SharedLibrary) (deps : list dependency) (s : aspace)
    (symbol_name : cstr) : option Z :=
  match own_address l s symbol_name with
  | None => None
  | Some (Some address) => Some address
  | Some None =>
      let address := WrapLinkerSymbol symbol_name in
      if negb (address =? 0) then Some address else lookup_dependencies deps s symbol_name
  end.

(** [SharedLibrary::Relocate] *)
Definition Relocate (deps : list dependency) : M lib_state unit := fun '(l, pr) =>
  match Relocations.Init a (p_space pr) (view_ l) (mk_init_state new_ElfRelocations false false) with
  | Crash => Crash
  | Fail e _ => Fail e (l, pr)
  | Ret _ st =>
      let resolver := {| Lookup := resolver_Lookup l deps |} in
      match ApplyAll a (obj st) (symbols_ l) (p_space pr) with
      | Crash => Crash
      | Fail e s => Fail e (l, set_p_space s pr)
      | Ret _ s => Ret tt (l, set_p_space s pr)
      end
  end.

(** ** Constructors and destructors *)

(** [CallFunction] *)
Definition CallFunction (func : Z) (pr : process) : process :=
  if negb (func =? 0) && negb (func =? addr a (-1)) then
    mk_process (RDebug.set_space (code_run func (p_space pr)) (p_rs pr)) (p_dev pr)
      (p_calls pr ++ [Fn func])
  else pr.

(** The functions at the indices [ns] of an array are called in turn; each one
    is read just before its call. *)
Fixpoint call_array (array : Z) (ns : list Z) (pr : process) : option process :=
  match ns with
  | [] => Some pr
  | n :: ns =>
      match load_le (sizeof_Addr a) (p_space pr) (addr a (array + n * W)) with
      | None => None
      | Some func => call_array array ns (CallFunction func pr)
      end
  end.

(** [SharedLibrary::CallConstructors] *)
Definition CallConstructors (l : SharedLibrary) (pr : process) : option process :=
  call_array (init_array_ l) (seqZ 0 (init_array_count_ l)) (CallFunction (init_func_ l) pr).

(** [SharedLibrary::CallDestructors] *)
Definition CallDestructors (l : SharedLibrary) (pr : process) : option process :=
  CallFunction (fini_func_ l) <$>
    call_array (fini_array_ l) (rev (seqZ 0 (fini_array_count_ l))) pr.

(** [SharedLibrary::SetJavaVM] *)
Definition SetJavaVM (java_vm minimum_jni_version : Z) : M lib_state unit := fun '(l, pr) =>
  if java_vm =? 0 then Ret tt (l, pr) else
  match FindAddressForSymbol l (p_space pr) (str "JNI_OnLoad") with
  | None => Crash
  | Some jni_onload =>
      if jni_onload =? 0 then Ret tt (l, pr) else
      let '(jni_version, s) := code_jni jni_onload java_vm (p_space pr) in
      let pr := mk_process (RDebug.set_space s (p_rs pr)) (p_dev pr)
                  (p_calls pr ++ [JniOnLoad jni_onload java_vm]) in
      if jni_version <? minimum_jni_version
      then Fail (Msg "JNI_OnLoad() in %s returned %d, expected at least %d"
                   [AS (full_path_ l); AZ jni_version; AZ minimum_jni_version]) (l, pr)
      else Ret tt (set_java_vm java_vm l, pr)
  end.

(** [SharedLibrary::CallJniOnUnload] *)
Definition CallJniOnUnload (l : SharedLibrary) (pr : process) : option process :=
  if java_vm_ l =? 0 then Some pr else
  match FindAddressForSymbol l (p_space pr) (str "JNI_OnUnload") with
  | None => None
  | Some jni_on_unload =>
      if jni_on_unload =? 0 then Some pr
      else Some (mk_process
             (RDebug.set_space (code_jni jni_on_unload (java_vm_ l) (p_space pr)).2 (p_rs pr))
             (p_dev pr) (p_calls pr ++ [JniOnUnload jni_on_unload (java_vm_ l)]))
  end.

(** ** Sharing the RELRO section *)

(** Runs an operation of [SharedRelro] in the process. *)
Definition on_world {B} (c : M (SharedRelro * world) B) (o : SharedRelro) (pr : process)
    : outcome (SharedRelro * process) B :=
  let back w := mk_process (RDebug.set_space (w_space w) (p_rs pr)) (w_dev w) (p_calls pr) in
  match c (o, mk_world (p_space pr) (p_dev pr)) with
  | Ret x (o, w) => Ret x (o, back w)
  | Fail e (o, w) => Fail e (o, back w)
  | Crash => Crash
  end.

(** The destructor of a [SharedRelro] closes its descriptor. *)
Definition close_relro (o : SharedRelro) (pr : process) : process :=
  mk_process (p_rs pr) (delete (ashmem_ o) (p_dev pr)) (p_calls pr).

(** [SharedLibrary::CreateSharedRelro]: the start, the size and the descriptor. *)
Definition CreateSharedRelro (l : SharedLibrary) (new_address : Z) : M process (Z * Z * Z) := fun pr =>
  let body : M (SharedRelro * world) unit :=
    do* relro_Allocate (relro_size_ l) (base_name l) in
    do* (if negb (new_address =? 0) && negb (new_address =? load_address l)
         then CopyFromRelocated a (view_ l) new_address (relro_start_ l) (relro_size_ l)
         else CopyFrom (relro_start_ l) (relro_size_ l)) in
    ForceReadOnly in
  match on_world body new_SharedRelro pr with
  | Crash => Crash
  | Fail e (o, pr) => Fail e (close_relro o pr)
  | Ret _ (o, pr) => Ret (start_ o, relro_size o, ashmem_ o) pr
  end.

(** [SharedLibrary::UseSharedRelro]: the returned value. *)
Definition UseSharedRelro (relro_start relro_size relro_fd : Z) : M lib_state bool := fun '(l, pr) =>
  if (relro_fd <? 0) || (relro_size =? 0) then Ret true (l, pr)
  else if relro_used_ l then Fail (Msg "Library already using shared RELRO section" []) (l, pr)
  else if negb (relro_start_ l =? relro_start) || negb (relro_size_ l =? relro_size)
  then Fail (Msg "RELRO mismatch addr=%p size=%p (wanted addr=%p size=%p)"
               [AZ (relro_start_ l); AZ (relro_size_ l); AZ relro_start; AZ relro_size]) (l, pr)
  else
    match on_world (InitFrom relro_start relro_size relro_fd) new_SharedRelro pr with
    | Crash => Crash
    | Fail e (_, pr) => Fail e (l, pr)
    | Ret false (_, pr) => Ret false (l, pr)
    | Ret true (_, pr) => Ret true (set_relro_used true l, pr)
    end.

End Operations.

(** ** Lemmas *)

(** The functions that are really called. *)
Definition callable (a : arch) (func : Z) : bool := negb (func =? 0) && negb (func =? addr a (-1)).

Section Calls.
Context (a : arch) `{C : Code}.

Local Notation W := (Z.of_nat (sizeof_Addr a)).

(** The words of an array of functions, which the functions leave alone. *)
Definition stable_array (s : aspace) (array : Z) (funcs : list Z) : Prop :=
  forall i f, funcs !! i = Some f ->
    load_le (sizeof_Addr a) s (addr a (array + Z.of_nat i * W)) = Some f.

Definition keeps_array (array : Z) (n : nat) : Prop :=
  forall s f i, (i < n)%nat ->
    load_le (sizeof_Addr a) (code_run f s) (addr a (array + Z.of_nat i * W))
    = load_le (sizeof_Addr a) s (addr a (array + Z.of_nat i * W)).

Lemma call_function_calls f pr :
  p_calls (CallFunction a f pr) = p_calls pr ++ map Fn (List.filter (callable a) [f]).
Proof.
  unfold CallFunction. cbn. fold (callable a f). destruct (callable a f); [done|by rewrite app_nil_r].
Qed.

Lemma call_function_stable f pr array funcs :
  keeps_array array (length funcs) ->
  stable_array (p_space pr) array funcs -> stable_array (p_space (CallFunction a f pr)) array funcs.
Proof.
  intros Hk Hs i g Hg. unfold CallFunction. fold (callable a f). destruct (callable a f); [|by apply Hs].
  cbn. rewrite Hk; [by apply Hs|]. by eapply lookup_lt_Some.
Qed.

Lemma call_array_calls array funcs ks pr :
  keeps_array array (length funcs) -> stable_array (p_space pr) array funcs ->
  Forall (fun i => (i < length funcs)%nat) ks ->
  exists pr', call_array a array (map Z.of_nat ks) pr = Some pr' /\
    p_calls pr' = p_calls pr ++ map Fn (List.filter (callable a) (map (fun i => nth i funcs 0) ks)) /\
    stable_array (p_space pr') array funcs.
Proof.
  intros Hk Hs His. revert pr Hs. induction His as [|i ks Hi His IH]; intros pr Hs.
  { exists pr. cbn. by rewrite app_nil_r. }
  cbn [map call_array]. destruct (lookup_lt_is_Some_2 funcs i Hi) as [f Hf]. rewrite (Hs i f Hf).
  destruct (IH (CallFunction a f pr)) as (pr' & -> & Hc & Hst); [by apply call_function_stable|].
  exists pr'. split; [done|]. split; [|done]. rewrite Hc, call_function_calls, <-app_assoc, <-map_app.
  do 2 f_equal. rewrite <-List.filter_app. by rewrite (nth_lookup_Some funcs i 0 f Hf).
Qed.

Lemma seqZ_map n : seqZ 0 (Z.of_nat n) = map Z.of_nat (seq 0 n).
Proof.
  unfold seqZ. rewrite Nat2Z.id. change (0%Z) with (Z.of_nat 0). apply map_ext. intros; lia.
Qed.

Lemma nth_seq (funcs : list Z) : map (fun i => nth i funcs 0) (seq 0 (length funcs)) = funcs.
Proof.
  induction funcs as [|f funcs IH] using rev_ind; [done|].
  rewrite length_app, seq_app, map_app. cbn. f_equal.
  - rewrite <-IH at 2. apply map_ext_in. intros i Hi%in_seq. rewrite app_nth1 by lia. done.
  - rewrite app_nth2, Nat.sub_diag by lia. done.
Qed.

Lemma constructors_core l pr funcs :
  init_array_count_ l = Z.of_nat (length funcs) -> keeps_array (init_array_ l) (length funcs) ->
  stable_array (p_space pr) (init_array_ l) funcs ->
  exists pr', CallConstructors a l pr = Some pr' /\
    p_calls pr' = p_calls pr ++ map Fn (List.filter (callable a) (init_func_ l :: funcs)).
Proof.
  intros Hn Hk Hs. unfold CallConstructors. rewrite Hn, seqZ_map.
  destruct (call_array_calls (init_array_ l) funcs (seq 0 (length funcs)) (CallFunction a (init_func_ l) pr))
    as (pr' & -> & Hc & _); [done|by apply call_function_stable| |].
  { apply list.Forall_forall. intros i Hi%elem_of_seq. lia. }
  exists pr'. split; [done|]. rewrite Hc, call_function_calls, <-app_assoc, <-map_app, nth_seq.
  do 2 f_equal. by rewrite <-List.filter_app.
Qed.

Lemma destructors_core l pr funcs :
  fini_array_count_ l = Z.of_nat (length funcs) -> keeps_array (fini_array_ l) (length funcs) ->
  stable_array (p_space pr) (fini_array_ l) funcs ->
  exists pr', CallDestructors a l pr = Some pr' /\
    p_calls pr' = p_calls pr ++ map Fn (List.filter (callable a) (rev funcs ++ [fini_func_ l])).
Proof.
  intros Hn Hk Hs. unfold CallDestructors. rewrite Hn, seqZ_map, <-map_rev.
  destruct (call_array_calls (fini_array_ l) funcs (rev (seq 0 (length funcs))) pr)
    as (pr' & -> & Hc & _); [done|done| |].
  { apply list.Forall_forall. intros i Hi. apply list_elem_of_In, in_rev, in_seq in Hi. lia. }
  eexists; split; [done|]. rewrite call_function_calls, Hc, <-app_assoc, <-map_app.
  rewrite <-List.filter_app. do 3 f_equal. by rewrite map_rev, nth_seq.
Qed.

End Calls.

(** *** The shared section *)

Definition world_of (pr : process) : world := mk_world (p_space pr) (p_dev pr).

(** A section of readable pages. *)
Definition section_ok (s : aspace) (start size : Z) : Prop :=
  page_aligned start /\ page_aligned size /\ 0 < size /\
  forall x, start <= x < start + size -> readable s x = true.

Section Sharing.
Context (a : arch) `{K : Kernel} (HK : KernelOk (kElfBits a) K) `{A : Ashmem} (HA : AshmemOk A).

Lemma create_core l pr fd :
  section_ok (p_space pr) (relro_start_ l) (relro_size_ l) ->
  region_granted (world_of pr) (relro_size_ l) fd (base_name l) ->
  exists pr' r, CreateSharedRelro a l 0 pr = Ret (relro_start_ l, relro_size_ l, fd) pr' /\
    space_eq (p_space pr) (p_space pr') /\ p_dev pr' = <[fd := r]> (p_dev pr) /\
    r_size r = relro_size_ l /\ r_mask r = PROT_READ /\
    (forall i, 0 <= i < relro_size_ l ->
       byte_at (p_space pr) (relro_start_ l + i) = Some (r_byte r i)).
Proof.
  intros (Ha1 & Ha2 & Hpos & Hrd) [Hop Hsz Hnm Hmk Hpl]. cbn [w_dev w_space world_of] in *.
  destruct (ash_open_fresh _ _ Hop) as [Hfd Hfresh].
  unfold CreateSharedRelro, on_world, lbind at 1, relro_Allocate, ashmem_Allocate.
  cbn [w_dev w_space]. rewrite Hop, Hsz, Hnm. cbn [andb]. change (negb (0 =? 0)) with false. cbn [andb].
  set (r0 := mk_region _ _ _ _).
  destruct (copy_from_spec a HK HA (mk_SharedRelro 0 (relro_size_ l) fd)
    (mk_world (p_space pr) (<[fd := r0]> (p_dev pr))) (relro_start_ l) (relro_size_ l) r0)
    as (s' & r & E & Heq & Hrs & Hrn & Hbytes); cbn [w_dev w_space ashmem_] in *; try done.
  { by rewrite lookup_insert_eq. }
  { by apply Hpl. }
  rewrite (lbind_step _ _ _ _ _ E). unfold ForceReadOnly, SetProtectionFlags. cbn [w_dev w_space ashmem_].
  rewrite lookup_insert_eq, Hmk. eexists _, _. split; [done|]. split; [done|].
  split; [cbn; by rewrite !insert_insert_eq|]. by split_and!.
Qed.

Lemma use_core l pr fd r :
  section_ok (p_space pr) (relro_start_ l) (relro_size_ l) -> relro_used_ l = false ->
  p_dev pr !! fd = Some r -> 0 <= fd -> r_mask r = PROT_READ -> r_size r = relro_size_ l ->
  (forall i, 0 <= i < relro_size_ l -> byte_at (p_space pr) (relro_start_ l + i) = Some (r_byte r i)) ->
  placeable (p_space pr) PAGE_SIZE -> placeable (p_space pr) (relro_size_ l) ->
  (forall s x n, kmap_ok s x n = true) ->
  exists pr', UseSharedRelro (relro_start_ l) (relro_size_ l) fd (l, pr)
      = Ret true (set_relro_used true l, pr') /\
    (forall x, load_byte (p_space pr') x = load_byte (p_space pr) x) /\
    (forall x, relro_start_ l <= x < relro_start_ l + relro_size_ l ->
       prot_at (p_space pr') x = Some PROT_READ).
Proof.
  intros (Ha1 & Ha2 & Hpos & Hrd) Hused Hr Hfd Hm Hsz Hbytes Hp1 Hp2 Hg. unfold UseSharedRelro.
  rewrite (proj2 (Z.ltb_ge _ _)), (proj2 (Z.eqb_neq _ _)), Hused, !Z.eqb_refl by lia. cbn [orb negb].
  destruct (init_from_core a HK HA new_SharedRelro (world_of pr) (relro_start_ l) (relro_size_ l) fd r)
    as (b & o' & w' & E & _ & Hb & Hload & Hin & _).
  { split; try done. cbn. lia. }
  assert (forall q, page_aligned q -> 0 <= q < relro_size_ l ->
    similar (p_space pr) (relro_start_ l) r q) as Hsim.
  { intros q Hq Hq' i Hi. assert (q + PAGE_SIZE <= relro_size_ l).
    { unfold page_aligned, PAGE_SIZE in *. Z.div_mod_to_equations; lia. }
    rewrite <-Z.add_assoc. apply Hbytes. lia. }
  assert (b = true) as ->.
  { apply Hb. exists 0. split_and!; [done|lia|lia|]. by apply Hsim. }
  unfold on_world. unfold world_of in E. rewrite E. eexists; split; [done|]. split; [done|].
  intros x Hx. apply Hin. exists (PAGE_START (x - relro_start_ l)).
  pose proof (page_start_le (x - relro_start_ l)). pose proof (page_start_nonneg (x - relro_start_ l)).
  pose proof (page_start_aligned (x - relro_start_ l)).
  split_and!; try done; try lia. apply Hsim; [done|lia].
Qed.

End Sharing.

(** ** Properties *)

(** Constructors and destructors.  [CallConstructors] calls [DT_INIT] and
    then the functions of [DT_INIT_ARRAY] in the order of the array, and
    [CallDestructors] the functions of [DT_FINI_ARRAY] in the opposite order and
    then [DT_FINI]; null pointers and the markers -1 are skipped, and each
    function is called once. *)
Theorem constructors_destructors_order a `{Code} l pr inits finis :
  init_array_count_ l = Z.of_nat (length inits) -> fini_array_count_ l = Z.of_nat (length finis) ->
  keeps_array a (init_array_ l) (length inits) -> keeps_array a (fini_array_ l) (length finis) ->
  stable_array a (p_space pr) (init_array_ l) inits ->
  stable_array a (p_space pr) (fini_array_ l) finis ->
  (exists pr', CallConstructors a l pr = Some pr' /\
     p_calls pr' = p_calls pr ++ map Fn (List.filter (callable a) (init_func_ l :: inits))) /\
  (exists pr', CallDestructors a l pr = Some pr' /\
     p_calls pr' = p_calls pr ++ map Fn (List.filter (callable a) (rev finis ++ [fini_func_ l]))).
Proof. intros. split; [by apply constructors_core|by apply destructors_core]. Qed.

(** A library whose arrays hold two functions and a null pointer. *)
#[local] Instance no_code : Code := {| code_run _ s := s; code_jni _ _ s := (0, s) |}.

Definition array_process : process :=
  mk_process (mk_rstate (bytes_space 0x1000 PROT_READ (flat_map (le_bytes 4) [0x2000; 0; 0x2004]))
                new_RDebug [] []) ∅ [].

Definition array_library : SharedLibrary :=
  set_funcs 0x2100 0x2200 (set_init 0x1000 3 (set_fini 0x1000 3 new_SharedLibrary)).

Lemma constructors_destructors_order_witness :
  (exists pr, CallConstructors arm array_library array_process = Some pr /\
     p_calls pr = [Fn 0x2100; Fn 0x2000; Fn 0x2004]) /\
  (exists pr, CallDestructors arm array_library array_process = Some pr /\
     p_calls pr = [Fn 0x2004; Fn 0x2000; Fn 0x2200]).
Proof.
  apply (constructors_destructors_order arm array_library array_process [0x2000; 0; 0x2004]
    [0x2000; 0; 0x2004]); try reflexivity; try (intros s f i _; reflexivity);
    intros [|[|[|i]]] f Hf; cbn in Hf; simplify_eq; vm_compute; reflexivity.
Defined.

(** C27: Sharing RELRO between two processes.  [CreateSharedRelro] in one process
    changes nothing that the process can read and yields a read-only region with
    the content of the section; [UseSharedRelro] in a process that has loaded
    the library at the same address, and whose section has the same content,
    succeeds, maps every page of the section from the region, read-only, and
    changes nothing that the process can read. *)
Theorem shared_relro_roundtrip a `{K : Kernel} `{A : Ashmem} l l' pr fd :
  KernelOk (kElfBits a) K -> AshmemOk A -> (forall s x n, kmap_ok s x n = true) ->
  section_ok (p_space pr) (relro_start_ l) (relro_size_ l) ->
  region_granted (world_of pr) (relro_size_ l) fd (base_name l) ->
  relro_start_ l' = relro_start_ l -> relro_size_ l' = relro_size_ l -> relro_used_ l' = false ->
  exists pr1 r, CreateSharedRelro a l 0 pr = Ret (relro_start_ l, relro_size_ l, fd) pr1 /\
    (forall x, load_byte (p_space pr1) x = load_byte (p_space pr) x) /\
    p_dev pr1 !! fd = Some r /\ r_mask r = PROT_READ /\
    (forall pr2 fd2, p_dev pr2 !! fd2 = Some r -> 0 <= fd2 ->
       section_ok (p_space pr2) (relro_start_ l) (relro_size_ l) ->
       (forall x, relro_start_ l <= x < relro_start_ l + relro_size_ l ->
          byte_at (p_space pr2) x = byte_at (p_space pr) x) ->
       placeable (p_space pr2) PAGE_SIZE -> placeable (p_space pr2) (relro_size_ l) ->
       exists pr3, UseSharedRelro (relro_start_ l) (relro_size_ l) fd2 (l', pr2)
           = Ret true (set_relro_used true l', pr3) /\
         (forall x, load_byte (p_space pr3) x = load_byte (p_space pr2) x) /\
         (forall x, relro_start_ l <= x < relro_start_ l + relro_size_ l ->
            prot_at (p_space pr3) x = Some PROT_READ)).
Proof.
  intros HK HA Hg Hs Hr Hst Hsz Hu.
  destruct (create_core a HK HA l pr fd Hs Hr) as (pr1 & r & E & Heq & Hdev & Hrs & Hm & Hb).
  exists pr1, r. split; [done|]. split; [intros x; by apply space_eq_load|].
  split; [by rewrite Hdev, lookup_insert_eq|]. split; [done|].
  intros pr2 fd2 Hr2 Hfd2 Hs2 Hsame Hp1 Hp2. rewrite <-Hst, <-Hsz in *.
  apply (use_core a HK HA l' pr2 fd2 r); try done.
  intros i Hi. rewrite Hsame by lia. by apply Hb.
Qed.

(** A library whose RELRO section is the one of the example of [Relro]. *)
Definition relro_library : SharedLibrary := set_relro 0x60000000 8192 new_SharedLibrary.

Definition relro_process (dev : gmap Z region) : process :=
  mk_process (mk_rstate demo_space new_RDebug [] []) dev [].

Lemma relro_section_ok : section_ok demo_space 0x60000000 8192.
Proof.
  split_and!; [done|done|lia|]. intros x Hx. unfold readable, load_byte, can. cbn.
  by rewrite (proj2 (in_range_true _ _ _)) by lia.
Qed.

Lemma shared_relro_roundtrip_witness :
  exists pr1 r pr3, CreateSharedRelro arm relro_library 0 (relro_process ∅) = Ret (0x60000000, 8192, 3) pr1 /\
    p_dev pr1 !! 3 = Some r /\
    UseSharedRelro 0x60000000 8192 3 (relro_library, relro_process {[3 := r]})
      = Ret true (set_relro_used true relro_library, pr3) /\
    prot_at (p_space pr3) 0x60001000 = Some PROT_READ.
Proof.
  destruct (shared_relro_roundtrip arm relro_library relro_library (relro_process ∅) 3
    (eager_kernel_ok 32 ltac:(lia)) plain_ashmem_ok) as (pr1 & r & E & _ & Hr & _ & Huse);
    try reflexivity.
  - exact relro_section_ok.
  - split; try reflexivity. apply demo_placeable. cbn. lia.
  - destruct (Huse (relro_process {[3 := r]}) 3) as (pr3 & E3 & _ & Hp); try reflexivity.
    + lia.
    + exact relro_section_ok.
    + apply demo_placeable. unfold PAGE_SIZE. lia.
    + apply demo_placeable. cbn. lia.
    + exists pr1, r, pr3. split; [exact E|]. split; [exact Hr|]. split; [exact E3|].
      apply Hp. cbn. lia.
Defined.
