(* ===== verification/LibraryList.v ===== *)
(** * The list of libraries

    Models [crazy_linker_library_list.cpp], [crazy_linker_library_view.cpp] and
    the function [IsSystemLibrary] of [crazy_linker_system.cpp]: the handles
    ([LibraryView]) of system libraries and of libraries loaded by the crazy
    linker, with their reference counts, the list of known libraries, the search
    of symbols, and loading and unloading with the dependencies. *)

From Stdlib Require Import Sorted.
From S2P Require Import Prelude Kernel ElfTraits LinkerPhdr ElfLoader ElfView ElfSymbols.
From S2P Require Import Relocations Util SearchPath ProcMaps Relro RDebug SharedLibrary.
Open Scope Z_scope.
Open Scope ndk_scope.

(** ** Handles *)

Inductive view_type := TYPE_NONE | TYPE_SYSTEM | TYPE_CRAZY.

#[export] Instance view_type_eq_dec : EqDecision view_type.
Proof. solve_decision. Defined.

(** [crazy_] is the address of a [SharedLibrary]. *)
Record LibraryView := mk_LibraryView {
  type_ : view_type;
  crazy_ : Z;
  system_ : Z;
  name_ : cstr;
  ref_count_ : Z;
}.

Definition new_LibraryView : LibraryView := mk_LibraryView TYPE_NONE 0 0 [] 1.

Definition IsSystem (w : LibraryView) : bool := bool_decide (type_ w = TYPE_SYSTEM).

Definition IsCrazy (w : LibraryView) : bool := bool_decide (type_ w = TYPE_CRAZY).

Definition SetSystem (system_lib : Z) (name : cstr) (w : LibraryView) : LibraryView :=
  mk_LibraryView TYPE_SYSTEM (crazy_ w) system_lib name (ref_count_ w).

Definition SetCrazy (crazy_lib : Z) (name : cstr) (w : LibraryView) : LibraryView :=
  mk_LibraryView TYPE_CRAZY crazy_lib (system_ w) name (ref_count_ w).

Definition add_ref (n : Z) (w : LibraryView) : LibraryView :=
  mk_LibraryView (type_ w) (crazy_ w) (system_ w) (name_ w) (ref_count_ w + n).

(** ** System libraries *)

Definition kSystemLibs : list cstr :=
  [str "libandroid.so"; str "libc.so"; str "libdl.so"; str "libjnigraphics.so";
   str "liblog.so"; str "libm.so"; str "libstdc++.so"; str "libz.so";
   str "libEGL.so"; str "libGLESv1_CM.so"; str "libGLESv2.so"; str "libGLESv3.so";
   str "libOpenMAXAL.so"; str "libOpenSLES.so"].

(** [IsSystemLibrary] *)
Definition IsSystemLibrary (lib_name : cstr) : bool :=
  existsb (fun name => bool_decide (name = GetBaseNamePtr lib_name)) kSystemLibs.

(** ** The state

    The objects of the heap by address, the vector [known_libraries_], the first
    library of the list of crazy libraries ([head_], 0 if it is empty), the
    search path list that loading uses, the handles closed with the system
    [dlclose], and the process. *)
Record linker := mk_linker {
  k_libs : gmap Z SharedLibrary;
  k_views : gmap Z LibraryView;
  known_libraries_ : list Z;
  head_ : Z;
  k_paths : SearchPathList;
  k_closed : list Z;
  k_proc : process;
}.

Definition set_libs (libs : gmap Z SharedLibrary) (st : linker) : linker :=
  mk_linker libs (k_views st) (known_libraries_ st) (head_ st) (k_paths st) (k_closed st) (k_proc st).

Definition set_views (views : gmap Z LibraryView) (st : linker) : linker :=
  mk_linker (k_libs st) views (known_libraries_ st) (head_ st) (k_paths st) (k_closed st) (k_proc st).

Definition set_known (known : list Z) (st : linker) : linker :=
  mk_linker (k_libs st) (k_views st) known (head_ st) (k_paths st) (k_closed st) (k_proc st).

Definition set_head (head : Z) (st : linker) : linker :=
  mk_linker (k_libs st) (k_views st) (known_libraries_ st) head (k_paths st) (k_closed st) (k_proc st).

Definition set_paths (paths : SearchPathList) (st : linker) : linker :=
  mk_linker (k_libs st) (k_views st) (known_libraries_ st) (head_ st) paths (k_closed st) (k_proc st).

Definition set_proc (pr : process) (st : linker) : linker :=
  mk_linker (k_libs st) (k_views st) (known_libraries_ st) (head_ st) (k_paths st) (k_closed st) pr.

Definition k_space (st : linker) : aspace := p_space (k_proc st).

Definition modify (f : linker -> linker) : M linker unit := fun st => Ret tt (f st).

(** The heap of objects: the address of a new [SharedLibrary] or
    [LibraryView], and the addresses of the members [link_map_] and
    [full_path_] of a library. *)
Class Objects := {
  new_lib : linker -> Z;
  new_view : linker -> Z;
  link_map_of : Z -> Z;
  path_of : Z -> Z;
}.

(** New objects are not at the address of an object, nor at [NULL]. *)
Class ObjectsOk (O : Objects) : Prop := {
  new_lib_fresh st : new_lib st <> 0 /\ k_libs st !! new_lib st = None;
  new_view_fresh st : new_view st <> 0 /\ k_views st !! new_view st = None;
}.

Section Lookups.
Context (a : arch) `{SL : SystemLinker}.

(** ** Searching libraries *)

(** The first known library whose handle has the name [base_name]. *)
Definition known_named (base_name : cstr) (st : linker) : option Z :=
  List.find (fun v => match k_views st !! v with
                      | Some w => bool_decide (base_name = name_ w)
                      | None => false
                      end) (known_libraries_ st).

(** [LibraryList::FindLibraryByName] *)
Definition FindLibraryByName (base_name : cstr) (st : linker) : option Z :=
  if bool_decide (memchr slash base_name = None) then known_named base_name st else None.

(** [LibraryList::FindKnownLibrary] *)
Definition FindKnownLibrary (name : cstr) (st : linker) : option Z :=
  known_named (GetBaseNamePtr name) st.

(** [LibraryList::FindLibraryForAddress] *)
Definition FindLibraryForAddress (address : Z) (st : linker) : option Z :=
  List.find (fun v =>
    match k_views st !! v with
    | Some w =>
        IsCrazy w && match k_libs st !! crazy_ w with
                     | Some lib => ContainsAddress a address lib
                     | None => false
                     end
    | None => false
    end) (known_libraries_ st).

(** The loops over the list of crazy libraries from [p]: the first one that
    satisfies [f].  [None] is the access to an object that does not exist. *)
Fixpoint find_crazy (fuel : nat) (f : SharedLibrary -> bool) (p : Z) (st : linker)
    : option (option SharedLibrary) :=
  match fuel with
  | O => None
  | S fuel =>
      if p =? 0 then Some None else
      match k_libs st !! p with
      | None => None
      | Some lib => if f lib then Some (Some lib) else find_crazy fuel f (list_next_ lib) st
      end
  end.

(** [LibraryList::FindArmExIdx]: the table and the number of its entries, an
    [int]. *)
Definition FindArmExIdx (pc : Z) (st : linker) : option (Z * Z) :=
  match find_crazy (S (size (k_libs st))) (ContainsAddress a pc) (head_ st) st with
  | None => None
  | Some (Some lib) => Some (arm_exidx_ lib, swrap 32 (arm_exidx_count_ lib))
  | Some None => Some (0, 0)
  end.

(** The structure [dl_phdr_info] that the callback receives. *)
Record dl_phdr_info := mk_dl_phdr_info {
  dlpi_addr : Z;
  dlpi_name : Z;
  dlpi_phdr : Z;
  dlpi_phnum : Z;
}.

(** The loop of [LibraryList::IteratePhdr] from the library at [p]; the callback
    acts on the data it is given. *)
Fixpoint iterate_phdr `{OB : Objects} {D} (fuel : nat) (callback : dl_phdr_info -> D -> Z * D)
    (p : Z) (data : D) (st : linker) : option (Z * D) :=
  match fuel with
  | O => None
  | S fuel =>
      if p =? 0 then Some (0, data) else
      match k_libs st !! p,
            load_le (sizeof_Addr a) (k_space st) (link_map_of p),
            load_le (sizeof_Addr a) (k_space st) (link_map_of p + Z.of_nat (sizeof_Addr a)) with
      | Some lib, Some l_addr, Some l_name =>
          let info := mk_dl_phdr_info l_addr l_name (phdr_ (view_ lib)) (wrap 16 (phdr_count_ (view_ lib))) in
          let '(result, data) := callback info data in
          if negb (result =? 0) then Some (result, data)
          else iterate_phdr fuel callback (list_next_ lib) data st
      | _, _, _ => None
      end
  end.

(** [LibraryList::IteratePhdr] *)
Definition IteratePhdr `{OB : Objects} {D} (callback : dl_phdr_info -> D -> Z * D) (data : D) (st : linker)
    : option (Z * D) :=
  iterate_phdr (S (size (k_libs st))) callback (head_ st) data st.

(** ** Searching symbols *)

(** The names of the dependencies, in the order of the [DT_NEEDED] entries
    ([DependencyIterator]): [n] entries of the dynamic table from [p]. *)
Fixpoint needed_names (s : aspace) (symbols : ElfSymbols) (n : nat) (p : Z) : option (list cstr) :=
  match n with
  | O => Some []
  | S n =>
      match read_Dyn a (load_byte s) p with
      | None => None
      | Some d =>
          match needed_names s symbols n (p + sizeof_Dyn a) with
          | None => None
          | Some names =>
              if d_tag d =? DT_NEEDED then
                match read_cstr s (GetStringById a symbols (d_val d)) with
                | Some name => Some (name :: names)
                | None => None
                end
              else Some names
          end
      end
  end.

Definition dependency_names (s : aspace) (lib : SharedLibrary) : option (list cstr) :=
  needed_names s (symbols_ lib) (Z.to_nat (dynamic_count_ (view_ lib))) (dynamic_ (view_ lib)).

(** The loop that adds the dependencies to the work queue. *)
Definition push_dependencies (names : list cstr) (st : linker) (work_queue visited_set : list Z)
    : list Z * list Z :=
  fold_left (fun '(work_queue, visited_set) name =>
    match FindKnownLibrary name st with
    | Some dependency =>
        if bool_decide (dependency ∈ visited_set) then (work_queue, visited_set)
        else (work_queue ++ [dependency], visited_set ++ [dependency])
    | None => (work_queue, visited_set)
    end) names (work_queue, visited_set).

(** What a library of the work queue says of a symbol: a definition that ends
    the search, a weak one, or none ([SymbolLookupState::CheckSymbol] for crazy
    libraries, [dlsym] for system ones). *)
Inductive symbol_check := Strong (address : Z) | Weak (address : Z) | Undefined.

Definition check_symbol (symbol : cstr) (v : Z) (st : linker) : option symbol_check :=
  match k_views st !! v with
  | None => None
  | Some w =>
      match type_ w with
      | TYPE_CRAZY =>
          match k_libs st !! crazy_ w with
          | None => None
          | Some lib =>
              match LookupSymbolEntry a lib (k_space st) symbol with
              | None => None
              | Some None => Some Undefined
              | Some (Some entry) =>
                  let address := addr a (load_bias lib + st_value entry) in
                  if ELF_ST_BIND (st_info entry) =? STB_GLOBAL
                  then Some (Strong address) else Some (Weak address)
              end
          end
      | TYPE_SYSTEM =>
          let address := sys_dlsym (system_ w) symbol in
          Some (if negb (address =? 0) then Strong address else Undefined)
      | TYPE_NONE => Some Undefined
      end
  end.

(** The names that the library adds to the search. *)
Definition view_names (v : Z) (st : linker) : option (list cstr) :=
  match k_views st !! v with
  | None => None
  | Some w =>
      if IsCrazy w then
        match k_libs st !! crazy_ w with
        | None => None
        | Some lib => dependency_names (k_space st) lib
        end
      else Some []
  end.

(** The loop of [LibraryList::FindSymbolFrom]; [weak_addr] is the first weak
    definition found. *)
Fixpoint find_symbol (fuel : nat) (symbol : cstr) (work_queue visited_set : list Z)
    (weak_addr : option Z) (st : linker) : option Z :=
  match fuel with
  | O => None
  | S fuel =>
      match work_queue with
      | [] => Some (default 0 weak_addr)
      | lib :: work_queue =>
          match check_symbol symbol lib st with
          | None => None
          | Some (Strong address) => Some address
          | Some r =>
              let weak_addr := match weak_addr, r with
                               | None, Weak address => Some address
                               | _, _ => weak_addr
                               end in
              match view_names lib st with
              | None => None
              | Some names =>
                  let '(work_queue, visited_set) := push_dependencies names st work_queue visited_set in
                  find_symbol fuel symbol work_queue visited_set weak_addr st
              end
          end
      end
  end.

(** [LibraryList::FindSymbolFrom]; 0 for [NULL]. *)
Definition FindSymbolFrom (symbol : cstr) (from : Z) (st : linker) : option Z :=
  if from =? 0 then Some 0
  else find_symbol (length (known_libraries_ st) + 2) symbol [from] [] None st.

(** [LibraryView::LookupSymbol] *)
Definition LookupSymbol (symbol : cstr) (v : Z) (st : linker) : option Z :=
  match k_views st !! v with
  | None => None
  | Some w =>
      match type_ w with
      | TYPE_SYSTEM => Some (sys_dlsym (system_ w) symbol)
      | TYPE_CRAZY => FindSymbolFrom symbol v st
      | TYPE_NONE => Some 0
      end
  end.

End Lookups.

Section Operations.
Context (a : arch) `{K : Kernel} `{FS : FileSystem} `{A : Ashmem} `{PF : ProcFs} (raw : cstr).
Context `{C : Code} `{SL : SystemLinker} `{OB : Objects}.

Local Notation W := (Z.of_nat (sizeof_Addr a)).

(** ** Running the operations of other components *)

(** An operation on the library at the address [p]. *)
Definition on_lib {B} (p : Z) (c : M lib_state B) : M linker B := fun st =>
  let back l pr := set_proc pr (set_libs (<[p := l]> (k_libs st)) st) in
  match k_libs st !! p with
  | None => Crash
  | Some l =>
      match c (l, k_proc st) with
      | Ret x (l, pr) => Ret x (back l pr)
      | Fail e (l, pr) => Fail e (back l pr)
      | Crash => Crash
      end
  end.

(** An operation of [RDebug]. *)
Definition on_rdebug {B} (c : M rstate B) : M linker B := fun st =>
  let back rs := set_proc (mk_process rs (p_dev (k_proc st)) (p_calls (k_proc st))) st in
  match c (p_rs (k_proc st)) with
  | Ret x rs => Ret x (back rs)
  | Fail e rs => Fail e (back rs)
  | Crash => Crash
  end.

(** A call into the code of the library at [p]. *)
Definition call_lib (f : SharedLibrary -> process -> option process) (p : Z) : M linker unit := fun st =>
  match k_libs st !! p with
  | None => Crash
  | Some l => match f l (k_proc st) with
              | Some pr => Ret tt (set_proc pr st)
              | None => Crash
              end
  end.

(** A write to a link of the library at [p]. *)
Definition set_link (f : SharedLibrary -> SharedLibrary) (p : Z) : M linker unit := fun st =>
  match k_libs st !! p with
  | None => Crash
  | Some l => Ret tt (set_libs (<[p := f l]> (k_libs st)) st)
  end.

Definition set_next (next : Z) (l : SharedLibrary) : SharedLibrary := set_links next (list_prev_ l) l.

Definition set_prev (prev : Z) (l : SharedLibrary) : SharedLibrary := set_links (list_next_ l) prev l.

(** [delete lib] *)
Definition delete_lib (p : Z) (st : linker) : linker :=
  match k_libs st !! p with
  | None => st
  | Some l => set_proc (delete_SharedLibrary l (k_proc st)) (set_libs (delete p (k_libs st)) st)
  end.

(** A [ScopedPtr] that owns the library at [p] deletes it on an early return. *)
Definition scoped {B} (p : Z) (c : M linker B) : M linker B := fun st =>
  match c st with
  | Fail e st => Fail e (delete_lib p st)
  | r => r
  end.

(** ** Handles *)

(** The destructor of [LibraryView], and the release of the object. *)
Definition delete_LibraryView (v : Z) : M linker unit := fun st =>
  match k_views st !! v with
  | None => Crash
  | Some w =>
      let st := set_views (delete v (k_views st)) st in
      match type_ w with
      | TYPE_SYSTEM =>
          Ret tt (mk_linker (k_libs st) (k_views st) (known_libraries_ st) (head_ st) (k_paths st)
                    (k_closed st ++ [system_ w]) (k_proc st))
      | TYPE_CRAZY => Ret tt (delete_lib (crazy_ w) st)
      | TYPE_NONE => Ret tt st
      end
  end.

(** [LibraryView::AddRef] *)
Definition AddRef (v : Z) : M linker unit := fun st =>
  match k_views st !! v with
  | None => Crash
  | Some w => Ret tt (set_views (<[v := add_ref 1 w]> (k_views st)) st)
  end.

(** [LibraryView::SafeDecrementRef] *)
Definition SafeDecrementRef (v : Z) : M linker bool := fun st =>
  match k_views st !! v with
  | None => Crash
  | Some w => Ret (ref_count_ w - 1 =? 0) (set_views (<[v := add_ref (-1) w]> (k_views st)) st)
  end.

(** [LibraryView::GetInfo] *)
Definition GetInfo (v : Z) : M linker (Z * Z * Z * Z) := fun st =>
  match k_views st !! v with
  | None => Crash
  | Some w =>
      if negb (IsCrazy w) then Fail (Msg "No RELRO sharing with system libraries" []) st else
      match k_libs st !! crazy_ w with
      | None => Crash
      | Some l => Ret (load_address l, load_size l, relro_start_ l, relro_size_ l) st
      end
  end.

(** [LibraryList::AddLibrary] *)
Definition AddLibrary (v : Z) : M linker unit := modify (fun st => set_known (known_libraries_ st ++ [v]) st).

(** [new LibraryView], set up by [f]. *)
Definition make_view (f : LibraryView -> LibraryView) : M linker Z := fun st =>
  let v := new_view st in
  Ret v (set_views (<[v := f new_LibraryView]> (k_views st)) st).

(** ** Unloading *)

(** The removal from the list of crazy libraries. *)
Definition unlink_lib (p : Z) : M linker unit :=
  let* lib := lread (fun st => k_libs st !! p) in
  do* (if negb (list_next_ lib =? 0) then set_link (set_prev (list_prev_ lib)) (list_next_ lib)
       else lret tt) in
  let* lib := lread (fun st => k_libs st !! p) in
  do* (if negb (list_prev_ lib =? 0) then set_link (set_next (list_next_ lib)) (list_prev_ lib)
       else lret tt) in
  let* lib := lread (fun st => k_libs st !! p) in
  modify (fun st => if p =? head_ st then set_head (list_next_ lib) st else st).

(** A loop over the dependencies of the library at [p] ([DependencyIterator]);
    its names are read when the loop comes to them. *)
Definition for_dependencies {St} (lk : St -> linker) (p : Z) (body : cstr -> M St unit) : M St unit := fun x =>
  match k_libs (lk x) !! p with
  | None => Crash
  | Some lib =>
      for_dynamic a (fun x => load_byte (k_space (lk x)))
        (Z.to_nat (dynamic_count_ (view_ lib))) (dynamic_ (view_ lib))
        (fun _ d =>
           if d_tag d =? DT_NEEDED then
             let* name := lread (fun x => read_cstr (k_space (lk x))
                                            (GetStringById a (symbols_ lib) (d_val d))) in
             body name
           else lret tt) x
  end.

(** [LibraryList::UnloadLibrary]; [unload] is the recursive call. *)
Definition unload_with (unload : Z -> M linker unit) (v : Z) : M linker unit :=
  let* w := lread (fun st => k_views st !! v) in
  if negb (IsSystem w) && negb (IsCrazy w) then lret tt else
  let* last := SafeDecrementRef v in
  if negb last then lret tt else
  do* (if IsCrazy w then
         let lib := crazy_ w in
         do* unlink_lib lib in
         do* call_lib (CallJniOnUnload a) lib in
         do* call_lib (CallDestructors a) lib in
         do* for_dependencies id lib (fun name st =>
               match FindKnownLibrary name st with
               | Some dependency => unload dependency st
               | None => Ret tt st
               end) in
         on_rdebug (DelEntry a raw (link_map_of lib))
       else lret tt) in
  do* modify (fun st => set_known (remove_first v (known_libraries_ st)) st) in
  delete_LibraryView v.

(** Running out of fuel is the failure. *)
Fixpoint UnloadLibrary (fuel : nat) (v : Z) : M linker unit :=
  match fuel with
  | O => lfail (Msg "out of fuel" [])
  | S fuel => unload_with (UnloadLibrary fuel) v
  end.

(** ** Loading *)

(** The buffer that the loop of [GetCurrentDirectory] ends with: [getcwd] wants
    room for the path and a NUL, and the rest of the string is filled with NULs. *)
Fixpoint getcwd_from (fuel capacity : nat) : cstr :=
  match fuel with
  | O => []
  | S fuel =>
      if (length fs_cwd <? capacity)%nat
      then fs_cwd ++ repeat Str.nul (capacity - length fs_cwd)
      else getcwd_from fuel (capacity * 2)
  end.

(** [GetCurrentDirectory], the [size()] characters of the string. *)
Definition GetCurrentDirectory : cstr := getcwd_from (S (length fs_cwd)) 128.

(** The part of [LibraryList::LoadLibrary] that finds the path of the file. *)
Definition find_full_path (lib_name : cstr) : M linker cstr := fun st =>
  if bool_decide (memchr slash lib_name = None) then
    let '(path, paths) := FindFile lib_name (k_paths st) in
    let st := set_paths paths st in
    match path with
    | Some path => Ret path st
    | None => Fail (Msg "Can't find library file %s" [AS lib_name]) st
    end
  else
    let full_path :=
      Str.until_nul (if bool_decide (head lib_name = Some slash) then lib_name
                     else terminate slash GetCurrentDirectory ++ lib_name) in
    if fs_is_file full_path then Ret full_path st
    else Fail (Msg "Library file doesn't exist: %s" [AS full_path]) st.

(** The part of [LibraryList::LoadLibrary] for a library that is known. *)
Definition reuse_library (v load_addr : Z) : M linker Z :=
  let* w := lread (fun st => k_views st !! v) in
  do* (if load_addr =? 0 then lret tt
       else if negb (IsCrazy w)
       then lfail (Msg "System library can't be loaded at fixed address %08x" [AZ load_addr])
       else
         let* lib := lread (fun st => k_libs st !! crazy_ w) in
         if negb (load_address lib =? load_addr)
         then lfail (Msg "Library already loaded at @%08x, can't load it at @%08x"
                       [AZ (load_address lib); AZ load_addr])
         else lret tt) in
  do* AddRef v in
  lret v.

(** The part of [LibraryList::LoadLibrary] for a system library. *)
Definition load_system (lib_name : cstr) (dlopen_mode : Z) : M linker Z :=
  match sys_dlopen lib_name dlopen_mode with
  | None => lfail (Msg "Can't load system library %s: %s" [AS lib_name])
  | Some system_lib =>
      let* v := make_view (SetSystem system_lib lib_name) in
      do* AddLibrary v in
      lret v
  end.

(** The handle as the resolver sees it. *)
Definition view_dependency (st : linker) (v : Z) : dependency :=
  match k_views st !! v with
  | Some w =>
      match type_ w with
      | TYPE_SYSTEM => SystemLib (system_ w) (name_ w)
      | TYPE_CRAZY => match k_libs st !! crazy_ w with Some l => CrazyLib l | None => NoLib end
      | TYPE_NONE => NoLib
      end
  | None => NoLib
  end.

(** [error->Format("When loading %s: %s", base_name, dep_error.c_str())] *)
Definition when_loading (base_name : cstr) (e : Error) : Error :=
  match e with
  | Msg fmt args => Msg (String.append "When loading %s: " fmt) (AS base_name :: args)
  end.

(** The entry of the library in the list of the debugger. *)
Definition fill_link_map (p : Z) : M linker unit :=
  let* lib := lread (fun st => k_libs st !! p) in
  on_rdebug (
    do* store_word a (link_map_of p) (load_address lib) in
    do* store_word a (link_map_of p + W)
          (path_of p + (Z.of_nat (length (full_path_ lib)) - Z.of_nat (length (base_name lib)))) in
    do* store_word a (link_map_of p + 2 * W) (dynamic_ (view_ lib)) in
    AddEntry a raw (link_map_of p)).

(** The addition to the list of crazy libraries. *)
Definition link_lib (p : Z) : M linker unit :=
  let* st := lget in
  do* set_link (set_links (head_ st) 0) p in
  do* (if negb (head_ st =? 0) then set_link (set_prev p) (head_ st) else lret tt) in
  modify (set_head p).

(** The part of [LibraryList::LoadLibrary] after the dependencies are loaded. *)
Definition finish_load (lib_name : cstr) (p : Z) (dependencies : list Z) : M linker Z :=
  let* st := lget in
  do* on_lib p (Relocate a (map (view_dependency st) dependencies)) in
  do* fill_link_map p in
  do* link_lib p in
  let* v := make_view (SetCrazy p lib_name) in
  do* AddLibrary v in
  do* call_lib (CallConstructors a) p in
  lret v.

(** [new SharedLibrary] *)
Definition make_lib : M linker Z := fun st =>
  let p := new_lib st in
  Ret p (set_libs (<[p := new_SharedLibrary]> (k_libs st)) st).

(** The loop of [LibraryList::LoadLibrary] over the dependencies of the library
    at [p]; [load] is the recursive call. *)
Definition load_dependencies (base_name : cstr) (load : cstr -> M linker Z) (p : Z) : M linker (list Z) := fun st =>
  match for_dependencies fst p (fun name '(st, dependencies) =>
          match load name st with
          | Ret v st => Ret tt (st, dependencies ++ [v])
          | Fail e st => Fail (when_loading base_name e) (st, dependencies)
          | Crash => Crash
          end) (st, []) with
  | Ret _ (st, dependencies) => Ret dependencies st
  | Fail e (st, _) => Fail e st
  | Crash => Crash
  end.

(** [LibraryList::LoadLibrary]; the fuel is the depth of the recursion, which
    exhausts the stack when the dependencies are circular. *)
Fixpoint LoadLibrary (fuel : nat) (lib_name : cstr) (dlopen_mode load_addr file_offset : Z) : M linker Z :=
  match fuel with
  | O => lcrash
  | S fuel =>
      let* st := lget in
      match FindKnownLibrary lib_name st with
      | Some v => reuse_library v load_addr
      | None =>
          if IsSystemLibrary lib_name then load_system lib_name dlopen_mode else
          let* p := make_lib in
          scoped p (
            let* full_path := find_full_path lib_name in
            do* on_lib p (Load a full_path load_addr file_offset) in
            let* dependencies :=
              load_dependencies (GetBaseNamePtr lib_name)
                (fun name => LoadLibrary fuel name dlopen_mode 0 0) p in
            finish_load lib_name p dependencies)
      end
  end.

(** The destructor of [LibraryList]: the known libraries from the last one. *)
Fixpoint delete_views (vs : list Z) : M linker unit :=
  match vs with
  | [] => lret tt
  | v :: vs => do* delete_LibraryView v in delete_views vs
  end.

Definition delete_LibraryList : M linker unit :=
  do* modify (set_head 0) in
  let* st := lget in
  do* modify (set_known []) in
  delete_views (rev (known_libraries_ st)).

End Operations.

(** ** Lemmas on names *)

Lemma strrchr_none c l : strrchr l c = None -> c ∉ l.
Proof.
  induction l as [|d l IH]; cbn; [by intros _ ?%not_elem_of_nil|].
  destruct (strrchr l c); [done|]. case_bool_decide; [done|]. set_solver.
Qed.

Lemma strrchr_after c l n : strrchr l c = Some n -> c ∉ drop (S n) l.
Proof.
  revert n. induction l as [|d l IH]; intros n; cbn; [done|].
  destruct (strrchr l c) as [k|] eqn:E; [intros [= <-]; by apply IH|].
  case_bool_decide; [|done]. intros [= <-]. by apply strrchr_none.
Qed.

(** A base name has no slash. *)
Lemma base_name_no_slash path : slash ∉ GetBaseNamePtr path.
Proof.
  unfold GetBaseNamePtr. destruct (strrchr path slash) eqn:E; [by apply strrchr_after|by apply strrchr_none].
Qed.

Lemma known_named_spec base st v :
  known_named base st = Some v ->
  v ∈ known_libraries_ st /\ exists w, k_views st !! v = Some w /\ name_ w = base.
Proof.
  intros [Hin Hv]%find_some. apply list_elem_of_In in Hin. split; [done|].
  destruct (k_views st !! v) as [w|]; [|done]. apply bool_decide_eq_true in Hv. eauto.
Qed.

Lemma getcwd_padded `{FileSystem} fuel capacity :
  (0 < capacity)%nat -> (length fs_cwd + 1 < fuel + capacity)%nat -> (0 < fuel)%nat ->
  exists k, getcwd_from fuel capacity = fs_cwd ++ repeat Str.nul (S k).
Proof.
  revert capacity. induction fuel as [|fuel IH]; intros capacity H1 H2 H3; [lia|]. cbn [getcwd_from].
  destruct (Nat.ltb_spec (length fs_cwd) capacity).
  - exists (capacity - length fs_cwd - 1)%nat. do 2 f_equal. lia.
  - apply IH; lia.
Qed.

Lemma until_nul_app l r : Str.nul ∉ l -> Str.until_nul (l ++ Str.nul :: r) = l.
Proof.
  induction l as [|c l IH]; intros Hn; cbn.
  - by rewrite bool_decide_eq_true_2.
  - rewrite bool_decide_eq_false_2 by set_solver. f_equal. apply IH. set_solver.
Qed.

Lemma repeat_snoc {T} (x : T) k : repeat x k ++ [x] = repeat x (S k).
Proof. induction k as [|k IH]; [done|]. cbn in *. by rewrite IH. Qed.

(** The path made of a relative one is the current directory. *)
Lemma relative_full_path `{FileSystem} lib_name :
  Str.nul ∉ fs_cwd -> Str.until_nul (terminate slash GetCurrentDirectory ++ lib_name) = fs_cwd.
Proof.
  intros Hn. unfold GetCurrentDirectory.
  destruct (getcwd_padded (S (length fs_cwd)) 128) as [k ->]; [lia|lia|lia|].
  unfold terminate. rewrite <-repeat_snoc, app_assoc, last_snoc.
  destruct (bool_decide (Str.nul = slash)) eqn:E; [by apply bool_decide_eq_true in E|].
  rewrite <-(app_assoc fs_cwd), repeat_snoc, <-!app_assoc. cbn [repeat app]. by apply until_nul_app.
Qed.

(** ** The breadth-first search *)

Section Search.
Context (a : arch) `{SL : SystemLinker} (st : linker) (symbol : cstr) (from : Z).

(** [v] is a known library with the name of a dependency of [u]. *)
Definition depends (u v : Z) : Prop :=
  exists names name, view_names a u st = Some names /\ name ∈ names /\ FindKnownLibrary name st = Some v.

(** [v] is reached from [from] in [n] steps. *)
Inductive reach : nat -> Z -> Prop :=
| reach_from : reach 0 from
| reach_step n u v : reach n u -> depends u v -> reach (S n) v.

(** The libraries that the search comes to can be read. *)
Definition search_readable : Prop :=
  forall n v, reach n v -> is_Some (check_symbol a symbol v st) /\ is_Some (view_names a v st).

Lemma push_spec names queue visited :
  NoDup visited -> exists us,
    push_dependencies names st queue visited = (queue ++ us, visited ++ us) /\ NoDup (visited ++ us) /\
    (forall u, u ∈ us -> exists name, name ∈ names /\ FindKnownLibrary name st = Some u) /\
    (forall name u, name ∈ names -> FindKnownLibrary name st = Some u -> u ∈ visited ++ us).
Proof.
  unfold push_dependencies. revert queue visited.
  induction names as [|name names IH]; intros queue visited Hn; cbn [fold_left].
  { exists []. rewrite !app_nil_r. set_solver. }
  destruct (FindKnownLibrary name st) as [d|] eqn:Ed.
  - case_bool_decide as Hd.
    + destruct (IH queue visited Hn) as (us & E & H1 & H2 & H3). exists us. rewrite E.
      split; [done|]. split; [done|]. split; [set_solver|].
      intros m u [->|Hm]%elem_of_cons Hu; [simplify_eq; set_solver|eauto].
    + destruct (IH (queue ++ [d]) (visited ++ [d])) as (us & E & H1 & H2 & H3).
      { apply list.NoDup_app. split; [done|]. split; [set_solver|apply NoDup_singleton]. }
      rewrite <-!app_assoc in *. exists (d :: us). rewrite E. split; [done|]. split; [done|].
      split; [intros u [->|Hu]%elem_of_cons; set_solver|].
      intros m u [->|Hm]%elem_of_cons Hu; [simplify_eq; set_solver|eauto].
  - destruct (IH queue visited Hn) as (us & E & H1 & H2 & H3). exists us. rewrite E.
    split; [done|]. split; [done|]. split; [set_solver|].
    intros m u [->|Hm]%elem_of_cons Hu; [congruence|eauto].
Qed.

(** The libraries done and those of the queue, with their distances. *)
Record searching (dn queue : list (Z * nat)) (visited : list Z) : Prop := {
  s_all : (dn ++ queue).*1 = from :: visited;
  s_first : (from, 0%nat) ∈ dn ++ queue;
  s_reach v d : (v, d) ∈ dn ++ queue -> reach d v;
  s_sorted : StronglySorted le queue.*2;
  s_window v d : head queue = Some (v, d) -> forall u e, (u, e) ∈ dn ++ queue -> (e <= S d)%nat;
  s_closed p d u : (p, d) ∈ dn -> depends p u -> exists e, (u, e) ∈ dn ++ queue /\ (e <= S d)%nat;
  s_nodup : NoDup visited;
  s_known : forall v, v ∈ visited -> v ∈ known_libraries_ st;
}.

(** A library is done, or one at most as far is in the queue. *)
Lemma searching_frontier dn queue visited n u :
  searching dn queue visited -> reach n u ->
  (exists e, (u, e) ∈ dn /\ (e <= n)%nat) \/ (exists q e, (q, e) ∈ queue /\ (e <= n)%nat).
Proof.
  intros Hs Hr. induction Hr as [|n u v Hr IH Hd].
  - pose proof (s_first _ _ _ Hs) as [H|H]%elem_of_app; [left|right]; eauto.
  - destruct IH as [(e & He & Hle)|(q & e & He & Hle)]; [|right; exists q, e; split; [done|lia]].
    destruct (s_closed _ _ _ Hs _ _ _ He Hd) as (e' & [H|H]%elem_of_app & Hle'); [left|right].
    + exists e'. split; [done|lia].
    + exists v, e'. split; [done|lia].
Qed.

Lemma sorted_app_const (l : list nat) k n :
  StronglySorted le l -> (forall x, x ∈ l -> (x <= k)%nat) -> StronglySorted le (l ++ repeat k n).
Proof.
  induction 1 as [|x l Hs IH Hx]; intros Hk; cbn.
  - induction n as [|n IH]; cbn; constructor; [done|]. apply list.Forall_forall.
    intros y ->%list_elem_of_In%repeat_spec. done.
  - constructor; [apply IH; set_solver|]. apply list.Forall_forall. intros y [Hy|Hy]%elem_of_app.
    + by eapply (proj1 (list.Forall_forall _ _) Hx).
    + apply list_elem_of_In, repeat_spec in Hy as ->. apply Hk. set_solver.
Qed.

Lemma sorted_head (v : Z) d (queue : list (Z * nat)) (us : list Z) w k :
  StronglySorted le ((v, d) :: queue).*2 -> head (queue ++ map (., S d) us) = Some (w, k) -> (d <= k)%nat.
Proof.
  intros Hso Hw. destruct queue as [|[w' k'] queue]; [destruct us; [done|]; cbn in Hw; simplify_eq; lia|].
  cbn in Hw, Hso. simplify_eq. inversion_clear Hso as [|? ? _ Hd]. by inversion Hd.
Qed.

Lemma searching_step dn v d queue visited names :
  searching dn ((v, d) :: queue) visited -> view_names a v st = Some names ->
  exists us, push_dependencies names st queue.*1 visited = ((queue ++ map (., S d) us).*1, visited ++ us) /\
    searching (dn ++ [(v, d)]) (queue ++ map (., S d) us) (visited ++ us).
Proof.
  intros Hs Hv. destruct (push_spec names queue.*1 visited (s_nodup _ _ _ Hs)) as (us & E & Hnd & Hus & Hall).
  assert (Hf : forall l : list Z, (map (., S d) l).*1 = l) by (induction l; cbn; congruence).
  assert (Hr : forall l : list Z, (map (., S d) l).*2 = repeat (S d) (length l)) by (induction l; cbn; congruence).
  assert (Hq : (dn ++ [(v, d)]) ++ queue ++ map (., S d) us = (dn ++ (v, d) :: queue) ++ map (., S d) us)
    by (by rewrite <-!app_assoc).
  assert (Hin : forall u e, (u, e) ∈ map (., S d) us -> u ∈ us /\ e = S d).
  { intros u e H. apply list_elem_of_fmap in H as (x & [= -> ->] & Hx). done. }
  exists us. split; [by rewrite fmap_app, Hf|]. split; rewrite ?Hq.
  - by rewrite fmap_app, (s_all _ _ _ Hs), Hf.
  - apply elem_of_app. left. apply (s_first _ _ _ Hs).
  - intros u e [H|[H ->]%Hin]%elem_of_app; [by apply (s_reach _ _ _ Hs)|].
    destruct (Hus u H) as (name & Hn & Hk). eapply reach_step; [|by exists names, name].
    apply (s_reach _ _ _ Hs). set_solver.
  - rewrite fmap_app, Hr.
    pose proof (s_sorted _ _ _ Hs) as Hso. cbn in Hso. inversion_clear Hso as [|? ? Hso' _].
    apply sorted_app_const; [done|]. intros e He. apply list_elem_of_fmap in He as ([u x] & -> & Hx).
    eapply (s_window _ _ _ Hs v d); [done|]. apply elem_of_app. right. by apply elem_of_cons; right.
  - intros w k Hw u e He.
    pose proof (sorted_head v d queue us w k (s_sorted _ _ _ Hs) Hw) as Hk.
    apply elem_of_app in He as [He|[_ ->]%Hin]; [|lia].
    pose proof (s_window _ _ _ Hs v d eq_refl u e He). lia.
  - intros x e u [Hx|Hx]%elem_of_app Hd.
    + destruct (s_closed _ _ _ Hs x e u Hx Hd) as (k & Hk & Hle). exists k. split; [|done].
      apply elem_of_app. by left.
    + apply list_elem_of_singleton in Hx. simplify_eq. destruct Hd as (names' & name & E' & Hn & Hk).
      simplify_eq. pose proof (Hall name u Hn Hk) as [Hu|Hu]%elem_of_app.
      * assert (Hu' : u ∈ (dn ++ (v, d) :: queue).*1) by (rewrite (s_all _ _ _ Hs); set_solver).
        apply list_elem_of_fmap in Hu' as ([u' k] & -> & Hk'). exists k. split; [set_solver|].
        by apply (s_window _ _ _ Hs v d eq_refl u' k).
      * exists (S d). split; [|done]. apply elem_of_app. right. apply list_elem_of_fmap. by exists u.
  - done.
  - intros u [Hu|Hu]%elem_of_app; [by apply (s_known _ _ _ Hs)|].
    destruct (Hus u Hu) as (name & _ & Hk). by apply known_named_spec in Hk as [? _].
Qed.

(** What the search has found among the libraries done. *)
Record collected (dn queue : list (Z * nat)) (weak_addr : option Z) : Prop := {
  c_strong v d x : (v, d) ∈ dn -> check_symbol a symbol v st <> Some (Strong x);
  c_none v d x : weak_addr = None -> (v, d) ∈ dn -> check_symbol a symbol v st <> Some (Weak x);
  c_weak x : weak_addr = Some x -> exists v n, reach n v /\ check_symbol a symbol v st = Some (Weak x) /\
    (forall u m y, (u, m) ∈ dn -> check_symbol a symbol u st = Some (Weak y) -> (n <= m)%nat) /\
    (forall u m, (u, m) ∈ queue -> (n <= m)%nat);
}.

(** The definition that the search must return: a strong one at the least
    distance, or else a weak one at the least distance, or else none. *)
Definition nearest_definition (r : Z) : Prop :=
  (exists n v, reach n v /\ check_symbol a symbol v st = Some (Strong r) /\
     forall m u x, reach m u -> check_symbol a symbol u st = Some (Strong x) -> (n <= m)%nat) \/
  ((forall m u x, reach m u -> check_symbol a symbol u st <> Some (Strong x)) /\
   ((exists n v, reach n v /\ check_symbol a symbol v st = Some (Weak r) /\
       forall m u x, reach m u -> check_symbol a symbol u st = Some (Weak x) -> (n <= m)%nat) \/
    (r = 0 /\ forall m u x, reach m u -> check_symbol a symbol u st <> Some (Weak x)))).

Lemma nearest_end dn visited weak_addr :
  searching dn [] visited -> collected dn [] weak_addr -> nearest_definition (default 0 weak_addr).
Proof.
  intros Hs Hc. right.
  assert (Hd : forall m u, reach m u -> exists e, (u, e) ∈ dn /\ (e <= m)%nat).
  { intros m u Hr. destruct (searching_frontier _ _ _ _ _ Hs Hr) as [H|(q & e & []%not_elem_of_nil & _)]. done. }
  split; [intros m u x Hr; destruct (Hd m u Hr) as (e & He & _); by eapply c_strong|].
  destruct weak_addr as [x|]; cbn; [left|right].
  - destruct (c_weak _ _ _ Hc x eq_refl) as (v & n & Hr & Hv & Hmin & _). exists n, v.
    split; [done|]. split; [done|]. intros m u y Hm Hu. destruct (Hd m u Hm) as (e & He & Hle).
    specialize (Hmin u e y He Hu). lia.
  - split; [done|]. intros m u y Hm. destruct (Hd m u Hm) as (e & He & _). by eapply c_none.
Qed.

Lemma queue_minimum dn v d queue visited u e :
  searching dn ((v, d) :: queue) visited -> (u, e) ∈ (v, d) :: queue -> (d <= e)%nat.
Proof.
  intros Hs He. pose proof (s_sorted _ _ _ Hs) as Hso. cbn in Hso. inversion_clear Hso as [|? ? _ Hall].
  apply elem_of_cons in He as [?|He]; [simplify_eq; lia|].
  apply (list_elem_of_fmap_2 snd) in He. rewrite list.Forall_forall in Hall. apply (Hall _ He).
Qed.

Lemma nearest_strong dn v d queue visited weak_addr r :
  searching dn ((v, d) :: queue) visited -> collected dn ((v, d) :: queue) weak_addr ->
  check_symbol a symbol v st = Some (Strong r) -> nearest_definition r.
Proof.
  intros Hs Hc Hv. left. exists d, v. split; [apply (s_reach _ _ _ Hs); set_solver|]. split; [done|].
  intros m u x Hr Hu. destruct (searching_frontier _ _ _ _ _ Hs Hr) as [(e & He & _)|(q & e & He & Hle)].
  - by apply (c_strong _ _ _ Hc) with (x := x) in He.
  - pose proof (queue_minimum _ _ _ _ _ _ _ Hs He). lia.
Qed.

Definition next_weak (weak_addr : option Z) (r : symbol_check) : option Z :=
  match weak_addr, r with
  | None, Weak address => Some address
  | _, _ => weak_addr
  end.

Lemma collected_step dn v d queue us visited weak_addr r :
  searching dn ((v, d) :: queue) visited -> collected dn ((v, d) :: queue) weak_addr ->
  check_symbol a symbol v st = Some r -> (forall x, r <> Strong x) ->
  collected (dn ++ [(v, d)]) (queue ++ map (., S d) us) (next_weak weak_addr r).
Proof.
  intros Hs Hc Hv Hr.
  assert (Hq : forall n u m, (n <= d)%nat -> (forall u m, (u, m) ∈ (v, d) :: queue -> (n <= m)%nat) ->
            (u, m) ∈ queue ++ map (., S d) us -> (n <= m)%nat).
  { intros n u m Hn Hall [H|H]%elem_of_app; [apply (Hall u); set_solver|].
    apply list_elem_of_fmap in H as (? & [= -> ->] & _). lia. }
  split.
  - intros u e x [Hu|Hu%list_elem_of_singleton]%elem_of_app; [by eapply c_strong|].
    simplify_eq. rewrite Hv. intros [= ->]. by eapply Hr.
  - intros u e x Hw [Hu|Hu%list_elem_of_singleton]%elem_of_app.
    + eapply (c_none _ _ _ Hc); [|done]. by destruct weak_addr.
    + simplify_eq. rewrite Hv. intros [= ->]. by destruct weak_addr.
  - intros x Hw. destruct weak_addr as [y|] eqn:Ew.
    + cbn in Hw. simplify_eq. destruct (c_weak _ _ _ Hc x eq_refl) as (v0 & n & H1 & H2 & H3 & H4).
      assert (n <= d)%nat by (apply (H4 v); set_solver). exists v0, n. do 2 (split; [done|]).
      split; [|intros u m; by apply Hq].
      intros u m y [Hu|Hu%list_elem_of_singleton]%elem_of_app Hy; [by eapply H3|]. by simplify_eq.
    + destruct r as [|y|]; cbn in Hw; simplify_eq. exists v, d.
      split; [apply (s_reach _ _ _ Hs); set_solver|]. split; [done|]. split.
      * intros u m z [Hu|Hu%list_elem_of_singleton]%elem_of_app Hz; [|simplify_eq; lia].
        by apply (c_none _ _ _ Hc) with (x := z) in Hu.
      * intros u m. apply Hq; [lia|]. intros u' m' H. by eapply queue_minimum.
Qed.

(** The number of libraries that the search can still come to. *)
Lemma searching_bound dn queue visited :
  searching dn queue visited -> (length dn + length queue <= S (length (known_libraries_ st)))%nat.
Proof.
  intros Hs. rewrite <-length_app, <-(length_fmap fst), (s_all _ _ _ Hs). cbn.
  apply le_n_S, submseteq_length, NoDup_submseteq; [apply (s_nodup _ _ _ Hs)|apply (s_known _ _ _ Hs)].
Qed.

Lemma find_symbol_spec fuel dn queue visited weak_addr :
  search_readable -> searching dn queue visited -> collected dn queue weak_addr ->
  (length (known_libraries_ st) + 2 <= length dn + fuel)%nat ->
  exists r, find_symbol a fuel symbol queue.*1 visited weak_addr st = Some r /\ nearest_definition r.
Proof.
  intros Hrd. revert dn queue visited weak_addr. induction fuel as [|fuel IH]; intros dn queue visited weak_addr Hs Hc Hf.
  { pose proof (searching_bound _ _ _ Hs). lia. }
  destruct queue as [|[v d] queue]; cbn [find_symbol fmap list_fmap].
  { exists (default 0 weak_addr). split; [done|]. by eapply nearest_end. }
  cbn [fst]. assert (Hr : reach d v) by (apply (s_reach _ _ _ Hs); set_solver).
  destruct (Hrd d v Hr) as [[r Er] [names En]]. rewrite Er, En.
  destruct (searching_step _ _ _ _ _ _ Hs En) as (us & Ep & Hs').
  assert (Hgo : (forall x, r <> Strong x) -> exists r', find_symbol a fuel symbol
      (queue ++ map (., S d) us).*1 (visited ++ us) (next_weak weak_addr r) st = Some r' /\ nearest_definition r').
  { intros Hn. eapply IH; [done|by eapply collected_step|]. rewrite length_app. cbn. lia. }
  destruct r as [x| |]; [exists x; split; [done|by eapply nearest_strong]| |];
    change (list_fmap _ _ fst queue) with (queue.*1); rewrite Ep; apply Hgo; congruence.
Qed.

Lemma FindSymbolFrom_core :
  from <> 0 -> search_readable -> exists r, FindSymbolFrom a symbol from st = Some r /\ nearest_definition r.
Proof.
  intros H0 Hrd. unfold FindSymbolFrom. rewrite (proj2 (Z.eqb_neq _ _) H0). apply (find_symbol_spec _ [] [(from, 0%nat)] [] None Hrd).
  - split; cbn; try done; try set_solver.
    + intros v d [= -> ->]%list_elem_of_singleton. constructor.
    + repeat constructor.
    + constructor.
  - split; cbn; try done; set_solver.
  - cbn. lia.
Qed.

End Search.

(** ** Opening a known library *)

Section Reopening.
Context (a : arch) `{K : Kernel} `{FS : FileSystem} `{A : Ashmem} `{PF : ProcFs} (raw : cstr).
Context `{C : Code} `{SL : SystemLinker} `{OB : Objects}.

Lemma reopen_core fuel name mode address offset st v w :
  FindKnownLibrary name st = Some v -> k_views st !! v = Some w ->
  (address = 0 \/ (IsCrazy w = true /\ exists lib, k_libs st !! crazy_ w = Some lib /\ load_address lib = address)) ->
  LoadLibrary a raw (S fuel) name mode address offset st
  = Ret v (set_views (<[v := add_ref 1 w]> (k_views st)) st).
Proof.
  intros Hk Hw Ha. cbn [LoadLibrary]. rewrite (lbind_step lget _ st st st eq_refl), Hk. unfold reuse_library.
  rewrite (lbind_step _ _ st w st) by (unfold lread; by rewrite Hw).
  assert (Hadd : (do* AddRef v in lret v) st = Ret v (set_views (<[v := add_ref 1 w]> (k_views st)) st))
    by (unfold lbind, AddRef; by rewrite Hw).
  destruct (Z.eqb_spec address 0) as [->|Hne]; [exact Hadd|].
  destruct Ha as [?|(-> & lib & El & <-)]; [done|]. cbn [negb].
  unfold lbind at 1 2, lread. rewrite El, Z.eqb_refl. exact Hadd.
Qed.

Lemma close_shared fuel st v w :
  k_views st !! v = Some w -> type_ w <> TYPE_NONE -> ref_count_ w <> 1 ->
  UnloadLibrary a raw (S fuel) v st = Ret tt (set_views (<[v := add_ref (-1) w]> (k_views st)) st).
Proof.
  intros Hw Ht Hr. cbn [UnloadLibrary]; unfold unload_with.
  rewrite (lbind_step _ _ st w st) by (unfold lread; by rewrite Hw).
  assert (Hn : negb (IsSystem w) && negb (IsCrazy w) = false)
    by (unfold IsSystem, IsCrazy; destruct (type_ w); done).
  rewrite Hn. rewrite (lbind_step _ _ st (ref_count_ w - 1 =? 0)
    (set_views (<[v := add_ref (-1) w]> (k_views st)) st)) by (unfold SafeDecrementRef; by rewrite Hw).
  by rewrite (proj2 (Z.eqb_neq _ _)) by lia.
Qed.

Lemma relative_core `{!ObjectsOk OB} fuel name mode address offset st :
  slash ∈ name -> head name <> Some slash -> FindKnownLibrary name st = None -> IsSystemLibrary name = false ->
  Str.nul ∉ fs_cwd -> fs_is_file fs_cwd = false ->
  LoadLibrary a raw (S fuel) name mode address offset st
  = Fail (Msg "Library file doesn't exist: %s" [AS fs_cwd]) st.
Proof.
  intros Hs Hh Hk Hsys Hn Hf. cbn [LoadLibrary]. rewrite (lbind_step lget _ st st st eq_refl), Hk, Hsys.
  destruct (new_lib_fresh st) as [_ Hp]. rewrite (lbind_step make_lib _ st _ _ eq_refl).
  unfold scoped, lbind at 1, find_full_path.
  rewrite bool_decide_eq_false_2 by (by intros ?%memchr_not_elem). rewrite bool_decide_eq_false_2 by done.
  rewrite relative_full_path, Hf by done. f_equal. unfold delete_lib. cbn [k_libs set_libs].
  rewrite lookup_insert_eq. cbn. rewrite delete_insert_id by done. by destruct st.
Qed.

End Reopening.

(** ** Properties *)

(** C28: Searching a symbol.  When the libraries reached from [from] through the
    dependencies can be read, [FindSymbolFrom] terminates and returns a strong
    definition at the least distance from [from]; if no library has a strong one,
    a weak definition at the least distance; if there is none either, [NULL].
    Circular dependencies and unknown dependencies are allowed. *)
Theorem FindSymbolFrom_breadth_first a `{SystemLinker} st symbol from :
  from <> 0 -> search_readable a st symbol from ->
  exists r, FindSymbolFrom a symbol from st = Some r /\ nearest_definition a st symbol from r.
Proof. apply FindSymbolFrom_core. Qed.

(** An example: the crazy library 1 depends on the system library 2. *)
#[local] Instance demo_system : SystemLinker := {|
  sys_dlsym h name := if (h =? 7) && bool_decide (name = str "sin") then 0x7000 else 0;
  sys_dlopen name mode := Some 7;
  wrapper_address name := 0x9000;
|}.

(** A dynamic table with one entry, a string table, and a hash table with one
    empty bucket. *)
Definition demo_bytes : list Z :=
  flat_map (le_bytes 4) [DT_NEEDED; 1] ++ 0 :: map zc (str "libm.so") ++ [0] ++ le_bytes 4 0.

Definition demo_library : SharedLibrary :=
  set_symbols (mk_ElfSymbols 0 0x1008 0x1011 1 0 1)
    (set_view (mk_ElfView 0 0 0x1000 1 0 0x1000 0x1000 0) new_SharedLibrary).

Definition demo_linker : linker :=
  mk_linker {[0x500 := demo_library]}
    (<[1 := SetCrazy 0x500 (str "liba.so") new_LibraryView]>
       {[2 := SetSystem 7 (str "libm.so") new_LibraryView]})
    [1; 2] 0x500 new_SearchPathList []
    (mk_process (mk_rstate (bytes_space 0x1000 PROT_READ demo_bytes) new_RDebug [] []) ∅ []).

Lemma demo_readable : search_readable arm demo_linker (str "sin") 1.
Proof.
  assert (Hr : forall n v, reach arm demo_linker 1 n v -> v ∈ [1; 2]).
  { intros n v [|n' u v' _ (names & name & _ & _ & Hk)]; [by left|].
    by apply known_named_spec in Hk as [? _]. }
  intros n v Hv. apply Hr in Hv. elem_inv Hv; vm_compute; eauto.
Qed.

Lemma FindSymbolFrom_breadth_first_witness :
  FindSymbolFrom arm (str "sin") 1 demo_linker = Some 0x7000 /\
  nearest_definition arm demo_linker (str "sin") 1 0x7000.
Proof.
  destruct (FindSymbolFrom_breadth_first arm demo_linker (str "sin") 1 ltac:(lia) demo_readable) as (r & E & Hn).
  assert (Er : FindSymbolFrom arm (str "sin") 1 demo_linker = Some 0x7000) by (vm_compute; reflexivity).
  split; [exact Er|]. rewrite Er in E. injection E as <-. exact Hn.
Defined.

#[local] Existing Instance no_code.
#[local] Existing Instance demo_proc.

(** A file system in which the file [lib/liba.so] of the current directory
    exists. *)
#[local] Instance demo_files : FileSystem := {|
  fs_open _ := None;
  fs_seek_ok _ _ := true;
  fs_read_ok _ _ := true;
  fs_is_file path := bool_decide (path = str "/data/lib/liba.so");
  fs_cwd := str "/data";
|}.

#[export] Instance fresh_objects : Objects := {|
  new_lib st := fresh ({[0]} ∪ dom (k_libs st));
  new_view st := fresh ({[0]} ∪ dom (k_views st));
  link_map_of p := p;
  path_of p := p + 20;
|}.

#[export] Instance fresh_objects_ok : ObjectsOk fresh_objects.
Proof.
  split; intros st; cbn.
  - pose proof (is_fresh ({[0]} ∪ dom (k_libs st))) as H. split; [set_solver|]. apply not_elem_of_dom. set_solver.
  - pose proof (is_fresh ({[0]} ∪ dom (k_views st))) as H. split; [set_solver|]. apply not_elem_of_dom. set_solver.
Qed.

(** Opening and closing a known library.  [LoadLibrary] with the name of a
    known library, at no address or at the one where it is, returns its handle
    and only adds a reference; [UnloadLibrary] of this handle then restores the
    state, whatever depends on the library. *)
Theorem open_close_known a `{Kernel} `{FileSystem} `{Ashmem} `{ProcFs} raw `{Code} `{SystemLinker} `{Objects}
    fuel fuel' name mode address offset st v w :
  FindKnownLibrary name st = Some v -> k_views st !! v = Some w -> type_ w <> TYPE_NONE -> 1 <= ref_count_ w ->
  (address = 0 \/ (IsCrazy w = true /\ exists lib, k_libs st !! crazy_ w = Some lib /\ load_address lib = address)) ->
  exists st', LoadLibrary a raw (S fuel) name mode address offset st = Ret v st' /\
    k_views st' !! v = Some (add_ref 1 w) /\ UnloadLibrary a raw (S fuel') v st' = Ret tt st.
Proof.
  intros Hk Hw Ht Hr Ha. eexists. split; [by apply reopen_core|]. split; [apply lookup_insert_eq|].
  rewrite (close_shared a raw _ _ _ (add_ref 1 w)); [|apply lookup_insert_eq|done|cbn; lia].
  assert (E : add_ref (-1) (add_ref 1 w) = w) by (destruct w; unfold add_ref; cbn; f_equal; lia).
  f_equal. unfold set_views. cbn [k_libs k_views known_libraries_ head_ k_paths k_closed k_proc].
  rewrite insert_insert_eq, E, insert_id; [by destruct st|exact Hw].
Qed.

Lemma open_close_known_witness :
  exists st', LoadLibrary arm [] 1 (str "/system/lib/liba.so") 0 0x1000 0 demo_linker = Ret 1 st' /\
    UnloadLibrary arm [] 1 1 st' = Ret tt demo_linker.
Proof.
  destruct (open_close_known arm [] 0 0 (str "/system/lib/liba.so") 0 0x1000 0 demo_linker 1
    (SetCrazy 0x500 (str "liba.so") new_LibraryView)) as (st' & E1 & _ & E2);
    [reflexivity|reflexivity|discriminate|cbn; lia| |by exists st'].
  right. split; [reflexivity|]. by exists demo_library.
Defined.

(** Relative paths.  [LoadLibrary] with a relative path that has a directory
    fails for every library that is not known: the string of
    [GetCurrentDirectory] keeps the NULs after the path, so that the name of the
    file is the one of the current directory.  The state is left as it was. *)
Theorem relative_path_fails a `{Kernel} `{FileSystem} `{Ashmem} `{ProcFs} raw `{Code} `{SystemLinker}
    `{OB : Objects} `{!ObjectsOk OB} fuel name mode address offset st :
  slash ∈ name -> head name <> Some slash -> FindKnownLibrary name st = None -> IsSystemLibrary name = false ->
  Str.nul ∉ fs_cwd -> fs_is_file fs_cwd = false ->
  LoadLibrary a raw (S fuel) name mode address offset st
  = Fail (Msg "Library file doesn't exist: %s" [AS fs_cwd]) st.
Proof. by apply relative_core. Qed.

Lemma relative_path_fails_witness :
  fs_is_file (fs_cwd ++ slash :: str "lib/liba.so") = true /\
  LoadLibrary arm [] 1 (str "lib/liba.so") 0 0 0 (set_known [] demo_linker)
  = Fail (Msg "Library file doesn't exist: %s" [AS (str "/data")]) (set_known [] demo_linker).
Proof.
  split; [reflexivity|]. change (str "/data") with fs_cwd.
  apply (relative_path_fails arm [] 0 (str "lib/liba.so") 0 0 0 (set_known [] demo_linker)); try reflexivity; try discriminate.
  - apply list_elem_of_In. vm_compute. tauto.
  - intros Hn. apply list_elem_of_In in Hn. vm_compute in Hn. intuition discriminate.
Defined.

(** Handles named by a path.  A library opened by a path is registered under
    the whole path, while the search compares base names: such a handle is not
    found again by any name, in particular by the path itself, and the library is
    loaded a second time. *)
Theorem path_handle_hidden st v w name :
  k_views st !! v = Some w -> slash ∈ name_ w ->
  FindKnownLibrary name st <> Some v /\ FindLibraryByName name st <> Some v.
Proof.
  intros Hw Hs. split.
  - intros (_ & w' & Hw' & Hn)%known_named_spec. simplify_eq. rewrite Hn in Hs. by apply base_name_no_slash in Hs.
  - unfold FindLibraryByName. case_bool_decide as Hc; [|done]. apply memchr_not_elem in Hc.
    intros (_ & w' & Hw' & Hn)%known_named_spec. by simplify_eq.
Qed.

Lemma path_handle_hidden_witness :
  let st := set_known [1] (set_views {[1 := SetCrazy 0x500 (str "/d/liba.so") new_LibraryView]} demo_linker) in
  FindKnownLibrary (str "/d/liba.so") st <> Some 1 /\ FindLibraryByName (str "liba.so") st <> Some 1.
Proof.
  cbn zeta. set (st := set_known [1] _).
  assert (Hw : k_views st !! 1 = Some (SetCrazy 0x500 (str "/d/liba.so") new_LibraryView)) by reflexivity.
  assert (Hs : slash ∈ name_ (SetCrazy 0x500 (str "/d/liba.so") new_LibraryView)) by (by left).
  exact (conj (proj1 (path_handle_hidden st 1 _ (str "/d/liba.so") Hw Hs))
              (proj2 (path_handle_hidden st 1 _ (str "liba.so") Hw Hs))).
Defined.
