(* ===== verification/Registry.v ===== *)
(** * The registry of libraries

    The invariant of the class [LibraryList] of [crazy_linker_library_list.cpp]:
    the vector [known_libraries_], the handles with their reference counts, and
    the doubly linked list of crazy libraries agree, also in the middle of nested
    loads and unloads.  Loading and unloading preserve it, and unloading
    terminates. *)

From S2P Require Import Prelude Kernel ElfTraits LinkerPhdr ElfLoader ElfView ElfSymbols.
From S2P Require Import Relocations Util SearchPath ProcMaps Relro RDebug SharedLibrary LibraryList.
Open Scope Z_scope.
Open Scope ndk_scope.

(** ** The invariant *)

(** The libraries of [l] are linked in this order, after [prev]. *)
Fixpoint chain (libs : gmap Z SharedLibrary) (prev : Z) (l : list Z) : Prop :=
  match l with
  | [] => True
  | p :: l =>
      (exists lib, libs !! p = Some lib /\ list_prev_ lib = prev /\ list_next_ lib = default 0 (head l)) /\
      chain libs p l
  end.

Definition links (lib : SharedLibrary) : Z * Z := (list_next_ lib, list_prev_ lib).

(** [temps] are the libraries being loaded, [busy] the handles being unloaded,
    with their libraries, and [cs] the crazy libraries in the order of the list. *)
Record registry (temps : list Z) (busy : list (Z * Z)) (cs : list Z) (st : linker) : Prop := {
  g_nodup : NoDup (known_libraries_ st);
  g_view v : v ∈ known_libraries_ st -> exists w, k_views st !! v = Some w /\ type_ w <> TYPE_NONE /\
    (v ∈ busy.*1 -> ref_count_ w <= 0) /\ (v ∉ busy.*1 -> 1 <= ref_count_ w);
  g_busy b p : (b, p) ∈ busy -> b ∈ known_libraries_ st /\ p ∉ cs /\
    exists w, k_views st !! b = Some w /\ type_ w = TYPE_CRAZY /\ crazy_ w = p;
  g_crazy v w : v ∈ known_libraries_ st -> k_views st !! v = Some w -> type_ w = TYPE_CRAZY ->
    is_Some (k_libs st !! crazy_ w) /\ crazy_ w ∉ temps /\ (v ∉ busy.*1 -> crazy_ w ∈ cs);
  g_inj u v wu wv : u ∈ known_libraries_ st -> v ∈ known_libraries_ st ->
    k_views st !! u = Some wu -> k_views st !! v = Some wv ->
    type_ wu = TYPE_CRAZY -> type_ wv = TYPE_CRAZY -> crazy_ wu = crazy_ wv -> u = v;
  g_chain : chain (k_libs st) 0 cs;
  g_head : head_ st = default 0 (head cs);
  g_cs : NoDup cs;
  g_owner c : c ∈ cs -> c <> 0 /\ exists v w, v ∈ known_libraries_ st /\ v ∉ busy.*1 /\
    k_views st !! v = Some w /\ type_ w = TYPE_CRAZY /\ crazy_ w = c;
  g_temps p : p ∈ temps -> p <> 0 /\ is_Some (k_libs st !! p);
}.

Section Chains.

Lemma chain_ext libs libs' prev l :
  (forall p, p ∈ l -> links <$> libs' !! p = links <$> libs !! p) -> chain libs prev l -> chain libs' prev l.
Proof.
  revert prev. induction l as [|p l IH]; intros prev Hl; [done|]. cbn.
  intros [(lib & E & Hp & Hn) Hc]. split; [|apply IH; [set_solver|done]].
  specialize (Hl p ltac:(set_solver)). rewrite E in Hl. cbn in Hl.
  apply fmap_Some in Hl as (lib' & -> & Hlk). injection Hlk as ? ?. exists lib'. split; [done|]. split; congruence.
Qed.

Lemma chain_lookup libs prev l1 p l2 :
  chain libs prev (l1 ++ p :: l2) ->
  exists lib, libs !! p = Some lib /\ list_prev_ lib = default prev (list.last l1) /\
    list_next_ lib = default 0 (head l2).
Proof.
  revert prev. induction l1 as [|q l1 IH]; intros prev; cbn.
  - intros [(lib & H) _]. by exists lib.
  - intros [_ Hc]. destruct (IH q Hc) as (lib & H1 & H2 & H3). exists lib. split; [done|]. split; [|done].
    rewrite H2. by destruct l1 using rev_ind; cbn; rewrite ?last_cons, ?last_snoc.
Qed.

(** A new first library. *)
Lemma chain_cons libs p l lib :
  p ∉ l -> NoDup l -> libs !! p = Some lib -> list_prev_ lib = 0 -> list_next_ lib = default 0 (head l) ->
  chain libs 0 l ->
  chain (match l with
         | [] => libs
         | q :: _ => alter (set_prev p) q libs
         end) 0 (p :: l).
Proof.
  intros Hp Hn E H1 H2 Hc. destruct l as [|q l]; cbn; [eauto|].
  apply list.NoDup_cons in Hn as [Hq _]. destruct Hc as [(lq & Eq & Hpq & Hnq) Hc]. split.
  - exists lib. rewrite lookup_alter_ne by set_solver. done.
  - split; [exists (set_prev p lq); by rewrite lookup_alter_eq, Eq|].
    eapply chain_ext; [|done]. intros x Hx. rewrite lookup_alter_ne; [done|set_solver].
Qed.

(** What [unlink_lib] does to the libraries. *)
Definition unlinked (p : Z) (libs : gmap Z SharedLibrary) (prev next : Z) : gmap Z SharedLibrary :=
  let libs := if next =? 0 then libs else alter (set_prev prev) next libs in
  if prev =? 0 then libs else alter (set_next next) prev libs.

Lemma unlinked_other p libs prev next x :
  x <> prev -> x <> next -> unlinked p libs prev next !! x = libs !! x.
Proof.
  intros H1 H2. unfold unlinked.
  destruct (prev =? 0), (next =? 0); rewrite ?lookup_alter_ne by congruence; done.
Qed.

Lemma unlinked_some p libs prev next x :
  is_Some (unlinked p libs prev next !! x) <-> is_Some (libs !! x).
Proof. unfold unlinked. destruct (prev =? 0), (next =? 0); rewrite ?lookup_alter_is_Some; done. Qed.

(** The predecessor of the removed library takes its successor. *)
Lemma unlinked_prev p libs prev next lib :
  prev <> 0 -> prev <> next -> libs !! prev = Some lib ->
  unlinked p libs prev next !! prev = Some (set_next next lib).
Proof.
  intros H0 Hne E. unfold unlinked. rewrite (proj2 (Z.eqb_neq _ _) H0), lookup_alter_eq.
  destruct (next =? 0); rewrite ?lookup_alter_ne by congruence; by rewrite E.
Qed.

(** Its successor takes its predecessor. *)
Lemma unlinked_next p libs prev next lib :
  next <> 0 -> prev <> next -> libs !! next = Some lib ->
  unlinked p libs prev next !! next = Some (set_prev prev lib).
Proof.
  intros H0 Hne E. unfold unlinked. rewrite (proj2 (Z.eqb_neq _ _) H0).
  destruct (prev =? 0); rewrite ?lookup_alter_ne by congruence; by rewrite lookup_alter_eq, E.
Qed.

Lemma chain_unlink_first libs prev p l :
  prev ∉ l -> NoDup l -> 0 ∉ l -> chain libs p l ->
  chain (unlinked p libs prev (default 0 (head l))) prev l.
Proof.
  intros Hp Hn H0 Hc. destruct l as [|q l]; [done|]. cbn in *.
  apply not_elem_of_cons in Hp as [Hpq Hp]. apply not_elem_of_cons in H0 as [H0 _].
  apply list.NoDup_cons in Hn as [Hq _]. destruct Hc as [(lib & E & _ & Hnx) Hc]. split.
  - exists (set_prev prev lib). rewrite (unlinked_next _ _ _ _ lib) by congruence. done.
  - eapply chain_ext; [|done]. intros x Hx. rewrite unlinked_other; [done| |]; by intros ->.
Qed.

Lemma chain_unlink libs prev l1 p l2 :
  NoDup (prev :: l1 ++ p :: l2) -> 0 ∉ l1 ++ p :: l2 -> chain libs prev (l1 ++ p :: l2) ->
  chain (unlinked p libs (default prev (list.last l1)) (default 0 (head l2))) prev (l1 ++ l2).
Proof.
  revert prev. induction l1 as [|q l1 IH]; intros prev Hn H0 Hc.
  - cbn in *. destruct Hc as [_ Hc]. apply list.NoDup_cons in Hn as [Hp Hn].
    apply list.NoDup_cons in Hn as [_ Hn]. apply not_elem_of_cons in Hp as [_ Hp].
    apply not_elem_of_cons in H0 as [_ H0]. by apply chain_unlink_first.
  - cbn [app] in Hc, Hn, H0. pose proof Hc as [(lib & E & Hpv & Hnx) Hc'].
    replace (default prev (list.last (q :: l1))) with (default q (list.last l1))
      by (rewrite last_cons; by destruct (list.last l1)).
    apply list.NoDup_cons in Hn as [_ Hn]. apply not_elem_of_cons in H0 as [Hq0 H0].
    cbn [app]. split; [|by apply IH].
    apply list.NoDup_cons in Hn as [Hq _]. apply not_elem_of_app in Hq as [Hq1 Hq2].
    apply not_elem_of_cons in Hq2 as [_ Hq2].
    assert (Hh : q <> default 0 (head l2)).
    { destruct l2 as [|y l2]; cbn; [congruence|]. by apply not_elem_of_cons in Hq2 as [? _]. }
    destruct l1 as [|x l1].
    + exists (set_next (default 0 (head l2)) lib). cbn. by rewrite (unlinked_prev _ _ _ _ lib) by congruence.
    + exists lib. split; [|by rewrite Hnx]. rewrite unlinked_other; [done| |done].
      destruct (list.last (x :: l1)) as [z|] eqn:Ez; [|by apply last_None in Ez].
      apply last_Some_elem_of in Ez. cbn. by intros ->.
Qed.

End Chains.

(** ** Changes of the registry *)

Section Changes.

(** Only the links of the list and the existence of the other objects matter. *)
Lemma registry_ext temps busy cs st st' :
  known_libraries_ st' = known_libraries_ st -> k_views st' = k_views st -> head_ st' = head_ st ->
  (forall p, p ∈ cs -> links <$> k_libs st' !! p = links <$> k_libs st !! p) ->
  (forall p, is_Some (k_libs st !! p) -> is_Some (k_libs st' !! p)) ->
  registry temps busy cs st -> registry temps busy cs st'.
Proof.
  intros Ek Ev Eh Hl Hd [G1 G2 G3 G4 G5 G6 G7 G8 G9 G10]. split; rewrite ?Ek, ?Ev, ?Eh; try done.
  - intros v w H1 H2 H3. destruct (G4 v w H1 H2 H3) as (A & B). split; [by apply Hd|done].
  - by eapply chain_ext.
  - intros p Hp. destruct (G10 p Hp). split; [done|by apply Hd].
Qed.

(** A library that is being loaded is none of the list. *)
Lemma temp_not_listed temps busy cs st p :
  registry temps busy cs st -> p ∈ temps -> p ∉ cs.
Proof.
  intros G Hp Hc. destruct (g_owner _ _ _ _ G p Hc) as (_ & v & w & Hk & _ & Hv & Ht & <-).
  by destruct (g_crazy _ _ _ _ G v w Hk Hv Ht) as (_ & ? & _).
Qed.

(** A change of the reference count keeps what a handle stands for. *)
Lemma counted_old (views : gmap Z LibraryView) v w n :
  views !! v = Some w -> forall u x, <[v := add_ref n w]> views !! u = Some x ->
  exists y, views !! u = Some y /\ type_ x = type_ y /\ crazy_ x = crazy_ y.
Proof.
  intros Hv u x. destruct (decide (u = v)) as [->|Hne].
  - rewrite lookup_insert_eq. intros [= <-]. eauto.
  - rewrite lookup_insert_ne by done. eauto.
Qed.

Lemma counted_new (views : gmap Z LibraryView) v w n :
  views !! v = Some w -> forall u y, views !! u = Some y ->
  exists x, <[v := add_ref n w]> views !! u = Some x /\ type_ x = type_ y /\ crazy_ x = crazy_ y.
Proof.
  intros Hv u y Hu. destruct (decide (u = v)) as [->|Hne].
  - exists (add_ref n w). rewrite lookup_insert_eq. by simplify_eq.
  - exists y. by rewrite lookup_insert_ne.
Qed.

(** The reference count of a handle changes. *)
Lemma registry_count temps busy cs st v w n :
  registry temps busy cs st -> k_views st !! v = Some w ->
  (v ∈ busy.*1 -> ref_count_ w + n <= 0) -> (v ∉ busy.*1 -> 1 <= ref_count_ w + n) ->
  registry temps busy cs (set_views (<[v := add_ref n w]> (k_views st)) st).
Proof.
  intros [G1 G2 G3 G4 G5 G6 G7 G8 G9 G10] Hv Hb Hr.
  pose proof (counted_old (k_views st) v w n Hv) as Hw. pose proof (counted_new (k_views st) v w n Hv) as Hw'.
  split; cbn; try done.
  - intros u Hu. destruct (decide (u = v)) as [->|Hne].
    + destruct (G2 v Hu) as (y & Hy & Ht & _). simplify_eq. exists (add_ref n w). by rewrite lookup_insert_eq.
    + rewrite lookup_insert_ne by done. by apply G2.
  - intros b p Hp. destruct (G3 b p Hp) as (H1 & H2 & y & Hy & Ht & Hc). do 2 (split; [done|]).
    destruct (Hw' b y Hy) as (x & Hx & Htx & Hcx). exists x. split; [done|]. by rewrite Htx, Hcx.
  - intros u x Hu Hx Ht. destruct (Hw u x Hx) as (y & Hy & Hty & ->). apply (G4 u y); congruence.
  - intros u u' x x' Hu Hu' Hx Hx' Ht Ht' Hc.
    destruct (Hw u x Hx) as (y & Hy & Hty & Hcy), (Hw u' x' Hx') as (y' & Hy' & Hty' & Hcy').
    apply (G5 u u' y y'); congruence.
  - intros c Hc. destruct (G9 c Hc) as (H0 & u & y & Hu & Hnb & Hy & Ht & Hcy). split; [done|].
    destruct (Hw' u y Hy) as (x & Hx & Htx & Hcx). exists u, x. repeat split; congruence.
Qed.

(** The state in which the dependencies of the handle [v] are unloaded. *)
Definition unlinked_state (v : Z) (w : LibraryView) (l1 l2 : list Z) (st : linker) : linker :=
  set_head (default 0 (head (l1 ++ l2)))
    (set_libs (unlinked (crazy_ w) (k_libs st) (default 0 (list.last l1)) (default 0 (head l2)))
       (set_views (<[v := add_ref (-1) w]> (k_views st)) st)).

Lemma registry_busy temps busy st v w l1 l2 :
  registry temps busy (l1 ++ crazy_ w :: l2) st -> v ∈ known_libraries_ st -> v ∉ busy.*1 ->
  k_views st !! v = Some w -> type_ w = TYPE_CRAZY -> ref_count_ w = 1 ->
  registry temps ((v, crazy_ w) :: busy) (l1 ++ l2) (unlinked_state v w l1 l2 st).
Proof.
  intros [G1 G2 G3 G4 G5 G6 G7 G8 G9 G10] Hk Hnb Hv Ht Hr.
  pose proof (counted_old (k_views st) v w (-1) Hv) as Hw.
  pose proof (counted_new (k_views st) v w (-1) Hv) as Hw'.
  assert (Hcs : forall c, c ∈ l1 ++ l2 <-> c ∈ l1 ++ crazy_ w :: l2 /\ c <> crazy_ w).
  { apply list.NoDup_app in G8 as (_ & Hd & Hn2). apply list.NoDup_cons in Hn2 as [Hn2 _].
    intros c. rewrite !elem_of_app, elem_of_cons. split; [|naive_solver].
    intros [H|H]; (split; [tauto|]); intros ->; [apply (Hd _ H), elem_of_cons; by left|done]. }
  split; cbn.
  - done.
  - intros u Hu. destruct (decide (u = v)) as [->|Hne].
    + exists (add_ref (-1) w). rewrite lookup_insert_eq. cbn. rewrite Hr, Ht.
      split; [done|]. split; [done|]. split; [lia|]. intros H. by destruct H; left.
    + rewrite lookup_insert_ne by done. destruct (G2 u Hu) as (x & Hx & Hxt & H1 & H2). exists x.
      do 2 (split; [done|]). rewrite elem_of_cons. split; [naive_solver|tauto].
  - intros b q [[= -> ->]|Hb]%elem_of_cons.
    + split; [done|]. split; [rewrite Hcs; tauto|]. exists (add_ref (-1) w). by rewrite lookup_insert_eq.
    + destruct (G3 b q Hb) as (H1 & H2 & y & Hy & Hyt & Hc). split; [done|]. split; [rewrite Hcs; tauto|].
      destruct (Hw' b y Hy) as (x & Hx & Htx & Hcx). exists x. repeat split; congruence.
  - intros u x Hu Hx Htx. destruct (Hw u x Hx) as (y & Hy & Hty & ->).
    destruct (G4 u y) as (H1 & H2 & H3); [done|done|congruence|].
    rewrite unlinked_some, elem_of_cons, Hcs. repeat split; [done|done|tauto|].
    intros Heq. assert (u = v) by (apply (G5 u v y w); congruence). subst. naive_solver.
  - intros u u' x x' Hu Hu' Hx Hx' Htx Htx' Hc.
    destruct (Hw u x Hx) as (y & Hy & Hty & Hcy), (Hw u' x' Hx') as (y' & Hy' & Hty' & Hcy').
    apply (G5 u u' y y'); congruence.
  - apply chain_unlink; [|intros H; by apply (G9 0)|done].
    apply list.NoDup_cons. split; [intros H; by apply (G9 0)|done].
  - done.
  - apply list.NoDup_app in G8 as (Ha & Hd & Hn2). apply list.NoDup_cons in Hn2 as [_ Hn2].
    apply list.NoDup_app. split; [done|]. split; [|done]. intros x Hx Hx2. apply (Hd x Hx). by right.
  - intros c [Hc Hne]%Hcs. destruct (G9 c Hc) as (H0 & u & y & Hu & Hub & Hy & Hyt & Hcy). split; [done|].
    destruct (Hw' u y Hy) as (x & Hx & Htx & Hcx). exists u, x. rewrite elem_of_cons.
    repeat split; try congruence. intros [->|]; [|done]. by simplify_eq.
  - intros q Hq. rewrite unlinked_some. by apply G10.
Qed.

Lemma elem_of_remove_first (x v : Z) l : NoDup l -> x ∈ remove_first v l <-> x ∈ l /\ x <> v.
Proof.
  induction l as [|y l IH]; intros Hn; cbn; [set_solver|]. apply list.NoDup_cons in Hn as [Hy Hn].
  destruct (decide (y = v)) as [->|Hne].
  - rewrite elem_of_cons. split; [intros H; split; [by right|by intros ->]|intros [[->|H] H']; done].
  - rewrite !elem_of_cons, IH by done. naive_solver.
Qed.

Lemma NoDup_remove_first (v : Z) l : NoDup l -> NoDup (remove_first v l).
Proof.
  induction l as [|y l IH]; intros Hn; cbn; [done|]. apply list.NoDup_cons in Hn as [Hy Hn].
  destruct (decide (y = v)); [done|]. apply list.NoDup_cons. split; [|by apply IH].
  rewrite elem_of_remove_first by done. tauto.
Qed.

(** The handle [v] leaves the registry; its library is not in the list. *)
Lemma registry_forget temps busy0 busy cs st st' v :
  registry temps busy0 cs st -> v ∉ busy.*1 -> (forall b, b ∈ busy -> b ∈ busy0) ->
  (forall b, b ∈ busy0.*1 -> b = v \/ b ∈ busy.*1) ->
  (forall w, k_views st !! v = Some w -> type_ w = TYPE_CRAZY -> crazy_ w ∉ cs) ->
  known_libraries_ st' = remove_first v (known_libraries_ st) -> k_views st' = delete v (k_views st) ->
  head_ st' = head_ st ->
  (forall p, p ∈ cs -> links <$> k_libs st' !! p = links <$> k_libs st !! p) ->
  (forall u w, u ∈ known_libraries_ st -> u <> v -> k_views st !! u = Some w -> type_ w = TYPE_CRAZY ->
     is_Some (k_libs st' !! crazy_ w)) ->
  (forall p, p ∈ temps -> is_Some (k_libs st' !! p)) ->
  registry temps busy cs st'.
Proof.
  intros [G1 G2 G3 G4 G5 G6 G7 G8 G9 G10] Hnb Hsub Hsup Hcs Ek Ev Eh Hl Hlib Htm.
  assert (Hin : forall u, u ∈ known_libraries_ st' <-> u ∈ known_libraries_ st /\ u <> v)
    by (intros u; rewrite Ek; by apply elem_of_remove_first).
  assert (Hlk : forall u x, k_views st' !! u = Some x <-> u <> v /\ k_views st !! u = Some x)
    by (intros u x; rewrite Ev, lookup_delete_Some; naive_solver).
  assert (Hfst : forall u, u ∈ busy.*1 -> u ∈ busy0.*1).
  { intros u Hu. apply list_elem_of_fmap in Hu as (b & -> & Hb). apply list_elem_of_fmap. eauto. }
  assert (Hb' : forall u, u <> v -> u ∉ busy.*1 -> u ∉ busy0.*1) by (intros u H1 H2 []%Hsup; done).
  split.
  - rewrite Ek. by apply NoDup_remove_first.
  - intros u [Hu Hne]%Hin. destruct (G2 u Hu) as (w & Hw & Ht & H1 & H2). exists w. rewrite Hlk. naive_solver.
  - intros b q Hb. destruct (G3 b q (Hsub _ Hb)) as (H1 & H2 & w & Hw & Ht).
    assert (b <> v) by (intros ->; apply Hnb; apply list_elem_of_fmap; by exists (v, q)).
    rewrite Hin. do 2 (split; [done|]). exists w. by rewrite Hlk.
  - intros u w [Hu Hne]%Hin [_ Hw]%Hlk Ht. destruct (G4 u w Hu Hw Ht) as (H1 & H2 & H3). eauto 6.
  - intros u u' w w' [Hu _]%Hin [Hu' _]%Hin [_ Hw]%Hlk [_ Hw']%Hlk. eauto.
  - by eapply chain_ext.
  - by rewrite Eh.
  - done.
  - intros c Hc. destruct (G9 c Hc) as (H0 & u & w & Hu & Hub & Hw & Ht & Hcw). split; [done|].
    assert (u <> v) by (intros ->; by apply (Hcs w Hw Ht); rewrite Hcw).
    exists u, w. rewrite Hin, Hlk. repeat split; auto.
  - intros q Hq. split; [by apply G10|by apply Htm].
Qed.

End Changes.

(** ** Unloading *)

Section Unloading.
Context (a : arch) `{K : Kernel} `{FS : FileSystem} `{A : Ashmem} `{PF : ProcFs} (raw : cstr).
Context `{C : Code} `{SL : SystemLinker} `{OB : Objects}.

Lemma set_link_run f p lib st :
  k_libs st !! p = Some lib -> set_link f p st = Ret tt (set_libs (alter f p (k_libs st)) st).
Proof.
  intros E. unfold set_link. rewrite E. do 2 f_equal. apply map_eq. intros q.
  destruct (decide (q = p)) as [->|Hne].
  - by rewrite lookup_insert_eq, lookup_alter_eq, E.
  - by rewrite lookup_insert_ne, lookup_alter_ne.
Qed.

(** A write to a link that may be null. *)
Lemma maybe_set_link f p st :
  (p <> 0 -> is_Some (k_libs st !! p)) ->
  (if negb (p =? 0) then set_link f p else lret tt) st
  = Ret tt (set_libs (if p =? 0 then k_libs st else alter f p (k_libs st)) st).
Proof.
  intros H. destruct (Z.eqb_spec p 0) as [->|Hp]; cbn; [by destruct st|].
  destruct (H Hp) as [lib E]. by apply set_link_run with (lib := lib).
Qed.

Lemma chain_some libs prev l p : chain libs prev l -> p ∈ l -> is_Some (libs !! p).
Proof.
  revert prev. induction l as [|q l IH]; intros prev; [by intros _ ?%not_elem_of_nil|].
  intros [(lib & E & _) Hc] [->|Hp]%elem_of_cons; [eauto|by eapply IH].
Qed.

Lemma unlink_lib_run st l1 p l2 :
  chain (k_libs st) 0 (l1 ++ p :: l2) -> NoDup (l1 ++ p :: l2) -> 0 ∉ l1 ++ p :: l2 ->
  head_ st = default 0 (head (l1 ++ p :: l2)) ->
  unlink_lib p st
  = Ret tt (set_head (default 0 (head (l1 ++ l2)))
              (set_libs (unlinked p (k_libs st) (default 0 (list.last l1)) (default 0 (head l2))) st)).
Proof.
  intros Hc Hn H0 Hh. destruct (chain_lookup _ _ _ _ _ Hc) as (lib & E & Hp & Hx).
  set (prev := default 0 (list.last l1)) in *. set (next := default 0 (head l2)) in *.
  apply list.NoDup_app in Hn as (Hn1 & Hd & Hn2). apply list.NoDup_cons in Hn2 as [Hp2 _].
  assert (Hnext : next <> 0 -> next ∈ l2) by (subst next; destruct l2; cbn; [done|by left]).
  assert (Hprev : prev <> 0 -> prev ∈ l1).
  { subst prev. destruct (list.last l1) as [z|] eqn:Ez; cbn; [|done]. intros _. by apply last_Some_elem_of. }
  assert (Hnp : p <> next \/ next = 0) by (destruct (decide (next = 0)); [tauto|left; intros ->; auto]).
  assert (Hpp : p <> prev \/ prev = 0).
  { destruct (decide (prev = 0)); [tauto|left; intros ->]. apply (Hd prev); [auto|by left]. }
  unfold unlink_lib. rewrite (lbind_step _ _ st lib st) by (unfold lread; by rewrite E).
  rewrite Hx, Hp. rewrite (lbind_step _ _ _ _ _ (maybe_set_link _ next st ltac:(
    intros H; apply (chain_some _ _ _ _ Hc), elem_of_app; right; right; auto))).
  set (libs1 := if next =? 0 then _ else _).
  assert (E1 : libs1 !! p = Some lib).
  { subst libs1. destruct (Z.eqb_spec next 0); [done|]. rewrite lookup_alter_ne; [done|]. destruct Hnp; congruence. }
  rewrite (lbind_step _ _ _ lib (set_libs libs1 st)) by (unfold lread; cbn; by rewrite E1).
  rewrite Hx, Hp. rewrite (lbind_step _ _ _ _ _ (maybe_set_link _ prev (set_libs libs1 st) ltac:(
    intros H; cbn; subst libs1; destruct (next =? 0); rewrite ?lookup_alter_is_Some;
    apply (chain_some _ _ _ _ Hc), elem_of_app; left; auto))).
  cbn [k_libs set_libs]. set (libs2 := if prev =? 0 then _ else _).
  assert (E2 : list_next_ <$> libs2 !! p = Some next).
  { subst libs2. destruct (Z.eqb_spec prev 0); [by rewrite E1; cbn; rewrite Hx|].
    rewrite lookup_alter_ne; [by rewrite E1; cbn; rewrite Hx|]. destruct Hpp; congruence. }
  apply fmap_Some in E2 as (lib2 & E2 & Hx2).
  rewrite (lbind_step _ _ _ lib2 (set_libs libs2 st)) by (unfold lread; cbn; by rewrite E2).
  unfold modify. cbn [head_ set_libs]. rewrite <-Hx2, Hh. destruct l1 as [|q l1]; cbn [app head default].
  - cbn. rewrite Z.eqb_refl. done.
  - cbn. destruct (Z.eqb_spec p q) as [->|_]; [destruct (Hd q); by left|]. f_equal. destruct st; cbn in *. by rewrite Hh.
Qed.

Definition keeps (temps : list Z) (busy : list (Z * Z)) (st : linker) : Prop :=
  exists cs, registry temps busy cs st.

Lemma keeps_proc temps busy st pr : keeps temps busy st -> keeps temps busy (set_proc pr st).
Proof. intros [cs G]. exists cs. by apply (registry_ext _ _ _ st). Qed.

Lemma triple_on_rdebug temps busy {B} (c : M rstate B) :
  triple (keeps temps busy) (on_rdebug c) (fun _ => keeps temps busy) (fun _ => keeps temps busy).
Proof.
  intros st G. unfold on_rdebug. destruct (c (p_rs (k_proc st))); [by apply keeps_proc|by apply keeps_proc|done].
Qed.

Lemma triple_call_lib temps busy f p E :
  triple (keeps temps busy) (call_lib f p) (fun _ => keeps temps busy) E.
Proof.
  intros st G. unfold call_lib. destruct (k_libs st !! p); [|done].
  destruct (f s (k_proc st)); [by apply keeps_proc|done].
Qed.

Lemma triple_for_dependencies {St} (lk : St -> linker) p body (P : St -> Prop) E :
  (forall name, triple P (body name) (fun _ => P) E) ->
  triple P (for_dependencies a lk p body) (fun _ => P) E.
Proof.
  intros Hb x Hx. unfold for_dependencies. destruct (k_libs (lk x) !! p) as [lib|]; [|done].
  revert x Hx. apply triple_for_dynamic. intros q d.
  destruct (d_tag d =? DT_NEEDED); [|by intros x Hx].
  apply (triple_bind _ _ _ (fun _ => P)); [by apply triple_read|done].
Qed.

(** The end of the unloading of a crazy library. *)
Lemma forget_crazy temps busy v p cs st :
  registry temps ((v, p) :: busy) cs st -> v ∉ busy.*1 ->
  exists st', delete_LibraryView v (set_known (remove_first v (known_libraries_ st)) st) = Ret tt st' /\
    registry temps busy cs st'.
Proof.
  intros G Hnb. destruct (g_busy _ _ _ _ G v p) as (Hk & Hpc & w & Hw & Ht & Hc); [by left|].
  unfold delete_LibraryView. cbn [k_views set_known]. rewrite Hw, Ht. eexists. split; [done|].
  destruct (g_crazy _ _ _ _ G v w Hk Hw Ht) as ([lib El] & Htmp & _).
  unfold delete_lib. cbn [k_libs set_views set_known]. rewrite El. rewrite Hc in *.
  eapply (registry_forget _ _ _ _ _ _ v G); try done; cbn.
  - intros b Hb. by right.
  - intros b Hb. by apply elem_of_cons in Hb.
  - intros w' Hw' _. by simplify_eq.
  - intros q Hq. rewrite lookup_delete_ne; [done|]. by intros ->.
  - intros u x Hu Hne Hx Htx. destruct (g_crazy _ _ _ _ G u x Hu Hx Htx) as (? & _ & _).
    rewrite lookup_delete_ne; [done|]. intros Heq. apply Hne. by apply (g_inj _ _ _ _ G u v x w); congruence.
  - intros q Hq. rewrite lookup_delete_ne; [by apply (g_temps _ _ _ _ G)|]. by intros ->.
Qed.

Lemma forget_system temps busy cs st v w :
  registry temps busy cs st -> v ∈ known_libraries_ st -> v ∉ busy.*1 ->
  k_views st !! v = Some w -> type_ w = TYPE_SYSTEM ->
  exists st', delete_LibraryView v (set_known (remove_first v (known_libraries_ st))
      (set_views (<[v := add_ref (-1) w]> (k_views st)) st)) = Ret tt st' /\ registry temps busy cs st'.
Proof.
  intros G Hk Hnb Hw Ht. unfold delete_LibraryView. cbn [k_views set_known set_views].
  rewrite lookup_insert_eq. cbn [add_ref type_]. rewrite Ht. eexists. split; [done|].
  eapply (registry_forget _ _ _ _ _ _ v G); try done; cbn.
  - by right.
  - intros w' Hw' Ht'. congruence.
  - by rewrite delete_insert_eq.
  - intros u x Hu Hne Hx Htx. by apply (g_crazy _ _ _ _ G u x Hu Hx Htx).
  - intros q Hq. by apply (g_temps _ _ _ _ G).
Qed.

(** The removal of the library from the list marks its handle as busy. *)
Lemma triple_unlink temps busy cs st v w :
  registry temps busy cs st -> v ∈ known_libraries_ st -> v ∉ busy.*1 ->
  k_views st !! v = Some w -> type_ w = TYPE_CRAZY -> ref_count_ w = 1 ->
  triple (fun s => s = set_views (<[v := add_ref (-1) w]> (k_views st)) st) (unlink_lib (crazy_ w))
    (fun _ => keeps temps ((v, crazy_ w) :: busy)) (fun _ _ => True).
Proof.
  intros G Hk Hv Hw Ht Hr s ->. destruct (g_crazy _ _ _ _ G v w Hk Hw Ht) as (_ & _ & Hc).
  apply list_elem_of_split in Hc as (l1 & l2 & ->); [|done].
  rewrite (unlink_lib_run _ l1 (crazy_ w) l2); [|apply G|apply G| |apply G].
  - exists (l1 ++ l2). exact (registry_busy _ _ _ _ _ _ _ G Hk Hv Hw Ht Hr).
  - intros H. by apply (g_owner _ _ _ _ G) in H as [? _].
Qed.

(** [UnloadLibrary] of a known library keeps the registry. *)
Lemma unload_registry fuel temps busy v :
  triple (fun st => keeps temps busy st /\ v ∈ known_libraries_ st) (UnloadLibrary a raw fuel v)
    (fun _ => keeps temps busy) (fun _ _ => True).
Proof.
  revert busy v. induction fuel as [|fuel IH]; intros busy v st [[cs G] Hk]; [done|].
  destruct (g_view _ _ _ _ G v Hk) as (w & Hw & Ht & Hb & Hnb). cbn [UnloadLibrary]; unfold unload_with.
  rewrite (lbind_step _ _ st w st) by (unfold lread; by rewrite Hw).
  destruct (negb (IsSystem w) && negb (IsCrazy w)); [by exists cs|].
  rewrite (lbind_step _ _ st (ref_count_ w - 1 =? 0) (set_views (<[v := add_ref (-1) w]> (k_views st)) st))
    by (unfold SafeDecrementRef; by rewrite Hw).
  destruct (Z.eqb_spec (ref_count_ w - 1) 0) as [Hr|Hr]; cbn [negb].
  2: { exists cs. apply registry_count; [done|done| |]; intros H; [specialize (Hb H)|specialize (Hnb H)]; lia. }
  assert (Hv : v ∉ busy.*1) by (intros H; specialize (Hb H); lia).
  unfold IsCrazy. destruct (type_ w) eqn:Ety; [done| |].
  - rewrite bool_decide_eq_false_2 by done.
    destruct (forget_system _ _ _ _ _ _ G Hk Hv Hw Ety) as (st' & E & G').
    rewrite (lbind_step (lret tt) _ _ tt _ eq_refl), (lbind_step (modify _) _ _ tt _ eq_refl).
    cbn [known_libraries_ set_views]. rewrite E. by exists cs.
  - rewrite bool_decide_eq_true_2 by done.
    refine (triple_bind (fun s => s = set_views (<[v := add_ref (-1) w]> (k_views st)) st) _ _
              (fun _ => keeps temps ((v, crazy_ w) :: busy)) _ _ _ _ _ eq_refl).
    + eapply triple_bind; [apply (triple_unlink _ _ _ _ _ _ G); done || lia|]. intros ?.
      eapply triple_bind; [apply triple_call_lib|]. intros ?.
      eapply triple_bind; [apply triple_call_lib|]. intros ?.
      eapply triple_bind; [apply triple_for_dependencies|].
      * intros name s Hs. destruct (FindKnownLibrary name s) as [d|] eqn:Ed; [|done].
        apply IH. split; [done|]. by apply known_named_spec in Ed as [? _].
      * intros ?. eapply triple_conseq; [apply triple_on_rdebug|done|done|done].
    + intros _ s [cs' G']. destruct (forget_crazy _ _ _ _ _ _ G' Hv) as (st' & E & G2).
      rewrite (lbind_step (modify _) _ _ tt _ eq_refl), E. by exists cs'.
Qed.

(** ** Termination of unloading *)

(** Operations that only return or crash. *)
Definition nofail {St B} (c : M St B) : Prop := triple (fun _ => True) c (fun _ _ => True) (fun _ _ => False).

Lemma nofail_bind {St B D} (c : M St B) (k : B -> M St D) :
  nofail c -> (forall x, nofail (k x)) -> nofail (lbind c k).
Proof. intros Hc Hk. by eapply triple_bind. Qed.

Lemma nofail_step {St B} (c : M St B) : (forall s, match c s with Fail _ _ => False | _ => True end) -> nofail c.
Proof. intros H s _. specialize (H s). by destruct (c s). Qed.

Ltac nofail_auto :=
  repeat first
    [ apply nofail_bind; [|intros ?]
    | progress cbn beta
    | match goal with |- nofail (if ?b then _ else _) => destruct b end ];
  apply nofail_step; intros s; cbn;
  unfold lread, store_bytes, lret, MapReadWrite, delete_ScopedPageMapper, notify, PostCallback;
  repeat case_match; done.

Lemma nofail_mapper entry f v : nofail (with_mapper a raw entry f v).
Proof. unfold with_mapper, store_word. nofail_auto. Qed.

Lemma nofail_DelEntry entry : nofail (DelEntry a raw entry).
Proof.
  unfold DelEntry, RunOrDelay. apply nofail_bind; [nofail_auto|]. intros []; [nofail_auto|].
  cbn [run_handler]. unfold DelEntryImpl, clear_entry, load_word, store_word.
  pose proof nofail_mapper. repeat first
    [ apply nofail_mapper
    | apply nofail_bind; [|intros ?]
    | match goal with |- nofail (if ?b then _ else _) => destruct b end
    | nofail_auto ].
Qed.

(** The number of references to all the libraries. *)
Definition total (views : gmap Z LibraryView) : nat :=
  map_fold (fun _ w n => Z.to_nat (ref_count_ w) + n)%nat 0%nat views.

Lemma total_delete views v w :
  views !! v = Some w -> total views = (Z.to_nat (ref_count_ w) + total (delete v views))%nat.
Proof. intros H. unfold total. rewrite (map_fold_delete_L _ _ v w); [done|intros; lia|done]. Qed.

Lemma total_insert views v w w' :
  views !! v = Some w ->
  (total (<[v := w']> views) + Z.to_nat (ref_count_ w) = total views + Z.to_nat (ref_count_ w'))%nat.
Proof.
  intros H. rewrite (total_delete views v w H), (total_delete _ v w') by apply lookup_insert_eq.
  rewrite delete_insert_eq. lia.
Qed.

Definition bounded (n : nat) (st : linker) : Prop := (total (k_views st) <= n)%nat.

Lemma bounded_weaken n m st : (n <= m)%nat -> bounded n st -> bounded m st.
Proof. unfold bounded. lia. Qed.

Lemma triple_same_views {B} n (c : M linker B) :
  (forall st, match c st with
              | Ret _ st' => k_views st' = k_views st
              | Fail _ _ => False
              | Crash => True
              end) ->
  triple (bounded n) c (fun _ => bounded n) (fun _ _ => False).
Proof.
  intros H st Hb. specialize (H st). destruct (c st); [|done|done]. unfold bounded in *. by rewrite H.
Qed.

Lemma bounded_unlink n p : triple (bounded n) (unlink_lib p) (fun _ => bounded n) (fun _ _ => False).
Proof.
  unfold unlink_lib.
  repeat first
    [ apply (triple_bind _ _ _ (fun _ => bounded n)); [|intros ?]
    | match goal with |- triple _ (if ?b then _ else _) _ _ => destruct b end
    | apply triple_same_views; intros st; unfold lread, set_link, modify, lret;
      try destruct (k_libs st !! _); try destruct (p =? _); done ].
Qed.

Lemma bounded_call n f p : triple (bounded n) (call_lib f p) (fun _ => bounded n) (fun _ _ => False).
Proof.
  apply triple_same_views. intros st. unfold call_lib. destruct (k_libs st !! p); [|done].
  by destruct (f s (k_proc st)).
Qed.

Lemma bounded_del n e :
  triple (bounded n) (on_rdebug (DelEntry a raw e)) (fun _ => bounded n) (fun _ _ => False).
Proof.
  apply triple_same_views. intros st. unfold on_rdebug.
  pose proof (nofail_DelEntry e (p_rs (k_proc st)) I) as H. by destruct (DelEntry a raw e _).
Qed.

Lemma bounded_delete n v : triple (bounded n) (delete_LibraryView v) (fun _ => bounded n) (fun _ _ => False).
Proof.
  intros st Hb. unfold delete_LibraryView. destruct (k_views st !! v) as [w|] eqn:E; [|done].
  assert (Hd : (total (delete v (k_views st)) <= n)%nat) by (unfold bounded in Hb; rewrite (total_delete _ _ _ E) in Hb; lia).
  destruct (type_ w); [done|done|]. unfold delete_lib. cbn. by destruct (k_libs st !! crazy_ w).
Qed.

(** With more fuel than references, unloading does not run out of it. *)
Lemma unload_bounded fuel n v :
  (n < fuel)%nat -> triple (bounded n) (UnloadLibrary a raw fuel v) (fun _ => bounded n) (fun _ _ => False).
Proof.
  revert n v. induction fuel as [|fuel IH]; intros n v Hn st Hb; [lia|]. cbn [UnloadLibrary]; unfold unload_with.
  destruct (k_views st !! v) as [w|] eqn:Hw; [|unfold lbind at 1, lread at 1; by rewrite Hw].
  rewrite (lbind_step _ _ st w st) by (unfold lread; by rewrite Hw).
  destruct (negb (IsSystem w) && negb (IsCrazy w)); [done|].
  rewrite (lbind_step _ _ st (ref_count_ w - 1 =? 0) (set_views (<[v := add_ref (-1) w]> (k_views st)) st))
    by (unfold SafeDecrementRef; by rewrite Hw).
  pose proof (total_insert (k_views st) v w (add_ref (-1) w) Hw) as Ht. cbn in Ht.
  destruct (Z.eqb_spec (ref_count_ w - 1) 0) as [Hr|Hr]; cbn [negb]; [|unfold lret, bounded in *; cbn; lia].
  assert (Hm : exists m, n = S m) by (exists (pred n); unfold bounded in Hb; lia). destruct Hm as [m ->].
  assert (Hb' : bounded m (set_views (<[v := add_ref (-1) w]> (k_views st)) st)) by (unfold bounded in *; cbn; lia).
  refine (triple_bind (bounded m) _ _ (fun _ => bounded m) (fun _ => bounded (S m)) _ _ _ _ Hb').
  - destruct (IsCrazy w); [|by intros s Hs].
    apply (triple_bind _ _ _ (fun _ => bounded m)); [apply bounded_unlink|intros ?].
    apply (triple_bind _ _ _ (fun _ => bounded m)); [apply bounded_call|intros ?].
    apply (triple_bind _ _ _ (fun _ => bounded m)); [apply bounded_call|intros ?].
    apply (triple_bind _ _ _ (fun _ => bounded m)); [|intros ?; apply bounded_del].
    apply triple_for_dependencies. intros name s Hs.
    destruct (FindKnownLibrary name s); [|done]. by apply IH; [lia|].
  - intros ?. apply (triple_bind _ _ _ (fun _ => bounded m)); [by apply triple_same_views|intros ?].
    eapply triple_conseq; [apply bounded_delete|done|intros ? ?; apply bounded_weaken; lia|done].
Qed.

(** ** Independence of the fuel *)

Lemma for_dynamic_eq {St} (rd : St -> Z -> option Z) n q body body' (P : St -> Prop) E :
  (forall p d, triple P (body p d) (fun _ => P) E) ->
  (forall p d s, P s -> body p d s = body' p d s) ->
  forall s, P s -> for_dynamic a rd n q body s = for_dynamic a rd n q body' s.
Proof.
  intros Hb He. revert q. induction n as [|n IH]; intros q s Hs; [done|]. cbn [for_dynamic].
  unfold lbind at 1 3, lread. destruct (read_Dyn a (rd s) q) as [d|]; [|done].
  unfold lbind. rewrite <-He by done. specialize (Hb q d s Hs). destruct (body q d s); [by apply IH|done|done].
Qed.

Lemma lbind_eq {St B D} (c : M St B) (k k' : B -> M St D) (P : B -> St -> Prop) (Q : St -> Prop) E s :
  Q s -> triple Q c P E -> (forall x s, P x s -> k x s = k' x s) -> lbind c k s = lbind c k' s.
Proof. intros Hs Hc Hk. specialize (Hc s Hs). unfold lbind. destruct (c s); [by apply Hk|done|done]. Qed.

Lemma lbind_cong {St B D} (c c' : M St B) (k : B -> M St D) s : c s = c' s -> lbind c k s = lbind c' k s.
Proof. unfold lbind. by intros ->. Qed.

Lemma for_dependencies_eq {St} (lk : St -> linker) p body body' (P : St -> Prop) E s :
  (forall name, triple P (body name) (fun _ => P) E) -> (forall name s, P s -> body name s = body' name s) ->
  P s -> for_dependencies a lk p body s = for_dependencies a lk p body' s.
Proof.
  intros Hb He Hs. unfold for_dependencies. destruct (k_libs (lk s) !! p) as [lib|]; [|done].
  apply (for_dynamic_eq _ _ _ _ _ P E); [| |done].
  - intros q d. destruct (d_tag d =? DT_NEEDED); [|by intros x Hx].
    apply (triple_bind _ _ _ (fun _ => P)); [by apply triple_read|done].
  - intros q d x Hx. destruct (d_tag d =? DT_NEEDED); [|done].
    apply (lbind_eq _ _ _ (fun _ => P) P E); [done|by apply triple_read|done].
Qed.

Lemma unload_with_eq unload unload' n v st :
  (forall m d, n = S m -> triple (bounded m) (unload d) (fun _ => bounded m) (fun _ _ => False)) ->
  (forall m d s, n = S m -> bounded m s -> unload d s = unload' d s) ->
  bounded n st -> unload_with a raw unload v st = unload_with a raw unload' v st.
Proof.
  intros Hu He Hb. unfold unload_with.
  destruct (k_views st !! v) as [w|] eqn:Hw; [|by unfold lbind, lread; rewrite Hw].
  rewrite !(lbind_step (lread _) _ st w st) by (unfold lread; by rewrite Hw).
  destruct (negb (IsSystem w) && negb (IsCrazy w)); [done|].
  rewrite !(lbind_step (SafeDecrementRef v) _ st (ref_count_ w - 1 =? 0)
    (set_views (<[v := add_ref (-1) w]> (k_views st)) st)) by (unfold SafeDecrementRef; by rewrite Hw).
  pose proof (total_insert (k_views st) v w (add_ref (-1) w) Hw) as Ht. cbn in Ht.
  destruct (Z.eqb_spec (ref_count_ w - 1) 0) as [Hr|Hr]; cbn [negb]; [|done].
  destruct (IsCrazy w); [|done]. set (st1 := set_views _ st).
  assert (Hm : exists m, n = S m) by (exists (pred n); unfold bounded in Hb; lia). destruct Hm as [m ->].
  assert (Hb' : bounded m st1) by (unfold bounded in *; subst st1; cbn; lia).
  apply lbind_cong. eapply lbind_eq; [exact Hb'|apply bounded_unlink|]. intros ? s1 H1.
  eapply lbind_eq; [exact H1|apply bounded_call|]. intros ? s2 H2.
  eapply lbind_eq; [exact H2|apply bounded_call|]. intros ? s3 H3.
  apply lbind_cong. eapply (for_dependencies_eq _ _ _ _ (bounded m)); [| |done].
  - intros name s Hs. destruct (FindKnownLibrary name s); [by apply (Hu m)|done].
  - intros name s Hs. destruct (FindKnownLibrary name s); [by apply (He m)|done].
Qed.

Lemma unload_more fuel n v st :
  (n < fuel)%nat -> bounded n st -> UnloadLibrary a raw fuel v st = UnloadLibrary a raw (S fuel) v st.
Proof.
  revert n v st. induction fuel as [|fuel IH]; intros n v st Hn Hb; [lia|].
  change (unload_with a raw (UnloadLibrary a raw fuel) v st = unload_with a raw (UnloadLibrary a raw (S fuel)) v st).
  apply (unload_with_eq _ _ n); [| |done].
  - intros m d ->. apply unload_bounded. lia.
  - intros m d s -> Hs. by apply (IH m); [lia|].
Qed.

Lemma unload_enough fuel v st :
  (total (k_views st) < fuel)%nat ->
  UnloadLibrary a raw fuel v st = UnloadLibrary a raw (S (total (k_views st))) v st.
Proof.
  intros Hf. set (n := total (k_views st)) in *. replace fuel with (fuel - S n + S n)%nat by lia.
  generalize (fuel - S n)%nat. intros k. induction k as [|k IH]; [done|].
  cbn [Nat.add]. rewrite <-(unload_more _ n); [done|lia|]. unfold bounded. lia.
Qed.

End Unloading.

(** ** Loading *)

Section NewObjects.

Lemma listed_exists temps busy cs st p : registry temps busy cs st -> p ∈ cs -> is_Some (k_libs st !! p).
Proof. intros G Hp. eapply chain_some; [apply G|done]. Qed.

Lemma registry_add_temp temps busy cs st p lib :
  registry temps busy cs st -> p <> 0 -> k_libs st !! p = None ->
  registry (p :: temps) busy cs (set_libs (<[p := lib]> (k_libs st)) st).
Proof.
  intros G H0 Hp. pose proof G as [G1 G2 G3 G4 G5 G6 G7 G8 G9 G10].
  assert (Hne : forall q, is_Some (k_libs st !! q) -> q <> p) by (intros q [x Hx] ->; congruence).
  split; cbn; try done.
  - intros v w Hv Hw Ht. destruct (G4 v w Hv Hw Ht) as (H1 & H2 & H3). specialize (Hne _ H1).
    rewrite lookup_insert_ne, not_elem_of_cons by congruence. done.
  - eapply chain_ext; [|done]. intros q Hq. pose proof (Hne q (listed_exists _ _ _ _ _ G Hq)).
    by rewrite lookup_insert_ne by congruence.
  - intros q [->|Hq]%elem_of_cons; [by rewrite lookup_insert_eq|]. destruct (G10 q Hq) as [Hq0 Hs].
    pose proof (Hne q Hs). by rewrite lookup_insert_ne by congruence.
Qed.

Lemma registry_set_temp temps busy cs st p lib :
  registry temps busy cs st -> p ∈ temps ->
  registry temps busy cs (set_libs (<[p := lib]> (k_libs st)) st).
Proof.
  intros G Hp. pose proof (temp_not_listed _ _ _ _ _ G Hp). apply (registry_ext _ _ _ st); try done; cbn.
  - intros q Hq. rewrite lookup_insert_ne; [done|]. by intros ->.
  - intros q Hq. destruct (decide (q = p)) as [->|Hne]; [by rewrite lookup_insert_eq|by rewrite lookup_insert_ne].
Qed.

Lemma registry_drop_temp temps busy cs st p :
  registry (p :: temps) busy cs st -> p ∉ temps ->
  registry temps busy cs (set_libs (delete p (k_libs st)) st).
Proof.
  intros G Hp. pose proof (temp_not_listed _ _ _ _ p G ltac:(by left)) as Hc.
  destruct G as [G1 G2 G3 G4 G5 G6 G7 G8 G9 G10]. split; cbn; try done.
  - intros v w Hv Hw Ht. destruct (G4 v w Hv Hw Ht) as (H1 & [H2 H2']%not_elem_of_cons & H3).
    by rewrite lookup_delete_ne by congruence.
  - eapply chain_ext; [|done]. intros q Hq. rewrite lookup_delete_ne; [done|]. by intros ->.
  - intros q Hq. rewrite lookup_delete_ne by (by intros ->). apply G10. by right.
Qed.

(** A new handle [v]; the library of a new crazy one was being loaded. *)
Lemma registry_new_view temps temps' busy cs cs' st st' v w :
  registry temps busy cs st -> k_views st !! v = None -> type_ w <> TYPE_NONE -> ref_count_ w = 1 ->
  (type_ w = TYPE_CRAZY -> crazy_ w ∈ temps /\ crazy_ w ∉ temps') -> (forall p, p ∈ temps' -> p ∈ temps) ->
  (forall c, c ∈ cs' <-> c ∈ cs \/ (type_ w = TYPE_CRAZY /\ c = crazy_ w)) ->
  NoDup cs' -> chain (k_libs st') 0 cs' -> head_ st' = default 0 (head cs') ->
  known_libraries_ st' = known_libraries_ st ++ [v] -> k_views st' = <[v := w]> (k_views st) ->
  (forall p, is_Some (k_libs st !! p) -> is_Some (k_libs st' !! p)) ->
  registry temps' busy cs' st'.
Proof.
  intros [G1 G2 G3 G4 G5 G6 G7 G8 G9 G10] Hv Ht Hr Hcz Htp Hcs Hnd Hch Hhd Ek Ev Hl.
  assert (Hk : forall u, u ∈ known_libraries_ st -> u <> v).
  { intros u Hu ->. destruct (G2 v Hu) as (x & Hx & _). congruence. }
  assert (Hb : v ∉ busy.*1).
  { intros H. apply list_elem_of_fmap in H as ([b q] & -> & Hb). destruct (G3 b q Hb) as (H & _). by apply (Hk b H). }
  assert (Hold : forall u, u ∈ known_libraries_ st -> k_views st' !! u = k_views st !! u).
  { intros u Hu. rewrite Ev, lookup_insert_ne; [done|]. by apply not_eq_sym, Hk. }
  assert (Hnew : k_views st' !! v = Some w) by (by rewrite Ev, lookup_insert_eq).
  assert (Hin : forall u, u ∈ known_libraries_ st' <-> u ∈ known_libraries_ st \/ u = v)
    by (intros u; by rewrite Ek, elem_of_app, list_elem_of_singleton).
  assert (Hfree : forall u x, u ∈ known_libraries_ st -> k_views st !! u = Some x -> type_ x = TYPE_CRAZY ->
            type_ w = TYPE_CRAZY -> crazy_ x <> crazy_ w).
  { intros u x Hu Hx Hxt Hwt Heq. destruct (G4 u x Hu Hx Hxt) as (_ & H & _). rewrite Heq in H. by destruct (Hcz Hwt). }
  split.
  - rewrite Ek. apply list.NoDup_app. split; [done|]. split; [|apply NoDup_singleton].
    intros u Hu Hu'%list_elem_of_singleton. by apply (Hk u).
  - intros u [Hu| ->]%Hin; [rewrite Hold by done; by apply G2|]. exists w. rewrite Hr. repeat split; [done|done|done|lia].
  - intros b q Hq. destruct (G3 b q Hq) as (H1 & H2 & x & Hx & Hxt & Hxc). rewrite Hin, Hcs, Hold by done.
    split; [by left|]. split; [|by exists x]. intros [?|[Hwt ->]]; [done|]. by apply (Hfree b x).
  - intros u x [Hu| ->]%Hin Hx Hxt.
    + rewrite Hold in Hx by done. destruct (G4 u x Hu Hx Hxt) as (H1 & H2 & H3). rewrite Hcs. naive_solver.
    + rewrite Hnew in Hx. simplify_eq. destruct (Hcz Hxt) as [H1 H2].
      split; [apply Hl; by apply G10|]. split; [done|]. rewrite Hcs. naive_solver.
  - intros u u' x x' [Hu| ->]%Hin [Hu'| ->]%Hin Hx Hx' Hxt Hxt' Hc; try done;
      rewrite ?Hold in Hx by done; rewrite ?Hold in Hx' by done; rewrite ?Hnew in *; simplify_eq.
    + by apply (G5 u u' x x').
    + by destruct (Hfree u x).
    + by destruct (Hfree u' x').
  - done.
  - done.
  - done.
  - intros c [Hc|[Hwt ->]]%Hcs.
    + destruct (G9 c Hc) as (H0 & u & x & Hu & Hub & Hx & Hxt & Hxc). split; [done|]. exists u, x.
      rewrite Hin, Hold by done. naive_solver.
    + destruct (Hcz Hwt) as [H1 _]. split; [by apply G10|]. exists v, w. rewrite Hin. naive_solver.
  - intros q Hq. destruct (G10 q (Htp q Hq)). split; [done|by apply Hl].
Qed.

End NewObjects.

Section Loading.
Context (a : arch) `{K : Kernel} `{FS : FileSystem} `{A : Ashmem} `{PF : ProcFs} (raw : cstr).
Context `{C : Code} `{SL : SystemLinker} `{OB : Objects} `{OK : !ObjectsOk OB}.

Local Notation loads c temps :=
  (triple (keeps temps []) c (fun v st => keeps temps [] st /\ v ∈ known_libraries_ st)
     (fun _ => keeps temps [])).

Lemma reuse_registry temps v load_addr st :
  keeps temps [] st -> v ∈ known_libraries_ st ->
  match reuse_library v load_addr st with
  | Ret u st' => u = v /\ keeps temps [] st' /\ v ∈ known_libraries_ st'
  | Fail _ st' => st' = st
  | Crash => True
  end.
Proof.
  intros [cs G] Hk. destruct (g_view _ _ _ _ G v Hk) as (w & Hw & Ht & _ & Hr).
  unfold reuse_library. rewrite (lbind_step _ _ st w st) by (unfold lread; by rewrite Hw).
  assert (Hadd : match (do* AddRef v in lret v) st with
                 | Ret u st' => u = v /\ keeps temps [] st' /\ v ∈ known_libraries_ st'
                 | Fail _ st' => st' = st
                 | Crash => True
                 end).
  { rewrite (lbind_step (AddRef v) _ st tt (set_views (<[v := add_ref 1 w]> (k_views st)) st))
      by (unfold AddRef; by rewrite Hw).
    split; [done|]. split; [|done]. exists cs. apply registry_count; [done|done| |]; intros H;
      [by apply not_elem_of_nil in H|specialize (Hr H); lia]. }
  destruct (load_addr =? 0); [exact Hadd|]. destruct (negb (IsCrazy w)); [done|].
  unfold lbind at 1 2, lread. destruct (k_libs st !! crazy_ w) as [lib|]; [|done].
  destruct (negb (load_address lib =? load_addr)); [done|exact Hadd].
Qed.

Lemma make_view_step f st :
  make_view f st = Ret (new_view st) (set_views (<[new_view st := f new_LibraryView]> (k_views st)) st).
Proof. done. Qed.

(** A new handle of a system library. *)
Lemma system_view_registry temps h name :
  loads (let* v := make_view (SetSystem h name) in do* AddLibrary v in lret v) temps.
Proof.
  intros st [cs G].
  rewrite (lbind_step _ _ _ _ _ (make_view_step _ st)), (lbind_step (AddLibrary _) _ _ tt _ eq_refl).
  destruct (new_view_fresh st) as [_ Hf]. split; [|cbn; apply elem_of_app; right; by left].
  exists cs. eapply (registry_new_view _ _ _ _ cs _ _ (new_view st) (SetSystem h name new_LibraryView) G); cbn; try done;
    [|apply G..].
  intros c. naive_solver.
Qed.

Lemma load_system_registry temps name mode : loads (load_system name mode) temps.
Proof.
  intros st G. unfold load_system. destruct (sys_dlopen name mode) as [h|]; [|done].
  by apply system_view_registry.
Qed.

Lemma on_lib_registry temps p {B} (c : M lib_state B) :
  p ∈ temps -> triple (keeps temps []) (on_lib p c) (fun _ => keeps temps []) (fun _ => keeps temps []).
Proof.
  intros Hp st [cs G]. unfold on_lib. destruct (k_libs st !! p) as [l|]; [|done].
  destruct (c (l, k_proc st)) as [x [l' pr]|e [l' pr]|]; [| |done];
    apply keeps_proc; exists cs; by apply registry_set_temp.
Qed.

Lemma find_path_registry temps name :
  triple (keeps temps []) (find_full_path name) (fun _ => keeps temps []) (fun _ => keeps temps []).
Proof.
  assert (Hp : forall st paths, keeps temps [] st -> keeps temps [] (set_paths paths st)).
  { intros st paths [cs G]. exists cs. by apply (registry_ext _ _ _ st). }
  intros st G. unfold find_full_path. case_bool_decide.
  - destruct (FindFile name (k_paths st)) as [[path|] paths]; by apply Hp.
  - by destruct (fs_is_file _).
Qed.

Definition linked_libs (p : Z) (cs : list Z) (libs : gmap Z SharedLibrary) : gmap Z SharedLibrary :=
  let libs := alter (set_links (default 0 (head cs)) 0) p libs in
  match cs with
  | [] => libs
  | q :: _ => alter (set_prev p) q libs
  end.

Lemma link_lib_run temps cs p st :
  registry temps [] cs st -> p ∈ temps ->
  link_lib p st = Ret tt (set_head p (set_libs (linked_libs p cs (k_libs st)) st)).
Proof.
  intros G Hp. destruct (g_temps _ _ _ _ G p Hp) as [_ [lib E]]. unfold link_lib, linked_libs.
  rewrite (lbind_step lget _ st st st eq_refl), (g_head _ _ _ _ G).
  rewrite (lbind_step _ _ _ _ _ (set_link_run _ p lib st E)).
  destruct cs as [|q cs]; cbn [head default]; [done|].
  assert (Hq : q <> 0 /\ is_Some (k_libs st !! q)).
  { split; [by apply (g_owner _ _ _ _ G q); left|]. apply (listed_exists _ _ _ _ _ G). by left. }
  rewrite (lbind_step _ _ _ _ _ (maybe_set_link _ q (set_libs (alter (set_links q 0) p (k_libs st)) st)
    ltac:(intros _; cbn; rewrite lookup_alter_is_Some; apply Hq))).
  cbn. by rewrite (proj2 (Z.eqb_neq q 0)) by apply Hq.
Qed.

Lemma linked_libs_some p cs libs x : is_Some (linked_libs p cs libs !! x) <-> is_Some (libs !! x).
Proof. unfold linked_libs. destruct cs; by rewrite !lookup_alter_is_Some. Qed.

Lemma linked_libs_chain temps cs p st :
  registry temps [] cs st -> p ∈ temps -> chain (linked_libs p cs (k_libs st)) 0 (p :: cs).
Proof.
  intros G Hp. destruct (g_temps _ _ _ _ G p Hp) as [_ [lib E]].
  pose proof (temp_not_listed _ _ _ _ p G Hp) as Hc.
  apply (chain_cons _ p cs (set_links (default 0 (head cs)) 0 lib)); try done.
  - apply G.
  - by rewrite lookup_alter_eq, E.
  - eapply chain_ext; [|apply G]. intros q Hq. rewrite lookup_alter_ne; [done|]. by intros ->.
Qed.

(** The new library becomes the first one of the list, and known. *)
Lemma publish_registry temps name p cs st :
  registry (p :: temps) [] cs st -> p ∉ temps ->
  registry temps [] (p :: cs)
    (let st := set_head p (set_libs (linked_libs p cs (k_libs st)) st) in
     let v := new_view st in
     set_known (known_libraries_ st ++ [v]) (set_views (<[v := SetCrazy p name new_LibraryView]> (k_views st)) st)).
Proof.
  intros G Hp. cbn zeta. set (st1 := set_head p _). destruct (new_view_fresh st1) as [_ Hf].
  eapply (registry_new_view _ _ _ _ _ st _ (new_view st1) (SetCrazy p name new_LibraryView) G); cbn; try done.
  - intros _. split; [by left|done].
  - intros q Hq. by right.
  - intros c. rewrite elem_of_cons. naive_solver.
  - apply list.NoDup_cons. split; [by apply (temp_not_listed _ _ _ _ p G); left|apply G].
  - apply (linked_libs_chain _ _ _ _ G). by left.
  - intros q. by rewrite linked_libs_some.
Qed.

Lemma finish_registry temps name p deps :
  p ∉ temps ->
  triple (keeps (p :: temps) []) (finish_load a raw name p deps)
    (fun v st => keeps temps [] st /\ v ∈ known_libraries_ st) (fun _ => keeps (p :: temps) []).
Proof.
  intros Hp. unfold finish_load.
  apply (triple_bind _ _ _ (fun _ => keeps (p :: temps) [])); [by intros st|intros st0].
  eapply triple_bind; [apply on_lib_registry; by left|intros ?].
  apply (triple_bind _ _ _ (fun _ => keeps (p :: temps) [])).
  { unfold fill_link_map. apply (triple_bind _ _ _ (fun _ => keeps (p :: temps) [])); [by apply triple_read|].
    intros lib. apply triple_on_rdebug. }
  intros ? st [cs G]. rewrite (lbind_step _ _ _ _ _ (link_lib_run _ _ _ _ G ltac:(by left))).
  rewrite (lbind_step _ _ _ _ _ (make_view_step _ _)), (lbind_step (AddLibrary _) _ _ tt _ eq_refl).
  pose proof (publish_registry temps name p cs st G Hp) as G'. cbn zeta in G'.
  unfold lbind at 1, call_lib. cbn [k_libs set_known set_views set_libs set_head].
  destruct (linked_libs p cs (k_libs st) !! p) as [lib|]; [|done].
  destruct (CallConstructors a lib _) as [pr|]; [|done]. split.
  - apply keeps_proc. by exists (p :: cs).
  - cbn. apply elem_of_app. right. by left.
Qed.

Lemma dependencies_registry temps base load p :
  (forall name, loads (load name) temps) ->
  triple (keeps temps []) (load_dependencies a base load p) (fun _ => keeps temps []) (fun _ => keeps temps []).
Proof.
  intros Hl st G. unfold load_dependencies.
  match goal with |- context [for_dependencies a fst p ?body _] =>
    assert (Hd : triple (fun x => keeps temps [] x.1) (for_dependencies a fst p body)
                   (fun _ x => keeps temps [] x.1) (fun _ x => keeps temps [] x.1)) end.
  { apply triple_for_dependencies. intros name [s deps] Hs. specialize (Hl name s Hs).
    destruct (load name s); [apply Hl|done|done]. }
  specialize (Hd (st, []) G). destruct (for_dependencies a fst p _ _) as [? []|? []|]; done.
Qed.

Lemma delete_temp_registry temps p st :
  keeps (p :: temps) [] st -> p ∉ temps -> keeps temps [] (delete_lib p st).
Proof.
  intros [cs G] Hp. unfold delete_lib. destruct (g_temps _ _ _ _ G p ltac:(by left)) as [_ [lib ->]].
  apply keeps_proc. exists cs. by apply registry_drop_temp.
Qed.

(** [LoadLibrary] keeps the registry, and returns a known library. *)
Lemma load_registry fuel temps name mode load_addr file_offset :
  loads (LoadLibrary a raw fuel name mode load_addr file_offset) temps.
Proof.
  revert temps name load_addr file_offset.
  induction fuel as [|fuel IH]; intros temps name load_addr file_offset st G; [done|]. cbn [LoadLibrary].
  rewrite (lbind_step lget _ st st st eq_refl). destruct (FindKnownLibrary name st) as [v|] eqn:Ek.
  { apply known_named_spec in Ek as [Hk _]. pose proof (reuse_registry temps v load_addr st G Hk) as H.
    destruct (reuse_library v load_addr st); [naive_solver|by subst|done]. }
  destruct (IsSystemLibrary name); [by apply load_system_registry|].
  destruct (new_lib_fresh st) as [H0 Hf]. rewrite (lbind_step make_lib _ st _ _ eq_refl).
  set (p := new_lib st) in *. destruct G as [cs0 G].
  assert (Hp : p ∉ temps) by (intros H; destruct (g_temps _ _ _ _ G p H) as [_ [x Hx]]; congruence).
  assert (G' : keeps (p :: temps) [] (set_libs (<[p := new_SharedLibrary]> (k_libs st)) st))
    by (exists cs0; by apply registry_add_temp).
  clear G Hf. revert G'. generalize (set_libs (<[p := new_SharedLibrary]> (k_libs st)) st). intros s Gs.
  unfold scoped. match goal with |- context [match ?c s with _ => _ end] =>
    assert (Hc : triple (keeps (p :: temps) []) c (fun v st => keeps temps [] st /\ v ∈ known_libraries_ st)
                   (fun _ => keeps (p :: temps) [])) end.
  { eapply triple_bind; [apply find_path_registry|intros path].
    eapply triple_bind; [apply on_lib_registry; by left|intros ?].
    apply (triple_bind _ _ _ (fun _ => keeps (p :: temps) [])); [|intros deps; by apply finish_registry].
    apply dependencies_registry. intros n. apply IH. }
  specialize (Hc s Gs). match goal with |- context [match ?c s with _ => _ end] => destruct (c s) as [v s'|e s'|] end;
    [done| |done]. by apply delete_temp_registry.
Qed.

End Loading.

(** ** Properties *)

(** The list at the start of the program. *)
Definition new_linker (paths : SearchPathList) (pr : process) : linker := mk_linker ∅ ∅ [] 0 paths [] pr.

Lemma registry_new paths pr : registry [] [] [] (new_linker paths pr).
Proof. split; cbn; try done; try set_solver; by apply NoDup_nil_2. Qed.

#[local] Existing Instance no_code.
#[local] Existing Instance demo_proc.
#[local] Existing Instance demo_files.
#[local] Existing Instance demo_system.

Definition empty_process : process := mk_process (mk_rstate no_space new_RDebug [] []) ∅ [].

(** C29: Unloading terminates.  A run of [UnloadLibrary] whose nesting may exceed
    the number of references to all the handles by one never runs out of it,
    whatever the dependencies, circular ones included, and a deeper nesting does
    not change the result. *)
Theorem UnloadLibrary_terminates a `{Kernel} `{FileSystem} `{Ashmem} `{ProcFs} raw `{Code} `{SystemLinker}
    `{Objects} fuel v st :
  (total (k_views st) < fuel)%nat ->
  (forall e st', UnloadLibrary a raw fuel v st <> Fail e st') /\
  UnloadLibrary a raw fuel v st = UnloadLibrary a raw (S (total (k_views st))) v st.
Proof.
  intros Hf. split; [|by apply unload_enough]. intros e st' E.
  pose proof (unload_bounded a raw fuel (total (k_views st)) v Hf st) as Hb. rewrite E in Hb.
  apply Hb. unfold bounded. lia.
Qed.

(** A library that is its own dependency. *)
Definition self_linker : linker :=
  set_views {[1 := SetCrazy 0x500 (str "libm.so") new_LibraryView]} (set_known [1] demo_linker).

Lemma UnloadLibrary_terminates_witness :
  UnloadLibrary arm [] 5 1 self_linker = UnloadLibrary arm [] 2 1 self_linker /\
  exists st', UnloadLibrary arm [] 2 1 self_linker = Ret tt st' /\ known_libraries_ st' = [].
Proof.
  split.
  - apply (UnloadLibrary_terminates arm [] 5 1 self_linker). vm_compute. lia.
  - eexists. split; [vm_compute; reflexivity|reflexivity].
Defined.
