(* ===== verification/Messages.v ===== *)
(** * Error messages

    Models [crazy_linker_error.cpp], [crazy_linker_thread.cpp] and their
    headers: the fixed-size buffer of the class [Error], and the two buffers of
    each thread that hold the messages of the [dlerror] wrapper. *)

From S2P Require Import Prelude.
Open Scope Z_scope.

(** The result of [printf] for a format and arguments; [None] when the
    behaviour is undefined, as for a conversion without an argument. *)
Class Printf := {
  printf : cstr -> list arg -> option cstr;
}.

(** A format without a conversion is printed as it is, and a [%s] alone prints its
    argument. *)
Class PrintfOk (P : Printf) : Prop := {
  printf_plain fmt : "%"%char ∉ fmt -> printf fmt [] = Some fmt;
  printf_string s : printf (str "%s") [AS s] = Some s;
}.

(** [vsnprintf(buf, size, ...)] leaves at most [size - 1] characters. *)
Definition vsnprintf `{Printf} (size : nat) (fmt : cstr) (args : list arg) : option cstr :=
  take (size - 1) <$> printf fmt args.

(** ** [Error] *)

Module ErrorBuffer.

Definition kSize : nat := 512.

Section Ops.
Context `{Printf}.

(** The content of [buff_], without its NUL. *)
Definition new_Error : cstr := [].

Definition Set_ (message : option cstr) (buff : cstr) : cstr := take (kSize - 1) (default [] message).

(** [strlcat] *)
Definition Append (message : option cstr) (buff : cstr) : cstr :=
  match message with
  | None => buff
  | Some message => take (kSize - 1) (buff ++ message)
  end.

Definition Format (fmt : cstr) (args : list arg) (buff : cstr) : option cstr := vsnprintf kSize fmt args.

Definition AppendFormat (fmt : cstr) (args : list arg) (buff : cstr) : option cstr :=
  app buff <$> vsnprintf (kSize - length buff) fmt args.

End Ops.

End ErrorBuffer.

(** ** [ThreadData] *)

Definition kBufferSize : nat := 512.

(** [dlerror_] is the index of the current buffer. *)
Record ThreadData := mk_ThreadData {
  dlerror_ : bool;
  buffer0 : cstr;
  buffer1 : cstr;
}.

(** The string in the buffer of an index. *)
Definition buffer (b : bool) (t : ThreadData) : cstr := if b then buffer1 t else buffer0 t.

Definition set_buffer (b : bool) (s : cstr) (t : ThreadData) : ThreadData :=
  if b then mk_ThreadData (dlerror_ t) (buffer0 t) s else mk_ThreadData (dlerror_ t) s (buffer1 t).

Section Ops.
Context `{Printf}.

(** [calloc] and [ThreadData::Init] *)
Definition new_ThreadData : ThreadData := mk_ThreadData false [] [].

(** [ThreadData::GetError]: the buffer that the returned pointer is in. *)
Definition GetError (t : ThreadData) : bool := dlerror_ t.

(** [ThreadData::SwapErrorBuffers] *)
Definition SwapErrorBuffers (t : ThreadData) : ThreadData :=
  let t := mk_ThreadData (negb (dlerror_ t)) (buffer0 t) (buffer1 t) in
  set_buffer (dlerror_ t) [] t.

(** [ThreadData::SetErrorArgs], the whole of [SetError] and [SetLinkerError]; the
    format may be [NULL]. *)
Definition SetErrorArgs (fmt : option cstr) (args : list arg) (t : ThreadData) : option ThreadData :=
  match fmt with
  | None => Some (set_buffer (dlerror_ t) [] t)
  | Some fmt => (fun s => set_buffer (dlerror_ t) s t) <$> vsnprintf kBufferSize fmt args
  end.

(** [ThreadData::AppendErrorArgs] *)
Definition AppendErrorArgs (fmt : option cstr) (args : list arg) (t : ThreadData) : option ThreadData :=
  match fmt with
  | None => Some t
  | Some fmt =>
      let s := buffer (dlerror_ t) t in
      (fun r => set_buffer (dlerror_ t) (s ++ r) t) <$> vsnprintf (kBufferSize - length s) fmt args
  end.

(** [WrapDlerror]: the buffer of the returned pointer. *)
Definition WrapDlerror (t : ThreadData) : bool * ThreadData := (GetError t, SwapErrorBuffers t).

(** ** Sequences of operations *)

(** What happens between two calls of [dlerror]. *)
Inductive message_op := OpSet (fmt : option cstr) (args : list arg) | OpAppend (fmt : option cstr) (args : list arg).

Definition run_op (t : ThreadData) (o : message_op) : option ThreadData :=
  match o with
  | OpSet fmt args => SetErrorArgs fmt args t
  | OpAppend fmt args => AppendErrorArgs fmt args t
  end.

Fixpoint run_ops (t : ThreadData) (os : list message_op) : option ThreadData :=
  match os with
  | [] => Some t
  | o :: os => match run_op t o with Some t => run_ops t os | None => None end
  end.

(** Both buffers hold a string with its NUL. *)
Definition fits_buffers (t : ThreadData) : Prop :=
  (length (buffer0 t) < kBufferSize)%nat /\ (length (buffer1 t) < kBufferSize)%nat.

Lemma buffer_set b c s t : buffer b (set_buffer c s t) = if decide (b = c) then s else buffer b t.
Proof. by destruct b, c. Qed.

Lemma vsnprintf_length size fmt args r :
  (0 < size)%nat -> vsnprintf size fmt args = Some r -> (length r < size)%nat.
Proof. intros Hs. unfold vsnprintf. intros (s & _ & ->)%fmap_Some. rewrite length_take. lia. Qed.

Lemma fits_buffer t b : fits_buffers t -> (length (buffer b t) < kBufferSize)%nat.
Proof. intros [H0 H1]. by destruct b. Qed.

Lemma fits_set b s t : fits_buffers t -> (length s < kBufferSize)%nat -> fits_buffers (set_buffer b s t).
Proof. intros [H0 H1] Hs. by destruct b. Qed.

Lemma run_op_spec t o t' :
  fits_buffers t -> run_op t o = Some t' ->
  fits_buffers t' /\ dlerror_ t' = dlerror_ t /\ buffer (negb (dlerror_ t)) t' = buffer (negb (dlerror_ t)) t.
Proof.
  assert (Hset : forall s, fits_buffers t -> (length s < kBufferSize)%nat ->
            let t' := set_buffer (dlerror_ t) s t in
            fits_buffers t' /\ dlerror_ t' = dlerror_ t /\
            buffer (negb (dlerror_ t)) t' = buffer (negb (dlerror_ t)) t).
  { intros s Hf Hs. split; [by apply fits_set|]. by destruct t as [[] ? ?]. }
  intros Hf. destruct o as [[fmt|] args|[fmt|] args]; unfold run_op, SetErrorArgs, AppendErrorArgs; cbn zeta.
  - intros (r & Hr & ->)%fmap_Some. apply Hset; [done|]. eapply vsnprintf_length; [|done]. unfold kBufferSize. lia.
  - intros [= <-]. apply Hset; [done|]. cbn. unfold kBufferSize. lia.
  - intros (r & Hr & ->)%fmap_Some. pose proof (fits_buffer t (dlerror_ t) Hf).
    apply vsnprintf_length in Hr; [|lia]. apply Hset; [done|]. rewrite length_app. lia.
  - by intros [= <-].
Qed.

Lemma run_ops_spec os t t' :
  fits_buffers t -> run_ops t os = Some t' ->
  fits_buffers t' /\ dlerror_ t' = dlerror_ t /\ buffer (negb (dlerror_ t)) t' = buffer (negb (dlerror_ t)) t.
Proof.
  revert t. induction os as [|o os IH]; intros t Hf; cbn; [by intros [= <-]|].
  destruct (run_op t o) as [t1|] eqn:E; [|done]. intros Hr.
  destruct (run_op_spec t o t1 Hf E) as (Hf1 & Hd & Hb). destruct (IH t1 Hf1 Hr) as (? & Hd' & Hb').
  rewrite Hd in *. by rewrite Hb'.
Qed.

End Ops.

(** ** Properties *)

(** The strings of [dlerror].  After any messages of a thread, the buffers are
    not overrun; [dlerror] returns the last message and clears the current one;
    and whatever messages are set or appended afterwards, the returned string
    stays as it is until the next call of [dlerror]. *)
Theorem dlerror_string_stable `{Printf} t os1 t1 os2 t2 :
  fits_buffers t -> run_ops t os1 = Some t1 ->
  run_ops (WrapDlerror t1).2 os2 = Some t2 ->
  fits_buffers t2 /\
  buffer (GetError (WrapDlerror t1).2) (WrapDlerror t1).2 = [] /\
  buffer (WrapDlerror t1).1 t2 = buffer (GetError t1) t1 /\
  (WrapDlerror t2).1 <> (WrapDlerror t1).1.
Proof.
  intros Hf H1 H2. destruct (run_ops_spec os1 t t1 Hf H1) as (Hf1 & _ & _).
  assert (Hf1' : fits_buffers (WrapDlerror t1).2).
  { destruct t1 as [b s0 s1], Hf1. unfold fits_buffers, kBufferSize in *. destruct b; cbn in *; lia. }
  destruct (run_ops_spec os2 _ t2 Hf1' H2) as (Hf2 & Hd & Hb). split; [done|].
  destruct t1 as [b s0 s1]. cbn in *. unfold GetError. rewrite Hd. by destruct b.
Qed.

#[local] Instance plain_printf : Printf := {|
  printf fmt args := match args with [] => Some fmt | [AS s] => Some s | _ => None end
|}.

Lemma dlerror_string_stable_witness :
  let t1 := set_buffer false (str "first") new_ThreadData in
  exists t2, run_ops (WrapDlerror t1).2 [OpSet (Some (str "second")) []] = Some t2 /\
    buffer (WrapDlerror t1).1 t2 = str "first" /\ buffer (GetError t2) t2 = str "second".
Proof.
  cbn zeta. eexists. split; [reflexivity|]. split; [|reflexivity].
  refine (proj1 (proj2 (proj2 (dlerror_string_stable new_ThreadData [OpSet (Some (str "first")) []] _
    [OpSet (Some (str "second")) []] _ _ _ _)))); [|reflexivity|reflexivity].
  unfold fits_buffers, kBufferSize. cbn. lia.
Defined.
