(* ===== verification/Api.v ===== *)
(** * The interface of the crazy linker

    Models [crazy_linker_api.cpp] (the C functions of [crazy_linker.h]),
    [crazy_linker_wrappers.cpp] (the functions that replace those of the system
    linker in loaded libraries) and [crazy_linker_globals.cpp]: the state of the
    whole program, its operations, and the registry of libraries under any
    sequence of them.  Each operation runs under the global lock and is one step. *)

From S2P Require Import Prelude Kernel ElfTraits LinkerPhdr ElfLoader ElfView ElfSymbols.
From S2P Require Import Relocations Util SearchPath LineReader ProcMaps Relro RDebug SharedLibrary.
From S2P Require Import LibraryList Registry Messages.
Open Scope Z_scope.
Open Scope ndk_scope.

(** ** The state *)

(** [crazy_context_t]; the poster and its argument are addresses. *)
Record crazy_context_t := mk_crazy_context_t {
  c_load_address : Z;
  c_file_offset : Z;
  c_error : cstr;
  c_search_paths : SearchPathList;
  c_java_vm : Z;
  c_minimum_jni_version : Z;
  c_callback_poster : Z;
  c_callback_poster_opaque : Z;
}.

Definition set_c_error (e : cstr) (c : crazy_context_t) : crazy_context_t :=
  mk_crazy_context_t (c_load_address c) (c_file_offset c) e (c_search_paths c) (c_java_vm c)
    (c_minimum_jni_version c) (c_callback_poster c) (c_callback_poster_opaque c).

Definition set_c_paths (paths : SearchPathList) (c : crazy_context_t) : crazy_context_t :=
  mk_crazy_context_t (c_load_address c) (c_file_offset c) (c_error c) paths (c_java_vm c)
    (c_minimum_jni_version c) (c_callback_poster c) (c_callback_poster_opaque c).

(** The object [Globals], with the data of the current thread and the contexts
    by address.  The members [libraries_] and [rdebug_] are in the linker. *)
Record api := mk_api {
  ap_linker : linker;
  ap_paths : SearchPathList;
  ap_thread : ThreadData;
  ap_contexts : gmap Z crazy_context_t;
}.

Definition set_ap_linker (lk : linker) (st : api) : api :=
  mk_api lk (ap_paths st) (ap_thread st) (ap_contexts st).

Definition set_ap_thread (t : ThreadData) (st : api) : api :=
  mk_api (ap_linker st) (ap_paths st) t (ap_contexts st).

Definition set_ap_contexts (cs : gmap Z crazy_context_t) (st : api) : api :=
  mk_api (ap_linker st) (ap_paths st) (ap_thread st) cs.

(** What the program uses of the system: the environment, the functions of the
    system linker on a null path and on addresses, its error message after a
    failure, and its special handles. *)
Inductive sysop := SysDlopen (path : option cstr) (mode : Z) | SysDlsym (handle : Z) (name : cstr)
| SysDladdr (address : Z).

Record Dl_info := mk_Dl_info {
  dli_fname : cstr;
  dli_fbase : Z;
  dli_sname : Z;
  dli_saddr : Z;
}.

Class SystemCalls := {
  sys_getenv : cstr -> option cstr;
  sys_dlopen_null : Z -> option Z;
  sys_dlerror : sysop -> option cstr;
  sys_dladdr : Z -> Z * option Dl_info;
  sys_find_exidx : Z -> Z * Z;
  RTLD_DEFAULT : Z;
  RTLD_NEXT : Z;
  RTLD_NOW : Z;
}.

Section Operations.
Context (a : arch) `{K : Kernel} `{FS : FileSystem} `{A : Ashmem} `{PF : ProcFs} (raw : cstr).
Context `{C : Code} `{SL : SystemLinker} `{OB : Objects} `{P : Printf} `{SC : SystemCalls}.
Context (fuel : nat).

(** ** Steps *)

(** An operation of the list of libraries. *)
Definition on_linker {B} (c : M linker B) : M api B := fun st =>
  match c (ap_linker st) with
  | Ret x lk => Ret x (set_ap_linker lk st)
  | Fail e lk => Fail e (set_ap_linker lk st)
  | Crash => Crash
  end.

(** [Globals::Globals] *)
Definition new_api (pr : process) : api :=
  mk_api (new_linker new_SearchPathList pr)
    (ResetFromEnv sys_getenv (str "LD_LIBRARY_PATH") new_SearchPathList) new_ThreadData ∅.

(** [SetLinkerError] *)
Definition SetLinkerError (fmt : option cstr) (args : list arg) : M api unit := fun st =>
  match SetErrorArgs fmt args (ap_thread st) with
  | Some t => Ret tt (set_ap_thread t st)
  | None => Crash
  end.

(** [SaveSystemError]: the message of the system is the format. *)
Definition SaveSystemError (op : sysop) : M api unit := SetLinkerError (sys_dlerror op) [].

(** Runs an operation with the search paths of [Globals]. *)
Definition with_global_paths {B} (c : M linker B) : M api B := fun st =>
  let back lk := mk_api lk (k_paths lk) (ap_thread st) (ap_contexts st) in
  match c (set_paths (ap_paths st) (ap_linker st)) with
  | Ret x lk => Ret x (back lk)
  | Fail e lk => Fail e (back lk)
  | Crash => Crash
  end.

(** ** The wrappers *)

(** The part of [WrapDlopen] that uses the system linker. *)
Definition system_dlopen (path : option cstr) (mode : Z) : M api Z :=
  match match path with Some p => sys_dlopen p mode | None => sys_dlopen_null mode end with
  | None => do* SaveSystemError (SysDlopen path mode) in lret 0
  | Some system_lib =>
      on_linker (
        let* v := make_view (SetSystem system_lib (default (str "<executable>") path)) in
        do* AddLibrary v in
        lret v)
  end.

(** [WrapDlopen] *)
Definition WrapDlopen (path : option cstr) (mode : Z) : M api Z :=
  match path with
  | None => system_dlopen None mode
  | Some p => fun st =>
      match with_global_paths (LoadLibrary a raw fuel p mode 0 0) st with
      | Ret v st => Ret v st
      | Fail _ st => system_dlopen path mode st
      | Crash => Crash
      end
  end.

(** [WrapDlsym] *)
Definition WrapDlsym (lib_handle : Z) (symbol_name : option cstr) : M api Z :=
  match symbol_name with
  | None => do* SetLinkerError (Some (str "dlsym: NULL symbol name")) [] in lret 0
  | Some symbol =>
      if lib_handle =? 0 then
        do* SetLinkerError (Some (str "dlsym: NULL library handle")) [] in lret 0
      else if (lib_handle =? RTLD_DEFAULT) || (lib_handle =? RTLD_NEXT) then
        do* SetLinkerError (Some (str "dlsym: RTLD_DEFAULT/RTLD_NEXT are not implemented!")) [] in lret 0
      else
        let* w := lread (fun st => k_views (ap_linker st) !! lib_handle) in
        if IsSystem w then
          let result := sys_dlsym (system_ w) symbol in
          do* (if result =? 0 then SaveSystemError (SysDlsym (system_ w) symbol) else lret tt) in
          lret result
        else if IsCrazy w then
          let* address := lread (fun st => FindSymbolFrom a symbol lib_handle (ap_linker st)) in
          if negb (address =? 0) then lret address
          else
            do* SetLinkerError (Some (str "dlsym: Could not find '%s' from library '%s'"))
                  [AS symbol; AS (name_ w)] in
            lret 0
        else
          do* SetLinkerError (Some (str "dlsym: Invalid library handle %p looking for '%s'"))
                [AZ lib_handle; AS symbol] in
          lret 0
  end.

(** [WrapDladdr]: the returned value, and the structure when it is written. *)
Definition WrapDladdr (address : Z) : M api (Z * option Dl_info) :=
  let* found := lread (fun st =>
    match FindLibraryForAddress a address (ap_linker st) with
    | None => Some None
    | Some v =>
        match k_views (ap_linker st) !! v with
        | None => None
        | Some w =>
            match k_libs (ap_linker st) !! crazy_ w with
            | None => None
            | Some lib =>
                match FindNearestSymbolForAddress a lib (k_space (ap_linker st)) address with
                | None => None
                | Some near =>
                    let '(sname, saddr, _) := default (0, 0, 0) near in
                    Some (Some (mk_Dl_info (base_name lib) (load_address lib) sname saddr))
                end
            end
        end
    end) in
  match found with
  | Some info => lret (0, Some info)
  | None =>
      let '(ret, info) := sys_dladdr address in
      do* (if negb (ret =? 0) then SaveSystemError (SysDladdr address) else lret tt) in
      lret (ret, info)
  end.

(** [WrapDlclose] *)
Definition WrapDlclose (lib_handle : Z) : M api Z :=
  if lib_handle =? 0 then
    do* SetLinkerError (Some (str "NULL library handle")) [] in lret (-1)
  else
    let* w := lread (fun st => k_views (ap_linker st) !! lib_handle) in
    if IsSystem w || IsCrazy w then
      do* on_linker (UnloadLibrary a raw fuel lib_handle) in lret 0
    else
      do* SetLinkerError (Some (str "Invalid library handle %p")) [AZ lib_handle] in lret (-1).

(** [WrapDl_unwind_find_exidx] *)
Definition WrapDl_unwind_find_exidx (pc : Z) : M api (Z * Z) :=
  let* found := lread (fun st => FindArmExIdx a pc (ap_linker st)) in
  if negb (found.1 =? 0) then lret found else lret (sys_find_exidx pc).

(** [WrapDl_iterate_phdr]; [system] is the function of the system. *)
Definition WrapDl_iterate_phdr {D} (cb : dl_phdr_info -> D -> Z * D) (system : D -> Z * D) (data : D)
    : M api (Z * D) :=
  let* r := lread (fun st => IteratePhdr a cb data (ap_linker st)) in
  if negb (r.1 =? 0) then lret r else lret (system r.2).

(** [WrapDlerror] *)
Definition dlerror : M api bool := fun st =>
  let '(b, t) := WrapDlerror (ap_thread st) in Ret b (set_ap_thread t st).

(** ** Contexts *)

Inductive crazy_status_t := CRAZY_STATUS_FAILURE | CRAZY_STATUS_SUCCESS.

(** [crazy_context_t::ResetSearchPaths] *)
Definition ResetSearchPaths (c : crazy_context_t) : crazy_context_t :=
  set_c_paths (ResetFromEnv sys_getenv (str "LD_LIBRARY_PATH") (c_search_paths c)) c.

(** The constructor of [crazy_context_t]. *)
Definition new_crazy_context_t : crazy_context_t :=
  ResetSearchPaths (mk_crazy_context_t 0 0 ErrorBuffer.new_Error new_SearchPathList 0 0 0 0).

(** [crazy_context_create]; [context] is the address of the new object. *)
Definition crazy_context_create (context : Z) : M api Z := fun st =>
  Ret context (set_ap_contexts (<[context := new_crazy_context_t]> (ap_contexts st)) st).

(** [crazy_context_destroy] *)
Definition crazy_context_destroy (context : Z) : M api unit := fun st =>
  Ret tt (set_ap_contexts (delete context (ap_contexts st)) st).

(** Reads and changes a context; a null or dangling pointer crashes. *)
Definition get_context (context : Z) : M api crazy_context_t := lread (fun st => ap_contexts st !! context).

Definition update_context (context : Z) (f : crazy_context_t -> crazy_context_t) : M api unit :=
  let* c := get_context context in
  fun st => Ret tt (set_ap_contexts (<[context := f c]> (ap_contexts st)) st).

Definition crazy_context_get_error (context : Z) : M api (option cstr) :=
  let* c := get_context context in
  lret (match c_error c with [] => None | e => Some e end).

Definition crazy_context_clear_error (context : Z) : M api unit :=
  update_context context (set_c_error (ErrorBuffer.Set_ (Some []) [])).

Definition crazy_context_set_load_address (context load_address : Z) : M api unit :=
  update_context context (fun c =>
    mk_crazy_context_t load_address (c_file_offset c) (c_error c) (c_search_paths c) (c_java_vm c)
      (c_minimum_jni_version c) (c_callback_poster c) (c_callback_poster_opaque c)).

Definition crazy_context_get_load_address (context : Z) : M api Z :=
  let* c := get_context context in lret (c_load_address c).

Definition crazy_context_set_file_offset (context file_offset : Z) : M api unit :=
  update_context context (fun c =>
    mk_crazy_context_t (c_load_address c) file_offset (c_error c) (c_search_paths c) (c_java_vm c)
      (c_minimum_jni_version c) (c_callback_poster c) (c_callback_poster_opaque c)).

Definition crazy_context_get_file_offset (context : Z) : M api Z :=
  let* c := get_context context in lret (c_file_offset c).

Definition crazy_context_add_search_path (context : Z) (file_path : cstr) : M api crazy_status_t :=
  do* update_context context (fun c => set_c_paths (AddPaths file_path (c_search_paths c)) c) in
  lret CRAZY_STATUS_SUCCESS.

(** [context->error.Format(...)], or an assignment of a message. *)
Definition format_error (context : Z) (e : Error) : M api unit :=
  let* c := get_context context in
  match e with
  | Msg fmt args =>
      match ErrorBuffer.Format (str fmt) args (c_error c) with
      | None => lcrash
      | Some s => update_context context (set_c_error s)
      end
  end.

(** The directory that [crazy_context_add_search_path_for_address] adds. *)
Definition directory_of (path : cstr) : option cstr :=
  match strrchr path slash with
  | Some p => if (S p <? length path)%nat then Some (take p path) else None
  | None => None
  end.

Definition crazy_context_add_search_path_for_address (context address : Z) : M api crazy_status_t :=
  let* found := lread (fun st =>
    @FindElfBinaryForAddress a (proc_text (k_space (ap_linker st))) proc_heap raw address 512) in
  match match found with Some (_, Some path) => directory_of path | _ => None end with
  | Some path => crazy_context_add_search_path context path
  | None =>
      do* format_error context (Msg "Could not find ELF binary at address @%p" [AZ address]) in
      lret CRAZY_STATUS_FAILURE
  end.

Definition crazy_context_reset_search_paths (context : Z) : M api unit :=
  update_context context ResetSearchPaths.

Definition crazy_context_set_java_vm (context java_vm minimum_jni_version : Z) : M api unit :=
  update_context context (fun c =>
    mk_crazy_context_t (c_load_address c) (c_file_offset c) (c_error c) (c_search_paths c) java_vm
      minimum_jni_version (c_callback_poster c) (c_callback_poster_opaque c)).

Definition crazy_context_get_java_vm (context : Z) : M api (Z * Z) :=
  let* c := get_context context in lret (c_java_vm c, c_minimum_jni_version c).

Definition crazy_context_set_callback_poster (context poster poster_opaque : Z) : M api unit :=
  update_context context (fun c =>
    mk_crazy_context_t (c_load_address c) (c_file_offset c) (c_error c) (c_search_paths c) (c_java_vm c)
      (c_minimum_jni_version c) poster poster_opaque).

Definition crazy_context_get_callback_poster (context : Z) : M api (Z * Z) :=
  let* c := get_context context in lret (c_callback_poster c, c_callback_poster_opaque c).

(** [crazy_callback_run] on the oldest callback that was posted. *)
Definition crazy_callback_run : M api unit := on_linker (on_rdebug (Run a raw)).

(** ** Libraries *)

Definition set_poster (poster : option Z) : M api unit := on_linker (on_rdebug (SetDelayedCallbackPoster poster)).

(** The constructor of [ScopedDelayedCallbackPoster]: whether it sets a poster. *)
Definition new_poster (context : Z) : M api bool :=
  if context =? 0 then lret false else
  let* c := get_context context in
  if negb (c_callback_poster c =? 0) then do* set_poster (Some context) in lret true else lret false.

(** Its scope: the destructor runs when the block is left. *)
Definition with_poster {B} (context : Z) (block : M api B) : M api B :=
  let* set := new_poster context in
  let* r := block in
  do* (if set : bool then set_poster None else lret tt) in
  lret r.

(** Runs an operation that sets the error of the context on failure. *)
Definition or_error {B} (context : Z) (c : M api B) : M api (option B) := fun st =>
  match c st with
  | Ret x st => Ret (Some x) st
  | Fail e st => (do* format_error context e in lret None) st
  | Crash => Crash
  end.

(** [LoadLibrary] with the search paths of the context. *)
Definition load_in_context (context : Z) (lib_name : cstr) : M api Z :=
  let* c := get_context context in
  fun st =>
    let back lk := mk_api lk (ap_paths st) (ap_thread st)
                     (<[context := set_c_paths (k_paths lk) c]> (ap_contexts st)) in
    match LoadLibrary a raw fuel lib_name RTLD_NOW (c_load_address c) (c_file_offset c)
            (set_paths (c_search_paths c) (ap_linker st)) with
    | Ret x lk => Ret x (back lk)
    | Fail e lk => Fail e (back lk)
    | Crash => Crash
    end.

(** [crazy_library_open]: the status, and [*library] when it is set. *)
Definition crazy_library_open (lib_name : cstr) (context : Z) : M api (option Z) :=
  with_poster context (
    let* wrap := or_error context (load_in_context context lib_name) in
    match wrap with
    | None => lret None
    | Some v =>
        let* c := get_context context in
        let* w := lread (fun st => k_views (ap_linker st) !! v) in
        if negb (c_java_vm c =? 0) && IsCrazy w then
          let* ok := or_error context (on_linker (on_lib (crazy_ w)
                       (SetJavaVM a (c_java_vm c) (c_minimum_jni_version c)))) in
          match ok with
          | Some _ => lret (Some v)
          | None => do* on_linker (UnloadLibrary a raw fuel v) in lret None
          end
        else lret (Some v)
    end).

(** [crazy_library_get_info] *)
Definition crazy_library_get_info (library context : Z) : M api (option (Z * Z * Z * Z)) :=
  if library =? 0 then
    do* format_error context (Msg "Invalid library file handle" []) in lret None
  else or_error context (on_linker (GetInfo library)).

(** An operation on the process. *)
Definition on_process {B} (c : M process B) : M api B := on_linker (fun lk =>
  match c (k_proc lk) with
  | Ret x pr => Ret x (set_proc pr lk)
  | Fail e pr => Fail e (set_proc pr lk)
  | Crash => Crash
  end).

(** [crazy_system_can_share_relro]; the region is closed at the end. *)
Definition crazy_system_can_share_relro : M api crazy_status_t := on_process (fun pr =>
  let back w := mk_process (RDebug.set_space (w_space w) (p_rs pr)) (w_dev w) (p_calls pr) in
  match ashmem_Allocate PAGE_SIZE None (mk_world (p_space pr) (p_dev pr)) with
  | None => Ret CRAZY_STATUS_FAILURE pr
  | Some (fd, w) =>
      let close w := back (mk_world (w_space w) (delete fd (w_dev w))) in
      match SetProtectionFlags fd PROT_READ w with
      | None => Ret CRAZY_STATUS_FAILURE (close w)
      | Some w =>
          let '(ok, w) := CheckFileDescriptorIsReadOnly fd w in
          Ret (if ok : bool then CRAZY_STATUS_SUCCESS else CRAZY_STATUS_FAILURE) (close w)
      end
  end).

(** The crazy library of a handle, or the failure of the RELRO functions. *)
Definition crazy_of (library context : Z) : M api (option Z) :=
  let invalid := do* format_error context (Msg "Invalid library file handle" []) in lret None in
  if library =? 0 then invalid else
  let* w := lread (fun st => k_views (ap_linker st) !! library) in
  if IsCrazy w then lret (Some (crazy_ w)) else invalid.

(** [crazy_library_create_shared_relro] *)
Definition crazy_library_create_shared_relro (library context load_address : Z) : M api (option (Z * Z * Z)) :=
  let* p := crazy_of library context in
  match p with
  | None => lret None
  | Some p =>
      let* lib := lread (fun st => k_libs (ap_linker st) !! p) in
      or_error context (on_process (CreateSharedRelro a lib load_address))
  end.

(** [crazy_library_use_shared_relro] *)
Definition crazy_library_use_shared_relro (library context relro_start relro_size relro_fd : Z)
    : M api crazy_status_t :=
  let* p := crazy_of library context in
  match p with
  | None => lret CRAZY_STATUS_FAILURE
  | Some p =>
      let* r := or_error context (on_linker (on_lib p (UseSharedRelro relro_start relro_size relro_fd))) in
      lret (match r with Some true => CRAZY_STATUS_SUCCESS | _ => CRAZY_STATUS_FAILURE end)
  end.

(** A handle that is found gets a reference. *)
Definition found_library (find : linker -> option Z) : M api (option Z) :=
  let* v := lread (fun st => Some (find (ap_linker st))) in
  match v with
  | None => lret None
  | Some v => do* on_linker (AddRef v) in lret (Some v)
  end.

Definition crazy_library_find_by_name (library_name : cstr) : M api (option Z) :=
  found_library (FindLibraryByName library_name).

Definition crazy_library_find_from_address (address : Z) : M api (option Z) :=
  found_library (FindLibraryForAddress a address).

(** [crazy_library_find_symbol]: the status and [*symbol_address]. *)
Definition crazy_library_find_symbol (library : Z) (symbol_name : cstr) : M api (crazy_status_t * Z) :=
  let* address := lread (fun st => LookupSymbol a symbol_name library (ap_linker st)) in
  lret (if address =? 0 then CRAZY_STATUS_FAILURE else CRAZY_STATUS_SUCCESS, address).

(** [crazy_linker_find_symbol] is not implemented. *)
Definition crazy_linker_find_symbol (symbol_name : cstr) : M api crazy_status_t := lret CRAZY_STATUS_FAILURE.

(** [crazy_library_close_with_context] *)
Definition crazy_library_close_with_context (library context : Z) : M api unit :=
  if library =? 0 then lret tt
  else with_poster context (on_linker (UnloadLibrary a raw fuel library)).

(** [crazy_library_close] *)
Definition crazy_library_close (library : Z) : M api unit := crazy_library_close_with_context library 0.

End Operations.

(** ** The registry under the interface *)

Section Sessions.
Context (a : arch) `{K : Kernel} `{FS : FileSystem} `{A : Ashmem} `{PF : ProcFs} (raw : cstr).
Context `{C : Code} `{SL : SystemLinker} `{OB : Objects} `{OK : !ObjectsOk OB} `{P : Printf} `{SC : SystemCalls}.
Context (fuel : nat).

(** The registry is consistent, and the handles of [vs] are known. *)
Definition sound (vs : list Z) (st : api) : Prop :=
  keeps [] [] (ap_linker st) /\ forall v, v ∈ vs -> v ∈ known_libraries_ (ap_linker st).

Local Notation stable vs c := (triple (sound vs) c (fun _ => sound vs) (fun _ => sound vs)).
Local Notation partly vs c := (triple (sound vs) c (fun _ => sound vs) (fun _ _ => True)).

(** An operation that leaves the linker alone. *)
Definition quiet {B} (c : M api B) : Prop :=
  forall st, match c st with
             | Ret _ st' | Fail _ st' => ap_linker st' = ap_linker st
             | Crash => True
             end.

Lemma quiet_stable {B} (c : M api B) vs : quiet c -> stable vs c.
Proof. intros H st G. specialize (H st). unfold sound in *. destruct (c st); by rewrite ?H. Qed.

Lemma quiet_bind {B D} (c : M api B) (k : B -> M api D) : quiet c -> (forall x, quiet (k x)) -> quiet (lbind c k).
Proof.
  intros Hc Hk st. specialize (Hc st). unfold lbind. destruct (c st) as [x s|e s|]; [|done|done].
  specialize (Hk x s). destruct (k x s); by rewrite ?Hk.
Qed.

Lemma quiet_read {B} (f : api -> option B) : quiet (lread f).
Proof. intros st. unfold lread. by destruct (f st). Qed.

Lemma quiet_ret {B} (x : B) : quiet (lret x).
Proof. by intros st. Qed.

Lemma quiet_update context f : quiet (update_context context f).
Proof. apply quiet_bind; [apply quiet_read|]. by intros c st. Qed.

Lemma quiet_format context e : quiet (format_error context e).
Proof.
  apply quiet_bind; [apply quiet_read|]. intros c. destruct e as [fmt args].
  destruct (ErrorBuffer.Format _ _ _); [apply quiet_update|by intros st].
Qed.

Lemma quiet_linker_error fmt args : quiet (SetLinkerError fmt args).
Proof. intros st. unfold SetLinkerError. by destruct (SetErrorArgs _ _ _). Qed.

(** An operation of the linker that keeps the registry and the known handles. *)
Lemma stable_on_linker {B} (c : M linker B) vs :
  triple (fun lk => keeps [] [] lk /\ forall v, v ∈ vs -> v ∈ known_libraries_ lk) c
    (fun _ lk => keeps [] [] lk /\ forall v, v ∈ vs -> v ∈ known_libraries_ lk)
    (fun _ lk => keeps [] [] lk /\ forall v, v ∈ vs -> v ∈ known_libraries_ lk) ->
  stable vs (on_linker c).
Proof. intros H st G. specialize (H (ap_linker st) G). unfold on_linker. by destruct (c (ap_linker st)). Qed.

(** Operations on the process, on the debugger's list, and on a library without
    its links. *)
Definition same_known {B} (c : M linker B) : Prop :=
  forall st, match c st with
             | Ret _ st' | Fail _ st' =>
                 known_libraries_ st' = known_libraries_ st /\ k_views st' = k_views st /\ head_ st' = head_ st /\
                 (forall p, links <$> k_libs st' !! p = links <$> k_libs st !! p)
             | Crash => True
             end.

Lemma same_known_stable {B} (c : M linker B) vs : same_known c -> stable vs (on_linker c).
Proof.
  intros H. apply stable_on_linker. intros lk [[cs G] Hv]. specialize (H lk).
  assert (Hk : forall lk', known_libraries_ lk' = known_libraries_ lk /\ k_views lk' = k_views lk /\
            head_ lk' = head_ lk /\ (forall p, links <$> k_libs lk' !! p = links <$> k_libs lk !! p) ->
            keeps [] [] lk' /\ forall v, v ∈ vs -> v ∈ known_libraries_ lk').
  { intros lk' (E1 & E2 & E3 & E4). split; [|by rewrite E1]. exists cs. apply (registry_ext _ _ _ lk); try done.
    intros p [l Hl]. specialize (E4 p). rewrite Hl in E4. cbn in E4.
    apply fmap_Some in E4 as (l' & -> & _). done. }
  destruct (c lk); [by apply Hk|by apply Hk|done].
Qed.

Lemma same_on_rdebug {B} (c : M rstate B) : same_known (on_rdebug c).
Proof. intros st. unfold on_rdebug. by destruct (c (p_rs (k_proc st))). Qed.

Lemma same_on_lib {B} p (c : M lib_state B) :
  (forall l pr, match c (l, pr) with
                | Ret _ (l', _) | Fail _ (l', _) => links l' = links l
                | Crash => True
                end) -> same_known (on_lib p c).
Proof.
  intros H st. unfold on_lib. destruct (k_libs st !! p) as [l|] eqn:El; [|done]. specialize (H l (k_proc st)).
  assert (Hq : forall l' q, links l' = links l -> links <$> <[p := l']> (k_libs st) !! q = links <$> k_libs st !! q).
  { intros l' q E. destruct (decide (q = p)) as [->|Hne].
    - rewrite lookup_insert_eq, El. cbn. by rewrite E.
    - by rewrite lookup_insert_ne. }
  destruct (c (l, k_proc st)) as [x [l' pr]|e [l' pr]|]; [| |done]; cbn; eauto 6.
Qed.

Lemma same_get_info v : same_known (GetInfo v).
Proof.
  intros st. unfold GetInfo. destruct (k_views st !! v) as [w|]; [|done]. destruct (negb (IsCrazy w)); [done|].
  by destruct (k_libs st !! crazy_ w).
Qed.

Lemma links_SetJavaVM vm version l pr :
  match SetJavaVM a vm version (l, pr) with
  | Ret _ (l', _) | Fail _ (l', _) => links l' = links l
  | Crash => True
  end.
Proof.
  unfold SetJavaVM. destruct (vm =? 0); [done|]. destruct (FindAddressForSymbol _ _ _ _) as [f|]; [|done].
  destruct (f =? 0); [done|]. destruct (code_jni _ _ _) as [n s]. by destruct (n <? version).
Qed.

Lemma links_UseSharedRelro start size fd l pr :
  match UseSharedRelro start size fd (l, pr) with
  | Ret _ (l', _) | Fail _ (l', _) => links l' = links l
  | Crash => True
  end.
Proof.
  unfold UseSharedRelro. destruct (_ || _); [done|]. destruct (relro_used_ l); [done|].
  destruct (_ || _); [done|]. by destruct (on_world _ _ _) as [[] []|e []|].
Qed.

Lemma partly_stable {B} (c : M api B) vs : stable vs c -> partly vs c.
Proof. intros H. by eapply triple_conseq. Qed.

Lemma partly_bind {B D} (c : M api B) (k : B -> M api D) vs :
  partly vs c -> (forall x, partly vs (k x)) -> partly vs (lbind c k).
Proof. intros Hc Hk. by eapply triple_bind. Qed.

Lemma partly_quiet {B} (c : M api B) vs : quiet c -> partly vs c.
Proof. intros H. by apply partly_stable, quiet_stable. Qed.

Lemma partly_same {B} (c : M linker B) vs : same_known c -> partly vs (on_linker c).
Proof. intros H. by apply partly_stable, same_known_stable. Qed.

(** The error of a failed operation goes to the context. *)
Lemma or_error_triple {B} context (c : M api B) (P0 : api -> Prop) Q vs :
  triple P0 c Q (fun _ => sound vs) ->
  triple P0 (or_error context c)
    (fun r st => match r with Some x => Q x st | None => sound vs st end) (fun _ _ => True).
Proof.
  intros H st Hp. specialize (H st Hp). unfold or_error. destruct (c st) as [x s|e s|]; [done| |done].
  pose proof (quiet_stable _ vs (quiet_format context e) s H) as Hf. unfold lbind.
  by destruct (format_error context e s).
Qed.

Lemma partly_set_poster poster vs : partly vs (set_poster poster).
Proof. apply partly_same, same_on_rdebug. Qed.

Lemma partly_with_poster {B} context (block : M api B) vs vs' :
  triple (sound vs) block (fun _ => sound vs') (fun _ _ => True) ->
  triple (sound vs) (with_poster context block) (fun _ => sound vs') (fun _ _ => True).
Proof.
  intros Hb. unfold with_poster. apply (triple_bind _ _ _ (fun _ => sound vs)).
  - unfold new_poster. destruct (context =? 0); [apply partly_quiet, quiet_ret|].
    apply partly_bind; [apply partly_quiet, quiet_read|intros c].
    destruct (negb _); [|apply partly_quiet, quiet_ret].
    apply partly_bind; [apply partly_set_poster|intros ?; apply partly_quiet, quiet_ret].
  - intros set. apply (triple_bind _ _ _ (fun _ => sound vs')); [done|intros r].
    apply partly_bind; [|intros ?; apply partly_quiet, quiet_ret].
    destruct set; [apply partly_set_poster|apply partly_quiet, quiet_ret].
Qed.

Lemma keeps_paths paths lk : keeps [] [] lk -> keeps [] [] (set_paths paths lk).
Proof. intros [cs G]. exists cs. by apply (registry_ext _ _ _ lk). Qed.

Lemma sound_handle v lk :
  keeps [] [] lk /\ v ∈ known_libraries_ lk -> keeps [] [] lk /\ forall u, u ∈ [v] -> u ∈ known_libraries_ lk.
Proof. intros [G Hv]. split; [done|]. by intros u ->%list_elem_of_singleton. Qed.

Lemma sound_weaken vs st : sound vs st -> sound [] st.
Proof. intros [G _]. split; [done|]. by intros v ?%not_elem_of_nil. Qed.

Lemma load_in_context_sound context name :
  triple (sound []) (load_in_context a raw fuel context name) (fun v => sound [v]) (fun _ => sound []).
Proof.
  intros st [G _]. unfold load_in_context, lbind, get_context, lread.
  destruct (ap_contexts st !! context) as [c|]; [|done].
  pose proof (load_registry a raw fuel [] name RTLD_NOW (c_load_address c) (c_file_offset c)
    (set_paths (c_search_paths c) (ap_linker st)) (keeps_paths _ _ G)) as H.
  destruct (LoadLibrary _ _ _ _ _ _ _ _) as [v lk|e lk|]; [by apply sound_handle| |done].
  split; [exact H|]. by intros v ?%not_elem_of_nil.
Qed.

Lemma global_load_sound p mode :
  triple (sound []) (with_global_paths (LoadLibrary a raw fuel p mode 0 0)) (fun _ => sound []) (fun _ => sound []).
Proof.
  intros st [G _]. unfold with_global_paths.
  pose proof (load_registry a raw fuel [] p mode 0 0 (set_paths (ap_paths st) (ap_linker st)) (keeps_paths _ _ G)) as H.
  destruct (LoadLibrary _ _ _ _ _ _ _ _) as [v lk|e lk|]; [| |done];
    (split; [apply H|by intros u ?%not_elem_of_nil]).
Qed.

Lemma unload_sound v : triple (sound [v]) (on_linker (UnloadLibrary a raw fuel v)) (fun _ => sound []) (fun _ _ => True).
Proof.
  intros st [G Hv]. unfold on_linker.
  pose proof (unload_registry a raw fuel [] [] v (ap_linker st) (conj G (Hv v ltac:(by left)))) as H.
  destruct (UnloadLibrary a raw fuel v (ap_linker st)); [|done|done].
  split; [exact H|]. by intros u ?%not_elem_of_nil.
Qed.

Lemma open_sound name context : partly [] (crazy_library_open a raw fuel name context).
Proof.
  apply partly_with_poster.
  eapply triple_bind; [apply or_error_triple, load_in_context_sound|]. intros [v|]; [|apply partly_quiet, quiet_ret].
  apply (triple_bind _ _ _ (fun _ => sound [v])); [apply partly_quiet, quiet_read|intros c].
  apply (triple_bind _ _ _ (fun _ => sound [v])); [apply partly_quiet, quiet_read|intros w].
  destruct (negb _ && _); [|by intros st ?%sound_weaken].
  eapply triple_bind; [apply or_error_triple, same_known_stable, same_on_lib, links_SetJavaVM|].
  intros [[]|]; [by intros st ?%sound_weaken|].
  eapply triple_bind; [apply unload_sound|]. intros ?. apply partly_quiet, quiet_ret.
Qed.

Lemma system_dlopen_sound path mode : partly [] (system_dlopen path mode).
Proof.
  unfold system_dlopen. destruct (match path with Some p => _ | None => _ end) as [h|].
  - intros st [G _]. unfold on_linker.
    pose proof (system_view_registry [] h (default (str "<executable>") path) (ap_linker st) G) as H.
    destruct (lbind (make_view _) _ _); [|done|done]. split; [apply H|]. by intros u ?%not_elem_of_nil.
  - apply partly_bind; [apply partly_quiet, quiet_linker_error|intros ?; apply partly_quiet, quiet_ret].
Qed.

Lemma found_sound find :
  (forall lk v, find lk = Some v -> v ∈ known_libraries_ lk) -> partly [] (found_library find).
Proof.
  intros Hf st [[cs G] _]. unfold found_library, lbind at 1, lread.
  destruct (find (ap_linker st)) as [v|] eqn:E; [|by split; [exists cs|intros ? ?%not_elem_of_nil]].
  apply Hf in E. destruct (g_view _ _ _ _ G v E) as (w & Hw & _ & _ & Hr).
  unfold lbind, on_linker, AddRef. rewrite Hw. split; [|by intros ? ?%not_elem_of_nil].
  exists cs. apply registry_count; [done|done|by intros ?%not_elem_of_nil|].
  intros H. specialize (Hr H). lia.
Qed.

Lemma find_by_name_known name lk v : FindLibraryByName name lk = Some v -> v ∈ known_libraries_ lk.
Proof. unfold FindLibraryByName. case_bool_decide; [|done]. by intros [? _]%known_named_spec. Qed.

Lemma find_address_known address lk v : FindLibraryForAddress a address lk = Some v -> v ∈ known_libraries_ lk.
Proof. intros [Hin _]%find_some. by apply list_elem_of_In. Qed.

Lemma same_process {B} (c : M process B) :
  same_known (fun lk => match c (k_proc lk) with
                        | Ret x pr => Ret x (set_proc pr lk)
                        | Fail e pr => Fail e (set_proc pr lk)
                        | Crash => Crash
                        end).
Proof. intros lk. by destruct (c (k_proc lk)). Qed.

Lemma quiet_crazy_of library context : quiet (crazy_of library context).
Proof.
  assert (Hi : quiet (do* format_error context (Msg "Invalid library file handle" []) in lret (@None Z)))
    by (apply quiet_bind; [apply quiet_format|intros ?; apply quiet_ret]).
  unfold crazy_of. destruct (library =? 0); [done|]. apply quiet_bind; [apply quiet_read|intros w].
  destruct (IsCrazy w); [apply quiet_ret|done].
Qed.

(** ** Sessions *)

Ltac quiet_auto :=
  repeat first
    [ apply quiet_read | apply quiet_ret | apply quiet_linker_error | apply quiet_format | apply quiet_update
    | apply quiet_bind; [|intros ?]
    | match goal with
      | |- quiet (if ?b then _ else _) => destruct b
      | |- quiet (match ?x with _ => _ end) => destruct x
      | |- quiet (let '(_, _) := ?x in _) => destruct x
      end ].

(** The operations on contexts and on the messages of the thread, and those that
    only read the list. *)
Inductive context_call : forall {B}, M api B -> Prop :=
| do_create_context context : context_call (crazy_context_create context)
| do_destroy_context context : context_call (crazy_context_destroy context)
| do_get_error context : context_call (crazy_context_get_error context)
| do_clear_error context : context_call (crazy_context_clear_error context)
| do_set_load_address context address : context_call (crazy_context_set_load_address context address)
| do_get_load_address context : context_call (crazy_context_get_load_address context)
| do_set_file_offset context offset : context_call (crazy_context_set_file_offset context offset)
| do_get_file_offset context : context_call (crazy_context_get_file_offset context)
| do_add_search_path context path : context_call (crazy_context_add_search_path context path)
| do_add_search_path_for_address context address :
    context_call (crazy_context_add_search_path_for_address a raw context address)
| do_reset_search_paths context : context_call (crazy_context_reset_search_paths context)
| do_set_java_vm context vm version : context_call (crazy_context_set_java_vm context vm version)
| do_get_java_vm context : context_call (crazy_context_get_java_vm context)
| do_set_poster context poster opaque : context_call (crazy_context_set_callback_poster context poster opaque)
| do_get_poster context : context_call (crazy_context_get_callback_poster context)
| do_dlerror : context_call dlerror
| do_exidx pc : context_call (WrapDl_unwind_find_exidx a pc)
| do_iterate {D : Type} (cb : dl_phdr_info -> D -> Z * D) system (data : D) :
    context_call (WrapDl_iterate_phdr a cb system data).

(** The operations of a client, whatever they return: those of the interface, and
    those that loaded libraries reach through the wrappers.  A handle that is
    closed is null or known. *)
Inductive client (st : api) : forall {B}, M api B -> Prop :=
| do_open name context : client st (crazy_library_open a raw fuel name context)
| do_close library context : library = 0 \/ library ∈ known_libraries_ (ap_linker st) ->
    client st (crazy_library_close_with_context a raw fuel library context)
| do_info library context : client st (crazy_library_get_info library context)
| do_can_share : client st crazy_system_can_share_relro
| do_create library context address : client st (crazy_library_create_shared_relro a library context address)
| do_use library context start size fd :
    client st (crazy_library_use_shared_relro library context start size fd)
| do_find_name name : client st (crazy_library_find_by_name name)
| do_find_address address : client st (crazy_library_find_from_address a address)
| do_find_symbol library name : client st (crazy_library_find_symbol a library name)
| do_callback : client st (crazy_callback_run a raw)
| do_context {B} (c : M api B) : context_call c -> client st c
| do_dlopen path mode : client st (WrapDlopen a raw fuel path mode)
| do_dlsym handle name : client st (WrapDlsym a handle name)
| do_dladdr address : client st (WrapDladdr a address)
| do_dlclose handle : handle = 0 \/ handle ∈ known_libraries_ (ap_linker st) ->
    client st (WrapDlclose a raw fuel handle).

Inductive api_step (st st' : api) : Prop :=
| api_step_intro {B} (c : M api B) x : client st c -> c st = Ret x st' -> api_step st st'.

Lemma quiet_context {B} (c : M api B) : context_call c -> quiet c.
Proof.
  destruct 1; unfold crazy_context_get_error, crazy_context_clear_error, crazy_context_set_load_address,
    crazy_context_get_load_address, crazy_context_set_file_offset, crazy_context_get_file_offset,
    crazy_context_add_search_path_for_address, crazy_context_add_search_path, crazy_context_reset_search_paths,
    crazy_context_set_java_vm, crazy_context_get_java_vm, crazy_context_set_callback_poster,
    crazy_context_get_callback_poster, WrapDl_unwind_find_exidx, WrapDl_iterate_phdr; quiet_auto; by intros st.
Qed.

Lemma partly_or_error {B} context (c : M api B) : stable [] c -> partly [] (or_error context c).
Proof.
  intros H. eapply triple_conseq; [apply (or_error_triple context c _ _ [] H)|done| |done].
  by intros [x|] st Hs.
Qed.

Lemma create_sound library context address :
  partly [] (crazy_library_create_shared_relro a library context address).
Proof.
  apply partly_bind; [apply partly_quiet, quiet_crazy_of|]. intros [p|]; [|apply partly_quiet, quiet_ret].
  apply partly_bind; [apply partly_quiet, quiet_read|intros lib].
  apply partly_or_error, same_known_stable, same_process.
Qed.

Lemma use_sound library context start size fd :
  partly [] (crazy_library_use_shared_relro library context start size fd).
Proof.
  apply partly_bind; [apply partly_quiet, quiet_crazy_of|]. intros [p|]; [|apply partly_quiet, quiet_ret].
  apply partly_bind; [|intros ?; apply partly_quiet, quiet_ret].
  apply partly_or_error, same_known_stable, same_on_lib, links_UseSharedRelro.
Qed.

Lemma info_sound library context : partly [] (crazy_library_get_info library context).
Proof.
  unfold crazy_library_get_info. destruct (library =? 0); [apply partly_quiet; quiet_auto|].
  apply partly_or_error, same_known_stable, same_get_info.
Qed.

Lemma dlopen_sound path mode : partly [] (WrapDlopen a raw fuel path mode).
Proof.
  unfold WrapDlopen. destruct path as [p|]; [|apply system_dlopen_sound]. intros st G.
  pose proof (global_load_sound p mode st G) as H.
  destruct (with_global_paths _ st); [done|by apply system_dlopen_sound|done].
Qed.

Lemma quiet_dlsym handle name : quiet (WrapDlsym a handle name).
Proof. unfold WrapDlsym, SaveSystemError. quiet_auto. Qed.

Lemma quiet_dladdr address : quiet (WrapDladdr a address).
Proof. unfold WrapDladdr, SaveSystemError. quiet_auto. Qed.

Lemma close_sound library context st :
  sound [] st -> library = 0 \/ library ∈ known_libraries_ (ap_linker st) ->
  match crazy_library_close_with_context a raw fuel library context st with
  | Ret _ st' => sound [] st'
  | _ => True
  end.
Proof.
  intros G Hk. unfold crazy_library_close_with_context.
  destruct (Z.eqb_spec library 0) as [->|Hne]; [done|]. destruct Hk as [?|Hk]; [done|].
  apply (partly_with_poster context _ [library] [] (unload_sound library)). apply sound_handle. by destruct G.
Qed.

Lemma dlclose_sound handle st :
  sound [] st -> handle = 0 \/ handle ∈ known_libraries_ (ap_linker st) ->
  match WrapDlclose a raw fuel handle st with Ret _ st' => sound [] st' | _ => True end.
Proof.
  intros G Hk. unfold WrapDlclose. destruct (Z.eqb_spec handle 0) as [->|Hne].
  { apply (partly_quiet (do* SetLinkerError _ [] in lret (-1))); [quiet_auto|done]. }
  destruct Hk as [?|Hk]; [done|]. unfold lbind at 1, lread.
  destruct (k_views (ap_linker st) !! handle) as [w|]; [|done]. destruct (IsSystem w || IsCrazy w).
  - refine (triple_bind (sound [handle]) _ _ (fun _ => sound []) (fun _ => sound []) (fun _ _ => True)
      (unload_sound handle) _ st _); [intros ?; apply partly_quiet, quiet_ret|]. apply sound_handle. by destruct G.
  - apply (partly_quiet (do* SetLinkerError _ _ in lret (-1))); [quiet_auto|done].
Qed.

Lemma client_sound {B} st (c : M api B) x st' : client st c -> sound [] st -> c st = Ret x st' -> sound [] st'.
Proof.
  intros Hc G E. cut (match c st with Ret _ s => sound [] s | _ => True end); [by rewrite E|]. clear E.
  destruct Hc as [name context|library context Hk|library context| |library context address
    |library context start size fd|name|address|library name| |B c Hq|path mode|handle name|address|handle Hk].
  - by apply open_sound.
  - by apply close_sound.
  - by apply info_sound.
  - by apply (partly_same _ [] (same_process _)).
  - by apply create_sound.
  - by apply use_sound.
  - by apply (found_sound _ (find_by_name_known name)).
  - by apply (found_sound _ (find_address_known address)).
  - apply (partly_quiet (crazy_library_find_symbol a library name)); [unfold crazy_library_find_symbol; quiet_auto|done].
  - by apply (partly_same _ [] (same_on_rdebug _)).
  - by apply (partly_quiet _ [] (quiet_context c Hq)).
  - by apply dlopen_sound.
  - by apply (partly_quiet _ [] (quiet_dlsym handle name)).
  - by apply (partly_quiet _ [] (quiet_dladdr address)).
  - by apply dlclose_sound.
Qed.

End Sessions.

(** ** Properties *)


#[local] Existing Instance no_code.
#[local] Existing Instance demo_proc.
#[local] Existing Instance demo_files.
#[local] Existing Instance demo_system.
#[local] Existing Instance plain_printf.

#[local] Instance demo_calls : SystemCalls := {|
  sys_getenv _ := None;
  sys_dlopen_null _ := None;
  sys_dlerror _ := None;
  sys_dladdr _ := (0, None);
  sys_find_exidx _ := (0, 0);
  RTLD_DEFAULT := 0xffffffff;
  RTLD_NEXT := 0xfffffffe;
  RTLD_NOW := 0;
|}.

Definition session : api := set_ap_contexts {[1 := new_crazy_context_t]} (new_api empty_process).


(** The refusal of a virtual machine by a known library. *)
Record refused (a : arch) `{Code} `{Printf} (st : api) (context v : Z) (name e : cstr) (c : crazy_context_t)
    (w : LibraryView) (lib : SharedLibrary) (f version : Z) (s : aspace) : Prop := {
  r_context : ap_contexts st !! context = Some c;
  r_defaults : c_load_address c = 0 /\ c_callback_poster c = 0;
  r_known : FindKnownLibrary name (ap_linker st) = Some v;
  r_view : k_views (ap_linker st) !! v = Some w /\ type_ w = TYPE_CRAZY /\ 1 <= ref_count_ w;
  r_lib : k_libs (ap_linker st) !! crazy_ w = Some lib;
  r_vm : c_java_vm c <> 0;
  r_symbol : FindAddressForSymbol a lib (k_space (ap_linker st)) (str "JNI_OnLoad") = Some f /\ f <> 0;
  r_version : code_jni f (c_java_vm c) (k_space (ap_linker st)) = (version, s) /\ version < c_minimum_jni_version c;
  r_error : ErrorBuffer.Format (str "JNI_OnLoad() in %s returned %d, expected at least %d")
    [AS (SharedLibrary.full_path_ lib); AZ version; AZ (c_minimum_jni_version c)] (c_error c) = Some e;
}.

Lemma format_error_run `{Printf} context fmt args c e st :
  ap_contexts st !! context = Some c -> ErrorBuffer.Format (str fmt) args (c_error c) = Some e ->
  format_error context (Msg fmt args) st
  = Ret tt (set_ap_contexts (<[context := set_c_error e c]> (ap_contexts st)) st).
Proof.
  intros Hc He. unfold format_error, update_context, get_context, lbind, lread. rewrite Hc, He. by rewrite Hc.
Qed.

Section Refusal.
Context (a : arch) `{K : Kernel} `{FS : FileSystem} `{A : Ashmem} `{PF : ProcFs} (raw : cstr).
Context `{C : Code} `{SL : SystemLinker} `{OB : Objects} `{P : Printf} `{SC : SystemCalls}.
Context (fuel : nat) (st : api) (context v : Z) (name e : cstr) (c : crazy_context_t) (w : LibraryView)
  (lib : SharedLibrary) (f version : Z) (s : aspace).
Context (R : refused a st context v name e c w lib f version s).

Let lk1 : linker :=
  set_views (<[v := add_ref 1 w]> (k_views (ap_linker st))) (set_paths (c_search_paths c) (ap_linker st)).

Let pr2 : process :=
  mk_process (RDebug.set_space s (p_rs (k_proc (ap_linker st)))) (p_dev (k_proc (ap_linker st)))
    (p_calls (k_proc (ap_linker st)) ++ [JniOnLoad f (c_java_vm c)]).

Let lk2 : linker := set_proc pr2 (set_libs (<[crazy_ w := lib]> (k_libs lk1)) lk1).

Lemma refused_load :
  or_error context (load_in_context a raw (S fuel) context name) st
  = Ret (Some v) (mk_api lk1 (ap_paths st) (ap_thread st) (<[context := c]> (ap_contexts st))).
Proof.
  unfold or_error, load_in_context, get_context, lbind, lread. rewrite (r_context _ _ _ _ _ _ _ _ _ _ _ _ R).
  pose proof (r_view _ _ _ _ _ _ _ _ _ _ _ _ R) as [Hw _].
  pose proof (r_defaults _ _ _ _ _ _ _ _ _ _ _ _ R) as [Ha _].
  rewrite (reopen_core a raw fuel name RTLD_NOW _ _ (set_paths (c_search_paths c) (ap_linker st)) v w
    (r_known _ _ _ _ _ _ _ _ _ _ _ _ R) Hw (or_introl Ha)).
  by destruct c.
Qed.

Lemma refused_java st1 :
  ap_linker st1 = lk1 -> ap_contexts st1 !! context = Some c ->
  or_error context (on_linker (on_lib (crazy_ w) (SetJavaVM a (c_java_vm c) (c_minimum_jni_version c)))) st1
  = Ret None (set_ap_contexts (<[context := set_c_error e c]> (ap_contexts st1)) (set_ap_linker lk2 st1)).
Proof.
  intros El Ec. destruct (r_symbol _ _ _ _ _ _ _ _ _ _ _ _ R) as [Hs Hf].
  destruct (r_version _ _ _ _ _ _ _ _ _ _ _ _ R) as [Hj Hn].
  assert (E : on_lib (crazy_ w) (SetJavaVM a (c_java_vm c) (c_minimum_jni_version c)) lk1
    = Fail (Msg "JNI_OnLoad() in %s returned %d, expected at least %d"
              [AS (SharedLibrary.full_path_ lib); AZ version; AZ (c_minimum_jni_version c)]) lk2).
  { unfold on_lib. cbn [k_libs set_views set_paths lk1]. rewrite (r_lib _ _ _ _ _ _ _ _ _ _ _ _ R).
    unfold SetJavaVM. rewrite (proj2 (Z.eqb_neq _ _) (r_vm _ _ _ _ _ _ _ _ _ _ _ _ R)).
    change (p_space (k_proc lk1)) with (k_space (ap_linker st)). rewrite Hs, (proj2 (Z.eqb_neq _ _) Hf), Hj.
    by rewrite (proj2 (Z.ltb_lt _ _) Hn). }
  unfold or_error, on_linker. rewrite El, E. unfold lbind.
  by rewrite (format_error_run context _ _ c e) by (done || apply (r_error _ _ _ _ _ _ _ _ _ _ _ _ R)).
Qed.

Lemma refused_unload :
  exists lk3, UnloadLibrary a raw (S fuel) v lk2 = Ret tt lk3 /\
    k_views lk3 = k_views (ap_linker st) /\ k_libs lk3 = k_libs (ap_linker st) /\
    known_libraries_ lk3 = known_libraries_ (ap_linker st) /\ head_ lk3 = head_ (ap_linker st).
Proof.
  destruct (r_view _ _ _ _ _ _ _ _ _ _ _ _ R) as (Hw & Ht & Hr).
  eexists. split; [apply (close_shared a raw fuel lk2 v (add_ref 1 w)); cbn|].
  - apply lookup_insert_eq.
  - by rewrite Ht.
  - lia.
  - cbn. rewrite insert_insert_eq. split; [|split; [|done]].
    + apply insert_id. rewrite Hw. f_equal. destruct w. unfold add_ref. cbn. f_equal. lia.
    + apply insert_id. apply (r_lib _ _ _ _ _ _ _ _ _ _ _ _ R).
Qed.

Lemma refused_core :
  exists st', crazy_library_open a raw (S fuel) name context st = Ret None st' /\
    c_error <$> ap_contexts st' !! context = Some e /\
    k_views (ap_linker st') = k_views (ap_linker st) /\ k_libs (ap_linker st') = k_libs (ap_linker st) /\
    known_libraries_ (ap_linker st') = known_libraries_ (ap_linker st) /\
    head_ (ap_linker st') = head_ (ap_linker st).
Proof.
  destruct refused_unload as (lk3 & Eu & H3). destruct (r_view _ _ _ _ _ _ _ _ _ _ _ _ R) as (Hw & Ht & _).
  assert (Hp : new_poster context st = Ret false st).
  { unfold new_poster. destruct (context =? 0); [done|]. unfold get_context, lbind, lread.
    rewrite (r_context _ _ _ _ _ _ _ _ _ _ _ _ R). by rewrite (proj2 (r_defaults _ _ _ _ _ _ _ _ _ _ _ _ R)). }
  unfold crazy_library_open, with_poster. rewrite (lbind_step _ _ _ _ _ Hp).
  set (st1 := mk_api lk1 (ap_paths st) (ap_thread st) (<[context := c]> (ap_contexts st))).
  assert (Ec : ap_contexts st1 !! context = Some c) by apply lookup_insert_eq.
  exists (set_ap_linker lk3 (set_ap_contexts (<[context := set_c_error e c]> (ap_contexts st1)) (set_ap_linker lk2 st1))).
  split; [|split; [|exact H3]].
  - unfold lbind at 1 2. rewrite refused_load. fold st1.
    rewrite (lbind_step _ _ st1 c st1) by (unfold get_context, lread; by rewrite Ec).
    rewrite (lbind_step _ _ st1 (add_ref 1 w) st1) by (unfold lread; cbn; by rewrite lookup_insert_eq).
    rewrite (proj2 (Z.eqb_neq _ _) (r_vm _ _ _ _ _ _ _ _ _ _ _ _ R)).
    assert (Hc : IsCrazy (add_ref 1 w) = true) by (unfold IsCrazy; cbn; by rewrite Ht). rewrite Hc. cbn [negb andb].
    rewrite (lbind_step _ _ _ _ _ (refused_java st1 eq_refl Ec)).
    unfold lbind, on_linker at 1. cbn [ap_linker set_ap_contexts set_ap_linker]. rewrite Eu. reflexivity.
  - cbn. by rewrite lookup_insert_eq.
Qed.

End Refusal.

(** Refused by the library.  When [crazy_library_open] finds a known crazy
    library whose [JNI_OnLoad] returns too small a version, it fails with the
    message in the context and gives the reference back: the handles with their
    counts, the known libraries, their objects and the list are as before. *)
Theorem open_refused a `{Kernel} `{FileSystem} `{Ashmem} `{ProcFs} raw `{Code} `{SystemLinker}
    `{OB : Objects} `{Printf} `{SystemCalls} fuel st context v name e c w lib f version s :
  refused a st context v name e c w lib f version s ->
  exists st', crazy_library_open a raw (S fuel) name context st = Ret None st' /\
    c_error <$> ap_contexts st' !! context = Some e /\
    k_views (ap_linker st') = k_views (ap_linker st) /\ k_libs (ap_linker st') = k_libs (ap_linker st) /\
    known_libraries_ (ap_linker st') = known_libraries_ (ap_linker st) /\
    head_ (ap_linker st') = head_ (ap_linker st).
Proof. intros R. exact (refused_core a raw fuel st context v name e c w lib f version s R). Qed.

(** A library that defines [JNI_OnLoad]: a symbol table, a string table, and a
    hash table with one bucket. *)
Definition jni_bytes : list Z :=
  repeat 0 16 ++ flat_map (le_bytes 4) [1; 0x2000; 0] ++ [0x12; 0] ++ le_bytes 2 1
  ++ 0 :: map zc (str "JNI_OnLoad") ++ [0] ++ flat_map (le_bytes 4) [1; 0; 0].

Definition jni_library : SharedLibrary :=
  set_symbols (mk_ElfSymbols 0x1000 0x1020 0x102c 1 0x1030 2) new_SharedLibrary.

Definition jni_context : crazy_context_t :=
  mk_crazy_context_t 0 0 [] new_SearchPathList 0x100 0x10006 0 0.

Definition jni_session : api :=
  mk_api (mk_linker {[0x500 := jni_library]} {[1 := SetCrazy 0x500 (str "libj.so") new_LibraryView]} [1] 0x500
            new_SearchPathList [] (mk_process (mk_rstate (bytes_space 0x1000 PROT_READ jni_bytes) new_RDebug [] []) ∅ []))
    new_SearchPathList new_ThreadData {[9 := jni_context]}.

(** It supports an old version only; messages are printed without arguments. *)
#[local] Instance old_code : Code := {| code_run _ s := s; code_jni _ _ s := (0x10004, s) |}.

#[local] Instance bare_printf : Printf := {| printf fmt args := Some fmt |}.

Lemma open_refused_witness :
  exists st', crazy_library_open arm [] 1 (str "libj.so") 9 jni_session = Ret None st' /\
    k_views (ap_linker st') !! 1 = Some (SetCrazy 0x500 (str "libj.so") new_LibraryView).
Proof.
  destruct (open_refused arm [] 0 jni_session 9 1 (str "libj.so")
    (str "JNI_OnLoad() in %s returned %d, expected at least %d") jni_context
    (SetCrazy 0x500 (str "libj.so") new_LibraryView) jni_library 0x2000 0x10004 (k_space (ap_linker jni_session)))
    as (st' & E & _ & Hv & _).
  - split; try reflexivity; try (split; reflexivity || lia); try done.
  - exists st'. split; [exact E|]. rewrite Hv. reflexivity.
Defined.
