(* ===== verification/CpuFeatures.v ===== *)
(** * CPU features

    Models [sources/android/cpufeatures/cpu-features.c] and its header: the
    parsing of [/proc/cpuinfo], of the lists of CPUs of sysfs and of the
    auxiliary vector, the computation of the feature bits of each CPU family, and
    the state that is initialised once, by the first query or by
    [android_setCpu].  Files are their contents; the texts have no NULs. *)

From S2P Require Import Prelude Util.
Open Scope Z_scope.

(** ** The system *)

(** Files: the content of a path that can be opened, and whether a read at a
    position succeeds.  [getauxval] is the function of the C library, if it has
    one; [getprop_abi] is the first line that the command of
    [android_cpuInitRuntimeFamily] prints; [x86_cpuid] gives four registers. *)
Class Device := {
  dev_open : cstr -> option cstr;
  dev_read_ok : cstr -> nat -> bool;
  getauxval : option (Z -> Z);
  getprop_abi : option cstr;
  x86_cpuid : Z -> Z * Z * Z * Z;
}.

(** The target of the compilation. *)
Inductive target := T_arm | T_i386 | T_mips64 | T_mips | T_aarch64 | T_x86_64 | T_other.

Inductive AndroidCpuFamily :=
| ANDROID_CPU_FAMILY_UNKNOWN
| ANDROID_CPU_FAMILY_ARM
| ANDROID_CPU_FAMILY_X86
| ANDROID_CPU_FAMILY_MIPS
| ANDROID_CPU_FAMILY_ARM64
| ANDROID_CPU_FAMILY_X86_64
| ANDROID_CPU_FAMILY_MIPS64.

(** The value of the enumeration. *)
Definition family_value (f : AndroidCpuFamily) : Z :=
  match f with
  | ANDROID_CPU_FAMILY_UNKNOWN => 0
  | ANDROID_CPU_FAMILY_ARM => 1
  | ANDROID_CPU_FAMILY_X86 => 2
  | ANDROID_CPU_FAMILY_MIPS => 3
  | ANDROID_CPU_FAMILY_ARM64 => 4
  | ANDROID_CPU_FAMILY_X86_64 => 5
  | ANDROID_CPU_FAMILY_MIPS64 => 6
  end.

Definition ANDROID_CPU_ARM_FEATURE_ARMv7 : Z := 1.
Definition ANDROID_CPU_ARM_FEATURE_VFPv3 : Z := 2.
Definition ANDROID_CPU_ARM_FEATURE_NEON : Z := 4.
Definition ANDROID_CPU_ARM_FEATURE_LDREX_STREX : Z := 8.
Definition ANDROID_CPU_ARM_FEATURE_VFPv2 : Z := 16.
Definition ANDROID_CPU_ARM_FEATURE_VFP_D32 : Z := 32.
Definition ANDROID_CPU_ARM_FEATURE_VFP_FP16 : Z := 64.
Definition ANDROID_CPU_ARM_FEATURE_VFP_FMA : Z := 128.
Definition ANDROID_CPU_ARM_FEATURE_NEON_FMA : Z := 256.
Definition ANDROID_CPU_ARM_FEATURE_IDIV_ARM : Z := 512.
Definition ANDROID_CPU_ARM_FEATURE_IDIV_THUMB2 : Z := 1024.
Definition ANDROID_CPU_ARM_FEATURE_iWMMXt : Z := 2048.
Definition ANDROID_CPU_ARM_FEATURE_AES : Z := 4096.
Definition ANDROID_CPU_ARM_FEATURE_PMULL : Z := 8192.
Definition ANDROID_CPU_ARM_FEATURE_SHA1 : Z := 16384.
Definition ANDROID_CPU_ARM_FEATURE_SHA2 : Z := 32768.
Definition ANDROID_CPU_ARM_FEATURE_CRC32 : Z := 65536.

(** [flags & f] as a condition, and [flags |= f] under a condition. *)
Definition has (flags f : Z) : bool := negb (Z.land flags f =? 0).

Definition set_if (b : bool) (f flags : Z) : Z := if b then Z.lor flags f else flags.

Section Reading.
Context `{Device}.

(** The loop of [get_file_size] from a position. *)
Fixpoint size_from (fuel : nat) (pathname content : cstr) (pos : nat) : nat :=
  match fuel with
  | O => pos
  | S fuel =>
      if negb (dev_read_ok pathname pos) then pos
      else
        let ret := Nat.min 256 (length content - pos) in
        if (ret =? 0)%nat then pos else size_from fuel pathname content (pos + ret)
  end.

(** [get_file_size]; [None] is -1. *)
Definition get_file_size (pathname : cstr) : option nat :=
  match dev_open pathname with
  | None => None
  | Some content => Some (size_from (S (length content)) pathname content 0)
  end.

(** The loop of [read_file]: the number of bytes read, or [None] for -1. *)
Fixpoint read_from (fuel : nat) (pathname content : cstr) (buffsize count : nat) : option nat :=
  match fuel with
  | O => Some count
  | S fuel =>
      if (buffsize <=? count)%nat then Some count
      else if negb (dev_read_ok pathname count) then (if (count =? 0)%nat then None else Some count)
      else
        let ret := Nat.min (buffsize - count) (length content - count) in
        if (ret =? 0)%nat then Some count else read_from fuel pathname content buffsize (count + ret)
  end.

(** [read_file]: the bytes read. *)
Definition read_file (pathname : cstr) (buffsize : nat) : option cstr :=
  match dev_open pathname with
  | None => None
  | Some content =>
      (fun count => take count content) <$> read_from (S (length content)) pathname content buffsize 0
  end.

End Reading.

(** ** Parsing *)

(** [s] begins with [p]. *)
Fixpoint starts_with (p s : cstr) : bool :=
  match p, s with
  | [], _ => true
  | c :: p, d :: s => bool_decide (c = d) && starts_with p s
  | _ :: _, [] => false
  end.

(** [memmem]: the text before the first occurrence, and from it on. *)
Fixpoint memmem (s needle : cstr) : option (cstr * cstr) :=
  if starts_with needle s then Some ([], s)
  else match s with
       | [] => None
       | c :: s' => match memmem s' needle with
                    | Some (before, rest) => Some (c :: before, rest)
                    | None => None
                    end
       end.

(** The loop of [extract_cpuinfo_field] that looks for an occurrence at the start
    of a line; [prev] is the character before [p], [None] at the start. *)
Fixpoint find_field (fuel : nat) (prev : option ascii) (p field : cstr) : option cstr :=
  match fuel with
  | O => None
  | S fuel =>
      match memmem p field with
      | None => None
      | Some (before, rest) =>
          let prev := match list.last before with Some c => Some c | None => prev end in
          if bool_decide (prev = None \/ prev = Some newline) then Some rest
          else find_field fuel (list.last field) (drop (length field) rest) field
      end
  end.

(** [extract_cpuinfo_field]: [None] is a read after the end of the buffer. *)
Definition extract_cpuinfo_field (buffer field : cstr) : option (option cstr) :=
  match find_field (S (length buffer)) None buffer field with
  | None => Some None
  | Some p =>
      match memchr colon (drop (length field) p) with
      | None => Some None
      | Some (_, []) => None
      | Some (_, c :: p) =>
          if bool_decide (c = space)
          then Some (Some (match memchr newline p with Some (value, _) => value | None => p end))
          else Some None
      end
  end.

Definition blank (c : ascii) : bool := bool_decide (c = space) || bool_decide (c = tab).

(** The item at [p], and what follows it. *)
Fixpoint take_item (p : cstr) : cstr * cstr :=
  match p with
  | c :: p' => if blank c then ([], p) else let '(item, q) := take_item p' in (c :: item, q)
  | [] => ([], [])
  end.

(** The loop of [has_list_item]. *)
Fixpoint list_item_from (fuel : nat) (p item : cstr) : bool :=
  match fuel, p with
  | S fuel, _ :: _ =>
      let '(word, q) := take_item (skip_while blank p) in
      if bool_decide (word = item) then true else list_item_from fuel q item
  | _, _ => false
  end.

(** [has_list_item]; the list may be [NULL]. *)
Definition has_list_item (list : option cstr) (item : cstr) : bool :=
  match list with
  | None => false
  | Some list => list_item_from (length list) list item
  end.

(** The digit of a character, below 16. *)
Definition digit (c : ascii) : option Z :=
  let d := zc c - 48 in
  if (0 <=? d) && (d <? 10) then Some d
  else
    let d := zc c - 97 in
    if (0 <=? d) && (d <? 6) then Some (d + 10)
    else
      let d := zc c - 65 in
      if (0 <=? d) && (d <? 6) then Some (d + 10) else None.

(** The loop of [parse_number] on the text before the limit. *)
Fixpoint number_from (base val : Z) (p : cstr) : Z * cstr :=
  match p with
  | [] => (val, [])
  | c :: p' =>
      match digit c with
      | Some d => if base <=? d then (val, p) else number_from base (swrap 32 (val * base + d)) p'
      | None => (val, p)
      end
  end.

(** [parse_number]: the value and the rest of the text before the limit. *)
Definition parse_number (base : Z) (input : cstr) : option (Z * cstr) :=
  let '(val, p) := number_from base 0 input in
  if (length p =? length input)%nat then None else Some (val, p).

Definition parse_decimal (input : cstr) : option (Z * cstr) := parse_number 10 input.

Definition parse_hexadecimal (input : cstr) : option (Z * cstr) := parse_number 16 input.

(** ** Lists of CPUs *)

(** [cpulist_set]; a [CpuList] is its mask. *)
Definition cpulist_set (mask index : Z) : Z :=
  if (0 <=? index) && (index <? 32) then Z.lor mask (Z.shiftl 1 index) else mask.

Definition cpulist_and (mask1 mask2 : Z) : Z := Z.land mask1 mask2.

(** [__builtin_popcount] *)
Definition cpulist_count (mask : Z) : Z :=
  Z.of_nat (length (filter (fun i => Z.testbit mask i = true) (seqZ 0 32))).

(** The loop over a range; its counter overflows when the end is the greatest
    [int]. *)
Definition set_range (start_value end_value mask : Z) : option Z :=
  if (end_value =? 2 ^ 31 - 1) && (start_value <=? end_value) then None
  else Some (fold_left cpulist_set (seqZ start_value (end_value - start_value + 1)) mask).

(** An item: its first and its last value. *)
Definition parse_item (item : cstr) : option (Z * Z) :=
  match parse_decimal item with
  | None => None
  | Some (start_value, p) =>
      match p with
      | c :: p =>
          if bool_decide (c = dash)
          then match parse_decimal p with Some (end_value, _) => Some (start_value, end_value) | None => None end
          else Some (start_value, start_value)
      | [] => Some (start_value, start_value)
      end
  end.

(** The loop of [cpulist_parse]; [None] is the overflow of a range. *)
Fixpoint cpulist_from (fuel : nat) (mask : Z) (p : cstr) : option Z :=
  match fuel, p with
  | S fuel, c :: _ =>
      if bool_decide (c = newline) then Some mask
      else
        let '(item, next) := default (p, []) (memchr comma p) in
        match parse_item item with
        | None => Some mask
        | Some (start_value, end_value) =>
            match set_range start_value end_value mask with
            | None => None
            | Some mask => cpulist_from fuel mask next
            end
        end
  | _, _ => Some mask
  end.

(** [cpulist_parse] *)
Definition cpulist_parse (mask : Z) (line : cstr) : option Z := cpulist_from (S (length line)) mask line.

Section Device.
Context `{Device}.

(** [cpulist_read_from] *)
Definition cpulist_read_from (filename : cstr) : option Z :=
  match read_file filename 64 with
  | None => Some 0
  | Some file => cpulist_parse 0 file
  end.

(** [get_cpu_count] *)
Definition get_cpu_count : option Z :=
  match cpulist_read_from (str "/sys/devices/system/cpu/present"),
        cpulist_read_from (str "/sys/devices/system/cpu/possible") with
  | Some present, Some possible => Some (cpulist_count (cpulist_and present possible))
  | _, _ => None
  end.

End Device.

(** ** Hardware capabilities *)

Definition HWCAP_VFP : Z := 2 ^ 6.
Definition HWCAP_IWMMXT : Z := 2 ^ 9.
Definition HWCAP_NEON : Z := 2 ^ 12.
Definition HWCAP_VFPv3 : Z := 2 ^ 13.
Definition HWCAP_VFPv3D16 : Z := 2 ^ 14.
Definition HWCAP_VFPv4 : Z := 2 ^ 16.
Definition HWCAP_IDIVA : Z := 2 ^ 17.
Definition HWCAP_IDIVT : Z := 2 ^ 18.

Definition HWCAP_SET_FOR_ARMV8 : Z :=
  Z.lor (Z.lor (Z.lor (Z.lor (Z.lor HWCAP_VFP HWCAP_NEON) HWCAP_VFPv3) HWCAP_VFPv4) HWCAP_IDIVA) HWCAP_IDIVT.

Definition AT_HWCAP : Z := 16.
Definition AT_HWCAP2 : Z := 26.

(** The decimal digits at the start of a text: how many, and their value. *)
Fixpoint strtol_digits (n : nat) (val : Z) (p : cstr) : nat * Z :=
  match p with
  | c :: p' =>
      if (48 <=? zc c) && (zc c <=? 57) then strtol_digits (S n) (val * 10 + (zc c - 48)) p' else (n, val)
  | [] => (n, val)
  end.

(** [strtol] in base 10 with a [long] of 32 bits: the value, and whether a number
    was found ([end > start]). *)
Definition strtol (p : cstr) : Z * bool :=
  let '(negative, p) :=
    match skip_while isspace p with
    | c :: p' => if bool_decide (c = "-"%char) then (true, p')
                 else if bool_decide (c = "+"%char) then (false, p') else (false, c :: p')
    | [] => (false, [])
    end in
  let '(n, val) := strtol_digits 0 0 p in
  if (n =? 0)%nat then (0, false)
  else (Z.max (- 2 ^ 31) (Z.min (2 ^ 31 - 1) (if negative then - val else val)), true).

(** The hardware capabilities of the words of the Features line. *)
Definition feature_hwcaps (cpuFeatures : option cstr) : Z :=
  let item w := has_list_item cpuFeatures (str w) in
  set_if (item "iwmmxt"%string) HWCAP_IWMMXT
    (set_if (item "idiv"%string) (Z.lor HWCAP_IDIVA HWCAP_IDIVT)
      (set_if (item "idivt"%string) HWCAP_IDIVT
        (set_if (item "idiva"%string) HWCAP_IDIVA
          (set_if (item "neon"%string) HWCAP_NEON
            (set_if (item "vfpv4"%string) HWCAP_VFPv4
              (set_if (item "vfpv3d16"%string) HWCAP_VFPv3D16
                (set_if (item "vfpv3"%string) HWCAP_VFPv3
                  (set_if (item "vfp"%string) HWCAP_VFP 0)))))))).

(** [get_elf_hwcap_from_proc_cpuinfo]; [None] is a read after the end of the
    text. *)
Definition get_elf_hwcap_from_proc_cpuinfo (cpuinfo : cstr) : option Z :=
  match extract_cpuinfo_field cpuinfo (str "CPU architecture") with
  | None => None
  | Some cpuArch =>
      let architecture := match cpuArch with Some cpuArch => (strtol cpuArch).1 | None => 0 end in
      if 8 <=? architecture then Some HWCAP_SET_FOR_ARMV8
      else feature_hwcaps <$> extract_cpuinfo_field cpuinfo (str "Features")
  end.

(** The little-endian value of bytes. *)
Fixpoint le_value (bytes : cstr) : Z :=
  match bytes with
  | [] => 0
  | c :: bytes => zc c + 256 * le_value bytes
  end.

Section Init.
Context `{Device}.

(** [get_elf_hwcap_from_getauxval] *)
Definition get_elf_hwcap_from_getauxval (hwcap_type : Z) : Z :=
  match getauxval with
  | None => 0
  | Some func => func hwcap_type mod 2 ^ 32
  end.

(** The loop of [get_elf_hwcap_from_proc_self_auxv]: [entry] holds the bytes of
    the local structure, which a short read overwrites in part. *)
Fixpoint auxv_from (fuel : nat) (filepath content : cstr) (pos : nat) (entry : cstr) : Z :=
  match fuel with
  | O => 0
  | S fuel =>
      if negb (dev_read_ok filepath pos) then 0
      else
        let data := take 8 (drop pos content) in
        let entry := data ++ drop (length data) entry in
        let tag := le_value (take 4 entry) in
        let value := le_value (drop 4 entry) in
        if (length data =? 0)%nat || ((tag =? 0) && (value =? 0)) then 0
        else if tag =? AT_HWCAP then value
        else auxv_from fuel filepath content (pos + length data) entry
  end.

(** [get_elf_hwcap_from_proc_self_auxv]; [entry] is the local variable, which is
    not initialised. *)
Definition get_elf_hwcap_from_proc_self_auxv (entry : cstr) : Z :=
  let filepath := str "/proc/self/auxv" in
  match dev_open filepath with
  | None => 0
  | Some content => auxv_from (S (length content)) filepath content 0 entry
  end.

(** ** The families *)

(** [android_cpuInitFamily] *)
Definition android_cpuInitFamily (t : target) : AndroidCpuFamily :=
  match t with
  | T_arm => ANDROID_CPU_FAMILY_ARM
  | T_i386 => ANDROID_CPU_FAMILY_X86
  | T_mips64 => ANDROID_CPU_FAMILY_MIPS64
  | T_mips => ANDROID_CPU_FAMILY_MIPS
  | T_aarch64 => ANDROID_CPU_FAMILY_ARM64
  | T_x86_64 => ANDROID_CPU_FAMILY_X86_64
  | T_other => ANDROID_CPU_FAMILY_UNKNOWN
  end.

(** The text before the first end of line. *)
Fixpoint cut_line (s : cstr) : cstr :=
  match s with
  | c :: s => if bool_decide (c = "013"%char) || bool_decide (c = newline) then [] else c :: cut_line s
  | [] => []
  end.

(** [android_cpuInitRuntimeFamily] *)
Definition android_cpuInitRuntimeFamily : AndroidCpuFamily :=
  match getprop_abi with
  | None => ANDROID_CPU_FAMILY_UNKNOWN
  | Some line =>
      let abibuf := cut_line line in
      if bool_decide (abibuf = str "armeabi") || bool_decide (abibuf = str "armeabi-v7a")
      then ANDROID_CPU_FAMILY_ARM
      else if bool_decide (abibuf = str "x86") then ANDROID_CPU_FAMILY_X86
      else if bool_decide (abibuf = str "mips") then ANDROID_CPU_FAMILY_MIPS
      else if bool_decide (abibuf = str "arm64-v8a") then ANDROID_CPU_FAMILY_ARM64
      else if bool_decide (abibuf = str "x86_64") then ANDROID_CPU_FAMILY_X86_64
      else ANDROID_CPU_FAMILY_UNKNOWN
  end.

End Init.

(** ** Initialisation *)

(** The static variables; [g_once] tells whether the initialisation has run. *)
Record cpu_state := mk_cpu {
  g_once : bool;
  g_inited : bool;
  g_cpuFamily : AndroidCpuFamily;
  g_runtimeCpuFamily : AndroidCpuFamily;
  g_cpuFeatures : Z;
  g_cpuCount : Z;
  g_cpuIdArm : Z;
}.

Definition cpu_initial : cpu_state :=
  mk_cpu false false ANDROID_CPU_FAMILY_UNKNOWN ANDROID_CPU_FAMILY_UNKNOWN 0 0 0.

(** Whether the field of the architecture starts with a number from 7 on. *)
Definition arm_arch_7 (cpuArch : option cstr) : bool :=
  match cpuArch with
  | None => false
  | Some cpuArch => let '(archNumber, number) := strtol cpuArch in number && (7 <=? archNumber)
  end.

(** The features of the architecture of [/proc/cpuinfo]. *)
Definition arm_arch_features (cpuArch cpuProc : option cstr) (features : Z) : Z :=
  match cpuArch with
  | None => features
  | Some cpuArch =>
      let archNumber := (strtol cpuArch).1 in
      let hasARMv7 := arm_arch_7 (Some cpuArch) && negb (has_list_item cpuProc (str "(v6l)")) in
      set_if (6 <=? archNumber) ANDROID_CPU_ARM_FEATURE_LDREX_STREX
        (set_if hasARMv7 ANDROID_CPU_ARM_FEATURE_ARMv7 features)
  end.

(** The features of the capabilities. *)
Definition arm_hwcap_features (hwcaps features : Z) : Z :=
  if hwcaps =? 0 then features
  else
    let features :=
      set_if (has hwcaps HWCAP_VFPv4)
        (Z.lor (Z.lor ANDROID_CPU_ARM_FEATURE_VFPv3 ANDROID_CPU_ARM_FEATURE_VFP_FP16)
           ANDROID_CPU_ARM_FEATURE_VFP_FMA) features in
    let features :=
      set_if (has hwcaps HWCAP_VFPv3 || has hwcaps HWCAP_VFPv3D16) ANDROID_CPU_ARM_FEATURE_VFPv3 features in
    let features :=
      if has hwcaps HWCAP_VFP
      then if has features ANDROID_CPU_ARM_FEATURE_ARMv7
           then Z.lor features ANDROID_CPU_ARM_FEATURE_VFPv3
           else Z.lor features ANDROID_CPU_ARM_FEATURE_VFPv2
      else features in
    let features :=
      if has hwcaps HWCAP_NEON
      then set_if (has hwcaps HWCAP_VFPv4) ANDROID_CPU_ARM_FEATURE_NEON_FMA
             (Z.lor features
                (Z.lor (Z.lor ANDROID_CPU_ARM_FEATURE_VFPv3 ANDROID_CPU_ARM_FEATURE_NEON)
                   ANDROID_CPU_ARM_FEATURE_VFP_D32))
      else features in
    let features :=
      set_if (has features ANDROID_CPU_ARM_FEATURE_VFPv3)
        (Z.lor ANDROID_CPU_ARM_FEATURE_VFPv2 ANDROID_CPU_ARM_FEATURE_ARMv7) features in
    let features := set_if (has hwcaps HWCAP_IDIVA) ANDROID_CPU_ARM_FEATURE_IDIV_ARM features in
    let features := set_if (has hwcaps HWCAP_IDIVT) ANDROID_CPU_ARM_FEATURE_IDIV_THUMB2 features in
    set_if (has hwcaps HWCAP_IWMMXT) ANDROID_CPU_ARM_FEATURE_iWMMXt features.

(** The features of the second word of capabilities. *)
Definition arm_hwcap2_features (hwcaps2 features : Z) : Z :=
  let features := set_if (has hwcaps2 (2 ^ 0)) ANDROID_CPU_ARM_FEATURE_AES features in
  let features := set_if (has hwcaps2 (2 ^ 1)) ANDROID_CPU_ARM_FEATURE_PMULL features in
  let features := set_if (has hwcaps2 (2 ^ 2)) ANDROID_CPU_ARM_FEATURE_SHA1 features in
  let features := set_if (has hwcaps2 (2 ^ 3)) ANDROID_CPU_ARM_FEATURE_SHA2 features in
  set_if (has hwcaps2 (2 ^ 4)) ANDROID_CPU_ARM_FEATURE_CRC32 features.

(** An entry of the table of the CPUID: field, hexadecimal, shift, length. *)
Record CpuIdEntry := mk_id_entry { ie_field : cstr; ie_hex : bool; bit_lshift : Z; bit_length : Z }.

Definition cpu_id_entries : list CpuIdEntry :=
  [mk_id_entry (str "CPU implementer") true 24 8;
   mk_id_entry (str "CPU variant") true 20 4;
   mk_id_entry (str "CPU part") true 4 12;
   mk_id_entry (str "CPU revision") false 0 4].

(** The number of a value of [/proc/cpuinfo]. *)
Definition parse_id (hex : bool) (value : cstr) : option Z :=
  match value with
  | "0"%char :: c :: rest =>
      if bool_decide (c = "x"%char) || bool_decide (c = "X"%char)
      then fst <$> parse_hexadecimal rest
      else fst <$> (if hex then parse_hexadecimal value else parse_decimal value)
  | _ => fst <$> (if hex then parse_hexadecimal value else parse_decimal value)
  end.

(** The loop over the table; [None] is a read after the end of the text. *)
Fixpoint cpu_id (cpuinfo : cstr) (entries : list CpuIdEntry) (id : Z) : option Z :=
  match entries with
  | [] => Some id
  | entry :: entries =>
      match extract_cpuinfo_field cpuinfo (ie_field entry) with
      | None => None
      | Some value =>
          let val := match value with Some value => parse_id (ie_hex entry) value | None => None end in
          cpu_id cpuinfo entries
            (match val with
             | Some val =>
                 Z.lor id (Z.shiftl (Z.land val (2 ^ bit_length entry - 1)) (bit_lshift entry) mod 2 ^ 32)
             | None => id
             end)
      end
  end.

(** The table [cpu_fixes] and its loop. *)
Definition arm_cpu_fixes (id features : Z) : Z :=
  let or_flags := Z.lor ANDROID_CPU_ARM_FEATURE_IDIV_ARM ANDROID_CPU_ARM_FEATURE_IDIV_THUMB2 in
  set_if (id =? 0x510006f3) or_flags (set_if (id =? 0x510006f2) or_flags features).

(** The special case of the emulator. *)
Definition arm_goldfish (hardware : option cstr) (id : Z) (family : AndroidCpuFamily) (features : Z) : Z :=
  match hardware with
  | None => features
  | Some hardware =>
      set_if (bool_decide (hardware = str "Goldfish") && (id =? 0x4100c080) &&
              has (family_value family) ANDROID_CPU_ARM_FEATURE_ARMv7)
        ANDROID_CPU_ARM_FEATURE_IDIV_ARM features
  end.

(** The features of AArch64. *)
Definition arm64_features (hwcaps features : Z) : Z :=
  let features := set_if (has hwcaps (2 ^ 0)) (2 ^ 0) features in
  let features := set_if (has hwcaps (2 ^ 1)) (2 ^ 1) features in
  let features := set_if (has hwcaps (2 ^ 3)) (2 ^ 2) features in
  let features := set_if (has hwcaps (2 ^ 4)) (2 ^ 3) features in
  let features := set_if (has hwcaps (2 ^ 5)) (2 ^ 4) features in
  let features := set_if (has hwcaps (2 ^ 6)) (2 ^ 5) features in
  set_if (has hwcaps (2 ^ 7)) (2 ^ 6) features.

(** The features of MIPS. *)
Definition mips_features (hwcaps features : Z) : Z :=
  set_if (has hwcaps (2 ^ 1)) (2 ^ 1) (set_if (has hwcaps (2 ^ 0)) (2 ^ 0) features).

Section CpuInit.
Context `{Device}.

(** The features of x86. *)
Definition x86_features (features : Z) : Z :=
  let '(_, b, c, d) := x86_cpuid 0 in
  let vendorIsIntel := (b =? 0x756e6547) && (c =? 0x6c65746e) && (d =? 0x49656e69) in
  let '(_, _, regs2, _) := x86_cpuid 1 in
  let features := set_if (has regs2 (2 ^ 9)) (2 ^ 0) features in
  let features := set_if (has regs2 (2 ^ 23)) (2 ^ 1) features in
  let features := set_if (has regs2 (2 ^ 19)) (2 ^ 3) features in
  let features := set_if (has regs2 (2 ^ 20)) (2 ^ 4) features in
  set_if (vendorIsIntel && has regs2 (2 ^ 22)) (2 ^ 2) features.

(** The capabilities, from the first source that gives some. *)
Definition arm_hwcaps (cpuinfo entry : cstr) : option Z :=
  let hwcaps := get_elf_hwcap_from_getauxval AT_HWCAP in
  if negb (hwcaps =? 0) then Some hwcaps
  else
    let hwcaps := get_elf_hwcap_from_proc_self_auxv entry in
    if negb (hwcaps =? 0) then Some hwcaps else get_elf_hwcap_from_proc_cpuinfo cpuinfo.

(** The part of [android_cpuInit] for ARM: the features and the CPUID.  The field
    of the processor is read when the architecture is 7 or more. *)
Definition arm_init (cpuinfo entry : cstr) (family : AndroidCpuFamily) (features id : Z) : option (Z * Z) :=
  let field f := extract_cpuinfo_field cpuinfo (str f) in
  match field "CPU architecture"%string with
  | None => None
  | Some cpuArch =>
      match (if arm_arch_7 cpuArch then field "Processor"%string else Some None) with
      | None => None
      | Some cpuProc =>
          let features := arm_arch_features cpuArch cpuProc features in
          match arm_hwcaps cpuinfo entry with
          | None => None
          | Some hwcaps =>
              let features := arm_hwcap_features hwcaps features in
              let features := arm_hwcap2_features (get_elf_hwcap_from_getauxval AT_HWCAP2) features in
              match cpu_id cpuinfo cpu_id_entries id with
              | None => None
              | Some id =>
                  let features := arm_cpu_fixes id features in
                  match field "Hardware"%string with
                  | None => None
                  | Some hardware => Some (arm_goldfish hardware id family features, id)
                  end
              end
          end
      end
  end.

(** The part of [android_cpuInit] of a target. *)
Definition target_init (t : target) (cpuinfo entry : cstr) (family : AndroidCpuFamily) (id : Z)
  : option (Z * Z) :=
  match t with
  | T_arm => arm_init cpuinfo entry family 0 id
  | T_aarch64 => Some (arm64_features (get_elf_hwcap_from_getauxval AT_HWCAP) 0, id)
  | T_i386 | T_x86_64 => Some (x86_features 0, id)
  | T_mips | T_mips64 => Some (mips_features (get_elf_hwcap_from_getauxval AT_HWCAP) 0, id)
  | T_other => Some (0, id)
  end.

(** [android_cpuInit]; [entry] is the uninitialised local of the function that
    reads the auxiliary vector, and [None] is undefined behaviour: a read after
    the end of [/proc/cpuinfo], or the overflow of the counter of a range. *)
Definition android_cpuInit (t : target) (entry : cstr) (s : cpu_state) : option cpu_state :=
  let family := android_cpuInitFamily t in
  let runtime := android_cpuInitRuntimeFamily in
  let early := mk_cpu (g_once s) true family runtime 0 1 (g_cpuIdArm s) in
  match get_file_size (str "/proc/cpuinfo") with
  | None => Some early
  | Some cpuinfo_len =>
      match read_file (str "/proc/cpuinfo") cpuinfo_len with
      | None => Some early
      | Some cpuinfo =>
          match get_cpu_count with
          | None => None
          | Some count =>
              match target_init t cpuinfo entry family (g_cpuIdArm s) with
              | None => None
              | Some (features, id) =>
                  Some (mk_cpu (g_once s) true family runtime features (if count =? 0 then 1 else count) id)
              end
          end
      end
  end.

(** ** The interface *)

Definition pthread_once (init : cpu_state -> option cpu_state) (s : cpu_state) : option cpu_state :=
  if g_once s then Some s
  else match init s with
       | Some s => Some (mk_cpu true (g_inited s) (g_cpuFamily s) (g_runtimeCpuFamily s)
                           (g_cpuFeatures s) (g_cpuCount s) (g_cpuIdArm s))
       | None => None
       end.

(** [android_cpuInitDummy] *)
Definition android_cpuInitDummy (s : cpu_state) : option cpu_state :=
  Some (mk_cpu (g_once s) true (g_cpuFamily s) (g_runtimeCpuFamily s)
          (g_cpuFeatures s) (g_cpuCount s) (g_cpuIdArm s)).

(** The getters: a field after the initialisation. *)
Definition getter {A} (field : cpu_state -> A) (t : target) (entry : cstr) (s : cpu_state)
  : option (A * cpu_state) :=
  (fun s => (field s, s)) <$> pthread_once (android_cpuInit t entry) s.

Definition android_getCpuFamily := getter g_cpuFamily.
Definition android_getRuntimeCpuFamily := getter g_runtimeCpuFamily.
Definition android_getCpuFeatures := getter g_cpuFeatures.
Definition android_getCpuCount := getter g_cpuCount.
Definition android_getCpuIdArm := getter g_cpuIdArm.

(** [android_setCpu] *)
Definition android_setCpu (t : target) (cpu_count cpu_features : Z) (s : cpu_state)
  : option (bool * cpu_state) :=
  if g_inited s then Some (false, s)
  else
    let s := mk_cpu (g_once s) (g_inited s) (android_cpuInitFamily t) (g_runtimeCpuFamily s)
               cpu_features (if cpu_count <=? 0 then 1 else cpu_count) (g_cpuIdArm s) in
    (fun s => (true, s)) <$> pthread_once android_cpuInitDummy s.

(** [android_setCpuArm] *)
Definition android_setCpuArm (t : target) (cpu_count cpu_features cpu_id : Z) (s : cpu_state)
  : option (bool * cpu_state) :=
  match android_setCpu t cpu_count cpu_features s with
  | Some (true, s) =>
      Some (true, mk_cpu (g_once s) (g_inited s) (g_cpuFamily s) (g_runtimeCpuFamily s)
                    (g_cpuFeatures s) (g_cpuCount s) cpu_id)
  | r => r
  end.

End CpuInit.

(** ** Fields of the text *)

(** The text of lines. *)
Definition unlines (ls : list cstr) : cstr := concat (map (fun l => l ++ [newline]) ls).

(** The first position at the start of a line where the text begins with the
    field: what the search of [extract_cpuinfo_field] looks for. *)
Fixpoint scan (prev : option ascii) (p field : cstr) : option cstr :=
  if bool_decide (prev = None \/ prev = Some newline) && starts_with field p then Some p
  else match p with
       | [] => None
       | c :: p' => scan (Some c) p' field
       end.

Lemma starts_with_spec p s : starts_with p s = true <-> exists t, s = p ++ t.
Proof.
  revert s. induction p as [|c p IH]; intros s; simpl; [split; eauto|].
  destruct s as [|d s]; [split; [done|intros (t & [=])]|].
  rewrite andb_true_iff, bool_decide_eq_true, IH. split.
  - intros (-> & t & ->). by exists t.
  - intros (t & [= -> ->]). eauto.
Qed.

Lemma last_cons_or (c : ascii) (l : cstr) prev :
  match list.last (c :: l) with Some d => Some d | None => prev end =
  match list.last l with Some d => Some d | None => Some c end.
Proof. rewrite last_cons. by destruct (list.last l). Qed.

(** [memmem] stops at the first occurrence, before which the scan finds nothing. *)
Lemma scan_memmem p field prev :
  scan prev p field =
  match memmem p field with
  | Some (before, rest) =>
      scan (match list.last before with Some c => Some c | None => prev end) rest field
  | None => None
  end.
Proof.
  revert prev. induction p as [|c p IH]; intros prev; simpl.
  - destruct (starts_with field []) eqn:E; simpl; [by rewrite E|].
    by rewrite andb_false_r.
  - destruct (starts_with field (c :: p)) eqn:E; [simpl; by rewrite E|].
    rewrite andb_false_r, IH. destruct (memmem p field) as [[before rest]|]; [|done].
    by rewrite last_cons_or.
Qed.

Lemma memmem_starts p field before rest :
  memmem p field = Some (before, rest) -> p = before ++ rest /\ starts_with field rest = true.
Proof.
  revert before. induction p as [|c p IH]; intros before; simpl.
  - destruct (starts_with field []) eqn:E; [intros [= <- <-]; done|done].
  - destruct (starts_with field (c :: p)) eqn:E; [intros [= <- <-]; done|].
    destruct (memmem p field) as [[b r]|]; [|done]. intros [= <- <-].
    destruct (IH b eq_refl) as [-> ?]. done.
Qed.

(** Inside a line the scan finds nothing. *)
Lemma scan_inside w r field c :
  newline ∉ w -> c <> newline ->
  scan (Some c) (w ++ r) field = scan (match list.last w with Some d => Some d | None => Some c end) r field.
Proof.
  revert c. induction w as [|d w IH]; intros c Hw Hc; [done|].
  apply not_elem_of_cons in Hw as [Hd Hw]. simpl.
  rewrite bool_decide_eq_false_2 by (intros [[=]|[= ->]]; done). simpl.
  rewrite IH by congruence. by rewrite last_cons_or.
Qed.

(** The search of the code is the scan. *)
Lemma find_field_scan fuel prev p field :
  field <> [] -> newline ∉ field -> (length p < fuel)%nat ->
  find_field fuel prev p field = scan prev p field.
Proof.
  intros Hne Hnl. revert prev p. induction fuel as [|fuel IH]; intros prev p Hf; [lia|].
  simpl. rewrite scan_memmem. destruct (memmem p field) as [[before rest]|] eqn:E; [|done].
  apply memmem_starts in E as [-> (t & ->)%starts_with_spec].
  set (prev' := match list.last before with Some c => Some c | None => prev end).
  destruct (decide (prev' = None \/ prev' = Some newline)) as [Hp|Hp].
  - rewrite bool_decide_eq_true_2 by done.
    assert (Hs : starts_with field (field ++ t) = true) by (apply starts_with_spec; eauto).
    destruct (field ++ t) eqn:Ef; cbn [scan]; rewrite bool_decide_eq_true_2 by done; by rewrite Hs.
  - rewrite bool_decide_eq_false_2, drop_app_length by done.
    destruct prev' as [c|]; [|naive_solver].
    assert (Hlen : (0 < length field)%nat) by (destruct field; simpl in *; [done|lia]).
    rewrite IH by (rewrite !length_app in Hf; lia).
    rewrite scan_inside by naive_solver.
    destruct field as [|f field]; [done|].
    by destruct (list.last (f :: field)) eqn:El; [|apply last_None in El].
Qed.

Lemma starts_with_line field l r :
  newline ∉ field -> starts_with field (l ++ newline :: r) = starts_with field l.
Proof.
  revert l. induction field as [|c field IH]; intros l Hf; [done|].
  apply not_elem_of_cons in Hf as [Hc Hf].
  destruct l as [|d l]; simpl; [by rewrite bool_decide_eq_false_2 by congruence|].
  by rewrite IH.
Qed.

(** The scan of lines finds the first line that begins with the field. *)
Lemma scan_lines ls field prev :
  field <> [] -> newline ∉ field -> Forall (fun l => newline ∉ l) ls ->
  prev = None \/ prev = Some newline ->
  match scan prev (unlines ls) field with
  | Some p => exists skipped l following,
      ls = skipped ++ l :: following /\ p = unlines (l :: following) /\
      starts_with field l = true /\ Forall (fun k => starts_with field k = false) skipped
  | None => Forall (fun k => starts_with field k = false) ls
  end.
Proof.
  intros Hne Hnl Hls. revert prev. induction Hls as [|l ls Hl Hls IH]; intros prev Hp.
  - unfold unlines; simpl. destruct field; [done|]. simpl. by rewrite andb_false_r.
  - assert (Hu : unlines (l :: ls) = l ++ newline :: unlines ls)
      by (unfold unlines; simpl; by rewrite <- app_assoc).
    rewrite Hu. destruct (starts_with field l) eqn:E.
    + assert (Hs : scan prev (l ++ newline :: unlines ls) field = Some (l ++ newline :: unlines ls)).
      { destruct (l ++ newline :: unlines ls) eqn:El; cbn [scan]; rewrite bool_decide_eq_true_2 by done;
          rewrite <- El, starts_with_line, E by done; done. }
      rewrite Hs. exists [], l, ls. rewrite Hu. done.
    + assert (Hs : scan prev (l ++ newline :: unlines ls) field = scan (Some newline) (unlines ls) field).
      { destruct l as [|c l]; cbn [app scan]; rewrite ?app_comm_cons.
        - change (newline :: unlines ls) with ([] ++ newline :: unlines ls).
          by rewrite starts_with_line, E, andb_false_r by done.
        - rewrite starts_with_line, E, andb_false_r by done.
          apply not_elem_of_cons in Hl as [Hc Hl]. rewrite scan_inside by congruence. cbn [scan].
          destruct (list.last l) as [d|] eqn:Ed.
          + assert (d <> newline) by (intros ->; by apply last_Some_elem_of in Ed).
            rewrite bool_decide_eq_false_2 by naive_solver. done.
          + rewrite bool_decide_eq_false_2 by naive_solver. done. }
      rewrite Hs. specialize (IH (Some newline) (or_intror eq_refl)).
      destruct (scan _ _ _) as [p|]; [|by constructor].
      destruct IH as (skipped & k & following & -> & -> & ? & ?).
      exists (l :: skipped), k, following. by repeat constructor.
Qed.

Lemma unlines_cons l ls : unlines (l :: ls) = l ++ newline :: unlines ls.
Proof. unfold unlines. simpl. by rewrite <- app_assoc. Qed.

Lemma find_field_lines ls field :
  field <> [] -> newline ∉ field -> Forall (fun l => newline ∉ l) ls ->
  match find_field (S (length (unlines ls))) None (unlines ls) field with
  | Some p => exists skipped l following,
      ls = skipped ++ l :: following /\ p = unlines (l :: following) /\
      starts_with field l = true /\ Forall (fun k => starts_with field k = false) skipped
  | None => Forall (fun k => starts_with field k = false) ls
  end.
Proof. intros. rewrite find_field_scan by (done || lia). by apply scan_lines; [..|left]. Qed.

(** The value of the first line that begins with the field. *)
Lemma extract_line field before name value following :
  field <> [] -> newline ∉ field -> colon ∉ name ->
  Forall (fun l => newline ∉ l) (before ++ (field ++ name ++ colon :: space :: value) :: following) ->
  Forall (fun k => starts_with field k = false) before ->
  extract_cpuinfo_field
    (unlines (before ++ (field ++ name ++ colon :: space :: value) :: following)) field =
  Some (Some value).
Proof.
  intros Hne Hnl Hname Hls Hbefore. unfold extract_cpuinfo_field.
  set (line := field ++ name ++ colon :: space :: value) in *.
  pose proof (find_field_lines _ _ Hne Hnl Hls) as Hfind.
  assert (Hline : starts_with field line = true) by (apply starts_with_spec; unfold line; eauto).
  assert (Hin : line ∈ before ++ line :: following) by (apply elem_of_app; right; left).
  assert (Hval : newline ∉ value).
  { rewrite list.Forall_forall in Hls. apply Hls in Hin. unfold line in Hin.
    rewrite !not_elem_of_app, !not_elem_of_cons in Hin. tauto. }
  destruct (find_field _ _ _ _) as [p|].
  - destruct Hfind as (skipped & l & rest & Heq & -> & Hl & Hskipped).
    assert (Hsame : l :: rest = line :: following).
    { revert skipped Heq Hskipped. induction Hbefore as [|k before Hk Hbefore IH]; intros skipped Heq Hskipped.
      - destruct Hskipped; simplify_eq/=; [done|congruence].
      - destruct Hskipped as [|k' skipped Hk' Hskipped]; simplify_eq/=; [congruence|].
        inversion Hls; subst. apply (IH ltac:(done) ltac:(apply elem_of_app; right; left) skipped); done. }
    rewrite Hsame, unlines_cons. unfold line. rewrite <- !app_assoc, drop_app_length.
    simpl. rewrite memchr_split, bool_decide_eq_true_2, memchr_split by done. done.
  - rewrite list.Forall_forall in Hfind. apply Hfind in Hin. congruence.
Qed.

Lemma extract_none field ls :
  field <> [] -> newline ∉ field -> Forall (fun l => newline ∉ l) ls ->
  Forall (fun k => starts_with field k = false) ls ->
  extract_cpuinfo_field (unlines ls) field = Some None.
Proof.
  intros Hne Hnl Hls Hno. unfold extract_cpuinfo_field.
  pose proof (find_field_lines _ _ Hne Hnl Hls) as Hfind.
  destruct (find_field _ _ _ _) as [p|]; [|done].
  destruct Hfind as (skipped & l & rest & -> & _ & Hl & _).
  rewrite list.Forall_app, list.Forall_cons in Hno. destruct Hno as (_ & Hl' & _). congruence.
Qed.

(** ** Items of a list *)

(** The words of a list: its pieces between blanks. *)
Definition words (l : cstr) : list cstr := split_on space (map (fun c => if blank c then space else c) l).

Lemma words_blank c p : blank c = true -> words (c :: p) = [] :: words p.
Proof. unfold words. cbn. by intros ->. Qed.

Lemma elem_of_words_blank item c p :
  item <> [] -> blank c = true -> item ∈ words (c :: p) <-> item ∈ words p.
Proof. intros Hi Hc. rewrite words_blank, elem_of_cons by done. naive_solver. Qed.

Lemma elem_of_words_skip item p : item <> [] -> item ∈ words p <-> item ∈ words (skip_while blank p).
Proof.
  intros Hi. induction p as [|c p IH]; [done|]. cbn [skip_while].
  destruct (blank c) eqn:E; [|done]. by rewrite elem_of_words_blank.
Qed.

Lemma words_item p w q :
  take_item p = (w, q) ->
  words p = w :: match q with [] => [] | _ :: q => words q end /\
  match q with [] => True | c :: _ => blank c = true end.
Proof.
  revert w. induction p as [|c p IH]; intros w; simpl; [by intros [= <- <-]|].
  destruct (blank c) eqn:E; [intros [= <- <-]; by rewrite words_blank|].
  destruct (take_item p) as [w' q'] eqn:Ep. intros [= <- <-].
  destruct (IH w' eq_refl) as [Hw Hq]. split; [|done].
  unfold words in *. cbn. rewrite E, bool_decide_eq_false_2, Hw; [done|].
  intros ->. done.
Qed.

Lemma take_item_length p w q : take_item p = (w, q) -> (length w + length q = length p)%nat.
Proof.
  revert w. induction p as [|c p IH]; intros w; simpl; [by intros [= <- <-]|].
  destruct (blank c); [by intros [= <- <-]|].
  destruct (take_item p) as [w' q']. intros [= <- <-]. specialize (IH w' eq_refl). simpl. lia.
Qed.

Lemma skip_blanks_shape p :
  (length (skip_while blank p) <= length p)%nat /\
  match skip_while blank p with [] => True | c :: _ => blank c = false end.
Proof. induction p as [|c p IH]; [done|]. cbn. destruct (blank c) eqn:E; simpl; [|by rewrite E]. lia || naive_solver lia. Qed.

(** [has_list_item] is the membership in the words. *)
Lemma list_item_words fuel p item :
  item <> [] -> (length p <= fuel)%nat -> list_item_from fuel p item = true <-> item ∈ words p.
Proof.
  intros Hi. revert p. induction fuel as [|fuel IH]; intros [|c p] Hf; simpl in Hf; [|lia|..].
  1, 2: split; [done|]; intros [=]%list_elem_of_singleton; done.
  cbn [list_item_from]. rewrite (elem_of_words_skip item (c :: p)) by done.
  pose proof (skip_blanks_shape (c :: p)) as [Hlen Hhd].
  destruct (take_item (skip_while blank (c :: p))) as [w q] eqn:E.
  pose proof (take_item_length _ _ _ E) as Hl. apply words_item in E as E'. destruct E' as [-> Hq].
  rewrite elem_of_cons. case_bool_decide as Hw; [naive_solver|].
  rewrite IH.
  - destruct q as [|d q]; [|rewrite elem_of_words_blank by done; split; [by right|by intros [Hx|Hx]; [subst w|]]].
    split; [by intros Hx%list_elem_of_singleton|].
    intros [Hx|Hx]; [by subst w|by apply not_elem_of_nil in Hx].
  - destruct (skip_while blank (c :: p)) as [|d r]; simpl in *; [lia|].
    rewrite Hhd in E. destruct (take_item r). simplify_eq. simpl in Hl. lia.
Qed.

Lemma has_list_item_words l item :
  item <> [] -> has_list_item (Some l) item = bool_decide (item ∈ words l).
Proof.
  intros Hi. apply eq_true_iff_eq. rewrite bool_decide_eq_true. by apply list_item_words.
Qed.

(** ** Lists of CPUs, as sysfs prints them *)

(** A CPU or a range of CPUs, and a list of them. *)
Definition print_item (item : Z * Z) : cstr :=
  let '(first, last) := item in
  if first =? last then decimal first else decimal first ++ dash :: decimal last.

Fixpoint print_cpulist (items : list (Z * Z)) : cstr :=
  match items with
  | [] => []
  | [item] => print_item item
  | item :: items => print_item item ++ comma :: print_cpulist items
  end.

Definition item_ok (item : Z * Z) : Prop := 0 <= item.1 <= item.2 /\ item.2 < 2 ^ 31 - 1.

(** A CPU of the list. *)
Definition listed (items : list (Z * Z)) (i : Z) : bool :=
  existsb (fun item => (item.1 <=? i) && (i <=? item.2)) items.

Definition no_digit (p : cstr) : Prop :=
  match p with [] => True | c :: _ => digit c = None end.

Lemma digit_of d : 0 <= d < 10 -> digit (cz (48 + d)) = Some d.
Proof.
  intros Hd. assert (d = 0 \/ d = 1 \/ d = 2 \/ d = 3 \/ d = 4 \/ d = 5 \/ d = 6 \/ d = 7 \/ d = 8 \/ d = 9) by lia.
  destruct_or!; by subst.
Qed.

Lemma number_decimal fuel v rest :
  0 <= v < 2 ^ 31 -> v < 10 ^ Z.of_nat fuel ->
  number_from 10 0 (decimal_digits fuel v ++ rest) = number_from 10 v rest.
Proof.
  revert v rest. induction fuel as [|fuel IH]; intros v rest Hv Hf; [simpl in Hf; by replace v with 0 by lia|].
  assert (Hm : 0 <= v mod 10 < 10) by (apply Z.mod_pos_bound; lia).
  assert (Hsw : forall a, a * 10 + v mod 10 = v -> swrap 32 (a * 10 + v mod 10) = v).
  { intros a ->. unfold swrap, wrap. rewrite Z.mod_small by lia. case_match; lia. }
  cbn [decimal_digits]. destruct (v <? 10) eqn:E.
  - cbn [app number_from]. rewrite digit_of by done.
    rewrite (proj2 (Z.leb_gt 10 _)) by lia. rewrite Hsw; [done|]. rewrite Z.mod_small; lia.
  - rewrite <- app_assoc, IH.
    + cbn [app number_from]. rewrite digit_of by done.
      rewrite (proj2 (Z.leb_gt 10 _)) by lia. rewrite Hsw; [done|]. pose proof (Z.div_mod v 10). lia.
    + split; [apply Z.div_pos; lia|]. apply Z.div_lt_upper_bound; lia.
    + apply Z.div_lt_upper_bound; [lia|]. rewrite Nat2Z.inj_succ, Z.pow_succ_r in Hf by lia. lia.
Qed.

Lemma decimal_nonempty v : (0 < length (decimal v))%nat.
Proof. unfold decimal. cbn [decimal_digits]. rewrite length_app. simpl. lia. Qed.

(** The parser of numbers reads back a printed number. *)
Lemma parse_decimal_print v rest :
  0 <= v < 2 ^ 31 -> no_digit rest -> parse_decimal (decimal v ++ rest) = Some (v, rest).
Proof.
  intros Hv Hr. unfold parse_decimal, parse_number. unfold decimal at 1.
  rewrite wrap_small by (unfold fits; lia). rewrite number_decimal by (simpl; lia).
  assert (Hstop : number_from 10 v rest = (v, rest)) by (destruct rest as [|c rest]; [done|]; simpl; by rewrite Hr).
  rewrite Hstop, length_app. pose proof (decimal_nonempty v).
  rewrite (proj2 (Nat.eqb_neq _ _)); [done|lia].
Qed.

(** What may follow the last item: nothing, or the end of the line. *)
Definition ends (p : cstr) : Prop := p = [] \/ exists p', p = newline :: p'.

Lemma parse_item_print item rest :
  item_ok item -> ends rest -> parse_item (print_item item ++ rest) = Some item.
Proof.
  destruct item as [first last]. intros [Hi Hl] Hr; simpl in Hi, Hl. unfold parse_item, print_item.
  assert (Hd : no_digit rest) by (by destruct Hr as [->|[p' ->]]).
  destruct (first =? last) eqn:E.
  - apply Z.eqb_eq in E as <-. rewrite parse_decimal_print by (done || lia).
    by destruct Hr as [->|[p' ->]].
  - rewrite <- app_assoc, parse_decimal_print by (done || lia). cbn [app].
    rewrite bool_decide_eq_true_2, parse_decimal_print by (done || lia). done.
Qed.

Lemma cpulist_set_testbit mask index i :
  0 <= i -> Z.testbit (cpulist_set mask index) i = Z.testbit mask i || ((i =? index) && (i <? 32)).
Proof.
  intros Hi. unfold cpulist_set. destruct ((0 <=? index) && (index <? 32)) eqn:E.
  - rewrite Z.lor_spec, Z.shiftl_1_l, Z.pow2_bits_eqb by lia.
    rewrite (Z.eqb_sym index i). destruct (i =? index) eqn:Ei; [|by rewrite andb_false_l].
    by rewrite (proj2 (Z.ltb_lt i 32)) by lia.
  - destruct (i =? index) eqn:Ei; [|by rewrite orb_false_r].
    rewrite (proj2 (Z.ltb_ge i 32)) by lia. by rewrite orb_false_r.
Qed.

Lemma fold_set_testbit values mask i :
  0 <= i ->
  Z.testbit (fold_left cpulist_set values mask) i = Z.testbit mask i || (bool_decide (i ∈ values) && (i <? 32)).
Proof.
  intros Hi. revert mask. induction values as [|v values IH]; intros mask; cbn [fold_left].
  - rewrite bool_decide_eq_false_2 by apply not_elem_of_nil. by rewrite orb_false_r.
  - rewrite IH, cpulist_set_testbit by done. rewrite <- orb_assoc. f_equal.
    rewrite <- andb_orb_distrib_l. f_equal. apply eq_true_iff_eq.
    rewrite orb_true_iff, !bool_decide_eq_true, elem_of_cons, Z.eqb_eq. done.
Qed.

Lemma set_range_testbit first last mask :
  item_ok (first, last) ->
  exists mask', set_range first last mask = Some mask' /\ forall i, 0 <= i ->
    Z.testbit mask' i = Z.testbit mask i || ((first <=? i) && (i <=? last) && (i <? 32)).
Proof.
  intros [Hfl Hl]; simpl in Hfl, Hl. unfold set_range.
  rewrite (proj2 (Z.eqb_neq last _)) by lia. eexists. split; [done|]. intros i Hi.
  rewrite fold_set_testbit by done. do 2 f_equal. apply eq_true_iff_eq.
  rewrite bool_decide_eq_true, elem_of_seqZ. lia.
Qed.

Lemma decimal_digits_chars fuel v c : c ∈ decimal_digits fuel v -> 0 <= v -> is_Some (digit c).
Proof.
  revert v. induction fuel as [|fuel IH]; intros v Hc Hv; [by apply not_elem_of_nil in Hc|].
  cbn [decimal_digits] in Hc. rewrite elem_of_app, list_elem_of_singleton in Hc. destruct Hc as [Hc| ->].
  - destruct (v <? 10); [by apply not_elem_of_nil in Hc|]. apply (IH (v / 10)); [done|]. apply Z.div_pos; lia.
  - rewrite digit_of by (apply Z.mod_pos_bound; lia). done.
Qed.

Lemma decimal_chars v c : c ∈ decimal v -> is_Some (digit c).
Proof. intros Hc. apply (decimal_digits_chars 10 (wrap 32 v)); [done|]. apply wrap_fits; lia. Qed.

Lemma print_item_chars item c : c ∈ print_item item -> is_Some (digit c) \/ c = dash.
Proof.
  destruct item as [first last]. unfold print_item. case_match.
  - intros ?%decimal_chars. by left.
  - rewrite elem_of_app, elem_of_cons. intros [?%decimal_chars|[->|?%decimal_chars]]; auto.
Qed.

Lemma print_item_no item c : digit c = None -> c <> dash -> c ∉ print_item item.
Proof. intros Hd Hn Hc. destruct (print_item_chars _ _ Hc) as [[d Hd']| ->]; congruence. Qed.

Lemma print_item_head item rest : exists c p, print_item item ++ rest = c :: p /\ c <> newline.
Proof.
  destruct (print_item item) as [|c p] eqn:E.
  - exfalso. destruct item as [first last]. pose proof (decimal_nonempty first) as Hd. unfold print_item in E.
    case_match; [rewrite E in Hd; simpl in Hd; lia|]. by destruct (decimal first).
  - exists c, (p ++ rest). split; [done|]. intros ->.
    apply (print_item_no item newline); [done..|]. rewrite E. left.
Qed.

(** One round of the loop of [cpulist_parse]. *)
Lemma cpulist_round fuel mask item tail rest next :
  item_ok item -> ends tail -> default (print_item item ++ rest, []) (memchr comma (print_item item ++ rest)) =
    (print_item item ++ tail, next) ->
  cpulist_from (S fuel) mask (print_item item ++ rest) =
  match set_range item.1 item.2 mask with None => None | Some mask => cpulist_from fuel mask next end.
Proof.
  intros Hi Ht Hm. destruct (print_item_head item rest) as (c & p & Hc & Hn).
  rewrite Hc in *. cbn [cpulist_from]. rewrite bool_decide_eq_false_2 by done. rewrite Hm.
  rewrite parse_item_print by done. by destruct item.
Qed.

(** The parser adds the CPUs of the printed list to the mask. *)
Lemma cpulist_from_print fuel items tail mask :
  Forall item_ok items -> ends tail -> comma ∉ tail -> (length items < fuel)%nat ->
  exists mask', cpulist_from fuel mask (print_cpulist items ++ tail) = Some mask' /\
    forall i, 0 <= i -> Z.testbit mask' i = Z.testbit mask i || (listed items i && (i <? 32)).
Proof.
  intros Hok Ht Hc. revert fuel mask. induction Hok as [|item items Hi Hok IH]; intros fuel mask Hf.
  - exists mask. split; [|intros; simpl; by rewrite orb_false_r].
    simpl. destruct fuel; [simpl in Hf; lia|]. by destruct Ht as [->|[p' ->]].
  - destruct fuel as [|fuel]; simpl in Hf; [lia|].
    destruct (set_range_testbit item.1 item.2 mask) as (mask1 & Hr & Hbits); [by destruct item|].
    assert (Hmask : forall mask' items, (forall i, 0 <= i -> Z.testbit mask' i =
        Z.testbit mask1 i || (listed items i && (i <? 32))) ->
      forall i, 0 <= i -> Z.testbit mask' i = Z.testbit mask i || (listed (item :: items) i && (i <? 32))).
    { intros mask' its H i Hpos. rewrite H, Hbits by done. cbn [listed existsb].
      fold (listed its i). rewrite <- orb_assoc. f_equal. by rewrite <- andb_orb_distrib_l. }
    assert (Hno : comma ∉ print_item item) by (by apply print_item_no).
    destruct items as [|item' items].
    + exists mask1. split; [|apply (Hmask mask1 []); intros; simpl; by rewrite orb_false_r].
      cbn [print_cpulist]. rewrite (cpulist_round _ _ _ tail _ []), Hr; [|done..|].
      * by destruct fuel.
      * rewrite (proj2 (memchr_not_elem _ _)); [done|]. rewrite not_elem_of_app. done.
    + destruct (IH fuel mask1) as (mask' & Hp & Hm); [simpl in *; lia|].
      exists mask'. split; [|by apply Hmask]. cbn [print_cpulist] in *. rewrite <- app_assoc. cbn [app].
      rewrite (cpulist_round _ _ _ [] _ (print_cpulist (item' :: items) ++ tail)), Hr; [done|done|by left|].
      rewrite app_nil_r, memchr_split by done. done.
Qed.

Lemma print_cpulist_length items : (length items <= length (print_cpulist items))%nat.
Proof.
  induction items as [|item items IH]; [done|].
  destruct (print_item_head item []) as (c & p & Hc & _). rewrite app_nil_r in Hc.
  cbn [print_cpulist]. destruct items; rewrite Hc; simpl in *; [lia|]. rewrite length_app. simpl. lia.
Qed.

Lemma filter_agree {A} (f g : A -> bool) (l : list A) :
  (forall x, x ∈ l -> f x = g x) -> filter (fun x => f x = true) l = filter (fun x => g x = true) l.
Proof.
  induction l as [|x l IH]; intros H; [done|]. rewrite !filter_cons, (H x) by left.
  rewrite IH; [done|]. intros y Hy. apply H. by right.
Qed.

Section Counting.
Context `{Device}.

(** A small file that can be read is read in full. *)
Lemma read_file_full f content n :
  dev_open f = Some content -> (forall pos, dev_read_ok f pos = true) -> (length content <= n)%nat ->
  read_file f n = Some content.
Proof.
  intros Ho Hr Hn. unfold read_file. rewrite Ho. cbn [read_from].
  destruct (n <=? 0)%nat eqn:E.
  - apply Nat.leb_le in E. destruct content; simpl in *; [done|lia].
  - rewrite Hr, Nat.sub_0_r, Nat.sub_0_r, Nat.min_r by lia. cbn [negb Nat.add].
    destruct content as [|c content]; [done|]. cbn [length Nat.eqb read_from].
    rewrite Hr. cbn [negb]. rewrite Nat.sub_diag, Nat.min_0_r. simpl.
    destruct (n <=? S (length content))%nat; simpl; by rewrite firstn_all.
Qed.

Lemma cpulist_read_print f items :
  dev_open f = Some (print_cpulist items ++ [newline]) -> (forall pos, dev_read_ok f pos = true) ->
  (length (print_cpulist items) < 64)%nat -> Forall item_ok items ->
  exists mask, cpulist_read_from f = Some mask /\
    forall i, 0 <= i < 32 -> Z.testbit mask i = listed items i.
Proof.
  intros Ho Hr Hn Hok. unfold cpulist_read_from, cpulist_parse.
  rewrite (read_file_full _ _ _ Ho Hr) by (rewrite length_app; simpl; lia).
  destruct (cpulist_from_print (S (length (print_cpulist items ++ [newline]))) items [newline] 0)
    as (mask & -> & Hm); [done|right; by exists []|..].
  - by intros [=]%list_elem_of_singleton.
  - pose proof (print_cpulist_length items). rewrite length_app. lia.
  - exists mask. split; [done|]. intros i Hi. rewrite Hm by lia.
    rewrite Z.testbit_0_l, (proj2 (Z.ltb_lt i 32)) by lia. by rewrite andb_true_r.
Qed.

(** When sysfs prints the lists of present and of possible CPUs, each in less
    than 64 characters, [get_cpu_count] is the number of CPUs below 32 that are in
    both. *)
Theorem get_cpu_count_lists present possible :
  dev_open (str "/sys/devices/system/cpu/present") = Some (print_cpulist present ++ [newline]) ->
  dev_open (str "/sys/devices/system/cpu/possible") = Some (print_cpulist possible ++ [newline]) ->
  (forall f pos, dev_read_ok f pos = true) ->
  (length (print_cpulist present) < 64)%nat -> (length (print_cpulist possible) < 64)%nat ->
  Forall item_ok present -> Forall item_ok possible ->
  get_cpu_count =
  Some (Z.of_nat (length (filter (fun i => listed present i && listed possible i = true) (seqZ 0 32)))).
Proof.
  intros H1 H2 Hr Hl1 Hl2 Hok1 Hok2. unfold get_cpu_count.
  destruct (cpulist_read_print _ _ H1 (Hr _) Hl1 Hok1) as (m1 & -> & Hm1).
  destruct (cpulist_read_print _ _ H2 (Hr _) Hl2 Hok2) as (m2 & -> & Hm2).
  unfold cpulist_count, cpulist_and. do 3 f_equal. apply filter_agree.
  intros i Hi%elem_of_seqZ. by rewrite Z.land_spec, Hm1, Hm2 by lia.
Qed.

End Counting.

(** A device with files and no [getauxval]. *)
Fixpoint file_content (files : list (cstr * cstr)) (f : cstr) : option cstr :=
  match files with
  | [] => None
  | (name, content) :: files => if bool_decide (name = f) then Some content else file_content files f
  end.

Definition files_device (files : list (cstr * cstr)) : Device := {|
  dev_open := file_content files;
  dev_read_ok _ _ := true;
  getauxval := None;
  getprop_abi := None;
  x86_cpuid _ := (0, 0, 0, 0);
|}.

Definition demo_lists : Device :=
  files_device [(str "/sys/devices/system/cpu/present", str "0-3" ++ [newline]);
                (str "/sys/devices/system/cpu/possible", str "0,2-127" ++ [newline])].

Lemma get_cpu_count_lists_witness : @get_cpu_count demo_lists = Some 3.
Proof.
  refine (@get_cpu_count_lists demo_lists [(0, 3)] [(0, 0); (2, 127)] _ _ _ _ _ _ _).
  1, 2: reflexivity.
  - intros f pos. reflexivity.
  - vm_compute. lia.
  - vm_compute. lia.
  - repeat constructor; simpl; lia.
  - repeat constructor; simpl; lia.
Defined.

(** ** Flags *)

Lemma has_lor a b f : has (Z.lor a b) f = has a f || has b f.
Proof.
  unfold has. rewrite Z.land_lor_distr_l. apply eq_true_iff_eq.
  rewrite orb_true_iff, !negb_true_iff, !Z.eqb_neq, Z.lor_eq_0_iff. lia.
Qed.

Lemma has_set_if b f flags g : has (set_if b f flags) g = (b && has f g) || has flags g.
Proof. unfold set_if. destruct b; [|done]. rewrite has_lor. by rewrite orb_comm. Qed.

Lemma has_if (b : bool) x y g : has (if b then x else y) g = if b then has x g else has y g.
Proof. by destruct b. Qed.

(** Evaluate the tests of flags on constants. *)
Ltac flag_constants :=
  repeat match goal with
  | |- context [has ?f ?g] => let v := eval vm_compute in (has f g) in
      match v with true => change (has f g) with true | false => change (has f g) with false end
  end.

Ltac flags := rewrite ?has_set_if, ?has_lor, ?has_if; flag_constants; rewrite ?andb_false_r, ?andb_true_r, ?orb_false_r, ?orb_true_r; cbn [orb andb].

Lemma feature_hwcaps_words value f :
  has (feature_hwcaps (Some value)) f =
  (bool_decide (str "iwmmxt" ∈ words value) && has HWCAP_IWMMXT f)
  || ((bool_decide (str "idiv" ∈ words value) && has (Z.lor HWCAP_IDIVA HWCAP_IDIVT) f)
  || ((bool_decide (str "idivt" ∈ words value) && has HWCAP_IDIVT f)
  || ((bool_decide (str "idiva" ∈ words value) && has HWCAP_IDIVA f)
  || ((bool_decide (str "neon" ∈ words value) && has HWCAP_NEON f)
  || ((bool_decide (str "vfpv4" ∈ words value) && has HWCAP_VFPv4 f)
  || ((bool_decide (str "vfpv3d16" ∈ words value) && has HWCAP_VFPv3D16 f)
  || ((bool_decide (str "vfpv3" ∈ words value) && has HWCAP_VFPv3 f)
  || ((bool_decide (str "vfp" ∈ words value) && has HWCAP_VFP f) || false)))))))).
Proof.
  unfold feature_hwcaps. rewrite !has_set_if. rewrite !has_list_item_words by done. done.
Qed.

(** On a [/proc/cpuinfo] that does not tell an architecture of 8 or more,
    [get_elf_hwcap_from_proc_cpuinfo] sets each capability exactly when its word is
    among the words of the first line that begins with the field Features. *)
Theorem cpuinfo_hwcaps before name value following arch :
  Forall (fun l => newline ∉ l) (before ++ (str "Features" ++ name ++ colon :: space :: value) :: following) ->
  Forall (fun k => starts_with (str "Features") k = false) before -> colon ∉ name ->
  extract_cpuinfo_field (unlines (before ++ (str "Features" ++ name ++ colon :: space :: value) :: following))
    (str "CPU architecture") = Some arch ->
  match arch with Some arch => (strtol arch).1 < 8 | None => True end ->
  exists hwcaps,
    get_elf_hwcap_from_proc_cpuinfo
      (unlines (before ++ (str "Features" ++ name ++ colon :: space :: value) :: following)) = Some hwcaps /\
    let word w := bool_decide (str w ∈ words value) in
    has hwcaps HWCAP_VFP = word "vfp"%string /\
    has hwcaps HWCAP_VFPv3 = word "vfpv3"%string /\
    has hwcaps HWCAP_VFPv3D16 = word "vfpv3d16"%string /\
    has hwcaps HWCAP_VFPv4 = word "vfpv4"%string /\
    has hwcaps HWCAP_NEON = word "neon"%string /\
    has hwcaps HWCAP_IDIVA = word "idiv"%string || word "idiva"%string /\
    has hwcaps HWCAP_IDIVT = word "idiv"%string || word "idivt"%string /\
    has hwcaps HWCAP_IWMMXT = word "iwmmxt"%string.
Proof.
  intros Hls Hbefore Hname Harch Hold. exists (feature_hwcaps (Some value)). split.
  - unfold get_elf_hwcap_from_proc_cpuinfo. rewrite Harch.
    rewrite (proj2 (Z.leb_gt 8 _)) by (destruct arch; simpl; lia).
    rewrite extract_line; [done|done| |done..].
    intros H. by apply (bool_decide_pack (newline ∈ str "Features")) in H.
  - cbv zeta. rewrite !feature_hwcaps_words. flags. done.
Qed.

Lemma cpuinfo_hwcaps_witness :
  exists hwcaps,
    get_elf_hwcap_from_proc_cpuinfo
      (unlines [str "Processor : ARMv7 Processor rev 0 (v7l)"; str "Features : swp half neon idiv";
                str "CPU architecture: 7"]) = Some hwcaps /\
    has hwcaps HWCAP_NEON = true /\ has hwcaps HWCAP_IDIVT = true /\ has hwcaps HWCAP_VFPv4 = false.
Proof.
  destruct (cpuinfo_hwcaps [str "Processor : ARMv7 Processor rev 0 (v7l)"] (str " ")
              (str "swp half neon idiv") [str "CPU architecture: 7"] (Some (str "7")))
    as (hwcaps & H & _ & _ & _ & Hv4 & Hneon & _ & Hidivt & _).
  - repeat constructor; apply (bool_decide_unpack _); reflexivity.
  - repeat constructor.
  - apply (bool_decide_unpack _). reflexivity.
  - reflexivity.
  - vm_compute. reflexivity.
  - exists hwcaps. split; [exact H|]. rewrite Hneon, Hidivt, Hv4. vm_compute. done.
Defined.

(** ** The consistency of the features of ARM *)

(** What the header documents, and the comments of the initialisation. *)
Definition arm_consistent (f : Z) : Prop :=
  (has f ANDROID_CPU_ARM_FEATURE_VFPv3 = true ->
     has f ANDROID_CPU_ARM_FEATURE_VFPv2 = true /\ has f ANDROID_CPU_ARM_FEATURE_ARMv7 = true) /\
  (has f ANDROID_CPU_ARM_FEATURE_NEON = true ->
     has f ANDROID_CPU_ARM_FEATURE_VFPv3 = true /\ has f ANDROID_CPU_ARM_FEATURE_VFP_D32 = true) /\
  (has f ANDROID_CPU_ARM_FEATURE_VFP_FMA = true ->
     has f ANDROID_CPU_ARM_FEATURE_VFPv3 = true /\ has f ANDROID_CPU_ARM_FEATURE_VFP_FP16 = true) /\
  (has f ANDROID_CPU_ARM_FEATURE_NEON_FMA = true ->
     has f ANDROID_CPU_ARM_FEATURE_NEON = true /\ has f ANDROID_CPU_ARM_FEATURE_VFP_FMA = true).

(** The flags that the consistency is about, and those of the architecture. *)
Definition fpu_flags : Z :=
  ANDROID_CPU_ARM_FEATURE_VFPv3 + ANDROID_CPU_ARM_FEATURE_NEON + ANDROID_CPU_ARM_FEATURE_VFPv2 +
  ANDROID_CPU_ARM_FEATURE_VFP_D32 + ANDROID_CPU_ARM_FEATURE_VFP_FP16 + ANDROID_CPU_ARM_FEATURE_VFP_FMA +
  ANDROID_CPU_ARM_FEATURE_NEON_FMA.

(** A flag outside the floating point unit does not change the consistency. *)
Lemma consistent_set_if b f flags :
  has f fpu_flags = false -> has f ANDROID_CPU_ARM_FEATURE_ARMv7 = false ->
  arm_consistent flags -> arm_consistent (set_if b f flags).
Proof.
  intros Hf H7 H. unfold set_if. destruct b; [|done].
  assert (Hsame : forall g, Z.land fpu_flags g = g \/ g = ANDROID_CPU_ARM_FEATURE_ARMv7 ->
    has (Z.lor flags f) g = has flags g).
  { intros g [Hg| ->]; rewrite has_lor; [|by rewrite H7, orb_false_r].
    assert (has f g = false) as ->; [|by rewrite orb_false_r].
    unfold has in *. apply negb_false_iff, Z.eqb_eq in Hf. rewrite <- Hg, Z.land_assoc, Hf. done. }
  unfold arm_consistent. rewrite !Hsame by (first [by left|by right]). done.
Qed.

Lemma has_vfp_step (vfp v7 : bool) features x y g :
  has (if vfp then if v7 then Z.lor features x else Z.lor features y else features) g =
  (vfp && (if v7 then has x g else has y g)) || has features g.
Proof. destruct vfp, v7; rewrite ?has_lor; [apply orb_comm|apply orb_comm|done|done]. Qed.

Lemma has_neon_step (neon v4 : bool) features x y g :
  has (if neon then set_if v4 x (Z.lor features y) else features) g =
  (neon && ((v4 && has x g) || has y g)) || has features g.
Proof.
  destruct neon; [|done]. rewrite has_set_if, has_lor. cbn [andb].
  rewrite <- orb_assoc. f_equal. apply orb_comm.
Qed.

(** The features of the capabilities are consistent when none of the unit was set
    before. *)
Lemma consistent_hwcaps hwcaps features :
  has features fpu_flags = false -> arm_consistent (arm_hwcap_features hwcaps features).
Proof.
  intros Hno.
  assert (Hfpu : forall g, Z.land fpu_flags g = g -> has features g = false).
  { intros g Hg. unfold has in *. apply negb_false_iff, Z.eqb_eq in Hno. rewrite <- Hg, Z.land_assoc, Hno. done. }
  pose proof (Hfpu ANDROID_CPU_ARM_FEATURE_VFPv3 eq_refl) as H1.
  pose proof (Hfpu ANDROID_CPU_ARM_FEATURE_NEON eq_refl) as H2.
  pose proof (Hfpu ANDROID_CPU_ARM_FEATURE_VFPv2 eq_refl) as H3.
  pose proof (Hfpu ANDROID_CPU_ARM_FEATURE_VFP_D32 eq_refl) as H4.
  pose proof (Hfpu ANDROID_CPU_ARM_FEATURE_VFP_FP16 eq_refl) as H5.
  pose proof (Hfpu ANDROID_CPU_ARM_FEATURE_VFP_FMA eq_refl) as H6.
  pose proof (Hfpu ANDROID_CPU_ARM_FEATURE_NEON_FMA eq_refl) as H7.
  unfold arm_hwcap_features. destruct (hwcaps =? 0).
  - unfold arm_consistent. rewrite H1, H2, H6, H7. done.
  - cbv zeta. do 3 (apply consistent_set_if; [done..|]). unfold arm_consistent.
    do 3 rewrite ?has_set_if, ?has_neon_step, ?has_vfp_step, ?has_lor.
    rewrite ?H1, ?H2, ?H3, ?H4, ?H5, ?H6, ?H7.
    generalize (has features ANDROID_CPU_ARM_FEATURE_ARMv7), (has hwcaps HWCAP_VFPv4), (has hwcaps HWCAP_VFPv3),
      (has hwcaps HWCAP_VFPv3D16), (has hwcaps HWCAP_VFP), (has hwcaps HWCAP_NEON).
    intros [] [] [] [] [] []; vm_compute; tauto.
Qed.

(** ** The initialisation *)

Lemma find_field_suffix fuel prev p field r :
  find_field fuel prev p field = Some r -> exists l, p = l ++ r.
Proof.
  revert prev p. induction fuel as [|fuel IH]; intros prev p; [done|]. cbn.
  destruct (memmem p field) as [[before rest]|] eqn:E; [|done].
  apply memmem_starts in E as [-> (t & ->)%starts_with_spec].
  case_match; [intros [= <-]; eauto|]. rewrite drop_app_length.
  intros (l & ->)%IH. exists (before ++ field ++ l). by rewrite <- !app_assoc.
Qed.

(** The field is found without a read after the end of a text that does not end
    with a colon. *)
Lemma extract_defined buffer field :
  list.last buffer <> Some colon -> exists r, extract_cpuinfo_field buffer field = Some r.
Proof.
  intros Hl. unfold extract_cpuinfo_field. destruct (find_field _ _ _ _) as [p|] eqn:E; [|eauto].
  destruct (memchr colon (drop (length field) p)) as [[before after]|] eqn:Em; [|eauto].
  destruct after as [|c after]; [|case_match; eauto]. exfalso. apply Hl.
  apply find_field_suffix in E as [l ->]. apply memchr_Some in Em as [Em _].
  rewrite <- (take_drop (length field) p), Em, !app_assoc, last_snoc. done.
Qed.

Lemma cpu_id_defined buffer entries id :
  list.last buffer <> Some colon -> exists id', cpu_id buffer entries id = Some id'.
Proof.
  intros Hl. revert id. induction entries as [|entry entries IH]; intros id; [by exists id|]. cbn.
  destruct (extract_defined buffer (ie_field entry) Hl) as [r ->]. apply IH.
Qed.

Lemma has_arch_features cpuArch cpuProc : has (arm_arch_features cpuArch cpuProc 0) fpu_flags = false.
Proof.
  unfold arm_arch_features. destruct cpuArch as [a|]; [|done]. cbv zeta.
  rewrite !has_set_if. flag_constants. by rewrite !andb_false_r.
Qed.

Lemma consistent_zero : arm_consistent 0.
Proof. done. Qed.

Lemma cpulist_count_bound mask : 0 <= cpulist_count mask <= 32.
Proof.
  unfold cpulist_count. pose proof (length_filter (fun i => Z.testbit mask i = true) (seqZ 0 32)) as H.
  rewrite length_seqZ in H. lia.
Qed.

Section Consistency.
Context `{Device}.

Lemma size_from_full fuel f content pos :
  (forall p, dev_read_ok f p = true) -> (pos <= length content)%nat -> (length content - pos < fuel)%nat ->
  size_from fuel f content pos = length content.
Proof.
  intros Hr. revert pos. induction fuel as [|fuel IH]; intros pos Hp Hf; [lia|]. cbn [size_from]. rewrite Hr. cbn [negb].
  destruct (_ =? 0)%nat eqn:E.
  - apply Nat.eqb_eq in E. lia.
  - apply Nat.eqb_neq in E. apply IH; lia.
Qed.

Lemma get_cpu_count_bound n : get_cpu_count = Some n -> 0 <= n <= 32.
Proof. unfold get_cpu_count. repeat case_match; intros [= <-]. apply cpulist_count_bound. Qed.

Lemma arm_init_consistent cpuinfo entry family id :
  list.last cpuinfo <> Some colon ->
  exists features id', arm_init cpuinfo entry family 0 id = Some (features, id') /\ arm_consistent features.
Proof.
  intros Hl. unfold arm_init.
  destruct (extract_defined cpuinfo (str "CPU architecture") Hl) as [cpuArch ->]. cbv zeta.
  destruct (extract_defined cpuinfo (str "Processor") Hl) as [cpuProc ->].
  assert (exists q, (if arm_arch_7 cpuArch then Some cpuProc else Some None) = Some q) as [q ->]
    by (case_match; eauto).
  assert (exists hwcaps, arm_hwcaps cpuinfo entry = Some hwcaps) as [hwcaps ->].
  { unfold arm_hwcaps, get_elf_hwcap_from_proc_cpuinfo. repeat (case_match; [by eauto|]).
    destruct (extract_defined cpuinfo (str "CPU architecture") Hl) as [? ->]. case_match; [by eauto|].
    destruct (extract_defined cpuinfo (str "Features") Hl) as [? ->]. simpl. eauto. }
  destruct (cpu_id_defined cpuinfo cpu_id_entries id Hl) as [id' ->].
  destruct (extract_defined cpuinfo (str "Hardware") Hl) as [hardware ->].
  eexists _, _. split; [done|]. unfold arm_goldfish, arm_cpu_fixes, arm_hwcap2_features. cbv zeta.
  destruct hardware; repeat (apply consistent_set_if; [done..|]); apply consistent_hwcaps, has_arch_features.
Qed.

(** C19: on a device whose files can be read, whose [/proc/cpuinfo] does not end
    with a colon and whose CPUs can be counted, the initialisation of an ARM
    process returns, with at least one CPU and no more than 32, and with features
    that imply each other as documented: VFPv3 comes with VFPv2 and ARMv7, NEON with
    VFPv3 and its 32 registers, VFP_FMA with VFPv3 and FP16, and NEON_FMA with NEON
    and VFP_FMA. *)
Theorem android_cpuInit_consistent cpuinfo count entry s :
  dev_open (str "/proc/cpuinfo") = Some cpuinfo -> (forall f pos, dev_read_ok f pos = true) ->
  list.last cpuinfo <> Some colon -> get_cpu_count = Some count ->
  exists s', android_cpuInit T_arm entry s = Some s' /\
    arm_consistent (g_cpuFeatures s') /\ g_cpuCount s' = Z.max 1 count /\ 1 <= g_cpuCount s' <= 32 /\
    g_cpuFamily s' = ANDROID_CPU_FAMILY_ARM /\ g_inited s' = true.
Proof.
  intros Ho Hr Hl Hc. unfold android_cpuInit, get_file_size. rewrite Ho, size_from_full by (done || lia).
  rewrite (read_file_full _ _ _ Ho (Hr _)), Hc by done. cbn [target_init].
  destruct (arm_init_consistent cpuinfo entry (android_cpuInitFamily T_arm) (g_cpuIdArm s) Hl)
    as (features & id & -> & Hf).
  pose proof (get_cpu_count_bound _ Hc).
  eexists. split; [done|]. cbn. split_and!; [done| |..|done|done]; destruct (count =? 0) eqn:E; lia.
Qed.

End Consistency.

(** An emulator of an ARMv5 CPU. *)
Definition goldfish_text : cstr :=
  unlines [str "Processor : ARM926EJ-S rev 5 (v5l)"; str "Features : swp half thumb"; str "CPU implementer : 0x41";
           str "CPU architecture: 5TEJ"; str "CPU variant : 0x0"; str "CPU part : 0xc08"; str "CPU revision : 0";
           str "Hardware : Goldfish"].

Definition demo_goldfish : Device :=
  files_device [(str "/proc/cpuinfo", goldfish_text);
                (str "/sys/devices/system/cpu/present", str "0" ++ [newline]);
                (str "/sys/devices/system/cpu/possible", str "0" ++ [newline])].

Lemma android_cpuInit_consistent_witness :
  exists s', @android_cpuInit demo_goldfish T_arm [] cpu_initial = Some s' /\ arm_consistent (g_cpuFeatures s').
Proof.
  destruct (@android_cpuInit_consistent demo_goldfish goldfish_text 1 [] cpu_initial) as (s' & H & Hf & _).
  - reflexivity.
  - intros f pos. reflexivity.
  - vm_compute. congruence.
  - vm_compute. reflexivity.
  - exists s'. split; assumption.
Defined.

(** The special case of the emulator tests the family in the place of the
    features, and the test always holds in an ARM process: a CPU of architecture 5
    is said to have the integer division of ARMv7, and not to be an ARMv7. *)
Theorem goldfish_division_without_armv7 :
  exists s, @android_cpuInit demo_goldfish T_arm [] cpu_initial = Some s /\
    has (g_cpuFeatures s) ANDROID_CPU_ARM_FEATURE_IDIV_ARM = true /\
    has (g_cpuFeatures s) ANDROID_CPU_ARM_FEATURE_ARMv7 = false.
Proof. eexists. split; [vm_compute; reflexivity|]. by vm_compute. Qed.

(** ** Sessions *)

(** The calls of a client. *)
Inductive cpu_call :=
| GetCpuFamily
| GetRuntimeCpuFamily
| GetCpuFeatures
| GetCpuCount
| GetCpuIdArm
| SetCpu (cpu_count cpu_features : Z)
| SetCpuArm (cpu_count cpu_features cpu_id : Z).

(** Results as numbers. *)
Definition cpu_answer (c : cpu_call) (s : cpu_state) : Z :=
  match c with
  | GetCpuFamily => family_value (g_cpuFamily s)
  | GetRuntimeCpuFamily => family_value (g_runtimeCpuFamily s)
  | GetCpuFeatures => g_cpuFeatures s
  | GetCpuCount => g_cpuCount s
  | GetCpuIdArm => g_cpuIdArm s
  | SetCpu _ _ | SetCpuArm _ _ _ => 0
  end.

Section Sessions.
Context `{Device}.
Variable t : target.
Variable entry : cstr.

Definition cpu_step (c : cpu_call) (s : cpu_state) : option (Z * cpu_state) :=
  let value {A} (f : A -> Z) (r : option (A * cpu_state)) := (fun '(a, s) => (f a, s)) <$> r in
  match c with
  | GetCpuFamily => value family_value (android_getCpuFamily t entry s)
  | GetRuntimeCpuFamily => value family_value (android_getRuntimeCpuFamily t entry s)
  | GetCpuFeatures => value id (android_getCpuFeatures t entry s)
  | GetCpuCount => value id (android_getCpuCount t entry s)
  | GetCpuIdArm => value id (android_getCpuIdArm t entry s)
  | SetCpu n f => value Z.b2z (android_setCpu t n f s)
  | SetCpuArm n f i => value Z.b2z (android_setCpuArm t n f i s)
  end.

Fixpoint cpu_run (cs : list cpu_call) (s : cpu_state) : option (list Z * cpu_state) :=
  match cs with
  | [] => Some ([], s)
  | c :: cs =>
      match cpu_step c s with
      | None => None
      | Some (r, s) => match cpu_run cs s with None => None | Some (rs, s) => Some (r :: rs, s) end
      end
  end.

Lemma cpuInit_inited s s' : android_cpuInit t entry s = Some s' -> g_inited s' = true /\ g_once s' = g_once s.
Proof. unfold android_cpuInit. repeat (case_match; try done); by intros [= <-]. Qed.

(** The first call settles the state. *)
Lemma first_step_settles c s r :
  cpu_step c cpu_initial = Some (r, s) -> g_once s = true /\ g_inited s = true.
Proof.
  destruct c; cbn;
    try (unfold pthread_once; cbn; destruct (android_cpuInit t entry cpu_initial) as [s1|] eqn:E; [|done];
         apply cpuInit_inited in E as [? ?]; cbn; by intros [= _ <-]);
    by intros [= _ <-].
Qed.

Lemma settled_step c s : g_once s = true -> g_inited s = true -> cpu_step c s = Some (cpu_answer c s, s).
Proof.
  intros Ho Hi. destruct c; cbn; unfold android_getCpuFamily, android_getRuntimeCpuFamily, android_getCpuFeatures,
    android_getCpuCount, android_getCpuIdArm, getter, pthread_once, android_setCpuArm, android_setCpu;
    by rewrite ?Ho, ?Hi.
Qed.

Lemma settled_run cs s :
  g_once s = true -> g_inited s = true -> cpu_run cs s = Some (map (fun c => cpu_answer c s) cs, s).
Proof.
  intros Ho Hi. induction cs as [|c cs IH]; [done|]. cbn. by rewrite settled_step, IH.
Qed.

(** The first call of a session settles the state: every later query answers
    from it, and every later [android_setCpu] or [android_setCpuArm] fails and
    changes nothing. *)
Theorem first_call_wins c cs r s :
  cpu_step c cpu_initial = Some (r, s) ->
  cpu_run (c :: cs) cpu_initial = Some (r :: map (fun c => cpu_answer c s) cs, s).
Proof.
  intros Hc. destruct (first_step_settles _ _ _ Hc). cbn [cpu_run]. rewrite Hc. by rewrite settled_run.
Qed.

End Sessions.

Lemma first_call_wins_witness :
  @cpu_run demo_lists T_arm [] [SetCpuArm 0 5 7; GetCpuFeatures; SetCpu 4 9; GetCpuCount; GetCpuIdArm; GetRuntimeCpuFamily]
    cpu_initial =
  Some ([1; 5; 0; 1; 7; 0], mk_cpu true true ANDROID_CPU_FAMILY_ARM ANDROID_CPU_FAMILY_UNKNOWN 5 1 7).
Proof.
  exact (@first_call_wins demo_lists T_arm [] (SetCpuArm 0 5 7)
    [GetCpuFeatures; SetCpu 4 9; GetCpuCount; GetCpuIdArm; GetRuntimeCpuFamily] 1
    (mk_cpu true true ANDROID_CPU_FAMILY_ARM ANDROID_CPU_FAMILY_UNKNOWN 5 1 7) eq_refl).
Defined.
