(* ===== verification/Paths.v ===== *)
(** * Paths of the virtual file system

    Models [sources/crystax/vfs/futils.cpp] and the classes of
    [sources/crystax/include/crystax/path.hpp]: normalisation of paths, absolute
    paths, sub-paths, base and directory names.  A pointer to a string is an
    optional string, [None] for [NULL]; the result of a function is optional too,
    with [None] when a buffer on the stack overflows. *)

From S2P Require Import Prelude Util.
Open Scope Z_scope.

Definition NAME_MAX : nat := 255.
Definition PATH_MAX : nat := 4096.

(** [strcat] on a buffer of [PATH_MAX + 1] bytes. *)
Definition strcat (buf s : cstr) : option cstr :=
  if (length buf + length s <=? PATH_MAX)%nat then Some (buf ++ s) else None.

Definition dot : cstr := str ".".
Definition dotdot : cstr := str "..".

(** ** [normalize] *)

(** The buffer and the variable [buflen], which is not always its length. *)
Record norm := mk_norm { buf : cstr; buflen : Z }.

(** [strrchr]: the text before the last slash, and from it on. *)
Fixpoint last_slash (s : cstr) : option (cstr * cstr) :=
  match s with
  | [] => None
  | c :: s' =>
      match last_slash s' with
      | Some (before, from) => Some (c :: before, from)
      | None => if bool_decide (c = slash) then Some ([], s) else None
      end
  end.

(** [strcat] of a text, with the length added to [buflen]. *)
Definition append (b : norm) (s : cstr) : option norm :=
  (fun t => mk_norm t (buflen b + Z.of_nat (length s))) <$> strcat (buf b) s.

(** The part that a [..] removes. *)
Definition norm_up (b : norm) : option norm :=
  if buflen b =? 0 then append b dotdot
  else
    match last_slash (buf b) with
    | None =>
        if (buflen b =? 1) && bool_decide (head (buf b) = Some "."%char)
        then Some (mk_norm dotdot (buflen b + 2))
        else if (buflen b =? 2) && bool_decide (take 2 (buf b) = dotdot)
        then append b (slash :: dotdot)
        else Some (mk_norm dot 1)
    | Some (before, from) =>
        let '(before, from) := match before, from with
                               | [], c :: from => ([c], from)
                               | _, _ => (before, from)
                               end in
        if (buflen b - Z.of_nat (length before) =? 3) && bool_decide (take 3 from = slash :: dotdot)
        then append b (slash :: dotdot)
        else Some (mk_norm before (Z.of_nat (length before)))
    end.

(** An ordinary part; the character [buf[buflen - 1]] is the final NUL when
    [buflen] is too large. *)
Definition norm_part (b : norm) (part : cstr) : option norm :=
  let b := if (buflen b =? 1) && bool_decide (head (buf b) = Some "."%char) then mk_norm [] 0 else b in
  let ends_in_slash := bool_decide (buf b !! Z.to_nat (buflen b - 1) = Some slash) in
  match (if (0 <? buflen b) && negb ends_in_slash then append b [slash] else Some b) with
  | None => None
  | Some b => append b part
  end.

(** The body of the loop, for a part of the path. *)
Definition norm_step (absolute : bool) (b : norm) (part : cstr) : option norm :=
  let part := take NAME_MAX part in
  if (length part =? 0)%nat then
    if (buflen b =? 0) && absolute then append b [slash] else Some b
  else if bool_decide (part = dot) then
    if buflen b =? 0 then append b dot else Some b
  else if bool_decide (part = dotdot) then norm_up b
  else norm_part b part.

Fixpoint norm_parts (absolute : bool) (b : norm) (parts : list cstr) : option norm :=
  match parts with
  | [] => Some b
  | part :: parts =>
      match norm_step absolute b part with
      | None => None
      | Some b => norm_parts absolute b parts
      end
  end.

(** [is_absolute] *)
Definition is_absolute (path : option cstr) : bool :=
  match path with Some (c :: _) => bool_decide (c = slash) | _ => false end.

(** [normalize] *)
Definition normalize (path : option cstr) : option (option cstr) :=
  match path with
  | None => Some None
  | Some p => (fun b => Some (buf b)) <$> norm_parts (is_absolute path) (mk_norm [] 0) (split_on slash p)
  end.

(** The test of [is_normalized] on a part. *)
Definition part_normalized (part : cstr) : bool :=
  negb ((length part =? 0)%nat || bool_decide (part = dot) || bool_decide (part = dotdot)).

(** [is_normalized] *)
Definition is_normalized (path : option cstr) : bool :=
  match path with
  | None => true
  | Some [] => true
  | Some (c :: p) =>
      if bool_decide (c = slash)
      then match p with [] => true | _ => forallb part_normalized (split_on slash p) end
      else forallb part_normalized (split_on slash (c :: p))
  end.

Section Cwd.

(** The current directory, as [getcwd] writes it into a buffer of [PATH_MAX + 1]
    bytes; [None] when it fails. *)
Variable cwd : option cstr.

(** [absolutize] *)
Definition absolutize (path : option cstr) : option (option cstr) :=
  match path with
  | None => Some None
  | Some [] => Some None
  | Some p =>
      if is_absolute path then normalize path
      else
        match cwd with
        | None => Some None
        | Some buf =>
            if (PATH_MAX - length buf <? length p + 1)%nat then Some None
            else normalize (Some (buf ++ slash :: p))
        end
  end.

(** The absolute and normalised form of [is_subpath] and [relpath]. *)
Definition canonical (path : option cstr) : option (option cstr) :=
  if is_absolute path && is_normalized path then Some path else absolutize path.

(** The test that both functions make: [r] is the root, or [p] goes on after [r]
    with a slash or ends there. *)
Definition under (r p : cstr) : bool :=
  bool_decide (take (length r) p = r) &&
  match drop (length r) p with [] => true | c :: _ => bool_decide (c = slash) end.

(** [is_subpath] *)
Definition is_subpath (root path : option cstr) : option bool :=
  match canonical root, canonical path with
  | Some r, Some p =>
      Some (match r, p with
            | Some r, Some p => bool_decide (r = [slash]) || under r p
            | _, _ => false
            end)
  | _, _ => None
  end.

(** [relpath] *)
Definition relpath (root path : option cstr) : option (option cstr) :=
  match canonical root, canonical path with
  | Some r, Some p =>
      Some (match r, p with
            | Some r, Some p =>
                if bool_decide (r = [slash]) then Some (drop 1 p)
                else if under r p
                then Some (match drop (length r) p with
                           | c :: s => if bool_decide (c = slash) then s else c :: s
                           | [] => []
                           end)
                else None
            | _, _ => None
            end)
  | _, _ => None
  end.

End Cwd.

(** The normal form of [basename] and [dirname]. *)
Definition normal (path : cstr) : option cstr :=
  if is_normalized (Some path) then Some path
  else match normalize (Some path) with Some r => r | None => None end.

(** A buffer of [NAME_MAX + 1] bytes. *)
Definition name_buffer (s : cstr) : option cstr :=
  if (length s <=? NAME_MAX)%nat then Some s else None.

(** [basename] *)
Definition basename (path : option cstr) : option (option cstr) :=
  match path with
  | None => Some None
  | Some [] => Some (Some [])
  | Some path =>
      match normal path with
      | None => None
      | Some p =>
          Some <$> (match last_slash p with
                    | None => name_buffer p
                    | Some (_, from) =>
                        match drop 1 from with
                        | [] => Some dot
                        | part => name_buffer part
                        end
                    end)
      end
  end.

(** [dirname] *)
Definition dirname (path : option cstr) : option (option cstr) :=
  match path with
  | None => Some None
  | Some path =>
      match normal path with
      | None => None
      | Some p =>
          match last_slash p with
          | None => Some (Some dot)
          | Some (before, _) =>
              if (length before <=? PATH_MAX)%nat
              then Some (Some (match before with [] => [slash] | _ => before end))
              else None
          end
      end
  end.

(** ** The classes of [path.hpp] *)

(** [operator+=] of [details::path_t], with the function [reset] of the class of
    the object; adding to [NULL] is undefined. *)
Definition path_append (reset : option cstr -> option (option cstr)) (p path : option cstr)
  : option (option cstr) :=
  match path with
  | None => Some p
  | Some [] => Some p
  | Some path =>
      match p with
      | None => None
      | Some p =>
          let ns := p ++ slash :: path in
          if is_normalized (Some ns) then reset (Some ns)
          else match normalize (Some ns) with Some r => reset r | None => None end
      end
  end.

(** [operator==] *)
Definition path_eq (a b : option cstr) : bool := bool_decide (a = b).

(** [path_t::path_t] and [path_t::reset] *)
Definition path_t (path : option cstr) : option (option cstr) := normalize path.

(** [abspath_t::abspath_t] and [abspath_t::reset] *)
Definition abspath_t (cwd path : option cstr) : option (option cstr) := absolutize cwd path.

(** ** The normal form of an absolute path *)

(** The components of an absolute path, the last one first: empty parts and dots
    are skipped, and two dots remove a component. *)
Definition component (stack : list cstr) (part : cstr) : list cstr :=
  if bool_decide (part = []) || bool_decide (part = dot) then stack
  else if bool_decide (part = dotdot) then tail stack
  else part :: stack.

Definition components (path : cstr) : list cstr := fold_left component (split_on slash path) [].

(** The text of components, each after a slash. *)
Fixpoint slashes (stack : list cstr) : cstr :=
  match stack with
  | [] => []
  | part :: stack => slashes stack ++ slash :: part
  end.

Definition render (stack : list cstr) : cstr :=
  match stack with [] => [slash] | _ => slashes stack end.

Definition component_ok (part : cstr) : Prop :=
  part <> [] /\ part <> dot /\ part <> dotdot /\ slash ∉ part.

Lemma last_slash_none p : slash ∉ p -> last_slash p = None.
Proof.
  induction p as [|c p IH]; intros Hp; [done|]. apply not_elem_of_cons in Hp as [? ?]. cbn.
  rewrite IH, bool_decide_eq_false_2 by congruence. done.
Qed.

Lemma last_slash_app before p : slash ∉ p -> last_slash (before ++ slash :: p) = Some (before, slash :: p).
Proof.
  intros Hp. induction before as [|c before IH]; cbn.
  - by rewrite last_slash_none, bool_decide_eq_true_2.
  - by rewrite IH.
Qed.

Lemma slashes_length part stack : length (slashes (part :: stack)) = (length (slashes stack) + S (length part))%nat.
Proof. cbn. rewrite length_app. done. Qed.

Lemma norm_up_render stack :
  Forall component_ok stack ->
  norm_up (mk_norm (render stack) (Z.of_nat (length (render stack)))) =
  Some (mk_norm (render (tail stack)) (Z.of_nat (length (render (tail stack))))).
Proof.
  intros Hok. destruct Hok as [|part stack (Hne & _ & Hdd & Hs) Hok]; [done|].
  unfold norm_up. cbn [buf buflen render tail].
  rewrite (proj2 (Z.eqb_neq _ 0)) by (rewrite slashes_length; lia).
  cbn [slashes]. rewrite last_slash_app by done.
  destruct stack as [|part' stack].
  - cbn [slashes app render length]. rewrite (bool_decide_eq_false_2 (take 3 part = _)).
    + by rewrite andb_false_r.
    + destruct part as [|c part]; [done|]. intros [= -> _]. apply Hs. left.
  - destruct (slashes (part' :: stack)) as [|c text] eqn:E.
    { pose proof (slashes_length part' stack) as Hl. rewrite E in Hl. simpl in Hl. lia. }
    rewrite <- E. cbn [render]. rewrite (proj2 (andb_false_iff _ _)); [done|].
    rewrite length_app, bool_decide_eq_false, Z.eqb_neq.
    destruct (decide (length part = 2%nat)) as [Hl|Hl]; [|left; simpl; lia].
    right. destruct part as [|x [|y [|]]]; simplify_eq/=. congruence.
Qed.

Lemma strcat_fits t s : (length t + length s <= PATH_MAX)%nat -> strcat t s = Some (t ++ s).
Proof. intros H. unfold strcat. by rewrite (proj2 (Nat.leb_le _ _) H). Qed.

Lemma append_fits t s :
  (length t + length s <= PATH_MAX)%nat ->
  append (mk_norm t (Z.of_nat (length t))) s = Some (mk_norm (t ++ s) (Z.of_nat (length (t ++ s)))).
Proof.
  intros H. unfold append. cbn [buf buflen]. rewrite strcat_fits by done. cbn. do 2 f_equal.
  rewrite length_app. lia.
Qed.

(** A component does not end with a slash. *)
Lemma last_no_slash last stack :
  last <> [] -> slash ∉ last ->
  slashes (last :: stack) !! Z.to_nat (Z.of_nat (length (slashes (last :: stack))) - 1) <> Some slash.
Proof.
  intros Hne Hs. set (t := slashes (last :: stack)).
  replace (Z.to_nat (Z.of_nat (length t) - 1)) with (pred (length t)) by lia.
  rewrite <- last_lookup. unfold t. cbn [slashes]. rewrite last_app_cons, last_cons.
  destruct (list.last last) as [c|] eqn:E; [|by apply last_None in E].
  intros [= ->]. by apply last_Some_elem_of in E.
Qed.

Lemma norm_part_render stack part :
  Forall component_ok stack -> (length (slashes (part :: stack)) <= PATH_MAX)%nat ->
  norm_part (mk_norm (render stack) (Z.of_nat (length (render stack)))) part =
  Some (mk_norm (slashes (part :: stack)) (Z.of_nat (length (slashes (part :: stack))))).
Proof.
  intros Hok Hfit. rewrite slashes_length in Hfit.
  destruct Hok as [|last stack (Hne & _ & _ & Hs) Hok].
  - cbn [slashes length] in Hfit.
    change (norm_part _ part) with (append (mk_norm [slash] (Z.of_nat (length [slash]))) part).
    rewrite append_fits by (cbn [length]; lia). done.
  - unfold norm_part. cbn [buf buflen render]. set (t := slashes (last :: stack)) in *.
    assert (Hlen : (2 <= length t)%nat).
    { unfold t. rewrite slashes_length. destruct last; [done|simpl; lia]. }
    rewrite (proj2 (Z.eqb_neq _ 1)) by lia. cbn [andb buf buflen].
    rewrite (proj2 (Z.ltb_lt 0 _)) by lia. rewrite bool_decide_eq_false_2.
    + cbn [andb negb]. rewrite append_fits by (simpl; lia).
      rewrite append_fits by (rewrite length_app; simpl; lia). cbn [slashes]. fold t.
      by rewrite <- app_assoc.
    + by apply last_no_slash.
Qed.

Lemma norm_step_render stack part :
  Forall component_ok stack -> slash ∉ part -> (length part <= NAME_MAX)%nat ->
  (length (slashes stack) + S (length part) <= PATH_MAX)%nat ->
  norm_step true (mk_norm (render stack) (Z.of_nat (length (render stack)))) part =
  Some (mk_norm (render (component stack part)) (Z.of_nat (length (render (component stack part))))).
Proof.
  intros Hok Hs Hn Hfit. unfold norm_step, component. rewrite take_ge by done.
  assert (Hlen : 0 < Z.of_nat (length (render stack))).
  { destruct stack; [done|]. cbn [render]. rewrite slashes_length. lia. }
  cbn [buflen]. rewrite (proj2 (Z.eqb_neq (Z.of_nat (length (render stack))) 0)) by lia.
  destruct part as [|c part]; [done|]. cbn [length Nat.eqb].
  rewrite (bool_decide_eq_false_2 (c :: part = [])) by done. cbn [orb].
  case_bool_decide; [done|]. case_bool_decide; [by apply norm_up_render|].
  rewrite norm_part_render; [done|done|]. by rewrite slashes_length.
Qed.

Lemma component_keeps stack part :
  Forall component_ok stack -> slash ∉ part -> Forall component_ok (component stack part).
Proof.
  intros Hok Hs. unfold component. repeat case_bool_decide; cbn [orb]; try done.
  - by destruct Hok.
  - by constructor.
Qed.

Lemma component_length stack part :
  (length (slashes (component stack part)) <= length (slashes stack) + S (length part))%nat.
Proof.
  unfold component. repeat case_bool_decide; cbn [orb]; try lia.
  - destruct stack; [simpl; lia|]. rewrite slashes_length. simpl. lia.
  - rewrite slashes_length. lia.
Qed.

(** The room that the parts need. *)
Fixpoint room (parts : list cstr) : nat :=
  match parts with [] => 0 | part :: parts => S (length part) + room parts end.

Lemma norm_parts_render parts stack :
  Forall component_ok stack -> Forall (fun part => slash ∉ part /\ (length part <= NAME_MAX)%nat) parts ->
  (length (slashes stack) + room parts <= PATH_MAX)%nat ->
  norm_parts true (mk_norm (render stack) (Z.of_nat (length (render stack)))) parts =
  Some (mk_norm (render (fold_left component parts stack))
          (Z.of_nat (length (render (fold_left component parts stack))))).
Proof.
  intros Hok Hp. revert stack Hok. induction Hp as [|part parts [Hs Hn] Hp IH]; intros stack Hok Hroom; [done|].
  cbn [norm_parts fold_left]. cbn [room] in Hroom.
  rewrite norm_step_render by (done || lia). apply IH; [by apply component_keeps|].
  pose proof (component_length stack part). lia.
Qed.

Lemma split_on_parts c p : Forall (fun part => c ∉ part) (split_on c p).
Proof.
  induction p as [|d p IH]; cbn; [by repeat constructor; apply not_elem_of_nil|].
  case_bool_decide as Hd; [constructor; [apply not_elem_of_nil|done]|].
  destruct IH as [|h t Hh Ht]; constructor; try done.
  - apply not_elem_of_cons. split; [congruence|apply not_elem_of_nil].
  - apply not_elem_of_cons. split; [congruence|done].
Qed.

Lemma split_on_room c p : room (split_on c p) = S (length p).
Proof.
  induction p as [|d p IH]; [done|]. cbn [split_on]. case_bool_decide; cbn [room length]; [lia|].
  destruct (split_on c p) as [|h t] eqn:E; [by apply split_on_nonempty in E|]. cbn [room length] in *. lia.
Qed.

Lemma components_ok path : Forall component_ok (components path).
Proof.
  unfold components. assert (Hp := split_on_parts slash path). revert Hp.
  generalize (@nil cstr), (Forall_nil_2 component_ok). induction (split_on slash path) as [|part parts IH];
    intros stack Hok Hp; [done|]. inversion Hp; subst. apply IH; [by apply component_keeps|done].
Qed.

(** The normal form of an absolute path that fits. *)
Lemma normalize_render p :
  (S (length p) <= PATH_MAX)%nat -> Forall (fun part => (length part <= NAME_MAX)%nat) (split_on slash p) ->
  normalize (Some (slash :: p)) = Some (Some (render (components p))).
Proof.
  intros Hfit Hn. unfold normalize. cbn [is_absolute split_on].
  rewrite !bool_decide_eq_true_2 by done.
  change (norm_parts true (mk_norm [] 0) ([] :: split_on slash p)) with
    (norm_parts true (mk_norm (render []) (Z.of_nat (length (render [])))) (split_on slash p)).
  rewrite norm_parts_render; [done|constructor|..].
  - pose proof (split_on_parts slash p) as Hs. rewrite list.Forall_forall in *.
    intros part Hp. split; [by apply Hs|by apply Hn].
  - rewrite split_on_room. done.
Qed.

(** ** Normalised paths *)

Lemma split_slashes part p :
  slash ∉ part -> split_on slash (part ++ slash :: p) = part :: split_on slash p.
Proof.
  intros Hs. rewrite split_on_app. by rewrite (split_on_memchr slash part), (proj2 (memchr_not_elem _ _) Hs).
Qed.

Lemma split_one part : slash ∉ part -> split_on slash part = [part].
Proof. intros Hs. by rewrite split_on_memchr, (proj2 (memchr_not_elem _ _) Hs). Qed.

(** The parts of a rendered path. *)
Lemma split_render stack :
  Forall component_ok stack -> split_on slash (slashes stack) = [] :: rev stack.
Proof.
  induction 1 as [|part stack (_ & _ & _ & Hs) Hok IH]; [done|]. cbn [slashes rev].
  rewrite split_on_app, IH, split_one by done. done.
Qed.

Lemma slashes_cons stack : stack <> [] -> exists text, slashes stack = slash :: text.
Proof.
  induction stack as [|part stack IH]; [done|]. intros _. destruct stack as [|part' stack]; [by exists part|].
  destruct IH as [text Ht]; [done|]. cbn [slashes] in *. rewrite Ht. by exists (text ++ slash :: part).
Qed.

Lemma render_split stack :
  Forall component_ok stack -> stack <> [] ->
  exists text, render stack = slash :: text /\ split_on slash text = rev stack /\ text <> [].
Proof.
  intros Hok Hne. destruct (slashes_cons stack Hne) as [text Ht]. exists text.
  assert (Hsp := split_render stack Hok). rewrite Ht in Hsp. cbn in Hsp. rewrite bool_decide_eq_true_2 in Hsp by done.
  destruct stack as [|part stack]; [done|]. cbn [render]. split_and!; [done|congruence|].
  intros ->. injection Hsp as Hsp. cbn [rev] in Hsp. apply (f_equal list.last) in Hsp.
  rewrite last_snoc in Hsp. injection Hsp as Hnil. inversion Hok as [|? ? (? & _)]; subst. done.
Qed.

Lemma part_normalized_ok part : component_ok part -> part_normalized part = true.
Proof.
  intros (Hne & Hd & Hdd & _). unfold part_normalized. rewrite !bool_decide_eq_false_2 by done. by destruct part.
Qed.

Lemma render_normalized stack : Forall component_ok stack -> is_normalized (Some (render stack)) = true.
Proof.
  intros Hok. destruct (decide (stack = [])) as [->|Hne]; [done|].
  destruct (render_split stack Hok Hne) as (text & -> & Hsp & Htext). cbn [is_normalized].
  rewrite bool_decide_eq_true_2 by done. destruct text; [done|]. rewrite Hsp.
  apply forallb_forall. intros part Hp. apply part_normalized_ok.
  rewrite list.Forall_forall in Hok. apply Hok. rewrite list_elem_of_In. by apply in_rev.
Qed.

(** An absolute path that fits in the buffers. *)
Definition fits_path (p : cstr) : Prop :=
  (S (length p) <= PATH_MAX)%nat /\ Forall (fun part => (length part <= NAME_MAX)%nat) (split_on slash p).

Lemma fits_path_check p :
  (S (length p) <=? PATH_MAX)%nat && forallb (fun part => length part <=? NAME_MAX)%nat (split_on slash p) = true ->
  fits_path p.
Proof.
  intros [H1 H2]%andb_true_iff. split; [by apply Nat.leb_le|]. apply list.Forall_forall. intros q Hq.
  apply Nat.leb_le. apply (proj1 (forallb_forall _ _) H2), list_elem_of_In, Hq.
Qed.

Lemma fold_components_rev parts stack :
  Forall component_ok parts -> fold_left component parts stack = rev parts ++ stack.
Proof.
  intros Hok. revert stack. induction Hok as [|part parts (Hne & Hd & Hdd & _) Hok IH]; intros stack; [done|].
  cbn [fold_left rev]. rewrite IH. unfold component. rewrite !bool_decide_eq_false_2 by done. cbn [orb].
  by rewrite <- app_assoc.
Qed.

Lemma slashes_rev_split p : slashes (rev (split_on slash p)) = slash :: p.
Proof.
  assert (Happ : forall l stack, slashes (l ++ stack) = slashes stack ++ slashes l).
  { induction l as [|part l IH]; intros stack; cbn; [by rewrite app_nil_r|]. by rewrite IH, <- app_assoc. }
  induction p as [|c p IH]; [done|]. cbn [split_on]. case_bool_decide as Hc.
  - subst. cbn [rev]. rewrite Happ, IH. done.
  - destruct (split_on slash p) as [|h t] eqn:E; [by apply split_on_nonempty in E|].
    cbn [rev] in *. rewrite Happ in *. cbn in *. congruence.
Qed.

Lemma forallb_parts_ok p :
  forallb part_normalized (split_on slash p) = true -> Forall component_ok (split_on slash p).
Proof.
  intros H. assert (Hs := split_on_parts slash p). rewrite list.Forall_forall in *. intros part Hp.
  assert (Hn : part_normalized part = true).
  { apply (proj1 (forallb_forall _ _) H). by apply list_elem_of_In. }
  unfold part_normalized in Hn. rewrite negb_true_iff, !orb_false_iff, !bool_decide_eq_false in Hn.
  destruct Hn as [[Hl ?] ?]. split_and!; [by intros ->|done|done|by apply Hs].
Qed.

(** A normalised absolute path is the text of its components. *)
Lemma normalized_render p : is_normalized (Some (slash :: p)) = true -> slash :: p = render (components p).
Proof.
  cbn [is_normalized]. rewrite bool_decide_eq_true_2 by done. destruct p as [|c p]; [done|].
  intros Hok%forallb_parts_ok. unfold components. rewrite fold_components_rev, app_nil_r by done.
  unfold render. destruct (rev (split_on slash (c :: p))) eqn:E.
  - apply (f_equal (@rev _)) in E. rewrite rev_involutive in E. by apply split_on_nonempty in E.
  - by rewrite <- E, slashes_rev_split.
Qed.

Lemma canonical_render cwd p :
  fits_path p -> canonical cwd (Some (slash :: p)) = Some (Some (render (components p))).
Proof.
  intros [Hl Hn]. unfold canonical. destruct (is_normalized (Some (slash :: p))) eqn:E.
  - cbn [is_absolute]. rewrite bool_decide_eq_true_2 by done. cbn [andb]. by rewrite normalized_render at 1.
  - rewrite andb_false_r. unfold absolutize. cbn [is_absolute]. rewrite bool_decide_eq_true_2 by done.
    by apply normalize_render.
Qed.

Lemma normal_render p : fits_path p -> normal (slash :: p) = Some (render (components p)).
Proof.
  intros [Hl Hn]. unfold normal. destruct (is_normalized (Some (slash :: p))) eqn:E.
  - by rewrite normalized_render at 1.
  - by rewrite normalize_render.
Qed.

Lemma components_length p : (length (render (components p)) <= S (length p))%nat.
Proof.
  assert (H : forall parts stack, (length (slashes (fold_left component parts stack)) <=
    length (slashes stack) + room parts)%nat).
  { induction parts as [|part parts IH]; intros stack; cbn [fold_left room]; [lia|].
    specialize (IH (component stack part)). pose proof (component_length stack part). lia. }
  specialize (H (split_on slash p) []). rewrite split_on_room in H. unfold components in *.
  destruct (fold_left _ _ _); cbn [render length slashes] in *; lia.
Qed.

Lemma components_parts p part : part ∈ components p -> part ∈ split_on slash p.
Proof.
  assert (H : forall parts stack, part ∈ fold_left component parts stack -> part ∈ parts \/ part ∈ stack).
  { induction parts as [|q parts IH]; intros stack; cbn [fold_left]; [by right|].
    intros [Hp|Hp]%IH; [left; by right|]. unfold component in Hp. repeat case_bool_decide; cbn [orb] in Hp; try by right.
    - right. destruct stack; [done|by right].
    - apply elem_of_cons in Hp as [->|Hp]; [left; left|by right]. }
  intros [Hp|Hp]%H; [done|by apply not_elem_of_nil in Hp].
Qed.

(** The components of the text of components. *)
Lemma render_fits p :
  fits_path p -> exists p', render (components p) = slash :: p' /\ fits_path p' /\ components p' = components p.
Proof.
  intros [Hl Hn]. pose proof (components_ok p) as Hok. pose proof (components_length p) as Hlen.
  destruct (decide (components p = [])) as [E|E].
  - rewrite E. exists []. split_and!; [done| |done]. split; [cbn; unfold PATH_MAX in *; lia|].
    repeat constructor; cbn; lia.
  - destruct (render_split _ Hok E) as (text & Ht & Hsp & _). exists text. split; [done|].
    rewrite Ht in Hlen. cbn [length] in Hlen. split; [split; [lia|]|].
    + rewrite Hsp. rewrite list.Forall_forall in *. intros part Hp. apply Hn, components_parts.
      rewrite list_elem_of_In in *. by apply in_rev.
    + unfold components at 1. rewrite Hsp, fold_components_rev, rev_involutive, app_nil_r; [done|].
      by apply Forall_rev.
Qed.

(** ** Sub-paths *)

Lemma slashes_app l stack : slashes (l ++ stack) = slashes stack ++ slashes l.
Proof.
  induction l as [|part l IH]; cbn; [by rewrite app_nil_r|]. by rewrite IH, <- app_assoc.
Qed.

Lemma slashes_head l : match slashes l with [] => True | c :: _ => c = slash end.
Proof. destruct l as [|part l]; [done|]. destruct (slashes_cons (part :: l)) as [text ->]; done. Qed.

Lemma slashes_inj s1 s2 : Forall component_ok s1 -> Forall component_ok s2 -> slashes s1 = slashes s2 -> s1 = s2.
Proof.
  intros H1 H2 E. apply (f_equal (split_on slash)) in E. rewrite !split_render in E by done.
  injection E as E. apply (f_equal (@rev _)) in E. by rewrite !rev_involutive in E.
Qed.

(** The test on the texts is a test on the components. *)
Lemma under_suffix s1 s2 :
  Forall component_ok s1 -> Forall component_ok s2 -> under (slashes s1) (slashes s2) = true <-> s1 `suffix_of` s2.
Proof.
  intros H1 H2. unfold under. rewrite andb_true_iff, bool_decide_eq_true. split.
  - intros [Ht Hd].
    pose proof (take_drop (length (slashes s1)) (slashes s2)) as Hp. rewrite Ht in Hp.
    destruct (drop (length (slashes s1)) (slashes s2)) as [|c rest].
    + rewrite app_nil_r in Hp. apply slashes_inj in Hp as ->; done.
    + apply bool_decide_eq_true in Hd as ->. apply (f_equal (split_on slash)) in Hp.
      rewrite split_on_app, !split_render in Hp by done. injection Hp as Hp.
      apply (f_equal (@rev _)) in Hp. rewrite rev_app_distr, !rev_involutive in Hp. by exists (rev (split_on slash rest)).
  - intros [l ->]. rewrite slashes_app, take_app_length, drop_app_length. split; [done|].
    pose proof (slashes_head l). destruct (slashes l); [done|]. by apply bool_decide_eq_true.
Qed.

Lemma render_root s : Forall component_ok s -> render s = [slash] <-> s = [].
Proof.
  intros Hok. split; [|by intros ->]. destruct Hok as [|part s (Hne & _)]; [done|]. cbn [render]. intros E.
  apply (f_equal (@length _)) in E. rewrite slashes_length in E. destruct part; [done|simpl in E; lia].
Qed.

(** What both functions compute, on components. *)
Lemma under_render s1 s2 :
  Forall component_ok s1 -> Forall component_ok s2 ->
  bool_decide (render s1 = [slash]) || under (render s1) (render s2) = bool_decide (s1 `suffix_of` s2).
Proof.
  intros H1 H2. apply eq_true_iff_eq. rewrite orb_true_iff, !bool_decide_eq_true, render_root by done.
  destruct s1 as [|part s1]; [split; [intros _; apply suffix_nil|by left]|].
  destruct s2 as [|part2 s2].
  - split; [intros [?|Hu]; [done|]|by intros [l Hl]; destruct l].
    exfalso. unfold under in Hu. apply andb_true_iff in Hu as [Hu _]. apply bool_decide_eq_true in Hu.
    apply (f_equal (@length _)) in Hu. rewrite length_take in Hu. cbn [render] in Hu. rewrite slashes_length in Hu.
    inversion H1 as [|? ? (Hne & _)]; subst. destruct part; [done|]. cbn in Hu. lia.
  - cbn [render]. rewrite under_suffix by done. naive_solver.
Qed.

(** ** Canonical texts *)

(** The texts that [normalize] gives for absolute paths, long ones included. *)
Definition stack_ok (stack : list cstr) : Prop :=
  Forall component_ok stack /\ Forall (fun part => (length part <= NAME_MAX)%nat) stack /\
  (length (render stack) <= PATH_MAX)%nat.

Definition canonical_text (q : cstr) : Prop := exists stack, stack_ok stack /\ q = render stack.

Lemma append_inv t n s b : append (mk_norm t n) s = Some b -> (length t + length s <= PATH_MAX)%nat.
Proof. unfold append, strcat. cbn [buf]. destruct (_ <=? _)%nat eqn:E; [|done]. intros _. by apply Nat.leb_le. Qed.

Lemma append_result t n s b : append (mk_norm t n) s = Some b -> b = mk_norm (t ++ s) (n + Z.of_nat (length s)).
Proof. unfold append, strcat. cbn [buf buflen]. destruct (_ <=? _)%nat; [|done]. by intros [= <-]. Qed.

(** An ordinary part is added only when it fits. *)
Lemma norm_part_inv stack part b :
  Forall component_ok stack ->
  norm_part (mk_norm (render stack) (Z.of_nat (length (render stack)))) part = Some b ->
  (length (slashes (part :: stack)) <= PATH_MAX)%nat.
Proof.
  intros Hok Hb. rewrite slashes_length.
  destruct Hok as [|last stack (Hne & _ & _ & Hs) Hok].
  - change (norm_part _ part) with (append (mk_norm [slash] 1) part) in Hb. apply append_inv in Hb.
    cbn [slashes length] in *. lia.
  - unfold norm_part in Hb. cbn [buf buflen render] in Hb. set (t := slashes (last :: stack)) in *.
    assert (Hlen : (2 <= length t)%nat).
    { unfold t. rewrite slashes_length. destruct last; [done|simpl; lia]. }
    rewrite (proj2 (Z.eqb_neq _ 1)) in Hb by lia. cbn [andb buf buflen] in Hb.
    rewrite (proj2 (Z.ltb_lt 0 _)), bool_decide_eq_false_2 in Hb; [|by apply last_no_slash|lia].
    cbn [andb negb] in Hb. destruct (append _ [slash]) as [b1|] eqn:E; [|done].
    apply append_result in E as ->. apply append_inv in Hb. rewrite length_app in Hb. cbn [length] in Hb. lia.
Qed.

Lemma norm_step_canonical stack part b :
  stack_ok stack -> slash ∉ part ->
  norm_step true (mk_norm (render stack) (Z.of_nat (length (render stack)))) part = Some b ->
  exists stack', stack_ok stack' /\ b = mk_norm (render stack') (Z.of_nat (length (render stack'))).
Proof.
  intros (Hok & Hname & Hlen) Hs Hb. unfold norm_step in Hb.
  assert (Hpos : 0 < Z.of_nat (length (render stack))).
  { destruct stack; [done|]. cbn [render]. rewrite slashes_length. lia. }
  cbn [buflen] in Hb. rewrite (proj2 (Z.eqb_neq (Z.of_nat (length (render stack))) 0)) in Hb by lia.
  assert (Hsame : exists stack', stack_ok stack' /\
    mk_norm (render stack) (Z.of_nat (length (render stack))) = mk_norm (render stack') (Z.of_nat (length (render stack')))).
  { by exists stack. }
  destruct (length (take NAME_MAX part) =? 0)%nat eqn:E0; [cbn [andb] in Hb; by simplify_eq|].
  case_bool_decide as E1; [by simplify_eq|]. case_bool_decide as E2.
  - rewrite norm_up_render in Hb by done. injection Hb as <-. exists (tail stack). split; [|done].
    destruct Hok as [|q stack Hq Hok]; [done|]. inversion Hname; subst. split_and!; [done..|].
    cbn [tail render] in *. destruct stack; [cbn; unfold PATH_MAX; lia|]. cbn [render]. rewrite slashes_length in Hlen. lia.
  - pose proof (norm_part_inv _ _ _ Hok Hb) as Hfit. rewrite norm_part_render in Hb by done. injection Hb as <-.
    exists (take NAME_MAX part :: stack). split; [|done]. split_and!; [|constructor; [rewrite length_take; lia|done]|done].
    constructor; [|done]. split_and!; [by intros Hnil; rewrite Hnil in E0|done|done|].
    intros Hin. apply Hs. rewrite <- (take_drop NAME_MAX part). apply elem_of_app. by left.
Qed.

Lemma norm_parts_canonical parts stack b :
  stack_ok stack -> Forall (fun part => slash ∉ part) parts ->
  norm_parts true (mk_norm (render stack) (Z.of_nat (length (render stack)))) parts = Some b ->
  canonical_text (buf b).
Proof.
  intros Hok Hp. revert stack Hok. induction Hp as [|part parts Hs Hp IH]; intros stack Hok; cbn [norm_parts].
  - intros [= <-]. by exists stack.
  - destruct (norm_step _ _ part) as [b1|] eqn:E; [|done].
    destruct (norm_step_canonical _ _ _ Hok Hs E) as (stack' & Hok' & ->). by apply IH.
Qed.

(** The normal form of an absolute path is canonical, whatever its length. *)
Lemma normalize_canonical p q : normalize (Some (slash :: p)) = Some (Some q) -> canonical_text q.
Proof.
  unfold normalize. cbn [is_absolute split_on]. rewrite !bool_decide_eq_true_2 by done.
  change (norm_parts true (mk_norm [] 0) ([] :: split_on slash p)) with
    (norm_parts true (mk_norm (render []) (Z.of_nat (length (render [])))) (split_on slash p)).
  destruct (norm_parts _ _ _) as [b|] eqn:E; [|done]. intros [= <-].
  eapply norm_parts_canonical; [|apply split_on_parts|exact E]. split_and!; [constructor..|cbn; unfold PATH_MAX; lia].
Qed.

(** A canonical text fits, and has the components it is made of. *)
Lemma canonical_fits q : canonical_text q -> exists p, q = slash :: p /\ fits_path p /\ render (components p) = q.
Proof.
  intros (stack & (Hok & Hname & Hlen) & ->). destruct (decide (stack = [])) as [->|Hne].
  - exists []. split_and!; [done|by apply fits_path_check|done].
  - destruct (render_split _ Hok Hne) as (text & Ht & Hsp & _). exists text. split; [done|]. rewrite Ht in Hlen. split.
    + split; [done|]. rewrite Hsp. by apply Forall_rev.
    + unfold components. rewrite Hsp, fold_components_rev, rev_involutive, app_nil_r; [done|]. by apply Forall_rev.
Qed.

Lemma normalize_canonical_id q : canonical_text q -> normalize (Some q) = Some (Some q).
Proof. intros (p & -> & [Hl Hn] & E)%canonical_fits. rewrite normalize_render by done. by rewrite E. Qed.

(** A sub-path of a canonical text is the text itself or longer. *)
Lemma subpath_longer cwd r q :
  canonical_text r -> canonical_text q -> is_subpath cwd (Some r) (Some q) = Some true ->
  q = r \/ (length r < length q)%nat.
Proof.
  intros (p & -> & Hp & Ep)%canonical_fits (p' & -> & Hp' & Ep')%canonical_fits. unfold is_subpath.
  rewrite !canonical_render, Ep, Ep' by done. intros [= Hu]. apply orb_true_iff in Hu as [Hu|Hu].
  - apply bool_decide_eq_true in Hu. rewrite Hu. destruct p'; [by left|right; simpl; lia].
  - unfold under in Hu. apply andb_true_iff in Hu as [Ht _]. apply bool_decide_eq_true in Ht.
    pose proof (f_equal (@length _) Ht) as Hl. rewrite length_take in Hl.
    destruct (decide (length (slash :: p') = length (slash :: p))) as [Heq|Hneq]; [|right; lia].
    left. rewrite <- Ht. by rewrite take_ge by lia.
Qed.

Lemma subpath_refl cwd r : canonical_text r -> is_subpath cwd (Some r) (Some r) = Some true.
Proof.
  intros (p & -> & Hp & Ep)%canonical_fits. unfold is_subpath. rewrite canonical_render, Ep by done.
  unfold under. rewrite take_ge, drop_ge by done.
  rewrite (bool_decide_eq_true_2 (slash :: p = slash :: p)) by done. by rewrite orb_true_r.
Qed.

(** C20: normalisation of an absolute path that fits in the buffers gives the text
    of its components, where a dot is skipped and two dots remove the component
    before; the result passes [is_normalized], and normalising it again changes
    nothing. *)
Theorem normalize_absolute p :
  fits_path p ->
  normalize (Some (slash :: p)) = Some (Some (render (components p))) /\
  is_normalized (Some (render (components p))) = true /\
  normalize (Some (render (components p))) = Some (Some (render (components p))).
Proof.
  intros Hp. pose proof Hp as [Hl Hn]. split_and!; [by apply normalize_render| |].
  - apply render_normalized, components_ok.
  - destruct (render_fits p Hp) as (p' & E & [Hl' Hn'] & Ec). rewrite E.
    rewrite normalize_render, Ec by done. by rewrite E.
Qed.

Lemma normalize_absolute_witness :
  normalize (Some (str "/sdcard//data/./../music/../../etc/hosts")) = Some (Some (str "/etc/hosts")).
Proof.
  refine (proj1 (normalize_absolute (str "sdcard//data/./../music/../../etc/hosts") _)).
  apply fits_path_check. reflexivity.
Defined.

(** For absolute paths that fit in the buffers, [is_subpath] tells whether the
    components of the path start with those of the root, and [relpath] gives the
    text of the components that follow, or [NULL] when there is no sub-path. *)
Theorem subpath_components cwd r p :
  fits_path r -> fits_path p ->
  is_subpath cwd (Some (slash :: r)) (Some (slash :: p)) =
    Some (bool_decide (components r `suffix_of` components p)) /\
  (forall l, components p = l ++ components r ->
     relpath cwd (Some (slash :: r)) (Some (slash :: p)) = Some (Some (drop 1 (slashes l)))) /\
  (~ components r `suffix_of` components p ->
     relpath cwd (Some (slash :: r)) (Some (slash :: p)) = Some None).
Proof.
  intros Hr Hp. pose proof (components_ok r) as Hr'. pose proof (components_ok p) as Hp'.
  pose proof (under_render _ _ Hr' Hp') as Hu.
  unfold is_subpath, relpath. rewrite !canonical_render by done. split_and!.
  - by rewrite Hu.
  - intros l Hl. rewrite (bool_decide_eq_true_2 (_ `suffix_of` _)) in Hu by (by exists l).
    case_bool_decide as Hroot.
    + apply render_root in Hroot; [|done]. rewrite Hroot, app_nil_r in Hl. rewrite Hl. by destruct l.
    + cbn [orb] in Hu. rewrite Hu.
      destruct (components r) as [|part s]; [done|]. rewrite Hl. unfold render at 2.
      destruct (l ++ part :: s) eqn:E; [by destruct l|]. rewrite <- E. cbn [render].
      rewrite slashes_app, drop_app_length. pose proof (slashes_head l). destruct (slashes l); [done|]. subst.
      by rewrite bool_decide_eq_true_2.
  - intros Hn. rewrite (bool_decide_eq_false_2 (_ `suffix_of` _)) in Hu by done.
    apply orb_false_iff in Hu as [-> ->]. done.
Qed.

Lemma subpath_components_witness :
  is_subpath None (Some (str "/data/app")) (Some (str "/data/x/../app/lib")) = Some true /\
  relpath None (Some (str "/data/app")) (Some (str "/data/x/../app/lib")) = Some (Some (str "lib")) /\
  is_subpath None (Some (str "/data/app")) (Some (str "/data/apple")) = Some false.
Proof.
  pose proof (subpath_components None (str "data/app") (str "data/x/../app/lib")
    (fits_path_check (str "data/app") eq_refl) (fits_path_check (str "data/x/../app/lib") eq_refl)) as (H1 & H2 & _).
  pose proof (subpath_components None (str "data/app") (str "data/apple")
    (fits_path_check (str "data/app") eq_refl) (fits_path_check (str "data/apple") eq_refl)) as (H3 & _).
  split_and!; [exact H1|exact (H2 [str "lib"] eq_refl)|exact H3].
Defined.

(** The directory name and the base name of an absolute path that fits in the
    buffers are the text of all its components but the last, and the last one. *)
Theorem dirname_basename p part stack :
  fits_path p -> components p = part :: stack ->
  dirname (Some (slash :: p)) = Some (Some (render stack)) /\
  basename (Some (slash :: p)) = Some (Some part).
Proof.
  intros Hp Hc. pose proof (components_ok p) as Hok. rewrite Hc in Hok.
  inversion Hok as [|? ? (Hne & _ & _ & Hs) _]; subst.
  assert (Hlen : (length (slashes stack) <= PATH_MAX)%nat).
  { pose proof (components_length p) as Hl. rewrite Hc in Hl. cbn [render] in Hl. rewrite slashes_length in Hl.
    destruct Hp. lia. }
  assert (Hname : (length part <= NAME_MAX)%nat).
  { destruct Hp as [_ Hn]. rewrite list.Forall_forall in Hn. apply Hn, components_parts. rewrite Hc. left. }
  unfold dirname, basename. rewrite normal_render, Hc by done. cbn [render slashes].
  rewrite last_slash_app by done. split.
  - rewrite (proj2 (Nat.leb_le _ _) Hlen). destruct stack as [|q stack]; [done|]. cbn [render].
    destruct (slashes_cons (q :: stack)) as [text ->]; done.
  - replace (drop 1 (slash :: part)) with part by done.
    assert (E : name_buffer part = Some part) by (unfold name_buffer; by rewrite (proj2 (Nat.leb_le _ _) Hname)).
    destruct part as [|c part]; [done|]. by rewrite E.
Qed.

Lemma dirname_basename_witness :
  dirname (Some (str "/data/./app/")) = Some (Some (str "/data")) /\
  basename (Some (str "/data/./app/")) = Some (Some (str "app")).
Proof.
  apply (dirname_basename (str "data/./app/") (str "app") [str "data"]); [|reflexivity].
  apply fits_path_check. reflexivity.
Defined.

(** After a leading dot is replaced by two dots the length of the buffer is
    counted wrong, and the next two dots replace the buffer by a dot: the path of
    the directory two levels up is normalised to the current directory. *)
Theorem normalize_loses_parent :
  normalize (Some (str "./../..")) = Some (Some dot) /\
  normalize (Some (str "a/../../..")) = Some (Some dot) /\
  normalize (Some (str "../..")) = Some (Some (str "../..")).
Proof. by vm_compute. Qed.
