(* ===== verification/Vfs.v ===== *)
(** * The virtual file system

    Models [sources/crystax/vfs]: the table of descriptors and the table of
    mounted drivers ([fileio.cpp], [mount.cpp]), the current directory
    ([chdir.cpp], [getcwd.cpp]) and the functions that replace those of the C
    library ([open.cpp], [read.cpp] and the other files, one function each), over
    the interface of drivers of [fileio/driver.hpp].  The drivers act on an
    abstract world; the theorems hold for every implementation of the interface.
    Each function runs under its lock and is one step. *)

From S2P Require Import Prelude Util Paths.
Open Scope Z_scope.
Open Scope ndk_scope.

(** ** Drivers *)

(** A driver object: the system driver, or the address of a mounted one. *)
Inductive driver := System | Mounted (id : Z).

#[export] Instance driver_eq_dec : EqDecision driver.
Proof. solve_decision. Defined.

(** The root and the underlying driver of a mounted driver. *)
Record driver_t := mk_driver { rootpath : option cstr; underlying_driver : driver }.

(** The virtual functions of a driver, with their arguments.  Buffers and
    structures are addresses; a stream of a directory is an address too. *)
Inductive call :=
| Chown (path : option cstr) (uid gid : Z)
| Close (fd : Z)
| Closedir (dirp : Z)
| Dirfd (dirp : Z)
| Dup (fd : Z)
| Dup2 (fd fd2 : Z)
| Fchown (fd uid gid : Z)
| Fcntl (fd command arg : Z)
| Fdatasync (fd : Z)
| Fdopendir (fd : Z)
| Flock (fd operation : Z)
| Fstat (fd st : Z)
| Fsync (fd : Z)
| Ftruncate (fd offset : Z)
| Getdents (fd entry count : Z)
| Ioctl (fd request arg : Z)
| Lchown (path : option cstr) (uid gid : Z)
| Link (src dst : option cstr)
| Lseek (fd offset whence : Z)
| Lseek64 (fd offset whence : Z)
| Lstat (path : option cstr) (st : Z)
| Mkdir (path : option cstr) (mode : Z)
| Open (path : option cstr) (oflag arg : Z)
| Opendir (dirpath : option cstr)
| Pread (fd buf count offset : Z)
| Pwrite (fd buf count offset : Z)
| Read (fd buf count : Z)
| Readv (fd iov count : Z)
| Readdir (dirp : Z)
| Readdir_r (dirp entry result : Z)
| Readlink (path : option cstr) (buf bufsize : Z)
| Remove (path : option cstr)
| Rename (oldpath newpath : option cstr)
| Rewinddir (dirp : Z)
| Rmdir (path : option cstr)
| Scandir (dir : option cstr) (namelist filter compar : Z)
| Seekdir (dirp offset : Z)
| Select (maxfd : Z) (rfd wfd efd : option (list Z)) (tv : Z)
| Stat (path : option cstr) (st : Z)
| Symlink (src dst : option cstr)
| Telldir (dirp : Z)
| Unlink (path : option cstr)
| Write (fd buf count : Z)
| Writev (fd iov count : Z).

(** The functions of the C library that the virtual file system calls besides its
    drivers. *)
Inductive system_call :=
| Sys_accept (sockfd addr addrlen : Z)
| Sys_bind (sockfd addr addrlen : Z)
| Sys_chdir (path : option cstr)
| Sys_chroot (path : option cstr)
| Sys_close (fd : Z)
| Sys_connect (sockfd addr addrlen : Z)
| Sys_getsockname (sockfd addr addrlen : Z)
| Sys_getsockopt (sockfd level optname optval optlen : Z)
| Sys_listen (sockfd backlog : Z)
| Sys_mmap (addr length prot flags fd offset : Z)
| Sys_mount (source target fstype : option cstr) (flags data : Z)
| Sys_pipe
| Sys_recv (sockfd buf len flags : Z)
| Sys_recvfrom (sockfd buf len flags addr addrlen : Z)
| Sys_recvmsg (sockfd msg flags : Z)
| Sys_send (sockfd buf len flags : Z)
| Sys_sendmsg (sockfd msg flags : Z)
| Sys_sendto (sockfd buf len flags addr addrlen : Z)
| Sys_setsockopt (sockfd level optname optval optlen : Z)
| Sys_shutdown (sockfd how : Z)
| Sys_socket (domain type protocol : Z)
| Sys_umount2 (target : option cstr) (flags : Z).

(** A result: the value, the mode of a [struct stat] or the second descriptor of a
    pipe, and [errno] if it is set. *)
Record reply := mk_reply { ret : Z; extra : Z; err : option Z }.

(** The mounts, which drivers may look at. *)
Record mounts := mk_mounts {
  drivers : gmap Z driver_t;
  mount_table : list Z;
}.

(** What a driver sees of the virtual file system: the mounts, the current directory
    and [errno]. *)
Record caller := mk_caller { c_mounts : mounts; c_cwd : option cstr; c_errno : Z }.

(** What is around the virtual file system: the drivers and the C library, whose
    functions do not return if they abort or loop, the current directory of the system, whether
    there is a virtual machine, the address of a new driver, and its constructor and
    destructor.  [FD_TABLE_SIZE] is a constant of the build. *)
Class World (W : Type) := {
  FD_TABLE_SIZE : nat;
  drive : caller -> driver -> call -> W -> option (reply * W);
  system : system_call -> W -> option (reply * W);
  system_cwd : W -> option cstr;
  jvm : W -> bool;
  new_driver : W -> gmap Z driver_t -> Z;
  construct : caller -> Z -> driver_t -> W -> option W;
  destroy : Z -> W -> W;
}.

(** A new driver is not at the address of another one, and the table of
    descriptors holds the three standard ones. *)
Class WorldOk {W} (World0 : World W) := {
  table_size : (3 < FD_TABLE_SIZE)%nat;
  new_driver_fresh : forall w ds, ds !! new_driver w ds = None;
}.

Definition EBUSY : Z := 16.
Definition EXDEV : Z := 18.
Definition ENOTDIR : Z := 20.
Definition EINVAL : Z := 22.
Definition ENFILE : Z := 23.
Definition EMFILE : Z := 24.
Definition EBADF : Z := 9.
Definition EACCES : Z := 13.
Definition ERANGE : Z := 34.
Definition EBADFD : Z := 77.

Definition MOUNT_TABLE_SIZE : nat := 256.

(** ** The state *)

(** [fd_record_t]; the driver is [None] for [NULL]. *)
Record fd_record_t := mk_fd {
  r_dirp : Z;
  r_extfd : Z;
  r_extdirp : Z;
  r_driver : option driver;
  r_path : option cstr;
}.

Record vfs (W : Type) := mk_vfs {
  fd_table : list fd_record_t;
  fd_table_top : Z;
  v_mounts : mounts;
  cpath : option cstr;
  errno : Z;
  world : W;
}.

Arguments mk_vfs {W}.
Arguments fd_table {W}.
Arguments fd_table_top {W}.
Arguments v_mounts {W}.
Arguments cpath {W}.
Arguments errno {W}.
Arguments world {W}.

Definition unused : fd_record_t := mk_fd 0 (-1) 0 None None.

Section Vfs.
Context {W : Type} `{World W}.

Definition set_table (t : list fd_record_t) (top : Z) (s : vfs W) : vfs W :=
  mk_vfs t top (v_mounts s) (cpath s) (errno s) (world s).

Definition set_mounts (m : mounts) (s : vfs W) : vfs W :=
  mk_vfs (fd_table s) (fd_table_top s) m (cpath s) (errno s) (world s).

Definition set_cpath (p : option cstr) (s : vfs W) : vfs W :=
  mk_vfs (fd_table s) (fd_table_top s) (v_mounts s) p (errno s) (world s).

Definition set_world (r : reply) (w : W) (s : vfs W) : vfs W :=
  mk_vfs (fd_table s) (fd_table_top s) (v_mounts s) (cpath s) (default (errno s) (err r)) w.

Definition with_world (w : W) (s : vfs W) : vfs W :=
  mk_vfs (fd_table s) (fd_table_top s) (v_mounts s) (cpath s) (errno s) w.

Definition set_errno (e : Z) : M (vfs W) unit :=
  fun s => Ret tt (mk_vfs (fd_table s) (fd_table_top s) (v_mounts s) (cpath s) e (world s)).

Definition update (f : vfs W -> vfs W) : M (vfs W) unit := fun s => Ret tt (f s).

(** A failure: -1, with [errno]. *)
Definition failure (e : Z) : M (vfs W) Z := do* set_errno e in lret (-1).

(** The current directory, as [getcwd] gives it in a buffer for a path. *)
Definition current_dir (s : vfs W) : option cstr :=
  match cpath s with
  | None => match system_cwd (world s) with
            | Some p => if (length p <? PATH_MAX + 1)%nat then Some p else None
            | None => None
            end
  | Some p => if (PATH_MAX + 1 <? length p + 1)%nat then None else Some p
  end.

Definition caller_of (s : vfs W) : caller := mk_caller (v_mounts s) (current_dir s) (errno s).

(** A call of a virtual function; the object of a mounted driver must exist. *)
Definition virtual (d : option driver) (c : call) : M (vfs W) reply :=
  fun s =>
    match d with
    | None => Crash
    | Some d =>
        let alive := match d with System => true | Mounted i => bool_decide (is_Some (drivers (v_mounts s) !! i)) end in
        if alive then
          match drive (caller_of s) d c (world s) with
          | Some (r, w) => Ret r (set_world r w s)
          | None => Crash
          end
        else Crash
    end.

Definition sys (c : system_call) : M (vfs W) reply :=
  fun s => match system c (world s) with Some (r, w) => Ret r (set_world r w s) | None => Crash end.

(** ** The current directory *)

(** [getcwd] with a buffer of the given size: the text, or [None] for [NULL]. *)
Definition getcwd (size : nat) : M (vfs W) (option cstr) :=
  let* s := lget in
  match cpath s with
  | None => lret (match system_cwd (world s) with
                  | Some p => if (length p <? size)%nat then Some p else None
                  | None => None
                  end)
  | Some p =>
      if (size <? length p + 1)%nat then (do* set_errno ERANGE in lret None) else lret (Some p)
  end.

(** A result that the path functions compute from the current directory. *)
Definition with_cwd {A} (f : option cstr -> option A) : M (vfs W) A :=
  let* cwd := getcwd (PATH_MAX + 1) in
  match f cwd with None => lcrash | Some a => lret a end.

(** [abspath_t]; an absolute path does not ask for the current directory. *)
Definition abspath (path : option cstr) : M (vfs W) (option cstr) :=
  match path with
  | None | Some [] => lret None
  | Some _ =>
      if is_absolute path
      then match absolutize None path with None => lcrash | Some p => lret p end
      else with_cwd (fun cwd => absolutize cwd path)
  end.

(** ** The table of descriptors *)

(** [init_fd] *)
Definition standard (fd : nat) : fd_record_t := mk_fd 0 (Z.of_nat fd) 0 (Some System) None.

Definition init_fd (s : vfs W) : vfs W :=
  set_table (map standard (seq 0 3) ++ replicate (FD_TABLE_SIZE - 3) unused) (Z.max (fd_table_top s) 2) s.

(** The first record that is not in use. *)
Fixpoint first_free (t : list fd_record_t) : option nat :=
  match t with
  | [] => None
  | r :: t => if r_extfd r <? 0 then Some O else S <$> first_free t
  end.

(** [alloc_fd] *)
Definition alloc_fd (path : option cstr) (extfd : Z) (d : driver) : M (vfs W) Z :=
  let* s := lget in
  match first_free (fd_table s) with
  | None => lret (-1)
  | Some fd =>
      let* p := abspath path in
      do* update (fun s => set_table (<[fd := mk_fd 0 extfd 0 (Some d) p]> (fd_table s))
                             (Z.max (fd_table_top s) (Z.of_nat fd)) s) in
      lret (Z.of_nat fd)
  end.

(** The loop of [free_fd] and [free_dirp] on the top, which is a [size_t] of 32
    bits: [n] is the index below which to look. *)
Fixpoint lower_top (t : list fd_record_t) (n : nat) (top : Z) : Z :=
  match n with
  | O => top
  | S n =>
      match t !! n with
      | Some r => if 0 <=? r_extfd r then top else lower_top t n (wrap 32 (top - 1))
      | None => top
      end
  end.

Definition release (fd : nat) (s : vfs W) : vfs W :=
  let t := <[fd := unused]> (fd_table s) in
  let top := if fd_table_top s =? Z.of_nat fd
             then lower_top t (Z.to_nat (fd_table_top s + 1)) (fd_table_top s) else fd_table_top s in
  set_table t top s.

(** [free_fd] *)
Definition free_fd (fd : Z) : M (vfs W) unit :=
  if (fd <? 0) || (Z.of_nat FD_TABLE_SIZE <? fd) then lret tt
  else
    let* r := lread (fun s => fd_table s !! Z.to_nat fd) in
    if r_extfd r <? 0 then lret tt else update (release (Z.to_nat fd)).

(** [alloc_dirp]; 0 is [NULL].  A stream is the opposite of its number, minus
    one. *)
Definition stream (fd : nat) : Z := - Z.of_nat fd - 1.

Definition alloc_dirp (path : option cstr) (extdirp : Z) (d : driver) : M (vfs W) Z :=
  let* s := lget in
  match first_free (fd_table s) with
  | None => lret 0
  | Some fd =>
      let* extfd := virtual (Some d) (Dirfd extdirp) in
      let* p := abspath path in
      do* update (fun s => set_table (<[fd := mk_fd (stream fd) (ret extfd) extdirp (Some d) p]> (fd_table s))
                             (Z.max (fd_table_top s) (Z.of_nat fd)) s) in
      lret (stream fd)
  end.

(** The first record of a stream. *)
Fixpoint find_dirp (t : list fd_record_t) (dirp : Z) : option nat :=
  match t with
  | [] => None
  | r :: t => if r_dirp r =? dirp then Some O else S <$> find_dirp t dirp
  end.

(** [free_dirp], which looks at the records below the top.  When the top is past
    the table the loop leaves it. *)
Definition free_dirp (dirp : Z) : M (vfs W) unit :=
  let* s := lget in
  match find_dirp (take (Z.to_nat (fd_table_top s)) (fd_table s)) dirp with
  | None => if Z.of_nat (length (fd_table s)) <? fd_table_top s then lcrash else lret tt
  | Some fd =>
      let* r := lread (fun s => fd_table s !! fd) in
      if r_extfd r <? 0 then lret tt else update (release fd)
  end.

(** [resolve] of a descriptor; [None] for false.  The path is asked for by two
    callers. *)
Definition resolve (fd : Z) : M (vfs W) (option fd_record_t) :=
  if (fd <? 0) || (Z.of_nat FD_TABLE_SIZE <? fd) then (do* set_errno EBADFD in lret None)
  else
    let* r := lread (fun s => fd_table s !! Z.to_nat fd) in
    lret (Some r).

(** The path of a record, as [resolve] gives it: absolute and normalised. *)
Definition record_path (r : fd_record_t) : M (vfs W) (option cstr) :=
  let* p := abspath (r_path r) in
  match normalize p with None => lcrash | Some p => lret p end.

(** [resolve] of a stream: the number and the record. *)
Definition resolve_dirp (dirp : Z) : M (vfs W) (option (nat * fd_record_t)) :=
  let* s := lget in
  match find_dirp (fd_table s) dirp with
  | None => lret None
  | Some fd => let* r := lread (fun s => fd_table s !! fd) in lret (Some (fd, r))
  end.

(** ** Mounts *)

Definition root_of (m : mounts) (i : Z) : option (option cstr) := rootpath <$> drivers m !! i.

(** The loop of [find_driver], from the last mount: the first driver whose root is
    a prefix of the text of the path. *)
Fixpoint find_prefix (m : mounts) (ids : list Z) (p : cstr) : option driver :=
  match ids with
  | [] => Some System
  | i :: ids =>
      match root_of m i with
      | None | Some None => None
      | Some (Some root) => if bool_decide (take (length root) p = root) then Some (Mounted i) else find_prefix m ids p
      end
  end.

(** [find_driver]; the inner [None] is [NULL]. *)
Definition find_driver (path : option cstr) : M (vfs W) (option driver) :=
  match path with
  | None | Some [] => lret None
  | Some _ =>
      let* s := lget in
      match mount_table (v_mounts s) with
      | [] => lret (Some System)
      | ids =>
          let* p := abspath path in
          match p with
          | None => lcrash
          | Some p => let* d := lread (fun s => find_prefix (v_mounts s) (rev ids) p) in lret (Some d)
          end
      end
  end.

(** The driver under a new mount: the last mount whose root the target is under. *)
Fixpoint find_underlying (m : mounts) (ids : list Z) (target : option cstr) : option driver :=
  match ids with
  | [] => Some System
  | i :: ids =>
      match root_of m i with
      | None => None
      | Some root =>
          match is_subpath None root target with
          | None => None
          | Some true => Some (Mounted i)
          | Some false => find_underlying m ids target
          end
      end
  end.

Definition dev_assets : cstr := str "/dev/assets".

(** [load_driver]; the root of the driver is the normalised target. *)
Definition load_driver (source target : option cstr) (underlying : driver) : M (vfs W) (option driver_t) :=
  if bool_decide (source = Some dev_assets) then
    let* s := lget in
    if jvm (world s) then
      match normalize target with
      | Some root => lret (Some (mk_driver root underlying))
      | None => lcrash
      end
    else lret None
  else lret None.

(** [mount] *)
Definition mount (source target fstype : option cstr) (flags data : Z) : M (vfs W) Z :=
  let* s := lget in
  if (MOUNT_TABLE_SIZE <=? length (mount_table (v_mounts s)))%nat then failure ENFILE
  else
    let* p := abspath target in
    let* underlying := lread (fun s => find_underlying (v_mounts s) (rev (mount_table (v_mounts s))) p) in
    let* d := load_driver source p underlying in
    match d with
    | None => let* r := sys (Sys_mount source target fstype flags data) in lret (ret r)
    | Some d =>
        let* s := lget in
        let i := new_driver (world s) (drivers (v_mounts s)) in
        let* w := lread (fun s => construct (caller_of s) i d (world s)) in
        do* update (with_world w) in
        do* update (set_mounts (mk_mounts (<[i := d]> (drivers (v_mounts s))) (mount_table (v_mounts s) ++ [i]))) in
        lret 0
    end.

(** [details::path_t::length] *)
Definition path_length (p : option cstr) : nat := match p with Some p => length p | None => 0 end.

(** The loop of [umount] from the last mount: busy, the position of the mount to
    remove counted from the last, or none. *)
Inductive umount_search := Busy | At (k : nat) | Absent.

Fixpoint find_umount (m : mounts) (ids : list Z) (k : nat) (target : option cstr) : option umount_search :=
  match ids with
  | [] => Some Absent
  | i :: ids =>
      match root_of m i with
      | None => None
      | Some root =>
          match is_subpath None target root with
          | None => None
          | Some below =>
              if (path_length target <? path_length root)%nat && below then Some Busy
              else if path_eq root target then Some (At k)
              else find_umount m ids (S k) target
          end
      end
  end.

(** [umount] *)
Definition umount (target : option cstr) (flags : Z) : M (vfs W) Z :=
  match target with
  | None | Some [] => failure EINVAL
  | Some _ =>
      let* p := abspath target in
      let* found := lread (fun s => find_umount (v_mounts s) (rev (mount_table (v_mounts s))) 0 p) in
      match found with
      | Busy => failure EBUSY
      | At k =>
          let* s := lget in
          let ids := mount_table (v_mounts s) in
          let j := (length ids - 1 - k)%nat in
          let* i := lread (fun _ => ids !! j) in
          do* update (with_world (destroy i (world s))) in
          do* update (set_mounts (mk_mounts (delete i (drivers (v_mounts s))) (take j ids ++ drop (S j) ids))) in
          lret 0
      | Absent => let* r := sys (Sys_umount2 target flags) in lret (ret r)
      end
  end.

(** ** Functions on a path *)

(** A call of the driver of a path. *)
Definition on_path (path : option cstr) (c : call) : M (vfs W) Z :=
  let* d := find_driver path in
  match d with
  | None => lret (-1)
  | Some d => let* r := virtual (Some d) c in lret (ret r)
  end.

Definition stat (path : option cstr) (st : Z) : M (vfs W) Z := on_path path (Stat path st).
Definition lstat (path : option cstr) (st : Z) : M (vfs W) Z := on_path path (Lstat path st).
Definition mkdir (path : option cstr) (mode : Z) : M (vfs W) Z := on_path path (Mkdir path mode).
Definition unlink (path : option cstr) : M (vfs W) Z := on_path path (Unlink path).
Definition remove (path : option cstr) : M (vfs W) Z := on_path path (Remove path).
Definition rmdir (path : option cstr) : M (vfs W) Z := on_path path (Rmdir path).
Definition readlink (path : option cstr) (buf bufsize : Z) : M (vfs W) Z := on_path path (Readlink path buf bufsize).
Definition chown (path : option cstr) (uid gid : Z) : M (vfs W) Z := on_path path (Chown path uid gid).
Definition lchown (path : option cstr) (uid gid : Z) : M (vfs W) Z := on_path path (Lchown path uid gid).
Definition scandir (dir : option cstr) (namelist filter compar : Z) : M (vfs W) Z :=
  on_path dir (Scandir dir namelist filter compar).
Definition rename (oldpath newpath : option cstr) : M (vfs W) Z := on_path newpath (Rename oldpath newpath).

(** [link] and [symlink]: both paths must have the same driver, which may be
    [NULL]. *)
Definition on_paths (src dst : option cstr) (c : call) : M (vfs W) Z :=
  let* d := find_driver src in
  let* d2 := find_driver dst in
  if bool_decide (d = d2) then (let* r := virtual d c in lret (ret r)) else failure EXDEV.

Definition link (src dst : option cstr) : M (vfs W) Z := on_paths src dst (Link src dst).
Definition symlink (src dst : option cstr) : M (vfs W) Z := on_paths src dst (Symlink src dst).

Definition S_IRUSR : Z := 256.
Definition S_IWUSR : Z := 128.
Definition S_IXUSR : Z := 64.
Definition S_IFDIR : Z := 16384.
Definition R_OK : Z := 4.
Definition W_OK : Z := 2.
Definition X_OK : Z := 1.

(** [access], with the mode that [stat] finds. *)
Definition access (path : option cstr) (mode : Z) : M (vfs W) Z :=
  let* d := find_driver path in
  match d with
  | None => lret (-1)
  | Some d =>
      let* st := virtual (Some d) (Stat path 0) in
      if ret st =? -1 then lret (-1)
      else
        let lacks ok bit := negb (Z.land mode ok =? 0) && (Z.land (extra st) bit =? 0) in
        if lacks R_OK S_IRUSR || lacks W_OK S_IWUSR || lacks X_OK S_IXUSR then failure EACCES else lret 0
  end.

(** [chdir] *)
Definition chdir (path : option cstr) : M (vfs W) Z :=
  let* p := abspath path in
  let* d := find_driver p in
  let* st := virtual d (Stat p 0) in
  if ret st =? -1 then lret (-1)
  else if Z.land (extra st) S_IFDIR =? 0 then failure ENOTDIR
  else
    do* sys (Sys_chdir p) in
    do* update (set_cpath p) in
    lret 0.

Definition chroot (path : option cstr) : M (vfs W) Z := let* r := sys (Sys_chroot path) in lret (ret r).

(** ** Opening and closing *)

(** [open] *)
Definition open (path : option cstr) (oflag arg : Z) : M (vfs W) Z :=
  let* d := find_driver path in
  match d with
  | None => lret (-1)
  | Some d =>
      let* extfd := virtual (Some d) (Open path oflag arg) in
      if ret extfd =? -1 then lret (-1)
      else
        let* fd := alloc_fd path (ret extfd) d in
        if fd <? 0 then (do* virtual (Some d) (Close (ret extfd)) in failure EMFILE) else lret fd
  end.

Definition O_WRONLY : Z := 1.
Definition O_CREAT : Z := 64.
Definition O_TRUNC : Z := 512.

Definition creat (path : option cstr) (mode : Z) : M (vfs W) Z :=
  open path (Z.lor (Z.lor O_WRONLY O_CREAT) O_TRUNC) mode.

(** A call with the descriptor of the driver. *)
Definition on_fd (fd : Z) (c : Z -> call) : M (vfs W) Z :=
  let* r := resolve fd in
  match r with
  | None => lret (-1)
  | Some r => let* a := virtual (r_driver r) (c (r_extfd r)) in lret (ret a)
  end.

(** [close] *)
Definition close (fd : Z) : M (vfs W) Z :=
  let* r := resolve fd in
  match r with
  | None => lret (-1)
  | Some r =>
      do* free_fd fd in
      let* a := virtual (r_driver r) (Close (r_extfd r)) in lret (ret a)
  end.

Definition read (fd buf count : Z) : M (vfs W) Z := on_fd fd (fun e => Read e buf count).
Definition write (fd buf count : Z) : M (vfs W) Z := on_fd fd (fun e => Write e buf count).
Definition readv (fd iov count : Z) : M (vfs W) Z := on_fd fd (fun e => Readv e iov count).
Definition writev (fd iov count : Z) : M (vfs W) Z := on_fd fd (fun e => Writev e iov count).
Definition pread (fd buf count offset : Z) : M (vfs W) Z := on_fd fd (fun e => Pread e buf count offset).
Definition pwrite (fd buf count offset : Z) : M (vfs W) Z := on_fd fd (fun e => Pwrite e buf count offset).
Definition lseek (fd offset whence : Z) : M (vfs W) Z := on_fd fd (fun e => Lseek e offset whence).
Definition lseek64 (fd offset whence : Z) : M (vfs W) Z := on_fd fd (fun e => Lseek64 e offset whence).
Definition fstat (fd st : Z) : M (vfs W) Z := on_fd fd (fun e => Fstat e st).
Definition fchown (fd uid gid : Z) : M (vfs W) Z := on_fd fd (fun e => Fchown e uid gid).
Definition ftruncate (fd offset : Z) : M (vfs W) Z := on_fd fd (fun e => Ftruncate e offset).
Definition fsync (fd : Z) : M (vfs W) Z := on_fd fd Fsync.
Definition fdatasync (fd : Z) : M (vfs W) Z := on_fd fd Fdatasync.
Definition flock (fd operation : Z) : M (vfs W) Z := on_fd fd (fun e => Flock e operation).
Definition fcntl (fd command arg : Z) : M (vfs W) Z := on_fd fd (fun e => Fcntl e command arg).
Definition ioctl (fd request arg : Z) : M (vfs W) Z := on_fd fd (fun e => Ioctl e request arg).

(** The descriptor of [getdents] is unsigned on both sides. *)
Definition getdents (fd entry count : Z) : M (vfs W) Z :=
  on_fd (swrap 32 fd) (fun e => Getdents (wrap 32 e) entry count).

(** [dup] returns the descriptor of the driver. *)
Definition dup (fd : Z) : M (vfs W) Z := on_fd fd Dup.

(** [dup2] passes the descriptors of the caller to the driver. *)
Definition dup2 (fd fd2 : Z) : M (vfs W) Z :=
  let* r := resolve fd in
  match r with
  | None => lret (-1)
  | Some r =>
      let* r2 := resolve fd2 in
      match r2 with
      | None => lret (-1)
      | Some r2 =>
          if bool_decide (r_driver r = r_driver r2)
          then (let* a := virtual (r_driver r) (Dup2 fd fd2) in lret (ret a))
          else failure EXDEV
      end
  end.

(** [fchdir] *)
Definition fchdir (fd : Z) : M (vfs W) Z :=
  let* r := resolve fd in
  match r with
  | None => lret (-1)
  | Some r => let* p := record_path r in chdir p
  end.

(** ** Directories *)

(** [opendir] *)
Definition opendir (dirpath : option cstr) : M (vfs W) Z :=
  let* d := find_driver dirpath in
  match d with
  | None => lret 0
  | Some d =>
      let* extdirp := virtual (Some d) (Opendir dirpath) in
      if ret extdirp =? 0 then lret 0
      else
        let* dirp := alloc_dirp dirpath (ret extdirp) d in
        if dirp =? 0 then (do* virtual (Some d) (Closedir (ret extdirp)) in do* set_errno EMFILE in lret 0)
        else lret dirp
  end.

(** [fdopendir] *)
Definition fdopendir (fd : Z) : M (vfs W) Z :=
  let* r := resolve fd in
  match r with
  | None => lret 0
  | Some r =>
      let* p := record_path r in
      let* extdirp := virtual (r_driver r) (Fdopendir (r_extfd r)) in
      match r_driver r with
      | None => lcrash
      | Some d => alloc_dirp p (ret extdirp) d
      end
  end.

(** A call with the stream of the driver; [failed] when there is none. *)
Definition on_dirp (failed : Z) (dirp : Z) (c : Z -> call) : M (vfs W) Z :=
  let* r := resolve_dirp dirp in
  match r with
  | None => lret failed
  | Some (_, r) => let* a := virtual (r_driver r) (c (r_extdirp r)) in lret (ret a)
  end.

Definition readdir (dirp : Z) : M (vfs W) Z := on_dirp 0 dirp Readdir.
Definition readdir_r (dirp entry result : Z) : M (vfs W) Z := on_dirp (-1) dirp (fun e => Readdir_r e entry result).
Definition telldir (dirp : Z) : M (vfs W) Z := on_dirp (-1) dirp Telldir.
Definition seekdir (dirp offset : Z) : M (vfs W) Z := on_dirp 0 dirp (fun e => Seekdir e offset).
Definition rewinddir (dirp : Z) : M (vfs W) Z := on_dirp 0 dirp Rewinddir.

(** [closedir] *)
Definition closedir (dirp : Z) : M (vfs W) Z :=
  let* r := resolve_dirp dirp in
  match r with
  | None => lret (-1)
  | Some (_, r) =>
      do* free_dirp dirp in
      let* a := virtual (r_driver r) (Closedir (r_extdirp r)) in lret (ret a)
  end.

(** [dirfd] *)
Definition dirfd (dirp : Z) : M (vfs W) Z :=
  let* r := resolve_dirp dirp in
  match r with
  | None => lret (-1)
  | Some (fd, _) => lret (Z.of_nat fd)
  end.

(** ** Sockets and pipes *)

(** A call of the C library with the descriptor of the driver. *)
Definition on_socket (sockfd : Z) (c : Z -> system_call) : M (vfs W) Z :=
  let* r := resolve sockfd in
  match r with
  | None => lret (-1)
  | Some r => let* a := sys (c (r_extfd r)) in lret (ret a)
  end.

Definition recv (sockfd buf len flags : Z) : M (vfs W) Z := on_socket sockfd (fun e => Sys_recv e buf len flags).
Definition recvfrom (sockfd buf len flags addr addrlen : Z) : M (vfs W) Z :=
  on_socket sockfd (fun e => Sys_recvfrom e buf len flags addr addrlen).
Definition recvmsg (sockfd msg flags : Z) : M (vfs W) Z := on_socket sockfd (fun e => Sys_recvmsg e msg flags).
Definition send (sockfd buf len flags : Z) : M (vfs W) Z := on_socket sockfd (fun e => Sys_send e buf len flags).
Definition sendto (sockfd buf len flags addr addrlen : Z) : M (vfs W) Z :=
  on_socket sockfd (fun e => Sys_sendto e buf len flags addr addrlen).
Definition sendmsg (sockfd msg flags : Z) : M (vfs W) Z := on_socket sockfd (fun e => Sys_sendmsg e msg flags).
Definition shutdown (sockfd how : Z) : M (vfs W) Z := on_socket sockfd (fun e => Sys_shutdown e how).

(** The same, with a test that the record is in use. *)
Definition on_open_socket (sockfd : Z) (k : Z -> M (vfs W) Z) : M (vfs W) Z :=
  let* r := resolve sockfd in
  match r with
  | None => lret (-1)
  | Some r => if r_extfd r =? -1 then failure EBADF else k (r_extfd r)
  end.

Definition sys_ret (c : system_call) : M (vfs W) Z := let* a := sys c in lret (ret a).

Definition bind (sockfd addr addrlen : Z) : M (vfs W) Z :=
  on_open_socket sockfd (fun e => sys_ret (Sys_bind e addr addrlen)).
Definition getsockname (sockfd addr addrlen : Z) : M (vfs W) Z :=
  on_open_socket sockfd (fun e => sys_ret (Sys_getsockname e addr addrlen)).
Definition getsockopt (sockfd level optname optval optlen : Z) : M (vfs W) Z :=
  on_open_socket sockfd (fun e => sys_ret (Sys_getsockopt e level optname optval optlen)).
Definition setsockopt (sockfd level optname optval optlen : Z) : M (vfs W) Z :=
  on_open_socket sockfd (fun e => sys_ret (Sys_setsockopt e level optname optval optlen)).
Definition listen (sockfd backlog : Z) : M (vfs W) Z :=
  on_open_socket sockfd (fun e => sys_ret (Sys_listen e backlog)).

(** [mmap] *)
Definition mmap (addr length prot flags fd offset : Z) : M (vfs W) Z :=
  if fd <? 0 then sys_ret (Sys_mmap addr length prot flags fd offset)
  else on_open_socket fd (fun e => sys_ret (Sys_mmap addr length prot flags e offset)).

(** A descriptor of the system that becomes one of the table, or is closed. *)
Definition adopt (extfd : Z) : M (vfs W) Z :=
  if extfd =? -1 then lret (-1)
  else
    let* fd := alloc_fd None extfd System in
    if fd <? 0 then (do* sys (Sys_close extfd) in failure EMFILE) else lret fd.

(** [accept], [connect] and [socket] *)
Definition accept (sockfd addr addrlen : Z) : M (vfs W) Z :=
  on_open_socket sockfd (fun e => let* c := sys (Sys_accept e addr addrlen) in adopt (ret c)).
Definition connect (sockfd addr addrlen : Z) : M (vfs W) Z :=
  on_open_socket sockfd (fun e => let* c := sys (Sys_connect e addr addrlen) in adopt (ret c)).
Definition socket (domain type protocol : Z) : M (vfs W) Z :=
  let* c := sys (Sys_socket domain type protocol) in adopt (ret c).

(** [pipe]: the result and the two descriptors.  The system gives the second one in
    [extra] of its reply. *)
Definition pipe : M (vfs W) (Z * Z * Z) :=
  let* fds := sys Sys_pipe in
  if ret fds <? 0 then lret (-1, 0, 0)
  else
    let fd0 := ret fds in
    let fd1 := extra fds in
    let close_both := do* sys (Sys_close fd0) in sys (Sys_close fd1) in
    let* p0 := alloc_fd None fd0 System in
    if p0 =? -1 then (do* close_both in let* e := failure EMFILE in lret (e, 0, 0))
    else
      let* p1 := alloc_fd None fd1 System in
      if p1 =? -1 then (do* free_fd p0 in do* close_both in let* e := failure EMFILE in lret (e, 0, 0))
      else lret (0, p0, p1).

(** ** [select] *)

(** The sets of descriptors, as lists; the driver, the greatest descriptor and the
    three sets that are built. *)
Record selection := mk_selection {
  s_driver : option driver;
  extmaxfd : Z;
  ext_r : list Z;
  ext_w : list Z;
  ext_e : list Z;
}.

Definition FD_SETSIZE : Z := 1024.

(** The macro [CRYSTAX_SELECT_SET] for a set; [add] puts a descriptor into the new
    set, and the result is an error when [None]. *)
Definition select_set (fd : Z) (fds : option (list Z)) (add : Z -> selection -> selection) (a : selection)
  : M (vfs W) (option selection) :=
  if match fds with Some l => bool_decide (fd ∈ l) | None => false end then
    let* r := resolve fd in
    match r with
    | None => lret None
    | Some r =>
        let d := match s_driver a with None => r_driver r | d => d end in
        if bool_decide (d = r_driver r) then
          if (r_extfd r <? 0) || (FD_SETSIZE <=? r_extfd r) then lcrash
          else
            let top := if extmaxfd a <=? r_extfd r then r_extfd r + 1 else extmaxfd a in
            lret (Some (add (r_extfd r) (mk_selection d top (ext_r a) (ext_w a) (ext_e a))))
        else (do* set_errno EXDEV in lret None)
    end
  else lret (Some a).

Definition add_r (e : Z) (a : selection) := mk_selection (s_driver a) (extmaxfd a) (ext_r a ++ [e]) (ext_w a) (ext_e a).
Definition add_w (e : Z) (a : selection) := mk_selection (s_driver a) (extmaxfd a) (ext_r a) (ext_w a ++ [e]) (ext_e a).
Definition add_e (e : Z) (a : selection) := mk_selection (s_driver a) (extmaxfd a) (ext_r a) (ext_w a) (ext_e a ++ [e]).

(** The loop over the descriptors below [maxfd]. *)
Fixpoint select_from (rfd wfd efd : option (list Z)) (fds : list Z) (a : selection)
  : M (vfs W) (option selection) :=
  match fds with
  | [] => lret (Some a)
  | fd :: fds =>
      let* a := select_set fd rfd add_r a in
      match a with
      | None => lret None
      | Some a =>
          let* a := select_set fd wfd add_w a in
          match a with
          | None => lret None
          | Some a =>
              let* a := select_set fd efd add_e a in
              match a with None => lret None | Some a => select_from rfd wfd efd fds a end
          end
      end
  end.

(** [select] *)
Definition select (maxfd : Z) (rfd wfd efd : option (list Z)) (tv : Z) : M (vfs W) Z :=
  let* a := select_from rfd wfd efd (seqZ 0 maxfd) (mk_selection None 0 [] [] []) in
  match a with
  | None => lret (-1)
  | Some a =>
      match s_driver a with
      | None => lret 0
      | Some d =>
          let given {A} (fds : option (list Z)) (l : A) := match fds with Some _ => Some l | None => None end in
          let* r := virtual (Some d) (Select (extmaxfd a) (given rfd (ext_r a)) (given wfd (ext_w a)) (given efd (ext_e a)) tv) in
          lret (ret r)
      end
  end.

End Vfs.
