(* ===== verification/VfsSessions.v ===== *)
(** * Sessions of the virtual file system

    The functions of the virtual file system as the steps of a client, and what
    holds after any sequence of them: the table of mounts refers to objects that
    exist, each with a root in normal form and an underlying driver that was
    mounted before it, also after mounts are removed.  The second part follows a
    descriptor from [open] to [close]. *)

From S2P Require Import Prelude Util Paths Vfs.
Open Scope Z_scope.
Open Scope ndk_scope.

Create HintDb vfs.
#[local] Hint Constants Opaque : vfs.
#[local] Hint Variables Opaque : vfs.

(** The current directory of the system is an absolute path. *)
Class CwdOk {W} (World0 : World W) := {
  cwd_absolute : forall w p, system_cwd w = Some p -> exists p', p = slash :: p';
}.

(** ** The invariant *)

(** The root of a driver under another one is below the root of that one. *)
Definition below (ds : gmap Z driver_t) (j : Z) (root : option cstr) : Prop :=
  exists d r q, ds !! j = Some d /\ rootpath d = Some r /\ root = Some q /\
    is_subpath None (Some r) (Some q) = Some true.

(** A list of mounts, the last one first. *)
Fixpoint mounted (ds : gmap Z driver_t) (ids : list Z) : Prop :=
  match ids with
  | [] => True
  | i :: ids =>
      i ∉ ids /\
      (exists d, ds !! i = Some d /\
        (forall q, rootpath d = Some q -> canonical_text q) /\
        match underlying_driver d with System => True | Mounted j => j ∈ ids /\ below ds j (rootpath d) end) /\
      mounted ds ids
  end.

Definition mounts_ok (m : mounts) : Prop := mounted (drivers m) (rev (mount_table m)).

Record vfs_ok {W} `{World W} (s : vfs W) : Prop := {
  ok_table : length (fd_table s) = FD_TABLE_SIZE;
  ok_mounts : mounts_ok (v_mounts s);
  ok_cpath : forall p, cpath s = Some p -> canonical_text p;
}.

(** Mounts do not depend on other objects. *)
Lemma mounted_alive ds ids i : mounted ds ids -> i ∈ ids -> is_Some (ds !! i).
Proof.
  induction ids as [|j ids IH]; [by intros _ ?%not_elem_of_nil|].
  intros (_ & (d & Hd & _) & Hm) [->|Hi]%elem_of_cons; [by exists d|by apply IH].
Qed.

Lemma mounted_insert ds ids i d : mounted ds ids -> i ∉ ids -> mounted (<[i := d]> ds) ids.
Proof.
  induction ids as [|j ids IH]; [done|]. intros (Hj & (e & He & Hr & Hu) & Hm) [Hne Hi]%not_elem_of_cons.
  cbn. split_and!; [done| |by apply IH]. exists e. rewrite lookup_insert_ne by done. split_and!; [done..|].
  destruct (underlying_driver e) as [|k]; [done|]. destruct Hu as [Hk (f & r & q & Hf & ?)].
  split; [done|]. exists f, r, q. rewrite lookup_insert_ne by (intros <-; done). done.
Qed.

(** A mount is removed when nothing that was mounted later is on it. *)
Lemma mounted_delete ds pre i post :
  mounted ds (pre ++ i :: post) ->
  (forall j d, j ∈ pre -> ds !! j = Some d -> underlying_driver d <> Mounted i) ->
  mounted (delete i ds) (pre ++ post).
Proof.
  induction pre as [|j pre IH]; cbn [app mounted].
  - intros (Hi & _ & Hm) _. revert Hi Hm. induction post as [|k post IHp]; [done|].
    intros [Hne Hi]%not_elem_of_cons (Hk & (d & Hd & Hr & Hu) & Hm). cbn. split_and!; [done| |by apply IHp].
    exists d. rewrite lookup_delete_ne by done. split_and!; [done..|].
    destruct (underlying_driver d) as [|l]; [done|]. destruct Hu as [Hl (f & r & q & Hf & ?)].
    split; [done|]. exists f, r, q. rewrite lookup_delete_ne by (intros <-; done). done.
  - intros (Hj & (d & Hd & Hr & Hu) & Hm) Hun. rewrite elem_of_app, elem_of_cons in Hj.
    split_and!; [rewrite elem_of_app; tauto| |apply IH; [done|]].
    + exists d. rewrite lookup_delete_ne by (intros <-; apply Hj; by right; left). split_and!; [done..|].
      assert (Hnot := Hun j d ltac:(left) Hd).
      destruct (underlying_driver d) as [|l]; [done|]. destruct Hu as [Hl (f & r & q & Hf & ?)].
      rewrite elem_of_app, elem_of_cons in Hl. assert (l <> i) by congruence. split.
      * rewrite elem_of_app. tauto.
      * exists f, r, q. rewrite lookup_delete_ne by done. done.
    + intros k e Hk. apply Hun. by right.
Qed.

(** ** Mounting *)

Lemma find_underlying_spec m ids target d :
  find_underlying m ids target = Some d ->
  match d with
  | System => True
  | Mounted j => j ∈ ids /\ exists r, root_of m j = Some r /\ is_subpath None r target = Some true
  end.
Proof.
  induction ids as [|i ids IH]; cbn; [by intros [= <-]|].
  destruct (root_of m i) as [r|] eqn:Er; [|done]. destruct (is_subpath None r target) as [[]|] eqn:Es; [| |done].
  - intros [= <-]. split; [left|]. eauto.
  - intros Hd%IH. destruct d as [|j]; [done|]. destruct Hd as [Hj Hr]. split; [by right|done].
Qed.

Lemma is_subpath_true root target :
  is_subpath None root target = Some true -> exists r, canonical None root = Some (Some r).
Proof. unfold is_subpath. destruct (canonical None root) as [[r|]|], (canonical None target) as [[q|]|]; try done. by exists r. Qed.

(** What the search of [umount] finds: later mounts are neither on the target nor
    below it. *)
Lemma find_umount_spec m ids k target n :
  find_umount m ids k target = Some (At n) ->
  exists pre i post root, ids = pre ++ i :: post /\ (n = k + length pre)%nat /\
    root_of m i = Some root /\ root = target /\
    forall j, j ∈ pre -> exists r, root_of m j = Some r /\ r <> target /\
      ((path_length target < path_length r)%nat -> is_subpath None target r <> Some true).
Proof.
  revert k. induction ids as [|i ids IH]; intros k; cbn; [done|].
  destruct (root_of m i) as [r|] eqn:Er; [|done]. destruct (is_subpath None target r) as [b|] eqn:Es; [|done].
  destruct (_ && b) eqn:Eb; [done|]. unfold path_eq. case_bool_decide as Heq.
  - intros [= <-]. exists [], i, ids, r. split_and!; [done|simpl; lia|done|done|by intros j ?%not_elem_of_nil].
  - intros (pre & i' & post & root & -> & -> & Hr & Ht & Hpre)%IH.
    exists (i :: pre), i', post, root. split_and!; [done|simpl; lia|done|done|].
    intros j [->|Hj]%elem_of_cons; [|by apply Hpre]. exists r. split_and!; [done..|].
    intros Hlt Hsub. rewrite Hsub in Es. injection Es as <-. rewrite andb_true_r in Eb.
    apply Nat.ltb_ge in Eb. lia.
Qed.

Section Invariant.
Context {W : Type} `{World0 : World W} {OkW : WorldOk World0} {OkC : CwdOk World0}.

(** An operation that keeps the invariant. *)
Definition keeps {A} (c : M (vfs W) A) : Prop := triple vfs_ok c (fun _ => vfs_ok) (fun _ => vfs_ok).

Lemma keeps_bind {A B} (c : M (vfs W) A) (k : A -> M (vfs W) B) :
  keeps c -> (forall x, keeps (k x)) -> keeps (lbind c k).
Proof. apply triple_bind. Qed.

Lemma keeps_ret {A} (x : A) : keeps (lret x).
Proof. by intros s Hs. Qed.

Lemma keeps_crash {A} : keeps (@lcrash (vfs W) A).
Proof. done. Qed.

Lemma keeps_get : keeps lget.
Proof. by intros s Hs. Qed.

Lemma keeps_read {A} (f : vfs W -> option A) : keeps (lread f).
Proof. apply triple_read. by intros s x Hs _. Qed.

Lemma keeps_update f : (forall s, vfs_ok s -> vfs_ok (f s)) -> keeps (update f).
Proof. intros Hf s Hs. by apply Hf. Qed.

Lemma keeps_errno e : keeps (set_errno e).
Proof. intros s []. by constructor. Qed.

Lemma vfs_ok_world w s : vfs_ok s -> vfs_ok (with_world w s).
Proof. intros []. by constructor. Qed.

Lemma keeps_virtual d c : keeps (virtual d c).
Proof.
  intros s []. unfold virtual. destruct d as [d|]; [|done]. cbv zeta.
  match goal with |- context [if ?b then _ else _] => destruct b end; [|done].
  destruct (drive _ _ _ _) as [[]|]; [|done]. by constructor.
Qed.

Lemma keeps_sys c : keeps (sys c).
Proof. intros s []. unfold sys. destruct (system _ _) as [[]|]; [|done]. by constructor. Qed.

#[local] Hint Resolve keeps_ret keeps_crash keeps_get keeps_read keeps_errno keeps_virtual keeps_sys : vfs.

Ltac keep :=
  repeat match goal with
  | |- keeps (lbind _ _) => apply keeps_bind; [|intros ?]
  | |- keeps (match ?x with _ => _ end) => destruct x
  end; eauto with vfs.

Lemma keeps_failure e : keeps (failure e).
Proof. unfold failure. keep. Qed.

Lemma keeps_getcwd n : keeps (getcwd n).
Proof. unfold getcwd. keep. Qed.

#[local] Hint Resolve keeps_failure keeps_getcwd : vfs.

(** The current directory is canonical or an absolute path. *)
Lemma getcwd_absolute n :
  triple vfs_ok (getcwd n) (fun r s => vfs_ok s /\ forall p, r = Some p -> exists p', p = slash :: p') (fun _ => vfs_ok).
Proof.
  intros s Hs. unfold getcwd, lget, lbind. destruct (cpath s) as [p|] eqn:Ep.
  - destruct (n <? length p + 1)%nat; cbn; [split; [by apply (keeps_errno ERANGE)|done]|].
    split; [done|]. intros ? [= <-].
    destruct (canonical_fits p) as (p' & -> & _); [by apply Hs|eauto].
  - split; [done|]. intros p Hp. destruct (system_cwd (world s)) as [q|] eqn:Eq; [|done]. case_match; [|done].
    injection Hp as <-. by apply (cwd_absolute (world s)).
Qed.

(** An absolute path is in normal form. *)
Lemma abspath_canonical path :
  triple vfs_ok (abspath path) (fun r s => vfs_ok s /\ forall q, r = Some q -> canonical_text q) (fun _ => vfs_ok).
Proof.
  unfold abspath. destruct path as [[|c path]|]; [by intros s Hs| |by intros s Hs].
  destruct (is_absolute (Some (c :: path))) eqn:Ea.
  - intros s Hs. unfold absolutize. rewrite Ea. apply bool_decide_eq_true in Ea as ->.
    destruct (normalize (Some (slash :: path))) as [[q|]|] eqn:E; [|done|done].
    split; [done|]. intros ? [= <-]. by apply normalize_canonical in E.
  - unfold with_cwd. eapply triple_bind; [apply getcwd_absolute|]. intros cwd s [Hs Hcwd].
    unfold absolutize. rewrite Ea. destruct cwd as [cwd|]; [|done].
    destruct (PATH_MAX - length cwd <? length (c :: path) + 1)%nat; [done|].
    destruct (Hcwd cwd eq_refl) as [cwd' ->]. cbn [app].
    destruct (normalize _) as [[q|]|] eqn:E; [|done|done]. split; [done|]. intros ? [= <-].
    by apply normalize_canonical in E.
Qed.

Lemma keeps_abspath path : keeps (abspath path).
Proof. eapply triple_conseq; [apply abspath_canonical|done|by intros x s []|done]. Qed.

#[local] Hint Resolve keeps_abspath : vfs.

Lemma keeps_table t top s : length t = FD_TABLE_SIZE -> vfs_ok s -> vfs_ok (set_table t top s).
Proof. intros Ht []. by constructor. Qed.

Lemma keeps_alloc_fd path e d : keeps (alloc_fd path e d).
Proof.
  unfold alloc_fd. keep. apply keeps_update. intros s Hs. apply keeps_table; [|done].
  rewrite length_insert. apply Hs.
Qed.

Lemma keeps_release fd : keeps (update (release fd)).
Proof. apply keeps_update. intros s Hs. apply keeps_table; [|done]. rewrite length_insert. apply Hs. Qed.

#[local] Hint Resolve keeps_alloc_fd keeps_release : vfs.

Lemma keeps_free_fd fd : keeps (free_fd fd).
Proof. unfold free_fd. keep. Qed.

Lemma keeps_alloc_dirp path e d : keeps (alloc_dirp path e d).
Proof.
  unfold alloc_dirp. keep. apply keeps_update. intros s Hs. apply keeps_table; [|done].
  rewrite length_insert. apply Hs.
Qed.

Lemma keeps_free_dirp dirp : keeps (free_dirp dirp).
Proof. unfold free_dirp. keep. Qed.

Lemma keeps_resolve fd : keeps (resolve fd).
Proof. unfold resolve. keep. Qed.

Lemma keeps_resolve_dirp dirp : keeps (resolve_dirp dirp).
Proof. unfold resolve_dirp. keep. Qed.

Lemma keeps_record_path r : keeps (record_path r).
Proof. unfold record_path. keep. Qed.

Lemma keeps_find_driver path : keeps (find_driver path).
Proof. unfold find_driver. keep. Qed.

#[local] Hint Resolve keeps_free_fd keeps_alloc_dirp keeps_free_dirp keeps_resolve keeps_resolve_dirp
  keeps_record_path keeps_find_driver : vfs.

(** ** The steps that change the mounts and the current directory *)

Lemma keeps_mounts m s : mounts_ok m -> vfs_ok s -> vfs_ok (set_mounts m s).
Proof. intros Hm []. by constructor. Qed.

(** A new driver on top of the table. *)
Lemma mounts_ok_push m i d :
  mounts_ok m -> drivers m !! i = None -> (forall q, rootpath d = Some q -> canonical_text q) ->
  match underlying_driver d with
  | System => True
  | Mounted j => j ∈ mount_table m /\ below (drivers m) j (rootpath d)
  end ->
  mounts_ok (mk_mounts (<[i := d]> (drivers m)) (mount_table m ++ [i])).
Proof.
  unfold mounts_ok. intros Hm Hi Hr Hu. cbn [drivers mount_table]. rewrite rev_unit. cbn [mounted].
  assert (Hni : i ∉ rev (mount_table m)).
  { intros Hin. destruct (mounted_alive _ _ _ Hm Hin). congruence. }
  split_and!; [done| |by apply mounted_insert]. exists d. rewrite lookup_insert_eq. split_and!; [done..|].
  destruct (underlying_driver d) as [|j]; [done|]. destruct Hu as [Hj (e & r & q & He & ?)]. split.
  - rewrite list_elem_of_In in *. by rewrite <- in_rev.
  - exists e, r, q. rewrite lookup_insert_ne by congruence. done.
Qed.

Lemma load_driver_spec source target u m :
  (forall q, target = Some q -> canonical_text q) ->
  triple (fun s => vfs_ok s /\ v_mounts s = m) (load_driver source target u)
    (fun r s => (vfs_ok s /\ v_mounts s = m) /\ forall d, r = Some d -> d = mk_driver target u)
    (fun _ => vfs_ok).
Proof.
  intros Ht s Hs. unfold load_driver, lget, lbind. case_bool_decide; [|done]. destruct (jvm (world s)); [|done].
  assert (Hn : normalize target = Some target).
  { destruct target as [q|]; [|done]. by apply normalize_canonical_id, Ht. }
  rewrite Hn. split; [done|]. by intros d [= <-].
Qed.

Lemma keeps_mount source target fstype flags data : keeps (mount source target fstype flags data).
Proof.
  unfold mount. apply keeps_bind; [auto with vfs|]. intros s0. case_match; [auto with vfs|].
  eapply triple_bind; [apply abspath_canonical|]. intros p s [Hs Hp].
  unfold lbind at 1, lread. destruct (find_underlying _ _ _) as [u|] eqn:Eu; [|done].
  pose proof (load_driver_spec source p u (v_mounts s) Hp s (conj Hs eq_refl)) as Hload. revert Hload.
  unfold lbind at 1. destruct (load_driver source p u s) as [[d|] s1|e s1|]; [| |done|done].
  - intros [[Hs1 Hm1] Hd]. specialize (Hd d eq_refl) as ->. unfold lbind, lget, lread, update.
    destruct (construct _ _ _ _) as [w|]; [|done]. apply keeps_mounts; [|by apply vfs_ok_world]. rewrite Hm1.
    apply mounts_ok_push; [apply Hs|apply new_driver_fresh|done|]. cbn [underlying_driver rootpath].
    apply find_underlying_spec in Eu. destruct u as [|j]; [done|]. destruct Eu as [Hj (r & Hr & Hsub)].
    split; [rewrite list_elem_of_In in *; by rewrite in_rev|].
    unfold root_of in Hr. destruct (drivers (v_mounts s) !! j) as [dj|] eqn:Ej; [|done]. injection Hr as Hr.
    unfold below. destruct p as [p|]; [|by unfold is_subpath in Hsub; destruct (canonical None r) as [[]|]].
    destruct r as [r|]; [by exists dj, r, p|]. by destruct (is_subpath_true _ _ Hsub).
  - intros [[Hs1 _] _]. unfold lbind. pose proof (keeps_sys (Sys_mount source target fstype flags data) s1 Hs1) as Hsys.
    by destruct (sys _ s1).
Qed.

Lemma mounted_later ds pre i post j d :
  mounted ds (pre ++ i :: post) -> j ∈ pre -> ds !! j = Some d -> underlying_driver d = Mounted i ->
  below ds i (rootpath d) /\ (forall q, rootpath d = Some q -> canonical_text q).
Proof.
  induction pre as [|k pre IH]; [by intros _ ?%not_elem_of_nil|]. cbn.
  intros (_ & (e & He & Hr & Hu) & Hm) [->|Hj]%elem_of_cons Hd Hund; [|by apply IH].
  simplify_eq. rewrite Hund in Hu. by destruct Hu.
Qed.

Lemma mounted_root ds pre i post :
  mounted ds (pre ++ i :: post) -> exists d, ds !! i = Some d /\ forall q, rootpath d = Some q -> canonical_text q.
Proof. induction pre as [|k pre IH]; cbn; [intros (_ & (d & ? & ? & _) & _); eauto|]. by intros (_ & _ & ?)%id; apply IH. Qed.

(** Nothing that was mounted later is on the mount that [umount] removes. *)
Lemma umount_unused m pre i post root :
  mounted (drivers m) (pre ++ i :: post) -> root_of m i = Some root ->
  (forall j, j ∈ pre -> exists r, root_of m j = Some r /\ r <> root /\
     ((path_length root < path_length r)%nat -> is_subpath None root r <> Some true)) ->
  forall j d, j ∈ pre -> drivers m !! j = Some d -> underlying_driver d <> Mounted i.
Proof.
  intros Hm Hi Hpre j d Hj Hd Hund.
  destruct (mounted_later _ _ _ _ _ _ Hm Hj Hd Hund) as [(e & r & q & He & Hr & Hq & Hsub) Hcan].
  destruct (mounted_root _ _ _ _ Hm) as (e' & He' & Hcan'). simplify_eq.
  destruct (Hpre j Hj) as (r' & Hr' & Hne & Hlong). unfold root_of in *. rewrite He in Hi. rewrite Hd in Hr'.
  cbn in Hi, Hr'. simplify_eq. rewrite Hr, Hq in *.
  destruct (subpath_longer None r q (Hcan' r eq_refl) (Hcan q eq_refl) Hsub) as [->|Hlt]; [done|].
  by apply Hlong.
Qed.

Lemma take_drop_middle_remove {A} (a b : list A) x j :
  j = length a -> take j (a ++ x :: b) ++ drop (S j) (a ++ x :: b) = a ++ b.
Proof.
  intros ->. rewrite take_app_length. f_equal. change (S (length a)) with (1 + length a)%nat.
  rewrite Nat.add_comm, <- drop_drop, drop_app_length. done.
Qed.

Lemma keeps_umount target flags : keeps (umount target flags).
Proof.
  unfold umount. destruct target as [[|c target]|]; [auto with vfs| |auto with vfs].
  apply keeps_bind; [auto with vfs|]. intros p s Hs. unfold lbind at 1, lread.
  destruct (find_umount _ _ _ _) as [found|] eqn:Ef; [|done]. destruct found as [|k|].
  - by apply keeps_failure.
  - apply find_umount_spec in Ef as (pre & i & post & root & Hids & -> & Hroot & <- & Hpre).
    assert (Htab : mount_table (v_mounts s) = rev post ++ i :: rev pre).
    { rewrite <- (rev_involutive (mount_table _)), Hids, rev_app_distr. cbn. by rewrite <- app_assoc. }
    unfold lbind, lget. rewrite Htab, length_app. cbn [length].
    set (j := (length (rev post) + S (length (rev pre)) - 1 - (0 + length pre))%nat).
    assert (Hj : j = length (rev post)) by (unfold j; rewrite !length_rev; lia).
    rewrite Hj, list_lookup_middle by done. cbn [update]. unfold update. apply keeps_mounts; [|by apply vfs_ok_world].
    rewrite take_drop_middle_remove by done. unfold mounts_ok. cbn [drivers mount_table].
    rewrite rev_app_distr, !rev_involutive. pose proof (ok_mounts s Hs) as Hm. unfold mounts_ok in Hm.
    rewrite Hids in Hm. apply mounted_delete; [done|]. by apply (umount_unused _ _ _ post root).
  - revert s Hs Ef. intros s Hs _. by apply (keeps_bind _ _ (keeps_sys _) (fun _ => keeps_ret _)).
Qed.

#[local] Hint Resolve keeps_mount keeps_umount : vfs.

Lemma keeps_chdir path : keeps (chdir path).
Proof.
  unfold chdir. eapply triple_bind; [apply abspath_canonical|]. intros p.
  destruct p as [p|].
  - intros s [Hs Hp]. revert s Hs. specialize (Hp p eq_refl). change (keeps (
      let* d := find_driver (Some p) in
      let* st := virtual d (Stat (Some p) 0) in
      if ret st =? -1 then lret (-1)
      else if Z.land (extra st) S_IFDIR =? 0 then failure ENOTDIR
      else (do* sys (Sys_chdir (Some p)) in do* update (set_cpath (Some p)) in lret 0))).
    keep. apply keeps_update. intros s []. constructor; [done..|]. by intros ? [= <-].
  - intros s [Hs _]. cbn. done.
Qed.

#[local] Hint Resolve keeps_chdir : vfs.

Lemma keeps_on_path path c : keeps (on_path path c).
Proof. unfold on_path. keep. Qed.

Lemma keeps_on_paths src dst c : keeps (on_paths src dst c).
Proof. unfold on_paths. keep. Qed.

Lemma keeps_on_fd fd c : keeps (on_fd fd c).
Proof. unfold on_fd. keep. Qed.

Lemma keeps_on_dirp f dirp c : keeps (on_dirp f dirp c).
Proof. unfold on_dirp. keep. Qed.

Lemma keeps_on_socket fd c : keeps (on_socket fd c).
Proof. unfold on_socket. keep. Qed.

Lemma keeps_sys_ret c : keeps (sys_ret c).
Proof. unfold sys_ret. keep. Qed.

Lemma keeps_on_open_socket fd k : (forall e, keeps (k e)) -> keeps (on_open_socket fd k).
Proof. intros Hk. unfold on_open_socket. keep. Qed.

Lemma keeps_adopt e : keeps (adopt e).
Proof. unfold adopt. keep. Qed.

#[local] Hint Resolve keeps_on_path keeps_on_paths keeps_on_fd keeps_on_dirp keeps_on_socket keeps_sys_ret
  keeps_adopt : vfs.

Lemma keeps_select_set fd fds add a : keeps (select_set fd fds add a).
Proof. unfold select_set. keep. Qed.

#[local] Hint Resolve keeps_select_set : vfs.

Lemma keeps_select_from rfd wfd efd fds a : keeps (select_from rfd wfd efd fds a).
Proof. revert a. induction fds as [|fd fds IH]; intros a; cbn [select_from]; [apply keeps_ret|]. keep. Qed.

#[local] Hint Resolve keeps_select_from : vfs.

(** The functions that a client may call. *)
Inductive operation : forall {A}, M (vfs W) A -> Prop :=
| op_mount source target fstype flags data : operation (mount source target fstype flags data)
| op_umount target flags : operation (umount target flags)
| op_chdir path : operation (chdir path)
| op_fchdir fd : operation (fchdir fd)
| op_chroot path : operation (chroot path)
| op_getcwd size : operation (getcwd size)
| op_path path c : operation (on_path path c)
| op_paths src dst c : operation (on_paths src dst c)
| op_access path mode : operation (access path mode)
| op_open path oflag arg : operation (open path oflag arg)
| op_close fd : operation (close fd)
| op_fd fd c : operation (on_fd fd c)
| op_dup2 fd fd2 : operation (dup2 fd fd2)
| op_opendir path : operation (opendir path)
| op_fdopendir fd : operation (fdopendir fd)
| op_dirp failed dirp c : operation (on_dirp failed dirp c)
| op_closedir dirp : operation (closedir dirp)
| op_dirfd dirp : operation (dirfd dirp)
| op_socket_call fd c : operation (on_socket fd c)
| op_bind fd addr len : operation (bind fd addr len)
| op_getsockname fd addr len : operation (getsockname fd addr len)
| op_getsockopt fd level name val len : operation (getsockopt fd level name val len)
| op_setsockopt fd level name val len : operation (setsockopt fd level name val len)
| op_listen fd backlog : operation (listen fd backlog)
| op_mmap addr len prot flags fd offset : operation (mmap addr len prot flags fd offset)
| op_accept fd addr len : operation (accept fd addr len)
| op_connect fd addr len : operation (connect fd addr len)
| op_socket domain type protocol : operation (socket domain type protocol)
| op_pipe : operation pipe
| op_select maxfd rfd wfd efd tv : operation (select maxfd rfd wfd efd tv).

Lemma operation_keeps {A} (c : M (vfs W) A) : operation c -> keeps c.
Proof.
  destruct 1; eauto with vfs.
  - unfold fchdir. keep.
  - unfold chroot. keep.
  - unfold access. keep.
  - unfold open. keep.
  - unfold close. keep.
  - unfold dup2. keep.
  - unfold opendir. keep.
  - unfold fdopendir. keep.
  - unfold closedir. keep.
  - unfold dirfd. keep.
  - apply keeps_on_open_socket. keep.
  - apply keeps_on_open_socket. keep.
  - apply keeps_on_open_socket. keep.
  - apply keeps_on_open_socket. keep.
  - apply keeps_on_open_socket. keep.
  - unfold mmap. destruct (_ <? 0); [auto with vfs|]. apply keeps_on_open_socket. keep.
  - apply keeps_on_open_socket. intros e. keep.
  - apply keeps_on_open_socket. intros e. keep.
  - unfold socket. keep.
  - unfold pipe. keep.
  - unfold select. keep.
Qed.

(** The states of a program: after the initialisation, and after each call. *)
Definition vfs_initial (w : W) : vfs W :=
  init_fd (mk_vfs [] 0 (mk_mounts ∅ []) None 0 w).

Inductive vfs_reachable : vfs W -> Prop :=
| vfs_start w : vfs_reachable (vfs_initial w)
| vfs_step {A} (c : M (vfs W) A) s r s' : vfs_reachable s -> operation c -> c s = Ret r s' -> vfs_reachable s'.

Lemma vfs_initial_ok w : vfs_ok (vfs_initial w).
Proof.
  constructor; [|done|done]. unfold vfs_initial, init_fd. cbn [fd_table set_table].
  rewrite length_app, length_replicate, length_map, length_seq. pose proof table_size. lia.
Qed.

(** C12: after any sequence of calls of the virtual file system, every mount of the
    table is an object that exists; its root is in normal form; its underlying
    driver is the system driver or a mount made before it that still exists, and its
    root is below the root of that one.  Removing a mount never leaves another mount
    on a deleted driver. *)
Theorem mounts_stay_alive s :
  vfs_reachable s ->
  length (fd_table s) = FD_TABLE_SIZE /\
  forall before i after, mount_table (v_mounts s) = before ++ i :: after -> exists d,
    drivers (v_mounts s) !! i = Some d /\ (forall q, rootpath d = Some q -> canonical_text q) /\
    match underlying_driver d with
    | System => True
    | Mounted j => j ∈ before /\ is_Some (drivers (v_mounts s) !! j) /\ below (drivers (v_mounts s)) j (rootpath d)
    end.
Proof.
  intros Hreach. assert (Hok : vfs_ok s).
  { induction Hreach as [w|A c s r s' _ IH Hop Hc]; [apply vfs_initial_ok|].
    pose proof (operation_keeps c Hop s IH) as Hk. by rewrite Hc in Hk. }
  split; [apply Hok|]. intros before i after Htab. pose proof (ok_mounts s Hok) as Hm.
  unfold mounts_ok in Hm. rewrite Htab, rev_app_distr in Hm. cbn [rev] in Hm. rewrite <- app_assoc in Hm.
  revert Hm. generalize (rev after). induction l as [|k l IH]; cbn [app mounted].
  - intros (_ & (d & Hd & Hr & Hu) & Hm). exists d. split_and!; [done..|].
    destruct (underlying_driver d) as [|j]; [done|]. destruct Hu as [Hj Hb]. split_and!; [|by apply (mounted_alive _ _ _ Hm)|done].
    rewrite list_elem_of_In in *. by apply in_rev.
  - by intros (_ & _ & Hm); apply IH.
Qed.

End Invariant.

(** ** From [open] to [close] *)

(** Drivers open a descriptor or return -1. *)
Class DriversOk {W} (World0 : World W) := {
  open_result : forall m d path oflag arg w r w', drive m d (Open path oflag arg) w = Some (r, w') -> -1 <= ret r;
}.

Section Descriptors.
Context {W : Type} `{World0 : World W} {OkD : DriversOk World0}.

(** An operation that leaves the table of descriptors as it is. *)
Definition frames {A} (c : M (vfs W) A) : Prop :=
  forall t top, triple (fun s => fd_table s = t /\ fd_table_top s = top) c
    (fun _ s => fd_table s = t /\ fd_table_top s = top) (fun _ s => fd_table s = t /\ fd_table_top s = top).

Lemma frames_bind {A B} (c : M (vfs W) A) (k : A -> M (vfs W) B) :
  frames c -> (forall x, frames (k x)) -> frames (lbind c k).
Proof. intros Hc Hk t top. eapply triple_bind; [apply Hc|]. intros x. apply Hk. Qed.

Lemma frames_ret {A} (x : A) : frames (lret x).
Proof. by intros t top s Hs. Qed.

Lemma frames_crash {A} : frames (@lcrash (vfs W) A).
Proof. done. Qed.

Lemma frames_get : frames lget.
Proof. by intros t top s Hs. Qed.

Lemma frames_read {A} (f : vfs W -> option A) : frames (lread f).
Proof. intros t top. apply triple_read. by intros s x Hs _. Qed.

Lemma frames_errno e : frames (set_errno e).
Proof. by intros t top s Hs. Qed.

#[local] Hint Resolve frames_ret frames_crash frames_get frames_read frames_errno : vfs.

Ltac frame :=
  repeat match goal with
  | |- frames (lbind _ _) => apply frames_bind; [|intros ?]
  | |- frames (match ?x with _ => _ end) => destruct x
  end; eauto with vfs.

Lemma frames_getcwd n : frames (getcwd n).
Proof. unfold getcwd. frame. Qed.

#[local] Hint Resolve frames_getcwd : vfs.

Lemma frames_abspath path : frames (abspath path).
Proof. unfold abspath, with_cwd. frame. Qed.

#[local] Hint Resolve frames_abspath : vfs.

Lemma frames_find_driver path : frames (find_driver path).
Proof. unfold find_driver. frame. Qed.

Lemma frames_virtual d c : frames (virtual d c).
Proof.
  intros t top s Hs. unfold virtual. destruct d as [d|]; [|done]. cbv zeta.
  match goal with |- context [if ?b then _ else _] => destruct b end; [|done]. by destruct (drive _ _ _ _) as [[]|].
Qed.

Lemma frames_ends {A} (c : M (vfs W) A) s x s' :
  frames c -> c s = Ret x s' -> fd_table s' = fd_table s /\ fd_table_top s' = fd_table_top s.
Proof. intros Hc E. pose proof (Hc _ _ s (conj eq_refl eq_refl)) as H. by rewrite E in H. Qed.

Lemma first_free_spec t n :
  first_free t = Some n -> exists r, t !! n = Some r /\ r_extfd r < 0 /\
    forall k q, (k < n)%nat -> t !! k = Some q -> 0 <= r_extfd q.
Proof.
  revert n. induction t as [|r t IH]; intros n; cbn; [done|]. destruct (r_extfd r <? 0) eqn:E; bool_to_prop.
  - intros [= <-]. exists r. split_and!; [done..|]. intros. lia.
  - destruct (first_free t) as [m|]; [|done]. intros [= <-]. destruct (IH m eq_refl) as (q & Hq & Hneg & Hlow).
    exists q. split_and!; [done..|]. intros [|k] q' Hk Hq'; cbn in Hq'; [by simplify_eq|]. apply (Hlow k); [lia|done].
Qed.

(** What [alloc_fd] does. *)
Lemma alloc_fd_spec path e d s fd s1 :
  alloc_fd path e d s = Ret fd s1 -> 0 <= fd ->
  exists n p, fd = Z.of_nat n /\ first_free (fd_table s) = Some n /\
    fd_table s1 = <[n := mk_fd 0 e 0 (Some d) p]> (fd_table s).
Proof.
  unfold alloc_fd. rewrite lbind_Ret. intros (s' & s0 & [= <- <-] & H) Hfd.
  destruct (first_free (fd_table s)) as [n|] eqn:Ef; [|injection H as <- <-; lia].
  apply lbind_Ret in H as (p & s2 & Hp & H). apply frames_ends in Hp as [Ht _]; [|apply frames_abspath].
  injection H as <- <-. exists n, p. split_and!; [done..|]. cbn. by rewrite Ht.
Qed.

Lemma virtual_open_result d path oflag arg s r s1 :
  virtual (Some d) (Open path oflag arg) s = Ret r s1 -> -1 <= ret r.
Proof.
  unfold virtual. cbv zeta. match goal with |- context [if ?b then _ else _] => destruct b end; [|done].
  destruct (drive _ _ _ _) as [[r' w]|] eqn:E; [|done]. intros [= <- _]. by eapply open_result.
Qed.

(** C17: a descriptor that [open] returns is the first one that is not in use; no
    other record changes; every function on the descriptor calls the driver that
    opened it with the descriptor of that driver; and [close] gives the record back
    and closes the descriptor of the driver. *)
Theorem open_close_descriptor path oflag arg s fd s1 :
  length (fd_table s) = FD_TABLE_SIZE -> open path oflag arg s = Ret fd s1 -> 0 <= fd ->
  exists n d extfd p, fd = Z.of_nat n /\ 0 <= extfd /\
    (exists r, fd_table s !! n = Some r /\ r_extfd r < 0) /\
    (forall k r, (k < n)%nat -> fd_table s !! k = Some r -> 0 <= r_extfd r) /\
    fd_table s1 = <[n := mk_fd 0 extfd 0 (Some d) p]> (fd_table s) /\
    (forall c, on_fd fd c s1 = (let* a := virtual (Some d) (c extfd) in lret (ret a)) s1) /\
    close fd s1 = (let* a := virtual (Some d) (Close extfd) in lret (ret a)) (release n s1) /\
    fd_table (release n s1) = <[n := unused]> (fd_table s).
Proof.
  intros Hlen Hopen Hfd. unfold open in Hopen. apply lbind_Ret in Hopen as (od & s2 & Hd & Hopen).
  apply frames_ends in Hd as [Ht2 _]; [|apply frames_find_driver].
  destruct od as [d|]; [|injection Hopen as <- <-; lia].
  apply lbind_Ret in Hopen as (e & s3 & He & Hopen). pose proof (virtual_open_result _ _ _ _ _ _ _ He) as Hneg.
  apply frames_ends in He as [Ht3 _]; [|apply frames_virtual].
  destruct (ret e =? -1) eqn:E; bool_to_prop; [injection Hopen as <- <-; lia|].
  apply lbind_Ret in Hopen as (fd' & s4 & Ha & Hopen).
  assert (fd' = fd /\ s4 = s1 /\ 0 <= fd') as (-> & -> & _).
  { destruct (fd' <? 0) eqn:En; bool_to_prop.
    - apply lbind_Ret in Hopen as (? & ? & _ & Hopen). injection Hopen as <- _. lia.
    - by injection Hopen as <- <-. }
  destruct (alloc_fd_spec _ _ _ _ _ _ Ha Hfd) as (n & p & -> & Hfree & Ht). rewrite Ht3, Ht2 in *.
  destruct (first_free_spec _ _ Hfree) as (r & Hr & Hrneg & Hlow).
  assert (Hn : (n < length (fd_table s))%nat) by (by apply lookup_lt_Some in Hr).
  assert (Hrec : fd_table s1 !! n = Some (mk_fd 0 (ret e) 0 (Some d) p)) by (rewrite Ht; by apply list_lookup_insert_eq).
  assert (Hres : resolve (Z.of_nat n) s1 = Ret (Some (mk_fd 0 (ret e) 0 (Some d) p)) s1).
  { unfold resolve. rewrite (proj2 (Z.ltb_ge (Z.of_nat n) 0)), (proj2 (Z.ltb_ge _ (Z.of_nat n))) by lia. cbn [orb].
    unfold lbind, lread. rewrite Nat2Z.id, Hrec. done. }
  exists n, d, (ret e), p. split_and!; [done|lia|by exists r|done|done| | |].
  - intros c. unfold on_fd. by rewrite (lbind_step _ _ _ _ _ Hres).
  - unfold close. rewrite (lbind_step _ _ _ _ _ Hres). cbn [r_driver r_extfd]. unfold free_fd.
    rewrite (proj2 (Z.ltb_ge (Z.of_nat n) 0)), (proj2 (Z.ltb_ge _ (Z.of_nat n))) by lia. cbn [orb].
    rewrite Nat2Z.id. unfold lbind at 1 2, lread. rewrite Hrec. cbn [r_extfd].
    by rewrite (proj2 (Z.ltb_ge (ret e) 0)) by lia.
  - cbn. rewrite Ht. apply list_insert_insert_eq.
Qed.

End Descriptors.

(** ** A world for the examples *)

(** A driver opens descriptor 7 and streams at address 9, whose descriptor is 8;
    everything is a directory; other calls return 0. *)
Definition demo_drive (c : call) : reply :=
  match c with
  | Open _ _ _ => mk_reply 7 0 None
  | Opendir _ => mk_reply 9 0 None
  | Dirfd _ => mk_reply 8 0 None
  | Stat _ _ => mk_reply 0 S_IFDIR None
  | _ => mk_reply 0 0 None
  end.

(** The next address after those of a map. *)
Definition next_key {A} (ds : gmap Z A) : Z := map_fold (fun i _ m => Z.max m (i + 1)) 1 ds.

Lemma next_key_above {A} (ds : gmap Z A) i d : ds !! i = Some d -> i < next_key ds.
Proof.
  revert i d. unfold next_key. apply (map_fold_weak_ind (fun m ds => forall i d, ds !! i = Some d -> i < m)).
  - intros i d Hd. by rewrite lookup_empty in Hd.
  - intros j e m r _ IH i d Hd. destruct (decide (i = j)) as [->|Hne]; [lia|].
    rewrite lookup_insert_ne in Hd by done. apply IH in Hd. lia.
Qed.

Lemma next_key_fresh {A} (ds : gmap Z A) : ds !! next_key ds = None.
Proof. destruct (ds !! next_key ds) as [d|] eqn:E; [|done]. apply next_key_above in E. lia. Qed.

Lemma next_key_positive {A} (ds : gmap Z A) : 1 <= next_key ds.
Proof. unfold next_key. apply (map_fold_weak_ind (fun m _ => 1 <= m)); intros; lia. Qed.

#[local] Instance demo_world : World unit := {|
  FD_TABLE_SIZE := 8;
  drive _ _ c w := Some (demo_drive c, w);
  system _ w := Some (mk_reply 0 0 None, w);
  system_cwd _ := Some (str "/");
  jvm _ := true;
  new_driver _ ds := next_key ds;
  construct _ _ _ w := Some w;
  destroy _ w := w;
|}.

#[local] Instance demo_world_ok : WorldOk demo_world.
Proof. constructor; [cbn; lia|]. intros w ds. apply next_key_fresh. Qed.

#[local] Instance demo_cwd_ok : CwdOk demo_world.
Proof. constructor. intros w p [= <-]. by exists []. Qed.

#[local] Instance demo_drivers_ok : DriversOk demo_world.
Proof. constructor. intros m d path oflag arg w r w' [= <- _]. cbn. lia. Qed.

Definition demo_start : vfs unit := vfs_initial tt.

(** The state after two mounts, the second one on the first. *)
Definition demo_mounted : vfs unit :=
  match (do* mount (Some dev_assets) (Some (str "/data")) None 0 0 in
         mount (Some dev_assets) (Some (str "/data/app/../lib")) None 0 0) demo_start with
  | Ret _ s => s
  | _ => demo_start
  end.

Lemma mounts_stay_alive_witness :
  exists d, drivers (v_mounts demo_mounted) !! 2 = Some d /\ underlying_driver d = Mounted 1 /\
    is_Some (drivers (v_mounts demo_mounted) !! 1).
Proof.
  assert (Hreach : vfs_reachable demo_mounted).
  { refine (vfs_step (mount (Some dev_assets) (Some (str "/data/app/../lib")) None 0 0) _ 0 _ _ (op_mount _ _ _ _ _) _).
    - refine (vfs_step (mount (Some dev_assets) (Some (str "/data")) None 0 0) _ 0 _ (vfs_start tt) (op_mount _ _ _ _ _) _).
      vm_compute. reflexivity.
    - vm_compute. reflexivity. }
  destruct (mounts_stay_alive _ Hreach) as [_ H]. destruct (H [1] 2 []) as (d & Hd & _ & Hu); [vm_compute; reflexivity|].
  exists d. split; [exact Hd|]. vm_compute in Hd. injection Hd as <-. cbn in Hu. split; [reflexivity|apply Hu].
Defined.

Lemma open_close_descriptor_witness :
  exists n d extfd p s1, open (Some (str "/data/file")) 0 0 demo_mounted = Ret (Z.of_nat n) s1 /\ n = 3%nat /\
    fd_table s1 = <[n := mk_fd 0 extfd 0 (Some d) p]> (fd_table demo_mounted).
Proof.
  destruct (open (Some (str "/data/file")) 0 0 demo_mounted) as [fd s1|e s1|] eqn:E; vm_compute in E; try discriminate E.
  assert (E' : open (Some (str "/data/file")) 0 0 demo_mounted = Ret fd s1) by (vm_compute; exact E).
  assert (Hfd : fd = 3) by congruence.
  destruct (open_close_descriptor (Some (str "/data/file")) 0 0 demo_mounted fd s1) as (n & d & e & p & Hn & _ & _ & _ & Ht & _);
    [reflexivity|exact E'|lia|].
  exists n, d, e, p, s1. subst fd. split; [by rewrite <- Hn|]. split; [lia|exact Ht].
Defined.

(** [umount] does not look at the descriptors that a driver has open: after it,
    the record of a descriptor still points to the deleted driver, and the next
    function on the descriptor uses it. *)
Theorem umount_leaves_descriptors :
  exists fd s1 s2,
    (do* mount (Some dev_assets) (Some (str "/data")) None 0 0 in open (Some (str "/data/file")) 0 0) demo_start = Ret fd s1 /\
    0 <= fd /\ umount (Some (str "/data")) 0 s1 = Ret 0 s2 /\
    forall buf count, read fd buf count s2 = Crash.
Proof. eexists 3, _, _. split_and!; [vm_compute; reflexivity|lia|vm_compute; reflexivity|]. by intros buf count. Qed.

(** The search of [find_driver] compares texts, not components: a file of another
    directory goes to the mounted driver. *)
Example find_driver_by_text :
  match mount (Some dev_assets) (Some (str "/data")) None 0 0 demo_start with
  | Ret _ s => match find_driver (Some (str "/database/x")) s with Ret d _ => d = Some (Mounted 1) | _ => False end
  | _ => False
  end.
Proof. by vm_compute. Qed.

(** The stream of the highest record is not released by [closedir]: it can be closed
    again, and its record stays in use. *)
Example closedir_keeps_last :
  match (let* dirp := opendir (Some (str "/data")) in do* closedir dirp in lret dirp) demo_start with
  | Ret dirp s => r_extfd <$> fd_table s !! 3%nat = Some 8 /\ exists r s', closedir dirp s = Ret r s'
  | _ => False
  end.
Proof. vm_compute. eauto. Qed.
