(* ===== verification/SystemDriver.v ===== *)
(** * The driver of the system ([sources/crystax/vfs/system])

    Models [sdriver.cpp]: the functions of the C library are looked up by name in
    [libc.so] the first time that one of them is called, and each function of the driver
    calls the one of its name.  The dynamic linker and the functions that it finds are
    the class [Libc]; an address 0 is a null pointer. *)

From S2P Require Import Prelude Util Paths Vfs.
Open Scope Z_scope.
Open Scope ndk_scope.

(** The functions that neither the drivers nor the virtual file system call. *)
Inductive other_call :=
| Oth_access (path : option cstr) (mode : Z)
| Oth_fchdir (fd : Z)
| Oth_getcwd (buf size : Z)
| Oth_getpwnam_r (name : option cstr) (pwd buf buflen result : Z)
| Oth_getpwuid_r (uid pwd buf buflen result : Z)
| Oth_pthread_create (pth pattr func arg : Z)
| Oth_umount (target : option cstr).

(** A call of a function of the C library: for a function of drivers, for one that the
    virtual file system calls itself, or for another one. *)
Inductive libc_call := Driver_call (c : call) | System_call (c : system_call) | Other_call (c : other_call).

Class Libc (E : Type) := {
  dlopen : cstr -> E -> Z * E;
  dlsym : Z -> cstr -> E -> Z * E;
  dlclose : Z -> E -> E;
  invoke : Z -> libc_call -> E -> reply * E;
}.

Definition ENOTSUP : Z := 95.
Definition ENOENT : Z := 2.

(** [init_flag] and the pointers [func_...]; a name without an entry is [NULL]. *)
Record sysmod := mk_sysmod { init_flag : bool; func : gmap string Z }.

(** The pointers before the first call. *)
Definition sysmod_start : sysmod := mk_sysmod false ∅.

Definition pointer (m : sysmod) (x : string) : Z := default 0 (func m !! x).

(** The symbols of [CRYSTAX_LOAD_SYMBOL], in their order. *)
Definition required : list string :=
  ["accept"; "access"; "bind"; "chdir"; "chown"; "chroot"; "close"; "closedir"; "connect"; "dirfd"; "dup"; "dup2";
   "fchdir"; "fchown"; "fcntl"; "fdopendir"; "flock"; "fstat"; "fsync"; "ftruncate"; "getcwd"; "getdents";
   "getsockname"; "getsockopt"; "ioctl"; "lchown"; "link"; "listen"; "lseek"; "lseek64"; "lstat"; "mkdir"; "mmap";
   "mount"; "open"; "opendir"; "pipe"; "pread"; "pwrite"; "pthread_create"; "read"; "readv"; "readdir"; "readdir_r";
   "readlink"; "recv"; "recvfrom"; "recvmsg"; "remove"; "rename"; "rewinddir"; "rmdir"; "scandir"; "select"; "send";
   "sendmsg"; "sendto"; "setsockopt"; "shutdown"; "socket"; "stat"; "symlink"; "umount"; "umount2"; "unlink"; "write";
   "writev"]%string.

(** The symbols that may be missing, after [fdatasync]. *)
Definition optional : list string := ["seekdir"; "telldir"; "getpwnam_r"; "getpwuid_r"]%string.

(** The function of a call. *)
Definition call_name (c : call) : string :=
  match c with
  | Chown _ _ _ => "chown" | Close _ => "close" | Closedir _ => "closedir" | Dirfd _ => "dirfd" | Dup _ => "dup"
  | Dup2 _ _ => "dup2" | Fchown _ _ _ => "fchown" | Fcntl _ _ _ => "fcntl" | Fdatasync _ => "fdatasync"
  | Fdopendir _ => "fdopendir" | Flock _ _ => "flock" | Fstat _ _ => "fstat" | Fsync _ => "fsync"
  | Ftruncate _ _ => "ftruncate" | Getdents _ _ _ => "getdents" | Ioctl _ _ _ => "ioctl" | Lchown _ _ _ => "lchown"
  | Link _ _ => "link" | Lseek _ _ _ => "lseek" | Lseek64 _ _ _ => "lseek64" | Lstat _ _ => "lstat"
  | Mkdir _ _ => "mkdir" | Open _ _ _ => "open" | Opendir _ => "opendir" | Pread _ _ _ _ => "pread"
  | Pwrite _ _ _ _ => "pwrite" | Read _ _ _ => "read" | Readv _ _ _ => "readv" | Readdir _ => "readdir"
  | Readdir_r _ _ _ => "readdir_r" | Readlink _ _ _ => "readlink" | Remove _ => "remove" | Rename _ _ => "rename"
  | Rewinddir _ => "rewinddir" | Rmdir _ => "rmdir" | Scandir _ _ _ _ => "scandir" | Seekdir _ _ => "seekdir"
  | Select _ _ _ _ _ => "select" | Stat _ _ => "stat" | Symlink _ _ => "symlink" | Telldir _ => "telldir"
  | Unlink _ => "unlink" | Write _ _ _ => "write" | Writev _ _ _ => "writev"
  end.

Definition system_name (c : system_call) : string :=
  match c with
  | Sys_accept _ _ _ => "accept" | Sys_bind _ _ _ => "bind" | Sys_chdir _ => "chdir" | Sys_chroot _ => "chroot"
  | Sys_close _ => "close" | Sys_connect _ _ _ => "connect" | Sys_getsockname _ _ _ => "getsockname"
  | Sys_getsockopt _ _ _ _ _ => "getsockopt" | Sys_listen _ _ => "listen" | Sys_mmap _ _ _ _ _ _ => "mmap"
  | Sys_mount _ _ _ _ _ => "mount" | Sys_pipe => "pipe" | Sys_recv _ _ _ _ => "recv"
  | Sys_recvfrom _ _ _ _ _ _ => "recvfrom" | Sys_recvmsg _ _ _ => "recvmsg" | Sys_send _ _ _ _ => "send"
  | Sys_sendmsg _ _ _ => "sendmsg" | Sys_sendto _ _ _ _ _ _ => "sendto" | Sys_setsockopt _ _ _ _ _ => "setsockopt"
  | Sys_shutdown _ _ => "shutdown" | Sys_socket _ _ _ => "socket" | Sys_umount2 _ _ => "umount2"
  end.

Definition other_name (c : other_call) : string :=
  match c with
  | Oth_access _ _ => "access" | Oth_fchdir _ => "fchdir" | Oth_getcwd _ _ => "getcwd"
  | Oth_getpwnam_r _ _ _ _ _ => "getpwnam_r" | Oth_getpwuid_r _ _ _ _ _ => "getpwuid_r"
  | Oth_pthread_create _ _ _ _ => "pthread_create" | Oth_umount _ => "umount"
  end.

Section System.
Context {E : Type} `{Libc E}.

(** The module and the process. *)
Abbreviation sys_state := (sysmod * E)%type.

Definition set_func (x : string) (p : Z) (m : sysmod) : sysmod := mk_sysmod (init_flag m) (<[x := p]> (func m)).

(** [CRYSTAX_LOAD_SYMBOL] for each of the names; the pointer is stored before it is
    tested. *)
Fixpoint load_symbols (pc : Z) (xs : list string) (st : sys_state) : bool * sys_state :=
  match xs with
  | [] => (true, st)
  | x :: xs =>
      let '(p, e) := dlsym pc (str x) st.2 in
      let st := (set_func x p st.1, e) in
      if p =? 0 then (false, st) else load_symbols pc xs st
  end.

(** The same without the test. *)
Fixpoint load_optional (pc : Z) (xs : list string) (st : sys_state) : sys_state :=
  match xs with
  | [] => st
  | x :: xs => let '(p, e) := dlsym pc (str x) st.2 in load_optional pc xs (set_func x p st.1, e)
  end.

Definition init_impl (st : sys_state) : bool * sys_state :=
  let '(pc, e) := dlopen (str "/system/lib/libc.so") st.2 in
  if pc =? 0 then (false, (st.1, e))
  else
    let '(ok, st) := load_symbols pc required (st.1, e) in
    if negb ok then (false, st)
    else
      let '(p, e) := dlsym pc (str "fdatasync") st.2 in
      let m := set_func "fdatasync" (if p =? 0 then pointer st.1 "fsync" else p) st.1 in
      let '(m, e) := load_optional pc optional (m, e) in
      (true, (m, dlclose pc e)).

Definition init (st : sys_state) : bool * sys_state :=
  if init_flag st.1 then (true, st)
  else
    let '(ok, st) := init_impl st in
    if ok then (true, (mk_sysmod true (func st.1), st.2)) else (false, st).

(** [MODULE_INIT] and the call of a pointer; [None] if the process aborts or calls a null
    pointer. *)
Definition call_func (x : string) (c : libc_call) (st : sys_state) : option (reply * sys_state) :=
  let '(ok, st) := init st in
  if negb ok then None
  else if pointer st.1 x =? 0 then None
  else let '(r, e) := invoke (pointer st.1 x) c st.2 in Some (r, (st.1, e)).

(** A function that has a value for a missing symbol. *)
Definition call_optional (x : string) (missing : reply) (c : libc_call) (st : sys_state) : option (reply * sys_state) :=
  let '(ok, st) := init st in
  if negb ok then None
  else if pointer st.1 x =? 0 then Some (missing, st)
  else let '(r, e) := invoke (pointer st.1 x) c st.2 in Some (r, (st.1, e)).

(** The arguments that are passed: [open] has a third one only for [O_CREAT]. *)
Definition passed (c : call) : call :=
  match c with
  | Open path oflag arg => if Z.land oflag O_CREAT =? 0 then Open path oflag 0 else c
  | _ => c
  end.

(** The functions of [system::driver_t], with the [system_...] functions they call. *)
Definition system_drive (c : call) (st : sys_state) : option (reply * sys_state) :=
  match c with
  | Seekdir _ _ => call_optional "seekdir" (mk_reply 0 0 None) (Driver_call c) st
  | Telldir _ => call_optional "telldir" (mk_reply (-1) 0 (Some ENOTSUP)) (Driver_call c) st
  | _ => call_func (call_name c) (Driver_call (passed c)) st
  end.

(** The [system_...] functions that the virtual file system calls itself; the type of the
    pointer [func_mmap] makes its result an [int]. *)
Definition system_call_fn (c : system_call) (st : sys_state) : option (reply * sys_state) :=
  match call_func (system_name c) (System_call c) st with
  | Some (r, st) =>
      Some (match c with Sys_mmap _ _ _ _ _ _ => mk_reply (swrap 32 (ret r)) (extra r) (err r) | _ => r end, st)
  | None => None
  end.

(** The other [system_...] functions. *)
Definition other_call_fn (c : other_call) (st : sys_state) : option (reply * sys_state) :=
  match c with
  | Oth_getpwnam_r _ _ _ _ _ | Oth_getpwuid_r _ _ _ _ _ =>
      call_optional (other_name c) (mk_reply (-1) 0 (Some ENOENT)) (Other_call c) st
  | _ => call_func (other_name c) (Other_call c) st
  end.
End System.

(** ** The functions that are reached *)

(** The C library: it can be opened, a symbol has one address, and only [fdatasync] and
    the optional symbols may be missing. *)
Class LibcOk {E} (L : Libc E) := {
  sym : string -> Z;
  dlopen_ok : forall path e, (dlopen path e).1 <> 0;
  dlsym_ok : forall pc x e, pc <> 0 -> (dlsym pc (str x) e).1 = sym x;
  required_ok : forall x, x ∈ required -> sym x <> 0;
}.

Section Reached.
Context {E : Type} {L : Libc E} {OkL : LibcOk L}.

(** The address that a name is bound to: without [fdatasync], that of [fsync]. *)
Definition libc_target (x : string) : Z :=
  if bool_decide (x = "fdatasync"%string) && (sym x =? 0) then sym "fsync" else sym x.

Definition known : list string := required ++ "fdatasync"%string :: optional.

(** A module that is initialised has all the addresses. *)
Definition module_ok (m : sysmod) : Prop :=
  init_flag m = true -> forall x, x ∈ known -> pointer m x = libc_target x.

Lemma pointer_set x y p m : pointer (set_func x p m) y = if decide (y = x) then p else pointer m y.
Proof.
  unfold pointer, set_func. cbn. destruct (decide (y = x)) as [->|Hne]; [by rewrite lookup_insert_eq|].
  by rewrite lookup_insert_ne.
Qed.

Lemma load_symbols_spec pc xs m (e : E) :
  pc <> 0 -> Forall (fun x => sym x <> 0) xs ->
  exists m' e', load_symbols pc xs (m, e) = (true, (m', e')) /\
    forall x, pointer m' x = if decide (x ∈ xs) then sym x else pointer m x.
Proof.
  intros Hpc. revert m e. induction xs as [|y xs IH]; intros m e Hxs; [by exists m, e|].
  apply list.Forall_cons in Hxs as [Hy Hxs]. cbn [load_symbols snd fst].
  pose proof (dlsym_ok pc y e Hpc) as Hd. destruct (dlsym pc (str y) e) as [p e1]. cbn in Hd. subst p.
  rewrite (proj2 (Z.eqb_neq _ _)) by done. destruct (IH (set_func y (sym y) m) e1 Hxs) as (m' & e' & -> & Hm).
  exists m', e'. split; [done|]. intros x. rewrite Hm, pointer_set.
  repeat case_decide; subst; set_solver.
Qed.

Lemma load_optional_spec pc xs m (e : E) :
  pc <> 0 -> exists m' e', load_optional pc xs (m, e) = (m', e') /\
    forall x, pointer m' x = if decide (x ∈ xs) then sym x else pointer m x.
Proof.
  intros Hpc. revert m e. induction xs as [|y xs IH]; intros m e; [by exists m, e|]. cbn [load_optional snd fst].
  pose proof (dlsym_ok pc y e Hpc) as Hd. destruct (dlsym pc (str y) e) as [p e1]. cbn in Hd. subst p.
  destruct (IH (set_func y (sym y) m) e1) as (m' & e' & -> & Hm).
  exists m', e'. split; [done|]. intros x. rewrite Hm, pointer_set.
  repeat case_decide; subst; set_solver.
Qed.

Lemma fsync_required : "fsync"%string ∈ required.
Proof. by apply (bool_decide_unpack _). Qed.

Lemma fdatasync_optional : "fdatasync"%string ∉ optional.
Proof. by apply (bool_decide_unpack _). Qed.

Lemma init_impl_spec m (e : E) : exists m' e', init_impl (m, e) = (true, (m', e')) /\
  forall x, x ∈ known -> pointer m' x = libc_target x.
Proof.
  unfold init_impl. cbn [snd fst]. pose proof (dlopen_ok (str "/system/lib/libc.so") e) as Hpc.
  destruct (dlopen _ e) as [pc e1]. cbn in Hpc. rewrite (proj2 (Z.eqb_neq _ _)) by done.
  destruct (load_symbols_spec pc required m e1 Hpc) as (m1 & e2 & -> & H1).
  { apply list.Forall_forall. apply required_ok. }
  cbn [negb snd fst]. pose proof (dlsym_ok pc "fdatasync" e2 Hpc) as Hd.
  destruct (dlsym pc (str "fdatasync") e2) as [p e3]. cbn in Hd. subst p.
  match goal with |- context [load_optional pc optional (?m2, e3)] =>
    destruct (load_optional_spec pc optional m2 e3 Hpc) as (m3 & e4 & -> & H3) end.
  eexists _, _. split; [done|]. intros x Hx. rewrite H3, pointer_set, !H1. unfold libc_target.
  rewrite (decide_True _ _ fsync_required). destruct (decide (x = "fdatasync"%string)) as [->|Hne].
  - by rewrite (decide_False _ _ fdatasync_optional).
  - rewrite bool_decide_eq_false_2 by done. cbn [andb]. apply elem_of_app in Hx. rewrite elem_of_cons in Hx.
    destruct (decide (x ∈ optional)); [done|]. destruct (decide (x ∈ required)); [done|]. tauto.
Qed.

(** Whatever the state of the module, it is initialised after [init]. *)
Lemma init_spec m (e : E) : module_ok m -> exists m' e', init (m, e) = (true, (m', e')) /\ module_ok m' /\
  (forall x, x ∈ known -> pointer m' x = libc_target x) /\ (init_flag m = true -> e' = e).
Proof.
  intros Hm. unfold init. cbn [fst]. destruct (init_flag m) eqn:Ef.
  - exists m, e. split_and!; [done|done|by apply Hm|done].
  - destruct (init_impl_spec m e) as (m' & e' & -> & Hp). eexists _, _. split; [done|].
    split_and!; [by intros _ x Hx; apply Hp|done|done].
Qed.

Definition dir_position (c : call) : bool := match c with Seekdir _ _ | Telldir _ => true | _ => false end.

Lemma call_name_known c : call_name c ∈ known.
Proof. destruct c; apply (bool_decide_unpack _); vm_compute; done. Qed.

Lemma call_target_found c : dir_position c = false -> libc_target (call_name c) <> 0.
Proof.
  intros Hc. unfold libc_target. destruct (decide (call_name c = "fdatasync"%string)) as [->|Hne].
  - rewrite bool_decide_eq_true_2 by done. cbn [andb]. case_bool; [by apply required_ok, fsync_required|done].
  - rewrite bool_decide_eq_false_2 by done. apply required_ok.
    destruct c; try discriminate; try (by destruct Hne); apply (bool_decide_unpack _); vm_compute; done.
Qed.

(** What a function of the driver answers if its symbol is missing. *)
Definition missing_reply (c : call) : reply :=
  match c with Telldir _ => mk_reply (-1) 0 (Some ENOTSUP) | _ => mk_reply 0 0 None end.

(** Whether or not the module has been initialised, each function of the driver of the
    system calls the function of the C library of its name, with its arguments ([fsync] for a
    missing [fdatasync]); only [seekdir] and [telldir] may be missing, and then do nothing and
    fail with [ENOTSUP]; the module is initialised afterwards, once. *)
Theorem system_driver_calls m (e : E) c :
  module_ok m -> exists m' e', module_ok m' /\ (init_flag m = true -> e' = e) /\
    system_drive c (m, e) =
    Some (if libc_target (call_name c) =? 0 then (missing_reply c, (m', e'))
          else let '(r, e'') := invoke (libc_target (call_name c)) (Driver_call (passed c)) e' in (r, (m', e''))) /\
    (dir_position c = false -> libc_target (call_name c) <> 0).
Proof.
  intros Hm. destruct (init_spec m e Hm) as (m' & e' & Hi & Hm' & Hp & He).
  exists m', e'. split_and!; [done|done| |apply call_target_found].
  pose proof (Hp _ (call_name_known c)) as Ht. pose proof (call_target_found c) as Hf.
  destruct c; cbn [system_drive call_name] in *; unfold call_func, call_optional; rewrite Hi; cbn [negb fst snd]; rewrite Ht;
    try rewrite (proj2 (Z.eqb_neq _ _) (Hf eq_refl)); try destruct (_ =? _); try done; by destruct (invoke _ _ _).
Qed.
End Reached.

(** A C library that has everything but [fdatasync] and [telldir]; a function returns its
    address. *)
#[local] Instance demo_libc : Libc nat := {|
  dlopen _ e := (1, S e);
  dlsym _ x e :=
    (if bool_decide (x = str "fdatasync") || bool_decide (x = str "telldir") then 0 else 100 + Z.of_nat (length x), e);
  dlclose _ e := e;
  invoke p _ e := (mk_reply p 0 None, e);
|}.

#[local, refine] Instance demo_libc_ok : LibcOk demo_libc := {|
  sym x := (dlsym 1 (str x) 0%nat).1;
|}.
Proof.
  - done.
  - done.
  - intros x Hx. apply (list.Forall_forall (fun x => (dlsym 1 (str x) 0%nat).1 <> 0) required); [|done].
    apply (bool_decide_unpack _). vm_compute. done.
Defined.

Lemma system_driver_calls_witness :
  (exists m' e', system_drive (Fdatasync 3) (sysmod_start, 0%nat) = Some (mk_reply 105 0 None, (m', e'))) /\
  exists m' e', system_drive (Telldir 3) (sysmod_start, 0%nat) = Some (mk_reply (-1) 0 (Some ENOTSUP), (m', e')).
Proof.
  split.
  - destruct (system_driver_calls sysmod_start 0%nat (Fdatasync 3)) as (m' & e' & _ & _ & H & _); [done|].
    exists m', e'. rewrite H. vm_compute. reflexivity.
  - destruct (system_driver_calls sysmod_start 0%nat (Telldir 3)) as (m' & e' & _ & _ & H & _); [done|].
    exists m', e'. rewrite H. vm_compute. reflexivity.
Defined.
