(* ===== verification/AssetDriver.v ===== *)
(** * The driver of the assets ([sources/crystax/vfs/assets])

    Models [adriver.cpp]: the files of an application package, which Java reads, as a
    file system over another driver.  A file that the underlying driver has hides the
    asset of the same path; an asset is copied to the underlying driver before it is
    written.  The virtual machine, the asset manager and the streams it opens are the
    class [Android]; exceptions are [None] or [false].  The metadata of removed files is
    not modelled: its calls are commented out in the source.  The operations that
    [NOT_IMPLEMENTED] rejects are one case of [asset_call]. *)

From S2P Require Import Prelude Util Paths Vfs SystemDriver.
Open Scope Z_scope.
Open Scope ndk_scope.

(** ** The virtual machine *)

(** [word] is the width of [size_t].  Streams are numbers, and 0 is [null].  The byte
    arrays that Java fills are lists; [store] writes to the memory of the process, and
    the structures [stat] are at addresses too.  [reset_as_int] is the call of the method
    [reset], which has no result, as if it had one. *)
Class Android (E : Type) := {
  word : Z;
  table_entries : nat;
  am_open : option cstr -> E -> option Z * E;
  am_list : option cstr -> E -> option nat * E;
  is_close : Z -> E -> E;
  is_available : Z -> E -> (Z * bool) * E;
  is_mark : Z -> E -> bool * E;
  is_reset : Z -> E -> bool * E;
  is_skip : Z -> Z -> E -> option Z * E;
  is_read : Z -> Z -> E -> option (Z * cstr) * E;
  reset_as_int : Z -> E -> option Z * E;
  new_array : Z -> E -> bool * E;
  new_ref : Z -> E -> bool * E;
  delete_ref : Z -> E -> E;
  store : Z -> cstr -> E -> E;
  store_int : Z -> Z -> E -> E;
  copy_stat : Z -> Z -> E -> E;
  set_mode : Z -> Z -> E -> E;
  set_size : Z -> Z -> E -> E;
  set_owner : Z -> E -> E;
  data_dir : E -> option cstr;
  asset_manager : E -> option E;
  drop_manager : E -> E;
  local_buf : Z;
  local_stat : Z;
  source_stat : Z -> Z;
}.

(** ** The state *)

(** [fd_entry_t] *)
Record fd_entry_t := mk_entry { e_obj : Z; e_pos : Z; e_size : Z; e_extfd : Z; e_path : option cstr }.

Definition free_entry : fd_entry_t := mk_entry 0 0 0 (-1) None.

(** The tables of the drivers, by the address of the driver, the module of the system
    driver, and what is around. *)
Record assets (E : Type) := mk_assets { tables : gmap Z (list fd_entry_t); a_sys : sysmod; env : E }.
Arguments mk_assets {E}.
Arguments tables {E}.
Arguments a_sys {E}.
Arguments env {E}.

(** The state of a function, with [errno]. *)
Record astate (E : Type) := mk_astate { here : assets E; aerrno : Z }.
Arguments mk_astate {E}.
Arguments here {E}.
Arguments aerrno {E}.

Definition EIO : Z := 5.
Definition ENOMEM : Z := 12.
Definition EFAULT : Z := 14.
Definition EEXIST : Z := 17.
Definition O_RDWR : Z := 2.
Definition S_IRWXU : Z := 448.
Definition S_IFREG : Z := 32768.
Definition INT_MAX : Z := 2 ^ 31 - 1.
Definition FIONREAD : Z := 21531.
Definition SEEK_SET : Z := 0.
Definition SEEK_CUR : Z := 1.
Definition SEEK_END : Z := 2.

(** ** Positions *)

(** The comparison of an [loff_t] with a [size_t]: the wider type wins, and of two types
    of 64 bits the unsigned one. *)
Definition above (w offset size : Z) : bool := if w <? 64 then size <? offset else size <? wrap 64 offset.

(** The position after [lseek64], before Java is asked: [pos] and [size] are of the type
    [size_t], and [offset] of the type [loff_t]. *)
Definition seek_pos (w pos size offset whence : Z) : Z :=
  if whence =? SEEK_SET then
    let offset := if offset <? 0 then 0 else offset in
    let offset := if above w offset size then swrap 64 size else offset in
    wrap w offset
  else if whence =? SEEK_CUR then
    let offset := if (w <? 64) && (swrap 64 (pos + offset) <? 0) then swrap 64 (wrap w (- pos)) else offset in
    let offset := if above w (swrap 64 (pos + offset)) size then swrap 64 (wrap w (size - pos)) else offset in
    wrap w (pos + offset)
  else if whence =? SEEK_END then
    let offset := if 0 <? offset then 0 else offset in
    let offset := if above w (swrap 64 (- offset)) size then swrap 64 (wrap w (- size)) else offset in
    wrap w (size + offset)
  else pos.

Section Driver.
Context {E : Type} `{Android E}.

(** The object: its address, its root and the underlying driver, whose functions are
    [under]; and what the caller lets it see. *)
Context (self : Z) (root : option cstr) (und : driver) (cal : caller).
Context (under : caller -> call -> assets E -> option (reply * assets E)).

Abbreviation A := (M (astate E)).

Definition a_errno (e : Z) : A unit := fun s => Ret tt (mk_astate (here s) e).

Definition a_fail (e : Z) : A Z := do* a_errno e in lret (-1).

(** A call of the virtual machine. *)
Definition java {T} (f : E -> T * E) : A T := fun s =>
  let '(x, e) := f (env (here s)) in Ret x (mk_astate (mk_assets (tables (here s)) (a_sys (here s)) e) (aerrno s)).

Definition java_do (f : E -> E) : A unit := java (fun e => (tt, f e)).

(** A call of the underlying driver. *)
Definition ucall (c : call) : A reply := fun s =>
  match under (mk_caller (c_mounts cal) (c_cwd cal) (aerrno s)) c (here s) with
  | Some (r, a) => Ret r (mk_astate a (default (aerrno s) (err r)))
  | None => Crash
  end.

(** A path function whose buffer may overflow. *)
Definition path_fn {T} (x : option T) : A T := lread (fun _ => x).

Definition abs (path : option cstr) : A (option cstr) := path_fn (abspath_t (c_cwd cal) path).

(** A copy of a path by [strdup], which does not accept [NULL]. *)
Definition dup_path (path : option cstr) : A (option cstr) :=
  match path with None => lcrash | Some _ => abs path end.

(** ** The table of descriptors *)

Definition table : A (list fd_entry_t) := lread (fun s => tables (here s) !! self).

Definition put_table (t : list fd_entry_t) : A unit := fun s =>
  Ret tt (mk_astate (mk_assets (<[self := t]> (tables (here s))) (a_sys (here s)) (env (here s))) (aerrno s)).

(** [init_fd] *)
Definition init_entries : list fd_entry_t := replicate table_entries free_entry.

Definition is_free (e : fd_entry_t) : bool := (e_obj e =? 0) && (e_extfd e =? -1).

Fixpoint first_entry (t : list fd_entry_t) : option nat :=
  match t with
  | [] => None
  | e :: t => if is_free e then Some O else S <$> first_entry t
  end.

(** [alloc_fd] for a stream: the entry holds a global reference. *)
Definition alloc_stream (obj size : Z) (path : option cstr) : A Z :=
  if obj =? 0 then lret (-1)
  else
    let* t := table in
    match first_entry t with
    | None => lret (-1)
    | Some fd =>
        let* held := java (new_ref obj) in
        let* p := dup_path path in
        do* put_table (<[fd := mk_entry (if held then obj else 0) 0 size (-1) p]> t) in
        lret (Z.of_nat fd)
    end.

(** [alloc_fd] for a descriptor of the underlying driver. *)
Definition alloc_extfd (extfd : Z) (path : option cstr) : A Z :=
  if extfd <? 0 then lret (-1)
  else
    let* t := table in
    match first_entry t with
    | None => lret (-1)
    | Some fd =>
        let* p := dup_path path in
        do* put_table (<[fd := mk_entry 0 0 0 extfd p]> t) in
        lret (Z.of_nat fd)
    end.

Definition in_table (fd : Z) : bool := (0 <=? fd) && (fd <? Z.of_nat table_entries).

(** [free_fd] *)
Definition free_entry_of (fd : Z) : A unit :=
  if in_table fd then
    let* t := table in
    let* e := lread (fun _ => t !! Z.to_nat fd) in
    do* (if e_obj e =? 0 then lret tt else java_do (delete_ref (e_obj e))) in
    put_table (<[Z.to_nat fd := free_entry]> t)
  else lret tt.

(** [resolve] *)
Definition resolve_entry (fd : Z) : A (option fd_entry_t) :=
  if in_table fd then let* t := table in let* e := lread (fun _ => t !! Z.to_nat fd) in lret (Some e) else lret None.

(** [update] *)
Definition update_pos (fd pos : Z) : A unit :=
  if in_table fd then
    let* t := table in
    let* e := lread (fun _ => t !! Z.to_nat fd) in
    put_table (<[Z.to_nat fd := mk_entry (e_obj e) pos (e_size e) (e_extfd e) (e_path e)]> t)
  else lret tt.

(** [check_subpath] *)
Definition check_subpath (path : option cstr) : A bool :=
  let* sub := path_fn (is_subpath (c_cwd cal) root path) in
  if sub then lret true else do* a_errno EINVAL in lret false.

(** The path of an asset, relative to the root. *)
Definition asset_path (path : option cstr) : A (option cstr) :=
  let* r := path_fn (relpath (c_cwd cal) root path) in path_fn (path_t r).

(** A method of a stream; a call of a null object is undefined. *)
Definition stream_call {T} (obj : Z) (f : Z -> E -> T * E) : A T := if obj =? 0 then lcrash else java (f obj).

Definition stream_close (obj : Z) : A unit := stream_call obj (fun o e => (tt, is_close o e)).

(** ** Files *)

(** [close] *)
Definition a_close (fd : Z) : A Z :=
  let* r := resolve_entry fd in
  match r with
  | None => a_fail EINVAL
  | Some e =>
      do* free_entry_of fd in
      do* (if e_obj e =? 0 then lret tt else stream_close (e_obj e)) in
      do* (if 0 <=? e_extfd e then (do* ucall (Close (e_extfd e)) in lret tt) else lret tt) in
      lret 0
  end.

(** The prefixes of an absolute path that end before a slash, and the path. *)
Fixpoint prefixes (before rest : cstr) : list cstr :=
  match rest with
  | [] => [before]
  | x :: rest => (if bool_decide (x = slash) then [before] else []) ++ prefixes (before ++ [x]) rest
  end.

(** [mkdir_p]: the search for slashes begins after the first character. *)
Fixpoint mkdirs (dirs : list cstr) (mode : Z) : A Z :=
  match dirs with
  | [] => lret 0
  | d :: dirs =>
      let* r := ucall (Mkdir (Some d) mode) in
      let* s := lget in
      if (ret r =? -1) && negb (aerrno s =? EEXIST) then lret (-1) else mkdirs dirs mode
  end.

Definition mkdir_p (path : option cstr) (mode : Z) : A Z :=
  match path with
  | None => a_fail EINVAL
  | Some p =>
      if (PATH_MAX <? length p)%nat then a_fail EINVAL
      else match p with
           | [] => lcrash
           | x :: rest => mkdirs (prefixes [x] rest) mode
           end
  end.

(** The loop that copies a stream to a descriptor.  The bytes of the array are those it
    was created with, since no method fills it. *)
Fixpoint copy_loop (fuel : nat) (obj fd : Z) : A bool :=
  match fuel with
  | O => lcrash
  | S fuel =>
      let* n := stream_call obj reset_as_int in
      match n with
      | None =>
          do* stream_close obj in
          do* ucall (Close fd) in
          do* a_errno EFAULT in lret false
      | Some n =>
          if n <? 0 then lret true
          else if 4096 <? n then lcrash
          else
            do* java_do (store local_buf (replicate (Z.to_nat n) (cz 0))) in
            let* r := ucall (Write fd local_buf n) in
            if ret r <? 0 then
              let* s := lget in
              do* stream_close obj in
              do* ucall (Close fd) in
              do* a_errno (aerrno s) in lret false
            else copy_loop fuel obj fd
      end
  end.

(** [copy_from_assets]; [fuel] bounds the rounds of the loop. *)
Definition copy_from_assets (fuel : nat) (path rpath : option cstr) : A bool :=
  let* d := path_fn (dirname path) in
  let* dir := abs d in
  let* r := mkdir_p dir S_IRWXU in
  if negb (r =? 0) then lret false
  else
    let* o := java (am_open rpath) in
    match o with
    | None => do* a_errno ENOENT in lret false
    | Some obj =>
        let* f := ucall (Open path (Z.lor O_WRONLY O_CREAT) (Z.lor S_IRUSR S_IWUSR)) in
        if ret f =? -1 then do* stream_close obj in lret false
        else
          let* array := java (new_array 4096) in
          if negb array then lcrash
          else
          let* ok := copy_loop fuel obj (ret f) in
          if ok then
            do* stream_close obj in
            do* ucall (Close (ret f)) in lret true
          else lret false
    end.

(** [stat_ul] *)
Definition stat_ul (path : option cstr) (st : Z) : A reply := ucall (Stat path st).

(** [stat_as]: the mode, or -1.  The value of a method that throws is 0. *)
Definition stat_as (rpath : option cstr) (st : Z) : A reply :=
  let* o := java (am_open rpath) in
  let obj := default 0 o in
  if negb (obj =? 0) then
      let* skipped := stream_call obj (fun o => is_skip o INT_MAX) in
      do* stream_close obj in
      do* java_do (copy_stat (source_stat self) st) in
      do* java_do (set_mode st (Z.lor S_IFREG S_IRWXU)) in
      do* java_do (set_size st (wrap word (default 0 skipped))) in
      lret (mk_reply 0 (Z.lor S_IFREG S_IRWXU) None)
  else
      let* l := java (am_list rpath) in
      match l with
      | Some (S _) =>
          do* java_do (copy_stat (source_stat self) st) in
          do* java_do (set_mode st (Z.lor S_IFDIR S_IRWXU)) in
          lret (mk_reply 0 (Z.lor S_IFDIR S_IRWXU) None)
      | _ => do* a_errno ENOENT in lret (mk_reply (-1) 0 None)
      end.

(** [stat] *)
Definition a_stat (path : option cstr) (st : Z) : A reply :=
  let* p := abs path in
  let* ok := check_subpath p in
  if negb ok then lret (mk_reply (-1) 0 None)
  else
    let* rpath := asset_path p in
    let* r := stat_ul p st in
    if ret r =? 0 then lret r else stat_as rpath st.

(** [fstat]; the path of a free entry is [NULL]. *)
Definition a_fstat (fd st : Z) : A reply :=
  let* r := resolve_entry fd in
  match r with
  | None => do* a_errno EINVAL in lret (mk_reply (-1) 0 None)
  | Some e =>
      let* p := dup_path (e_path e) in a_stat p st
  end.

(** The part of [open] for a file of the underlying driver. *)
Definition open_under (path abspath : option cstr) (oflag arg : Z) : A Z :=
  let* r := ucall (Open path oflag arg) in
  let* fd := alloc_extfd (ret r) abspath in
  if fd <? 0 then
    do* ucall (Close (ret r)) in a_fail EMFILE
  else lret fd.

(** The part of [open] for an asset.  The size is what [skip] skips. *)
Definition open_asset (abspath rpath : option cstr) : A Z :=
  let* o := java (am_open rpath) in
  match o with
  | None => a_fail ENOENT
  | Some obj =>
      let* marked := stream_call obj is_mark in
      if negb marked then a_fail EFAULT
      else
        let* size := stream_call obj (fun o => is_skip o INT_MAX) in
        match size with
        | None => a_fail EFAULT
        | Some size =>
            let* reset := stream_call obj is_reset in
            if negb reset then a_fail EFAULT
            else
              let* fd := alloc_stream obj (wrap word size) abspath in
              if fd <? 0 then
                do* stream_close obj in a_fail EMFILE
              else lret fd
        end
  end.

(** [open] *)
Definition a_open (fuel : nat) (path : option cstr) (oflag arg : Z) : A Z :=
  let* p := abs path in
  let* ok := check_subpath p in
  if negb ok then lret (-1)
  else
    let* rpath := asset_path p in
    if negb (Z.land oflag (Z.lor O_WRONLY O_RDWR) =? 0) then
      let* copied := copy_from_assets fuel p rpath in
      let* s := lget in
      if negb copied && negb (aerrno s =? ENOENT) then lret (-1) else open_under path p oflag arg
    else
      let* r := stat_ul p local_stat in
      if ret r =? 0 then open_under path p oflag arg else open_asset p rpath.

(** [read]; the length of an array is an [int]. *)
Definition a_read (fd buf count : Z) : A Z :=
  if count =? 0 then lret 0
  else
    let* r := resolve_entry fd in
    match r with
    | None => a_fail EINVAL
    | Some e =>
        if negb (e_extfd e =? -1) then let* r := ucall (Read (e_extfd e) buf count) in lret (ret r)
        else
          let* ok := java (new_array (swrap 32 count)) in
          if negb ok then a_fail ENOMEM
          else
            let* n := stream_call (e_obj e) (fun o => is_read o (swrap 32 count)) in
            match n with
            | None => a_fail EFAULT
            | Some (n, bytes) =>
                if n <? 0 then lret 0
                else if count <? n then a_fail EFAULT
                else
                  do* update_pos fd (wrap word (e_pos e + n)) in
                  do* java_do (store buf (take (Z.to_nat n) bytes)) in
                  lret n
            end
    end.

(** [lseek64] *)
Definition a_lseek64 (fd offset whence : Z) : A Z :=
  let* r := resolve_entry fd in
  match r with
  | None => a_fail EINVAL
  | Some e =>
      if negb (e_extfd e =? -1) then let* r := ucall (Lseek64 (e_extfd e) offset whence) in lret (ret r)
      else
        let pos := seek_pos word (e_pos e) (e_size e) offset whence in
        let* ok := stream_call (e_obj e) is_reset in
        if negb ok then a_fail EFAULT
        else
          let* skipped := stream_call (e_obj e) (fun o => is_skip o (swrap 64 pos)) in
          match skipped with
          | None => a_fail EFAULT
          | Some _ => do* update_pos fd pos in lret (swrap 64 pos)
          end
  end.

(** [lseek]; [off_t] has the width of a word. *)
Definition a_lseek (fd offset whence : Z) : A Z := let* r := a_lseek64 fd offset whence in lret (swrap word r).

(** [ioctl]; [arg] is the address of the result. *)
Definition a_ioctl (fd request arg : Z) : A Z :=
  let* r := resolve_entry fd in
  match r with
  | None => a_fail EINVAL
  | Some e =>
      if negb (e_extfd e =? -1) then let* r := ucall (Ioctl (e_extfd e) request arg) in lret (ret r)
      else if request =? FIONREAD then
        if arg =? 0 then a_fail EINVAL
        else
          let* n := stream_call (e_obj e) is_available in
          do* java_do (store_int arg n.1) in
          if n.2 then lret 0 else a_fail EFAULT
      else a_fail EIO
  end.

(** [write] *)
Definition a_write (fd buf count : Z) : A Z :=
  let* r := resolve_entry fd in
  match r with
  | None => a_fail EINVAL
  | Some e => let* r := ucall (Write (e_extfd e) buf count) in lret (ret r)
  end.

(** The driver of a path, as [find_driver] finds it; the inner [None] is [NULL]. *)
Definition driver_of (path : option cstr) : A (option driver) :=
  match path with
  | None | Some [] => lret None
  | Some _ =>
      match mount_table (c_mounts cal) with
      | [] => lret (Some System)
      | ids =>
          let* p := abs path in
          match p with
          | None => lcrash
          | Some p => let* d := path_fn (find_prefix (c_mounts cal) (rev ids) p) in lret (Some d)
          end
      end
  end.

(** [rename] *)
Definition a_rename (oldpath newpath : option cstr) : A Z :=
  let* d := driver_of oldpath in
  match d with
  | None => lret (-1)
  | Some d =>
      if negb (bool_decide (d = und)) then a_fail EXDEV
      else
        let* r := ucall (Rename oldpath newpath) in
        if ret r <? 0 then lret (-1) else lret 0
  end.

(** [unlink] does not look at the result. *)
Definition a_unlink (path : option cstr) : A Z := do* ucall (Unlink path) in lret 0.

(** ** The object *)

Definition value (c : A Z) : A reply := let* r := c in lret (mk_reply r 0 None).

(** The virtual functions.  The last case is [NOT_IMPLEMENTED], whose value is -1, or
    [NULL] for [fdopendir], or nothing. *)
Definition asset_call (fuel : nat) (c : call) : A reply :=
  match c with
  | Close fd => value (a_close fd)
  | Fstat fd st => a_fstat fd st
  | Ioctl fd request arg => value (a_ioctl fd request arg)
  | Lseek fd offset whence => value (a_lseek fd offset whence)
  | Lseek64 fd offset whence => value (a_lseek64 fd offset whence)
  | Open path oflag arg => value (a_open fuel path oflag arg)
  | Read fd buf count => value (a_read fd buf count)
  | Rename oldpath newpath => value (a_rename oldpath newpath)
  | Stat path st => a_stat path st
  | Unlink path => value (a_unlink path)
  | Write fd buf count => value (a_write fd buf count)
  | Closedir _ | Mkdir _ _ | Opendir _ | Readdir _ | Readdir_r _ _ _ | Remove _ | Rmdir _ => ucall c
  | Fdopendir _ | Rewinddir _ | Seekdir _ _ => do* a_errno EIO in lret (mk_reply 0 0 None)
  | _ => value (a_fail EIO)
  end.

(** [fill_stat]: the source of the structures is the directory of the libraries. *)
Definition fill_stat : A unit :=
  let* s := lget in
  match data_dir (env (here s)) with
  | None => lcrash
  | Some dir =>
      let* d := abs (Some dir) in
      match d with
      | None => lcrash
      | Some d =>
          let* libdir := abs (Some (d ++ str "/lib")) in
          let* r := ucall (Stat libdir (source_stat self)) in
          if ret r <? 0 then lcrash
          else
            do* java_do (set_mode (source_stat self) (Z.lor S_IFREG S_IRWXU)) in
            java_do (set_owner (source_stat self))
      end
  end.

(** The constructor, with [init_jni]. *)
Definition asset_new : A unit :=
  do* put_table init_entries in
  do* fill_stat in
  fun s => match asset_manager (env (here s)) with
           | Some e => Ret tt (mk_astate (mk_assets (tables (here s)) (a_sys (here s)) e) (aerrno s))
           | None => Crash
           end.

(** The destructor. *)
Definition asset_delete (a : assets E) : assets E :=
  mk_assets (delete self (tables a)) (a_sys a) (drop_manager (env a)).

(** A function of the object as the virtual file system calls it. *)
Definition asset_drive (fuel : nat) (c : call) (a : assets E) : option (reply * assets E) :=
  match asset_call fuel c (mk_astate a (c_errno cal)) with
  | Ret r s => Some (mk_reply (ret r) (extra r) (Some (aerrno s)), here s)
  | _ => None
  end.
End Driver.
