(* ===== verification/AssetJava.v ===== *)
(** * Java's side of the assets

    The documented behaviour of the asset manager and of its streams, as laws of the class
    [Android] of [AssetDriver], and a virtual machine that has it, for the examples. *)

From S2P Require Import Prelude Util Paths Vfs VfsSessions SystemDriver AssetDriver.
Open Scope Z_scope.
Open Scope ndk_scope.

(** ** The documented behaviour of Java *)

(** An open stream: its bytes, its position and its mark. *)
Record jstream := mk_jstream { js_data : cstr; js_pos : Z; js_mark : option Z }.

Definition len (d : cstr) : Z := Z.of_nat (length d).

Definition slice (d : cstr) (pos n : Z) : cstr := take (Z.to_nat n) (drop (Z.to_nat pos) d).

(** [asset] gives the assets of the package, [streams] the open streams and [memory] the
    bytes at an address.  A stream of an asset skips as much as there is; it may read less
    than it is asked for, but not nothing before its end.  Arrays up to [heap_limit] can be allocated. *)
Class JavaOk {E} (A0 : Android E) := {
  asset : cstr -> option cstr;
  streams : E -> gmap Z jstream;
  memory : E -> Z -> nat -> cstr;
  heap_limit : Z;
  word_ok : word = 32 \/ word = 64;
  heap_ok : heap_limit <= INT_MAX;
  asset_size : forall n d, asset n = Some d -> len d <= INT_MAX;
  open_found : forall n d e, asset n = Some d -> exists o e', am_open (Some n) e = (Some o, e') /\ o <> 0 /\
    streams e !! o = None /\ streams e' = <[o := mk_jstream d 0 None]> (streams e);
  open_missing : forall n e, asset n = None -> exists e', am_open (Some n) e = (None, e') /\ streams e' = streams e;
  mark_ok : forall o e d p m, streams e !! o = Some (mk_jstream d p m) ->
    exists e', is_mark o e = (true, e') /\ streams e' = <[o := mk_jstream d p (Some p)]> (streams e);
  reset_ok : forall o e d p m, streams e !! o = Some (mk_jstream d p (Some m)) ->
    exists e', is_reset o e = (true, e') /\ streams e' = <[o := mk_jstream d m (Some m)]> (streams e);
  skip_ok : forall o e d p m n, streams e !! o = Some (mk_jstream d p m) -> 0 <= n ->
    exists e', is_skip o n e = (Some (Z.min n (len d - p)), e') /\
      streams e' = <[o := mk_jstream d (p + Z.min n (len d - p)) m]> (streams e);
  read_end : forall o e d m n, streams e !! o = Some (mk_jstream d (len d) m) -> 0 < n ->
    exists bs e', is_read o n e = (Some (-1, bs), e') /\ streams e' = streams e;
  read_ok : forall o e d p m n, streams e !! o = Some (mk_jstream d p m) -> 0 <= p < len d -> 0 < n ->
    exists k bs e', is_read o n e = (Some (k, bs), e') /\ 0 < k <= Z.min n (len d - p) /\
      take (Z.to_nat k) bs = slice d p k /\ streams e' = <[o := mk_jstream d (p + k) m]> (streams e);
  close_ok : forall o e, streams (is_close o e) = delete o (streams e);
  new_array_ok : forall n e, 0 <= n <= heap_limit -> exists e', new_array n e = (true, e') /\ streams e' = streams e;
  new_ref_ok : forall o e, o <> 0 -> exists e', new_ref o e = (true, e') /\ streams e' = streams e;
  delete_ref_ok : forall o e, streams (delete_ref o e) = streams e;
  store_ok : forall a bs e, streams (store a bs e) = streams e /\ memory (store a bs e) a (length bs) = bs;
  memory_none : forall e a, memory e a 0 = [];
}.

(** ** A virtual machine for the examples *)

(** The streams, and the memory as the last block that was stored at an address. *)
Record machine_state := mk_machine { m_streams : gmap Z jstream; m_memory : gmap Z cstr }.

Definition demo_asset (n : cstr) : option cstr :=
  if bool_decide (n = str "a.txt") then Some (str "Hello, world") else None.

Definition on_stream {T} (o : Z) (f : jstream -> T * jstream) (none : T) (e : machine_state) : T * machine_state :=
  match m_streams e !! o with
  | Some s => let '(x, s) := f s in (x, mk_machine (<[o := s]> (m_streams e)) (m_memory e))
  | None => (none, e)
  end.

Definition skip_stream (n : Z) (s : jstream) : option Z * jstream :=
  let k := Z.min n (len (js_data s) - js_pos s) in (Some k, mk_jstream (js_data s) (js_pos s + k) (js_mark s)).

Definition read_stream (n : Z) (s : jstream) : option (Z * cstr) * jstream :=
  let k := Z.min n (len (js_data s) - js_pos s) in
  if k <=? 0 then (Some (-1, []), s)
  else (Some (k, slice (js_data s) (js_pos s) k), mk_jstream (js_data s) (js_pos s + k) (js_mark s)).

#[export] Instance demo_android : Android machine_state := {|
  word := 32;
  table_entries := 4;
  am_open n e :=
    match n ≫= demo_asset with
    | Some d => let o := next_key (m_streams e) in
                (Some o, mk_machine (<[o := mk_jstream d 0 None]> (m_streams e)) (m_memory e))
    | None => (None, e)
    end;
  am_list _ e := (None, e);
  is_close o e := mk_machine (delete o (m_streams e)) (m_memory e);
  is_available o e := on_stream o (fun s => ((len (js_data s) - js_pos s, true), s)) (0, false) e;
  is_mark o e := on_stream o (fun s => (true, mk_jstream (js_data s) (js_pos s) (Some (js_pos s)))) false e;
  is_reset o e :=
    on_stream o (fun s => match js_mark s with
                          | Some m => (true, mk_jstream (js_data s) m (Some m))
                          | None => (false, s)
                          end) false e;
  is_skip o n e := on_stream o (skip_stream n) None e;
  is_read o n e := on_stream o (read_stream n) None e;
  reset_as_int o e := (Some 0, e);
  new_array _ e := (true, e);
  new_ref _ e := (true, e);
  delete_ref _ e := e;
  store a bs e := mk_machine (m_streams e) (<[a := bs]> (m_memory e));
  store_int _ _ e := e;
  copy_stat _ _ e := e;
  set_mode _ _ e := e;
  set_size _ _ e := e;
  set_owner _ e := e;
  data_dir _ := Some (str "/data/data/app");
  asset_manager e := Some e;
  drop_manager e := e;
  local_buf := 100;
  local_stat := 200;
  source_stat i := 300 + i;
|}.

Lemma on_stream_some {T} o (f : jstream -> T * jstream) none e s x s' :
  m_streams e !! o = Some s -> f s = (x, s') ->
  on_stream o f none e = (x, mk_machine (<[o := s']> (m_streams e)) (m_memory e)).
Proof. intros Hs Hf. unfold on_stream. by rewrite Hs, Hf. Qed.

#[export, refine] Instance demo_java_ok : JavaOk demo_android := {|
  asset := demo_asset;
  streams := m_streams;
  memory e a n := take n (default [] (m_memory e !! a));
  heap_limit := 1024;
|}.
Proof.
  all: cbn.
  - by left.
  - done.
  - intros n d. unfold demo_asset. case_bool_decide; [|done]. by intros [= <-].
  - intros n d e ->. eexists _, _. split; [done|]. split; [pose proof (next_key_positive (m_streams e)); lia|].
    split; [apply next_key_fresh|done].
  - intros n e ->. by exists e.
  - intros o e d p m Hs. eexists. by erewrite on_stream_some.
  - intros o e d p m Hs. eexists. by erewrite on_stream_some.
  - intros o e d p m n Hs _. eexists. by erewrite on_stream_some.
  - intros o e d m n Hs Hn. eexists _, _. erewrite on_stream_some; [|done|].
    2:{ unfold read_stream. cbn. by rewrite (proj2 (Z.leb_le _ 0)) by lia. }
    split; [done|]. cbn. by rewrite insert_id.
  - intros o e d p m n Hs Hp Hn. eexists _, _, _. erewrite on_stream_some; [|done|].
    2:{ unfold read_stream. cbn. by rewrite (proj2 (Z.leb_gt _ 0)) by lia. }
    split; [done|]. split; [lia|]. split; [|done]. unfold slice. by rewrite take_take, Nat.min_id.
  - done.
  - intros n e _. by exists e.
  - intros o e _. by exists e.
  - done.
  - intros a bs e. rewrite lookup_insert_eq. split; [done|]. cbn. by rewrite take_ge.
  - done.
Defined.
