(* ===== verification/AssetSessions.v ===== *)
(** * Sessions on the assets

    An abstract file of assets (its bytes and a position), the proof that the driver of
    [AssetDriver] implements it over the documented behaviour of Java's streams
    ([AssetJava]), and what its arithmetic on positions does for both widths of
    [size_t]. *)

From S2P Require Import Prelude Util Paths Vfs SystemDriver AssetDriver AssetJava.
Open Scope Z_scope.
Open Scope ndk_scope.

(** ** Positions *)

Definition clamp (lo hi x : Z) : Z := Z.max lo (Z.min hi x).

(** The position that [lseek] asks for. *)
Definition seek_target (pos size offset whence : Z) : Z :=
  if whence =? SEEK_SET then offset
  else if whence =? SEEK_CUR then pos + offset
  else if whence =? SEEK_END then size + offset
  else pos.

Definition seek_range (w pos size offset : Z) : Prop :=
  (w = 32 \/ w = 64) /\ 0 <= pos <= size /\ size <= INT_MAX /\ - 2 ^ 63 < offset < 2 ^ 63 - 2 ^ 31.

Lemma wrap_range w x : w = 32 \/ w = 64 -> 0 <= x < 2 ^ 32 -> wrap w x = x.
Proof. intros [-> | ->] Hx; apply wrap_small; unfold fits; lia. Qed.

Lemma wrap_negative w x : w = 32 \/ w = 64 -> - 2 ^ 32 < x < 0 -> wrap w x = x + 2 ^ w.
Proof. intros [-> | ->] Hx; symmetry; apply (Z.mod_unique _ _ (-1)); lia. Qed.

Lemma swrap_offset x : - 2 ^ 63 <= x < 2 ^ 63 -> swrap 64 x = x.
Proof. intros Hx. apply swrap_id; lia. Qed.

(** The test against the size, for a number that is not negative. *)
Lemma above_spec w x size : w = 32 \/ w = 64 -> 0 <= x < 2 ^ 63 -> above w x size = (size <? x).
Proof. intros [-> | ->] Hx; unfold above; cbn; [done|]. rewrite wrap_small; [done|unfold fits; lia]. Qed.

(** A position that is reached by going on from another one. *)
Lemma wrap_move w x y : w = 32 \/ w = 64 -> 0 <= x + y < 2 ^ 32 -> wrap w (x + swrap 64 (wrap w y)) = x + y.
Proof.
  intros Hw Hxy. rewrite <-(wrap_range w (x + y)) by done. destruct Hw as [-> | ->]; unfold swrap, wrap.
  - rewrite (Z.mod_small (y mod _) (2 ^ 64)) by (pose proof (Z.mod_pos_bound y (2 ^ 32)); lia).
    case_bool; [|pose proof (Z.mod_pos_bound y (2 ^ 32)); lia]. apply Zplus_mod_idemp_r.
  - rewrite Zmod_mod. case_bool; [apply Zplus_mod_idemp_r|].
    rewrite <-(Z_mod_plus_full (x + (y mod 2 ^ 64 - 2 ^ 64)) 1).
    replace (x + (y mod 2 ^ 64 - 2 ^ 64) + 1 * 2 ^ 64) with (x + y mod 2 ^ 64) by lia. apply Zplus_mod_idemp_r.
Qed.

(** For an offset that does not overflow, [lseek64] moves an asset to the position that
    is asked for, brought into the file, whatever the width of [size_t]; the exception
    is a relative seek to before the start. *)
Lemma seek_clamps w pos size offset whence :
  seek_range w pos size offset -> (whence = SEEK_CUR -> 0 <= pos + offset) ->
  seek_pos w pos size offset whence = clamp 0 size (seek_target pos size offset whence).
Proof.
  intros (Hw & Hp & Hs & Ho) Hcur. unfold INT_MAX in Hs.
  unfold seek_pos, seek_target, clamp, SEEK_SET, SEEK_CUR, SEEK_END in *; cbv zeta.
  destruct (whence =? 0) eqn:E0; [|destruct (whence =? 1) eqn:E1; [|destruct (whence =? 2) eqn:E2; [|lia]]]; bool_to_prop.
  - rewrite (swrap_offset size) by lia. destruct (offset <? 0) eqn:E; bool_to_prop; rewrite above_spec by lia; case_bool; rewrite wrap_range; lia.
  - specialize (Hcur E1). rewrite (swrap_offset (pos + offset)) by lia.
    rewrite (proj2 (Z.ltb_ge (pos + offset) 0)), andb_false_r by lia.
    rewrite swrap_offset, above_spec by lia. case_bool.
    + rewrite wrap_move; lia.
    + rewrite wrap_range; lia.
  - destruct (0 <? offset) eqn:E; bool_to_prop.
    + rewrite above_spec by (rewrite ?swrap_offset; lia). rewrite swrap_offset by lia. case_bool; [lia|].
      rewrite wrap_range; lia.
    + rewrite swrap_offset, above_spec by lia. case_bool.
      * rewrite wrap_move; lia.
      * rewrite wrap_range; lia.
Qed.

(** C30: a relative seek to before the start moves an asset to its end, unless the asset
    is at its start and [size_t] has 32 bits. *)
Theorem seek_before_start w pos size offset :
  seek_range w pos size offset -> pos + offset < 0 ->
  seek_pos w pos size offset SEEK_CUR = (if (w =? 32) && (pos =? 0) then 0 else size).
Proof.
  intros (Hw & Hp & Hs & Ho) Hneg. unfold INT_MAX in Hs. unfold seek_pos; cbv zeta. cbn [SEEK_SET SEEK_CUR Z.eqb Pos.eqb].
  rewrite (swrap_offset (pos + offset)) by lia. rewrite (proj2 (Z.ltb_lt (pos + offset) 0)) by lia.
  destruct Hw as [-> | ->]; cbn [Z.ltb Z.compare Pos.compare Pos.compare_cont andb Z.eqb Pos.eqb].
  - destruct (Z.eqb_spec pos 0) as [->|].
    + change (swrap 64 (wrap 32 (- 0))) with 0. change (swrap 64 (0 + 0)) with 0. rewrite above_spec by lia.
      by rewrite (proj2 (Z.ltb_ge size 0)) by lia.
    + rewrite (wrap_negative 32 (- pos)), (swrap_offset (- pos + 2 ^ 32)) by lia.
      rewrite swrap_offset, above_spec by lia. rewrite (proj2 (Z.ltb_lt _ _)) by lia. rewrite wrap_move; lia.
  - rewrite swrap_offset by lia. unfold above; cbn [Z.ltb Z.compare Pos.compare Pos.compare_cont].
    replace (wrap 64 (pos + offset)) with (pos + offset + 2 ^ 64) by (apply (Z.mod_unique _ _ (-1)); lia).
    rewrite (proj2 (Z.ltb_lt _ _)) by lia. rewrite wrap_move; lia.
Qed.

Lemma seek_before_start_witness :
  seek_pos 32 5 12 (-6) SEEK_CUR = 12 /\ seek_pos 64 0 12 (-1) SEEK_CUR = 12.
Proof.
  split.
  - apply (seek_before_start 32 5 12 (-6)); unfold seek_range, INT_MAX; lia.
  - apply (seek_before_start 64 0 12 (-1)); unfold seek_range, INT_MAX; lia.
Defined.

(** ** Files *)

(** The abstract state: the bytes and the position of each open asset. *)
Abbreviation handles := (gmap nat (cstr * Z)).

(** A table and the streams that implement it; [others] are the descriptors of files of
    the underlying driver. *)
Record related (n : nat) (others : gset nat) (t : list fd_entry_t) (ss : gmap Z jstream) (H : handles) : Prop := {
  rel_length : length t = n;
  rel_handle : forall fd d p, H !! fd = Some (d, p) -> exists o path,
    t !! fd = Some (mk_entry o p (len d) (-1) path) /\ o <> 0 /\ ss !! o = Some (mk_jstream d p (Some 0)) /\
    0 <= p <= len d /\ len d <= INT_MAX;
  rel_entry : forall fd e, t !! fd = Some e -> e_obj e <> 0 -> is_Some (H !! fd);
  rel_distinct : forall fd fd' e e', t !! fd = Some e -> t !! fd' = Some e' -> e_obj e = e_obj e' -> e_obj e <> 0 -> fd = fd';
  rel_streams : forall o, is_Some (ss !! o) -> o <> 0 /\ exists fd e, t !! fd = Some e /\ e_obj e = o;
  rel_others : forall fd e, t !! fd = Some e -> e_extfd e <> -1 <-> fd ∈ others;
}.

Lemma first_entry_some t fd : first_entry t = Some fd -> exists e, t !! fd = Some e /\ e_obj e = 0 /\ e_extfd e = -1.
Proof.
  revert fd. induction t as [|e t IH]; intros fd; [done|]. cbn. unfold is_free. case_bool.
  - intros [= <-]. by exists e.
  - destruct (first_entry t); [|done]. intros [= <-]. by apply IH.
Qed.

Lemma first_entry_lowest t fd fd' e :
  first_entry t = Some fd -> (fd' < fd)%nat -> t !! fd' = Some e -> e_obj e <> 0 \/ e_extfd e <> -1.
Proof.
  revert fd fd'. induction t as [|e' t IH]; intros fd fd'; [done|]. cbn. unfold is_free. case_bool; [intros [= <-]; lia|].
  destruct (first_entry t); [|done]. intros [= <-] Hlt. destruct fd' as [|fd']; [|apply (IH n fd' eq_refl); lia].
  intros [= <-]. destruct E as [E|E]; bool_to_prop; [by left|by right].
Qed.

Lemma first_entry_none t fd e : first_entry t = None -> t !! fd = Some e -> e_obj e <> 0 \/ e_extfd e <> -1.
Proof.
  revert fd. induction t as [|e' t IH]; intros fd; [done|]. cbn. unfold is_free. case_bool; [done|].
  destruct (first_entry t); [done|]. intros _. destruct fd as [|fd]; [|by apply IH].
  intros [= <-]. destruct E as [E|E]; bool_to_prop; [by left|by right].
Qed.

Section Related.
Context (n : nat) (others : gset nat) (t : list fd_entry_t) (ss : gmap Z jstream) (H : handles).
Context (R : related n others t ss H).

Lemma related_held fd e : t !! fd = Some e -> e_obj e <> 0 ->
  exists d p path, e = mk_entry (e_obj e) p (len d) (-1) path /\ H !! fd = Some (d, p) /\
    ss !! e_obj e = Some (mk_jstream d p (Some 0)).
Proof.
  intros Ht Ho. destruct (rel_entry _ _ _ _ _ R _ _ Ht Ho) as [[d p] Hh].
  destruct (rel_handle _ _ _ _ _ R _ _ _ Hh) as (o & path & Ht' & _ & Hs & _). rewrite Ht in Ht'. simplify_eq.
  by exists d, p, path.
Qed.

(** An entry is replaced by one of the same driver, and its stream, if it has one, by
    another state of a stream that no other entry has. *)
Lemma related_put fd e0 o d q path :
  t !! fd = Some e0 -> e_extfd e0 = -1 -> o <> 0 -> (forall fd' e, t !! fd' = Some e -> e_obj e = o -> fd' = fd) ->
  e_obj e0 = 0 \/ e_obj e0 = o -> 0 <= q <= len d -> len d <= INT_MAX ->
  related n others (<[fd := mk_entry o q (len d) (-1) path]> t) (<[o := mk_jstream d q (Some 0)]> ss) (<[fd := (d, q)]> H).
Proof.
  intros Ht Hx Ho Honly He0 Hq Hd. assert (Hlt : (fd < length t)%nat) by (by eapply lookup_lt_Some).
  constructor.
  - rewrite length_insert. apply (rel_length _ _ _ _ _ R).
  - intros fd' d' p' [(<- & [= <- <-])|(Hne & Hh)]%lookup_insert_Some.
    { exists o, path. by rewrite list_lookup_insert_eq, lookup_insert_eq. }
    destruct (rel_handle _ _ _ _ _ R _ _ _ Hh) as (o' & path' & Ht' & Ho' & Hs & Hb).
    exists o', path'. rewrite list_lookup_insert_ne, lookup_insert_ne; [done| |done].
    intros <-. by apply Hne, eq_sym, (Honly _ _ Ht').
  - intros fd' e [(<- & <- & _)|(Hne & Ht')]%list_lookup_insert_Some Hobj; [by rewrite lookup_insert_eq|].
    rewrite lookup_insert_ne by done. by apply (rel_entry _ _ _ _ _ R _ e).
  - intros fd1 fd2 e1 e2 [(<- & <- & _)|(Hne1 & Ht1)]%list_lookup_insert_Some
      [(<- & <- & _)|(Hne2 & Ht2)]%list_lookup_insert_Some Heq Hobj; [done|..].
    + exfalso. by apply Hne2, eq_sym, (Honly _ _ Ht2).
    + exfalso. by apply Hne1, eq_sym, (Honly _ _ Ht1).
    + by apply (rel_distinct _ _ _ _ _ R _ _ _ _ Ht1 Ht2).
  - intros o' [x [(<- & _)|(Hne & Hs)]%lookup_insert_Some].
    { split; [done|]. eexists fd, _. by rewrite list_lookup_insert_eq. }
    destruct (rel_streams _ _ _ _ _ R o' ltac:(by exists x)) as (Ho' & fd' & e & Ht' & He).
    split; [done|]. exists fd', e. rewrite list_lookup_insert_ne; [done|]. intros <-. rewrite Ht in Ht'. simplify_eq.
    by destruct He0.
  - intros fd' e [(<- & <- & _)|(Hne & Ht')]%list_lookup_insert_Some; [|by apply (rel_others _ _ _ _ _ R)].
    cbn [e_extfd]. rewrite <-(rel_others _ _ _ _ _ R _ _ Ht). lia.
Qed.

Lemma related_open fd o d path :
  first_entry t = Some fd -> ss !! o = None -> o <> 0 -> len d <= INT_MAX ->
  related n others (<[fd := mk_entry o 0 (len d) (-1) path]> t) (<[o := mk_jstream d 0 (Some 0)]> ss) (<[fd := (d, 0)]> H).
Proof.
  intros (e & Ht & He & Hx)%first_entry_some Hs Ho Hd. eapply (related_put _ e); try done; [|by left|unfold len; lia].
  intros fd' e' Ht' <-. destruct (related_held _ _ Ht' Ho) as (? & ? & ? & _ & _ & Hs'). by rewrite Hs in Hs'.
Qed.

Lemma related_move fd o d p path q :
  t !! fd = Some (mk_entry o p (len d) (-1) path) -> H !! fd = Some (d, p) -> 0 <= q <= len d ->
  related n others (<[fd := mk_entry o q (len d) (-1) path]> t) (<[o := mk_jstream d q (Some 0)]> ss) (<[fd := (d, q)]> H).
Proof.
  intros Ht Hh Hq. destruct (rel_handle _ _ _ _ _ R _ _ _ Hh) as (o' & path' & Ht' & Ho & _ & _ & Hd).
  rewrite Ht in Ht'. simplify_eq. eapply (related_put _ _); try done; [|by right].
  intros fd' e' Ht' He. by apply (rel_distinct _ _ _ _ _ R _ _ _ _ Ht' Ht); rewrite He.
Qed.

Lemma related_close fd o d p path :
  t !! fd = Some (mk_entry o p (len d) (-1) path) -> H !! fd = Some (d, p) ->
  related n others (<[fd := free_entry]> t) (delete o ss) (delete fd H).
Proof.
  intros Ht Hh. assert (Hlt : (fd < length t)%nat) by (by eapply lookup_lt_Some).
  destruct (rel_handle _ _ _ _ _ R _ _ _ Hh) as (o' & path' & Ht' & Ho & _). rewrite Ht in Ht'. simplify_eq. constructor.
  - rewrite length_insert. apply (rel_length _ _ _ _ _ R).
  - intros fd' d' p' [Hne Hh']%lookup_delete_Some.
    destruct (rel_handle _ _ _ _ _ R _ _ _ Hh') as (o & path & Ht' & Ho' & Hs & Hb).
    exists o, path. rewrite list_lookup_insert_ne, lookup_delete_ne; [done| |done].
    intros <-. by apply Hne, (rel_distinct _ _ _ _ _ R _ _ _ _ Ht Ht').
  - intros fd' e [(<- & <- & _)|(Hne & Ht')]%list_lookup_insert_Some Hobj; [done|].
    rewrite lookup_delete_ne by done. by apply (rel_entry _ _ _ _ _ R _ e).
  - intros fd1 fd2 e1 e2 [(<- & <- & _)|(Hne1 & Ht1)]%list_lookup_insert_Some
      [(<- & <- & _)|(Hne2 & Ht2)]%list_lookup_insert_Some Heq Hobj; [done|done| |].
    + by rewrite Heq in Hobj.
    + by apply (rel_distinct _ _ _ _ _ R _ _ _ _ Ht1 Ht2).
  - intros o [x [Hne Hs]%lookup_delete_Some].
    destruct (rel_streams _ _ _ _ _ R o ltac:(by exists x)) as (Ho' & fd' & e & Ht' & He).
    split; [done|]. exists fd', e. rewrite list_lookup_insert_ne; [done|]. intros <-. rewrite Ht in Ht'. simplify_eq.
  - intros fd' e [(<- & <- & _)|(Hne & Ht')]%list_lookup_insert_Some; [|by apply (rel_others _ _ _ _ _ R)].
    rewrite <-(rel_others _ _ _ _ _ R _ _ Ht). cbn. lia.
Qed.
End Related.

(** The table of a new driver. *)
Lemma related_new n : related n ∅ (replicate n free_entry) ∅ ∅.
Proof.
  constructor.
  - apply length_replicate.
  - intros fd d p Hh. by rewrite lookup_empty in Hh.
  - by intros fd e [-> _]%lookup_replicate_1.
  - by intros fd fd' e e' [-> _]%lookup_replicate_1.
  - intros o [x Hx]. by rewrite lookup_empty in Hx.
  - intros fd e [-> _]%lookup_replicate_1. set_solver.
Qed.

(** ** The functions of the driver on a handle *)

Definition at_env {E} (e : E) (s : astate E) : astate E :=
  mk_astate (mk_assets (tables (here s)) (a_sys (here s)) e) (aerrno s).

Definition at_table {E} (self : Z) (t : list fd_entry_t) (s : astate E) : astate E :=
  mk_astate (mk_assets (<[self := t]> (tables (here s))) (a_sys (here s)) (env (here s))) (aerrno s).

Definition at_errno {E} (e : Z) (s : astate E) : astate E := mk_astate (here s) e.

Section Handles.
Context {E : Type} {A0 : Android E} {OkJ : JavaOk A0}.
Context (self : Z) (root : option cstr) (und : driver) (cal : caller).
Context (under : caller -> call -> assets E -> option (reply * assets E)).
Context (fuel : nat) (others : gset nat) (good : sysmod -> Prop).

(** The state of the driver implements the handles; [good] is what the underlying driver
    needs of its own state. *)
Definition implements (a : assets E) (H : handles) : Prop :=
  good (a_sys a) /\ exists t, tables a !! self = Some t /\ related table_entries others t (streams (env a)) H.

Lemma java_Ret {T} (f : E -> T * E) s x e : f (env (here s)) = (x, e) -> java f s = Ret x (at_env e s).
Proof. intros Hf. unfold java. by rewrite Hf. Qed.

Lemma stream_Ret {T} obj (f : Z -> E -> T * E) s x e :
  obj <> 0 -> f obj (env (here s)) = (x, e) -> stream_call obj f s = Ret x (at_env e s).
Proof. intros Ho Hf. unfold stream_call. rewrite (proj2 (Z.eqb_neq _ _)) by done. by apply java_Ret. Qed.

Lemma in_table_true fd : (fd < table_entries)%nat -> in_table (Z.of_nat fd) = true.
Proof. intros Hfd. unfold in_table. apply andb_true_iff. split; [apply Z.leb_le|apply Z.ltb_lt]; lia. Qed.

Lemma table_Ret (s : astate E) t : tables (here s) !! self = Some t -> table self s = Ret t s.
Proof. intros Ht. unfold table, lread. by rewrite Ht. Qed.

Section Entry.
Context (s : astate E) (t : list fd_entry_t) (fd : nat) (e : fd_entry_t).
Context (Ht : tables (here s) !! self = Some t) (Hl : length t = table_entries) (He : t !! fd = Some e).

Lemma entry_in_table : in_table (Z.of_nat fd) = true.
Proof. apply in_table_true. rewrite <-Hl. by eapply lookup_lt_Some. Qed.

Lemma resolve_Ret : resolve_entry self (Z.of_nat fd) s = Ret (Some e) s.
Proof.
  unfold resolve_entry. rewrite entry_in_table. rewrite (lbind_step _ _ _ _ _ (table_Ret _ _ Ht)).
  unfold lbind, lread. by rewrite Nat2Z.id, He.
Qed.

Lemma update_Ret q :
  update_pos self (Z.of_nat fd) q s =
  Ret tt (at_table self (<[fd := mk_entry (e_obj e) q (e_size e) (e_extfd e) (e_path e)]> t) s).
Proof.
  unfold update_pos. rewrite entry_in_table. rewrite (lbind_step _ _ _ _ _ (table_Ret _ _ Ht)).
  unfold lbind, lread. by rewrite Nat2Z.id, He.
Qed.

Lemma free_Ret :
  free_entry_of self (Z.of_nat fd) s =
  Ret tt (at_table self (<[fd := free_entry]> t)
            (if e_obj e =? 0 then s else at_env (delete_ref (e_obj e) (env (here s))) s)).
Proof.
  unfold free_entry_of. rewrite entry_in_table. rewrite (lbind_step _ _ _ _ _ (table_Ret _ _ Ht)).
  unfold lbind at 1, lread. rewrite Nat2Z.id, He. by destruct (e_obj e =? 0).
Qed.
End Entry.

(** [read] on a handle. *)
Lemma read_handle (s : astate E) H fd d p buf count :
  implements (here s) H -> H !! fd = Some (d, p) -> 0 <= count <= heap_limit ->
  exists k s', a_read self cal under (Z.of_nat fd) buf count s = Ret k s' /\ 0 <= k <= count /\ p + k <= len d /\
    (k = 0 -> count = 0 \/ p = len d) /\ memory (env (here s')) buf (Z.to_nat k) = slice d p k /\
    implements (here s') (<[fd := (d, p + k)]> H).
Proof.
  intros (Hg & t & Ht & R) Hh Hc. pose proof heap_ok as Hheap. unfold INT_MAX in Hheap.
  destruct (rel_handle _ _ _ _ _ R _ _ _ Hh) as (o & path & Hfd & Ho & Hs & Hp & Hd). unfold INT_MAX in Hd.
  unfold a_read. destruct (Z.eqb_spec count 0) as [->|Hc0].
  { exists 0, s. rewrite Z.add_0_r, insert_id by done. split_and!; try done; try lia; [by rewrite memory_none|by split; [|exists t]]. }
  rewrite (lbind_step _ _ _ _ _ (resolve_Ret _ _ _ _ Ht (rel_length _ _ _ _ _ R) Hfd)). cbn [e_extfd e_obj e_pos Z.eqb Pos.eqb negb].
  assert (Hw : swrap 32 count = count) by (apply swrap_id; lia). rewrite Hw.
  destruct (new_array_ok count (env (here s)) Hc) as (e1 & Hn & Hs1).
  rewrite (lbind_step _ _ _ _ _ (java_Ret _ _ _ _ Hn)). cbn [negb]. rewrite <-Hs1 in Hs.
  destruct (decide (p = len d)) as [->|Hne].
  - destruct (read_end o e1 d (Some 0) count Hs ltac:(lia)) as (bs & e2 & Hr & Hs2).
    erewrite lbind_step by (by eapply stream_Ret). cbn.
    eexists 0, _. split; [done|]. rewrite Z.add_0_r, insert_id by done.
    split_and!; try lia; [by rewrite memory_none|].
    split; [done|]. exists t. cbn. by rewrite Hs2, Hs1.
  - destruct (read_ok o e1 d p (Some 0) count Hs ltac:(lia) ltac:(lia)) as (k & bs & e2 & Hr & Hk & Hb & Hs2).
    erewrite lbind_step by (by eapply stream_Ret). cbn beta iota.
    rewrite (proj2 (Z.ltb_ge k 0)), (proj2 (Z.ltb_ge count k)) by lia.
    erewrite lbind_step by (by eapply (update_Ret _ t fd); [..|by apply (rel_length _ _ _ _ _ R)|done]).
    cbn. rewrite wrap_range by (pose proof word_ok; lia).
    eexists k, _. split; [done|]. cbn. destruct (store_ok buf (take (Z.to_nat k) bs) e2) as [Hst Hm].
    split_and!; try lia.
    + assert (Hlk : length (take (Z.to_nat k) bs) = Z.to_nat k).
      { rewrite Hb. unfold slice. rewrite length_take, length_drop. unfold len in *. lia. }
      rewrite Hlk in Hm. by rewrite Hm.
    + split; [done|]. eexists. cbn. rewrite lookup_insert_eq. split; [done|]. rewrite Hst, Hs2, Hs1.
      eapply related_move; try done. lia.
Qed.

(** [lseek64] on a handle. *)
Lemma seek_handle (s : astate E) H fd d p offset whence :
  implements (here s) H -> H !! fd = Some (d, p) -> - 2 ^ 63 < offset < 2 ^ 63 - 2 ^ 31 ->
  (whence = SEEK_CUR -> 0 <= p + offset) ->
  exists s', a_lseek64 self cal under (Z.of_nat fd) offset whence s =
      Ret (clamp 0 (len d) (seek_target p (len d) offset whence)) s' /\
    implements (here s') (<[fd := (d, clamp 0 (len d) (seek_target p (len d) offset whence))]> H).
Proof.
  intros (Hg & t & Ht & R) Hh Ho Hcur.
  destruct (rel_handle _ _ _ _ _ R _ _ _ Hh) as (o & path & Hfd & Hobj & Hs & Hp & Hd).
  set (q := clamp 0 (len d) (seek_target p (len d) offset whence)).
  assert (Hq : 0 <= q <= len d) by (unfold q, clamp; lia).
  unfold a_lseek64. rewrite (lbind_step _ _ _ _ _ (resolve_Ret _ _ _ _ Ht (rel_length _ _ _ _ _ R) Hfd)).
  cbn [e_extfd e_obj e_pos e_size Z.eqb Pos.eqb negb].
  rewrite seek_clamps; [|by repeat split; try apply word_ok; lia|done]. fold q.
  unfold INT_MAX in Hd. rewrite (swrap_offset q) by lia.
  destruct (reset_ok o _ d p 0 Hs) as (e1 & Hr & Hs1). erewrite lbind_step by (by eapply stream_Ret). cbn [negb].
  destruct (skip_ok o e1 d 0 (Some 0) q) as (e2 & Hk & Hs2); [by rewrite Hs1, lookup_insert_eq|lia|].
  erewrite lbind_step by (by eapply stream_Ret). cbn beta iota.
  erewrite lbind_step by (by eapply (update_Ret _ t fd); [..|by apply (rel_length _ _ _ _ _ R)|done]).
  eexists. split; [done|]. split; [done|]. eexists. cbn. rewrite lookup_insert_eq. split; [done|].
  rewrite Hs2, Hs1, insert_insert_eq. replace (0 + q `min` (len d - 0)) with q by lia. by eapply related_move.
Qed.

(** [close] on a handle. *)
Lemma close_handle (s : astate E) H fd d p :
  implements (here s) H -> H !! fd = Some (d, p) ->
  exists s', a_close self cal under (Z.of_nat fd) s = Ret 0 s' /\ implements (here s') (delete fd H).
Proof.
  intros (Hg & t & Ht & R) Hh. destruct (rel_handle _ _ _ _ _ R _ _ _ Hh) as (o & path & Hfd & Hobj & Hs & _).
  unfold a_close. rewrite (lbind_step _ _ _ _ _ (resolve_Ret _ _ _ _ Ht (rel_length _ _ _ _ _ R) Hfd)).
  rewrite (lbind_step _ _ _ _ _ (free_Ret _ _ _ _ Ht (rel_length _ _ _ _ _ R) Hfd)). cbn [e_obj e_extfd Z.leb Z.compare].
  rewrite (proj2 (Z.eqb_neq o 0)) by done. unfold stream_close.
  erewrite lbind_step by (by eapply stream_Ret).
  eexists. split; [done|]. split; [done|]. eexists. cbn. rewrite lookup_insert_eq. split; [done|].
  rewrite close_ok, delete_ref_ok. by eapply related_close.
Qed.

(** ** Opening an asset *)

(** [n] is the name of the asset that an absolute path stands for. *)
Definition asset_name (path n : cstr) : Prop :=
  exists q r, is_absolute (Some path) = true /\ abspath_t (c_cwd cal) (Some path) = Some (Some q) /\
    is_subpath (c_cwd cal) root (Some q) = Some true /\ relpath (c_cwd cal) root (Some q) = Some r /\
    path_t r = Some (Some n).

(** The underlying driver leaves the table of this one and the streams alone, and has no
    files below the root. *)
Class EmptyUnder := {
  under_frame : forall cal' c a r a', good (a_sys a) -> under cal' c a = Some (r, a') ->
    good (a_sys a') /\ tables a' !! self = tables a !! self /\ streams (env a') = streams (env a);
  under_empty : forall cal' q st a, good (a_sys a) -> canonical_text q -> is_subpath (c_cwd cal) root (Some q) = Some true ->
    exists r a', under cal' (Stat (Some q) st) a = Some (r, a') /\ ret r <> 0;
}.

Lemma abspath_canonical_text path q :
  is_absolute (Some path) = true -> abspath_t (c_cwd cal) (Some path) = Some (Some q) -> canonical_text q.
Proof.
  unfold abspath_t, absolutize. destruct path as [|c path]; [done|]. intros Ha. rewrite Ha.
  apply bool_decide_eq_true in Ha as ->. apply normalize_canonical.
Qed.

Lemma abs_canonical q (s : astate E) : canonical_text q -> abs cal (Some q) s = Ret (Some q) s.
Proof.
  intros Hq. unfold abs, path_fn, lread, abspath_t, absolutize.
  destruct (canonical_fits q Hq) as (p & Hp & _ & _). rewrite Hp. cbn [is_absolute]. rewrite bool_decide_eq_true_2 by done.
  by rewrite <-Hp, (normalize_canonical_id q Hq).
Qed.

(** The part of [open] before the stream is allocated. *)
Lemma open_reaches {OkU : EmptyUnder} path n arg (s : astate E) :
  good (a_sys (here s)) -> asset_name path n -> exists q s', canonical_text q /\ a_open self root cal under fuel (Some path) 0 arg s =
    open_asset self cal (Some q) (Some n) s' /\
    tables (here s') !! self = tables (here s) !! self /\ streams (env (here s')) = streams (env (here s)) /\
    good (a_sys (here s')).
Proof.
  intros Hg (q & r & Habs & Hq & Hsub & Hr & Hn). exists q. pose proof (abspath_canonical_text _ _ Habs Hq) as Hc.
  assert (Ha : abs cal (Some path) s = Ret (Some q) s) by (unfold abs, path_fn, lread; by rewrite Hq).
  unfold a_open. rewrite (lbind_step _ _ _ _ _ Ha). unfold check_subpath, path_fn, asset_path.
  unfold lbind at 1 2, lread. rewrite Hsub. cbn [lret negb]. unfold lbind at 1 2. unfold path_fn, lread. rewrite Hr, Hn.
  change (negb (Z.land 0 (Z.lor O_WRONLY O_RDWR) =? 0)) with false. cbn iota.
  unfold stat_ul, ucall, lbind at 1.
  destruct (under_empty (mk_caller (c_mounts cal) (c_cwd cal) (aerrno s)) q local_stat (here s) Hg Hc Hsub) as (r' & a' & Hu & Hr').
  rewrite Hu, (proj2 (Z.eqb_neq _ _)) by done. eexists. split; [done|]. split; [done|]. cbn.
  by destruct (under_frame _ _ _ _ _ Hg Hu) as (? & ? & ?).
Qed.

Definition in_use (H : handles) (fd : nat) : Prop := is_Some (H !! fd) \/ fd ∈ others.

Definition table_full (H : handles) : Prop := forall fd, (fd < table_entries)%nat -> in_use H fd.

Definition lowest_free (H : handles) (fd : nat) : Prop :=
  (fd < table_entries)%nat /\ ~ in_use H fd /\ forall fd', (fd' < fd)%nat -> in_use H fd'.

Lemma related_in_use t ss H fd e :
  related table_entries others t ss H -> t !! fd = Some e -> in_use H fd <-> e_obj e <> 0 \/ e_extfd e <> -1.
Proof.
  intros R He. unfold in_use. rewrite <-(rel_others _ _ _ _ _ R _ _ He). split.
  - intros [[[d p] Hh]|Hx]; [left|by right].
    destruct (rel_handle _ _ _ _ _ R _ _ _ Hh) as (o & path & Hfd & Ho & _). rewrite He in Hfd. by simplify_eq.
  - intros [Ho|Hx]; [left|by right]. by eapply (rel_entry _ _ _ _ _ R).
Qed.

Lemma related_lowest t ss H fd :
  related table_entries others t ss H -> first_entry t = Some fd -> lowest_free H fd.
Proof.
  intros R Hf. destruct (first_entry_some _ _ Hf) as (e & He & He0 & Hx). pose proof (lookup_lt_Some _ _ _ He) as Hlt.
  split; [by rewrite <-(rel_length _ _ _ _ _ R)|]. rewrite (related_in_use _ _ _ _ _ R He). split; [lia|].
  intros fd' Hlt'. destruct (lookup_lt_is_Some_2 t fd') as [e' He']; [lia|].
  apply (related_in_use _ _ _ _ _ R He'). by eapply first_entry_lowest.
Qed.

Lemma related_full t ss H : related table_entries others t ss H -> first_entry t = None -> table_full H.
Proof.
  intros R Hf fd Hfd. rewrite <-(rel_length _ _ _ _ _ R) in Hfd. destruct (lookup_lt_is_Some_2 _ _ Hfd) as [e He].
  apply (related_in_use _ _ _ _ _ R He). by eapply first_entry_none.
Qed.

(** The entry of a stream: a new handle, or none because the table is full. *)
Lemma alloc_handle (s : astate E) t H q o d :
  canonical_text q -> good (a_sys (here s)) -> tables (here s) !! self = Some t -> related table_entries others t (delete o (streams (env (here s)))) H ->
  streams (env (here s)) !! o = Some (mk_jstream d 0 (Some 0)) -> o <> 0 -> len d <= INT_MAX ->
  (exists fd s', alloc_stream self cal o (len d) (Some q) s = Ret (Z.of_nat fd) s' /\ lowest_free H fd /\
    implements (here s') (<[fd := (d, 0)]> H)) \/
  (table_full H /\ alloc_stream self cal o (len d) (Some q) s = Ret (-1) s).
Proof.
  intros Hq Hg Ht R Hs Ho Hd. unfold alloc_stream. rewrite (proj2 (Z.eqb_neq o 0)) by done.
  rewrite (lbind_step _ _ _ _ _ (table_Ret _ _ Ht)). destruct (first_entry t) as [fd|] eqn:Ef.
  - left. destruct (new_ref_ok o (env (here s)) Ho) as (e1 & Hn & Hs1).
    rewrite (lbind_step _ _ _ _ _ (java_Ret _ _ _ _ Hn)). unfold dup_path.
    rewrite (lbind_step _ _ _ _ _ (abs_canonical q _ Hq)). exists fd. eexists. split; [done|].
    split; [by eapply related_lowest|].
    split; [done|]. eexists. cbn. rewrite lookup_insert_eq. split; [done|]. rewrite Hs1.
    rewrite <-(insert_delete_id _ _ _ Hs). eapply related_open; try done. by rewrite lookup_delete_eq.
  - right. split; [by eapply related_full|done].
Qed.

Lemma open_found_handle (s : astate E) H q n d :
  canonical_text q -> implements (here s) H -> asset n = Some d ->
  (exists fd s', open_asset self cal (Some q) (Some n) s = Ret (Z.of_nat fd) s' /\ lowest_free H fd /\
    implements (here s') (<[fd := (d, 0)]> H)) \/
  (table_full H /\ exists s', open_asset self cal (Some q) (Some n) s = Ret (-1) s' /\ aerrno s' = EMFILE /\
    implements (here s') H).
Proof.
  intros Hq (Hg & t & Ht & R) Hd. pose proof (asset_size n d Hd) as Hsize. unfold open_asset.
  destruct (open_found n d (env (here s)) Hd) as (o & e1 & Ho & Hobj & Hnew & Hs1).
  rewrite (lbind_step _ _ _ _ _ (java_Ret _ _ _ _ Ho)).
  destruct (mark_ok o e1 d 0 None) as (e2 & Hm & Hs2); [by rewrite Hs1, lookup_insert_eq|].
  erewrite lbind_step by (by eapply stream_Ret). cbn [negb].
  destruct (skip_ok o e2 d 0 (Some 0) INT_MAX) as (e3 & Hk & Hs3); [by rewrite Hs2, lookup_insert_eq|by unfold INT_MAX|].
  erewrite lbind_step by (by eapply stream_Ret). cbn beta iota.
  replace (INT_MAX `min` (len d - 0)) with (len d) in * by lia.
  destruct (reset_ok o e3 d (0 + len d) 0) as (e4 & Hr & Hs4); [by rewrite Hs3, lookup_insert_eq|].
  erewrite lbind_step by (by eapply stream_Ret). cbn [negb].
  rewrite Hs3, Hs2, Hs1, !insert_insert_eq in Hs4.
  rewrite wrap_range by (pose proof word_ok; unfold INT_MAX in Hsize; unfold len in *; lia).
  destruct (alloc_handle (at_env e4 (at_env e3 (at_env e2 (at_env e1 s)))) t H q o d) as [(fd & s' & Hal & Hfd & Hi)|(Hfull & Hal)];
    try done; cbn.
  { by rewrite Hs4, delete_insert_id. }
  { by rewrite Hs4, lookup_insert_eq. }
  - left. exists fd, s'. rewrite (lbind_step _ _ _ _ _ Hal). by rewrite (proj2 (Z.ltb_ge _ 0)) by lia.
  - right. split; [done|]. rewrite (lbind_step _ _ _ _ _ Hal). cbn [Z.ltb Z.compare]. unfold stream_close.
    erewrite lbind_step by (by eapply stream_Ret). eexists. split; [done|]. split; [done|].
    split; [done|]. exists t. cbn. split; [done|]. by rewrite close_ok, Hs4, delete_insert_id.
Qed.

Lemma open_missing_handle (s : astate E) H q n :
  implements (here s) H -> asset n = None ->
  exists s', open_asset self cal (Some q) (Some n) s = Ret (-1) s' /\ aerrno s' = ENOENT /\ implements (here s') H.
Proof.
  intros (Hg & t & Ht & R) Hd. unfold open_asset. destruct (open_missing n (env (here s)) Hd) as (e1 & Ho & Hs1).
  rewrite (lbind_step _ _ _ _ _ (java_Ret _ _ _ _ Ho)). eexists. split; [done|]. split; [done|]. split; [done|]. exists t. cbn. by rewrite Hs1.
Qed.

(** ** Sessions *)

Inductive action :=
| OpenAsset (path : cstr)
| ReadAsset (fd : nat) (buf count : Z)
| SeekAsset (fd : nat) (offset whence : Z)
| CloseAsset (fd : nat).

Definition call_of (x : action) : call :=
  match x with
  | OpenAsset path => Open (Some path) 0 0
  | ReadAsset fd buf count => Read (Z.of_nat fd) buf count
  | SeekAsset fd offset whence => Lseek64 (Z.of_nat fd) offset whence
  | CloseAsset fd => Close (Z.of_nat fd)
  end.

(** What a client sees of an action: the value, [errno] if it is -1, and the bytes that
    are in the buffer. *)
Record answer := mk_answer { a_value : Z; a_error : option Z; a_bytes : cstr }.

Definition answer_of (x : action) (r : reply) (a : assets E) : answer :=
  mk_answer (ret r) (if ret r =? -1 then err r else None)
    (match x with ReadAsset _ buf _ => memory (env a) buf (Z.to_nat (ret r)) | _ => [] end).

Fixpoint session (xs : list action) (a : assets E) : option (list answer * assets E) :=
  match xs with
  | [] => Some ([], a)
  | x :: xs =>
      match asset_drive self root und cal under fuel (call_of x) a with
      | Some (r, a) =>
          match session xs a with Some (rs, a') => Some (answer_of x r a :: rs, a') | None => None end
      | None => None
      end
  end.

(** The specification: what an action answers and what it does to the handles. *)
Inductive handle_step (H : handles) : action -> answer -> handles -> Prop :=
| step_open path n d fd :
    asset_name path n -> asset n = Some d -> lowest_free H fd ->
    handle_step H (OpenAsset path) (mk_answer (Z.of_nat fd) None []) (<[fd := (d, 0)]> H)
| step_full path n d :
    asset_name path n -> asset n = Some d -> table_full H ->
    handle_step H (OpenAsset path) (mk_answer (-1) (Some EMFILE) []) H
| step_missing path n :
    asset_name path n -> asset n = None ->
    handle_step H (OpenAsset path) (mk_answer (-1) (Some ENOENT) []) H
| step_read fd d p buf count k :
    H !! fd = Some (d, p) -> 0 <= k <= count -> p + k <= len d -> (k = 0 -> count = 0 \/ p = len d) ->
    handle_step H (ReadAsset fd buf count) (mk_answer k None (slice d p k)) (<[fd := (d, p + k)]> H)
| step_seek fd d p offset whence q :
    H !! fd = Some (d, p) -> q = clamp 0 (len d) (seek_target p (len d) offset whence) ->
    handle_step H (SeekAsset fd offset whence) (mk_answer q None []) (<[fd := (d, q)]> H)
| step_close fd d p :
    H !! fd = Some (d, p) -> handle_step H (CloseAsset fd) (mk_answer 0 None []) (delete fd H).

Inductive handle_run : handles -> list action -> list answer -> handles -> Prop :=
| run_done H : handle_run H [] [] H
| run_step H x r H1 xs rs H2 :
    handle_step H x r H1 -> handle_run H1 xs rs H2 -> handle_run H (x :: xs) (r :: rs) H2.

(** The actions that a client may do. *)
Definition legal (H : handles) (x : action) : Prop :=
  match x with
  | OpenAsset path => exists n, asset_name path n
  | ReadAsset fd buf count => is_Some (H !! fd) /\ 0 <= count <= heap_limit
  | SeekAsset fd offset whence =>
      exists d p, H !! fd = Some (d, p) /\ - 2 ^ 63 < offset < 2 ^ 63 - 2 ^ 31 /\ (whence = SEEK_CUR -> 0 <= p + offset)
  | CloseAsset fd => is_Some (H !! fd)
  end.

Fixpoint legal_session (H : handles) (xs : list action) : Prop :=
  match xs with
  | [] => True
  | x :: xs => legal H x /\ forall r H', handle_step H x r H' -> legal_session H' xs
  end.

Lemma drive_value c v (a : assets E) k s' :
  asset_call self root und cal under fuel c = value v -> v (mk_astate a (c_errno cal)) = Ret k s' ->
  asset_drive self root und cal under fuel c a = Some (mk_reply k 0 (Some (aerrno s')), here s').
Proof. intros Hc Hv. unfold asset_drive. rewrite Hc. unfold value. by rewrite (lbind_step _ _ _ _ _ Hv). Qed.

(** One action of the driver is one step of the specification. *)
Lemma action_refines {OkU : EmptyUnder} H x (a : assets E) :
  implements a H -> legal H x ->
  exists r a' H', asset_drive self root und cal under fuel (call_of x) a = Some (r, a') /\
    handle_step H x (answer_of x r a') H' /\ implements a' H'.
Proof.
  intros Hi Hx. set (s := mk_astate a (c_errno cal)). destruct x as [path|fd buf count|fd offset whence|fd]; cbn in Hx.
  - destruct Hx as [n Hn]. destruct (open_reaches path n 0 s (proj1 Hi) Hn) as (q & s1 & Hq & Hopen & Ht & Hs & Hgood).
    assert (Hi1 : implements (here s1) H) by (destruct Hi as (Hg & t & Hit & R); split; [by apply Hgood|]; exists t; by rewrite Ht, Hs).
    destruct (asset n) as [d|] eqn:Hd.
    + destruct (open_found_handle s1 H q n d Hq Hi1 Hd) as [(fd & s' & Ho & Hfd & Hi')|(Hf & s' & Ho & He & Hi')];
        rewrite <-Hopen in Ho; eexists _, _, _; (split; [by eapply drive_value|]); (split; [|exact Hi']).
      * unfold answer_of. cbn [ret err]. rewrite (proj2 (Z.eqb_neq _ (-1))) by lia. by eapply step_open.
      * unfold answer_of. cbn. rewrite He. by eapply step_full.
    + destruct (open_missing_handle s1 H q n Hi1 Hd) as (s' & Ho & He & Hi'). rewrite <-Hopen in Ho.
      eexists _, _, _. split; [by eapply drive_value|]. split; [|exact Hi']. unfold answer_of. cbn. rewrite He. by eapply step_missing.
  - destruct Hx as [[[d p] Hh] Hc]. destruct (read_handle s H fd d p buf count Hi Hh Hc) as (k & s' & Hr & Hk & Hle & Hz & Hm & Hi').
    eexists _, _, _. split; [by eapply drive_value|]. split; [|exact Hi']. unfold answer_of. cbn [ret err].
    rewrite (proj2 (Z.eqb_neq _ (-1))), Hm by lia. by apply step_read.
  - destruct Hx as (d & p & Hh & Ho & Hcur). destruct (seek_handle s H fd d p offset whence Hi Hh Ho Hcur) as (s' & Hr & Hi').
    eexists _, _, _. split; [by eapply drive_value|]. split; [|exact Hi']. unfold answer_of. cbn [ret err].
    rewrite (proj2 (Z.eqb_neq _ (-1))) by (unfold clamp; lia). by eapply step_seek.
  - destruct Hx as [[d p] Hh]. destruct (close_handle s H fd d p Hi Hh) as (s' & Hr & Hi').
    eexists _, _, _. split; [by eapply drive_value|]. split; [|exact Hi']. by eapply step_close.
Qed.

(** Without handles there are no streams. *)
Lemma implements_empty a : implements a ∅ -> streams (env a) = ∅.
Proof.
  intros (_ & t & _ & R). apply map_empty. intros o. destruct (streams (env a) !! o) eqn:Ho; [|done]. exfalso.
  destruct (rel_streams _ _ _ _ _ R o ltac:(by eexists)) as (Hne & fd & e & Ht & He).
  destruct (rel_entry _ _ _ _ _ R fd e Ht ltac:(by rewrite He)) as [x Hx]. by rewrite lookup_empty in Hx.
Qed.

(** Over an underlying driver without files below the root, every session of opens, reads, seeks and
    closes of assets runs to its end, and answers what the abstract files answer: the
    bytes of the asset in order, positions brought into the file, [ENOENT] for a missing
    asset and [EMFILE] only for a full table; when all the descriptors are closed, no
    stream is left open. *)
Theorem asset_sessions {OkU : EmptyUnder} H xs a :
  implements a H -> legal_session H xs ->
  exists rs a' H', session xs a = Some (rs, a') /\ handle_run H xs rs H' /\ implements a' H' /\
    (H' = ∅ -> streams (env a') = ∅).
Proof.
  intros Hi. revert H a Hi. induction xs as [|x xs IH]; intros H a Hi Hl.
  - exists [], a, H. split_and!; [done|constructor|done|]. intros ->. by apply implements_empty.
  - destruct Hl as [Hx Hl]. destruct (action_refines H x a Hi Hx) as (r & a1 & H1 & Hd & Hst & Hi1).
    destruct (IH H1 a1 Hi1 (Hl _ _ Hst)) as (rs & a' & H' & Hs & Hrun & Hi' & He).
    exists (answer_of x r a1 :: rs), a', H'. cbn. rewrite Hd, Hs. split_and!; [done|by econstructor|done|done].
Qed.
End Handles.

(** ** Copies for writing *)

Section Copies.
Context {E : Type} {A0 : Android E}.
Context (cal : caller) (under : caller -> call -> assets E -> option (reply * assets E)) (obj fd : Z).

End Copies.

(** ** An example *)

Definition demo_caller : caller := mk_caller (mk_mounts ∅ []) (Some (str "/")) 0.

(** A driver that has the directory of the libraries, and nothing else. *)
Definition demo_under (_ : caller) (c : call) (a : assets machine_state) : option (reply * assets machine_state) :=
  Some (mk_reply (match c with
                  | Stat path _ => if bool_decide (path = Some (str "/data/data/app/lib")) then 0 else -1
                  | _ => 0
                  end) 0 None, a).

Definition demo_assets : assets machine_state :=
  mk_assets {[ 1 := init_entries ]} sysmod_start (mk_machine ∅ ∅).

Definition demo_root : option cstr := Some (str "/assets").

Definition demo_session : list action :=
  [OpenAsset (str "/assets/./a.txt"); OpenAsset (str "/assets/b.txt"); ReadAsset 0 500 5; SeekAsset 0 (-5) SEEK_END;
   ReadAsset 0 600 100; CloseAsset 0].

#[local] Instance demo_empty : EmptyUnder 1 demo_root demo_caller demo_under (fun _ => True).
Proof.
  constructor.
  - by intros cal' c a r a' _ [= _ <-].
  - intros cal' q st a _ _ Hp. eexists _, _. split; [done|]. cbn.
    case_bool_decide as Hc; [|done]. injection Hc as ->. by vm_compute in Hp.
Qed.

Lemma demo_implements : implements 1 ∅ (fun _ => True) demo_assets ∅.
Proof. split; [done|]. exists init_entries. split; [done|]. apply related_new. Qed.

Lemma asset_name_unique root cal path n n' : asset_name root cal path n -> asset_name root cal path n' -> n = n'.
Proof. intros (q & r & _ & Hq & _ & Hr & Hn) (q' & r' & _ & Hq' & _ & Hr' & Hn'). congruence. Qed.

Lemma demo_name_a : asset_name demo_root demo_caller (str "/assets/./a.txt") (str "a.txt").
Proof. eexists _, _. repeat split; vm_compute; reflexivity. Qed.

Lemma demo_name_b : asset_name demo_root demo_caller (str "/assets/b.txt") (str "b.txt").
Proof. eexists _, _. repeat split; vm_compute; reflexivity. Qed.

Definition demo_handles (p : Z) : handles := {[ 0%nat := (str "Hello, world", p) ]}.

Lemma demo_open r H :
  handle_step demo_root demo_caller ∅ ∅ (OpenAsset (str "/assets/./a.txt")) r H -> H = demo_handles 0.
Proof.
  assert (H0 : ~ in_use ∅ ∅ 0) by (intros [[? ?]|?]; [done|set_solver]).
  inversion_clear 1 as [path n d fd Hn Hd Hfd|path n d Hn Hd Hf|path n Hn Hd| | |];
    rewrite (asset_name_unique _ _ _ _ _ Hn demo_name_a) in Hd.
  - destruct Hfd as (_ & _ & Hlow). destruct fd as [|fd]; [by injection Hd as <-|]. destruct H0. apply Hlow. lia.
  - destruct H0. apply Hf. cbn. lia.
  - done.
Qed.

Lemma demo_open_b r H H' : handle_step demo_root demo_caller ∅ H (OpenAsset (str "/assets/b.txt")) r H' -> H' = H.
Proof.
  inversion_clear 1 as [path n d fd Hn Hd Hfd|path n d Hn Hd Hf|path n Hn Hd| | |]; [|done|done].
  by rewrite (asset_name_unique _ _ _ _ _ Hn demo_name_b) in Hd.
Qed.

Lemma demo_handles_step p x r H :
  handle_step demo_root demo_caller ∅ (demo_handles p) x r H ->
  match x with ReadAsset _ _ _ | SeekAsset _ _ _ => exists q, H = demo_handles q | _ => True end.
Proof.
  unfold demo_handles. inversion_clear 1 as [| | |fd d p0 buf count k Hh|fd d p0 offset whence q Hh|]; [done..| | |done];
    apply lookup_singleton_Some in Hh as [<- [= <- <-]]; eexists; apply insert_singleton_eq.
Qed.

Lemma demo_legal : legal_session demo_root demo_caller ∅ ∅ demo_session.
Proof.
  split; [eexists; apply demo_name_a|]. intros r0 H0 ->%demo_open.
  split; [eexists; apply demo_name_b|]. intros r1 H1 ->%demo_open_b.
  split; [split; [by eexists|cbn; lia]|]. intros r2 H2 [p ->]%demo_handles_step.
  split; [by exists (str "Hello, world"), p|]. intros r3 H3 [q ->]%demo_handles_step.
  split; [split; [by eexists|cbn; lia]|]. intros r4 H4 [q' ->]%demo_handles_step.
  split; [by eexists|]. done.
Qed.

Lemma asset_sessions_witness : exists rs a' H',
  session 1 demo_root System demo_caller demo_under 0 demo_session demo_assets = Some (rs, a') /\
  handle_run demo_root demo_caller ∅ ∅ demo_session rs H' /\ implements 1 ∅ (fun _ => True) a' H' /\ (H' = ∅ -> streams (env a') = ∅).
Proof.
  exact (asset_sessions 1 demo_root System demo_caller demo_under 0 ∅ (fun _ => True) ∅ demo_session demo_assets demo_implements demo_legal).
Defined.

(** The same session by evaluation. *)
Example demo_session_answers :
  fst <$> session 1 demo_root System demo_caller demo_under 0 demo_session demo_assets =
  Some [mk_answer 0 None []; mk_answer (-1) (Some ENOENT) []; mk_answer 5 None (str "Hello"); mk_answer 7 None [];
        mk_answer 5 None (str "world"); mk_answer 0 None []].
Proof. vm_compute. reflexivity. Qed.

