(* ===== verification/AssetTable.v ===== *)
(** * The table of the driver of the assets

    The type of the entries of the table of [AssetDriver], and the proof that every function
    of the driver keeps it, from the constructor on. *)

From S2P Require Import Prelude Util Paths Vfs SystemDriver AssetDriver AssetJava AssetSessions.
Open Scope Z_scope.
Open Scope ndk_scope.

(** An entry is free, or a stream, or a file of the underlying driver; an entry in use
    has an absolute path in normal form. *)
Definition entry_typed (w : Z) (e : fd_entry_t) : Prop :=
  fits w (e_pos e) /\ fits w (e_size e) /\
  (is_free e = true \/
   (e_obj e <> 0 /\ e_extfd e = -1 \/ e_obj e = 0 /\ 0 <= e_extfd e) /\ exists q, e_path e = Some q /\ canonical_text q).

(** The current directory is an absolute path. *)
Definition cwd_typed (c : caller) : Prop := forall p, c_cwd c = Some p -> exists p', p = slash :: p'.

Lemma abspath_typed c path q : cwd_typed c -> abspath_t (c_cwd c) path = Some (Some q) -> canonical_text q.
Proof.
  intros Hc. unfold abspath_t, absolutize. destruct path as [[|x path]|]; [done| |done].
  destruct (is_absolute (Some (x :: path))) eqn:Ea.
  - apply bool_decide_eq_true in Ea as ->. apply normalize_canonical.
  - destruct (c_cwd c) as [cwd|] eqn:Ec; [|done]. case_match; [done|].
    destruct (Hc cwd Ec) as [cwd' ->]. apply normalize_canonical.
Qed.

Section Typed.
Context {E : Type} `{Android E}.
Context (self : Z) (root : option cstr) (und : driver) (cal : caller).
Context (under : caller -> call -> assets E -> option (reply * assets E)).
Context (word_pos : 0 <= word) (Hcwd : cwd_typed cal).
Context (Hunder : forall cal' c a r a', under cal' c a = Some (r, a') -> tables a' !! self = tables a !! self).

Definition table_typed (a : assets E) : Prop :=
  exists t, tables a !! self = Some t /\ length t = table_entries /\ Forall (entry_typed word) t.

Definition wt {T} (c : M (astate E) T) (Q : T -> Prop) : Prop :=
  triple (fun s => table_typed (here s)) c (fun x s => table_typed (here s) /\ Q x) (fun _ _ => True).

Definition always {T} : T -> Prop := fun _ => True.

Lemma wt_bind {T U} (c : M (astate E) T) (k : T -> M (astate E) U) P Q :
  wt c P -> (forall x, P x -> wt (k x) Q) -> wt (lbind c k) Q.
Proof. intros Hc Hk. eapply triple_bind; [apply Hc|]. intros x s [Hs Hx]. by apply Hk. Qed.

Lemma wt_step {T U} (c : M (astate E) T) (k : T -> M (astate E) U) Q :
  wt c always -> (forall x, wt (k x) Q) -> wt (lbind c k) Q.
Proof. intros Hc Hk. eapply wt_bind; [done|]. intros x _. apply Hk. Qed.

Lemma wt_ret {T} (x : T) : wt (lret x) always.
Proof. by intros s Hs. Qed.

Lemma wt_crash {T} Q : wt (@lcrash (astate E) T) Q.
Proof. done. Qed.

Lemma wt_get : wt lget always.
Proof. by intros s Hs. Qed.

Lemma wt_path {T} (x : option T) : wt (path_fn x) (fun r => x = Some r).
Proof. intros s Hs. unfold path_fn, lread. by destruct x. Qed.

Lemma wt_path_always {T} (x : option T) : wt (path_fn x) always.
Proof. intros s Hs. unfold path_fn, lread. by destruct x. Qed.

Lemma wt_errno e : wt (a_errno e) always.
Proof. by intros s Hs. Qed.

Lemma wt_java {T} (f : E -> T * E) : wt (java f) always.
Proof. intros s Hs. unfold java. by destruct (f _). Qed.

Lemma wt_ucall c : wt (ucall cal under c) always.
Proof.
  intros s (t & Ht & Hl). unfold ucall. destruct (under _ _ _) as [[r a]|] eqn:Eu; [|done].
  split; [|done]. exists t. cbn. by rewrite (Hunder _ _ _ _ _ Eu).
Qed.

Lemma wt_abs path : wt (abs cal path) (fun r => forall q, r = Some q -> canonical_text q).
Proof.
  intros s Hs. pose proof (wt_path (abspath_t (c_cwd cal) path) s Hs) as Hp. unfold abs.
  destruct (path_fn _ s); [|done|done]. destruct Hp as [Hs' Hp]. split; [done|]. intros q ->. by eapply abspath_typed.
Qed.

Lemma wt_abs_always path : wt (abs cal path) always.
Proof. apply wt_path_always. Qed.

#[local] Hint Resolve wt_ret wt_crash wt_get wt_path_always wt_errno wt_java wt_ucall wt_abs_always : typed.

Ltac typed_steps :=
  repeat match goal with
  | |- wt (lbind _ _) _ => apply wt_step; [|intros ?]
  | |- wt (match ?x with _ => _ end) _ => destruct x
  | |- wt (java_do _) _ => apply wt_java
  end; eauto with typed.

(** ** The table *)

Lemma wt_table : wt (table self) (fun t => length t = table_entries /\ Forall (entry_typed word) t).
Proof. intros s (t & Ht & Hl). unfold table, lread. rewrite Ht. split; [by exists t|done]. Qed.

Lemma wt_put t : length t = table_entries -> Forall (entry_typed word) t -> wt (put_table self t) always.
Proof. intros Hl Ht s _. split; [|done]. exists t. cbn. by rewrite lookup_insert_eq. Qed.

Lemma wt_lookup {T} (t : list T) (P : T -> Prop) i : Forall P t -> wt (lread (fun _ => t !! i)) P.
Proof.
  intros Ht s Hs. unfold lread. destruct (t !! i) as [x|] eqn:Ex; [|done]. split; [done|]. by eapply Forall_lookup_1.
Qed.

Lemma wt_entry_put fd e t :
  length t = table_entries -> Forall (entry_typed word) t -> entry_typed word e -> wt (put_table self (<[fd := e]> t)) always.
Proof. intros Hl Ht He. apply wt_put; [by rewrite length_insert|by apply Forall_insert]. Qed.

Lemma fits_zero : fits word 0.
Proof. unfold fits. pose proof (pow2_pos word word_pos). lia. Qed.

Lemma wt_resolve fd : wt (resolve_entry self fd) (fun r => forall e, r = Some e -> entry_typed word e).
Proof.
  unfold resolve_entry. destruct (in_table fd); [|by intros s Hs].
  eapply wt_bind; [apply wt_table|]. intros t [_ Ht]. eapply wt_bind; [by eapply wt_lookup|].
  intros e He s Hs. split; [done|]. by intros ? [= <-].
Qed.

Lemma wt_resolve_always fd : wt (resolve_entry self fd) always.
Proof. intros s Hs. pose proof (wt_resolve fd s Hs) as Hr. destruct (resolve_entry _ _ _); by destruct Hr || done. Qed.

Lemma wt_update fd q : fits word q -> wt (update_pos self fd q) always.
Proof.
  intros Hq. unfold update_pos. destruct (in_table fd); [|apply wt_ret].
  eapply wt_bind; [apply wt_table|]. intros t [Hl Ht]. eapply wt_bind; [by eapply wt_lookup|].
  intros e (_ & Hs & He). by apply wt_entry_put.
Qed.

Lemma wt_free fd : wt (free_entry_of self fd) always.
Proof.
  unfold free_entry_of. destruct (in_table fd); [|apply wt_ret].
  eapply wt_bind; [apply wt_table|]. intros t [Hl Ht]. eapply wt_bind; [by eapply wt_lookup|]. intros e _.
  apply wt_step; [typed_steps|]. intros _. apply wt_entry_put; [done..|].
  split_and!; [apply fits_zero|apply fits_zero|by left].
Qed.

(** Functions that allocate are given paths in normal form, which [strdup] copies. *)
Lemma wt_dup q : canonical_text q -> wt (dup_path cal (Some q)) (fun r => r = Some q).
Proof.
  intros Hq s Hs. unfold dup_path, abs, path_fn, lread, abspath_t, absolutize.
  destruct (canonical_fits q Hq) as (p & Hp & _ & _). rewrite Hp. cbn [is_absolute]. rewrite bool_decide_eq_true_2 by done.
  by rewrite <-Hp, (normalize_canonical_id q Hq).
Qed.

Definition path_typed (p : option cstr) : Prop := forall q, p = Some q -> canonical_text q.

Lemma wt_alloc_stream obj size path : fits word size -> path_typed path -> wt (alloc_stream self cal obj size path) always.
Proof.
  intros Hsize Hp. unfold alloc_stream. destruct (obj =? 0) eqn:Eo; [apply wt_ret|]. bool_to_prop.
  eapply wt_bind; [apply wt_table|]. intros t [Hl Ht]. destruct (first_entry t) as [fd|]; [|apply wt_ret].
  apply wt_step; [apply wt_java|]. intros held. destruct path as [q|]; [|apply wt_crash].
  eapply wt_bind; [by apply wt_dup, Hp|]. intros ? ->. apply wt_step; [|intros ?; apply wt_ret].
  apply wt_entry_put; [done..|]. split_and!; [apply fits_zero|done|]. destruct held; [right|by left].
  split; [by left|]. exists q. split; [done|by apply Hp].
Qed.

Lemma wt_alloc_extfd x path : path_typed path -> wt (alloc_extfd self cal x path) always.
Proof.
  intros Hp. unfold alloc_extfd. destruct (x <? 0) eqn:Ex; [apply wt_ret|]. bool_to_prop.
  eapply wt_bind; [apply wt_table|]. intros t [Hl Ht]. destruct (first_entry t) as [fd|]; [|apply wt_ret].
  destruct path as [q|]; [|apply wt_crash].
  eapply wt_bind; [by apply wt_dup, Hp|]. intros ? ->. apply wt_step; [|intros ?; apply wt_ret].
  apply wt_entry_put; [done..|]. split_and!; [apply fits_zero|apply fits_zero|right].
  split; [by right|]. exists q. split; [done|by apply Hp].
Qed.

#[local] Hint Resolve wt_resolve_always wt_free : typed.

(** ** The functions *)

Lemma wt_fail e : wt (a_fail e) always.
Proof. unfold a_fail. typed_steps. Qed.

Lemma wt_stream {T} obj (f : Z -> E -> T * E) : wt (stream_call obj f) always.
Proof. unfold stream_call. typed_steps. Qed.

Lemma wt_stream_close obj : wt (stream_close obj) always.
Proof. apply wt_stream. Qed.

Lemma wt_check path : wt (check_subpath root cal path) always.
Proof. unfold check_subpath. typed_steps. Qed.

Lemma wt_asset_path path : wt (asset_path root cal path) always.
Proof. unfold asset_path. typed_steps. Qed.

#[local] Hint Resolve wt_fail wt_stream wt_stream_close wt_check wt_asset_path : typed.

Lemma wt_close fd : wt (a_close self cal under fd) always.
Proof. unfold a_close. typed_steps. Qed.

Lemma wt_mkdirs dirs mode : wt (mkdirs cal under dirs mode) always.
Proof. induction dirs as [|d dirs IH]; cbn; typed_steps. Qed.

Lemma wt_mkdir_p path mode : wt (mkdir_p cal under path mode) always.
Proof. unfold mkdir_p. typed_steps. apply wt_mkdirs. Qed.

Lemma wt_copy_loop fuel obj fd : wt (copy_loop cal under fuel obj fd) always.
Proof. induction fuel as [|fuel IH]; cbn; typed_steps. Qed.

#[local] Hint Resolve wt_close wt_mkdir_p wt_copy_loop : typed.

Lemma wt_copy fuel path rpath : wt (copy_from_assets cal under fuel path rpath) always.
Proof. unfold copy_from_assets. typed_steps. Qed.

Lemma wt_stat_as rpath st : wt (stat_as self rpath st) always.
Proof. unfold stat_as. typed_steps. Qed.

#[local] Hint Resolve wt_copy wt_stat_as : typed.

Lemma wt_stat path st : wt (a_stat self root cal under path st) always.
Proof. unfold a_stat, stat_ul. typed_steps. Qed.

Lemma wt_dup_always path : wt (dup_path cal path) always.
Proof. unfold dup_path. typed_steps. Qed.

#[local] Hint Resolve wt_stat wt_dup_always : typed.

Lemma wt_fstat fd st : wt (a_fstat self root cal under fd st) always.
Proof. unfold a_fstat. typed_steps. Qed.

Lemma wt_open_under path p oflag arg : path_typed p -> wt (open_under self cal under path p oflag arg) always.
Proof.
  intros Hp. unfold open_under. apply wt_step; [apply wt_ucall|]. intros r.
  apply wt_step; [by apply wt_alloc_extfd|]. intros fd. typed_steps.
Qed.

Lemma wt_open_asset p rpath : path_typed p -> wt (open_asset self cal p rpath) always.
Proof.
  intros Hp. unfold open_asset. typed_steps. apply wt_alloc_stream; [by apply wrap_fits|done].
Qed.

Lemma wt_open fuel path oflag arg : wt (a_open self root cal under fuel path oflag arg) always.
Proof.
  unfold a_open. eapply wt_bind; [apply wt_abs|]. intros p Hp. unfold stat_ul.
  typed_steps; by apply wt_open_under || by apply wt_open_asset.
Qed.

Lemma wt_read fd buf count : wt (a_read self cal under fd buf count) always.
Proof. unfold a_read. typed_steps. by apply wt_update, wrap_fits. Qed.

Lemma seek_pos_fits pos size offset whence : fits word pos -> fits word (seek_pos word pos size offset whence).
Proof. intros Hp. unfold seek_pos; cbv zeta. repeat case_bool; done || by apply wrap_fits. Qed.

Lemma wt_lseek64 fd offset whence : wt (a_lseek64 self cal under fd offset whence) always.
Proof.
  unfold a_lseek64. eapply wt_bind; [apply wt_resolve|]. intros [e|] He; [|apply wt_fail]. cbv zeta. typed_steps.
  apply wt_update, seek_pos_fits. by destruct (He e eq_refl).
Qed.

#[local] Hint Resolve wt_lseek64 : typed.

Lemma wt_ioctl fd request arg : wt (a_ioctl self cal under fd request arg) always.
Proof. unfold a_ioctl. typed_steps. Qed.

Lemma wt_write fd buf count : wt (a_write self cal under fd buf count) always.
Proof. unfold a_write. typed_steps. Qed.

Lemma wt_driver_of path : wt (driver_of cal path) always.
Proof. unfold driver_of. typed_steps. Qed.

#[local] Hint Resolve wt_driver_of : typed.

Lemma wt_rename oldpath newpath : wt (a_rename und cal under oldpath newpath) always.
Proof. unfold a_rename. typed_steps. Qed.

Lemma wt_call fuel c : wt (asset_call self root und cal under fuel c) always.
Proof.
  destruct c; cbn [asset_call]; unfold value, a_lseek, a_unlink;
    auto using wt_stat, wt_fstat with typed; typed_steps;
    auto using wt_open, wt_read, wt_ioctl, wt_write, wt_rename.
Qed.

Lemma wt_new : triple always (asset_new self cal under) (fun _ s => table_typed (here s)) (fun _ _ => True).
Proof.
  unfold asset_new. apply triple_bind with (R := fun _ s => table_typed (here s)).
  { intros s _. exists init_entries. cbn. rewrite lookup_insert_eq. split; [done|].
    unfold init_entries. rewrite length_replicate. split; [done|]. apply Forall_replicate.
    split_and!; [apply fits_zero|apply fits_zero|by left]. }
  intros _. apply triple_bind with (R := fun _ s => table_typed (here s)).
  { intros s Hs. assert (Hf : wt (fill_stat self cal under) always) by (unfold fill_stat; typed_steps).
    specialize (Hf s Hs). by destruct (fill_stat _ _ _ s); [destruct Hf|..]. }
  intros _ s Hs. destruct (asset_manager _); [|done]. done.
Qed.
End Typed.

(** ** Histories of a driver *)

Section History.
Context {E : Type} `{Android E}.
Context (self : Z) (root : option cstr) (und : driver).
Context (under : caller -> call -> assets E -> option (reply * assets E)).

(** The states of a driver: after its constructor, after its functions, and after
    anything else that leaves its table alone. *)
Inductive driver_reachable : assets E -> Prop :=
| reach_new cal s s' :
    cwd_typed cal -> asset_new self cal under s = Ret tt s' -> driver_reachable (here s')
| reach_call cal fuel c a r a' :
    driver_reachable a -> cwd_typed cal -> asset_drive self root und cal under fuel c a = Some (r, a') -> driver_reachable a'
| reach_other a a' :
    driver_reachable a -> tables a' !! self = tables a !! self -> driver_reachable a'.

(** C13: in every state of a driver of assets, whatever functions have been called and however
    Java answers them, its table has its length and each of its entries is free, or a stream, or
    a file of the underlying driver; positions and sizes fit into [size_t], and an entry
    in use has an absolute path in normal form. *)
Theorem asset_table_typed a :
  0 <= word -> (forall cal c a r a', under cal c a = Some (r, a') -> tables a' !! self = tables a !! self) ->
  driver_reachable a -> table_typed self a.
Proof.
  intros Hw Hu. induction 1 as [cal s s' Hc Hn|cal fuel c a r a' _ IH Hc Hd|a a' _ (t & Ht & Hl) He].
  - pose proof (wt_new self cal under Hw Hu s I) as Ht. by rewrite Hn in Ht.
  - unfold asset_drive in Hd. pose proof (wt_call self root und cal under Hw Hc Hu fuel c (mk_astate a (c_errno cal)) IH) as Ht.
    destruct (asset_call _ _ _ _ _ _ _ _); [|done|done]. injection Hd as _ <-. apply Ht.
  - exists t. by rewrite He.
Qed.
End History.

(** The driver of the example after its constructor, and after an asset is opened. *)
Definition demo_made : assets machine_state :=
  match asset_new 1 demo_caller demo_under (mk_astate demo_assets 0) with Ret _ s => here s | _ => demo_assets end.

Definition demo_open_call : call := Open (Some (str "/assets/a.txt")) 0 0.

Definition demo_opened : assets machine_state :=
  match asset_drive 1 demo_root System demo_caller demo_under 0 demo_open_call demo_made with
  | Some (_, a) => a
  | None => demo_made
  end.

Lemma demo_opened_reachable : driver_reachable 1 demo_root System demo_under demo_opened.
Proof.
  assert (Hc : cwd_typed demo_caller) by (intros p [= <-]; by eexists).
  assert (Hm : driver_reachable 1 demo_root System demo_under demo_made).
  { unfold demo_made. destruct (asset_new _ _ _ _) as [[] s|e s|] eqn:E; [by eapply reach_new|exfalso..];
      vm_compute in E; discriminate. }
  unfold demo_opened. destruct (asset_drive _ _ _ _ _ _ _ _) as [[r a]|] eqn:E; [by eapply reach_call|done].
Qed.

Lemma asset_table_typed_witness :
  table_typed 1 demo_opened /\
  (e_path <$> (tables demo_opened !! 1 ≫= lookup 0%nat)) = Some (Some (str "/assets/a.txt")).
Proof.
  split; [|vm_compute; reflexivity].
  apply (asset_table_typed 1 demo_root System demo_under); [cbn; lia|by intros ? ? ? ? ? [= _ <-]|apply demo_opened_reachable].
Defined.
