(* ===== verification/AssetVfs.v ===== *)
(** * The virtual file system over its drivers

    The world of [Vfs] made of the driver of the system ([SystemDriver]) and of the drivers
    of assets ([AssetDriver]), each over the driver below it; and the composition of the
    refinement of [AssetSessions] with the functions of the virtual file system. *)

From S2P Require Import Prelude Util Paths Vfs VfsSessions SystemDriver AssetDriver AssetJava AssetSessions.
Open Scope Z_scope.
Open Scope ndk_scope.

Section World.
Context {E : Type} {L : Libc E} {A0 : Android E}.

(** The current directory of the process, whether there is a virtual machine, the address
    of a new object, and a bound on the rounds of a copy. *)
Context (cwd : E -> option cstr) (vm : E -> bool) (address : E -> gmap Z driver_t -> Z) (fuel : nat).

Definition on_system (f : sysmod * E -> option (reply * (sysmod * E))) (a : assets E) : option (reply * assets E) :=
  match f (a_sys a, env a) with
  | Some (r, (m, e)) => Some (r, mk_assets (tables a) m e)
  | None => None
  end.

(** A virtual call: [n] bounds the depth of drivers over drivers. *)
Fixpoint drive_depth (n : nat) (cal : caller) (d : driver) (c : call) (a : assets E) : option (reply * assets E) :=
  match d with
  | System => on_system (system_drive c) a
  | Mounted i =>
      match n, drivers (c_mounts cal) !! i with
      | S n, Some o =>
          asset_drive i (rootpath o) (underlying_driver o) cal (fun cal' => drive_depth n cal' (underlying_driver o)) fuel c a
      | _, _ => None
      end
  end.

(** Mounts are on earlier mounts, so that the depth is at most their number. *)
Definition depth (cal : caller) : nat := S (size (drivers (c_mounts cal))).

#[local] Instance android_world : World (assets E) := {|
  FD_TABLE_SIZE := table_entries;
  drive cal := drive_depth (depth cal) cal;
  system c := on_system (system_call_fn c);
  system_cwd a := cwd (env a);
  jvm a := vm (env a);
  new_driver a ds := address (env a) ds;
  construct cal i o a :=
    match asset_new i cal (fun cal' => drive_depth (depth cal) cal' (underlying_driver o)) (mk_astate a (c_errno cal)) with
    | Ret _ s => Some (here s)
    | _ => None
    end;
  destroy i a := asset_delete i a;
|}.

(** ** The interface of the virtual file system *)

Definition result_ok {T} (ok : T -> Prop) (c : M (astate E) T) : Prop :=
  triple (fun _ => True) c (fun x _ => ok x) (fun _ _ => True).

Lemma result_bind {T U} (c : M (astate E) T) (k : T -> M (astate E) U) ok :
  (forall x, result_ok ok (k x)) -> result_ok ok (lbind c k).
Proof.
  intros Hk. apply triple_bind with (R := fun _ _ => True); [|intros x; apply Hk].
  intros s _. by destruct (c s).
Qed.

Lemma result_ret {T} (x : T) (ok : T -> Prop) : ok x -> result_ok ok (lret x).
Proof. by intros Hx s _. Qed.

Lemma result_crash {T} (ok : T -> Prop) : result_ok ok lcrash.
Proof. done. Qed.

Ltac results :=
  repeat match goal with
  | |- result_ok _ (lbind _ _) => apply result_bind; intros ?
  | |- result_ok _ (match ?x with _ => _ end) => destruct x eqn:?
  | |- result_ok _ (lret _) => apply result_ret
  | |- result_ok _ lcrash => apply result_crash
  end; bool_to_prop; try lia.

(** A driver of assets opens a descriptor or returns -1. *)
Lemma asset_open_result i root cal under n path oflag arg :
  result_ok (fun r => -1 <= r) (a_open i root cal under n path oflag arg).
Proof. unfold a_open, open_under, open_asset, a_fail. results. Qed.

Class LibcOpen := { libc_open : forall p path oflag arg e, -1 <= ret (invoke p (Driver_call (Open path oflag arg)) e).1 }.

Lemma system_open_result {O : LibcOpen} path oflag arg a r a' :
  on_system (system_drive (Open path oflag arg)) a = Some (r, a') -> -1 <= ret r.
Proof.
  unfold on_system. cbn [system_drive]. unfold call_func, passed. destruct (init _) as [ok [m e]]. destruct ok; [|done]. cbn [negb].
  case_bool; [done|]. assert (Hc : exists o, (if Z.land oflag O_CREAT =? 0 then Open path oflag 0 else Open path oflag arg) = Open path oflag o)
    by (case_bool; by eexists).
  destruct Hc as [o ->]. pose proof (libc_open (pointer (m, e).1 (call_name (Open path oflag arg))) path oflag o (m, e).2) as Hr.
  destruct (invoke _ _ _) as [r' e']. by intros [= <- _].
Qed.

(** The drivers meet the interface that the theorems on the virtual file system need. *)
#[local] Instance android_drivers_ok {O : LibcOpen} : DriversOk android_world.
Proof.
  constructor. intros cal d path oflag arg w r w'. cbn [drive android_world]. unfold depth.
  destruct d as [|i]; [apply system_open_result|]. cbn [drive_depth]. destruct (drivers _ !! i) as [o|]; [|done].
  unfold asset_drive. cbn [asset_call]. unfold value, lbind.
  match goal with |- context [a_open i ?root cal ?under fuel path oflag arg ?s] =>
    pose proof (asset_open_result i root cal under fuel path oflag arg s I) as Hr;
    destruct (a_open i root cal under fuel path oflag arg s) end; [|done|done]. by intros [= <- _].
Qed.

(** ** Paths that do not depend on the current directory *)

Lemma canonical_cwd cwd1 cwd2 p : is_absolute p = true -> canonical cwd1 p = canonical cwd2 p.
Proof. intros Hp. unfold canonical, absolutize. rewrite Hp. by destruct p as [[|x p]|]. Qed.

Lemma canonical_text_absolute q : canonical_text q -> is_absolute (Some q) = true.
Proof. intros (p & -> & _)%canonical_fits. cbn. by rewrite bool_decide_eq_true_2. Qed.

Lemma subpath_cwd cwd1 cwd2 root q :
  is_absolute root = true -> canonical_text q -> is_subpath cwd1 root (Some q) = is_subpath cwd2 root (Some q).
Proof.
  intros Hr Hq%canonical_text_absolute. unfold is_subpath. by rewrite (canonical_cwd cwd1 cwd2 root), (canonical_cwd cwd1 cwd2 (Some q)).
Qed.

Lemma relpath_cwd cwd1 cwd2 root q :
  is_absolute root = true -> canonical_text q -> relpath cwd1 root (Some q) = relpath cwd2 root (Some q).
Proof.
  intros Hr Hq%canonical_text_absolute. unfold relpath. by rewrite (canonical_cwd cwd1 cwd2 root), (canonical_cwd cwd1 cwd2 (Some q)).
Qed.

Lemma asset_name_cwd cal1 cal2 root path n :
  is_absolute root = true -> asset_name root cal1 path n -> asset_name root cal2 path n.
Proof.
  intros Hr (q & r & Ha & Hq & Hs & Hrel & Hn). pose proof (abspath_canonical_text _ _ _ Ha Hq) as Hc.
  exists q, r. split_and!; [done| | | |done].
  - rewrite <-Hq. unfold abspath_t, absolutize. rewrite Ha. by destruct path.
  - by rewrite (subpath_cwd _ (c_cwd cal1)).
  - by rewrite (relpath_cwd _ (c_cwd cal1)).
Qed.

(** ** Steps of the specification *)

Section Steps.
Context (froot : option cstr) (fcal : caller) (used : gset nat) {OkJ : JavaOk A0}.

Lemma step_read_inv H fd d p buf count a H' :
  H !! fd = Some (d, p) -> handle_step froot fcal used H (ReadAsset fd buf count) a H' ->
  exists k, a = mk_answer k None (slice d p k) /\ 0 <= k <= count /\ p + k <= len d /\ (k = 0 -> count = 0 \/ p = len d) /\
    H' = <[fd := (d, p + k)]> H.
Proof.
  intros Hh. inversion_clear 1 as [| | |fd0 d0 p0 buf0 count0 k Hh0 Hk Hle Hz| |]. rewrite Hh in Hh0. simplify_eq. by exists k.
Qed.

Lemma step_seek_inv H fd d p offset whence a H' :
  H !! fd = Some (d, p) -> handle_step froot fcal used H (SeekAsset fd offset whence) a H' ->
  a = mk_answer (clamp 0 (len d) (seek_target p (len d) offset whence)) None [] /\
  H' = <[fd := (d, clamp 0 (len d) (seek_target p (len d) offset whence))]> H.
Proof. intros Hh. inversion_clear 1 as [| | | |fd0 d0 p0 offset0 whence0 q Hh0 ->|]. rewrite Hh in Hh0. by simplify_eq. Qed.

Lemma step_open_inv H path n a H' :
  asset_name froot fcal path n -> handle_step froot fcal used H (OpenAsset path) a H' ->
  (exists d fd, asset n = Some d /\ lowest_free used H fd /\ a = mk_answer (Z.of_nat fd) None [] /\ H' = <[fd := (d, 0)]> H) \/
  (exists d, asset n = Some d /\ table_full used H /\ a = mk_answer (-1) (Some EMFILE) [] /\ H' = H) \/
  (asset n = None /\ a = mk_answer (-1) (Some ENOENT) [] /\ H' = H).
Proof.
  intros Hn. inversion_clear 1 as [path0 n0 d fd Hn0 Hd Hfd|path0 n0 d Hn0 Hd Hf|path0 n0 Hn0 Hd| | |];
    rewrite (asset_name_unique _ _ _ _ _ Hn0 Hn) in Hd; eauto 10.
Qed.

Lemma step_close_inv H fd a H' :
  handle_step froot fcal used H (CloseAsset fd) a H' -> a = mk_answer 0 None [] /\ H' = delete fd H.
Proof. by inversion_clear 1. Qed.
End Steps.

(** ** A mount of assets over the system *)

Context {OkL : LibcOk L} {OkJ : JavaOk A0}.
Context (i : Z) (root : option cstr) (m : mounts) (others : gset nat).

(** The C library has no files below the root and does not touch the streams. *)
Class SystemOk := {
  root_absolute : is_absolute root = true;
  mount_found : drivers m !! i = Some (mk_driver root System);
  dlopen_streams : forall path e, streams (dlopen path e).2 = streams e;
  dlsym_streams : forall pc x e, streams (dlsym pc x e).2 = streams e;
  dlclose_streams : forall pc e, streams (dlclose pc e) = streams e;
  invoke_streams : forall p c e, streams (invoke p c e).2 = streams e;
  stat_missing : forall p q st e, is_subpath None root (Some q) = Some true ->
    ret (invoke p (Driver_call (Stat (Some q) st)) e).1 <> 0;
}.

Section Mounted.
Context {OkS : SystemOk}.

Lemma load_symbols_streams pc xs (st : sysmod * E) : streams (load_symbols pc xs st).2.2 = streams st.2.
Proof.
  revert st. induction xs as [|x xs IH]; intros st; [done|]. cbn. pose proof (dlsym_streams pc (str x) st.2) as Hd.
  destruct (dlsym _ _ _) as [p e]. case_bool; [done|]. by rewrite IH.
Qed.

Lemma load_optional_streams pc xs (st : sysmod * E) : streams (load_optional pc xs st).2 = streams st.2.
Proof.
  revert st. induction xs as [|x xs IH]; intros st; [done|]. cbn. pose proof (dlsym_streams pc (str x) st.2) as Hd.
  destruct (dlsym _ _ _) as [p e]. by rewrite IH.
Qed.

Lemma init_streams (st : sysmod * E) : streams (init st).2.2 = streams st.2.
Proof.
  unfold init. destruct (init_flag st.1); [done|].
  assert (Hi : streams (init_impl st).2.2 = streams st.2).
  { unfold init_impl. pose proof (dlopen_streams (str "/system/lib/libc.so") st.2) as Ho.
    destruct (dlopen _ _) as [pc e]. cbn in Ho. case_bool; [done|].
    pose proof (load_symbols_streams pc required (st.1, e)) as Hl. destruct (load_symbols _ _ _) as [ok st1]. cbn in Hl.
    destruct ok; cbn [negb]; [|by rewrite <-Ho].
    pose proof (dlsym_streams pc (str "fdatasync") st1.2) as Hd. destruct (dlsym _ _ _) as [p e1]. cbn in Hd.
    match goal with |- context [load_optional pc optional ?st2] =>
      pose proof (load_optional_streams pc optional st2) as Hp; destruct (load_optional pc optional st2) as [m3 e3] end.
    cbn in *. rewrite dlclose_streams. congruence. }
  destruct (init_impl st) as [[] st1]; done.
Qed.

(** The driver of the system as the driver below. *)
Lemma system_drive_spec c md (e : E) r md' e' :
  module_ok md -> system_drive c (md, e) = Some (r, (md', e')) -> module_ok md' /\ streams e' = streams e.
Proof.
  intros Hm. pose proof (init_streams (md, e)) as Hs. destruct (init_spec md e Hm) as (m1 & e1 & Hi & Hm1 & _).
  rewrite Hi in Hs. cbn in Hs. rewrite <-Hs.
  assert (Hcall : forall x c', call_func x c' (md, e) = Some (r, (md', e')) -> module_ok md' /\ streams e' = streams e1).
  { intros x c'. unfold call_func. rewrite Hi. cbn [negb fst snd]. case_bool; [done|].
    pose proof (invoke_streams (pointer m1 x) c' e1) as Hv. destruct (invoke _ _ _). by intros [= _ <- <-]. }
  assert (Hopt : forall x z c', call_optional x z c' (md, e) = Some (r, (md', e')) -> module_ok md' /\ streams e' = streams e1).
  { intros x z c'. unfold call_optional. rewrite Hi. cbn [negb fst snd]. case_bool; [by intros [= _ <- <-]|].
    pose proof (invoke_streams (pointer m1 x) c' e1) as Hv. destruct (invoke _ _ _). by intros [= _ <- <-]. }
  destruct c; cbn [system_drive]; apply Hcall || apply Hopt.
Qed.

Lemma drive_system n cal c a : drive_depth n cal System c a = on_system (system_drive c) a.
Proof. by destruct n. Qed.

Definition lower_calls (cal : caller) : call -> assets E -> option (reply * assets E) :=
  drive_depth (size (drivers m)) cal System.

#[local] Instance lower_empty cal : EmptyUnder i root cal lower_calls module_ok.
Proof.
  constructor; unfold lower_calls; setoid_rewrite drive_system; unfold on_system.
  - intros cal' c a r a' Hg. destruct (system_drive _ _) as [[r' [md' e']]|] eqn:Ed; [|done]. intros [= _ <-].
    by destruct (system_drive_spec _ _ _ _ _ _ Hg Ed).
  - intros cal' q st a Hg Hq Hsub. cbn [system_drive]. unfold call_func.
    destruct (init_spec (a_sys a) (env a) Hg) as (m1 & e1 & -> & _ & Hp & _). cbn [negb fst snd].
    rewrite (Hp _ (call_name_known (Stat (Some q) st))), (proj2 (Z.eqb_neq _ _)) by (by apply call_target_found).
    rewrite (subpath_cwd _ None) in Hsub by (done || apply root_absolute).
    pose proof (stat_missing (libc_target (call_name (Stat (Some q) st))) q st e1 Hsub) as Hr. cbn [passed].
    destruct (invoke _ _ _) as [r e2]. by eexists _, _.
Qed.

(** ** The table of the virtual file system *)

(** The records of the handles are those of the driver; [others] are the records in use
    for something else. *)
Record routed (t : list fd_record_t) (H V : handles) : Prop := {
  rt_record : forall fd d p, V !! fd = Some (d, p) -> exists y r, t !! fd = Some r /\ r_driver r = Some (Mounted i) /\
    r_extfd r = Z.of_nat y /\ H !! y = Some (d, p);
  rt_owner : forall y h, H !! y = Some h -> exists fd r, is_Some (V !! fd) /\ t !! fd = Some r /\ r_extfd r = Z.of_nat y;
  rt_distinct : forall fd fd' r r', is_Some (V !! fd) -> is_Some (V !! fd') -> t !! fd = Some r -> t !! fd' = Some r' ->
    r_extfd r = r_extfd r' -> fd = fd';
  rt_used : forall fd r, t !! fd = Some r -> 0 <= r_extfd r <-> in_use others V fd;
  rt_disjoint : forall fd, is_Some (V !! fd) -> fd ∉ others;
}.

Lemma routed_in_table t H V fd : routed t H V -> is_Some (V !! fd) -> (fd < length t)%nat.
Proof. intros R [[d p] Hv]. destruct (rt_record _ _ _ R _ _ _ Hv) as (y & r & Ht & _). by eapply lookup_lt_Some. Qed.

Lemma routed_open t H V fd y d path :
  routed t H V -> first_free t = Some fd -> H !! y = None ->
  routed (<[fd := mk_fd 0 (Z.of_nat y) 0 (Some (Mounted i)) path]> t) (<[y := (d, 0)]> H) (<[fd := (d, 0)]> V).
Proof.
  intros R (r0 & Hr0 & Hneg & _)%first_free_spec Hy. pose proof (lookup_lt_Some _ _ _ Hr0) as Hlt.
  assert (Hfree : ~ in_use others V fd) by (rewrite <-(rt_used _ _ _ R _ _ Hr0); lia).
  assert (Hfresh : forall fd' r, is_Some (V !! fd') -> t !! fd' = Some r -> r_extfd r <> Z.of_nat y).
  { intros fd' r [[d' p'] Hv] Ht Hx. destruct (rt_record _ _ _ R _ _ _ Hv) as (y' & r' & Ht' & _ & Hx' & Hh).
    rewrite Ht in Ht'. simplify_eq. assert (y' = y) as -> by lia. by rewrite Hy in Hh. }
  constructor.
  - intros fd' d' p' [(<- & [= <- <-])|(Hne & Hv)]%lookup_insert_Some.
    { exists y. rewrite list_lookup_insert_eq, lookup_insert_eq by done. by eexists. }
    destruct (rt_record _ _ _ R _ _ _ Hv) as (y' & r & Ht & Hd & Hx & Hh). exists y', r.
    rewrite list_lookup_insert_ne, lookup_insert_ne; [done| |done]. intros <-. by eapply (Hfresh fd').
  - intros y' h [(<- & _)|(Hne & Hh)]%lookup_insert_Some.
    { exists fd. rewrite list_lookup_insert_eq, lookup_insert_eq by done. eexists. by split; [eexists|]. }
    destruct (rt_owner _ _ _ R _ _ Hh) as (fd' & r & Hv & Ht & Hx). exists fd', r.
    assert (fd <> fd') by (intros <-; apply Hfree; by left). by rewrite list_lookup_insert_ne, lookup_insert_ne.
  - intros fd1 fd2 r1 r2 Hv1 Hv2 [(<- & <- & _)|(Hne1 & Ht1)]%list_lookup_insert_Some
      [(<- & <- & _)|(Hne2 & Ht2)]%list_lookup_insert_Some Heq; [done|..].
    + rewrite lookup_insert_ne in Hv2 by done. exfalso. by eapply (Hfresh fd2).
    + rewrite lookup_insert_ne in Hv1 by done. exfalso. by eapply (Hfresh fd1).
    + rewrite lookup_insert_ne in Hv1, Hv2 by done. by eapply (rt_distinct _ _ _ R).
  - intros fd' r [(<- & <- & _)|(Hne & Ht)]%list_lookup_insert_Some; unfold in_use.
    + rewrite lookup_insert_eq. cbn [r_extfd]. split; [by left; eexists|lia].
    + rewrite lookup_insert_ne by done. by apply (rt_used _ _ _ R).
  - intros fd' Hv Ho. destruct (decide (fd = fd')) as [<-|Hne]; [apply Hfree; by right|].
    rewrite lookup_insert_ne in Hv by done. by eapply (rt_disjoint _ _ _ R).
Qed.

Lemma routed_move t H V fd y r d p q :
  routed t H V -> V !! fd = Some (d, p) -> t !! fd = Some r -> r_extfd r = Z.of_nat y ->
  routed t (<[y := (d, q)]> H) (<[fd := (d, q)]> V).
Proof.
  intros R Hv Ht Hx.
  assert (Hsome : forall fd', is_Some (<[fd := (d, q)]> V !! fd') <-> is_Some (V !! fd')).
  { intros fd'. destruct (decide (fd = fd')) as [<-|Hne]; [|by rewrite lookup_insert_ne].
    rewrite lookup_insert_eq, Hv. split; by eexists. }
  constructor.
  - intros fd' d' p' [(<- & [= <- <-])|(Hne & Hv')]%lookup_insert_Some.
    + destruct (rt_record _ _ _ R _ _ _ Hv) as (y' & r' & Ht' & Hd & Hx' & _). rewrite Ht in Ht'. simplify_eq.
      assert (y' = y) as -> by lia. exists y, r'. by rewrite lookup_insert_eq.
    + destruct (rt_record _ _ _ R _ _ _ Hv') as (y' & r' & Ht' & Hd & Hx' & Hh'). exists y', r'.
      rewrite lookup_insert_ne; [done|]. intros ->. apply Hne. eapply (rt_distinct _ _ _ R); try done; [by eexists..|lia].
  - intros y' h [(<- & _)|(Hne & Hh)]%lookup_insert_Some.
    + exists fd, r. rewrite Hsome. by split; [eexists|].
    + destruct (rt_owner _ _ _ R _ _ Hh) as (fd' & r' & Hv' & Ht' & Hx'). exists fd', r'. by rewrite Hsome.
  - intros fd1 fd2 r1 r2. rewrite !Hsome. by eapply (rt_distinct _ _ _ R).
  - intros fd' r' Ht'. unfold in_use. rewrite Hsome. by apply (rt_used _ _ _ R).
  - intros fd'. rewrite Hsome. apply (rt_disjoint _ _ _ R).
Qed.

Lemma routed_close t H V fd y r d p :
  routed t H V -> V !! fd = Some (d, p) -> t !! fd = Some r -> r_extfd r = Z.of_nat y ->
  routed (<[fd := unused]> t) (delete y H) (delete fd V).
Proof.
  intros R Hv Ht Hx. pose proof (lookup_lt_Some _ _ _ Ht) as Hlt. constructor.
  - intros fd' d' p' [Hne Hv']%lookup_delete_Some.
    destruct (rt_record _ _ _ R _ _ _ Hv') as (y' & r' & Ht' & Hd & Hx' & Hh'). exists y', r'.
    rewrite list_lookup_insert_ne, lookup_delete_ne; [done| |done]. intros ->. apply Hne.
    eapply (rt_distinct _ _ _ R); try done; [by eexists..|lia].
  - intros y' h [Hne Hh]%lookup_delete_Some. destruct (rt_owner _ _ _ R _ _ Hh) as (fd' & r' & Hv' & Ht' & Hx').
    assert (fd <> fd') by (intros <-; rewrite Ht in Ht'; simplify_eq; apply Hne; lia).
    exists fd', r'. by rewrite list_lookup_insert_ne, lookup_delete_ne.
  - intros fd1 fd2 r1 r2 [x1 [Hne1 Hv1]%lookup_delete_Some] [x2 [Hne2 Hv2]%lookup_delete_Some].
    rewrite !list_lookup_insert_ne by done. eapply (rt_distinct _ _ _ R); by eexists.
  - intros fd' r' [(<- & <- & _)|(Hne & Ht')]%list_lookup_insert_Some; unfold in_use.
    + rewrite lookup_delete_eq. cbn. split; [done|]. intros [[? ?]|Ho]; [done|].
      destruct (rt_disjoint _ _ _ R fd); [by eexists|done].
    + rewrite lookup_delete_ne by done. by apply (rt_used _ _ _ R).
  - intros fd' [x [Hne Hv']%lookup_delete_Some]. eapply (rt_disjoint _ _ _ R). by eexists.
Qed.

(** If the table of the driver is full, so is that of the virtual file system: each
    descriptor of the driver belongs to a record. *)
Lemma routed_full t H V :
  routed t H V -> length t = table_entries -> table_full ∅ H -> table_full others V.
Proof.
  intros R Hl Hfull. assert (Hperm : Z.of_nat <$> seq 0 table_entries ≡ₚ r_extfd <$> t).
  { apply submseteq_length_Permutation; [|by rewrite !length_fmap, length_seq, Hl].
    apply NoDup_submseteq; [apply NoDup_fmap_2; [intros ? ?; lia|apply NoDup_ListNoDup, seq_NoDup]|].
    intros x (y & -> & Hy%list_elem_of_In%in_seq)%list_elem_of_fmap.
    destruct (Hfull y ltac:(lia)) as [[h Hh]|He]; [|set_solver].
    destruct (rt_owner _ _ _ R _ _ Hh) as (fd & r & _ & Ht & <-). apply list_elem_of_fmap_2. by eapply list_elem_of_lookup_2. }
  intros fd Hfd. rewrite <-Hl in Hfd. destruct (lookup_lt_is_Some_2 _ _ Hfd) as [r Hr]. apply (rt_used _ _ _ R _ _ Hr).
  assert (Hx : r_extfd r ∈ Z.of_nat <$> seq 0 table_entries).
  { rewrite Hperm. apply list_elem_of_fmap_2. by eapply list_elem_of_lookup_2. }
  apply list_elem_of_fmap in Hx as (y & -> & _). lia.
Qed.

(** ** Sessions of the virtual file system *)

Abbreviation V := (vfs (assets E)).

(** The state of the virtual file system implements the handles. *)
Definition vfs_implements (s : V) (h : handles) : Prop :=
  v_mounts s = m /\ length (fd_table s) = table_entries /\
  exists H, implements i ∅ module_ok (world s) H /\ routed (fd_table s) H h.

(** A virtual call of the driver. *)
Lemma virtual_mounted (s : V) c r a' :
  v_mounts s = m -> asset_drive i root System (caller_of s) lower_calls fuel c (world s) = Some (r, a') ->
  virtual (Some (Mounted i)) c s = Ret r (set_world r a' s).
Proof.
  intros Hm Hd. unfold virtual. cbv zeta. rewrite Hm, mount_found, bool_decide_eq_true_2 by done.
  cbn [drive android_world]. unfold depth. cbn [drive_depth caller_of c_mounts]. rewrite Hm, mount_found.
  cbn [rootpath underlying_driver]. fold lower_calls. by rewrite Hd.
Qed.

Lemma resolve_record (s : V) fd r :
  length (fd_table s) = table_entries -> fd_table s !! fd = Some r -> resolve (Z.of_nat fd) s = Ret (Some r) s.
Proof.
  intros Hl Hr. pose proof (lookup_lt_Some _ _ _ Hr) as Hlt. unfold resolve. cbn [FD_TABLE_SIZE android_world].
  rewrite (proj2 (Z.ltb_ge (Z.of_nat fd) 0)), (proj2 (Z.ltb_ge _ (Z.of_nat fd))) by lia. cbn [orb].
  unfold lbind, lread. by rewrite Nat2Z.id, Hr.
Qed.

(** A function of a descriptor is the function of the driver. *)
Lemma on_fd_mounted (s : V) h fd d p (x : nat -> action) :
  vfs_implements s h -> h !! fd = Some (d, p) ->
  (forall H y, h !! fd = H !! y -> legal root (caller_of s) H (x y)) ->
  exists H y r a' H' rec, routed (fd_table s) H h /\ H !! y = Some (d, p) /\ fd_table s !! fd = Some rec /\
    r_driver rec = Some (Mounted i) /\ r_extfd rec = Z.of_nat y /\ resolve (Z.of_nat fd) s = Ret (Some rec) s /\
    asset_drive i root System (caller_of s) lower_calls fuel (call_of (x y)) (world s) = Some (r, a') /\
    handle_step root (caller_of s) ∅ H (x y) (answer_of (x y) r a') H' /\ implements i ∅ module_ok a' H'.
Proof.
  intros (Hm & Hl & H & Hi & R) Hv Hlegal. destruct (rt_record _ _ _ R _ _ _ Hv) as (y & rec & Ht & Hd & Hx & Hh).
  destruct (action_refines i root System (caller_of s) lower_calls fuel ∅ module_ok H (x y) (world s) Hi) as (r & a' & H' & Hdr & Hst & Hi').
  { apply Hlegal. by rewrite Hv, Hh. }
  exists H, y, r, a', H', rec. split_and!; try done. by apply resolve_record.
Qed.

(** The functions of the actions, and what a client sees of them. *)
Definition vfs_action (x : action) : M V Z :=
  match x with
  | OpenAsset path => open (Some path) 0 0
  | ReadAsset fd buf count => read (Z.of_nat fd) buf count
  | SeekAsset fd offset whence => lseek64 (Z.of_nat fd) offset whence
  | CloseAsset fd => close (Z.of_nat fd)
  end.

Definition vfs_answer (x : action) (v : Z) (s : V) : answer :=
  mk_answer v (if v =? -1 then Some (errno s) else None)
    (match x with ReadAsset _ buf _ => memory (env (world s)) buf (Z.to_nat v) | _ => [] end).

Fixpoint vfs_session (xs : list action) : M V (list answer) :=
  match xs with
  | [] => lret []
  | x :: xs =>
      let* v := vfs_action x in
      let* s := lget in
      let* rs := vfs_session xs in lret (vfs_answer x v s :: rs)
  end.

Definition nowhere : caller := mk_caller m None 0.

Abbreviation vstep := (handle_step root nowhere others).

Lemma read_refines (s : V) h fd buf count :
  vfs_implements s h -> is_Some (h !! fd) -> 0 <= count <= heap_limit ->
  exists v s' h', read (Z.of_nat fd) buf count s = Ret v s' /\
    vstep h (ReadAsset fd buf count) (vfs_answer (ReadAsset fd buf count) v s') h' /\ vfs_implements s' h'.
Proof.
  intros Hs [[d p] Hv] Hc.
  destruct (on_fd_mounted s h fd d p (fun y => ReadAsset y buf count) Hs Hv)
    as (H & y & r & a' & H' & rec & R & Hh & Ht & Hd & Hx & Hres & Hdr & Hst & Hi).
  { intros H y Hy. rewrite Hv in Hy. cbn. by rewrite <-Hy. }
  destruct (step_read_inv _ _ _ _ _ _ _ _ _ _ _ Hh Hst) as (k & Ha & Hk & Hle & Hz & ->).
  injection Ha as <- _ Hb. destruct Hs as (Hm & Hl & _). unfold read, on_fd.
  rewrite (lbind_step _ _ _ _ _ Hres), Hd, Hx, (lbind_step _ _ _ _ _ (virtual_mounted _ _ _ _ Hm Hdr)).
  eexists _, _, _. split; [done|]. split.
  - unfold vfs_answer. cbn [set_world world]. rewrite (proj2 (Z.eqb_neq _ (-1))), Hb by lia. by apply step_read.
  - split_and!; [done|done|]. eexists. split; [done|]. cbn. by eapply routed_move.
Qed.

Lemma seek_refines (s : V) h fd d p offset whence :
  vfs_implements s h -> h !! fd = Some (d, p) -> - 2 ^ 63 < offset < 2 ^ 63 - 2 ^ 31 -> (whence = SEEK_CUR -> 0 <= p + offset) ->
  exists v s' h', lseek64 (Z.of_nat fd) offset whence s = Ret v s' /\
    vstep h (SeekAsset fd offset whence) (vfs_answer (SeekAsset fd offset whence) v s') h' /\ vfs_implements s' h'.
Proof.
  intros Hs Hv Ho Hcur.
  destruct (on_fd_mounted s h fd d p (fun y => SeekAsset y offset whence) Hs Hv)
    as (H & y & r & a' & H' & rec & R & Hh & Ht & Hd & Hx & Hres & Hdr & Hst & Hi).
  { intros H y Hy. rewrite Hv in Hy. cbn. by exists d, p. }
  destruct (step_seek_inv _ _ _ _ _ _ _ _ _ _ _ Hh Hst) as (Ha & ->).
  injection Ha as Hq _. destruct Hs as (Hm & Hl & _). unfold lseek64, on_fd.
  rewrite (lbind_step _ _ _ _ _ Hres), Hd, Hx, (lbind_step _ _ _ _ _ (virtual_mounted _ _ _ _ Hm Hdr)).
  eexists _, _, _. split; [done|]. rewrite Hq. split.
  - unfold vfs_answer. rewrite (proj2 (Z.eqb_neq _ (-1))) by (unfold clamp; lia). by eapply step_seek.
  - split_and!; [done|done|]. eexists. split; [done|]. cbn. by eapply routed_move.
Qed.

Lemma close_refines (s : V) h fd :
  vfs_implements s h -> is_Some (h !! fd) ->
  exists v s' h', close (Z.of_nat fd) s = Ret v s' /\
    vstep h (CloseAsset fd) (vfs_answer (CloseAsset fd) v s') h' /\ vfs_implements s' h'.
Proof.
  intros Hs [[d p] Hv].
  destruct (on_fd_mounted s h fd d p CloseAsset Hs Hv)
    as (H & y & r & a' & H' & rec & R & Hh & Ht & Hd & Hx & Hres & Hdr & Hst & Hi).
  { intros H y Hy. rewrite Hv in Hy. cbn. by rewrite <-Hy. }
  apply step_close_inv in Hst as (Ha & ->). injection Ha as Hq _. destruct Hs as (Hm & Hl & _).
  pose proof (lookup_lt_Some _ _ _ Ht) as Hlt. unfold close. rewrite (lbind_step _ _ _ _ _ Hres).
  assert (Hf : free_fd (Z.of_nat fd) s = Ret tt (release fd s)).
  { unfold free_fd. cbn [FD_TABLE_SIZE android_world].
    rewrite (proj2 (Z.ltb_ge (Z.of_nat fd) 0)), (proj2 (Z.ltb_ge _ (Z.of_nat fd))) by lia. cbn [orb].
    unfold lbind, lread. rewrite Nat2Z.id, Ht, (proj2 (Z.ltb_ge _ 0)) by lia. done. }
  rewrite (lbind_step _ _ _ _ _ Hf), Hd, Hx.
  rewrite (lbind_step _ _ _ _ _ (virtual_mounted (release fd s) _ _ _ Hm Hdr)).
  eexists _, _, _. split; [done|]. rewrite Hq. split; [by eapply step_close|].
  split_and!; [done|by cbn; rewrite length_insert|]. eexists. split; [done|]. cbn. by eapply routed_close.
Qed.

(** The path of an asset leads to the mount. *)
Definition path_routed (path : cstr) : Prop :=
  exists q, abspath_t None (Some path) = Some (Some q) /\ find_prefix m (rev (mount_table m)) q = Some (Mounted i).

Lemma abspath_absolute (s : V) path q :
  is_absolute (Some path) = true -> abspath_t None (Some path) = Some (Some q) -> abspath (Some path) s = Ret (Some q) s.
Proof.
  intros Ha Hq. destruct path as [|c path]; [done|]. unfold abspath. rewrite Ha. unfold abspath_t in Hq. by rewrite Hq.
Qed.

Lemma find_driver_mounted (s : V) path :
  v_mounts s = m -> is_absolute (Some path) = true -> path_routed path -> find_driver (Some path) s = Ret (Some (Mounted i)) s.
Proof.
  intros Hm Ha (q & Hq & Hf). pose proof (abspath_absolute s path q Ha Hq) as Habs.
  destruct path as [|c path]; [done|]. unfold find_driver. unfold lbind at 1, lget. rewrite Hm.
  destruct (mount_table m) as [|j ids] eqn:Em; [done|]. rewrite (lbind_step _ _ _ _ _ Habs).
  unfold lbind, lread. by rewrite Hm, Hf.
Qed.

(** The answer of the driver, as the virtual file system sees it. *)
Lemma open_driver (s : V) h path n :
  vfs_implements s h -> asset_name root nowhere path n ->
  exists H r a' H', implements i ∅ module_ok (world s) H /\ routed (fd_table s) H h /\
    virtual (Some (Mounted i)) (Open (Some path) 0 0) s = Ret r (set_world r a' s) /\
    handle_step root (caller_of s) ∅ H (OpenAsset path) (answer_of (OpenAsset path) r a') H' /\ implements i ∅ module_ok a' H'.
Proof.
  intros (Hm & Hl & H & Hi & R) Hn. apply (asset_name_cwd _ (caller_of s)) in Hn; [|apply root_absolute].
  destruct (action_refines i root System (caller_of s) lower_calls fuel ∅ module_ok H (OpenAsset path) (world s) Hi)
    as (r & a' & H' & Hdr & Hst & Hi'); [by exists n|].
  exists H, r, a', H'. split_and!; try done. by apply virtual_mounted.
Qed.

Lemma alloc_free (s : V) path q e fd :
  is_absolute (Some path) = true -> abspath_t None (Some path) = Some (Some q) -> first_free (fd_table s) = Some fd ->
  exists top, alloc_fd (Some path) e (Mounted i) s =
    Ret (Z.of_nat fd) (set_table (<[fd := mk_fd 0 e 0 (Some (Mounted i)) (Some q)]> (fd_table s)) top s).
Proof.
  intros Ha Hq Hf. unfold alloc_fd. unfold lbind at 1, lget. rewrite Hf.
  rewrite (lbind_step _ _ _ _ _ (abspath_absolute s path q Ha Hq)). by eexists.
Qed.

Lemma first_free_none t r fd : first_free t = None -> t !! fd = Some r -> 0 <= r_extfd r.
Proof.
  revert fd. induction t as [|r' t IH]; intros fd; [done|]. cbn. case_bool; [done|].
  destruct (first_free t); [done|]. intros _. destruct fd as [|fd]; [|by apply IH]. by intros [= <-].
Qed.

Lemma routed_lowest t H h fd :
  routed t H h -> length t = table_entries -> first_free t = Some fd -> lowest_free others h fd.
Proof.
  intros R Hl (r & Hr & Hneg & Hlow)%first_free_spec. pose proof (lookup_lt_Some _ _ _ Hr). split; [lia|].
  rewrite <-(rt_used _ _ _ R _ _ Hr). split; [lia|]. intros fd' Hlt.
  destruct (lookup_lt_is_Some_2 t fd') as [r' Hr']; [lia|]. apply (rt_used _ _ _ R _ _ Hr'). by eapply Hlow.
Qed.

(** The record of a descriptor that the driver has opened, or none: then the descriptor
    is closed again. *)
Lemma open_record (s : V) h H path q n d y :
  v_mounts s = m -> length (fd_table s) = table_entries -> is_absolute (Some path) = true ->
  abspath_t None (Some path) = Some (Some q) -> asset_name root nowhere path n -> asset n = Some d ->
  implements i ∅ module_ok (world s) (<[y := (d, 0)]> H) -> H !! y = None -> routed (fd_table s) H h ->
  exists v s' h', (let* fd := alloc_fd (Some path) (Z.of_nat y) (Mounted i) in
      if fd <? 0 then (do* virtual (Some (Mounted i)) (Close (Z.of_nat y)) in failure EMFILE) else lret fd) s = Ret v s' /\
    vstep h (OpenAsset path) (vfs_answer (OpenAsset path) v s') h' /\ vfs_implements s' h'.
Proof.
  intros Hm Hl Ha Hq Hn Hd Hi Hy R. destruct (first_free (fd_table s)) as [fd|] eqn:Ef.
  - destruct (alloc_free s path q (Z.of_nat y) fd Ha Hq Ef) as [top Hal]. rewrite (lbind_step _ _ _ _ _ Hal).
    rewrite (proj2 (Z.ltb_ge (Z.of_nat fd) 0)) by lia. eexists _, _, _. split; [done|]. split.
    + unfold vfs_answer. rewrite (proj2 (Z.eqb_neq _ (-1))) by lia. eapply step_open; [done|done|by eapply routed_lowest].
    + split_and!; [done|by cbn; rewrite length_insert|]. eexists. split; [done|]. cbn. by apply routed_open.
  - assert (Hal : alloc_fd (Some path) (Z.of_nat y) (Mounted i) s = Ret (-1) s) by (unfold alloc_fd, lbind, lget; by rewrite Ef).
    rewrite (lbind_step _ _ _ _ _ Hal). cbn [Z.ltb Z.compare].
    destruct (action_refines i root System (caller_of s) lower_calls fuel ∅ module_ok (<[y := (d, 0)]> H) (CloseAsset y) (world s) Hi)
      as (r & a' & H' & Hdr & Hst & Hi'); [by eexists; rewrite lookup_insert_eq|].
    apply step_close_inv in Hst as (_ & ->). rewrite delete_insert_id in Hi' by done.
    rewrite (lbind_step _ _ _ _ _ (virtual_mounted s _ _ _ Hm Hdr)). eexists _, _, h. split; [done|]. split.
    + eapply step_full; [done|done|]. intros fd Hfd. rewrite <-Hl in Hfd.
      destruct (lookup_lt_is_Some_2 _ _ Hfd) as [rec Hr]. apply (rt_used _ _ _ R _ _ Hr). by eapply first_free_none.
    + split_and!; [done|done|]. by exists H.
Qed.

Lemma lowest_free_fresh used (h : handles) fd : lowest_free used h fd -> h !! fd = None.
Proof. intros (_ & Hu & _). destruct (h !! fd) eqn:Eh; [|done]. destruct Hu. left. by eexists. Qed.

Lemma open_refines (s : V) h path n :
  vfs_implements s h -> asset_name root nowhere path n -> path_routed path ->
  exists v s' h', open (Some path) 0 0 s = Ret v s' /\
    vstep h (OpenAsset path) (vfs_answer (OpenAsset path) v s') h' /\ vfs_implements s' h'.
Proof.
  intros Hs Hn Hp. pose proof Hs as (Hm & Hl & _). pose proof Hn as (q & r0 & Ha & Hq & _). cbn [c_cwd nowhere] in Hq.
  destruct (open_driver s h path n Hs Hn) as (H & r & a' & H' & Hi & R & Hvirt & Hst & Hi').
  unfold open. rewrite (lbind_step _ _ _ _ _ (find_driver_mounted s path Hm Ha Hp)), (lbind_step _ _ _ _ _ Hvirt).
  pose proof (asset_name_cwd _ (caller_of s) _ _ _ root_absolute Hn) as Hn'.
  destruct (step_open_inv _ _ _ _ _ _ _ _ Hn' Hst) as
    [(d & y & Hd & Hy & Ea & ->)|[(d & Hd & Hf & Ea & ->)|(Hd & Ea & ->)]]; injection Ea as Er Ee; rewrite Er in *.
  - rewrite (proj2 (Z.eqb_neq _ (-1))) by lia. eapply open_record; try done. by eapply lowest_free_fresh.
  - cbn in Ee. eexists _, _, h. split; [done|]. split.
    + unfold vfs_answer. cbn. rewrite Ee. eapply step_full; try done. by eapply routed_full.
    + split_and!; [done|done|]. by exists H.
  - cbn in Ee. eexists _, _, h. split; [done|]. split.
    + unfold vfs_answer. cbn. rewrite Ee. by eapply step_missing.
    + split_and!; [done|done|]. by exists H.
Qed.

(** ** Sessions *)

Definition vfs_legal (h : handles) (x : action) : Prop :=
  legal root nowhere h x /\ match x with OpenAsset path => path_routed path | _ => True end.

Fixpoint vfs_legal_session (h : handles) (xs : list action) : Prop :=
  match xs with
  | [] => True
  | x :: xs => vfs_legal h x /\ forall r h', vstep h x r h' -> vfs_legal_session h' xs
  end.

Lemma vfs_action_refines (s : V) h x :
  vfs_implements s h -> vfs_legal h x ->
  exists v s' h', vfs_action x s = Ret v s' /\ vstep h x (vfs_answer x v s') h' /\ vfs_implements s' h'.
Proof.
  intros Hs [Hx Hp]. destruct x as [path|fd buf count|fd offset whence|fd]; cbn in Hx.
  - destruct Hx as [n Hn]. by eapply open_refines.
  - destruct Hx. by apply read_refines.
  - destruct Hx as (d & p & Hv & Ho & Hc). by eapply seek_refines.
  - by apply close_refines.
Qed.

End Mounted.
End World.

(** ** An example *)

(** A C library without files but the directory of the libraries. *)
#[local] Instance demo_system : Libc machine_state := {|
  dlopen _ e := (1, e);
  dlsym _ _ e := (1, e);
  dlclose _ e := e;
  invoke _ c e :=
    (mk_reply (match c with
               | Driver_call (Stat path _) => if bool_decide (path = Some (str "/data/data/app/lib")) then 0 else -1
               | _ => 0
               end) 0 None, e);
|}.

#[local, refine] Instance demo_system_ok : LibcOk demo_system := {| sym _ := 1; |}.
Proof. all: done. Defined.

#[local] Instance demo_android_world : World (assets machine_state) :=
  android_world (fun _ => Some (str "/")) (fun _ => true) (fun _ => next_key) 0.

(** The process after [mount] of the assets. *)
Definition demo_process : vfs (assets machine_state) :=
  let s := vfs_initial (mk_assets ∅ sysmod_start (mk_machine ∅ ∅)) in
  match mount (Some dev_assets) (Some (str "/assets")) None 0 0 s with Ret _ s => s | _ => s end.

Definition demo_mounts : mounts := mk_mounts {[ 1 := mk_driver demo_root System ]} [1].

Definition demo_standard : gset nat := {[ 0; 1; 2 ]}%nat.

Definition demo_reads : list action :=
  [OpenAsset (str "/assets/./a.txt"); ReadAsset 3 500 5; SeekAsset 3 (-5) SEEK_END; ReadAsset 3 600 100; CloseAsset 3].

#[local] Instance demo_mount_ok : SystemOk 1 demo_root demo_mounts.
Proof.
  constructor; try done. intros p q st e Hq. cbn. case_bool_decide as Hc; [|done]. injection Hc as ->. by vm_compute in Hq.
Qed.

Lemma demo_process_world :
  tables (world demo_process) !! 1 = Some (replicate 4 free_entry) /\ streams (env (world demo_process)) = ∅ /\
  init_flag (a_sys (world demo_process)) = true /\ v_mounts demo_process = demo_mounts /\
  fd_table demo_process = map standard (seq 0 3) ++ [unused].
Proof. vm_compute. done. Qed.

Lemma demo_used fd r :
  (map standard (seq 0 3) ++ [unused]) !! fd = Some r -> 0 <= r_extfd r <-> in_use demo_standard ∅ fd.
Proof.
  unfold in_use, demo_standard. rewrite !elem_of_union, !elem_of_singleton, lookup_empty.
  destruct fd as [|[|[|[|fd]]]]; cbn; intros Hr; try discriminate Hr; injection Hr as <-; cbn.
  - split; [naive_solver|lia].
  - split; [naive_solver|lia].
  - split; [naive_solver|lia].
  - split; [lia|]. intros [[? Hx]|Ho]; [discriminate Hx|lia].
Qed.

Lemma demo_vfs_implements : vfs_implements 1 demo_mounts demo_standard demo_process ∅.
Proof.
  destruct demo_process_world as (Ht & Hs & Hi & Hm & Hf). split; [done|]. split; [by rewrite Hf|].
  exists ∅. split; [split|].
  - intros _. apply (list.Forall_forall (fun x => pointer (a_sys (world demo_process)) x = libc_target x) known).
    apply (bool_decide_unpack _). vm_compute. done.
  - exists (replicate 4 free_entry). rewrite Hs. split; [done|]. apply related_new.
  - rewrite Hf. constructor.
    + intros fd d p Hv. by rewrite lookup_empty in Hv.
    + intros y h Hh. by rewrite lookup_empty in Hh.
    + intros fd fd' r r' [? Hv]. by rewrite lookup_empty in Hv.
    + apply demo_used.
    + intros fd [? Hv]. by rewrite lookup_empty in Hv.
Qed.

Definition demo_file (p : Z) : handles := {[ 3%nat := (str "Hello, world", p) ]}.

Lemma demo_file_open r h :
  handle_step demo_root (nowhere demo_mounts) demo_standard ∅ (OpenAsset (str "/assets/./a.txt")) r h -> h = demo_file 0.
Proof.
  assert (H3 : ~ in_use demo_standard ∅ 3) by (intros [[? Hv]|?]; [by rewrite lookup_empty in Hv|set_solver]).
  assert (Hn : asset_name demo_root (nowhere demo_mounts) (str "/assets/./a.txt") (str "a.txt"))
    by (eapply (asset_name_cwd demo_caller); [done|apply demo_name_a]).
  intros [(d & fd & [= <-] & (Hlt & Hu & Hlow) & _ & ->)|[(d & _ & Hf & _)|(Hd & _)]]%(step_open_inv _ _ _ _ _ _ _ _ Hn).
  - cbn in Hlt. destruct fd as [|[|[|[|fd]]]]; [exfalso; apply Hu; right; set_solver..|done|lia].
  - destruct H3. apply Hf. cbn. lia.
  - done.
Qed.

Lemma demo_file_step p x r h :
  handle_step demo_root (nowhere demo_mounts) demo_standard (demo_file p) x r h ->
  match x with ReadAsset _ _ _ | SeekAsset _ _ _ => exists q, h = demo_file q | _ => True end.
Proof.
  unfold demo_file. inversion_clear 1 as [| | |fd d p0 buf count k Hh|fd d p0 offset whence q Hh|]; [done..| | |done];
    apply lookup_singleton_Some in Hh as [<- [= <- <-]]; eexists; apply insert_singleton_eq.
Qed.

Lemma demo_reads_legal : vfs_legal_session 1 demo_root demo_mounts demo_standard ∅ demo_reads.
Proof.
  split.
  { split; [eexists; eapply (asset_name_cwd demo_caller); [done|apply demo_name_a]|]. eexists. split; vm_compute; reflexivity. }
  intros r0 h0 ->%demo_file_open.
  split; [split; [split; [by eexists|cbn; lia]|done]|]. intros r1 h1 [p ->]%demo_file_step.
  split; [split; [by exists (str "Hello, world"), p|done]|]. intros r2 h2 [q ->]%demo_file_step.
  split; [split; [split; [by eexists|cbn; lia]|done]|]. intros r3 h3 [q' ->]%demo_file_step.
  split; [split; [by eexists|done]|]. done.
Qed.


(** The same session by evaluation. *)
Example demo_reads_answers :
  match vfs_session (fun _ => Some (str "/")) (fun _ => true) (fun _ => next_key) 0 demo_reads demo_process with
  | Ret rs _ => rs
  | _ => []
  end = [mk_answer 3 None []; mk_answer 5 None (str "Hello"); mk_answer 7 None []; mk_answer 5 None (str "world");
         mk_answer 0 None []].
Proof. vm_compute. reflexivity. Qed.
