(* ===== verification/AppGlue.v ===== *)
(** * The two threads of an application with native_app_glue
    ([android_native_app_glue.c], [android_native_app_glue.h])

    The glue runs the code of an application ([android_main]) on a thread of its
    own.  The callbacks of the activity run on the main thread; each one leaves a
    command in a pipe, and most wait on a condition variable until the thread of the
    application has taken the command.

    The two threads are modelled statement by statement.  A function of the source
    is the list of its [instr]uctions; a step runs one of them on either thread, and
    every interleaving is possible.  Each instruction is an access to the structure
    [android_app], to the mutex, to the condition variable or to the pipe.  The
    mutex has an owner; a thread that waits on the condition gives the mutex up and
    sleeps until a broadcast, or wakes up for no reason; the pipe has a capacity and
    a write to a full pipe blocks.

    What the platform and the application do is the class [Platform]; the code of
    the application polls its looper, processes what it finds and returns from
    [android_main] once [destroyRequested] is set. *)

From coqutil Require Import Datatypes.RecordSetters.
From S2P Require Import Prelude.
Import TriangleBracketNotations.

#[global] Arguments constant {E} newValue _ /.

(** ** Commands *)

Definition APP_CMD_INPUT_CHANGED : Z := 0.
Definition APP_CMD_INIT_WINDOW : Z := 1.
Definition APP_CMD_TERM_WINDOW : Z := 2.
Definition APP_CMD_WINDOW_RESIZED : Z := 3.
Definition APP_CMD_WINDOW_REDRAW_NEEDED : Z := 4.
Definition APP_CMD_CONTENT_RECT_CHANGED : Z := 5.
Definition APP_CMD_GAINED_FOCUS : Z := 6.
Definition APP_CMD_LOST_FOCUS : Z := 7.
Definition APP_CMD_CONFIG_CHANGED : Z := 8.
Definition APP_CMD_LOW_MEMORY : Z := 9.
Definition APP_CMD_START : Z := 10.
Definition APP_CMD_RESUME : Z := 11.
Definition APP_CMD_SAVE_STATE : Z := 12.
Definition APP_CMD_PAUSE : Z := 13.
Definition APP_CMD_STOP : Z := 14.
Definition APP_CMD_DESTROY : Z := 15.

(** ** The shared structure

    Pointers to windows, input queues and blocks of memory are numbers, 0 is NULL.
    The members that the glue never reads (the rectangles, [redrawNeeded]) are left
    out; the mutex and the pipe are part of the state below. *)

Record android_app (U : Type) := mk_app {
  userData : U;
  config : option Z;
  savedState : Z;
  savedStateSize : Z;
  looper : bool;
  inputQueue : Z;
  window : Z;
  activityState : Z;
  destroyRequested : bool;
  running : bool;
  stateSaved : bool;
  destroyed : bool;
  pendingInputQueue : Z;
  pendingWindow : Z
}.
Arguments mk_app {U}.
Arguments userData {U} _.
Arguments config {U} _.
Arguments savedState {U} _.
Arguments savedStateSize {U} _.
Arguments looper {U} _.
Arguments inputQueue {U} _.
Arguments window {U} _.
Arguments activityState {U} _.
Arguments destroyRequested {U} _.
Arguments running {U} _.
Arguments stateSaved {U} _.
Arguments destroyed {U} _.
Arguments pendingInputQueue {U} _.
Arguments pendingWindow {U} _.

(** The rest of the memory: the object while it exists, the blocks of saved state on
    the heap, those given to the framework, the input queues attached to the looper,
    the configuration that the asset manager describes.  The last three are
    histories: what the handler of the application saved, what [onSaveInstanceState]
    returned, and the input events that were finished, with their answers. *)
Record store (U : Type) := mk_store {
  app : option (android_app U);
  heap : gmap Z cstr;
  next_block : Z;
  given : list Z;
  attached : list Z;
  assets : Z;
  saves : list (option cstr);
  handed : list (option cstr);
  finished : list (Z * Z)
}.
Arguments mk_store {U}.
Arguments app {U} _.
Arguments heap {U} _.
Arguments next_block {U} _.
Arguments given {U} _.
Arguments attached {U} _.
Arguments assets {U} _.
Arguments saves {U} _.
Arguments handed {U} _.
Arguments finished {U} _.

(** ** Instructions *)

Inductive thread := Main | App.

(** The conditions of the [while] loops around [pthread_cond_wait]. *)
Inductive waiting_for :=
| not_running
| input_pending
| window_pending
| state_not (cmd : Z)
| not_saved
| not_destroyed.

Inductive instr :=
(* both threads *)
| Lock
| Unlock
| Broadcast
| FreeSavedState
(* the thread of the application *)
| DetachInput
| TakeInput
| AttachInput
| TakeWindow
| ClearWindow
| SetActivityState (cmd : Z)
| LoadConfig
| SetDestroyRequested
| OnAppCmd (cmd : Z)
| SetStateSaved
| NewConfig
| SetLooper
| SetRunning
| DeleteConfig
| SetDestroyed
(* the main thread *)
| NewApp
| CopySavedState (bytes : cstr)
| MakePipe
| CreateThread
| WaitWhile (b : waiting_for)
| WriteCmd (cmd : Z)
| SetPendingInput (queue : Z)
| TermWindow
| SetPendingWindow (w : Z)
| ClearStateSaved
| TakeSavedState
| ClosePipe
| FreeApp.

(** ** The functions of the thread of the application *)

Definition free_saved_state : list instr := [Lock; FreeSavedState; Unlock].

(** What [android_app_read_cmd] does after it has read [cmd]. *)
Definition android_app_read_cmd (cmd : Z) : list instr :=
  if cmd =? APP_CMD_SAVE_STATE then free_saved_state else [].

Definition android_app_pre_exec_cmd (cmd : Z) : list instr :=
  if cmd =? APP_CMD_INPUT_CHANGED then
    [Lock; DetachInput; TakeInput; AttachInput; Broadcast; Unlock]
  else if cmd =? APP_CMD_INIT_WINDOW then
    [Lock; TakeWindow; Broadcast; Unlock]
  else if cmd =? APP_CMD_TERM_WINDOW then
    [Broadcast]
  else if (cmd =? APP_CMD_RESUME) || (cmd =? APP_CMD_START) || (cmd =? APP_CMD_PAUSE)
          || (cmd =? APP_CMD_STOP) then
    [Lock; SetActivityState cmd; Broadcast; Unlock]
  else if cmd =? APP_CMD_CONFIG_CHANGED then
    [LoadConfig]
  else if cmd =? APP_CMD_DESTROY then
    [SetDestroyRequested]
  else [].

Definition android_app_post_exec_cmd (cmd : Z) : list instr :=
  if cmd =? APP_CMD_TERM_WINDOW then
    [Lock; ClearWindow; Broadcast; Unlock]
  else if cmd =? APP_CMD_SAVE_STATE then
    [Lock; SetStateSaved; Broadcast; Unlock]
  else if cmd =? APP_CMD_RESUME then
    free_saved_state
  else [].

Definition process_cmd (cmd : Z) : list instr :=
  android_app_read_cmd cmd ++ android_app_pre_exec_cmd cmd ++ [OnAppCmd cmd]
    ++ android_app_post_exec_cmd cmd.

Definition android_app_destroy : list instr :=
  free_saved_state ++ [Lock; DetachInput; DeleteConfig; SetDestroyed; Broadcast; Unlock].

(** [android_app_entry] up to the call of [android_main]. *)
Definition android_app_entry : list instr :=
  [NewConfig; LoadConfig; SetLooper; Lock; SetRunning; Broadcast; Unlock].

(** ** The functions of the main thread *)

Definition android_app_create (saved : option cstr) : list instr :=
  [NewApp]
    ++ match saved with Some bytes => [CopySavedState bytes] | None => [] end
    ++ [MakePipe; CreateThread; Lock; WaitWhile not_running; Unlock].

Definition android_app_write_cmd (cmd : Z) : list instr := [WriteCmd cmd].

Definition android_app_set_input (queue : Z) : list instr :=
  [Lock; SetPendingInput queue] ++ android_app_write_cmd APP_CMD_INPUT_CHANGED
    ++ [WaitWhile input_pending; Unlock].

Definition android_app_set_window (w : Z) : list instr :=
  [Lock; TermWindow; SetPendingWindow w]
    ++ (if w =? 0 then [] else android_app_write_cmd APP_CMD_INIT_WINDOW)
    ++ [WaitWhile window_pending; Unlock].

Definition android_app_set_activity_state (cmd : Z) : list instr :=
  [Lock] ++ android_app_write_cmd cmd ++ [WaitWhile (state_not cmd); Unlock].

Definition android_app_free : list instr :=
  [Lock] ++ android_app_write_cmd APP_CMD_DESTROY ++ [WaitWhile not_destroyed; Unlock; ClosePipe; FreeApp].

Definition onDestroy : list instr := android_app_free.

Definition onStart : list instr := android_app_set_activity_state APP_CMD_START.

Definition onResume : list instr := android_app_set_activity_state APP_CMD_RESUME.

Definition onSaveInstanceState : list instr :=
  [Lock; ClearStateSaved] ++ android_app_write_cmd APP_CMD_SAVE_STATE
    ++ [WaitWhile not_saved; TakeSavedState; Unlock].

Definition onPause : list instr := android_app_set_activity_state APP_CMD_PAUSE.

Definition onStop : list instr := android_app_set_activity_state APP_CMD_STOP.

Definition onConfigurationChanged : list instr := android_app_write_cmd APP_CMD_CONFIG_CHANGED.

Definition onLowMemory : list instr := android_app_write_cmd APP_CMD_LOW_MEMORY.

Definition onWindowFocusChanged (focused : bool) : list instr :=
  android_app_write_cmd (if focused then APP_CMD_GAINED_FOCUS else APP_CMD_LOST_FOCUS).

Definition onNativeWindowCreated (w : Z) : list instr := android_app_set_window w.

Definition onNativeWindowDestroyed : list instr := android_app_set_window 0.

Definition onInputQueueCreated (queue : Z) : list instr := android_app_set_input queue.

Definition onInputQueueDestroyed : list instr := android_app_set_input 0.

Definition ANativeActivity_onCreate (saved : option cstr) : list instr := android_app_create saved.

(** The callbacks that [ANativeActivity_onCreate] registers. *)
Inductive callback :=
| cb_onDestroy
| cb_onStart
| cb_onResume
| cb_onSaveInstanceState
| cb_onPause
| cb_onStop
| cb_onConfigurationChanged
| cb_onLowMemory
| cb_onWindowFocusChanged (focused : bool)
| cb_onNativeWindowCreated (w : Z)
| cb_onNativeWindowDestroyed
| cb_onInputQueueCreated (queue : Z)
| cb_onInputQueueDestroyed.

Definition callbacks (cb : callback) : list instr :=
  match cb with
  | cb_onDestroy => onDestroy
  | cb_onStart => onStart
  | cb_onResume => onResume
  | cb_onSaveInstanceState => onSaveInstanceState
  | cb_onPause => onPause
  | cb_onStop => onStop
  | cb_onConfigurationChanged => onConfigurationChanged
  | cb_onLowMemory => onLowMemory
  | cb_onWindowFocusChanged focused => onWindowFocusChanged focused
  | cb_onNativeWindowCreated w => onNativeWindowCreated w
  | cb_onNativeWindowDestroyed => onNativeWindowDestroyed
  | cb_onInputQueueCreated queue => onInputQueueCreated queue
  | cb_onInputQueueDestroyed => onInputQueueDestroyed
  end.

(** ** Running the threads *)

(** The platform and the application: whether [pipe] and [pthread_create] succeed,
    the number of bytes a pipe holds, the null pointer of [userData], the handlers
    the application installs (if any), and the input events that the platform keeps
    for itself.  A handler of commands returns the new value of [userData] and,
    for [APP_CMD_SAVE_STATE], the bytes it saves in a new block. *)
Class Platform (U : Type) := {
  pipe_ok : bool;
  thread_ok : bool;
  capacity : nat;
  no_userData : U;
  onAppCmd : option (Z -> android_app U -> U * option cstr);
  onInputEvent : option (Z -> U -> U * Z);
  AInputQueue_preDispatchEvent : Z -> bool
}.

(** What native activities rely on: creation succeeds. *)
Class PlatformOk (U : Type) `{Platform U} : Prop := {
  pipe_works : pipe_ok = true;
  thread_works : thread_ok = true
}.

Inductive status := Running | Waiting | Woken.

(** The thread of the application: not created, in [android_app_entry] or
    [android_main], in or after [android_app_destroy]. *)
Inductive phase := NotStarted | InMain | Leaving.

Record glue (U : Type) := mk_glue {
  memory : store U;
  mutex : option thread;
  pipe : list Z;
  main_prog : list instr;
  main_status : status;
  app_prog : list instr;
  app_phase : phase
}.
Arguments mk_glue {U}.
Arguments memory {U} _.
Arguments mutex {U} _.
Arguments pipe {U} _.
Arguments main_prog {U} _.
Arguments main_status {U} _.
Arguments app_prog {U} _.
Arguments app_phase {U} _.

#[global] Instance thread_eq_dec : EqDecision thread.
Proof. solve_decision. Defined.

#[global] Instance phase_eq_dec : EqDecision phase.
Proof. solve_decision. Defined.

(** A step of a thread: the next state, no step now, or undefined behaviour. *)
Inductive result (U : Type) :=
| Next (g : glue U)
| Blocked
| Fault.
Arguments Next {U}.
Arguments Blocked {U}.
Arguments Fault {U}.

Section Threads.
Context {U : Type} `{Platform U}.

Definition must_wait (b : waiting_for) (a : android_app U) : bool :=
  match b with
  | not_running => negb (a.(running))
  | input_pending => negb (a.(inputQueue) =? a.(pendingInputQueue))
  | window_pending => negb (a.(window) =? a.(pendingWindow))
  | state_not cmd => negb (a.(activityState) =? cmd)
  | not_saved => negb (a.(stateSaved))
  | not_destroyed => negb (a.(destroyed))
  end.

(** The object after [memset]. *)
Definition zero_app : android_app U :=
  mk_app no_userData None 0 0 false 0 0 0 false false false false 0 0.

(** [malloc] and the copy of [bytes] to the new block, in [savedState]. *)
Definition save_block (bytes : cstr) (a : android_app U) (s : store U) : store U :=
  s <| app := Some (a <| savedState := s.(next_block) |>
                      <| savedStateSize := Z.of_nat (length bytes) |>) |>
    <| heap := <[s.(next_block) := bytes]> (s.(heap)) |>
    <| next_block := s.(next_block) + 1 |>.

(** The effect of an instruction on the object [a], the one of the memory [s];
    [None] is undefined behaviour.  Instructions that do not touch the object have
    none. *)
Definition on_app (i : instr) (a : android_app U) (s : store U) : option (store U) :=
  let set a' := Some (s <| app := Some a' |>) in
  match i with
  | FreeSavedState =>
      if a.(savedState) =? 0 then Some s
      else match s.(heap) !! a.(savedState) with
           | Some _ => Some (s <| heap := delete (a.(savedState)) (s.(heap)) |>
                               <| app := Some (a <| savedState := 0 |> <| savedStateSize := 0 |>) |>)
           | None => None
           end
  | DetachInput =>
      if a.(inputQueue) =? 0 then Some s
      else Some (s <| attached := filter (.≠ a.(inputQueue)) (s.(attached)) |>)
  | TakeInput => set (a <| inputQueue := a.(pendingInputQueue) |>)
  | AttachInput =>
      if a.(inputQueue) =? 0 then Some s
      else if a.(looper) then Some (s <| attached := a.(inputQueue) :: s.(attached) |>)
      else None
  | TakeWindow => set (a <| window := a.(pendingWindow) |>)
  | ClearWindow => set (a <| window := 0 |>)
  | SetActivityState cmd => set (a <| activityState := cmd |>)
  | LoadConfig =>
      match a.(config) with Some _ => set (a <| config := Some (s.(assets)) |>) | None => None end
  | SetDestroyRequested => set (a <| destroyRequested := true |>)
  | OnAppCmd cmd =>
      let '(u, saved) :=
        match onAppCmd with Some f => f cmd a | None => (a.(userData), None) end in
      let a := a <| userData := u |> in
      if cmd =? APP_CMD_SAVE_STATE then
        let s := s <| saves := s.(saves) ++ [saved] |> in
        match saved with
        | Some bytes => Some (save_block bytes a s)
        | None => Some (s <| app := Some a |>)
        end
      else set a
  | SetStateSaved => set (a <| stateSaved := true |>)
  | NewConfig => set (a <| config := Some 0 |>)
  | SetLooper => set (a <| looper := true |>)
  | SetRunning => set (a <| running := true |>)
  | DeleteConfig =>
      match a.(config) with Some _ => set (a <| config := None |>) | None => None end
  | SetDestroyed => set (a <| destroyed := true |>)
  | CopySavedState bytes => Some (save_block bytes a s)
  | SetPendingInput queue => set (a <| pendingInputQueue := queue |>)
  | SetPendingWindow w => set (a <| pendingWindow := w |>)
  | ClearStateSaved => set (a <| stateSaved := false |>)
  | TakeSavedState =>
      if a.(savedState) =? 0 then Some (s <| handed := s.(handed) ++ [None] |>)
      else Some (s <| handed := s.(handed) ++ [s.(heap) !! a.(savedState)] |>
                   <| given := a.(savedState) :: s.(given) |>
                   <| app := Some (a <| savedState := 0 |> <| savedStateSize := 0 |>) |>)
  | _ => Some s
  end.

(** Thread [t] goes on with [k]. *)
Definition continue (t : thread) (k : list instr) (g : glue U) : glue U :=
  match t with
  | Main => g <| main_prog := k |>
  | App => g <| app_prog := k |>
  end.

(** [pthread_cond_broadcast]. *)
Definition broadcast (g : glue U) : glue U :=
  match g.(main_status) with Waiting => g <| main_status := Woken |> | _ => g end.

(** [write] to the pipe. *)
Definition write_pipe (cmd : Z) (g : glue U) : option (glue U) :=
  if decide (length (g.(pipe)) < capacity)%nat then Some (g <| pipe := g.(pipe) ++ [cmd] |>)
  else None.

Definition done_or_blocked (t : thread) (k : list instr) (g : option (glue U)) : result U :=
  match g with Some g => Next (continue t k g) | None => Blocked end.

(** Thread [t] runs [i], followed by [k], on the object [a]. *)
Definition exec_on (t : thread) (i : instr) (k : list instr) (a : android_app U) (g : glue U) : result U :=
  match i with
  | Lock => match g.(mutex) with
            | None => Next (continue t k (g <| mutex := Some t |>))
            | Some _ => Blocked
            end
  | Unlock => if decide (g.(mutex) = Some t) then Next (continue t k (g <| mutex := None |>)) else Fault
  | Broadcast => Next (continue t k (broadcast g))
  | WaitWhile b =>
      if decide (g.(mutex) = Some t) then
        if must_wait b a then Next (g <| mutex := None |> <| main_status := Waiting |>)
        else Next (continue t k g)
      else Fault
  | WriteCmd cmd => done_or_blocked t k (write_pipe cmd g)
  | TermWindow =>
      if a.(pendingWindow) =? 0 then Next (continue t k g)
      else done_or_blocked t k (write_pipe APP_CMD_TERM_WINDOW g)
  | MakePipe =>
      if pipe_ok then Next (continue t k (g <| pipe := [] |>))
      else Next (continue t [] (g <| memory := g.(memory) <| app := None |> |>))
  | CreateThread =>
      if thread_ok then
        Next (continue t k (g <| app_prog := android_app_entry |> <| app_phase := InMain |>))
      else Next (continue t k g)
  | ClosePipe => Next (continue t k (g <| pipe := [] |>))
  | FreeApp =>
      match g.(mutex) with
      | None => Next (continue t k (g <| memory := g.(memory) <| app := None |> |>))
      | Some _ => Fault
      end
  | _ => match on_app i a (g.(memory)) with
         | Some s => Next (continue t k (g <| memory := s |>))
         | None => Fault
         end
  end.

(** An access to the object before it exists, or after it is freed, is a fault. *)
Definition exec (t : thread) (i : instr) (k : list instr) (g : glue U) : result U :=
  match i, g.(memory).(app) with
  | NewApp, _ => Next (continue t k (g <| memory := g.(memory) <| app := Some zero_app |> |>))
  | _, Some a => exec_on t i k a g
  | _, None => Fault
  end.

(** A step of the main thread; one that was woken takes the mutex first. *)
Definition main_step (g : glue U) : result U :=
  match g.(main_status), g.(main_prog) with
  | Waiting, _ => Blocked
  | Woken, _ => match g.(mutex) with
                | None => Next (g <| mutex := Some Main |> <| main_status := Running |>)
                | Some _ => Blocked
                end
  | Running, i :: k => exec Main i k g
  | Running, [] => Blocked
  end.

(** A step of the thread of the application inside a function of the glue. *)
Definition app_step (g : glue U) : result U :=
  match g.(app_prog) with i :: k => exec App i k g | [] => Blocked end.

(** [android_main] polls and finds a command. *)
Definition app_poll (g : glue U) : result U :=
  match g.(app_phase), g.(app_prog), g.(pipe) with
  | InMain, [], cmd :: rest => Next (g <| pipe := rest |> <| app_prog := process_cmd cmd |>)
  | _, _, _ => Blocked
  end.

(** [android_main] returns once it is asked to. *)
Definition app_return (g : glue U) : result U :=
  match g.(app_phase), g.(app_prog) with
  | InMain, [] =>
      match g.(memory).(app) with
      | None => Fault
      | Some a =>
          if a.(destroyRequested)
          then Next (g <| app_phase := Leaving |> <| app_prog := android_app_destroy |>)
          else Blocked
      end
  | _, _ => Blocked
  end.

(** [process_input] on the events in the queue. *)
Fixpoint process_input (events : list Z) (u : U) (done : list (Z * Z)) : U * list (Z * Z) :=
  match events with
  | [] => (u, done)
  | event :: events =>
      if AInputQueue_preDispatchEvent event then process_input events u done
      else
        let '(u, handled) :=
          match onInputEvent with Some f => f event u | None => (u, 0) end in
        process_input events u (done ++ [(event, handled)])
  end.

(** [android_main] polls and finds input events. *)
Definition app_input (events : list Z) (g : glue U) : result U :=
  match g.(app_phase), g.(app_prog), g.(memory).(app) with
  | InMain, [], Some a =>
      if decide (a.(inputQueue) ∈ g.(memory).(attached)) then
        let '(u, done) := process_input events (a.(userData)) (g.(memory).(finished)) in
        Next (g <| memory := g.(memory) <| app := Some (a <| userData := u |>) |>
                                        <| finished := done |> |>)
      else Blocked
  | InMain, [], None => Fault
  | _, _, _ => Blocked
  end.

(** A turn: a step that belongs to the work of a callback. *)
Inductive turn (g g' : glue U) : Prop :=
| turn_main : main_step g = Next g' -> turn g g'
| turn_app : app_step g = Next g' -> turn g g'
| turn_poll : app_poll g = Next g' -> turn g g'
| turn_return : app_return g = Next g' -> turn g g'.

(** What happens on its own: [pthread_cond_wait] returns without a broadcast, input
    arrives, the application computes, the configuration of the device changes. *)
Inductive event (g g' : glue U) : Prop :=
| event_wakeup : g.(main_status) = Waiting -> g' = g <| main_status := Woken |> -> event g g'
| event_input events : app_input events g = Next g' -> event g g'
| event_user a u : g.(app_phase) = InMain -> g.(memory).(app) = Some a -> g.(app_prog) = [] ->
    g' = g <| memory := g.(memory) <| app := Some (a <| userData := u |>) |> |> -> event g g'
| event_config c : g' = g <| memory := g.(memory) <| assets := c |> |> -> event g g'.

(** The state when the framework calls [ANativeActivity_onCreate]. *)
Definition creating (saved : option cstr) : glue U :=
  mk_glue (mk_store None ∅ 1 [] [] 0 [] [] []) None [] (ANativeActivity_onCreate saved) Running [] NotStarted.

(** The runs of a process, with the callbacks that were made: one after the other,
    none after [onDestroy]. *)
Inductive run : list callback -> glue U -> Prop :=
| run_create saved : run [] (creating saved)
| run_turn cbs g g' : run cbs g -> turn g g' -> run cbs g'
| run_event cbs g g' : run cbs g -> event g g' -> run cbs g'
| run_callback cbs g cb : run cbs g -> g.(main_prog) = [] -> cb_onDestroy ∉ cbs ->
    run (cbs ++ [cb]) (g <| main_prog := callbacks cb |>).

End Threads.
