(* ===== verification/AppThreads.v ===== *)
(** * The threads of native_app_glue: locks, memory and notifications

    The thread of the application is checked by a small type system ([check]): the
    mutex is held at each access to a shared member and given back, the
    configuration and the looper exist where they are used, the saved state is freed
    before it is replaced, an instruction that can end a wait is followed by a
    broadcast.  The invariant [inv] says that what both threads still have to do is
    typed; every step keeps it.  The assertions that the main thread needs between
    its instructions speak of the memory and of what the thread of the application
    still has to do ([todo]); [move] is what can happen to these between two steps
    of the main thread. *)

From coqutil Require Import Datatypes.RecordSetters.
From S2P Require Import Prelude AppGlue.
Import TriangleBracketNotations.

(** ** What a thread does *)

(** The instructions of the thread of the application. *)
Definition app_instr (i : instr) : bool :=
  match i with
  | Lock | Unlock | Broadcast | FreeSavedState | DetachInput | TakeInput | AttachInput
  | TakeWindow | ClearWindow | SetActivityState _ | LoadConfig | SetDestroyRequested
  | OnAppCmd _ | SetStateSaved | NewConfig | SetLooper | SetRunning | DeleteConfig
  | SetDestroyed => true
  | _ => false
  end.

(** The instructions that access members which both threads use. *)
Definition guarded (i : instr) : bool :=
  match i with
  | FreeSavedState | DetachInput | TakeInput | AttachInput | TakeWindow | ClearWindow
  | SetActivityState _ | SetStateSaved | SetRunning | DeleteConfig | SetDestroyed
  | WaitWhile _ | SetPendingInput _ | TermWindow | SetPendingWindow _ | ClearStateSaved
  | TakeSavedState => true
  | _ => false
  end.

(** The instructions that can end a wait. *)
Definition changes (i : instr) : bool :=
  match i with
  | TakeInput | TakeWindow | ClearWindow | SetActivityState _ | SetStateSaved
  | SetRunning | SetDestroyed => true
  | _ => false
  end.

Definition is_broadcast (i : instr) : bool := match i with Broadcast => true | _ => false end.

(** A broadcast follows every instruction that can end a wait. *)
Fixpoint notified (p : list instr) : bool :=
  match p with
  | [] => true
  | i :: k => (negb (changes i) || existsb is_broadcast k) && notified k
  end.

(** ** The type system *)

Record typing := mk_typing {
  held : bool;
  cfg : bool;
  lp : bool;
  empty : bool;
  sync : bool
}.

(** The type after [i]; [leaving] allows the thread to give the mutex back with the
    input queue detached. *)
Definition check1 (leaving : bool) (t : typing) (i : instr) : option typing :=
  if guarded i && negb (held t) then None else
  match i with
  | Lock => if held t then None else Some (t <| held := true |>)
  | Unlock => if held t && (sync t || leaving) then Some (t <| held := false |>) else None
  | FreeSavedState => Some (t <| empty := true |>)
  | DetachInput => if sync t then Some (t <| sync := false |>) else None
  | TakeInput => if sync t then None else Some t
  | AttachInput => if negb (sync t) && lp t then Some (t <| sync := true |>) else None
  | LoadConfig => if cfg t then Some t else None
  | DeleteConfig => if cfg t then Some (t <| cfg := false |>) else None
  | NewConfig => Some (t <| cfg := true |>)
  | SetLooper => Some (t <| lp := true |>)
  | OnAppCmd cmd =>
      if held t then None
      else if cmd =? APP_CMD_SAVE_STATE then
        if empty t then Some (t <| empty := false |>) else None
      else Some t
  | ClosePipe | FreeApp => if held t then None else Some t
  | _ => Some t
  end.

Fixpoint check (leaving : bool) (t : typing) (p : list instr) : option typing :=
  match p with
  | [] => Some t
  | i :: k => match check1 leaving t i with Some t => check leaving t k | None => None end
  end.

Lemma check_app leaving t p q :
  check leaving t (p ++ q) =
    match check leaving t p with Some t => check leaving t q | None => None end.
Proof.
  revert t. induction p as [|i p IH]; intros t; [done|]. cbn. destruct (check1 leaving t i); [apply IH|done].
Qed.

(** Case analysis on a command. *)
Ltac cases_cmd :=
  unfold process_cmd, android_app_read_cmd, android_app_pre_exec_cmd, android_app_post_exec_cmd, free_saved_state;
  repeat match goal with |- context [if ?b then _ else _] => destruct b eqn:? end;
  bool_to_prop; subst; try done.

(** The commands keep the type of a thread in [android_main]. *)
Lemma check_cmd cmd e :
  exists e', check false (mk_typing false true true e true) (process_cmd cmd) =
               Some (mk_typing false true true e' true).
Proof. cases_cmd; cbn; repeat case_bool; eauto; done. Qed.

Lemma process_cmd_app cmd : Forall (fun i => app_instr i = true) (process_cmd cmd).
Proof. cases_cmd; repeat constructor. Qed.

Lemma process_cmd_notified cmd : notified (process_cmd cmd) = true.
Proof. cases_cmd. Qed.

(** ** Fields and instructions *)

Section Proofs.
Context {U : Type} `{Platform U}.
Implicit Types (a : android_app U) (s : store U) (g : glue U).

(** What an instruction of the application does to the members of the object. *)
Record after (i : instr) a a' : Prop := {
  after_window : window a' =
    match i with TakeWindow => pendingWindow a | ClearWindow => 0 | _ => window a end;
  after_input : inputQueue a' =
    match i with TakeInput => pendingInputQueue a | _ => inputQueue a end;
  after_state : activityState a' =
    match i with SetActivityState cmd => cmd | _ => activityState a end;
  after_requested : destroyRequested a' =
    match i with SetDestroyRequested => true | _ => destroyRequested a end;
  after_running : running a' = match i with SetRunning => true | _ => running a end;
  after_saved : stateSaved a' = match i with SetStateSaved => true | _ => stateSaved a end;
  after_destroyed : destroyed a' = match i with SetDestroyed => true | _ => destroyed a end;
  after_pending_input : pendingInputQueue a' = pendingInputQueue a;
  after_pending_window : pendingWindow a' = pendingWindow a
}.

(** Case analysis on the effect of an instruction. *)
Ltac cases_effect H :=
  unfold on_app in H;
  repeat match type of H with
  | context [match ?x with _ => _ end] => destruct x eqn:?
  | context [if ?b then _ else _] => destruct b eqn:?
  end; try discriminate; simplify_eq.

Lemma on_app_after i a s s' :
  app_instr i = true -> app s = Some a -> on_app i a s = Some s' ->
  exists a', app s' = Some a' /\ after i a a'.
Proof. intros Hi Ha E. destruct i; try discriminate; cases_effect E; eexists; (split; [first [eassumption|reflexivity]|done]). Qed.

Lemma on_app_history i a s s' :
  app_instr i = true -> on_app i a s = Some s' ->
  handed s' = handed s /\ given s' = given s /\ (i <> OnAppCmd APP_CMD_SAVE_STATE -> saves s' = saves s).
Proof. intros Hi E. destruct i; try discriminate; cases_effect E; bool_to_prop; subst; done. Qed.

Lemma must_wait_after b i a a' :
  after i a a' -> changes i = false -> must_wait b a' = must_wait b a.
Proof. intros [] Hi. destruct b; cbn; destruct i; try discriminate; congruence. Qed.

(** ** Views

    An assertion speaks of the memory, of the instructions that the thread of the
    application still has to run for what is in the pipe, and of its phase. *)
Definition todo g : list instr :=
  app_prog g ++ match app_phase g with Leaving => [] | _ => flat_map process_cmd (pipe g) end.

Definition assertion := store U -> list instr -> phase -> Prop.

Definition at_point (P : assertion) g : Prop := P (memory g) (todo g) (app_phase g).

(** What the main thread may see happen between two of its steps. *)
Inductive move : store U -> list instr -> phase -> store U -> list instr -> phase -> Prop :=
| move_instr s a i td ph s' : app s = Some a -> app_instr i = true -> on_app i a s = Some s' ->
    move s (i :: td) ph s' td ph
| move_user s a u done td ph : app s = Some a ->
    move s td ph (s <| app := Some (a <| userData := u |>) |> <| finished := done |>) td ph
| move_config s c td ph : move s td ph (s <| assets := c |>) td ph
| move_return s a td : app s = Some a -> destroyRequested a = true ->
    move s td InMain s android_app_destroy Leaving.

Definition stable (P : assertion) : Prop :=
  forall s td ph s' td' ph', move s td ph s' td' ph' -> P s td ph -> P s' td' ph'.

(** ** The invariant of the thread of the application *)

Definition expected (q : Z) : list Z := if q =? 0 then [] else [q].

Definition is_held (t : thread) g : bool := bool_decide (mutex g = Some t).

Record sound (t : typing) s : Prop := {
  sound_cfg a : app s = Some a -> cfg t = true -> is_Some (config a);
  sound_lp a : app s = Some a -> lp t = true -> looper a = true;
  sound_empty a : app s = Some a -> empty t = true -> savedState a = 0;
  sound_sync a : app s = Some a -> attached s = if sync t then expected (inputQueue a) else []
}.

(** The blocks of the heap: the one in [savedState], and those given away. *)
Record heap_ok s : Prop := {
  heap_blocks p : is_Some (heap s !! p) <->
    p ∈ given s \/ exists a, app s = Some a /\ savedState a = p /\ p <> 0;
  heap_bound p : is_Some (heap s !! p) -> 0 < p < next_block s;
  heap_given a : app s = Some a -> savedState a ∉ given s;
  heap_next : 0 < next_block s
}.

Lemma heap_ok_update s s' :
  heap_ok s -> heap s' = heap s -> given s' = given s -> next_block s' = next_block s ->
  (savedState <$> app s') = (savedState <$> app s) -> heap_ok s'.
Proof.
  intros [H1 H2 H3 H4] Eh Eg En Ea. split; [intros p|intros p|intros a Hs|]; rewrite ?Eh, ?Eg, ?En; [|apply H2| |done].
  - rewrite H1. destruct (app s) as [a|], (app s') as [a'|]; simplify_eq/=; [|done].
    split; (intros [Hp|(x & [= <-] & Hx & Hp)]; [by left|right; eexists; split; [done|split; congruence]]).
  - rewrite Hs in Ea. destruct (app s) as [a'|] eqn:Es; simplify_eq/=. rewrite Ea. by apply H3.
Qed.

Lemma heap_ok_save bytes a a0 s :
  heap_ok s -> app s = Some a0 -> savedState a0 = 0 -> heap_ok (save_block bytes a s).
Proof.
  intros [H1 H2 H3 H4] Ha E0. split; cbn.
  - intros p. destruct (decide (p = next_block s)) as [->|Hp].
    + rewrite lookup_insert_eq. split; [intros _|by eauto]. right. eexists. split; [done|]. cbn. lia.
    + rewrite lookup_insert_ne by done. rewrite H1. split; intros [?|(x & Hx & Hs & Hp')]; try by left.
      * simplify_eq.
      * simplify_eq/=.
  - intros p. destruct (decide (p = next_block s)) as [->|Hp]; [lia|].
    rewrite lookup_insert_ne by done. intros Hs. apply H2 in Hs. lia.
  - intros a' [= <-]. cbn. intros Hg. destruct (H2 (next_block s)); [|lia]. apply H1. by left.
  - lia.
Qed.

Lemma heap_ok_free a s b :
  heap_ok s -> app s = Some a -> heap s !! savedState a = Some b ->
  heap_ok (s <| heap := delete (savedState a) (heap s) |>
             <| app := Some (a <| savedState := 0 |> <| savedStateSize := 0 |>) |>).
Proof.
  intros [H1 H2 H3 H4] Ha Hb. split; cbn.
  - intros p. rewrite lookup_delete_is_Some, H1. split.
    + intros [Hp [?|(x & Hx & Hs & Hp')]]; [by left|simplify_eq].
    + intros [Hp|(x & Hx & Hs & Hp')]; [|simplify_eq/=]. split; [|by left]. intros <-. by apply (H3 a).
  - intros p [_ Hp]%lookup_delete_is_Some. by apply H2.
  - intros a' [= <-]. cbn. intros Hg. destruct (H2 0); [|lia]. apply H1. by left.
  - done.
Qed.

(** A sound typing after a change of the memory. *)
Lemma sound_intro t s a :
  app s = Some a ->
  (cfg t = true -> is_Some (config a)) -> (lp t = true -> looper a = true) ->
  (empty t = true -> savedState a = 0) ->
  attached s = (if sync t then expected (inputQueue a) else []) -> sound t s.
Proof. intros Ha ? ? ? ?. split; intros; simplify_eq; auto. Qed.

(** A typed instruction has a result, and the result is typed. *)
Lemma check1_on_app leaving t i t' a s :
  app_instr i = true -> app s = Some a -> heap_ok s -> sound t s -> check1 leaving t i = Some t' ->
  exists s', on_app i a s = Some s' /\ sound t' s' /\ heap_ok s'.
Proof.
  intros Hi Ha Hh [Sc Sl Se Ss] Hc.
  specialize (Sc a Ha). specialize (Sl a Ha). specialize (Se a Ha). specialize (Ss a Ha).
  destruct t as [h c l e y]. cbn in *.
  destruct i; try discriminate; unfold check1 in Hc; cbn in Hc;
    repeat match type of Hc with context [if ?b then _ else _] => destruct b eqn:? end;
    try discriminate; simplify_eq; bool_to_prop; subst; cbn [on_app].
  all: try (eexists; split; [done|split; [by eapply sound_intro|done]]).
  all: try (eexists; split; [done|split; [by eapply sound_intro|eapply heap_ok_update; [done..|]; by rewrite Ha]]).
  - destruct (Z.eqb_spec (savedState a) 0) as [E0|E0].
    + eexists. split; [done|]. split; [by eapply sound_intro|done].
    + destruct (proj2 (heap_blocks _ Hh (savedState a))) as [b Eb]; [right; eauto|]. rewrite Eb.
      eexists. split; [done|]. split; [by eapply sound_intro|]. by eapply heap_ok_free.
  - unfold expected in Ss. destruct (Z.eqb_spec (inputQueue a) 0) as [E0|E0].
    + eexists. split; [done|]. split; [by eapply sound_intro|done].
    + eexists. split; [done|]. split; [|by eapply heap_ok_update]. eapply sound_intro; [done..|]. cbn.
      rewrite Ss. by rewrite filter_cons_False by tauto.
  - unfold expected in *. destruct (Z.eqb_spec (inputQueue a) 0) as [E0|E0].
    + eexists. split; [done|]. split; [eapply sound_intro|]; [done..| |done]. unfold expected. cbn. by rewrite E0.
    + rewrite Sl by done. eexists. split; [done|]. split; [|by eapply heap_ok_update]. eapply sound_intro; [done..|].
      unfold expected. cbn. rewrite Ss. by apply Z.eqb_neq in E0 as ->.
  - destruct Sc as [v ->]; [done|]. eexists. split; [done|]. split; [by eapply sound_intro|].
    eapply heap_ok_update; [done..|]. by rewrite Ha.
  - destruct (match onAppCmd with Some f => _ | None => _ end) as [u [bytes|]]; (eexists; split; [done|]; split; [by eapply sound_intro|]).
    + eapply heap_ok_save; [by eapply heap_ok_update|done|by apply Se].
    + eapply heap_ok_update; [done..|]. by rewrite Ha.
  - destruct (match onAppCmd with Some f => _ | None => _ end) as [u o].
    replace (cmd =? APP_CMD_SAVE_STATE) with false by (symmetry; by apply Z.eqb_neq).
    eexists. split; [done|]. split; [by eapply sound_intro|]. eapply heap_ok_update; [done..|]. by rewrite Ha.
  - destruct Sc as [v ->]; [done|]. eexists. split; [done|]. split; [by eapply sound_intro|].
    eapply heap_ok_update; [done..|]. by rewrite Ha.
Qed.

(** ** The invariant of both threads *)

Definition final_typing (ph : phase) (t : typing) : Prop :=
  match ph with
  | InMain => exists e, t = mk_typing false true true e true
  | Leaving => held t = false /\ empty t = true
  | NotStarted => held t = false
  end.

(** The thread of the application: the mutex it holds is the one its type says, and
    what it has to do is typed. *)
Record app_typed g (t t' : typing) : Prop := {
  typed_held : held t = is_held App g;
  typed_sound : sound t (memory g);
  typed_check : check (bool_decide (app_phase g = Leaving)) t (app_prog g) = Some t';
  typed_final : final_typing (app_phase g) t';
  typed_sync : held t = false -> sync t = true \/ app_phase g = Leaving
}.

Definition asleep g : bool := match main_status g with Running => false | _ => true end.

Record inv g : Prop := {
  inv_app : exists t t', app_typed g t t';
  inv_instr : Forall (fun i => app_instr i = true) (app_prog g);
  inv_notified : notified (app_prog g) = true;
  inv_heap : heap_ok (memory g);
  inv_alive : app (memory g) = None -> app_prog g = [] /\ app_phase g <> InMain;
  inv_started : app_phase g = NotStarted -> app_prog g = [];
  inv_main : exists t t', held t = is_held Main g || asleep g /\
    check true t (main_prog g) = Some t' /\ held t' = false;
  inv_asleep : asleep g = true -> mutex g <> Some Main /\ exists b k, main_prog g = WaitWhile b :: k;
  inv_wake b k a : main_status g = Waiting -> main_prog g = WaitWhile b :: k -> app (memory g) = Some a ->
    must_wait b a = true \/ existsb is_broadcast (app_prog g) = true
}.

(** A step of the thread of the application. *)
Lemma exec_app i k a g g' :
  app_instr i = true -> app (memory g) = Some a -> exec App i k g = Next g' ->
  on_app i a (memory g) = Some (memory g') /\ app_prog g' = k /\ app_phase g' = app_phase g /\
  pipe g' = pipe g /\ main_prog g' = main_prog g /\
  main_status g' = (if is_broadcast i then main_status (broadcast g) else main_status g) /\
  match i with
  | Lock => mutex g = None /\ mutex g' = Some App
  | Unlock => mutex g = Some App /\ mutex g' = None
  | _ => mutex g' = mutex g
  end.
Proof.
  intros Hi Ha E. unfold exec in E. rewrite Ha in E. destruct i; try discriminate; cbn [exec_on] in E.
  1: destruct (mutex g) eqn:Em; simplify_eq; cbn; by rewrite ?Em.
  1: destruct (decide (mutex g = Some App)); simplify_eq; done.
  1: simplify_eq; unfold broadcast; destruct (main_status g) eqn:Es; cbn; by rewrite ?Es.
  all: destruct (on_app _ a (memory g)) eqn:Eo; simplify_eq; done.
Qed.

Lemma held_step leaving t i t1 :
  check1 leaving t i = Some t1 ->
  held t1 = match i with Lock => true | Unlock => false | _ => held t end.
Proof.
  unfold check1. destruct t as [h c l e y]; destruct i; cbn; destruct h; cbn;
    repeat match goal with |- context [if ?b then _ else _] => destruct b end; intros; simplify_eq; done.
Qed.

Lemma sync_step leaving t i t1 :
  check1 leaving t i = Some t1 -> held t1 = false ->
  (held t = false -> sync t = true \/ leaving = true) -> sync t1 = true \/ leaving = true.
Proof.
  unfold check1. destruct t as [h c l e y]; destruct i; cbn; destruct h, y, leaving; cbn;
    repeat match goal with |- context [if ?b then _ else _] => destruct b end; naive_solver.
Qed.

Lemma typed_step i k a g g' t t' :
  app_instr i = true -> app (memory g) = Some a -> app_prog g = i :: k -> heap_ok (memory g) ->
  exec App i k g = Next g' -> app_typed g t t' -> exists t1, app_typed g' t1 t' /\ heap_ok (memory g').
Proof.
  intros Hi Ha Hp Hh E [Th Ts Tc Tf Ty].
  destruct (exec_app i k a g g' Hi Ha E) as (Eo & Ek & Eph & Epi & Em & _ & Emu).
  rewrite Hp in Tc. cbn [check] in Tc. destruct (check1 _ t i) as [t1|] eqn:Ec; [|done].
  destruct (check1_on_app _ t i t1 a (memory g) Hi Ha Hh Ts Ec) as (s' & Eo' & Ts' & Hh').
  rewrite Eo in Eo'. injection Eo' as <-. exists t1. split; [|done]. split; rewrite ?Ek, ?Eph; try done.
  - rewrite (held_step _ _ _ _ Ec), Th. unfold is_held.
    destruct i; try (by rewrite Emu); by destruct Emu as [_ ->].
  - intros Hf. destruct (sync_step _ _ _ _ Ec Hf) as [?|Hl]; [|by left|right].
    + intros Ht. destruct (Ty Ht) as [?|?]; [by left|right]. by apply bool_decide_eq_true_2.
    + by apply bool_decide_eq_true_1 in Hl.
Qed.

Lemma app_alive g i k : inv g -> app_prog g = i :: k -> exists a, app (memory g) = Some a /\ app_instr i = true.
Proof.
  intros I Hp. destruct (app (memory g)) as [a|] eqn:Ha.
  - exists a. split; [done|]. pose proof (inv_instr _ I) as Hi. rewrite Hp in Hi. by inversion Hi.
  - destruct (inv_alive _ I Ha) as [E _]. by rewrite E in Hp.
Qed.

Lemma asleep_broadcast g : asleep (broadcast g) = asleep g.
Proof. unfold asleep, broadcast. by destruct (main_status g) eqn:E; cbn; rewrite ?E. Qed.

Lemma inv_app_step g g' : app_step g = Next g' -> inv g -> inv g'.
Proof.
  intros E I. unfold app_step in E. destruct (app_prog g) as [|i k] eqn:Hp; [done|].
  destruct (app_alive g i k I Hp) as (a & Ha & Hi).
  destruct (exec_app i k a g g' Hi Ha E) as (Eo & Ek & Eph & Epi & Em & Es & Emu).
  destruct (on_app_after i a _ _ Hi Ha Eo) as (a' & Ha' & Haf).
  assert (Hheld : is_held Main g' = is_held Main g).
  { unfold is_held. destruct i; try (by rewrite Emu); by destruct Emu as [-> ->]. }
  assert (Hsleep : asleep g' = asleep g).
  { unfold asleep. rewrite Es. destruct i; try done. by apply asleep_broadcast. }
  destruct I as [(t & t' & It) Ii In Ih Ia Ist Im Isl Iw].
  destruct (typed_step i k a g g' t t' Hi Ha Hp Ih E It) as (t1 & It1 & Ih1).
  rewrite Hp in Ii, In. inversion_clear Ii as [|? ? _ Hk]. cbn in In. apply andb_prop in In as [In1 In2].
  split; rewrite ?Ek, ?Eph, ?Hheld, ?Hsleep, ?Em; try done.
  - by exists t1, t'.
  - by rewrite Ha'.
  - intros Hn. by rewrite Ist in Hp.
  - intros Hs. destruct (Isl Hs) as [Hm Hw]. split; [|done]. destruct i; try (by rewrite Emu); by destruct Emu as [_ ->].
  - intros b k' a2 Hw Hmp Ha2. simplify_eq.
    assert (is_broadcast i = false) as Hb.
    { destruct i; try done. rewrite Es in Hw. cbn in Hw. unfold broadcast in Hw. by destruct (main_status g) eqn:Q; cbn in Hw; rewrite ?Q in Hw. }
    rewrite Hb in Es. rewrite Es in Hw. destruct (Iw b k' a Hw Hmp Ha) as [Hmw|Hbr].
    + destruct (changes i) eqn:Hc; [by right|left]. by rewrite (must_wait_after b i a a').
    + right. rewrite Hp in Hbr. cbn in Hbr. by rewrite Hb in Hbr.
Qed.

Lemma todo_poll g cmd rest :
  app_phase g = InMain -> app_prog g = [] -> pipe g = cmd :: rest ->
  todo (g <| pipe := rest |> <| app_prog := process_cmd cmd |>) = todo g.
Proof. destruct g. cbn. by intros -> -> ->. Qed.

Lemma inv_app_poll g g' : app_poll g = Next g' -> inv g -> inv g'.
Proof.
  intros E I. unfold app_poll in E.
  destruct (app_phase g) eqn:Hph, (app_prog g) as [|] eqn:Hp, (pipe g) as [|cmd rest] eqn:Hpi; try discriminate.
  injection E as <-. destruct I as [(t & t' & [Th Ts Tc Tf Ty]) Ii In Ih Ia Ist Im Isl Iw]. split; try done.
  - rewrite Hp in Tc. rewrite Hph in Tf. injection Tc as ->. destruct Tf as [e ->]. destruct (check_cmd cmd e) as [e' He].
    exists (mk_typing false true true e true), (mk_typing false true true e' true). destruct g; cbn in *; subst.
    split; [done|done|done|by eexists|by left].
  - apply process_cmd_app.
  - apply process_cmd_notified.
  - intros Hn. by destruct (Ia Hn).
  - destruct g; cbn in *; by subst.
  - intros b k a Hw Hm Ha. destruct (Iw b k a Hw Hm Ha) as [?|Hb]; [by left|]. by rewrite Hp in Hb.
Qed.

Lemma inv_app_return g g' : app_return g = Next g' -> inv g -> inv g'.
Proof.
  intros E I. unfold app_return in E.
  destruct (app_phase g) eqn:Hph, (app_prog g) as [|] eqn:Hp; try discriminate.
  destruct (app (memory g)) as [a|] eqn:Ha; [|done]. destruct (destroyRequested a) eqn:Hd; [|done].
  injection E as <-. destruct I as [(t & t' & [Th Ts Tc Tf Ty]) Ii In Ih Ia Ist Im Isl Iw]. split; try done.
  - rewrite Hp in Tc. rewrite Hph in Tf. injection Tc as ->. destruct Tf as [e ->].
    eexists (mk_typing false true true e true), _. destruct g; cbn in *; subst.
    split; [done|done|reflexivity|done|by left].
  - repeat constructor.
  - intros Hn. destruct g; cbn in *. simplify_eq.
  - intros b k a' Hw Hm Ha'. destruct (Iw b k a' Hw Hm Ha') as [?|Hb]; [by left|]. by rewrite Hp in Hb.
Qed.

(** Memories that differ only in what the application and the device own. *)
Definition similar s s' : Prop :=
  heap s' = heap s /\ given s' = given s /\ next_block s' = next_block s /\ attached s' = attached s /\
  saves s' = saves s /\ handed s' = handed s /\
  match app s, app s' with
  | Some a, Some a' => exists u, a' = a <| userData := u |>
  | None, None => True
  | _, _ => False
  end.

Lemma inv_similar g s' : similar (memory g) s' -> inv g -> inv (g <| memory := s' |>).
Proof.
  intros (Eh & Eg & En & Ea & _ & _ & Eapp) [(t & t' & [Th Ts Tc Tf Ty]) Ii In Ih Ia Ist Im Isl Iw].
  destruct g as [s m pi mp ms ap ph]; cbn in *.
  assert (Hup : forall a', app s' = Some a' -> exists a u, app s = Some a /\ a' = a <| userData := u |>).
  { intros a' Ha'. rewrite Ha' in Eapp. destruct (app s) as [a|]; [|done]. destruct Eapp as [u ->]. by exists a, u. }
  split; try done; cbn.
  - exists t, t'. split; try done. cbn. destruct Ts as [Sc Sl Se Ss].
    split; intros a' Ha'; destruct (Hup a' Ha') as (a & u & Ha & ->); cbn; [by apply (Sc a)|by apply (Sl a)|by apply (Se a)|].
    rewrite Ea. by apply (Ss a).
  - eapply heap_ok_update; [done..|]. destruct (app s), (app s'); try done. by destruct Eapp as [u ->].
  - intros Hn. rewrite Hn in Eapp. destruct (app s); [done|]. by apply Ia.
  - intros b k a' Hw Hm Ha'. destruct (Hup a' Ha') as (a & u & Ha & ->).
    destruct (Iw b k a Hw Hm Ha) as [Hb|?]; [left|by right]. rewrite <-Hb. by destruct b.
Qed.

(** An event is a change of the memory, or wakes the main thread. *)
Lemma event_cases g g' :
  event g g' ->
  (main_status g = Waiting /\ g' = g <| main_status := Woken |>) \/
  (exists s', g' = g <| memory := s' |> /\ similar (memory g) s' /\
              move (memory g) (todo g) (app_phase g) s' (todo g) (app_phase g)).
Proof.
  intros [Hw ->|events E|a u Hph Ha Hp ->|c ->].
  - by left.
  - right. unfold app_input in E. destruct (app_phase g), (app_prog g); try discriminate.
    destruct (app (memory g)) as [a|] eqn:Ha; [|done]. destruct (decide _); [|done].
    destruct (process_input _ _ _) as [u done]. injection E as <-.
    eexists. split; [reflexivity|]. split; [|by eapply move_user].
    unfold similar. cbn. rewrite Ha. repeat split; eauto.
  - right. eexists. split; [reflexivity|]. split; [unfold similar; cbn; rewrite Ha; repeat split; eauto|].
    pose proof (move_user (memory g) a u (finished (memory g)) (todo g) (app_phase g) Ha) as Hm.
    by destruct (memory g).
  - right. eexists. split; [reflexivity|]. split; [|apply move_config].
    unfold similar. cbn. destruct (memory g) as [[a|]]; cbn; repeat split; eauto. exists (userData a). by destruct a.
Qed.

Lemma inv_event g g' : event g g' -> inv g -> inv g'.
Proof.
  intros [[Hw ->]|(s' & -> & Hs & _)]%event_cases I; [|by apply inv_similar].
  destruct I as [(t & t' & [Th Ts Tc Tf Ty]) Ii In Ih Ia Ist Im Isl Iw].
  destruct g as [s m pi mp ms ap ph]; cbn in *; subst. split; try done. by exists t, t'.
Qed.

(** ** Steps of the main thread *)

Definition main_instr (i : instr) : bool :=
  match i with
  | Lock | Unlock => true
  | _ => negb (app_instr i)
  end.

(** What an instruction of the main thread needs of the thread of the application. *)
Definition main_safe (i : instr) s (td : list instr) (ph : phase) : Prop :=
  match i with
  | NewApp => app s = None /\ ph = NotStarted /\ attached s = []
  | CopySavedState _ =>
      exists a, app s = Some a /\ savedState a = 0 /\ inputQueue a = 0 /\ attached s = [] /\ ph = NotStarted
  | CreateThread => exists a, app s = Some a /\ inputQueue a = 0 /\ attached s = [] /\ ph = NotStarted
  | FreeApp => is_Some (app s) /\ ph = Leaving /\ td = []
  | _ => is_Some (app s)
  end.

Lemma todo_nil g : todo g = [] -> app_prog g = [].
Proof. unfold todo. by intros [? _]%app_nil. Qed.

Lemma not_started_held g : inv g -> app_phase g = NotStarted -> is_held App g = false.
Proof.
  intros [(t & t' & [Th Ts Tc Tf Ty]) Ii In Ih Ia Ist Im Isl Iw] Hph. rewrite Ist in Tc by done.
  injection Tc as ->. rewrite Hph in Tf. by rewrite <-Th.
Qed.

Lemma exited_held g : inv g -> app_phase g = Leaving -> app_prog g = [] ->
  is_held App g = false /\ forall a, app (memory g) = Some a -> savedState a = 0.
Proof.
  intros [(t & t' & [Th Ts Tc Tf Ty]) Ii In Ih Ia Ist Im Isl Iw] Hph Hp. rewrite Hp in Tc. injection Tc as ->.
  rewrite Hph in Tf. destruct Tf as [Hf He]. split; [by rewrite <-Th|]. intros a Ha. by apply (sound_empty _ _ Ts a).
Qed.

(** The main thread is awake and runs [i]. *)
Lemma main_held g i k :
  inv g -> main_status g = Running -> main_prog g = i :: k ->
  exists t t', check1 true t i = Some t' /\ held t = is_held Main g /\
    exists t'', check true t' k = Some t'' /\ held t'' = false.
Proof.
  intros I Hs Hp. destruct (inv_main _ I) as (t & t'' & Ht & Hc & Hf). rewrite Hp in Hc. cbn in Hc.
  destruct (check1 true t i) as [t'|] eqn:E; [|done]. unfold asleep in Ht. rewrite Hs, orb_false_r in Ht. eauto 8.
Qed.

Lemma guarded_held leaving t i t' : check1 leaving t i = Some t' -> guarded i = true -> held t = true.
Proof. unfold check1. intros E Hg. rewrite Hg in E. by destruct (held t). Qed.

Lemma main_safe_app i s td ph : main_safe i s td ph -> i = NewApp \/ is_Some (app s).
Proof. destruct i; cbn; naive_solver. Qed.

Lemma on_app_main i a s : main_instr i = true -> is_Some (on_app i a s).
Proof. destruct i; try discriminate; intros _; cbn [on_app]; try (destruct (savedState a =? 0)); by eexists. Qed.

(** No step of the main thread is a fault. *)
Lemma main_no_fault g i k :
  inv g -> main_status g = Running -> main_prog g = i :: k -> main_instr i = true ->
  main_safe i (memory g) (todo g) (app_phase g) -> exec Main i k g <> Fault.
Proof.
  intros I Hs Hp Hi Hsafe. destruct (main_held g i k I Hs Hp) as (t & t' & Hc & Ht & _).
  assert (Hm : held t = true -> mutex g = Some Main).
  { rewrite Ht. apply bool_decide_eq_true_1. }
  destruct (main_safe_app _ _ _ _ Hsafe) as [->|[a Ha]]; [done|].
  unfold exec. rewrite Ha. destruct (on_app_main i a (memory g) Hi) as [s' Hs'].
  destruct i; try discriminate Hi; cbn [exec_on]; rewrite ?Hs'; try done; unfold done_or_blocked;
    repeat match goal with |- context [match ?b with _ => _ end] => destruct b eqn:? end; try done.
  - unfold check1 in Hc. cbn in Hc. destruct (held t); [|done]. exfalso; auto.
  - unfold check1 in Hc. cbn in Hc. destruct (held t); [|done]. exfalso; auto.
  - destruct Hsafe as (_ & Hph & Htd%todo_nil). destruct (exited_held g I Hph Htd) as [Hh _].
    unfold check1 in Hc. cbn in Hc. destruct (held t); [done|]. unfold is_held in *.
    apply bool_decide_eq_false_1 in Hh. symmetry in Ht. apply bool_decide_eq_false_1 in Ht.
    destruct t0; congruence.
Qed.

(** The shared part of the steps of the main thread: nothing changes for the thread
    of the application. *)
Lemma inv_main_intro g g' k :
  inv g -> main_status g' = Running -> main_prog g' = k ->
  (exists t t', held t = is_held Main g' /\ check true t k = Some t' /\ held t' = false) ->
  app_prog g' = app_prog g -> app_phase g' = app_phase g -> is_held App g' = is_held App g ->
  heap_ok (memory g') ->
  (forall t, sound t (memory g) -> sound t (memory g')) ->
  (app (memory g') = None -> app (memory g) = None \/ app_prog g = [] /\ app_phase g <> InMain) -> inv g'.
Proof.
  intros I Hs Hp Hm Ea Eph Eh Hh Hso Hn. destruct I as [(t & t' & [Th Ts Tc Tf Ty]) Ii In Ih Ia Ist Im Isl Iw].
  split; rewrite ?Ea, ?Eph; try done.
  - exists t, t'. split; rewrite ?Ea, ?Eph, ?Eh; try done. by apply Hso.
  - intros Hn'. destruct (Hn Hn') as [?|?]; [by apply Ia|done].
  - unfold asleep. rewrite Hs, Hp, orb_false_r. done.
  - unfold asleep. by rewrite Hs.
  - by rewrite Hs.
Qed.

Lemma sound_same t s s' :
  attached s' = attached s -> app s' = app s -> sound t s -> sound t s'.
Proof. intros E1 E2 [? ? ? ?]. split; rewrite ?E1, ?E2; done. Qed.

(** Changes to the members that the type system does not speak of. *)
Lemma sound_members t s s' a a' :
  app s = Some a -> app s' = Some a' -> attached s' = attached s ->
  config a' = config a -> looper a' = looper a -> inputQueue a' = inputQueue a ->
  savedState a' = savedState a \/ savedState a' = 0 -> sound t s -> sound t s'.
Proof.
  intros Ha Ha' Et Ec El Ei Es [Sc Sl Se Ss]. specialize (Sc a Ha). specialize (Sl a Ha). specialize (Se a Ha).
  specialize (Ss a Ha). apply (sound_intro t s' a'); rewrite ?Ec, ?El, ?Ei, ?Et; try done.
  intros He. destruct Es as [->| ->]; auto.
Qed.

Lemma heap_ok_take a s o :
  heap_ok s -> app s = Some a -> savedState a <> 0 ->
  heap_ok (s <| handed := o |> <| given := savedState a :: given s |>
             <| app := Some (a <| savedState := 0 |> <| savedStateSize := 0 |>) |>).
Proof.
  intros [H1 H2 H3 H4] Ha Hn. split; cbn.
  - intros p. rewrite H1, elem_of_cons. split.
    + intros [?|(x & ? & ? & ?)]; simplify_eq; auto.
    + intros [[->|?]|(x & ? & ? & ?)]; simplify_eq/=; eauto.
  - done.
  - intros a' [= <-]. cbn. rewrite elem_of_cons. intros [?|Hg]; [done|]. destruct (H2 0); [apply H1; by left|lia].
  - done.
Qed.

Lemma heap_ok_free_app a s : heap_ok s -> app s = Some a -> savedState a = 0 -> heap_ok (s <| app := None |>).
Proof.
  intros [H1 H2 H3 H4] Ha H0. split; cbn; try done. intros p. rewrite H1.
  split; (intros [?|(x & ? & ? & ?)]; [by left|]); simplify_eq.
Qed.

Lemma heap_ok_new_app a s : heap_ok s -> app s = None -> savedState a = 0 -> heap_ok (s <| app := Some a |>).
Proof.
  intros [H1 H2 H3 H4] Ha H0. split; cbn; try done.
  - intros p. rewrite H1. split; (intros [?|(x & ? & ? & ?)]; [by left|]); simplify_eq.
  - intros a' [= <-]. rewrite H0. intros Hg. destruct (H2 0); [apply H1; by left|lia].
Qed.

Lemma inv_sleep g b k a :
  inv g -> main_status g = Running -> main_prog g = WaitWhile b :: k -> app (memory g) = Some a ->
  must_wait b a = true -> mutex g = Some Main -> inv (g <| mutex := None |> <| main_status := Waiting |>).
Proof.
  intros I Hs Hp Ha Hb Hm. destruct I as [(t & t' & [Th Ts Tc Tf Ty]) Ii In Ih Ia Ist Im Isl Iw].
  destruct g as [s m pi mp ms ap ph]; cbn in *; subst. split; try done; cbn.
  - exists t, t'. by split.
  - eauto.
  - intros b' k' a' _ [= <- <-] ?. simplify_eq. by left.
Qed.

Lemma inv_wakeup g :
  inv g -> main_status g = Woken -> mutex g = None -> inv (g <| mutex := Some Main |> <| main_status := Running |>).
Proof.
  intros [(t & t' & [Th Ts Tc Tf Ty]) Ii In Ih Ia Ist (u & u' & Hu & Hc & Hf) Isl Iw] Hs Hm.
  destruct g as [s m pi mp ms ap ph]; cbn in *; subst. split; try done; cbn.
  - exists t, t'. by split.
  - exists u, u'. split; [|done]. rewrite Hu. done.
Qed.

Lemma inv_create_thread g k :
  inv g -> main_status g = Running -> main_prog g = CreateThread :: k ->
  main_safe CreateThread (memory g) (todo g) (app_phase g) ->
  inv (g <| app_prog := android_app_entry |> <| app_phase := InMain |> <| main_prog := k |>).
Proof.
  intros I Hs Hp (a & Ha & Hi & Ht & Hph). pose proof (not_started_held g I Hph) as Hh.
  destruct (main_held g _ k I Hs Hp) as (u & u' & Hu & Hum & u2 & Hu2 & Hf). injection Hu as <-.
  destruct I as [_ _ _ Ih _ _ _ _ _]. destruct g as [s m pi mp ms ap ph]; cbn in *; subst.
  split; try done; cbn.
  - exists (mk_typing false false false false true), (mk_typing false true true false true).
    split; [done| |done|by eexists|by left]. eapply sound_intro; [done..|]. cbn. by rewrite Ht, Hi.
  - repeat constructor.
  - by rewrite Ha.
  - exists u, u2. cbn. by rewrite orb_false_r.
Qed.

Lemma inv_new_app g k :
  inv g -> main_status g = Running -> main_prog g = NewApp :: k ->
  main_safe NewApp (memory g) (todo g) (app_phase g) ->
  inv (g <| memory := (memory g) <| app := Some zero_app |> |> <| main_prog := k |>).
Proof.
  intros I Hs Hp (Hn & Hph & Hat). pose proof (not_started_held g I Hph) as Hh.
  destruct (main_held g _ k I Hs Hp) as (u & u' & Hu & Hum & u2 & Hu2 & Hf). injection Hu as <-.
  destruct I as [_ Ii In Ih _ Ist _ _ _]. destruct g as [s m pi mp ms ap ph]; cbn in *; subst.
  split; try done; cbn.
  - exists (mk_typing false false false false true), (mk_typing false false false false true).
    rewrite Ist by done. split; [done| |done|done|by left]. by eapply sound_intro.
  - by apply heap_ok_new_app.
  - exists u, u2. cbn. by rewrite orb_false_r.
Qed.

Lemma inv_copy g bytes k a :
  inv g -> main_status g = Running -> main_prog g = CopySavedState bytes :: k ->
  app (memory g) = Some a -> main_safe (CopySavedState bytes) (memory g) (todo g) (app_phase g) ->
  inv (g <| memory := save_block bytes a (memory g) |> <| main_prog := k |>).
Proof.
  intros I Hs Hp Ha (a' & Ha' & H0 & Hi & Hat & Hph). simplify_eq. pose proof (not_started_held g I Hph) as Hh.
  destruct (main_held g _ k I Hs Hp) as (u & u' & Hu & Hum & u2 & Hu2 & Hf). injection Hu as <-.
  destruct I as [_ Ii In Ih _ Ist _ _ _]. destruct g as [s m pi mp ms ap ph]; cbn in *; subst.
  split; try done; cbn.
  - exists (mk_typing false false false false true), (mk_typing false false false false true).
    assert (attached s = expected (inputQueue a)) by (by rewrite Hat, Hi).
    rewrite Ist by done. split; [done| |done|done|by left]. by eapply sound_intro.
  - by eapply heap_ok_save.
  - exists u, u2. cbn. by rewrite orb_false_r.
Qed.

Context `{!PlatformOk U}.

(** A step of the main thread that goes on after [i]. *)
Record main_effect (i : instr) (k : list instr) a g g' : Prop := {
  effect_prog : main_prog g' = k;
  effect_status : main_status g' = main_status g;
  effect_memory :
    match i with
    | NewApp => memory g' = (memory g) <| app := Some zero_app |>
    | FreeApp => memory g' = (memory g) <| app := None |>
    | _ => on_app i a (memory g) = Some (memory g')
    end;
  effect_app : i <> CreateThread -> app_prog g' = app_prog g /\ app_phase g' = app_phase g;
  effect_thread : i = CreateThread -> app_prog g' = android_app_entry /\ app_phase g' = InMain;
  effect_mutex : mutex g' = match i with Lock => Some Main | Unlock => None | _ => mutex g end;
  effect_lock : match i with
                | Lock | FreeApp => mutex g = None
                | Unlock | WaitWhile _ => mutex g = Some Main
                | _ => True
                end;
  effect_wait : match i with WaitWhile b => must_wait b a = false | _ => True end;
  effect_pipe : pipe g' =
    match i with
    | WriteCmd cmd => pipe g ++ [cmd]
    | TermWindow => if pendingWindow a =? 0 then pipe g else pipe g ++ [APP_CMD_TERM_WINDOW]
    | MakePipe | ClosePipe => []
    | _ => pipe g
    end
}.

Lemma exec_main i k a g g' :
  main_instr i = true -> app (memory g) = Some a -> exec Main i k g = Next g' ->
  main_effect i k a g g' \/
  exists b, i = WaitWhile b /\ must_wait b a = true /\ mutex g = Some Main /\
    g' = g <| mutex := None |> <| main_status := Waiting |>.
Proof.
  intros Hi Ha E. unfold exec in E. rewrite Ha in E. destruct g as [s m pi mp ms ap ph].
  unfold exec_on, done_or_blocked, write_pipe in E. cbn [pipe] in E.
  destruct (decide (length pi < capacity)%nat); destruct i; try discriminate Hi; cbn in *;
    repeat match type of E with context [match ?b with _ => _ end] => destruct b eqn:? end;
    try discriminate; simplify_eq/=; try (by rewrite pipe_works in *); try (by rewrite thread_works in *);
    try (left; by split; cbn; rewrite ?Heqb).
  all: right; eauto.
Qed.

(** The instructions of the main thread after the creation keep what the type system
    says of the memory. *)
Lemma main_memory i a s s' t :
  main_instr i = true -> (forall bytes, i <> CopySavedState bytes) ->
  app s = Some a -> on_app i a s = Some s' -> heap_ok s ->
  heap_ok s' /\ (sound t s -> sound t s') /\ is_Some (app s').
Proof.
  intros Hi Hc Ha E Hh.
  destruct i; try discriminate Hi; cbn [on_app] in E; try (by destruct (Hc bytes)); simplify_eq; try done.
  1,2,3: (split; [eapply heap_ok_update; [done..|]; by rewrite Ha|]; split; [|done]; by eapply sound_members; eauto).
  destruct (Z.eqb_spec (savedState a) 0) as [E0|E0]; injection E as <-.
  - split; [by eapply heap_ok_update|]. split; [by eapply sound_same|done].
  - split; [by apply heap_ok_take|]. split; [|done]. eapply sound_members; [done..|by right].
Qed.

Lemma inv_main_exec g i k g' :
  inv g -> main_status g = Running -> main_prog g = i :: k -> main_instr i = true ->
  main_safe i (memory g) (todo g) (app_phase g) -> exec Main i k g = Next g' -> inv g'.
Proof.
  intros I Hs Hp Hi Hsafe E. destruct (main_safe_app _ _ _ _ Hsafe) as [->|[a Ha]].
  { injection E as <-. by apply inv_new_app. }
  destruct (exec_main i k a g g' Hi Ha E) as [Eff|(b & -> & Hb & Hm & ->)]; [|by eapply inv_sleep].
  assert (N4 : i <> NewApp) by (intros ->; destruct Hsafe as [? _]; congruence).
  unfold exec in E. rewrite Ha in E.
  destruct (main_held g i k I Hs Hp) as (t & t' & Hc & Ht & t'' & Hk & Hf).
  pose proof (held_step _ _ _ _ Hc) as Hst. pose proof (inv_heap _ I) as Ih.
  assert (Hspecial : (exists bytes, i = CopySavedState bytes) \/ i = CreateThread \/ i = FreeApp \/
    ((forall bytes, i <> CopySavedState bytes) /\ i <> CreateThread /\ i <> FreeApp)).
  { destruct i; try discriminate Hi; first [by left; exists bytes|by right; left|by right; right; left|right; right; right; by repeat split]. }
  destruct Hspecial as [[bytes ->]|[->|[->|(N1 & N2 & N3)]]].
  - injection E as <-. by apply inv_copy.
  - cbn [exec_on] in E. rewrite thread_works in E. injection E as <-. by apply inv_create_thread.
  - destruct Hsafe as (_ & Hph & Htd%todo_nil). destruct (exited_held g I Hph Htd) as [Hh H0].
    destruct Eff as [Ep Es Em Ea _ Emu El _ _]. destruct Ea as [Eap Eph]; [done|].
    eapply (inv_main_intro g g' k); try done; [by rewrite Es| | | | | ].
    + exists t', t''. split; [|done]. rewrite Hst, Ht. unfold is_held. by rewrite Emu.
    + unfold is_held. by rewrite Emu.
    + rewrite Em. eapply heap_ok_free_app; eauto.
    + rewrite Em. intros u _. by split.
    + intros _. right. by rewrite Hph.
  - assert (Ho : on_app i a (memory g) = Some (memory g')).
    { destruct Eff as [_ _ Em _ _ _ _ _ _]. by destruct i. }
    destruct Eff as [Ep Es Em Ea _ Emu El _ _]. destruct (Ea N2) as [Eap Eph].
    destruct (main_memory i a _ _ t Hi N1 Ha Ho Ih) as (Hh & _ & Hs').
    eapply (inv_main_intro g g' k); try done; [by rewrite Es| | | | ].
    + exists t', t''. split; [|done]. rewrite Hst, Ht. unfold is_held. rewrite Emu. by destruct i.
    + unfold is_held. rewrite Emu. by destruct i; rewrite ?El.
    + intros u. by destruct (main_memory i a _ _ u Hi N1 Ha Ho Ih) as (_ & Hso & _).
    + intros Hn. rewrite Hn in Hs'. by destruct Hs'.
Qed.

Lemma inv_woken g g' : main_status g = Woken -> main_step g = Next g' -> inv g -> inv g'.
Proof.
  intros Hs E I. unfold main_step in E. rewrite Hs in E. destruct (mutex g) eqn:Hm; [done|].
  injection E as <-. by apply inv_wakeup.
Qed.

End Proofs.
