(* ===== verification/AppContract.v ===== *)
(** * The contract of native_app_glue

    Every function of the main thread has an outline in the style of Owicki and
    Gries: an assertion before each instruction, true when the main thread gets
    there and kept by every step of the thread of the application.  With the
    invariant of the threads the outlines show that no step is undefined behaviour,
    that the application sees the window, the input queue and the state that the
    framework last announced, that saved states arrive, and that every callback
    returns. *)

From coqutil Require Import Datatypes.RecordSetters.
From S2P Require Import Prelude AppGlue AppThreads.
Import TriangleBracketNotations.

Section Parts.
Context {U : Type} `{Platform U}.
Implicit Types (a : android_app U) (s : store U).

(** ** The parts of an assertion *)

Definition part := store U -> android_app U -> list instr -> phase -> Prop.

Definition any : part := fun _ _ _ _ => True.

(** The window: what the last command about it will do. *)
Fixpoint last_window (td : list instr) : option bool :=
  match td with
  | [] => None
  | i :: td =>
      match last_window td, i with
      | Some b, _ => Some b
      | None, TakeWindow => Some true
      | None, ClearWindow => Some false
      | None, _ => None
      end
  end.

(** The application will end up with the window [w]. *)
Definition window_coming (w : Z) : part := fun _ a td _ =>
  pendingWindow a = w /\
  match last_window td with
  | None => window a = w
  | Some true => True
  | Some false => w = 0
  end.

(** It has no other window in the meantime. *)
Definition window_calm (w : Z) : part := fun s a td ph =>
  window_coming w s a td ph /\ (window a = 0 \/ window a = w).

(** The old window [w] has been taken back. *)
Definition window_term (w : Z) : part := fun _ a td _ =>
  pendingWindow a = w /\
  match last_window td with
  | None => window a = 0
  | Some true => w = 0
  | Some false => True
  end.

Definition window_set (w : Z) : part := fun s a td ph =>
  if w =? 0 then window_coming 0 s a td ph else pendingWindow a = w.

(** The input queue. *)
Definition queue_calm (q : Z) : part := fun _ a _ _ => inputQueue a = q /\ pendingInputQueue a = q.

Definition queue_set (q : Z) : part := fun _ a _ _ => pendingInputQueue a = q.

Definition queue_coming (q : Z) : part := fun _ a td _ =>
  pendingInputQueue a = q /\ (TakeInput ∈ td \/ inputQueue a = q).

(** The state of the activity. *)
Definition states (td : list instr) : list Z :=
  omap (fun i => match i with SetActivityState cmd => Some cmd | _ => None end) td.

Definition state_calm (c : Z) : part := fun _ a td _ =>
  activityState a = c /\ Forall (eq c) (states td).

Definition state_coming (c : Z) : part := fun _ a td _ =>
  (exists l, states td = l ++ [c] /\ Forall (eq (activityState a)) l) \/
  activityState a = c /\ states td = [].

(** The saved state. *)
Definition no_save (td : list instr) : Prop :=
  OnAppCmd APP_CMD_SAVE_STATE ∉ td /\ SetStateSaved ∉ td.

Definition save_calm : part := fun s _ td _ => handed s = saves s /\ no_save td.

Definition save_cleared : part := fun s a td _ => 
  handed s = saves s /\ no_save td /\ stateSaved a = false /\ 0 < next_block s.

(** The bytes in [savedState]. *)
Definition block s a : option cstr := if savedState a =? 0 then None else heap s !! savedState a.

Definition save_coming : part := fun s a td _ =>
  (handed s = saves s /\ stateSaved a = false /\ 0 < next_block s /\
   exists pre, td = pre ++ [OnAppCmd APP_CMD_SAVE_STATE; Lock; SetStateSaved; Broadcast; Unlock] /\
     no_save pre /\ (FreeSavedState ∈ pre \/ savedState a = 0)) \/
  (saves s = handed s ++ [block s a] /\
   (stateSaved a = false /\ (td = [Lock; SetStateSaved; Broadcast; Unlock] \/ td = [SetStateSaved; Broadcast; Unlock]) \/
    stateSaved a = true /\ (td = [Broadcast; Unlock] \/ td = [Unlock] \/ td = []))).

Definition save_done : part := fun s a td _ =>
  saves s = handed s ++ [block s a] /\ (td = [Broadcast; Unlock] \/ td = [Unlock] \/ td = []).

(** The life of the thread. *)
Definition quiet (td : list instr) : Prop := SetDestroyRequested ∉ td /\ SetDestroyed ∉ td.

Definition unstarted : part := fun s a td ph =>
  ph = NotStarted /\ td = [] /\ attached s = [] /\ a.(destroyRequested) = false /\ destroyed a = false.

Definition living : part := fun _ a td ph =>
  ph = InMain /\ quiet td /\ destroyRequested a = false /\ destroyed a = false.

Definition starting : part := fun s a td ph =>
  living s a td ph /\ (SetRunning ∈ td \/ running a = true).

Definition dying : part := fun _ a td ph =>
  match ph with
  | InMain => (SetDestroyRequested ∈ td \/ destroyRequested a = true) /\ SetDestroyed ∉ td /\ destroyed a = false
  | Leaving =>
      destroyed a = false /\ (exists pre, td = pre ++ [SetDestroyed; Broadcast; Unlock] /\ SetDestroyed ∉ pre) \/
      destroyed a = true /\ (td = [Broadcast; Unlock] \/ td = [Unlock] \/ td = [])
  | NotStarted => False
  end.

Definition exited : part := fun _ _ td ph => ph = Leaving /\ td = [].

(** ** Steps of the thread of the application keep the parts *)

Record steady (C : part) : Prop := {
  steady_instr s a td ph i s' a' : app_instr i = true -> app s = Some a -> on_app i a s = Some s' ->
    app s' = Some a' -> after i a a' -> C s a (i :: td) ph -> C s' a' td ph;
  steady_user s s' a u td ph : similar s s' -> C s a td ph -> C s' (a <| userData := u |>) td ph
}.

Lemma any_steady : steady any.
Proof. done. Qed.

Lemma window_coming_steady w : steady (window_coming w).
Proof.
  split; [|done]. intros s a td ph i s' a' Hi Ha E Ha' [Ew _ _ _ _ _ _ _ Ep] [Hp Hl]. split; [congruence|].
  cbn in Hl. rewrite Ew. destruct (last_window td) as [[]|]; try done. destruct i; try done; congruence.
Qed.

Lemma window_calm_steady w : steady (window_calm w).
Proof.
  split; [|done]. intros s a td ph i s' a' Hi Ha E Ha' Haf [Hc Hw].
  split; [exact (steady_instr _ (window_coming_steady w) s a td ph i s' a' Hi Ha E Ha' Haf Hc)|].
  destruct Hc as [Hp _]. rewrite (after_window _ _ _ Haf). destruct i; auto.
Qed.

Lemma window_term_steady w : steady (window_term w).
Proof.
  split; [|done]. intros s a td ph i s' a' Hi Ha E Ha' [Ew _ _ _ _ _ _ _ Ep] [Hp Hl]. split; [congruence|].
  cbn in Hl. rewrite Ew. destruct (last_window td) as [[]|]; try done. destruct i; try done; congruence.
Qed.

Lemma window_set_steady w : steady (window_set w).
Proof.
  unfold window_set. destruct (w =? 0); [apply window_coming_steady|].
  split; [|done]. intros s a td ph i s' a' Hi Ha E Ha' Haf Hp. by rewrite (after_pending_window _ _ _ Haf).
Qed.

Lemma queue_calm_steady q : steady (queue_calm q).
Proof.
  split; [|done]. intros s a td ph i s' a' Hi Ha E Ha' Haf [Hq Hp].
  unfold queue_calm. rewrite (after_input _ _ _ Haf), (after_pending_input _ _ _ Haf). by destruct i.
Qed.

Lemma queue_set_steady q : steady (queue_set q).
Proof.
  split; [|done]. intros s a td ph i s' a' Hi Ha E Ha' Haf Hp. unfold queue_set. by rewrite (after_pending_input _ _ _ Haf).
Qed.

Lemma queue_coming_steady q : steady (queue_coming q).
Proof.
  split; [|done]. intros s a td ph i s' a' Hi Ha E Ha' Haf [Hp Hq].
  unfold queue_coming. rewrite (after_input _ _ _ Haf), (after_pending_input _ _ _ Haf). split; [done|].
  destruct Hq as [[<-|Hq]%elem_of_cons|Hq]; [by right|by left|right; by destruct i].
Qed.

Lemma state_calm_steady c : steady (state_calm c).
Proof.
  split; [|done]. intros s a td ph i s' a' Hi Ha E Ha' Haf [Hc Hs]. unfold state_calm.
  rewrite (after_state _ _ _ Haf). destruct i; try done. by inversion_clear Hs.
Qed.

Lemma state_coming_steady c : steady (state_coming c).
Proof.
  split; [|done]. intros s a td ph i s' a' Hi Ha E Ha' Haf Hs. unfold state_coming.
  rewrite (after_state _ _ _ Haf). destruct i; try done.
  destruct Hs as [([|x l] & Hs & Hl)|[_ ?]]; [| |done]; cbn in Hs; simplify_eq; [by right|left].
  inversion_clear Hl as [|? ? <- ?]. by exists l.
Qed.

(** The part of the heap that [block] speaks of. *)
Lemma on_app_block i a s s' a' :
  app_instr i = true -> app s = Some a -> on_app i a s = Some s' -> app s' = Some a' ->
  match i with
  | FreeSavedState => savedState a' = 0
  | OnAppCmd cmd => if cmd =? APP_CMD_SAVE_STATE
                    then savedState a = 0 -> 0 < next_block s -> saves s' = saves s ++ [block s' a']
                    else savedState a' = savedState a /\ heap s' = heap s
  | _ => savedState a' = savedState a /\ heap s' = heap s
  end.
Proof.
  intros Hi Ha E Ha'. destruct i; try discriminate Hi; cbn [on_app] in E.
  all: try (injection E as <-; injection Ha' as <-; done).
  all: try (simplify_eq; done).
  - destruct (Z.eqb_spec (savedState a) 0) as [E0|E0]; [congruence|].
    destruct (heap s !! savedState a); [|done]. injection E as <-. by injection Ha' as <-.
  - destruct (inputQueue a =? 0); injection E as <-; change (app s = Some a') in Ha'; by simplify_eq.
  - destruct (inputQueue a =? 0); [injection E as <-; by simplify_eq|].
    destruct (looper a); [|done]. injection E as <-. change (app s = Some a') in Ha'; by simplify_eq.
  - destruct (config a); [|done]. injection E as <-. by injection Ha' as <-.
  - destruct (match onAppCmd with Some f => _ | None => _ end) as [u [bytes|]];
      (destruct (cmd =? APP_CMD_SAVE_STATE); [intros H0 Hn|]; injection E as <-; injection Ha' as <-; [|done]).
    + destruct s as [? ? nb]. unfold block. cbn in *. destruct (Z.eqb_spec nb 0); [lia|]. by rewrite lookup_insert_eq.
    + destruct a. unfold block. cbn in *. by rewrite H0.
  - destruct (config a); [|done]. injection E as <-. by injection Ha' as <-.
Qed.

Lemma on_app_next i a s s' : on_app i a s = Some s' -> next_block s <= next_block s'.
Proof.
  intros E. destruct i; cbn [on_app] in E;
    repeat match type of E with context [match ?b with _ => _ end] => destruct b end;
    try discriminate; injection E as <-; destruct s; cbn; lia.
Qed.

Lemma no_save_cons i td : no_save (i :: td) -> i <> OnAppCmd APP_CMD_SAVE_STATE /\ i <> SetStateSaved /\ no_save td.
Proof. unfold no_save. rewrite !not_elem_of_cons. intros [[? ?] [? ?]]. auto. Qed.

Lemma save_calm_steady : steady save_calm.
Proof.
  split.
  - intros s a td ph i s' a' Hi Ha E Ha' Haf [Hs (Hn1 & Hn2 & Hn)%no_save_cons].
    destruct (on_app_history i a s s' Hi E) as (Eh & _ & Es). split; [|done]. rewrite Eh, Es; done.
  - intros s s' a u td ph (_ & _ & _ & _ & Es & Eh & _) [Hs Hn]. split; [congruence|done].
Qed.

Lemma save_cleared_steady : steady save_cleared.
Proof.
  split.
  - intros s a td ph i s' a' Hi Ha E Ha' Haf (Hs & (Hn1 & Hn2 & Hn)%no_save_cons & Hf & H0).
    destruct (on_app_history i a s s' Hi E) as (Eh & _ & Es). pose proof (on_app_next i a s s' E) as Hnx.
    split_and!; [rewrite Eh, Es; done|done| |lia]. rewrite (after_saved _ _ _ Haf). by destruct i.
  - intros s s' a u td ph (_ & _ & En & _ & Es & Eh & _) (Hs & Hn). unfold save_cleared. by rewrite Eh, Es, En.
Qed.

Lemma block_after i a s s' a' :
  app_instr i = true -> app s = Some a -> on_app i a s = Some s' -> app s' = Some a' ->
  i = Lock \/ i = SetStateSaved \/ i = Broadcast \/ i = Unlock -> block s' a' = block s a /\ saves s' = saves s.
Proof.
  intros Hi Ha E Ha' Hor. pose proof (on_app_block i a s s' a' Hi Ha E Ha') as Hb.
  destruct (on_app_history i a s s' Hi E) as (_ & _ & Es). unfold block.
  destruct Hor as [->|[->|[->| ->]]]; destruct Hb as [-> ->]; (split; [done|]; by apply Es).
Qed.

Lemma save_coming_steady : steady save_coming.
Proof.
  split.
  - intros s a td ph i s' a' Hi Ha E Ha' Haf Hs.
    destruct (on_app_history i a s s' Hi E) as (Eh & _ & Es). pose proof (on_app_next i a s s' E) as Hnx.
    pose proof (on_app_block i a s s' a' Hi Ha E Ha') as Hb.
    destruct Hs as [(Hh & Hf & H0 & pre & Htd & Hn & Hpre)|(Hh & Hst)].
    + destruct pre as [|x pre]; cbn in Htd; injection Htd as -> ->.
      * right. destruct Hpre as [?%elem_of_nil|Hpre]; [done|]. cbn in Hb. rewrite Eh, Hb, Hh by done. split; [done|].
        left. rewrite (after_saved _ _ _ Haf). auto.
      * apply no_save_cons in Hn as (Hn1 & Hn2 & Hn). left. rewrite Eh, Es, (after_saved _ _ _ Haf) by done.
        split; [done|]. split; [by destruct x|]. split; [lia|]. exists pre. split; [done|]. split; [done|].
        destruct Hpre as [[<-|?]%elem_of_cons|Hpre]; [by right|by left|right].
        destruct x; try done; try (by destruct Hb as [-> _]).
        destruct (Z.eqb_spec cmd APP_CMD_SAVE_STATE); [congruence|]. by destruct Hb as [-> _].
    + right. assert (Hor : i = Lock \/ i = SetStateSaved \/ i = Broadcast \/ i = Unlock) by (naive_solver).
      destruct (block_after i a s s' a' Hi Ha E Ha' Hor) as [-> ->]. rewrite Eh. split; [done|].
      rewrite (after_saved _ _ _ Haf). naive_solver.
  - intros s s' a u td ph (Ehe & _ & En & _ & Es & Eh & _) Hs. unfold save_coming, block in *. cbn.
    rewrite Es, Eh, Ehe, En. destruct a; exact Hs.
Qed.

Lemma save_done_steady : steady save_done.
Proof.
  split.
  - intros s a td ph i s' a' Hi Ha E Ha' Haf [Hs Htd].
    assert (Hor : i = Lock \/ i = SetStateSaved \/ i = Broadcast \/ i = Unlock) by (naive_solver).
    destruct (block_after i a s s' a' Hi Ha E Ha' Hor) as [Eb Esv].
    destruct (on_app_history i a s s' Hi E) as (Eh & _ & _). unfold save_done. rewrite Eb, Esv, Eh.
    split; [done|]. naive_solver.
  - intros s s' a u td ph (Ehe & _ & _ & _ & Es & Eh & _) Hs. unfold save_done, block in *. cbn.
    rewrite Es, Eh, Ehe. destruct a; exact Hs.
Qed.

Lemma living_steady : steady living.
Proof.
  split; [|done]. intros s a td ph i s' a' Hi Ha E Ha' Haf (Hph & [Hq1 Hq2] & Hr & Hd).
  apply not_elem_of_cons in Hq1 as [? ?], Hq2 as [? ?]. split; [done|]. split; [done|].
  rewrite (after_requested _ _ _ Haf), (after_destroyed _ _ _ Haf). by destruct i.
Qed.

Lemma starting_steady : steady starting.
Proof.
  split; [|done]. intros s a td ph i s' a' Hi Ha E Ha' Haf [Hl Hr].
  split; [exact (steady_instr _ living_steady s a td ph i s' a' Hi Ha E Ha' Haf Hl)|].
  rewrite (after_running _ _ _ Haf). destruct Hr as [[<-|?]%elem_of_cons|?]; [by right|by left|right; by destruct i].
Qed.

Lemma unstarted_steady : steady unstarted.
Proof.
  split; [by intros s a td ph i s' a' Hi Ha E Ha' Haf (? & ? & ?)|].
  intros s s' a u td ph (_ & _ & _ & Ea & _) (? & ? & Hat & ?). split; [done|]. split; [done|]. by rewrite Ea.
Qed.

Lemma dying_steady : steady dying.
Proof.
  split; [|done]. intros s a td ph i s' a' Hi Ha E Ha' Haf Hd. destruct ph; [done| |]; cbn in *;
    rewrite ?(after_requested _ _ _ Haf), (after_destroyed _ _ _ Haf).
  - destruct Hd as (Hr & [? ?]%not_elem_of_cons & Hf). split; [|split; [done|by destruct i]].
    destruct Hr as [[<-|?]%elem_of_cons|?]; [by right|by left|right; by destruct i].
  - destruct Hd as [(Hf & [|x pre] & Htd & Hn)|(Hf & Hd)].
    + injection Htd as -> ->. right. auto.
    + injection Htd as -> ->. apply not_elem_of_cons in Hn as [? ?]. left. split; [by destruct x|eauto].
    + right. naive_solver.
Qed.

Lemma exited_steady : steady exited.
Proof. split; [|done]. by intros s a td ph i s' a' Hi Ha E Ha' Haf [? ?]. Qed.

End Parts.

Create HintDb glue.
#[export] Hint Resolve any_steady window_coming_steady window_calm_steady window_term_steady window_set_steady
  queue_calm_steady queue_set_steady queue_coming_steady state_calm_steady state_coming_steady
  save_calm_steady save_cleared_steady save_coming_steady save_done_steady
  living_steady starting_steady unstarted_steady dying_steady exited_steady : glue.

#[global] Instance waiting_for_eq_dec : EqDecision waiting_for.
Proof. solve_decision. Defined.

#[global] Instance instr_eq_dec : EqDecision instr.
Proof. solve_decision. Defined.

(** An instruction does not occur in a given program. *)
Ltac absent := apply (bool_decide_unpack _); vm_compute; exact I.

(** ** Outlines *)

Section Outlines.
Context {U : Type} `{PlatformOk U}.
Implicit Types (a : android_app U) (s : store U) (g : glue U) (P Q : @assertion U) (W K A S L : @part U).

Definition all W K A S L : part := fun s a td ph =>
  W s a td ph /\ K s a td ph /\ A s a td ph /\ S s a td ph /\ L s a td ph.

Lemma all_steady W K A S L :
  steady W -> steady K -> steady A -> steady S -> steady L -> steady (all W K A S L).
Proof.
  intros HW HK HA HS HL. split.
  - intros s a td ph i s' a' Hi Ha E Ha' Haf (PW & PK & PA & PS & PL).
    split; [|split; [|split; [|split]]];
      [apply (steady_instr _ HW s a td ph i)|apply (steady_instr _ HK s a td ph i)
      |apply (steady_instr _ HA s a td ph i)|apply (steady_instr _ HS s a td ph i)
      |apply (steady_instr _ HL s a td ph i)]; done.
  - intros s s' a u td ph Hs (PW & PK & PA & PS & PL).
    split; [|split; [|split; [|split]]];
      [apply (steady_user _ HW s)|apply (steady_user _ HK s)|apply (steady_user _ HA s)
      |apply (steady_user _ HS s)|apply (steady_user _ HL s)]; done.
Qed.

(** The object exists and has these parts. *)
Definition here W K A S L : assertion := fun s td ph =>
  exists a, app s = Some a /\ all W K A S L s a td ph.

(** Steps of the thread of the application keep an assertion whose parts they keep,
    if the return from [android_main] does. *)
Lemma here_stable W K A S L :
  steady W -> steady K -> steady A -> steady S -> steady L ->
  (forall s a td, app s = Some a -> destroyRequested a = true -> here W K A S L s td InMain ->
     here W K A S L s android_app_destroy Leaving) -> stable (here W K A S L).
Proof.
  intros HW HK HA HS HL Hr s td ph s' td' ph' Hm Hh. pose proof (all_steady W K A S L HW HK HA HS HL) as HC.
  destruct Hm as [s a0 i td ph s' Ha0 Hi E|s a0 u done td ph Ha0|s c td ph|s a0 td Ha0 Hd]; [| | |by eauto].
  all: destruct Hh as (a & Ha & Hh).
  - assert (a0 = a) as -> by congruence. destruct (on_app_after i a s s' Hi Ha E) as (a' & Ha' & Haf). exists a'. split; [done|].
    by apply (steady_instr _ HC s a td ph i s' a').
  - assert (a0 = a) as -> by congruence. exists (a <| userData := u |>). split; [done|].
    assert (Hs : similar s (s <| app := Some (a <| userData := u |>) |> <| finished := done |>)).
    { unfold similar. cbn. rewrite Ha. repeat split; eauto. }
    by apply (steady_user _ HC s).
  - exists a. split; [done|]. assert (Hs : similar s (s <| assets := c |>)).
    { destruct s as [[b|]]; cbn in *; repeat split; eauto. exists (userData b). by destruct b. }
    replace a with (a <| userData := userData a |>) by (by destruct a).
    by apply (steady_user _ HC s).
Qed.

(** While nobody asks for the end, [android_main] does not return. *)
Lemma living_stable W K A S L :
  steady W -> steady K -> steady A -> steady S -> steady L ->
  (forall s a td, L s a td InMain -> destroyRequested a = false) -> stable (here W K A S L).
Proof.
  intros HW HK HA HS HL Hr. apply here_stable; [done..|].
  intros s a td Ha Hd (a' & Ha' & _ & _ & _ & _ & HLi). assert (a' = a) as -> by congruence. by rewrite (Hr s a td) in Hd.
Qed.

Lemma dying_stable : stable (here any any any save_calm dying).
Proof.
  apply here_stable; [auto with glue..|].
  intros s a td Ha Hd (a' & Ha' & _ & _ & _ & [Hs _] & (_ & _ & Hf)). exists a'.
  repeat split; try done; [absent|absent|].
  left. split; [done|]. exists (free_saved_state ++ [Lock; DetachInput; DeleteConfig]). split; [done|absent].
Qed.

Lemma exited_stable : stable (here any any any save_calm exited).
Proof.
  apply here_stable; [auto with glue..|]. by intros s a td Ha Hd (a' & Ha' & _ & _ & _ & _ & [? _]).
Qed.

(** ** Correct steps of the main thread *)

Definition correct P (i : instr) Q : Prop := forall g g' k,
  inv g -> at_point P g -> main_status g = Running -> main_prog g = i :: k ->
  exec Main i k g = Next g' -> main_status g' = Running -> at_point Q g'.

Lemma correct_effect P i Q :
  main_instr i = true -> (forall s td ph, P s td ph -> is_Some (app s)) ->
  (forall g g' k a, inv g -> at_point P g -> app (memory g) = Some a -> main_effect i k a g g' -> at_point Q g') ->
  correct P i Q.
Proof.
  intros Hi Hp Hc g g' k I HP Hs Hm E Hs'. destruct (Hp _ _ _ HP) as [a Ha].
  destruct (exec_main i k a g g' Hi Ha E) as [Eff|(b & -> & _ & _ & ->)]; [by eapply Hc|]. by destruct g.
Qed.

Lemma todo_same g g' :
  app_prog g' = app_prog g -> app_phase g' = app_phase g -> pipe g' = pipe g -> todo g' = todo g.
Proof. unfold todo. by intros -> -> ->. Qed.

Lemma todo_write g g' cmd :
  app_prog g' = app_prog g -> app_phase g' = app_phase g -> app_phase g = InMain ->
  pipe g' = pipe g ++ [cmd] -> todo g' = todo g ++ process_cmd cmd.
Proof. unfold todo. intros -> -> -> ->. by rewrite flat_map_app, app_assoc; cbn; rewrite app_nil_r. Qed.

Lemma correct_silent P i :
  i = Lock \/ i = Unlock -> (forall s td ph, P s td ph -> is_Some (app s)) -> correct P i P.
Proof.
  intros Hi Hp. apply correct_effect; [by destruct Hi as [->| ->]|done|].
  intros g g' k a I HP Ha [Ep Es Em Ea _ _ _ _ Epi]. unfold at_point.
  destruct Ea as [Eap Eph]; [by destruct Hi as [->| ->]|].
  rewrite (todo_same g g'), Eph; [|done|done|by destruct Hi as [->| ->]].
  assert (on_app i a (memory g) = Some (memory g')) as Eo by (by destruct Hi as [->| ->]).
  assert (memory g' = memory g) as -> by (destruct Hi as [->| ->]; by injection Eo). done.
Qed.

Lemma correct_wait P b Q :
  (forall s td ph, P s td ph -> is_Some (app s)) ->
  (forall s a td ph, app s = Some a -> must_wait b a = false -> P s td ph -> Q s td ph) ->
  correct P (WaitWhile b) Q.
Proof.
  intros Hp HQ. apply correct_effect; [done..|].
  intros g g' k a I HP Ha [Ep Es Em Ea _ _ _ Ew Epi]. unfold at_point. destruct Ea as [Eap Eph]; [done|].
  rewrite (todo_same g g'), Eph by done. injection Em as <-. by eapply HQ.
Qed.

Lemma correct_write P cmd Q :
  (forall s td ph, P s td ph -> is_Some (app s) /\ ph = InMain) ->
  (forall s td, P s td InMain -> Q s (td ++ process_cmd cmd) InMain) -> correct P (WriteCmd cmd) Q.
Proof.
  intros Hp HQ. apply correct_effect; [done|intros; by eapply Hp|].
  intros g g' k a I HP Ha [Ep Es Em Ea _ _ _ Ew Epi]. unfold at_point. destruct Ea as [Eap Eph]; [done|].
  destruct (Hp _ _ _ HP) as [_ Hph]. unfold at_point in HP. rewrite Hph in HP.
  rewrite (todo_write g g' cmd), Eph, Hph by done. injection Em as <-. by apply HQ.
Qed.

(** The instructions that only change members. *)
Definition member_instr (i : instr) : bool :=
  match i with
  | CopySavedState _ | SetPendingInput _ | SetPendingWindow _ | ClearStateSaved | TakeSavedState => true
  | _ => false
  end.

Lemma correct_member P i Q :
  member_instr i = true -> (forall s td ph, P s td ph -> is_Some (app s)) ->
  (forall s a s' td ph, app s = Some a -> on_app i a s = Some s' -> 0 < next_block s -> P s td ph -> Q s' td ph) ->
  correct P i Q.
Proof.
  intros Hi Hp HQ. apply correct_effect; [by destruct i|done|].
  intros g g' k a I HP Ha [Ep Es Em Ea _ _ _ Ew Epi]. unfold at_point.
  destruct Ea as [Eap Eph]; [by destruct i|].
  rewrite (todo_same g g'), Eph; [|done|done|by destruct i].
  eapply HQ; [done| |apply (heap_next _ (inv_heap _ I))|done]. by destruct i.
Qed.

Lemma correct_term P Q :
  (forall s td ph, P s td ph -> is_Some (app s) /\ ph = InMain) ->
  (forall s a td, app s = Some a -> P s td InMain ->
     Q s (if pendingWindow a =? 0 then td else td ++ process_cmd APP_CMD_TERM_WINDOW) InMain) ->
  correct P TermWindow Q.
Proof.
  intros Hp HQ. apply correct_effect; [done|intros; by eapply Hp|].
  intros g g' k a I HP Ha [Ep Es Em Ea _ _ _ Ew Epi]. unfold at_point. destruct Ea as [Eap Eph]; [done|].
  destruct (Hp _ _ _ HP) as [_ Hph]. unfold at_point in HP. rewrite Hph in HP.
  specialize (HQ _ _ _ Ha HP). injection Em as Em. rewrite <-Em, Eph, Hph. destruct (pendingWindow a =? 0).
  - by rewrite (todo_same g g').
  - by rewrite (todo_write g g' APP_CMD_TERM_WINDOW).
Qed.

(** ** New commands and the parts *)

Lemma last_window_app p q :
  last_window (p ++ q) = match last_window q with Some b => Some b | None => last_window p end.
Proof. induction p as [|i p IH]; cbn; [by destruct (last_window q)|]. rewrite IH. by destruct (last_window q). Qed.

Lemma window_calm_app w s a td ph l :
  last_window l = None -> window_calm w s a td ph -> window_calm w s a (td ++ l) ph.
Proof. intros Hl [[Hp Hc] Hw]. split; [split; [done|]|done]. by rewrite last_window_app, Hl. Qed.

Lemma states_app p q : states (p ++ q) = states p ++ states q.
Proof. apply omap_app. Qed.

Lemma state_calm_app c s a td ph l : states l = [] -> state_calm c s a td ph -> state_calm c s a (td ++ l) ph.
Proof. intros Hl [Ha Hs]. split; [done|]. by rewrite states_app, Hl, app_nil_r. Qed.

Lemma no_save_app p q : no_save p -> no_save q -> no_save (p ++ q).
Proof. intros [? ?] [? ?]. split; rewrite elem_of_app; tauto. Qed.

Lemma save_calm_app s a td ph l : no_save l -> save_calm s a td ph -> save_calm s a (td ++ l) ph.
Proof. intros Hl [Hs Hn]. split; [done|by apply no_save_app]. Qed.

Lemma living_app s a td ph l : quiet l -> living s a td ph -> living s a (td ++ l) ph.
Proof. intros [? ?] (Hph & [? ?] & Hr). split; [done|]. split; [|done]. split; rewrite elem_of_app; tauto. Qed.

(** ** The assertions between the callbacks *)

(** No callback runs; the framework last announced window [w], queue [q] and state [c]. *)
Definition calm (w q c : Z) : assertion :=
  here (window_calm w) (queue_calm q) (state_calm c) save_calm living.

(** The activity is destroyed and the object is freed. *)
Definition dead : assertion := fun s td ph => app s = None /\ ph = Leaving /\ td = [] /\ handed s = saves s.

(** When the thread of the application has nothing to do, the wait is over, or that
    thread is to return. *)
Definition answered P (b : waiting_for) : Prop := forall s a td ph,
  app s = Some a -> P s td ph ->
  ph <> NotStarted /\ (td = [] -> must_wait b a = false \/ ph = InMain /\ destroyRequested a = true).

Definition outline : Type := list (@assertion U * instr).

Definition follows (o : outline) Q : assertion := match o with [] => Q | (P, _) :: _ => P end.

Fixpoint outlined (o : outline) Q : Prop :=
  match o with
  | [] => True
  | (P, i) :: o =>
      main_instr i = true /\ stable P /\ (forall s td ph, P s td ph -> main_safe i s td ph) /\
      correct P i (follows o Q) /\ (forall b, i = WaitWhile b -> answered P b) /\ outlined o Q
  end.

Lemma here_app W K A S L s td ph : here W K A S L s td ph -> is_Some (app s).
Proof. intros (a & Ha & _). by exists a. Qed.

Lemma here_living W K A S s td ph : here W K A S living s td ph -> is_Some (app s) /\ ph = InMain.
Proof. intros (a & Ha & _ & _ & _ & _ & (Hph & _)). split; [by exists a|done]. Qed.

Lemma living_requested s a td : living s a td InMain -> destroyRequested a = false.
Proof. by intros (_ & _ & ? & _). Qed.

Lemma calm_stable w q c : stable (calm w q c).
Proof. apply living_stable; auto with glue. apply living_requested. Qed.

(** A point of an outline in which the thread of the application lives. *)
Lemma outlined_cons W K A S i o Q :
  main_instr i = true -> i <> NewApp -> i <> CreateThread -> i <> FreeApp -> (forall b, i <> CopySavedState b) ->
  steady W -> steady K -> steady A -> steady S ->
  correct (here W K A S living) i (follows o Q) ->
  (forall b s a, i = WaitWhile b -> all W K A S living s a [] InMain -> must_wait b a = false) -> outlined o Q ->
  outlined ((here W K A S living, i) :: o) Q.
Proof.
  intros Hi N1 N2 N3 N4 HW HK HA HS Hc Hb Ho. split_and!; try done.
  - apply living_stable; auto with glue. apply living_requested.
  - intros s td ph Hh%here_app. destruct i; try done. by destruct (N4 bytes).
  - intros b Eb s a td ph Ha (a' & Ha' & Hp). assert (a' = a) as -> by congruence.
    pose proof Hp as (_ & _ & _ & _ & (Hph & _)). subst ph. split; [done|]. intros ->. left. by apply (Hb b s).
Qed.

(** One point of an outline: the lemma for its instruction. *)
Ltac point := apply outlined_cons; [done|done|done|done|done|auto with glue..| |try discriminate| ].

Ltac silent := apply correct_silent; [by auto|apply here_app].

(** Take an assertion and its goal apart. *)
Ltac parts H := destruct H as (a & Ha & HW & HK & HA & HS & HL).

Ltac same_app :=
  match goal with H1 : app ?s = Some ?a0, H2 : app ?s = Some ?a |- _ =>
    assert (a0 = a) as -> by congruence; clear H1 end.

(** *** Input queue *)

Definition outline_input (w q c q' : Z) : outline :=
  [(calm w q c, Lock);
   (calm w q c, SetPendingInput q');
   (here (window_calm w) (queue_set q') (state_calm c) save_calm living, WriteCmd APP_CMD_INPUT_CHANGED);
   (here (window_calm w) (queue_coming q') (state_calm c) save_calm living, WaitWhile input_pending);
   (calm w q' c, Unlock)].

Lemma input_outlined w q c q' : outlined (outline_input w q c q') (calm w q' c).
Proof.
  unfold outline_input, calm.
  point; [silent|]. point.
  { apply correct_member; [done|apply here_app|]. intros s a0 s' td ph Ha0 E Hn Hh. parts Hh. same_app.
    injection E as <-. exists (a <| pendingInputQueue := q' |>). split; [done|]. by split_and!. }
  point.
  { apply correct_write; [apply here_living|]. intros s td Hh. parts Hh. exists a. split; [done|]. split_and!.
    - by apply window_calm_app.
    - split; [done|]. left. apply elem_of_app. right. by apply (bool_decide_unpack _).
    - by apply state_calm_app.
    - apply save_calm_app; [|done]. split; absent.
    - apply living_app; [|done]. split; absent. }
  point.
  { apply correct_wait; [apply here_app|]. intros s a0 td ph Ha0 Hw Hh. parts Hh. same_app. exists a. split; [done|].
    split_and!; try done. cbn in Hw. bool_to_prop. destruct HK as [HK _]. split; congruence. }
  { intros b s a [= <-] (_ & (Hp & [?%elem_of_nil|Hq]) & _); [done|]. cbn. by rewrite Hp, Hq, Z.eqb_refl. }
  point; [silent|]. done.
Qed.

(** *** Window *)

Definition outline_window (w q c w' : Z) : outline :=
  [(calm w q c, Lock);
   (calm w q c, TermWindow);
   (here (window_term w) (queue_calm q) (state_calm c) save_calm living, SetPendingWindow w')]
  ++ (if w' =? 0 then []
      else [(here (window_set w') (queue_calm q) (state_calm c) save_calm living, WriteCmd APP_CMD_INIT_WINDOW)])
  ++ [(here (window_coming w') (queue_calm q) (state_calm c) save_calm living, WaitWhile window_pending);
      (calm w' q c, Unlock)].

Lemma window_wait_outlined w q c :
  outlined [(here (window_coming w) (queue_calm q) (state_calm c) save_calm living, WaitWhile window_pending);
            (calm w q c, Unlock)] (calm w q c).
Proof.
  unfold calm. point.
  { apply correct_wait; [apply here_app|]. intros s a0 td ph Ha0 Hw Hh. parts Hh. same_app. exists a. split; [done|].
    split_and!; try done. cbn in Hw. bool_to_prop. split; [done|]. destruct HW as [HW _]. right. congruence. }
  { intros b s a [= <-] ((Hp & Hw) & _). cbn in *. by rewrite Hp, Hw, Z.eqb_refl. }
  point; [silent|]. done.
Qed.

Lemma window_set_outlined w q c :
  outlined ((if w =? 0 then []
             else [(here (window_set w) (queue_calm q) (state_calm c) save_calm living, WriteCmd APP_CMD_INIT_WINDOW)])
    ++ [(here (window_coming w) (queue_calm q) (state_calm c) save_calm living, WaitWhile window_pending);
        (calm w q c, Unlock)]) (calm w q c).
Proof.
  destruct (Z.eqb_spec w 0); [apply window_wait_outlined|]. rewrite <-app_comm_cons. point; [|apply window_wait_outlined].
  apply correct_write; [apply here_living|]. intros s td Hh. parts Hh. exists a. split; [done|]. split_and!; try done.
  - unfold window_set in HW. destruct (Z.eqb_spec w 0); [done|]. split; [done|]. by rewrite last_window_app.
  - by apply state_calm_app.
  - apply save_calm_app; [|done]. split; absent.
  - apply living_app; [|done]. split; absent.
Qed.

Lemma window_outlined w q c w' : outlined (outline_window w q c w') (calm w' q c).
Proof.
  unfold outline_window. cbn [app]. rewrite <-!app_comm_cons. unfold calm at 1 2. point; [silent|]. point.
  { apply correct_term; [apply here_living|]. intros s a0 td Ha0 Hh. parts Hh. same_app. exists a. split; [done|].
    destruct HW as [[Hp Hl] Hw]. destruct (Z.eqb_spec (pendingWindow a) 0) as [E0|E0].
    - split_and!; try done. split; [done|]. destruct (last_window td) as [[]|]; try done; congruence.
    - split_and!; try done.
      + split; [done|]. by rewrite last_window_app.
      + by apply state_calm_app.
      + apply save_calm_app; [|done]. split; absent.
      + apply living_app; [|done]. split; absent. }
  point; [|apply window_set_outlined].
  apply correct_member; [done|apply here_app|]. intros s a0 s' td ph Ha0 E Hn Hh. parts Hh. same_app.
  injection E as <-. destruct HW as [Hp Hl].
  destruct (Z.eqb_spec w' 0) as [->|Hw']; exists (a <| pendingWindow := w' |>) || exists (a <| pendingWindow := 0 |>);
    (split; [done|]); split_and!; try done.
  - split; [done|]. by destruct (last_window td) as [[]|].
  - unfold window_set. by destruct (Z.eqb_spec w' 0).
Qed.

(** *** State of the activity *)

Definition outline_state (w q c c' : Z) : outline :=
  [(calm w q c, Lock);
   (calm w q c, WriteCmd c');
   (here (window_calm w) (queue_calm q) (state_coming c') save_calm living, WaitWhile (state_not c'));
   (calm w q c', Unlock)].

Lemma state_outlined w q c c' :
  c' ∈ [APP_CMD_START; APP_CMD_RESUME; APP_CMD_PAUSE; APP_CMD_STOP] ->
  outlined (outline_state w q c c') (calm w q c').
Proof.
  intros Hc. unfold outline_state, calm. point; [silent|]. point.
  { apply correct_write; [apply here_living|]. intros s td Hh. parts Hh. exists a. split; [done|]. split_and!; try done.
    - apply window_calm_app; [|done]. by elem_inv Hc.
    - left. exists (states td). rewrite states_app. destruct HA as [-> HA]. split; [|done]. f_equal. by elem_inv Hc.
    - apply save_calm_app; [|done]. elem_inv Hc; split; absent.
    - apply living_app; [|done]. elem_inv Hc; split; absent. }
  point.
  { apply correct_wait; [apply here_app|]. intros s a0 td ph Ha0 Hw Hh. parts Hh. same_app. exists a. split; [done|].
    split_and!; try done. cbn in Hw. bool_to_prop. split; [done|].
    destruct HA as [(l & -> & Hl)|[_ ->]]; [|done]. rewrite Hw in Hl. apply Forall_app. by repeat constructor. }
  { intros b s a [= <-] (_ & _ & Hs & _). cbn. destruct Hs as [([|] & ? & _)|[-> _]]; [done|done|]. by rewrite Z.eqb_refl. }
  point; [silent|]. done.
Qed.

(** *** Commands without an answer *)

Lemma async_outlined w q c cmd :
  cmd ∈ [APP_CMD_CONFIG_CHANGED; APP_CMD_LOW_MEMORY; APP_CMD_GAINED_FOCUS; APP_CMD_LOST_FOCUS] ->
  outlined [(calm w q c, WriteCmd cmd)] (calm w q c).
Proof.
  intros Hc. unfold calm. point; [|done].
  apply correct_write; [apply here_living|]. intros s td Hh. parts Hh. exists a. split; [done|]. split_and!; try done.
  - apply window_calm_app; [|done]. by elem_inv Hc.
  - apply state_calm_app; [|done]. by elem_inv Hc.
  - apply save_calm_app; [|done]. elem_inv Hc; split; absent.
  - apply living_app; [|done]. elem_inv Hc; split; absent.
Qed.

(** *** Saved state *)

Definition outline_save (w q c : Z) : outline :=
  [(calm w q c, Lock);
   (calm w q c, ClearStateSaved);
   (here (window_calm w) (queue_calm q) (state_calm c) save_cleared living, WriteCmd APP_CMD_SAVE_STATE);
   (here (window_calm w) (queue_calm q) (state_calm c) save_coming living, WaitWhile not_saved);
   (here (window_calm w) (queue_calm q) (state_calm c) save_done living, TakeSavedState);
   (calm w q c, Unlock)].

Lemma save_outlined w q c : outlined (outline_save w q c) (calm w q c).
Proof.
  unfold outline_save, calm. point; [silent|]. point.
  { apply correct_member; [done|apply here_app|]. intros s a0 s' td ph Ha0 E Hn Hh. parts Hh. same_app.
    injection E as <-. exists (a <| stateSaved := false |>). split; [done|]. split_and!; try done.
    destruct HS as [Hs Hsv]. by split_and!; try apply Hsv. }
  point.
  { apply correct_write; [apply here_living|]. intros s td Hh. parts Hh. exists a. split; [done|]. split_and!; try done.
    - by apply window_calm_app.
    - by apply state_calm_app.
    - destruct HS as (Hs & Hn & Hf & H1). left. split_and!; try done. exists (td ++ free_saved_state).
      split; [by rewrite <-app_assoc|]. split; [apply no_save_app; [done|split; absent]|].
      left. apply elem_of_app. right. by apply (bool_decide_unpack _).
    - apply living_app; [|done]. split; absent. }
  point.
  { apply correct_wait; [apply here_app|]. intros s a0 td ph Ha0 Hw Hh. parts Hh. same_app. exists a. split; [done|].
    split_and!; try done. cbn in Hw. bool_to_prop.
    destruct HS as [(_ & Hf & _)|(Hs & [[Hf _]|[_ Htd]])]; [congruence|congruence|done]. }
  { intros b s a [= <-] (_ & _ & _ & Hs & _). cbn.
    destruct Hs as [(_ & _ & _ & [|] & ? & _)|(_ & [[_ [?|?]]|[-> _]])]; done. }
  point.
  { apply correct_member; [done|apply here_app|]. intros s a0 s' td ph Ha0 E Hn Hh. parts Hh. same_app.
    destruct HS as [Hs Htd]. assert (no_save td) by (destruct Htd as [->|[->| ->]]; split; absent).
    cbn [on_app] in E. unfold block in Hs. destruct (savedState a =? 0); injection E as <-.
    - exists a. split; [done|]. by split_and!.
    - exists (a <| savedState := 0 |> <| savedStateSize := 0 |>). split; [done|]. by split_and!. }
  point; [silent|]. done.
Qed.

(** *** Destruction *)

Definition outline_destroy (w q c : Z) : outline :=
  [(calm w q c, Lock);
   (calm w q c, WriteCmd APP_CMD_DESTROY);
   (here any any any save_calm dying, WaitWhile not_destroyed);
   (here any any any save_calm exited, Unlock);
   (here any any any save_calm exited, ClosePipe);
   (here any any any save_calm exited, FreeApp)].

(** When the main thread sees [destroyed], the other thread has given the mutex back. *)
Lemma correct_destroyed :
  correct (here any any any save_calm dying) (WaitWhile not_destroyed) (here any any any save_calm exited).
Proof.
  apply correct_effect; [done|apply here_app|].
  intros g g' k a0 I Hh Ha0 [Ep Es Em Ea _ _ El Ew Epi]. unfold at_point in *. destruct Ea as [Eap Eph]; [done|].
  rewrite (todo_same g g'), Eph by done. injection Em as <-. parts Hh. assert (a0 = a) as -> by congruence.
  exists a. split; [done|]. split_and!; try done. cbn in Ew. bool_to_prop. unfold dying in HL.
  destruct (app_phase g) eqn:Hph; [done|destruct HL as (_ & _ & ?); congruence|].
  destruct HL as [[? _]|[_ Htd]]; [congruence|]. split; [done|].
  destruct (inv_app _ I) as (t & t' & [Th _ Tc Tf _]). unfold todo in *. rewrite Hph, app_nil_r in *.
  assert (held t = false) as Hf. { rewrite Th. unfold is_held. by rewrite El. }
  destruct Htd as [E|[E|E]]; [exfalso..|done]; rewrite E in Tc; cbn in Tc; by rewrite Hf in Tc.
Qed.

Lemma correct_close :
  correct (here any any any save_calm exited) ClosePipe (here any any any save_calm exited).
Proof.
  apply correct_effect; [done|apply here_app|].
  intros g g' k a0 I Hh Ha0 [Ep Es Em Ea _ _ El Ew Epi]. unfold at_point in *. destruct Ea as [Eap Eph]; [done|].
  injection Em as <-. parts Hh. exists a. split; [done|]. destruct HL as [Hph Htd]. unfold todo in *.
  rewrite Eap, Eph, Hph, app_nil_r in *. rewrite Htd in *. by split_and!.
Qed.

Lemma correct_free : correct (here any any any save_calm exited) FreeApp dead.
Proof.
  apply correct_effect; [done|apply here_app|].
  intros g g' k a0 I Hh Ha0 [Ep Es Em Ea _ _ El Ew Epi]. unfold at_point in *. destruct Ea as [Eap Eph]; [done|].
  parts Hh. destruct HL as [Hph Htd]. rewrite (todo_same g g'), Em by done. unfold dead.
  rewrite Htd, Eph. destruct HS as [Hs _]. by split_and!.
Qed.

Lemma destroy_outlined w q c : outlined (outline_destroy w q c) dead.
Proof.
  unfold outline_destroy, calm. point; [silent|]. point.
  { apply correct_write; [apply here_living|]. intros s td Hh. parts Hh. destruct HL as (Hph & [Hq1 Hq2] & Hr & Hd).
    exists a. split; [done|]. split_and!; try done.
    - apply save_calm_app; [|done]. split; absent.
    - split; [left; apply elem_of_app; right; by apply (bool_decide_unpack _)|]. split; [|done].
      rewrite elem_of_app. intros [?|Hin]; [done|]. revert Hin. absent. }
  split_and!; [done|apply dying_stable|intros s td ph; apply here_app|apply correct_destroyed| |].
  { intros b [= <-] s a td ph Ha Hh. destruct Hh as (a' & Ha' & _ & _ & _ & _ & HL). assert (a' = a) as -> by congruence.
    destruct ph; [done| |]; (split; [done|]); intros ->; cbn in *.
    - right. by destruct HL as ([?%elem_of_nil|?] & _).
    - left. destruct HL as [(_ & [|] & ? & _)|[-> _]]; done. }
  split_and!; [done|apply exited_stable|intros s td ph; apply here_app|silent|done|].
  split_and!; [done|apply exited_stable|intros s td ph; apply here_app|apply correct_close|done|].
  split_and!; [done|apply exited_stable| |apply correct_free|done|done].
  intros s td ph Hh. parts Hh. destruct HL as [-> ->]. split; [by exists a|done].
Qed.

(** *** Creation *)

Definition blank : assertion := fun s td ph =>
  app s = None /\ ph = NotStarted /\ td = [] /\ attached s = [] /\ handed s = saves s.

(** The object before its thread exists. *)
Definition blank_app : part := fun s a td ph => unstarted s a td ph /\ savedState a = 0.

Definition outline_create (saved : option cstr) : outline :=
  [(blank, NewApp)]
  ++ match saved with
     | Some bytes => [(here (window_calm 0) (queue_calm 0) (state_calm 0) save_calm blank_app, CopySavedState bytes)]
     | None => []
     end
  ++ [(here (window_calm 0) (queue_calm 0) (state_calm 0) save_calm unstarted, MakePipe);
      (here (window_calm 0) (queue_calm 0) (state_calm 0) save_calm unstarted, CreateThread);
      (here (window_calm 0) (queue_calm 0) (state_calm 0) save_calm starting, Lock);
      (here (window_calm 0) (queue_calm 0) (state_calm 0) save_calm starting, WaitWhile not_running);
      (calm 0 0 0, Unlock)].

Lemma blank_stable : stable blank.
Proof. intros s td ph s' td' ph' Hm (Hs & Hph & Htd & Ha & Hh). destruct Hm; simplify_eq; done. Qed.

Lemma blank_app_steady : steady blank_app.
Proof.
  split; [by intros s a td ph i s' a' Hi Ha E Ha' Haf [(? & ? & ?) _]|].
  intros s s' a u td ph Hs [Hu H1]. split; [by apply (steady_user _ unstarted_steady s)|done].
Qed.

Lemma process_cmd_cons cmd : process_cmd cmd <> [].
Proof. cases_cmd. Qed.

Lemma start_outlined :
  outlined [(here (window_calm 0) (queue_calm 0) (state_calm 0) save_calm starting, Lock);
            (here (window_calm 0) (queue_calm 0) (state_calm 0) save_calm starting, WaitWhile not_running);
            (calm 0 0 0, Unlock)] (calm 0 0 0).
Proof.
  assert (Hst : stable (here (window_calm 0) (queue_calm 0) (state_calm 0) save_calm starting)).
  { apply living_stable; auto with glue. by intros s a td [(_ & _ & ? & _) _]. }
  split_and!; [done|done|intros s td ph; apply here_app|silent|done|].
  split_and!; [done|done|intros s td ph; apply here_app| | |].
  { apply correct_wait; [apply here_app|]. intros s a0 td ph Ha0 Hw Hh. parts Hh. same_app. exists a.
    split; [done|]. destruct HL. by split_and!. }
  { intros b [= <-] s a td ph Ha Hh. destruct Hh as (a' & Ha' & _ & _ & _ & _ & ((-> & _) & Hr)).
    assert (a' = a) as -> by congruence. split; [done|]. intros ->. left. cbn. by destruct Hr as [?%elem_of_nil| ->]. }
  unfold calm. point; [silent|]. done.
Qed.

Lemma correct_pipe W K A S :
  correct (here W K A S unstarted) MakePipe (here W K A S unstarted).
Proof.
  apply correct_effect; [done|apply here_app|].
  intros g g' k a0 I Hh Ha0 [Ep Es Em Ea _ _ El Ew Epi]. unfold at_point in *. destruct Ea as [Eap Eph]; [done|].
  injection Em as <-. rewrite Eph. assert (todo g' = todo g) as ->; [|done].
  parts Hh. destruct HL as (Hph & Htd & _). rewrite Htd. apply app_nil in Htd as [Hap _].
  unfold todo. by rewrite Eap, Eph, Epi, Hap, Hph.
Qed.

Lemma correct_thread :
  correct (here (window_calm 0) (queue_calm 0) (state_calm 0) save_calm unstarted) CreateThread
          (here (window_calm 0) (queue_calm 0) (state_calm 0) save_calm starting).
Proof.
  apply correct_effect; [done|apply here_app|].
  intros g g' k a0 I Hh Ha0 [Ep Es Em _ Et _ El Ew Epi]. unfold at_point in *. destruct Et as [Eap Eph]; [done|].
  injection Em as <-. parts Hh. destruct HL as (Hph & Htd & _ & Hr & Hd). rewrite Htd in *.
  assert (todo g' = android_app_entry) as Htd'.
  { unfold todo in *. rewrite Hph in Htd. apply app_nil in Htd as [_ Htd]. by rewrite Eap, Eph, Epi, Htd. }
  rewrite Htd', Eph. exists a. split; [done|]. destruct HS as [Hs _]. split_and!; try done; [split; [done|split; absent]|].
  split; [split_and!; [done|split; absent|done|done]|]. left. by apply (bool_decide_unpack _).
Qed.

Lemma correct_new :
  correct blank NewApp (here (window_calm 0) (queue_calm 0) (state_calm 0) save_calm blank_app).
Proof.
  intros g g' k I Hb Hs Hp E _. injection E as <-. destruct g as [s m pi mp ms ap ph].
  destruct Hb as (Ha & Hph & Htd & Hat & Hh). unfold at_point in *. cbn in *. subst.
  exists zero_app. split; [done|]. unfold todo in *. cbn in *. rewrite Htd. split_and!; try done.
  - split; [done|by left].
  - split; [done|split; absent].
Qed.

Lemma here_weaken W K A S L L' s td ph :
  (forall a, L s a td ph -> L' s a td ph) -> here W K A S L s td ph -> here W K A S L' s td ph.
Proof. intros HL' Hh. parts Hh. exists a. split; [done|]. split_and!; auto. Qed.

Lemma correct_weaken P i Q Q' :
  (forall s td ph, Q s td ph -> Q' s td ph) -> correct P i Q -> correct P i Q'.
Proof. intros HQ Hc g g' k I HP Hs Hp E Hs'. by eapply HQ, Hc. Qed.

Lemma create_tail_outlined :
  outlined [(here (window_calm 0) (queue_calm 0) (state_calm 0) save_calm unstarted, MakePipe);
      (here (window_calm 0) (queue_calm 0) (state_calm 0) save_calm unstarted, CreateThread);
      (here (window_calm 0) (queue_calm 0) (state_calm 0) save_calm starting, Lock);
      (here (window_calm 0) (queue_calm 0) (state_calm 0) save_calm starting, WaitWhile not_running);
      (calm 0 0 0, Unlock)] (calm 0 0 0).
Proof.
  assert (Hst : stable (here (window_calm 0) (queue_calm 0) (state_calm 0) save_calm unstarted)).
  { apply living_stable; auto with glue. by intros s a td (? & _). }
  split_and!; [done|done|intros s td ph; apply here_app|apply correct_pipe|done|].
  split_and!; [done|done| |apply correct_thread|done|apply start_outlined].
  intros s td ph Hh. parts Hh. destruct HL as (? & _ & ? & _), HK as [? _]. exists a. by split_and!.
Qed.

Lemma create_outlined saved : outlined (outline_create saved) (calm 0 0 0).
Proof.
  unfold outline_create. rewrite <-app_comm_cons.
  split_and!; [done|apply blank_stable|by intros s td ph (? & ? & _ & ? & _)| |done|].
  { destruct saved; [apply correct_new|]. eapply correct_weaken; [|apply correct_new].
    intros s td ph. apply here_weaken. by intros a [? _]. }
  destruct saved as [bytes|]; [|apply create_tail_outlined]. rewrite <-app_comm_cons.
  split_and!; [done| | | |done|apply create_tail_outlined].
  - apply living_stable; auto using blank_app_steady with glue. by intros s a td [(? & _) _].
  - intros s td ph Hh. parts Hh. destruct HL as [(? & _ & ? & _) ?], HK as [? _]. exists a. by split_and!.
  - apply correct_member; [done|apply here_app|]. intros s a0 s' td ph Ha0 E Hn Hh. parts Hh. same_app.
    injection E as <-. destruct HL as [(? & ? & ? & ? & ?) ?].
    exists (a <| savedState := next_block s |> <| savedStateSize := Z.of_nat (length bytes) |>).
    split; [done|]. by split_and!.
Qed.

(** ** The callbacks *)

Definition current_window (cbs : list callback) : Z :=
  fold_left (fun w cb => match cb with
                         | cb_onNativeWindowCreated w' => w'
                         | cb_onNativeWindowDestroyed => 0
                         | _ => w
                         end) cbs 0.

Definition current_queue (cbs : list callback) : Z :=
  fold_left (fun q cb => match cb with
                         | cb_onInputQueueCreated q' => q'
                         | cb_onInputQueueDestroyed => 0
                         | _ => q
                         end) cbs 0.

Definition current_state (cbs : list callback) : Z :=
  fold_left (fun c cb => match cb with
                         | cb_onStart => APP_CMD_START
                         | cb_onResume => APP_CMD_RESUME
                         | cb_onPause => APP_CMD_PAUSE
                         | cb_onStop => APP_CMD_STOP
                         | _ => c
                         end) cbs 0.

#[global] Instance callback_eq_dec : EqDecision callback.
Proof. solve_decision. Defined.

(** What holds after the callbacks [cbs]. *)
Definition afterwards (cbs : list callback) : assertion :=
  if decide (cb_onDestroy ∈ cbs) then dead
  else calm (current_window cbs) (current_queue cbs) (current_state cbs).

Lemma afterwards_stable cbs : stable (afterwards cbs).
Proof.
  unfold afterwards. destruct (decide _); [|apply calm_stable].
  intros s td ph s' td' ph' Hm (Hs & Hph & Htd & Hh). destruct Hm; simplify_eq; done.
Qed.

(** Each callback has an outline. *)
Lemma callback_outlined cbs cb :
  cb_onDestroy ∉ cbs ->
  exists o, map snd o = callbacks cb /\ outlined o (afterwards (cbs ++ [cb])) /\
    (forall s td ph, afterwards cbs s td ph -> follows o (afterwards (cbs ++ [cb])) s td ph).
Proof.
  intros Hn. unfold afterwards. destruct (decide (cb_onDestroy ∈ cbs)); [done|].
  destruct (decide (cb_onDestroy ∈ cbs ++ [cb])) as [Hd|Hd].
  - apply elem_of_app in Hd as [?|Hd%list_elem_of_singleton]; [done|]. subst cb.
    exists (outline_destroy (current_window cbs) (current_queue cbs) (current_state cbs)).
    split; [done|]. split; [apply destroy_outlined|done].
  - unfold current_window, current_queue, current_state. rewrite !fold_left_app. cbn.
    fold (current_window cbs) (current_queue cbs) (current_state cbs).
    set (w := current_window cbs). set (q := current_queue cbs). set (c := current_state cbs).
    assert (Hwin : forall w', map snd (outline_window w q c w') = android_app_set_window w').
    { intros w'. unfold outline_window, android_app_set_window. by destruct (w' =? 0). }
    assert (Hst : forall c', c' ∈ [APP_CMD_START; APP_CMD_RESUME; APP_CMD_PAUSE; APP_CMD_STOP] ->
      exists o, map snd o = android_app_set_activity_state c' /\ outlined o (calm w q c') /\
        forall s td ph, calm w q c s td ph -> follows o (calm w q c') s td ph).
    { intros c' Hc'. exists (outline_state w q c c'). split; [done|]. split; [by apply state_outlined|done]. }
    assert (Has : forall cmd,
      cmd ∈ [APP_CMD_CONFIG_CHANGED; APP_CMD_LOW_MEMORY; APP_CMD_GAINED_FOCUS; APP_CMD_LOST_FOCUS] ->
      exists o, map snd o = android_app_write_cmd cmd /\ outlined o (calm w q c) /\
        forall s td ph, calm w q c s td ph -> follows o (calm w q c) s td ph).
    { intros cmd Hc'. exists [(calm w q c, WriteCmd cmd)]. split; [done|]. split; [by apply async_outlined|done]. }
    destruct cb; try (apply Hst || apply Has; by apply (bool_decide_unpack _)).
    + by destruct Hd; apply elem_of_app; right; apply list_elem_of_singleton.
    + exists (outline_save w q c). split; [done|]. split; [apply save_outlined|done].
    + apply Has. by destruct focused; apply (bool_decide_unpack _).
    + exists (outline_window w q c w0). split; [apply Hwin|]. split; [apply window_outlined|done].
    + exists (outline_window w q c 0). split; [apply Hwin|]. split; [apply window_outlined|done].
    + exists (outline_input w q c queue). split; [done|]. split; [apply input_outlined|done].
    + exists (outline_input w q c 0). split; [done|]. split; [apply input_outlined|done].
Qed.

(** ** The invariant of runs *)

(** The main thread is at a point of an outline. *)
Definition in_outline (cbs : list callback) g : Prop :=
  exists o, main_prog g = map snd o /\ outlined o (afterwards cbs) /\ at_point (follows o (afterwards cbs)) g.

Lemma follows_stable o cbs : outlined o (afterwards cbs) -> stable (follows o (afterwards cbs)).
Proof. destruct o as [|[P i] o]; [intros _; apply afterwards_stable|by intros (_ & ? & _)]. Qed.

(** Steps that the main thread does not make. *)
Lemma in_outline_move cbs g g' :
  main_prog g' = main_prog g ->
  move (memory g) (todo g) (app_phase g) (memory g') (todo g') (app_phase g') \/
    (memory g' = memory g /\ todo g' = todo g /\ app_phase g' = app_phase g) ->
  in_outline cbs g -> in_outline cbs g'.
Proof.
  intros Em Hm (o & Ho & Hv & Hp). exists o. split; [congruence|]. split; [done|]. unfold at_point in *.
  destruct Hm as [Hm|(-> & -> & ->)]; [|done]. by eapply follows_stable.
Qed.

(** The instruction the main thread is at is safe. *)
Lemma in_outline_safe cbs g i k :
  in_outline cbs g -> main_prog g = i :: k ->
  main_instr i = true /\ main_safe i (memory g) (todo g) (app_phase g) /\
  exists P o, k = map snd o /\ outlined o (afterwards cbs) /\ correct P i (follows o (afterwards cbs)) /\ at_point P g /\
    forall b, i = WaitWhile b -> answered P b.
Proof.
  intros (o & Ho & Hv & Hp) Hm. rewrite Hm in Ho. destruct o as [|[P i'] o]; [done|].
  injection Ho as <- ->. destruct Hv as (Hi & _ & Hs & Hc & Hb & Ho). split; [done|]. split; [by apply Hs|]. by exists P, o.
Qed.

Lemma main_turn cbs g g' : inv g -> main_step g = Next g' -> in_outline cbs g -> in_outline cbs g' /\ inv g'.
Proof.
  intros I E Ho. destruct (main_status g) eqn:Hs.
  - unfold main_step in E. rewrite Hs in E. destruct (main_prog g) as [|i k] eqn:Hm; [done|].
    destruct (in_outline_safe cbs g i k Ho Hm) as (Hi & Hsafe & P & o & -> & Hv & Hc & Hp & _).
    split; [|by eapply inv_main_exec].
    destruct (main_status g') eqn:Hs'.
    + exists o. split; [|split; [done|by apply (Hc g g' (map snd o))]].
      destruct (main_safe_app _ _ _ _ Hsafe) as [->|[a Ha]]; [by injection E as <-|].
      destruct (exec_main i _ a g g' Hi Ha E) as [[]|(b & -> & _ & _ & ->)]; [done|by destruct g].
    + destruct (main_safe_app _ _ _ _ Hsafe) as [->|[a Ha]]; [injection E as <-; by destruct g; cbn in *; congruence|].
      destruct (exec_main i _ a g g' Hi Ha E) as [[_ Es _ _ _ _ _ _ _]|(b & -> & _ & _ & ->)]; [congruence|].
      eapply in_outline_move; [| |done]; [by destruct g|right; by destruct g].
    + destruct (main_safe_app _ _ _ _ Hsafe) as [->|[a Ha]]; [injection E as <-; by destruct g; cbn in *; congruence|].
      destruct (exec_main i _ a g g' Hi Ha E) as [[_ Es _ _ _ _ _ _ _]|(b & -> & _ & _ & ->)]; [congruence|].
      by destruct g.
  - unfold main_step in E. by rewrite Hs in E.
  - split; [|by eapply inv_woken]. unfold main_step in E. rewrite Hs in E. destruct (mutex g); [done|].
    injection E as <-. eapply in_outline_move; [| |done]; [by destruct g|right; by destruct g].
Qed.

Lemma app_turn cbs g g' : inv g -> app_step g = Next g' -> in_outline cbs g -> in_outline cbs g' /\ inv g'.
Proof.
  intros I E Ho. split; [|by eapply inv_app_step]. unfold app_step in E.
  destruct (app_prog g) as [|i k] eqn:Hp; [done|]. destruct (app_alive g i k I Hp) as (a & Ha & Hi).
  destruct (exec_app i k a g g' Hi Ha E) as (Eo & Ek & Eph & Epi & Em & _).
  eapply in_outline_move; [done| |done]. left. unfold todo. rewrite Hp, Ek, Eph, Epi, <-app_comm_cons.
  by eapply move_instr.
Qed.

Lemma in_outline_turn cbs g g' : inv g -> turn g g' -> in_outline cbs g -> in_outline cbs g' /\ inv g'.
Proof.
  intros I Ht Ho. destruct Ht as [E|E|E|E]; [by eapply main_turn|by eapply app_turn| |].
  - split; [|by eapply inv_app_poll]. unfold app_poll in E.
    destruct (app_phase g) eqn:Hph, (app_prog g) as [|] eqn:Hp, (pipe g) as [|cmd rest] eqn:Hpi; try discriminate.
    injection E as <-. eapply in_outline_move; [| |done]; [by destruct g|right].
    split; [by destruct g|]. split; [by apply todo_poll|by destruct g].
  - split; [|by eapply inv_app_return]. unfold app_return in E.
    destruct (app_phase g) eqn:Hph, (app_prog g) as [|] eqn:Hp; try discriminate.
    destruct (app (memory g)) as [a|] eqn:Ha; [|done]. destruct (destroyRequested a) eqn:Hd; [|done].
    injection E as <-. eapply in_outline_move; [| |done]; [by destruct g|left].
    destruct g as [s m pi mp ms ap ph]; cbn in *; subst. by apply (move_return s a).
Qed.

Lemma inv_creating saved : inv (U := U) (creating saved).
Proof.
  split; try done; cbn.
  - exists (mk_typing false false false false true), (mk_typing false false false false true).
    split; try done. by left.
  - split; cbn; try done; intros p; rewrite lookup_empty; [|by intros []]. split; [by intros []|].
    by intros [?%elem_of_nil|(a & ? & _)].
  - eexists (mk_typing false false false false true), (mk_typing false false false false true).
    by destruct saved.
Qed.

(** The callbacks give the mutex back. *)
Lemma callbacks_checked cb :
  let t := mk_typing false false false false true in check true t (callbacks cb) = Some t.
Proof.
  destruct cb; try done; cbn; unfold onNativeWindowCreated, android_app_set_window. by destruct (w =? 0).
Qed.

(** The main thread is awake between two callbacks. *)
Lemma idle g : inv g -> main_prog g = [] -> main_status g = Running /\ is_held Main g = false.
Proof.
  intros I Hm. assert (asleep g = false) as Hs.
  { destruct (asleep g) eqn:Hs; [|done]. destruct (inv_asleep _ I Hs) as (_ & b & k & ?). congruence. }
  split; [unfold asleep in Hs; by destruct (main_status g)|].
  destruct (inv_main _ I) as (t & t' & Ht & Hc & Hf). rewrite Hm in Hc. injection Hc as ->.
  rewrite Hs, orb_false_r in Ht. congruence.
Qed.

Lemma inv_callback g cb : inv g -> main_prog g = [] -> inv (g <| main_prog := callbacks cb |>).
Proof.
  intros I Hm. destruct (idle g I Hm) as [Hs Hh].
  destruct I as [(t & t' & [Th Ts Tc Tf Ty]) Ii In Ih Ia Ist Im Isl Iw].
  destruct g as [s m pi mp ms ap ph]; cbn in *; subst. split; try done; cbn.
  - exists t, t'. by split.
  - exists (mk_typing false false false false true), (mk_typing false false false false true).
    split; [|split; [apply callbacks_checked|done]]. cbn. rewrite orb_false_r. by symmetry.
Qed.

Lemma run_invariant cbs g : run cbs g -> in_outline cbs g /\ inv g.
Proof.
  induction 1 as [saved|cbs g g' _ [Ho I] Ht|cbs g g' _ [Ho I] He|cbs g cb _ [Ho I] Hm Hn].
  - split; [|apply inv_creating]. exists (outline_create saved). split; [by destruct saved|].
    split; [apply create_outlined|]. by split_and!.
  - by apply (in_outline_turn cbs g).
  - split; [|by eapply inv_event].
    destruct (event_cases g g' He) as [[Hw ->]|(s' & -> & _ & Hm)]; (eapply in_outline_move; [| |done]; [by destruct g|]).
    + right. by destruct g.
    + left. by destruct g.
  - split; [|by apply inv_callback]. destruct (callback_outlined cbs cb Hn) as (o & Ho' & Hv & Hf).
    exists o. split; [done|]. split; [done|]. unfold at_point. apply Hf.
    destruct Ho as ([|[P i] o'] & Hmp & _ & Hp); [|by rewrite Hm in Hmp]. by destruct g.
Qed.

End Outlines.
