(* ===== verification/AppRuns.v ===== *)
(** * Runs of an application with native_app_glue

    The theorems about [run]: safety, agreement between the two threads, saved
    states, and that every callback returns.  The examples at the end show what
    happens when the platform does not keep its side: a full pipe, a failing
    [pthread_create], a failing [pipe]. *)

From coqutil Require Import Datatypes.RecordSetters.
From S2P Require Import Prelude AppGlue AppThreads AppContract.
Import TriangleBracketNotations.

(** ** The work that is left *)

Definition weight (i : instr) : nat :=
  match i with
  | Broadcast => 4
  | WriteCmd _ | TermWindow => 32
  | CreateThread => 64
  | _ => 1
  end.

Definition work (p : list instr) : nat := sum_list_with weight p.

(** The commands that a function of the main thread may still write. *)
Definition writes (p : list instr) : nat :=
  sum_list_with (fun i => match i with WriteCmd _ | TermWindow => 1%nat | _ => 0%nat end) p.

Section Runs.
Context {U : Type} `{PlatformOk U}.
Implicit Types (a : android_app U) (g : glue U).

Definition work_left g : nat :=
  (work (main_prog g) + work (app_prog g) + 24 * length (pipe g)
   + match main_status g with Running => 1 | Waiting => 0 | Woken => 2 end
   + match app_phase g with InMain => 24 | _ => 0 end)%nat.

(** The pipe has room for what the current callback writes. *)
Definition room g : Prop := (length (pipe g) + writes (main_prog g) <= capacity)%nat.

Lemma work_cmd cmd : (work (process_cmd cmd) < 24)%nat.
Proof. cases_cmd; cbv; lia. Qed.

Lemma run_app cbs g i k :
  run cbs g -> app_prog g = i :: k -> exists a, app (memory g) = Some a /\ app_instr i = true.
Proof. intros [_ I]%run_invariant. by apply app_alive. Qed.

Lemma work_app_step cbs g g' : run cbs g -> app_step g = Next g' -> (work_left g' < work_left g)%nat /\ pipe g' = pipe g /\ main_prog g' = main_prog g.
Proof.
  intros Hr E. unfold app_step in E. destruct (app_prog g) as [|i k] eqn:Hp; [done|].
  destruct (run_app cbs g i k Hr Hp) as (a & Ha & Hi).
  destruct (exec_app i k a g g' Hi Ha E) as (_ & Ek & Eph & Epi & Em & Es & _).
  split; [|done]. unfold work_left. rewrite Hp, Ek, Eph, Epi, Em, Es. unfold work. cbn [sum_list_with].
  destruct i; try discriminate Hi; cbn [is_broadcast weight]; try lia.
  unfold broadcast. destruct (main_status g) eqn:Q; cbn; rewrite ?Q; lia.
Qed.

Lemma work_main_step cbs g g' :
  run cbs g -> main_step g = Next g' -> (work_left g' < work_left g)%nat /\ (room g -> room g').
Proof.
  intros Hr E. destruct (run_invariant cbs g Hr) as [Ho I]. unfold main_step in E. destruct (main_status g) eqn:Hs.
  - destruct (main_prog g) as [|i k] eqn:Hm; [done|].
    destruct (in_outline_safe cbs g i k Ho Hm) as (Hi & Hsafe & _).
    destruct (main_safe_app _ _ _ _ Hsafe) as [->|[a Ha]].
    { injection E as <-. unfold work_left, room. destruct g; cbn in *; subst. split; cbn; lia. }
    destruct (exec_main i k a g g' Hi Ha E) as [[Ep Es _ Ea Et _ _ _ Epi]|(b & -> & _ & _ & ->)].
    + unfold work_left, room. rewrite Hm, Ep, Es, Epi. unfold work, writes. cbn [sum_list_with].
      destruct (decide (i = CreateThread)) as [->|Hn].
      * destruct (Et eq_refl) as [-> ->]. cbn. split; [destruct (app_phase g); lia|lia].
      * destruct (Ea Hn) as [-> ->]. destruct i; try discriminate Hi; cbn [weight]; try (split; lia).
        all: try case_bool; rewrite ?length_app; cbn [length]; split; lia.
    + unfold work_left, room. destruct g; cbn in *; subst. split; cbn; lia.
  - done.
  - destruct (mutex g); [done|]. injection E as <-. unfold work_left, room. destruct g; cbn in *; subst. split; cbn; lia.
Qed.

Lemma work_turn cbs g g' : run cbs g -> turn g g' -> (work_left g' < work_left g)%nat /\ (room g -> room g').
Proof.
  intros Hr [E|E|E|E]; [by eapply work_main_step| | |].
  - destruct (work_app_step cbs g g' Hr E) as (? & Epi & Em). split; [done|]. unfold room. by rewrite Epi, Em.
  - unfold app_poll in E. destruct (app_phase g) eqn:Hph, (app_prog g) eqn:Hp, (pipe g) as [|cmd rest] eqn:Hpi; try discriminate.
    injection E as <-. unfold work_left, room. pose proof (work_cmd cmd) as Hc. unfold work in *.
    destruct g; cbn in *; subst. cbn. split; lia.
  - unfold app_return in E. destruct (app_phase g) eqn:Hph, (app_prog g) eqn:Hp; try discriminate.
    destruct (app (memory g)) as [a|]; [|done]. destruct (destroyRequested a); [|done].
    injection E as <-. unfold work_left, room. destruct g; cbn in *; subst. cbn. split; lia.
Qed.

(** Every schedule comes to an end. *)
Lemma turns_end cbs g : run cbs g -> Acc (fun x y => turn y x) g.
Proof.
  remember (work_left g) as n eqn:Hn. revert g Hn. induction (lt_wf n) as [n _ IH]. intros g -> Hr.
  constructor. intros g' Ht. destruct (work_turn cbs g g' Hr Ht) as [Hw _].
  eapply IH; [exact Hw|done|]. by eapply run_turn.
Qed.

(** ** Progress *)

(** The thread of the application goes on, or waits for the mutex. *)
Lemma app_progress g i k :
  inv g -> app_prog g = i :: k ->
  (exists g', app_step g = Next g') \/ app_step g = Blocked /\ i = Lock /\ mutex g = Some Main.
Proof.
  intros I Hp. destruct (inv_app _ I) as (t & t' & [Th Ts Tc Tf Ty]).
  destruct (app_alive g i k I Hp) as (a & Ha & Hi). rewrite Hp in Tc. cbn in Tc.
  destruct (check1 _ t i) as [t1|] eqn:Ec; [|done].
  destruct (check1_on_app _ t i t1 a (memory g) Hi Ha (inv_heap _ I) Ts Ec) as (s' & Eo & _).
  unfold app_step, exec. rewrite Hp, Ha.
  destruct i; try discriminate Hi; cbn [exec_on]; rewrite ?Eo; try (left; by eexists).
  - destruct (mutex g) as [th|] eqn:Em; [|left; by eexists]. right. split; [done|]. split; [done|].
    unfold check1, is_held in *. cbn in Ec. rewrite Em in Th. destruct th; [done|]. rewrite Th in Ec. done.
  - destruct (decide (mutex g = Some App)) as [|Hn]; [left; by eexists|].
    unfold check1, is_held in *. cbn in Ec. rewrite bool_decide_eq_false_2 in Th by done. by rewrite Th in Ec.
Qed.

(** The mutex belongs to a thread that has something to do. *)
Lemma app_holds g : inv g -> mutex g = Some App -> app_prog g <> [].
Proof.
  intros I Hm Hp. destruct (inv_app _ I) as (t & t' & [Th Ts Tc Tf Ty]). rewrite Hp in Tc. injection Tc as ->.
  unfold is_held in Th. rewrite bool_decide_eq_true_2 in Th by done.
  destruct (app_phase g); cbn in Tf; [|destruct Tf as [e ->]|destruct Tf]; cbn in *; congruence.
Qed.

(** The main thread goes on, or waits: for the mutex of the other thread, for a
    broadcast, or for room in the pipe. *)
Lemma main_progress cbs g i k :
  inv g -> in_outline cbs g -> main_prog g = i :: k -> room g ->
  (exists g', main_step g = Next g') \/
  main_step g = Blocked /\ (mutex g = Some App \/ main_status g = Waiting).
Proof.
  intros I Ho Hm Hroom. unfold main_step. rewrite Hm. destruct (main_status g) eqn:Hs; [|by auto|].
  - destruct (in_outline_safe cbs g i k Ho Hm) as (Hi & Hsafe & _).
    pose proof (main_no_fault g i k I Hs Hm Hi Hsafe) as Hf. destruct (exec Main i k g) as [g'| |] eqn:E; [by eauto| |done].
    right. split; [done|]. left. destruct (main_held g i k I Hs Hm) as (t & t' & Hc & Ht & _).
    destruct (main_safe_app _ _ _ _ Hsafe) as [->|[a Ha]]; [done|].
    unfold exec in E. rewrite Ha in E. unfold room in Hroom. rewrite Hm in Hroom. cbn in Hroom.
    unfold exec_on, done_or_blocked, write_pipe in E.
    destruct (decide (length (pipe g) < capacity)%nat); destruct i; try discriminate Hi; try lia;
      repeat match type of E with context [match ?b with _ => _ end] => destruct b eqn:? end; try discriminate.
    all: unfold check1, is_held in *; cbn in Hc; rewrite Heqo in Ht; destruct t0; [by rewrite Ht in Hc|done].
  - assert (asleep g = true) as Hsl by (unfold asleep; by rewrite Hs).
    destruct (inv_asleep _ I Hsl) as [Hn _]. destruct (mutex g) as [[]|]; [done|by auto|]. left. by eexists.
Qed.

Definition stuck g : Prop := forall g', ~ turn g g'.

(** When no thread can go on, the thread of the application is in [android_main], or
    has left, and the main thread is not in its way. *)
Lemma stuck_app cbs g :
  run cbs g -> stuck g -> room g ->
  app_prog g = [] /\ (main_prog g = [] \/ main_status g = Waiting) /\ (app_phase g = InMain -> pipe g = []).
Proof.
  intros Hr Hst Hroom. destruct (run_invariant cbs g Hr) as [Ho I].
  assert (Hmain : main_prog g = [] \/ mutex g = Some App \/ main_status g = Waiting).
  { destruct (main_prog g) as [|i k] eqn:Hm; [by left|right].
    destruct (main_progress cbs g i k I Ho Hm Hroom) as [[g' E]|[_ ?]]; [|done].
    destruct (Hst g'). by apply turn_main. }
  assert (Hnm : mutex g <> Some Main).
  { intros E. destruct Hmain as [Hm|[Hm|Hm]]; [|congruence|].
    - destruct (idle g I Hm) as [_ Hh]. unfold is_held in Hh. by rewrite E in Hh.
    - destruct (inv_asleep _ I) as [? _]; [|done]. unfold asleep. by rewrite Hm. }
  assert (Hap : app_prog g = []).
  { destruct (app_prog g) as [|i k] eqn:Hp; [done|].
    destruct (app_progress g i k I Hp) as [[g' E]|(_ & _ & ?)]; [|done]. destruct (Hst g'). by apply turn_app. }
  split; [done|]. split.
  - destruct Hmain as [?|[Hm|?]]; [by left| |by right]. by destruct (app_holds g I Hm).
  - intros Hph. destruct (pipe g) as [|cmd rest] eqn:Hpi; [done|]. edestruct (Hst (g <| pipe := rest |> <| app_prog := process_cmd cmd |>)).
    apply turn_poll. unfold app_poll. by rewrite Hph, Hap, Hpi.
Qed.

Lemma stuck_todo cbs g : run cbs g -> stuck g -> room g -> app_phase g <> NotStarted -> todo g = [].
Proof.
  intros Hr Hst Hroom Hph. destruct (stuck_app cbs g Hr Hst Hroom) as (Hap & _ & Hpi). unfold todo. rewrite Hap.
  destruct (app_phase g); [done|by rewrite Hpi|done].
Qed.

(** When no thread can go on, the callback has returned. *)
Lemma stuck_returned cbs g : run cbs g -> stuck g -> room g -> main_prog g = [].
Proof.
  intros Hr Hst Hroom. destruct (run_invariant cbs g Hr) as [Ho I].
  destruct (stuck_app cbs g Hr Hst Hroom) as (Hap & [?|Hw] & Hpi); [done|exfalso].
  destruct (inv_asleep _ I) as (_ & b & k & Hm); [unfold asleep; by rewrite Hw|].
  destruct (in_outline_safe cbs g _ k Ho Hm) as (_ & [a Ha] & P & o & _ & _ & _ & Hp & Hb).
  destruct (Hb b eq_refl _ _ _ _ Ha Hp) as [Hph Hnil].
  destruct Hnil as [Hnw|[Hin Hd]]; [by eapply stuck_todo| |].
  - destruct (inv_wake _ I b k a Hw Hm Ha) as [?|Hbr]; [congruence|]. by rewrite Hap in Hbr.
  - destruct (Hst (g <| app_phase := Leaving |> <| app_prog := android_app_destroy |>)).
    apply turn_return. unfold app_return. by rewrite Hin, Hap, Ha, Hd.
Qed.

(** After the callbacks, in a state of [run]. *)
Lemma run_idle cbs g : run cbs g -> main_prog g = [] -> at_point (afterwards cbs) g.
Proof. intros [([|[P i] o] & Hm & _ & Hp) _]%run_invariant Hn; [done|]. by rewrite Hm in Hn. Qed.

Lemma run_alive cbs g :
  run cbs g -> main_prog g = [] -> cb_onDestroy ∉ cbs ->
  at_point (calm (current_window cbs) (current_queue cbs) (current_state cbs)) g.
Proof. intros Hr Hm Hn. pose proof (run_idle cbs g Hr Hm) as Hp. unfold afterwards in Hp. by destruct (decide _). Qed.

Lemma run_turns cbs g g' : run cbs g -> rtc turn g g' -> run cbs g' /\ (room g -> room g').
Proof.
  intros Hr Ht. induction Ht as [g|g g1 g2 Ht _ IH]; [done|].
  destruct (work_turn cbs g g1 Hr Ht) as [_ Hro]. destruct IH as [? ?]; [by eapply run_turn|]. auto.
Qed.

(** C10: every callback returns.  Take any state that the application can be in, during
    a callback, with room in the pipe for the commands that callback writes.  However
    the two threads are scheduled, they come to a state in which neither can go on;
    in every such state the callback has returned; and while the activity is not
    being destroyed, the application then has the window, the input queue and the
    state that the framework last announced. *)
Theorem callbacks_return cbs g :
  run cbs g -> room g ->
  Acc (fun x y => turn y x) g /\
  forall g', rtc turn g g' -> stuck g' ->
    main_prog g' = [] /\
    (cb_onDestroy ∉ cbs -> exists a, app (memory g') = Some a /\ window a = current_window cbs /\
       inputQueue a = current_queue cbs /\ activityState a = current_state cbs) /\
    (cb_onDestroy ∈ cbs -> app (memory g') = None).
Proof.
  intros Hr Hroom. split; [by eapply turns_end|]. intros g' Ht Hst.
  destruct (run_turns cbs g g' Hr Ht) as [Hr' Hroom']. specialize (Hroom' Hroom).
  pose proof (stuck_returned cbs g' Hr' Hst Hroom') as Hm. split; [done|].
  pose proof (run_idle cbs g' Hr' Hm) as Hp. unfold at_point, afterwards in Hp.
  destruct (decide _) as [Hd|Hd]; (split; intros Hd'; [|]); try done; [by destruct Hp|].
  destruct Hp as (a & Ha & [[_ Hw] _] & [Hq _] & [Hs _] & _ & (Hph & _)). exists a.
  rewrite (stuck_todo cbs g' Hr' Hst Hroom') in Hw by (by rewrite Hph). done.
Qed.

(** C11: no step of the glue is undefined behaviour, and the threads do not race.  In
    every state of every run, no step of either thread uses the structure after it is
    freed or before it exists, frees a block twice, gives back a mutex it does not
    hold, destroys a mutex in use, or uses a configuration or looper that does not
    exist; and a thread about to access a member that both threads use holds the
    mutex. *)
Theorem threads_safe cbs g :
  run cbs g ->
  main_step g <> Fault /\ app_step g <> Fault /\ app_return g <> Fault /\
  (forall events, app_input events g <> Fault) /\
  (forall i k, main_status g = Running -> main_prog g = i :: k -> guarded i = true -> mutex g = Some Main) /\
  (forall i k, app_prog g = i :: k -> guarded i = true -> mutex g = Some App).
Proof.
  intros Hr. destruct (run_invariant cbs g Hr) as [Ho I].
  assert (Halive : app_phase g = InMain -> is_Some (app (memory g))).
  { intros Hph. destruct (app (memory g)) eqn:Ha; [by eexists|]. by destruct (inv_alive _ I Ha). }
  split_and!.
  - unfold main_step. destruct (main_status g) eqn:Hs; [|done|by destruct (mutex g)].
    destruct (main_prog g) as [|i k] eqn:Hm; [done|].
    destruct (in_outline_safe cbs g i k Ho Hm) as (Hi & Hsafe & _). by apply main_no_fault.
  - destruct (app_prog g) as [|i k] eqn:Hp; [unfold app_step; by rewrite Hp|].
    destruct (app_progress g i k I Hp) as [[g' ->]|[-> _]]; done.
  - unfold app_return. destruct (app_phase g) eqn:Hph, (app_prog g); try done.
    destruct Halive as [a ->]; [done|]. by destruct (destroyRequested a).
  - intros events. unfold app_input. destruct (app_phase g) eqn:Hph, (app_prog g); try done.
    destruct Halive as [a ->]; [done|]. destruct (decide _); [|done]. by destruct (process_input _ _ _).
  - intros i k Hs Hm Hg. destruct (main_held g i k I Hs Hm) as (t & t' & Hc & Ht & _).
    rewrite (guarded_held _ _ _ _ Hc Hg) in Ht. symmetry in Ht. by apply bool_decide_eq_true_1 in Ht.
  - intros i k Hp Hg. destruct (inv_app _ I) as (t & t' & [Th _ Tc _ _]). rewrite Hp in Tc. cbn in Tc.
    destruct (check1 _ t i) as [t1|] eqn:Ec; [|done]. rewrite (guarded_held _ _ _ _ Ec Hg) in Th.
    symmetry in Th. by apply bool_decide_eq_true_1 in Th.
Qed.

(** C16: between callbacks the application never has a stale resource.  In every state
    of every run in which no callback is running and the activity is not destroyed,
    the window of the application is the one the framework last announced, or none;
    its input queue and its state are those last announced; and unless the thread is
    in the middle of a change, the looper listens to that queue and no other. *)
Theorem no_stale_resource cbs g :
  run cbs g -> main_prog g = [] -> cb_onDestroy ∉ cbs ->
  exists a, app (memory g) = Some a /\
    (window a = 0 \/ window a = current_window cbs) /\
    inputQueue a = current_queue cbs /\ activityState a = current_state cbs /\
    (mutex g <> Some App -> attached (memory g) = expected (current_queue cbs)).
Proof.
  intros Hr Hm Hn. destruct (run_invariant cbs g Hr) as [_ I].
  destruct (run_alive cbs g Hr Hm Hn) as (a & Ha & [_ Hw] & [Hq _] & [Hs _] & _ & (Hph & _)).
  exists a. split_and!; try done. intros Hmu. destruct (inv_app _ I) as (t & t' & [Th Ts _ _ Ty]).
  rewrite <-Hq, (sound_sync _ _ Ts a Ha). unfold is_held in Th. rewrite bool_decide_eq_false_2 in Th by done.
  destruct (Ty Th) as [->|?]; [done|congruence].
Qed.

(** C21: saved states arrive.  In every state of every run in which no callback is
    running, the calls of [onSaveInstanceState] have returned, in order, exactly the
    states that the handler of the application saved for them; the blocks still on the
    heap are those given to the framework and the one in [savedState]; and after
    [onDestroy] nothing else is left. *)
Theorem saved_states_arrive cbs g :
  run cbs g -> main_prog g = [] ->
  handed (memory g) = saves (memory g) /\
  (forall p, is_Some (heap (memory g) !! p) <->
     p ∈ given (memory g) \/ exists a, app (memory g) = Some a /\ savedState a = p /\ p <> 0) /\
  (cb_onDestroy ∈ cbs -> app (memory g) = None).
Proof.
  intros Hr Hm. destruct (run_invariant cbs g Hr) as [_ I]. pose proof (run_idle cbs g Hr Hm) as Hp.
  unfold at_point, afterwards in Hp. split; [|split; [apply (inv_heap _ I)|]].
  - destruct (decide _); [by destruct Hp as (_ & _ & _ & ?)|]. by destruct Hp as (a & _ & _ & _ & _ & [? _] & _).
  - intros Hd. destruct (decide _); [|done]. by destruct Hp.
Qed.

End Runs.

(** Every input event that the platform does not keep is finished once, in order. *)
Theorem input_events_finished {U} `{Platform U} (events : list Z) (u : U) (done : list (Z * Z)) :
  map fst (snd (process_input events u done)) =
    map fst done ++ filter (fun e => AInputQueue_preDispatchEvent e = false) events.
Proof.
  revert u done. induction events as [|e events IH]; intros u done; [by rewrite app_nil_r|]. cbn [process_input].
  destruct (AInputQueue_preDispatchEvent e) eqn:E.
  - rewrite IH, filter_cons_False; [done|congruence].
  - destruct (match onInputEvent with Some f => _ | None => _ end) as [u' handled].
    rewrite IH, filter_cons_True, map_app, <-app_assoc by done. done.
Qed.

(** ** Examples *)

(** A scheduler: the main thread first. *)
Definition schedule {U} `{Platform U} (g : glue U) : option (glue U) :=
  match main_step g, app_step g, app_poll g, app_return g with
  | Next g', _, _, _ | _, Next g', _, _ | _, _, Next g', _ | _, _, _, Next g' => Some g'
  | _, _, _, _ => None
  end.

Fixpoint drive {U} `{Platform U} (n : nat) (g : glue U) : glue U :=
  match n with
  | O => g
  | S n => match schedule g with Some g' => drive n g' | None => g end
  end.

Lemma schedule_turn {U} `{Platform U} (g g' : glue U) : schedule g = Some g' -> turn g g'.
Proof.
  unfold schedule. intros E.
  destruct (main_step g) eqn:E1; [injection E as <-; by apply turn_main| |];
    (destruct (app_step g) eqn:E2; [injection E as <-; by apply turn_app| |]);
    (destruct (app_poll g) eqn:E3; [injection E as <-; by apply turn_poll| |]);
    (destruct (app_return g) eqn:E4; [injection E as <-; by apply turn_return| |]); discriminate.
Qed.

Lemma schedule_stuck {U} `{Platform U} (g : glue U) : schedule g = None -> stuck g.
Proof. unfold schedule. intros E g' [E1|E1|E1|E1]; rewrite E1 in E; repeat case_match; discriminate. Qed.

Lemma drive_turns {U} `{Platform U} n (g : glue U) : rtc turn g (drive n g).
Proof.
  revert g. induction n as [|n IH]; intros g; [done|]. cbn. destruct (schedule g) as [g'|] eqn:E; [|done].
  eapply rtc_l; [by apply schedule_turn|apply IH].
Qed.

Lemma drive_run {U} `{Platform U} n cbs (g : glue U) : run cbs g -> run cbs (drive n g).
Proof. intros Hr. induction (drive_turns n g) as [g|g g1 g2 Ht _ IH]; [done|]. apply IH. by eapply run_turn. Qed.

(** An application that saves three bytes and keeps the last command. *)
#[local] Instance demo_platform : Platform Z := {
  pipe_ok := true;
  thread_ok := true;
  capacity := 4;
  no_userData := 0;
  onAppCmd := Some (fun cmd _ => (cmd, if cmd =? APP_CMD_SAVE_STATE then Some (str "abc") else None));
  onInputEvent := None;
  AInputQueue_preDispatchEvent := fun e => e =? 3
}.

#[local] Instance demo_platform_ok : PlatformOk Z.
Proof. by split. Qed.

Definition demo_created : glue Z := drive 60 (creating None).

Definition demo_started : glue Z := drive 60 (demo_created <| main_prog := onStart |>).

(** The framework has just called [onNativeWindowCreated]. *)
Definition demo_window : glue Z := demo_started <| main_prog := onNativeWindowCreated 7 |>.

Lemma demo_started_run : run [cb_onStart] demo_started.
Proof.
  apply drive_run. apply (run_callback [] demo_created cb_onStart); [apply drive_run, run_create|by vm_compute|].
  apply not_elem_of_nil.
Qed.

Lemma demo_window_run : run [cb_onStart; cb_onNativeWindowCreated 7] demo_window.
Proof.
  apply (run_callback [cb_onStart] demo_started (cb_onNativeWindowCreated 7)); [apply demo_started_run|by vm_compute|].
  by apply (bool_decide_unpack _).
Qed.

Lemma callbacks_return_witness :
  main_prog (drive 60 demo_window) = [] /\
  exists a, app (memory (drive 60 demo_window)) = Some a /\ window a = 7 /\ inputQueue a = 0 /\ activityState a = APP_CMD_START.
Proof.
  destruct (callbacks_return _ _ demo_window_run) as [_ Hend]; [unfold room; vm_compute; lia|].
  destruct (Hend (drive 60 demo_window)) as (Hm & Ha & _); [apply drive_turns|by apply schedule_stuck; vm_compute|].
  split; [done|]. apply Ha. by apply (bool_decide_unpack _).
Defined.

Lemma threads_safe_witness : main_step demo_window <> Fault /\ app_step demo_window <> Fault.
Proof. destruct (threads_safe _ _ demo_window_run) as (? & ? & _). done. Defined.

Lemma no_stale_resource_witness :
  exists a, app (memory demo_started) = Some a /\ (window a = 0 \/ window a = 0) /\ inputQueue a = 0 /\
    activityState a = APP_CMD_START.
Proof.
  destruct (no_stale_resource _ _ demo_started_run) as (a & ? & ? & ? & ? & _); [by vm_compute|by apply (bool_decide_unpack _)|].
  by exists a.
Defined.

(** The framework has saved the state and destroyed the activity. *)
Definition demo_saved : glue Z := drive 60 (demo_started <| main_prog := onSaveInstanceState |>).

Definition demo_destroyed : glue Z := drive 60 (demo_saved <| main_prog := onDestroy |>).

Lemma demo_destroyed_run : run [cb_onStart; cb_onSaveInstanceState; cb_onDestroy] demo_destroyed.
Proof.
  apply drive_run.
  apply (run_callback [cb_onStart; cb_onSaveInstanceState] demo_saved cb_onDestroy);
    [apply drive_run|by vm_compute|by apply (bool_decide_unpack _)].
  apply (run_callback [cb_onStart] demo_started cb_onSaveInstanceState);
    [apply demo_started_run|by vm_compute|by apply (bool_decide_unpack _)].
Qed.

Lemma saved_states_arrive_witness :
  handed (memory demo_destroyed) = saves (memory demo_destroyed) /\
  saves (memory demo_destroyed) = [Some (str "abc")] /\ app (memory demo_destroyed) = None.
Proof.
  destruct (saved_states_arrive _ _ demo_destroyed_run) as (Hh & _ & Ha); [by vm_compute|].
  split; [done|]. split; [by vm_compute|]. apply Ha. by apply (bool_decide_unpack _).
Defined.

(** ** What the glue does not guard against *)

(** A callback writes to the pipe while it holds the mutex.  Here the application is
    in its handler of [APP_CMD_RESUME], the framework reports low memory until the
    pipe is full, and then pauses the activity: the main thread waits for room in the
    pipe, the other thread for the mutex, and neither goes on. *)
Definition demo_resumed : glue Z := drive 11 (demo_created <| main_prog := onResume |>).

Definition low_memory (g : glue Z) : glue Z := drive 1 (g <| main_prog := onLowMemory |>).

Definition demo_full : glue Z := low_memory (low_memory (low_memory (low_memory demo_resumed))).

Definition demo_deadlock : glue Z := drive 60 (demo_full <| main_prog := onPause |>).

Lemma low_memory_run cbs g :
  run cbs g -> main_prog g = [] -> cb_onDestroy ∉ cbs -> run (cbs ++ [cb_onLowMemory]) (low_memory g).
Proof. intros Hr Hm Hn. apply drive_run. by apply (run_callback cbs g cb_onLowMemory). Qed.

Example full_pipe_deadlock :
  (exists cbs, run cbs demo_deadlock) /\ stuck demo_deadlock /\ main_prog demo_deadlock <> [].
Proof.
  split; [|split; [by apply schedule_stuck; vm_compute|by vm_compute]].
  eexists. apply drive_run. eapply (run_callback _ demo_full cb_onPause); [|by vm_compute|].
  - apply low_memory_run; [|by vm_compute|]; [apply low_memory_run; [|by vm_compute|]|].
    1: apply low_memory_run; [|by vm_compute|]; [apply low_memory_run; [|by vm_compute|]|].
    1: apply drive_run; apply (run_callback [] demo_created cb_onResume); [apply drive_run, run_create|by vm_compute|].
    all: by apply (bool_decide_unpack _).
  - by apply (bool_decide_unpack _).
Qed.

(** A platform on which [pthread_create] or [pipe] fails. *)
Definition poor_platform (p t : bool) : Platform Z := {|
  pipe_ok := p;
  thread_ok := t;
  capacity := 4;
  no_userData := 0;
  onAppCmd := None;
  onInputEvent := None;
  AInputQueue_preDispatchEvent := fun _ => false
|}.

(** The result of [pthread_create] is not tested: without a thread,
    [ANativeActivity_onCreate] waits for ever. *)
Example no_thread_hangs :
  let P := poor_platform true false in
  let g := @drive Z P 60 (creating None) in @stuck Z P g /\ main_prog g <> [].
Proof. cbn zeta. split; [by apply (@schedule_stuck Z (poor_platform true false)); vm_compute|by vm_compute]. Qed.

(** Without a pipe the instance of the activity is NULL, and the next callback uses it. *)
Example no_pipe_faults :
  let P := poor_platform false true in
  let g := @drive Z P 60 (creating None) in
  main_prog g = [] /\ @main_step Z P (g <| main_prog := onStart |>) = Fault.
Proof. by vm_compute. Qed.
