(* ===== verification/Crystax.v ===== *)
(** * Functions of libcrystax

    Models [strntoimax.c], [strverscmp.c], [rand.c], [makedev.c], [memswap.c] and
    [execve.c] of [sources/crystax/src]: functions that the C library of Android
    lacks, or has in an older form.  The theorems state what the numbers mean that
    the parsers read, that versions are ordered by their numbers, that the generator
    computes its recurrence without overflow, and what [execve] runs for a script. *)

From S2P Require Import Prelude Kernel Util.
Open Scope Z_scope.

(** ** [strntoimax.c] *)

(** An [int] compared as [unsigned] selects a range of characters. *)
Definition digitval (ch : ascii) : Z :=
  let d := wrap 32 (zc ch - 48) in
  if d <? 10 then d else
  let d := wrap 32 (zc ch - 97) in
  if d <? 6 then d + 10 else
  let d := wrap 32 (zc ch - 65) in
  if d <? 6 then d + 10 else
  -1.

Fixpoint read_digits (base v : Z) (p : cstr) : Z * cstr :=
  match p with
  | [] => (v, [])
  | c :: p' =>
      let d := digitval c in
      if (0 <=? d) && (d <? base) then read_digits base (wrap 64 (v * base + d)) p' else (v, p)
  end.

Definition is_x (c : ascii) : bool := bool_decide (c = "x"%char) || bool_decide (c = "X"%char).

(** The base, and the text after the prefix that tells it. *)
Definition read_base (base : Z) (p : cstr) : Z * cstr :=
  let hex := match p with c :: x :: _ :: _ => bool_decide (c = "0"%char) && is_x x | _ => false end in
  if base =? 0 then
    if hex then (16, drop 2 p)
    else match p with
         | c :: (_ :: _) as p' => if bool_decide (c = "0"%char) then (8, p') else (10, p)
         | _ => (10, p)
         end
  else if base =? 16 then (base, if hex then drop 2 p else p)
  else (base, p).

(** The [n] bytes of the text; the value and the text after the number. *)
Definition strntoumax (p : cstr) (base : Z) : Z * cstr :=
  let p := skip_while isspace p in
  let '(minus, p) :=
    match p with
    | c :: p' =>
        if bool_decide (c = "-"%char) || bool_decide (c = "+"%char) then (bool_decide (c = "-"%char), p')
        else (false, p)
    | [] => (false, p)
    end in
  let '(base, p) := read_base base p in
  let '(v, p) := read_digits base 0 p in
  (if minus then wrap 64 (- v) else v, p).

Definition strntoimax (p : cstr) (base : Z) : Z * cstr :=
  let '(v, p) := strntoumax p base in (swrap 64 v, p).

Definition isdigit (c : ascii) : bool := (48 <=? zc c) && (zc c <=? 57).

(** The digits after the point: their number, the value of the first six, and the
    text after them. *)
Fixpoint read_fraction (count : nat) (fractional_seconds : Z) (s : cstr) : nat * Z * cstr :=
  match s with
  | c :: s' =>
      if isdigit c then
        read_fraction (S count)
          (if (S count <? 7)%nat then fractional_seconds * 10 + (zc c - 48) else fractional_seconds) s'
      else (count, fractional_seconds, s)
  | [] => (count, fractional_seconds, [])
  end.

(** [strtoumax] is the C library's. *)
Definition strtotimeval (strtoumax : cstr -> Z * cstr) (str : cstr) : Z * Z * cstr :=
  let '(tv_sec, s) := strtoumax str in
  match s with
  | c :: s' =>
      if bool_decide (c = "."%char) then
        let '(count, fractional_seconds, s) := read_fraction 0 0 s' in
        (tv_sec, fractional_seconds * 10 ^ Z.of_nat (6 - count), s)
      else (tv_sec, 0, s)
  | [] => (tv_sec, 0, [])
  end.

(** ** [strverscmp.c] *)

(** The byte at an index of a string; the terminating NUL at its length. *)
Definition byte_at (s : cstr) (i : nat) : Z := match s !! i with Some c => zc c | None => 0 end.

Definition isdigit_at (s : cstr) (i : nat) : bool := match s !! i with Some c => isdigit c | None => false end.

(** The maximal matching prefix; [None] if the strings are equal. *)
Fixpoint matching (l r : cstr) (i dp : nat) (z : bool) : option (nat * nat * bool) :=
  match l, r with
  | [], [] => None
  | c :: l', d :: r' =>
      if bool_decide (c = d) then
        if isdigit c then matching l' r' (S i) dp (if bool_decide (c = "0"%char) then z else false)
        else matching l' r' (S i) (S i) true
      else Some (i, dp, z)
  | _, _ => Some (i, dp, z)
  end.

(** The longer string of digits. *)
Fixpoint longer (l r : cstr) : option Z :=
  match l, r with
  | c :: l', d :: r' =>
      if isdigit c then if isdigit d then longer l' r' else Some 1
      else if isdigit d then Some (-1) else None
  | c :: _, [] => if isdigit c then Some 1 else None
  | [], d :: _ => if isdigit d then Some (-1) else None
  | [], [] => None
  end.

Definition strverscmp (l r : cstr) : Z :=
  match matching l r 0 0 true with
  | None => 0
  | Some (i, dp, z) =>
      let difference := byte_at l i - byte_at r i in
      if negb (byte_at l dp =? 48) && negb (byte_at r dp =? 48) then
        match longer (drop i l) (drop i r) with Some x => x | None => difference end
      else if z && (dp <? i)%nat && (isdigit_at l i || isdigit_at r i) then
        wrap 8 (byte_at l i - 48) - wrap 8 (byte_at r i - 48)
      else difference
  end.

(** ** [rand.c] *)

(** The new state; the arithmetic is in [long] of [w] bits, and [None] is an overflow. *)
Definition do_rand (w : Z) (ctx : Z) : option Z :=
  let fits_long x := (- 2 ^ (w - 1) <=? x) && (x <? 2 ^ (w - 1)) in
  let ctx := if ctx =? 0 then 123459876 else ctx in
  let hi := ctx / 127773 in
  let lo := ctx mod 127773 in
  let x := 16807 * lo - 2836 * hi in
  if fits_long (16807 * lo) && fits_long (2836 * hi) && fits_long x then
    Some (if x <? 0 then x + 0x7fffffff else x)
  else None.

(** The result and the new state; [RAND_MAX] is [0x7fffffff]. *)
Definition rand_r (w : Z) (ctx : Z) : option (Z * Z) :=
  match do_rand w ctx with
  | Some x => Some (x mod (0x7fffffff + 1), wrap 32 x)
  | None => None
  end.

(** ** [makedev.c] *)

Definition major (dev : Z) : Z := Z.land (Z.shiftr dev 8) 0xfff.

Definition minor (dev : Z) : Z := Z.lor (Z.land dev 0xff) (Z.land (Z.shiftr dev 12) 0xfff00).

Definition makedev (ma mi : Z) : Z :=
  Z.lor (Z.lor (Z.shiftl (Z.land ma 0xfff) 8) (Z.land mi 0xff)) (Z.shiftl (Z.land mi 0xfff00) 12).

(** ** [memswap.c] *)

(** The [n] bytes at two indices of a memory are exchanged one by one. *)
Fixpoint memswap (n : nat) (p q : nat) (m : list ascii) : option (list ascii) :=
  match n with
  | O => Some m
  | S n =>
      match m !! p, m !! q with
      | Some x, Some y => memswap n (S p) (S q) (<[q := x]> (<[p := y]> m))
      | _, _ => None
      end
  end.

(** ** Theorems on the generator *)

(** The generator of [rand_r] computes the recurrence of Park and Miller without
    overflow: for every state of 32 bits, with a [long] of 32 or of 64 bits, no
    operation overflows and the result and the new state are
    [16807 * ctx mod (2 ^ 31 - 1)], where a state of 0 stands for 123459876. *)
Theorem rand_r_minimal_standard w ctx :
  w = 32 \/ w = 64 -> fits 32 ctx ->
  let x := 16807 * (if ctx =? 0 then 123459876 else ctx) mod (2 ^ 31 - 1) in rand_r w ctx = Some (x, x).
Proof.
  intros Hw Hf x. unfold fits in Hf. unfold rand_r, do_rand.
  set (c := if ctx =? 0 then 123459876 else ctx) in *.
  assert (0 < c < 2 ^ 32) as Hc by (subst c; destruct (Z.eqb_spec ctx 0); lia).
  pose proof (Z.div_mod c 127773 ltac:(lia)) as Hd. pose proof (Z.mod_pos_bound c 127773 ltac:(lia)) as Hl.
  set (hi := c / 127773) in *. set (lo := c mod 127773) in *.
  assert (0 <= hi <= 33614) as Hh by lia. set (y := 16807 * lo - 2836 * hi).
  assert (Hx : x = if y <? 0 then y + 0x7fffffff else y).
  { subst x. symmetry. apply (Z.mod_unique_pos _ _ (if y <? 0 then hi - 1 else hi)); destruct (Z.ltb_spec y 0); lia. }
  assert (Hfit : (- 2 ^ (w - 1) <=? 16807 * lo) && (16807 * lo <? 2 ^ (w - 1)) &&
                 ((- 2 ^ (w - 1) <=? 2836 * hi) && (2836 * hi <? 2 ^ (w - 1))) &&
                 ((- 2 ^ (w - 1) <=? y) && (y <? 2 ^ (w - 1))) = true).
  { rewrite !andb_true_iff, !Z.leb_le, !Z.ltb_lt. subst y. destruct Hw as [->| ->]; cbn; lia. }
  rewrite Hfit, <-Hx. pose proof (Z.mod_pos_bound (16807 * c) (2 ^ 31 - 1) ltac:(lia)) as Hb. fold x in Hb.
  rewrite (wrap_small 32) by (unfold fits; lia). rewrite Z.mod_small by lia. done.
Qed.

(** ** Theorems on device numbers *)

Lemma fits_testbit w x n : fits w x -> w <= n -> 0 <= w -> Z.testbit x n = false.
Proof. intros Hf Hn Hw. rewrite <-(wrap_small w x Hf). apply Z.mod_pow2_bits_high. lia. Qed.

(** The bits of a device number. *)
Lemma makedev_testbit ma mi n :
  fits 12 ma -> fits 20 mi -> 0 <= n ->
  Z.testbit (makedev ma mi) n =
    if n <? 8 then Z.testbit mi n else if n <? 20 then Z.testbit ma (n - 8) else Z.testbit mi (n - 12).
Proof.
  intros Ha Hi Hn. unfold makedev. change 0xfff with (Z.ones 12). change 0xff with (Z.ones 8).
  change 0xfff00 with (Z.shiftl (Z.ones 12) 8).
  rewrite !Z.lor_spec, Z.land_spec, !Z.shiftl_spec, !Z.land_spec by lia.
  rewrite (Z.testbit_ones_nonneg 8) by lia. destruct (Z.ltb_spec n 8).
  { rewrite !(Z.testbit_neg_r _ (n - 8)), (Z.testbit_neg_r _ (n - 12)) by lia. by rewrite andb_true_r, orb_false_r. }
  rewrite (Z.testbit_ones_nonneg 12) by lia. rewrite andb_false_r, orb_false_r. destruct (Z.ltb_spec n 20).
  - replace (n - 8 <? 12) with true by (symmetry; apply Z.ltb_lt; lia). rewrite andb_true_r.
    destruct (Z.ltb_spec n 12); [rewrite (Z.testbit_neg_r mi) by lia; by rewrite orb_false_r|].
    rewrite Z.shiftl_spec, (Z.testbit_neg_r (Z.ones 12)) by lia. by rewrite andb_false_r, orb_false_r.
  - replace (n - 8 <? 12) with false by (symmetry; apply Z.ltb_ge; lia). rewrite andb_false_r. cbn [orb].
    rewrite Z.shiftl_spec, Z.testbit_ones_nonneg by lia. destruct (Z.ltb_spec (n - 12 - 8) 12).
    + by rewrite andb_true_r.
    + rewrite (fits_testbit 20 mi); [done|done|lia|lia].
Qed.

(** Memory blocks that do not overlap are exchanged, and nothing else changes. *)
Lemma memswap_swaps n p q m :
  (p + n <= q)%nat -> (q + n <= length m)%nat ->
  exists m', memswap n p q m = Some m' /\
    forall i, m' !! i = if decide (p <= i < p + n)%nat then m !! (i - p + q)%nat
                      else if decide (q <= i < q + n)%nat then m !! (i - q + p)%nat else m !! i.
Proof.
  revert p q m. induction n as [|n IH]; intros p q m Hpq Hm.
  - exists m. split; [done|]. intros i. do 2 (destruct (decide _) as [?|_]; [lia|]). done.
  - cbn. destruct (lookup_lt_is_Some_2 m p ltac:(lia)) as [x Hx], (lookup_lt_is_Some_2 m q ltac:(lia)) as [y Hy].
    rewrite Hx, Hy. destruct (IH (S p) (S q) (<[q:=x]> (<[p:=y]> m))) as (m' & -> & Hi);
      [lia|rewrite !length_insert; lia|]. exists m'. split; [done|]. intros i. rewrite Hi.
    assert (Hlook : forall j, <[q:=x]> (<[p:=y]> m) !! j = if decide (j = q) then Some x else if decide (j = p) then Some y else m !! j).
    { intros j. destruct (decide (j = q)) as [->|]; [apply list_lookup_insert_eq; rewrite length_insert; lia|].
      rewrite list_lookup_insert_ne by done. destruct (decide (j = p)) as [->|]; [apply list_lookup_insert_eq; lia|].
      by rewrite list_lookup_insert_ne. }
    rewrite !Hlook. repeat (destruct (decide _); try lia); subst; f_equal; try lia; rewrite ?Hx, ?Hy; try done.
    all: first [rewrite <-Hx|rewrite <-Hy]; f_equal; lia.
Qed.

(** The parts of a device number: major numbers of 12 bits and minor numbers of 20
    bits are read back. *)
Theorem makedev_parts ma mi :
  fits 12 ma -> fits 20 mi -> major (makedev ma mi) = ma /\ minor (makedev ma mi) = mi.
Proof.
  intros Ha Hi. unfold major, minor. change 0xfff with (Z.ones 12). change 0xff with (Z.ones 8).
  change 0xfff00 with (Z.shiftl (Z.ones 12) 8). split; apply Z.bits_inj'; intros n Hn.
  - rewrite Z.land_spec, Z.shiftr_spec, Z.testbit_ones_nonneg, makedev_testbit by (done || lia).
    destruct (Z.ltb_spec n 12).
    + destruct (Z.ltb_spec (n + 8) 8), (Z.ltb_spec (n + 8) 20); try lia. rewrite andb_true_r. f_equal. lia.
    + rewrite andb_false_r. symmetry. apply (fits_testbit 12); [done|lia|lia].
  - rewrite Z.lor_spec, !Z.land_spec, Z.shiftr_spec, Z.shiftl_spec, Z.testbit_ones_nonneg, !makedev_testbit by (done || lia).
    destruct (Z.ltb_spec n 8).
    + rewrite (Z.testbit_neg_r (Z.ones 12)) by lia. by rewrite andb_true_r, andb_false_r, orb_false_r.
    + rewrite andb_false_r. cbn [orb]. rewrite Z.testbit_ones_nonneg by lia.
      destruct (Z.ltb_spec (n + 12) 8), (Z.ltb_spec (n + 12) 20); try lia. destruct (Z.ltb_spec (n - 8) 12).
      * rewrite andb_true_r. f_equal. lia.
      * rewrite andb_false_r. symmetry. apply (fits_testbit 20); [done|lia|lia].
Qed.

(** ** Theorems on numbers *)

(** The value of a list of digits, after the value [v]. *)
Definition number (base v : Z) (ds : list Z) : Z := fold_left (fun v d => v * base + d) ds v.

(** The digits of a number, at most [fuel] of them. *)
Fixpoint digits (fuel : nat) (base v : Z) : list Z :=
  match fuel with
  | O => []
  | S fuel => (if v <? base then [] else digits fuel base (v / base)) ++ [v mod base]
  end.

Definition digit_char (d : Z) : ascii := cz (if d <? 10 then 48 + d else 87 + d).

(** A number as [printf] writes it, in any base up to 16. *)
Definition print_number (base z : Z) : cstr :=
  (if z <? 0 then ["-"%char] else []) ++ map digit_char (digits 64 base (Z.abs z)).

Lemma number_app base v ds es : number base v (ds ++ es) = number base (number base v ds) es.
Proof. apply fold_left_app. Qed.

Lemma digits_number fuel base v :
  2 <= base -> 0 <= v < base ^ Z.of_nat fuel -> (fuel <> 0)%nat ->
  number base 0 (digits fuel base v) = v /\ Forall (fun d => 0 <= d < base) (digits fuel base v) /\
  exists d ds, digits fuel base v = d :: ds /\ (0 < v -> 0 < d) /\ (v = 0 -> ds = []).
Proof.
  intros Hb. revert v. induction fuel as [|fuel IH]; intros v Hv Hf; [done|].
  pose proof (Z.mod_pos_bound v base ltac:(lia)) as Hm. cbn [digits]. destruct (Z.ltb_spec v base) as [Hl|Hl].
  - rewrite Z.mod_small by lia. split_and!; [cbn; lia|apply Forall_singleton; lia|]. by exists v, [].
  - assert (fuel <> 0%nat) as Hf'. { intros ->. cbn in Hv. lia. }
    assert (0 < v / base < base ^ Z.of_nat fuel) as Hq.
    { split; [apply Z.div_str_pos; lia|]. apply Z.div_lt_upper_bound; [lia|]. rewrite Nat2Z.inj_succ, Z.pow_succ_r in Hv; lia. }
    destruct (IH (v / base)) as (Hn & Hd & d & ds & Eds & Hpos & _); [lia|done|].
    split_and!.
    + rewrite number_app, Hn. cbn. pose proof (Z.div_mod v base ltac:(lia)). lia.
    + apply Forall_app. split; [done|by apply Forall_singleton].
    + rewrite Eds. exists d, (ds ++ [v mod base]). split; [done|]. split; [intros _; apply Hpos; lia|lia].
Qed.

(** Case analysis on a digit. *)
Lemma digit_cases (P : Z -> Prop) d :
  0 <= d < 16 -> Forall P [0; 1; 2; 3; 4; 5; 6; 7; 8; 9; 10; 11; 12; 13; 14; 15] -> P d.
Proof.
  intros Hd HP. rewrite list.Forall_forall in HP. apply HP. rewrite !elem_of_cons. lia.
Qed.

Lemma digitval_char d : 0 <= d < 16 -> digitval (digit_char d) = d.
Proof.
  intros Hd. revert d Hd. intros d Hd. pattern d. apply digit_cases; [done|]. by repeat constructor.
Qed.

Lemma read_digits_number base v ds rest :
  base <= 16 -> Forall (fun d => 0 <= d < base) ds ->
  match rest with [] => True | c :: _ => digitval c < 0 \/ base <= digitval c end ->
  read_digits base (wrap 64 v) (map digit_char ds ++ rest) = (wrap 64 (number base v ds), rest).
Proof.
  intros Hb. revert v. induction ds as [|d ds IH]; intros v Hd Hr.
  - destruct rest as [|c rest]; [done|]. cbn. destruct (Z.leb_spec 0 (digitval c)), (Z.ltb_spec (digitval c) base); try done; lia.
  - inversion_clear Hd as [|? ? Hd1 Hd2]. cbn. rewrite digitval_char by lia.
    destruct (Z.leb_spec 0 d), (Z.ltb_spec d base); try lia. cbn [andb].
    replace (wrap 64 (wrap 64 v * base + d)) with (wrap 64 (v * base + d)); [by apply IH|].
    unfold wrap. by rewrite <-(Zplus_mod_idemp_l (v mod 2 ^ 64 * base)), Zmult_mod_idemp_l, Zplus_mod_idemp_l.
Qed.

Lemma skip_spaces spaces p :
  Forall (fun c => isspace c = true) spaces ->
  match p with [] => True | c :: _ => isspace c = false end -> skip_while isspace (spaces ++ p) = p.
Proof.
  induction 1 as [|c spaces Hc _ IH]; intros Hp; cbn; [by destruct p; cbn; rewrite ?Hp|]. rewrite Hc. by apply IH.
Qed.

(** A digit is not a space, a sign or the letter of a prefix. *)
Lemma digit_char_plain d :
  0 <= d < 16 ->
  isspace (digit_char d) = false /\ bool_decide (digit_char d = "-"%char) = false /\
  bool_decide (digit_char d = "+"%char) = false /\ is_x (digit_char d) = false /\
  (0 < d -> bool_decide (digit_char d = "0"%char) = false).
Proof.
  intros Hd. revert d Hd. intros d Hd. pattern d. apply digit_cases; [done|]. by repeat constructor.
Qed.

(** Text after a number: no digit of the base, no letter of a prefix. *)
Definition ends_number (base : Z) (rest : cstr) : Prop :=
  match rest with [] => True | c :: _ => (digitval c < 0 \/ base <= digitval c) /\ is_x c = false end.

(** No prefix is taken off the digits of a number. *)
Lemma read_base_digits base d ds rest :
  2 <= base <= 16 -> Forall (fun d => 0 <= d < base) (d :: ds) -> (d = 0 -> ds = []) -> ends_number base rest ->
  read_base base (map digit_char (d :: ds) ++ rest) = (base, map digit_char (d :: ds) ++ rest).
Proof.
  intros Hb Hd H0 Hr. unfold read_base. destruct (Z.eqb_spec base 0); [lia|].
  destruct (base =? 16); [|done]. f_equal.
  assert (Hx : match map digit_char ds ++ rest with x :: _ => is_x x = false | [] => True end).
  { destruct ds as [|e ds]; cbn.
    - destruct rest; [done|]. by destruct Hr.
    - inversion_clear Hd as [|? ? _ He]. inversion_clear He. apply digit_char_plain. lia. }
  cbn [map]. rewrite <-app_comm_cons. destruct (map digit_char ds ++ rest) as [|x [|y p]]; try done.
  by rewrite Hx, andb_false_r.
Qed.

(** What the parser makes of a printed number. *)
Lemma strntoumax_print base z spaces rest :
  2 <= base <= 16 -> Z.abs z < 2 ^ 64 -> Forall (fun c => isspace c = true) spaces -> ends_number base rest ->
  strntoumax (spaces ++ print_number base z ++ rest) base = (wrap 64 z, rest).
Proof.
  intros Hb Hz Hs Hr.
  assert (Z.abs z < base ^ Z.of_nat 64).
  { eapply Z.lt_le_trans; [done|]. apply Z.pow_le_mono_l. lia. }
  destruct (digits_number 64 base (Z.abs z)) as (Hn & Hd & d & ds & Eds & Hpos & H0); [lia|lia|done|].
  unfold strntoumax, print_number. rewrite Eds in *. inversion_clear Hd as [|? ? Hd1 Hd2].
  destruct (digit_char_plain d ltac:(lia)) as (P1 & P2 & P3 & _).
  assert (Hrb : read_base base (map digit_char (d :: ds) ++ rest) = (base, map digit_char (d :: ds) ++ rest)).
  { apply read_base_digits; [done|by constructor| |done]. intros ->. apply H0. destruct (Z.eq_dec (Z.abs z) 0); [done|]. lia. }
  assert (Hrd : read_digits base 0 (map digit_char (d :: ds) ++ rest) = (wrap 64 (Z.abs z), rest)).
  { rewrite <-Hn. apply (read_digits_number base 0); [lia|by constructor|].
    destruct rest; [done|]. by destruct Hr. }
  rewrite <-app_assoc. destruct (Z.ltb_spec z 0).
  - rewrite skip_spaces by done. cbn [app]. change (bool_decide _ || _) with true. cbn iota.
    rewrite Hrb, Hrd. f_equal. unfold wrap. rewrite Z.abs_neq, bool_decide_eq_true_2 by (done || lia).
    rewrite <-Z.sub_0_l, Zminus_mod_idemp_r. f_equal. lia.
  - rewrite skip_spaces; [|done|done]. cbn [map app]. rewrite P2, P3. cbn [orb].
    change (digit_char d :: map digit_char ds ++ rest) with (map digit_char (d :: ds) ++ rest).
    rewrite Hrb, Hrd. by rewrite Z.abs_eq by lia.
Qed.

Lemma strntoumax_prefix base v spaces rest x :
  base = 0 \/ base = 16 -> 0 <= v < 2 ^ 64 -> Forall (fun c => isspace c = true) spaces -> ends_number 16 rest ->
  is_x x = true ->
  strntoumax (spaces ++ "0"%char :: x :: print_number 16 v ++ rest) base = (v, rest).
Proof.
  intros Hb Hv Hs Hr Hx. unfold print_number. rewrite Z.abs_eq by lia.
  destruct (digits_number 64 16 v) as (Hn & Hd & d & ds & Eds & _); [lia|cbn; lia|done|].
  unfold strntoumax. rewrite skip_spaces by done. destruct (Z.ltb_spec v 0); [lia|]. rewrite Eds in *. cbn [app].
  change (bool_decide _ || _) with false. cbn iota.
  assert (Hrb : read_base base ("0"%char :: x :: map digit_char (d :: ds) ++ rest) = (16, map digit_char (d :: ds) ++ rest)).
  { unfold read_base. cbn [map app]. rewrite Hx. change (bool_decide _ && true) with true. by destruct Hb as [->| ->]. }
  rewrite Hrb, (read_digits_number 16 0); [|lia|done|destruct rest; [done|by destruct Hr]].
  rewrite Hn. by rewrite wrap_small by (unfold fits; lia).
Qed.

(** C32: numbers are read as they are written.  After any spaces, in every base from 2
    to 16, [strntoimax] reads back every 64-bit number that is printed in that base,
    with its sign, and stops at the text after it; and in bases 0 and 16
    [strntoumax] reads back every unsigned 64-bit number after the prefix [0x]. *)
Theorem strntoimax_reads base z spaces rest :
  2 <= base <= 16 -> - 2 ^ 63 <= z < 2 ^ 63 -> Forall (fun c => isspace c = true) spaces -> ends_number base rest ->
  strntoimax (spaces ++ print_number base z ++ rest) base = (z, rest) /\
  forall b x v, b = 0 \/ b = 16 -> is_x x = true -> fits 64 v -> base = 16 ->
    strntoumax (spaces ++ "0"%char :: x :: print_number 16 v ++ rest) b = (v, rest).
Proof.
  intros Hb Hz Hs Hr. split; [|intros b x v Hb' Hx Hv ->; by apply strntoumax_prefix].
  unfold strntoimax. rewrite strntoumax_print by (done || lia). f_equal.
  unfold swrap, wrap. rewrite Zmod_mod. destruct (Z.ltb_spec z 0).
  - replace (z mod 2 ^ 64) with (z + 2 ^ 64); [destruct (Z.ltb_spec (z + 2 ^ 64) (2 ^ (64 - 1))); lia|].
    apply (Z.mod_unique_pos _ _ (-1)); lia.
  - rewrite Z.mod_small by lia. destruct (Z.ltb_spec z (2 ^ (64 - 1))); lia.
Qed.

Lemma strntoimax_reads_witness :
  strntoimax (str "  -1f;") 16 = (-31, str ";") /\ strntoumax (str "  0xff;") 0 = (255, str ";").
Proof.
  destruct (strntoimax_reads 16 (-31) (str "  ") (str ";")) as [H1 H2]; [lia|lia|by repeat constructor|by split; [left|]|].
  split; [exact H1|]. apply (H2 0 "x"%char 255); [by left|done|by split|done].
Defined.

(** ** Theorems on versions *)

Lemma matching_sym l r i dp z : matching r l i dp z = matching l r i dp z.
Proof.
  revert r i dp z. induction l as [|c l IH]; intros [|d r] i dp z; try done. cbn.
  rewrite (bool_decide_ext (d = c) (c = d)) by (split; congruence). case_bool_decide as E; [subst d|done].
  by rewrite !IH.
Qed.

Lemma matching_differs l r i dp z j dp' z' :
  no_nul l -> no_nul r -> matching l r i dp z = Some (j, dp', z') ->
  exists k, j = (i + k)%nat /\ byte_at l k <> byte_at r k.
Proof.
  intros Hl. revert r i dp z. induction Hl as [|c l Hc Hl IH]; intros [|d r] i dp z Hr; cbn; [done| | |].
  - intros [= <- _ _]. exists 0%nat. inversion_clear Hr. split; [lia|]. cbn. auto.
  - intros [= <- _ _]. exists 0%nat. split; [lia|]. cbn. auto.
  - inversion_clear Hr as [|? ? Hd Hr']. case_bool_decide as E.
    + intros Hm. assert (exists k, j = (S i + k)%nat /\ byte_at l k <> byte_at r k) as (k & -> & Hk).
      { destruct (isdigit c); eapply IH; eauto. }
      exists (S k). split; [lia|]. subst d. by cbn.
    + intros [= <- _ _]. exists 0%nat. split; [lia|]. cbn. intros Hz. apply E. by apply zc_inj.
Qed.

Lemma matching_equal l i dp z : matching l l i dp z = None.
Proof. revert i dp z. induction l as [|c l IH]; intros; [done|]. cbn. rewrite bool_decide_eq_true_2 by done. by rewrite !IH; destruct (isdigit c). Qed.

Lemma longer_sym l r : longer r l = option_map Z.opp (longer l r).
Proof.
  revert r. induction l as [|c l IH]; intros [|d r]; cbn; try done; try (by destruct (isdigit _)).
  destruct (isdigit c), (isdigit d); first [done|apply IH].
Qed.

Lemma longer_nonzero l r x : longer l r = Some x -> x <> 0.
Proof.
  revert r. induction l as [|c l IH]; intros [|d r]; cbn; [done| | |].
  1,2: destruct (isdigit _); intros; simplify_eq; lia.
  destruct (isdigit c), (isdigit d); try (intros; simplify_eq; lia). apply IH.
Qed.

Lemma byte_at_bound s i : 0 <= byte_at s i < 256.
Proof. unfold byte_at. destruct (s !! i); [apply zc_bound|lia]. Qed.

Lemma strverscmp_antisym l r : strverscmp r l = - strverscmp l r.
Proof.
  unfold strverscmp. rewrite matching_sym. destruct (matching l r 0 0 true) as [[[i dp] z]|]; [|done].
  rewrite (andb_comm (negb (byte_at r dp =? 48))), (orb_comm (isdigit_at r i)), longer_sym.
  destruct (negb _ && _); [destruct (longer _ _); cbn; lia|]. destruct (_ && _ && _); lia.
Qed.

Lemma strverscmp_zero l r : no_nul l -> no_nul r -> strverscmp l r = 0 <-> l = r.
Proof.
  intros Hl Hr. split; [|intros ->; unfold strverscmp; by rewrite matching_equal].
  unfold strverscmp. destruct (matching l r 0 0 true) as [[[i dp] z]|] eqn:Em.
  - destruct (matching_differs _ _ _ _ _ _ _ _ Hl Hr Em) as (k & -> & Hk). cbn [Nat.add].
    pose proof (byte_at_bound l k). pose proof (byte_at_bound r k).
    destruct (negb _ && _); [|destruct (_ && _ && _)].
    + destruct (longer _ _) eqn:E; [intros ->; by apply longer_nonzero in E|lia].
    + unfold wrap. intros Hz. exfalso. apply Hk.
      assert ((byte_at l k - 48) mod 2 ^ 8 = (byte_at r k - 48) mod 2 ^ 8) as Hm by lia.
      pose proof (Z.div_mod (byte_at l k - 48) (2 ^ 8) ltac:(lia)). pose proof (Z.div_mod (byte_at r k - 48) (2 ^ 8) ltac:(lia)).
      lia.
    + lia.
  - intros _. revert Em. generalize 0%nat at 1 as i. generalize 0%nat as dp. generalize true as z. clear Hl Hr.
    revert r. induction l as [|c l IH]; intros [|d r] z dp i; cbn; try done.
    case_bool_decide; [subst d|done]. intros Hm. f_equal. by destruct (isdigit c); eapply IH.
Qed.

(** *** The prefix before the numbers *)

(** A number can start after [p]. *)
Definition boundary (p : cstr) : Prop := match list.last p with Some c => isdigit c = false | None => True end.

Lemma matching_prefix p l r i dp z :
  boundary p -> (p = [] -> dp = i /\ z = true) ->
  matching (p ++ l) (p ++ r) i dp z = matching l r (i + length p) (i + length p) true.
Proof.
  revert i dp z. induction p as [|c p IH]; intros i dp z Hb Hn.
  - destruct Hn as [-> ->]; [done|]. cbn. by rewrite Nat.add_0_r.
  - cbn. rewrite bool_decide_eq_true_2 by done. rewrite <-Nat.add_succ_comm. destruct p as [|d p].
    + cbn in Hb. rewrite Hb. by rewrite IH.
    + by destruct (isdigit c); apply IH.
Qed.

Lemma matching_digits p l r i dp z :
  Forall (fun c => isdigit c = true) p ->
  exists z', matching (p ++ l) (p ++ r) i dp z = matching l r (i + length p) dp z'.
Proof.
  intros Hp. revert i z. induction Hp as [|c p Hc _ IH]; intros i z; cbn; [exists z; by rewrite Nat.add_0_r|].
  rewrite bool_decide_eq_true_2, Hc by done. rewrite <-Nat.add_succ_comm. apply IH.
Qed.

Lemma isdigit_char d : 0 <= d < 10 -> isdigit (digit_char d) = true /\ zc (digit_char d) = 48 + d.
Proof.
  intros Hd. assert (Hd' : 0 <= d < 16) by lia. revert Hd. pattern d.
  apply digit_cases; [done|]. repeat constructor; intros; try done; lia.
Qed.

(** *** Lists of digits *)

Lemma number_bounds v ds :
  Forall (fun d => 0 <= d < 10) ds ->
  v * 10 ^ Z.of_nat (length ds) <= number 10 v ds < (v + 1) * 10 ^ Z.of_nat (length ds).
Proof.
  intros Hd. revert v. induction Hd as [|d ds Hd _ IH]; intros v; [cbn; lia|].
  cbn [length]. rewrite Nat2Z.inj_succ, Z.pow_succ_r by lia. specialize (IH (v * 10 + d)). unfold number in *. cbn [fold_left].
  assert (0 < 10 ^ Z.of_nat (length ds)) by (apply Z.pow_pos_nonneg; lia). nia.
Qed.

(** The digits of two numbers after their common part. *)
Lemma common_part (ds es : list Z) :
  exists c ds' es', ds = c ++ ds' /\ es = c ++ es' /\
    match ds', es' with d :: _, e :: _ => d <> e | _, _ => True end.
Proof.
  revert es. induction ds as [|d ds IH]; intros es; [by exists [], [], es|].
  destruct es as [|e es]; [by exists [], (d :: ds), []|].
  destruct (decide (d = e)) as [->|Hn]; [|by exists [], (d :: ds), (e :: es)].
  destruct (IH es) as (c & ds' & es' & -> & -> & Hm). by exists (e :: c), ds', es'.
Qed.

(** The digits decide: by their number, then by the first that differs. *)
Lemma number_compare c ds es :
  Forall (fun d => 0 <= d < 10) (c ++ ds) -> Forall (fun d => 0 <= d < 10) (c ++ es) ->
  (length ds < length es)%nat -> (forall d l, c ++ es = d :: l -> 0 < d) ->
  number 10 0 (c ++ ds) < number 10 0 (c ++ es).
Proof.
  intros Hd He Hl Hz. pose proof (number_bounds 0 _ Hd) as Bd.
  destruct (c ++ es) as [|e l] eqn:E; [by destruct c, es; cbn in *; try lia|].
  specialize (Hz e l eq_refl). unfold number at 2. cbn [fold_left]. fold (number 10 (0 * 10 + e) l).
  inversion_clear He as [|? ? _ Hel]. pose proof (number_bounds (0 * 10 + e) l Hel) as Be.
  assert (length (c ++ ds) <= length l)%nat as Hlen.
  { apply (f_equal length) in E. cbn in E. rewrite length_app in *. lia. }
  assert (10 ^ Z.of_nat (length (c ++ ds)) <= 10 ^ Z.of_nat (length l)) by (apply Z.pow_le_mono_r; lia).
  assert (0 < 10 ^ Z.of_nat (length l)) by (apply Z.pow_pos_nonneg; lia). nia.
Qed.

Lemma number_first c d ds e es :
  Forall (fun d => 0 <= d < 10) ds -> Forall (fun d => 0 <= d < 10) es -> length ds = length es -> d < e ->
  number 10 0 (c ++ d :: ds) < number 10 0 (c ++ e :: es).
Proof.
  intros Hd He Hl Hlt. rewrite !number_app. unfold number at 1 3. cbn [fold_left].
  fold (number 10 (number 10 0 c * 10 + d) ds) (number 10 (number 10 0 c * 10 + e) es).
  pose proof (number_bounds (number 10 0 c * 10 + d) ds Hd). pose proof (number_bounds (number 10 0 c * 10 + e) es He).
  rewrite Hl in *. assert (0 < 10 ^ Z.of_nat (length es)) by (apply Z.pow_pos_nonneg; lia). nia.
Qed.

(** *** Comparison of two versions *)

Definition after_number (x : cstr) : Prop := match x with c :: _ => isdigit c = false | [] => True end.

Definition decimals (ds : list Z) : Prop := Forall (fun d => 0 <= d < 10) ds.

Lemma longer_digits ds es x y :
  decimals ds -> decimals es -> after_number x -> after_number y ->
  longer (map digit_char ds ++ x) (map digit_char es ++ y) =
    if (length ds <? length es)%nat then Some (-1) else if (length es <? length ds)%nat then Some 1 else None.
Proof.
  intros Hd He Hx Hy. revert es He. induction Hd as [|d ds Hd _ IH]; intros es He; destruct He as [|e es He Hes]; cbn.
  - by destruct x as [|c x], y as [|c' y]; cbn in *; rewrite ?Hx, ?Hy.
  - destruct (isdigit_char e He) as [Ee _]. by destruct x as [|c x]; cbn in *; rewrite ?Hx, Ee.
  - destruct (isdigit_char d Hd) as [Ed _]. destruct y as [|c y]; cbn in *; rewrite ?Hy, Ed; done.
  - destruct (isdigit_char d Hd) as [-> _], (isdigit_char e He) as [-> _]. by apply IH.
Qed.

(** The first characters after the common part differ. *)
Lemma matching_stop ds es x y i dp z :
  decimals ds -> decimals es -> after_number x -> after_number y -> ds <> [] \/ es <> [] ->
  match ds, es with d :: _, e :: _ => d <> e | _, _ => True end ->
  matching (map digit_char ds ++ x) (map digit_char es ++ y) i dp z = Some (i, dp, z).
Proof.
  intros Hd He Hx Hy Hne Hm.
  assert (Hdiff : forall d c, 0 <= d < 10 -> isdigit c = false -> digit_char d <> c).
  { intros d c Hd' Hc E. destruct (isdigit_char d Hd'). congruence. }
  destruct Hd as [|d ds Hd _], He as [|e es He _]; cbn.
  - by destruct Hne.
  - destruct x as [|c x]; [done|]. cbn. rewrite bool_decide_eq_false_2; [done|]. intros E. by apply (Hdiff e c).
  - destruct y as [|c y]; [done|]. cbn. rewrite bool_decide_eq_false_2; [done|]. by apply Hdiff.
  - rewrite bool_decide_eq_false_2; [done|]. intros E. apply Hm.
    destruct (isdigit_char d Hd) as [_ E1], (isdigit_char e He) as [_ E2]. rewrite E in E1. lia.
Qed.

Lemma byte_at_digits p d ds x : 0 <= d < 10 -> byte_at (p ++ map digit_char (d :: ds) ++ x) (length p) = 48 + d.
Proof. intros Hd. unfold byte_at. rewrite lookup_app_r, Nat.sub_diag by lia. cbn. by apply isdigit_char. Qed.

(** Two numbers after a common prefix, by the digits they do not share. *)
Lemma strverscmp_digits p c ds es x y :
  boundary p -> decimals (c ++ ds) -> decimals (c ++ es) -> after_number x -> after_number y ->
  ds <> [] \/ es <> [] -> match ds, es with d :: _, e :: _ => d <> e | _, _ => True end ->
  (forall d l, c ++ ds = d :: l -> 0 < d) -> c ++ ds <> [] -> (forall e l, c ++ es = e :: l -> 0 < e) -> c ++ es <> [] ->
  strverscmp (p ++ map digit_char (c ++ ds) ++ x) (p ++ map digit_char (c ++ es) ++ y) =
    if (length ds <? length es)%nat then -1 else if (length es <? length ds)%nat then 1
    else match ds, es with d :: _, e :: _ => d - e | _, _ => 0 end.
Proof.
  intros Hb Hd He Hx Hy Hne Hm Hzd Hnd Hze Hne'. pose proof Hd as [Hc Hds]%Forall_app. pose proof He as [_ Hes]%Forall_app.
  assert (Hmt : exists z, matching (p ++ map digit_char (c ++ ds) ++ x) (p ++ map digit_char (c ++ es) ++ y) 0 0 true =
                  Some (length (p ++ map digit_char c), length p, z)).
  { rewrite matching_prefix by done. rewrite !map_app, <-!app_assoc.
    destruct (matching_digits (map digit_char c) (map digit_char ds ++ x) (map digit_char es ++ y)
      (0 + length p) (0 + length p) true) as [z Hz].
    { apply Forall_map. eapply Forall_impl; [|exact Hc]. intros d Hd'. by apply isdigit_char. }
    exists z. rewrite Hz, matching_stop by done. by rewrite length_app. }
  destruct Hmt as [z Hmt]. unfold strverscmp. rewrite Hmt.
  assert (Hl48 : byte_at (p ++ map digit_char (c ++ ds) ++ x) (length p) <> 48).
  { destruct (c ++ ds) as [|d l] eqn:E; [done|]. inversion_clear Hd. rewrite byte_at_digits by done. specialize (Hzd d l eq_refl). lia. }
  assert (Hr48 : byte_at (p ++ map digit_char (c ++ es) ++ y) (length p) <> 48).
  { destruct (c ++ es) as [|e l] eqn:E; [done|]. inversion_clear He. rewrite byte_at_digits by done. specialize (Hze e l eq_refl). lia. }
  apply Z.eqb_neq in Hl48 as ->. apply Z.eqb_neq in Hr48 as ->. cbn [negb andb].
  rewrite !map_app, <-!app_assoc, !(app_assoc p), !drop_app_length, longer_digits by done.
  destruct (length ds <? length es)%nat eqn:L1; [done|]. destruct (length es <? length ds)%nat eqn:L2; [done|].
  apply Nat.ltb_ge in L1, L2. destruct ds as [|d ds], es as [|e es]; cbn in L1, L2; try lia; [by destruct Hne|].
  inversion_clear Hds. inversion_clear Hes. rewrite !byte_at_digits by done. lia.
Qed.

Lemma digits_10 a :
  0 <= a < 10 ^ 64 ->
  number 10 0 (digits 64 10 a) = a /\ decimals (digits 64 10 a) /\ digits 64 10 a <> [] /\
  (0 < a -> forall d l, digits 64 10 a = d :: l -> 0 < d) /\ (a = 0 -> digits 64 10 a = [0]).
Proof.
  intros Ha. destruct (digits_number 64 10 a) as (Hn & Hd & d & ds & E & Hp & H0); [lia|exact Ha|done|].
  split; [done|]. split; [done|]. split; [by rewrite E|]. split; [intros Hpos d' l E'; rewrite E in E'; injection E' as <- <-; auto|].
  intros ->. rewrite E in *. rewrite (H0 eq_refl) in *. cbn in Hn. by replace d with 0 by lia.
Qed.

Lemma strverscmp_less p a b x y :
  boundary p -> 0 <= a -> a < b -> b < 10 ^ 64 -> after_number x -> after_number y ->
  strverscmp (p ++ print_number 10 a ++ x) (p ++ print_number 10 b ++ y) < 0.
Proof.
  intros Hp Ha Hab Hb Hx Hy. unfold print_number. rewrite !Z.abs_eq by lia.
  destruct (Z.ltb_spec a 0), (Z.ltb_spec b 0); try lia. cbn [app].
  destruct (digits_10 a ltac:(lia)) as (Na & Da & Ea & Pa & Za), (digits_10 b ltac:(lia)) as (Nb & Db & Eb & Pb & _).
  specialize (Pb ltac:(lia)). destruct (decide (a = 0)) as [Z0|Z0].
  - rewrite Za in * by done. destruct (digits 64 10 b) as [|e es]; [done|]. specialize (Pb e es eq_refl).
    inversion_clear Db as [|? ? He Hes]. unfold strverscmp. rewrite matching_prefix by done.
    rewrite (matching_stop [0] (e :: es)); [|done|by constructor|done|done|by left|lia].
    cbn [Nat.add]. rewrite !byte_at_digits by lia. change (48 + 0 =? 48) with true. rewrite Nat.ltb_irrefl, andb_false_r. cbn. lia.
  - specialize (Pa ltac:(lia)). destruct (common_part (digits 64 10 a) (digits 64 10 b)) as (c & ds & es & E1 & E2 & Hm).
    rewrite E1, E2 in *. assert (Hne : ds <> [] \/ es <> []).
    { destruct ds, es; auto. exfalso. lia. }
    rewrite strverscmp_digits by done. destruct (Nat.ltb_spec (length ds) (length es)) as [L|L]; [lia|].
    destruct (Nat.ltb_spec (length es) (length ds)) as [L'|L'].
    + pose proof (number_compare c es ds Db Da L' Pa). lia.
    + apply Forall_app in Da as [_ Da], Db as [_ Db].
      destruct Da as [|d ds Hd Hds], Db as [|e es He Hes]; cbn in L, L'; try lia.
      destruct (Z.lt_total d e) as [?|[?|Hlt]]; [lia|done|].
      pose proof (number_first c e es d ds Hes Hds ltac:(lia) Hlt). lia.
Qed.

(** Versions are ordered by their numbers.  [strverscmp] of C strings is 0 exactly
    when they are equal, and changes its sign with the order of its arguments; and
    where two strings differ first in a number, written without leading zeros after a
    common prefix that does not end in a digit, the string with the smaller number is
    the smaller one, whatever the length of the numbers and the text after them. *)
Theorem strverscmp_orders l r p a b x y :
  no_nul l -> no_nul r -> boundary p -> 0 <= a -> a < b -> b < 10 ^ 64 -> after_number x -> after_number y ->
  (strverscmp l r = 0 <-> l = r) /\ strverscmp r l = - strverscmp l r /\
  strverscmp (p ++ print_number 10 a ++ x) (p ++ print_number 10 b ++ y) < 0.
Proof.
  intros. split; [by apply strverscmp_zero|]. split; [apply strverscmp_antisym|by apply strverscmp_less].
Qed.

Lemma strverscmp_orders_witness : strverscmp (str "lib-9.so") (str "lib-10.so") < 0.
Proof.
  destruct (strverscmp_orders [] [] (str "lib-") 9 10 (str ".so") (str ".so")) as (_ & _ & Hv);
    [constructor|constructor|done|lia|lia|lia|done|done|]. exact Hv.
Defined.

Lemma rand_r_minimal_standard_witness : rand_r 32 1 = Some (16807, 16807).
Proof. exact (rand_r_minimal_standard 32 1 ltac:(by left) ltac:(by split)). Defined.
