(* ===== verification/Exec.v ===== *)
(** * Running scripts: [execve.c] of libcrystax

    The function [execve] of libcrystax finds the interpreter of a script below the
    directory of [CRYSTAX_POSIX_BASE], or along [PATH] for [/usr/bin/env], and runs it
    with the arguments of the first line of the script.  The files, the environment
    and the system call are the class [ExecSystem]; the array of arguments has the
    size that the code gives it, and a write beyond it is a crash ([None]). *)

From S2P Require Import Prelude Kernel Util.
Open Scope Z_scope.

(** The result of [execve]: the process runs something else, or the call failed. *)
Inductive exec_result :=
| Replaced (filename : cstr) (argv : list cstr)
| Failed (errno : Z).

(** The bytes of a file that can be opened; [access] for reading and execution;
    the error of [stat]; the environment; and the system call, which returns only
    with an error. *)
Class ExecSystem := {
  file_bytes : cstr -> option cstr;
  may_execute : cstr -> bool;
  stat_error : cstr -> option Z;
  getenv : cstr -> option cstr;
  kernel_execve : cstr -> list cstr -> option Z
}.

Definition ENOENT : Z := 2.

Definition BINPRM_BUF_SIZE : nat := 128.

Definition not_space (c : ascii) : bool := negb (isspace c).

Fixpoint take_while (f : ascii -> bool) (p : cstr) : cstr :=
  match p with
  | c :: p => if f c then c :: take_while f p else []
  | [] => []
  end.

Section Exec.
Context `{ExecSystem}.

Definition __execve (filename : cstr) (argv : list cstr) : exec_result :=
  match kernel_execve filename argv with Some e => Failed e | None => Replaced filename argv end.

Definition crystax_posix_base : option cstr := getenv (str "CRYSTAX_POSIX_BASE").

Definition extract_shebang (filename : cstr) : option cstr :=
  match file_bytes filename with
  | Some (b0 :: b1 :: more) =>
      if negb (bool_decide (b0 = "#"%char)) && negb (bool_decide (b1 = "!"%char)) then None
      else
        let buf := take_while (fun c => negb (bool_decide (zc c = 0))) (take BINPRM_BUF_SIZE more) in
        match skip_while isspace buf with
        | [] => None
        | start => Some (take_while (fun c => negb (bool_decide (c = newline))) start)
        end
  | _ => None
  end.

(** The first loop of [exec_with_args], which counts the words. *)
Fixpoint count_words (fuel : nat) (s : cstr) (newargc : nat) : nat :=
  match fuel with
  | O => newargc
  | S fuel =>
      match skip_while isspace s with
      | [] => newargc
      | s =>
          match skip_while not_space s with
          | [] => S newargc
          | _ :: s => count_words fuel s (S newargc)
          end
      end
  end.

Definition store_arg (n : nat) (w : cstr) (newargv : list (option cstr)) : option (list (option cstr)) :=
  if decide (n < length newargv)%nat then Some (<[n := Some w]> newargv) else None.

(** The second loop, which stores them from index [n] on. *)
Fixpoint store_words (fuel : nat) (s : cstr) (n : nat) (newargv : list (option cstr))
  : option (nat * list (option cstr)) :=
  match fuel with
  | O => Some (n, newargv)
  | S fuel =>
      match skip_while isspace s with
      | [] => Some (n, newargv)
      | s =>
          match store_arg n (take_while not_space s) newargv with
          | None => None
          | Some newargv =>
              match skip_while not_space s with
              | [] => Some (S n, newargv)
              | _ :: s => store_words fuel s (S n) newargv
              end
          end
      end
  end.

(** The third loop copies [k] arguments. *)
Fixpoint store_argv (k : nat) (argv : list cstr) (i : nat) (newargv : list (option cstr))
  : option (list (option cstr)) :=
  match k, argv with
  | O, _ => Some newargv
  | S k, w :: argv =>
      match store_arg i w newargv with Some newargv => store_argv k argv (S i) newargv | None => None end
  | S _, [] => None
  end.

(** The arguments up to the null pointer. *)
Fixpoint until_null (newargv : list (option cstr)) : list cstr :=
  match newargv with Some w :: l => w :: until_null l | _ => [] end.

Definition exec_with_args (exe args : cstr) (argv : list cstr) : option exec_result :=
  let newargc := count_words (S (length args)) args (1 + length argv)%nat in
  let newargv := repeat None (newargc + 1) in
  match store_arg 0 exe newargv with
  | None => None
  | Some newargv =>
      match store_words (S (length args)) args 1 newargv with
      | None => None
      | Some (n, newargv) =>
          match store_argv (newargc - n) argv n newargv with
          | None => None
          | Some newargv => Some (__execve exe (until_null newargv))
          end
      end
  end.

(** The loop of [exec_env] over the directories of [PATH]: the result of the first
    file that can be executed, if there is one. *)
Fixpoint search_path (fuel : nat) (p exe args : cstr) (argv : list cstr) : option (option exec_result) :=
  match fuel with
  | O => Some None
  | S fuel =>
      let not_colon c := negb (bool_decide (c = colon)) in
      match take_while not_colon p, skip_while not_colon p with
      | [], _ | _, [] => Some None
      | dir, _ :: p =>
          let newexe := dir ++ slash :: exe in
          if may_execute newexe then
            match exec_with_args newexe args argv with Some r => Some (Some r) | None => None end
          else search_path fuel p exe args argv
      end
  end.

(** [Some None] if the function returns; a failed call returns as well. *)
Definition exec_env (args : cstr) (argv : list cstr) : option (option exec_result) :=
  match getenv (str "PATH") with
  | None | Some [] => Some None
  | Some path =>
      match skip_while isspace args with
      | [] => Some None
      | s =>
          let exe := take_while not_space s in
          let args := match skip_while not_space s with [] => args | _ :: s => skip_while isspace s end in
          if bool_decide (head exe = Some slash) then Some None
          else search_path (S (length path)) path exe args argv
      end
  end.

(** [exec_env] and then the call that follows it. *)
Definition env_then_execve (env : bool) (args filename : cstr) (argv : list cstr) : option exec_result :=
  if env then
    match exec_env args argv with
    | Some (Some (Replaced f a)) => Some (Replaced f a)
    | Some _ => Some (__execve filename argv)
    | None => None
    end
  else Some (__execve filename argv).

Definition exec_shebang (shebang filename : cstr) (argv : list cstr) : option exec_result :=
  match skip_while isspace shebang with
  | [] => Some (__execve filename argv)
  | s =>
      let exe := take_while not_space s in
      let args := skip_while isspace (skip_while not_space s) in
      if negb (bool_decide (head exe = Some slash)) then Some (__execve filename argv)
      else
        let is_env := bool_decide (exe = str "/usr/bin/env") in
        match crystax_posix_base with
        | None | Some [] => env_then_execve is_env args filename argv
        | Some topdir =>
            let newexe := topdir ++ exe in
            match stat_error newexe with
            | Some e => env_then_execve ((e =? ENOENT) && is_env) args filename argv
            | None => exec_with_args newexe args argv
            end
        end
  end.

Definition execve (filename : cstr) (argv : list cstr) : option exec_result :=
  match extract_shebang filename with
  | None => Some (__execve filename argv)
  | Some shebang => exec_shebang shebang filename argv
  end.

End Exec.

(** ** Words *)

(** The words of a text, the longest pieces without spaces. *)
Fixpoint words_from (fuel : nat) (s : cstr) : list cstr :=
  match fuel with
  | O => []
  | S fuel =>
      match skip_while isspace s with
      | [] => []
      | s => take_while not_space s :: words_from fuel (skip_while not_space s)
      end
  end.

Definition words (s : cstr) : list cstr := words_from (S (length s)) s.

Lemma skip_while_length f s : (length (skip_while f s) <= length s)%nat.
Proof. induction s as [|c s IH]; cbn; [lia|]. destruct (f c); cbn; lia. Qed.

Lemma skip_while_idem f s : skip_while f (skip_while f s) = skip_while f s.
Proof. induction s as [|c s IH]; cbn; [done|]. destruct (f c) eqn:E; [done|]. cbn. by rewrite E. Qed.

Lemma skip_while_head f s : match skip_while f s with [] => True | c :: _ => f c = false end.
Proof. induction s as [|c s IH]; cbn; [done|]. by destruct (f c) eqn:E. Qed.

(** A word is not empty, and what follows it is shorter. *)
Lemma word_shorter s c l :
  skip_while isspace s = c :: l -> (length (skip_while not_space (c :: l)) < length s)%nat.
Proof.
  intros E. pose proof (skip_while_head isspace s) as Hh. pose proof (skip_while_length isspace s) as Hl.
  rewrite E in Hh, Hl. cbn in *. unfold not_space at 1. rewrite Hh. cbn.
  pose proof (skip_while_length not_space l). lia.
Qed.

Lemma words_fuel fuel s : (length s < fuel)%nat -> words_from fuel s = words s.
Proof.
  unfold words. remember (S (length s)) as fuel' eqn:Hf. assert (length s < fuel')%nat as Hf' by lia. clear Hf.
  revert fuel' s Hf'. induction fuel as [|fuel IH]; intros fuel' s Hf' Hl; [lia|]. destruct fuel' as [|fuel']; [lia|]. cbn [words_from].
  destruct (skip_while isspace s) as [|c l] eqn:E; [done|]. f_equal. pose proof (word_shorter s c l E).
  apply IH; lia.
Qed.

Lemma words_skip s : words (skip_while isspace s) = words s.
Proof.
  pose proof (skip_while_length isspace s). rewrite <-(words_fuel (S (length s)) (skip_while isspace s)) by lia.
  unfold words. cbn [words_from]. by rewrite skip_while_idem.
Qed.

(** The words after the separator that the loops step over. *)
Lemma words_step s c l :
  skip_while isspace s = c :: l ->
  words s = take_while not_space (c :: l) ::
    match skip_while not_space (c :: l) with [] => [] | _ :: rest => words rest end.
Proof.
  intros E. unfold words at 1. cbn [words_from]. rewrite E. f_equal.
  pose proof (word_shorter s c l E) as Hs. rewrite words_fuel by lia.
  pose proof (skip_while_head not_space (c :: l)) as Hh. destruct (skip_while not_space (c :: l)) as [|d rest]; [done|].
  unfold not_space in Hh. apply negb_false_iff in Hh.
  rewrite <-(words_skip (d :: rest)). cbn [skip_while]. rewrite Hh. apply words_skip.
Qed.

(** ** The array of arguments *)

Lemma count_words_length fuel s n :
  (length s < fuel)%nat -> count_words fuel s n = (n + length (words s))%nat.
Proof.
  revert s n. induction fuel as [|fuel IH]; intros s n Hf; [lia|]. cbn [count_words].
  destruct (skip_while isspace s) as [|c l] eqn:E.
  - unfold words. cbn [words_from]. rewrite E. cbn. lia.
  - pose proof (word_shorter s c l E) as Hs. rewrite (words_step s c l E).
    destruct (skip_while not_space (c :: l)) as [|d rest]; cbn [length] in *; [lia|]. rewrite IH by lia. lia.
Qed.

(** The array while it is filled: [done], and null pointers after it. *)
Definition filled (done : list cstr) (n : nat) : list (option cstr) := map Some done ++ repeat None n.

Lemma store_arg_filled done n w :
  store_arg (length done) w (filled done (S n)) = Some (filled (done ++ [w]) n).
Proof.
  unfold store_arg, filled. rewrite length_app, length_map, repeat_length.
  destruct (decide _) as [_|]; [|lia]. f_equal.
  rewrite insert_app_r_alt by (rewrite length_map; lia). rewrite length_map, Nat.sub_diag. cbn.
  by rewrite map_app, <-app_assoc.
Qed.

Lemma store_words_filled fuel s done n :
  (length s < fuel)%nat ->
  store_words fuel s (length done) (filled done (length (words s) + n)) =
    Some (length (done ++ words s), filled (done ++ words s) n).
Proof.
  revert s done. induction fuel as [|fuel IH]; intros s done Hf; [lia|]. cbn [store_words].
  destruct (skip_while isspace s) as [|c l] eqn:E.
  - unfold words. cbn [words_from]. rewrite E. by rewrite app_nil_r.
  - pose proof (word_shorter s c l E) as Hs. rewrite (words_step s c l E).
    set (w := take_while not_space (c :: l)). cbn [length Nat.add]. rewrite store_arg_filled.
    destruct (skip_while not_space (c :: l)) as [|d rest].
    + cbn [length Nat.add]. rewrite length_app. cbn. by rewrite Nat.add_1_r.
    + replace (S (length done)) with (length (done ++ [w])) by (rewrite length_app; cbn; lia).
      cbn [length] in Hs. rewrite IH by lia. by rewrite <-app_assoc.
Qed.

Lemma store_argv_filled argv done n :
  store_argv (length argv) argv (length done) (filled done (length argv + n)) = Some (filled (done ++ argv) n).
Proof.
  revert done. induction argv as [|w argv IH]; intros done; cbn [length store_argv]; [by rewrite app_nil_r|].
  cbn [Nat.add]. rewrite store_arg_filled.
  replace (S (length done)) with (length (done ++ [w])) by (rewrite length_app; cbn; lia).
  rewrite IH. by rewrite <-app_assoc.
Qed.

Lemma until_null_filled done n : until_null (filled done n) = done.
Proof. unfold filled. induction done as [|w done IH]; cbn; [by destruct n|]. by rewrite IH. Qed.

(** The array is large enough, and holds the interpreter, the words and the
    arguments. *)
Lemma exec_with_args_argv `{ExecSystem} exe args argv :
  exec_with_args exe args argv = Some (__execve exe (exe :: words args ++ argv)).
Proof.
  unfold exec_with_args. rewrite count_words_length by lia.
  replace (repeat None _) with (filled [] (S (length (words args) + (length argv + 1))))
    by (unfold filled; cbn [map app]; f_equal; lia).
  change (store_arg 0) with (store_arg (length (@nil cstr))). rewrite store_arg_filled. cbn [app].
  pose proof (store_words_filled (S (length args)) args [exe] (length argv + 1) ltac:(lia)) as Hw.
  change (length [exe]) with 1%nat in Hw. rewrite Hw.
  replace (1 + length argv + length (words args) - _)%nat with (length argv) by (rewrite length_app; cbn; lia).
  rewrite store_argv_filled, until_null_filled. done.
Qed.

(** ** Scripts *)

Lemma take_while_app f p c q :
  Forall (fun c => f c = true) p -> f c = false -> take_while f (p ++ c :: q) = p.
Proof. intros Hp Hc. induction Hp as [|d p Hd _ IH]; cbn; [by rewrite Hc|]. by rewrite Hd, IH. Qed.

Lemma take_while_all f p : Forall (fun c => f c = true) p -> take_while f p = p.
Proof. intros Hp. induction Hp as [|d p Hd _ IH]; cbn; [done|]. by rewrite Hd, IH. Qed.

Lemma skip_while_app f p q :
  match skip_while f p with [] => True | _ => skip_while f (p ++ q) = skip_while f p ++ q end.
Proof.
  induction p as [|c p IH]; cbn; [done|]. by destruct (f c).
Qed.

Lemma Forall_skip_while {P : ascii -> Prop} f p : Forall P p -> Forall P (skip_while f p).
Proof. induction 1 as [|c p Hc Hp IH]; cbn; [done|]. destruct (f c); [done|by constructor]. Qed.

(** The first line of a script, if it fits in the buffer. *)
Definition first_line (line : cstr) : Prop :=
  Forall (fun c => c <> newline /\ zc c <> 0) line /\ (length line < BINPRM_BUF_SIZE)%nat.

Lemma words_nonempty s : words s <> [] -> skip_while isspace s <> [].
Proof. unfold words. cbn [words_from]. by destruct (skip_while isspace s). Qed.

Lemma extract_shebang_line `{ExecSystem} filename line more :
  file_bytes filename = Some (str "#!" ++ line ++ newline :: more) -> first_line line -> words line <> [] ->
  extract_shebang filename = Some (skip_while isspace line).
Proof.
  intros Hf [Hl Hlen] Hw%words_nonempty. unfold extract_shebang. rewrite Hf. change (str "#!") with ["#"%char; "!"%char]. cbn [app].
  rewrite !bool_decide_eq_true_2 by done. cbn [negb andb].
  set (nz := fun c => negb (bool_decide (zc c = 0))).
  assert (exists tail, take_while nz (take BINPRM_BUF_SIZE (line ++ newline :: more)) = line ++ newline :: tail) as [tail ->].
  { rewrite take_app_ge by lia. destruct (BINPRM_BUF_SIZE - length line)%nat as [|k] eqn:Ek; [lia|]. cbn [take].
    exists (take_while nz (take k more)). clear Hlen Ek Hf Hw.
    induction Hl as [|c line [_ Hc] _ IH]; [done|]. cbn. unfold nz at 1. rewrite bool_decide_eq_false_2 by done. cbn. by rewrite IH. }
  pose proof (skip_while_app isspace line (newline :: tail)) as Hs.
  pose proof (Forall_skip_while isspace line Hl) as Hn. destruct (skip_while isspace line) as [|c l]; [done|]. rewrite Hs.
  rewrite <-app_comm_cons, app_comm_cons, take_while_app; [done| |by rewrite bool_decide_eq_true_2].
  eapply Forall_impl; [|exact Hn]. intros d [Hd _]. by rewrite bool_decide_eq_false_2.
Qed.

(** The first word and the rest of the line, as [exec_shebang] splits it. *)
Lemma words_cons s exe ws :
  words s = exe :: ws ->
  exists c l, skip_while isspace s = c :: l /\ take_while not_space (c :: l) = exe /\
    words (skip_while isspace (skip_while not_space (c :: l))) = ws.
Proof.
  intros Hw. destruct (skip_while isspace s) as [|c l] eqn:E.
  { unfold words in Hw. cbn [words_from] in Hw. by rewrite E in Hw. }
  exists c, l. split; [done|]. unfold words in Hw. cbn [words_from] in Hw. rewrite E in Hw. injection Hw as Hexe Hws.
  split; [done|]. rewrite words_skip. rewrite <-Hws. symmetry. apply words_fuel. by apply word_shorter.
Qed.

Lemma exec_shebang_below `{ExecSystem} shebang filename argv exe ws topdir :
  words shebang = exe :: ws -> head exe = Some slash ->
  crystax_posix_base = Some topdir -> topdir <> [] -> stat_error (topdir ++ exe) = None ->
  exec_shebang shebang filename argv = Some (__execve (topdir ++ exe) ((topdir ++ exe) :: ws ++ argv)).
Proof.
  intros (c & l & Hs & He & Hw)%words_cons Hh Hb Ht Hst. unfold exec_shebang. rewrite Hs, He, Hh, Hb.
  rewrite bool_decide_eq_true_2 by done. destruct topdir as [|t topdir]; [done|]. cbn [negb].
  rewrite Hst. rewrite exec_with_args_argv. by rewrite Hw.
Qed.

(** C33: a script runs: when its first line is [#!], an absolute path and words,
    the interpreter of that path below the base directory is run, its arguments
    are its own path, the words of the line and the arguments of the call, and the
    array that holds them is exactly large enough. *)
Theorem execve_script `{ExecSystem} filename argv line more exe ws topdir :
  file_bytes filename = Some (str "#!" ++ line ++ newline :: more) -> first_line line ->
  words line = exe :: ws -> head exe = Some slash ->
  crystax_posix_base = Some topdir -> topdir <> [] -> stat_error (topdir ++ exe) = None ->
  execve filename argv = Some (__execve (topdir ++ exe) ((topdir ++ exe) :: ws ++ argv)).
Proof.
  intros Hf Hl Hw Hh Hb Ht Hst. unfold execve.
  rewrite (extract_shebang_line _ _ _ Hf Hl) by (by rewrite Hw).
  eapply exec_shebang_below; eauto. by rewrite words_skip.
Qed.

(** A system for examples: files by name, of which all can be executed, and an
    environment. *)
Definition example_system (files env : list (cstr * cstr)) : ExecSystem := {|
  file_bytes := fun f => snd <$> list_find (fun p => p.1 = f) files ≫= fun p => Some (p.1, p.2.2);
  may_execute := fun f => existsb (fun p => bool_decide (p.1 = f)) files;
  stat_error := fun f => if existsb (fun p => bool_decide (p.1 = f)) files then None else Some ENOENT;
  getenv := fun v => snd <$> list_find (fun p => p.1 = v) env ≫= fun p => Some (p.1, p.2.2);
  kernel_execve := fun f _ => if existsb (fun p => bool_decide (p.1 = f)) files then None else Some ENOENT
|}.

Definition script_system : ExecSystem :=
  example_system [(str "run", str "#! /bin/sh -e  -x" ++ newline :: str "echo"); (str "/base/bin/sh", str "ELF")]
    [(str "CRYSTAX_POSIX_BASE", str "/base")].

Lemma execve_script_witness :
  @execve script_system (str "run") [str "run"; str "1"] =
    Some (Replaced (str "/base/bin/sh") [str "/base/bin/sh"; str "-e"; str "-x"; str "run"; str "1"]).
Proof.
  rewrite (@execve_script script_system (str "run") [str "run"; str "1"] (str " /bin/sh -e  -x") (str "echo")
             (str "/bin/sh") [str "-e"; str "-x"] (str "/base")).
  - vm_compute. reflexivity.
  - vm_compute. reflexivity.
  - split; apply (bool_decide_unpack _); vm_compute; exact I.
  - vm_compute. reflexivity.
  - reflexivity.
  - vm_compute. reflexivity.
  - discriminate.
  - vm_compute. reflexivity.
Defined.

(** ** Departures from the usual treatment of scripts *)

(** The name of the program is passed to it twice when [/usr/bin/env] has no other
    argument, since the pointer to the arguments is only advanced behind a space. *)
Lemma env_repeats_program :
  @execve (example_system [(str "run", str "#!/usr/bin/env python" ++ [newline]); (str "/bin/python", str "ELF")]
             [(str "PATH", str "/bin:/sbin")]) (str "run") [str "run"] =
    Some (Replaced (str "/bin/python") [str "/bin/python"; str "python"; str "run"]).
Proof. vm_compute. reflexivity. Qed.

(** The last directory of [PATH] is not searched. *)
Lemma env_misses_last_directory :
  @execve (example_system [(str "run", str "#!/usr/bin/env python -u" ++ [newline]); (str "/bin/python", str "ELF")]
             [(str "PATH", str "/sbin:/bin")]) (str "run") [str "run"] =
    Some (Replaced (str "run") [str "run"]).
Proof. vm_compute. reflexivity. Qed.

(** A file whose second byte alone is an exclamation mark is taken for a script. *)
Lemma one_magic_byte_is_enough :
  @execve (example_system [(str "tool", str "a!/bin/sh" ++ [newline]); (str "/base/bin/sh", str "ELF")]
             [(str "CRYSTAX_POSIX_BASE", str "/base")]) (str "tool") [] =
    Some (Replaced (str "/base/bin/sh") [str "/base/bin/sh"]).
Proof. vm_compute. reflexivity. Qed.
