(* ===== verification/AwkRegex.v ===== *)
(** * Regular expressions of nawk: syntax ([b.c])

    The scanner and the parser of the regular expressions of awk in
    [sources/host-tools/nawk-20071023/b.c]: [relex] with character classes and
    escapes, and the recursive functions from [reparse] to [unary].  [FATAL], which
    ends the program with a message, is a failure of the monad; a read behind the
    end of the text is a crash.  The text of a token that [relex] leaves in [rlxval]
    or [rlxstr] is part of the token. *)

From S2P Require Import Prelude Util.
Open Scope Z_scope.
Open Scope ndk_scope.

Definition NCHARS : Z := 256 + 3.

(** Stands for the beginning of the text, in patterns and before the text. *)
Definition HAT : Z := NCHARS + 2.

(** ** Syntax trees *)

(** The type and the value of a leaf. *)
Inductive leaf :=
| CHAR (v : Z)
| DOT
| ALL
| CCL (s : cstr)
| NCCL (s : cstr)
| FINAL
| EMPTYRE.

(** The nodes; [info] is the index of a leaf, 0 until [penter] sets it. *)
Inductive node :=
| Leaf (l : leaf) (info : nat)
| STAR (np : node)
| PLUS (np : node)
| QUEST (np : node)
| CAT (l r : node)
| OR (l r : node).

#[global] Instance leaf_eq_dec : EqDecision leaf.
Proof. solve_decision. Defined.

#[global] Instance node_eq_dec : EqDecision node.
Proof. solve_decision. Defined.

(** ** Escapes *)

Definition between (a : ascii) (c : Z) (b : ascii) : bool := (zc a <=? c) && (c <=? zc b).

(** The value of a hexadecimal digit. *)
Definition hexdigit (c : ascii) : option Z :=
  if between "0" (zc c) "9" then Some (zc c - 48)
  else if between "a" (zc c) "f" then Some (zc c - 97 + 10)
  else if between "A" (zc c) "F" then Some (zc c - 65 + 10)
  else None.

(** At most [k] digits, two in [hexstr]. *)
Fixpoint hex_digits (k : nat) (n : Z) (p : cstr) : Z * cstr :=
  match k, p with
  | S k, c :: p' => match hexdigit c with Some d => hex_digits k (16 * n + d) p' | None => (n, p) end
  | _, _ => (n, p)
  end.

Definition hexstr (p : cstr) : Z * cstr := hex_digits 2 0 p.

Definition isoctdigit (c : ascii) : bool := between "0" (zc c) "7".

(** What follows a backslash, read through a [char *]: a byte above 127 is a
    negative number.  At the end of the text the pointer moves behind the
    terminator, which the next access reads beyond ([None]). *)
Definition quoted (p : cstr) : option (Z * cstr) :=
  match p with
  | [] => None
  | c :: p =>
      Some
        (if bool_decide (c = "t"%char) then (9, p)
         else if bool_decide (c = "n"%char) then (10, p)
         else if bool_decide (c = "f"%char) then (12, p)
         else if bool_decide (c = "r"%char) then (13, p)
         else if bool_decide (c = "b"%char) then (8, p)
         else if bool_decide (c = "\"%char) then (92, p)
         else if bool_decide (c = "x"%char) then hexstr p
         else if isoctdigit c then
           match p with
           | d :: p' =>
               if isoctdigit d then
                 match p' with
                 | e :: p'' =>
                     if isoctdigit e then (8 * (8 * (zc c - 48) + (zc d - 48)) + (zc e - 48), p'')
                     else (8 * (zc c - 48) + (zc d - 48), p')
                 | [] => (8 * (zc c - 48) + (zc d - 48), p')
                 end
               else (zc c - 48, p)
           | [] => (zc c - 48, p)
           end
         else (swrap 8 (zc c), p))
  end.

(** ** Character classes *)

(** A byte as it is stored. *)
Definition byte (c : Z) : ascii := cz (wrap 8 c).

(** The characters [c + 1] to [c + k], pushed on a buffer that is kept in reverse. *)
Fixpoint push_range (k : nat) (c : Z) (bp : cstr) : cstr :=
  match k with
  | O => bp
  | S k => push_range k (c + 1) (byte (c + 1) :: bp)
  end.

(** The text of a C string ends at its first NUL. *)
Fixpoint tostring (s : cstr) : cstr :=
  match s with
  | c :: s => if zc c =? 0 then [] else c :: tostring s
  | [] => []
  end.

(** The loop of [cclenter]: the rest of the text and the buffer in reverse. *)
Fixpoint ccl_loop (fuel : nat) (p bp : cstr) : option cstr :=
  match fuel with
  | O => None
  | S fuel =>
      match p with
      | [] => Some bp
      | c :: p =>
          if bool_decide (c = "\"%char) then
            match quoted p with
            | Some (v, p) => ccl_loop fuel p (byte v :: bp)
            | None => None
            end
          else
            match bp, p with
            | b :: bp', c2 :: p' =>
                if bool_decide (c = "-"%char) && negb (zc b =? 0) then
                  match (if bool_decide (c2 = "\"%char) then quoted p' else Some (zc c2, p')) with
                  | Some (v2, p) =>
                      if v2 <? zc b then ccl_loop fuel p bp'
                      else ccl_loop fuel p (push_range (Z.to_nat (v2 - zc b)) (zc b) bp)
                  | None => None
                  end
                else ccl_loop fuel p (c :: bp)
            | _, _ => ccl_loop fuel p (c :: bp)
            end
      end
  end.

Definition cclenter (argp : cstr) : option cstr :=
  match ccl_loop (S (length argp)) argp [] with
  | Some bp => Some (tostring (rev bp))
  | None => None
  end.

(** The functions of [ctype.h] in the C locale. *)
Definition is_upper (c : Z) : bool := between "A" c "Z".

Definition is_lower (c : Z) : bool := between "a" c "z".

Definition is_digit (c : Z) : bool := between "0" c "9".

Definition is_alpha (c : Z) : bool := is_upper c || is_lower c.

Definition is_graph (c : Z) : bool := (33 <=? c) && (c <=? 126).

Definition charclasses : list (cstr * (Z -> bool)) := [
  (str "alnum", fun c => is_alpha c || is_digit c);
  (str "alpha", is_alpha);
  (str "blank", fun c => (c =? 32) || (c =? 9));
  (str "cntrl", fun c => ((0 <=? c) && (c <? 32)) || (c =? 127));
  (str "digit", is_digit);
  (str "graph", is_graph);
  (str "lower", is_lower);
  (str "print", fun c => (c =? 32) || is_graph c);
  (str "punct", fun c => is_graph c && negb (is_alpha c || is_digit c));
  (str "space", fun c => (c =? 32) || ((9 <=? c) && (c <=? 13)));
  (str "upper", is_upper);
  (str "xdigit", fun c => is_digit c || between "a" c "f" || between "A" c "F")
].

(** The text after a prefix, if it has it. *)
Fixpoint strip (pre s : cstr) : option cstr :=
  match pre, s with
  | [], _ => Some s
  | c :: pre, d :: s => if bool_decide (c = d) then strip pre s else None
  | _, [] => None
  end.

(** The first class whose name the text begins with, if [:]] follows the name; the
    text after it. *)
Fixpoint find_class (classes : list (cstr * (Z -> bool))) (p : cstr) : option ((Z -> bool) * cstr) :=
  match classes with
  | [] => None
  | (name, func) :: classes =>
      match strip name p with
      | Some rest => match strip (str ":]") rest with Some rest => Some (func, rest) | None => None end
      | None => find_class classes p
      end
  end.

(** The bytes of a named class, in the order of the loop. *)
Definition class_bytes (func : Z -> bool) : cstr :=
  map (fun i => byte (Z.of_nat i)) (base.filter (fun i => func (Z.of_nat i) = true) (seq 0 (Z.to_nat NCHARS))).

(** ** The scanner *)

Inductive token :=
| TChar (rlxval : Z)
| TCcl (rlxstr : cstr)
| TNccl (rlxstr : cstr)
| TDot
| TOr
| TStar
| TPlus
| TQuest
| THat
| TDollar
| TOpen
| TClose
| TEnd.

Definition FATAL {S A} (fmt : string) : M S A := lfail (Msg fmt []).

(** The loop of [relex] over a class: the rest of the text and the buffer. *)
Fixpoint class_loop (fuel : nat) (buf : cstr) : M cstr cstr := fun prestr =>
  match fuel with
  | O => Crash
  | S fuel =>
      match prestr with
      | [] => FATAL "nonterminated character class %.20s" []
      | c :: p =>
          if bool_decide (c = "\"%char) then
            match p with
            | [] => FATAL "nonterminated character class %.20s..." []
            | d :: p => class_loop fuel (buf ++ [c; d]) p
            end
          else
            match bool_decide (c = "["%char), strip (str ":") p with
            | true, Some name =>
                match find_class charclasses name with
                | Some (func, p) => class_loop fuel (buf ++ class_bytes func) p
                | None => class_loop fuel (buf ++ [c]) p
                end
            | _, _ =>
                if bool_decide (buf = []) then class_loop fuel (buf ++ [c]) p
                else if bool_decide (c = "]"%char) then Ret (tostring buf) p
                else class_loop fuel (buf ++ [c]) p
            end
      end
  end.

(** A class in brackets, after the bracket. *)
Definition relex_class : M cstr token := fun prestr =>
  match strip (str "^") prestr with
  | Some prestr => lbind (class_loop (S (length prestr)) []) (fun s => lret (TNccl s)) prestr
  | None => lbind (class_loop (S (length prestr)) []) (fun s => lret (TCcl s)) prestr
  end.

Definition relex : M cstr token := fun prestr =>
  match prestr with
  | [] => Ret TEnd []
  | c :: p =>
      if bool_decide (c = "|"%char) then Ret TOr p
      else if bool_decide (c = "*"%char) then Ret TStar p
      else if bool_decide (c = "+"%char) then Ret TPlus p
      else if bool_decide (c = "?"%char) then Ret TQuest p
      else if bool_decide (c = "."%char) then Ret TDot p
      else if bool_decide (c = "^"%char) then Ret THat p
      else if bool_decide (c = "$"%char) then Ret TDollar p
      else if bool_decide (c = "("%char) then Ret TOpen p
      else if bool_decide (c = ")"%char) then Ret TClose p
      else if bool_decide (c = "\"%char) then
        match quoted p with Some (v, p) => Ret (TChar v) p | None => Crash end
      else if bool_decide (c = "["%char) then relex_class p
      else Ret (TChar (zc c)) p
  end.

(** ** The parser *)

(** The token [rtok] and the text after it. *)
Record lexer := { rtok : token; prestr : cstr }.

Definition next : M lexer unit := fun st =>
  match relex (prestr st) with
  | Ret t p => Ret tt {| rtok := t; prestr := p |}
  | Fail e p => Fail e {| rtok := rtok st; prestr := p |}
  | Crash => Crash
  end.

Definition op (l : leaf) : node := Leaf l 0.

Fixpoint unary (fuel : nat) (np : node) : M lexer node :=
  match fuel with
  | O => lcrash
  | S fuel =>
      let* st := lget in
      match rtok st with
      | TStar => do* next in unary fuel (STAR np)
      | TPlus => do* next in unary fuel (PLUS np)
      | TQuest => do* next in unary fuel (QUEST np)
      | _ => lret np
      end
  end.

Definition class_leaf (make : cstr -> leaf) (rlxstr : cstr) : M lexer node :=
  lread (fun _ => match cclenter rlxstr with Some s => Some (op (make s)) | None => None end).

Fixpoint primary (fuel : nat) : M lexer node :=
  match fuel with
  | O => lcrash
  | S fuel =>
      let* st := lget in
      match rtok st with
      | TChar rlxval => do* next in unary fuel (op (CHAR rlxval))
      | TDot => do* next in unary fuel (op DOT)
      | TCcl rlxstr => let* np := class_leaf CCL rlxstr in do* next in unary fuel np
      | TNccl rlxstr => let* np := class_leaf NCCL rlxstr in do* next in unary fuel np
      | THat => do* next in unary fuel (op (CHAR HAT))
      | TDollar => do* next in unary fuel (op (CHAR 0))
      | TOpen =>
          do* next in
          let* st := lget in
          match rtok st with
          | TClose => do* next in unary fuel (op (CCL []))
          | _ =>
              let* np := regexp fuel in
              let* st := lget in
              match rtok st with
              | TClose => do* next in unary fuel np
              | _ => FATAL "syntax error in regular expression %s at %s"
              end
          end
      | _ => FATAL "illegal primary in regular expression %s at %s"
      end
  end
with concat (fuel : nat) (np : node) : M lexer node :=
  match fuel with
  | O => lcrash
  | S fuel =>
      let* st := lget in
      match rtok st with
      | TChar _ | TDot | TCcl _ | TNccl _ | TDollar | TOpen =>
          let* r := primary fuel in concat fuel (CAT np r)
      | _ => lret np
      end
  end
with alt (fuel : nat) (np : node) : M lexer node :=
  match fuel with
  | O => lcrash
  | S fuel =>
      let* st := lget in
      match rtok st with
      | TOr =>
          do* next in
          let* r := primary fuel in
          let* r := concat fuel r in
          alt fuel (OR np r)
      | _ => lret np
      end
  end
with regexp (fuel : nat) : M lexer node :=
  match fuel with
  | O => lcrash
  | S fuel =>
      let* np := primary fuel in
      let* np := concat fuel np in
      alt fuel np
  end.

Definition reparse (p : cstr) : outcome lexer node :=
  (do* next in
   let* st := lget in
   match rtok st with
   | TEnd => lret (op EMPTYRE)
   | _ =>
       let* np := regexp (3 * length p + 4) in
       let* st := lget in
       match rtok st with
       | TEnd => lret np
       | _ => FATAL "syntax error in regular expression %s at %s"
       end
   end) {| rtok := TEnd; prestr := p |}.

(** ** The parser always ends

    On a C string that does not end in a backslash the parser returns a tree or
    fails with a message, and the fuel is enough. *)

Definition is_text (p : cstr) : Prop := Forall (fun c => zc c <> 0) p.

(** No backslash is the last character of a class; the others quote a character. *)
Fixpoint paired (s : cstr) : bool :=
  match s with
  | [] => true
  | c :: s =>
      if bool_decide (c = "\"%char) then
        match s with d :: s => negb (zc d =? 0) && paired s | [] => false end
      else paired s
  end.

Definition good_text (p : cstr) : Prop := is_text p /\ list.last p <> Some "\"%char.

Lemma good_text_cons c p : good_text (c :: p) -> p <> [] \/ c <> "\"%char -> good_text p.
Proof.
  intros [Ht Hl] Hc. split; [by inversion Ht|]. destruct p as [|d p]; [done|]. by rewrite last_cons_cons in Hl.
Qed.

Lemma good_text_suffix p q : good_text (p ++ q) -> good_text q.
Proof.
  intros [Ht Hl]. unfold is_text in Ht. split; [by apply Forall_app in Ht as [_ ?]|].
  destruct q as [|c q]; [done|]. rewrite last_app_cons in Hl. done.
Qed.

(** A function that only skips characters other than backslashes. *)
Definition skips (p q : cstr) : Prop := exists pre, p = pre ++ q /\ Forall (fun c => c <> "\"%char) pre.

Lemma skips_refl p : skips p p.
Proof. by exists []. Qed.

Lemma skips_cons c p q : skips p q -> c <> "\"%char -> skips (c :: p) q.
Proof. intros (pre & -> & Hp) Hc. exists (c :: pre). split; [done|]. by constructor. Qed.

Lemma skips_paired p q : skips p q -> paired p = true -> paired q = true.
Proof.
  intros (pre & -> & Hp). induction Hp as [|c pre Hc _ IH]; [done|]. cbn. by rewrite bool_decide_eq_false_2 by done.
Qed.

Lemma skips_length p q : skips p q -> (length q <= length p)%nat.
Proof. intros (pre & -> & _). rewrite length_app. lia. Qed.

Lemma skips_good p q : skips p q -> good_text p -> good_text q.
Proof. intros (pre & -> & _). apply good_text_suffix. Qed.

Lemma hexdigit_plain c d : hexdigit c = Some d -> c <> "\"%char.
Proof. by intros Hd ->. Qed.

Lemma hex_digits_skips k n p : skips p (hex_digits k n p).2.
Proof.
  revert n p. induction k as [|k IH]; intros n p; [by destruct p; apply skips_refl|]. destruct p as [|c p]; [apply skips_refl|].
  cbn. destruct (hexdigit c) eqn:E; [|apply skips_refl]. apply skips_cons; [apply IH|by eapply hexdigit_plain].
Qed.

Lemma octdigit_plain c : isoctdigit c = true -> c <> "\"%char.
Proof. by intros Hd ->. Qed.

(** A quoted character, and what is skipped after it. *)
Lemma quoted_skips c p : exists v q, quoted (c :: p) = Some (v, q) /\ skips p q.
Proof.
  unfold quoted. repeat case_bool_decide; try (eexists _, _; split; [done|apply skips_refl]).
  { unfold hexstr. destruct (hex_digits 2 0 p) as [v q] eqn:E. exists v, q. split; [done|].
    change q with (v, q).2. rewrite <-E. apply hex_digits_skips. }
  destruct (isoctdigit c); [|eexists _, _; split; [done|apply skips_refl]].
  destruct p as [|d p]; [eexists _, _; split; [done|apply skips_refl]|].
  destruct (isoctdigit d) eqn:Ed; [|eexists _, _; split; [done|apply skips_refl]]. apply octdigit_plain in Ed.
  destruct p as [|e p]; [eexists _, _; split; [done|by apply skips_cons; [apply skips_refl|]]|].
  destruct (isoctdigit e) eqn:Ee; [|eexists _, _; split; [done|by apply skips_cons; [apply skips_refl|]]].
  apply octdigit_plain in Ee. eexists _, _; split; [done|]. by repeat (apply skips_cons; [|done]); apply skips_refl.
Qed.

Lemma paired_plain c s : c <> "\"%char -> paired (c :: s) = paired s.
Proof. intros Hc. cbn. by rewrite bool_decide_eq_false_2. Qed.

Lemma paired_backslash s :
  paired ("\"%char :: s) = true <-> exists d s', s = d :: s' /\ zc d <> 0 /\ paired s' = true.
Proof.
  cbn [paired]. rewrite bool_decide_eq_true_2 by done. destruct s as [|d s]; [by split; [|intros (? & ? & ? & _)]|].
  rewrite andb_true_iff, negb_true_iff, Z.eqb_neq. split; [intros [??]; by exists d, s|]. by intros (? & ? & [= <- <-] & ? & ?).
Qed.

Lemma ccl_loop_total fuel p bp : paired p = true -> (length p < fuel)%nat -> is_Some (ccl_loop fuel p bp).
Proof.
  revert p bp. induction fuel as [|fuel IH]; intros p bp Hp Hf; [lia|]. destruct p as [|c p]; [by eexists|]. cbn [ccl_loop].
  cbn in Hf. destruct (decide (c = "\"%char)) as [->|Hc].
  - rewrite bool_decide_eq_true_2 by done. apply paired_backslash in Hp as (d & p' & -> & _ & Hp). rename p' into p.
    destruct (quoted_skips d p) as (v & q & -> & Hs). apply IH; [eapply skips_paired; [exact Hs|done]|]. pose proof (skips_length _ _ Hs). cbn in Hf. lia.
  - rewrite bool_decide_eq_false_2 by done. rewrite paired_plain in Hp by done.
    destruct bp as [|b bp]; [apply IH; [done|lia]|]. destruct p as [|c2 p]; [apply IH; [done|cbn; lia]|]. cbn in Hf.
    destruct (_ && _); [|apply IH; [done|cbn; lia]].
    assert (exists v q, (if bool_decide (c2 = "\"%char) then quoted p else Some (zc c2, p)) = Some (v, q) /\
      paired q = true /\ (length q <= length p)%nat) as (v & q & -> & Hq & Hlq).
    { destruct (decide (c2 = "\"%char)) as [->|Hc2].
      - rewrite bool_decide_eq_true_2 by done. apply paired_backslash in Hp as (d & p' & -> & _ & Hp). rename p' into p.
        destruct (quoted_skips d p) as (v & q & Eq & Hs). exists v, q. pose proof (skips_length _ _ Hs).
        split_and!; [done|eapply skips_paired; [exact Hs|done]|cbn; lia].
      - rewrite bool_decide_eq_false_2 by done. rewrite paired_plain in Hp by done. by exists (zc c2), p. }
    destruct (v <? zc b); apply IH; done || lia.
Qed.

Lemma cclenter_total s : paired s = true -> is_Some (cclenter s).
Proof. intros Hs. unfold cclenter. destruct (ccl_loop_total (S (length s)) s [] Hs) as [bp ->]; [lia|]. by eexists. Qed.

Lemma paired_app s t : paired s = true -> paired t = true -> paired (s ++ t) = true.
Proof.
  induction s as [s IH] using (induction_ltof1 _ (@length ascii)). unfold ltof in IH. intros Hs Ht.
  destruct s as [|c s]; [done|]. destruct (decide (c = "\"%char)) as [->|Hc].
  - apply paired_backslash in Hs as (d & s' & -> & Hd & Hs). rewrite <-!app_comm_cons. apply paired_backslash.
    exists d, (s' ++ t). split_and!; [done..|]. apply IH; done || cbn; lia.
  - rewrite <-app_comm_cons. rewrite paired_plain in * by done. apply IH; done || cbn; lia.
Qed.

Lemma paired_tostring s : paired s = true -> paired (tostring s) = true.
Proof.
  induction s as [s IH] using (induction_ltof1 _ (@length ascii)). unfold ltof in IH. intros Hs.
  destruct s as [|c s]; [done|]. cbn [tostring]. destruct (zc c =? 0); [done|]. destruct (decide (c = "\"%char)) as [->|Hc].
  - apply paired_backslash in Hs as (d & s' & -> & Hd & Hs). apply paired_backslash. cbn [tostring].
    rewrite (proj2 (Z.eqb_neq _ _) Hd). exists d, (tostring s'). split_and!; [done..|]. apply IH; done || cbn; lia.
  - rewrite paired_plain in * by done. apply IH; done || cbn; lia.
Qed.

(** The bytes of the named classes: a backslash comes before a bracket. *)
Lemma class_bytes_paired : forallb (fun cc => paired (class_bytes cc.2)) charclasses = true.
Proof. vm_compute. reflexivity. Qed.

Lemma strip_app pre s t : strip pre s = Some t -> s = pre ++ t.
Proof.
  revert s. induction pre as [|c pre IH]; intros s; cbn; [by intros [= ->]|]. destruct s as [|d s]; [done|].
  case_bool_decide; [|done]. subst. intros Hs. by rewrite (IH s Hs).
Qed.

Lemma find_class_suffix classes p func q :
  find_class classes p = Some (func, q) -> (exists cc, cc ∈ classes /\ cc.2 = func) /\ exists pre, p = pre ++ q.
Proof.
  induction classes as [|[name f] classes IH]; [done|]. cbn [find_class]. destruct (strip name p) as [rest|] eqn:E.
  - destruct (strip (str ":]") rest) as [r|] eqn:E2; [|done]. intros [= -> ->]. apply strip_app in E, E2. subst.
    split; [exists (name, func); split; [left|done]|]. eexists. by rewrite app_assoc.
  - intros Hf. destruct (IH Hf) as [(cc & Hcc & Hf') Hpre]. split; [|done]. exists cc. split; [by right|done].
Qed.

(** The result of an operation that does not crash. *)
Definition safely {S A} (o : outcome S A) (Q : A -> S -> Prop) : Prop :=
  match o with Ret a s => Q a s | Fail _ _ => True | Crash => False end.

Lemma safely_bind {S A B} (c : M S A) (k : A -> M S B) s Q :
  safely (c s) (fun a s' => safely (k a s') Q) -> safely (lbind c k s) Q.
Proof. unfold lbind. by destruct (c s). Qed.

Lemma safely_weaken {S A} (o : outcome S A) (Q Q' : A -> S -> Prop) :
  (forall a s, Q a s -> Q' a s) -> safely o Q -> safely o Q'.
Proof. intros HQ. destruct o; cbn; auto. Qed.

Lemma class_loop_total fuel buf p :
  (length p < fuel)%nat -> good_text p -> paired buf = true ->
  safely (class_loop fuel buf p) (fun s q => paired s = true /\ good_text q /\ (length q < length p)%nat).
Proof.
  revert buf p. induction fuel as [|fuel IH]; intros buf p Hf Hp Hb; [lia|]. destruct p as [|c p]; [done|]. cbn [class_loop].
  cbn in Hf. destruct (decide (c = "\"%char)) as [->|Hc].
  { rewrite bool_decide_eq_true_2 by done. destruct p as [|d p]; [done|]. cbn in Hf.
    assert (good_text (d :: p)) as Hp' by (eapply good_text_cons; [exact Hp|by left]). assert (zc d <> 0) by (destruct Hp' as [Ht _]; by inversion Ht).
    eapply safely_weaken; [|apply IH]; [| |by apply (good_text_suffix ["\"%char; d] p)|].
    - intros s q (? & ? & ?). cbn. split_and!; [done..|lia].
    - lia.
    - apply paired_app; [done|]. by apply paired_backslash; exists d, []. }
  assert (Hp' : good_text p) by by (eapply good_text_cons; [exact Hp|right]).
  assert (Hpush : safely (class_loop fuel (buf ++ [c]) p) (fun s q => paired s = true /\ good_text q /\ (length q < length (c :: p))%nat)).
  { eapply safely_weaken; [|apply IH]; [| |done|].
    - intros s q (? & ? & ?). cbn. split_and!; [done..|lia].
    - lia.
    - apply paired_app; [done|]. by rewrite paired_plain. }
  rewrite bool_decide_eq_false_2 by done.
  destruct (bool_decide (c = "["%char)), (strip (str ":") p) as [name|] eqn:Es.
  - destruct (find_class charclasses name) as [[func q]|] eqn:Ef; [|done].
    apply strip_app in Es. destruct (find_class_suffix _ _ _ _ Ef) as [([n' f'] & Hcc & Hfn) [pre ->]]. cbn in Hfn. subst f'.
    rewrite Es in *. eapply safely_weaken; [|apply IH].
    + intros s r (? & ? & ?). rewrite length_cons, !length_app. split_and!; [done..|lia].
    + rewrite !length_app in Hf. lia.
    + rewrite app_assoc in Hp'. by eapply good_text_suffix.
    + apply paired_app; [done|]. pose proof class_bytes_paired as Hall. rewrite forallb_forall in Hall.
      apply (Hall (n', func)). by apply list_elem_of_In.
  - case_bool_decide; [done|]. case_bool_decide; [|done]. cbn. split_and!; [by apply paired_tostring|done|lia].
  - case_bool_decide; [done|]. case_bool_decide; [|done]. cbn. split_and!; [by apply paired_tostring|done|lia].
  - case_bool_decide; [done|]. case_bool_decide; [|done]. cbn. split_and!; [by apply paired_tostring|done|lia].
Qed.

(** The string of a class is one that [cclenter] accepts. *)
Definition token_ok (t : token) : Prop :=
  match t with TCcl s | TNccl s => paired s = true | _ => True end.

(** The number of tokens that are left at most. *)
Definition left_over (t : token) (p : cstr) : nat := (match t with TEnd => 0 | _ => 1 end + length p)%nat.

Lemma relex_total p :
  good_text p -> safely (relex p) (fun t q => token_ok t /\ good_text q /\ (left_over t q <= length p)%nat).
Proof.
  intros Hp. destruct p as [|c p]; [done|]. unfold relex.
  assert (Hp' : c <> "\"%char -> good_text p) by (intros ?; eapply good_text_cons; [exact Hp|by right]).
  do 9 (case_bool_decide as Hd; [split_and!; [done|apply Hp'; by rewrite Hd|cbn; lia]|clear Hd]).
  case_bool_decide as Hb.
  { subst c. destruct p as [|d p]; [by destruct Hp as [_ []]|]. destruct (quoted_skips d p) as (v & q & -> & Hs).
    pose proof (skips_length _ _ Hs). split_and!; [done| |cbn; lia]. apply (skips_good _ _ Hs). by apply (good_text_suffix ["\"%char; d] p). }
  case_bool_decide; [|split_and!; [done|auto|cbn; lia]]. unfold relex_class.
  destruct (strip (str "^") p) as [q|] eqn:Es; [apply strip_app in Es|].
  all: apply safely_bind; eapply safely_weaken; [|apply class_loop_total; [lia| |done]]; [|].
  - intros s r (? & ? & ?). rewrite Es. cbn. split_and!; [done..|lia].
  - specialize (Hp' Hb). rewrite Es in Hp'. by eapply good_text_suffix.
  - intros s r (? & ? & ?). cbn. split_and!; [done..|lia].
  - auto.
Qed.

Definition lexer_ok (st : lexer) : Prop := token_ok (rtok st) /\ good_text (prestr st).

Definition todo (st : lexer) : nat := left_over (rtok st) (prestr st).

(** An operation that ends from [st] with at most [n] tokens left. *)
Definition ends {A} (c : M lexer A) (st : lexer) (n : nat) : Prop :=
  safely (c st) (fun _ st' => lexer_ok st' /\ (todo st' <= n)%nat).

Lemma ends_weaken {A} (c : M lexer A) st n n' : (n <= n')%nat -> ends c st n -> ends c st n'.
Proof. intros Hn. apply safely_weaken. intros _ st' [??]. split; [done|lia]. Qed.

Lemma ends_bind {A B} (c : M lexer A) (k : A -> M lexer B) st n m :
  ends c st n -> (forall a st', lexer_ok st' -> (todo st' <= n)%nat -> ends (k a) st' m) -> ends (lbind c k) st m.
Proof. intros Hc Hk. apply safely_bind. revert Hc. apply safely_weaken. intros a st' [??]. by apply Hk. Qed.

Lemma ends_get {B} (k : lexer -> M lexer B) st m : ends (k st) st m -> ends (lbind lget k) st m.
Proof. done. Qed.

Lemma ends_ret {A} (x : A) st : lexer_ok st -> ends (lret x) st (todo st).
Proof. by split. Qed.

Lemma todo_pos st : rtok st <> TEnd -> todo st = S (length (prestr st)).
Proof. unfold todo, left_over. by destruct (rtok st). Qed.

Lemma ends_next st n : lexer_ok st -> rtok st <> TEnd -> (todo st <= S n)%nat -> ends next st n.
Proof.
  intros [_ Hg] Ht Hn. unfold ends, next. pose proof (relex_total _ Hg) as Hr. destruct (relex (prestr st)) as [t q| |]; [|done..].
  destruct Hr as (? & ? & Hl). split; [by split|]. change (left_over t q <= n)%nat. rewrite todo_pos in Hn by done. lia.
Qed.

Lemma ends_class make s st : paired s = true -> lexer_ok st -> ends (class_leaf make s) st (todo st).
Proof. intros Hs Hst. unfold ends, class_leaf, lread. destruct (cclenter_total s Hs) as [x ->]. by split. Qed.

Lemma unary_ends fuel np st : lexer_ok st -> (todo st < fuel)%nat -> ends (unary fuel np) st (todo st).
Proof.
  revert np st. induction fuel as [|fuel IH]; intros np st Hst Hf; [lia|]. cbn [unary]. apply ends_get.
  pose proof (todo_pos st) as Ht. destruct (rtok st) eqn:Et; try (by apply ends_ret). all: specialize (Ht ltac:(done)).
  all: eapply ends_bind; [apply (ends_next _ (todo st - 1)); [done|by rewrite Et|lia]|]; intros _ st' Hst' Hl;
    eapply ends_weaken; [|apply IH]; [lia|done|lia].
Qed.

(** One turn of the mutual recursion: a next token, then a unary operator. *)
Lemma next_unary_ends fuel np st :
  lexer_ok st -> rtok st <> TEnd -> (todo st < fuel)%nat -> ends (do* next in unary fuel np) st (todo st - 1).
Proof.
  intros Hst Ht Hf. pose proof (todo_pos st Ht).
  eapply ends_bind; [apply (ends_next _ (todo st - 1)); done || lia|]. intros _ st' Hst' Hl.
  eapply ends_weaken; [exact Hl|]. apply unary_ends; [done|lia].
Qed.

Lemma parser_ends fuel :
  (forall st, lexer_ok st -> (3 * todo st + 1 <= fuel)%nat -> ends (primary fuel) st (todo st - 1)) /\
  (forall np st, lexer_ok st -> (3 * todo st + 2 <= fuel)%nat -> ends (concat fuel np) st (todo st)) /\
  (forall np st, lexer_ok st -> (3 * todo st + 1 <= fuel)%nat -> ends (alt fuel np) st (todo st)) /\
  (forall st, lexer_ok st -> (3 * todo st + 3 <= fuel)%nat -> ends (regexp fuel) st (todo st - 1)).
Proof.
  induction fuel as [|fuel (IHp & IHc & IHa & IHr)]; [split_and!; intros; lia|]. split_and!.
  - intros st Hst Hf. cbn [primary]. apply ends_get.
    pose proof (todo_pos st) as Hpos.
    assert (Hun : rtok st <> TEnd -> forall np, ends (do* next in unary fuel np) st (todo st - 1)).
    { intros Ht np. specialize (Hpos Ht). apply next_unary_ends; [done|done|lia]. }
    assert (Hcl : rtok st <> TEnd -> forall make s, token_ok (TCcl s) -> ends (let* np := class_leaf make s in do* next in unary fuel np) st (todo st - 1)).
    { intros Ht make s Hs. apply safely_bind. unfold class_leaf, lread. destruct (cclenter_total s Hs) as [x ->]. by apply Hun. }
    destruct (rtok st) eqn:Et; try done; try (by apply Hun); try (apply Hcl; [done|]; destruct Hst as [Ht _]; by rewrite Et in Ht).
    specialize (Hpos ltac:(done)).
    eapply ends_bind; [apply (ends_next _ (todo st - 1)); [done|by rewrite Et|lia]|]. intros _ s1 Hs1 H1. apply ends_get.
    assert (Hre : ends (let* np := regexp fuel in let* st := lget in match rtok st with TClose => do* next in unary fuel np
                        | _ => FATAL "syntax error in regular expression %s at %s" end) s1 (todo st - 1)).
    { eapply ends_bind; [apply IHr; [done|lia]|]. intros np s2 Hs2 H2. apply ends_get. destruct (rtok s2) eqn:E2; try done.
      eapply ends_weaken; [|apply next_unary_ends; [done|by rewrite E2|lia]]. lia. }
    destruct (rtok s1) eqn:E1; try exact Hre.
    eapply ends_weaken; [|apply next_unary_ends; [done|by rewrite E1|lia]]. lia.
  - intros np st Hst Hf. cbn [concat]. apply ends_get.
    pose proof (todo_pos st) as Ht. destruct (rtok st) eqn:Et; try (by apply ends_ret). all: specialize (Ht ltac:(done)).
    all: eapply ends_bind; [apply IHp; [done|lia]|]; intros r s1 Hs1 H1;
      eapply ends_weaken; [|apply IHc; [done|lia]]; lia.
  - intros np st Hst Hf. cbn [alt]. apply ends_get. destruct (rtok st) eqn:Et; try (by apply ends_ret).
    pose proof (todo_pos st ltac:(by rewrite Et)).
    eapply ends_bind; [apply (ends_next _ (todo st - 1)); [done|by rewrite Et|lia]|]. intros _ s1 Hs1 H1.
    eapply ends_bind; [apply IHp; [done|lia]|]. intros r s2 Hs2 H2.
    eapply ends_bind; [apply IHc; [done|lia]|]. intros r' s3 Hs3 H3.
    eapply ends_weaken; [|apply IHa; [done|lia]]. lia.
  - intros st Hst Hf. cbn [regexp]. eapply ends_bind; [apply IHp; [done|lia]|]. intros np s1 Hs1 H1.
    eapply ends_bind; [apply IHc; [done|lia]|]. intros np' s2 Hs2 H2.
    eapply ends_weaken; [|apply IHa; [done|lia]]. lia.
Qed.



(** ** Printing and parsing *)

(** A character by its octal code. *)
Definition octal (c : ascii) : cstr :=
  let d k := cz (48 + Z.shiftr (zc c) k mod 8) in ["\"%char; d 6; d 3; d 0].

(** The characters that stand for themselves, in a pattern and in a class. *)
Definition plain (c : ascii) : bool := negb (existsb (fun d => bool_decide (d = c)) (str "|*+?.^$()\[")).

Definition plain_in_class (c : ascii) : bool := negb (existsb (fun d => bool_decide (d = c)) (str "[]\-^")).

Definition print_char (v : Z) : cstr :=
  if v =? HAT then str "^" else if v =? 0 then str "$"
  else if plain (cz v) then [cz v] else octal (cz v).

Definition print_class (s : cstr) : cstr :=
  mjoin (map (fun c => if plain_in_class c then [c] else octal c) s).

Definition print_leaf (l : leaf) : cstr :=
  match l with
  | CHAR v => print_char v
  | DOT => str "."
  | CCL [] => str "()"
  | CCL s => str "[" ++ print_class s ++ str "]"
  | NCCL s => str "[^" ++ print_class s ++ str "]"
  | _ => []
  end.

Definition paren (b : bool) (s : cstr) : cstr := if b then str "(" ++ s ++ str ")" else s.

(** The operand of unary operators is the sign for the beginning. *)
Fixpoint starts_hat (np : node) : bool :=
  match np with
  | Leaf (CHAR v) _ => v =? HAT
  | STAR np | PLUS np | QUEST np => starts_hat np
  | _ => false
  end.

(** The text of a tree: alternatives at level 0, sequences at level 1, operands of
    unary operators at level 2. *)
Fixpoint print (level : nat) (np : node) : cstr :=
  match np with
  | Leaf l _ => print_leaf l
  | STAR np => print 2 np ++ str "*"
  | PLUS np => print 2 np ++ str "+"
  | QUEST np => print 2 np ++ str "?"
  | CAT l r => paren (1 <? level)%nat (print 1 l ++ paren (starts_hat r) (print 2 r))
  | OR l r => paren (0 <? level)%nat (print 0 l ++ str "|" ++ print 1 r)
  end.

(** The trees that the parser can return, apart from that of the empty text. *)
Fixpoint printable (np : node) : bool :=
  match np with
  | Leaf l info =>
      (info =? 0)%nat &&
      match l with
      | CHAR v => (v =? HAT) || ((0 <=? v) && (v <? 256))
      | DOT => true
      | CCL s => forallb (fun c => negb (zc c =? 0)) s
      | NCCL s => negb (bool_decide (s = [])) && forallb (fun c => negb (zc c =? 0)) s
      | _ => false
      end
  | STAR np | PLUS np | QUEST np => printable np
  | CAT l r | OR l r => printable l && printable r
  end.

(** A fact on all characters, by computation. *)
Lemma all_chars (f : ascii -> bool) :
  forallb (fun i => f (cz (Z.of_nat i))) (seq 0 256) = true -> forall c, f c = true.
Proof.
  intros Hall c. rewrite forallb_forall in Hall. pose proof (zc_bound c). specialize (Hall (Z.to_nat (zc c))).
  rewrite Z2Nat.id, cz_zc in Hall by lia. apply Hall. apply in_seq. lia.
Qed.

Lemma quoted_octal c rest : quoted (drop 1 (octal c) ++ rest) = Some (zc c, rest).
Proof.
  revert c. cbn [octal drop app]. intros c.
  pose proof (all_chars (fun c => match drop 1 (octal c) with
    | [d; e; f] => isoctdigit d && isoctdigit e && isoctdigit f && (8 * (8 * (zc d - 48) + (zc e - 48)) + (zc f - 48) =? zc c)
    | _ => false end) ltac:(vm_compute; reflexivity) c) as Hc. cbn [octal drop] in Hc.
  set (d := cz (48 + Z.shiftr (zc c) 6 mod 8)) in *. set (e := cz (48 + Z.shiftr (zc c) 3 mod 8)) in *.
  set (f := cz (48 + Z.shiftr (zc c) 0 mod 8)) in *. bool_to_prop. unfold quoted.
  assert (Hd : forall x, isoctdigit d = true -> x ∈ str "tnfrb\x" -> d <> x).
  { intros x Hd Hx ->. revert Hd. unfold str in Hx. cbn in Hx. elem_inv Hx; vm_compute; done. }
  do 7 (rewrite bool_decide_eq_false_2 by (apply Hd; [done|unfold str; cbn; list_in])).
  by rewrite H, H2, H1, H0.
Qed.

Definition not_nul (c : ascii) : Prop := zc c <> 0.

Lemma print_class_cons c s :
  print_class (c :: s) = (if plain_in_class c then [c] else octal c) ++ print_class s.
Proof. done. Qed.

Lemma byte_zc c : byte (zc c) = c.
Proof. unfold byte. rewrite wrap_small by apply zc_bound. apply cz_zc. Qed.

Lemma plain_in_class_ne c d : plain_in_class c = true -> d ∈ str "[]\-^" -> c <> d.
Proof. intros Hc Hd ->. revert Hc. unfold str in Hd. cbn in Hd. elem_inv Hd; vm_compute; done. Qed.

Lemma plain_ne c d : plain c = true -> d ∈ str "|*+?.^$()\[" -> c <> d.
Proof. intros Hc Hd ->. revert Hc. unfold str in Hd. cbn in Hd. elem_inv Hd; vm_compute; done. Qed.

(** [cclenter] reads the characters of a printed class back. *)
Lemma ccl_loop_print fuel s bp :
  (length (print_class s) < fuel)%nat -> ccl_loop fuel (print_class s) bp = Some (rev s ++ bp).
Proof.
  revert fuel bp. induction s as [|c s IH]; intros fuel bp Hf; (destruct fuel as [|fuel]; [lia|]); [done|].
  rewrite print_class_cons in Hf |- *. destruct (plain_in_class c) eqn:Ec.
  - cbn [app ccl_loop]. rewrite length_app in Hf. cbn in Hf.
    rewrite bool_decide_eq_false_2 by (apply (plain_in_class_ne _ _ Ec); unfold str; cbn; list_in).
    rewrite (bool_decide_eq_false_2 (c = "-"%char)) by (apply (plain_in_class_ne _ _ Ec); unfold str; cbn; list_in). cbn [andb].
    assert (Hr : ccl_loop fuel (print_class s) (c :: bp) = Some (rev (c :: s) ++ bp)).
    { rewrite IH by lia. cbn [rev]. by rewrite <-app_assoc. }
    by destruct bp, (print_class s).
  - rewrite length_app in Hf. change (length (octal c)) with 4%nat in Hf.
    change (octal c ++ print_class s) with ("\"%char :: drop 1 (octal c) ++ print_class s). cbn [ccl_loop].
    rewrite bool_decide_eq_true_2 by done. rewrite quoted_octal, byte_zc, IH by lia. cbn [rev]. by rewrite <-app_assoc.
Qed.

Lemma tostring_text s : is_text s -> tostring s = s.
Proof. induction 1 as [|c s Hc _ IH]; [done|]. cbn. rewrite (proj2 (Z.eqb_neq _ _) Hc). by rewrite IH. Qed.

Lemma cclenter_print s : is_text s -> cclenter (print_class s) = Some s.
Proof.
  intros Hs. unfold cclenter. rewrite ccl_loop_print by lia. rewrite app_nil_r, rev_involutive. by rewrite tostring_text.
Qed.

Lemma octal_text c : is_text (octal c).
Proof.
  pose proof (all_chars (fun c => forallb (fun d => negb (zc d =? 0)) (octal c)) ltac:(vm_compute; reflexivity) c) as Hc.
  rewrite forallb_forall in Hc. apply list.Forall_forall. intros d Hd%list_elem_of_In. specialize (Hc d Hd). by bool_to_prop.
Qed.

Lemma print_class_text s : is_text s -> is_text (print_class s).
Proof.
  induction 1 as [|c s Hc _ IH]; [constructor|]. rewrite print_class_cons. apply Forall_app. split; [|done].
  destruct (plain_in_class c); [by repeat constructor|apply octal_text].
Qed.

(** The characters that [class_loop] copies: none of brackets and backslashes. *)
Lemma class_loop_copies fuel buf s rest :
  Forall (fun c => c ∉ str "[]\") s -> (length s <= fuel)%nat -> buf <> [] ->
  class_loop fuel buf (s ++ rest) = class_loop (fuel - length s) (buf ++ s) rest.
Proof.
  intros Hs. revert fuel buf. induction Hs as [|c s Hc _ IH]; intros fuel buf Hf Hb; cbn [app length].
  { by rewrite app_nil_r, Nat.sub_0_r. }
  cbn in Hf. destruct fuel as [|fuel]; [lia|]. cbn in Hf. cbn [class_loop].
  assert (Hne : forall d, d ∈ str "[]\" -> c <> d) by (intros d Hd ->; done).
  rewrite (bool_decide_eq_false_2 (c = "\"%char)) by (apply Hne; unfold str; cbn; list_in).
  rewrite (bool_decide_eq_false_2 (c = "["%char)) by (apply Hne; unfold str; cbn; list_in).
  rewrite (bool_decide_eq_false_2 (buf = [])) by done.
  rewrite (bool_decide_eq_false_2 (c = "]"%char)) by (apply Hne; unfold str; cbn; list_in).
  rewrite IH by (lia || by destruct buf). rewrite <-app_assoc. done.
Qed.

Lemma octal_digits_plain c : Forall (fun d => d ∉ str "[]\") (drop 1 (octal c)).
Proof.
  pose proof (all_chars (fun c => forallb isoctdigit (drop 1 (octal c))) ltac:(vm_compute; reflexivity) c) as Hc.
  rewrite forallb_forall in Hc. apply list.Forall_forall. intros d Hd%list_elem_of_In Hin. specialize (Hc d Hd). revert Hc.
  unfold str in Hin. cbn in Hin. elem_inv Hin; vm_compute; done.
Qed.

(** One printed character of a class is copied. *)
Lemma class_loop_char fuel buf c t :
  (length (if plain_in_class c then [c] else octal c) <= fuel)%nat ->
  exists k, (k <= length (if plain_in_class c then [c] else octal c))%nat /\
    class_loop fuel buf ((if plain_in_class c then [c] else octal c) ++ t) =
      class_loop (fuel - k) (buf ++ (if plain_in_class c then [c] else octal c)) t.
Proof.
  intros Hf. destruct (plain_in_class c) eqn:Ec; cbn in Hf.
  - exists 1%nat. split; [done|]. destruct fuel as [|fuel]; [lia|]. cbn [app class_loop]. rewrite Nat.sub_succ, Nat.sub_0_r.
    do 2 (rewrite bool_decide_eq_false_2 by (apply (plain_in_class_ne _ _ Ec); unfold str; cbn; list_in)).
    case_bool_decide; [done|].
    by rewrite bool_decide_eq_false_2 by (apply (plain_in_class_ne _ _ Ec); unfold str; cbn; list_in).
  - exists 3%nat. split; [cbn; lia|]. destruct fuel as [|fuel]; [lia|].
    pose proof (octal_digits_plain c) as Ho. cbn [octal drop] in Ho. inversion Ho as [|d ds _ Ho']; subst.
    unfold octal. cbn [app class_loop]. rewrite bool_decide_eq_true_2 by done.
    change (?a :: ?b :: t) with ([a; b] ++ t). rewrite class_loop_copies; [|done|cbn; lia|by destruct buf].
    rewrite <-app_assoc. done.
Qed.

Lemma class_loop_print fuel buf s rest :
  (length (print_class s) < fuel)%nat -> buf ++ s <> [] ->
  class_loop fuel buf (print_class s ++ "]"%char :: rest) = Ret (tostring (buf ++ print_class s)) rest.
Proof.
  revert fuel buf. induction s as [|c s IH]; intros fuel buf Hf Hne.
  - destruct fuel as [|fuel]; [lia|]. cbn [print_class map mjoin list_join app class_loop]. rewrite app_nil_r in Hne |- *.
    do 3 (rewrite bool_decide_eq_false_2 by done). rewrite bool_decide_eq_true_2 by done. done.
  - rewrite print_class_cons in Hf |- *. rewrite <-app_assoc. rewrite length_app in Hf.
    destruct (class_loop_char fuel buf c (print_class s ++ "]"%char :: rest)) as (k & Hk & ->); [lia|].
    rewrite IH; [by rewrite <-app_assoc|lia|]. destruct buf; [|done]. by destruct (plain_in_class c).
Qed.

(** The token of a leaf, all of its text but for the class of no characters. *)
Definition leaf_token (l : leaf) : token :=
  match l with
  | CHAR v => if v =? HAT then THat else if v =? 0 then TDollar else TChar v
  | DOT => TDot
  | CCL s => TCcl (print_class s)
  | NCCL s => TNccl (print_class s)
  | _ => TEnd
  end.

Lemma relex_plain c rest : plain c = true -> relex (c :: rest) = Ret (TChar (zc c)) rest.
Proof.
  intros Hc. unfold relex.
  do 11 (rewrite bool_decide_eq_false_2 by (apply (plain_ne _ _ Hc); unfold str; cbn; list_in)). done.
Qed.

Lemma relex_octal c rest : relex (octal c ++ rest) = Ret (TChar (zc c)) rest.
Proof.
  change (octal c ++ rest) with ("\"%char :: drop 1 (octal c) ++ rest). unfold relex.
  do 9 (rewrite bool_decide_eq_false_2 by done). rewrite bool_decide_eq_true_2 by done. by rewrite quoted_octal.
Qed.

Lemma relex_bracket p : relex ("["%char :: p) = relex_class p.
Proof. done. Qed.

Lemma forallb_text s : forallb (fun c => negb (zc c =? 0)) s = true -> is_text s.
Proof.
  intros Hs. rewrite forallb_forall in Hs. apply list.Forall_forall. intros c Hc%list_elem_of_In. specialize (Hs c Hc). by bool_to_prop.
Qed.

Lemma strip_hat_class s rest : s <> [] -> strip (str "^") (print_class s ++ rest) = None.
Proof.
  destruct s as [|c s]; [done|]. intros _. rewrite print_class_cons. destruct (plain_in_class c) eqn:Ec; [|done].
  cbn -[bool_decide]. rewrite bool_decide_eq_false_2; [done|]. intros E. symmetry in E. revert E.
  apply (plain_in_class_ne _ _ Ec). unfold str; cbn; list_in.
Qed.

Lemma class_loop_whole s rest :
  is_text s -> s <> [] ->
  class_loop (S (length (print_class s ++ str "]" ++ rest))) [] (print_class s ++ str "]" ++ rest) = Ret (print_class s) rest.
Proof.
  intros Hs Hne. change (str "]" ++ rest) with ("]"%char :: rest). rewrite class_loop_print; [|rewrite length_app; lia|done].
  cbn [app]. by rewrite (tostring_text _ (print_class_text _ Hs)).
Qed.

Lemma relex_ccl s rest :
  is_text s -> s <> [] -> relex (str "[" ++ print_class s ++ str "]" ++ rest) = Ret (TCcl (print_class s)) rest.
Proof.
  intros Hs Hne. change (str "[" ++ ?p) with ("["%char :: p). rewrite relex_bracket. unfold relex_class.
  rewrite strip_hat_class by done. unfold lbind. by rewrite class_loop_whole.
Qed.

Lemma relex_nccl s rest :
  is_text s -> s <> [] -> relex (str "[^" ++ print_class s ++ str "]" ++ rest) = Ret (TNccl (print_class s)) rest.
Proof.
  intros Hs Hne. change (str "[^" ++ ?p) with ("["%char :: "^"%char :: p). rewrite relex_bracket. unfold relex_class.
  change (strip (str "^") ("^"%char :: ?p)) with (Some p). cbn iota. unfold lbind. by rewrite class_loop_whole.
Qed.

Lemma relex_leaf l info rest :
  printable (Leaf l info) = true -> l <> CCL [] -> relex (print_leaf l ++ rest) = Ret (leaf_token l) rest.
Proof.
  intros Hp Hl. cbn in Hp. apply andb_prop in Hp as [_ Hp]. destruct l as [v| | |s|s| |]; try done.
  - cbn -[HAT] in *. unfold print_char. destruct (v =? HAT) eqn:Eh; [done|]. destruct (v =? 0) eqn:E0; [done|].
    cbn [orb] in Hp. bool_to_prop. destruct (plain (cz v)) eqn:Epl; cbn [app]; [rewrite relex_plain by done|rewrite relex_octal]; by rewrite zc_cz by lia.
  - apply forallb_text in Hp. assert (s <> []) by congruence.
    replace (print_leaf (CCL s)) with (str "[" ++ print_class s ++ str "]") by by destruct s.
    rewrite <-!app_assoc. by apply relex_ccl.
  - apply andb_prop in Hp as [Hne Hp%forallb_text]. bool_to_prop. apply bool_decide_eq_false_1 in Hne.
    change (print_leaf (NCCL s)) with (str "[^" ++ print_class s ++ str "]"). rewrite <-!app_assoc. by apply relex_nccl.
Qed.

(** The lexer stands before a text. *)
Definition before (p : cstr) (st : lexer) : Prop := relex p = Ret (rtok st) (prestr st).

Lemma next_before st p q : before p st -> forall t, relex p = Ret t q -> rtok st = t /\ prestr st = q.
Proof. unfold before. intros ->. by intros t [= -> ->]. Qed.

Lemma next_to st p : prestr st = p -> (exists t q, relex p = Ret t q) -> exists st', next st = Ret tt st' /\ before p st'.
Proof.
  intros <- (t & q & E). unfold next. rewrite E. by eexists.
Qed.

(** Texts that the lexer can go on with after a part of a pattern. *)
Definition token_in (p : cstr) (P : token -> bool) : Prop := exists t q, relex p = Ret t q /\ P t = true.

Definition not_postfix (t : token) : bool := match t with TStar | TPlus | TQuest => false | _ => true end.

Definition starts_operand (t : token) : bool :=
  match t with TChar _ | TDot | TCcl _ | TNccl _ | TDollar | TOpen => true | _ => false end.

Definition ends_cat (t : token) : bool := not_postfix t && negb (starts_operand t).

(** What [primary], [primary] then [concat], and [regexp] do with a printed tree,
    with the text [rest] behind it. *)
Definition reads2 (np : node) : Prop := forall k rest st,
  before (print 2 np ++ rest) st -> token_in rest (fun _ => true) -> (3 * length (print 2 np ++ rest) + 1 <= k)%nat ->
  exists k' st', primary k st = unary k' np st' /\ before rest st' /\ (3 * length rest + 1 <= k')%nat.

Definition reads1 (np : node) : Prop := forall k rest st,
  before (print 1 np ++ rest) st -> token_in rest not_postfix -> (3 * length (print 1 np ++ rest) + 1 <= k)%nat ->
  exists k' st', (let* x := primary k in concat k x) st = concat k' np st' /\ before rest st' /\ (3 * length rest + 2 <= k')%nat.

Definition reads0 (np : node) : Prop := forall k rest st,
  before (print 0 np ++ rest) st -> token_in rest ends_cat -> (3 * length (print 0 np ++ rest) + 1 <= k)%nat ->
  exists k' st', (let* x := primary k in let* y := concat k x in alt k y) st = alt k' np st' /\ before rest st' /\
    (3 * length rest + 1 <= k')%nat.

Lemma token_in_weaken p (P Q : token -> bool) : (forall t, P t = true -> Q t = true) -> token_in p P -> token_in p Q.
Proof. intros HPQ (t & q & E & Ht). exists t, q. auto. Qed.

(** The lexer moves from a text whose first token is [t] to the rest. *)
Lemma move p t q st :
  before p st -> relex p = Ret t q -> token_in q (fun _ => true) ->
  rtok st = t /\ exists st', next st = Ret tt st' /\ before q st'.
Proof.
  intros Hb Ht (t' & q' & E & _). destruct (next_before _ _ _ Hb t Ht) as [H1 H2]. split; [done|].
  apply next_to; [done|]. by eexists _, _.
Qed.

Lemma unary_stops k np st rest :
  before rest st -> token_in rest not_postfix -> (0 < k)%nat -> unary k np st = Ret np st.
Proof.
  intros Hb (t & q & E & Ht) Hk. destruct k as [|k]; [lia|]. cbn. destruct (next_before _ _ _ Hb t E) as [-> _]. by destruct t.
Qed.

Lemma concat_stops k np st rest :
  before rest st -> token_in rest ends_cat -> (0 < k)%nat -> concat k np st = Ret np st.
Proof.
  intros Hb (t & q & E & Ht) Hk. destruct k as [|k]; [lia|]. cbn. destruct (next_before _ _ _ Hb t E) as [-> _]. by destruct t.
Qed.

Lemma print_leaf_length l info : printable (Leaf l info) = true -> (1 <= length (print_leaf l))%nat.
Proof.
  intros Hp. cbn in Hp. apply andb_prop in Hp as [_ Hp]. destruct l as [v| | |[|c s]|s| |]; try done; cbn -[HAT]; try lia.
  unfold print_char. repeat case_bool; cbn; lia.
Qed.

Lemma first_token np level rest :
  printable np = true ->
  exists t q, relex (print level np ++ rest) = Ret t q /\ (starts_operand t = true \/ t = THat) /\
    (starts_hat np = false -> level = 2%nat -> starts_operand t = true).
Proof.
  revert level rest. induction np as [l info|np IH|np IH|np IH|l IHl r IHr|l IHl r IHr]; intros level rest Hp; cbn [print].
  - destruct (decide (l = CCL [])) as [->|Hl]; [exists TOpen, (")"%char :: rest); cbn; auto|].
    exists (leaf_token l), rest. rewrite (relex_leaf l info rest Hp Hl). split; [done|]. cbn in Hp. apply andb_prop in Hp as [_ Hp].
    destruct l as [v| | | | | |]; try done; auto. cbn -[HAT]. destruct (v =? HAT); [auto|]. destruct (v =? 0); auto.
  - rewrite <-app_assoc. destruct (IH 2%nat (str "*" ++ rest) Hp) as (t & q & E & Ht & H2). exists t, q. split_and!; auto.
  - rewrite <-app_assoc. destruct (IH 2%nat (str "+" ++ rest) Hp) as (t & q & E & Ht & H2). exists t, q. split_and!; auto.
  - rewrite <-app_assoc. destruct (IH 2%nat (str "?" ++ rest) Hp) as (t & q & E & Ht & H2). exists t, q. split_and!; auto.
  - cbn in Hp. apply andb_prop in Hp as [Hl Hr]. destruct (1 <? level)%nat eqn:E1; cbn [paren]; [eexists TOpen, _; cbn; auto|].
    rewrite <-app_assoc. destruct (IHl 1%nat (paren (starts_hat r) (print 2 r) ++ rest) Hl) as (t & q & E & Ht & H2).
    exists t, q. split_and!; [done..|]. intros _ ->. done.
  - cbn in Hp. apply andb_prop in Hp as [Hl Hr]. destruct (0 <? level)%nat eqn:E1; cbn [paren]; [eexists TOpen, _; cbn; auto|].
    rewrite <-app_assoc. destruct (IHl 0%nat ((str "|" ++ print 1 r) ++ rest) Hl) as (t & q & E & Ht & H2).
    exists t, q. split_and!; [done..|]. intros _ ->. done.
Qed.

Lemma reads2_leaf l info : printable (Leaf l info) = true -> reads2 (Leaf l info).
Proof.
  intros Hp k rest st Hb Hrest Hk. cbn [print] in *. rewrite length_app in Hk. pose proof (print_leaf_length _ _ Hp) as Hlen.
  destruct k as [|k]; [lia|]. assert (info = 0%nat) as ->. { cbn in Hp. apply andb_prop in Hp as [Hi _]. by apply Nat.eqb_eq in Hi. }
  destruct (decide (l = CCL [])) as [->|Hl].
  - destruct (move _ TOpen (str ")" ++ rest) _ Hb eq_refl) as (Et & s1 & E1 & Hb1); [by exists TClose, rest|].
    destruct (move _ TClose rest _ Hb1 eq_refl Hrest) as (Et1 & s2 & E2 & Hb2).
    exists k, s2. split_and!; [|done|cbn in Hk; lia]. cbn [primary]. unfold lbind at 1, lget. rewrite Et.
    rewrite (lbind_step _ _ _ _ _ E1). unfold lbind at 1. rewrite Et1. by rewrite (lbind_step _ _ _ _ _ E2).
  - destruct (move _ _ _ _ Hb (relex_leaf l 0 rest Hp Hl) Hrest) as (Et & s1 & E1 & Hb1).
    exists k, s1. split_and!; [|done|lia]. cbn [primary]. unfold lbind at 1, lget. rewrite Et.
    cbn in Hp. destruct l as [v| | |s|s| |]; try done; cbn [leaf_token].
    + destruct (v =? HAT) eqn:Eh; [apply Z.eqb_eq in Eh; subst; by rewrite (lbind_step _ _ _ _ _ E1)|].
      destruct (v =? 0) eqn:E0; [apply Z.eqb_eq in E0; subst|]; by rewrite (lbind_step _ _ _ _ _ E1).
    + by rewrite (lbind_step _ _ _ _ _ E1).
    + assert (Ec : class_leaf CCL (print_class s) st = Ret (op (CCL s)) st).
      { unfold class_leaf, lread. by rewrite cclenter_print by by apply forallb_text. }
      rewrite (lbind_step _ _ _ _ _ Ec). by rewrite (lbind_step _ _ _ _ _ E1).
    + apply andb_prop in Hp as [_ Hp]. assert (Ec : class_leaf NCCL (print_class s) st = Ret (op (NCCL s)) st).
      { unfold class_leaf, lread. by rewrite cclenter_print by by apply forallb_text. }
      rewrite (lbind_step _ _ _ _ _ Ec). by rewrite (lbind_step _ _ _ _ _ E1).
Qed.

Lemma reads2_postfix np (f : node -> node) c t :
  (forall k np st, rtok st = t -> unary (S k) np st = (do* next in unary k (f np)) st) ->
  (forall rest, relex (c :: rest) = Ret t rest) -> print 2 (f np) = print 2 np ++ [c] ->
  reads2 np -> reads2 (f np).
Proof.
  intros Hun Hlex Hpr IH k rest st Hb Hrest Hk. rewrite Hpr, <-app_assoc in Hb, Hk.
  destruct (IH k ([c] ++ rest) st Hb) as (k1 & s1 & E1 & Hb1 & Hk1); [exists t, rest; split; [apply Hlex|done]|done|].
  destruct (move _ _ _ _ Hb1 (Hlex rest) Hrest) as (Et & s2 & E2 & Hb2). cbn in Hk1. destruct k1 as [|k1]; [lia|].
  exists k1, s2. split_and!; [|done|lia]. rewrite E1, Hun by done. by rewrite (lbind_step _ _ _ _ _ E2).
Qed.

(** In parentheses. *)
Lemma reads_paren np k rest st :
  reads0 np -> printable np = true ->
  before (paren true (print 0 np) ++ rest) st -> token_in rest (fun _ => true) ->
  (3 * length (paren true (print 0 np) ++ rest) + 1 <= k)%nat ->
  exists k' st', primary k st = unary k' np st' /\ before rest st' /\ (3 * length rest + 1 <= k')%nat.
Proof.
  intros H0 Hp Hb Hrest Hk. cbn [paren] in *. rewrite <-!app_assoc in Hb, Hk. rewrite !length_app in Hk. cbn in Hk.
  destruct (first_token np 0 (str ")" ++ rest) Hp) as (t & q & Ht & Hop & _).
  destruct (move _ TOpen _ _ Hb eq_refl) as (Et & s1 & E1 & Hb1); [by exists t, q|].
  destruct k as [|[|k]]; [lia..|].
  destruct (H0 k (str ")" ++ rest) s1 Hb1) as (k' & s2 & E2 & Hb2 & Hk'); [by exists TClose, rest|rewrite !length_app; cbn; lia|].
  destruct (move _ TClose rest _ Hb2 eq_refl Hrest) as (Et2 & s3 & E3 & Hb3).
  exists (S k), s3. split_and!; [|done|lia]. cbn [primary]. unfold lbind at 1, lget. rewrite Et.
  rewrite (lbind_step _ _ _ _ _ E1). unfold lbind at 1. destruct (next_before _ _ _ Hb1 _ Ht) as [Et1 _]. rewrite Et1.
  assert (Ere : regexp (S k) s1 = Ret np s2).
  { cbn [regexp]. rewrite E2. destruct k' as [|k']; [cbn in Hk'; lia|]. cbn. by rewrite Et2. }
  assert (Hfin : (let* np := regexp (S k) in let* st := lget in match rtok st with TClose => do* next in unary (S k) np
      | _ => FATAL "syntax error in regular expression %s at %s" end) s1 = unary (S k) np s3).
  { rewrite (lbind_step _ _ _ _ _ Ere). unfold lbind at 1, lget. rewrite Et2. by rewrite (lbind_step _ _ _ _ _ E3). }
  destruct Hop as [Hop| ->]; [|done]. by destruct t.
Qed.

Lemma reads1_of_2 np : print 1 np = print 2 np -> printable np = true -> reads2 np -> reads1 np.
Proof.
  intros Hpr Hp H2 k rest st Hb Hrest Hk. rewrite Hpr in Hb, Hk.
  assert (1 <= length (print 2 np))%nat.
  { destruct (first_token np 2 [] Hp) as (t & q & E & Ht & _). rewrite app_nil_r in E. destruct (print 2 np); [|cbn; lia].
    cbn in E. by injection E as <- _; destruct Ht. }
  destruct (H2 k rest st Hb) as (k' & s' & E & Hb' & Hk'); [by eapply token_in_weaken; [|exact Hrest]|done|].
  rewrite length_app in Hk. exists k, s'. split_and!; [|done|lia]. unfold lbind. rewrite E.
  by rewrite (unary_stops _ _ _ _ Hb' Hrest) by lia.
Qed.

Lemma reads0_of_1 np : print 0 np = print 1 np -> reads1 np -> reads0 np.
Proof.
  intros Hpr H1 k rest st Hb Hrest Hk. rewrite Hpr in Hb, Hk.
  destruct (H1 k rest st Hb) as (k' & s' & E & Hb' & Hk'); [|done|].
  { eapply token_in_weaken; [|exact Hrest]. intros t Ht. by apply andb_prop in Ht as [? _]. }
  rewrite length_app in Hk. exists k, s'. split_and!; [|done|lia].
  rewrite (concat_stops k' np s' rest Hb' Hrest) in E by lia.
  unfold lbind in *. destruct (primary k st) as [x s1| |]; [|done..]. by rewrite E.
Qed.

Lemma reads1_cat l r : printable l = true -> printable r = true -> reads1 l -> reads2 r -> reads0 r -> reads1 (CAT l r).
Proof.
  intros Hpl Hpr Hl Hr Hr0 k rest st Hb Hrest Hk. cbn [print paren Nat.ltb Nat.leb] in Hb, Hk. rewrite <-app_assoc in Hb, Hk.
  set (right := paren (starts_hat r) (print 2 r)) in *.
  assert (Hop : exists t q, relex (right ++ rest) = Ret t q /\ starts_operand t = true).
  { unfold right. destruct (starts_hat r) eqn:Eh; [by eexists TOpen, _|].
    destruct (first_token r 2 rest Hpr) as (t & q & E & _ & Hst). exists t, q. auto. }
  destruct Hop as (t & q & Ht & Hst).
  destruct (Hl k (right ++ rest) st Hb) as (k1 & s1 & E1 & Hb1 & Hk1).
  { exists t, q. split; [done|]. by destruct t. }
  { done. }
  destruct k1 as [|k1]; [lia|].
  assert (Hprim : exists k' st', primary k1 s1 = unary k' r st' /\ before rest st' /\ (3 * length rest + 1 <= k')%nat).
  { assert (Hany : token_in rest (fun _ => true)) by (eapply token_in_weaken; [|exact Hrest]; done). revert Hb1 Hk1. unfold right.
    destruct (starts_hat r) eqn:Eh; intros Hb1 Hk1; [|cbn [paren] in *; apply (Hr k1 rest s1); [done|done|lia]].
    assert (Ep : print 2 r = print 0 r) by (by destruct r). rewrite Ep in *. apply (reads_paren r k1 rest s1); [done..|lia]. }
  destruct Hprim as (k2 & s2 & E2 & Hb2 & Hk2).
  exists k1, s2. split_and!; [|done|].
  - rewrite E1. cbn [concat]. unfold lbind at 1, lget. destruct (next_before _ _ _ Hb1 _ Ht) as [-> _].
    assert (Hstep : (let* x := primary k1 in concat k1 (CAT l x)) s1 = concat k1 (CAT l r) s2).
    { unfold lbind. rewrite E2. by rewrite (unary_stops _ _ _ _ Hb2 Hrest) by lia. }
    by destruct t.
  - assert (1 <= length right)%nat; [|rewrite length_app in Hk1; lia]. unfold right in *.
    destruct (starts_hat r); [cbn; lia|]. destruct (first_token r 2 [] Hpr) as (t' & q' & E & Ht' & _). rewrite app_nil_r in E.
    cbn [paren]. destruct (print 2 r); [|cbn; lia]. cbn in E. by injection E as <- _; destruct Ht'.
Qed.

Lemma reads0_or l r : reads0 l -> reads1 r -> printable r = true -> reads0 (OR l r).
Proof.
  intros Hl Hr Hpr k rest st Hb Hrest Hk. cbn [print paren Nat.ltb Nat.leb] in Hb, Hk. rewrite <-!app_assoc in Hb, Hk.
  destruct (Hl k (str "|" ++ print 1 r ++ rest) st Hb) as (k1 & s1 & E1 & Hb1 & Hk1); [by eexists TOr, _|done|].
  destruct (first_token r 1 rest Hpr) as (t & q & Ht & _).
  destruct (move _ TOr _ _ Hb1 eq_refl) as (Et & s2 & E2 & Hb2); [by exists t, q|]. cbn in Hk1. destruct k1 as [|k1]; [lia|].
  destruct (Hr k1 rest s2 Hb2) as (k3 & s3 & E3 & Hb3 & Hk3); [|lia|].
  { eapply token_in_weaken; [|exact Hrest]. intros u Hu. by apply andb_prop in Hu as [? _]. }
  exists k1, s3. split_and!; [|done|rewrite length_app in Hk1; lia]. rewrite E1. cbn [alt]. unfold lbind at 1, lget. rewrite Et.
  rewrite (lbind_step _ _ _ _ _ E2). rewrite (concat_stops k3 r s3 rest Hb3 Hrest) in E3 by lia.
  unfold lbind in *. destruct (primary k1 s2) as [x s4| |]; [|done..]. by rewrite E3.
Qed.

Lemma print_reads np : printable np = true -> reads2 np /\ reads1 np /\ reads0 np.
Proof.
  assert (Hunary : forall np, print 1 np = print 2 np -> print 0 np = print 1 np -> printable np = true -> reads2 np ->
    reads2 np /\ reads1 np /\ reads0 np).
  { intros np' H12 H01 Hp H2. assert (H1 : reads1 np') by by apply reads1_of_2. split_and!; [done..|by apply reads0_of_1]. }
  induction np as [l info|np IH|np IH|np IH|l IHl r IHr|l IHl r IHr]; intros Hp.
  - apply Hunary; [done..|]. by apply reads2_leaf.
  - apply Hunary; [done..|]. by eapply (reads2_postfix np STAR "*" TStar); [intros k n st E; cbn; by rewrite E|..|apply IH].
  - apply Hunary; [done..|]. by eapply (reads2_postfix np PLUS "+" TPlus); [intros k n st E; cbn; by rewrite E|..|apply IH].
  - apply Hunary; [done..|]. by eapply (reads2_postfix np QUEST "?" TQuest); [intros k n st E; cbn; by rewrite E|..|apply IH].
  - pose proof Hp as Hp'. cbn in Hp. apply andb_prop in Hp as [Hl Hr]. destruct (IHl Hl) as (L2 & L1 & L0), (IHr Hr) as (R2 & R1 & R0).
    assert (H1 : reads1 (CAT l r)) by by apply reads1_cat. assert (H0 : reads0 (CAT l r)) by by apply reads0_of_1.
    split_and!; [|done..]. intros k rest st Hb Hrest Hk. by apply (reads_paren (CAT l r) k rest st).
  - pose proof Hp as Hp'. cbn in Hp. apply andb_prop in Hp as [Hl Hr]. destruct (IHl Hl) as (L2 & L1 & L0), (IHr Hr) as (R2 & R1 & R0).
    assert (H0 : reads0 (OR l r)) by by apply reads0_or.
    assert (H2 : reads2 (OR l r)) by (intros k rest st Hb Hrest Hk; by apply (reads_paren (OR l r) k rest st)).
    split_and!; [done| |done]. by apply reads1_of_2.
Qed.

(** C38: patterns are read as they are written.  The text of every tree of
    characters, classes, the signs for the beginning and the end, repetitions,
    sequences and alternatives is parsed to that tree. *)
Theorem reparse_print np :
  printable np = true -> exists st, reparse (print 0 np) = Ret np st.
Proof.
  intros Hp. destruct (print_reads np Hp) as (_ & _ & H0).
  destruct (first_token np 0 [] Hp) as (t & q & Ht & Hop & _). rewrite app_nil_r in Ht. set (p := print 0 np) in *.
  set (s1 := {| rtok := t; prestr := q |}).
  assert (E1 : next {| rtok := TEnd; prestr := p |} = Ret tt s1) by (unfold next; cbn [prestr]; by rewrite Ht).
  destruct (H0 (3 * length p + 3)%nat [] s1) as (k & s2 & E2 & Hb2 & Hk).
  { unfold before. rewrite app_nil_r. done. }
  { by exists TEnd, []. }
  { rewrite app_nil_r. fold p. lia. }
  exists s2. unfold reparse. rewrite (lbind_step _ _ _ _ _ E1). unfold lbind at 1, lget. fold s1.
  assert (Ere : regexp (3 * length p + 4) s1 = Ret np s2).
  { replace (3 * length p + 4)%nat with (S (3 * length p + 3)) by lia. cbn [regexp]. rewrite E2.
    destruct (next_before _ _ _ Hb2 TEnd eq_refl) as [Et2 _]. destruct k as [|k]; [cbn in Hk; lia|]. cbn. by rewrite Et2. }
  destruct (next_before _ _ _ Hb2 TEnd eq_refl) as [Et2 _].
  assert (Hfin : (let* np := regexp (3 * length p + 4) in let* st := lget in match rtok st with TEnd => lret np
      | _ => FATAL "syntax error in regular expression %s at %s" end) s1 = Ret np s2).
  { rewrite (lbind_step _ _ _ _ _ Ere). unfold lbind, lget. by rewrite Et2. }
  cbn [rtok s1]. destruct Hop as [Hop| ->]; [|done]. by destruct t.
Qed.

Definition sample_pattern : node :=
  CAT (CAT (op (CHAR HAT)) (STAR (OR (CAT (op (CHAR 97)) (op (CHAR 98))) (op (CCL (str "cd")))))) (op (CHAR 0)).

Lemma reparse_print_witness : exists st, reparse (str "^(ab|[cd])*$") = Ret sample_pattern st.
Proof.
  replace (str "^(ab|[cd])*$") with (print 0 sample_pattern) by (vm_compute; reflexivity).
  apply (reparse_print sample_pattern). vm_compute. reflexivity.
Defined.

(** ** Ranges *)

Lemma push_range_elem k b bp c :
  0 <= b -> b + Z.of_nat k < 256 -> c ∈ push_range k b bp <-> b < zc c <= b + Z.of_nat k \/ c ∈ bp.
Proof.
  revert b bp. induction k as [|k IH]; intros b bp Hb Hk; cbn [push_range]; [split; [auto|intros [?|?]; [lia|done]]|].
  rewrite IH by lia. rewrite elem_of_cons. unfold byte. rewrite wrap_small by (unfold fits; lia).
  assert (c = cz (b + 1) <-> zc c = b + 1) as ->; [|intuition lia].
  split; [intros ->; apply zc_cz; lia|]. intros <-. by rewrite cz_zc.
Qed.

Lemma push_range_text k b bp : 0 <= b -> b + Z.of_nat k < 256 -> is_text bp -> is_text (push_range k b bp).
Proof.
  revert b bp. induction k as [|k IH]; intros b bp Hb Hk Hbp; [done|]. cbn. apply IH; [lia..|]. constructor; [|done].
  unfold byte. rewrite wrap_small by (unfold fits; lia). rewrite zc_cz; lia.
Qed.

(** A range stands for the characters between its ends. *)
Lemma cclenter_range a b :
  zc a <> 0 -> a <> "\"%char -> b <> "\"%char -> zc a <= zc b ->
  exists s, cclenter [a; "-"%char; b] = Some s /\ forall c, c ∈ s <-> zc a <= zc c <= zc b.
Proof.
  intros H0 Ha Hb Hab. unfold cclenter. cbn [length ccl_loop]. rewrite bool_decide_eq_false_2 by done.
  rewrite (bool_decide_eq_false_2 ("-"%char = _)) by done. rewrite (bool_decide_eq_true_2 ("-"%char = _)) by done.
  rewrite (proj2 (Z.eqb_neq _ _) H0). cbn [negb andb]. rewrite (bool_decide_eq_false_2 (b = _)) by done.
  rewrite (proj2 (Z.ltb_ge _ _)) by lia. pose proof (zc_bound a). pose proof (zc_bound b).
  eexists. split; [done|]. intros c. rewrite tostring_text.
  - rewrite list_elem_of_In, <-in_rev, <-list_elem_of_In, push_range_elem by lia. rewrite list_elem_of_singleton.
    assert (c = a <-> zc c = zc a) as -> by (split; [congruence|apply zc_inj]). lia.
  - apply Forall_rev. apply push_range_text; [lia..|]. by repeat constructor.
Qed.

(** ** Departures from the documented syntax *)

(** The backslash is missing from the class of punctuation characters: the bytes of
    a named class are interpreted once more by [cclenter], where it quotes the
    bracket that follows. *)
Lemma punct_misses_backslash :
  match reparse (str "[[:punct:]]") with
  | Ret (Leaf (CCL s) _) _ => bool_decide ("]"%char ∈ s) && bool_decide ("\"%char ∉ s)
  | _ => false
  end = true.
Proof. vm_compute. reflexivity. Qed.

(** The class of control characters is empty, since the NUL that comes first ends
    the string; an empty class matches the empty text. *)
Lemma cntrl_is_empty : exists st, reparse (str "[[:cntrl:]]") = Ret (op (CCL [])) st.
Proof. eexists. vm_compute. reflexivity. Qed.

(** A backslash at the end of a pattern makes the scanner read behind it. *)
Lemma backslash_at_end : reparse (str "a\") = Crash.
Proof. vm_compute. reflexivity. Qed.

(** The octal code 405 is the code of the sign for the beginning. *)
Lemma octal_hat : exists st, reparse (str "\405") = Ret (op (CHAR HAT)) st.
Proof. eexists. vm_compute. reflexivity. Qed.
