(* ===== verification/AwkFollow.v ===== *)
(** * Regular expressions of nawk: positions ([b.c])

    The leaves of a syntax tree are its positions.  [penter] numbers them, and
    [cfoll] computes for each the set of the positions that can follow it, by
    [first] and [follow].  The sets are built in the array [setvec], whose length is
    [maxsetvec].  The parent pointers of the tree are the list of frames from a node
    up to the root.  The second part defines the texts that a tree matches, and
    shows that the sets are those of the positions that can come next. *)

From S2P Require Import Prelude Util AwkRegex.
Open Scope Z_scope.
Open Scope ndk_scope.

(** ** The arrays *)

Definition MAXLIN : nat := 22.

(** The array [setvec] of [maxsetvec] elements, and the number of its elements that
    are set. *)
Record scratch := { setvec : list bool; setcnt : nat }.

Definition maxsetvec (st : scratch) : nat := length (setvec st).

(** The size after the loops that multiply it by 4 while an index does not fit. *)
Fixpoint grown (fuel need m : nat) : nat :=
  match fuel with
  | O => m
  | S fuel => if (need <? m)%nat then m else grown fuel need (m * 4)
  end.

(** The loops with [realloc]; [tmpset] always has the same size.  The new elements
    are not initialised: every use of the array clears the ones it reads. *)
Definition grow (need : nat) : M scratch unit := fun st =>
  let m := maxsetvec st in
  Ret tt {| setvec := setvec st ++ replicate (grown (S need) need m - m) false; setcnt := setcnt st |}.

(** The first [n] elements are set to 0. *)
Definition clear (n : nat) : M scratch unit := fun st =>
  if (n <=? maxsetvec st)%nat then Ret tt {| setvec := replicate n false ++ drop n (setvec st); setcnt := 0 |}
  else Crash.

(** The element [lp] is set to 1 and counted. *)
Definition mark (lp : nat) : M scratch unit := fun st =>
  match setvec st !! lp with
  | None => Crash
  | Some true => Ret tt st
  | Some false => Ret tt {| setvec := <[lp := true]> (setvec st); setcnt := S (setcnt st) |}
  end.

Definition unmark (lp : nat) : M scratch unit := fun st =>
  match setvec st !! lp with
  | None => Crash
  | Some _ => Ret tt {| setvec := <[lp := false]> (setvec st); setcnt := setcnt st |}
  end.

(** The indices that are set, from [accept] down to 0. *)
Definition marked (accept : nat) (v : list bool) : list nat :=
  base.filter (fun i => v !! i = Some true) (rev (seq 0 (S accept))).

(** ** Positions *)

Fixpoint penter (p : node) (poscnt : nat) : node * nat :=
  match p with
  | Leaf l _ => (Leaf l poscnt, S poscnt)
  | STAR p => let '(p, n) := penter p poscnt in (STAR p, n)
  | PLUS p => let '(p, n) := penter p poscnt in (PLUS p, n)
  | QUEST p => let '(p, n) := penter p poscnt in (QUEST p, n)
  | CAT l r =>
      let '(l, n) := penter l poscnt in
      let '(r, n) := penter r n in (CAT l r, n)
  | OR l r =>
      let '(l, n) := penter l poscnt in
      let '(r, n) := penter r n in (OR l r, n)
  end.

(** The parent of a node: its operator, and the other child. *)
Inductive frame :=
| InStar
| InPlus
| InQuest
| CatLeft (r : node)
| CatRight (l : node)
| OrLeft (r : node)
| OrRight (l : node).

Definition parent (v : node) (f : frame) : node :=
  match f with
  | InStar => STAR v
  | InPlus => PLUS v
  | InQuest => QUEST v
  | CatLeft r => CAT v r
  | CatRight l => CAT l v
  | OrLeft r => OR v r
  | OrRight l => OR l v
  end.

(** [false] is the result 0: the node matches the empty text. *)
Fixpoint first (p : node) : M scratch bool :=
  match p with
  | Leaf l lp =>
      let* st := lget in
      do* grow (Nat.max (setcnt st) lp) in
      match l with
      | EMPTYRE => do* unmark lp in lret false
      | _ => do* mark lp in lret (negb (bool_decide (l = CCL [])))
      end
  | PLUS p => first p
  | STAR p | QUEST p => do* first p in lret false
  | CAT l r => let* b := first l in if b then lret true else first r
  | OR l r => let* b := first r in let* a := first l in lret (a && b)
  end.

Definition is_final (v : node) : bool := match v with Leaf FINAL _ => true | _ => false end.

Fixpoint follow (ctx : list frame) (v : node) : M scratch unit :=
  if is_final v then lret tt
  else
    match ctx with
    | [] => lcrash
    | f :: up =>
        let p := parent v f in
        match f with
        | InStar | InPlus => do* first v in follow up p
        | OrLeft _ | OrRight _ | InQuest => follow up p
        | CatLeft r => let* b := first r in if b then lret tt else follow up p
        | CatRight _ => follow up p
        end
    end.

(** The row of a position: its leaf and the positions that follow it, in
    descending order; the number of these comes first in the C array. *)
Record rrow := { ltype : leaf; lfollow : list nat }.

(** The array of [setcnt] elements that receives the indices that are set. *)
Definition fill_set (accept : nat) : M scratch (list nat) := fun st =>
  let elems := marked accept (setvec st) in
  if (length elems <=? setcnt st)%nat then Ret (elems ++ replicate (setcnt st - length elems) 0%nat) st else Crash.

Fixpoint cfoll (accept : nat) (ctx : list frame) (v : node) (re : list (option rrow)) : M scratch (list (option rrow)) :=
  match v with
  | Leaf l info =>
      do* grow accept in
      do* clear (S accept) in
      do* follow ctx v in
      let* p := fill_set accept in
      if (info <? length re)%nat then lret (<[info := Some {| ltype := l; lfollow := p |}]> re) else lcrash
  | STAR p => cfoll accept (InStar :: ctx) p re
  | PLUS p => cfoll accept (InPlus :: ctx) p re
  | QUEST p => cfoll accept (InQuest :: ctx) p re
  | CAT l r => let* re := cfoll accept (CatLeft r :: ctx) l re in cfoll accept (CatRight l :: ctx) r re
  | OR l r => let* re := cfoll accept (OrLeft r :: ctx) l re in cfoll accept (OrRight l :: ctx) r re
  end.

(** The tree of a pattern, with any text before it and an end after it. *)
Definition search_tree (p : node) : node := CAT (CAT (STAR (op ALL)) p) (op FINAL).

(** ** What a tree matches *)

(** The characters that a leaf stands for. *)
Definition reads_char (l : leaf) (c : Z) : Prop :=
  match l with
  | CHAR v => c = v
  | DOT => c <> 0 /\ c <> HAT
  | ALL => c <> 0
  | CCL s => exists x, x ∈ s /\ zc x = c /\ c <> 0
  | NCCL s => (forall x, x ∈ s -> zc x <> c) /\ c <> 0 /\ c <> HAT
  | FINAL | EMPTYRE => False
  end.

(** The symbol [None] is the end, which only [FINAL] reads. *)
Definition reads_sym (l : leaf) (x : option Z) : Prop :=
  match x with Some c => reads_char l c | None => l = FINAL end.

(** The words of a tree: lists of characters and ends. *)
Inductive matches : node -> list (option Z) -> Prop :=
| MLeaf l i x : reads_sym l x -> matches (Leaf l i) [x]
| MEmptyre i : matches (Leaf EMPTYRE i) []
| MEmptyClass i : matches (Leaf (CCL []) i) []
| MStar0 p : matches (STAR p) []
| MStarS p w1 w2 : matches p w1 -> matches (STAR p) w2 -> matches (STAR p) (w1 ++ w2)
| MPlus p w1 w2 : matches p w1 -> matches (STAR p) w2 -> matches (PLUS p) (w1 ++ w2)
| MQuest0 p : matches (QUEST p) []
| MQuest1 p w : matches p w -> matches (QUEST p) w
| MCat l r w1 w2 : matches l w1 -> matches r w2 -> matches (CAT l r) (w1 ++ w2)
| MOrL l r w : matches l w -> matches (OR l r) w
| MOrR l r w : matches r w -> matches (OR l r) w.
#[local] Hint Constructors matches : core.

Fixpoint nullable (p : node) : bool :=
  match p with
  | Leaf l _ => bool_decide (l = EMPTYRE) || bool_decide (l = CCL [])
  | STAR _ | QUEST _ => true
  | PLUS p => nullable p
  | CAT l r => nullable l && nullable r
  | OR l r => nullable l || nullable r
  end.

Lemma matches_nil p : matches p [] <-> nullable p = true.
Proof.
  split.
  - intros H. remember [] as w eqn:Ew. revert Ew.
    induction H as [| | | |? ? ? ? IH1 ? IH2|? ? ? ? IH1 ? IH2| | |? ? ? ? ? IH1 ? IH2|? ? ? ? IH|? ? ? ? IH]; intros Ew; cbn; try done; try (apply app_eq_nil in Ew as [-> ->]); auto.
    + by rewrite IH1, IH2.
    + by rewrite IH.
    + rewrite IH by done. by rewrite orb_true_r.
  - induction p as [l i|p IH|p IH|p IH|l IHl r IHr|l IHl r IHr]; cbn; intros Hn; auto.
    + apply orb_prop in Hn as [Hn|Hn]; apply bool_decide_eq_true_1 in Hn; subst; auto.
    + change (@nil (option Z)) with (@nil (option Z) ++ []). auto.
    + apply andb_prop in Hn as [??]. change (@nil (option Z)) with (@nil (option Z) ++ []). auto.
    + apply orb_prop in Hn as [?|?]; auto.
Qed.

(** A word of an iteration that is not empty starts with a word that is not. *)
Lemma star_head p w :
  matches (STAR p) w -> w <> [] -> exists w1 w2, w = w1 ++ w2 /\ w1 <> [] /\ matches p w1 /\ matches (STAR p) w2.
Proof.
  intros H. remember (STAR p) as v eqn:Ev. revert Ev.
  induction H as [| | | |? w1 w2 H1 IH1 H2 IH2| | | | | |]; intros Ev Hne; try done. injection Ev as ->.
  destruct w1 as [|x w1]; [by apply IH2|]. exists (x :: w1), w2. auto.
Qed.

(** ** Occurrences *)

(** A leaf in its place: the frames up to the root, the leaf and its index. *)
Record occurrence := { place : list frame; what : leaf; index : nat }.

(** The words that can come after a node, up to the end of the tree. *)
Fixpoint after (ctx : list frame) (v : node) (w : list (option Z)) : Prop :=
  match ctx with
  | [] => w = []
  | f :: up =>
      match f with
      | InStar | InPlus => exists w1 w2, w = w1 ++ w2 /\ matches (STAR v) w1 /\ after up (parent v f) w2
      | CatLeft r => exists w1 w2, w = w1 ++ w2 /\ matches r w1 /\ after up (parent v f) w2
      | _ => after up (parent v f) w
      end
  end.

(** The leaves of a node that can read its first symbol. *)
Fixpoint firsts (ctx : list frame) (v : node) : list occurrence :=
  match v with
  | Leaf l i => if bool_decide (l = EMPTYRE) then [] else [{| place := ctx; what := l; index := i |}]
  | STAR p => firsts (InStar :: ctx) p
  | PLUS p => firsts (InPlus :: ctx) p
  | QUEST p => firsts (InQuest :: ctx) p
  | CAT l r => firsts (CatLeft r :: ctx) l ++ (if nullable l then firsts (CatRight l :: ctx) r else [])
  | OR l r => firsts (OrLeft r :: ctx) l ++ firsts (OrRight l :: ctx) r
  end.

(** The leaves that can read the first symbol after a node. *)
Fixpoint follows (ctx : list frame) (v : node) : list occurrence :=
  match ctx with
  | [] => []
  | f :: up =>
      match f with
      | InStar | InPlus => firsts ctx v ++ follows up (parent v f)
      | CatLeft r => firsts (CatRight v :: up) r ++ (if nullable r then follows up (parent v f) else [])
      | _ => follows up (parent v f)
      end
  end.

(** Something that is not empty must come after the node. *)
Fixpoint stops (ctx : list frame) : bool :=
  match ctx with
  | [] => false
  | CatLeft r :: up => negb (nullable r) || stops up
  | _ :: up => stops up
  end.

(** One of the leaves reads the first symbol of a word, and the rest comes after. *)
Definition starts (os : list occurrence) (w : list (option Z)) : Prop :=
  exists o x w', o ∈ os /\ w = x :: w' /\ reads_sym (what o) x /\ after (place o) (Leaf (what o) (index o)) w'.

Lemma starts_app os os' w : starts (os ++ os') w <-> starts os w \/ starts os' w.
Proof. unfold starts. setoid_rewrite elem_of_app. naive_solver. Qed.

Lemma starts_nil w : ~ starts [] w.
Proof. intros (o & x & w' & Ho & _). by apply not_elem_of_nil in Ho. Qed.

Lemma starts_singleton o w :
  starts [o] w <-> exists x w', w = x :: w' /\ reads_sym (what o) x /\ after (place o) (Leaf (what o) (index o)) w'.
Proof. unfold starts. setoid_rewrite list_elem_of_singleton. naive_solver. Qed.

(** A word that starts in a node starts with one of its first leaves. *)
Lemma firsts_complete v ctx w1 w2 :
  matches v w1 -> w1 <> [] -> after ctx v w2 -> starts (firsts ctx v) (w1 ++ w2).
Proof.
  revert ctx w1 w2. induction v as [l i|p IH|p IH|p IH|l IHl r IHr|l IHl r IHr]; intros ctx w1 w2 Hm Hne Ha; cbn [firsts].
  - inversion Hm as [? ? x Hx| | | | | | | | | |]; subst; try done.
    rewrite bool_decide_eq_false_2 by (intros ->; by destruct x). apply starts_singleton. exists x, w2. auto.
  - apply star_head in Hm as (u1 & u2 & -> & Hu1 & Hp & Hs); [|done]. rewrite <-app_assoc. apply IH; [done..|]. cbn. by exists u2, w2.
  - inversion Hm as [| | | | |? u1 u2 Hp Hs| | | | |]; subst. destruct u1 as [|x u1].
    + cbn in *. apply star_head in Hs as (u1 & u2' & -> & Hu1 & Hp' & Hs'); [|done]. rewrite <-app_assoc. apply IH; [done..|]. cbn. by exists u2', w2.
    + rewrite <-app_assoc. apply IH; [done..|]. cbn. by exists u2, w2.
  - inversion Hm as [| | | | | | |? ? Hp| | |]; subst; [done|]. by apply IH.
  - inversion Hm as [| | | | | | | |? ? u1 u2 Hl Hr| |]; subst. apply starts_app. destruct u1 as [|x u1].
    + right. rewrite (proj1 (matches_nil l) Hl). cbn in *. by apply IHr.
    + left. rewrite <-app_assoc. apply IHl; [done..|]. cbn. by exists u2, w2.
  - apply starts_app. inversion Hm as [| | | | | | | | |? ? ? Hl|? ? ? Hr]; subst; [left; by apply IHl|right; by apply IHr].
Qed.

Lemma matches_star_app p w1 w2 : matches p w1 -> matches (STAR p) w2 -> matches (STAR p) (w1 ++ w2).
Proof. auto. Qed.

Lemma firsts_sound v ctx w :
  starts (firsts ctx v) w -> exists w1 w2, w = w1 ++ w2 /\ matches v w1 /\ after ctx v w2.
Proof.
  revert ctx w. induction v as [l i|p IH|p IH|p IH|l IHl r IHr|l IHl r IHr]; intros ctx w Hs; cbn [firsts] in Hs.
  - case_bool_decide as Hl; [by apply starts_nil in Hs|]. apply starts_singleton in Hs as (x & w' & -> & Hx & Ha).
    exists [x], w'. auto.
  - apply IH in Hs as (w1 & w2 & -> & Hp & w3 & w4 & -> & Hs & Ha). exists (w1 ++ w3), w4. rewrite app_assoc. auto.
  - apply IH in Hs as (w1 & w2 & -> & Hp & w3 & w4 & -> & Hs & Ha). exists (w1 ++ w3), w4. rewrite app_assoc. auto.
  - apply IH in Hs as (w1 & w2 & -> & Hp & Ha). exists w1, w2. auto.
  - apply starts_app in Hs as [Hs|Hs].
    + apply IHl in Hs as (w1 & w2 & -> & Hl & w3 & w4 & -> & Hr & Ha). exists (w1 ++ w3), w4. rewrite app_assoc. auto.
    + destruct (nullable l) eqn:En; [|by apply starts_nil in Hs]. apply IHr in Hs as (w1 & w2 & -> & Hr & Ha).
      exists w1, w2. split_and!; [done| |done]. change w1 with ([] ++ w1). constructor; [by apply matches_nil|done].
  - apply starts_app in Hs as [Hs|Hs]; [apply IHl in Hs|apply IHr in Hs]; destruct Hs as (w1 & w2 & -> & Hm & Ha); exists w1, w2; auto.
Qed.

(** What can come after a node starts with one of the leaves that follow it. *)
Lemma follows_complete ctx v w : stops ctx = true -> after ctx v w -> starts (follows ctx v) w.
Proof.
  revert v w. induction ctx as [|f up IH]; intros v w Hst Ha; [done|]. destruct f as [| | |r|l|r|l]; cbn in Hst, Ha |- *; try (by apply IH).
  - destruct Ha as (w1 & w2 & -> & Hs & Ha). apply starts_app. destruct w1 as [|x w1]; [right; by apply IH|left].
    apply star_head in Hs as (u1 & u2 & E & Hu1 & Hp & Hs); [|done]. rewrite E, <-app_assoc. apply firsts_complete; [done..|]. cbn. by exists u2, w2.
  - destruct Ha as (w1 & w2 & -> & Hs & Ha). apply starts_app. destruct w1 as [|x w1]; [right; by apply IH|left].
    apply star_head in Hs as (u1 & u2 & E & Hu1 & Hp & Hs); [|done]. rewrite E, <-app_assoc. apply firsts_complete; [done..|]. cbn. by exists u2, w2.
  - destruct Ha as (w1 & w2 & -> & Hr & Ha). apply starts_app. destruct w1 as [|x w1].
    + right. apply matches_nil in Hr. rewrite Hr in *. by apply IH.
    + left. by apply firsts_complete.
Qed.

Lemma follows_sound ctx v w : starts (follows ctx v) w -> after ctx v w.
Proof.
  revert v w. induction ctx as [|f up IH]; intros v w Hs; [by apply starts_nil in Hs|]. destruct f as [| | |r|l|r|l]; cbn in Hs |- *; try (by apply IH).
  - apply starts_app in Hs as [Hs|Hs]; [|exists [], w; split_and!; [done|done|by apply IH]].
    apply firsts_sound in Hs as (w1 & w2 & -> & Hm & w3 & w4 & -> & Hs & Ha). exists (w1 ++ w3), w4. rewrite app_assoc. auto.
  - apply starts_app in Hs as [Hs|Hs]; [|exists [], w; split_and!; [done|done|by apply IH]].
    apply firsts_sound in Hs as (w1 & w2 & -> & Hm & w3 & w4 & -> & Hs & Ha). exists (w1 ++ w3), w4. rewrite app_assoc. auto.
  - apply starts_app in Hs as [Hs|Hs]; [by apply firsts_sound in Hs|].
    destruct (nullable r) eqn:En; [|by apply starts_nil in Hs]. exists [], w. split_and!; [done|by apply matches_nil|by apply IH].
Qed.

(** ** All the leaves of a tree *)

Fixpoint occs (ctx : list frame) (v : node) : list occurrence :=
  match v with
  | Leaf l i => [{| place := ctx; what := l; index := i |}]
  | STAR p => occs (InStar :: ctx) p
  | PLUS p => occs (InPlus :: ctx) p
  | QUEST p => occs (InQuest :: ctx) p
  | CAT l r => occs (CatLeft r :: ctx) l ++ occs (CatRight l :: ctx) r
  | OR l r => occs (OrLeft r :: ctx) l ++ occs (OrRight l :: ctx) r
  end.

(** The root of the tree that a node is in. *)
Fixpoint plug (ctx : list frame) (v : node) : node :=
  match ctx with
  | [] => v
  | f :: up => plug up (parent v f)
  end.

Lemma occs_parent f up v o : o ∈ occs (f :: up) v -> o ∈ occs up (parent v f).
Proof. destruct f; cbn; rewrite ?elem_of_app; auto. Qed.

Lemma occs_plug ctx v o : o ∈ occs ctx v -> o ∈ occs [] (plug ctx v).
Proof. revert v. induction ctx as [|f up IH]; intros v Ho; [done|]. cbn. by apply IH, occs_parent. Qed.

Lemma firsts_occs ctx v o : o ∈ firsts ctx v -> o ∈ occs ctx v /\ what o <> EMPTYRE.
Proof.
  revert ctx. induction v as [l i|p IH|p IH|p IH|l IHl r IHr|l IHl r IHr]; intros ctx Ho; cbn in *; auto.
  - case_bool_decide; [by apply not_elem_of_nil in Ho|]. apply list_elem_of_singleton in Ho as ->. split; [by left|done].
  - rewrite elem_of_app in *. destruct Ho as [Ho|Ho]; [apply IHl in Ho; naive_solver|].
    destruct (nullable l); [apply IHr in Ho; naive_solver|by apply not_elem_of_nil in Ho].
  - rewrite elem_of_app in *. destruct Ho as [Ho|Ho]; [apply IHl in Ho|apply IHr in Ho]; naive_solver.
Qed.

Lemma follows_occs ctx v o : o ∈ follows ctx v -> o ∈ occs [] (plug ctx v) /\ what o <> EMPTYRE.
Proof.
  assert (Hf : forall ctx' v', o ∈ firsts ctx' v' -> o ∈ occs [] (plug ctx' v') /\ what o <> EMPTYRE).
  { intros ctx' v' Ho%firsts_occs. destruct Ho as [Ho ?]. split; [by apply occs_plug|done]. }
  revert v. induction ctx as [|f up IH]; intros v Ho; [by apply not_elem_of_nil in Ho|].
  destruct f as [| | |r|l|r|l]; cbn in Ho |- *; try (by apply IH); rewrite elem_of_app in Ho.
  - destruct Ho as [Ho|Ho]; [by apply Hf in Ho|by apply IH].
  - destruct Ho as [Ho|Ho]; [by apply Hf in Ho|by apply IH].
  - destruct Ho as [Ho|Ho]; [by apply Hf in Ho|]. destruct (nullable r); [by apply IH|by apply not_elem_of_nil in Ho].
Qed.

(** The place of a leaf leads to the root. *)
Lemma occs_place ctx v o : o ∈ occs ctx v -> plug (place o) (Leaf (what o) (index o)) = plug ctx v.
Proof.
  revert ctx. induction v as [l i|p IH|p IH|p IH|l IHl r IHr|l IHl r IHr]; intros ctx Ho; cbn in Ho.
  - by apply list_elem_of_singleton in Ho as ->.
  - by rewrite (IH _ Ho).
  - by rewrite (IH _ Ho).
  - by rewrite (IH _ Ho).
  - apply elem_of_app in Ho as [Ho|Ho]; [by rewrite (IHl _ Ho)|by rewrite (IHr _ Ho)].
  - apply elem_of_app in Ho as [Ho|Ho]; [by rewrite (IHl _ Ho)|by rewrite (IHr _ Ho)].
Qed.

(** [penter] numbers the leaves in order. *)
Lemma penter_indices ctx p n :
  (n <= (penter p n).2)%nat /\ map index (occs ctx (penter p n).1) = seq n ((penter p n).2 - n).
Proof.
  revert ctx n. induction p as [l i|p IH|p IH|p IH|l IHl r IHr|l IHl r IHr]; intros ctx n; cbn [penter].
  - cbn -[seq Nat.sub]. split; [lia|]. by replace (S n - n)%nat with 1%nat by lia.
  - specialize (IH (InStar :: ctx) n). by destruct (penter p n).
  - specialize (IH (InPlus :: ctx) n). by destruct (penter p n).
  - specialize (IH (InQuest :: ctx) n). by destruct (penter p n).
  - specialize (fun r => IHl (CatLeft r :: ctx) n). destruct (penter l n) as [l' n1]. specialize (IHr (CatRight l' :: ctx) n1).
    destruct (penter r n1) as [r' n2]. cbn -[seq Nat.sub] in *. destruct (IHl r') as [H1 E1], IHr as [H2 E2]. split; [lia|].
    rewrite map_app, E1, E2. replace (n2 - n)%nat with ((n1 - n) + (n2 - n1))%nat by lia. rewrite seq_app. do 2 f_equal. lia.
  - specialize (fun r => IHl (OrLeft r :: ctx) n). destruct (penter l n) as [l' n1]. specialize (IHr (OrRight l' :: ctx) n1).
    destruct (penter r n1) as [r' n2]. cbn -[seq Nat.sub] in *. destruct (IHl r') as [H1 E1], IHr as [H2 E2]. split; [lia|].
    rewrite map_app, E1, E2. replace (n2 - n)%nat with ((n1 - n) + (n2 - n1))%nat by lia. rewrite seq_app. do 2 f_equal. lia.
Qed.

Lemma star_mono p q w : (forall w, matches p w -> matches q w) -> matches (STAR p) w -> matches (STAR q) w.
Proof.
  intros Hpq H. remember (STAR p) as v eqn:Ev. revert Ev. induction H; intros Ev; try done; injection Ev as ->; auto.
Qed.

(** The numbers do not matter for what a tree matches. *)
Lemma penter_matches p n w : matches (penter p n).1 w <-> matches p w.
Proof.
  revert n w. induction p as [l i|p IH|p IH|p IH|l IHl r IHr|l IHl r IHr]; intros n w; cbn [penter].
  - cbn. split; inversion 1; auto.
  - specialize (IH n). destruct (penter p n) as [p' m]. cbn in *. split; apply star_mono; intros w'; apply IH.
  - specialize (IH n). destruct (penter p n) as [p' m]. cbn in *.
    split; inversion 1; subst; (apply MPlus; [by apply IH|]); (eapply star_mono; [|eassumption]); intros w'; apply IH.
  - specialize (IH n). destruct (penter p n) as [p' m]. cbn in *. split; inversion 1; subst; auto; apply MQuest1; by apply IH.
  - specialize (IHl n). destruct (penter l n) as [l' n1]. specialize (IHr n1). destruct (penter r n1) as [r' n2]. cbn in *.
    split; inversion 1; subst; (apply MCat; [by apply IHl|by apply IHr]).
  - specialize (IHl n). destruct (penter l n) as [l' n1]. specialize (IHr n1). destruct (penter r n1) as [r' n2]. cbn in *.
    split; inversion 1; subst; (apply MOrL; by apply IHl) || (apply MOrR; by apply IHr).
Qed.

(** ** The array holds a set *)

(** The descending list of the elements of a set that are at most [accept]. *)
Definition desc (accept : nat) (X : gset nat) : list nat := base.filter (fun i => i ∈ X) (rev (seq 0 (S accept))).

Definition indices (os : list occurrence) : gset nat := list_to_set (map index os).

Lemma elem_of_indices i os : i ∈ indices os <-> exists o, o ∈ os /\ index o = i.
Proof.
  unfold indices. rewrite elem_of_list_to_set, list_elem_of_In, in_map_iff. setoid_rewrite list_elem_of_In. naive_solver.
Qed.

Lemma indices_app os os' : indices (os ++ os') = indices os ∪ indices os'.
Proof. apply set_eq. intros i. rewrite elem_of_union, !elem_of_indices. setoid_rewrite elem_of_app. naive_solver. Qed.

Lemma elem_of_desc accept X i : i ∈ desc accept X <-> i ∈ X /\ (i <= accept)%nat.
Proof. unfold desc. rewrite list_elem_of_filter, list_elem_of_In, <-in_rev, in_seq. intuition lia. Qed.

Lemma desc_NoDup accept X : base.NoDup (desc accept X).
Proof. apply list.NoDup_filter. apply NoDup_ListNoDup, NoDup_rev, seq_NoDup. Qed.

Lemma desc_length accept X : (forall i, i ∈ X -> (i <= accept)%nat) -> length (desc accept X) = size X.
Proof.
  intros HX. rewrite <-(size_list_to_set (C := gset nat) (desc accept X)) by apply desc_NoDup.
  f_equal. apply set_eq. intros i. rewrite elem_of_list_to_set, elem_of_desc. naive_solver.
Qed.

Lemma grown_enough fuel need m : (1 <= m)%nat -> (need < m + fuel)%nat -> (need < grown fuel need m)%nat.
Proof.
  revert m. induction fuel as [|fuel IH]; intros m Hm Hf; cbn [grown]; [lia|]. destruct (Nat.ltb_spec need m); [done|]. apply IH; lia.
Qed.

Section Sets.
Context (accept : nat).

Definition holds (st : scratch) (X : gset nat) : Prop :=
  (accept < maxsetvec st)%nat /\
  (forall i, (i <= accept)%nat -> setvec st !! i = Some (bool_decide (i ∈ X))) /\
  (forall i, i ∈ X -> (i <= accept)%nat) /\
  setcnt st = size X.

Lemma grown_above fuel need m : (m <= grown fuel need m)%nat.
Proof.
  revert m. induction fuel as [|fuel IH]; intros m; cbn [grown]; [done|]. destruct (need <? m)%nat; [done|]. specialize (IH (m * 4)%nat). lia.
Qed.

Lemma grow_spec need st :
  exists st', grow need st = Ret tt st' /\ (maxsetvec st <= maxsetvec st')%nat /\ setcnt st' = setcnt st /\
    (forall X, holds st X -> holds st' X) /\ ((1 <= maxsetvec st)%nat -> (need < maxsetvec st')%nat) /\
    (grown (S need) need (maxsetvec st) <= maxsetvec st')%nat.
Proof.
  eexists. split; [done|]. unfold maxsetvec. cbn [setvec setcnt]. rewrite length_app, length_replicate. split_and!; [lia|done|..|lia].
  - intros X (H1 & H2 & H3 & H4). unfold holds, maxsetvec in *. cbn [setvec setcnt]. rewrite length_app, length_replicate.
    split_and!; [lia| |done..]. intros i Hi. rewrite lookup_app_l by lia. auto.
  - intros Hm. pose proof (grown_enough (S need) need (length (setvec st)) Hm ltac:(lia)). lia.
Qed.

Lemma clear_spec st : (accept < maxsetvec st)%nat -> exists st', clear (S accept) st = Ret tt st' /\ holds st' ∅ /\ maxsetvec st' = maxsetvec st.
Proof.
  unfold clear, holds, maxsetvec. intros Ha. destruct (Nat.leb_spec (S accept) (length (setvec st))); [|lia].
  eexists. split; [done|]. cbn [setvec setcnt]. rewrite length_app, length_replicate, length_drop. split; [split_and!|]; [lia| | | |lia].
  - intros i Hi. rewrite lookup_app_l by (rewrite length_replicate; lia). rewrite bool_decide_eq_false_2 by set_solver.
    apply lookup_replicate_2. lia.
  - set_solver.
  - done.
Qed.

Lemma mark_spec st X i :
  holds st X -> (i <= accept)%nat ->
  exists st', mark i st = Ret tt st' /\ holds st' (X ∪ {[i]}) /\ maxsetvec st' = maxsetvec st.
Proof.
  intros (H1 & H2 & H3 & H4) Hi. unfold mark. rewrite (H2 i Hi). case_bool_decide as Hin.
  - exists st. split_and!; [done| |done]. assert (X ∪ {[i]} = X) as -> by set_solver. done.
  - eexists. split; [done|]. unfold holds, maxsetvec in *. cbn [setvec setcnt]. rewrite length_insert. split; [split_and!|done].
    + done.
    + intros j Hj. destruct (decide (j = i)) as [->|Hne].
      * rewrite list_lookup_insert_eq by lia. by rewrite bool_decide_eq_true_2 by set_solver.
      * rewrite list_lookup_insert_ne by done. rewrite H2 by done. f_equal. apply bool_decide_ext. set_solver.
    + intros j. rewrite elem_of_union, elem_of_singleton. intros [?| ->]; [by apply H3|done].
    + rewrite H4, size_union by set_solver. rewrite size_singleton. lia.
Qed.

Lemma unmark_spec st X i :
  holds st X -> (i <= accept)%nat -> i ∉ X ->
  exists st', unmark i st = Ret tt st' /\ holds st' X /\ maxsetvec st' = maxsetvec st.
Proof.
  intros (H1 & H2 & H3 & H4) Hi Hin. unfold unmark. rewrite (H2 i Hi). eexists. split; [done|].
  unfold holds, maxsetvec in *. cbn [setvec setcnt]. rewrite length_insert. split; [split_and!; [done| |done..]|done].
  intros j Hj. destruct (decide (j = i)) as [->|Hne].
  - rewrite list_lookup_insert_eq by lia. by rewrite bool_decide_eq_false_2.
  - rewrite list_lookup_insert_ne by done. by apply H2.
Qed.

Lemma marked_desc st X : holds st X -> marked accept (setvec st) = desc accept X.
Proof.
  intros (H1 & H2 & H3 & H4). unfold marked, desc. assert (Hall : Forall (fun i => (i <= accept)%nat) (rev (seq 0 (S accept)))).
  { apply list.Forall_forall. intros i. rewrite list_elem_of_In, <-in_rev, in_seq. lia. }
  induction Hall as [|i l Hi _ IH]; [done|]. rewrite !filter_cons, IH. specialize (H2 i Hi).
  destruct (decide (i ∈ X)); rewrite H2; [rewrite bool_decide_eq_true_2 by done|rewrite bool_decide_eq_false_2 by done];
    by destruct (decide _).
Qed.

Lemma fill_set_spec st X : holds st X -> fill_set accept st = Ret (desc accept X) st.
Proof.
  intros HX. unfold fill_set. rewrite (marked_desc _ _ HX). destruct HX as (_ & _ & H3 & H4).
  rewrite (desc_length accept X H3), H4, Nat.leb_refl, Nat.sub_diag. by rewrite app_nil_r.
Qed.

(** ** [first] and [follow] *)

Section Tree.
Context (root : node).

(** The indices of the leaves are different, and at most [accept]. *)
Context (Hnodup : base.NoDup (map index (occs [] root))).
Context (Hbound : forall o, o ∈ occs [] root -> (index o <= accept)%nat).

Lemma index_inj o o' : o ∈ occs [] root -> o' ∈ occs [] root -> index o = index o' -> o = o'.
Proof.
  intros Ho Ho' E. apply NoDup_ListNoDup in Hnodup. apply list_elem_of_In in Ho, Ho'.
  revert Hnodup Ho Ho'. generalize (occs [] root) as l. induction l as [|x l IH]; intros Hn Ho Ho'; [done|].
  cbn in Hn. apply NoDup_cons_iff in Hn as [Hx Hn].
  destruct Ho as [->|Ho], Ho' as [->|Ho']; [done| | |by apply IH].
  - destruct Hx. rewrite E. by apply in_map.
  - destruct Hx. rewrite <-E. by apply in_map.
Qed.

(** Sets of indices of leaves other than [EMPTYRE]. *)
Definition live (X : gset nat) : Prop := forall i, i ∈ X -> exists o, o ∈ occs [] root /\ index o = i /\ what o <> EMPTYRE.

Lemma live_indices os : (forall o, o ∈ os -> o ∈ occs [] root /\ what o <> EMPTYRE) -> live (indices os).
Proof. intros Hos i (o & Ho & <-)%elem_of_indices. destruct (Hos o Ho). eauto. Qed.

Lemma live_union X Y : live X -> live Y -> live (X ∪ Y).
Proof. intros HX HY i [?|?]%elem_of_union; auto. Qed.

Lemma live_firsts ctx v : plug ctx v = root -> live (indices (firsts ctx v)).
Proof. intros Hr. apply live_indices. intros o [Ho ?]%firsts_occs. split; [rewrite <-Hr; by apply occs_plug|done]. Qed.

(** An operation that adds the indices of some leaves. *)
Definition adds {A} (c : M scratch A) (b : A) (os : list occurrence) : Prop := forall st X,
  holds st X -> live X ->
  exists st', c st = Ret b st' /\ holds st' (X ∪ indices os) /\ (maxsetvec st <= maxsetvec st')%nat.

Lemma adds_bind {A B} (c : M scratch A) (k : A -> M scratch B) a b os os' :
  adds c a os -> live (indices os) -> adds (k a) b os' -> adds (lbind c k) b (os ++ os').
Proof.
  intros Hc Hl Hk st X HX HlX. destruct (Hc st X HX HlX) as (s1 & E1 & H1 & M1).
  destruct (Hk s1 _ H1) as (s2 & E2 & H2 & M2); [by apply live_union|]. exists s2. rewrite (lbind_step _ _ _ _ _ E1).
  rewrite indices_app, (assoc_L (∪)). split_and!; [done..|lia].
Qed.

Lemma adds_ret {A} (b : A) : adds (lret b) b [].
Proof. intros st X HX _. exists st. assert (X ∪ indices [] = X) as -> by set_solver. done. Qed.

Lemma adds_app_nil {A} (c : M scratch A) b os : adds c b (os ++ []) -> adds c b os.
Proof. by rewrite app_nil_r. Qed.

Lemma adds_swap {A} (c : M scratch A) b os os' : adds c b (os ++ os') -> adds c b (os' ++ os).
Proof.
  intros Hc st X HX HlX. rewrite indices_app, (comm_L (∪) (indices os')), <-indices_app. by apply Hc.
Qed.

Lemma first_leaf_adds ctx l i : plug ctx (Leaf l i) = root -> adds (first (Leaf l i)) (negb (nullable (Leaf l i))) (firsts ctx (Leaf l i)).
Proof.
  intros Hr st X HX HlX. cbn [first firsts nullable].
  assert (Ho : {| place := ctx; what := l; index := i |} ∈ occs [] root) by (rewrite <-Hr; apply occs_plug; by left).
  unfold lbind at 1, lget. destruct (grow_spec (Nat.max (setcnt st) i) st) as (s1 & E1 & Hm1 & _ & Hh1 & _ & _).
  rewrite (lbind_step _ _ _ _ _ E1). specialize (Hh1 X HX). destruct (decide (l = EMPTYRE)) as [->|Hl].
  - rewrite !bool_decide_eq_true_2 by done. destruct (unmark_spec s1 X i Hh1) as (s2 & E2 & H2 & M2); [by apply (Hbound _ Ho)| |].
    { intros Hi. destruct (HlX i Hi) as (o & Ho' & Ei & Hw). by rewrite (index_inj o _ Ho' Ho Ei) in Hw. }
    exists s2. rewrite (lbind_step _ _ _ _ _ E2). assert (X ∪ indices [] = X) as -> by set_solver. split_and!; [done..|lia].
  - rewrite (bool_decide_eq_false_2 (l = EMPTYRE)) by done. cbn [orb].
    destruct (mark_spec s1 X i Hh1 (Hbound _ Ho)) as (s2 & E2 & H2 & M2). exists s2.
    assert (indices [{| place := ctx; what := l; index := i |}] = {[i]}) as -> by (unfold indices; cbn; set_solver).
    split_and!; [|done|lia]. destruct l; try done; by rewrite (lbind_step _ _ _ _ _ E2).
Qed.

Lemma first_adds ctx v : plug ctx v = root -> adds (first v) (negb (nullable v)) (firsts ctx v).
Proof.
  revert ctx. induction v as [l i|p IH|p IH|p IH|l IHl r IHr|l IHl r IHr]; intros ctx Hr.
  - by apply first_leaf_adds.
  - cbn. apply adds_app_nil. by eapply adds_bind; [apply IH|apply live_firsts|apply adds_ret].
  - cbn. by apply IH.
  - cbn. apply adds_app_nil. by eapply adds_bind; [apply IH|apply live_firsts|apply adds_ret].
  - cbn [first firsts nullable]. eapply adds_bind; [by apply (IHl (CatLeft r :: ctx))|by apply live_firsts|].
    destruct (nullable l); cbn; [by apply (IHr (CatRight l :: ctx))|apply adds_ret].
  - cbn [first firsts nullable]. apply adds_swap. eapply adds_bind; [by apply (IHr (OrRight l :: ctx))|by apply live_firsts|].
    apply adds_app_nil. eapply adds_bind; [by apply (IHl (OrLeft r :: ctx))|by apply live_firsts|].
    rewrite negb_orb. apply adds_ret.
Qed.

Lemma live_follows ctx v : plug ctx v = root -> live (indices (follows ctx v)).
Proof. intros Hr. apply live_indices. intros o Ho. rewrite <-Hr. by apply follows_occs. Qed.

Lemma follow_adds ctx v : plug ctx v = root -> stops ctx = true -> is_final v = false -> adds (follow ctx v) tt (follows ctx v).
Proof.
  revert v. induction ctx as [|f up IH]; intros v Hr Hst Hv; [done|].
  assert (Hup : stops up = true -> adds (follow up (parent v f)) tt (follows up (parent v f))) by (intros Hs; apply IH; [done..|by destruct f]).
  cbn [follow]. rewrite Hv. destruct f as [| | |r|l|r|l]; cbn [follows stops parent] in *; try (by apply Hup).
  - eapply adds_bind; [by apply (first_adds (InStar :: up))|by apply live_firsts|by apply Hup].
  - eapply adds_bind; [by apply (first_adds (InPlus :: up))|by apply live_firsts|by apply Hup].
  - eapply adds_bind; [by apply (first_adds (CatRight v :: up))|by apply live_firsts|].
    destruct (nullable r); cbn [negb orb] in *; [by apply Hup|apply adds_ret].
Qed.
(** ** The table of positions *)

(** The leaves that follow a leaf; none after the end. *)
Definition next_leaves (o : occurrence) : list occurrence :=
  if bool_decide (what o = FINAL) then [] else follows (place o) (Leaf (what o) (index o)).

Definition row (o : occurrence) : rrow := {| ltype := what o; lfollow := desc accept (indices (next_leaves o)) |}.

Lemma follow_leaf o st :
  o ∈ occs [] root -> (what o <> FINAL -> stops (place o) = true) -> holds st ∅ ->
  exists st', follow (place o) (Leaf (what o) (index o)) st = Ret tt st' /\ holds st' (indices (next_leaves o)) /\
    (maxsetvec st <= maxsetvec st')%nat.
Proof.
  intros Ho Hst H0. unfold next_leaves. case_bool_decide as Hf.
  - exists st. rewrite Hf. by destruct (place o).
  - pose proof (follow_adds (place o) (Leaf (what o) (index o)) (occs_place _ _ _ Ho) (Hst Hf)) as Ha.
    destruct (Ha ltac:(by destruct (what o)) st ∅ H0) as (s' & E & Hs & Hm); [set_solver|]. exists s'.
    by rewrite (left_id_L ∅ (∪)) in Hs.
Qed.

(** An operation that fills the rows of some leaves, and no others. *)
Definition fills (c : list (option rrow) -> M scratch (list (option rrow))) (os : list occurrence) : Prop := forall re st,
  (1 <= maxsetvec st)%nat -> (accept < length re)%nat ->
  exists re' st', c re st = Ret re' st' /\ length re' = length re /\ (accept < maxsetvec st')%nat /\
    (grown (S accept) accept (maxsetvec st) <= maxsetvec st')%nat /\
    (forall o, o ∈ os -> re' !! index o = Some (Some (row o))) /\
    (forall i, i ∉ map index os -> re' !! i = re !! i).

Lemma fills_bind c1 c2 l1 l2 :
  base.NoDup (map index (l1 ++ l2)) -> fills c1 l1 -> fills c2 l2 -> fills (fun re => lbind (c1 re) c2) (l1 ++ l2).
Proof.
  intros Hn H1 H2 re st Hm Hl. rewrite map_app in *. apply list.NoDup_app in Hn as (_ & Hd & _).
  destruct (H1 re st Hm Hl) as (re1 & s1 & E1 & L1 & M1 & N1 & R1 & O1).
  destruct (H2 re1 s1) as (re2 & s2 & E2 & L2 & M2 & N2 & R2 & O2); [lia..|]. exists re2, s2. rewrite (lbind_step _ _ _ _ _ E1).
  pose proof (grown_above (S accept) accept (maxsetvec s1)). split_and!; [done|lia|done|lia|..].
  - intros o [Ho|Ho]%elem_of_app; [|by apply R2]. rewrite O2; [by apply R1|]. apply Hd. apply list_elem_of_In, in_map. by apply list_elem_of_In.
  - intros i Hi. rewrite elem_of_app in Hi. rewrite O2, O1; tauto.
Qed.

Lemma fills_leaf ctx l i :
  plug ctx (Leaf l i) = root -> (l <> FINAL -> stops ctx = true) ->
  fills (cfoll accept ctx (Leaf l i)) [{| place := ctx; what := l; index := i |}].
Proof.
  intros Hr Hst re st Hm Hl. cbn [cfoll].
  assert (Ho : {| place := ctx; what := l; index := i |} ∈ occs [] root) by (rewrite <-Hr; apply occs_plug; by left).
  destruct (grow_spec accept st) as (s1 & E1 & _ & _ & _ & Hg & Hgr). rewrite (lbind_step _ _ _ _ _ E1).
  destruct (clear_spec s1 (Hg Hm)) as (s2 & E2 & H2 & M2). rewrite (lbind_step _ _ _ _ _ E2).
  destruct (follow_leaf _ s2 Ho Hst H2) as (s3 & E3 & H3 & M3). cbn [place what index] in E3.
  rewrite (lbind_step _ _ _ _ _ E3). rewrite (lbind_step _ _ _ _ _ (fill_set_spec _ _ H3)).
  pose proof (Hbound _ Ho) as Hi. cbn [index] in Hi. destruct (Nat.ltb_spec i (length re)); [|lia].
  eexists _, s3. split; [done|]. rewrite length_insert. split_and!; [done|by destruct H3|lia|..].
  - intros o Ho'%list_elem_of_singleton. subst o. cbn [index]. by rewrite list_lookup_insert_eq by done.
  - intros j Hj. rewrite list_lookup_insert_ne; [done|]. intros <-. apply Hj. by left.
Qed.

Lemma cfoll_fills ctx v :
  plug ctx v = root -> base.NoDup (map index (occs ctx v)) ->
  (forall o, o ∈ occs ctx v -> what o <> FINAL -> stops (place o) = true) -> fills (cfoll accept ctx v) (occs ctx v).
Proof.
  revert ctx. induction v as [l i|p IH|p IH|p IH|l IHl r IHr|l IHl r IHr]; intros ctx Hr Hn Hst; try (by apply IH).
  - apply fills_leaf; [done|]. by apply (Hst {| place := ctx; what := l; index := i |}); left.
  - pose proof Hn as Hn'. cbn [occs] in Hn. rewrite map_app in Hn. apply list.NoDup_app in Hn as (Hn1 & _ & Hn2).
    apply (fills_bind (cfoll accept (CatLeft r :: ctx) l)); [done|apply IHl|apply IHr]; try done;
      intros o Ho; apply Hst; cbn [occs]; rewrite elem_of_app; auto.
  - pose proof Hn as Hn'. cbn [occs] in Hn. rewrite map_app in Hn. apply list.NoDup_app in Hn as (Hn1 & _ & Hn2).
    apply (fills_bind (cfoll accept (OrLeft r :: ctx) l)); [done|apply IHl|apply IHr]; try done;
      intros o Ho; apply Hst; cbn [occs]; rewrite elem_of_app; auto.
Qed.
End Tree.
End Sets.

(** ** The tree of a search *)

Fixpoint no_final (p : node) : bool :=
  match p with
  | Leaf l _ => negb (bool_decide (l = FINAL))
  | STAR p | PLUS p | QUEST p => no_final p
  | CAT l r | OR l r => no_final l && no_final r
  end.

Lemma no_final_occs ctx p o : no_final p = true -> o ∈ occs ctx p -> what o <> FINAL.
Proof.
  revert ctx. induction p as [l i|p IH|p IH|p IH|l IHl r IHr|l IHl r IHr]; intros ctx Hp Ho; cbn in *; eauto.
  - apply list_elem_of_singleton in Ho as ->. apply negb_true_iff in Hp. by apply bool_decide_eq_false_1 in Hp.
  - apply andb_prop in Hp as [??]. apply elem_of_app in Ho as [Ho|Ho]; eauto.
  - apply andb_prop in Hp as [??]. apply elem_of_app in Ho as [Ho|Ho]; eauto.
Qed.

Lemma no_final_penter p n : no_final (penter p n).1 = no_final p.
Proof.
  revert n. induction p as [l i|p IH|p IH|p IH|l IHl r IHr|l IHl r IHr]; intros n; cbn [penter]; [done|..].
  1-3: specialize (IH n); by destruct (penter p n).
  all: specialize (IHl n); destruct (penter l n) as [l' n1]; specialize (IHr n1); destruct (penter r n1) as [r' n2];
    cbn in *; by rewrite IHl, IHr.
Qed.

Lemma stops_occs ctx v o : stops ctx = true -> o ∈ occs ctx v -> stops (place o) = true.
Proof.
  revert ctx. induction v as [l i|p IH|p IH|p IH|l IHl r IHr|l IHl r IHr]; intros ctx Hs Ho; cbn in Ho.
  - by apply list_elem_of_singleton in Ho as ->.
  - by apply (IH (InStar :: ctx)).
  - by apply (IH (InPlus :: ctx)).
  - by apply (IH (InQuest :: ctx)).
  - apply elem_of_app in Ho as [Ho|Ho]; [apply (IHl (CatLeft r :: ctx))|by apply (IHr (CatRight l :: ctx))]; [|done]. cbn. rewrite Hs. apply orb_true_r.
  - apply elem_of_app in Ho as [Ho|Ho]; [by apply (IHl (OrLeft r :: ctx))|by apply (IHr (OrRight l :: ctx))].
Qed.

Section Search.
Context (p : node) (Hnf : no_final p = true).

(** The pattern with its numbers, the number of the last position and the tree. *)
Definition pattern : node := (penter p 1).1.

Definition last_pos : nat := (penter p 1).2.

Definition tree : node := CAT (CAT (STAR (Leaf ALL 0)) pattern) (Leaf FINAL last_pos).

Lemma penter_search_tree : penter (search_tree p) 0 = (tree, S last_pos).
Proof. unfold tree, pattern, last_pos. cbn. by destruct (penter p 1). Qed.

Lemma tree_indices : map index (occs [] tree) = seq 0 (S last_pos).
Proof.
  pose proof (penter_indices [] (search_tree p) 0) as [_ H]. rewrite penter_search_tree in H. by rewrite Nat.sub_0_r in H.
Qed.

Lemma tree_NoDup : base.NoDup (map index (occs [] tree)).
Proof. rewrite tree_indices. apply NoDup_ListNoDup, seq_NoDup. Qed.

Lemma tree_bound o : o ∈ occs [] tree -> (index o <= last_pos)%nat.
Proof.
  intros Ho%list_elem_of_In. apply (in_map index) in Ho. rewrite tree_indices, in_seq in Ho. lia.
Qed.

Lemma pos_occ i : (i <= last_pos)%nat -> exists o, o ∈ occs [] tree /\ index o = i.
Proof.
  intros Hi. assert (In i (map index (occs [] tree))) as Hin by (rewrite tree_indices, in_seq; lia).
  apply in_map_iff in Hin as (o & E & Ho). exists o. by rewrite list_elem_of_In.
Qed.

Definition end_frames : list frame := [CatLeft (Leaf FINAL last_pos)].

Definition end_occ : occurrence :=
  {| place := [CatRight (CAT (STAR (Leaf ALL 0)) pattern)]; what := FINAL; index := last_pos |}.

Definition start_occ : occurrence :=
  {| place := [InStar; CatLeft pattern; CatLeft (Leaf FINAL last_pos)]; what := ALL; index := 0 |}.

Lemma tree_occs o :
  o ∈ occs [] tree <-> o = start_occ \/ o ∈ occs (CatRight (STAR (Leaf ALL 0)) :: end_frames) pattern \/ o = end_occ.
Proof. cbn [tree occs]. rewrite !elem_of_app, !list_elem_of_singleton. tauto. Qed.

Lemma tree_final o : o ∈ occs [] tree -> what o = FINAL -> o = end_occ.
Proof.
  intros [->|[Ho|Ho]]%tree_occs Hf; [done| |done]. by apply no_final_occs in Ho; [|unfold pattern; rewrite no_final_penter].
Qed.

Lemma tree_stops o : o ∈ occs [] tree -> what o <> FINAL -> stops (place o) = true.
Proof.
  intros [->|[Ho| ->]]%tree_occs Hf; [cbn; apply orb_true_r| |done]. by eapply stops_occs; [|exact Ho].
Qed.

(** The table that [cfoll] computes. *)
Lemma cfoll_table st re :
  (1 <= maxsetvec st)%nat -> (last_pos < length re)%nat ->
  exists re' st', cfoll last_pos [] tree re st = Ret re' st' /\ length re' = length re /\ (last_pos < maxsetvec st')%nat /\
    (grown (S last_pos) last_pos (maxsetvec st) <= maxsetvec st')%nat /\
    forall o, o ∈ occs [] tree -> re' !! index o = Some (Some (row last_pos o)).
Proof.
  intros Hm Hl. destruct (cfoll_fills last_pos tree tree_NoDup tree_bound [] tree eq_refl tree_NoDup tree_stops re st Hm Hl)
    as (re' & s' & E & L & Hs & Hg & R & _). eauto 10.
Qed.

(** ** The automaton of positions *)

(** A set of positions accepts a word, the end included. *)
Definition accepted (X : gset nat) (w : list (option Z)) : Prop :=
  exists o x w', o ∈ occs [] tree /\ index o ∈ X /\ w = x :: w' /\ reads_sym (what o) x /\
    after (place o) (Leaf (what o) (index o)) w'.

Lemma accepted_indices os w : (forall o, o ∈ os -> o ∈ occs [] tree) -> accepted (indices os) w <-> starts os w.
Proof.
  intros Hos. split.
  - intros (o & x & w' & Ho & Hi & Hrest). apply elem_of_indices in Hi as (o' & Ho' & E).
    assert (o' = o) as -> by (apply (index_inj tree tree_NoDup); auto). by exists o, x, w'.
  - intros (o & x & w' & Ho & Hrest). exists o, x, w'. split; [auto|]. split; [|done]. apply elem_of_indices. eauto.
Qed.

Lemma next_leaves_occs o o' : o ∈ occs [] tree -> o' ∈ next_leaves o -> o' ∈ occs [] tree.
Proof.
  unfold next_leaves. intros Ho Ho'. case_bool_decide; [by apply not_elem_of_nil in Ho'|].
  apply follows_occs in Ho' as [Ho' _]. by rewrite (occs_place _ _ _ Ho) in Ho'.
Qed.

(** The positions after a character. *)
Definition moved (X : gset nat) (c : Z) (X' : gset nat) : Prop :=
  forall i, i ∈ X' <-> exists o, o ∈ occs [] tree /\ index o ∈ X /\ reads_char (what o) c /\ i ∈ indices (next_leaves o).

Lemma accepted_step X c X' w : moved X c X' -> accepted X (Some c :: w) <-> accepted X' w.
Proof.
  intros HX'. split.
  - intros (o & x & w' & Ho & Hi & [= <- <-] & Hr & Ha). assert (Hf : what o <> FINAL) by (intros E; by rewrite E in Hr).
    apply follows_complete in Ha; [|by apply tree_stops]. destruct Ha as (o' & x & w' & Ho' & -> & Hrest). exists o', x, w'.
    assert (Hn : o' ∈ next_leaves o) by (unfold next_leaves; by rewrite bool_decide_eq_false_2).
    split; [by eapply next_leaves_occs|]. split; [|done]. apply HX'. exists o. split_and!; [done..|]. apply elem_of_indices. eauto.
  - intros (o' & x & w' & Ho' & Hi & -> & Hr & Ha). apply HX' in Hi as (o & Ho & HiX & Hc & Hin).
    apply elem_of_indices in Hin as (o'' & Hn & E). assert (o'' = o') as ->.
    { apply (index_inj tree tree_NoDup); [by eapply next_leaves_occs|done..]. }
    exists o, (Some c), (x :: w'). split_and!; [done..|]. unfold next_leaves in Hn.
    case_bool_decide; [by apply not_elem_of_nil in Hn|]. apply follows_sound. by exists o', x, w'.
Qed.

Lemma accepted_end X : accepted X [None] <-> last_pos ∈ X.
Proof.
  split.
  - intros (o & x & w' & Ho & Hi & [= <- <-] & Hr & Ha). by rewrite (tree_final o Ho Hr) in Hi.
  - intros Hi. exists end_occ, None, []. split_and!; [apply tree_occs; auto|done..].
Qed.

(** The sets at the start of a search: before any text, and with no text before. *)
Definition start_set : gset nat := indices (next_leaves start_occ).

Definition here_set : gset nat := indices (follows (CatLeft pattern :: end_frames) (STAR (Leaf ALL 0))).

Lemma start_here : start_set = {[0%nat]} ∪ here_set.
Proof. unfold start_set, next_leaves. cbn -[follows]. unfold indices. cbn. set_solver. Qed.

Lemma here_occs o : o ∈ follows (CatLeft pattern :: end_frames) (STAR (Leaf ALL 0)) -> o ∈ occs [] tree.
Proof. intros Ho. by apply follows_occs in Ho as [Ho _]. Qed.

Lemma here_not_0 : 0%nat ∉ here_set.
Proof.
  intros (o & Ho & E)%elem_of_indices. pose proof (here_occs o Ho) as Ht.
  assert (o = start_occ) as -> by (apply (index_inj tree tree_NoDup); [done|apply tree_occs; auto|done]).
  cbn in Ho. apply elem_of_app in Ho as [Ho|Ho].
  - apply firsts_occs in Ho as [Ho _]. assert (Hi : In 0%nat (map index (occs (CatRight (STAR (Leaf ALL 0)) :: end_frames) pattern))).
    { change 0%nat with (index start_occ). apply in_map. by apply list_elem_of_In. }
    unfold pattern in Hi. rewrite (proj2 (penter_indices _ _ _)) in Hi. apply in_seq in Hi. lia.
  - destruct (nullable pattern); [|by apply not_elem_of_nil in Ho]. cbn in Ho. by apply list_elem_of_singleton in Ho.
Qed.

Lemma here_accepted w : accepted here_set (w ++ [None]) <-> matches p w.
Proof.
  unfold here_set. rewrite accepted_indices by apply here_occs. split.
  - intros Hs%follows_sound. destruct Hs as (w1 & w2 & E & Hm & w3 & w4 & -> & Hf & ->). inversion Hf as [? ? x Hx| | | | | | | | | |]; subst.
    rewrite app_nil_r in E. apply app_inj_tail in E as [-> _]. by apply (penter_matches p 1).
  - intros Hm. apply follows_complete; [cbn; by rewrite orb_true_r|]. exists w, [None]. split_and!; [done|by apply penter_matches|].
    exists [None], []. split_and!; [done| |done]. by constructor.
Qed.

Lemma start_occs o : o ∈ next_leaves start_occ -> o ∈ occs [] tree.
Proof. apply next_leaves_occs. apply tree_occs. auto. Qed.

Lemma star_all w : matches (STAR (Leaf ALL 0)) w <-> Forall (fun x => exists c, x = Some c /\ c <> 0) w.
Proof.
  split.
  - intros H. remember (STAR (Leaf ALL 0)) as v eqn:Ev. revert Ev. induction H as [| | | |? ? ? H1 _ H2 IH| | | | | |]; intros Ev; try done.
    injection Ev as ->. apply Forall_app. split; [|auto]. inversion H1 as [? ? x Hx| | | | | | | | | |]; subst. destruct x as [c|]; [|done].
    constructor; [eauto|constructor].
  - induction 1 as [|x w (c & -> & Hc) _ IH]; [constructor|]. change (Some c :: w) with ([Some c] ++ w). constructor; [by constructor|done].
Qed.

Lemma start_accepted w :
  accepted start_set (map Some w ++ [None]) <->
  exists w1 w2, w = w1 ++ w2 /\ Forall (fun c => c <> 0) w1 /\ matches p (map Some w2).
Proof.
  unfold start_set. rewrite accepted_indices by apply start_occs. unfold next_leaves. rewrite bool_decide_eq_false_2 by done.
  assert (Hall : forall v, matches (STAR (Leaf ALL 0)) (map Some v) <-> Forall (fun c => c <> 0) v).
  { intros v. rewrite star_all, Forall_map. apply Forall_proper; [|done]. intros c. naive_solver. }
  split.
  - intros Hs%follows_sound. destruct Hs as (u1 & u2 & E & Hu1 & u3 & u4 & -> & Hm & u5 & u6 & -> & Hf & ->).
    inversion Hf as [? ? x Hx| | | | | | | | | |]; subst. rewrite app_nil_r, app_assoc in E. apply app_inj_tail in E as [E _].
    apply map_eq_app in E as (w1 & w2 & -> & <- & <-). exists w1, w2. split_and!; [done|by apply Hall|by apply (penter_matches p 1)].
  - intros (w1 & w2 & -> & H1 & Hm). apply follows_complete; [cbn; by rewrite !orb_true_r|].
    exists (map Some w1), (map Some w2 ++ [None]). split_and!; [by rewrite map_app, app_assoc|by apply Hall|].
    exists (map Some w2), [None]. split_and!; [done|by apply penter_matches|]. exists [None], []. split_and!; [done|by constructor|done].
Qed.

End Search.
