(* ===== verification/AwkDfa.v ===== *)
(** * Regular expressions of nawk: the automaton ([b.c])

    The deterministic automaton is built while texts are matched: a state is a set
    of positions, [cgoto] computes a transition when it is needed first, and the
    table of 32 states is emptied when it is full.  This file models the structure
    [fa] and its functions from [mkdfa] to [nematch].

    The array [gototab] is one object of [NSTATES] rows of [NCHARS] bytes; the
    element [\[s\]\[c\]] is found by its address, so that a column beyond the row is
    an element of a later row, as the sign [HAT] needs it.  An access outside the
    array, to a freed set or beyond the array [tmpset] is a crash. *)

From S2P Require Import Prelude Util AwkRegex AwkFollow.
Open Scope Z_scope.
Open Scope ndk_scope.

Definition NSTATES : nat := 32.

(** A set of positions is the list of its elements in descending order; the C array
    has their number in front.  Memory that was freed is [None]. *)
Record fa := {
  gototab : list (list nat);
  out : list bool;
  restr : cstr;
  posns : list (option (list nat));
  anchor : bool;
  use : Z;
  initstat : nat;
  curstat : nat;
  accept : nat;
  reset : bool;
  re : list (option rrow)
}.

Definition set_gototab g f := {| gototab := g; out := out f; restr := restr f; posns := posns f; anchor := anchor f; use := use f;
  initstat := initstat f; curstat := curstat f; accept := accept f; reset := reset f; re := re f |}.
Definition set_out o f := {| gototab := gototab f; out := o; restr := restr f; posns := posns f; anchor := anchor f; use := use f;
  initstat := initstat f; curstat := curstat f; accept := accept f; reset := reset f; re := re f |}.
Definition set_posns p f := {| gototab := gototab f; out := out f; restr := restr f; posns := p; anchor := anchor f; use := use f;
  initstat := initstat f; curstat := curstat f; accept := accept f; reset := reset f; re := re f |}.
Definition set_use u f := {| gototab := gototab f; out := out f; restr := restr f; posns := posns f; anchor := anchor f; use := u;
  initstat := initstat f; curstat := curstat f; accept := accept f; reset := reset f; re := re f |}.
Definition set_initstat s f := {| gototab := gototab f; out := out f; restr := restr f; posns := posns f; anchor := anchor f; use := use f;
  initstat := s; curstat := curstat f; accept := accept f; reset := reset f; re := re f |}.
Definition set_curstat s f := {| gototab := gototab f; out := out f; restr := restr f; posns := posns f; anchor := anchor f; use := use f;
  initstat := initstat f; curstat := s; accept := accept f; reset := reset f; re := re f |}.
Definition set_reset b f := {| gototab := gototab f; out := out f; restr := restr f; posns := posns f; anchor := anchor f; use := use f;
  initstat := initstat f; curstat := curstat f; accept := accept f; reset := b; re := re f |}.

(** The arrays of the sets, and an automaton. *)
Abbreviation machine := (scratch * fa)%type.

Definition on_scratch {A} (c : M scratch A) : M machine A := fun st =>
  match c st.1 with
  | Ret x s => Ret x (s, st.2)
  | Fail e s => Fail e (s, st.2)
  | Crash => Crash
  end.

Definition get_fa : M machine fa := fun st => Ret st.2 st.

Definition modify_fa (g : fa -> fa) : M machine unit := fun st => Ret tt (st.1, g st.2).

(** ** Tables *)

Definition row_of (s : nat) (c : Z) : nat := (s + Z.to_nat (c / NCHARS))%nat.

Definition column_of (c : Z) : nat := Z.to_nat (c mod NCHARS).

Definition get_goto (f : fa) (s : nat) (c : Z) : option nat :=
  match gototab f !! row_of s c with Some row => row !! column_of c | None => None end.

Definition put_goto (s : nat) (c : Z) (v : nat) : M machine unit := fun st =>
  match gototab st.2 !! row_of s c with
  | Some row => Ret tt (st.1, set_gototab (<[row_of s c := <[column_of c := v]> row]> (gototab st.2)) st.2)
  | None => Crash
  end.

(** The row of a state is set to 0. *)
Definition clear_goto (s : nat) (f : fa) : fa :=
  set_gototab (<[s := replicate (Z.to_nat NCHARS) 0%nat]> (gototab f)) f.

Definition get_posns (f : fa) (s : nat) : option (list nat) :=
  match posns f !! s with Some (Some p) => Some p | _ => None end.

Definition put_posns (s : nat) (p : list nat) (f : fa) : fa := set_posns (<[s := Some p]> (posns f)) f.

(** The sets of [n] states from [s] on are freed. *)
Definition free_posns (s n : nat) (f : fa) : fa :=
  set_posns (take s (posns f) ++ replicate (Nat.min n (length (posns f) - s)) None ++ drop (s + n) (posns f)) f.

Definition put_out (s : nat) (b : bool) (f : fa) : fa := set_out (<[s := b]> (out f)) f.

(** ** Transitions *)

Fixpoint member (c : Z) (s : cstr) : bool :=
  match s with
  | x :: s => if zc x =? 0 then false else if c =? zc x then true else member c s
  | [] => false
  end.

(** The test of [cgoto] on a leaf other than [FINAL]. *)
Definition leaf_reads (l : leaf) (c : Z) : bool :=
  match l with
  | CHAR v => c =? v
  | DOT => negb (c =? 0) && negb (c =? HAT)
  | ALL => negb (c =? 0)
  | EMPTYRE => negb (c =? 0)
  | CCL s => member c s
  | NCCL s => negb (member c s) && negb (c =? 0) && negb (c =? HAT)
  | FINAL => false
  end.

(** The positions of a row are marked.  An index beyond the array would free it
    twice by [realloc]. *)
Fixpoint mark_all (q : list nat) : M scratch unit :=
  match q with
  | [] => lret tt
  | i :: q =>
      let* st := lget in
      if (maxsetvec st <=? i)%nat then lcrash
      else do* mark i in mark_all q
  end.

(** The positions of [gototab\[s, c\]] into [setvec]. *)
Fixpoint mark_next (re : list (option rrow)) (p : list nat) (c : Z) : M scratch unit :=
  match p with
  | [] => lret tt
  | i :: p =>
      match re !! i with
      | Some (Some r) =>
          do* (if leaf_reads (ltype r) c then mark_all (lfollow r) else lret tt) in
          mark_next re p c
      | _ => lcrash
      end
  end.

(** [tmpset]: the number of the positions and the positions, in [maxsetvec]
    elements. *)
Definition fill_tmpset (accept : nat) : M scratch (list nat) :=
  let* p := fill_set accept in
  let* st := lget in
  if (S (length p) <=? maxsetvec st)%nat then lret p else lcrash.

(** The states from [i] on, [n] of them, are compared with a set. *)
Fixpoint find_state (f : fa) (tmpset : list nat) (i n : nat) : option (option nat) :=
  match n with
  | O => Some None
  | S n =>
      match get_posns f i with
      | Some p => if bool_decide (p = tmpset) then Some (Some i) else find_state f tmpset (S i) n
      | None => None
      end
  end.

(** A new state, after the others are freed if the table is full. *)
Definition new_state : M machine nat :=
  let* f := get_fa in
  do* (if (NSTATES - 1 <=? curstat f)%nat then
         modify_fa (fun f => free_posns 2 (NSTATES - 2) (set_reset true (set_curstat 2 f)))
       else modify_fa (set_curstat (S (curstat f)))) in
  let* f := get_fa in
  do* modify_fa (clear_goto (curstat f)) in
  lret (curstat f).

Definition cgoto (s : nat) (c : Z) : M machine nat :=
  let* f := get_fa in
  do* on_scratch (grow (accept f)) in
  do* on_scratch (clear (S (accept f))) in
  let* p := lread (fun st => get_posns st.2 s) in
  do* on_scratch (mark_next (re f) p c) in
  let* tmpset := on_scratch (fill_tmpset (accept f)) in
  let* found := lread (fun st => find_state st.2 tmpset 1 (curstat f)) in
  match found with
  | Some i => do* put_goto s c i in lret i
  | None =>
      let* n := new_state in
      do* modify_fa (put_posns n tmpset) in
      do* put_goto s c n in
      let* b := lread (fun st => setvec st.1 !! accept f) in
      do* modify_fa (put_out n b) in
      lret n
  end.

(** ** Construction *)

(** Position 0 is the smallest, the last of its list. *)
Definition makeinit (anchor : bool) : M machine nat :=
  do* modify_fa (fun f => set_reset false (put_out 2 false (set_curstat 2 f))) in
  let* f := get_fa in
  let* p := lread (fun _ => match re f !! 0%nat with Some (Some r) => Some (lfollow r) | _ => None end) in
  do* modify_fa (put_posns 2 p) in
  let* first := lread (fun _ => head p) in
  do* (if (first =? accept f)%nat then modify_fa (put_out 2 true) else lret tt) in
  do* modify_fa (clear_goto 2) in
  let* n := cgoto 2 HAT in
  do* modify_fa (set_curstat n) in
  if anchor then
    let* p := lread (fun st => get_posns st.2 2) in
    do* modify_fa (fun f => put_posns 0 (removelast p) (put_posns 2 (removelast p) f)) in
    let* b := lread (fun st => out st.2 !! 2%nat) in
    do* modify_fa (put_out 0 b) in
    do* (if (n =? 2)%nat then lret tt
         else let* p := lread (fun st => get_posns st.2 n) in modify_fa (put_posns n (removelast p))) in
    lret n
  else lret n.

(** The automaton before its states are set up. *)
Definition empty_fa (s : cstr) (poscnt : nat) (re : list (option rrow)) : fa := {|
  gototab := replicate NSTATES (replicate (Z.to_nat NCHARS) 0%nat);
  out := replicate NSTATES false;
  restr := s;
  posns := Some [] :: Some [] :: replicate (NSTATES - 2) None;
  anchor := false;
  use := 0;
  initstat := 0;
  curstat := 0;
  accept := poscnt - 1;
  reset := false;
  re := re
|}.

Definition set_anchor a f := {| gototab := gototab f; out := out f; restr := restr f; posns := posns f; anchor := a; use := use f;
  initstat := initstat f; curstat := curstat f; accept := accept f; reset := reset f; re := re f |}.

Definition mkdfa (s : cstr) (anchor : bool) : M scratch fa := fun st =>
  match reparse s with
  | Ret p _ =>
      let '(p1, poscnt) := penter (search_tree p) 0 in
      match cfoll (poscnt - 1) [] p1 (replicate (S poscnt) None) st with
      | Ret re st =>
          match makeinit anchor (st, empty_fa s poscnt re) with
          | Ret n (st, f) => Ret (set_anchor anchor (set_initstat n f)) st
          | Fail e (st, _) => Fail e st
          | Crash => Crash
          end
      | Fail e st => Fail e st
      | Crash => Crash
      end
  | Fail e _ => Fail e st
  | Crash => Crash
  end.

(** ** Matching *)

(** The characters that are read: the text and its terminator. *)
Definition chars (p0 : cstr) : list Z := map zc p0 ++ [0].

Definition step (s : nat) (c : Z) : M machine nat :=
  let* ns := lread (fun st => get_goto st.2 s c) in
  if (ns =? 0)%nat then cgoto s c else lret ns.

Definition is_out (s : nat) : M machine bool := lread (fun st => out st.2 !! s).

Section Loops.
Context (goto : nat -> Z -> M machine nat).

Fixpoint match_loop (s : nat) (p : list Z) : M machine bool :=
  match p with
  | [] => lcrash
  | c :: p =>
      let* s := goto s c in
      let* b := is_out s in
      if b then lret true
      else if c =? 0 then lret false
      else match_loop s p
  end.

(** The inner loop of [pmatch] and [nematch]: [n] is [q - p]. *)
Fixpoint longest (s : nat) (q : list Z) (n patlen : Z) : M machine Z :=
  match q with
  | [] => lcrash
  | c :: q =>
      let* b := is_out s in
      let patlen := if b then n else patlen in
      let* s := goto s c in
      if (s =? 1)%nat then lret patlen
      else if c =? 0 then let* b := is_out s in lret (if b then n else patlen)
      else longest s q (n + 1) patlen
  end.

(** The label [nextin]. *)
Definition nextin : M machine unit :=
  let* f := get_fa in
  if reset f then
    do* modify_fa (fun f => free_posns 2 (curstat f - 1) f) in
    let* p := lread (fun st => get_posns st.2 0) in
    let* b := lread (fun st => out st.2 !! 0%nat) in
    modify_fa (fun f => clear_goto 2 (put_out 2 b (set_initstat 2 (set_curstat 2 (put_posns 2 p f)))))
  else lret tt.

(** The outer loop of [pmatch] from the offset [i]; the result is the offset and the
    length of the match. *)
Fixpoint pmatch_loop (s : nat) (p : list Z) (i : nat) (patlen : Z) : M machine (option (nat * Z)) :=
  match p with
  | [] => lcrash
  | c :: p' =>
      let* patlen := longest s p 0 patlen in
      if 0 <=? patlen then lret (Some (i, patlen))
      else do* nextin in if c =? 0 then lret None else pmatch_loop 2 p' (S i) patlen
  end.

Fixpoint nematch_loop (s : nat) (p : list Z) (i : nat) (patlen : Z) : M machine (option (nat * Z)) :=
  match p with
  | [] => lcrash
  | c :: p' =>
      if c =? 0 then lret None
      else
        let* patlen := longest s p 0 patlen in
        if 0 <? patlen then lret (Some (i, patlen))
        else do* nextin in nematch_loop 2 p' (S i) patlen
  end.

Definition match_with (p0 : cstr) : M machine bool :=
  let* f := get_fa in
  let* s := (if reset f then makeinit false else lret (initstat f)) in
  let* b := is_out s in
  if b then lret true else match_loop s (chars p0).

(** The state in which the search for the longest match begins. *)
Definition first_state : M machine nat :=
  let* f := get_fa in
  if reset f then let* s := makeinit true in do* modify_fa (set_initstat s) in lret s
  else lret (initstat f).

Definition pmatch_with (p0 : cstr) : M machine (option (nat * Z)) :=
  let* s := first_state in pmatch_loop s (chars p0) 0 (-1).

Definition nematch_with (p0 : cstr) : M machine (option (nat * Z)) :=
  let* s := first_state in nematch_loop s (chars p0) 0 (-1).

End Loops.

Definition _match : cstr -> M machine bool := match_with step.

Definition pmatch : cstr -> M machine (option (nat * Z)) := pmatch_with step.

Definition nematch : cstr -> M machine (option (nat * Z)) := nematch_with step.
