(* ===== verification/AwkStates.v ===== *)
(** * Regular expressions of nawk: correctness of the states

    A state of the automaton of a pattern stands for a set of positions.  The
    invariant [consistent] says so for all states and for the transitions that have
    been entered into the table, but for the element [\[3\]\[2\]], which [makeinit]
    overwrites.  [cgoto] keeps it unless the table is full in state 2. *)

From S2P Require Import Prelude Util AwkRegex AwkFollow AwkDfa.
Open Scope Z_scope.
Open Scope ndk_scope.

(** ** Computing a set *)

Section Marks.
Context (a : nat).

Lemma mark_all_spec q st X :
  holds a st X -> Forall (fun i => (i <= a)%nat) q ->
  exists st', mark_all q st = Ret tt st' /\ holds a st' (X ∪ list_to_set q) /\ maxsetvec st' = maxsetvec st.
Proof.
  intros HX Hq. revert st X HX. induction Hq as [|i q Hi _ IH]; intros st X HX; cbn [mark_all].
  - exists st. split_and!; [done| |done]. by replace (X ∪ list_to_set []) with X by set_solver.
  - unfold lbind at 1, lget. destruct (Nat.leb_spec (maxsetvec st) i); [destruct HX; lia|].
    destruct (mark_spec a st X i HX Hi) as (s1 & E1 & H1 & M1). rewrite (lbind_step _ _ _ _ _ E1).
    destruct (IH s1 _ H1) as (s2 & E2 & H2 & M2). exists s2. split_and!; [done| |lia].
    replace (X ∪ list_to_set (i :: q)) with (X ∪ {[i]} ∪ list_to_set q) by set_solver. done.
Qed.

(** The positions after some positions of a table. *)
Definition targets (re : list (option rrow)) (l : list nat) (c : Z) : gset nat :=
  ⋃ (map (fun i => match re !! i with
                   | Some (Some r) => if leaf_reads (ltype r) c then list_to_set (lfollow r) else ∅
                   | _ => ∅
                   end) l).

Lemma mark_next_spec re l c st X :
  holds a st X ->
  Forall (fun i => exists r, re !! i = Some (Some r) /\ Forall (fun j => (j <= a)%nat) (lfollow r)) l ->
  exists st', mark_next re l c st = Ret tt st' /\ holds a st' (X ∪ targets re l c) /\ maxsetvec st' = maxsetvec st.
Proof.
  intros HX Hl. revert st X HX. induction Hl as [|i l (r & Hr & Hf) _ IH]; intros st X HX; cbn [mark_next].
  - exists st. split_and!; [done| |done]. unfold targets. cbn. by replace (X ∪ ∅) with X by set_solver.
  - rewrite Hr. unfold targets. cbn [map union_list foldr]. rewrite Hr. fold (targets re l c).
    assert (Hone : exists s1, (if leaf_reads (ltype r) c then mark_all (lfollow r) else lret tt) st = Ret tt s1 /\
      holds a s1 (X ∪ (if leaf_reads (ltype r) c then list_to_set (lfollow r) else ∅)) /\ maxsetvec s1 = maxsetvec st).
    { destruct (leaf_reads _ _); [by apply mark_all_spec|]. exists st. by replace (X ∪ ∅) with X by set_solver. }
    destruct Hone as (s1 & E1 & H1 & M1). rewrite (lbind_step _ _ _ _ _ E1).
    destruct (IH s1 _ H1) as (s2 & E2 & H2 & M2). exists s2. split_and!; [done| |lia]. by rewrite (assoc_L (∪)).
Qed.

Lemma fill_tmpset_spec st X : holds a st X -> (S a < maxsetvec st)%nat -> fill_tmpset a st = Ret (desc a X) st.
Proof.
  intros HX Hroom. unfold fill_tmpset. rewrite (lbind_step _ _ _ _ _ (fill_set_spec a st X HX)). unfold lbind, lget.
  destruct HX as (_ & _ & H3 & _). rewrite (desc_length a X H3).
  assert (size X <= S a)%nat.
  { rewrite <-(size_set_seq (C := gset nat) 0 (S a)). apply subseteq_size. intros i Hi. apply elem_of_set_seq. specialize (H3 i Hi). lia. }
  destruct (Nat.leb_spec (S (size X)) (maxsetvec st)); [done|lia].
Qed.

Lemma desc_inj X Y : (forall i, i ∈ X -> (i <= a)%nat) -> (forall i, i ∈ Y -> (i <= a)%nat) -> desc a X = desc a Y -> X = Y.
Proof.
  intros HX HY E. apply set_eq. intros i. split; intros Hi.
  - assert (i ∈ desc a X) as Hd by (apply elem_of_desc; auto). rewrite E in Hd. by apply elem_of_desc in Hd as [? _].
  - assert (i ∈ desc a Y) as Hd by (apply elem_of_desc; auto). rewrite <-E in Hd. by apply elem_of_desc in Hd as [? _].
Qed.

Lemma desc_empty : desc a ∅ = [].
Proof.
  destruct (desc a ∅) as [|i l] eqn:E; [done|]. assert (i ∈ desc a ∅) as Hi by (rewrite E; by left).
  apply elem_of_desc in Hi as [? _]. set_solver.
Qed.

End Marks.

(** ** Tables *)

Lemma row_of_char s c : 0 <= c < NCHARS -> row_of s c = s /\ column_of c = Z.to_nat c.
Proof. intros Hc. unfold row_of, column_of. rewrite Z.div_small, Z.mod_small by done. split; [lia|done]. Qed.

Lemma row_of_hat : row_of 2 HAT = 3%nat /\ column_of HAT = 2%nat.
Proof. done. Qed.

Lemma put_posns_get s p f s' :
  (s < length (posns f))%nat -> get_posns (put_posns s p f) s' = if decide (s' = s) then Some p else get_posns f s'.
Proof.
  intros Hs. unfold get_posns, put_posns. cbn. destruct (decide (s' = s)) as [->|Hne].
  - by rewrite list_lookup_insert_eq.
  - by rewrite list_lookup_insert_ne.
Qed.

Lemma free_posns_length s n f : length (posns (free_posns s n f)) = length (posns f).
Proof. unfold free_posns. cbn [posns set_posns]. rewrite !length_app, length_take, length_replicate, length_drop. lia. Qed.

Lemma free_posns_below s n f s' : (s' < s)%nat -> get_posns (free_posns s n f) s' = get_posns f s'.
Proof.
  intros Hs. unfold get_posns, free_posns. cbn [posns set_posns].
  destruct (decide (s' < length (posns f))%nat) as [Hl|Hl].
  - rewrite lookup_app_l by (rewrite length_take; lia). by rewrite lookup_take_lt by lia.
  - rewrite (lookup_ge_None_2 (posns f)) by lia. rewrite lookup_ge_None_2; [done|].
    rewrite !length_app, length_take, length_replicate, length_drop. lia.
Qed.

(** ** The automaton of a pattern *)

(** No class of the pattern holds a NUL, and no leaf is the end. *)
Fixpoint texts (p : node) : bool :=
  match p with
  | Leaf (CCL s) _ | Leaf (NCCL s) _ => forallb (fun c => negb (zc c =? 0)) s
  | Leaf _ _ => true
  | STAR p | PLUS p | QUEST p => texts p
  | CAT l r | OR l r => texts l && texts r
  end.

Definition text_leaf (l : leaf) : Prop := match l with CCL s | NCCL s => is_text s | _ => True end.

Lemma texts_occs ctx p o : texts p = true -> o ∈ occs ctx p -> text_leaf (what o).
Proof.
  revert ctx. induction p as [l i|p IH|p IH|p IH|l IHl r IHr|l IHl r IHr]; intros ctx Hp Ho; cbn [occs] in Ho; try (by eapply IH).
  - apply list_elem_of_singleton in Ho as ->. cbn. destruct l; try done; by apply forallb_text.
  - cbn in Hp. apply andb_prop in Hp as [??]. apply elem_of_app in Ho as [Ho|Ho]; eauto.
  - cbn in Hp. apply andb_prop in Hp as [??]. apply elem_of_app in Ho as [Ho|Ho]; eauto.
Qed.

Lemma texts_penter p n : texts (penter p n).1 = texts p.
Proof.
  revert n. induction p as [l i|p IH|p IH|p IH|l IHl r IHr|l IHl r IHr]; intros n; cbn [penter]; [done|..].
  1-3: specialize (IH n); by destruct (penter p n).
  all: specialize (IHl n); destruct (penter l n) as [l' n1]; specialize (IHr n1); destruct (penter r n1) as [r' n2];
    cbn in *; by rewrite IHl, IHr.
Qed.

Lemma member_spec c s : is_text s -> member c s = true <-> exists x, x ∈ s /\ zc x = c /\ c <> 0.
Proof.
  induction 1 as [|x s Hx Hs IH]; cbn [member]; [split; [done|intros (x & Hx & _); by apply not_elem_of_nil in Hx]|].
  rewrite (proj2 (Z.eqb_neq _ _) Hx). setoid_rewrite elem_of_cons. destruct (Z.eqb_spec c (zc x)) as [->|Hne].
  - split; [|done]. intros _. exists x. auto.
  - rewrite IH. split; intros (y & Hy & E & H0); [by exists y; auto|]. destruct Hy as [->|Hy]; [congruence|by exists y].
Qed.

Lemma leaf_reads_spec l c : text_leaf l -> l <> EMPTYRE -> leaf_reads l c = true <-> reads_char l c.
Proof.
  intros Ht Hl. destruct l as [v| | |s|s| |]; cbn; try done.
  - apply Z.eqb_eq.
  - rewrite andb_true_iff, !negb_true_iff, !Z.eqb_neq. done.
  - rewrite negb_true_iff, Z.eqb_neq. done.
  - by apply member_spec.
  - rewrite !andb_true_iff, !negb_true_iff, !Z.eqb_neq. pose proof (member_spec c s Ht) as Hm.
    destruct (member c s); [|naive_solver]. destruct (proj1 Hm eq_refl) as (x & Hx & E & H0). naive_solver.
Qed.

Section Automaton.
Context (p : node) (Hnf : no_final p = true) (Htx : texts p = true).

Abbreviation a := (last_pos p).
Abbreviation leaves := (occs [] (tree p)).

Lemma leaves_text o : o ∈ leaves -> text_leaf (what o).
Proof.
  intros [->|[Ho| ->]]%tree_occs; [done| |done]. eapply texts_occs; [|exact Ho]. unfold pattern. by rewrite texts_penter.
Qed.

(** The table of the positions of the pattern. *)
Definition table (f : fa) : Prop :=
  accept f = a /\ forall o, o ∈ leaves -> re f !! index o = Some (Some (row a o)).

Abbreviation alive := (live (tree p)).

Lemma alive_bound X i : alive X -> i ∈ X -> (i <= a)%nat.
Proof. intros HX Hi. destruct (HX i Hi) as (o & Ho & <- & _). by apply tree_bound. Qed.

Lemma next_leaves_alive o : o ∈ leaves -> alive (indices (next_leaves o)).
Proof.
  intros Ho. apply live_indices. intros o' Ho'. unfold next_leaves in Ho'. case_bool_decide; [by apply not_elem_of_nil in Ho'|].
  apply follows_occs in Ho'. by rewrite (occs_place _ _ _ Ho) in Ho'.
Qed.

(** The rows of the positions of a set. *)
Lemma rows_of f X : table f -> alive X ->
  Forall (fun i => exists r, re f !! i = Some (Some r) /\ Forall (fun j => (j <= a)%nat) (lfollow r)) (desc a X).
Proof.
  intros [_ Ht] HX. apply list.Forall_forall. intros i [Hi _]%elem_of_desc. destruct (HX i Hi) as (o & Ho & <- & _).
  exists (row a o). split; [by apply Ht|]. apply list.Forall_forall. intros j Hj. cbn in Hj. by apply elem_of_desc in Hj as [_ ?].
Qed.

Lemma targets_moved f X c : table f -> alive X -> moved p X c (targets (re f) (desc a X) c).
Proof.
  intros [_ Ht] HX i. unfold targets. rewrite elem_of_union_list. split.
  - intros (Y & HY & Hi). apply list_elem_of_In, in_map_iff in HY as (j & <- & Hj). apply list_elem_of_In, elem_of_desc in Hj as [Hj _].
    destruct (HX j Hj) as (o & Ho & <- & Hw). rewrite (Ht o Ho) in Hi. cbn [ltype lfollow row] in Hi.
    destruct (leaf_reads (what o) c) eqn:Er; [|set_solver]. apply leaf_reads_spec in Er; [|by apply leaves_text|done].
    exists o. split_and!; [done..|]. rewrite elem_of_list_to_set in Hi. by apply elem_of_desc in Hi as [? _].
  - intros (o & Ho & Hi & Hr & Hin). destruct (HX _ Hi) as (o' & Ho' & E & Hw).
    assert (o' = o) as -> by (by apply (index_inj (tree p) (tree_NoDup p))).
    exists (list_to_set (lfollow (row a o))). split.
    + apply list_elem_of_In, in_map_iff. exists (index o). rewrite (Ht o Ho). cbn [ltype row].
      apply leaf_reads_spec in Hr; [|by apply leaves_text|done]. rewrite Hr. split; [done|].
      apply list_elem_of_In, elem_of_desc. split; [done|]. by apply tree_bound.
    + rewrite elem_of_list_to_set. apply elem_of_desc. split; [done|]. eapply alive_bound; [by apply next_leaves_alive|done].
Qed.

Lemma moved_alive X c X' : moved p X c X' -> alive X'.
Proof. intros Hm i Hi. apply Hm in Hi as (o & Ho & _ & _ & Hi). by apply (next_leaves_alive o). Qed.

Lemma moved_unique X c Y Z : moved p X c Y -> moved p X c Z -> Y = Z.
Proof. intros HY HZ. apply set_eq. intros i. by rewrite (HY i), (HZ i). Qed.

Lemma moved_empty c X' : moved p ∅ c X' -> X' = ∅.
Proof. intros Hm. apply set_eq. intros i. rewrite (Hm i). set_solver. Qed.

(** ** The invariant *)

(** State [s] stands for the set [X]. *)
Definition state (f : fa) (s : nat) (X : gset nat) : Prop :=
  get_posns f s = Some (desc a X) /\ alive X /\ out f !! s = Some (bool_decide (a ∈ X)).

Lemma state_unique f s X Y : state f s X -> state f s Y -> X = Y.
Proof.
  intros (E1 & H1 & _) (E2 & H2 & _). apply (desc_inj a); [by intros i; apply alive_bound..|]. congruence.
Qed.

(** The sizes of the arrays. *)
Definition shape (f : fa) : Prop :=
  length (gototab f) = NSTATES /\ Forall (fun r => length r = Z.to_nat NCHARS) (gototab f) /\
  length (out f) = NSTATES /\ length (posns f) = NSTATES.

Record consistent (f : fa) : Prop := {
  c_table : table f;
  c_shape : shape f;
  c_curstat : (2 <= curstat f < NSTATES)%nat;
  c_empty : state f 1 ∅;
  c_dead : forall c n, 0 <= c < 256 -> get_goto f 1 c = Some n -> n = 0%nat \/ n = 1%nat;
  c_states : forall s, (1 <= s <= curstat f)%nat -> exists X, state f s X;
  c_goto : forall s c n X, (1 <= s <= curstat f)%nat -> 0 <= c < 256 -> (s, c) <> (3%nat, 2) ->
    get_goto f s c = Some n -> n <> 0%nat -> state f s X ->
    (1 <= n <= curstat f)%nat /\ exists X', moved p X c X' /\ state f n X'
}.

(** The parts of the automaton that transitions do not change. *)
Definition same_pattern (f f' : fa) : Prop :=
  re f' = re f /\ accept f' = accept f /\ anchor f' = anchor f /\ initstat f' = initstat f /\ restr f' = restr f /\
  get_posns f' 0 = get_posns f 0 /\ out f' !! 0%nat = out f !! 0%nat.

(** The table grows, or it was full and has been emptied. *)
Definition grows (f f' : fa) : Prop :=
  (reset f' = reset f /\ (curstat f <= curstat f')%nat /\ forall s X, (1 <= s <= curstat f)%nat -> state f s X -> state f' s X) \/
  (reset f' = true /\ curstat f = (NSTATES - 1)%nat /\ curstat f' = 2%nat).

(** ** Elements of the table *)

Definition stored (s : nat) (c : Z) (v : nat) (f : fa) : fa :=
  match gototab f !! row_of s c with
  | Some r => set_gototab (<[row_of s c := <[column_of c := v]> r]> (gototab f)) f
  | None => f
  end.

Lemma put_goto_stored s c v st f :
  shape f -> (row_of s c < NSTATES)%nat -> put_goto s c v (st, f) = Ret tt (st, stored s c v f).
Proof.
  intros (Hl & _) Hs. unfold put_goto, stored. cbn [fst snd].
  destruct (lookup_lt_is_Some_2 (gototab f) (row_of s c)) as [r ->]; [lia|done].
Qed.

Lemma stored_shape s c v f : shape f -> shape (stored s c v f).
Proof.
  intros (H1 & H2 & H3 & H4). unfold stored. destruct (gototab f !! row_of s c) as [r|] eqn:E; [|done].
  unfold shape. cbn. rewrite length_insert. split_and!; try done. apply Forall_insert; [done|]. rewrite length_insert.
  by eapply (Forall_lookup_1 _ _ _ _ H2).
Qed.

Lemma stored_goto s c v f s0 c0 :
  shape f -> (row_of s c < NSTATES)%nat -> (column_of c < Z.to_nat NCHARS)%nat -> 0 <= c0 < 256 ->
  get_goto (stored s c v f) s0 c0 =
    if decide (s0 = row_of s c /\ Z.to_nat c0 = column_of c) then Some v else get_goto f s0 c0.
Proof.
  intros (H1 & H2 & _) Hr Hc Hc0. unfold stored, get_goto.
  destruct (row_of_char s0 c0 ltac:(unfold NCHARS; lia)) as [-> ->].
  destruct (lookup_lt_is_Some_2 (gototab f) (row_of s c)) as [r Er]; [lia|]. rewrite Er. cbn [gototab set_gototab].
  pose proof (Forall_lookup_1 _ _ _ _ H2 Er) as Hlr. cbn beta in Hlr.
  destruct (decide (s0 = row_of s c)) as [->|Hs].
  - rewrite list_lookup_insert_eq by lia. rewrite Er. destruct (decide (Z.to_nat c0 = column_of c)) as [->|Hne].
    + rewrite list_lookup_insert_eq by lia. by destruct (decide _) as [|[]].
    + rewrite list_lookup_insert_ne by done. destruct (decide _) as [[_ ?]|]; [done|done].
  - rewrite list_lookup_insert_ne by done. destruct (decide _) as [[? _]|]; [done|done].
Qed.

Lemma stored_rest s c v f :
  re (stored s c v f) = re f /\ accept (stored s c v f) = accept f /\ anchor (stored s c v f) = anchor f /\
  initstat (stored s c v f) = initstat f /\ restr (stored s c v f) = restr f /\ posns (stored s c v f) = posns f /\
  out (stored s c v f) = out f /\ curstat (stored s c v f) = curstat f /\ reset (stored s c v f) = reset f.
Proof. unfold stored. by destruct (gototab f !! row_of s c). Qed.

Lemma stored_state s c v f s0 X : state (stored s c v f) s0 X <-> state f s0 X.
Proof. unfold state, get_posns. destruct (stored_rest s c v f) as (_ & _ & _ & _ & _ & -> & -> & _). done. Qed.

Lemma stored_table s c v f : table (stored s c v f) <-> table f.
Proof. unfold table. destruct (stored_rest s c v f) as (-> & -> & _). done. Qed.

Lemma cleared_goto r f s c :
  shape f -> (r < NSTATES)%nat -> 0 <= c < 256 ->
  get_goto (clear_goto r f) s c = if decide (s = r) then Some 0%nat else get_goto f s c.
Proof.
  intros (H1 & _) Hr Hc. unfold get_goto, clear_goto. cbn [gototab set_gototab].
  destruct (row_of_char s c ltac:(unfold NCHARS; lia)) as [-> ->]. destruct (decide (s = r)) as [->|Hne].
  - rewrite list_lookup_insert_eq by lia. apply lookup_replicate_2. unfold NCHARS. lia.
  - by rewrite list_lookup_insert_ne.
Qed.

Lemma cleared_shape r f : shape f -> shape (clear_goto r f).
Proof.
  intros (H1 & H2 & H3 & H4). unfold shape. cbn. rewrite length_insert. split_and!; try done. apply Forall_insert; [done|].
  by rewrite length_replicate.
Qed.

(** The elements that [put_goto s c] changes, for the calls of [cgoto]: a character
    in any state, or the sign for the beginning in state 2. *)
Definition legal (s : nat) (c : Z) : Prop := 0 <= c < 256 \/ s = 2%nat /\ c = HAT.

Lemma legal_place s c : legal s c -> (1 <= s < NSTATES)%nat ->
  (row_of s c < NSTATES)%nat /\ (column_of c < Z.to_nat NCHARS)%nat /\
  forall s0 c0, 0 <= c0 < 256 -> s0 = row_of s c -> Z.to_nat c0 = column_of c -> (s0, c0) <> (3%nat, 2) -> s0 = s /\ c0 = c.
Proof.
  unfold NSTATES. intros [Hc|[-> ->]] Hs.
  - destruct (row_of_char s c ltac:(unfold NCHARS; lia)) as [-> ->]. split_and!; [lia|unfold NCHARS; lia|].
    intros s0 c0 Hc0 -> E _. split; [done|lia].
  - destruct row_of_hat as [-> ->]. split_and!; [lia|unfold NCHARS; lia|].
    intros s0 c0 Hc0 -> E Hne. destruct Hne. f_equal. lia.
Qed.

(** ** Looking for a state *)

Lemma find_state_spec f l i n :
  (forall s, (i <= s < i + n)%nat -> exists q, get_posns f s = Some q) ->
  exists r, find_state f l i n = Some r /\
    match r with
    | Some j => (i <= j < i + n)%nat /\ get_posns f j = Some l
    | None => forall s, (i <= s < i + n)%nat -> get_posns f s <> Some l
    end.
Proof.
  revert i. induction n as [|n IH]; intros i Hs; cbn [find_state].
  - exists None. split; [done|]. intros s ?. lia.
  - destruct (Hs i ltac:(lia)) as [q Hq]. rewrite Hq. case_bool_decide as E.
    + exists (Some i). split; [done|]. split; [lia|]. by rewrite Hq, E.
    + destruct (IH (S i)) as (r & -> & Hr); [intros s ?; apply Hs; lia|]. exists r. split; [done|]. destruct r as [j|].
      * split; [lia|]. by destruct Hr.
      * intros s Hsn. destruct (decide (s = i)) as [->|]; [rewrite Hq; congruence|apply Hr; lia].
Qed.

(** A state with a set is found at its index or before it. *)
Lemma find_dead f n : get_posns f 1 = Some [] -> find_state f [] 1 (S n) = Some (Some 1%nat).
Proof. intros H1. cbn. rewrite H1. by rewrite bool_decide_eq_true_2. Qed.

(** ** A new state *)

(** The automaton with the set [l] as state [n], after the table [f1] is prepared. *)
Definition added (n : nat) (l : list nat) (b : bool) (s : nat) (c : Z) (f1 : fa) : fa :=
  put_out n b (stored s c n (put_posns n l (clear_goto n f1))).

Lemma added_shape n l b s c f1 : shape f1 -> shape (added n l b s c f1).
Proof.
  intros Hf. unfold added. assert (H : shape (stored s c n (put_posns n l (clear_goto n f1)))).
  { apply stored_shape. destruct (cleared_shape n f1 Hf) as (H1 & H2 & H3 & H4). unfold shape, put_posns. cbn [gototab out posns set_posns]. by rewrite length_insert. }
  destruct H as (H1 & H2 & H3 & H4). unfold shape, put_out. cbn [gototab out posns set_out]. by rewrite length_insert.
Qed.

Lemma added_rest n l b s c f1 :
  re (added n l b s c f1) = re f1 /\ accept (added n l b s c f1) = accept f1 /\ anchor (added n l b s c f1) = anchor f1 /\
  initstat (added n l b s c f1) = initstat f1 /\ restr (added n l b s c f1) = restr f1 /\
  curstat (added n l b s c f1) = curstat f1 /\ reset (added n l b s c f1) = reset f1.
Proof.
  unfold added. set (g := put_posns n l (clear_goto n f1)).
  destruct (stored_rest s c n g) as (E1 & E2 & E3 & E4 & E5 & _ & _ & E6 & E7). by rewrite <-?E1.
Qed.

Lemma added_posns n l b s c f1 s0 :
  shape f1 -> (n < NSTATES)%nat ->
  get_posns (added n l b s c f1) s0 = (if decide (s0 = n) then Some l else get_posns f1 s0) /\
  out (added n l b s c f1) !! s0 = (if decide (s0 = n) then Some b else out f1 !! s0).
Proof.
  intros (H1 & H2 & H3 & H4) Hn. unfold added. set (g := put_posns n l (clear_goto n f1)).
  destruct (stored_rest s c n g) as (_ & _ & _ & _ & _ & E1 & E2 & _). split.
  - transitivity (get_posns g s0).
    + unfold get_posns at 1. unfold put_out. cbn [posns set_out]. by rewrite E1.
    + unfold g. rewrite put_posns_get by (cbn; lia). done.
  - unfold put_out. cbn [out set_out]. rewrite E2. change (out g) with (out f1). destruct (decide (s0 = n)) as [->|].
    + apply list_lookup_insert_eq. lia.
    + by apply list_lookup_insert_ne.
Qed.

Lemma added_state n X b s c f1 s0 Y :
  shape f1 -> (n < NSTATES)%nat -> s0 <> n -> state (added n (desc a X) b s c f1) s0 Y <-> state f1 s0 Y.
Proof.
  intros Hf Hn Hne. unfold state. destruct (added_posns n (desc a X) b s c f1 s0 Hf Hn) as [-> ->].
  destruct (decide (s0 = n)); [done|]. done.
Qed.

Lemma added_new n X s c f1 :
  shape f1 -> (n < NSTATES)%nat -> alive X -> state (added n (desc a X) (bool_decide (a ∈ X)) s c f1) n X.
Proof.
  intros Hf Hn HX. unfold state. destruct (added_posns n (desc a X) (bool_decide (a ∈ X)) s c f1 n Hf Hn) as [-> ->].
  by destruct (decide (n = n)).
Qed.

Lemma added_goto n l b s c f1 s0 c0 :
  shape f1 -> (n < NSTATES)%nat -> (1 <= s < NSTATES)%nat -> legal s c -> 0 <= c0 < 256 -> (s0, c0) <> (3%nat, 2) ->
  get_goto (added n l b s c f1) s0 c0 =
    if decide (s0 = s /\ c0 = c) then Some n else if decide (s0 = n) then Some 0%nat else get_goto f1 s0 c0.
Proof.
  intros Hf Hn Hs Hl Hc0 Hne. unfold added. set (g := put_posns n l (clear_goto n f1)).
  destruct (legal_place s c Hl Hs) as (Hr & Hcol & Hinv).
  assert (Hg : shape g). { destruct (cleared_shape n f1 Hf) as (H1 & H2 & H3 & H4). unfold g, shape, put_posns. cbn [gototab out posns set_posns]. by rewrite length_insert. }
  change (get_goto (put_out n b (stored s c n g)) s0 c0) with (get_goto (stored s c n g) s0 c0).
  rewrite (stored_goto s c n g s0 c0 Hg Hr Hcol Hc0).
  destruct (decide (s0 = row_of s c /\ Z.to_nat c0 = column_of c)) as [[Ha Hb]|Hn1].
  - destruct (decide (s0 = s /\ c0 = c)) as [|Hx]; [done|]. destruct Hx. by apply Hinv.
  - destruct (decide (s0 = s /\ c0 = c)) as [[-> ->]|].
    + destruct Hn1. by destruct (row_of_char s c ltac:(unfold NCHARS; lia)) as [-> ->].
    + change (get_goto g s0 c0) with (get_goto (clear_goto n f1) s0 c0). by apply cleared_goto.
Qed.

(** The table with one more state. *)
Lemma extended_consistent f s c X X' :
  consistent f -> (1 <= s <= curstat f)%nat -> legal s c -> state f s X -> moved p X c X' -> s <> 1%nat ->
  (curstat f < NSTATES - 1)%nat ->
  let n := S (curstat f) in
  let f' := added n (desc a X') (bool_decide (a ∈ X')) s c (set_curstat n f) in
  consistent f' /\ state f' n X' /\ same_pattern f f' /\ grows f f'.
Proof.
  intros Hf Hs Hl HX Hm Hs1 Hfull n f'. pose proof (c_curstat f Hf) as Hcur. unfold NSTATES in Hfull, Hcur.
  assert (Hsh : shape (set_curstat n f)) by exact (c_shape f Hf).
  assert (Hn : (n < NSTATES)%nat) by (unfold n, NSTATES; lia).
  assert (Hnew : state f' n X') by (apply added_new; [done..|by eapply moved_alive]).
  assert (Hold : forall s0 Y, s0 <> n -> state f' s0 Y <-> state f s0 Y) by (intros s0 Y Hne; change (state f s0 Y) with (state (set_curstat n f) s0 Y); by apply added_state).
  destruct (added_rest n (desc a X') (bool_decide (a ∈ X')) s c (set_curstat n f)) as (E1 & E2 & E3 & E4 & E5 & E6 & E7). fold f' in E1, E2, E3, E4, E5, E6, E7.
  change (curstat (set_curstat n f)) with n in E6. change (reset (set_curstat n f)) with (reset f) in E7.
  assert (Hgo : forall s0 c0, 0 <= c0 < 256 -> (s0, c0) <> (3%nat, 2) -> get_goto f' s0 c0 =
    if decide (s0 = s /\ c0 = c) then Some n else if decide (s0 = n) then Some 0%nat else get_goto f s0 c0).
  { intros s0 c0 Hc0 Hne. change (get_goto f s0 c0) with (get_goto (set_curstat n f) s0 c0).
    apply added_goto; [done|done|unfold NSTATES; lia|done..]. }
  split; [|split_and!; [done| |left; rewrite E6, E7; split_and!; [done|unfold n; lia|intros s0 Y Hs0 HY; apply Hold; [unfold n; lia|done]]]].
  2: { unfold same_pattern. rewrite E1, E2, E3, E4, E5. destruct (added_posns n (desc a X') (bool_decide (a ∈ X')) s c (set_curstat n f) 0 Hsh Hn) as [G1 G2].
       fold f' in G1, G2. rewrite G1, G2. destruct (decide (0%nat = n)); [done|]. done. }
  split; rewrite ?E6.
  - pose proof (c_table f Hf) as Ht. unfold table in *. rewrite E1, E2. exact Ht.
  - by apply added_shape.
  - unfold n, NSTATES. lia.
  - apply Hold; [unfold n; lia|]. by apply c_empty.
  - intros c0 m Hc0 Hg. rewrite Hgo in Hg by (done || congruence). destruct (decide _) as [[? _]|]; [done|].
    destruct (decide (1%nat = n)); [unfold n in *; lia|]. by eapply c_dead.
  - intros s0 Hs0. destruct (decide (s0 = n)) as [->|Hne]; [eauto|]. destruct (c_states f Hf s0) as [Y HY]; [unfold n in *; lia|].
    exists Y. by apply Hold.
  - intros s0 c0 m Y Hs0 Hc0 Hne Hg Hm0 HY. rewrite Hgo in Hg by done. destruct (decide _) as [[-> ->]|].
    + injection Hg as <-. split; [unfold n; lia|]. exists X'. split; [|done]. apply Hold in HY; [|unfold n; lia].
      by rewrite (state_unique f s Y X HY HX).
    + destruct (decide (s0 = n)) as [->|Hsn]; [congruence|]. apply Hold in HY; [|done].
      destruct (c_goto f Hf s0 c0 m Y) as [Hm1 (Y' & HY' & HmY)]; [unfold n in *; lia|done..|].
      split; [unfold n; lia|]. exists Y'. split; [done|]. apply Hold; [unfold n; lia|done].
Qed.

(** The table that was full: state 2 is the new one, and only state 1 is left. *)
Lemma emptied_consistent f s c X' :
  consistent f -> (3 <= s <= curstat f)%nat -> 0 <= c < 256 -> alive X' -> curstat f = (NSTATES - 1)%nat ->
  let f1 := free_posns 2 (NSTATES - 2) (set_reset true (set_curstat 2 f)) in
  let f' := added 2 (desc a X') (bool_decide (a ∈ X')) s c f1 in
  consistent f' /\ state f' 2 X' /\ same_pattern f f' /\ grows f f'.
Proof.
  intros Hf Hs Hc HX' Hfull f1 f'.
  assert (Hsh : shape f1).
  { destruct (c_shape f Hf) as (H1 & H2 & H3 & H4). split_and!; [done..|]. unfold f1. by rewrite free_posns_length. }
  assert (Hn : (2 < NSTATES)%nat) by (unfold NSTATES; lia).
  assert (Hnew : state f' 2 X') by (by apply added_new).
  assert (Hlow : forall s0, (s0 < 2)%nat -> get_posns f1 s0 = get_posns f s0) by (intros s0 Hs0; unfold f1; by rewrite free_posns_below).
  assert (Hdead : state f' 1 ∅).
  { apply added_state; [done..|]. destruct (c_empty f Hf) as (G1 & G2 & G3). split_and!; [by rewrite Hlow by lia|done..]. }
  destruct (added_rest 2 (desc a X') (bool_decide (a ∈ X')) s c f1) as (E1 & E2 & E3 & E4 & E5 & E6 & E7). fold f' in E1, E2, E3, E4, E5, E6, E7.
  change (curstat f1) with 2%nat in E6. change (reset f1) with true in E7.
  assert (Hgo : forall s0 c0, (s0 <= 2)%nat -> 0 <= c0 < 256 -> get_goto f' s0 c0 = if decide (s0 = 2%nat) then Some 0%nat else get_goto f s0 c0).
  { intros s0 c0 Hs0 Hc0. change (get_goto f s0 c0) with (get_goto f1 s0 c0). unfold f'.
    rewrite added_goto; [|done|done|unfold NSTATES in *; lia|by left|done|intros [= -> _]; lia]. destruct (decide (s0 = s /\ c0 = c)) as [[-> _]|]; [lia|done]. }
  split; [|split_and!; [done| |right; rewrite E6, E7; done]].
  2: { unfold same_pattern. rewrite E1, E2, E3, E4, E5. destruct (added_posns 2 (desc a X') (bool_decide (a ∈ X')) s c f1 0 Hsh Hn) as [G1 G2].
       fold f' in G1, G2. rewrite G1, G2. cbn. rewrite Hlow by lia. done. }
  split; rewrite ?E6.
  - pose proof (c_table f Hf) as Ht. unfold table in *. rewrite E1, E2. exact Ht.
  - by apply added_shape.
  - unfold NSTATES. lia.
  - done.
  - intros c0 m Hc0 Hg. rewrite Hgo in Hg by (done || lia). by eapply c_dead.
  - intros s0 Hs0. assert (s0 = 1%nat \/ s0 = 2%nat) as [->| ->] by lia; eauto.
  - intros s0 c0 m Y Hs0 Hc0 Hne Hg Hm0 HY. rewrite Hgo in Hg by (done || lia). assert (s0 = 1%nat \/ s0 = 2%nat) as [->| ->] by lia.
    + destruct (decide (1%nat = 2%nat)); [done|]. destruct (c_dead f Hf c0 m Hc0 Hg) as [->| ->]; [done|]. split; [lia|].
      exists ∅. split; [|done]. rewrite (state_unique f' 1 Y ∅ HY Hdead). intros i. set_solver.
    + destruct (decide (2%nat = 2%nat)); [congruence|done].
Qed.

(** A transition to a state that exists. *)
Lemma stored_consistent f s c i X X' :
  consistent f -> (1 <= s <= curstat f)%nat -> legal s c -> state f s X -> moved p X c X' ->
  (1 <= i <= curstat f)%nat -> state f i X' -> (s = 1%nat -> i = 1%nat) ->
  let f' := stored s c i f in consistent f' /\ state f' i X' /\ same_pattern f f' /\ grows f f'.
Proof.
  intros Hf Hs Hl HX Hm Hi HiX Hdead f'. pose proof (c_curstat f Hf) as Hcur.
  destruct (legal_place s c Hl ltac:(lia)) as (Hr & Hcol & Hinv).
  destruct (stored_rest s c i f) as (E1 & E2 & E3 & E4 & E5 & E6 & E7 & E8 & E9). fold f' in E1, E2, E3, E4, E5, E6, E7, E8, E9.
  assert (Hst : forall s0 Y, state f' s0 Y <-> state f s0 Y) by (intros; apply stored_state).
  assert (Hgo : forall s0 c0 m, 0 <= c0 < 256 -> (s0, c0) <> (3%nat, 2) -> get_goto f' s0 c0 = Some m ->
    (s0 = s /\ c0 = c /\ m = i) \/ get_goto f s0 c0 = Some m).
  { intros s0 c0 m Hc0 Hne Hg. unfold f' in Hg. rewrite stored_goto in Hg; [|by apply c_shape|done..].
    destruct (decide _) as [[Ha Hb]|]; [|by right]. destruct (Hinv s0 c0 Hc0 Ha Hb Hne). left. split_and!; congruence. }
  split; [|split_and!; [by apply Hst| |left; rewrite E8, E9; split_and!; [done..|]; intros s0 Y _ HY; by apply Hst]].
  2: { unfold same_pattern, get_posns. by rewrite E1, E2, E3, E4, E5, E6, E7. }
  split; rewrite ?E8.
  - apply stored_table. by apply c_table.
  - apply stored_shape. by apply c_shape.
  - done.
  - apply Hst. by apply c_empty.
  - intros c0 m Hc0 Hg. destruct (Hgo 1%nat c0 m Hc0 ltac:(congruence) Hg) as [(<- & _ & ->)|Hg']; [right; by apply Hdead|by eapply c_dead].
  - intros s0 Hs0. destruct (c_states f Hf s0 Hs0) as [Y HY]. exists Y. by apply Hst.
  - intros s0 c0 m Y Hs0 Hc0 Hne Hg Hm0 HY. apply Hst in HY. destruct (Hgo s0 c0 m Hc0 Hne Hg) as [(-> & -> & ->)|Hg'].
    + split; [done|]. exists X'. rewrite (state_unique f s Y X HY HX). split; [done|by apply Hst].
    + destruct (c_goto f Hf s0 c0 m Y Hs0 Hc0 Hne Hg' Hm0 HY) as [? (Y' & ? & ?)]. split; [done|]. exists Y'. split; [done|by apply Hst].
Qed.

(** ** [cgoto] *)

(** The arrays have room for all positions and their number. *)
Definition room (st : scratch) : Prop := (S a < maxsetvec st)%nat.

Lemma on_scratch_Ret {A} (c : M scratch A) st f x st' : c st = Ret x st' -> on_scratch c (st, f) = Ret x (st', f).
Proof. intros E. unfold on_scratch. cbn. by rewrite E. Qed.

Lemma lread_Ret {S A} (g : S -> option A) s x : g s = Some x -> lread g s = Ret x s.
Proof. intros E. unfold lread. by rewrite E. Qed.

(** The transition is not the one that the full table breaks. *)
Definition calm_at (f : fa) (s : nat) : Prop := (curstat f < NSTATES - 1)%nat \/ s <> 2%nat.

(** Entering a set that no state stands for. *)
Definition enter (s : nat) (c : Z) (tmpset : list nat) : M machine nat :=
  let* n := new_state in
  do* modify_fa (put_posns n tmpset) in
  do* put_goto s c n in
  let* b := lread (fun st => setvec st.1 !! a) in
  do* modify_fa (put_out n b) in
  lret n.

Lemma cgoto_set st f s c X :
  consistent f -> room st -> (1 <= s <= curstat f)%nat -> state f s X ->
  exists st' X' r, room st' /\ holds a st' X' /\ moved p X c X' /\ alive X' /\
    cgoto s c (st, f) = match r with Some i => (do* put_goto s c i in lret i) (st', f) | None => enter s c (desc a X') (st', f) end /\
    find_state f (desc a X') 1 (curstat f) = Some r /\
    match r with
    | Some j => (1 <= j <= curstat f)%nat /\ get_posns f j = Some (desc a X')
    | None => forall s0, (1 <= s0 <= curstat f)%nat -> get_posns f s0 <> Some (desc a X')
    end.
Proof.
  intros Hf Hroom Hs (HXp & HXa & HXo). pose proof (c_table f Hf) as Ht.
  set (X' := targets (re f) (desc a X) c). assert (Hm : moved p X c X') by by apply targets_moved.
  destruct (grow_spec a a st) as (s1 & E1 & M1 & _ & _ & _ & _).
  destruct (clear_spec a s1) as (s2 & E2 & H2 & M2); [unfold room in Hroom; lia|].
  destruct (mark_next_spec a (re f) (desc a X) c s2 ∅ H2 (rows_of f X (c_table f Hf) HXa)) as (s3 & E3 & H3 & M3).
  rewrite (left_id_L ∅ (∪)) in H3. fold X' in H3. assert (Hr3 : room s3) by (unfold room in *; lia).
  destruct (find_state_spec f (desc a X') 1 (curstat f)) as (r & Efind & Hr).
  { intros s0 Hs0. destruct (c_states f Hf s0) as (Y & ? & _); [lia|eauto]. }
  exists s3, X', r. split_and!; [done..|by eapply moved_alive| |done|].
  - unfold cgoto. unfold lbind at 1, get_fa at 1. cbn [snd]. rewrite (proj1 Ht).
    rewrite (lbind_step _ _ _ _ _ (on_scratch_Ret _ _ f _ _ E1)). rewrite (lbind_step _ _ _ _ _ (on_scratch_Ret _ _ f _ _ E2)).
    rewrite (lbind_step _ _ _ _ _ (lread_Ret (fun st => get_posns st.2 s) (s2, f) _ HXp)).
    rewrite (lbind_step _ _ _ _ _ (on_scratch_Ret _ _ f _ _ E3)).
    rewrite (lbind_step _ _ _ _ _ (on_scratch_Ret _ _ f _ _ (fill_tmpset_spec a s3 X' H3 Hr3))).
    rewrite (lbind_step _ _ _ _ _ (lread_Ret (fun st => find_state st.2 (desc a X') 1 (curstat f)) (s3, f) _ Efind)).
    by destruct r.
  - destruct r as [j|]; [split; [lia|by destruct Hr]|]. intros s0 Hs0. apply Hr. lia.
Qed.

Lemma enter_added st f s c X' n f1 :
  new_state (st, f) = Ret n (st, clear_goto n f1) -> shape f1 -> (n < NSTATES)%nat -> (row_of s c < NSTATES)%nat -> holds a st X' ->
  enter s c (desc a X') (st, f) = Ret n (st, added n (desc a X') (bool_decide (a ∈ X')) s c f1).
Proof.
  intros En Hsh Hn Hrow (_ & Hv & _). unfold enter. rewrite (lbind_step _ _ _ _ _ En). unfold lbind at 1, modify_fa at 1. cbn [fst snd].
  assert (Hsh' : shape (put_posns n (desc a X') (clear_goto n f1))).
  { destruct (cleared_shape n f1 Hsh) as (H1 & H2 & H3 & H4). unfold shape, put_posns. cbn [gototab out posns set_posns]. by rewrite length_insert. }
  rewrite (lbind_step _ _ _ _ _ (put_goto_stored s c n st _ Hsh' Hrow)).
  rewrite (lbind_step _ _ _ _ _ (lread_Ret (fun st => setvec st.1 !! a) (st, _) _ (Hv a ltac:(lia)))). done.
Qed.

Lemma new_state_room st f :
  (curstat f < NSTATES - 1)%nat ->
  new_state (st, f) = Ret (S (curstat f)) (st, clear_goto (S (curstat f)) (set_curstat (S (curstat f)) f)).
Proof. intros Hc. unfold new_state, lbind, get_fa, modify_fa. cbn [fst snd]. by destruct (Nat.leb_spec (NSTATES - 1) (curstat f)); [lia|]. Qed.

Lemma new_state_full st f :
  curstat f = (NSTATES - 1)%nat ->
  new_state (st, f) = Ret 2%nat (st, clear_goto 2 (free_posns 2 (NSTATES - 2) (set_reset true (set_curstat 2 f)))).
Proof. intros Hc. unfold new_state, lbind, get_fa, modify_fa. cbn [fst snd]. by rewrite Hc. Qed.

Lemma state_found f i X' : consistent f -> (1 <= i <= curstat f)%nat -> get_posns f i = Some (desc a X') -> alive X' -> state f i X'.
Proof.
  intros Hf Hi Hp HX'. destruct (c_states f Hf i Hi) as (Y & HYp & HYa & HYo).
  assert (Y = X') as -> by (apply (desc_inj a); [by intros j; apply alive_bound..|congruence]). done.
Qed.

Lemma cgoto_spec st f s c X :
  consistent f -> room st -> (1 <= s <= curstat f)%nat -> legal s c -> state f s X -> calm_at f s ->
  exists n st' f' X', cgoto s c (st, f) = Ret n (st', f') /\ room st' /\ consistent f' /\ same_pattern f f' /\ grows f f' /\
    (1 <= n <= curstat f')%nat /\ moved p X c X' /\ state f' n X' /\
    (find_state f (desc a X') 1 (curstat f) = Some (Some n) /\ curstat f' = curstat f \/
     find_state f (desc a X') 1 (curstat f) = Some None /\ curstat f' = n).
Proof.
  intros Hf Hroom Hs Hl HX Hcalm. pose proof (c_curstat f Hf) as Hcur.
  destruct (legal_place s c Hl ltac:(lia)) as (Hrow & _).
  destruct (cgoto_set st f s c X Hf Hroom Hs HX) as (st' & X' & r & Hr' & Hh & Hm & Ha & E & Efind & Hr).
  assert (Hone : s = 1%nat -> r = Some 1%nat).
  { intros ->. rewrite (state_unique f 1 X ∅ HX (c_empty f Hf)) in Hm. apply moved_empty in Hm as ->. rewrite desc_empty in Efind.
    destruct (c_empty f Hf) as (Hp & _). rewrite desc_empty in Hp. destruct (curstat f) as [|k]; [lia|]. rewrite find_dead in Efind by done. congruence. }
  destruct r as [i|].
  - destruct Hr as [Hi Hip]. exists i, st', (stored s c i f), X'. rewrite E.
    rewrite (lbind_step _ _ _ _ _ (put_goto_stored s c i st' f (c_shape f Hf) Hrow)).
    destruct (stored_consistent f s c i X X' Hf Hs Hl HX Hm Hi (state_found f i X' Hf Hi Hip Ha)) as (H1 & H2 & H3 & H4).
    { intros H1. specialize (Hone H1). congruence. }
    destruct (stored_rest s c i f) as (_ & _ & _ & _ & _ & _ & _ & Ec & _). rewrite Ec. split_and!; try done; try lia. by left.
  - destruct (decide (curstat f < NSTATES - 1)%nat) as [Hlt|Hfull].
    + destruct (extended_consistent f s c X X' Hf Hs Hl HX Hm) as (H1 & H2 & H3 & H4); [intros H1; by apply Hone in H1|done|].
      eexists (S (curstat f)), st', _, X'. rewrite E, (enter_added st' f s c X' _ _ (new_state_room st' f Hlt)); [|exact (c_shape f Hf)|lia|done|done].
      destruct (added_rest (S (curstat f)) (desc a X') (bool_decide (a ∈ X')) s c (set_curstat (S (curstat f)) f)) as (_ & _ & _ & _ & _ & Ec & _).
      rewrite Ec. split_and!; try done; cbn; try lia. by right.
    + assert (Hc31 : curstat f = (NSTATES - 1)%nat) by lia.
      assert (Hs3 : (3 <= s)%nat). { destruct Hcalm as [?|?]; [lia|]. assert (s <> 1%nat) by (intros H1; by apply Hone in H1). lia. }
      assert (Hc : 0 <= c < 256) by (destruct Hl as [?|[-> _]]; [done|lia]).
      destruct (emptied_consistent f s c X' Hf ltac:(lia) Hc Ha Hc31) as (H1 & H2 & H3 & H4).
      eexists 2%nat, st', _, X'. rewrite E, (enter_added st' f s c X' _ _ (new_state_full st' f Hc31)); [|..|lia|done|done].
      * destruct (added_rest 2 (desc a X') (bool_decide (a ∈ X')) s c (free_posns 2 (NSTATES - 2) (set_reset true (set_curstat 2 f)))) as (_ & _ & _ & _ & _ & Ec & _).
        rewrite Ec. split_and!; try done; cbn; try lia. by right.
      * destruct (c_shape f Hf) as (G1 & G2 & G3 & G4). split_and!; [done..|]. by rewrite free_posns_length.
Qed.

End Automaton.
