(* ===== verification/AwkMatch.v ===== *)
(** * Regular expressions of nawk: correctness of matching

    The functions [match], [pmatch] and [nematch] on the automaton that [mkdfa]
    makes, in any sequence of calls: a text is found exactly if a part of it matches
    the pattern, and [pmatch] and [nematch] return the leftmost longest part.

    Two defects are excluded by hypotheses: the byte 2 in a text, and a table that is
    full when a transition of state 2 is entered ([calm]).  A third one, the overflow
    of [tmpset], is excluded by [room].  The file on the cache shows them by examples. *)

From S2P Require Import Prelude Util AwkRegex AwkFollow AwkDfa AwkStates.
Open Scope Z_scope.
Open Scope ndk_scope.

(** ** The transitions of a run *)

(** A transition, but a failure where the full table would be emptied in state 2. *)
Definition guarded (s : nat) (c : Z) : M machine nat :=
  let* ns := lread (fun st => get_goto st.2 s c) in
  if (ns =? 0)%nat then
    let* f := get_fa in
    if (NSTATES - 1 <=? curstat f)%nat && (s =? 2)%nat then lfail (Msg "table full" []) else cgoto s c
  else lret ns.

(** The run never enters a transition of state 2 into the full table. *)
Definition calm {S A} (o : outcome S A) : bool := match o with Fail _ _ => false | _ => true end.

Lemma calm_bind {S A B} (c : M S A) (k : A -> M S B) m x m' : calm (lbind c k m) = true -> c m = Ret x m' -> calm (k x m') = true.
Proof. unfold lbind. intros Hc E. by rewrite E in Hc. Qed.

Section Runs.
Context (p : node) (Hnf : no_final p = true) (Htx : texts p = true).

Abbreviation a := (last_pos p).
Abbreviation consistent := (consistent p).
Abbreviation state := (state p).
Abbreviation room := (room p).

(** A state and its set stay while the table is not emptied. *)
Definition keeps (f f' : fa) : Prop :=
  same_pattern f f' /\
  (reset f' = false -> reset f = false /\ (curstat f <= curstat f')%nat /\
    forall s X, (1 <= s <= curstat f)%nat -> state f s X -> state f' s X).

Lemma keeps_refl f : keeps f f.
Proof. by split. Qed.

Lemma keeps_trans f g h : keeps f g -> keeps g h -> keeps f h.
Proof.
  intros [(A1 & A2 & A3 & A4 & A5 & A6 & A7) HA] [(B1 & B2 & B3 & B4 & B5 & B6 & B7) HB]. split; [split_and!; congruence|].
  intros Hr. destruct (HB Hr) as (Hg & Lg & Sg). destruct (HA Hg) as (Hf & Lf & Sf). split_and!; [done|lia|].
  intros s X Hs HX. apply Sg; [lia|]. by apply Sf.
Qed.

Lemma keeps_grows f f' : same_pattern f f' -> grows p f f' -> keeps f f'.
Proof.
  intros Hs Hg. split; [done|]. intros Hr. destruct Hg as [(E & L & H)|(E & _)]; [|congruence]. rewrite <-E. auto.
Qed.

(** The automaton [f] in state [s], which stands for [X]. *)
Definition at_state (f : fa) (s : nat) (X : gset nat) : Prop := (1 <= s <= curstat f)%nat /\ state f s X.

(** One transition of a run. *)
Lemma step_spec st f s c X :
  consistent f -> room st -> at_state f s X -> 0 <= c < 256 -> c <> 2 -> calm (guarded s c (st, f)) = true ->
  exists n st' f' X', step s c (st, f) = Ret n (st', f') /\ guarded s c (st, f) = Ret n (st', f') /\
    room st' /\ consistent f' /\ keeps f f' /\ moved p X c X' /\ at_state f' n X'.
Proof.
  intros Hf Hroom [Hs HX] Hc Hc2 Hcalm. pose proof (c_curstat p f Hf) as Hcur. destruct (c_shape p f Hf) as (Hl1 & Hl2 & _).
  assert (Hget : exists n, get_goto f s c = Some n).
  { unfold get_goto. destruct (row_of_char s c ltac:(unfold NCHARS; lia)) as [-> ->].
    destruct (lookup_lt_is_Some_2 (gototab f) s) as [r Er]; [lia|]. rewrite Er. apply lookup_lt_is_Some_2.
    rewrite (Forall_lookup_1 _ _ _ _ Hl2 Er). unfold NCHARS. lia. }
  destruct Hget as [n Hget]. unfold step, guarded in *.
  rewrite !(lbind_step _ _ _ _ _ (lread_Ret (fun st => get_goto st.2 s c) (st, f) _ Hget)) in *.
  destruct (n =? 0)%nat eqn:Hn.
  - unfold lbind at 1, get_fa in Hcalm. unfold lbind at 1, get_fa. cbn [snd] in *.
    destruct ((NSTATES - 1 <=? curstat f)%nat && (s =? 2)%nat) eqn:Eg; [done|].
    assert (Hca : calm_at f s). { apply andb_false_iff in Eg as [Eg|Eg]; [left; apply Nat.leb_gt in Eg; lia|right; by apply Nat.eqb_neq in Eg]. }
    destruct (cgoto_spec p Hnf Htx st f s c X Hf Hroom Hs (or_introl Hc) HX Hca) as (n1 & st' & f' & X' & E & H1 & H2 & H3 & H4 & H5 & H6 & H7 & _).
    exists n1, st', f', X'. split_and!; try done. by apply keeps_grows.
  - apply Nat.eqb_neq in Hn. destruct (c_goto p f Hf s c n X Hs Hc) as [Hn1 (X' & Hm & HX')]; [congruence|done..|].
    exists n, st, f, X'. split_and!; try done.
Qed.

(** ** Texts *)

(** A byte that the table can have a transition for. *)
Definition clean (t : cstr) : Prop := Forall (fun c => zc c <> 0 /\ zc c <> 2) t.

(** The set accepts the characters [u]. *)
Definition accepts (X : gset nat) (u : list Z) : Prop := accepted p X (map Some u ++ [None]).

Lemma accepts_nil X : accepts X [] <-> a ∈ X.
Proof. by apply accepted_end. Qed.

Lemma accepts_cons X c X' u : moved p X c X' -> accepts X (c :: u) <-> accepts X' u.
Proof. intros Hm. by apply accepted_step. Qed.

Lemma accepts_empty u : ~ accepts ∅ u.
Proof. intros (o & x & w & _ & Hi & _). set_solver. Qed.

Lemma is_out_state f s X st : at_state f s X -> is_out s (st, f) = Ret (bool_decide (a ∈ X)) (st, f).
Proof. intros [_ (_ & _ & Ho)]. unfold is_out. by apply lread_Ret. Qed.

Lemma zc_clean c t : clean (c :: t) -> 0 <= zc c < 256 /\ zc c <> 2 /\ zc c <> 0 /\ clean t.
Proof. intros Hc. inversion Hc as [|? ? [??] ?]; subst. pose proof (zc_bound c). auto. Qed.

(** What every loop leaves behind. *)
Definition leaves_ok (f : fa) (m : machine) : Prop := room m.1 /\ consistent m.2 /\ keeps f m.2.

Lemma match_loop_spec t st f s X :
  clean t -> consistent f -> room st -> at_state f s X -> calm (match_loop guarded s (chars t) (st, f)) = true ->
  exists b m, match_loop step s (chars t) (st, f) = Ret b m /\ leaves_ok f m /\
    (b = true <-> exists u v, chars t = u ++ v /\ u <> [] /\ accepts X u).
Proof.
  revert st f s X. induction t as [|c t IH]; intros st f s X Ht Hf Hroom HX Hcalm.
  - cbn [chars map app match_loop] in *. assert (Hcg : calm (guarded s 0 (st, f)) = true) by (revert Hcalm; unfold lbind at 1; by destruct (guarded s 0 (st, f))).
    destruct (step_spec st f s 0 X Hf Hroom HX ltac:(lia) ltac:(lia) Hcg) as (n & st' & f' & X' & E & _ & Hr' & Hf' & Hk & Hm & HX').
    rewrite (lbind_step _ _ _ _ _ E). rewrite (lbind_step _ _ _ _ _ (is_out_state f' n X' st' HX')).
    assert (Hu : (exists u v, [0] = u ++ v /\ u <> [] /\ accepts X u) <-> a ∈ X').
    { rewrite <-accepts_nil, <-(accepts_cons X 0 X' [] Hm). split; [|intros HA; by exists [0], []].
      intros (u & v & Eu & Hne & HA). destruct u as [|x u]; [done|]. injection Eu as <- Eu. symmetry in Eu. by apply app_eq_nil in Eu as [-> ->]. }
    exists (bool_decide (a ∈ X')), (st', f'). split_and!; [by case_bool_decide|done..|]. by rewrite bool_decide_eq_true.
  - destruct (zc_clean c t Ht) as (Hb & H2 & H0 & Ht'). change (chars (c :: t)) with (zc c :: chars t) in *. cbn [match_loop] in *.
    assert (Hcg : calm (guarded s (zc c) (st, f)) = true) by (revert Hcalm; unfold lbind at 1; by destruct (guarded s (zc c) (st, f))).
    destruct (step_spec st f s (zc c) X Hf Hroom HX Hb H2 Hcg) as (n & st' & f' & X' & E & Eg & Hr' & Hf' & Hk & Hm & HX').
    rewrite (lbind_step _ _ _ _ _ E). rewrite (lbind_step _ _ _ _ _ (is_out_state f' n X' st' HX')).
    rewrite (lbind_step _ _ _ _ _ Eg) in Hcalm. rewrite (lbind_step _ _ _ _ _ (is_out_state f' n X' st' HX')) in Hcalm.
    rewrite (proj2 (Z.eqb_neq _ _) H0) in *. case_bool_decide as Ha.
    + exists true, (st', f'). split_and!; [done..|]. split; [|done]. intros _. exists [zc c], (chars t). split_and!; [done..|].
      apply (accepts_cons X (zc c) X' [] Hm). by apply accepts_nil.
    + destruct (IH st' f' n X' Ht' Hf' Hr' HX' Hcalm) as (b & m & Er & (Hmr & Hmc & Hmk) & Hiff). exists b, m. split_and!; [done|split_and!; [done..|by eapply keeps_trans]|].
      rewrite Hiff. split.
      * intros (u & v & -> & Hne & HA). exists (zc c :: u), v. split_and!; [done..|]. by apply (accepts_cons X (zc c) X' u Hm).
      * intros (u & v & Eu & Hne & HA). destruct u as [|x u]; [done|]. injection Eu as <- Eu. apply (accepts_cons X (zc c) X' u Hm) in HA.
        exists u, v. split_and!; [done| |done]. intros ->. by apply accepts_nil in HA.
Qed.

(** ** The longest match *)

(** The set accepts the next [k] characters of a text, and the end if they are all. *)
Definition len_at (X : gset nat) (t : cstr) (k : nat) : Prop :=
  (k <= length t)%nat /\ (accepts X (map zc (take k t)) \/ k = length t /\ accepts X (chars t)).

Lemma len_at_cons X c X' t k : moved p X (zc c) X' -> len_at X (c :: t) (S k) <-> len_at X' t k.
Proof.
  intros Hm. unfold len_at. cbn [length take map]. change (chars (c :: t)) with (zc c :: chars t).
  rewrite !(accepts_cons X (zc c) X') by done. split; intros [? [?|[??]]]; (split; [lia|]); auto; right; split; (lia || done).
Qed.

Lemma len_at_0 X c t : len_at X (c :: t) 0 <-> a ∈ X.
Proof. unfold len_at. rewrite <-accepts_nil. cbn [length take map]. split; [intros [_ [?|[? _]]]; done|]. split; [lia|by left]. Qed.

Lemma len_at_end X X' k : moved p X 0 X' -> len_at X [] k <-> k = 0%nat /\ (a ∈ X \/ a ∈ X').
Proof.
  intros Hm. unfold len_at. rewrite <-(accepts_nil X'), <-(accepts_cons X 0 X' [] Hm), <-accepts_nil. cbn [length chars map app].
  split.
  - intros [Hk [H|[_ H]]]; (assert (k = 0%nat) as -> by lia); auto.
  - intros [-> [H|H]]; auto.
Qed.

Lemma len_at_empty t k : ~ len_at ∅ t k.
Proof. intros [_ [H|[_ H]]]; by apply accepts_empty in H. Qed.

(** [r] is the greatest of the lengths, with [n] added, or [patlen] if there is none. *)
Definition greatest (P : nat -> Prop) (n patlen r : Z) : Prop :=
  (exists k, P k /\ r = n + Z.of_nat k /\ forall k', P k' -> (k' <= k)%nat) \/ (r = patlen /\ forall k, ~ P k).

Lemma greatest_ext (P Q : nat -> Prop) n patlen r : (forall k, P k <-> Q k) -> greatest P n patlen r -> greatest Q n patlen r.
Proof.
  intros HPQ [(k & Hk & -> & Hmax)|[-> Hno]].
  - left. exists k. split_and!; [by apply HPQ|done|]. intros k' Hk'. apply Hmax. by apply HPQ.
  - right. split; [done|]. intros k Hk. apply (Hno k). by apply HPQ.
Qed.

Lemma longest_spec t st f s X n patlen :
  clean t -> consistent f -> room st -> at_state f s X -> calm (longest guarded s (chars t) n patlen (st, f)) = true ->
  exists r m, longest step s (chars t) n patlen (st, f) = Ret r m /\ longest guarded s (chars t) n patlen (st, f) = Ret r m /\
    leaves_ok f m /\ greatest (len_at X t) n patlen r.
Proof.
  revert st f s X n patlen. induction t as [|c t IH]; intros st f s X n patlen Ht Hf Hroom HX Hcalm.
  - cbn [chars map app longest] in *. rewrite !(lbind_step _ _ _ _ _ (is_out_state f s X st HX)) in *.
    assert (Hcg : calm (guarded s 0 (st, f)) = true) by (revert Hcalm; unfold lbind at 1; by destruct (guarded s 0 (st, f))).
    destruct (step_spec st f s 0 X Hf Hroom HX ltac:(lia) ltac:(lia) Hcg) as (n' & st' & f' & X' & E & Eg & Hr' & Hf' & Hk & Hm & HX').
    rewrite (lbind_step _ _ _ _ _ E), (lbind_step _ _ _ _ _ Eg).
    assert (Hlen : forall k, (k = 0%nat /\ (a ∈ X \/ a ∈ X')) <-> len_at X [] k) by (intros k; by rewrite (len_at_end X X' k Hm)).
    assert (Hres : forall r, r = (if bool_decide (a ∈ X') then n else if bool_decide (a ∈ X) then n else patlen) -> greatest (len_at X []) n patlen r).
    { intros r ->. eapply greatest_ext; [exact Hlen|]. destruct (decide (a ∈ X \/ a ∈ X')) as [Ha|Ha].
      - left. exists 0%nat. split; [done|]. split; [|intros k' [-> _]; lia].
        destruct (decide (a ∈ X')); [rewrite bool_decide_eq_true_2 by done; lia|].
        rewrite bool_decide_eq_false_2 by done. rewrite bool_decide_eq_true_2 by tauto. lia.
      - right. split; [|tauto]. by rewrite !bool_decide_eq_false_2 by tauto. }
    destruct (Nat.eqb_spec n' 1) as [->|Hn1].
    + exists (if bool_decide (a ∈ X) then n else patlen), (st', f'). split_and!; [done..|]. apply Hres.
      assert (X' = ∅) as -> by (apply (state_unique p f' 1); [apply HX'|by apply c_empty]). by rewrite (bool_decide_eq_false_2 _ (not_elem_of_empty a)).
    + cbn [Z.eqb]. rewrite !(lbind_step _ _ _ _ _ (is_out_state f' n' X' st' HX')). eexists _, (st', f'). split_and!; [done..|]. by apply Hres.
  - destruct (zc_clean c t Ht) as (Hb & H2 & H0 & Ht'). change (chars (c :: t)) with (zc c :: chars t) in *. cbn [longest] in *.
    rewrite !(lbind_step _ _ _ _ _ (is_out_state f s X st HX)) in *.
    assert (Hcg : calm (guarded s (zc c) (st, f)) = true) by (revert Hcalm; unfold lbind at 1; by destruct (guarded s (zc c) (st, f))).
    destruct (step_spec st f s (zc c) X Hf Hroom HX Hb H2 Hcg) as (n' & st' & f' & X' & E & Eg & Hr' & Hf' & Hk & Hm & HX').
    rewrite (lbind_step _ _ _ _ _ Eg) in Hcalm. rewrite (lbind_step _ _ _ _ _ E), (lbind_step _ _ _ _ _ Eg).
    rewrite (proj2 (Z.eqb_neq _ _) H0) in *. set (patlen1 := if bool_decide (a ∈ X) then n else patlen) in *.
    assert (Hcomb : forall r, greatest (len_at X' t) (n + 1) patlen1 r -> greatest (len_at X (c :: t)) n patlen r).
    { intros r [(k & Hk' & -> & Hmax)|[-> Hno]].
      - left. exists (S k). split_and!; [by apply (len_at_cons X c X' t k Hm)|lia|]. intros [|k'] Hl; [lia|].
        apply (len_at_cons X c X' t k' Hm) in Hl. specialize (Hmax k' Hl). lia.
      - assert (Hz : forall k, len_at X (c :: t) k -> k = 0%nat).
        { intros [|k] Hl; [done|]. apply (len_at_cons X c X' t k Hm) in Hl. by apply Hno in Hl. }
        unfold patlen1. case_bool_decide as Ha; [left; exists 0%nat|right].
        + split_and!; [by apply len_at_0|lia|]. intros k' Hl. apply Hz in Hl. lia.
        + split; [done|]. intros k Hl. pose proof (Hz k Hl) as ->. by apply len_at_0 in Hl. }
    destruct (Nat.eqb_spec n' 1) as [->|Hn1].
    + exists patlen1, (st', f'). split_and!; [done..|]. apply Hcomb. right. split; [done|]. intros k.
      assert (X' = ∅) as -> by (apply (state_unique p f' 1); [apply HX'|by apply c_empty]). apply len_at_empty.
    + destruct (IH st' f' n' X' (n + 1) patlen1 Ht' Hf' Hr' HX' Hcalm) as (r & m & Er & Er' & (Hmr & Hmc & Hmk) & Hg).
      exists r, m. split_and!; [done..|split_and!; [done..|by eapply keeps_trans]|by apply Hcomb].
Qed.

(** ** The first states *)

(** The positions after a character, as a function. *)
Definition moves (X : gset nat) (c : Z) : gset nat :=
  ⋃ (map (fun o => if leaf_reads (what o) c && bool_decide (index o ∈ X) then indices (next_leaves o) else ∅) (occs [] (tree p))).

Lemma moves_moved X c : live (tree p) X -> moved p X c (moves X c).
Proof.
  intros HX i. unfold moves. rewrite elem_of_union_list. split.
  - intros (Y & HY & Hi). apply list_elem_of_In, in_map_iff in HY as (o & <- & Ho). apply list_elem_of_In in Ho.
    destruct (leaf_reads (what o) c) eqn:Er; cbn [andb] in Hi; [|by apply not_elem_of_empty in Hi].
    case_bool_decide as HiX; [|by apply not_elem_of_empty in Hi]. exists o. split_and!; [done..| |done].
    destruct (HX _ HiX) as (o' & Ho' & E & Hw). assert (o' = o) as -> by (by apply (index_inj (tree p) (tree_NoDup p))).
    by apply leaf_reads_spec in Er; [|apply (leaves_text p Htx)|].
  - intros (o & Ho & HiX & Hr & Hi). exists (indices (next_leaves o)). split; [|done]. apply list_elem_of_In, in_map_iff.
    exists o. split; [|by apply list_elem_of_In]. rewrite (bool_decide_eq_true_2 _ HiX), andb_true_r.
    destruct (HX _ HiX) as (o' & Ho' & E & Hw). assert (o' = o) as -> by (by apply (index_inj (tree p) (tree_NoDup p))).
    apply leaf_reads_spec in Hr; [|by apply (leaves_text p Htx)|done]. by rewrite Hr.
Qed.

Abbreviation start := (start_set p).
Abbreviation here := (here_set p).

(** After the sign for the beginning. *)
Definition hat_set : gset nat := moves start HAT.

Lemma start_alive : live (tree p) start.
Proof. apply next_leaves_alive. apply tree_occs. auto. Qed.

Lemma here_alive : live (tree p) here.
Proof. intros i Hi. apply start_alive. rewrite start_here. set_solver. Qed.

Lemma hat_moved : moved p start HAT hat_set.
Proof. apply moves_moved, start_alive. Qed.

Lemma hat_alive : live (tree p) hat_set.
Proof. eapply moved_alive; apply hat_moved. Qed.

(** Leaves of the pattern stay in the pattern, or reach the end. *)
Lemma occs_suffix base ctx v o : o ∈ occs (ctx ++ base) v -> o ∈ occs base (plug ctx v).
Proof. revert v. induction ctx as [|f ctx IH]; intros v Ho; [done|]. cbn. by apply IH, occs_parent. Qed.

Lemma occs_base base ctx v o :
  o ∈ occs (ctx ++ base) v -> exists ctx', place o = ctx' ++ base /\ plug ctx' (Leaf (what o) (index o)) = plug ctx v.
Proof.
  revert ctx. induction v as [l i|q IH|q IH|q IH|l IHl r IHr|l IHl r IHr]; intros ctx Ho; cbn [occs] in Ho.
  - apply list_elem_of_singleton in Ho as ->. by exists ctx.
  - by apply (IH (InStar :: ctx)).
  - by apply (IH (InPlus :: ctx)).
  - by apply (IH (InQuest :: ctx)).
  - apply elem_of_app in Ho as [Ho|Ho]; [by apply (IHl (CatLeft r :: ctx))|by apply (IHr (CatRight l :: ctx))].
  - apply elem_of_app in Ho as [Ho|Ho]; [by apply (IHl (OrLeft r :: ctx))|by apply (IHr (OrRight l :: ctx))].
Qed.

Lemma follows_base base ctx v o :
  o ∈ follows (ctx ++ base) v -> o ∈ occs base (plug ctx v) \/ o ∈ follows base (plug ctx v).
Proof.
  assert (Hfst : forall ctx v, o ∈ firsts (ctx ++ base) v -> o ∈ occs base (plug ctx v)).
  { intros ctx' v' Ho%firsts_occs. apply occs_suffix. by destruct Ho. }
  revert v. induction ctx as [|f ctx IH]; intros v Ho; [by right|]. cbn [app plug] in *.
  destruct f as [| | |r|l|r|l]; cbn [follows parent] in *; try (by apply IH).
  - apply elem_of_app in Ho as [Ho|Ho]; [left; by apply (Hfst (InStar :: ctx))|by apply IH].
  - apply elem_of_app in Ho as [Ho|Ho]; [left; by apply (Hfst (InPlus :: ctx))|by apply IH].
  - apply elem_of_app in Ho as [Ho|Ho]; [left; by apply (Hfst (CatRight v :: ctx))|].
    destruct (nullable r); [by apply IH|by apply not_elem_of_nil in Ho].
Qed.

Lemma last_pos_pos : (1 <= a)%nat.
Proof. unfold last_pos. pose proof (penter_indices [] p 1) as [? _]. lia. Qed.

Lemma next_not_0 o : o ∈ occs [] (tree p) -> 0%nat ∈ indices (next_leaves o) -> o = start_occ p.
Proof.
  intros Ho (o' & Ho' & E0)%elem_of_indices. apply tree_occs in Ho as [->|[Ho| ->]]; [done| |].
  2: { unfold next_leaves in Ho'. cbn in Ho'. by apply not_elem_of_nil in Ho'. }
  exfalso. unfold next_leaves in Ho'. case_bool_decide; [by apply not_elem_of_nil in Ho'|].
  set (base := CatRight (STAR (Leaf ALL 0)) :: end_frames p) in *.
  destruct (occs_base base [] (pattern p) o Ho) as (ctx & Ep & Epl). rewrite Ep in Ho'. cbn [plug] in Epl.
  assert (Hb : forall x, x ∈ occs base (pattern p) -> (1 <= index x)%nat).
  { intros x Hx. assert (Hi : In (index x) (map index (occs base (pattern p)))) by (apply in_map; by apply list_elem_of_In).
    unfold pattern in Hi. rewrite (proj2 (penter_indices _ _ _)) in Hi. apply in_seq in Hi. lia. }
  apply follows_base in Ho' as [Ho'|Ho']; rewrite Epl in Ho'; [specialize (Hb o' Ho'); lia|].
  cbn in Ho'. apply elem_of_app in Ho' as [Ho'|Ho']; [|by apply not_elem_of_nil in Ho'].
  apply list_elem_of_singleton in Ho' as ->. cbn in E0. pose proof last_pos_pos. lia.
Qed.

Lemma hat_split : hat_set = start ∪ moves here HAT.
Proof.
  apply set_eq. intros i. rewrite elem_of_union, (hat_moved i), (moves_moved here HAT here_alive i). split.
  - intros (o & Ho & Hi & Hr & Hn). rewrite start_here, elem_of_union, elem_of_singleton in Hi. destruct Hi as [Hi|Hi]; [left|eauto 10].
    assert (o = start_occ p) as -> by (apply (index_inj (tree p) (tree_NoDup p)); [done|apply tree_occs; auto|done]). done.
  - intros [Hi|(o & Ho & Hi & Hr & Hn)].
    + exists (start_occ p). split_and!; [apply tree_occs; auto|rewrite start_here; set_solver|done|done].
    + exists o. split_and!; [done|rewrite start_here; set_solver|done..].
Qed.

(** At the beginning, without the text before. *)
Definition init_set : gset nat := hat_set ∖ {[0%nat]}.

Lemma init_split : init_set = here ∪ moves here HAT.
Proof.
  unfold init_set. rewrite hat_split, start_here. pose proof (here_not_0 p) as H0.
  assert (H1 : 0%nat ∉ moves here HAT).
  { intros Hi. apply (moves_moved here HAT here_alive 0%nat) in Hi as (o & Ho & Hi & _ & Hn). apply next_not_0 in Hn as ->; [|done]. done. }
  set_solver.
Qed.

Lemma accepts_union X Y u : accepts (X ∪ Y) u <-> accepts X u \/ accepts Y u.
Proof. unfold accepts, accepted. setoid_rewrite elem_of_union. naive_solver. Qed.

Lemma accepts_here u : accepts here u <-> matches p (map Some u).
Proof. by apply here_accepted. Qed.

Lemma accepts_init u : accepts init_set u <-> matches p (map Some u) \/ matches p (map Some (HAT :: u)).
Proof.
  rewrite init_split, accepts_union, <-!accepts_here. by rewrite (accepts_cons here HAT _ u (moves_moved here HAT here_alive)).
Qed.

Lemma accepts_hat u :
  accepts hat_set u <-> exists w1 w2, HAT :: u = w1 ++ w2 /\ Forall (fun c => c <> 0) w1 /\ matches p (map Some w2).
Proof. rewrite <-(accepts_cons start HAT hat_set u hat_moved). by apply start_accepted. Qed.
End Runs.
