(* ===== verification/AwkSearch.v ===== *)
(** * Regular expressions of nawk: searching

    The states that [makeinit] sets up, and the results of any sequence of calls of
    [match], or of [pmatch] and [nematch], on an automaton that [mkdfa] returns. *)

From S2P Require Import Prelude Util AwkRegex AwkFollow AwkDfa AwkStates AwkMatch.
Open Scope Z_scope.
Open Scope ndk_scope.

(** ** Descending lists *)

Lemma desc_last a X : 0%nat ∈ X -> removelast (desc a X) = desc a (X ∖ {[0%nat]}).
Proof.
  intros H0. unfold desc. cbn [seq rev]. rewrite !list.filter_app. rewrite !filter_cons, !filter_nil.
  destruct (decide (0%nat ∈ X)); [|done]. destruct (decide (0%nat ∈ X ∖ {[0%nat]})) as [H|_]; [set_solver|].
  rewrite removelast_last, app_nil_r.
  assert (Hl : Forall (fun i => i <> 0%nat) (rev (seq 1 a))).
  { apply list.Forall_forall. intros i. rewrite list_elem_of_In, <-in_rev, in_seq. lia. }
  induction Hl as [|i l Hi _ IH]; [done|]. rewrite !filter_cons, IH.
  destruct (decide (i ∈ X)), (decide (i ∈ X ∖ {[0%nat]})); set_solver.
Qed.

Lemma desc_head a X : (forall i, i ∈ X -> (i <= a)%nat) -> X <> ∅ -> exists i, head (desc a X) = Some i /\ (i = a <-> a ∈ X).
Proof.
  intros Hb Hne. unfold desc. rewrite seq_S, rev_app_distr. cbn [rev app Nat.add]. rewrite filter_cons.
  destruct (decide (a ∈ X)) as [Ha|Ha]; [by exists a|].
  fold (desc (a - 1) X). destruct (base.filter (fun i => i ∈ X) (rev (seq 0 a))) as [|i l] eqn:E.
  - destruct Hne. apply set_eq. intros j. split; [|intros Hj; by apply not_elem_of_empty in Hj]. intros Hj.
    assert (j ∈ base.filter (fun i => i ∈ X) (rev (seq 0 a))) as Hin.
    { apply list_elem_of_filter. split; [done|]. apply list_elem_of_In. rewrite <-in_rev. apply in_seq.
      specialize (Hb j Hj). assert (j <> a) by congruence. lia. }
    rewrite E in Hin. by apply not_elem_of_nil in Hin.
  - exists i. split; [done|]. split; [|done]. intros ->. assert (a ∈ a :: l) as Hin by by left. rewrite <-E in Hin.
    by apply list_elem_of_filter in Hin as [? _].
Qed.

Section Search.
Context (p : node) (Hnf : no_final p = true) (Htx : texts p = true).

Abbreviation a := (last_pos p).
Abbreviation consistent := (consistent p).
Abbreviation state := (state p).
Abbreviation room := (room p).
Abbreviation start := (start_set p).
Abbreviation here := (here_set p).
Abbreviation hat := (hat_set p).
Abbreviation init := (init_set p).

(** ** Two states *)

(** An automaton whose states beyond 1 can be set up again. *)
Definition ready (f : fa) : Prop :=
  table p f /\ shape f /\ state f 1 ∅ /\ forall c n, 0 <= c < 256 -> get_goto f 1 c = Some n -> n = 0%nat \/ n = 1%nat.

Lemma consistent_ready f : consistent f -> ready f.
Proof. intros Hf. split_and!; [by apply c_table|by eapply c_shape|by apply c_empty|by eapply c_dead]. Qed.

(** No transition of the states from 2 on is entered. *)
Definition fresh (f : fa) : Prop :=
  forall s c, (2 <= s <= curstat f)%nat -> 0 <= c < 256 -> (s, c) <> (3%nat, 2) -> get_goto f s c = Some 0%nat.

Lemma fresh_consistent f :
  ready f -> fresh f -> (2 <= curstat f < NSTATES)%nat -> (forall s, (2 <= s <= curstat f)%nat -> exists X, state f s X) -> consistent f.
Proof.
  intros (H1 & H2 & H3 & H4) Hfr Hc Hs. split; [done..| |].
  - intros s Hs'. destruct (decide (s = 1%nat)) as [->|]; [eauto|]. apply Hs. lia.
  - intros s c n X Hs' Hcc Hne Hg Hn HX. destruct (decide (s = 1%nat)) as [->|]; [|rewrite Hfr in Hg by (done || lia); congruence].
    destruct (H4 c n Hcc Hg) as [->| ->]; [done|]. split; [lia|]. exists ∅. split; [|done].
    rewrite (state_unique p f 1 X ∅ HX H3). intros i. split; [set_solver|]. intros (o & _ & Hi & _). set_solver.
Qed.

(** The steps that set up state 2. *)
Lemma two_consistent f f' X :
  ready f -> live (tree p) X -> curstat f' = 2%nat -> re f' = re f -> accept f' = accept f ->
  gototab f' = gototab (clear_goto 2 f) -> length (posns f') = NSTATES -> get_posns f' 1 = get_posns f 1 -> get_posns f' 2 = Some (desc a X) ->
  out f' = <[2%nat := bool_decide (a ∈ X)]> (out f) ->
  consistent f' /\ state f' 2 X /\ fresh f'.
Proof.
  intros (Ht & Hsh & H1 & Hd) HX Hc Ere Eacc Eg Hlp Hp1 Hp2 Eo.
  assert (Hn : (2 < NSTATES)%nat) by (unfold NSTATES; lia).
  assert (Hgo : forall s c, get_goto f' s c = get_goto (clear_goto 2 f) s c) by (intros s c; unfold get_goto; by rewrite Eg).
  assert (Hsh' : shape f').
  { destruct (cleared_shape 2 f Hsh) as (G1 & G2 & G3 & G4). unfold shape. rewrite Eg, Eo, length_insert. done. }
  assert (H2 : state f' 2 X).
  { split_and!; [done..|]. rewrite Eo. apply list_lookup_insert_eq. destruct Hsh as (_ & _ & -> & _). done. }
  assert (Hfr : fresh f'). { intros s c Hs Hcc _. rewrite Hc in Hs. assert (s = 2%nat) as -> by lia. rewrite Hgo, cleared_goto by done. by destruct (decide _). }
  split_and!; [|done..]. apply fresh_consistent; [|done|rewrite Hc; unfold NSTATES; lia|].
  - split_and!; [unfold table; rewrite Ere, Eacc; apply Ht|done| |].
    + destruct H1 as (G1 & G2 & G3). split_and!; [by rewrite Hp1|done|]. rewrite Eo. by rewrite list_lookup_insert_ne.
    + intros c n Hcc. rewrite Hgo, cleared_goto by done. cbn. by apply Hd.
  - rewrite Hc. intros s Hs. assert (s = 2%nat) as -> by lia. eauto.
Qed.

(** The transition on the sign for the beginning. *)
Lemma hat_step st f :
  consistent f -> fresh f -> room st -> curstat f = 2%nat -> state f 2 start ->
  exists st' f', cgoto 2 HAT (st, f) = Ret (curstat f') (st', f') /\ room st' /\ consistent f' /\ fresh f' /\
    same_pattern f f' /\ reset f' = reset f /\ state f' 2 start /\ state f' (curstat f') hat /\
    curstat f' = (if decide (hat = start) then 2 else 3)%nat.
Proof.
  intros Hf Hfr Hroom Hc H2. assert (Hl : legal 2 HAT) by by right.
  destruct (legal_place 2 HAT Hl ltac:(unfold NSTATES; lia)) as (Hrow & Hcol & _).
  destruct (cgoto_set p Htx st f 2 HAT start Hf Hroom ltac:(lia) H2) as (st' & X' & r & Hr' & Hh & Hm & Ha & E & _ & Hr).
  assert (X' = hat) as -> by (eapply moved_unique; [exact Hm|by apply hat_moved]).
  assert (H0 : 0%nat ∈ hat) by (rewrite hat_split, start_here by done; set_solver).
  destruct r as [i|].
  - destruct Hr as [Hi Hip]. rewrite Hc in Hi. assert (Hs : state f i hat) by (apply state_found; [done|lia|done..]).
    assert (i = 2%nat) as ->.
    { assert (i = 1%nat \/ i = 2%nat) as [->| ->] by lia; [|done]. assert (hat = ∅) as Ee by (eapply state_unique; [exact Hs|by apply c_empty]).
      rewrite Ee in H0. by apply not_elem_of_empty in H0. }
    assert (Eh : hat = start) by (by eapply state_unique).
    destruct (stored_consistent p f 2 HAT 2 start hat Hf ltac:(lia) Hl H2 Hm ltac:(lia) Hs ltac:(done)) as (G1 & G2 & G3 & G4).
    destruct (stored_rest 2 HAT 2 f) as (_ & _ & _ & _ & _ & _ & _ & Ec & Er).
    exists st', (stored 2 HAT 2 f). rewrite Ec, Er, Hc, E. rewrite (lbind_step _ _ _ _ _ (put_goto_stored 2 HAT 2 st' f (c_shape p f Hf) Hrow)).
    split_and!; [done..| |done|done|rewrite <-Eh; done|done|by destruct (decide (hat = start))].
    intros s c Hs' Hcc Hne. rewrite stored_goto by (exact (c_shape p f Hf) || done). destruct (decide _) as [[-> Hc2]|]; [|apply Hfr; [lia|done..]].
    rewrite Ec, Hc in Hs'. destruct row_of_hat as [Hx _]. lia.
  - destruct (extended_consistent p f 2 HAT start hat Hf ltac:(lia) Hl H2 Hm) as (G1 & G2 & G3 & G4); [done|rewrite Hc; unfold NSTATES; lia|].
    pose proof (added_rest (S (curstat f)) (desc a hat) (bool_decide (a ∈ hat)) 2 HAT (set_curstat (S (curstat f)) f)) as (_ & _ & _ & _ & _ & Ec & Er).
    set (f' := added (S (curstat f)) (desc a hat) (bool_decide (a ∈ hat)) 2 HAT (set_curstat (S (curstat f)) f)) in *.
    change (curstat (set_curstat (S (curstat f)) f)) with (S (curstat f)) in Ec. change (reset (set_curstat (S (curstat f)) f)) with (reset f) in Er.
    exists st', f'. rewrite Ec, Er, E, (enter_added p st' f 2 HAT hat _ _ (new_state_room st' f ltac:(rewrite Hc; unfold NSTATES; lia))); try done;
      [|exact (c_shape p f Hf)|rewrite Hc; unfold NSTATES; lia].
    split_and!; try done; rewrite ?Hc in *.
    + intros s c Hs' Hcc Hne. rewrite Ec in Hs'. unfold f'. rewrite added_goto; [|exact (c_shape p f Hf)|unfold NSTATES; lia..|done|done|done].
      destruct (decide _) as [[_ ->]|]; [unfold HAT, NCHARS in Hcc; lia|]. destruct (decide (s = S (curstat f))); [done|]. apply Hfr; [rewrite Hc; lia|done..].
    + unfold f'. apply added_state; [exact (c_shape p f Hf)|unfold NSTATES; lia|lia|exact H2].
    + destruct (decide (hat = start)) as [Eh|]; [|done]. exfalso. apply (Hr 2%nat); [lia|]. rewrite Eh. apply H2.
Qed.

(** ** [makeinit] *)

(** The last part of [makeinit]. *)
Definition init_tail (anchor : bool) (n : nat) : M machine nat :=
  if anchor then
    let* p := lread (fun st => get_posns st.2 2) in
    do* modify_fa (fun f => put_posns 0 (removelast p) (put_posns 2 (removelast p) f)) in
    let* b := lread (fun st => out st.2 !! 2%nat) in
    do* modify_fa (put_out 0 b) in
    do* (if (n =? 2)%nat then lret tt
         else let* p := lread (fun st => get_posns st.2 n) in modify_fa (put_posns n (removelast p))) in
    lret n
  else lret n.

(** The same pattern, with its sets in the same places. *)
Definition same_fa (f f' : fa) : Prop := re f' = re f /\ accept f' = accept f /\ anchor f' = anchor f /\ initstat f' = initstat f /\ restr f' = restr f.

Lemma start_row f : table p f -> re f !! 0%nat = Some (Some (row a (start_occ p))).
Proof. intros [_ Ht]. apply (Ht (start_occ p)). apply tree_occs. auto. Qed.

Lemma set_curstat_same f : set_curstat (curstat f) f = f.
Proof. by destruct f. Qed.

Lemma makeinit_hat st f anch :
  ready f -> room st ->
  exists st' f', makeinit anch (st, f) = init_tail anch (curstat f') (st', f') /\ room st' /\ consistent f' /\ fresh f' /\
    same_fa f f' /\ reset f' = false /\ state f' 2 start /\ state f' (curstat f') hat /\
    curstat f' = (if decide (hat = start) then 2 else 3)%nat.
Proof.
  intros Hf Hroom. pose proof Hf as (Ht & Hsh & H1 & Hd). pose proof Ht as [Hacc _].
  assert (Hsl : (forall i, i ∈ start -> (i <= a)%nat)) by (intros i Hi; eapply alive_bound; [by apply start_alive|done]).
  destruct (desc_head a start Hsl) as (i0 & Ehead & Hi0).
  { intros E. assert (0%nat ∈ start) as H0 by (rewrite start_here; set_solver). rewrite E in H0. by apply not_elem_of_empty in H0. }
  set (f1 := set_reset false (put_out 2 false (set_curstat 2 f))). set (f2 := put_posns 2 (desc a start) f1).
  set (f3 := if (i0 =? a)%nat then put_out 2 true f2 else f2). set (f4 := clear_goto 2 f3).
  assert (Epre : makeinit anch (st, f) = (let* n := cgoto 2 HAT in do* modify_fa (set_curstat n) in init_tail anch n) (st, f4)).
  { unfold makeinit. unfold lbind at 1, modify_fa at 1. cbn [fst snd]. fold f1. unfold lbind at 1, get_fa at 1. cbn [snd].
    change (re f1) with (re f). rewrite (start_row f Ht). unfold lbind at 1, lread at 1. cbn [lfollow row].
    unfold lbind at 1, modify_fa at 1. cbn [fst snd]. fold f2. unfold lbind at 1, lread at 1. fold start. rewrite Ehead.
    change (accept f1) with (accept f). rewrite Hacc. unfold f4, f3. by destruct (i0 =? a)%nat. }
  assert (Eout : out f4 = <[2%nat := bool_decide (a ∈ start)]> (out f)).
  { unfold f4, f3. cbn [out clear_goto set_gototab]. destruct (Nat.eqb_spec i0 a) as [Ei|Ei].
    - rewrite bool_decide_eq_true_2 by by apply Hi0. cbn. by rewrite list_insert_insert_eq.
    - rewrite bool_decide_eq_false_2 by (intros ?; apply Ei; by apply Hi0). done. }
  assert (Hlen : (2 < length (posns f))%nat) by (destruct Hsh as (_ & _ & _ & ->); unfold NSTATES; lia).
  assert (Eposns : posns f4 = <[2%nat := Some (desc a start)]> (posns f)) by (unfold f4, f3; by destruct (i0 =? a)%nat).
  assert (Hrest : curstat f4 = 2%nat /\ same_fa f f4 /\ reset f4 = false /\ gototab f4 = gototab (clear_goto 2 f)) by (unfold f4, f3; by destruct (i0 =? a)%nat).
  destruct Hrest as (Hc4 & Hs4 & Hr4 & Hg4).
  destruct (two_consistent f f4 start Hf (start_alive p) Hc4 (proj1 Hs4) (proj1 (proj2 Hs4)) Hg4) as (Hco & H2 & Hfr); [| | |done|].
  { rewrite Eposns, length_insert. by destruct Hsh as (_ & _ & _ & ?). }
  { unfold get_posns. rewrite Eposns. by rewrite list_lookup_insert_ne. }
  { unfold get_posns. rewrite Eposns. by rewrite list_lookup_insert_eq. }
  destruct (hat_step st f4 Hco Hfr Hroom Hc4 H2) as (st' & f' & E & G1 & G2 & G3 & G4 & G5 & G6 & G7 & G8).
  exists st', f'. rewrite Epre, (lbind_step _ _ _ _ _ E). unfold lbind, modify_fa. cbn [fst snd]. rewrite set_curstat_same.
  split_and!; try done; [|congruence]. destruct G4 as (T1 & T2 & T3 & T4 & T5 & _), Hs4 as (U1 & U2 & U3 & U4 & U5). split_and!; congruence.
Qed.

Lemma makeinit_unanchored st f :
  ready f -> room st ->
  exists st' f', makeinit false (st, f) = Ret (curstat f') (st', f') /\ room st' /\ consistent f' /\ same_fa f f' /\ reset f' = false /\
    state f' (curstat f') hat /\ curstat f' = (if decide (hat = start) then 2 else 3)%nat.
Proof.
  intros Hf Hroom. destruct (makeinit_hat st f false Hf Hroom) as (st' & f' & E & H1 & H2 & _ & H3 & H4 & _ & H5 & H6).
  exists st', f'. by split_and!.
Qed.

Lemma out_without_0 (X : gset nat) : bool_decide (a ∈ X ∖ {[0%nat]}) = bool_decide (a ∈ X).
Proof. apply bool_decide_ext. pose proof (last_pos_pos p). rewrite elem_of_difference, elem_of_singleton. split; [tauto|]. split; [done|lia]. Qed.

Lemma here_without_0 : start ∖ {[0%nat]} = here.
Proof. rewrite start_here. pose proof (here_not_0 p). set_solver. Qed.

(** The automaton without position 0 in its states 2 and [n], and in the saved one. *)
Definition without_0 (n : nat) (f : fa) : fa :=
  let g := put_out 0 (bool_decide (a ∈ start)) (put_posns 0 (desc a here) (put_posns 2 (desc a here) f)) in
  if (n =? 2)%nat then g else put_posns n (desc a init) g.

Lemma without_0_posns n f s :
  length (posns f) = NSTATES -> (s < NSTATES)%nat -> n = 2%nat \/ n = 3%nat ->
  get_posns (without_0 n f) s = if decide (s = 0%nat \/ s = 2%nat) then Some (desc a here)
    else if decide (s = n) then Some (desc a init) else get_posns f s.
Proof.
  intros Hl Hs Hn. unfold without_0. set (g := put_out _ _ _).
  assert (Hlg : length (posns g) = NSTATES) by (unfold g; cbn [posns put_out set_out put_posns set_posns]; by rewrite !length_insert).
  assert (Hg : get_posns g s = if decide (s = 0%nat \/ s = 2%nat) then Some (desc a here) else get_posns f s).
  { unfold g. change (get_posns (put_out 0 ?b ?h) s) with (get_posns h s).
    rewrite !put_posns_get by (cbn [posns put_posns set_posns]; rewrite ?length_insert, Hl; unfold NSTATES; lia).
    destruct (decide (s = 0%nat)), (decide (s = 2%nat)), (decide (s = 0%nat \/ s = 2%nat)); try done; tauto. }
  destruct (Nat.eqb_spec n 2) as [En|En].
  - rewrite Hg. destruct (decide (s = 0%nat \/ s = 2%nat)); [done|]. destruct (decide (s = n)); [lia|done].
  - rewrite put_posns_get by (rewrite Hlg; unfold NSTATES; lia). rewrite Hg.
    destruct (decide (s = n)), (decide (s = 0%nat \/ s = 2%nat)); try done; lia.
Qed.

Lemma without_0_rest n f :
  same_fa f (without_0 n f) /\ reset (without_0 n f) = reset f /\ curstat (without_0 n f) = curstat f /\
  gototab (without_0 n f) = gototab f /\ out (without_0 n f) = <[0%nat := bool_decide (a ∈ start)]> (out f) /\
  (length (posns f) = NSTATES -> length (posns (without_0 n f)) = NSTATES).
Proof.
  unfold without_0. destruct (n =? 2)%nat; split_and!; try done; intros Hl; cbn [posns put_out set_out put_posns set_posns]; by rewrite !length_insert.
Qed.

Lemma init_alive : live (tree p) init.
Proof. intros i Hi. unfold init_set in Hi. apply elem_of_difference in Hi as [Hi _]. by apply (hat_alive p Htx). Qed.

Lemma without_0_consistent f :
  consistent f -> fresh f -> state f 2 start -> state f (curstat f) hat -> curstat f = (if decide (hat = start) then 2 else 3)%nat ->
  let g := without_0 (curstat f) f in consistent g /\ state g 2 here /\ state g 0 here /\ state g (curstat f) init.
Proof.
  intros Hco Hfr H2 Hn Hcur g. set (n := curstat f) in *. destruct (c_shape p f Hco) as (L1 & L2 & L3 & L4).
  assert (Hn23 : n = 2%nat \/ n = 3%nat) by (rewrite Hcur; destruct (decide _); auto).
  assert (Hp : forall s, (s < NSTATES)%nat -> _) by exact (fun s Hs => without_0_posns n f s L4 Hs Hn23). fold g in Hp.
  destruct (without_0_rest n f) as (Hsame & Hreset & Hc & Hg & Ho & Hl). fold g in Hsame, Hreset, Hc, Hg, Ho, Hl.
  assert (Hgo : forall s c, get_goto g s c = get_goto f s c) by (intros s c; unfold get_goto; by rewrite Hg).
  assert (Ho' : forall s, (1 <= s)%nat -> out g !! s = out f !! s) by (intros s Hs; rewrite Ho; apply list_lookup_insert_ne; lia).
  assert (E2 : bool_decide (a ∈ start) = bool_decide (a ∈ here)) by (rewrite <-here_without_0; by rewrite out_without_0).
  assert (S2 : state g 2 here).
  { split_and!; [rewrite Hp by (unfold NSTATES; lia); by destruct (decide _); [|tauto]|by apply here_alive|].
    rewrite Ho' by lia. rewrite <-E2. apply H2. }
  assert (S0 : state g 0 here).
  { split_and!; [rewrite Hp by (unfold NSTATES; lia); by destruct (decide _); [|tauto]|by apply here_alive|].
    rewrite Ho, <-E2. apply list_lookup_insert_eq. rewrite L3. unfold NSTATES. lia. }
  assert (Sn : state g n init).
  { destruct (decide (n = 2%nat)) as [En|En].
    - rewrite En. unfold init_set. destruct (decide (hat = start)) as [->|]; [by rewrite here_without_0|lia].
    - split_and!; [|by apply init_alive|].
      + rewrite Hp by (unfold NSTATES; lia). destruct (decide (n = 0%nat \/ n = 2%nat)); [lia|]. by destruct (decide (n = n)).
      + rewrite Ho' by lia. unfold init_set. rewrite out_without_0. apply Hn. }
  split_and!; [|done..]. apply fresh_consistent.
  - destruct (c_table p f Hco) as [T1 T2], Hsame as (R1 & R2 & _). split_and!.
    + split; [congruence|]. by rewrite R1.
    + unfold shape. rewrite Hg, Ho, length_insert. auto.
    + destruct (c_empty p f Hco) as (G1 & G2 & G3). split_and!; [|done|by rewrite Ho' by lia].
      rewrite Hp by (unfold NSTATES; lia). destruct (decide (1%nat = 0%nat \/ 1%nat = 2%nat)); [lia|]. destruct (decide (1%nat = n)); [lia|done].
    + intros c m Hcc. rewrite Hgo. by apply (c_dead p f Hco).
  - intros s c Hs Hcc Hne. rewrite Hgo. rewrite Hc in Hs. by apply Hfr.
  - rewrite Hc. by apply (c_curstat p f Hco).
  - intros s Hs. rewrite Hc in Hs. fold n in Hs. assert (s = 2%nat \/ s = n) as [->| ->] by lia; eauto.
Qed.

Lemma makeinit_anchored st f :
  ready f -> room st ->
  exists st' f', makeinit true (st, f) = Ret (curstat f') (st', f') /\ room st' /\ consistent f' /\ same_fa f f' /\ reset f' = false /\
    state f' 2 here /\ state f' 0 here /\ state f' (curstat f') init.
Proof.
  intros Hf Hroom. destruct (makeinit_hat st f true Hf Hroom) as (st' & f' & E & Hr & Hco & Hfr & Hsame & Hreset & H2 & Hn & Hcur).
  destruct (without_0_consistent f' Hco Hfr H2 Hn Hcur) as (G1 & G2 & G3 & G4).
  destruct (without_0_rest (curstat f') f') as (R1 & R2 & R3 & _). set (g := without_0 (curstat f') f') in *.
  assert (H0h : 0%nat ∈ hat) by (rewrite hat_split, start_here by done; set_solver).
  assert (Erm : removelast (desc a start) = desc a here).
  { rewrite <-here_without_0. apply desc_last. rewrite start_here. set_solver. }
  exists st', g. rewrite R3. split_and!; try done; [|destruct Hsame as (? & ? & ? & ? & ?), R1 as (? & ? & ? & ? & ?); split_and!; congruence|congruence].
  rewrite E. unfold init_tail. rewrite (lbind_step _ _ _ _ _ (lread_Ret (fun st => get_posns st.2 2) (st', f') _ (proj1 H2))), Erm.
  unfold lbind at 1, modify_fa at 1. cbn [fst snd]. set (h := put_posns 0 (desc a here) (put_posns 2 (desc a here) f')).
  rewrite (lbind_step _ _ _ _ _ (lread_Ret (fun st => out st.2 !! 2%nat) (st', h) _ (proj2 (proj2 H2)))).
  unfold lbind at 1, modify_fa at 1. cbn [fst snd]. unfold g, without_0. fold h.
  destruct (Nat.eqb_spec (curstat f') 2) as [En|En]; [done|].
  assert (E3 : curstat f' = 3%nat) by (revert Hcur En; destruct (decide (hat = start)); lia).
  destruct (c_shape p f' Hco) as (_ & _ & _ & L4).
  assert (Hp : get_posns (put_out 0 (bool_decide (a ∈ start)) h) (curstat f') = Some (desc a hat)).
  { change (get_posns (put_out 0 ?b h) (curstat f')) with (get_posns h (curstat f')). unfold h.
    rewrite !put_posns_get by (cbn [posns put_posns set_posns]; rewrite ?length_insert, L4; unfold NSTATES; lia).
    destruct (decide (curstat f' = 0%nat)); [lia|]. destruct (decide (curstat f' = 2%nat)); [lia|]. apply Hn. }
  unfold lbind, lread, modify_fa. cbn [fst snd]. rewrite Hp, (desc_last a hat H0h). done.
Qed.

(** ** The label [nextin] *)

(** What a search for the longest match needs: the state for the rest of the text is
    state 2, or it is saved in state 0.  The states of [Q] stay as they are, and so
    does the initial state [i0], as long as the table is not emptied. *)
Definition pinned (i0 : nat) (Q : list (nat * gset nat)) (f : fa) : Prop :=
  state f 0 here /\
  (reset f = false -> initstat f = i0 /\ state f 2 here /\ Forall (fun q => at_state p f q.1 q.2) Q).

(** The automaton is ready for a search from the beginning of a text. *)
Definition anchored (f : fa) : Prop :=
  state f 0 here /\ (reset f = false -> state f 2 here /\ at_state p f (initstat f) init).

Lemma nextin_spec i0 Q st f :
  consistent f -> pinned i0 Q f ->
  exists f', nextin (st, f) = Ret tt (st, f') /\ consistent f' /\ pinned i0 Q f' /\ at_state p f' 2 here /\ restr f' = restr f.
Proof.
  intros Hco [H0 Hr]. pose proof (c_curstat p f Hco) as Hcur. unfold nextin. unfold lbind at 1, get_fa. cbn [snd].
  destruct (reset f) eqn:Er.
  - unfold lbind at 1, modify_fa at 1. cbn [fst snd]. set (f1 := free_posns 2 (curstat f - 1) f).
    assert (Hp0 : get_posns f1 0 = Some (desc a here)) by (unfold f1; rewrite free_posns_below by lia; apply H0).
    rewrite (lbind_step _ _ _ _ _ (lread_Ret (fun st => get_posns st.2 0) (st, f1) _ Hp0)).
    rewrite (lbind_step _ _ _ _ _ (lread_Ret (fun st => out st.2 !! 0%nat) (st, f1) _ (proj2 (proj2 H0)))).
    eexists. split; [done|]. set (f' := clear_goto 2 _). destruct (c_shape p f Hco) as (L1 & L2 & L3 & L4).
    assert (Hl1 : length (posns f1) = NSTATES) by (unfold f1; by rewrite free_posns_length).
    assert (Hpos : forall s, get_posns f' s = if decide (s = 2%nat) then Some (desc a here) else get_posns f1 s).
    { intros s. transitivity (get_posns (put_posns 2 (desc a here) f1) s); [done|]. apply put_posns_get. rewrite Hl1. unfold NSTATES. lia. }
    destruct (two_consistent f f' here (consistent_ready f Hco) (here_alive p Hnf Htx)) as (G1 & G2 & _); try done.
    { change (posns f') with (<[2%nat := Some (desc a here)]> (posns f1)). by rewrite length_insert. }
    { rewrite Hpos. destruct (decide _); [done|]. unfold f1. by rewrite free_posns_below by lia. }
    split_and!; [done| |split; [cbn; lia|done]|done]. split; [|by intros Hx; cbn in Hx; rewrite Er in Hx].
    split_and!; [rewrite Hpos; by destruct (decide _)|by apply here_alive|]. change (out f') with (<[2%nat := bool_decide (a ∈ here)]> (out f)).
    rewrite list_lookup_insert_ne by lia. apply H0.
  - exists f. destruct (Hr eq_refl) as (_ & G1 & _). do 2 (split; [done|]). split; [split; [done|by intros _; apply Hr]|]. split; [split; [lia|done]|done].
Qed.

(** ** Leftmost and longest *)

Lemma keeps_pinned i0 Q f f' : consistent f -> keeps p f f' -> pinned i0 Q f -> pinned i0 Q f'.
Proof.
  intros Hco [(E1 & E2 & E3 & E4 & E5 & E6 & E7) Hk] [(A1 & A2 & A3) Hr]. split; [split_and!; [by rewrite E6|done|by rewrite E7]|].
  intros Hf'. destruct (Hk Hf') as (Hf & Hc & Hs). destruct (Hr Hf) as (Hi & H2 & HQ). pose proof (c_curstat p f Hco).
  rewrite E4. split_and!; [done|apply Hs; [lia|done]|]. eapply Forall_impl; [|exact HQ]. intros q [Hq1 Hq2]. split; [lia|by apply Hs].
Qed.

(** The set at the distance [d] from a start with the set [X]. *)
Definition set_at (X : gset nat) (d : nat) : gset nat := if (d =? 0)%nat then X else here.

(** A match of [k >= lo] characters at the distance [d] in a text. *)
Definition found_at (lo : nat) (X : gset nat) (t : cstr) (d k : nat) : Prop :=
  (d <= length t)%nat /\ (lo <= k)%nat /\ len_at p (set_at X d) (drop d t) k.

(** The result of a search from the offset [i]: the first match and its greatest
    length. *)
Definition leftmost (lo : nat) (X : gset nat) (t : cstr) (i : nat) (r : option (nat * Z)) : Prop :=
  match r with
  | Some (j, n) =>
      exists d k, j = (i + d)%nat /\ n = Z.of_nat k /\ found_at lo X t d k /\
        (forall k', found_at lo X t d k' -> (k' <= k)%nat) /\ forall d' k', (d' < d)%nat -> ~ found_at lo X t d' k'
  | None => forall d k, ~ found_at lo X t d k
  end.

Lemma found_0 lo X t k : found_at lo X t 0 k <-> (lo <= k)%nat /\ len_at p X t k.
Proof. unfold found_at, set_at. cbn [Nat.eqb]. rewrite drop_0. split; [tauto|]. split; [lia|done]. Qed.

Lemma found_S lo X c t d k : found_at lo X (c :: t) (S d) k <-> found_at lo here t d k.
Proof.
  unfold found_at, set_at. cbn [Nat.eqb length drop]. destruct (d =? 0)%nat; split; intros (? & ? & ?); split_and!; (lia || done).
Qed.

Lemma leftmost_here lo X t i k :
  (lo <= k)%nat -> len_at p X t k -> (forall k', len_at p X t k' -> (k' <= k)%nat) -> leftmost lo X t i (Some (i, Z.of_nat k)).
Proof.
  intros Hlo Hk Hmax. exists 0%nat, k. split_and!; [lia|done|by apply found_0| |intros d' k' Hd; lia].
  intros k' [_ Hk']%found_0. auto.
Qed.

Lemma leftmost_next lo X c t i r :
  (forall k, (lo <= k)%nat -> ~ len_at p X (c :: t) k) -> leftmost lo here t (S i) r -> leftmost lo X (c :: t) i r.
Proof.
  intros Hno. assert (Hz : forall k, ~ found_at lo X (c :: t) 0 k) by (intros k [? Hk]%found_0; by apply (Hno k)).
  destruct r as [[j n]|]; cbn [leftmost].
  - intros (d & k & -> & -> & Hf & Hmax & Hmin). exists (S d), k. split_and!; [lia|done|by apply found_S| |].
    + intros k1 Hk1.
      apply (proj1 (found_S lo X c t d k1)) in Hk1. auto.
    + intros [|d'] k' Hd; [apply Hz|]. rewrite found_S. apply Hmin. lia.
  - intros Hn [|d] k; [apply Hz|]. rewrite found_S. apply Hn.
Qed.

Lemma leftmost_end lo X i : (forall k, (lo <= k)%nat -> ~ len_at p X [] k) -> leftmost lo X [] i None.
Proof.
  intros Hno d k (Hd & Hlo & Hl). cbn in Hd. assert (d = 0%nat) as -> by lia. by apply (Hno k).
Qed.

(** What a search leaves behind. *)
Definition pinned_ok (i0 : nat) (Q : list (nat * gset nat)) (m : machine) : Prop := room m.1 /\ consistent m.2 /\ pinned i0 Q m.2.

Definition anchored_ok (m : machine) : Prop := room m.1 /\ consistent m.2 /\ anchored m.2.

Lemma anchored_pinned m : anchored_ok m -> pinned_ok (initstat m.2) [(initstat m.2, init)] m.
Proof.
  intros (H1 & H2 & H3 & H4). split_and!; [done..|]. split; [done|]. intros Hr. destruct (H4 Hr). split_and!; [done..|]. by constructor.
Qed.

Lemma pinned_anchored i0 Q m : (i0, init) ∈ Q -> pinned_ok i0 Q m -> anchored_ok m.
Proof.
  intros HQ (H1 & H2 & H3 & H4). split_and!; [done..|]. split; [done|]. intros Hr. destruct (H4 Hr) as (<- & H5 & H6). split; [done|].
  rewrite list.Forall_forall in H6. apply (H6 _ HQ).
Qed.

Lemma longest_pinned i0 Q t st f s X n patlen :
  clean t -> pinned_ok i0 Q (st, f) -> at_state p f s X -> calm (longest guarded s (chars t) n patlen (st, f)) = true ->
  exists r m, longest step s (chars t) n patlen (st, f) = Ret r m /\ longest guarded s (chars t) n patlen (st, f) = Ret r m /\
    pinned_ok i0 Q m /\ greatest (len_at p X t) n patlen r.
Proof.
  intros Ht (Hroom & Hco & Han) HX Hcalm.
  destruct (longest_spec p Hnf Htx t st f s X n patlen Ht Hco Hroom HX Hcalm) as (r & [st' f'] & E & Eg & (H1 & H2 & H3) & H4).
  exists r, (st', f'). split_and!; [done..|split_and!; [done..|exact (keeps_pinned i0 Q f f' Hco H3 Han)]|done].
Qed.

(** A computation that fails makes the whole fail. *)
Lemma calm_first {S A B} (c : M S A) (k : A -> M S B) m : calm (lbind c k m) = true -> calm (c m) = true.
Proof. unfold lbind. by destruct (c m). Qed.

Lemma pmatch_loop_spec i0 Q t st f s X i :
  clean t -> pinned_ok i0 Q (st, f) -> at_state p f s X -> calm (pmatch_loop guarded s (chars t) i (-1) (st, f)) = true ->
  exists r m, pmatch_loop step s (chars t) i (-1) (st, f) = Ret r m /\ pinned_ok i0 Q m /\ leftmost 0 X t i r.
Proof.
  revert st f s X i. induction t as [|c t IH]; intros st f s X i Ht Hok HX Hcalm.
  all: pose proof Hcalm as Hcalm'; cbn [chars map app pmatch_loop] in Hcalm'; apply calm_first in Hcalm';
    destruct (longest_pinned i0 Q _ st f s X 0 (-1) Ht Hok HX Hcalm') as (r & [st1 f1] & E & Eg & Hok1 & Hgr).
  all: cbn [chars map app pmatch_loop] in Hcalm |- *; unfold chars in E, Eg; cbn [map app] in E, Eg;
    rewrite (lbind_step _ _ _ _ _ E); rewrite (lbind_step _ _ _ _ _ Eg) in Hcalm.
  - destruct Hgr as [(k & Hk & -> & Hmax)|[-> Hno]].
    + destruct (Z.leb_spec 0 (0 + Z.of_nat k)); [|lia]. exists (Some (i, Z.of_nat k)), (st1, f1). split_and!; [done..|]. apply leftmost_here; [lia|done..].
    + cbn [Z.leb Z.compare]. destruct Hok1 as (Hr1 & Hc1 & Ha1). destruct (nextin_spec i0 Q st1 f1 Hc1 Ha1) as (f2 & E2 & H2 & H3 & _).
      rewrite (lbind_step _ _ _ _ _ E2). exists None, (st1, f2). split_and!; [done..|]. apply leftmost_end. auto.
  - destruct Hgr as [(k & Hk & -> & Hmax)|[-> Hno]].
    + destruct (Z.leb_spec 0 (0 + Z.of_nat k)); [|lia]. exists (Some (i, Z.of_nat k)), (st1, f1). split_and!; [done..|]. apply leftmost_here; [lia|done..].
    + cbn [Z.leb Z.compare] in Hcalm |- *. destruct Hok1 as (Hr1 & Hc1 & Ha1). destruct (nextin_spec i0 Q st1 f1 Hc1 Ha1) as (f2 & E2 & H2 & H3 & H4 & _).
      rewrite (lbind_step _ _ _ _ _ E2) in Hcalm. rewrite (lbind_step _ _ _ _ _ E2). destruct (zc_clean c t Ht) as (_ & _ & H0 & Ht').
      rewrite (proj2 (Z.eqb_neq _ _) H0) in Hcalm |- *.
      destruct (IH st1 f2 2%nat here (S i) Ht') as (r & m & Er & Hok2 & Hl); [done..|]. exists r, m. split_and!; [done..|].
      apply leftmost_next; [auto|done].
Qed.

Lemma nematch_loop_spec i0 Q t st f s X i patlen :
  clean t -> pinned_ok i0 Q (st, f) -> at_state p f s X -> patlen <= 0 -> calm (nematch_loop guarded s (chars t) i patlen (st, f)) = true ->
  exists r m, nematch_loop step s (chars t) i patlen (st, f) = Ret r m /\ pinned_ok i0 Q m /\ leftmost 1 X t i r.
Proof.
  revert st f s X i patlen. induction t as [|c t IH]; intros st f s X i patlen Ht Hok HX Hpl Hcalm.
  - exists None, (st, f). split_and!; [done..|]. apply leftmost_end. intros k Hk [Hl _]. cbn in Hl. lia.
  - destruct (zc_clean c t Ht) as (_ & _ & H0 & Ht'). cbn [chars map app nematch_loop] in Hcalm |- *.
    rewrite (proj2 (Z.eqb_neq _ _) H0) in Hcalm |- *. pose proof (calm_first _ _ _ Hcalm) as Hcalm'.
    destruct (longest_pinned i0 Q (c :: t) st f s X 0 patlen Ht Hok HX Hcalm') as (r & [st1 f1] & E & Eg & Hok1 & Hgr).
    unfold chars in E, Eg; cbn [map app] in E, Eg. rewrite (lbind_step _ _ _ _ _ E). rewrite (lbind_step _ _ _ _ _ Eg) in Hcalm.
    destruct (Z.ltb_spec 0 r) as [Hr|Hr].
    + destruct Hgr as [(k & Hk & -> & Hmax)|[-> _]]; [|lia].
      exists (Some (i, 0 + Z.of_nat k)), (st1, f1). split_and!; [done..|]. apply leftmost_here; [lia|done..].
    + assert (Hno : forall k, (1 <= k)%nat -> ~ len_at p X (c :: t) k).
      { intros k Hk Hl. destruct Hgr as [(k0 & _ & -> & Hmax)|[_ Hno]]; [specialize (Hmax k Hl); lia|by apply (Hno k)]. }
      destruct Hok1 as (Hr1 & Hc1 & Ha1). destruct (nextin_spec i0 Q st1 f1 Hc1 Ha1) as (f2 & E2 & H2 & H3 & H4 & _).
      rewrite (lbind_step _ _ _ _ _ E2) in Hcalm. rewrite (lbind_step _ _ _ _ _ E2).
      destruct (IH st1 f2 2%nat here (S i) r Ht') as (r' & m & Er & Hok2 & Hl); [done..|]. exists r', m. split_and!; [done..|].
      by apply leftmost_next.
Qed.

(** ** The calls *)

Lemma first_state_spec st f :
  anchored_ok (st, f) ->
  exists s st' f', first_state (st, f) = Ret s (st', f') /\ anchored_ok (st', f') /\ at_state p f' s init /\ reset f' = false /\
    (reset f = false -> initstat f' = initstat f).
Proof.
  intros (Hroom & Hco & Han). unfold first_state. unfold lbind at 1, get_fa. cbn [snd]. destruct (reset f) eqn:Er.
  - destruct (makeinit_anchored st f (consistent_ready f Hco) Hroom) as (st' & f' & E & G1 & G2 & _ & G3 & G4 & G5 & G6).
    rewrite (lbind_step _ _ _ _ _ E). unfold lbind, modify_fa. cbn [fst snd]. pose proof (c_curstat p f' G2).
    set (g := set_initstat (curstat f') f'). exists (curstat f'), st', g. split; [done|].
    assert (Hat : at_state p g (curstat f') init) by (split; [cbn; lia|done]). split; [|split_and!; [done|done|by intros; congruence]].
    split_and!; [done| |by split]. destruct G2 as [? ? ? ? ? ? ?]. by split.
  - exists (initstat f), st, f. split_and!; [done..| |done|done]. by apply Han.
Qed.

Lemma pmatch_spec t st f :
  clean t -> anchored_ok (st, f) -> calm (pmatch_with guarded t (st, f)) = true ->
  exists r m, pmatch t (st, f) = Ret r m /\ anchored_ok m /\ leftmost 0 init t 0 r.
Proof.
  intros Ht Hok Hcalm. unfold pmatch, pmatch_with in *. destruct (first_state_spec st f Hok) as (s & st' & f' & E & Hok' & HX & _).
  rewrite (lbind_step _ _ _ _ _ E) in Hcalm. rewrite (lbind_step _ _ _ _ _ E).
  destruct (pmatch_loop_spec _ _ t st' f' s init 0 Ht (anchored_pinned _ Hok') HX Hcalm) as (r & m & Er & Hm & Hl). exists r, m.
  split_and!; [done| |done]. eapply pinned_anchored; [|exact Hm]. by apply list_elem_of_singleton.
Qed.

Lemma nematch_spec t st f :
  clean t -> anchored_ok (st, f) -> calm (nematch_with guarded t (st, f)) = true ->
  exists r m, nematch t (st, f) = Ret r m /\ anchored_ok m /\ leftmost 1 init t 0 r.
Proof.
  intros Ht Hok Hcalm. unfold nematch, nematch_with in *. destruct (first_state_spec st f Hok) as (s & st' & f' & E & Hok' & HX & _).
  rewrite (lbind_step _ _ _ _ _ E) in Hcalm. rewrite (lbind_step _ _ _ _ _ E).
  destruct (nematch_loop_spec _ _ t st' f' s init 0 (-1) Ht (anchored_pinned _ Hok') HX ltac:(lia) Hcalm) as (r & m & Er & Hm & Hl). exists r, m.
  split_and!; [done| |done]. eapply pinned_anchored; [|exact Hm]. by apply list_elem_of_singleton.
Qed.

(** The automaton of [match]. *)
Definition searching (f : fa) : Prop :=
  initstat f = (if decide (hat = start) then 2 else 3)%nat /\ (reset f = false -> at_state p f (initstat f) hat).

Definition searching_ok (m : machine) : Prop := room m.1 /\ consistent m.2 /\ searching m.2.

Lemma keeps_searching f f' : keeps p f f' -> searching f -> searching f'.
Proof.
  intros [(_ & _ & _ & E4 & _) Hk] [Hi Hr]. split; [congruence|]. intros Hf'. destruct (Hk Hf') as (Hf & Hc & Hs).
  destruct (Hr Hf) as [Hle Hst]. rewrite E4. split; [lia|by apply Hs].
Qed.

Lemma match_spec t st f :
  clean t -> searching_ok (st, f) -> calm (match_with guarded t (st, f)) = true ->
  exists b m, _match t (st, f) = Ret b m /\ searching_ok m /\
    (b = true <-> exists u v, chars t = u ++ v /\ accepts p hat u).
Proof.
  intros Ht (Hroom & Hco & [Hi Hr]) Hcalm. cbn [fst snd] in Hroom, Hco, Hi, Hr. unfold _match, match_with in *. unfold lbind at 1, get_fa in Hcalm. unfold lbind at 1, get_fa. cbn [snd] in Hcalm |- *.
  assert (Hini : exists s st1 f1, (if reset f then makeinit false else lret (initstat f)) (st, f) = Ret s (st1, f1) /\
    searching_ok (st1, f1) /\ at_state p f1 s hat).
  { destruct (reset f) eqn:Er.
    - destruct (makeinit_unanchored st f (consistent_ready f Hco) Hroom) as (st' & f' & E & G1 & G2 & (_ & _ & _ & G3 & _) & G4 & G5 & G6).
      pose proof (c_curstat p f' G2). exists (curstat f'), st', f'. assert (Hat : at_state p f' (curstat f') hat) by (split; [lia|done]).
      split_and!; [done| |done]. split; [done|]. split; [done|]. cbn [snd]. split; [by rewrite G3|]. intros _. by rewrite G3, Hi, <-G6.
    - exists (initstat f), st, f. split_and!; [done| |by apply Hr]. split; [done|]. split; [done|]. split; [done|]. intros _. by apply Hr. }
  destruct Hini as (s & st1 & f1 & E & (G1 & G2 & G3) & HX). rewrite (lbind_step _ _ _ _ _ E) in Hcalm. rewrite (lbind_step _ _ _ _ _ E).
  rewrite (lbind_step _ _ _ _ _ (is_out_state p f1 s hat st1 HX)) in Hcalm. rewrite (lbind_step _ _ _ _ _ (is_out_state p f1 s hat st1 HX)). case_bool_decide as Ha.
  - exists true, (st1, f1). split_and!; [done..|]. split; [|done]. intros _. exists [], (chars t). split; [done|]. by apply accepts_nil.
  - destruct (match_loop_spec p Hnf Htx t st1 f1 s hat Ht G2 G1 HX Hcalm) as (b & [st2 f2] & E2 & (K1 & K2 & K3) & Hiff).
    exists b, (st2, f2). split_and!; [done|split_and!; [done..|exact (keeps_searching f1 f2 K3 G3)]|]. rewrite Hiff. split; [intros (u & v & ? & _ & ?); eauto|].
    intros (u & v & Eu & HA). exists u, v. split_and!; [done| |done]. intros ->. by apply accepts_nil in HA.
Qed.
End Search.
