(* ===== verification/AwkResults.v ===== *)
(** * Regular expressions of nawk: results

    What the automata find, in terms of the parts of a text that match the pattern
    ([hit]), and that [mkdfa] makes an automaton for which it holds. *)

From S2P Require Import Prelude Util AwkRegex AwkFollow AwkDfa AwkStates AwkMatch AwkSearch.
Open Scope Z_scope.
Open Scope ndk_scope.

(** ** Trees of the parser *)

Definition proper (np : node) : bool := no_final np && texts np.

(** A parser function that returns proper trees. *)
Definition gives (c : M lexer node) : Prop := forall st np st', c st = Ret np st' -> proper np = true.

Lemma gives_bind {A} (c : M lexer A) (k : A -> M lexer node) : (forall x, gives (k x)) -> gives (lbind c k).
Proof. intros Hk st np st' E. unfold lbind in E. destruct (c st) as [x s| |]; [|done..]. by apply (Hk x s np st'). Qed.

Lemma gives_then (c : M lexer node) (k : node -> M lexer node) :
  gives c -> (forall np, proper np = true -> gives (k np)) -> gives (lbind c k).
Proof.
  intros Hc Hk st np st' E. unfold lbind in E. destruct (c st) as [x s| |] eqn:Ec; [|done..]. by apply (Hk x (Hc _ _ _ Ec) s np st').
Qed.

Lemma gives_ret np : proper np = true -> gives (lret np).
Proof. by intros Hp st np' st' [= <- _]. Qed.

Lemma gives_fail e : gives (lfail e).
Proof. done. Qed.

Lemma proper_cat l r : proper l = true -> proper r = true -> proper (CAT l r) = true /\ proper (OR l r) = true.
Proof. unfold proper. cbn. rewrite !andb_true_iff. tauto. Qed.

Lemma tostring_forallb s : forallb (fun c => negb (zc c =? 0)) (tostring s) = true.
Proof. induction s as [|c s IH]; [done|]. cbn. destruct (zc c =? 0) eqn:E; [done|]. cbn. by rewrite E, IH. Qed.

Lemma class_leaf_gives make s : make = CCL \/ make = NCCL -> gives (class_leaf make s).
Proof.
  intros Hm st np st' E. unfold class_leaf, lread in E. destruct (cclenter s) as [t|] eqn:Ec; [|done]. injection E as <- _.
  unfold cclenter in Ec. destruct (ccl_loop _ _ _); [|done]. injection Ec as <-. unfold proper.
  destruct Hm as [->| ->]; cbn; apply tostring_forallb.
Qed.

Lemma unary_gives fuel np : proper np = true -> gives (unary fuel np).
Proof.
  revert np. induction fuel as [|fuel IH]; intros np Hp; [done|]. cbn [unary]. apply gives_bind. intros st.
  destruct (rtok st); try (by apply gives_ret); apply gives_bind; intros _; by apply IH.
Qed.

Lemma parser_gives fuel :
  gives (primary fuel) /\ (forall np, proper np = true -> gives (concat fuel np)) /\
  (forall np, proper np = true -> gives (alt fuel np)) /\ gives (regexp fuel).
Proof.
  induction fuel as [|fuel (IHp & IHc & IHa & IHr)]; [done|]. split_and!.
  - cbn [primary]. apply gives_bind. intros st.
    assert (Hu : forall np, proper np = true -> gives (do* next in unary fuel np)) by (intros np Hp; apply gives_bind; intros _; by apply unary_gives).
    destruct (rtok st); try (by apply gives_fail); try (by apply Hu).
    + apply gives_then; [apply class_leaf_gives; auto|done].
    + apply gives_then; [apply class_leaf_gives; auto|done].
    + apply gives_bind. intros _. apply gives_bind. intros s1.
      assert (Hre : gives (let* np := regexp fuel in let* st := lget in match rtok st with TClose => do* next in unary fuel np
                           | _ => FATAL "syntax error in regular expression %s at %s" end)).
      { apply gives_then; [done|]. intros np Hp. apply gives_bind. intros s2. destruct (rtok s2); try done. by apply Hu. }
      destruct (rtok s1); try exact Hre. by apply Hu.
  - intros np Hp. cbn [concat]. apply gives_bind. intros st. destruct (rtok st); try (by apply gives_ret).
    all: apply gives_then; [done|]; intros r Hr; apply IHc; by apply proper_cat.
  - intros np Hp. cbn [alt]. apply gives_bind. intros st. destruct (rtok st); try (by apply gives_ret).
    apply gives_bind. intros _. apply gives_then; [done|]. intros r Hr. apply gives_then; [by apply IHc|]. intros r' Hr'.
    apply IHa. by apply proper_cat.
  - cbn [regexp]. apply gives_then; [done|]. intros np Hp. apply gives_then; [by apply IHc|]. intros np' Hp'. by apply IHa.
Qed.

Lemma reparse_proper s p st : reparse s = Ret p st -> no_final p = true /\ texts p = true.
Proof.
  intros E. apply andb_prop. revert E. unfold reparse. set (st0 := {| rtok := TEnd; prestr := s |}). generalize st0. intros st1 E.
  assert (H : gives (do* next in let* st := lget in match rtok st with TEnd => lret (op EMPTYRE) | _ =>
     let* np := regexp (3 * length s + 4) in let* st := lget in match rtok st with TEnd => lret np
       | _ => FATAL "syntax error in regular expression %s at %s" end end)); [|by apply (H st1 p st)].
  destruct (parser_gives (3 * length s + 4)) as (_ & _ & _ & Hr).
  apply gives_bind. intros _. apply gives_bind. intros s1.
  assert (Hre : gives (let* np := regexp (3 * length s + 4) in let* st := lget in match rtok st with TEnd => lret np
       | _ => FATAL "syntax error in regular expression %s at %s" end)).
  { apply gives_then; [done|]. intros np Hp. apply gives_bind. intros s2. destruct (rtok s2); try done. by apply gives_ret. }
  destruct (rtok s1); try exact Hre. by apply gives_ret.
Qed.

(** ** Matches in a text *)

(** The [n] characters from the offset [i] match: they are a word of the pattern, after
    the sign for the beginning if they are at the beginning, and before the sign for
    the end (the code 0) if they are at the end of the text. *)
Definition hit (p : node) (t : cstr) (i n : nat) : Prop :=
  (i + n <= length t)%nat /\
  exists pre post,
    (pre = [] \/ pre = [HAT] /\ i = 0%nat) /\ (post = [] \/ post = [0] /\ (i + n)%nat = length t) /\
    matches p (map Some (pre ++ map zc (take n (drop i t)) ++ post)).

Section Hits.
Context (p : node) (Hnf : no_final p = true) (Htx : texts p = true).

Lemma chars_all t i n : (i + n)%nat = length t -> chars (drop i t) = map zc (take n (drop i t)) ++ [0].
Proof. intros E. unfold chars. by rewrite (take_ge (drop i t)) by (rewrite length_drop; lia). Qed.

Lemma found_hit lo t i n : found_at p lo (init_set p) t i n <-> (lo <= n)%nat /\ hit p t i n.
Proof.
  unfold found_at, hit, len_at. rewrite length_drop. set (w := map zc (take n (drop i t))).
  assert (Hset : forall u, accepts p (set_at p (init_set p) i) u <-> matches p (map Some u) \/ i = 0%nat /\ matches p (map Some (HAT :: u))).
  { intros u. unfold set_at. destruct (Nat.eqb_spec i 0) as [->|Hi]; [rewrite accepts_init by done; tauto|].
    rewrite accepts_here by done. tauto. }
  setoid_rewrite Hset. split.
  - intros (Hi & Hlo & Hn & Hor). split; [done|]. split; [lia|]. destruct Hor as [[Hm|[-> Hm]]|[En Hor]].
    + exists [], []. rewrite app_nil_r. auto.
    + exists [HAT], []. rewrite app_nil_r. auto.
    + assert (E : (i + n)%nat = length t) by lia. rewrite (chars_all t i n E) in Hor. fold w in Hor. destruct Hor as [Hm|[-> Hm]].
      * exists [], [0]. auto.
      * exists [HAT], [0]. auto.
  - intros (Hlo & Hin & pre & post & Hpre & Hpost & Hm). split_and!; [lia|done|lia|].
    destruct Hpost as [->|[-> E]]; [left|right; split; [lia|rewrite (chars_all t i n E); fold w]].
    all: rewrite ?app_nil_r in Hm; destruct Hpre as [->|[-> ->]]; auto.
Qed.

(** The beginnings of the characters that are read. *)
Lemma chars_prefix t u v :
  chars t = u ++ v -> (exists k, (k <= length t)%nat /\ u = map zc (take k t)) \/ u = chars t.
Proof.
  unfold chars. intros E. destruct (decide (length u <= length t)%nat) as [Hl|Hl].
  - left. exists (length u). split; [done|]. assert (Et : take (length u) (map zc t ++ [0]) = take (length u) (u ++ v)) by congruence.
    rewrite take_app_length in Et. rewrite take_app_le in Et by (rewrite length_map; lia). rewrite <-firstn_map. congruence.
  - right. assert (Hlen : length (map zc t ++ [0]) = length (u ++ v)) by congruence. rewrite !length_app, length_map in Hlen. cbn in Hlen.
    destruct v; [by rewrite app_nil_r in E|cbn in Hlen; lia].
Qed.

Lemma split_take {A} (l l1 l2 : list A) : l = l1 ++ l2 -> l1 = take (length l1) l /\ l2 = drop (length l1) l.
Proof. intros ->. by rewrite take_app_length, drop_app_length. Qed.

Lemma found_match t :
  clean t -> (exists u v, chars t = u ++ v /\ accepts p (hat_set p) u) <-> exists i n, hit p t i n.
Proof.
  intros Ht. setoid_rewrite accepts_hat; [|done..]. split.
  - intros (u & v & Eu & w1 & w2 & Ew & Hw1 & Hm).
    assert (Hcase : exists k post, (k <= length t)%nat /\ (post = [] \/ post = [0] /\ k = length t) /\ u = map zc (take k t) ++ post).
    { destruct (chars_prefix t u v Eu) as [(k & Hk & ->)| ->]; [exists k, []; rewrite app_nil_r; auto|].
      exists (length t), [0]. rewrite firstn_all. auto. }
    destruct Hcase as (k & post & Hk & Hpost & ->). destruct w1 as [|x w1]; cbn in Ew.
    + subst w2. exists 0%nat, k. split; [lia|]. exists [HAT], post. rewrite drop_0. split_and!; auto.
    + injection Ew as <- Ew. apply Forall_cons_iff in Hw1 as [_ Hw1].
      destruct (decide (length w1 <= k)%nat) as [Hl|Hl].
      * destruct (split_take _ _ _ Ew) as [_ E2]. rewrite drop_app_le in E2 by (rewrite length_map, length_take; lia).
        exists (length w1), (k - length w1)%nat. split; [lia|]. exists [], post. split_and!; [auto|destruct Hpost as [->|[-> ->]]; [auto|right; split; [done|lia]]|].
        cbn [app]. rewrite skipn_map, skipn_firstn_comm in E2. by rewrite <-E2.
      * exfalso. destruct Hpost as [->|[-> ->]].
        -- rewrite app_nil_r in Ew. assert (length (map zc (take k t)) = length (w1 ++ w2)) as El by congruence. rewrite length_map, length_take, length_app in El. lia.
        -- assert (In 0 w1) as H0; [|rewrite List.Forall_forall in Hw1; by apply (Hw1 0)].
           destruct (split_take _ _ _ Ew) as [-> _]. rewrite firstn_all. rewrite take_ge by (rewrite length_app, length_map; cbn; lia). apply in_or_app. right. by left.
  - intros (i & n & Hin & pre & post & Hpre & Hpost & Hm). exists (map zc (take (i + n) t) ++ post).
    assert (Hv : exists v, chars t = (map zc (take (i + n) t) ++ post) ++ v).
    { assert (Es : map zc t = map zc (take (i + n) t) ++ map zc (drop (i + n) t)) by (by rewrite <-map_app, firstn_skipn).
      unfold chars. rewrite Es. destruct Hpost as [->|[-> E]].
      - exists (map zc (drop (i + n) t) ++ [0]). by rewrite app_nil_r, app_assoc.
      - exists []. rewrite (drop_ge t) by lia. by rewrite !app_nil_r. }
    destruct Hv as [v Hv]. exists v. split; [done|].
    assert (Hnz : Forall (fun c => c <> 0) (map zc (take i t))).
    { apply Forall_map. apply Forall_take. eapply Forall_impl; [|exact Ht]. tauto. }
    rewrite <-take_take_drop, map_app, <-app_assoc. destruct Hpre as [->|[-> ->]].
    + exists (HAT :: map zc (take i t)), (map zc (take n (drop i t)) ++ post). split_and!; [done|by constructor|done].
    + exists [], ([HAT] ++ map zc (take n (drop 0 t)) ++ post). split_and!; [done|constructor|done].
Qed.
End Hits.

(** ** Runs that are calm *)

Create HintDb refines.

(** [c] may fail, and otherwise does what [c'] does. *)
Definition refines {S A} (c c' : M S A) : Prop := forall m, calm (c m) = true -> c' m = c m.

Lemma refines_refl {S A} (c : M S A) : refines c c.
Proof. done. Qed.

Lemma refines_bind {S A B} (c c' : M S A) (k k' : A -> M S B) :
  refines c c' -> (forall x, refines (k x) (k' x)) -> refines (lbind c k) (lbind c' k').
Proof.
  intros Hc Hk m Hm. unfold lbind in *. destruct (c m) as [x s|e s|] eqn:E; [|done|].
  - rewrite (Hc m) by (by rewrite E). rewrite E. by apply Hk.
  - rewrite (Hc m) by (by rewrite E). by rewrite E.
Qed.

Lemma refines_if {S A} (b : bool) (c c' d d' : M S A) : refines c c' -> refines d d' -> refines (if b then c else d) (if b then c' else d').
Proof. by destruct b. Qed.

#[export] Hint Resolve refines_refl refines_bind refines_if : refines.

Lemma guarded_refines s c : refines (guarded s c) (step s c).
Proof.
  apply refines_bind; [done|]. intros ns. apply refines_if; [|done]. intros [st f] Hm. unfold lbind, get_fa in *. cbn [snd] in *.
  by destruct (_ && _).
Qed.

(** The searches with one kind of transition and with another. *)
Section Refine.
Context (g g' : nat -> Z -> M machine nat) (Hg : forall s c, refines (g s c) (g' s c)).

Lemma match_loop_refines s p : refines (match_loop g s p) (match_loop g' s p).
Proof.
  revert s. induction p as [|c p IH]; intros s; cbn [match_loop]; [done|].
  apply refines_bind; [apply Hg|]. intros n. apply refines_bind; [done|]. intros b. auto with refines.
Qed.

Lemma longest_refines s q n patlen : refines (longest g s q n patlen) (longest g' s q n patlen).
Proof.
  revert s n patlen. induction q as [|c q IH]; intros s n patlen; cbn [longest]; [done|].
  apply refines_bind; [done|]. intros b. apply refines_bind; [apply Hg|]. intros s'. auto with refines.
Qed.

Lemma match_refines t : refines (match_with g t) (match_with g' t).
Proof.
  apply refines_bind; [done|]. intros f. apply refines_bind; [done|]. intros s. apply refines_bind; [done|]. intros b.
  apply refines_if; [done|apply match_loop_refines].
Qed.

Lemma pmatch_loop_refines s q i n : refines (pmatch_loop g s q i n) (pmatch_loop g' s q i n).
Proof.
  revert s i n. induction q as [|c q IH]; intros s i n; cbn [pmatch_loop]; [done|].
  apply refines_bind; [apply longest_refines|]. intros r. apply refines_if; [done|]. apply refines_bind; [done|]. intros _. auto with refines.
Qed.

Lemma nematch_loop_refines s q i n : refines (nematch_loop g s q i n) (nematch_loop g' s q i n).
Proof.
  revert s i n. induction q as [|c q IH]; intros s i n; cbn [nematch_loop]; [done|]. apply refines_if; [done|].
  apply refines_bind; [apply longest_refines|]. intros r. apply refines_if; [done|]. apply refines_bind; [done|]. auto.
Qed.

Lemma pmatch_refines t : refines (pmatch_with g t) (pmatch_with g' t).
Proof. apply refines_bind; [done|]. intros s. apply pmatch_loop_refines. Qed.
End Refine.

(** ** The automaton of a pattern *)

(** The arrays have room for the positions of the pattern after they have grown. *)
Definition enough (p : node) (st : scratch) : Prop :=
  (1 <= maxsetvec st)%nat /\ (S (last_pos p) < grown (S (last_pos p)) (last_pos p) (maxsetvec st))%nat.

Section Make.
Context (p : node) (Hnf : no_final p = true) (Htx : texts p = true).

Lemma empty_fa_ready s re :
  (forall o, o ∈ occs [] (tree p) -> re !! index o = Some (Some (row (last_pos p) o))) -> ready p (empty_fa s (S (last_pos p)) re).
Proof.
  intros Hre. split_and!.
  - split; [cbn; lia|done].
  - unfold shape, empty_fa. cbn [gototab out posns]. rewrite !length_replicate. split_and!; [done| |done|done].
    apply Forall_replicate. apply length_replicate.
  - split_and!; [by rewrite desc_empty|intros i Hi; by apply not_elem_of_empty in Hi|].
    rewrite (bool_decide_eq_false_2 _ (not_elem_of_empty _)). done.
  - intros c n Hc Hg. left. unfold get_goto in Hg. destruct (row_of_char 1 c ltac:(unfold NCHARS; lia)) as [E1 E2]. rewrite E1, E2 in Hg.
    change (gototab (empty_fa s (S (last_pos p)) re) !! 1%nat) with (Some (replicate (Z.to_nat NCHARS) 0%nat)) in Hg.
    cbv iota in Hg. apply lookup_replicate in Hg as [-> _]. done.
Qed.

Lemma mkdfa_states s lst st anch :
  reparse s = Ret p lst -> enough p st ->
  exists f st', mkdfa s anch st = Ret f st' /\
    if anch then anchored_ok p (st', f) else searching_ok p (st', f).
Proof.
  intros Hp [Hm Hen]. unfold mkdfa. rewrite Hp, penter_search_tree. cbn [Nat.sub]. rewrite Nat.sub_0_r.
  destruct (cfoll_table p st (replicate (S (S (last_pos p))) None) Hm) as (re' & st1 & E & _ & _ & Hg & Hrows); [rewrite length_replicate; lia|].
  rewrite E. assert (Hroom : room p st1) by (unfold room; lia). pose proof (empty_fa_ready s re' Hrows) as Hready.
  destruct anch.
  - destruct (makeinit_anchored p Hnf Htx st1 _ Hready Hroom) as (st2 & f & -> & G1 & G2 & _ & G3 & G4 & G5 & G6).
    eexists _, st2. split; [done|]. pose proof (c_curstat p f G2). split_and!; [done|destruct G2 as [? ? ? ? ? ? ?]; by split|].
    split; [done|]. intros _. split; [done|]. split; [cbn; lia|done].
  - destruct (makeinit_unanchored p Hnf Htx st1 _ Hready Hroom) as (st2 & f & -> & G1 & G2 & _ & G3 & G4 & G5).
    eexists _, st2. split; [done|]. pose proof (c_curstat p f G2). split_and!; [done|destruct G2 as [? ? ? ? ? ? ?]; by split|].
    split; [done|]. intros _. split; [cbn; lia|done].
Qed.
End Make.
