(* ===== verification/AwkCache.v ===== *)
(** * Regular expressions of nawk: the cache of automata ([b.c], [run.c])

    [makedfa] returns the automaton of a pattern.  The constant patterns of a program
    are compiled once; the others are kept in the table [fatab] of 20 automata, in
    which the least recently used one is replaced and freed.  Callers have a pointer
    to the automaton and change it by matching.  The file models the automata as
    objects of a heap, [makedfa], and the operators of the language that match a text
    ([matchop]), and shows that all answers of a program are right. *)

From stdpp Require Import sorting.
From S2P Require Import Prelude Util AwkRegex AwkFollow AwkDfa AwkStates AwkMatch AwkSearch AwkResults.
Open Scope Z_scope.
Open Scope ndk_scope.

(** ** The state *)

Definition NFA : nat := 20.

(** The arrays, which are allocated by the first call; the automata, where a freed
    one is [None]; the addresses in [fatab]; the clock of the uses; and
    [compile_time], which is 0 when the program runs. *)
Record awk := {
  work : option scratch;
  heap : list (option fa);
  fatab : list nat;
  now : Z;
  compile_time : Z
}.

Definition start_awk : awk := {| work := None; heap := []; fatab := []; now := 1; compile_time := 2 |}.

Definition set_work w st := {| work := w; heap := heap st; fatab := fatab st; now := now st; compile_time := compile_time st |}.
Definition set_heap h st := {| work := work st; heap := h; fatab := fatab st; now := now st; compile_time := compile_time st |}.
Definition set_fatab t st := {| work := work st; heap := heap st; fatab := t; now := now st; compile_time := compile_time st |}.
Definition set_now n st := {| work := work st; heap := heap st; fatab := fatab st; now := n; compile_time := compile_time st |}.
Definition set_compile_time c st := {| work := work st; heap := heap st; fatab := fatab st; now := now st; compile_time := c |}.

Definition modify (g : awk -> awk) : M awk unit := fun st => Ret tt (g st).

(** The automaton at an address. *)
Definition fa_at (st : awk) (id : nat) : option fa := match heap st !! id with Some (Some f) => Some f | _ => None end.

(** A function on the automaton at an address. *)
Definition on_fa {A} (id : nat) (c : M machine A) : M awk A := fun st =>
  match work st, fa_at st id with
  | Some w, Some f =>
      let put m := set_work (Some m.1) (set_heap (<[id := Some m.2]> (heap st)) st) in
      match c (w, f) with
      | Ret x m => Ret x (put m)
      | Fail e m => Fail e (put m)
      | Crash => Crash
      end
  | _, _ => Crash
  end.

(** ** The cache *)

(** The first lines of [makedfa]; the elements of the new arrays are not
    initialised, and every use of them clears the ones it reads. *)
Definition init_sets : M awk unit := modify (fun st =>
  match work st with
  | Some _ => st
  | None => set_work (Some {| setvec := replicate MAXLIN false; setcnt := 0 |}) st
  end).

(** A new automaton of [mkdfa]. *)
Definition new_fa (s : cstr) (anchor : bool) : M awk nat := fun st =>
  match work st with
  | Some w =>
      match mkdfa s anchor w with
      | Ret f w => Ret (length (heap st)) (set_work (Some w) (set_heap (heap st ++ [Some f]) st))
      | Fail e w => Fail e (set_work (Some w) st)
      | Crash => Crash
      end
  | None => Crash
  end.

(** [use = now++], on an [int]. *)
Definition touch (id : nat) : M awk unit :=
  let* st := lget in
  if now st =? 2 ^ 31 - 1 then lcrash
  else do* on_fa id (modify_fa (set_use (now st))) in modify (set_now (now st + 1)).

(** The search for an automaton in [fatab]. *)
Fixpoint find_fa (s : cstr) (a : bool) (tab : list nat) : M awk (option nat) :=
  match tab with
  | [] => lret None
  | id :: tab =>
      let* f := lread (fun st => fa_at st id) in
      if bool_decide (anchor f = a) && bool_decide (restr f = s) then lret (Some id) else find_fa s a tab
  end.

(** The index of the least recently used automaton; [i] is the index of the first
    element of [tab]. *)
Fixpoint oldest (tab : list nat) (i : nat) (least : Z) (nuse : nat) : M awk nat :=
  match tab with
  | [] => lret nuse
  | id :: tab =>
      let* f := lread (fun st => fa_at st id) in
      if use f <? least then oldest tab (S i) (use f) i else oldest tab (S i) least nuse
  end.

Definition freefa (id : nat) : M awk unit :=
  do* lread (fun st => fa_at st id) in modify (fun st => set_heap (<[id := None]> (heap st)) st).

(** The new automaton enters the table, in a free place or in that of the least
    recently used one. *)
Definition enter_fa (pfa : nat) : M awk unit :=
  let* st := lget in
  if (length (fatab st) <? NFA)%nat then
    do* modify (set_fatab (fatab st ++ [pfa])) in
    touch pfa
  else
    let* id := lread (fun st => head (fatab st)) in
    let* f := lread (fun st => fa_at st id) in
    let* nuse := oldest (tail (fatab st)) 1 (use f) 0 in
    let* id := lread (fun st => fatab st !! nuse) in
    do* freefa id in
    do* modify (set_fatab (<[nuse := pfa]> (fatab st))) in
    touch pfa.

Definition makedfa (s : cstr) (anchor : bool) : M awk nat :=
  do* init_sets in
  let* st := lget in
  if negb (compile_time st =? 0) then new_fa s anchor
  else
    let* found := find_fa s anchor (fatab st) in
    match found with
    | Some id => do* touch id in lret id
    | None => let* pfa := new_fa s anchor in do* enter_fa pfa in lret pfa
    end.

(** ** The operators [~], [!~] and the function [match] *)

Inductive operator := MATCH | NOTMATCH | MATCHFCN.

(** The pattern: an automaton that is compiled already, or a text. *)
Inductive regexpr := Compiled (pfa : nat) | Dynamic (t : cstr).

(** The truth value of an operator, or the values of [RSTART], which is also the
    result, and [RLENGTH]. *)
Inductive answer := Truth (b : bool) | Position (start patlen : Z).

Definition mode (n : operator) : bool := match n with MATCHFCN => true | _ => false end.

Section Operators.
Context (goto : nat -> Z -> M machine nat).

Definition matchop_with (n : operator) (r : regexpr) (s : cstr) : M awk answer :=
  let* pfa := (match r with Compiled pfa => lret pfa | Dynamic t => makedfa t (mode n) end) in
  match n with
  | MATCHFCN =>
      let* m := on_fa pfa (pmatch_with goto s) in
      lret (match m with Some (i, len) => Position (Z.of_nat i + 1) len | None => Position 0 (-1) end)
  | MATCH => let* b := on_fa pfa (match_with goto s) in lret (Truth b)
  | NOTMATCH => let* b := on_fa pfa (match_with goto s) in lret (Truth (negb b))
  end.
End Operators.

Definition matchop : operator -> regexpr -> cstr -> M awk answer := matchop_with step.

(** ** Programs *)

(** Calls one after the other. *)
Fixpoint each {St T A} (call : T -> M St A) (ts : list T) : M St (list A) :=
  match ts with
  | [] => lret []
  | t :: ts => let* x := call t in let* xs := each call ts in lret (x :: xs)
  end.

(** A match of a program: with its constant pattern of some index, or with a text. *)
Inductive source := Constant (k : nat) | Computed (t : cstr).

Record request := { oper : operator; regex : source; target : cstr }.

Definition ask (goto : nat -> Z -> M machine nat) (ids : list nat) (q : request) : M awk answer :=
  let* r := (match regex q with Constant k => let* id := lread (fun _ => ids !! k) in lret (Compiled id) | Computed t => lret (Dynamic t) end) in
  matchop_with goto (oper q) r (target q).

(** The constants are compiled with the mode of their operator, and the matches are
    asked in the order of the run. *)
Definition program (goto : nat -> Z -> M machine nat) (constants : list (cstr * bool)) (qs : list request) : M awk (list answer) :=
  let* ids := each (fun c => makedfa c.1 c.2) constants in
  do* modify (set_compile_time 0) in
  each (ask goto ids) qs.

(** ** What matching leaves alone *)

(** The arrays have grown by a power of 4. *)
Definition enlarged (w w' : scratch) : Prop := exists k, maxsetvec w' = (maxsetvec w * 4 ^ k)%nat.

#[export] Instance enlarged_preorder : PreOrder enlarged.
Proof.
  split.
  - intros w. exists 0%nat. cbn. lia.
  - intros w1 w2 w3 [j Hj] [k Hk]. exists (j + k)%nat. rewrite Hk, Hj, Nat.pow_add_r. lia.
Qed.

Definition key (f : fa) : cstr * bool := (restr f, anchor f).

Definition stable (m m' : machine) : Prop := enlarged m.1 m'.1 /\ key m'.2 = key m.2 /\ use m'.2 = use m.2.

#[export] Instance stable_preorder : PreOrder stable.
Proof.
  split.
  - intros m. by split.
  - intros m1 m2 m3 (A1 & A2 & A3) (B1 & B2 & B3). split_and!; [by etrans|congruence..].
Qed.

(** A computation whose results are related to its first state. *)
Definition keeping {St A} (R : relation St) (c : M St A) : Prop := forall m x m', c m = Ret x m' -> R m m'.

Create HintDb keeping.

Section Keeping.
Context {St : Type} (R : relation St) {HR : PreOrder R}.

Lemma keeping_bind {A B} (c : M St A) (k : A -> M St B) : keeping R c -> (forall x, keeping R (k x)) -> keeping R (lbind c k).
Proof. intros Hc Hk m x m' E. unfold lbind in E. destruct (c m) as [y s| |] eqn:Ec; [|done..]. etrans; [by eapply Hc|by eapply Hk]. Qed.

Lemma keeping_ret {A} (x : A) : keeping R (lret x).
Proof. by intros m y m' [= _ <-]. Qed.

Lemma keeping_read {A} (g : St -> option A) : keeping R (lread g).
Proof. intros m y m' E. unfold lread in E. destruct (g m); [|done]. by injection E as _ <-. Qed.

Lemma keeping_get : keeping R lget.
Proof. by intros m y m' [= _ <-]. Qed.

Lemma keeping_crash {A} : keeping R (@lcrash St A).
Proof. done. Qed.

Lemma keeping_fail {A} e : keeping R (@lfail St A e).
Proof. done. Qed.

Lemma keeping_if {A} (b : bool) (c d : M St A) : keeping R c -> keeping R d -> keeping R (if b then c else d).
Proof. by destruct b. Qed.
End Keeping.

#[export] Hint Resolve keeping_ret keeping_read keeping_get keeping_crash keeping_fail keeping_if : keeping.

Ltac keep_step :=
  match goal with
  | |- keeping _ (lbind _ _) => apply keeping_bind; [apply _| |intros ?]
  | |- keeping _ (match ?x with _ => _ end) => destruct x
  | |- _ => solve [auto with keeping typeclass_instances]
  end.

Ltac keep := repeat keep_step.

Lemma grown_power fuel need m : exists k, grown fuel need m = (m * 4 ^ k)%nat.
Proof.
  revert m. induction fuel as [|fuel IH]; intros m; cbn [grown]; [exists 0%nat; cbn; lia|].
  destruct (_ <? _)%nat; [exists 0%nat; cbn; lia|]. destruct (IH (m * 4)%nat) as [k ->]. exists (S k). cbn [Nat.pow]. lia.
Qed.

Lemma grow_keeping need : keeping enlarged (grow need).
Proof.
  intros w x w' E. unfold grow in E. destruct (grown_power (S need) need (maxsetvec w)) as [k Hk]. rewrite Hk in E. injection E as _ <-.
  exists k. unfold maxsetvec. cbn [setvec]. rewrite length_app, length_replicate. fold (maxsetvec w). assert (4 ^ k <> 0)%nat by (by apply Nat.pow_nonzero). nia.
Qed.

Lemma same_size w w' : maxsetvec w' = maxsetvec w -> enlarged w w'.
Proof. intros E. exists 0%nat. rewrite E. cbn. lia. Qed.

Lemma clear_keeping n : keeping enlarged (clear n).
Proof.
  intros w x w' E. unfold clear in E. destruct (Nat.leb_spec n (maxsetvec w)); [|done]. injection E as _ <-. apply same_size.
  unfold maxsetvec in *. cbn [setvec]. rewrite length_app, length_replicate, length_drop. lia.
Qed.

Lemma mark_keeping i : keeping enlarged (mark i).
Proof.
  intros w x w' E. unfold mark in E. destruct (_ !! _) as [[]|]; [| |done]; injection E as _ <-; apply same_size; [done|].
  unfold maxsetvec. cbn [setvec]. apply length_insert.
Qed.

Lemma unmark_keeping i : keeping enlarged (unmark i).
Proof.
  intros w x w' E. unfold unmark in E. destruct (_ !! _) as [?|]; [|done]. injection E as _ <-. apply same_size.
  unfold maxsetvec. cbn [setvec]. apply length_insert.
Qed.

Lemma fill_set_keeping n : keeping enlarged (fill_set n).
Proof. intros w x w' E. unfold fill_set in E. destruct (_ <=? _)%nat; [|done]. by injection E as _ <-. Qed.

#[export] Hint Resolve grow_keeping clear_keeping mark_keeping unmark_keeping fill_set_keeping : keeping.

Lemma first_keeping np : keeping enlarged (first np).
Proof. induction np; cbn [first]; keep. Qed.
#[export] Hint Resolve first_keeping : keeping.

Lemma follow_keeping ctx v : keeping enlarged (follow ctx v).
Proof. revert v. induction ctx as [|fr up IH]; intros v; cbn [follow]; [keep|]. destruct fr; keep. Qed.
#[export] Hint Resolve follow_keeping : keeping.

Lemma cfoll_keeping a ctx v re : keeping enlarged (cfoll a ctx v re).
Proof. revert ctx re. induction v; intros ctx re; cbn [cfoll]; keep. Qed.

Lemma mark_all_keeping q : keeping enlarged (mark_all q).
Proof. induction q; cbn [mark_all]; keep. Qed.
#[export] Hint Resolve mark_all_keeping : keeping.

Lemma mark_next_keeping re p c : keeping enlarged (mark_next re p c).
Proof. induction p as [|i p IH]; cbn [mark_next]; keep. Qed.

Lemma fill_tmpset_keeping a : keeping enlarged (fill_tmpset a).
Proof. unfold fill_tmpset. keep. Qed.
#[export] Hint Resolve mark_next_keeping fill_tmpset_keeping : keeping.

Lemma on_scratch_keeping {A} (c : M scratch A) : keeping enlarged c -> keeping stable (on_scratch c).
Proof.
  intros Hc [w f] x m' E. unfold on_scratch in E. cbn [fst snd] in E. destruct (c w) as [y w'| |] eqn:Ec; [|done..]. injection E as _ <-.
  split; [by eapply Hc|done].
Qed.

Lemma modify_keeping g : (forall f, key (g f) = key f /\ use (g f) = use f) -> keeping stable (modify_fa g).
Proof. intros Hg m x m' [= _ <-]. split; [done|apply Hg]. Qed.

Lemma get_fa_keeping : keeping stable get_fa.
Proof. by intros m x m' [= _ <-]. Qed.

Lemma put_goto_keeping s c v : keeping stable (put_goto s c v).
Proof. intros m x m' E. unfold put_goto in E. destruct (_ !! _); [|done]. by injection E as _ <-. Qed.

#[export] Hint Resolve on_scratch_keeping get_fa_keeping put_goto_keeping : keeping.
#[export] Hint Extern 1 (keeping _ (modify_fa _)) => (apply modify_keeping; intros; by split) : keeping.

Lemma cgoto_keeping s c : keeping stable (cgoto s c).
Proof. unfold cgoto, new_state. keep. Qed.
#[export] Hint Resolve cgoto_keeping : keeping.

Lemma makeinit_keeping a : keeping stable (makeinit a).
Proof. unfold makeinit. keep. Qed.

Lemma step_keeping s c : keeping stable (step s c).
Proof. unfold step. keep. Qed.

Lemma nextin_keeping : keeping stable nextin.
Proof. unfold nextin. keep. Qed.
#[export] Hint Resolve makeinit_keeping step_keeping nextin_keeping : keeping.

Lemma is_out_keeping s : keeping stable (is_out s).
Proof. unfold is_out. keep. Qed.
#[export] Hint Resolve is_out_keeping : keeping.

Lemma match_keeping t : keeping stable (_match t).
Proof.
  assert (Hl : forall p s, keeping stable (match_loop step s p)) by (induction p as [|c p IH]; intros s; cbn [match_loop]; keep).
  unfold _match, match_with. keep.
Qed.

Lemma longest_keeping s q n patlen : keeping stable (longest step s q n patlen).
Proof. revert s n patlen. induction q as [|c q IH]; intros s n patlen; cbn [longest]; keep. Qed.
#[export] Hint Resolve longest_keeping : keeping.

Lemma pmatch_keeping t : keeping stable (pmatch t).
Proof.
  assert (Hl : forall p s i n, keeping stable (pmatch_loop step s p i n)) by (induction p as [|c p IH]; intros s i n; cbn [pmatch_loop]; keep).
  unfold pmatch, pmatch_with, first_state. keep.
Qed.

(** ** The invariant *)

Definition sized (w : scratch) : Prop := exists k, maxsetvec w = (MAXLIN * 4 ^ k)%nat.

(** [tmpset] has an element for every position and the one for their number, in
    each size of the arrays that holds the positions. *)
Definition roomy (p : node) : Prop := forall k, S (last_pos p) <> (MAXLIN * 4 ^ k)%nat.

Definition pattern_ok (s : cstr) : Prop := exists p lst, reparse s = Ret p lst /\ roomy p.

(** An automaton that answers for its pattern. *)
Definition fa_ok (w : scratch) (f : fa) : Prop :=
  exists p lst, reparse (restr f) = Ret p lst /\ if anchor f then anchored_ok p (w, f) else searching_ok p (w, f).

(** The entries of the table: the keys and the uses of its automata. *)
Abbreviation entry := (cstr * bool * Z)%type.

Definition lists (st : awk) (id : nat) (e : entry) : Prop := exists f, fa_at st id = Some f /\ e = (key f, use f).

Record awk_ok (st : awk) (es : list entry) : Prop := {
  ok_work : match work st with None => heap st = [] | Some w => sized w /\ forall id f, fa_at st id = Some f -> fa_ok w f end;
  ok_tab : Forall2 (lists st) (fatab st) es;
  ok_NoDup : base.NoDup (fatab st);
  ok_NFA : (length es <= NFA)%nat
}.

(** The automata that are not in the table stay as they are, but for what matching
    does. *)
Definition frames (st st' : awk) : Prop :=
  forall id f, id ∉ fatab st -> fa_at st id = Some f -> id ∉ fatab st' /\ exists f', fa_at st' id = Some f' /\ key f' = key f.

#[export] Instance frames_preorder : PreOrder frames.
Proof.
  split.
  - intros st id f Hn Hf. eauto.
  - intros s1 s2 s3 H1 H2 id f Hn Hf. destruct (H1 id f Hn Hf) as (Hn2 & f2 & Hf2 & E2). destruct (H2 id f2 Hn2 Hf2) as (Hn3 & f3 & Hf3 & E3).
    split; [done|]. exists f3. split; [done|congruence].
Qed.

Lemma sized_enlarged w w' : sized w -> enlarged w w' -> sized w'.
Proof. intros [j Hj] [k Hk]. exists (j + k)%nat. rewrite Hk, Hj, Nat.pow_add_r. lia. Qed.

Lemma enlarged_le w w' : enlarged w w' -> (maxsetvec w <= maxsetvec w')%nat.
Proof. intros [k ->]. assert (4 ^ k <> 0)%nat by (by apply Nat.pow_nonzero). nia. Qed.

Lemma sized_enough p w : sized w -> roomy p -> enough p w.
Proof.
  intros [j Hj] Hr. assert (Hm : (1 <= maxsetvec w)%nat).
  { rewrite Hj. unfold MAXLIN. assert (4 ^ j <> 0)%nat by (by apply Nat.pow_nonzero). lia. }
  split; [done|]. pose proof (grown_enough (S (last_pos p)) (last_pos p) (maxsetvec w) Hm ltac:(lia)).
  destruct (grown_power (S (last_pos p)) (last_pos p) (maxsetvec w)) as [k Hk]. specialize (Hr (j + k)%nat).
  rewrite Nat.pow_add_r, Nat.mul_assoc, <-Hj, <-Hk in Hr. lia.
Qed.

Lemma fa_ok_enlarged w w' f : enlarged w w' -> fa_ok w f -> fa_ok w' f.
Proof.
  intros Hw (p & lst & Hp & Hok). exists p, lst. split; [done|]. apply enlarged_le in Hw. unfold anchored_ok, searching_ok, room in *.
  cbn [fst snd] in *. destruct (anchor f); split_and!; (tauto || (destruct Hok; lia)).
Qed.

Lemma mkdfa_key s a w f w' : mkdfa s a w = Ret f w' -> enlarged w w' /\ key f = (s, a).
Proof.
  unfold mkdfa. destruct (reparse s) as [p lst| |]; [|done..]. destruct (penter _ _) as [p1 n].
  destruct (cfoll _ _ _ _ w) as [re w1| |] eqn:E1; [|done..]. destruct (makeinit a _) as [i [w2 f2]| |] eqn:E2; [|by destruct s0|done].
  intros [= <- <-]. apply cfoll_keeping in E1. apply makeinit_keeping in E2 as (H1 & H2 & _). cbn [fst snd] in *.
  split; [by etrans|]. unfold key in *. cbn in *. congruence.
Qed.

Lemma mkdfa_ok s a w :
  sized w -> pattern_ok s -> exists f w', mkdfa s a w = Ret f w' /\ enlarged w w' /\ key f = (s, a) /\ fa_ok w' f.
Proof.
  intros Hw (p & lst & Hp & Hr). destruct (reparse_proper s p lst Hp) as [Hnf Htx].
  destruct (mkdfa_states p Hnf Htx s lst w a Hp (sized_enough p w Hw Hr)) as (f & w' & E & Hok). exists f, w'.
  destruct (mkdfa_key s a w f w' E) as [H1 H2]. split_and!; [done..|]. injection H2 as H2 H3. exists p, lst. by rewrite H2, H3.
Qed.

(** ** Matching through an address *)

(** The state after a function has changed an automaton. *)
Definition put (st : awk) (id : nat) (m : machine) : awk := set_work (Some m.1) (set_heap (<[id := Some m.2]> (heap st)) st).

Lemma on_fa_Ret {A} (c : M machine A) st id w f x m :
  work st = Some w -> fa_at st id = Some f -> c (w, f) = Ret x m -> on_fa id c st = Ret x (put st id m).
Proof. intros Hw Hf E. unfold on_fa. by rewrite Hw, Hf, E. Qed.

Lemma fa_at_put st id f m j : fa_at st id = Some f -> fa_at (put st id m) j = if decide (j = id) then Some m.2 else fa_at st j.
Proof.
  intros Hf. unfold fa_at, put. cbn [heap set_work set_heap]. destruct (decide (j = id)) as [->|Hn]; [|by rewrite list_lookup_insert_ne].
  rewrite list_lookup_insert_eq; [done|]. unfold fa_at in Hf. destruct (heap st !! id) eqn:E; [|done]. by apply lookup_lt_Some in E.
Qed.

Lemma lists_impl st st' tab es :
  (forall id f, id ∈ tab -> fa_at st id = Some f -> exists f', fa_at st' id = Some f' /\ key f' = key f /\ use f' = use f) ->
  Forall2 (lists st) tab es -> Forall2 (lists st') tab es.
Proof.
  intros H H2. induction H2 as [|id e tab es (f & Hf & ->) _ IH]; [constructor|]. constructor.
  - destruct (H id f) as (f' & Hf' & E1 & E2); [by apply elem_of_cons; left|done|]. exists f'. by rewrite E1, E2.
  - apply IH. intros id' f' Hid'. apply H. by apply elem_of_cons; right.
Qed.

Lemma put_ok st es id w f m :
  awk_ok st es -> work st = Some w -> fa_at st id = Some f -> stable (w, f) m -> fa_ok m.1 m.2 -> awk_ok (put st id m) es.
Proof.
  intros [Hw Ht Hn Hl] Ew Hf (S1 & S2 & S3) Hok. cbn [fst snd] in *. rewrite Ew in Hw. destruct Hw as [Hs Hall]. split; [|..|done|done].
  - cbn. split; [by eapply sized_enlarged|]. intros j g. rewrite (fa_at_put st id f m j Hf). destruct (decide (j = id)); [by intros [= <-]|].
    intros Hg. eapply fa_ok_enlarged; [done|by eapply Hall].
  - eapply lists_impl; [|exact Ht]. intros j g _ Hg. rewrite (fa_at_put st id f m j Hf). destruct (decide (j = id)) as [->|]; [|eauto].
    rewrite Hf in Hg. injection Hg as <-. eauto.
Qed.

Lemma put_frames st id w f m : fa_at st id = Some f -> stable (w, f) m -> frames st (put st id m).
Proof.
  intros Hf (_ & S2 & _) j g Hn Hg. split; [done|]. rewrite (fa_at_put st id f m j Hf). destruct (decide (j = id)) as [->|]; [|eauto].
  rewrite Hf in Hg. injection Hg as <-. eauto.
Qed.

(** ** The table *)

Fixpoint oldest_use (us : list Z) (i : nat) (least : Z) (nuse : nat) : nat :=
  match us with
  | [] => nuse
  | u :: us => if u <? least then oldest_use us (S i) u i else oldest_use us (S i) least nuse
  end.

(** The index of the entry that is replaced. *)
Definition victim (es : list entry) : nat :=
  match es with e :: es => oldest_use (map snd es) 1 e.2 0 | [] => 0%nat end.

(** The table after a call of [makedfa]. *)
Definition cache_step (k : cstr * bool) (now : Z) (es : list entry) : list entry :=
  match list_find (fun e => e.1 = k) es with
  | Some (i, _) => <[i := (k, now)]> es
  | None => if (length es <? NFA)%nat then es ++ [(k, now)] else <[victim es := (k, now)]> es
  end.

Lemma fa_at_read {A} st id f (k : fa -> M awk A) : fa_at st id = Some f -> lbind (lread (fun st => fa_at st id)) k st = k f st.
Proof. intros Hf. apply lbind_step. by apply lread_Ret. Qed.

Lemma find_fa_spec st s a tab es :
  Forall2 (lists st) tab es ->
  find_fa s a tab st = Ret (match list_find (fun e => e.1 = (s, a)) es with Some (i, _) => tab !! i | None => None end) st.
Proof.
  intros H. induction H as [|id e tab es (f & Hf & ->) _ IH]; [done|]. cbn [find_fa list_find]. rewrite (fa_at_read st id f _ Hf).
  destruct (decide ((key f, use f).1 = (s, a))) as [E|E]; cbn [fst] in E.
  - injection E as E1 E2. by rewrite !bool_decide_eq_true_2.
  - destruct (_ && _) eqn:Eb.
    + apply andb_prop in Eb as [E1%bool_decide_eq_true_1 E2%bool_decide_eq_true_1]. destruct E. unfold key. congruence.
    + rewrite IH. by destruct (list_find _ es) as [[]|].
Qed.

Lemma oldest_spec st tab es i least nuse :
  Forall2 (lists st) tab es -> oldest tab i least nuse st = Ret (oldest_use (map snd es) i least nuse) st.
Proof.
  intros H. revert i least nuse. induction H as [|id e tab es (f & Hf & ->) _ IH]; intros i least nuse; [done|].
  cbn [oldest oldest_use map snd]. rewrite (fa_at_read st id f _ Hf). destruct (use f <? least); apply IH.
Qed.

Lemma oldest_use_bound us i least nuse : (nuse < i)%nat -> (oldest_use us i least nuse < i + length us)%nat.
Proof.
  revert i least nuse. induction us as [|u us IH]; intros i least nuse H; cbn [oldest_use length]; [lia|].
  destruct (u <? least); [specialize (IH (S i) u i ltac:(lia))|specialize (IH (S i) least nuse ltac:(lia))]; lia.
Qed.

Lemma victim_bound es : es <> [] -> (victim es < length es)%nat.
Proof.
  destruct es as [|e es]; [done|]. intros _. cbn [victim length]. pose proof (oldest_use_bound (map snd es) 1 e.2 0 ltac:(lia)) as H.
  rewrite length_map in H. lia.
Qed.

Lemma fa_ok_use w f u : fa_ok w f -> fa_ok w (set_use u f).
Proof.
  intros (p & lst & Hp & Hok). exists p, lst. split; [done|]. change (anchor (set_use u f)) with (anchor f).
  destruct (anchor f); destruct Hok as (H1 & [? ? ? ? ? ? ?] & H3); split_and!; [done|by split|done|done|by split|done].
Qed.

Lemma fa_at_lt st id f : fa_at st id = Some f -> (id < length (heap st))%nat.
Proof. unfold fa_at. destruct (heap st !! id) eqn:E; [|done]. by apply lookup_lt_Some in E. Qed.

Lemma tab_live st es id : awk_ok st es -> id ∈ fatab st -> exists f, fa_at st id = Some f.
Proof.
  intros H Hid. apply list_elem_of_lookup in Hid as [i Hi]. destruct (Forall2_lookup_l _ _ _ _ _ (ok_tab _ _ H) Hi) as (e & _ & f & Hf & _). eauto.
Qed.

(** The effect of [touch]. *)
Definition touched (st : awk) (id : nat) (w : scratch) (f : fa) : awk := set_now (now st + 1) (put st id (w, set_use (now st) f)).

Lemma fa_at_touched st id w f j :
  fa_at st id = Some f -> fa_at (touched st id w f) j = if decide (j = id) then Some (set_use (now st) f) else fa_at st j.
Proof. intros Hf. exact (fa_at_put st id f (w, set_use (now st) f) j Hf). Qed.

Lemma touch_spec st es w id i f :
  awk_ok st es -> work st = Some w -> fatab st !! i = Some id -> fa_at st id = Some f -> now st < 2 ^ 31 - 1 ->
  touch id st = Ret tt (touched st id w f) /\ awk_ok (touched st id w f) (<[i := (key f, now st)]> es).
Proof.
  intros Hok Hw Hi Hf Hnow. split.
  - unfold touch, lbind at 1, lget. destruct (Z.eqb_spec (now st) (2 ^ 31 - 1)); [lia|].
    by rewrite (lbind_step _ _ _ _ _ (on_fa_Ret (modify_fa (set_use (now st))) st id w f tt _ Hw Hf eq_refl)).
  - destruct Hok as [H1 H2 H3 H4]. rewrite Hw in H1. destruct H1 as [Hs Hall].
    pose proof (fun j => fa_at_touched st id w f j Hf) as Hat.
    split; [..|by rewrite length_insert].
    + cbn. split; [done|]. intros j g. rewrite Hat. destruct (decide (j = id)); [|by apply Hall].
      intros [= <-]. apply fa_ok_use. by eapply Hall.
    + change (fatab (touched st id w f)) with (fatab st). apply Forall2_same_length_lookup_2; [by rewrite length_insert; eapply Forall2_length|].
      intros j jd e Hj He. apply list_lookup_insert_Some in He as [(<- & <- & _)|(Hne & He)].
      * assert (jd = id) as -> by congruence. exists (set_use (now st) f). rewrite Hat. by destruct (decide (id = id)).
      * destruct (Forall2_lookup_lr _ _ _ _ _ _ H2 Hj He) as (g & Hg & ->). exists g. rewrite Hat.
        destruct (decide (jd = id)) as [->|]; [|done]. destruct Hne. by eapply NoDup_lookup.
    + done.
Qed.

Lemma touched_frames st id w f : fa_at st id = Some f -> frames st (touched st id w f).
Proof.
  intros Hf j g Hn Hg. split; [done|]. rewrite (fa_at_touched st id w f j Hf). destruct (decide (j = id)) as [->|]; [|eauto].
  rewrite Hf in Hg. injection Hg as <-. eauto.
Qed.

(** The effect of [new_fa]. *)
Definition allocated (st : awk) (w : scratch) (f : fa) : awk := set_work (Some w) (set_heap (heap st ++ [Some f]) st).

Lemma fa_at_allocated st w f j : fa_at (allocated st w f) j = if decide (j = length (heap st)) then Some f else fa_at st j.
Proof.
  unfold fa_at, allocated. cbn [heap set_heap set_work]. destruct (decide (j = length (heap st))) as [->|Hn].
  - by rewrite lookup_app_r, Nat.sub_diag by lia.
  - destruct (decide (j < length (heap st))%nat); [by rewrite lookup_app_l by lia|]. rewrite (lookup_ge_None_2 (heap st)) by lia.
    by rewrite lookup_ge_None_2 by (rewrite length_app; cbn; lia).
Qed.

Lemma new_fa_spec st es w s a :
  awk_ok st es -> work st = Some w -> pattern_ok s ->
  exists f w', new_fa s a st = Ret (length (heap st)) (allocated st w' f) /\ key f = (s, a) /\ awk_ok (allocated st w' f) es /\
    length (heap st) ∉ fatab st.
Proof.
  intros Hok Hw Hp. pose proof (tab_live st es) as Hlive. destruct Hok as [H1 H2 H3 H4]. rewrite Hw in H1. destruct H1 as [Hs Hall].
  destruct (mkdfa_ok s a w Hs Hp) as (f & w' & E & Hw' & Hk & Hf). exists f, w'. split_and!; [unfold new_fa; by rewrite Hw, E|done| |].
  - split; [|..|done|done].
    + cbn. split; [by eapply sized_enlarged|]. intros j g. rewrite fa_at_allocated. destruct (decide _); [by intros [= <-]|].
      intros Hg. eapply fa_ok_enlarged; [done|by eapply Hall].
    + eapply lists_impl; [|exact H2]. intros j g _ Hg. rewrite fa_at_allocated. apply fa_at_lt in Hg as Hl. destruct (decide _); [lia|eauto].
  - intros Hin. destruct (Hlive (length (heap st))) as [g Hg]; [split; rewrite ?Hw; done|done|]. apply fa_at_lt in Hg. lia.
Qed.

(** The new automaton [id] in the place [i] of the table, and the one that was there
    freed. *)
Definition replaced (st : awk) (i id old : nat) : awk :=
  set_fatab (<[i := id]> (fatab st)) (set_heap (<[old := None]> (heap st)) st).

Lemma fa_at_replaced st i id old j : fa_at (replaced st i id old) j = if decide (j = old) then None else fa_at st j.
Proof.
  unfold fa_at, replaced. cbn [heap set_heap set_fatab]. destruct (decide (j = old)) as [->|]; [|by rewrite list_lookup_insert_ne].
  destruct (decide (old < length (heap st))%nat); [by rewrite list_lookup_insert_eq|].
  by rewrite lookup_ge_None_2 by (rewrite length_insert; lia).
Qed.

Lemma replaced_ok st es i id old f :
  awk_ok st es -> fa_at st id = Some f -> id ∉ fatab st -> fatab st !! i = Some old ->
  awk_ok (replaced st i id old) (<[i := (key f, use f)]> es).
Proof.
  intros [H1 H2 H3 H4] Hf Hid Hi. pose proof (fa_at_replaced st i id old) as Hat.
  assert (Hio : id <> old) by (intros ->; apply Hid; by eapply list_elem_of_lookup_2). split; [..|by rewrite length_insert].
  - change (work (replaced st i id old)) with (work st). destruct (work st).
    + split; [apply H1|]. intros j g. rewrite Hat. destruct (decide _); [done|]. apply H1.
    + apply fa_at_lt in Hf. rewrite H1 in Hf. cbn in Hf. lia.
  - change (fatab (replaced st i id old)) with (<[i := id]> (fatab st)).
    apply Forall2_same_length_lookup_2; [rewrite !length_insert; by eapply Forall2_length|]. intros j jd e Hj He.
    apply list_lookup_insert_Some in He as [(<- & <- & Hl)|(Hne & He)].
    + rewrite list_lookup_insert_eq in Hj by (by apply lookup_lt_Some in Hi). injection Hj as <-. exists f. rewrite Hat. by destruct (decide _).
    + rewrite list_lookup_insert_ne in Hj by done. destruct (Forall2_lookup_lr _ _ _ _ _ _ H2 Hj He) as (g & Hg & ->). exists g. rewrite Hat.
      destruct (decide (jd = old)) as [->|]; [|done]. destruct Hne. by eapply NoDup_lookup.
  - change (fatab (replaced st i id old)) with (<[i := id]> (fatab st)). apply NoDup_alt. intros j k x Hj Hk.
    apply list_lookup_insert_Some in Hj as [(<- & <- & _)|(? & Hj)]; apply list_lookup_insert_Some in Hk as [(<- & E & _)|(? & Hk)]; [done|..].
    + destruct Hid. by eapply list_elem_of_lookup_2.
    + subst. destruct Hid. by eapply list_elem_of_lookup_2.
    + by eapply NoDup_lookup.
Qed.

Lemma appended_ok st es id f :
  awk_ok st es -> fa_at st id = Some f -> id ∉ fatab st -> (length es < NFA)%nat ->
  awk_ok (set_fatab (fatab st ++ [id]) st) (es ++ [(key f, use f)]).
Proof.
  intros [H1 H2 H3 H4] Hf Hid Hl. split; [done|..].
  - cbn. apply Forall2_app; [done|]. constructor; [by exists f|constructor].
  - cbn. apply list.NoDup_app. split_and!; [done| |apply NoDup_singleton]. by intros x Hx ->%list_elem_of_singleton.
  - rewrite length_app. cbn. lia.
Qed.

Lemma live_work st es id f : awk_ok st es -> fa_at st id = Some f -> exists w, work st = Some w.
Proof. intros [H1 _ _ _] Hf. destruct (work st); [eauto|]. apply fa_at_lt in Hf. rewrite H1 in Hf. cbn in Hf. lia. Qed.

(** What a call of [makedfa] leaves. *)
Definition entered (st st' : awk) (es : list entry) (id : nat) (k : cstr * bool) : Prop :=
  (exists f, fa_at st' id = Some f /\ key f = k) /\ compile_time st' = compile_time st /\ awk_ok st' es /\ now st' = now st + 1.

(** The automata outside the table, but for one. *)
Definition frames_but (id : nat) (st st' : awk) : Prop :=
  forall j g, j <> id -> j ∉ fatab st -> fa_at st j = Some g -> j ∉ fatab st' /\ fa_at st' j = Some g.

Lemma touch_entered st es w id i f :
  awk_ok st es -> work st = Some w -> fatab st !! i = Some id -> fa_at st id = Some f -> now st < 2 ^ 31 - 1 ->
  exists st', touch id st = Ret tt st' /\ entered st st' (<[i := (key f, now st)]> es) id (key f) /\ frames_but id st st'.
Proof.
  intros Hok Hw Hi Hf Hnow. destruct (touch_spec st es w id i f Hok Hw Hi Hf Hnow) as [E Hok']. eexists. split; [done|].
  split; [split_and!; [|done..]|].
  - exists (set_use (now st) f). rewrite fa_at_touched by done. by destruct (decide _).
  - intros j g Hj Hn Hg. split; [done|]. rewrite fa_at_touched by done. by destruct (decide _).
Qed.

Lemma enter_append st es w id f :
  awk_ok st es -> work st = Some w -> fa_at st id = Some f -> id ∉ fatab st -> (length es < NFA)%nat -> now st < 2 ^ 31 - 1 ->
  exists st', enter_fa id st = Ret tt st' /\ entered st st' (es ++ [(key f, now st)]) id (key f) /\ frames_but id st st'.
Proof.
  intros Hok Hw Hf Hid Hl Hnow. pose proof (list.Forall2_length _ _ _ (ok_tab _ _ Hok)) as Hlen.
  unfold enter_fa, lbind at 1, lget. destruct (Nat.ltb_spec (length (fatab st)) NFA); [|lia].
  set (st2 := set_fatab (fatab st ++ [id]) st).
  rewrite (lbind_step (modify (set_fatab (fatab st ++ [id]))) _ st tt st2 eq_refl).
  destruct (touch_entered st2 (es ++ [(key f, use f)]) w id (length es) f) as (st' & E & He & Hfr); [by apply appended_ok|done| |done..|].
  { cbn. by rewrite <-Hlen, lookup_app_r, Nat.sub_diag by lia. }
  exists st'. rewrite insert_app_r_alt, Nat.sub_diag in He by done. split_and!; [done..|]. intros j g Hj Hn Hg. apply Hfr; [done| |done].
  cbn. rewrite elem_of_app, list_elem_of_singleton. tauto.
Qed.

Lemma victim_found st tab es :
  Forall2 (lists st) tab es -> es <> [] ->
  exists id f, head tab = Some id /\ fa_at st id = Some f /\ oldest (tail tab) 1 (use f) 0 st = Ret (victim es) st.
Proof.
  intros H Hne. destruct H as [|id e tab es (f & Hf & ->) Htab]; [done|]. exists id, f. split_and!; [done..|]. by apply oldest_spec.
Qed.

Lemma enter_replace st es w id f :
  awk_ok st es -> work st = Some w -> fa_at st id = Some f -> id ∉ fatab st -> length es = NFA -> now st < 2 ^ 31 - 1 ->
  exists st', enter_fa id st = Ret tt st' /\ entered st st' (<[victim es := (key f, now st)]> es) id (key f) /\ frames_but id st st'.
Proof.
  intros Hok Hw Hf Hid Hl Hnow. pose proof (list.Forall2_length _ _ _ (ok_tab _ _ Hok)) as Hlen.
  assert (Hne : es <> []) by (by intros ->). pose proof (victim_bound es Hne) as Hv.
  unfold enter_fa, lbind at 1, lget. destruct (Nat.ltb_spec (length (fatab st)) NFA); [lia|].
  destruct (victim_found st _ _ (ok_tab _ _ Hok) Hne) as (id0 & f0 & E1 & E2 & E3).
  destruct (lookup_lt_is_Some_2 (fatab st) (victim es)) as [old Hold]; [lia|]. destruct (tab_live st es old Hok) as [g Hg]; [by eapply list_elem_of_lookup_2|].
  rewrite (lbind_step _ _ _ _ _ (lread_Ret (fun st => head (fatab st)) st _ E1)), (fa_at_read st id0 f0 _ E2), (lbind_step _ _ _ _ _ E3).
  rewrite (lbind_step _ _ _ _ _ (lread_Ret (fun st => fatab st !! victim es) st _ Hold)).
  set (st1 := set_heap (<[old := None]> (heap st)) st). assert (E4 : freefa old st = Ret tt st1) by (unfold freefa; by rewrite (fa_at_read st old g _ Hg)).
  rewrite (lbind_step _ _ _ _ _ E4). set (st2 := replaced st (victim es) id old).
  rewrite (lbind_step (modify (set_fatab (<[victim es := id]> (fatab st)))) _ st1 tt st2 eq_refl).
  assert (Hio : id <> old) by (intros ->; apply Hid; by eapply list_elem_of_lookup_2).
  destruct (touch_entered st2 (<[victim es := (key f, use f)]> es) w id (victim es) f) as (st' & E & He & Hfr).
  - by apply replaced_ok.
  - done.
  - cbn. apply list_lookup_insert_eq. lia.
  - unfold st2. rewrite fa_at_replaced. by destruct (decide _).
  - done.
  - exists st'. rewrite list_insert_insert_eq in He. split_and!; [done..|]. intros j h Hj Hn Hh. apply Hfr; [done|..].
    + cbn. intros Hin. apply list_elem_of_lookup in Hin as [i Hi]. apply list_lookup_insert_Some in Hi as [(_ & -> & _)|(_ & Hi)]; [done|].
      apply Hn. by eapply list_elem_of_lookup_2.
    + unfold st2. rewrite fa_at_replaced. destruct (decide (j = old)) as [->|]; [|done]. destruct Hn. by eapply list_elem_of_lookup_2.
Qed.

Lemma init_sets_ok st es : awk_ok st es -> exists st', init_sets st = Ret tt st' /\ awk_ok st' es /\ (exists w, work st' = Some w) /\
  heap st' = heap st /\ fatab st' = fatab st /\ now st' = now st /\ compile_time st' = compile_time st.
Proof.
  intros Hok. unfold init_sets, modify. destruct (work st) as [w|] eqn:Ew; [eexists; split; [done|]; split_and!; eauto|].
  eexists. split; [done|]. destruct Hok as [H1 H2 H3 H4]. rewrite Ew in H1. split_and!; [|by eexists|done..]. split; [|done..].
  cbn. split; [by exists 0%nat|]. intros id f Hf. apply fa_at_lt in Hf. cbn in Hf. rewrite H1 in Hf. cbn in Hf. lia.
Qed.

Lemma makedfa_spec st es s a :
  awk_ok st es -> pattern_ok s -> compile_time st = 0 -> now st < 2 ^ 31 - 1 ->
  exists id st', makedfa s a st = Ret id st' /\ entered st st' (cache_step (s, a) (now st) es) id (s, a) /\ frames st st'.
Proof.
  intros Hok Hp Hct Hnow. destruct (init_sets_ok st es Hok) as (s1 & E1 & Hok1 & [w Hw] & H2 & H3 & H4 & H5).
  unfold makedfa. rewrite (lbind_step _ _ _ _ _ E1). unfold lbind at 1, lget. rewrite H5, Hct. cbn [Z.eqb negb].
  rewrite (lbind_step _ _ _ _ _ (find_fa_spec s1 s a _ es (ok_tab _ _ Hok1))). unfold cache_step.
  assert (Hfr1 : frames st s1) by (intros j g Hn Hg; rewrite H3; unfold fa_at in *; rewrite H2; eauto).
  assert (Hent : forall st' es' id k, entered s1 st' es' id k -> entered st st' es' id k).
  { intros st' es' id k (G1 & G2 & G3 & G4). split_and!; [done|congruence|done|congruence]. }
  rewrite <-H4 in Hnow |- *. destruct (list_find _ es) as [[i e]|] eqn:Ef.
  - apply list_find_Some in Ef as (He & Ek & _). destruct (Forall2_lookup_r _ _ _ _ _ (ok_tab _ _ Hok1) He) as (id & Hi & f & Hf & ->).
    cbn [fst] in Ek. rewrite Hi. destruct (touch_entered s1 es w id i f Hok1 Hw Hi Hf Hnow) as (st' & E & Hen & Hfr). rewrite Ek in Hen.
    exists id, st'. rewrite (lbind_step _ _ _ _ _ E). split_and!; [done|by apply Hent|]. etrans; [exact Hfr1|].
    intros j g Hn Hg. assert (j <> id) by (intros ->; apply Hn; by eapply list_elem_of_lookup_2). destruct (Hfr j g) as [? ?]; eauto.
  - destruct (new_fa_spec s1 es w s a Hok1 Hw Hp) as (f & w' & E & Hk & Hok2 & Hnin). set (id := length (heap s1)) in *. set (s2 := allocated s1 w' f) in *.
    rewrite (lbind_step _ _ _ _ _ E). assert (Hf : fa_at s2 id = Some f) by (unfold s2; rewrite fa_at_allocated; by destruct (decide _)).
    assert (Hen : exists st', enter_fa id s2 = Ret tt st' /\ entered s2 st' (if (length es <? NFA)%nat then es ++ [((s, a), now s1)] else <[victim es := ((s, a), now s1)]> es) id (s, a) /\ frames_but id s2 st').
    { rewrite <-Hk. destruct (Nat.ltb_spec (length es) NFA); [by apply (enter_append s2 es w')|].
      apply (enter_replace s2 es w'); try done. pose proof (ok_NFA _ _ Hok). lia. }
    destruct Hen as (st' & E' & Hen & Hfr). exists id, st'. rewrite (lbind_step _ _ _ _ _ E'). split_and!; [done|by apply Hent|].
    etrans; [exact Hfr1|]. intros j g Hn Hg. pose proof (fa_at_lt _ _ _ Hg) as Hlt. fold id in Hlt.
    destruct (Hfr j g) as [? ?]; [lia|done| |eauto]. unfold s2. rewrite fa_at_allocated. fold id. destruct (decide _); [lia|done].
Qed.

(** A constant pattern: its automaton is new and not in the table. *)
Lemma makedfa_constant st es s a :
  awk_ok st es -> pattern_ok s -> compile_time st <> 0 ->
  exists id st', makedfa s a st = Ret id st' /\ awk_ok st' es /\ frames st st' /\ now st' = now st /\ compile_time st' = compile_time st /\
    id ∉ fatab st' /\ exists f, fa_at st' id = Some f /\ key f = (s, a).
Proof.
  intros Hok Hp Hct. destruct (init_sets_ok st es Hok) as (s1 & E1 & Hok1 & [w Hw] & H2 & H3 & H4 & H5).
  unfold makedfa. rewrite (lbind_step _ _ _ _ _ E1). unfold lbind at 1, lget. rewrite H5.
  destruct (Z.eqb_spec (compile_time st) 0); [done|]. cbn [negb].
  destruct (new_fa_spec s1 es w s a Hok1 Hw Hp) as (f & w' & -> & Hk & Hok2 & Hnin). eexists _, _. split; [done|].
  split_and!; [done| |done|done|done|].
  - intros j g Hn Hg. split; [cbn; by rewrite H3|]. exists g. rewrite fa_at_allocated. pose proof (fa_at_lt _ _ _ Hg) as Hl. rewrite H2.
    destruct (decide _); [lia|]. unfold fa_at in *. by rewrite H2.
  - exists f. rewrite fa_at_allocated. by destruct (decide _).
Qed.

(** ** Answers *)

(** The answer of an operator is right for the pattern [p] and the text [t]: [~]
    finds a part that matches, and [match] the longest of the leftmost ones. *)
Definition right (p : node) (n : operator) (t : cstr) (x : answer) : Prop :=
  match n, x with
  | MATCH, Truth b => b = true <-> exists i k, hit p t i k
  | NOTMATCH, Truth b => b = false <-> exists i k, hit p t i k
  | MATCHFCN, Position start len =>
      (exists i k, start = Z.of_nat i + 1 /\ len = Z.of_nat k /\ hit p t i k /\
         (forall k', hit p t i k' -> (k' <= k)%nat) /\ forall i' k', (i' < i)%nat -> ~ hit p t i' k') \/
      (start = 0 /\ len = -1 /\ forall i k, ~ hit p t i k)
  | _, _ => False
  end.

Lemma leftmost_right p t r :
  no_final p = true -> texts p = true -> leftmost p 0 (init_set p) t 0 r ->
  right p MATCHFCN t (match r with Some (i, len) => Position (Z.of_nat i + 1) len | None => Position 0 (-1) end).
Proof.
  intros Hnf Htx. assert (Hh : forall i k, found_at p 0 (init_set p) t i k <-> hit p t i k).
  { intros i k. rewrite found_hit by done. split; [tauto|]. split; [lia|done]. }
  destruct r as [[j n]|]; cbn [leftmost right].
  - intros (d & k & -> & -> & H1 & H2 & H3). left. exists d, k. split_and!; [done|done|by apply Hh|..].
    + intros k' Hk'. apply H2. by apply Hh.
    + intros i' k' Hi' Hk'. apply (H3 i' k' Hi'). by apply Hh.
  - intros H. right. split_and!; [done..|]. intros i k Hk. apply (H i k). by apply Hh.
Qed.

Lemma on_fa_calm {A} (c : M machine A) st id w f :
  work st = Some w -> fa_at st id = Some f -> calm (on_fa id c st) = true -> calm (c (w, f)) = true.
Proof. intros Hw Hf. unfold on_fa. rewrite Hw, Hf. by destruct (c (w, f)). Qed.

(** A search on the automaton at an address. *)
Lemma on_fa_search {A} (guard call : M machine A) (Q : A -> Prop) st es id f :
  awk_ok st es -> fa_at st id = Some f -> keeping stable call ->
  (forall w, fa_ok w f -> calm (guard (w, f)) = true -> exists x m, call (w, f) = Ret x m /\ (key m.2 = key f -> fa_ok m.1 m.2) /\ Q x) ->
  calm (on_fa id guard st) = true ->
  exists x m, on_fa id call st = Ret x (put st id m) /\ awk_ok (put st id m) es /\ frames st (put st id m) /\ Q x.
Proof.
  intros Hok Hf Hkeep Hcall Hcalm. destruct (live_work st es id f Hok Hf) as [w Hw]. apply (on_fa_calm _ _ _ w f Hw Hf) in Hcalm.
  pose proof (ok_work _ _ Hok) as Hwork. rewrite Hw in Hwork. destruct Hwork as [_ Hall].
  destruct (Hcall w (Hall id f Hf) Hcalm) as (x & m & E & Hm & HQ). pose proof (Hkeep _ _ _ E) as Hst. exists x, m.
  split_and!; [by eapply on_fa_Ret| |by eapply put_frames|done]. eapply put_ok; [done..|]. apply Hm. apply Hst.
Qed.

Lemma anchored_answers t w f p lst :
  reparse (restr f) = Ret p lst -> anchor f = true -> clean t -> fa_ok w f -> calm (pmatch_with guarded t (w, f)) = true ->
  exists r m, pmatch t (w, f) = Ret r m /\ (key m.2 = key f -> fa_ok m.1 m.2) /\
    right p MATCHFCN t (match r with Some (i, len) => Position (Z.of_nat i + 1) len | None => Position 0 (-1) end).
Proof.
  intros Hp Ha Ht (p' & lst' & Hp' & Hok) Hcalm. rewrite Hp in Hp'. injection Hp' as <- <-. rewrite Ha in Hok.
  destruct (reparse_proper _ _ _ Hp) as [Hnf Htx]. destruct (pmatch_spec p Hnf Htx t w f Ht Hok Hcalm) as (r & m & E & Hm & Hr).
  exists r, m. split_and!; [done| |by apply leftmost_right]. intros Hk. injection Hk as Hk1 Hk2. exists p, lst. rewrite Hk1, Hk2, Ha. by destruct m.
Qed.

Lemma searching_answers t w f p lst :
  reparse (restr f) = Ret p lst -> anchor f = false -> clean t -> fa_ok w f -> calm (match_with guarded t (w, f)) = true ->
  exists b m, _match t (w, f) = Ret b m /\ (key m.2 = key f -> fa_ok m.1 m.2) /\ (b = true <-> exists i k, hit p t i k).
Proof.
  intros Hp Ha Ht (p' & lst' & Hp' & Hok) Hcalm. rewrite Hp in Hp'. injection Hp' as <- <-. rewrite Ha in Hok.
  destruct (reparse_proper _ _ _ Hp) as [Hnf Htx]. destruct (match_spec p Hnf Htx t w f Ht Hok Hcalm) as (b & m & E & Hm & Hb).
  exists b, m. split_and!; [done| |rewrite Hb; by apply found_match]. intros Hk. injection Hk as Hk1 Hk2. exists p, lst. rewrite Hk1, Hk2, Ha. by destruct m.
Qed.

Lemma compiled_spec n id f s p lst t st es :
  awk_ok st es -> fa_at st id = Some f -> key f = (s, mode n) -> reparse s = Ret p lst -> clean t ->
  calm (matchop_with guarded n (Compiled id) t st) = true ->
  exists x st', matchop n (Compiled id) t st = Ret x st' /\ awk_ok st' es /\ frames st st' /\ now st' = now st /\ compile_time st' = compile_time st /\
    right p n t x.
Proof.
  intros Hok Hf Hk Hp Ht Hcalm. injection Hk as Hk1 Hk2. rewrite <-Hk1 in Hp. unfold matchop, matchop_with in *.
  rewrite (lbind_step _ _ st id st eq_refl) in Hcalm. rewrite (lbind_step _ _ st id st eq_refl).
  destruct n; cbn [mode] in Hk2; apply calm_first in Hcalm.
  - destruct (on_fa_search _ _ _ st es id f Hok Hf (match_keeping t) (fun w Hw => searching_answers t w f p lst Hp Hk2 Ht Hw) Hcalm) as (b & m & E & H1 & H2 & H3).
    eexists _, _. split; [etrans; [exact (lbind_step _ _ _ _ _ E)|reflexivity]|]. by split_and!.
  - destruct (on_fa_search _ _ _ st es id f Hok Hf (match_keeping t) (fun w Hw => searching_answers t w f p lst Hp Hk2 Ht Hw) Hcalm) as (b & m & E & H1 & H2 & H3).
    eexists _, _. split; [etrans; [exact (lbind_step _ _ _ _ _ E)|reflexivity]|]. split_and!; [done..|]. cbn [right]. rewrite <-H3. by destruct b.
  - destruct (on_fa_search _ _ _ st es id f Hok Hf (pmatch_keeping t) (fun w Hw => anchored_answers t w f p lst Hp Hk2 Ht Hw) Hcalm) as (r & m & E & H1 & H2 & H3).
    eexists _, _. split; [etrans; [exact (lbind_step _ _ _ _ _ E)|reflexivity]|]. by split_and!.
Qed.

(** ** Programs *)

(** The pattern that a match of the program is about; a constant has been compiled
    for its operator. *)
Definition text_of (constants : list (cstr * bool)) (q : request) : option cstr :=
  match regex q with
  | Constant k => match constants !! k with Some (s, a) => if Bool.eqb a (mode (oper q)) then Some s else None | None => None end
  | Computed t => Some t
  end.

Definition asked (constants : list (cstr * bool)) (q : request) : Prop :=
  clean (target q) /\ exists s, text_of constants q = Some s /\ pattern_ok s.

Definition answered (constants : list (cstr * bool)) (q : request) (x : answer) : Prop :=
  exists s p lst, text_of constants q = Some s /\ reparse s = Ret p lst /\ right p (oper q) (target q) x.

(** The constants are automata outside of the table. *)
Definition constant (st : awk) (id : nat) (c : cstr * bool) : Prop := id ∉ fatab st /\ exists f, fa_at st id = Some f /\ key f = c.

Lemma constant_frames st st' ids cs : frames st st' -> Forall2 (constant st) ids cs -> Forall2 (constant st') ids cs.
Proof.
  intros Hfr H. eapply list.Forall2_impl; [exact H|]. intros id c (Hn & f & Hf & <-). destruct (Hfr id f Hn Hf) as (Hn' & f' & Hf' & Hk). split; eauto.
Qed.

(** The state while the program runs, with [k] calls to come. *)
Definition runs (ids : list nat) (constants : list (cstr * bool)) (k : nat) (st : awk) : Prop :=
  (exists es, awk_ok st es) /\ compile_time st = 0 /\ Forall2 (constant st) ids constants /\ now st + Z.of_nat k <= 2 ^ 31 - 1.

Lemma ask_spec ids constants k q st :
  asked constants q -> runs ids constants (S k) st -> calm (ask guarded ids q st) = true ->
  exists x st', ask step ids q st = Ret x st' /\ runs ids constants k st' /\ answered constants q x.
Proof.
  intros (Ht & s & Hs & Hp) ([es Hok] & Hct & Hcs & Hnow) Hcalm. destruct Hp as (p & lst & Hp & Hr). unfold ask, text_of, answered in *.
  setoid_rewrite Hs. destruct (regex q) as [j|t] eqn:Eq.
  - destruct (constants !! j) as [[s' a]|] eqn:Ek; [|done]. destruct (Bool.eqb a (mode (oper q))) eqn:Ea; [|done]. injection Hs as ->.
    apply eqb_prop in Ea as ->. destruct (Forall2_lookup_r _ _ _ _ _ Hcs Ek) as (id & Hid & Hn & f & Hf & Hk).
    assert (E : (let* id := lread (fun _ => ids !! j) in lret (Compiled id)) st = Ret (Compiled id) st) by (unfold lbind, lread; by rewrite Hid).
    rewrite (lbind_step _ _ _ _ _ E) in Hcalm. rewrite (lbind_step _ _ _ _ _ E).
    destruct (compiled_spec (oper q) id f s p lst (target q) st es Hok Hf Hk Hp Ht Hcalm) as (x & st' & Ex & H1 & H2 & H3 & H4 & H5).
    exists x, st'. split; [done|]. split; [|eauto 10]. split_and!; [by exists es|congruence|by eapply constant_frames|lia].
  - injection Hs as ->. rewrite (lbind_step _ _ st (Dynamic s) st eq_refl) in Hcalm. rewrite (lbind_step _ _ st (Dynamic s) st eq_refl).
    destruct (makedfa_spec st es s (mode (oper q)) Hok) as (id & st1 & E1 & ((f & Hf & Hk) & Hct1 & Hok1 & Hnow1) & Hfr1); [by exists p, lst|done|lia|].
    unfold matchop_with in *. rewrite (lbind_step _ _ _ _ _ E1) in Hcalm. rewrite (lbind_step _ _ _ _ _ E1).
    destruct (compiled_spec (oper q) id f s p lst (target q) st1 _ Hok1 Hf Hk Hp Ht Hcalm) as (x & st' & Ex & H1 & H2 & H3 & H4 & H5).
    exists x, st'. split; [done|]. split; [|eauto 10]. split_and!; [eauto|congruence| |lia].
    eapply constant_frames; [|done]. by etrans.
Qed.

Lemma on_fa_refines {A} id (c c' : M machine A) : refines c c' -> refines (on_fa id c) (on_fa id c').
Proof.
  intros H st Hcalm. unfold on_fa in *. destruct (work st) as [w|]; [|done]. destruct (fa_at st id) as [f|]; [|done].
  rewrite (H (w, f)); [done|]. by destruct (c (w, f)).
Qed.

Lemma ask_refines ids q : refines (ask guarded ids q) (ask step ids q).
Proof.
  apply refines_bind; [done|]. intros r. apply refines_bind; [done|]. intros id.
  destruct (oper q); (apply refines_bind; [|done]); apply on_fa_refines; [apply match_refines|apply match_refines|apply pmatch_refines]; apply guarded_refines.
Qed.

(** Calls one after the other; the invariant has the number of the calls to come. *)
Lemma each_spec {St T A} (guard call : T -> M St A) (inv : nat -> St -> Prop) (Q : T -> A -> Prop) (good : T -> Prop) ts st :
  (forall t, refines (guard t) (call t)) ->
  (forall k t st, good t -> inv (S k) st -> calm (guard t st) = true -> exists x st', call t st = Ret x st' /\ inv k st' /\ Q t x) ->
  Forall good ts -> inv (length ts) st -> calm (each guard ts st) = true ->
  exists xs st', each call ts st = Ret xs st' /\ Forall2 Q ts xs.
Proof.
  intros Href Hcall Hts. revert st. induction Hts as [|t ts Ht _ IH]; intros st Hst Hcalm; [by exists [], st|]. cbn [each length] in *.
  pose proof (calm_first _ _ _ Hcalm) as Hc1. destruct (Hcall _ t st Ht Hst Hc1) as (x & st1 & E1 & Hst1 & HQ).
  pose proof E1 as E1'. rewrite (Href t st Hc1) in E1'. rewrite (lbind_step _ _ _ _ _ E1') in Hcalm. apply calm_first in Hcalm.
  destruct (IH st1 Hst1 Hcalm) as (xs & st2 & E2 & HQs). exists (x :: xs), st2.
  rewrite (lbind_step _ _ _ _ _ E1), (lbind_step _ _ _ _ _ E2). auto.
Qed.

Lemma constants_spec cs st es :
  awk_ok st es -> compile_time st <> 0 -> Forall (fun c => pattern_ok c.1) cs ->
  exists ids st', each (fun c => makedfa c.1 c.2) cs st = Ret ids st' /\ awk_ok st' es /\ frames st st' /\ now st' = now st /\
    compile_time st' = compile_time st /\ Forall2 (constant st') ids cs.
Proof.
  intros Hok Hct H. revert st Hok Hct. induction H as [|[s a] cs Hc _ IH]; intros st Hok Hct; [by exists [], st|]. cbn [each fst snd].
  destruct (makedfa_constant st es s a Hok Hc Hct) as (id & st1 & E1 & Hok1 & Hfr1 & Hn1 & Hct1 & Hid).
  destruct (IH st1 Hok1 ltac:(congruence)) as (ids & st2 & E2 & Hok2 & Hfr2 & Hn2 & Hct2 & Hids). exists (id :: ids), st2.
  rewrite (lbind_step _ _ _ _ _ E1), (lbind_step _ _ _ _ _ E2). split_and!; [done|done|by etrans|congruence|congruence|].
  constructor; [|done]. assert (Hc' : Forall2 (constant st2) [id] [(s, a)]) by (apply (constant_frames st1); [done|by constructor; [exact Hid|constructor]]).
  by inversion Hc'.
Qed.

Lemma start_ok : awk_ok start_awk [].
Proof. split; [done|constructor|constructor|cbn; lia]. Qed.


(** ** The cache is one of the 20 most recently used *)

(** The keys, the most recently used first. *)
Definition recent (k : cstr * bool) (l : list (cstr * bool)) : list (cstr * bool) := take NFA (k :: base.filter (fun k' => k' <> k) l).

Definition later (e e' : entry) : Prop := e'.2 < e.2.

(** The entries in the order of their uses have these keys. *)
Definition ranked (t : Z) (es : list entry) (l : list (cstr * bool)) : Prop :=
  exists es', es ≡ₚ es' /\ StronglySorted later es' /\ Forall (fun e => e.2 < t) es' /\ map fst es' = l /\ base.NoDup l.

Lemma insert_Permutation {A} (l : list A) i x y : l !! i = Some x -> <[i := y]> l ≡ₚ y :: delete i l.
Proof.
  intros H. rewrite insert_take_drop by (by apply lookup_lt_Some in H). rewrite delete_take_drop. by rewrite Permutation_middle.
Qed.

Lemma sorted_cons t k es : StronglySorted later es -> Forall (fun e => e.2 < t) es ->
  StronglySorted later ((k, t) :: es) /\ Forall (fun e => e.2 < t + 1) ((k, t) :: es).
Proof.
  intros Hs Hf. split; constructor; [done|exact Hf|cbn; lia|]. eapply Forall_impl; [|exact Hf]. cbn. intros e He. lia.
Qed.

Lemma sorted_remove (l1 l2 : list entry) e : StronglySorted later (l1 ++ e :: l2) -> StronglySorted later (l1 ++ l2).
Proof.
  induction l1 as [|x l1 IH]; cbn; intros H; inversion H as [|? ? H1 H2]; subst; [done|]. constructor; [auto|].
  apply Forall_app in H2 as [H2 H3]. apply Forall_app. inversion H3. auto.
Qed.

Lemma filter_absent k (l : list (cstr * bool)) : k ∉ l -> base.filter (fun k' => k' <> k) l = l.
Proof.
  induction l as [|x l IH]; [done|]. intros [H1 H2]%not_elem_of_cons. rewrite filter_cons_True by congruence. f_equal. auto.
Qed.

Lemma filter_other k (l1 l2 : list (cstr * bool)) : base.NoDup (l1 ++ k :: l2) -> base.filter (fun k' => k' <> k) (l1 ++ k :: l2) = l1 ++ l2.
Proof.
  intros H. apply list.NoDup_app in H as (_ & H1 & H2). apply list.NoDup_cons in H2 as [H2 _].
  rewrite list.filter_app, filter_cons_False by tauto. f_equal; apply filter_absent; [|done].
  intros Hx. apply (H1 k Hx). by left.
Qed.

Lemma ranked_again t es l k u i :
  ranked t es l -> es !! i = Some (k, u) -> (length es <= NFA)%nat -> ranked (t + 1) (<[i := (k, t)]> es) (recent k l).
Proof.
  intros (es' & Hp & Hs & Hf & <- & Hn) Hi Hl. assert (Hin : (k, u) ∈ es') by (rewrite <-Hp; by eapply list_elem_of_lookup_2).
  apply list_elem_of_split in Hin as (l1 & l2 & ->). rewrite map_app in Hn |- *. cbn [map fst] in *.
  assert (Hlen : length es = S (length (l1 ++ l2))) by (rewrite Hp, !length_app; cbn; lia).
  unfold recent. rewrite filter_other, <-map_app, take_ge by (try done; cbn; rewrite length_map; lia).
  exists ((k, t) :: l1 ++ l2). destruct (sorted_cons t k (l1 ++ l2)) as [H1 H2]; [by eapply sorted_remove| |].
  { apply Forall_app in Hf as [Hf1 Hf2]. apply Forall_app. inversion Hf2. auto. }
  split_and!; [|done|done|done|].
  - rewrite (insert_Permutation es i (k, u)) by done. f_equiv. apply (Permutation_cons_inv (a := (k, u))).
    rewrite <-delete_Permutation by done. rewrite Hp. by rewrite Permutation_middle.
  - rewrite map_app. apply list.NoDup_app in Hn as (N1 & N2 & [N3 N4]%list.NoDup_cons). apply list.NoDup_cons. split.
    + rewrite elem_of_app. intros [H|H]; [|done]. apply (N2 k H). by left.
    + apply list.NoDup_app. split_and!; [done| |done]. intros x Hx Hx2. apply (N2 x Hx). by right.
Qed.

Lemma ranked_first t es l k :
  ranked t es l -> k ∉ l -> ranked (t + 1) ((k, t) :: es) (k :: l).
Proof.
  intros (es' & Hp & Hs & Hf & <- & Hn) Hk. destruct (sorted_cons t k es' Hs Hf) as [H1 H2]. exists ((k, t) :: es').
  split_and!; [by rewrite Hp|done|done|done|by apply list.NoDup_cons].
Qed.

Lemma oldest_use_least us i least nuse (get : nat -> option Z) :
  (forall j, get (i + j)%nat = us !! j) -> get nuse = Some least ->
  exists u, get (oldest_use us i least nuse) = Some u /\ u <= least /\ Forall (fun v => u <= v) us.
Proof.
  revert i least nuse. induction us as [|v us IH]; intros i least nuse Hg Hn; cbn [oldest_use]; [exists least; split_and!; [done|lia|constructor]|].
  assert (Hg' : forall j, get (S i + j)%nat = us !! j) by (intros j; rewrite Nat.add_succ_comm; apply Hg).
  destruct (Z.ltb_spec v least).
  - destruct (IH (S i) v i Hg') as (u & H1 & H2 & H3); [rewrite <-(Nat.add_0_r i); apply Hg|]. exists u. split_and!; [done|lia|by constructor].
  - destruct (IH (S i) least nuse Hg' Hn) as (u & H1 & H2 & H3). exists u. split_and!; [done|done|constructor; [lia|done]].
Qed.

Lemma victim_least es : es <> [] -> exists e, es !! victim es = Some e /\ Forall (fun e' => e.2 <= e'.2) es.
Proof.
  destruct es as [|e es]; [done|]. intros _. cbn [victim].
  destruct (oldest_use_least (map snd es) 1 e.2 0 (fun j => snd <$> (e :: es) !! j)) as (u & H1 & H2 & H3); [|done|].
  { intros j. cbn. by rewrite list_lookup_fmap. }
  apply fmap_Some in H1 as (e' & He' & ->). exists e'. split; [done|]. constructor; [done|]. exact (proj1 (Forall_map _ _ _) H3).
Qed.

Lemma ranked_evict t es l k :
  ranked t es l -> length es = NFA -> k ∉ l -> ranked (t + 1) (<[victim es := (k, t)]> es) (recent k l).
Proof.
  intros (es' & Hp & Hs & Hf & <- & Hn) Hl Hk. destruct (victim_least es) as (e & He & Hle); [by intros ->|].
  assert (Hlen : length es' = NFA) by (by rewrite <-Hp). destruct (exists_last (l := es')) as (l1 & x & ->); [by intros ->|].
  assert (x = e) as ->.
  { rewrite Hp in Hle. assert (Hin : e ∈ l1 ++ [x]) by (rewrite <-Hp; by eapply list_elem_of_lookup_2).
    apply elem_of_app in Hin as [Hin|Hin]; [|by apply list_elem_of_singleton in Hin]. exfalso.
    apply Forall_app in Hle as [_ Hx]. inversion Hx; subst. apply list_elem_of_split in Hin as (m1 & m2 & ->).
    rewrite <-app_assoc in Hs. assert (Hlt : Forall (later e) (m2 ++ [x])).
    { clear -Hs. induction m1 as [|y m1 IH]; inversion Hs; subst; [done|auto]. }
    apply Forall_app in Hlt as [_ Hlt]. inversion Hlt; subst. unfold later in *. lia. }
  unfold recent. rewrite filter_absent by done. rewrite map_app in Hn, Hk |- *. cbn [map] in *. rewrite length_app in Hlen. cbn in Hlen.
  rewrite app_comm_cons, take_app_length' by (cbn; rewrite length_map; lia).
  apply Forall_app in Hf as [Hf _]. rewrite <-(app_nil_r l1), <-app_assoc in Hs. apply sorted_remove in Hs. rewrite app_nil_r in Hs.
  apply list.NoDup_app in Hn as (Hn & _ & _). rewrite elem_of_app in Hk.
  assert (Hr : ranked (t + 1) ((k, t) :: l1) (k :: map fst l1)) by (apply ranked_first; [by exists l1|tauto]).
  destruct Hr as (es2 & Hp2 & Hr). exists es2. split; [|done]. rewrite <-Hp2, (insert_Permutation es _ e) by done. f_equiv.
  apply (Permutation_cons_inv (a := e)). rewrite <-delete_Permutation by done. rewrite Hp. by rewrite Permutation_app_comm.
Qed.

Lemma ranked_step t es l k :
  ranked t es l -> (length es <= NFA)%nat -> ranked (t + 1) (cache_step k t es) (recent k l).
Proof.
  intros Hr Hl. assert (Hlen : length l = length es) by (destruct Hr as (es' & Hp & _ & _ & <- & _); by rewrite length_map, Hp).
  assert (Hkeys : forall k', k' ∈ l <-> exists u, (k', u) ∈ es).
  { intros k'. destruct Hr as (es' & Hp & _ & _ & <- & _). setoid_rewrite Hp. rewrite list_elem_of_fmap. split.
    - intros ([k1 u] & -> & H). eauto.
    - intros [u H]. by exists (k', u). }
  unfold cache_step. destruct (list_find _ es) as [[i [k' u]]|] eqn:Ef.
  - apply list_find_Some in Ef as (Hi & <- & _). by apply (ranked_again t es l k' u).
  - apply list_find_None in Ef. assert (Hk : k ∉ l).
    { rewrite Hkeys. intros [u Hu]. rewrite list.Forall_forall in Ef. by apply (Ef _ Hu). }
    destruct (Nat.ltb_spec (length es) NFA); [|apply ranked_evict; [done|lia|done]].
    destruct (ranked_first t es l k Hr Hk) as (es' & Hp & H2). exists es'. split; [by rewrite <-Hp, Permutation_app_comm|].
    unfold recent. rewrite filter_absent, take_ge by (try done; cbn; lia). done.
Qed.

(** The state in which the program runs. *)
Definition running : awk := set_compile_time 0 start_awk.

(** The patterns in the table. *)
Definition cached (st : awk) : list (cstr * bool) := omap (fun id => key <$> fa_at st id) (fatab st).

Lemma cached_keys st es : awk_ok st es -> cached st = map fst es.
Proof.
  intros [_ H _ _]. unfold cached. induction H as [|id e tab es (f & Hf & ->) _ IH]; [done|]. cbn. by rewrite Hf, IH.
Qed.

Lemma makedfa_ranked ks st es l :
  awk_ok st es -> ranked (now st) es l -> compile_time st = 0 -> Forall (fun k => pattern_ok k.1) ks ->
  now st + Z.of_nat (length ks) <= 2 ^ 31 - 1 ->
  exists ids st', each (fun k => makedfa k.1 k.2) ks st = Ret ids st' /\ cached st' ≡ₚ fold_left (fun l k => recent k l) ks l.
Proof.
  intros Hok Hr Hct H. revert st es l Hok Hr Hct. induction H as [|[s a] ks Hk _ IH]; intros st es l Hok Hr Hct Hnow; cbn [each fold_left fst snd].
  - exists [], st. split; [done|]. rewrite (cached_keys st es Hok). destruct Hr as (es' & Hp & _ & _ & <- & _). by rewrite Hp.
  - cbn [length] in Hnow. destruct (makedfa_spec st es s a Hok Hk Hct ltac:(lia)) as (id & st1 & E1 & (_ & Hct1 & Hok1 & Hn1) & _).
    destruct (IH st1 _ (recent (s, a) l) Hok1) as (ids & st2 & E2 & Hc); [|congruence|lia|].
    + rewrite Hn1. apply ranked_step; [done|by apply (ok_NFA _ _ Hok)].
    + exists (id :: ids), st2. by rewrite (lbind_step _ _ _ _ _ E1), (lbind_step _ _ _ _ _ E2).
Qed.

(** C36: The table [fatab] holds the automata of the 20 patterns that were used last:
    after any sequence of calls of [makedfa] its keys are those of a list in which
    each call moves its pattern to the front and which is cut after 20. *)
Theorem cache_is_lru ks :
  Forall (fun k => pattern_ok k.1) ks -> Z.of_nat (length ks) < 2 ^ 31 - 1 ->
  exists ids st, each (fun k => makedfa k.1 k.2) ks running = Ret ids st /\ cached st ≡ₚ fold_left (fun l k => recent k l) ks [].
Proof.
  intros Hks Hl. apply (makedfa_ranked ks running []); [|by exists []; split_and!; constructor|done|done|cbn [now running set_compile_time start_awk]; lia].
  destruct start_ok as [? ? ? ?]. by split.
Qed.

(** ** Examples *)

Lemma pattern_ok_small s : match reparse s with Ret p _ => S (last_pos p) <? MAXLIN | _ => false end%nat = true -> pattern_ok s.
Proof.
  destruct (reparse s) as [p lst| |] eqn:E; [|done..]. intros H%Nat.ltb_lt. exists p, lst. split; [done|]. intros k.
  assert (4 ^ k <> 0)%nat by (by apply Nat.pow_nonzero). nia.
Qed.

Definition cleanb (t : cstr) : bool := forallb (fun c => negb (zc c =? 0) && negb (zc c =? 2)) t.

Lemma cleanb_clean t : cleanb t = true -> clean t.
Proof.
  unfold cleanb. rewrite forallb_forall. intros H. apply Forall_forall. intros c Hc%H. bool_to_prop. split; lia.
Qed.

Definition sample_constants : list (cstr * bool) := [(str "^a+", true); (str "b|c", false)].

Definition sample_requests : list request := [
  {| oper := MATCHFCN; regex := Constant 0; target := str "aab" |};
  {| oper := MATCH; regex := Constant 1; target := str "xyc" |};
  {| oper := NOTMATCH; regex := Computed (str "z$"); target := str "zy" |};
  {| oper := MATCHFCN; regex := Computed (str "[0-9]+"); target := str "ab123c4" |};
  {| oper := MATCHFCN; regex := Computed (str "[0-9]+"); target := str "none" |}].

(** The answers of a run, [[]] for one that does not end well. *)
Definition answers_of (o : outcome awk (list answer)) : list answer := match o with Ret xs _ => xs | _ => [] end.


(** The 21 patterns of one letter from a to u. *)
Definition letters : list (cstr * bool) := map (fun i => ([cz (97 + Z.of_nat i)], true)) (seq 0 21).

Lemma cache_is_lru_witness :
  fold_left (fun l k => recent k l) (letters ++ [(str "b", true); (str "a", true)]) [] =
    [(str "a", true); (str "b", true)] ++ rev (map (fun i => ([cz (97 + Z.of_nat i)], true)) (seq 3 18)) /\
  exists ids st, each (fun k => makedfa k.1 k.2) (letters ++ [(str "b", true); (str "a", true)]) running = Ret ids st /\
    cached st ≡ₚ fold_left (fun l k => recent k l) (letters ++ [(str "b", true); (str "a", true)]) [].
Proof.
  split; [vm_compute; reflexivity|]. apply (cache_is_lru (letters ++ [(str "b", true); (str "a", true)])).
  - repeat (constructor; [apply pattern_ok_small; vm_compute; reflexivity|]). constructor.
  - reflexivity.
Defined.

(** ** Defects *)

Definition computed (n : operator) (r t : cstr) : request := {| oper := n; regex := Computed r; target := t |}.

(** The sign [HAT] is the code 261, two beyond the 259 columns of [gototab], so that
    the transition of state 2 for it is the element of state 3 for the byte 2: a text
    that begins with this byte is taken to begin after it. *)
Example byte_2_is_skipped :
  answers_of (program step [] [computed MATCH (str "^b") (cz 2 :: str "b")] start_awk) = [Truth true].
Proof. vm_compute. reflexivity. Qed.

(** The other way round, the byte is not found at the beginning. *)
Example byte_2_is_missed :
  answers_of (program step [] [computed MATCH (str "^" ++ cz 2 :: str "a") (cz 2 :: str "a")] start_awk) = [Truth false].
Proof. vm_compute. reflexivity. Qed.

Fixpoint separated (sep : cstr) (ss : list cstr) : cstr :=
  match ss with
  | [] => []
  | [s] => s
  | s :: ss => s ++ sep ++ separated sep ss
  end.

(** 29 letters. *)
Definition initials : list cstr := map (fun i => [cz (97 + Z.of_nat i)]) (seq 0 26) ++ [str "A"; str "B"; str "C"].

(** When the table is full and the automaton is in state 2, the new state gets the
    number 2 and the transition into it is stored in the row of the new state: the
    text "FF1" is not found, and it is found when it is asked for again. *)
Example full_table_in_state_2 :
  let r := separated (str "|") (map (fun s => s ++ str "1") (initials ++ [str "FF"])) in
  let asks := map (computed MATCH r) (initials ++ [str "FF1"; str "FF1"]) in
  answers_of (program step [] asks start_awk) = map (fun _ => Truth false) initials ++ [Truth false; Truth true].
Proof. vm_compute. reflexivity. Qed.

(** The array [tmpset] has 22 elements when the pattern has 22 positions: the number
    of the positions and 22 of them do not fit. *)
Example tmpset_overrun : makedfa (str "a*b*c*d*e*f*g*h*i*j*k*l*m*n*o*p*q*r*s*t*") false running = Crash.
Proof. vm_compute. reflexivity. Qed.

(** [sub] and [gsub] keep the automaton of their pattern while the replacement is
    computed.  A replacement that uses 20 other patterns frees the automaton, and the
    search uses it after that. *)
Example automaton_used_after_free :
  (let* pfa := makedfa (str "x") true in
   do* each (fun k => makedfa k.1 k.2) (take 20 letters) in
   on_fa pfa (pmatch (str "axb"))) running = Crash.
Proof. vm_compute. reflexivity. Qed.
