(* ===== verification/AwkSub.v ===== *)
(** * Regular expressions of nawk: substitution and splitting ([run.c], [lib.c])

    The functions [sub], [gsub] and [split] of the language and [refldbld], which
    splits a record into fields.  They search a text repeatedly, and set the initial
    state of the automaton to 2 in between, so that the sign for the beginning does
    not match again.  The specification is a list of the parts of the text that match
    ([scan]), each the longest of the leftmost ones after the part before. *)

From S2P Require Import Prelude Util AwkRegex AwkFollow AwkDfa AwkStates AwkMatch AwkSearch AwkResults AwkCache.
Open Scope Z_scope.
Open Scope ndk_scope.

(** ** The replacement text *)

(** [backsub]: the characters for a text that begins with a backslash, and the rest of
    the text. *)
Definition backsub (sptr : cstr) : cstr * cstr :=
  match sptr with
  | _ :: "\"%char :: "\"%char :: "&"%char :: r => (str "\&", r)
  | _ :: "\"%char :: "&"%char :: r => (str "\", "&"%char :: r)
  | b :: "\"%char :: r => ([b; "\"%char], r)
  | _ :: "&"%char :: r => (str "&", r)
  | b :: r => ([b], r)
  | [] => ([], [])
  end.

(** The loop over the replacement, for the matched text [m]; each round reads a
    character. *)
Fixpoint expand_loop (fuel : nat) (sptr m : cstr) : cstr :=
  match fuel, sptr with
  | S fuel, c :: r =>
      if bool_decide (c = "\"%char) then let '(out, r) := backsub sptr in out ++ expand_loop fuel r m
      else if bool_decide (c = "&"%char) then m ++ expand_loop fuel r m
      else c :: expand_loop fuel r m
  | _, _ => []
  end.

Definition expand (sptr m : cstr) : cstr := expand_loop (length sptr) sptr m.

(** The character at an offset is not the terminator. *)
Definition present (t : cstr) (i : nat) : bool := match t !! i with Some _ => true | None => false end.

(** ** The functions *)

Section Edits.
Context (goto : nat -> Z -> M machine nat).

(** The new text, if there is a match. *)
Definition sub_with (t y : cstr) : M machine (option cstr) :=
  let* r := pmatch_with goto t in
  match r with
  | Some (i, len) =>
      let n := Z.to_nat len in
      let buf := take i t ++ expand y (take n (drop i t)) in
      lret (Some (if (if (n =? 0)%nat then present t i else present t (i + n - 1)) then buf ++ drop (i + n) t else buf))
  | None => lret None
  end.

(** The loop of [gsub] with the match of [n] characters at the offset [i]; [pb] is
    what has been written. *)
Fixpoint gsub_loop (fuel : nat) (t rptr pb : cstr) (mflag : bool) (num : Z) (i n : nat) : M machine (cstr * Z) :=
  match fuel with
  | O => lcrash
  | S fuel =>
      let again t pb mflag num :=
        let* r := pmatch_with goto t in
        match r with
        | Some (i, len) => gsub_loop fuel t rptr pb mflag num i (Z.to_nat len)
        | None => lret (pb ++ t, num)
        end in
      if (n =? 0)%nat && present t i then
        let pb := if mflag then pb else pb ++ expand rptr (take n (drop i t)) in
        let num := if mflag then num else num + 1 in
        match t with
        | [] => lret (pb, num)
        | c :: t => again t (pb ++ [c]) false num
        end
      else
        let pb := pb ++ take i t ++ expand rptr (take n (drop i t)) in
        let t' := drop (i + n) t in
        if (n =? 0)%nat || negb (present t (i + n)) || negb (present t (i + n - 1)) then lret (pb, num + 1)
        else again t' pb true (num + 1)
  end.

(** The new text, if there is a match, and the number of replacements. *)
Definition gsub_with (t y : cstr) : M machine (option cstr * Z) :=
  let* r := pmatch_with goto t in
  match r with
  | Some (i, len) =>
      let* f := get_fa in
      do* modify_fa (set_initstat 2) in
      let* x := gsub_loop (S (length t)) t y [] false 0 i (Z.to_nat len) in
      do* modify_fa (set_initstat (initstat f)) in
      lret (Some x.1, x.2)
  | None => lret (None, 0)
  end.

(** The loop of [split] with a match, after the elements [acc]. *)
Fixpoint split_loop (fuel : nat) (s : cstr) (acc : list cstr) (i n : nat) : M machine (list cstr) :=
  match fuel with
  | O => lcrash
  | S fuel =>
      let acc := acc ++ [take i s] in
      let s' := drop (i + n) s in
      if negb (present s (i + n - 1)) || negb (present s (i + n)) then lret (acc ++ [[]])
      else
        let* r := nematch_with goto s' in
        match r with
        | Some (i, len) => split_loop fuel s' acc i (Z.to_nat len)
        | None => lret (acc ++ [s'])
        end
  end.

(** The elements of [split] with a regular expression, for a text that is not
    empty. *)
Definition split_regexp (s : cstr) : M machine (list cstr) :=
  let* r := nematch_with goto s in
  match r with
  | Some (i, len) =>
      let* f := get_fa in
      do* modify_fa (set_initstat 2) in
      let* l := split_loop (S (length s)) s [] i (Z.to_nat len) in
      do* modify_fa (set_initstat (initstat f)) in
      lret l
  | None => lret [s]
  end.

(** The loop of [refldbld] over the record. *)
Fixpoint fields_loop (fuel : nat) (rec : cstr) (acc : list cstr) (tempstat : nat) : M machine (list cstr) :=
  match fuel with
  | O => lcrash
  | S fuel =>
      let* r := nematch_with goto rec in
      match r with
      | Some (i, len) =>
          do* modify_fa (set_initstat 2) in
          fields_loop fuel (drop (i + Z.to_nat len) rec) (acc ++ [take i rec]) tempstat
      | None => do* modify_fa (set_initstat tempstat) in lret (acc ++ [rec])
      end
  end.

(** The fields of a record that is not empty. *)
Definition refldbld_with (rec : cstr) : M machine (list cstr) :=
  let* f := get_fa in fields_loop (S (length rec)) rec [] (initstat f).
End Edits.

(** ** Splitting without a regular expression *)

(** White space between the elements of [split] with a separator of one space. *)
Definition is_sep (c : ascii) : bool := bool_decide (c = " "%char) || bool_decide (c = "009"%char) || bool_decide (c = "010"%char).

(** The characters up to the first that satisfies the test, and the rest. *)
Fixpoint upto (stop : ascii -> bool) (s : cstr) : cstr * cstr :=
  match s with
  | [] => ([], [])
  | c :: r => if stop c then ([], s) else let '(w, r) := upto stop r in (c :: w, r)
  end.

(** [sep == ' ']: spaces are skipped, and a word begins with any character. *)
Fixpoint split_words (fuel : nat) (s : cstr) : list cstr :=
  match fuel with
  | O => []
  | S fuel =>
      match (upto (fun c => negb (is_sep c)) s).2 with
      | [] => []
      | c :: r => let '(w, r) := upto is_sep r in (c :: w) :: split_words fuel (match r with [] => [] | _ :: r => r end)
      end
  end.

(** A separator of one character; a newline separates too. *)
Fixpoint split_char (fuel : nat) (sep : ascii) (s : cstr) : list cstr :=
  match fuel with
  | O => []
  | S fuel =>
      let '(w, r) := upto (fun c => bool_decide (c = sep) || bool_decide (c = "010"%char)) s in
      w :: match r with [] => [] | _ :: r => split_char fuel sep r end
  end.

(** [split] of the text [s] by the string [fs]. *)
Definition split_with (goto : nat -> Z -> M machine nat) (s fs : cstr) : M awk (list cstr) :=
  if present s 0 && (1 <? length fs)%nat then
    let* pfa := makedfa fs true in on_fa pfa (split_regexp goto s)
  else
    match fs with
    | " "%char :: _ => lret (split_words (S (length s)) s)
    | [] => lret (map (fun c => [c]) s)
    | sep :: _ => if present s 0 then lret (split_char (S (length s)) sep s) else lret []
    end.

(** Every round of the loop reads a character, so that the length is enough. *)
Lemma backsub_reads c r : (length (backsub (c :: r)).2 <= length r)%nat.
Proof.
  unfold backsub. repeat match goal with |- context [match ?x with _ => _ end] => destruct x end; cbn; lia.
Qed.

Lemma expand_fuel fuel sptr m : (length sptr <= fuel)%nat -> expand_loop fuel sptr m = expand sptr m.
Proof.
  unfold expand. remember (length sptr) as k eqn:Ek. assert (Hk : (length sptr <= k)%nat) by lia. clear Ek.
  intros Hf. revert k sptr Hk Hf. induction fuel as [|fuel IH]; intros [|k] [|c r] Hk Hf; cbn [length] in *; try lia; [done..|].
  cbn [expand_loop]. pose proof (backsub_reads c r) as Hb. destruct (backsub (c :: r)) as [out r']. cbn [snd] in Hb.
  rewrite (IH k r), (IH k r') by lia. done.
Qed.

(** ** What is replaced *)

Section Scan.
Context (p : node) (lo : nat) (t : cstr).

(** A match of [n >= lo] characters at [i], from [pos] on; an empty one at [pos] only
    if nothing was matched right before ([free]). *)
Definition admissible (pos : nat) (free : bool) (i n : nat) : Prop :=
  (pos <= i)%nat /\ (lo <= n)%nat /\ hit p t i n /\ (n = 0%nat -> i = pos -> free = true).

(** The parts of the text from [pos] on: the longest of the leftmost matches, and the
    same again from its end. *)
Inductive scan : nat -> bool -> list (nat * nat) -> Prop :=
| scan_none pos free : (forall i n, ~ admissible pos free i n) -> scan pos free []
| scan_next pos free i n l :
    admissible pos free i n -> (forall n', admissible pos free i n' -> (n' <= n)%nat) ->
    (forall i' n', (i' < i)%nat -> ~ admissible pos free i' n') ->
    scan (i + n) false l -> scan pos free ((i, n) :: l).

Lemma scan_ext pos free pos' free' l :
  (forall i n, admissible pos free i n <-> admissible pos' free' i n) -> scan pos free l -> scan pos' free' l.
Proof.
  intros H Hs. destruct Hs as [pos free Hno|pos free i n l Ha Hmax Hmin Hs].
  - constructor. intros i n Hn%H. by apply (Hno i n).
  - econstructor; [by apply H| | |done].
    + intros n' Hn'%H. auto.
    + intros i' n' Hi' Hn'%H. by apply (Hmin i' n').
Qed.

(** Where nothing but the empty text matches, the scan can go on at the next
    character. *)
Lemma scan_skip pos l : (forall n, hit p t pos n -> n = 0%nat) -> scan (S pos) true l -> scan pos false l.
Proof.
  intros Hz. apply scan_ext. intros i n. unfold admissible. split; intros (H1 & H2 & H3 & H4).
  - split_and!; [lia|done|done|]. intros -> ->. lia.
  - split_and!; [|done|done|done]. assert (i <> pos); [|lia]. intros ->. specialize (H4 (Hz n H3) eq_refl). done.
Qed.

(** Nothing but the empty text matches at the end. *)
Lemma scan_end : scan (length t) false [].
Proof.
  constructor. intros i n (H1 & _ & (H2 & _) & H3). assert (n = 0%nat /\ i = length t) as [-> ->] by lia. by specialize (H3 eq_refl eq_refl).
Qed.

Lemma scan_unique pos free l l' : scan pos free l -> scan pos free l' -> l = l'.
Proof.
  intros H. revert l'. induction H as [pos free Hno|pos free i n l Ha Hmax Hmin _ IH]; intros l' H'; inversion H' as [? ? Hno'|? ? i' n' l2 Ha' Hmax' Hmin' Hs']; subst.
  - done.
  - by destruct (Hno i' n').
  - by destruct (Hno' i n).
  - assert (i' = i) as ->. { destruct (Nat.lt_trichotomy i i') as [Hl|[->|Hl]]; [by destruct (Hmin' i n Hl)|done|by destruct (Hmin i' n' Hl)]. }
    assert (n' = n) as -> by (specialize (Hmax n' Ha'); specialize (Hmax' n Ha); lia). by rewrite (IH l2 Hs').
Qed.
End Scan.

(** The text from [pos] on with the parts replaced. *)
Fixpoint render (y t : cstr) (pos : nat) (l : list (nat * nat)) : cstr :=
  match l with
  | [] => drop pos t
  | (i, n) :: l => take (i - pos) (drop pos t) ++ expand y (take n (drop i t)) ++ render y t (i + n) l
  end.

(** The texts between the parts. *)
Fixpoint between_parts (t : cstr) (pos : nat) (l : list (nat * nat)) : list cstr :=
  match l with
  | [] => [drop pos t]
  | (i, n) :: l => take (i - pos) (drop pos t) :: between_parts t (i + n) l
  end.

(** ** Searches in the rest of a text *)

Section Rest.
Context (p : node) (Hnf : no_final p = true) (Htx : texts p = true).

(** A match in the rest of a text is a match in the text. *)
Lemma found_rest lo t pos d k :
  (0 < pos <= length t)%nat -> found_at p lo (here_set p) (drop pos t) d k <-> (lo <= k)%nat /\ hit p t (pos + d) k.
Proof.
  intros Hpos. unfold found_at, hit, len_at. rewrite drop_drop, length_drop, length_drop.
  assert (Hset : forall u, accepts p (set_at p (here_set p) d) u <-> matches p (map Some u)).
  { intros u. unfold set_at. destruct (d =? 0)%nat; by apply accepts_here. }
  setoid_rewrite Hset. set (w := map zc (take k (drop (pos + d) t))). split.
  - intros (Hd & Hlo & Hk & Hor). split; [done|]. split; [lia|]. destruct Hor as [Hm|[En Hm]].
    + exists [], []. rewrite app_nil_r. auto.
    + assert (E : (pos + d + k)%nat = length t) by lia. rewrite (chars_all t (pos + d) k E) in Hm. exists [], [0]. auto.
  - intros (Hlo & Hin & pre & post & Hpre & Hpost & Hm). destruct Hpre as [->|[-> H0]]; [|lia]. split_and!; [lia|done|lia|].
    destruct Hpost as [->|[-> E]]; [left|right; split; [lia|rewrite (chars_all t (pos + d) k E); fold w]]; by rewrite ?app_nil_r in Hm.
Qed.

(** The result of a search in the text from [pos] on, with the sign for the beginning
    at the beginning of the whole text only. *)
Definition best (lo : nat) (t : cstr) (pos : nat) (r : option (nat * Z)) : Prop :=
  match r with
  | Some (d, len) =>
      exists k, len = Z.of_nat k /\ (lo <= k)%nat /\ hit p t (pos + d) k /\ (forall k', hit p t (pos + d) k' -> (k' <= k)%nat) /\
        forall i k', (pos <= i < pos + d)%nat -> (lo <= k')%nat -> ~ hit p t i k'
  | None => forall i k, (pos <= i)%nat -> (lo <= k)%nat -> ~ hit p t i k
  end.

Lemma leftmost_best lo X t pos r :
  (forall d k, found_at p lo X (drop pos t) d k <-> (lo <= k)%nat /\ hit p t (pos + d) k) -> leftmost p lo X (drop pos t) 0 r -> best lo t pos r.
Proof.
  intros Hf. destruct r as [[j len]|]; cbn [leftmost best].
  - intros (d & k & -> & -> & Hk & Hmax & Hmin). cbn [Nat.add]. apply Hf in Hk as [Hlo Hk]. exists k. split_and!; [done..| |].
    + intros k' Hk'. destruct (decide (lo <= k')%nat); [|lia]. apply Hmax. by apply Hf.
    + intros i k' Hi Hlo' Hk'. apply (Hmin (i - pos)%nat k'); [lia|]. apply Hf. replace (pos + (i - pos))%nat with i by lia. done.
  - intros Hno i k Hi Hlo Hk. apply (Hno (i - pos)%nat k). apply Hf. replace (pos + (i - pos))%nat with i by lia. done.
Qed.

Lemma best_first lo t r : leftmost p lo (init_set p) t 0 r -> best lo t 0 r.
Proof. intros H. apply (leftmost_best lo (init_set p)); [|by rewrite drop_0]. intros d k. rewrite drop_0. by apply found_hit. Qed.

Lemma best_rest lo t pos r : (0 < pos <= length t)%nat -> leftmost p lo (here_set p) (drop pos t) 0 r -> best lo t pos r.
Proof. intros Hpos. apply leftmost_best. intros d k. by apply found_rest. Qed.
End Rest.

(** ** The table is not emptied *)

(** A transition, but a failure where the full table would be emptied. *)
Definition strict (s : nat) (c : Z) : M machine nat :=
  let* ns := lread (fun st => get_goto st.2 s c) in
  if (ns =? 0)%nat then
    let* f := get_fa in
    if (NSTATES - 1 <=? curstat f)%nat then lfail (Msg "table full" []) else cgoto s c
  else lret ns.

Lemma strict_guarded s c : refines (strict s c) (guarded s c).
Proof.
  apply refines_bind; [done|]. intros ns. apply refines_if; [|done]. apply refines_bind; [done|]. intros f m Hm.
  by destruct (NSTATES - 1 <=? curstat f)%nat.
Qed.

Lemma refines_trans {S A} (c c' c'' : M S A) : refines c c' -> refines c' c'' -> refines c c''.
Proof. intros H1 H2 m Hm. rewrite (H2 m), (H1 m Hm); [done|]. by rewrite (H1 m Hm). Qed.

Lemma refines_calm {S A} (c c' : M S A) m : refines c c' -> calm (c m) = true -> calm (c' m) = true.
Proof. intros H Hm. by rewrite (H m Hm). Qed.

Definition same_reset (m m' : machine) : Prop := reset m'.2 = reset m.2.

#[export] Instance same_reset_preorder : PreOrder same_reset.
Proof. split; [by intros m|]. intros m1 m2 m3 H1 H2. unfold same_reset in *. congruence. Qed.

Lemma on_scratch_fa {A} (c : M scratch A) m x m' : on_scratch c m = Ret x m' -> m'.2 = m.2.
Proof. unfold on_scratch. destruct (c m.1); [|done..]. by intros [= _ <-]. Qed.

Lemma cgoto_reset s c m n m' : (curstat m.2 < NSTATES - 1)%nat -> cgoto s c m = Ret n m' -> reset m'.2 = reset m.2.
Proof.
  intros Hc E. unfold cgoto in E. unfold lbind at 1, get_fa in E.
  apply lbind_Ret in E as ([] & m1 & E1%on_scratch_fa & E). apply lbind_Ret in E as ([] & m2 & E2%on_scratch_fa & E).
  apply lbind_Ret in E as (q & m3 & E3 & E). apply lbind_Ret in E as ([] & m4 & E4%on_scratch_fa & E).
  apply lbind_Ret in E as (ts & m5 & E5%on_scratch_fa & E). apply lbind_Ret in E as (found & m6 & E6 & E).
  assert (Hread : forall A (g : machine -> option A) k x k', lread g k = Ret x k' -> k' = k) by (unfold lread; intros A g k x k'; by destruct (g k); [intros [= _ <-]|]).
  apply Hread in E3 as ->. apply Hread in E6 as ->. assert (Ef : m5.2 = m.2) by congruence.
  assert (Hput : forall k x k' v, put_goto s c v k = Ret x k' -> reset k'.2 = reset k.2).
  { unfold put_goto. intros k x k' v. destruct (_ !! _); [|done]. by intros [= _ <-]. }
  destruct found as [i|].
  - apply lbind_Ret in E as (x & m7 & E7%Hput & E). injection E as _ <-. congruence.
  - apply lbind_Ret in E as (k & m7 & E7 & E). unfold new_state in E7. unfold lbind at 1, get_fa in E7. rewrite Ef in E7.
    destruct (Nat.leb_spec (NSTATES - 1) (curstat m.2)); [lia|]. injection E7 as _ <-.
    apply lbind_Ret in E as (x & m8 & E8 & E). injection E8 as _ <-. apply lbind_Ret in E as (x8 & m9 & E9%Hput & E).
    apply lbind_Ret in E as (b & m10 & ->%Hread & E). apply lbind_Ret in E as (x10 & m11 & E11 & E). injection E11 as _ <-. injection E as _ <-.
    transitivity (reset m9.2); [done|]. rewrite E9. transitivity (reset m5.2); [done|congruence].
Qed.

Lemma strict_reset s c : keeping same_reset (strict s c).
Proof.
  intros m n m' E. unfold strict in E. apply lbind_Ret in E as (ns & m1 & E1 & E). unfold lread in E1. destruct (get_goto _ _ _); [|done]. injection E1 as _ <-.
  destruct (_ =? _)%nat; [|by injection E as _ <-]. unfold lbind, get_fa in E. destruct (Nat.leb_spec (NSTATES - 1) (curstat m.2)); [done|].
  by eapply cgoto_reset.
Qed.

Lemma nextin_reset : keeping same_reset nextin.
Proof.
  unfold nextin. apply keeping_bind; [apply _|by intros m x m' [= _ <-]|]. intros f. apply keeping_if; [|apply keeping_ret; apply _].
  repeat (apply keeping_bind; [apply _|first [apply keeping_read; apply _|by intros ? ? ? [= _ <-]]|intros ?]). by intros ? ? ? [= _ <-].
Qed.
#[export] Hint Resolve strict_reset nextin_reset : keeping.

Lemma is_out_reset s : keeping same_reset (is_out s).
Proof. apply keeping_read. apply _. Qed.
#[export] Hint Resolve is_out_reset : keeping.

Lemma longest_reset s q n patlen : keeping same_reset (longest strict s q n patlen).
Proof. revert s n patlen. induction q as [|c q IH]; intros s n patlen; cbn [longest]; keep. Qed.
#[export] Hint Resolve longest_reset : keeping.

Lemma pmatch_loop_reset s q i n : keeping same_reset (pmatch_loop strict s q i n).
Proof. revert s i n. induction q as [|c q IH]; intros s i n; cbn [pmatch_loop]; keep. Qed.

Lemma nematch_loop_reset s q i n : keeping same_reset (nematch_loop strict s q i n).
Proof. revert s i n. induction q as [|c q IH]; intros s i n; cbn [nematch_loop]; keep. Qed.

(** ** Searches *)

(** [nematch], or [pmatch]. *)
Definition search (goto : nat -> Z -> M machine nat) (ne : bool) (t : cstr) : M machine (option (nat * Z)) :=
  if ne then nematch_with goto t else pmatch_with goto t.

Definition least (ne : bool) : nat := if ne then 1%nat else 0%nat.

Section Searches.
Context (p : node) (Hnf : no_final p = true) (Htx : texts p = true).

Lemma strict_step s c : refines (strict s c) (step s c).
Proof. eapply refines_trans; [apply strict_guarded|apply guarded_refines]. Qed.

(** The loop of a search, from the state [s]. *)
Definition search_loop (goto : nat -> Z -> M machine nat) (ne : bool) (s : nat) (t : cstr) : M machine (option (nat * Z)) :=
  if ne then nematch_loop goto s (chars t) 0 (-1) else pmatch_loop goto s (chars t) 0 (-1).

Lemma search_loop_eq goto ne t : search goto ne t = (let* s := first_state in search_loop goto ne s t).
Proof. by destruct ne. Qed.

Lemma search_loop_refines ne s t : refines (search_loop strict ne s t) (search_loop step ne s t).
Proof. destruct ne; [apply nematch_loop_refines|apply pmatch_loop_refines]; apply strict_step. Qed.

Lemma search_refines ne t : refines (search strict ne t) (search step ne t).
Proof. rewrite !search_loop_eq. apply refines_bind; [done|]. intros s. apply search_loop_refines. Qed.

Lemma search_loop_spec ne i0 Q t st f s X :
  clean t -> pinned_ok p i0 Q (st, f) -> reset f = false -> at_state p f s X -> calm (search_loop strict ne s t (st, f)) = true ->
  exists r m, search_loop step ne s t (st, f) = Ret r m /\ pinned_ok p i0 Q m /\ reset m.2 = false /\ leftmost p (least ne) X t 0 r.
Proof.
  intros Ht Hpin Hr HX Hcalm. pose proof (search_loop_refines ne s t (st, f) Hcalm) as Estep.
  assert (Hspec : exists r m, search_loop step ne s t (st, f) = Ret r m /\ pinned_ok p i0 Q m /\ leftmost p (least ne) X t 0 r).
  { destruct ne; cbn [search_loop least] in *.
    - apply (nematch_loop_spec p Hnf Htx i0 Q t st f s X 0 (-1)); [done..|lia|].
      eapply refines_calm; [apply nematch_loop_refines; apply strict_guarded|done].
    - apply (pmatch_loop_spec p Hnf Htx i0 Q t st f s X 0); [done..|].
      eapply refines_calm; [apply pmatch_loop_refines; apply strict_guarded|done]. }
  destruct Hspec as (r & m & E & Hm & Hl). exists r, m. split_and!; [done..| |done]. rewrite Estep in E.
  destruct ne; cbn [search_loop] in E; [apply nematch_loop_reset in E|apply pmatch_loop_reset in E]; unfold same_reset in E; cbn [snd] in E; congruence.
Qed.

(** The first search in a text. *)
Lemma search_first ne t st f :
  clean t -> anchored_ok p (st, f) -> calm (search strict ne t (st, f)) = true ->
  exists r m, search step ne t (st, f) = Ret r m /\ pinned_ok p (initstat m.2) [(initstat m.2, init_set p)] m /\ reset m.2 = false /\
    best p (least ne) t 0 r /\ (reset f = false -> initstat m.2 = initstat f).
Proof.
  intros Ht Hok Hcalm. rewrite search_loop_eq in *. destruct (first_state_spec p Hnf Htx st f Hok) as (s & st' & f' & E & Hok' & HX & Hr & Hi).
  rewrite (lbind_step _ _ _ _ _ E) in Hcalm. rewrite (lbind_step _ _ _ _ _ E).
  destruct (search_loop_spec ne _ _ t st' f' s _ Ht (anchored_pinned p _ Hok') Hr HX Hcalm) as (r & m & Er & Hm & Hrm & Hl). cbn [snd] in *.
  exists r, m. assert (Ei : initstat m.2 = initstat f') by (apply (proj2 (proj2 (proj2 Hm))); done). rewrite Ei.
  split_and!; [done..|by apply best_first|done].
Qed.

(** A search in the rest of a text, from state 2. *)
Lemma search_rest ne t pos Q st f :
  clean t -> (0 < pos <= length t)%nat -> pinned_ok p 2 Q (st, f) -> reset f = false -> calm (search strict ne (drop pos t) (st, f)) = true ->
  exists r m, search step ne (drop pos t) (st, f) = Ret r m /\ pinned_ok p 2 Q m /\ reset m.2 = false /\ best p (least ne) t pos r.
Proof.
  intros Ht Hpos Hpin Hr Hcalm. rewrite search_loop_eq in *. pose proof Hpin as (Hroom & Hco & _ & Hpr). destruct (Hpr Hr) as (Hi & H2 & _).
  cbn [fst snd] in *. pose proof (c_curstat p f Hco).
  assert (E : first_state (st, f) = Ret 2%nat (st, f)) by (unfold first_state, lbind, get_fa; cbn [snd]; by rewrite Hr, Hi).
  rewrite (lbind_step _ _ _ _ _ E) in Hcalm. rewrite (lbind_step _ _ _ _ _ E).
  destruct (search_loop_spec ne 2 Q (drop pos t) st f 2 (here_set p)) as (r & m & Er & Hm & Hrm & Hl);
    [by apply Forall_drop|done|done|split; [lia|done]|done|].
  exists r, m. split_and!; [done..|]. by apply best_rest.
Qed.
End Searches.

(** ** [gsub] *)

Section Gsub.
Context (p : node) (Hnf : no_final p = true) (Htx : texts p = true) (t y : cstr) (Ht : clean t) (Q : list (nat * gset nat)).

(** An empty match before the end is one at the place where the search began. *)
Lemma best_empty pos d : best p 0 t pos (Some (d, 0)) -> (pos + d < length t)%nat -> d = 0%nat.
Proof.
  intros (k & Hk & _ & (_ & pre & post & Hpre & Hpost & Hm) & _ & Hmin) Hd. assert (k = 0%nat) as -> by lia.
  destruct Hpre as [->|[-> H0]]; [|lia]. destruct Hpost as [->|[-> E]]; [|lia].
  destruct (decide (d = 0%nat)) as [|Hne]; [done|]. destruct (Hmin pos 0%nat); [lia..|]. split; [lia|]. exists [], []. split_and!; [auto..|done].
Qed.

(** The first part does not begin before [pos]. *)
Definition from (pos : nat) (l : list (nat * nat)) : Prop := match l with (i, _) :: _ => (pos <= i)%nat | [] => True end.

Lemma scan_from lo pos free l : scan p lo t pos free l -> from pos l.
Proof. intros H. destruct H as [|pos free i n l Ha]; [done|apply Ha]. Qed.

Lemma render_S pos c l : t !! pos = Some c -> from (S pos) l -> render y t pos l = c :: render y t (S pos) l.
Proof.
  intros Hc Hl. assert (Ed : drop pos t = c :: drop (S pos) t) by (by apply drop_S). destruct l as [|[i n] l]; cbn [render]; [done|].
  cbn [from] in Hl. rewrite Ed. destruct (i - pos)%nat as [|k] eqn:Ek; [lia|]. cbn [take app]. by replace (i - S pos)%nat with k by lia.
Qed.

(** What the loop does from [pos] on, after it has written [pb]. *)
Definition rewrites (pos : nat) (free : bool) (pb : cstr) (num : Z) (o : outcome machine (cstr * Z)) : Prop :=
  exists l m, o = Ret (pb ++ render y t pos l, num + Z.of_nat (length l)) m /\ pinned_ok p 2 Q m /\ reset m.2 = false /\ scan p 0 t pos free l.

Definition gsub_again (goto : nat -> Z -> M machine nat) (fuel : nat) (t pb : cstr) (mflag : bool) (num : Z) : M machine (cstr * Z) :=
  let* r := pmatch_with goto t in
  match r with
  | Some (i, len) => gsub_loop goto fuel t y pb mflag num i (Z.to_nat len)
  | None => lret (pb ++ t, num)
  end.

Definition loop_ok (fuel : nat) : Prop := forall pos mflag pb num st f i n,
  (pos <= length t)%nat -> (length t - pos < fuel)%nat -> (mflag = true -> (pos < length t)%nat) ->
  best p 0 t pos (Some (i, Z.of_nat n)) -> pinned_ok p 2 Q (st, f) -> reset f = false ->
  calm (gsub_loop strict fuel (drop pos t) y pb mflag num i n (st, f)) = true ->
  rewrites pos (negb mflag) pb num (gsub_loop step fuel (drop pos t) y pb mflag num i n (st, f)).

Definition again_ok (fuel : nat) : Prop := forall pos mflag pb num st f,
  (0 < pos <= length t)%nat -> (length t - pos < fuel)%nat -> (mflag = true -> (pos < length t)%nat) ->
  pinned_ok p 2 Q (st, f) -> reset f = false ->
  calm (gsub_again strict fuel (drop pos t) pb mflag num (st, f)) = true ->
  rewrites pos (negb mflag) pb num (gsub_again step fuel (drop pos t) pb mflag num (st, f)).

Lemma again_of_loop fuel : loop_ok fuel -> again_ok fuel.
Proof.
  intros Hloop pos mflag pb num st f Hpos Hfuel Hmf Hpin Hr Hcalm. unfold gsub_again in *. pose proof (calm_first _ _ _ Hcalm) as Hc1.
  destruct (search_rest p Hnf Htx false t pos Q st f Ht Hpos Hpin Hr Hc1) as (r & [st1 f1] & E & Hpin1 & Hr1 & Hb). cbn [search snd] in *.
  assert (Es : pmatch_with strict (drop pos t) (st, f) = Ret r (st1, f1)) by (rewrite <-E; symmetry; by apply (search_refines false)).
  rewrite (lbind_step _ _ _ _ _ Es) in Hcalm. rewrite (lbind_step _ _ _ _ _ E). destruct r as [[i len]|].
  - destruct Hb as (k & -> & Hk). rewrite Nat2Z.id in *. apply Hloop; [lia|lia|done|by exists k|done..].
  - exists [], (st1, f1). cbn [render length]. rewrite Z.add_0_r. split_and!; [done..|]. constructor. intros i n (H1 & _ & H3 & _).
    by apply (Hb i n H1 (Nat.le_0_l n)).
Qed.

(** The empty match: the next character is copied. *)
Lemma loop_empty fuel pos mflag pb num st f i :
  again_ok fuel -> (pos < length t)%nat -> (length t - pos < S fuel)%nat ->
  best p 0 t pos (Some (i, 0)) -> (pos + i < length t)%nat -> pinned_ok p 2 Q (st, f) -> reset f = false ->
  calm (gsub_loop strict (S fuel) (drop pos t) y pb mflag num i 0 (st, f)) = true ->
  rewrites pos (negb mflag) pb num (gsub_loop step (S fuel) (drop pos t) y pb mflag num i 0 (st, f)).
Proof.
  intros Hagain Hpos Hfuel Hb Hi Hpin Hr Hcalm. pose proof (best_empty pos i Hb Hi) as ->.
  destruct (lookup_lt_is_Some_2 t pos Hpos) as [c Hc]. assert (Ed : drop pos t = c :: drop (S pos) t) by (by apply drop_S).
  rewrite Ed in Hcalm |- *. cbn [gsub_loop Nat.eqb andb present lookup list_lookup take drop] in Hcalm |- *.
  set (pb1 := if mflag then pb else pb ++ expand y []) in *. set (num1 := if mflag then num else num + 1) in *.
  destruct (Hagain (S pos) false (pb1 ++ [c]) num1 st f ltac:(lia) ltac:(lia) ltac:(done) Hpin Hr Hcalm) as (l & m & E & Hm & Hrm & Hs).
  destruct Hb as (k & Hk & _ & Hhit & Hmax & _). assert (k = 0%nat) as -> by lia. rewrite Nat.add_0_r in *. cbn [negb] in Hs.
  assert (Hs' : scan p 0 t pos false l) by (apply scan_skip; [intros n Hn; specialize (Hmax n Hn); lia|done]).
  pose proof (render_S pos c l Hc (scan_from _ _ _ _ Hs)) as Er. unfold gsub_again in E. rewrite E. subst pb1 num1. destruct mflag; cbn [negb].
  - exists l, m. split_and!; [|done..]. by rewrite Er, <-app_assoc.
  - exists ((pos, 0%nat) :: l), m. split_and!; [|done..|].
    + cbn [render length]. rewrite Nat.sub_diag, Nat.add_0_r, Er. cbn [take app]. rewrite <-!app_assoc. f_equal. f_equal. lia.
    + econstructor; [split_and!; [lia|lia|done|done]| | |by rewrite Nat.add_0_r].
      * intros n' (_ & _ & Hn' & _). auto.
      * intros i' n' Hi' (H1 & _). lia.
Qed.

(** A match that is replaced, and after which the search goes on. *)
Lemma loop_match fuel pos mflag pb num st f i n :
  again_ok fuel -> (pos <= length t)%nat -> (length t - pos < S fuel)%nat -> (mflag = true -> (pos < length t)%nat) ->
  best p 0 t pos (Some (i, Z.of_nat n)) -> (n = 0%nat -> (pos + i)%nat = length t) -> pinned_ok p 2 Q (st, f) -> reset f = false ->
  calm (gsub_loop strict (S fuel) (drop pos t) y pb mflag num i n (st, f)) = true ->
  rewrites pos (negb mflag) pb num (gsub_loop step (S fuel) (drop pos t) y pb mflag num i n (st, f)).
Proof.
  intros Hagain Hpos Hfuel Hmf Hb Hn Hpin Hr Hcalm. destruct Hb as (k & Hk & _ & Hhit & Hmax & Hmin). assert (k = n) as -> by lia. clear Hk.
  assert (Hle : (pos + i + n <= length t)%nat) by apply Hhit. cbn [gsub_loop] in Hcalm |- *.
  assert (Hpres : forall j, present (drop pos t) j = (pos + j <? length t)%nat).
  { intros j. unfold present. rewrite lookup_drop. destruct (Nat.ltb_spec (pos + j) (length t)) as [Hj|Hj].
    - by destruct (lookup_lt_is_Some_2 t (pos + j) Hj) as [? ->].
    - by rewrite lookup_ge_None_2 by lia. }
  assert (Hscan : forall l, scan p 0 t (pos + i + n) false l -> scan p 0 t pos (negb mflag) ((pos + i, n)%nat :: l)).
  { intros l Hl. econstructor; [| | |exact Hl].
    - split_and!; [lia|lia|done|]. intros -> E. destruct mflag; [|done]. specialize (Hn eq_refl). specialize (Hmf eq_refl). lia.
    - intros n' (_ & _ & Hn' & _). auto.
    - intros i' n' Hi' (H1 & _ & H3 & _). apply (Hmin i' n'); [lia|lia|done]. }
  rewrite !Hpres, !drop_drop in *. rewrite Nat.add_assoc in *.
  assert (Eb : (n =? 0)%nat && (pos + i <? length t)%nat = false).
  { destruct (Nat.eqb_spec n 0) as [->|]; [|done]. cbn [andb]. apply Nat.ltb_ge. specialize (Hn eq_refl). lia. }
  rewrite Eb in *. set (pb1 := pb ++ take i (drop pos t) ++ expand y (take n (drop (pos + i) t))) in *.
  destruct (_ || _) eqn:Eend.
  - assert (Hend : (pos + i + n)%nat = length t).
    { apply orb_prop in Eend as [Eend|Eend]; [apply orb_prop in Eend as [Eend|Eend]|]; bool_to_prop.
      - apply Nat.eqb_eq in Eend as ->. specialize (Hn eq_refl). lia.
      - apply Nat.ltb_ge in Eend. lia.
      - apply Nat.ltb_ge in Eend. destruct n; [specialize (Hn eq_refl)|]; lia. }
    exists [((pos + i)%nat, n)], (st, f). split_and!; [|done..|apply Hscan; rewrite Hend; apply scan_end].
    cbn [render length]. rewrite Hend, drop_all, app_nil_r. replace (pos + i - pos)%nat with i by lia. done.
  - apply orb_false_elim in Eend as [Eend E3]. apply orb_false_elim in Eend as [E1 E2]. bool_to_prop. apply Nat.eqb_neq in E1. apply Nat.ltb_lt in E2.
    destruct (Hagain (pos + i + n)%nat true pb1 (num + 1) st f) as (l & m & E & Hm & Hrm & Hs); [lia|lia|done..|].
    unfold gsub_again in E. rewrite E. exists (((pos + i)%nat, n) :: l), m. split_and!; [|done..|by apply Hscan].
    cbn [render length]. subst pb1. replace (pos + i - pos)%nat with i by lia. rewrite <-!app_assoc. f_equal. f_equal. lia.
Qed.

Lemma loops_ok fuel : loop_ok fuel.
Proof.
  induction fuel as [|fuel IH]; intros pos mflag pb num st f i n Hpos Hfuel Hmf Hb Hpin Hr Hcalm; [lia|].
  pose proof (again_of_loop fuel IH) as Hagain. destruct (decide (n = 0%nat /\ (pos + i < length t)%nat)) as [[-> Hi]|Hne].
  - apply loop_empty; [done|lia|done..].
  - apply loop_match; try done. intros ->. destruct Hb as (k & _ & _ & (Hle & _) & _). destruct (decide (pos + i < length t)%nat); [|lia]. tauto.
Qed.
End Gsub.

(** ** The functions *)

Section Functions.
Context (p : node) (Hnf : no_final p = true) (Htx : texts p = true).

Lemma pinned_initstat i0 Q j m : pinned_ok p i0 Q m -> pinned_ok p j Q (m.1, set_initstat j m.2).
Proof. intros (H1 & [? ? ? ? ? ? ?] & H3 & H4). split_and!; [done|by split|]. split; [done|]. intros Hr. destruct (H4 Hr) as (_ & H5 & H6). by split_and!. Qed.

Lemma restored i0 m : pinned_ok p 2 [(i0, init_set p)] m -> anchored_ok p (m.1, set_initstat i0 m.2).
Proof. intros H. eapply pinned_anchored; [|by eapply pinned_initstat]. by apply list_elem_of_singleton. Qed.

Lemma search_strict ne t m r m' : calm (search strict ne t m) = true -> search step ne t m = Ret r m' -> search strict ne t m = Ret r m'.
Proof. intros Hc E. rewrite <-E. symmetry. by apply search_refines. Qed.

Lemma gsub_spec t y st f :
  clean t -> anchored_ok p (st, f) -> calm (gsub_with strict t y (st, f)) = true ->
  exists x m, gsub_with step t y (st, f) = Ret x m /\ anchored_ok p m /\
    exists l, scan p 0 t 0 true l /\ x = (match l with [] => None | _ => Some (render y t 0 l) end, Z.of_nat (length l)).
Proof.
  intros Ht Hok Hcalm. unfold gsub_with in *. pose proof (calm_first _ _ _ Hcalm) as Hc1.
  destruct (search_first p Hnf Htx false t st f Ht Hok Hc1) as (r & m1 & E & Hpin1 & Hr1 & Hb & _).
  pose proof (search_strict false t _ _ _ Hc1 E) as Es. cbn [search] in E, Es. rewrite (lbind_step _ _ _ _ _ Es) in Hcalm. rewrite (lbind_step _ _ _ _ _ E).
  destruct r as [[i len]|].
  - unfold lbind at 1, get_fa in Hcalm. unfold lbind at 1, get_fa. set (i0 := initstat m1.2) in *. set (m2 := (m1.1, set_initstat 2 m1.2)).
    rewrite (lbind_step (modify_fa (set_initstat 2)) _ m1 tt m2 eq_refl) in Hcalm. rewrite (lbind_step (modify_fa (set_initstat 2)) _ m1 tt m2 eq_refl).
    apply calm_first in Hcalm. destruct Hb as (k & -> & Hb). rewrite Nat2Z.id in *.
    pose proof (loops_ok p Hnf Htx t y Ht [(i0, init_set p)] (S (length t)) 0%nat false [] 0 m2.1 m2.2 i k) as Hloop. rewrite drop_0 in Hloop.
    destruct Hloop as (l & m3 & E3 & Hm3 & Hr3 & Hs);
      [lia|lia|done|by exists k|exact (pinned_initstat _ _ 2 m1 Hpin1)|done|exact Hcalm|].
    rewrite (lbind_step _ _ m2 _ _ E3). eexists _, _. split; [reflexivity|]. split; [by apply restored|]. exists l. split; [done|].
    destruct l as [|x l]; [|done]. inversion Hs as [? ? Hno|]; subst. exfalso. apply (Hno i k). split_and!; [lia|lia|by apply Hb|done].
  - exists (None, 0), m1. split; [done|]. split; [eapply pinned_anchored; [|exact Hpin1]; by apply list_elem_of_singleton|].
    exists []. split; [|done]. constructor. intros i n (H1 & H2 & H3 & _). by apply (Hb i n).
Qed.

Lemma sub_spec t y st f :
  clean t -> anchored_ok p (st, f) -> calm (sub_with strict t y (st, f)) = true ->
  exists x m, sub_with step t y (st, f) = Ret x m /\ anchored_ok p m /\
    exists r, best p 0 t 0 r /\ x = match r with Some (i, len) => Some (render y t 0 [(i, Z.to_nat len)]) | None => None end.
Proof.
  intros Ht Hok Hcalm. unfold sub_with in *. pose proof (calm_first _ _ _ Hcalm) as Hc1.
  destruct (search_first p Hnf Htx false t st f Ht Hok Hc1) as (r & m & E & Hpin & _ & Hb & _). cbn [search] in E. rewrite (lbind_step _ _ _ _ _ E).
  assert (Hm : anchored_ok p m) by (eapply pinned_anchored; [|exact Hpin]; by apply list_elem_of_singleton).
  destruct r as [[i len]|]; (eexists _, m; split; [reflexivity|]; split; [done|]; eexists; split; [exact Hb|]); [|done].
  destruct Hb as (k & -> & _ & (Hle & _) & _). cbn [render]. rewrite Nat2Z.id, Nat.sub_0_r, drop_0, <-app_assoc. cbn [Nat.add] in Hle.
  f_equal. destruct (Nat.eqb_spec k 0) as [->|Hk]; unfold present.
  - destruct (t !! i) eqn:Ei; [done|]. apply lookup_ge_None_1 in Ei. by rewrite (drop_ge t (i + 0)) by lia; rewrite app_nil_r.
  - by destruct (lookup_lt_is_Some_2 t (i + k - 1) ltac:(lia)) as [? ->].
Qed.

(** What [split] and [refldbld] find from [pos] on, after the elements [acc]. *)
Definition divides (t : cstr) (Q : list (nat * gset nat)) (pos : nat) (acc : list cstr) (o : outcome machine (list cstr)) : Prop :=
  exists l m, o = Ret (acc ++ between_parts t pos l) m /\ pinned_ok p 2 Q m /\ reset m.2 = false /\ scan p 1 t pos true l.

Lemma best_scan t pos i n l :
  best p 1 t pos (Some (i, Z.of_nat n)) -> scan p 1 t (pos + i + n) true l -> scan p 1 t pos true ((pos + i, n)%nat :: l).
Proof.
  intros (k & Hk & Hlo & Hhit & Hmax & Hmin) Hl. assert (k = n) as -> by lia. econstructor.
  - by split_and!; [lia|..].
  - intros n' (_ & _ & Hn' & _). auto.
  - intros i' n' Hi' (H1 & H2 & H3 & _). apply (Hmin i' n'); [lia|done|done].
  - eapply scan_ext; [|exact Hl]. intros i' n'. unfold admissible. split; intros (H1 & H2 & H3 & _); split_and!; (done || lia).
Qed.

Lemma best_none t pos free : best p 1 t pos None -> scan p 1 t pos free [].
Proof. intros H. constructor. intros i n (H1 & H2 & H3 & _). by apply (H i n). Qed.

Lemma present_drop t pos j : present (drop pos t) j = (pos + j <? length t)%nat.
Proof.
  unfold present. rewrite lookup_drop. destruct (Nat.ltb_spec (pos + j) (length t)) as [Hj|Hj].
  - by destruct (lookup_lt_is_Some_2 t (pos + j) Hj) as [? ->].
  - by rewrite lookup_ge_None_2 by lia.
Qed.

Lemma split_loop_spec t Q fuel : clean t -> forall pos acc st f i n,
  (length t - pos < fuel)%nat -> best p 1 t pos (Some (i, Z.of_nat n)) -> pinned_ok p 2 Q (st, f) -> reset f = false ->
  calm (split_loop strict fuel (drop pos t) acc i n (st, f)) = true ->
  divides t Q pos acc (split_loop step fuel (drop pos t) acc i n (st, f)).
Proof.
  intros Ht. induction fuel as [|fuel IH]; intros pos acc st f i n Hfuel Hb Hpin Hr Hcalm; [lia|]. cbn [split_loop] in *.
  pose proof (best_scan t pos i n) as Hscan. destruct Hb as (k & Hk & Hlo & Hhit & Hmax & Hmin). assert (k = n) as -> by lia.
  assert (Hb : best p 1 t pos (Some (i, Z.of_nat n))) by (by exists n). specialize (fun l => Hscan l Hb).
  assert (Hle : (pos + i + n <= length t)%nat) by apply Hhit. rewrite !present_drop, !drop_drop in *. rewrite Nat.add_assoc in *.
  assert (Epart : forall l, between_parts t pos (((pos + i)%nat, n) :: l) = take i (drop pos t) :: between_parts t (pos + i + n) l).
  { intros l. cbn [between_parts]. by replace (pos + i - pos)%nat with i by lia. }
  destruct (_ || _) eqn:Eend.
  - assert (Hend : (pos + i + n)%nat = length t) by (apply orb_prop in Eend as [Eend|Eend]; bool_to_prop; apply Nat.ltb_ge in Eend; lia).
    exists [((pos + i)%nat, n)], (st, f). rewrite Epart, Hend. cbn [between_parts]. rewrite drop_all, <-app_assoc. split_and!; [done..|].
    apply Hscan. rewrite Hend. constructor. intros i' n' (H1 & H2 & (H3 & _) & _). lia.
  - apply orb_false_elim in Eend as [_ E2]. bool_to_prop. apply Nat.ltb_lt in E2. pose proof (calm_first _ _ _ Hcalm) as Hc1.
    destruct (search_rest p Hnf Htx true t (pos + i + n) Q st f Ht ltac:(lia) Hpin Hr Hc1) as (r & [st1 f1] & E & Hpin1 & Hr1 & Hb1).
    pose proof (search_strict true _ _ _ _ Hc1 E) as Es. cbn [search snd] in *. rewrite (lbind_step _ _ _ _ _ Es) in Hcalm. rewrite (lbind_step _ _ _ _ _ E).
    destruct r as [[j len]|].
    + assert (Hj : exists k, len = Z.of_nat k) by (destruct Hb1 as (k & -> & _); eauto). destruct Hj as [k ->]. rewrite Nat2Z.id in *.
      destruct (IH (pos + i + n)%nat (acc ++ [take i (drop pos t)]) st1 f1 j k ltac:(lia) Hb1 Hpin1 Hr1 Hcalm) as (l & m & El & Hm & Hrm & Hs).
      exists (((pos + i)%nat, n) :: l), m. rewrite Epart, El, <-app_assoc. split_and!; [done..|by apply Hscan].
    + exists [((pos + i)%nat, n)], (st1, f1). rewrite Epart, <-app_assoc. split_and!; [done..|]. by apply Hscan, best_none.
Qed.

Lemma split_spec t st f :
  clean t -> anchored_ok p (st, f) -> calm (split_regexp strict t (st, f)) = true ->
  exists x m, split_regexp step t (st, f) = Ret x m /\ anchored_ok p m /\ exists l, scan p 1 t 0 true l /\ x = between_parts t 0 l.
Proof.
  intros Ht Hok Hcalm. unfold split_regexp in *. pose proof (calm_first _ _ _ Hcalm) as Hc1.
  destruct (search_first p Hnf Htx true t st f Ht Hok Hc1) as (r & m1 & E & Hpin1 & Hr1 & Hb & _).
  pose proof (search_strict true t _ _ _ Hc1 E) as Es. cbn [search] in E, Es. rewrite (lbind_step _ _ _ _ _ Es) in Hcalm. rewrite (lbind_step _ _ _ _ _ E).
  destruct r as [[i len]|].
  - unfold lbind at 1, get_fa in Hcalm. unfold lbind at 1, get_fa. set (i0 := initstat m1.2) in *. set (m2 := (m1.1, set_initstat 2 m1.2)).
    rewrite (lbind_step (modify_fa (set_initstat 2)) _ m1 tt m2 eq_refl) in Hcalm. rewrite (lbind_step (modify_fa (set_initstat 2)) _ m1 tt m2 eq_refl).
    apply calm_first in Hcalm. assert (Hk : exists k, len = Z.of_nat k) by (destruct Hb as (k & -> & _); eauto). destruct Hk as [k ->]. rewrite Nat2Z.id in *.
    pose proof (split_loop_spec t [(i0, init_set p)] (S (length t)) Ht 0%nat [] m2.1 m2.2 i k) as Hloop. rewrite drop_0 in Hloop.
    destruct Hloop as (l & m3 & E3 & Hm3 & Hr3 & Hs); [lia|done|exact (pinned_initstat _ _ 2 m1 Hpin1)|done|exact Hcalm|].
    rewrite (lbind_step _ _ m2 _ _ E3). eexists _, _. split; [reflexivity|]. split; [by apply restored|]. by exists l.
  - exists [t], m1. split; [done|]. split; [eapply pinned_anchored; [|exact Hpin1]; by apply list_elem_of_singleton|].
    exists []. split; [by apply best_none|]. cbn. by rewrite drop_0.
Qed.

Lemma fields_loop_spec t i0 fuel : clean t -> forall pos acc st f,
  (0 < pos <= length t)%nat -> (length t - pos < fuel)%nat -> pinned_ok p 2 [(i0, init_set p)] (st, f) -> reset f = false ->
  calm (fields_loop strict fuel (drop pos t) acc i0 (st, f)) = true ->
  exists l m, fields_loop step fuel (drop pos t) acc i0 (st, f) = Ret (acc ++ between_parts t pos l) m /\ anchored_ok p m /\ scan p 1 t pos true l.
Proof.
  intros Ht. induction fuel as [|fuel IH]; intros pos acc st f Hpos Hfuel Hpin Hr Hcalm; [lia|]. cbn [fields_loop] in *.
  pose proof (calm_first _ _ _ Hcalm) as Hc1. destruct (search_rest p Hnf Htx true t pos _ st f Ht Hpos Hpin Hr Hc1) as (r & m1 & E & Hpin1 & Hr1 & Hb).
  pose proof (search_strict true _ _ _ _ Hc1 E) as Es. cbn [search] in *. rewrite (lbind_step _ _ _ _ _ Es) in Hcalm. rewrite (lbind_step _ _ _ _ _ E).
  destruct r as [[i len]|].
  - assert (Hk : exists k, len = Z.of_nat k) by (destruct Hb as (k & -> & _); eauto). destruct Hk as [k ->]. rewrite Nat2Z.id in *.
    set (m2 := (m1.1, set_initstat 2 m1.2)) in *.
    rewrite (lbind_step (modify_fa (set_initstat 2)) _ m1 tt m2 eq_refl) in Hcalm. rewrite (lbind_step (modify_fa (set_initstat 2)) _ m1 tt m2 eq_refl).
    pose proof (best_scan t pos i k) as Hscan. specialize (fun l => Hscan l Hb). destruct Hb as (k' & Hk & Hlo & (Hle & _) & _). assert (k' = k) as -> by lia.
    rewrite drop_drop, Nat.add_assoc in *.
    destruct (IH (pos + i + k)%nat (acc ++ [take i (drop pos t)]) m2.1 m2.2) as (l & m & El & Hm & Hs);
      [cbn [least] in *; lia|cbn [least] in *; lia|exact (pinned_initstat _ _ 2 m1 Hpin1)|done|exact Hcalm|].
    exists (((pos + i)%nat, k) :: l), m. split_and!; [|done|by apply Hscan]. etrans; [exact El|]. cbn [between_parts].
    replace (pos + i - pos)%nat with i by lia. by rewrite <-app_assoc.
  - exists [], (m1.1, set_initstat i0 m1.2). split_and!; [done|by apply restored|by apply best_none].
Qed.

(** The fields of a record, if the table has not been emptied before. *)
Lemma refldbld_spec t st f :
  clean t -> anchored_ok p (st, f) -> reset f = false -> calm (refldbld_with strict t (st, f)) = true ->
  exists x m, refldbld_with step t (st, f) = Ret x m /\ anchored_ok p m /\ exists l, scan p 1 t 0 true l /\ x = between_parts t 0 l.
Proof.
  intros Ht Hok Hr Hcalm. unfold refldbld_with in *. unfold lbind at 1, get_fa in Hcalm. unfold lbind at 1, get_fa. cbn [snd fields_loop] in *.
  pose proof (calm_first _ _ _ Hcalm) as Hc1. destruct (search_first p Hnf Htx true t st f Ht Hok Hc1) as (r & m1 & E & Hpin1 & Hr1 & Hb & Hi).
  pose proof (search_strict true t _ _ _ Hc1 E) as Es. cbn [search] in E, Es. rewrite (lbind_step _ _ _ _ _ Es) in Hcalm. rewrite (lbind_step _ _ _ _ _ E).
  specialize (Hi Hr). rewrite Hi in Hpin1. destruct r as [[i len]|].
  - assert (Hk : exists k, len = Z.of_nat k) by (destruct Hb as (k & -> & _); eauto). destruct Hk as [k ->]. rewrite Nat2Z.id in *.
    set (m2 := (m1.1, set_initstat 2 m1.2)) in *.
    rewrite (lbind_step (modify_fa (set_initstat 2)) _ m1 tt m2 eq_refl) in Hcalm. rewrite (lbind_step (modify_fa (set_initstat 2)) _ m1 tt m2 eq_refl).
    pose proof (best_scan t 0 i k) as Hscan. specialize (fun l => Hscan l Hb). destruct Hb as (k' & Hk & Hlo & (Hle & _) & _). assert (k' = k) as -> by lia.
    destruct (fields_loop_spec t (initstat f) (length t) Ht (i + k)%nat [take i t] m2.1 m2.2) as (l & m & El & Hm & Hs);
      [cbn [least] in *; lia|cbn [least] in *; lia|exact (pinned_initstat _ _ 2 m1 Hpin1)|done|exact Hcalm|].
    eexists _, m. split; [exact El|]. split; [done|]. exists ((i, k) :: l). split; [by apply Hscan|]. cbn [between_parts app]. by rewrite Nat.sub_0_r, drop_0.
  - eexists _, _. split; [reflexivity|]. split; [|exists []; split; [by apply best_none|cbn; by rewrite drop_0]].
    eapply pinned_anchored; [|exact (pinned_initstat _ _ (initstat f) m1 Hpin1)]. by apply list_elem_of_singleton.
Qed.
End Functions.

(** ** Splitting at characters *)

(** The texts between the characters that satisfy a test. *)
Fixpoint split_on (stop : ascii -> bool) (s : cstr) : list cstr :=
  match s with
  | [] => [[]]
  | c :: s => if stop c then [] :: split_on stop s
              else match split_on stop s with w :: l => (c :: w) :: l | [] => [[c]] end
  end.

Lemma split_on_upto stop s :
  split_on stop s = (upto stop s).1 :: match (upto stop s).2 with [] => [] | _ :: r => split_on stop r end.
Proof.
  induction s as [|c s IH]; [done|]. cbn [split_on upto]. destruct (stop c); [done|]. rewrite IH. by destruct (upto stop s) as [w [|d r]].
Qed.

Lemma upto_length stop s : (length (upto stop s).2 <= length s)%nat.
Proof. induction s as [|c s IH]; [done|]. cbn [upto]. destruct (stop c); [done|]. destruct (upto stop s). cbn in *. lia. Qed.

Lemma split_char_spec fuel sep s :
  (length s < fuel)%nat -> split_char fuel sep s = split_on (fun c => bool_decide (c = sep) || bool_decide (c = "010"%char)) s.
Proof.
  revert s. induction fuel as [|fuel IH]; intros s Hs; [lia|]. rewrite split_on_upto. cbn [split_char]. set (stop := fun c => _).
  pose proof (upto_length stop s) as Hl. destruct (upto stop s) as [w [|d r]]; [done|]. cbn in Hl |- *. f_equal. apply IH. lia.
Qed.

Definition not_empty (w : cstr) : Prop := w <> [].

Lemma split_words_skip s : base.filter not_empty (split_on is_sep s) = base.filter not_empty (split_on is_sep (upto (fun c => negb (is_sep c)) s).2).
Proof.
  induction s as [|c s IH]; [done|]. cbn [upto]. destruct (is_sep c) eqn:E; cbn [negb].
  - destruct (upto _ s) as [w r]. cbn [snd] in *. cbn [split_on]. rewrite E. by rewrite filter_cons_False by (by intros []).
  - done.
Qed.

Lemma upto_stop stop s c r : (upto stop s).2 = c :: r -> stop c = true.
Proof. induction s as [|d s IH]; cbn [upto]; [done|]. destruct (stop d) eqn:E; [by intros [= <- _]|]. by destruct (upto stop s). Qed.

Lemma split_words_spec fuel s : (length s < fuel)%nat -> split_words fuel s = base.filter not_empty (split_on is_sep s).
Proof.
  revert s. induction fuel as [|fuel IH]; intros s Hs; [lia|]. cbn [split_words]. rewrite split_words_skip.
  pose proof (upto_length (fun c => negb (is_sep c)) s) as Hl. pose proof (upto_stop (fun c => negb (is_sep c)) s) as Hst.
  destruct (upto _ s).2 as [|c r]; [done|]. specialize (Hst c r eq_refl). apply negb_true_iff in Hst. cbn in Hl.
  rewrite split_on_upto. cbn [upto]. rewrite Hst. pose proof (upto_length is_sep r) as Hl2. destruct (upto is_sep r) as [w r2]. cbn [fst snd] in *.
  rewrite filter_cons_True by done. f_equal. destruct r2 as [|d r2]; [by destruct fuel|]. apply IH. cbn in Hl2. lia.
Qed.

(** ** Sequences of edits *)

(** [sub] and [gsub] of the pattern [r] by [y] in the text [t], and [split] of [t] by
    [fs]. *)
Inductive edit := Sub (r y t : cstr) | Gsub (r y t : cstr) | Split (t fs : cstr).

(** The new text, if it changes, and the number that is returned; or the elements. *)
Inductive edited := Text (x : option cstr) (num : Z) | Elements (l : list cstr).

(** The pattern goes through the cache; the arguments have been evaluated. *)
Definition apply_edit (goto : nat -> Z -> M machine nat) (e : edit) : M awk edited :=
  match e with
  | Sub r y t =>
      let* pfa := makedfa r true in
      let* x := on_fa pfa (sub_with goto t y) in
      lret (Text x (match x with Some _ => 1 | None => 0 end))
  | Gsub r y t =>
      let* pfa := makedfa r true in
      let* x := on_fa pfa (gsub_with goto t y) in
      lret (Text x.1 x.2)
  | Split t fs => let* l := split_with goto t fs in lret (Elements l)
  end.

Definition edit_ok (e : edit) : Prop :=
  match e with
  | Sub r _ t | Gsub r _ t => pattern_ok r /\ clean t
  | Split t fs => clean t /\ ((1 < length fs)%nat -> pattern_ok fs)
  end.

(** The result is right: [sub] replaces the longest of the leftmost matches, [gsub]
    all that a scan finds, and [split] gives the texts in between, the words, the
    characters, or what a character separates. *)
Definition edit_right (e : edit) (x : edited) : Prop :=
  match e with
  | Sub r y t => exists p lst b, reparse r = Ret p lst /\ best p 0 t 0 b /\
      x = match b with Some (i, len) => Text (Some (render y t 0 [(i, Z.to_nat len)])) 1 | None => Text None 0 end
  | Gsub r y t => exists p lst l, reparse r = Ret p lst /\ scan p 0 t 0 true l /\
      x = Text (match l with [] => None | _ => Some (render y t 0 l) end) (Z.of_nat (length l))
  | Split [] fs => x = Elements []
  | Split t fs =>
      if (1 <? length fs)%nat then exists p lst l, reparse fs = Ret p lst /\ scan p 1 t 0 true l /\ x = Elements (between_parts t 0 l)
      else match fs with
           | [] => x = Elements (map (fun c => [c]) t)
           | sep :: _ =>
               if bool_decide (sep = " "%char) then x = Elements (base.filter not_empty (split_on is_sep t))
               else x = Elements (split_on (fun c => bool_decide (c = sep) || bool_decide (c = "010"%char)) t)
           end
  end.

Lemma nematch_keeping t : keeping stable (nematch t).
Proof.
  assert (Hl : forall q s i n, keeping stable (nematch_loop step s q i n)) by (induction q as [|c q IH]; intros s i n; cbn [nematch_loop]; keep).
  unfold nematch, nematch_with, first_state. keep.
Qed.

(** The searches in the form in which the functions call them. *)
Lemma search_keeping ne t : keeping stable (search step ne t).
Proof. destruct ne; [apply nematch_keeping|apply pmatch_keeping]. Qed.

Lemma sub_keeping t y : keeping stable (sub_with step t y).
Proof. pose proof (search_keeping false) as Hp. cbn [search] in Hp. unfold sub_with. keep. Qed.

Lemma gsub_keeping t y : keeping stable (gsub_with step t y).
Proof.
  pose proof (search_keeping false) as Hp. cbn [search] in Hp.
  assert (Hl : forall fuel t pb mflag num i n, keeping stable (gsub_loop step fuel t y pb mflag num i n)).
  { induction fuel as [|fuel IH]; intros t' pb mflag num i n; cbn [gsub_loop]; keep. }
  unfold gsub_with. keep.
Qed.

Lemma split_keeping t : keeping stable (split_regexp step t).
Proof.
  pose proof (search_keeping true) as Hp. cbn [search] in Hp.
  assert (Hl : forall fuel s acc i n, keeping stable (split_loop step fuel s acc i n)).
  { induction fuel as [|fuel IH]; intros s acc i n; cbn [split_loop]; keep. }
  unfold split_regexp. keep.
Qed.

Lemma sub_refines t y : refines (sub_with strict t y) (sub_with step t y).
Proof. apply refines_bind; [apply (search_refines false)|done]. Qed.

Lemma gsub_refines t y : refines (gsub_with strict t y) (gsub_with step t y).
Proof.
  assert (Hl : forall fuel t pb mflag num i n, refines (gsub_loop strict fuel t y pb mflag num i n) (gsub_loop step fuel t y pb mflag num i n)).
  { induction fuel as [|fuel IH]; intros t' pb mflag num i n; cbn [gsub_loop]; [done|].
    assert (Ha : forall t' pb mflag num, refines (gsub_again y strict fuel t' pb mflag num) (gsub_again y step fuel t' pb mflag num)).
    { intros t1 pb1 mf1 num1. apply refines_bind; [apply (search_refines false)|]. intros [[j len]|]; [apply IH|done]. }
    apply refines_if; [|apply refines_if; [done|apply Ha]]. destruct t'; [done|apply Ha]. }
  apply refines_bind; [apply (search_refines false)|]. intros [[i len]|]; [|done]. apply refines_bind; [done|]. intros f. apply refines_bind; [done|].
  intros _. apply refines_bind; [apply Hl|done].
Qed.

Lemma split_refines t : refines (split_regexp strict t) (split_regexp step t).
Proof.
  assert (Hl : forall fuel s acc i n, refines (split_loop strict fuel s acc i n) (split_loop step fuel s acc i n)).
  { induction fuel as [|fuel IH]; intros s acc i n; cbn [split_loop]; [done|]. apply refines_if; [done|].
    apply refines_bind; [apply (search_refines true)|]. intros [[j len]|]; [apply IH|done]. }
  apply refines_bind; [apply (search_refines true)|]. intros [[i len]|]; [|done]. apply refines_bind; [done|]. intros f. apply refines_bind; [done|].
  intros _. apply refines_bind; [apply Hl|done].
Qed.

Lemma apply_edit_refines e : refines (apply_edit strict e) (apply_edit step e).
Proof.
  destruct e as [r y t|r y t|t fs]; cbn [apply_edit].
  - apply refines_bind; [done|]. intros pfa. apply refines_bind; [apply on_fa_refines, sub_refines|done].
  - apply refines_bind; [done|]. intros pfa. apply refines_bind; [apply on_fa_refines, gsub_refines|done].
  - apply refines_bind; [|done]. unfold split_with. apply refines_if; [|done]. apply refines_bind; [done|]. intros pfa. apply on_fa_refines, split_refines.
Qed.

(** A function on the automaton of a pattern that is made or found. *)
Lemma through_cache {A} (guard call : M machine A) (Q : node -> A -> Prop) k r st :
  pattern_ok r -> runs [] [] (S k) st -> keeping stable call ->
  (forall p w f, no_final p = true -> texts p = true -> anchored_ok p (w, f) -> calm (guard (w, f)) = true ->
     exists x m, call (w, f) = Ret x m /\ anchored_ok p m /\ Q p x) ->
  calm ((let* pfa := makedfa r true in on_fa pfa guard) st) = true ->
  exists x st', (let* pfa := makedfa r true in on_fa pfa call) st = Ret x st' /\ runs [] [] k st' /\
    exists p lst, reparse r = Ret p lst /\ Q p x.
Proof.
  intros Hp ([es Hok] & Hct & _ & Hnow) Hkeep Hcall Hcalm.
  destruct (makedfa_spec st es r true Hok Hp Hct ltac:(lia)) as (id & st1 & E1 & ((f & Hf & Hk) & Hct1 & Hok1 & Hn1) & _).
  destruct Hp as (p & lst & Hp & _). destruct (reparse_proper _ _ _ Hp) as [Hnf Htx]. injection Hk as Hk1 Hk2.
  rewrite (lbind_step _ _ _ _ _ E1) in Hcalm. rewrite (lbind_step _ _ _ _ _ E1).
  destruct (on_fa_search guard call (Q p) st1 _ id f Hok1 Hf Hkeep) as (x & m & E & H1 & _ & H3); [|done|].
  - intros w (p' & lst' & Hp' & Ha) Hc. rewrite Hk1, Hp in Hp'. injection Hp' as <- <-. rewrite Hk2 in Ha.
    destruct (Hcall p w f Hnf Htx Ha Hc) as (x & m & E & Hm & HQ). exists x, m. split_and!; [done| |done].
    intros Hkm. injection Hkm as G1 G2. exists p, lst. rewrite G1, G2, Hk1, Hk2. by destruct m.
  - exists x, (put st1 id m). split; [done|]. split; [|by exists p, lst]. split_and!; [by eexists|cbn; congruence|constructor|]. cbn. lia.
Qed.

Lemma lbind_assoc {S A B C} (c : M S A) (k : A -> M S B) (k' : B -> M S C) s :
  lbind c (fun x => lbind (k x) k') s = lbind (lbind c k) k' s.
Proof. unfold lbind. by destruct (c s). Qed.

Lemma split_short goto t fs st : ((1 < length fs)%nat -> t = []) ->
  exists l, split_with goto t fs st = Ret l st /\ edit_right (Split t fs) (Elements l).
Proof.
  intros Hfs. unfold split_with. assert (Eb : present t 0 && (1 <? length fs)%nat = false).
  { destruct (Nat.ltb_spec 1 (length fs)) as [Hl|]; [by rewrite (Hfs Hl)|apply andb_false_r]. }
  rewrite Eb. destruct t as [|c t].
  - exists []. split; [|done]. destruct fs as [|sep fs]; [done|]. by destruct sep as [[] [] [] [] [] [] [] []].
  - destruct (Nat.ltb_spec 1 (length fs)) as [Hl|Hl]; [by specialize (Hfs Hl)|]. cbn [edit_right]. rewrite (proj2 (Nat.ltb_ge _ _) Hl).
    destruct fs as [|sep fs]; [by eexists|]. destruct (decide (sep = " "%char)) as [->|Hne].
    + eexists. split; [done|]. rewrite bool_decide_eq_true_2 by done. f_equal. apply split_words_spec. lia.
    + rewrite bool_decide_eq_false_2 by done. exists (split_char (S (length (c :: t))) sep (c :: t)).
      split; [|f_equal; apply split_char_spec; lia]. destruct sep as [[] [] [] [] [] [] [] []]; try done.
Qed.

Lemma apply_edit_spec k e st :
  edit_ok e -> runs [] [] (S k) st -> calm (apply_edit strict e st) = true ->
  exists x st', apply_edit step e st = Ret x st' /\ runs [] [] k st' /\ edit_right e x.
Proof.
  intros He Hst Hcalm. destruct e as [r y t|r y t|t fs]; cbn [apply_edit edit_ok edit_right] in *.
  - destruct He as [Hp Ht]. rewrite lbind_assoc in Hcalm. setoid_rewrite lbind_assoc. apply calm_first in Hcalm.
    destruct (through_cache _ _ _ k r st Hp Hst (sub_keeping t y) (fun p w f H1 H2 => sub_spec p H1 H2 t y w f Ht) Hcalm)
      as (x & st' & E & Hst' & p & lst & Hpl & b & Hb & ->).
    rewrite (lbind_step _ _ _ _ _ E). eexists _, st'. split; [reflexivity|]. split; [done|]. exists p, lst, b. split_and!; [done..|]. by destruct b as [[]|].
  - destruct He as [Hp Ht]. rewrite lbind_assoc in Hcalm. setoid_rewrite lbind_assoc. apply calm_first in Hcalm.
    destruct (through_cache _ _ _ k r st Hp Hst (gsub_keeping t y) (fun p w f H1 H2 => gsub_spec p H1 H2 t y w f Ht) Hcalm)
      as (x & st' & E & Hst' & p & lst & Hpl & l & Hl & ->).
    rewrite (lbind_step _ _ _ _ _ E). eexists _, st'. split; [reflexivity|]. split; [done|]. by exists p, lst, l.
  - destruct He as [Ht Hp]. apply calm_first in Hcalm. destruct (decide ((1 < length fs)%nat /\ t <> [])) as [[Hl Hne]|Hsh].
    + unfold split_with in *. destruct t as [|c t]; [done|]. cbn [present lookup list_lookup] in *. rewrite (proj2 (Nat.ltb_lt _ _) Hl) in *. cbn [andb] in *.
      destruct (through_cache _ _ _ k fs st (Hp Hl) Hst (split_keeping (c :: t)) (fun p w f H1 H2 => split_spec p H1 H2 (c :: t) w f Ht) Hcalm)
        as (x & st' & E & Hst' & p & lst & Hpl & l & Hl' & ->).
      rewrite (lbind_step _ _ _ _ _ E). eexists _, st'. split; [reflexivity|]. split; [done|]. by exists p, lst, l.
    + destruct (split_short step t fs st) as (l & E & Hr); [intros Hl; destruct t; [done|exfalso; apply Hsh; done]|].
      rewrite (lbind_step _ _ _ _ _ E). exists (Elements l), st. split_and!; [done| |done].
      destruct Hst as (H1 & H2 & H3 & H4). split_and!; [done..|lia].
Qed.


(** ** Examples *)

(** The results of a run, [[]] for one that does not end well. *)
Definition results_of (o : outcome awk (list edited)) : list edited := match o with Ret xs _ => xs | _ => [] end.

Definition sample_edits : list edit := [
  Gsub (str "a*") (str "-") (str "baac");
  Sub (str "^b|c") (str "[&]") (str "bcb");
  Gsub (str "^b") (str "x") (str "bbb");
  Gsub (str "b|$") (str "<\\&\&>") (str "abcb");
  Split (str "a1b22c") (str "[0-9]+");
  Split (str " ab  c ") (str " ");
  Split (str "a:b") (str ":")].


(** The replacement of the comments in [backsub]. *)
Example backsub_cases :
  expand (str "\\\&") (str "m") = str "\&" /\ expand (str "\\&") (str "m") = str "\m" /\
  expand (str "\\x") (str "m") = str "\\x" /\ expand (str "\&") (str "m") = str "&" /\ expand (str "\x&") (str "m") = str "\xm".
Proof. done. Qed.

(** ** Defects *)

Definition many_states : cstr := separated (str "|") (str "^Q" :: map (fun s => s ++ str "1") initials).

(** When the table is emptied in a search of [gsub], the next search makes the
    initial state again and begins in it, in the middle of the text: "^Q" is replaced
    at the end of the text.  The search has also set the initial state to 2, which
    [gsub] saves and puts back: then "^Q" is not found at the beginning of a text
    any more. *)
Example gsub_after_full_table :
  results_of (each (apply_edit step) [
      Gsub many_states (str "-") (str "QQ");
      Gsub many_states (str "-") (mjoin initials ++ str "a1Q");
      Gsub many_states (str "-") (str "QQ")] running) =
    [Text (Some (str "-Q")) 1; Text (Some (mjoin initials ++ str "--")) 2; Text None 0].
Proof. vm_compute. reflexivity. Qed.
