(* ===== verification/StdMap.v ===== *)
(** * Ordered maps with strings as keys ([std::map<std::string, V>])

    The operations of the standard library that the host tools use: [find], [operator[]]
    as an assignment, [erase] and the iteration in the order of the keys.  A map is the
    list of its entries, with the keys in increasing order. *)

From S2P Require Import Prelude.
From Stdlib Require Import Sorted.
Open Scope Z_scope.
Open Scope ndk_scope.

(** The order of strings: characters are compared as unsigned. *)
Fixpoint compare (a b : cstr) : comparison :=
  match a, b with
  | [], [] => Eq
  | [], _ => Lt
  | _, [] => Gt
  | x :: a, y :: b => match zc x ?= zc y with Eq => compare a b | r => r end
  end.

Definition before (a b : cstr) : Prop := compare a b = Lt.

Section Map.
Context {V : Type}.

Abbreviation smap := (list (cstr * V)).

Fixpoint find (k : cstr) (m : smap) : option V :=
  match m with
  | [] => None
  | (k', v) :: m => if bool_decide (k = k') then Some v else find k m
  end.

Fixpoint set (k : cstr) (v : V) (m : smap) : smap :=
  match m with
  | [] => [(k, v)]
  | (k', v') :: m =>
      match compare k k' with
      | Lt => (k, v) :: (k', v') :: m
      | Eq => (k, v) :: m
      | Gt => (k', v') :: set k v m
      end
  end.

Fixpoint erase (k : cstr) (m : smap) : smap :=
  match m with
  | [] => []
  | (k', v) :: m => if bool_decide (k = k') then m else (k', v) :: erase k m
  end.

Definition keys (m : smap) : list cstr := map fst m.

(** The keys increase. *)
Definition ordered (m : smap) : Prop := StronglySorted before (keys m).
End Map.
Arguments keys {V} m.
Arguments ordered {V} m.

(** ** The order *)

Lemma compare_eq a b : compare a b = Eq <-> a = b.
Proof.
  revert b. induction a as [|x a IH]; intros [|y b]; cbn; [done..|]. destruct (Z.compare_spec (zc x) (zc y)) as [E|E|E].
  - apply zc_inj in E as ->. rewrite IH. split; [by intros ->|by intros [= ->]].
  - split; [done|]. intros [= -> _]. lia.
  - split; [done|]. intros [= -> _]. lia.
Qed.

Lemma compare_refl a : compare a a = Eq.
Proof. by apply compare_eq. Qed.

Lemma compare_antisym a b : compare b a = CompOpp (compare a b).
Proof.
  revert b. induction a as [|x a IH]; intros [|y b]; cbn; [done..|]. rewrite (Z.compare_antisym (zc x) (zc y)).
  destruct (zc x ?= zc y); cbn; [apply IH|done|done].
Qed.

Lemma compare_trans a b d : compare a b = Lt -> compare b d = Lt -> compare a d = Lt.
Proof.
  revert b d. induction a as [|x a IH]; intros [|y b] [|z d]; cbn; try done.
  destruct (Z.compare_spec (zc x) (zc y)), (Z.compare_spec (zc y) (zc z)), (Z.compare_spec (zc x) (zc z)); try done; try lia. apply IH.
Qed.

Lemma before_neq a b : before a b -> a <> b.
Proof. unfold before. intros H ->. by rewrite compare_refl in H. Qed.

(** ** The operations *)

Section Laws.
Context {V : Type}.
Implicit Types (m : list (cstr * V)).

Lemma find_set k k' v m : find k' (set k v m) = if bool_decide (k' = k) then Some v else find k' m.
Proof.
  induction m as [|[j w] m IH]; [done|]. cbn. destruct (compare k j) eqn:E; cbn.
  - apply compare_eq in E as ->. by case_bool_decide.
  - by case_bool_decide.
  - rewrite IH. repeat case_bool_decide; try done. subst. by rewrite compare_refl in E.
Qed.

Lemma find_keys k m : k ∈ keys m <-> find k m <> None.
Proof.
  induction m as [|[j w] m IH]; cbn; [by rewrite elem_of_nil|]. rewrite elem_of_cons. case_bool_decide; [naive_solver|]. rewrite IH. naive_solver.
Qed.

Lemma find_fresh k m : k ∉ keys m -> find k m = None.
Proof. rewrite find_keys. destruct (find k m); [|done]. intros H. by destruct H. Qed.

Lemma keys_set k v m k' : k' ∈ keys (set k v m) <-> k' = k \/ k' ∈ keys m.
Proof. rewrite !find_keys, find_set. case_bool_decide; naive_solver. Qed.

Lemma ordered_cons k v m : ordered ((k, v) :: m) <-> ordered m /\ forall k', k' ∈ keys m -> before k k'.
Proof.
  unfold ordered. cbn. split.
  - intros H. apply StronglySorted_inv in H as [H1 H2]. split; [done|]. exact (proj1 (list.Forall_forall _ _) H2).
  - intros [H1 H2]. constructor; [done|]. exact (proj2 (list.Forall_forall _ _) H2).
Qed.

Lemma ordered_NoDup m : ordered m -> base.NoDup (keys m).
Proof.
  induction m as [|[k v] m IH]; [by constructor|]. intros [H1 H2]%ordered_cons. cbn. apply list.NoDup_cons. split; [|by apply IH].
  intros Hk. by apply (before_neq k k); [apply H2|].
Qed.

Lemma ordered_set k v m : ordered m -> ordered (set k v m).
Proof.
  induction m as [|[j w] m IH]; intros Hm; cbn.
  - apply ordered_cons. split; [done|]. by intros k' Hk%elem_of_nil.
  - destruct (compare k j) eqn:E.
    + apply compare_eq in E as ->. apply ordered_cons. by apply ordered_cons in Hm.
    + apply ordered_cons. split; [done|]. intros k' Hk. apply elem_of_cons in Hk as [->|Hk]; [done|].
      apply ordered_cons in Hm as [_ Hm]. eapply compare_trans; [done|by apply Hm].
    + apply ordered_cons in Hm as [Hm Hj]. apply ordered_cons. split; [by apply IH|]. intros k' [->|Hk]%keys_set; [|by apply Hj].
      unfold before. rewrite compare_antisym, E. done.
Qed.

Lemma keys_erase_sub k m k' : k' ∈ keys (erase k m) -> k' ∈ keys m.
Proof. induction m as [|[j w] m IH]; [done|]. cbn. case_bool_decide; cbn; rewrite !elem_of_cons; naive_solver. Qed.

Lemma ordered_erase k m : ordered m -> ordered (erase k m).
Proof.
  induction m as [|[j w] m IH]; [done|]. intros [H1 H2]%ordered_cons. cbn. case_bool_decide; [done|]. apply ordered_cons. split; [by apply IH|].
  intros k' Hk. by apply H2, (keys_erase_sub k).
Qed.

Lemma find_erase k k' m : ordered m -> find k' (erase k m) = if bool_decide (k' = k) then None else find k' m.
Proof.
  induction m as [|[j w] m IH]; intros Hm; cbn; [by case_bool_decide|]. pose proof (ordered_NoDup _ Hm) as Hn. apply list.NoDup_cons in Hn as [Hj _]. change (j ∉ keys m) in Hj.
  apply ordered_cons in Hm as [Hm _]. specialize (IH Hm). destruct (bool_decide_reflect (k = j)) as [->|].
  - case_bool_decide; [|done]. subst k'. by apply find_fresh.
  - cbn. rewrite IH. repeat case_bool_decide; naive_solver.
Qed.

Lemma keys_erase k m k' : ordered m -> k' ∈ keys (erase k m) <-> k' <> k /\ k' ∈ keys m.
Proof. intros Hm. rewrite !find_keys, find_erase by done. case_bool_decide; naive_solver. Qed.

Lemma find_elem k v m : ordered m -> find k m = Some v <-> (k, v) ∈ m.
Proof.
  induction m as [|[j w] m IH]; intros Hm; cbn; [split; [done|by intros H%elem_of_nil]|]. pose proof (ordered_NoDup _ Hm) as Hn. apply list.NoDup_cons in Hn as [Hj _]. change (j ∉ keys m) in Hj.
  apply ordered_cons in Hm as [Hm _]. rewrite elem_of_cons. case_bool_decide as E.
  - subst. split; [naive_solver|]. intros [?|H]; [naive_solver|]. exfalso. apply Hj. apply (list_elem_of_fmap_2 fst) in H. done.
  - rewrite (IH Hm). naive_solver.
Qed.
End Laws.
