(* ===== verification/DependsElf.v ===== *)
(** * ndk-depends: reading ELF files ([ndk-depends.cc])

    The tool prints the libraries that an ELF file needs.  This file models the part
    that reads a file: the readers for both byte orders, [ElfParser] and
    [DynamicIterator] for both classes of files, and [ElfFile].  A file is the list of
    its bytes; [fseek] and [fread] succeed within it.  The host has 64 bits: [off_t]
    and [size_t] have this width.

    The theorems show that reading ends on every file, and that the names in the
    dynamic section of a file are read back, for both classes and byte orders. *)

From S2P Require Import Prelude Util.
Open Scope Z_scope.
Open Scope ndk_scope.

(** ** Numbers in files *)

(** The byte at an index of a buffer. *)
Definition buf_byte (bytes : cstr) (i : nat) : Z := match bytes !! i with Some c => zc c | None => 0 end.

Definition get_u16_le (bytes : cstr) : Z := wrap 16 (Z.lor (buf_byte bytes 0) (Z.shiftl (buf_byte bytes 1) 8)).

Definition get_u32_le (bytes : cstr) : Z :=
  wrap 32 (Z.lor (Z.lor (Z.lor (buf_byte bytes 0) (Z.shiftl (buf_byte bytes 1) 8)) (Z.shiftl (buf_byte bytes 2) 16)) (Z.shiftl (buf_byte bytes 3) 24)).

Definition get_u64_le (bytes : cstr) : Z :=
  let lo := get_u32_le bytes in
  let hi := get_u32_le (drop 4 bytes) in
  Z.lor lo (wrap 64 (Z.shiftl hi 32)).

Definition get_u16_be (bytes : cstr) : Z := wrap 16 (Z.lor (Z.shiftl (buf_byte bytes 0) 8) (buf_byte bytes 1)).

Definition get_u32_be (bytes : cstr) : Z :=
  wrap 32 (Z.lor (Z.lor (Z.lor (Z.shiftl (buf_byte bytes 0) 24) (Z.shiftl (buf_byte bytes 1) 16)) (Z.shiftl (buf_byte bytes 2) 8)) (buf_byte bytes 3)).

Definition get_u64_be (bytes : cstr) : Z :=
  let hi := get_u32_be bytes in
  let lo := get_u32_be (drop 4 bytes) in
  Z.lor lo (wrap 64 (Z.shiftl hi 32)).

(** ** Classes of files *)

Inductive elf := Elf32 | Elf64.

(** The width of [Off] and [Addr]. *)
Definition off_bits (c : elf) : Z := match c with Elf32 => 32 | Elf64 => 64 end.

(** The offsets of the members that are read, and the size of [Shdr]. *)
Definition e_shoff (c : elf) : Z := match c with Elf32 => 32 | Elf64 => 40 end.
Definition e_shentsize (c : elf) : Z := match c with Elf32 => 46 | Elf64 => 58 end.
Definition e_shnum (c : elf) : Z := match c with Elf32 => 48 | Elf64 => 60 end.
Definition sh_type : Z := 4.
Definition sh_offset (c : elf) : Z := match c with Elf32 => 16 | Elf64 => 24 end.
Definition sh_size (c : elf) : Z := match c with Elf32 => 20 | Elf64 => 32 end.
Definition sh_link (c : elf) : Z := match c with Elf32 => 24 | Elf64 => 40 end.
Definition sizeof_Shdr (c : elf) : Z := match c with Elf32 => 40 | Elf64 => 64 end.

Definition SHT_DYNAMIC : Z := 6.
Definition DT_NEEDED : Z := 1.
Definition DT_SONAME : Z := 14.

(** The conversion of an offset to [off_t]. *)
Definition off_t (x : Z) : Z := swrap 64 x.

Section Reader.
Context (file : cstr) (big_endian : bool) (c : elf).

(** ** The reader *)

Definition kMaxBytes : Z := 32.

Definition GetBytesAt (pos size : Z) : option cstr :=
  if (size <? kMaxBytes) && (0 <=? pos) && (pos + size <=? Z.of_nat (length file))
  then Some (take (Z.to_nat size) (drop (Z.to_nat pos) file))
  else None.

Definition GetU16At (pos : Z) : Z :=
  match GetBytesAt pos 2 with Some buf => if big_endian then get_u16_be buf else get_u16_le buf | None => 0 end.

Definition GetU32At (pos : Z) : Z :=
  match GetBytesAt pos 4 with Some buf => if big_endian then get_u32_be buf else get_u32_le buf | None => 0 end.

Definition GetU64At (pos : Z) : Z :=
  match GetBytesAt pos 8 with Some buf => if big_endian then get_u64_be buf else get_u64_le buf | None => 0 end.

(** ** [ElfParser] *)

Definition GetWordAt (pos : Z) : Z := GetU32At pos.

Definition GetHalfAt (pos : Z) : Z := GetU16At pos.

Definition GetAddrAt (pos : Z) : Z := match c with Elf32 => GetU32At pos | Elf64 => GetU64At pos end.

Definition GetOffAt (pos : Z) : Z := GetAddrAt pos.

(** The sum of an offset and of an [offsetof], which has the type [size_t]. *)
Definition shdr_member (o k : Z) : Z := off_t (wrap 64 (o + k)).

Record SectionIterator := { table_offset : Z; table_count : Z; table_entry_size : Z }.

Definition sections : SectionIterator :=
  let count := GetHalfAt (e_shnum c) in
  let entry := GetHalfAt (e_shentsize c) in
  {| table_offset := GetOffAt (e_shoff c);
     table_count := if entry <? sizeof_Shdr c then 0 else count;
     table_entry_size := entry |}.

Definition advance (it : SectionIterator) : SectionIterator :=
  {| table_offset := wrap (off_bits c) (table_offset it + table_entry_size it);
     table_count := table_count it - 1;
     table_entry_size := table_entry_size it |}.

Definition NextOffset (it : SectionIterator) : Z * SectionIterator :=
  if table_count it =? 0 then (0, it) else (table_offset it, advance it).

(** At most [k] entries are skipped. *)
Fixpoint skip_entries (k : nat) (it : SectionIterator) : SectionIterator :=
  match k with
  | O => it
  | S k => if 0 <? table_count it then skip_entries k (advance it) else it
  end.

(** [Skip]: the number of the entries that are left bounds the loop. *)
Definition Skip (count : Z) (it : SectionIterator) : SectionIterator :=
  skip_entries (Z.to_nat (Z.min count (table_count it))) it.

(** One round of the search for a section of a type, in the two functions below. *)
Definition type_round (type : Z) (it : SectionIterator) : option Z + SectionIterator :=
  let '(o, it) := NextOffset it in
  if o =? 0 then inl None
  else if GetWordAt (shdr_member o sh_type) =? type then inl (Some o)
  else inr it.

(** The entry of the first section of a type.  A table has less than [2 ^ 16]
    entries. *)
Definition find_type (type : Z) : option Z :=
  match loop 16 (type_round type) sections with inl r => r | inr _ => None end.

(** The offset and the size, which is 0 if no section is found. *)
Definition GetSectionOffsetByType (type : Z) : Z * Z :=
  match find_type type with
  | Some o => (GetOffAt (shdr_member o (sh_offset c)), GetOffAt (shdr_member o (sh_size c)))
  | None => (0, 0)
  end.

(** The result is an [int]. *)
Definition GetDynamicStringTableIndex : Z :=
  match find_type SHT_DYNAMIC with
  | Some o => swrap 32 (GetWordAt (shdr_member o (sh_link c)))
  | None => 0
  end.

Definition GetSectionOffsetByIndex (sec_index : Z) : Z * Z :=
  let '(o, _) := NextOffset (Skip sec_index sections) in
  if o =? 0 then (0, 0) else (GetOffAt (shdr_member o (sh_offset c)), GetOffAt (shdr_member o (sh_size c))).

(** One round of the loop over the characters of a string, at [str_table] with
    [str_table_size] bytes left. *)
Definition string_round (st : Z * Z * cstr) : cstr + Z * Z * cstr :=
  let '(str_table, str_table_size, result) := st in
  if 0 <? str_table_size then
    match GetBytesAt (off_t str_table) 1 with
    | Some (x :: _) =>
        if zc x =? 0 then inl result
        else inr (wrap (off_bits c) (str_table + 1), str_table_size - 1, result ++ [x])
    | _ => inl result
    end
  else inl result.

Definition GetStringByIndex (str_index str_table_index : Z) : cstr :=
  if str_table_index =? 0 then []
  else
    let '(str_table, str_table_size) := GetSectionOffsetByIndex str_table_index in
    if negb (str_table =? 0) && (str_index <? str_table_size) then
      match loop 64 string_round (wrap (off_bits c) (str_table + str_index), str_table_size - str_index, []) with
      | inl r => r
      | inr (_, _, r) => r
      end
    else [].

(** ** [DynamicIterator] *)

Definition kTagSize : Z := off_bits c / 8.

Definition kEntrySize : Z := kTagSize + kTagSize.

Record DynamicIterator := { dyn_size : Z; dyn_offset : Z; started : bool }.

Definition dynamic : DynamicIterator :=
  let '(offset, size) := GetSectionOffsetByType SHT_DYNAMIC in
  {| dyn_size := size; dyn_offset := offset; started := size <? kEntrySize |}.

(** The iterator at the next entry, or the end. *)
Definition GetNext (it : DynamicIterator) : option DynamicIterator :=
  if negb (started it) then Some {| dyn_size := dyn_size it; dyn_offset := dyn_offset it; started := true |}
  else if dyn_size it <? kEntrySize then None
  else Some {| dyn_size := dyn_size it - kEntrySize; dyn_offset := wrap (off_bits c) (dyn_offset it + kEntrySize); started := true |}.

Definition GetTag (it : DynamicIterator) : Z := GetOffAt (off_t (dyn_offset it)).

Definition GetValue (it : DynamicIterator) : Z := GetOffAt (off_t (wrap (off_bits c) (dyn_offset it + kTagSize))).

Definition soname_round (index : Z) (it : DynamicIterator) : cstr + DynamicIterator :=
  match GetNext it with
  | Some it => if GetTag it =? DT_SONAME then inl (GetStringByIndex (GetValue it) index) else inr it
  | None => inl []
  end.

Definition GetLibNameT : option cstr :=
  match loop 64 (soname_round GetDynamicStringTableIndex) dynamic with inl r => Some r | inr _ => None end.

Definition needed_round (index : Z) (st : DynamicIterator * list cstr) : list cstr + DynamicIterator * list cstr :=
  let '(it, result) := st in
  match GetNext it with
  | Some it =>
      if GetTag it =? DT_NEEDED then
        let lib_name := GetStringByIndex (GetValue it) index in
        inr (it, match lib_name with [] => result | _ => result ++ [lib_name] end)
      else inr (it, result)
  | None => inl result
  end.

Definition GetNeededLibsT : option (list cstr) :=
  match loop 64 (needed_round GetDynamicStringTableIndex) (dynamic, []) with inl r => Some r | inr _ => None end.
End Reader.

(** ** [ElfFile] *)

Definition elf_ident_is_elf (ident : cstr) : bool :=
  (buf_byte ident 0 =? 127) && (buf_byte ident 1 =? zc "E") && (buf_byte ident 2 =? zc "L") && (buf_byte ident 3 =? zc "F").

Definition elf_ident_is_big_endian (ident : cstr) : bool := buf_byte ident 5 =? 2.

Definition elf_ident_is_64bits (ident : cstr) : bool := buf_byte ident 4 =? 2.

Record ElfFile := { contents : cstr; big_endian_ : bool; is_64bits_ : bool }.

(** [Open] after [fopen]: the file, or the error.  A file that is shorter than the
    identification gives the string of the last error. *)
Definition Open (errno : cstr) (file : cstr) : ElfFile + cstr :=
  if (length file <? 16)%nat then inr errno
  else
    let ident := take 16 file in
    if negb (elf_ident_is_elf ident) then inr (str "Not an ELF binary file")
    else inl {| contents := file; big_endian_ := elf_ident_is_big_endian ident; is_64bits_ := elf_ident_is_64bits ident |}.

Definition elf_class (f : ElfFile) : elf := if is_64bits_ f then Elf64 else Elf32.

Definition GetLibName (f : ElfFile) : option cstr := GetLibNameT (contents f) (big_endian_ f) (elf_class f).

Definition GetNeededLibs (f : ElfFile) : option (list cstr) := GetNeededLibsT (contents f) (big_endian_ f) (elf_class f).

(** ** Bounds and termination *)

(** A loop whose rounds decrease a measure ends. *)
Lemma loop_measure {St R} n (step : St -> R + St) (P : St -> Prop) (mu : St -> Z) st :
  (forall s s', P s -> step s = inr s' -> P s' /\ 0 <= mu s' < mu s) -> P st -> 0 <= mu st < 2 ^ Z.of_nat n ->
  exists r, loop n step st = inl r.
Proof.
  intros Hstep HP Hmu. assert (Hk : forall k s, P s -> 0 <= mu s < Z.of_nat k -> exists r, rounds k step s = inl r).
  { induction k as [|k IH]; intros s Hs Hm; [lia|]. cbn [rounds]. destruct (step s) as [r|s'] eqn:E; [eauto|].
    destruct (Hstep s s' Hs E) as [Hs' Hm']. apply IH; [done|lia]. }
  destruct (Hk (Z.to_nat (mu st + 1)) st HP ltac:(lia)) as [r Hr]. exists r. eapply loop_ends; [exact Hr|lia].
Qed.

Lemma lor_bound a b n : 0 <= a < 2 ^ n -> 0 <= b < 2 ^ n -> 0 <= n -> 0 <= Z.lor a b < 2 ^ n.
Proof.
  intros Ha Hb Hn. assert (H : Z.shiftr (Z.lor a b) n = 0) by (rewrite Z.shiftr_lor, !Z.shiftr_div_pow2, !Z.div_small by lia; done).
  rewrite Z.shiftr_div_pow2 in H by done. apply Z.div_small_iff in H as [H|H]; [done| |]; lia.
Qed.

Lemma wrap_bound w x : 0 <= w -> 0 <= wrap w x < 2 ^ w.
Proof. intros Hw. unfold wrap. apply Z.mod_pos_bound. by apply Z.pow_pos_nonneg. Qed.

Section Bounds.
Context (file : cstr) (big : bool) (c : elf).

Lemma GetU16At_bound pos : 0 <= GetU16At file big pos < 2 ^ 16.
Proof. unfold GetU16At, get_u16_le, get_u16_be. destruct (GetBytesAt _ _ _); [|lia]. destruct big; apply wrap_bound; lia. Qed.

Lemma GetU32At_bound pos : 0 <= GetU32At file big pos < 2 ^ 32.
Proof. unfold GetU32At, get_u32_le, get_u32_be. destruct (GetBytesAt _ _ _); [|lia]. destruct big; apply wrap_bound; lia. Qed.

Lemma GetU64At_bound pos : 0 <= GetU64At file big pos < 2 ^ 64.
Proof.
  unfold GetU64At, get_u64_le, get_u64_be. destruct (GetBytesAt _ _ _); [|lia].
  assert (H : forall x y, 0 <= Z.lor (wrap 32 x) (wrap 64 y) < 2 ^ 64).
  { intros x y. apply lor_bound; [|apply wrap_bound; lia|lia]. pose proof (wrap_bound 32 x). lia. }
  destruct big; apply H.
Qed.

Lemma GetOffAt_bound pos : 0 <= GetOffAt file big c pos < 2 ^ 64.
Proof. unfold GetOffAt, GetAddrAt. destruct c; [pose proof (GetU32At_bound pos); lia|apply GetU64At_bound]. Qed.

Lemma dynamic_bound : 0 <= dyn_size (dynamic file big c) < 2 ^ 64.
Proof.
  unfold dynamic, GetSectionOffsetByType. destruct (find_type _ _ _ _); cbn; [apply GetOffAt_bound|lia].
Qed.

(** The measure of an iterator: the entries that are left, and the first call. *)
Definition left_in (it : DynamicIterator) : Z := dyn_size it / 8 + (if started it then 0 else 1).

Lemma GetNext_left it it' : GetNext c it = Some it' -> 0 <= dyn_size it -> 0 <= dyn_size it' /\ 0 <= left_in it' < left_in it.
Proof.
  unfold GetNext, kEntrySize, kTagSize, left_in. destruct (started it) eqn:Es; cbn [negb].
  - destruct (Z.ltb_spec (dyn_size it) (off_bits c / 8 + off_bits c / 8)); [done|]. intros [= <-] H0. cbn.
    destruct c; cbn [off_bits] in *; [change (32 / 8 + 32 / 8) with 8 in *|change (64 / 8 + 64 / 8) with 16 in *]; (split; [lia|]).
    + assert (E : dyn_size it / 8 = (dyn_size it - 8) / 8 + 1) by (rewrite <-Z.div_add by lia; f_equal; lia). pose proof (Z.div_pos (dyn_size it - 8) 8). lia.
    + assert (E : dyn_size it / 8 = (dyn_size it - 16) / 8 + 2) by (rewrite <-Z.div_add by lia; f_equal; lia). pose proof (Z.div_pos (dyn_size it - 16) 8). lia.
  - intros [= <-] H0. cbn. pose proof (Z.div_pos (dyn_size it) 8). lia.
Qed.

Lemma dynamic_left : 0 <= left_in (dynamic file big c) < 2 ^ 64.
Proof.
  pose proof dynamic_bound as H. unfold left_in. pose proof (Z.div_pos (dyn_size (dynamic file big c)) 8).
  pose proof (Z.div_lt_upper_bound (dyn_size (dynamic file big c)) 8 (2 ^ 61)). destruct (started _); lia.
Qed.

Lemma GetNeededLibsT_ends : exists l, GetNeededLibsT file big c = Some l.
Proof.
  unfold GetNeededLibsT.
  destruct (loop_measure 64 (needed_round file big c (GetDynamicStringTableIndex file big c)) (fun st => 0 <= dyn_size st.1) (fun st => left_in st.1) (dynamic file big c, []))
    as [r ->]; [|apply dynamic_bound|apply dynamic_left|eauto].
  intros [it res] [it' res'] Hit E. cbn [fst] in *. unfold needed_round in E. destruct (GetNext c it) as [it1|] eqn:En; [|done].
  apply GetNext_left in En; [|done]. destruct (_ =? _); injection E as <- <-; done.
Qed.

Lemma GetLibNameT_ends : exists s, GetLibNameT file big c = Some s.
Proof.
  unfold GetLibNameT.
  destruct (loop_measure 64 (soname_round file big c (GetDynamicStringTableIndex file big c)) (fun it => 0 <= dyn_size it) left_in (dynamic file big c))
    as [r ->]; [|apply dynamic_bound|apply dynamic_left|eauto].
  intros it it' Hit E. unfold soname_round in E. destruct (GetNext c it) as [it1|] eqn:En; [|done].
  apply GetNext_left in En; [|done]. destruct (_ =? _); [done|]. by injection E as <-.
Qed.

Lemma type_loop_ends type : exists r, loop 16 (type_round file big c type) (sections file big c) = inl r.
Proof.
  apply (loop_measure 16 _ (fun it => 0 <= table_count it) table_count).
  - intros it it' Hit E. unfold type_round, NextOffset in E. destruct (Z.eqb_spec (table_count it) 0); [done|].
    destruct (_ =? _); [done|]. destruct (_ =? _); [done|]. injection E as <-. cbn. lia.
  - cbn. pose proof (GetU16At_bound (e_shnum c)). unfold GetHalfAt. destruct (_ <? _); lia.
  - cbn. pose proof (GetU16At_bound (e_shnum c)). unfold GetHalfAt. destruct (_ <? _); lia.
Qed.
End Bounds.

Lemma string_loop_ends file c o n : 0 <= n < 2 ^ 64 -> exists r, loop 64 (string_round file c) (o, n, []) = inl r.
Proof.
  intros Hn. apply (loop_measure 64 _ (fun st => True) (fun st => Z.max 0 st.1.2)); [|done|cbn; lia].
  intros [[x m] r] [[x' m'] r'] _ E. cbn. unfold string_round in E. destruct (Z.ltb_spec 0 m); [|done].
  destruct (GetBytesAt _ _ _) as [[|b bs]|]; [done| |done]. destruct (_ =? _); [done|]. injection E as <- <- <-. lia.
Qed.

(** ** Files with fields *)

(** The bytes of a number, the lowest first. *)
Fixpoint le_bytes (w : nat) (v : Z) : cstr :=
  match w with
  | O => []
  | S w => cz (v mod 256) :: le_bytes w (v / 256)
  end.

Definition enc (big : bool) (w : nat) (v : Z) : cstr := if big then rev (le_bytes w v) else le_bytes w v.

(** A structure: the widths of its members in bytes, and their values. *)
Abbreviation fields := (list (nat * Z)).

Definition enc_fields (big : bool) (fs : fields) : cstr := mjoin (map (fun f => enc big f.1 f.2) fs).

(** The offset of a shdr_member. *)
Fixpoint offset (fs : fields) (i : nat) : nat :=
  match i, fs with
  | S i, f :: fs => f.1 + offset fs i
  | _, _ => 0%nat
  end.

Lemma le_bytes_length w v : length (le_bytes w v) = w.
Proof. revert v. induction w as [|w IH]; intros v; [done|]. cbn. by rewrite IH. Qed.

Lemma enc_length big w v : length (enc big w v) = w.
Proof. unfold enc. destruct big; [rewrite length_rev|]; apply le_bytes_length. Qed.

Lemma enc_fields_app big fs fs' : enc_fields big (fs ++ fs') = enc_fields big fs ++ enc_fields big fs'.
Proof. unfold enc_fields. by rewrite map_app, join_app. Qed.

Lemma enc_fields_length big fs : length (enc_fields big fs) = offset fs (length fs).
Proof.
  induction fs as [|[w v] fs IH]; [done|]. cbn [length offset fst]. change (enc_fields big ((w, v) :: fs)) with (enc big w v ++ enc_fields big fs).
  rewrite length_app, enc_length, IH. done.
Qed.

Lemma fields_split big fs i w v :
  fs !! i = Some (w, v) -> exists pre post, enc_fields big fs = pre ++ enc big w v ++ post /\ length pre = offset fs i.
Proof.
  revert i. induction fs as [|[w' v'] fs IH]; intros [|i] H; [done..| |].
  - injection H as -> ->. by exists [], (enc_fields big fs).
  - destruct (IH i H) as (pre & post & E & Hl). exists (enc big w' v' ++ pre), post. cbn [offset fst]. rewrite length_app, enc_length, Hl.
    split; [|done]. change (enc_fields big ((w', v') :: fs)) with (enc big w' v' ++ enc_fields big fs). by rewrite E, <-app_assoc.
Qed.

(** Reading at the place of some bytes. *)
Lemma GetBytesAt_middle pre s post pos size :
  pos = Z.of_nat (length pre) -> size = Z.of_nat (length s) -> size < 32 -> GetBytesAt (pre ++ s ++ post) pos size = Some s.
Proof.
  intros -> -> Hs. unfold GetBytesAt, kMaxBytes. rewrite !length_app. rewrite (proj2 (Z.ltb_lt _ _)), (proj2 (Z.leb_le _ _)), (proj2 (Z.leb_le _ _)) by lia.
  cbn [andb]. by rewrite !Nat2Z.id, drop_app_length, take_app_length.
Qed.

Lemma buf_byte_cons x s i : buf_byte (x :: s) (S i) = buf_byte s i.
Proof. done. Qed.

Lemma lor_disjoint a b n : 0 <= a < 2 ^ n -> 0 <= n -> Z.lor a (Z.shiftl b n) = a + b * 2 ^ n.
Proof.
  intros Ha Hn. rewrite Z.shiftl_mul_pow2 by done. symmetry. apply Z.add_nocarry_lor.
  apply Z.bits_inj_0. intros k. rewrite Z.land_spec. destruct (Z.lt_ge_cases k n).
  - rewrite Z.mul_pow2_bits_low by done. apply andb_false_r.
  - destruct (Z.eq_dec a 0) as [->|]; [by rewrite Z.bits_0|]. assert (Z.log2 a < n) by (apply Z.log2_lt_pow2; lia).
    rewrite Z.bits_above_log2; [done|lia|lia].
Qed.

(** The parts of a number. *)
Lemma split_byte v : 0 <= v -> v = v mod 256 + v / 256 * 2 ^ 8 /\ 0 <= v mod 256 < 256 /\ 0 <= v / 256.
Proof. intros Hv. pose proof (Z.div_mod v 256). pose proof (Z.mod_pos_bound v 256). pose proof (Z.div_pos v 256). lia. Qed.

Lemma join_2 b0 b1 : 0 <= b0 < 256 -> 0 <= b1 < 256 -> wrap 16 (Z.lor b0 (Z.shiftl b1 8)) = b0 + b1 * 2 ^ 8.
Proof. intros H0 H1. rewrite lor_disjoint by lia. apply wrap_small. unfold fits. lia. Qed.

Lemma join_4 b0 b1 b2 b3 : 0 <= b0 < 256 -> 0 <= b1 < 256 -> 0 <= b2 < 256 -> 0 <= b3 < 256 ->
  wrap 32 (Z.lor (Z.lor (Z.lor b0 (Z.shiftl b1 8)) (Z.shiftl b2 16)) (Z.shiftl b3 24)) = b0 + b1 * 2 ^ 8 + b2 * 2 ^ 16 + b3 * 2 ^ 24.
Proof.
  intros H0 H1 H2 H3. rewrite (lor_disjoint b0 b1 8), (lor_disjoint _ b2 16), (lor_disjoint _ b3 24) by lia. apply wrap_small. unfold fits. lia.
Qed.

Lemma join_8 lo hi : 0 <= lo < 2 ^ 32 -> 0 <= hi < 2 ^ 32 -> Z.lor lo (wrap 64 (Z.shiftl hi 32)) = lo + hi * 2 ^ 32.
Proof.
  intros H0 H1. rewrite wrap_small; [by apply lor_disjoint|]. unfold fits. rewrite Z.shiftl_mul_pow2 by lia. lia.
Qed.

(** The bytes of a number that is split into its parts. *)
Lemma buf_byte_enc (b : Z) (s : cstr) : 0 <= b < 256 -> buf_byte (cz b :: s) 0 = b.
Proof. intros H. unfold buf_byte. cbn. by apply zc_cz. Qed.

Lemma get_u16_enc (big : bool) v : 0 <= v < 2 ^ 16 -> (if big then get_u16_be (enc big 2 v) else get_u16_le (enc big 2 v)) = v.
Proof.
  intros Hv. destruct (split_byte v ltac:(lia)) as (E0 & B0 & P0). destruct (split_byte (v / 256) P0) as (E1 & B1 & P1).
  assert (v / 256 / 256 = 0) by lia. unfold get_u16_be, get_u16_le, enc. cbn [le_bytes rev app].
  destruct big; rewrite ?buf_byte_cons, !buf_byte_enc by lia; [rewrite Z.lor_comm|]; rewrite join_2 by lia; lia.
Qed.

Lemma get_u32_parts b0 b1 b2 b3 s : 0 <= b0 < 256 -> 0 <= b1 < 256 -> 0 <= b2 < 256 -> 0 <= b3 < 256 ->
  get_u32_le (cz b0 :: cz b1 :: cz b2 :: cz b3 :: s) = b0 + b1 * 2 ^ 8 + b2 * 2 ^ 16 + b3 * 2 ^ 24 /\
  get_u32_be (cz b3 :: cz b2 :: cz b1 :: cz b0 :: s) = b0 + b1 * 2 ^ 8 + b2 * 2 ^ 16 + b3 * 2 ^ 24.
Proof.
  intros H0 H1 H2 H3. unfold get_u32_le, get_u32_be. rewrite !buf_byte_cons, !buf_byte_enc by lia. rewrite <-(join_4 b0 b1 b2 b3) by lia. split; [done|].
  f_equal. apply Z.bits_inj'. intros k _. rewrite !Z.lor_spec. by destruct (Z.testbit _ k), (Z.testbit _ k), (Z.testbit _ k), (Z.testbit _ k).
Qed.

Lemma get_u32_enc (big : bool) v : 0 <= v < 2 ^ 32 -> (if big then get_u32_be (enc big 4 v) else get_u32_le (enc big 4 v)) = v.
Proof.
  intros Hv. destruct (split_byte v ltac:(lia)) as (E0 & B0 & P0). destruct (split_byte (v / 256) P0) as (E1 & B1 & P1).
  destruct (split_byte (v / 256 / 256) P1) as (E2 & B2 & P2). destruct (split_byte (v / 256 / 256 / 256) P2) as (E3 & B3 & P3).
  assert (v / 256 / 256 / 256 / 256 = 0) by lia. unfold enc. cbn [le_bytes rev app].
  destruct (get_u32_parts (v mod 256) ((v / 256) mod 256) ((v / 256 / 256) mod 256) ((v / 256 / 256 / 256) mod 256) [] B0 B1 B2 B3) as [El Eb].
  destruct big; [rewrite Eb|rewrite El]; lia.
Qed.

Lemma get_u64_enc (big : bool) v : 0 <= v < 2 ^ 64 -> (if big then get_u64_be (enc big 8 v) else get_u64_le (enc big 8 v)) = v.
Proof.
  intros Hv. unfold enc. cbn [le_bytes rev app].
  destruct (split_byte v ltac:(lia)) as (E0 & B0 & P0). set (v1 := v / 256) in *. destruct (split_byte v1 P0) as (E1 & B1 & P1). set (v2 := v1 / 256) in *.
  destruct (split_byte v2 P1) as (E2 & B2 & P2). set (v3 := v2 / 256) in *. destruct (split_byte v3 P2) as (E3 & B3 & P3). set (v4 := v3 / 256) in *.
  destruct (split_byte v4 P3) as (E4 & B4 & P4). set (v5 := v4 / 256) in *. destruct (split_byte v5 P4) as (E5 & B5 & P5). set (v6 := v5 / 256) in *.
  destruct (split_byte v6 P5) as (E6 & B6 & P6). set (v7 := v6 / 256) in *. destruct (split_byte v7 P6) as (E7 & B7 & P7). set (v8 := v7 / 256) in *.
  assert (v8 = 0) by lia. unfold get_u64_be, get_u64_le.
  destruct big; match goal with |- context [drop 4 (?x0 :: ?x1 :: ?x2 :: ?x3 :: ?l)] => change (drop 4 (x0 :: x1 :: x2 :: x3 :: l)) with l end.
  - rewrite (fun s => proj2 (get_u32_parts _ _ _ _ s B4 B5 B6 B7)), (fun s => proj2 (get_u32_parts _ _ _ _ s B0 B1 B2 B3)), join_8 by lia. lia.
  - rewrite (fun s => proj1 (get_u32_parts _ _ _ _ s B4 B5 B6 B7)), (fun s => proj1 (get_u32_parts _ _ _ _ s B0 B1 B2 B3)), join_8 by lia. lia.
Qed.

(** The reader finds the members of structures in a file. *)
Section Fields.
Context (big : bool) (c : elf) (before : cstr) (fs : fields) (rest : cstr).

Abbreviation file := (before ++ enc_fields big fs ++ rest).
Abbreviation place i := (Z.of_nat (length before + offset fs i)).

Lemma bytes_at i w v pos :
  fs !! i = Some (w, v) -> (w < 32)%nat -> pos = place i -> GetBytesAt file pos (Z.of_nat w) = Some (enc big w v).
Proof.
  intros Hi Hw ->. destruct (fields_split big fs i w v Hi) as (pre & post & E & Hl). rewrite E, <-!app_assoc, app_assoc, <-Hl.
  apply GetBytesAt_middle; rewrite ?length_app, ?enc_length; lia.
Qed.

Lemma half_at i v pos : fs !! i = Some (2%nat, v) -> 0 <= v < 2 ^ 16 -> pos = place i -> GetU16At file big pos = v.
Proof. intros Hi Hv Hp. unfold GetU16At. change 2 with (Z.of_nat 2) at 1. rewrite (bytes_at i 2 v pos Hi ltac:(lia) Hp). by apply get_u16_enc. Qed.

Lemma word_at i v pos : fs !! i = Some (4%nat, v) -> 0 <= v < 2 ^ 32 -> pos = place i -> GetU32At file big pos = v.
Proof. intros Hi Hv Hp. unfold GetU32At. change 4 with (Z.of_nat 4) at 1. rewrite (bytes_at i 4 v pos Hi ltac:(lia) Hp). by apply get_u32_enc. Qed.

Lemma xword_at i v pos : fs !! i = Some (8%nat, v) -> 0 <= v < 2 ^ 64 -> pos = place i -> GetU64At file big pos = v.
Proof. intros Hi Hv Hp. unfold GetU64At. change 8 with (Z.of_nat 8) at 1. rewrite (bytes_at i 8 v pos Hi ltac:(lia) Hp). by apply get_u64_enc. Qed.

(** The width of an offset in bytes. *)
Definition off_width : nat := match c with Elf32 => 4%nat | Elf64 => 8%nat end.

Lemma off_at i v pos :
  fs !! i = Some (off_width, v) -> 0 <= v < 2 ^ 32 -> pos = place i -> GetOffAt file big c pos = v.
Proof.
  unfold GetOffAt, GetAddrAt, off_width. intros Hi Hv Hp. destruct c; [by apply (word_at i)|]. apply (xword_at i); [done|lia|done].
Qed.
End Fields.

(** ** Files of a library *)

Definition one (v : Z) : nat * Z := (1%nat, v).
Definition half (v : Z) : nat * Z := (2%nat, v).
Definition word (v : Z) : nat * Z := (4%nat, v).
Definition off (c : elf) (v : Z) : nat * Z := (off_width c, v).

(** The members of a section header. *)
Definition shdr (c : elf) (type offset size link : Z) : fields :=
  [word 0; word type; off c 0; off c 0; off c offset; off c size; word link; word 0; off c 0; off c 0].

Definition ehdr_size (c : elf) : Z := match c with Elf32 => 52 | Elf64 => 64 end.

(** The header: the identification, and the place of the three section headers. *)
Definition ehdr (big : bool) (c : elf) : fields :=
  [one 127; one 69; one 76; one 70; one (match c with Elf32 => 1 | Elf64 => 2 end); one (if big then 2 else 1);
   one 0; one 0; one 0; one 0; one 0; one 0; one 0; one 0; one 0; one 0;
   half 3; half 40; word 1; off c 0; off c 0; off c (ehdr_size c); word 0; half (ehdr_size c); half 0; half 0;
   half (sizeof_Shdr c); half 3; half 0].

(** The string table: an empty string, and the names. *)
Definition NUL : ascii := cz 0.

Definition strtab (names : list cstr) : cstr := NUL :: mjoin (map (fun s => s ++ [NUL]) names).

(** The offset of the name [i]. *)
Definition name_offset (names : list cstr) (i : nat) : nat := length (strtab (take i names)).

(** The dynamic section: an entry for each needed library, one for the name of the
    library, and the last one. *)
Definition entries (needed : list cstr) (soname : cstr) : list (Z * Z) :=
  let names := needed ++ [soname] in
  map (fun i => (DT_NEEDED, Z.of_nat (name_offset names i))) (seq 0 (length needed))
    ++ [(DT_SONAME, Z.of_nat (name_offset names (length needed))); (0, 0)].

Definition dyn_fields (c : elf) (es : list (Z * Z)) : fields := mjoin (map (fun e => [off c e.1; off c e.2]) es).

(** The end of the section headers. *)
Definition base (c : elf) : Z := ehdr_size c + 3 * sizeof_Shdr c.

(** The headers of a file with a dynamic section of [n] entries and with [len] bytes
    of strings. *)
Definition headers_of (big : bool) (c : elf) (n len : Z) : fields :=
  ehdr big c ++ shdr c 0 0 0 0 ++ shdr c SHT_DYNAMIC (base c + len) (n * kEntrySize c) 2 ++ shdr c 3 (base c) len 0.

(** The file: headers, strings, dynamic section. *)
Definition write_elf (big : bool) (c : elf) (needed : list cstr) (soname : cstr) : cstr :=
  let strings := strtab (needed ++ [soname]) in
  let es := entries needed soname in
  enc_fields big (headers_of big c (Z.of_nat (length es)) (Z.of_nat (length strings)))
    ++ strings ++ enc_fields big (dyn_fields c es).

Lemma off_t_small x : 0 <= x < 2 ^ 63 -> off_t x = x.
Proof. intros H. unfold off_t, swrap, wrap. rewrite (Z.mod_small x) by lia. destruct (Z.ltb_spec x (2 ^ (64 - 1))); lia. Qed.

(** The characters of a string that ends within its table. *)
Lemma string_rounds c s : forall before post o n r,
  NUL ∉ s -> o = Z.of_nat (length before) -> o + Z.of_nat (length s) < 2 ^ 32 -> Z.of_nat (length s) < n ->
  rounds (S (length s)) (string_round (before ++ s ++ NUL :: post) c) (o, n, r) = inl (r ++ s).
Proof.
  induction s as [|x s IH]; intros before post o n r Hs -> Hb Hn; cbn [length] in *; cbn [rounds string_round]; rewrite (proj2 (Z.ltb_lt _ _)) by lia;
    rewrite (off_t_small (Z.of_nat (length before))) by lia.
  - cbn [app]. rewrite (GetBytesAt_middle before [NUL] post) by (cbn; lia). rewrite app_nil_r. done.
  - rewrite (GetBytesAt_middle before [x] (s ++ NUL :: post)) by (cbn; lia).
    apply not_elem_of_cons in Hs as [Hx Hs]. rewrite (proj2 (Z.eqb_neq _ _)) by (intros E; apply Hx; unfold NUL; rewrite <-E; by rewrite cz_zc).
    rewrite wrap_small by (unfold fits; destruct c; cbn [off_bits]; lia).
    replace (before ++ (x :: s) ++ NUL :: post) with ((before ++ [x]) ++ s ++ NUL :: post) by (by rewrite <-app_assoc).
    replace (r ++ x :: s) with ((r ++ [x]) ++ s) by (by rewrite <-app_assoc).
    apply IH; [done|rewrite length_app; cbn; lia|lia|lia].
Qed.

Lemma strtab_split names i s : names !! i = Some s -> exists post, strtab names = strtab (take i names) ++ s ++ NUL :: post.
Proof.
  intros Hi. exists (mjoin (map (fun s => s ++ [NUL]) (drop (S i) names))). unfold strtab. cbn [app]. f_equal.
  rewrite <-(take_drop_middle names i s Hi) at 1. rewrite map_app, join_app. cbn. by rewrite <-app_assoc.
Qed.

Lemma dyn_fields_lookup c l : forall k t v, l !! k = Some (t, v) ->
  dyn_fields c l !! (2 * k)%nat = Some (off c t) /\ dyn_fields c l !! (2 * k + 1)%nat = Some (off c v) /\
  Z.of_nat (offset (dyn_fields c l) (2 * k)) = Z.of_nat k * kEntrySize c /\
  Z.of_nat (offset (dyn_fields c l) (2 * k + 1)) = Z.of_nat k * kEntrySize c + kTagSize c.
Proof.
  induction l as [|[t' v'] l IH]; intros [|k] t v H; [done..| |].
  - injection H as -> ->. cbn. by destruct c.
  - destruct (IH k t v H) as (H0 & H1 & H2 & H3). change (dyn_fields c ((t', v') :: l)) with (off c t' :: off c v' :: dyn_fields c l).
    replace (2 * S k)%nat with (S (S (2 * k))) by lia. replace (S (S (2 * k)) + 1)%nat with (S (S (2 * k + 1))) by lia.
    cbn [lookup list_lookup offset fst off]. split_and!; [done..| |]; rewrite !Nat2Z.inj_add, ?H2, ?H3; unfold kEntrySize, kTagSize, off_width;
      destruct c; cbn [off_bits]; change (32 / 8) with 4; change (64 / 8) with 8; lia.
Qed.

(** A fact about members of the headers, which holds for both classes. *)
Ltac known := match goal with c : elf |- _ => destruct c end; first [done | split; done].

Section Written.
Context (big : bool) (c : elf) (needed : list cstr) (soname : cstr).
Context (Hnames : forall s, s ∈ needed ++ [soname] -> s <> [] /\ NUL ∉ s).
Context (Hsize : Z.of_nat (length (write_elf big c needed soname)) < 2 ^ 32).

Abbreviation names := (needed ++ [soname]).
Abbreviation strings := (strtab names).
Abbreviation es := (entries needed soname).
Abbreviation headers := (headers_of big c (Z.of_nat (length es)) (Z.of_nat (length strings))).
Abbreviation file := (write_elf big c needed soname).

Lemma file_headers : file = [] ++ enc_fields big headers ++ (strings ++ enc_fields big (dyn_fields c es)).
Proof. done. Qed.

Lemma headers_length : Z.of_nat (length (enc_fields big headers)) = base c.
Proof. rewrite enc_fields_length. unfold headers_of, base. by destruct c. Qed.

Lemma dyn_fields_length l : Z.of_nat (offset (dyn_fields c l) (length (dyn_fields c l))) = Z.of_nat (length l) * kEntrySize c.
Proof.
  induction l as [|[t v] l IH]; [done|]. change (dyn_fields c ((t, v) :: l)) with (off c t :: off c v :: dyn_fields c l). cbn [offset length fst off].
  rewrite !Nat2Z.inj_add, IH, Nat2Z.inj_succ. unfold kEntrySize, kTagSize, off_width. destruct c; cbn [off_bits];
    [change (32 / 8 + 32 / 8) with 8|change (64 / 8 + 64 / 8) with 16]; lia.
Qed.

Lemma file_length : Z.of_nat (length file) = base c + Z.of_nat (length strings) + Z.of_nat (length es) * kEntrySize c.
Proof. rewrite file_headers. cbn [app]. rewrite !length_app, !Nat2Z.inj_add, headers_length, enc_fields_length, dyn_fields_length. lia. Qed.

Lemma sizes : 0 <= base c /\ 0 <= Z.of_nat (length strings) /\ 8 <= kEntrySize c <= 16 /\
  base c + Z.of_nat (length strings) + Z.of_nat (length es) * kEntrySize c < 2 ^ 32.
Proof. rewrite <-file_length. split_and!; [by destruct c|lia|by destruct c|by destruct c|done]. Qed.

Lemma header_half i v pos : headers !! i = Some (half v) -> 0 <= v < 2 ^ 16 -> pos = Z.of_nat (offset headers i) -> GetHalfAt file big pos = v.
Proof. rewrite file_headers. exact (half_at big [] headers _ i v pos). Qed.

Lemma header_word i v pos : headers !! i = Some (word v) -> 0 <= v < 2 ^ 32 -> pos = Z.of_nat (offset headers i) -> GetWordAt file big pos = v.
Proof. rewrite file_headers. exact (word_at big [] headers _ i v pos). Qed.

Lemma header_off i v pos : headers !! i = Some (off c v) -> 0 <= v < 2 ^ 32 -> pos = Z.of_nat (offset headers i) -> GetOffAt file big c pos = v.
Proof. rewrite file_headers. exact (off_at big c [] headers _ i v pos). Qed.

Lemma sections_written : sections file big c = {| table_offset := ehdr_size c; table_count := 3; table_entry_size := sizeof_Shdr c |}.
Proof.
  unfold sections. rewrite (header_half 27 3 (e_shnum c)), (header_half 26 (sizeof_Shdr c) (e_shentsize c)), (header_off 21 (ehdr_size c) (e_shoff c)) by known.
  by rewrite Z.ltb_irrefl.
Qed.

Lemma type_round_at type o n sz t : o <> 0 -> n <> 0 -> GetWordAt file big (shdr_member o sh_type) = t ->
  type_round file big c type {| table_offset := o; table_count := n; table_entry_size := sz |} =
  if t =? type then inl (Some o) else inr (advance c {| table_offset := o; table_count := n; table_entry_size := sz |}).
Proof.
  intros Ho Hn <-. unfold type_round, NextOffset. cbn [table_count table_offset]. by rewrite (proj2 (Z.eqb_neq n 0)), (proj2 (Z.eqb_neq o 0)).
Qed.

Lemma find_dynamic : find_type file big c SHT_DYNAMIC = Some (ehdr_size c + sizeof_Shdr c).
Proof.
  unfold find_type. rewrite (loop_ends 16 2 _ _ (Some (ehdr_size c + sizeof_Shdr c))); [done| |done].
  cbn [rounds]. rewrite sections_written, (type_round_at _ _ _ _ 0); [|by destruct c|done|apply (header_word 30); known].
  unfold advance. cbn [Z.eqb SHT_DYNAMIC table_offset table_count table_entry_size].
  rewrite (wrap_small (off_bits c)), (type_round_at _ _ _ _ 6); [done|known|done| |known]. apply (header_word 40); known.
Qed.

Lemma string_index_written : GetDynamicStringTableIndex file big c = 2.
Proof. unfold GetDynamicStringTableIndex. by rewrite find_dynamic, (header_word 45 2) by known. Qed.

Lemma dynamic_written : dynamic file big c =
  {| dyn_size := Z.of_nat (length es) * kEntrySize c; dyn_offset := base c + Z.of_nat (length strings); started := false |}.
Proof.
  destruct sizes as (Hb & Hs & He & Hn). unfold dynamic, GetSectionOffsetByType. rewrite find_dynamic.
  rewrite (header_off 43 (base c + Z.of_nat (length strings)) (shdr_member _ (sh_offset c))), (header_off 44 (Z.of_nat (length es) * kEntrySize c) (shdr_member _ (sh_size c)))
    by (first [lia|known]).
  f_equal. apply Z.ltb_ge. unfold entries. rewrite length_app. cbn [length]. nia.
Qed.

Lemma strings_written : GetSectionOffsetByIndex file big c 2 = (base c, Z.of_nat (length strings)).
Proof.
  destruct sizes as (Hb & Hs & He & Hn). unfold GetSectionOffsetByIndex. rewrite sections_written.
  replace (Skip c 2 _) with {| table_offset := ehdr_size c + 2 * sizeof_Shdr c; table_count := 1; table_entry_size := sizeof_Shdr c |} by (by destruct c).
  unfold NextOffset. cbn [table_count table_offset Z.eqb]. rewrite (proj2 (Z.eqb_neq _ 0)) by (by destruct c).
  by rewrite (header_off 53 (base c) (shdr_member _ (sh_offset c))), (header_off 54 (Z.of_nat (length strings)) (shdr_member _ (sh_size c))) by (first [lia|known]).
Qed.

(** The name at its offset. *)
Lemma name_written i s : names !! i = Some s -> GetStringByIndex file big c (Z.of_nat (name_offset names i)) 2 = s.
Proof.
  intros Hi. destruct sizes as (Hb & Hs & He & Hn). destruct (strtab_split names i s Hi) as (post & E).
  assert (Hl : length strings = (name_offset names i + (length s + S (length post)))%nat) by (rewrite E at 1; rewrite !length_app; done).
  unfold GetStringByIndex. cbn [Z.eqb]. rewrite strings_written.
  rewrite (proj2 (Z.eqb_neq (base c) 0)) by (by destruct c). rewrite (proj2 (Z.ltb_lt _ (Z.of_nat (length strings)))) by lia. cbn [negb andb].
  rewrite wrap_small by (unfold fits; destruct c; cbn [off_bits]; lia).
  rewrite (loop_ends 64 (S (length s)) _ _ s); [done| |lia].
  rewrite file_headers. cbn [app]. rewrite E at 2. rewrite <-!app_assoc, app_assoc.
  apply (string_rounds c s _ _ _ _ []); [apply Hnames; by eapply list_elem_of_lookup_2| |lia|lia].
  rewrite length_app, Nat2Z.inj_add, headers_length. done.
Qed.

Lemma file_dynamic : file = (enc_fields big headers ++ strings) ++ enc_fields big (dyn_fields c es) ++ [].
Proof. rewrite file_headers. cbn [app]. by rewrite app_nil_r, <-app_assoc. Qed.

(** The iterator at the entry [k]. *)
Definition at_entry (k : nat) : DynamicIterator :=
  {| dyn_size := (Z.of_nat (length es) - Z.of_nat k) * kEntrySize c;
     dyn_offset := base c + Z.of_nat (length strings) + Z.of_nat k * kEntrySize c; started := true |}.

Lemma first_entry : GetNext c (dynamic file big c) = Some (at_entry 0).
Proof. rewrite dynamic_written. unfold GetNext, at_entry. cbn. do 2 f_equal; lia. Qed.

Lemma next_entry k : (k < length es)%nat -> GetNext c (at_entry k) = Some (at_entry (S k)).
Proof.
  intros Hk. destruct sizes as (Hb & Hs & He & Hn). unfold GetNext, at_entry. cbn [negb started dyn_size dyn_offset].
  rewrite (proj2 (Z.ltb_ge _ _)) by nia. rewrite wrap_small; [do 2 f_equal; lia|]. unfold fits. destruct c; cbn [off_bits]; nia.
Qed.

Lemma no_entry : GetNext c (at_entry (length es)) = None.
Proof. destruct sizes as (Hb & Hs & He & Hn). unfold GetNext, at_entry. cbn [negb started dyn_size]. rewrite (proj2 (Z.ltb_lt _ _)) by lia. done. Qed.

Lemma entry_bound e : e ∈ es -> 0 <= e.1 < 2 ^ 32 /\ 0 <= e.2 < 2 ^ 32.
Proof.
  destruct sizes as (Hb & Hs & He & Hn). assert (Ho : forall i, Z.of_nat (name_offset names i) < 2 ^ 32).
  { intros i. unfold name_offset. assert (H : (length (strtab (take i names)) <= length strings)%nat); [|lia].
    rewrite <-(take_drop i names) at 2. unfold strtab. cbn [length]. rewrite map_app, join_app, length_app. lia. }
  unfold entries. intros [H|H]%elem_of_app; [apply list_elem_of_fmap in H as (i & -> & _); cbn [fst snd]; specialize (Ho i); unfold DT_NEEDED; lia|].
  specialize (Ho (length needed)). unfold DT_SONAME in H. apply elem_of_cons in H as [->|H]; [|apply list_elem_of_singleton in H as ->]; cbn [fst snd]; lia.
Qed.

Lemma read_entry k t v : es !! k = Some (t, v) -> GetTag file big c (at_entry k) = t /\ GetValue file big c (at_entry k) = v.
Proof.
  intros Hk. destruct sizes as (Hb & Hs & He & Hn). destruct (dyn_fields_lookup c es k t v Hk) as (H0 & H1 & O0 & O1).
  destruct (entry_bound (t, v)) as [Bt Bv]; [by eapply list_elem_of_lookup_2|]. cbn [fst snd] in *.
  assert (Hlt : (k < length es)%nat) by (by eapply lookup_lt_Some). assert (Hp : 4 <= kTagSize c <= 8 /\ kEntrySize c = kTagSize c + kTagSize c) by (by destruct c).
  assert (Hd : Z.of_nat (length (enc_fields big headers ++ strings)) = base c + Z.of_nat (length strings)) by (rewrite length_app, Nat2Z.inj_add, headers_length; done).
  unfold GetTag, GetValue, at_entry. cbn [dyn_offset]. rewrite wrap_small by (unfold fits; destruct c; cbn [off_bits]; nia).
  rewrite !off_t_small by nia. rewrite file_dynamic. split.
  - apply (off_at big c _ _ [] (2 * k)); [done|lia|]. rewrite Nat2Z.inj_add, Hd, O0. lia.
  - apply (off_at big c _ _ [] (2 * k + 1)); [done|lia|]. rewrite Nat2Z.inj_add, Hd, O1. lia.
Qed.

(** The entry after the last one is read as well, and is outside of the file. *)
Lemma read_past : GetTag file big c (at_entry (length es)) = 0.
Proof.
  destruct sizes as (Hb & Hs & He & Hn). unfold GetTag, at_entry. cbn [dyn_offset]. rewrite <-file_length, off_t_small by lia.
  assert (H : forall n, 0 < n -> GetBytesAt file (Z.of_nat (length file)) n = None).
  { intros n Hn0. unfold GetBytesAt. rewrite (proj2 (Z.leb_gt (_ + n) _)) by lia. by rewrite andb_false_r. }
  unfold GetOffAt, GetAddrAt, GetU32At, GetU64At. rewrite !H by lia. by destruct c.
Qed.

(** The names that the entries of a list add. *)
Definition added (l : list (Z * Z)) : list cstr :=
  mjoin (map (fun e => if e.1 =? DT_NEEDED then match GetStringByIndex file big c e.2 2 with [] => [] | s => [s] end else []) l).

Lemma added_cons e l : added (e :: l) = (if e.1 =? DT_NEEDED then match GetStringByIndex file big c e.2 2 with [] => [] | s => [s] end else []) ++ added l.
Proof. done. Qed.

Lemma needed_rounds l : forall k it r, drop k es = l -> (k <= length es)%nat -> GetNext c it = Some (at_entry k) ->
  rounds (S (S (length l))) (needed_round file big c 2) (it, r) = inl (r ++ added l).
Proof.
  induction l as [|[t v] l IH]; intros k it r Hl Hk Hit; cbn [length].
  - apply (f_equal length) in Hl. rewrite length_drop in Hl. cbn in Hl. assert (k = length es) as -> by lia.
    cbn [rounds needed_round]. rewrite Hit, read_past. cbn [Z.eqb DT_NEEDED needed_round]. rewrite no_entry. by rewrite app_nil_r.
  - assert (He : es !! k = Some (t, v)) by (rewrite <-(Nat.add_0_r k), <-lookup_drop, Hl; done). assert (Hlt : (k < length es)%nat) by (by eapply lookup_lt_Some).
    destruct (read_entry k t v He) as [Et Ev]. rewrite added_cons. cbn [fst snd].
    change (rounds (S (S (S (length l)))) (needed_round file big c 2) (it, r)) with
      (match needed_round file big c 2 (it, r) with inl x => inl x | inr s => rounds (S (S (length l))) (needed_round file big c 2) s end).
    cbn [needed_round]. rewrite Hit, Et, Ev.
    assert (IHk : forall r', rounds (S (S (length l))) (needed_round file big c 2) (at_entry k, r') = inl (r' ++ added l)).
    { intros r'. apply (IH (S k)); [|lia|by apply next_entry]. rewrite <-(Nat.add_1_r k), <-drop_drop, Hl. done. }
    destruct (t =? DT_NEEDED); [|apply IHk]. destruct (GetStringByIndex _ _ _ v 2); rewrite IHk; [done|]. by rewrite <-app_assoc.
Qed.

Lemma soname_rounds l1 v l2 : forall k it, drop k es = l1 ++ (DT_SONAME, v) :: l2 -> (forall e, e ∈ l1 -> e.1 <> DT_SONAME) -> GetNext c it = Some (at_entry k) ->
  rounds (S (length l1)) (soname_round file big c 2) it = inl (GetStringByIndex file big c v 2).
Proof.
  induction l1 as [|[t v'] l1 IH]; intros k it Hl Hno Hit; cbn [length].
  - assert (He : es !! k = Some (DT_SONAME, v)) by (rewrite <-(Nat.add_0_r k), <-lookup_drop, Hl; done).
    destruct (read_entry k _ v He) as [Et Ev]. cbn [rounds]. unfold soname_round. by rewrite Hit, Et, Ev.
  - assert (He : es !! k = Some (t, v')) by (rewrite <-(Nat.add_0_r k), <-lookup_drop, Hl; done). destruct (read_entry k _ _ He) as [Et Ev].
    change (rounds (S (S (length l1))) (soname_round file big c 2) it) with
      (match soname_round file big c 2 it with inl x => inl x | inr s => rounds (S (length l1)) (soname_round file big c 2) s end).
    unfold soname_round at 1. rewrite Hit, Et. rewrite (proj2 (Z.eqb_neq _ _)) by (apply (Hno (t, v')); set_solver).
    apply (IH (S k)); [|set_solver|apply next_entry; by eapply lookup_lt_Some]. rewrite <-(Nat.add_1_r k), <-drop_drop, Hl. done.
Qed.

Lemma entries_split : es = map (fun i => (DT_NEEDED, Z.of_nat (name_offset names i))) (seq 0 (length needed))
  ++ (DT_SONAME, Z.of_nat (name_offset names (length needed))) :: [(0, 0)].
Proof. done. Qed.

Lemma added_needed : added es = needed.
Proof.
  assert (H : forall k l, needed = take k needed ++ l -> length (take k needed) = k ->
    added (map (fun i => (DT_NEEDED, Z.of_nat (name_offset names i))) (seq k (length l))) = l).
  { intros k l. revert k. induction l as [|s l IH]; intros k E Hk; [done|]. cbn [length seq map].
    assert (Hi : needed !! k = Some s) by (rewrite E, lookup_app_r, Hk, Nat.sub_diag by lia; done).
    assert (Hs : names !! k = Some s) by (by apply lookup_app_l_Some). rewrite added_cons. cbn [fst snd]. rewrite Z.eqb_refl, (name_written k s Hs).
    destruct (Hnames s) as [Hne _]; [by eapply list_elem_of_lookup_2|]. destruct s as [|x s]; [done|]. cbn. f_equal.
    apply IH; [|rewrite length_take; apply lookup_lt_Some in Hi; lia]. rewrite E at 1. by rewrite (take_S_r _ _ _ Hi), <-app_assoc. }
  rewrite entries_split. unfold added. rewrite map_app, join_app. rewrite app_nil_r. apply (H 0%nat needed); done.
Qed.

Lemma needed_written : GetNeededLibsT file big c = Some needed.
Proof.
  unfold GetNeededLibsT. rewrite string_index_written, (loop_ends 64 (S (S (length es))) _ _ needed); [done| |].
  - rewrite (needed_rounds es 0 _ [] eq_refl ltac:(lia) first_entry). cbn [app]. by rewrite added_needed.
  - destruct sizes as (Hb & Hs & He & Hn). nia.
Qed.

Lemma soname_written : GetLibNameT file big c = Some soname.
Proof.
  unfold GetLibNameT. rewrite string_index_written, (loop_ends 64 (S (length needed)) _ _ soname); [done| |].
  - replace (length needed) with (length (map (fun i => (DT_NEEDED, Z.of_nat (name_offset names i))) (seq 0 (length needed)))) by (rewrite length_map; apply length_seq).
    rewrite (soname_rounds _ _ _ 0 _ entries_split); [f_equal; apply name_written| |apply first_entry].
    + by rewrite lookup_app_r, Nat.sub_diag by lia.
    + intros e (i & -> & _)%list_elem_of_fmap. done.
  - destruct sizes as (Hb & Hs & He & Hn). assert (length es = (length needed + 2)%nat) by (rewrite entries_split, length_app, length_map, length_seq; done). nia.
Qed.

(** The file after [Open]. *)
Lemma open_written errno : Open errno file = inl {| contents := file; big_endian_ := big; is_64bits_ := match c with Elf32 => false | Elf64 => true end |}.
Proof.
  unfold Open. rewrite (proj2 (Nat.ltb_ge _ _)) by (pose proof file_length; destruct sizes as (Hb & Hs & He & Hn); assert (132 <= base c) by (by destruct c); nia).
  assert (E : take 16 file = enc_fields big (take 16 (ehdr big c))) by (by destruct c, big).
  rewrite E. by destruct c, big.
Qed.
End Written.

(** Reading ends on every file, whatever its headers say: the search for a section, the reading of a string of a table, the name of the library and the list of the libraries it needs are found within the bounds of their loops. *)
Theorem reading_ends (f : ElfFile) :
  (exists name, GetLibName f = Some name) /\ (exists libs, GetNeededLibs f = Some libs) /\
  (forall type, exists r, loop 16 (type_round (contents f) (big_endian_ f) (elf_class f) type) (sections (contents f) (big_endian_ f) (elf_class f)) = inl r) /\
  (forall o n, 0 <= n < 2 ^ 64 -> exists r, loop 64 (string_round (contents f) (elf_class f)) (o, n, []) = inl r).
Proof.
  split_and!; [apply GetLibNameT_ends|apply GetNeededLibsT_ends|intros; apply type_loop_ends|intros; by apply string_loop_ends].
Qed.



(** [GetNext] visits one more entry than the section has: bytes after the section that
    look like an entry add a library. *)
Example entry_after_section :
  GetNeededLibsT (write_elf false Elf32 [str "liba.so"] (str "libb.so") ++ enc_fields false (dyn_fields Elf32 [(DT_NEEDED, 9)])) false Elf32
  = Some [str "liba.so"; str "libb.so"].
Proof. by vm_compute. Qed.
