(* ===== verification/Depends.v ===== *)
(** * ndk-depends: the graph of the libraries ([ndk-depends.cc])

    The search paths, the graph of the libraries that a file needs, its sorting and
    [main].  The host (its files, its environment) is an instance of [Host].  The state of
    the tool is its two output streams and the verbosity.  A panic is an error value: the
    message goes to [stderr] and the exit status is 1.

    Two bounds stand for resources of the process: [stack] for the depth of a recursion,
    and [memory] for the rounds of a loop that allocates.  A run that needs more is
    [Crash]. *)

From S2P Require Import Prelude Util StdMap DependsElf.
Open Scope Z_scope.
Open Scope ndk_scope.

(** ** The host *)

Inductive file_mode := S_IFREG | S_IFDIR | S_OTHER.

(** The files by path: their bytes, or the string for [errno]; [stat]; [glob], without
    results on failure; the environment; and the string for [errno] after a short read. *)
Class Host := {
  read_file : cstr -> cstr + cstr;
  stat : cstr -> file_mode + cstr;
  glob : cstr -> list cstr;
  getenv : cstr -> option cstr;
  short_error : cstr -> cstr
}.

(** ** Messages *)

Record tool := { g_verbose : Z; stdout : cstr; stderr : cstr }.

Definition printf (s : cstr) : M tool unit := fun t =>
  Ret tt {| g_verbose := g_verbose t; stdout := stdout t ++ s; stderr := stderr t |}.

Definition fprintf_stderr (s : cstr) : M tool unit := fun t =>
  Ret tt {| g_verbose := g_verbose t; stdout := stdout t; stderr := stderr t ++ s |}.

(** [panic] does not return; [exit_of] below gives what is left of the process. *)
Definition panic {A} (s : cstr) : M tool A := lfail (Msg "%s" [AS s]).

Definition LOG_N (level : Z) (s : cstr) : M tool unit := fun t => if level <=? g_verbose t then printf s t else Ret tt t.
Definition LOG (s : cstr) : M tool unit := LOG_N 1 s.
Definition LOG2 (s : cstr) : M tool unit := LOG_N 2 s.

Definition nl : cstr := [newline].

(** ** Path utilities *)

Definition path_last_dirsep (filepath : cstr) : option nat := strrchr filepath slash.

Definition path_dirname (filepath : cstr) : cstr :=
  match path_last_dirsep filepath with
  | None => str "."
  | Some O => str "/"
  | Some sep => take sep filepath
  end.

Definition path_basename (filepath : cstr) : cstr :=
  match path_last_dirsep filepath with
  | None => filepath
  | Some sep => drop (S sep) filepath
  end.

(** ** Library names *)

Definition IsLdSoConfSeparator (ch : ascii) : bool :=
  (zc ch =? 32) || (zc ch =? 9) || (zc ch =? 13) || (zc ch =? 10) || (zc ch =? 44) || (zc ch =? 58).

Definition kAndroidSystemLibs : list cstr :=
  [str "libc.so"; str "libdl.so"; str "liblog.so"; str "libm.so"; str "libstdc++.so"; str "libz.so"; str "libandroid.so";
   str "libjnigraphics.so"; str "libEGL.so"; str "libGLESv1_CM.so"; str "libGLESv2.so"; str "libOpenSLES.so"; str "libOpenMAXAL.so"].

Definition IsAndroidSystemLib (libname : cstr) : bool := existsb (fun l => bool_decide (libname = l)) kAndroidSystemLibs.

Definition IsAndroidNdkCompatibleLib (libname : cstr) : bool :=
  (6 <? length libname)%nat && bool_decide (take 3 libname = str "lib")
    && bool_decide (drop (length libname - 3) libname = str ".so").

(** The text of [print_usage]. *)
Definition usage : list cstr :=
  [str "Usage: ndk-depends [options] <elf-file>";
   str "";
   str "This program is used to print the dependencies of a given ELF";
   str "binary (shared library or executable). It supports any architecture,";
   str "endianess and bitness.";
   str "";
   str "By default, all dependencies are printed in topological order,";
   str "which means that each item always appear before other items";
   str "it depends on. Except in case of circular dependencies, which will";
   str "print a warning to stderr.";
   str "";
   str "The tool will try to find other libraries in the same directory";
   str "as the input ELF file. It is possible however to provide";
   str "additional search paths with the -L<path>, which adds an explicit path";
   str "or --host-libs which adds host-specific library paths, on ELF-based systems";
   str "only.";
   str "";
   str "Use --print-paths to print the path of each ELF binary.";
   str "";
   str "Use --print-direct to only print the direct dependencies";
   str "of the input ELF binary. All other options except --verbose will be ignored.";
   str "";
   str "Use --print-java to print a Java source fragment that loads the";
   str "libraries with System.loadLibrary() in the correct order. This can";
   str "be useful when copied into your application's Java source code.";
   str "";
   str "Use --print-dot to print the dependency graph as a .dot file that can be";
   str "parsed by the GraphViz tool. For example, to generate a PNG image of the";
   str "graph, use something like:";
   str "";
   str "  ndk-depends /path/to/libfoo.so --print-dot | dot -Tpng -o /tmp/graph.png";
   str "";
   str "The --verbose option prints debugging information, which can be useful";
   str "to diagnose problems with malformed ELF binaries.";
   str "";
   str "Valid options:";
   str "  --help|-h|-?    Print this message.";
   str "  --verbose       Increase verbosity.";
   str "  --print-direct  Only print direct dependencies.";
   str "  -L<path>        Append <path> to the library search path.";
   str "  --host-libs     Append host library search path.";
   str "  --print-paths   Print full paths of all libraries.";
   str "  --print-java    Print Java library load sequence.";
   str "  --print-dot     Print the dependency graph as a Graphviz .dot file.";
   str ""].

Section Tool.
Context `{Host}.

(** ** [/etc/ld.so.conf] *)

(** A line of at most [n] characters, with its newline, and the rest ([fgets]). *)
Fixpoint fgets (n : nat) (s : cstr) : cstr * cstr :=
  match n, s with
  | S n, x :: s => if bool_decide (x = newline) then ([x], s) else let '(l, r) := fgets n s in (x :: l, r)
  | _, _ => ([], s)
  end.

(** The newlines at the end of a line are dropped. *)
Definition chomp (line : cstr) : cstr := rev (skip_while (fun x => bool_decide (x = newline)) (rev line)).

(** The first characters that satisfy [f], and the rest. *)
Fixpoint span (f : ascii -> bool) (s : cstr) : cstr * cstr :=
  match s with
  | x :: s' => if f x then let '(a, b) := span f s' in (x :: a, b) else ([], s)
  | [] => ([], [])
  end.

Definition item_char (x : ascii) : bool := negb (IsLdSoConfSeparator x) && negb (bool_decide (x = "#"%char)).

Section Conf.
(** The recursive call for a file of an [include]. *)
Context (include : cstr -> list cstr -> M tool (list cstr)).

Fixpoint include_all (files : list cstr) (lib_search_path : list cstr) : M tool (list cstr) :=
  match files with
  | [] => lret lib_search_path
  | f :: files => let* l := include f lib_search_path in include_all files l
  end.

(** A directory name of the file. *)
Definition add_dir (dirpath : cstr) (lib_search_path : list cstr) : M tool (list cstr) :=
  match stat dirpath with
  | inr e => do* LOG (str "Could not stat(): " ++ dirpath ++ str ": " ++ e ++ nl) in lret lib_search_path
  | inl S_IFDIR => lret (lib_search_path ++ [dirpath])
  | inl _ => do* LOG (str "Not a directory: " ++ dirpath ++ nl) in lret lib_search_path
  end.

(** The items of a line from [begin]; every round reads at least one character. *)
Fixpoint conf_items (fuel : nat) (begin : cstr) (prev_is_include : bool) (lib_search_path : list cstr) : M tool (list cstr) :=
  match fuel with
  | O => lret lib_search_path
  | S fuel =>
      match skip_while IsLdSoConfSeparator begin with
      | [] => lret lib_search_path
      | x :: s =>
          if bool_decide (x = "#"%char) then lret lib_search_path
          else
            let '(item, next_pos) := span item_char (x :: s) in
            if prev_is_include then
              match item with
              | [] => lret lib_search_path
              | _ => let* l := include_all (glob item) lib_search_path in conf_items fuel next_pos false l
              end
            else if bool_decide (item = str "include") then conf_items fuel next_pos true lib_search_path
            else match item with
                 | [] => conf_items fuel next_pos false lib_search_path
                 | _ => let* l := add_dir item lib_search_path in conf_items fuel next_pos false l
                 end
      end
  end.

(** The lines of the file; [line] has 1024 bytes, and the characters after a NUL in it
    are not seen. *)
Fixpoint conf_lines (fuel : nat) (file : cstr) (lib_search_path : list cstr) : M tool (list cstr) :=
  match fuel, file with
  | S fuel, _ :: _ =>
      let '(line, rest) := fgets 1023 file in
      let begin := chomp (Str.until_nul line) in
      let* l := conf_items (length begin) begin false lib_search_path in conf_lines fuel rest l
  | _, _ => lret lib_search_path
  end.
End Conf.

Fixpoint AddHostLdSoConfPaths (stack : nat) (ld_so_conf_path : cstr) (lib_search_path : list cstr) : M tool (list cstr) :=
  match stack with
  | O => lcrash
  | S stack =>
      match read_file ld_so_conf_path with
      | inr _ => lret lib_search_path
      | inl file => conf_lines (AddHostLdSoConfPaths stack) (length file) file lib_search_path
      end
  end.

(** The loop over [LD_LIBRARY_PATH]; every round reads at least one character. *)
Fixpoint env_paths (fuel : nat) (pos : cstr) (lib_search_path : list cstr) : list cstr :=
  match fuel, pos with
  | S fuel, _ :: _ =>
      let '(path, next_pos) := match memchr colon pos with Some (path, next) => (path, next) | None => (pos, []) end in
      env_paths fuel next_pos (lib_search_path ++ [match path with [] => str "." | _ => path end])
  | _, _ => lib_search_path
  end.

Definition AddHostLibraryPaths (stack : nat) (lib_search_path : list cstr) : M tool (list cstr) :=
  let l := match getenv (str "LD_LIBRARY_PATH") with Some env => env_paths (length env) env lib_search_path | None => lib_search_path end in
  AddHostLdSoConfPaths stack (str "/etc/ld.so.conf") l.

(** ** The graph *)

(** A directory and a name. *)
Definition join_path (dir libname : cstr) : cstr :=
  match list.last dir with
  | Some x => if bool_decide (x = slash) || bool_decide (x = "\"%char) then dir ++ libname else dir ++ [slash] ++ libname
  | None => libname
  end.

Fixpoint find_in (libname : cstr) (search_paths : list cstr) : M tool (option cstr) :=
  match search_paths with
  | [] => lret None
  | dir :: search_paths =>
      match dir with
      | [] => find_in libname search_paths
      | _ =>
          let file_path := join_path dir libname in
          do* LOG2 (str "    in " ++ file_path ++ str ": ") in
          match stat file_path with
          | inr e => do* LOG2 (e ++ nl) in find_in libname search_paths
          | inl S_IFREG => do* LOG2 (str "OK" ++ nl) in lret (Some file_path)
          | inl _ => do* LOG2 (str "Not a regular file!" ++ nl) in find_in libname search_paths
          end
      end
  end.

Definition FindLibraryPath (libname : cstr) (search_paths : list cstr) : M tool (option cstr) :=
  do* LOG2 (str "  looking for library: " ++ libname ++ nl) in find_in libname search_paths.

Inductive Type_ := NODE_NONE | NODE_PATH | NODE_ERROR | NODE_SYSTEM.

Record LibNode := { type : Type_; node_value : cstr; needed_libs : list cstr }.

(** The default constructor. *)
Definition LibNode_new : LibNode := {| type := NODE_NONE; node_value := []; needed_libs := [] |}.

Abbreviation DependencyGraph := (list (cstr * LibNode)).

(** [ElfFile::Open]. *)
Definition open_path (path : cstr) : ElfFile + cstr :=
  match read_file path with
  | inl file => Open (short_error path) file
  | inr e => inr e
  end.

(** The loop over the needed libraries prints their names. *)
Fixpoint log_names (l : list cstr) : M tool unit :=
  match l with
  | [] => lret tt
  | s :: l => do* LOG (str " " ++ s) in log_names l
  end.

(** The name in the file is only printed: the node is entered under [libname]. *)
Definition UpdateDependencies (libname libpath : cstr) (deps : DependencyGraph) (queue : list cstr) : M tool (DependencyGraph * list cstr) :=
  if negb (bool_decide (libname = [])) && bool_decide (find libname deps <> None) then
    panic (str "INTERNAL: Library already in graph: " ++ libname)
  else
    match open_path libpath with
    | inr error => lret (set libname {| type := NODE_ERROR; node_value := error; needed_libs := [] |} deps, queue)
    | inl libfile =>
        let* name := lread (fun _ => GetLibName libfile) in
        let* soname :=
          if bool_decide (name = []) then lret libname
          else if negb (bool_decide (name = libname)) then
            do* fprintf_stderr (str "WARNING: Library has invalid soname ('" ++ name ++ str "'): " ++ libpath ++ nl) in lret name
          else lret name in
        let* needed := lread (fun _ => GetNeededLibs libfile) in
        do* LOG (soname ++ str " depends on:") in
        do* log_names needed in
        do* LOG nl in
        lret (set libname {| type := NODE_PATH; node_value := libpath; needed_libs := needed |} deps, queue ++ needed)
    end.

(** A loop that makes at most [fuel] rounds. *)
Fixpoint while {S St R} (fuel : nat) (step : St -> M S (R + St)) (st : St) : M S R :=
  match fuel with
  | O => lcrash
  | Datatypes.S fuel => let* r := step st in match r with inl r => lret r | inr st => while fuel step st end
  end.

Definition build_round (lib_search_path : list cstr) (st : DependencyGraph * list cstr) : M tool (DependencyGraph + DependencyGraph * list cstr) :=
  let '(deps, queue) := st in
  match queue with
  | [] => lret (inl deps)
  | libname :: queue =>
      match find libname deps with
      | Some _ => lret (inr (deps, queue))
      | None =>
          let* found := FindLibraryPath libname lib_search_path in
          match found with
          | Some libpath => let* st := UpdateDependencies libname libpath deps queue in lret (inr st)
          | None =>
              if IsAndroidSystemLib libname then
                do* LOG (str "Android system library: " ++ libname ++ nl) in
                lret (inr (set libname {| type := NODE_SYSTEM; node_value := libname; needed_libs := [] |} deps, queue))
              else
                do* fprintf_stderr (str "WARNING: Could not find library: " ++ libname ++ nl) in
                lret (inr (set libname {| type := NODE_ERROR; node_value := str "Could not find library"; needed_libs := [] |} deps, queue))
          end
      end
  end.

Definition BuildDependencyGraph (memory : nat) (root_libpath : cstr) (lib_search_path : list cstr) : M tool DependencyGraph :=
  let* st := UpdateDependencies (path_basename root_libpath) root_libpath [] [] in
  while memory (build_round lib_search_path) st.

Definition type_name (t : Type_) : cstr :=
  match t with NODE_NONE => str "NONE??" | NODE_PATH => str "PATH" | NODE_ERROR => str "ERROR" | NODE_SYSTEM => str "SYSTEM" end.

Fixpoint print_lines (f : cstr -> cstr) (l : list cstr) : M tool unit :=
  match l with
  | [] => lret tt
  | s :: l => do* printf (f s) in print_lines f l
  end.

Fixpoint dump_nodes (deps : DependencyGraph) : M tool unit :=
  match deps with
  | [] => lret tt
  | (libname, node) :: deps =>
      do* printf (str "[" ++ libname ++ str "] " ++ type_name (type node) ++ str " " ++ node_value node ++ nl) in
      do* (match type node with NODE_PATH => print_lines (fun s => str "    " ++ s ++ nl) (needed_libs node) | _ => lret tt end) in
      dump_nodes deps
  end.

Definition DumpDependencyGraph (deps : DependencyGraph) : M tool unit :=
  do* printf (str "Dependency graph:" ++ nl) in dump_nodes deps.

(** ** The sorted list *)

Definition INT_MAX : Z := 2 ^ 31 - 1.

Abbreviation VisitorMap := (list (cstr * Z)).

Definition visit (v : VisitorMap) (libname : cstr) : VisitorMap :=
  match find libname v with
  | Some n => set libname (swrap 32 (n + 1)) v
  | None => set libname 1 v
  end.

Definition count_node (v : VisitorMap) (entry : cstr * LibNode) : VisitorMap :=
  let v := match find entry.1 v with Some _ => v | None => set entry.1 0 v end in
  fold_left visit (needed_libs entry.2) v.

Definition count_visitors (deps : DependencyGraph) : VisitorMap := fold_left count_node deps [].

(** The last entry with the least number of visitors. *)
Definition min_of (m : cstr * Z) (entry : cstr * Z) : cstr * Z := if entry.2 <=? m.2 then entry else m.

Definition min_visited (v : VisitorMap) : cstr * Z := fold_left min_of v ([], INT_MAX).

(** [visitors[libname]--]: a key that is not in the map is entered with 0. *)
Definition leave (v : VisitorMap) (libname : cstr) : VisitorMap :=
  set libname (swrap 32 (default 0 (find libname v) - 1)) v.

(** [deps[libname]]: a key that is not in the map is entered. *)
Definition node_of (deps : DependencyGraph) (libname : cstr) : LibNode * DependencyGraph :=
  match find libname deps with
  | Some node => (node, deps)
  | None => (LibNode_new, set libname LibNode_new deps)
  end.

Definition sort_round (st : DependencyGraph * VisitorMap * list cstr) :
    M tool (DependencyGraph * list cstr + DependencyGraph * VisitorMap * list cstr) :=
  let '(deps, visitors, result) := st in
  match visitors with
  | [] => lret (inl (deps, result))
  | _ =>
      let '(min_libname, min_visitors) := min_visited visitors in
      if min_visitors =? INT_MAX then panic (str "INTERNAL: Could not find minimum visited node!")
      else
        do* (if negb (min_visitors =? 0) then fprintf_stderr (str "WARNING: Circular dependency found from: " ++ min_libname ++ nl) else lret tt) in
        let '(node, deps) := node_of deps min_libname in
        lret (inr (deps, fold_left leave (needed_libs node) (erase min_libname visitors), result ++ [min_libname]))
  end.

Definition GetTopologicalSortedLibraries (memory : nat) (deps : DependencyGraph) : M tool (DependencyGraph * list cstr) :=
  while memory sort_round (deps, count_visitors deps, []).
(** ** [main] *)

Inductive PrintFormat := PRINT_DEFAULT | PRINT_DIRECT | PRINT_PATHS | PRINT_JAVA | PRINT_DOT_FILE.

Record options := { do_help : bool; print_format : PrintFormat; lib_search_path : list cstr; params : list cstr }.

Definition set_format (f : PrintFormat) (o : options) : options :=
  {| do_help := do_help o; print_format := f; lib_search_path := lib_search_path o; params := params o |}.

Definition with_paths (l : list cstr) (o : options) : options :=
  {| do_help := do_help o; print_format := print_format o; lib_search_path := l; params := params o |}.

Definition more_verbose : M tool unit := fun t =>
  Ret tt {| g_verbose := g_verbose t + 1; stdout := stdout t; stderr := stderr t |}.

(** The arguments after the name of the program. *)
Fixpoint parse_options (stack : nat) (argv : list cstr) (o : options) : M tool options :=
  match argv with
  | [] => lret o
  | arg :: argv =>
      if bool_decide (list.head arg = Some dash) then
        if bool_decide (arg ∈ [str "--help"; str "-h"; str "-?"]) then
          parse_options stack argv {| do_help := true; print_format := print_format o; lib_search_path := lib_search_path o; params := params o |}
        else if bool_decide (arg = str "--print-direct") then parse_options stack argv (set_format PRINT_DIRECT o)
        else if bool_decide (arg = str "-L") then
          match argv with
          | [] => panic (str "Option -L requires an argument.")
          | path :: argv => parse_options stack argv (with_paths (lib_search_path o ++ [path]) o)
          end
        else if bool_decide (take 2 arg = str "-L") then parse_options stack argv (with_paths (lib_search_path o ++ [drop 2 arg]) o)
        else if bool_decide (arg = str "--host-libs") then
          let* l := AddHostLibraryPaths stack (lib_search_path o) in parse_options stack argv (with_paths l o)
        else if bool_decide (arg = str "--print-java") then parse_options stack argv (set_format PRINT_JAVA o)
        else if bool_decide (arg = str "--print-paths") then parse_options stack argv (set_format PRINT_PATHS o)
        else if bool_decide (arg = str "--print-dot") then parse_options stack argv (set_format PRINT_DOT_FILE o)
        else if bool_decide (arg = str "--verbose") then do* more_verbose in parse_options stack argv o
        else panic (str "Unsupported option '" ++ arg ++ str "', see --help.")
      else parse_options stack argv {| do_help := do_help o; print_format := print_format o; lib_search_path := lib_search_path o; params := params o ++ [arg] |}
  end.

(** [--print-java], for the list in reverse order. *)
Fixpoint print_java (libs : list cstr) : M tool unit :=
  match libs with
  | [] => lret tt
  | lib :: libs =>
      if IsAndroidSystemLib lib then print_java libs
      else if negb (IsAndroidNdkCompatibleLib lib) then
        do* fprintf_stderr (str "WARNING: Non-compatible library name ignored: " ++ lib ++ nl) in print_java libs
      else
        do* printf (str "System.loadLibrary(" ++ take (length lib - 6) (drop 3 lib) ++ str ");" ++ nl) in print_java libs
  end.

Definition quote (s : cstr) : cstr := [cz 34] ++ s ++ [cz 34].

(** [--print-dot]. *)
Fixpoint print_dot (deps : DependencyGraph) (libs : list cstr) : M tool unit :=
  match libs with
  | [] => lret tt
  | libname :: libs =>
      let '(node, deps) := node_of deps libname in
      do* print_lines (fun d => str "  " ++ quote libname ++ str " -> " ++ quote d ++ nl) (needed_libs node) in
      print_dot deps libs
  end.

(** [--print-paths]. *)
Fixpoint print_paths (deps : DependencyGraph) (libs : list cstr) : M tool unit :=
  match libs with
  | [] => lret tt
  | lib :: libs =>
      let '(node, deps) := node_of deps lib in
      let arrow := match type node with NODE_PATH => str " -> " | NODE_SYSTEM => str " -> $ /system/lib/" | _ => str " -> !! " end in
      do* printf (lib ++ arrow ++ node_value node ++ nl) in print_paths deps libs
  end.

Definition name_line (s : cstr) : cstr := s ++ nl.

(** The end of [main]: the sorted list in a format. *)
Definition print_sorted (format : PrintFormat) (deps : DependencyGraph) (needed_libs : list cstr) : M tool unit :=
  match format with
  | PRINT_JAVA => print_java (rev needed_libs)
  | PRINT_DOT_FILE =>
      do* printf (str "digraph {" ++ nl) in
      do* print_dot deps needed_libs in
      printf (str "}" ++ nl)
  | PRINT_PATHS => print_paths deps needed_libs
  | _ => print_lines name_line needed_libs
  end.

Definition main (stack memory : nat) (argv : list cstr) : M tool Z :=
  let* o := parse_options stack argv {| do_help := false; print_format := PRINT_DEFAULT; lib_search_path := []; params := [] |} in
  if do_help o then do* print_lines name_line usage in lret 0
  else
    match params o with
    | [] => panic (str "Please provide the path of an ELF shared library or executable." ++ nl ++ str "See --help for usage details.")
    | libfile_path :: _ =>
        let lib_search_path := path_dirname libfile_path :: lib_search_path o in
        let* t := lget in
        do* (if 1 <=? g_verbose t then
               do* printf (str "Current library search path:" ++ nl) in
               do* print_lines (fun s => str "  " ++ s ++ nl) lib_search_path in
               printf nl
             else lret tt) in
        match open_path libfile_path with
        | inr error => panic (str "Could not open file '" ++ libfile_path ++ str "': " ++ error)
        | inl libfile =>
            match print_format o with
            | PRINT_DIRECT =>
                let* needed := lread (fun _ => GetNeededLibs libfile) in
                do* print_lines name_line needed in lret 0
            | format =>
                do* LOG (str "Building dependency graph..." ++ nl) in
                let* deps := BuildDependencyGraph memory libfile_path lib_search_path in
                do* (if 2 <=? g_verbose t then DumpDependencyGraph deps else lret tt) in
                do* LOG (str "Building sorted list of binaries:" ++ nl) in
                let* r := GetTopologicalSortedLibraries memory deps in
                let '(deps, needed_libs) := r in
                do* print_sorted format deps needed_libs in lret 0
            end
        end
    end.

(** What is left of the process: its exit status and its output, or a crash. *)
Definition run_tool (stack memory : nat) (argv : list cstr) : option (Z * tool) :=
  match main stack memory argv {| g_verbose := 0; stdout := []; stderr := [] |} with
  | Ret status t => Some (status, t)
  | Fail (Msg _ args) t =>
      let message := match args with [AS s] => s | _ => [] end in
      Some (1, {| g_verbose := g_verbose t; stdout := stdout t; stderr := stderr t ++ str "ERROR: " ++ message ++ nl |})
  | Crash => None
  end.
End Tool.
