(* ===== verification/DependsSort.v ===== *)
(** * ndk-depends: the sorted list of libraries

    Theorems on [GetTopologicalSortedLibraries].  For a graph that contains the libraries
    its nodes need, the function returns if and only if no library needs itself, directly
    or through others; it then returns each library once, before the libraries it needs. *)

From stdpp Require Import finite.
From S2P Require Import Prelude Util StdMap DependsElf Depends.
Open Scope Z_scope.
Open Scope ndk_scope.

(** ** Specification *)

(** The libraries that a library of the graph needs. *)
Definition needs (deps : list (cstr * LibNode)) (x : cstr) : list cstr :=
  match find x deps with Some node => needed_libs node | None => [] end.

Definition needs_rel (deps : list (cstr * LibNode)) (x y : cstr) : Prop := y ∈ needs deps x.

(** A library that is needed is in the graph. *)
Definition closed (deps : list (cstr * LibNode)) : Prop := forall x y, y ∈ needs deps x -> y ∈ keys deps.

(** No library needs itself, directly or through others. *)
Definition acyclic (deps : list (cstr * LibNode)) : Prop := forall x, ~ tc (needs_rel deps) x x.

(** Every library of the list comes before the libraries it needs. *)
Definition topological (deps : list (cstr * LibNode)) (l : list cstr) : Prop :=
  forall l1 x l2, l = l1 ++ x :: l2 -> forall y, y ∈ needs deps x -> y ∈ l2.

(** The number of all the needed libraries, with repetitions. *)
Definition total (deps : list (cstr * LibNode)) : Z := Z.of_nat (length (mjoin (map (fun e => needed_libs e.2) deps))).

(** ** Counting *)

Fixpoint count (y : cstr) (l : list cstr) : Z :=
  match l with
  | [] => 0
  | x :: l => (if bool_decide (x = y) then 1 else 0) + count y l
  end.

Lemma count_app y l1 l2 : count y (l1 ++ l2) = count y l1 + count y l2.
Proof. induction l1 as [|x l1 IH]; [done|]. cbn. rewrite IH. lia. Qed.

Lemma count_bound y l : 0 <= count y l <= Z.of_nat (length l).
Proof. induction l as [|x l IH]; cbn [count length]; [lia|]. case_bool_decide; lia. Qed.

Lemma count_pos y l : 0 < count y l <-> y ∈ l.
Proof.
  induction l as [|x l IH]; cbn; [rewrite elem_of_nil; lia|]. rewrite elem_of_cons, <-IH. pose proof (count_bound y l). case_bool_decide; [subst; intuition lia|].
  split; [intros; right; lia|]. intros [->|?]; [done|lia].
Qed.

(** The number of times that the libraries of a list need [y]. *)
Definition incoming (deps : list (cstr * LibNode)) (l : list cstr) (y : cstr) : Z := count y (mjoin (map (needs deps) l)).

Lemma incoming_cons deps x l y : incoming deps (x :: l) y = count y (needs deps x) + incoming deps l y.
Proof. unfold incoming. cbn. apply count_app. Qed.

Lemma incoming_perm deps l l' y : l ≡ₚ l' -> incoming deps l y = incoming deps l' y.
Proof. induction 1; rewrite ?incoming_cons in *; lia. Qed.

Lemma incoming_pos deps l y : 0 < incoming deps l y <-> exists x, x ∈ l /\ y ∈ needs deps x.
Proof.
  unfold incoming. rewrite count_pos, list_elem_of_join. split.
  - intros (ns & Hy & Hns). apply list_elem_of_fmap in Hns as (x & -> & Hx). eauto.
  - intros (x & Hx & Hy). exists (needs deps x). split; [done|]. by apply (list_elem_of_fmap_2 (needs deps)).
Qed.

(** [v] holds the keys [K] and the number of occurrences in [L]. *)
Definition counts (K L : list cstr) (v : list (cstr * Z)) : Prop :=
  ordered v /\ (forall y, y ∈ keys v <-> y ∈ K \/ y ∈ L) /\ (forall y, default 0 (find y v) = count y L).

Lemma visit_counts K L v x : counts K L v -> Z.of_nat (length L) < INT_MAX -> counts K (L ++ [x]) (visit v x).
Proof.
  unfold INT_MAX. intros (Ho & Hk & Hc) Hl. unfold visit. assert (E : exists n, n = count x L + 1 /\ match find x v with Some n => set x (swrap 32 (n + 1)) v | None => set x 1 v end = set x n v).
  { exists (count x L + 1). split; [done|]. rewrite <-(Hc x). pose proof (Hc x) as Hx. pose proof (count_bound x L). destruct (find x v) as [n|]; cbn in *; [|done].
    rewrite swrap_small; [done|lia]. }
  destruct E as (n & Hn & ->). split_and!; [by apply ordered_set| |].
  - intros y. rewrite keys_set, Hk, elem_of_app, list_elem_of_singleton. tauto.
  - intros y. rewrite find_set, count_app. cbn. destruct (bool_decide_reflect (y = x)), (bool_decide_reflect (x = y)); subst; cbn; try done; rewrite ?Hc; lia.
Qed.

Lemma visits_counts K L v xs : counts K L v -> Z.of_nat (length L + length xs) <= INT_MAX -> counts K (L ++ xs) (fold_left visit xs v).
Proof.
  revert L v. induction xs as [|x xs IH]; intros L v Hv Hl; cbn [fold_left length] in *; [by rewrite app_nil_r|].
  replace (L ++ x :: xs) with ((L ++ [x]) ++ xs) by (by rewrite <-app_assoc). apply IH; [apply visit_counts; [done|lia]|rewrite length_app; cbn; lia].
Qed.

Lemma count_node_counts K L v e :
  counts K L v -> Z.of_nat (length L + length (needed_libs e.2)) <= INT_MAX -> counts (K ++ [e.1]) (L ++ needed_libs e.2) (count_node v e).
Proof.
  intros (Ho & Hk & Hc) Hl. unfold count_node. apply visits_counts; [|done]. destruct (find e.1 v) eqn:E.
  - split_and!; [done| |done]. intros y. rewrite Hk, elem_of_app, list_elem_of_singleton. split; [tauto|]. intros [[?| ->]|?]; [tauto| |tauto].
    apply Hk, find_keys. by rewrite E.
  - split_and!; [by apply ordered_set| |].
    + intros y. rewrite keys_set, Hk, elem_of_app, list_elem_of_singleton. tauto.
    + intros y. rewrite find_set. case_bool_decide; [|done]. subst. cbn. rewrite <-(Hc e.1), E. done.
Qed.

Lemma count_visitors_counts deps : total deps <= INT_MAX -> counts (keys deps) (mjoin (map (fun e => needed_libs e.2) deps)) (count_visitors deps).
Proof.
  intros Ht. assert (H : forall es K L v, counts K L v -> Z.of_nat (length L) + total es <= INT_MAX ->
    counts (K ++ keys es) (L ++ mjoin (map (fun e => needed_libs e.2) es)) (fold_left count_node es v)).
  { unfold total. induction es as [|e es IH]; intros K L v Hv Hl; [by rewrite !app_nil_r|]. change (mjoin (map (fun e => needed_libs e.2) (e :: es))) with (needed_libs e.2 ++ mjoin (map (fun e => needed_libs e.2) es)) in Hl |- *.
    rewrite length_app in Hl. change (keys (e :: es)) with ([e.1] ++ keys es). rewrite !(app_assoc _ _ (_ es)), !(app_assoc _ _ (mjoin _)).
    apply IH; [apply count_node_counts; [done|lia]|rewrite length_app; lia]. }
  apply (H deps [] [] []); [|cbn; lia]. split_and!; [constructor| |done]. intros y. cbn. rewrite elem_of_nil. tauto.
Qed.

(** ** The least number of visitors *)

Lemma min_of_spec v m : (fold_left min_of v m = m \/ fold_left min_of v m ∈ v) /\ (fold_left min_of v m).2 <= m.2 /\
  forall e, e ∈ v -> (fold_left min_of v m).2 <= e.2.
Proof.
  revert m. induction v as [|e v IH]; intros m; cbn [fold_left]; [split_and!; [by left|lia|by intros e He%elem_of_nil]|].
  destruct (IH (min_of m e)) as (H1 & H2 & H3). unfold min_of in *. destruct (Z.leb_spec e.2 m.2); split_and!; try lia.
  - right. rewrite elem_of_cons. tauto.
  - intros e' He. apply elem_of_cons in He as [->|He]; [done|by apply H3].
  - rewrite elem_of_cons. tauto.
  - intros e' He. apply elem_of_cons in He as [->|He]; [lia|by apply H3].
Qed.

Lemma min_visited_spec v : v <> [] -> (forall k n, (k, n) ∈ v -> n <= INT_MAX) -> exists k n, min_visited v = (k, n) /\ (k, n) ∈ v /\ forall k' n', (k', n') ∈ v -> n <= n'.
Proof.
  destruct v as [|[k n] v]; [done|]. intros _ Hb. unfold min_visited. cbn [fold_left].
  replace (min_of ([], INT_MAX) (k, n)) with (k, n); [|unfold min_of; cbn; rewrite (proj2 (Z.leb_le _ _)); [done|apply (Hb k); set_solver]].
  destruct (min_of_spec v (k, n)) as (H1 & H2 & H3). destruct (fold_left min_of v (k, n)) as [k1 n1]. cbn in *. exists k1, n1. split_and!; [done| |].
  - rewrite elem_of_cons. naive_solver.
  - intros k' n' Hin. apply elem_of_cons in Hin as [[= -> ->]|Hin]; [done|by apply (H3 (k', n'))].
Qed.

(** ** The visits that end *)

Lemma ordered_leave v ns : ordered v -> ordered (fold_left leave ns v).
Proof. revert v. induction ns as [|x ns IH]; intros v Hv; [done|]. cbn. by apply IH, ordered_set. Qed.

Lemma keys_leave v ns y : y ∈ keys (fold_left leave ns v) <-> y ∈ keys v \/ y ∈ ns.
Proof.
  revert v. induction ns as [|x ns IH]; intros v; cbn [fold_left]; [rewrite elem_of_nil; tauto|]. rewrite IH. unfold leave. rewrite keys_set, elem_of_cons. tauto.
Qed.

Lemma find_leave ns v : (forall y, y ∈ ns -> y ∈ keys v) -> (forall y n, find y v = Some n -> count y ns <= n <= INT_MAX) ->
  forall y n, find y v = Some n -> find y (fold_left leave ns v) = Some (n - count y ns).
Proof.
  unfold INT_MAX. revert v. induction ns as [|x ns IH]; intros v Hk Hb y n Hy; cbn [fold_left count] in *; [rewrite Hy; f_equal; lia|].
  assert (Hx : x ∈ keys v) by (apply Hk; set_solver). apply find_keys in Hx. destruct (find x v) as [m|] eqn:Ex; [|done].
  pose proof (Hb x m Ex) as Hm. rewrite bool_decide_true in Hm by done. pose proof (count_bound x ns).
  assert (El : leave v x = set x (m - 1) v) by (unfold leave; rewrite Ex; cbn; rewrite swrap_small; [done|lia]). rewrite El.
  assert (Ef : forall z, find z (set x (m - 1) v) = if bool_decide (z = x) then Some (m - 1) else find z v) by (intros; apply find_set).
  rewrite (IH (set x (m - 1) v)) with (n := if bool_decide (x = y) then n - 1 else n).
  - f_equal. case_bool_decide; lia.
  - intros z Hz. rewrite keys_set. right. apply Hk. set_solver.
  - intros z k. rewrite Ef. specialize (Hb z). destruct (bool_decide_reflect (z = x)) as [->|]; [intros [= <-]; lia|]. intros Hz. specialize (Hb k Hz).
    rewrite bool_decide_false in Hb by done. lia.
  - rewrite Ef. destruct (bool_decide_reflect (y = x)) as [->|]; [|rewrite bool_decide_false by done; done]. rewrite bool_decide_true by done. congruence.
Qed.

(** ** Cycles *)

(** In a list whose members all have a predecessor in it there is a cycle. *)
Lemma no_source_cycle {A} (R : A -> A -> Prop) (l : list A) : l <> [] -> (forall x, x ∈ l -> exists y, y ∈ l /\ R y x) -> exists x, tc R x x.
Proof.
  intros Hne Hpre. assert (Hchain : forall n, exists ch, length ch = n /\ (forall x, x ∈ ch -> x ∈ l) /\ forall i j x y, (i < j)%nat -> ch !! i = Some x -> ch !! j = Some y -> tc R x y).
  { induction n as [|n (ch & Hl & Hin & Hc)]; [exists []; split_and!; [done|by intros x ?%elem_of_nil|by intros i j]|]. destruct ch as [|x ch].
    - destruct l as [|a l]; [done|]. exists [a]. split_and!; [by subst n|intros z ->%list_elem_of_singleton; by left|].
      intros i [|j] x y Hij Hx Hy; [lia|]. by destruct j.
    - destruct (Hpre x) as (w & Hw & HR); [apply Hin; by left|]. exists (w :: x :: ch).
      split_and!; [cbn in *; lia|intros z [->|Hz]%elem_of_cons; [done|by apply Hin]|].
      intros [|i] [|j] a b Hij Ha Hb; [lia| |lia|].
      + injection Ha as ->. destruct j as [|j]; [injection Hb as ->; by apply tc_once|]. eapply tc_l; [exact HR|]. apply (Hc 0%nat (S j)); [lia|done|done].
      + apply (Hc i j); [lia|done|done]. }
  destruct (Hchain (S (length l))) as (ch & Hl & Hin & Hc).
  destruct (list_pigeonhole ch l) as (i & j & x & Hij & Hi & Hj); [intros x; apply Hin|lia|]. exists x. by eapply Hc.
Qed.

Section Sorting.
Context (deps : list (cstr * LibNode)) (Hdeps : ordered deps) (Hclosed : closed deps) (Htotal : total deps <= INT_MAX).

Lemma needs_map : map (needs deps) (keys deps) = map (fun e => needed_libs e.2) deps.
Proof.
  unfold keys. rewrite map_map. apply map_ext_in. intros [k node] Hin. cbn. unfold needs. apply list_elem_of_In in Hin.
  by rewrite (proj2 (find_elem k node deps Hdeps) Hin).
Qed.

(** The state of the loop: the libraries that are left, each with the number of times
    that those left need it. *)
Record sorting (v : list (cstr * Z)) (result : list cstr) : Prop := {
  s_ordered : ordered v;
  s_perm : result ++ keys v ≡ₚ keys deps;
  s_count : forall y n, find y v = Some n -> n = incoming deps (keys v) y;
  s_closed : forall x y, x ∈ keys v -> y ∈ needs deps x -> y ∈ keys v;
  s_result : forall l1 x l2, result = l1 ++ x :: l2 -> forall y, y ∈ needs deps x -> y ∈ l2 ++ keys v
}.

Lemma keys_eq_perm {V W} (v : list (cstr * V)) (w : list (cstr * W)) : ordered v -> ordered w -> (forall y, y ∈ keys v <-> y ∈ keys w) -> keys v ≡ₚ keys w.
Proof. intros Hv Hw H. apply NoDup_Permutation; [by apply ordered_NoDup|by apply ordered_NoDup|done]. Qed.

Lemma sorting_start : sorting (count_visitors deps) [].
Proof.
  destruct (count_visitors_counts deps Htotal) as (Ho & Hk & Hc).
  assert (Hp : keys (count_visitors deps) ≡ₚ keys deps).
  { apply keys_eq_perm; [done..|]. intros y. rewrite Hk. split; [|tauto]. intros [?|Hy]; [done|]. rewrite <-needs_map in Hy.
    apply list_elem_of_join in Hy as (ns & Hy & Hns). apply list_elem_of_fmap in Hns as (x & -> & _). by eapply Hclosed. }
  split; [done|done| | |].
  - intros y n Hn. rewrite (incoming_perm deps _ _ y Hp). unfold incoming. rewrite needs_map, <-Hc, Hn. done.
  - intros x y _ Hy. rewrite Hp. by eapply Hclosed.
  - intros l1 x l2 E. by destruct l1.
Qed.

Lemma incoming_le v result y : sorting v result -> 0 <= incoming deps (keys v) y <= INT_MAX.
Proof.
  intros Hs. assert (E : incoming deps (keys deps) y = incoming deps result y + incoming deps (keys v) y).
  { rewrite <-(incoming_perm deps _ _ y (s_perm _ _ Hs)). unfold incoming. by rewrite map_app, join_app, count_app. }
  assert (Hb : incoming deps (keys deps) y <= INT_MAX) by (unfold incoming; rewrite needs_map; etrans; [apply count_bound|done]).
  unfold incoming in *. pose proof (count_bound y (mjoin (map (needs deps) result))). pose proof (count_bound y (mjoin (map (needs deps) (keys v)))). lia.
Qed.

Lemma keys_erase_perm (v : list (cstr * Z)) m : ordered v -> m ∈ keys v -> keys v ≡ₚ m :: keys (erase m v).
Proof.
  intros Hv Hm. apply NoDup_Permutation; [by apply ordered_NoDup| |].
  - apply list.NoDup_cons. split; [rewrite keys_erase by done; tauto|by apply ordered_NoDup, ordered_erase].
  - intros y. rewrite elem_of_cons, keys_erase by done. destruct (decide (y = m)); naive_solver.
Qed.

(** A library that no other one needs is found. *)
Lemma min_is_source v result : acyclic deps -> sorting v result -> v <> [] ->
  exists m, min_visited v = (m, 0) /\ m ∈ keys v /\ incoming deps (keys v) m = 0.
Proof.
  intros Hac Hs Hne. pose proof (s_ordered _ _ Hs) as Ho. assert (Hv : forall k n, (k, n) ∈ v -> n = incoming deps (keys v) k).
  { intros k n Hin. apply (s_count _ _ Hs). by apply find_elem. }
  destruct (min_visited_spec v Hne) as (m & n & Em & Hin & Hmin).
  { intros k n Hin. rewrite (Hv k n Hin). by eapply incoming_le. }
  pose proof (Hv m n Hin) as Hn. pose proof (incoming_le v result m Hs) as Hb.
  destruct (Z.eq_dec n 0) as [->|Hnz]; [exists m; split_and!; [done| |done]; by apply (list_elem_of_fmap_2 fst) in Hin|].
  exfalso. destruct (no_source_cycle (needs_rel deps) (keys v)) as [x Hx]; [by destruct v| |by apply (Hac x)].
  intros x Hx. apply list_elem_of_fmap in Hx as ([k nk] & -> & Hk). pose proof (Hmin k nk Hk). apply (incoming_pos deps (keys v) k). rewrite <-(Hv k nk Hk). lia.
Qed.

Lemma sorting_step v result m : sorting v result -> m ∈ keys v -> incoming deps (keys v) m = 0 ->
  sorting (fold_left leave (needs deps m) (erase m v)) (result ++ [m]).
Proof.
  intros Hs Hm H0. pose proof (s_ordered _ _ Hs) as Ho. pose proof (keys_erase_perm v m Ho Hm) as Hp.
  assert (Hno : forall x, x ∈ keys v -> m ∉ needs deps x) by (intros x Hx Hn; assert (0 < incoming deps (keys v) m) by (apply incoming_pos; eauto); lia).
  assert (Hsub : forall y, y ∈ needs deps m -> y ∈ keys (erase m v)).
  { intros y Hy. apply keys_erase; [done|]. split; [intros ->; by eapply (Hno m)|by eapply (s_closed _ _ Hs)]. }
  assert (Hk : forall y, y ∈ keys (fold_left leave (needs deps m) (erase m v)) <-> y ∈ keys (erase m v)) by (intros y; rewrite keys_leave; naive_solver).
  assert (Hq : keys (fold_left leave (needs deps m) (erase m v)) ≡ₚ keys (erase m v)).
  { apply keys_eq_perm; [by apply ordered_leave, ordered_erase|by apply ordered_erase|done]. }
  split.
  - by apply ordered_leave, ordered_erase.
  - rewrite Hq, <-app_assoc. cbn. rewrite <-Hp. apply Hs.
  - intros y n Hy. assert (Hin : y ∈ keys (erase m v)) by (apply Hk, find_keys; by rewrite Hy). apply keys_erase in Hin as [Hne Hin]; [|done].
    apply find_keys in Hin. destruct (find y v) as [n0|] eqn:E0; [|done].
    assert (Hval : forall z k, find z (erase m v) = Some k -> k = count z (needs deps m) + incoming deps (keys (erase m v)) z).
    { intros z k. rewrite find_erase by done. case_bool_decide; [done|]. intros Hz. rewrite (s_count _ _ Hs z k Hz), (incoming_perm deps _ _ z Hp). apply incoming_cons. }
    assert (E : find y (erase m v) = Some n0) by (rewrite find_erase, bool_decide_false by done; done).
    rewrite (find_leave _ (erase m v) Hsub) with (n := n0) in Hy; [| |done].
    + injection Hy as <-. rewrite (Hval y n0 E), (incoming_perm deps _ _ y Hq). lia.
    + intros z k Hz. split; [rewrite (Hval z k Hz); unfold incoming; pose proof (count_bound z (mjoin (map (needs deps) (keys (erase m v))))); lia|].
      rewrite find_erase in Hz by done. case_bool_decide; [done|]. rewrite (s_count _ _ Hs z k Hz). by eapply incoming_le.
  - intros x y Hx Hy. apply Hk. apply Hk, keys_erase in Hx as [Hne Hx]; [|done]. apply keys_erase; [done|]. split; [intros ->; by eapply Hno|by eapply (s_closed _ _ Hs)].
  - intros l1 x l2 E y Hy. rewrite elem_of_app, Hk. destruct l2 as [|z l2] using rev_ind.
    + apply app_inj_tail in E as [-> ->]. right. by apply Hsub.
    + clear IHl2. rewrite app_comm_cons, app_assoc in E. apply app_inj_tail in E as [E ->].
      pose proof (s_result _ _ Hs l1 x l2 E y Hy) as H. rewrite Hp in H. rewrite elem_of_app in H |- *. rewrite elem_of_cons in H. rewrite list_elem_of_singleton. tauto.
Qed.

Lemma node_of_key x : x ∈ keys deps -> exists node, node_of deps x = (node, deps) /\ needed_libs node = needs deps x.
Proof. intros Hx. apply find_keys in Hx. unfold node_of, needs. destruct (find x deps) as [node|]; [|done]. by exists node. Qed.

(** A round that removes [m]. *)
Lemma sort_round_removes v result m n t : min_visited v = (m, n) -> v <> [] -> m ∈ keys deps -> n <> INT_MAX ->
  exists t', sort_round (deps, v, result) t = Ret (inr (deps, fold_left leave (needs deps m) (erase m v), result ++ [m])) t' /\ (n = 0 -> t' = t).
Proof.
  intros Em Hne Hm Hn. destruct (node_of_key m Hm) as (node & En & Ens). unfold sort_round. destruct v as [|e v]; [done|].
  rewrite Em, (proj2 (Z.eqb_neq _ _) Hn), En, Ens. destruct (Z.eqb_spec n 0); cbn [negb]; [by exists t|]. by eexists.
Qed.

Lemma acyclic_runs n : acyclic deps -> forall v result, length v = n -> sorting v result ->
  exists order, order ≡ₚ keys deps /\ topological deps order /\
    forall memory t, (n < memory)%nat -> while memory sort_round (deps, v, result) t = Ret (deps, order) t.
Proof.
  intros Hac. induction n as [|n IH]; intros v result Hl Hs.
  - destruct v; [|done]. exists result. split_and!.
    + rewrite <-(s_perm _ _ Hs). by rewrite app_nil_r.
    + intros l1 x l2 E y Hy. pose proof (s_result _ _ Hs l1 x l2 E y Hy) as H. by rewrite app_nil_r in H.
    + intros [|memory] t Hm; [lia|]. done.
  - assert (Hne : v <> []) by (by destruct v). destruct (min_is_source v result Hac Hs Hne) as (m & Em & Hm & H0).
    assert (Hd : m ∈ keys deps) by (rewrite <-(s_perm _ _ Hs), elem_of_app; by right). pose proof (sorting_step v result m Hs Hm H0) as Hs'.
    assert (Hlen : length (fold_left leave (needs deps m) (erase m v)) = n).
    { assert (H : length (result ++ keys v) = length ((result ++ [m]) ++ keys (fold_left leave (needs deps m) (erase m v)))) by (by rewrite (s_perm _ _ Hs), (s_perm _ _ Hs')).
      rewrite !length_app in H. unfold keys in H. rewrite !length_map in H. cbn in H. lia. }
    destruct (IH _ _ Hlen Hs') as (order & Hp & Ht & Hr). exists order. split_and!; [done..|].
    intros [|memory] t Hmem; [lia|]. destruct (sort_round_removes v result m 0 t Em Hne Hd ltac:(done)) as (t' & Er & Et). specialize (Et eq_refl) as ->.
    cbn [while]. rewrite (lbind_step _ _ _ _ _ Er). apply Hr. lia.
Qed.

Lemma cycle_next x : tc (needs_rel deps) x x -> exists y, y ∈ needs deps x /\ tc (needs_rel deps) y y.
Proof.
  assert (Hs : forall a b, tc (needs_rel deps) a b -> exists y, needs_rel deps a y /\ rtc (needs_rel deps) y b).
  { intros a b [c d|c d e Hy Hz]; [eauto using rtc_refl|eauto using tc_rtc]. }
  intros H. destruct (Hs x x H) as (y & Hy & Hr). exists y. split; [done|]. eapply tc_rtc_l; [exact Hr|by apply tc_once].
Qed.

(** A library that needs itself is visited again and again. *)
Lemma cycle_runs memory : forall v result t r t', ordered v -> (forall y, y ∈ keys v -> y ∈ keys deps) ->
  (exists x, x ∈ keys v /\ tc (needs_rel deps) x x) -> while memory sort_round (deps, v, result) t <> Ret r t'.
Proof.
  induction memory as [|memory IH]; intros v result t r t' Ho Hk (x & Hx & Hc); [done|]. assert (Hne : v <> []) by (by intros ->; apply elem_of_nil in Hx).
  cbn [while]. destruct (min_visited v) as [m n] eqn:Em. destruct (Z.eq_dec n INT_MAX) as [->|Hn].
  { unfold lbind, sort_round. destruct v; [done|]. by rewrite Em. }
  assert (Hm : m ∈ keys v). { unfold min_visited in Em. destruct (min_of_spec v ([], INT_MAX)) as ([E|E] & _ & _); rewrite Em in E; [by injection E|].
    by apply (list_elem_of_fmap_2 fst) in E. }
  destruct (sort_round_removes v result m n t Em Hne (Hk m Hm) Hn) as (t1 & Er & _). rewrite (lbind_step _ _ _ _ _ Er).
  apply IH; [by apply ordered_leave, ordered_erase| |].
  - intros y [Hy|Hy]%keys_leave; [by apply Hk, (keys_erase_sub m)|by eapply Hclosed].
  - destruct (decide (x = m)) as [->|Hxm].
    + destruct (cycle_next m Hc) as (y & Hy & Hyc). exists y. split; [|done]. rewrite keys_leave. by right.
    + exists x. split; [|done]. rewrite keys_leave, keys_erase by done. by left.
Qed.
End Sorting.

(** The two directions, for the clients of the function. *)
Lemma sort_returns deps : ordered deps -> closed deps -> total deps <= INT_MAX -> acyclic deps ->
  exists order, order ≡ₚ keys deps /\ topological deps order /\
    forall memory t, (length deps < memory)%nat -> GetTopologicalSortedLibraries memory deps t = Ret (deps, order) t.
Proof.
  intros Ho Hc Ht Hac. pose proof (sorting_start deps Ho Hc Ht) as Hs. pose proof (s_perm _ _ _ Hs) as Hp. apply Permutation_length in Hp. cbn [app] in Hp.
  unfold keys in Hp. rewrite !length_map in Hp. unfold GetTopologicalSortedLibraries. rewrite <-Hp. by apply acyclic_runs.
Qed.

Lemma sort_cycles deps x memory t r t' : ordered deps -> closed deps -> total deps <= INT_MAX -> tc (needs_rel deps) x x ->
  GetTopologicalSortedLibraries memory deps t <> Ret r t'.
Proof.
  intros Ho Hc Ht Hx. pose proof (sorting_start deps Ho Hc Ht) as Hs. pose proof (s_perm _ _ _ Hs) as Hp. cbn [app] in Hp.
  apply cycle_runs; [done|apply Hs|intros y Hy; by rewrite <-Hp|].
  destruct (cycle_next deps x Hx) as (y & Hy & Hyc). exists y. split; [|done]. rewrite Hp. by eapply Hc.
Qed.

(** A graph whose edges go down has no cycle. *)
Lemma ranked_acyclic deps (rank : cstr -> nat) : (forall x y, y ∈ needs deps x -> (rank y < rank x)%nat) -> acyclic deps.
Proof.
  intros Hr x Hx. assert (H : forall a b, tc (needs_rel deps) a b -> (rank b < rank a)%nat) by (induction 1 as [a b H|a b c H _ IH]; apply Hr in H; lia).
  specialize (H x x Hx). lia.
Qed.

(** C34: for a graph that contains the libraries its nodes need, [GetTopologicalSortedLibraries] returns if and only if no library needs itself, directly or through others; the list then has each library of the graph once, before the libraries it needs, and no warning is printed. *)
Theorem sorted_iff_acyclic (deps : list (cstr * LibNode)) :
  ordered deps -> closed deps -> total deps <= INT_MAX ->
  (acyclic deps -> exists order, order ≡ₚ keys deps /\ topological deps order /\
     forall memory t, (length deps < memory)%nat -> GetTopologicalSortedLibraries memory deps t = Ret (deps, order) t) /\
  ((exists memory t r t', GetTopologicalSortedLibraries memory deps t = Ret r t') -> acyclic deps).
Proof.
  intros Ho Hc Ht. split; [by apply sort_returns|]. intros (memory & t & r & t' & E) x Hx. by eapply sort_cycles in E.
Qed.

(** A library that needs two others, one of which needs the other. *)
Definition three : list (cstr * LibNode) :=
  [(str "liba.so", {| type := NODE_PATH; node_value := str "d/liba.so"; needed_libs := [str "libc.so"; str "libb.so"] |});
   (str "libb.so", {| type := NODE_PATH; node_value := str "d/libb.so"; needed_libs := [str "libc.so"] |});
   (str "libc.so", {| type := NODE_SYSTEM; node_value := str "libc.so"; needed_libs := [] |})].

Lemma needs_three x y : y ∈ needs three x -> (x = str "liba.so" /\ (y = str "libc.so" \/ y = str "libb.so")) \/ (x = str "libb.so" /\ y = str "libc.so").
Proof.
  unfold needs, three. cbn [find]. repeat case_bool_decide; cbn [needed_libs]; intros Hy; [left|right|by apply elem_of_nil in Hy..]; (split; [done|]).
  - apply elem_of_cons in Hy as [->|Hy]; [by left|right; by apply list_elem_of_singleton in Hy].
  - by apply list_elem_of_singleton in Hy.
Qed.

Lemma sorted_iff_acyclic_witness :
  exists order, order ≡ₚ keys three /\ topological three order /\
    forall memory t, (length three < memory)%nat -> GetTopologicalSortedLibraries memory three t = Ret (three, order) t.
Proof.
  apply sorted_iff_acyclic.
  - repeat (apply ordered_cons; split; [|intros k Hk; repeat (apply elem_of_cons in Hk as [->|Hk]; [done|]); by apply elem_of_nil in Hk]). constructor.
  - intros x y [[-> [->| ->]]|[-> ->]]%needs_three; cbn; set_solver.
  - done.
  - apply (ranked_acyclic three (fun x => if decide (x = str "liba.so") then 2 else if decide (x = str "libb.so") then 1 else 0)%nat).
    intros x y [[-> [->| ->]]|[-> ->]]%needs_three; vm_compute; lia.
Defined.

(** Two libraries that need each other: the rounds of the loop enter them again, with
    negative numbers of visitors, and the list grows for as long as there is memory. *)
Definition circular : list (cstr * LibNode) :=
  [(str "liba.so", {| type := NODE_PATH; node_value := str "d/liba.so"; needed_libs := [str "libb.so"] |});
   (str "libb.so", {| type := NODE_PATH; node_value := str "d/libb.so"; needed_libs := [str "liba.so"] |})].

Example circular_never_sorted memory t r t' : GetTopologicalSortedLibraries memory circular t <> Ret r t'.
Proof.
  apply (sort_cycles circular (str "liba.so")).
  - repeat (apply ordered_cons; split; [|intros k Hk; repeat (apply elem_of_cons in Hk as [->|Hk]; [done|]); by apply elem_of_nil in Hk]). constructor.
  - intros x y. unfold needs, circular. cbn [find]. repeat case_bool_decide; cbn; set_solver.
  - done.
  - apply (tc_l _ _ (str "libb.so")); [|apply tc_once]; apply list_elem_of_singleton; done.
Qed.
