(* ===== verification/DependsGraph.v ===== *)
(** * ndk-depends: the graph and the output

    Theorems on [BuildDependencyGraph] and [main].  On a host with finitely many files the
    graph is built, and it has exactly the libraries that the file needs, directly or
    through others.  The output is then the sorted list of these libraries, in each of the
    formats. *)

From S2P Require Import Prelude Util StdMap DependsElf Depends DependsSort.
Open Scope Z_scope.
Open Scope ndk_scope.

(** ** Messages *)

(** A change of the state by messages: nothing goes to [stdout] if the tool is not
    verbose. *)
Definition logs (t t' : tool) : Prop := g_verbose t' = g_verbose t /\ (g_verbose t = 0 -> stdout t' = stdout t).

#[global] Instance logs_preorder : PreOrder logs.
Proof. split; [done|]. intros t1 t2 t3 [E1 O1] [E2 O2]. split; [congruence|]. intros E. rewrite O2, O1 by congruence. done. Qed.

(** An operation that returns [r] and that only prints messages. *)
Definition says {A} (c : M tool A) (r : A) : Prop := forall t, exists t', c t = Ret r t' /\ logs t t'.

Lemma says_ret {A} (r : A) : says (lret r) r.
Proof. intros t. by exists t. Qed.

Lemma says_bind {A B} (c : M tool A) (k : A -> M tool B) a b : says c a -> says (k a) b -> says (lbind c k) b.
Proof.
  intros Hc Hk t. destruct (Hc t) as (t1 & E1 & L1). destruct (Hk t1) as (t2 & E2 & L2). exists t2. rewrite (lbind_step _ _ _ _ _ E1). split; [done|by etrans].
Qed.

Lemma says_LOG_N level s : 0 < level -> says (LOG_N level s) tt.
Proof.
  intros Hl t. unfold LOG_N. destruct (Z.leb_spec level (g_verbose t)); [|by exists t]. eexists. split; [done|]. split; [done|]. intros E. lia.
Qed.

Lemma says_LOG s : says (LOG s) tt.
Proof. by apply says_LOG_N. Qed.

Lemma says_LOG2 s : says (LOG2 s) tt.
Proof. by apply says_LOG_N. Qed.

Lemma says_stderr s : says (fprintf_stderr s) tt.
Proof. intros t. by eexists. Qed.

Lemma says_read {A} (o : option A) a : o = Some a -> says (lread (fun _ => o)) a.
Proof. intros -> t. by exists t. Qed.

Create HintDb says.
#[export] Hint Resolve says_ret says_LOG says_LOG2 says_stderr says_read : says.

(** Step through the messages of an operation. *)
Ltac say := repeat first [progress eauto with says | eapply says_bind; [solve [eauto with says]|] | case_match; try done].

Lemma says_log_names l : says (log_names l) tt.
Proof. induction l as [|s l IH]; [apply says_ret|]. eapply says_bind; [apply says_LOG|done]. Qed.

#[export] Hint Resolve says_log_names : says.

Section Graph.
Context `{Host} (root : cstr) (search : list cstr).

(** ** Specification *)

Fixpoint find_path (libname : cstr) (search_paths : list cstr) : option cstr :=
  match search_paths with
  | [] => None
  | [] :: search_paths => find_path libname search_paths
  | dir :: search_paths =>
      match stat (join_path dir libname) with
      | inl S_IFREG => Some (join_path dir libname)
      | _ => find_path libname search_paths
      end
  end.

(** The libraries that a file needs. *)
Definition needed_of (f : ElfFile) : list cstr := default [] (GetNeededLibs f).

Definition path_node (path : cstr) : LibNode :=
  match open_path path with
  | inl f => {| type := NODE_PATH; node_value := path; needed_libs := needed_of f |}
  | inr e => {| type := NODE_ERROR; node_value := e; needed_libs := [] |}
  end.

(** What is known of a library: the root, a file in the search path, a library of the
    system, or nothing. *)
Definition lib_node (name : cstr) : LibNode :=
  if bool_decide (name = path_basename root) then path_node root
  else match find_path name search with
       | Some path => path_node path
       | None =>
           if IsAndroidSystemLib name then {| type := NODE_SYSTEM; node_value := name; needed_libs := [] |}
           else {| type := NODE_ERROR; node_value := str "Could not find library"; needed_libs := [] |}
       end.

Definition lib_needs (x y : cstr) : Prop := y ∈ needed_libs (lib_node x).

(** The libraries that the root needs, directly or through others, and the root. *)
Definition reachable (x : cstr) : Prop := rtc lib_needs (path_basename root) x.

(** The graph of these libraries. *)
Definition graph_of (deps : list (cstr * LibNode)) : Prop :=
  ordered deps /\ forall x node, find x deps = Some node <-> reachable x /\ node = lib_node x.

(** The host has finitely many files. *)
Definition finite_host : Prop := exists files : list cstr, forall path file, read_file path = inl file -> file ∈ files.

(** ** The operations *)

Lemma needed_of_ends f : GetNeededLibs f = Some (needed_of f).
Proof. unfold needed_of, GetNeededLibs. by destruct (GetNeededLibsT_ends (contents f) (big_endian_ f) (elf_class f)) as [l ->]. Qed.

Lemma find_in_says libname l : says (find_in libname l) (find_path libname l).
Proof.
  induction l as [|dir l IH]; [apply says_ret|]. cbn. destruct dir as [|x dir]; [done|]. eapply says_bind; [apply says_LOG2|].
  destruct (stat _) as [[| |]|e]; (eapply says_bind; [apply says_LOG2|]); eauto with says.
Qed.

Lemma FindLibraryPath_says libname l : says (FindLibraryPath libname l) (find_path libname l).
Proof. eapply says_bind; [apply says_LOG2|apply find_in_says]. Qed.

Lemma UpdateDependencies_says libname path deps queue : find libname deps = None ->
  says (UpdateDependencies libname path deps queue) (set libname (path_node path) deps, queue ++ needed_libs (path_node path)).
Proof.
  intros Hf. unfold UpdateDependencies, path_node. rewrite Hf, (bool_decide_false (None <> None)), andb_false_r by (by intros []).
  destruct (open_path path) as [f|e]; [|cbn; rewrite app_nil_r; apply says_ret].
  destruct (GetLibNameT_ends (contents f) (big_endian_ f) (elf_class f)) as [name En]. eapply says_bind; [by apply says_read|].
  set (soname := if bool_decide (name = []) then libname else name). eapply (says_bind _ _ soname).
  { unfold soname. destruct (bool_decide (name = [])); [apply says_ret|]. destruct (negb _); [eapply says_bind; [apply says_stderr|]|]; apply says_ret. }
  eapply says_bind; [apply says_read, needed_of_ends|]. do 3 (eapply says_bind; [eauto with says|]). apply says_ret.
Qed.

(** A round that enters a library. *)
Lemma build_round_enters libname deps queue : find libname deps = None -> libname <> path_basename root ->
  says (build_round search (deps, libname :: queue)) (inr (set libname (lib_node libname) deps, queue ++ needed_libs (lib_node libname))).
Proof.
  intros Hf Hr. unfold build_round, lib_node. rewrite Hf, (bool_decide_false _ Hr). eapply says_bind; [apply FindLibraryPath_says|].
  destruct (find_path libname search) as [path|]; [eapply says_bind; [by apply UpdateDependencies_says|apply says_ret]|].
  destruct (IsAndroidSystemLib libname); (eapply says_bind; [eauto with says|]); cbn; rewrite app_nil_r; apply says_ret.
Qed.

(** The state of the loop. *)
Record building (deps : list (cstr * LibNode)) (queue : list cstr) : Prop := {
  b_ordered : ordered deps;
  b_root : path_basename root ∈ keys deps;
  b_node : forall x node, find x deps = Some node -> node = lib_node x;
  b_reach : forall x, x ∈ keys deps \/ x ∈ queue -> reachable x;
  b_needs : forall x y, x ∈ keys deps -> lib_needs x y -> y ∈ keys deps \/ y ∈ queue
}.

Lemma building_skip deps queue x : building deps (x :: queue) -> x ∈ keys deps -> building deps queue.
Proof.
  intros [Ho Hr Hn Hc He] Hx. split; [done..| |].
  - intros y Hy. apply Hc. rewrite elem_of_cons. tauto.
  - intros y z Hy Hz. destruct (He y z Hy Hz) as [?|Hq]; [by left|]. apply elem_of_cons in Hq as [->|?]; tauto.
Qed.

Lemma building_enter deps queue x : building deps (x :: queue) -> building (set x (lib_node x) deps) (queue ++ needed_libs (lib_node x)).
Proof.
  intros [Ho Hr Hn Hc He]. assert (Hx : reachable x) by (apply Hc; right; by left). split.
  - by apply ordered_set.
  - rewrite keys_set. by right.
  - intros y node. rewrite find_set. case_bool_decide; [by intros [= <-]; subst|apply Hn].
  - intros y. rewrite keys_set, elem_of_app. intros [[->|Hy]|[Hy|Hy]]; [done|apply Hc; by left|apply Hc; right; by right|]. eapply rtc_r; [exact Hx|done].
  - intros y z. rewrite !keys_set, elem_of_app. intros [->|Hy] Hz; [by right; right|]. destruct (He y z Hy Hz) as [?|Hq]; [tauto|]. apply elem_of_cons in Hq. tauto.
Qed.

Lemma building_done deps : building deps [] -> graph_of deps.
Proof.
  intros [Ho Hr Hn Hc He]. split; [done|]. assert (Hall : forall x, reachable x -> x ∈ keys deps).
  { intros x Hx. unfold reachable in Hx. revert x Hx. apply (rtc_ind_r (fun x => x ∈ keys deps)); [done|]. intros y z _ Hyz Hy. destruct (He y z Hy Hyz) as [?|Hz]; [done|by apply elem_of_nil in Hz]. }
  intros x node. split.
  - intros E. split; [apply Hc; left; apply find_keys; by rewrite E|by apply Hn].
  - intros [Hx ->]. apply Hall, find_keys in Hx. destruct (find x deps) as [node|] eqn:E; [|done]. by rewrite (Hn x node E).
Qed.

(** ** Termination *)

(** The names that are not in the graph yet. *)
Definition missing (U : list cstr) (deps : list (cstr * LibNode)) : nat := length (base.filter (fun x => x ∉ keys deps) U).

Lemma missing_set U x node deps : x ∈ U -> x ∉ keys deps -> (missing U (set x node deps) < missing U deps)%nat.
Proof.
  unfold missing. intros Hx Hk. assert (Hle : forall l, (length (base.filter (fun y => y ∉ keys (set x node deps)) l) <= length (base.filter (fun y => y ∉ keys deps) l))%nat).
  { induction l as [|y l IH]; [done|]. rewrite !filter_cons. repeat case_decide; cbn; try lia. exfalso. rewrite keys_set in *. tauto. }
  induction U as [|y U IH]; [by apply elem_of_nil in Hx|]. rewrite !filter_cons. apply elem_of_cons in Hx as [->|Hx].
  - rewrite decide_False by (rewrite keys_set; tauto). rewrite decide_True by done. cbn. specialize (Hle U). lia.
  - specialize (IH Hx). repeat case_decide; cbn; try lia. exfalso. rewrite keys_set in *. tauto.
Qed.

Section Bounded.
Context (U : list cstr) (HU : forall x, reachable x -> x ∈ U) (B : nat) (HB : forall x, reachable x -> (length (needed_libs (lib_node x)) <= B)%nat).

Definition left_to_do (deps : list (cstr * LibNode)) (queue : list cstr) : nat := (missing U deps * S B + length queue)%nat.

Lemma build_runs n : forall deps queue, (left_to_do deps queue <= n)%nat -> building deps queue ->
  exists r, graph_of r /\ forall memory, (n < memory)%nat -> says (while memory (build_round search) (deps, queue)) r.
Proof.
  induction n as [n IH] using lt_wf_ind. intros deps queue Hn Hb. destruct queue as [|x queue].
  { exists deps. split; [by apply building_done|]. intros [|memory] Hm; [lia|]. eapply says_bind; apply says_ret. }
  assert (Hgo : forall deps' queue', (left_to_do deps' queue' < left_to_do deps (x :: queue))%nat -> building deps' queue' ->
    says (build_round search (deps, x :: queue)) (inr (deps', queue')) ->
    exists r, graph_of r /\ forall memory, (n < memory)%nat -> says (while memory (build_round search) (deps, x :: queue)) r).
  { intros deps' queue' Hl Hb' Hs. destruct (IH (n - 1)%nat ltac:(lia) deps' queue' ltac:(lia) Hb') as (r & Hr & Hw). exists r. split; [done|].
    intros [|memory] Hm; [lia|]. cbn [while]. eapply says_bind; [exact Hs|]. apply Hw. lia. }
  destruct (find x deps) as [node|] eqn:E.
  - assert (Hx : x ∈ keys deps) by (apply find_keys; by rewrite E). apply (Hgo deps queue); [unfold left_to_do; cbn; lia|by eapply building_skip|].
    unfold build_round. rewrite E. apply says_ret.
  - assert (Hx : x ∉ keys deps) by (rewrite find_keys, E; by intros []). assert (Hr : reachable x) by (apply (b_reach _ _ Hb); right; by left).
    apply (Hgo (set x (lib_node x) deps) (queue ++ needed_libs (lib_node x))); [|by apply building_enter|apply build_round_enters; [done|intros ->; apply Hx, Hb]].
    unfold left_to_do. rewrite length_app. pose proof (missing_set U x (lib_node x) deps (HU x Hr) Hx). specialize (HB x Hr). cbn [length]. nia.
Qed.
End Bounded.

(** The names in the files of a host. *)
Definition file_of (file : cstr) : ElfFile :=
  {| contents := file; big_endian_ := elf_ident_is_big_endian (take 16 file); is_64bits_ := elf_ident_is_64bits (take 16 file) |}.

Lemma lib_node_needs (files : list cstr) x : (forall path file, read_file path = inl file -> file ∈ files) ->
  needed_libs (lib_node x) = [] \/ exists file, file ∈ files /\ needed_libs (lib_node x) = needed_of (file_of file).
Proof.
  intros Hf. assert (Hp : forall path, needed_libs (path_node path) = [] \/ exists file, file ∈ files /\ needed_libs (path_node path) = needed_of (file_of file)).
  { intros path. unfold path_node, open_path. destruct (read_file path) as [file|e] eqn:E; [|by left]. unfold Open. destruct (_ <? _)%nat; [by left|].
    destruct (negb _); [by left|]. right. exists file. split; [by eapply Hf|done]. }
  unfold lib_node. case_bool_decide; [apply Hp|]. destruct (find_path x search); [apply Hp|]. destruct (IsAndroidSystemLib x); by left.
Qed.

Lemma finite_bounds : finite_host -> exists (U : list cstr) B, (forall x, reachable x -> x ∈ U) /\ (forall x, reachable x -> (length (needed_libs (lib_node x)) <= B)%nat).
Proof.
  intros (files & Hf). set (names := mjoin (map (fun file => needed_of (file_of file)) files)). exists (path_basename root :: names), (length names).
  assert (Hin : forall file, file ∈ files -> exists l1 l2, names = l1 ++ needed_of (file_of file) ++ l2).
  { intros file Hx. apply list_elem_of_split in Hx as (f1 & f2 & ->). unfold names. rewrite map_app, join_app. by eexists _, _. }
  split.
  - intros x Hx. apply rtc_inv_r in Hx as [<-|(y & _ & Hy)]; [by left|]. right. unfold lib_needs in Hy.
    destruct (lib_node_needs files y Hf) as [E|(file & Hfile & E)]; rewrite E in Hy; [by apply elem_of_nil in Hy|].
    destruct (Hin file Hfile) as (l1 & l2 & ->). rewrite !elem_of_app. tauto.
  - intros x _. destruct (lib_node_needs files x Hf) as [->|(file & Hfile & ->)]; [cbn; lia|]. destruct (Hin file Hfile) as (l1 & l2 & ->). rewrite !length_app. lia.
Qed.

Lemma building_start : building (set (path_basename root) (lib_node (path_basename root)) []) (needed_libs (lib_node (path_basename root))).
Proof.
  split.
  - apply ordered_set. constructor.
  - rewrite keys_set. by left.
  - intros x node. rewrite find_set. case_bool_decide; [by intros [= <-]; subst|done].
  - intros x. rewrite keys_set. cbn. rewrite elem_of_nil. intros [[->|[]]|Hx]; [apply rtc_refl|by apply rtc_once].
  - intros x y. rewrite keys_set. cbn. rewrite elem_of_nil. intros [->|[]] Hy. by right.
Qed.

Lemma build_returns : finite_host -> exists n deps, graph_of deps /\ forall memory, (n < memory)%nat -> says (BuildDependencyGraph memory root search) deps.
Proof.
  intros Hf. destruct (finite_bounds Hf) as (U & B & HU & HB).
  destruct (build_runs U HU B HB _ _ _ (Nat.le_refl _) building_start) as (r & Hr & Hw). eexists _, r. split; [done|]. intros memory Hm.
  unfold BuildDependencyGraph. eapply says_bind; [by apply UpdateDependencies_says|]. cbn [app].
  assert (E : path_node root = lib_node (path_basename root)) by (unfold lib_node; by rewrite bool_decide_true). rewrite E. by apply Hw.
Qed.

Lemma graph_closed deps : graph_of deps -> closed deps.
Proof.
  intros [_ Hg] x y Hy. unfold needs in Hy. destruct (find x deps) as [node|] eqn:E; [|by apply elem_of_nil in Hy]. apply Hg in E as [Hx ->].
  apply find_keys. assert (Hr : reachable y) by (eapply rtc_r; [exact Hx|done]). by rewrite (proj2 (Hg y (lib_node y)) (conj Hr eq_refl)).
Qed.

Lemma while_more {S St R} fuel more (step : St -> M S (R + St)) st t r t' : while fuel step st t = Ret r t' -> while (fuel + more) step st t = Ret r t'.
Proof.
  revert st t. induction fuel as [|fuel IH]; intros st t; [done|]. cbn. unfold lbind. destruct (step st t) as [[r'|st'] t1|e t1|]; [done|apply IH|done|done].
Qed.

(** Whatever the memory, a graph that is returned is this one. *)
Lemma build_unique deps n memory t d t' : (forall memory, (n < memory)%nat -> says (BuildDependencyGraph memory root search) deps) ->
  BuildDependencyGraph memory root search t = Ret d t' -> d = deps.
Proof.
  intros Hn E. unfold BuildDependencyGraph in E. apply lbind_Ret in E as (st & t1 & E1 & E2). apply (while_more _ (S n)) in E2.
  destruct (Hn (memory + S n)%nat ltac:(lia) t) as (t2 & E3 & _). unfold BuildDependencyGraph in E3. rewrite (lbind_step _ _ _ _ _ E1), E2 in E3. congruence.
Qed.
End Graph.

(** ** The output *)

(** More text on [stdout]. *)
Definition prints (t : tool) (s : cstr) (t' : tool) : Prop := g_verbose t' = g_verbose t /\ stdout t' = stdout t ++ s.

Lemma prints_nil t : prints t [] t.
Proof. split; [done|]. by rewrite app_nil_r. Qed.

Lemma prints_trans t1 s1 t2 s2 t3 : prints t1 s1 t2 -> prints t2 s2 t3 -> prints t1 (s1 ++ s2) t3.
Proof. intros [V1 O1] [V2 O2]. split; [congruence|]. by rewrite O2, O1, app_assoc. Qed.

(** An operation that prints [s]. *)
Definition puts (c : M tool unit) (s : cstr) : Prop := forall t, exists t', c t = Ret tt t' /\ prints t s t'.

Lemma puts_bind c k s1 s2 : puts c s1 -> puts (k tt) s2 -> puts (lbind c k) (s1 ++ s2).
Proof.
  intros Hc Hk t. destruct (Hc t) as (t1 & E1 & P1). destruct (Hk t1) as (t2 & E2 & P2). exists t2. rewrite (lbind_step _ _ _ _ _ E1). split; [done|]. by eapply prints_trans.
Qed.

Lemma puts_printf s : puts (printf s) s.
Proof. intros t. by eexists. Qed.

Lemma puts_stderr s : puts (fprintf_stderr s) [].
Proof. intros t. eexists. split; [done|]. split; [done|]. cbn. by rewrite app_nil_r. Qed.

Lemma puts_ret : puts (lret tt) [].
Proof. intros t. exists t. split; [done|apply prints_nil]. Qed.

Lemma puts_lines f l : puts (print_lines f l) (mjoin (map f l)).
Proof. induction l as [|s l IH]; [apply puts_ret|]. apply puts_bind; [apply puts_printf|done]. Qed.

(** The line for a library of [--print-java]. *)
Definition java_line (lib : cstr) : cstr :=
  if IsAndroidSystemLib lib || negb (IsAndroidNdkCompatibleLib lib) then []
  else str "System.loadLibrary(" ++ take (length lib - 6) (drop 3 lib) ++ str ");" ++ nl.

Definition dot_lines (deps : list (cstr * LibNode)) (lib : cstr) : cstr :=
  mjoin (map (fun d => str "  " ++ quote lib ++ str " -> " ++ quote d ++ nl) (needs deps lib)).

Definition path_line (deps : list (cstr * LibNode)) (lib : cstr) : cstr :=
  let node := default LibNode_new (find lib deps) in
  lib ++ match type node with NODE_PATH => str " -> " | NODE_SYSTEM => str " -> $ /system/lib/" | _ => str " -> !! " end ++ node_value node ++ nl.

(** The text for the sorted list. *)
Definition rendered (format : PrintFormat) (deps : list (cstr * LibNode)) (order : list cstr) : cstr :=
  match format with
  | PRINT_JAVA => mjoin (map java_line (rev order))
  | PRINT_DOT_FILE => str "digraph {" ++ nl ++ mjoin (map (dot_lines deps) order) ++ str "}" ++ nl
  | PRINT_PATHS => mjoin (map (path_line deps) order)
  | _ => mjoin (map name_line order)
  end.

Lemma puts_java libs : puts (print_java libs) (mjoin (map java_line libs)).
Proof.
  induction libs as [|lib libs IH]; [apply puts_ret|]. cbn [print_java map]. unfold java_line at 1. destruct (IsAndroidSystemLib lib); [done|]. cbn [orb].
  destruct (negb _); (eapply puts_bind; [|exact IH]); [apply puts_stderr|apply puts_printf].
Qed.

Lemma puts_dot deps libs : (forall x, x ∈ libs -> x ∈ keys deps) -> puts (print_dot deps libs) (mjoin (map (dot_lines deps) libs)).
Proof.
  induction libs as [|lib libs IH]; intros Hin; [apply puts_ret|]. cbn [print_dot map].
  destruct (node_of_key deps lib) as (node & -> & E); [apply Hin; by left|]. apply puts_bind; [unfold dot_lines; rewrite <-E; apply puts_lines|]. apply IH. intros x Hx. apply Hin. by right.
Qed.

Lemma puts_paths deps libs : (forall x, x ∈ libs -> x ∈ keys deps) -> puts (print_paths deps libs) (mjoin (map (path_line deps) libs)).
Proof.
  induction libs as [|lib libs IH]; intros Hin; [apply puts_ret|]. cbn [print_paths map]. assert (Hl : lib ∈ keys deps) by (apply Hin; by left). apply find_keys in Hl.
  unfold node_of, path_line at 1. destruct (find lib deps) as [node|]; [|done]. cbn [default].
  apply puts_bind; [apply puts_printf|]. apply IH. intros x Hx. apply Hin. by right.
Qed.

Lemma puts_sorted format deps order : (forall x, x ∈ order -> x ∈ keys deps) -> puts (print_sorted format deps order) (rendered format deps order).
Proof.
  intros Hin. destruct format; [apply puts_lines|apply puts_lines|by apply puts_paths|apply puts_java|].
  cbn [print_sorted rendered]. rewrite (app_assoc (str "digraph {")). apply puts_bind; [apply puts_printf|]. apply puts_bind; [by apply puts_dot|apply puts_printf].
Qed.

(** ** The command line *)

Definition format_option (format : PrintFormat) : list cstr :=
  match format with
  | PRINT_DEFAULT => []
  | PRINT_DIRECT => [str "--print-direct"]
  | PRINT_PATHS => [str "--print-paths"]
  | PRINT_JAVA => [str "--print-java"]
  | PRINT_DOT_FILE => [str "--print-dot"]
  end.

(** Directories to search, a format and a file. *)
Definition command (dirs : list cstr) (format : PrintFormat) (path : cstr) : list cstr :=
  mjoin (map (fun d => [str "-L"; d]) dirs) ++ format_option format ++ [path].

Section Main.
Context `{Host} (dirs : list cstr) (path : cstr) (Hpath : list.head path <> Some dash).

Lemma parse_command stack format t :
  parse_options stack (command dirs format path) {| do_help := false; print_format := PRINT_DEFAULT; lib_search_path := []; params := [] |} t =
  Ret {| do_help := false; print_format := format; lib_search_path := dirs; params := [path] |} t.
Proof.
  assert (Hend : forall o, params o = [] -> print_format o = PRINT_DEFAULT -> do_help o = false -> parse_options stack (format_option format ++ [path]) o t =
    Ret {| do_help := false; print_format := format; lib_search_path := lib_search_path o; params := [path] |} t).
  { intros o Hp Hf Hh. transitivity (parse_options stack [path] (set_format format o) t); [destruct format; [|reflexivity..]; destruct o; cbn in Hf; by subst|].
    cbn [parse_options]. rewrite bool_decide_false by done. destruct o; cbn in *. by subst. }
  assert (Hdirs : forall ds l, parse_options stack (mjoin (map (fun d => [str "-L"; d]) ds) ++ format_option format ++ [path])
      {| do_help := false; print_format := PRINT_DEFAULT; lib_search_path := l; params := [] |} t =
    Ret {| do_help := false; print_format := format; lib_search_path := l ++ ds; params := [path] |} t).
  { induction ds as [|d ds IH]; intros l; [by rewrite app_nil_r; apply Hend|]. replace (l ++ d :: ds) with ((l ++ [d]) ++ ds) by (by rewrite <-app_assoc). rewrite <-IH. done. }
  apply (Hdirs dirs []).
Qed.

Abbreviation paths := (path_dirname path :: dirs).
Abbreviation start := {| g_verbose := 0; stdout := []; stderr := [] |}.

Lemma LOG_quiet s t : g_verbose t = 0 -> LOG s t = Ret tt t.
Proof. intros E. unfold LOG, LOG_N. by rewrite E. Qed.

(** [main] up to the graph. *)
Lemma main_graph stack memory format f : format <> PRINT_DIRECT -> open_path path = inl f ->
  main stack memory (command dirs format path) start =
  (let* deps := BuildDependencyGraph memory path paths in
   do* LOG (str "Building sorted list of binaries:" ++ nl) in
   let* r := GetTopologicalSortedLibraries memory deps in
   let '(deps, needed_libs) := r in
   do* print_sorted format deps needed_libs in lret 0) start.
Proof.
  intros Hf Ho. unfold main. rewrite (lbind_step _ _ _ _ _ (parse_command stack format start)). cbn [do_help params print_format lib_search_path]. rewrite Ho.
  by destruct format.
Qed.

Lemma main_prints stack memory format f deps order : format <> PRINT_DIRECT -> open_path path = inl f ->
  says (BuildDependencyGraph memory path paths) deps -> (forall t, GetTopologicalSortedLibraries memory deps t = Ret (deps, order) t) ->
  (forall x, x ∈ order -> x ∈ keys deps) ->
  exists t, run_tool stack memory (command dirs format path) = Some (0, t) /\ stdout t = rendered format deps order.
Proof.
  intros Hf Ho Hb Hs Hin. unfold run_tool. rewrite (main_graph stack memory format f Hf Ho). destruct (Hb start) as (t1 & E1 & [V1 O1]).
  rewrite (lbind_step _ _ _ _ _ E1), (lbind_step _ _ _ _ _ (LOG_quiet _ t1 V1)), (lbind_step _ _ _ _ _ (Hs t1)).
  destruct (puts_sorted format deps order Hin t1) as (t2 & E2 & [V2 O2]). rewrite (lbind_step _ _ _ _ _ E2). exists t2. split; [done|]. by rewrite O2, (O1 eq_refl).
Qed.

Lemma main_sorted stack memory format f t : format <> PRINT_DIRECT -> open_path path = inl f -> run_tool stack memory (command dirs format path) = Some (0, t) ->
  exists deps t1 t2 r t3, BuildDependencyGraph memory path paths start = Ret deps t1 /\ GetTopologicalSortedLibraries memory deps t2 = Ret r t3.
Proof.
  intros Hf Ho. unfold run_tool. rewrite (main_graph stack memory format f Hf Ho). destruct (lbind _ _ start) as [z t'|[fmt args] t'|] eqn:E; [|done|done]. intros _.
  apply lbind_Ret in E as (deps & t1 & E1 & E). apply lbind_Ret in E as ([] & t2 & _ & E). apply lbind_Ret in E as (r & t3 & E3 & _). eauto 10.
Qed.

(** [--print-direct]. *)
Lemma main_direct stack memory f : open_path path = inl f ->
  exists t, run_tool stack memory (command dirs PRINT_DIRECT path) = Some (0, t) /\ stdout t = mjoin (map name_line (needed_of f)).
Proof.
  intros Ho. unfold run_tool, main. rewrite (lbind_step _ _ _ _ _ (parse_command stack PRINT_DIRECT start)). cbn [do_help params print_format lib_search_path]. rewrite Ho.
  unfold lbind at 1, lget. cbn [g_verbose Z.leb Z.compare]. unfold lbind at 1, lret at 1. unfold lbind at 1, lread. rewrite needed_of_ends.
  destruct (puts_lines name_line (needed_of f) start) as (t & E & [V O]). exists t. by rewrite (lbind_step _ _ _ _ _ E).
Qed.
End Main.

(** ** Properties *)

(** On a host with finitely many files [BuildDependencyGraph] returns, and the graph has exactly the libraries that the root needs, directly or through others, each with its file, the libraries it needs, or the reason why it was not read; if the tool is not verbose then nothing is printed to [stdout]. *)
Theorem graph_is_reachable `{Host} (root : cstr) (search : list cstr) :
  finite_host ->
  exists n deps, graph_of root search deps /\
    forall memory t, (n < memory)%nat -> exists t', BuildDependencyGraph memory root search t = Ret deps t' /\ logs t t'.
Proof. intros Hf. destruct (build_returns root search Hf) as (n & deps & Hg & Hs). exists n, deps. split; [done|]. intros memory t Hm. by apply Hs. Qed.


(** With [--print-direct], the tool prints the names of the libraries in the dynamic section of a file, one per line, in their order. *)
Theorem direct_prints `{Host} (dirs : list cstr) (path : cstr) (big : bool) (c : elf) (needed : list cstr) (soname : cstr) stack memory :
  list.head path <> Some dash -> read_file path = inl (write_elf big c needed soname) ->
  (forall s, s ∈ needed ++ [soname] -> s <> [] /\ NUL ∉ s) -> Z.of_nat (length (write_elf big c needed soname)) < 2 ^ 32 ->
  exists t, run_tool stack memory (command dirs PRINT_DIRECT path) = Some (0, t) /\ stdout t = mjoin (map name_line needed).
Proof.
  intros Hp Hr Hn Hs. pose proof (open_written big c needed soname Hs (short_error path)) as Ho.
  assert (Hop : open_path path = Open (short_error path) (write_elf big c needed soname)) by (unfold open_path; by rewrite Hr).
  rewrite Ho in Hop. destruct (main_direct dirs path Hp stack memory _ Hop) as (t & E & O). exists t. split; [done|]. rewrite O.
  assert (E1 : needed_of {| contents := write_elf big c needed soname; big_endian_ := big; is_64bits_ := match c with Elf32 => false | Elf64 => true end |} = needed); [|by rewrite E1].
  unfold needed_of. replace (GetNeededLibs _) with (GetNeededLibsT (write_elf big c needed soname) big c) by (by destruct c). by rewrite needed_written.
Qed.

(** ** A host *)

Definition sample_files : list (cstr * cstr) :=
  [(str "d/libapp.so", write_elf false Elf32 [str "libb.so"; str "liba.so"; str "libc.so"] (str "libapp.so"));
   (str "d/libb.so", write_elf true Elf64 [str "liba.so"; str "libnone.so"] (str "libb.so"));
   (str "e/liba.so", write_elf false Elf64 [str "libc.so"] (str "liba.so"))].

Definition sample_host : Host := {|
  read_file p := match find p sample_files with Some file => inl file | None => inr (str "No such file or directory") end;
  stat p := match find p sample_files with Some _ => inl S_IFREG | None => inr (str "No such file or directory") end;
  glob p := [];
  getenv p := None;
  short_error p := str "Success"
|}.

Lemma sample_finite : finite_host (H := sample_host).
Proof.
  exists (map snd sample_files). intros path file. cbn [read_file sample_host]. intros E.
  assert (Hin : forall l, (match find path l with Some file => inl file | None => inr (str "No such file or directory") end) = inl file -> file ∈ map snd l); [|by apply Hin].
  induction l as [|[k v] l IH]; cbn [find map]; [discriminate|]. case_bool_decide; [intros [= ->]; by left|]. intros E1. right. by apply IH.
Qed.

Lemma graph_is_reachable_witness :
  exists n deps, graph_of (H := sample_host) (str "d/libapp.so") [str "d"; str "e"] deps /\
    forall memory t, (n < memory)%nat -> exists t', BuildDependencyGraph (H := sample_host) memory (str "d/libapp.so") [str "d"; str "e"] t = Ret deps t' /\ logs t t'.
Proof. apply (graph_is_reachable (H := sample_host)). apply sample_finite. Defined.


Example direct_prints_sample :
  exists t, run_tool (H := sample_host) 1 1 (command [] PRINT_DIRECT (str "e/liba.so")) = Some (0, t) /\ stdout t = mjoin (map name_line [str "libc.so"]).
Proof.
  apply (direct_prints (H := sample_host) [] (str "e/liba.so") false Elf64 [str "libc.so"] (str "liba.so")); [done|by vm_compute| |by vm_compute].
  intros s Hs. repeat (apply elem_of_cons in Hs as [->|Hs]; [split; [done|apply (bool_decide_unpack _); done]|]). by apply elem_of_nil in Hs.
Qed.

(** The output for a file of this host. *)
Example sample_output :
  option_map (fun r => (r.1, stdout r.2)) (run_tool (H := sample_host) 1 20 (command [str "e"] PRINT_PATHS (str "d/libapp.so")))
  = Some (0, mjoin (map name_line [str "libapp.so -> d/libapp.so"; str "libb.so -> d/libb.so"; str "libnone.so -> !! Could not find library";
                              str "liba.so -> e/liba.so"; str "libc.so -> $ /system/lib/libc.so"])).
Proof. by vm_compute. Qed.

(** ** Search paths of the host *)

(** The items of [LD_LIBRARY_PATH], with [.] for an empty item; an empty item at the end
    is left out. *)
Lemma env_paths_split env l : env_paths (length env) env l = l ++ map (fun p => match p with [] => str "." | _ => p end) (trim_last (split_on colon env)).
Proof.
  assert (Hk : forall k p l, (length p <= k)%nat -> env_paths k p l = l ++ map (fun p => match p with [] => str "." | _ => p end) (trim_last (split_on colon p))).
  { induction k as [|k IH]; intros p l0 Hp; [destruct p; [cbn; by rewrite app_nil_r|cbn in Hp; lia]|]. destruct p as [|x p]; [cbn; by rewrite app_nil_r|].
    cbn [env_paths]. rewrite split_on_memchr. destruct (memchr colon (x :: p)) as [[a b]|] eqn:E.
    - rewrite IH by (apply memchr_length in E; cbn [length] in *; lia). rewrite <-app_assoc. rewrite trim_last_cons by apply split_on_nonempty. done.
    - destruct k; cbn; by rewrite ?app_nil_r. }
  by apply Hk.
Qed.

(** An [ld.so.conf] that includes itself is read until the stack is exhausted. *)
Definition self_host : Host := {|
  read_file p := inl (str "include ld.so.conf");
  stat p := inr (str "No such file or directory");
  glob p := [str "/etc/ld.so.conf"];
  getenv p := None;
  short_error p := []
|}.

Example self_include stack t : AddHostLdSoConfPaths (H := self_host) stack (str "/etc/ld.so.conf") [] t = Crash.
Proof.
  assert (Hinc : forall inc, inc (str "/etc/ld.so.conf") [] t = Crash -> conf_lines (H := self_host) inc 18 (str "include ld.so.conf") [] t = Crash).
  { intros inc Hi. vm_compute in Hi |- *. by rewrite Hi. }
  induction stack as [|stack IH]; [done|]. cbn [AddHostLdSoConfPaths read_file self_host]. by apply Hinc.
Qed.
