(* ===== verification/MakeHash.v ===== *)
(** * The hash tables of make ([sources/host-tools/make-3.81])

    Models [hash.c]: open addressing with double hashing on a vector of pointers, with a
    mark for deleted items, and the hash functions of [hash.h] on strings and integers.
    Items are addresses; the functions of the client on them are parameters.  The
    search for a slot has no bound in the code: it returns [None] here if [2 ^ 32] rounds
    do not end it.  [calloc] does not fail. *)

From Stdlib Require Znumtheory Zpow_facts.
From S2P Require Import Prelude.
Open Scope Z_scope.

(** [struct hash_table], without the functions of the client. *)
Record hash_table := mk_ht {
  ht_vec : list Z;
  ht_size : Z;
  ht_capacity : Z;
  ht_fill : Z;
  ht_empty_slots : Z;
  ht_collisions : Z;
  ht_lookups : Z;
  ht_rehashes : Z;
}.

(** ** Hash functions *)

Section Hashes.
Context (ulong : Z).

(** [STRING_HASH_1] and [STRING_HASH_2]: each byte is shifted by bits of the next one, and
    the shift is of type [int]. *)
Fixpoint string_hash (mask : Z) (s : cstr) : Z :=
  match s with
  | [] => 0
  | c :: s' =>
      let next := match s' with [] => 0 | d :: _ => zc d end in
      wrap ulong (Z.shiftl (zc c) (Z.land next mask) + string_hash mask s')
  end.

Definition STRING_HASH_1 : cstr -> Z := string_hash 15.
Definition STRING_HASH_2 : cstr -> Z := string_hash 7.

(** [INTEGER_HASH_1] and [INTEGER_HASH_2]. *)
Definition INTEGER_HASH_1 (key : Z) : Z := wrap ulong key.
Definition INTEGER_HASH_2 (key : Z) : Z := wrap ulong (- wrap ulong key - 1).

(** [ADDRESS_HASH_1] and [ADDRESS_HASH_2]. *)
Definition ADDRESS_HASH_1 (key : Z) : Z := INTEGER_HASH_1 (Z.shiftr (wrap ulong key) 3).
Definition ADDRESS_HASH_2 (key : Z) : Z := INTEGER_HASH_2 (Z.shiftr (wrap ulong key) 3).

(** [round_up_2] *)
Definition round_up_2 (n : Z) : Z :=
  let n := Z.lor n (Z.shiftr n 1) in
  let n := Z.lor n (Z.shiftr n 2) in
  let n := Z.lor n (Z.shiftr n 4) in
  let n := Z.lor n (Z.shiftr n 8) in
  let n := Z.lor n (Z.shiftr n 16) in
  let n := if 32 <? ulong then Z.lor n (Z.shiftr n 32) else n in
  wrap ulong (n + 1).

(** ** The table *)

(** The address of the mark for deleted items, and the functions of the client. *)
Context (hash_deleted_item : Z) (hash_1 hash_2 : Z -> Z) (compare : Z -> Z -> Z).

Definition HASH_VACANT (item : Z) : bool := (item =? 0) || (item =? hash_deleted_item).

(** [hash_init] *)
Definition hash_init (size : Z) : hash_table :=
  let n := round_up_2 size in
  mk_ht (replicate (Z.to_nat n) 0) n (n - n / 16) 0 n 0 0 0.

(** The variables of [hash_find_slot]. *)
Record search := mk_search { s_hash_1 : Z; s_hash_2 : Z; s_deleted : option nat; s_collisions : Z }.

(** The part of a round after the tests of the slot [i]. *)
Definition find_next (key i : Z) (st : search) : search :=
  let h2 := if s_hash_2 st =? 0 then wrap 32 (Z.lor (hash_2 key) 1) else s_hash_2 st in
  mk_search (wrap 32 (i + h2)) h2 (s_deleted st) (s_collisions st).

Definition find_round (ht : hash_table) (key : Z) (st : search) : option (nat * Z) + search :=
  let i := wrap 32 (Z.land (s_hash_1 st) (wrap ulong (ht_size ht - 1))) in
  match ht_vec ht !! Z.to_nat i with
  | None => inl None
  | Some item =>
      if item =? 0 then inl (Some (default (Z.to_nat i) (s_deleted st), s_collisions st))
      else if item =? hash_deleted_item then
        let d := match s_deleted st with None => Some (Z.to_nat i) | d => d end in
        inr (find_next key i (mk_search (s_hash_1 st) (s_hash_2 st) d (s_collisions st)))
      else if key =? item then inl (Some (Z.to_nat i, s_collisions st))
      else if compare key item =? 0 then inl (Some (Z.to_nat i, s_collisions st))
      else
        inr (find_next key i (mk_search (s_hash_1 st) (s_hash_2 st) (s_deleted st) (wrap ulong (s_collisions st + 1))))
  end.

(** The counters of a search. *)
Definition count_search (collisions : Z) (ht : hash_table) : hash_table :=
  mk_ht (ht_vec ht) (ht_size ht) (ht_capacity ht) (ht_fill ht) (ht_empty_slots ht) collisions
    (wrap ulong (ht_lookups ht + 1)) (ht_rehashes ht).

(** [hash_find_slot]: the index of the slot. *)
Definition hash_find_slot (ht : hash_table) (key : Z) : option (nat * hash_table) :=
  match loop 32 (find_round ht key) (mk_search (wrap 32 (hash_1 key)) 0 None (ht_collisions ht)) with
  | inl (Some (i, c)) => Some (i, count_search c ht)
  | _ => None
  end.

(** [hash_find_item]; 0 is [NULL]. *)
Definition hash_find_item (ht : hash_table) (key : Z) : option (Z * hash_table) :=
  match hash_find_slot ht key with
  | Some (slot, ht) =>
      match ht_vec ht !! slot with Some item => Some (if HASH_VACANT item then 0 else item, ht) | None => None end
  | None => None
  end.

Definition set_vec (v : list Z) (ht : hash_table) : hash_table :=
  mk_ht v (ht_size ht) (ht_capacity ht) (ht_fill ht) (ht_empty_slots ht) (ht_collisions ht) (ht_lookups ht) (ht_rehashes ht).

(** The loop of [hash_rehash] over the old vector. *)
Fixpoint reinsert (items : list Z) (ht : hash_table) : option hash_table :=
  match items with
  | [] => Some ht
  | item :: items =>
      if HASH_VACANT item then reinsert items ht
      else
        match hash_find_slot ht item with
        | Some (slot, ht) => reinsert items (set_vec (<[slot := item]> (ht_vec ht)) ht)
        | None => None
        end
  end.

(** [hash_rehash] *)
Definition hash_rehash (ht : hash_table) : option hash_table :=
  let grow := ht_capacity ht <=? ht_fill ht in
  let size := if grow then wrap ulong (ht_size ht * 2) else ht_size ht in
  let capacity := if grow then wrap ulong (size - Z.shiftr size 4) else ht_capacity ht in
  match reinsert (ht_vec ht)
          (mk_ht (replicate (Z.to_nat size) 0) size capacity (ht_fill ht) (ht_empty_slots ht) (ht_collisions ht)
             (ht_lookups ht) (wrap 32 (ht_rehashes ht + 1))) with
  | Some ht =>
      Some (mk_ht (ht_vec ht) (ht_size ht) (ht_capacity ht) (ht_fill ht) (wrap ulong (ht_size ht - ht_fill ht))
              (ht_collisions ht) (ht_lookups ht) (ht_rehashes ht))
  | None => None
  end.

(** [hash_insert_at]: the slot of the item. *)
Definition hash_insert_at (ht : hash_table) (item : Z) (slot : nat) : option (nat * hash_table) :=
  match ht_vec ht !! slot with
  | None => None
  | Some old =>
      let fill := if HASH_VACANT old then wrap ulong (ht_fill ht + 1) else ht_fill ht in
      let empty := if old =? 0 then wrap ulong (ht_empty_slots ht - 1) else ht_empty_slots ht in
      let ht := mk_ht (<[slot := item]> (ht_vec ht)) (ht_size ht) (ht_capacity ht) fill empty (ht_collisions ht)
                  (ht_lookups ht) (ht_rehashes ht) in
      if ht_empty_slots ht <? wrap ulong (ht_size ht - ht_capacity ht) then
        match hash_rehash ht with Some ht => hash_find_slot ht item | None => None end
      else Some (slot, ht)
  end.

(** [hash_insert]: the item that was replaced, or 0. *)
Definition hash_insert (ht : hash_table) (item : Z) : option (Z * hash_table) :=
  match hash_find_slot ht item with
  | Some (slot, ht) =>
      match ht_vec ht !! slot, hash_insert_at ht item slot with
      | Some old, Some (_, ht) => Some (if HASH_VACANT old then 0 else old, ht)
      | _, _ => None
      end
  | None => None
  end.

(** [hash_delete_at] *)
Definition hash_delete_at (ht : hash_table) (slot : nat) : option (Z * hash_table) :=
  match ht_vec ht !! slot with
  | None => None
  | Some item =>
      if HASH_VACANT item then Some (0, ht)
      else
        Some (item, mk_ht (<[slot := hash_deleted_item]> (ht_vec ht)) (ht_size ht) (ht_capacity ht)
                      (wrap ulong (ht_fill ht - 1)) (ht_empty_slots ht) (ht_collisions ht) (ht_lookups ht) (ht_rehashes ht))
  end.

(** [hash_delete] *)
Definition hash_delete (ht : hash_table) (item : Z) : option (Z * hash_table) :=
  match hash_find_slot ht item with Some (slot, ht) => hash_delete_at ht slot | None => None end.

(** [hash_load]: the items of an array of structures of [size] bytes. *)
Fixpoint hash_load (ht : hash_table) (items : Z) (cardinality : nat) (size : Z) : option hash_table :=
  match cardinality with
  | O => Some ht
  | S n =>
      match hash_insert ht items with
      | Some (_, ht) => hash_load ht (items + size) n size
      | None => None
      end
  end.

(** The items, in the order of the slots: those that [hash_map] and [hash_map_arg] call
    the function with, and that [hash_dump] writes. *)
Definition hash_items (ht : hash_table) : list Z := base.filter (fun item => HASH_VACANT item = false) (ht_vec ht).

Definition hash_map {A} (f : Z -> A -> A) (ht : hash_table) (a : A) : A :=
  fold_left (fun a item => if HASH_VACANT item then a else f item a) (ht_vec ht) a.

(** [hash_dump]; [qsort] sorts the first [ht_fill] elements. *)
Definition hash_dump (qsort : list Z -> list Z) (ht : hash_table) : list Z :=
  let v := hash_items ht in qsort (take (Z.to_nat (ht_fill ht)) v) ++ drop (Z.to_nat (ht_fill ht)) v.

(** [hash_delete_items], and [hash_free_items] with the items that are freed. *)
Definition hash_delete_items (ht : hash_table) : hash_table :=
  mk_ht (replicate (length (ht_vec ht)) 0) (ht_size ht) (ht_capacity ht) 0 (ht_size ht) 0 0 0.

Definition hash_free_items (ht : hash_table) : list Z * hash_table :=
  (hash_items ht,
   mk_ht (replicate (length (ht_vec ht)) 0) (ht_size ht) (ht_capacity ht) 0 (ht_size ht) (ht_collisions ht)
     (ht_lookups ht) (ht_rehashes ht)).

(** [hash_free]: the vector is freed. *)
Definition hash_free (ht : hash_table) (free_items : bool) : list Z * hash_table :=
  let '(freed, ht) := if free_items then hash_free_items ht else ([], ht) in
  (freed, mk_ht [] (ht_size ht) 0 0 (ht_size ht) (ht_collisions ht) (ht_lookups ht) (ht_rehashes ht)).
End Hashes.

(** ** The size of a table *)

(** [b] has the bits of [n] and of its shifts to the right by less than [w]. *)
Definition smeared (w n b : Z) : Prop :=
  0 <= b /\ forall i, 0 <= i -> Z.testbit b i = true <-> exists j, 0 <= j < w /\ Z.testbit n (i + j) = true.

Lemma smear_step w s n b : 0 <= s <= w -> smeared w n b -> smeared (w + s) n (Z.lor b (Z.shiftr b s)).
Proof.
  intros Hs [Hpos Hb]. split; [apply Z.lor_nonneg; split; [done|by apply Z.shiftr_nonneg]|].
  intros i Hi. rewrite Z.lor_spec, Z.shiftr_spec, orb_true_iff, (Hb i), (Hb (i + s)) by lia. split.
  - intros [(j & Hj & Hn)|(j & Hj & Hn)]; [exists j; split; [lia|done]|]. exists (s + j). split; [lia|]. by rewrite Z.add_assoc.
  - intros (j & Hj & Hn). destruct (decide (j < w)); [left; exists j; split; [lia|done]|]. right. exists (j - s). split; [lia|].
    by replace (i + s + (j - s)) with (i + j) by lia.
Qed.

Lemma smeared_ones w n b : 0 < n -> Z.log2 n < w -> smeared w n b -> b = 2 ^ (Z.log2 n + 1) - 1.
Proof.
  intros Hn Hw [_ Hs]. pose proof (Z.log2_nonneg n).
  replace (2 ^ (Z.log2 n + 1) - 1) with (Z.ones (Z.log2 n + 1)) by (rewrite Z.ones_equiv; lia).
  apply Z.bits_inj'. intros i Hi. apply eq_true_iff_eq. rewrite (Hs i Hi). split.
  - intros (j & Hj & Hbit). rewrite Z.ones_spec_low; [done|]. destruct (decide (i < Z.log2 n + 1)); [lia|].
    rewrite Z.bits_above_log2 in Hbit by lia. done.
  - intros Ho. destruct (decide (i < Z.log2 n + 1)); [|by rewrite Z.ones_spec_high in Ho by lia].
    exists (Z.log2 n - i). split; [lia|]. replace (i + (Z.log2 n - i)) with (Z.log2 n) by lia. by apply Z.bit_log2.
Qed.

(** The next power of two above a number. *)
Lemma round_up_2_spec ulong n :
  ulong = 32 \/ ulong = 64 -> 0 < n < 2 ^ 31 -> round_up_2 ulong n = 2 ^ (Z.log2 n + 1).
Proof.
  intros Hu Hn. pose proof (Z.log2_nonneg n). assert (Hl : Z.log2 n < 31) by (apply Z.log2_lt_pow2; lia).
  assert (H1 : smeared 1 n n).
  { split; [lia|]. intros i Hi. split; [intros Hb; exists 0; split; [lia|by rewrite Z.add_0_r]|]. intros (j & Hj & Hb).
    by replace j with 0 in Hb by lia; rewrite Z.add_0_r in Hb. }
  pose proof (smear_step 1 1 _ _ ltac:(lia) H1) as H2.
  pose proof (smear_step 2 2 _ _ ltac:(lia) H2) as H4.
  pose proof (smear_step 4 4 _ _ ltac:(lia) H4) as H8.
  pose proof (smear_step 8 8 _ _ ltac:(lia) H8) as H16.
  pose proof (smear_step 16 16 _ _ ltac:(lia) H16) as H32.
  unfold round_up_2. cbv zeta.
  assert (Hp : 2 ^ (Z.log2 n + 1) <= 2 ^ 31) by (apply Z.pow_le_mono_r; lia). pose proof (pow2_pos (Z.log2 n + 1)).
  destruct Hu as [-> | ->]; cbn [Z.ltb Z.compare Pos.compare Pos.compare_cont].
  - rewrite (smeared_ones (16 + 16) n _ (proj1 Hn) ltac:(lia) H32), Z.sub_add. apply wrap_small. unfold fits. lia.
  - pose proof (smear_step 32 32 _ _ ltac:(lia) H32) as H64.
    rewrite (smeared_ones (32 + 32) n _ (proj1 Hn) ltac:(lia) H64), Z.sub_add. apply wrap_small. unfold fits. lia.
Qed.

(** ** Probes *)

(** The slot that a search looks at in its round [t]. *)
Definition probe (k h d t : Z) : Z := (h + t * d) mod 2 ^ k.

Lemma odd_inverse k d : 0 <= k -> Z.odd d = true -> exists e, (d * e) mod 2 ^ k = 1 mod 2 ^ k.
Proof.
  intros Hk Hd. assert (Hrel : Znumtheory.rel_prime d (2 ^ k)).
  { apply Zpow_facts.rel_prime_Zpower_r; [lia|]. apply Znumtheory.Zgcd_1_rel_prime.
    apply Z.odd_spec in Hd as [m ->]. rewrite Z.gcd_comm, Z.add_comm, Z.gcd_comm, Z.gcd_comm.
    rewrite (Z.mul_comm 2 m), Z.gcd_add_mult_diag_r. apply Z.gcd_1_r. }
  apply Znumtheory.rel_prime_bezout in Hrel as [u v Huv]. exists u.
  replace (d * u) with (1 + (- v) * 2 ^ k) by lia. apply Z_mod_plus_full.
Qed.

(** A step that is odd reaches every slot of a table whose size is a power of two. *)
Lemma probe_covers k h d i :
  0 <= k -> Z.odd d = true -> 0 <= i < 2 ^ k -> exists t, 0 <= t < 2 ^ k /\ probe k h d t = i.
Proof.
  intros Hk Hd Hi. destruct (odd_inverse k d Hk Hd) as [e He]. pose proof (pow2_pos k Hk).
  exists (((i - h) * e) mod 2 ^ k). split; [by apply Z.mod_pos_bound|]. unfold probe.
  rewrite Zplus_mod, Zmult_mod_idemp_l, <-Z.mul_assoc, (Z.mul_comm e d), Zmult_mod, He, <-Zmult_mod, Z.mul_1_r.
  rewrite <-Zplus_mod. replace (h + (i - h)) with i by lia. by apply Z.mod_small.
Qed.

Lemma mod_wrap e x : 0 <= e <= 32 -> wrap 32 x mod 2 ^ e = x mod 2 ^ e.
Proof.
  intros He. unfold wrap. symmetry. apply Znumtheory.Zmod_div_mod; [apply pow2_pos; lia|done|].
  exists (2 ^ (32 - e)). rewrite <-Z.pow_add_r by lia. f_equal. lia.
Qed.

Lemma odd_step x : Z.odd (wrap 32 (Z.lor x 1)) = true.
Proof. unfold wrap. rewrite <-Z.bit0_odd, Z.mod_pow2_bits_low, Z.lor_spec by lia. apply orb_true_r. Qed.

Section Table.
Context {K : Type} `{Countable K}.
Context (ulong D : Z) (hash_1 hash_2 : Z -> Z) (compare : Z -> Z -> Z).

(** The client: items have keys, equal keys have equal hashes, and the comparison compares
    keys. *)
Context (name : Z -> K) (h1 h2 : K -> Z).
Context (Hulong : ulong = 32 \/ ulong = 64) (HD : D <> 0).
Context (Hhash_1 : forall x, hash_1 x = h1 (name x)) (Hhash_2 : forall x, hash_2 x = h2 (name x)).
Context (Hcompare : forall x y, compare x y = 0 <-> name x = name y).

Abbreviation vacant := (HASH_VACANT D).

Lemma vacant_false x : vacant x = false <-> x <> 0 /\ x <> D.
Proof. unfold HASH_VACANT. rewrite orb_false_iff, !Z.eqb_neq. done. Qed.

Definition step (key : K) : Z := wrap 32 (Z.lor (h2 key) 1).

(** The slot of a round. *)
Definition slot_of (e : Z) (key : K) (t : Z) : nat := Z.to_nat (probe e (h1 key) (step key) t).

(** The vector holds the map: each item is where a search for its key comes along before
    it sees an empty slot. *)
Record holds (e : Z) (vec : list Z) (m : gmap K Z) : Prop := {
  h_length : Z.of_nat (length vec) = 2 ^ e;
  h_item : forall i x, vec !! i = Some x -> vacant x = false -> m !! name x = Some x;
  h_map : forall key x, m !! key = Some x -> name x = key /\ vacant x = false /\
    exists t, 0 <= t /\ vec !! slot_of e key t = Some x /\ forall t', 0 <= t' < t -> vec !! slot_of e key t' <> Some 0;
  h_once : forall i j x, vec !! i = Some x -> vec !! j = Some x -> vacant x = false -> i = j;
}.

(** What a round leaves behind it. *)
Definition passed_over (vec : list Z) (key : K) (i : nat) : Prop :=
  exists x, vec !! i = Some x /\ x <> 0 /\ (x = D \/ name x <> key).

Record searching (e : Z) (vec : list Z) (key : K) (t : Z) (st : search) : Prop := {
  sr_hash_1 : s_hash_1 st mod 2 ^ e = probe e (h1 key) (step key) t;
  sr_hash_2 : s_hash_2 st = 0 \/ s_hash_2 st = step key;
  sr_deleted : forall j, s_deleted st = Some j -> vec !! j = Some D /\ exists t', 0 <= t' < t /\ j = slot_of e key t';
  sr_passed : forall t', 0 <= t' < t -> passed_over vec key (slot_of e key t');
}.

(** The result of a search. *)
Definition found (e : Z) (vec : list Z) (key : K) (slot : nat) : Prop :=
  (exists x, vec !! slot = Some x /\ vacant x = false /\ name x = key) \/
  (exists y t T, vec !! slot = Some y /\ vacant y = true /\ 0 <= t <= T /\ slot = slot_of e key t /\
     vec !! slot_of e key T = Some 0 /\ forall t', 0 <= t' < T -> passed_over vec key (slot_of e key t')).

Lemma probe_succ e h d t : (probe e h d t + d) mod 2 ^ e = probe e h d (t + 1).
Proof. unfold probe. rewrite Zplus_mod_idemp_l. f_equal. lia. Qed.

Lemma mask_size e h : 0 <= e <= 31 -> wrap 32 (Z.land h (wrap ulong (2 ^ e - 1))) = h mod 2 ^ e.
Proof.
  intros He. pose proof (pow2_pos e). assert (2 ^ e <= 2 ^ 31) by (apply Z.pow_le_mono_r; lia).
  rewrite (wrap_small ulong) by (destruct Hulong as [-> | ->]; unfold fits; lia).
  replace (2 ^ e - 1) with (Z.ones e) by (rewrite Z.ones_equiv; lia). rewrite Z.land_ones by lia.
  apply wrap_small. pose proof (Z.mod_pos_bound h (2 ^ e)). unfold fits. lia.
Qed.

Lemma find_next_searching e vec key t st d c :
  0 <= e <= 31 -> searching e vec (name key) t st -> passed_over vec (name key) (slot_of e (name key) t) -> 0 <= t ->
  (forall j, d = Some j -> vec !! j = Some D /\ exists t', 0 <= t' < t + 1 /\ j = slot_of e (name key) t') ->
  searching e vec (name key) (t + 1) (find_next hash_2 key (probe e (h1 (name key)) (step (name key)) t)
    (mk_search (s_hash_1 st) (s_hash_2 st) d c)).
Proof.
  intros He [S1 S2 S3 S4] Hp Ht Hd.
  assert (Hstep : (if s_hash_2 st =? 0 then wrap 32 (Z.lor (hash_2 key) 1) else s_hash_2 st) = step (name key)).
  { unfold step. rewrite Hhash_2. case_bool; [done|]. by destruct S2. }
  unfold find_next. cbn [s_hash_2 s_deleted s_collisions]. rewrite Hstep. constructor; cbn.
  - rewrite mod_wrap by lia. apply probe_succ.
  - by right.
  - done.
  - intros t' Ht'. destruct (decide (t' = t)) as [->|]; [done|]. apply S4. lia.
Qed.

(** A search ends when an empty slot is ahead. *)
Lemma find_rounds e ht key t st n :
  0 <= e <= 31 -> ht_size ht = 2 ^ e -> Z.of_nat (length (ht_vec ht)) = 2 ^ e -> 0 <= t ->
  searching e (ht_vec ht) (name key) t st ->
  (exists t', t <= t' < t + Z.of_nat n /\ ht_vec ht !! slot_of e (name key) t' = Some 0) ->
  exists slot c, rounds n (find_round ulong D hash_2 compare ht key) st = inl (Some (slot, c)) /\ found e (ht_vec ht) (name key) slot.
Proof.
  intros He Hsize Hlen. revert t st. induction n as [|n IH]; intros t st Ht S (t' & Ht' & Hz); [lia|].
  rewrite rounds_S. unfold find_round at 1. cbv zeta. rewrite Hsize, mask_size by done.
  rewrite (sr_hash_1 _ _ _ _ _ S). fold (slot_of e (name key) t).
  pose proof (Z.mod_pos_bound (h1 (name key) + t * step (name key)) (2 ^ e) (pow2_pos e ltac:(lia))) as Hb.
  destruct (lookup_lt_is_Some_2 (ht_vec ht) (slot_of e (name key) t)) as [x Hx].
  { unfold slot_of, probe. lia. }
  rewrite Hx. destruct (Z.eqb_spec x 0) as [->|Hx0].
  { eexists _, _. split; [done|]. right. destruct (s_deleted st) as [j|] eqn:Ed.
    - destruct (sr_deleted _ _ _ _ _ S j Ed) as (Hj & t0 & Ht0 & ->). exists D, t0, t. cbn. split_and!; try done; try lia.
      + unfold HASH_VACANT. rewrite Z.eqb_refl. apply orb_true_r.
      + apply (sr_passed _ _ _ _ _ S).
    - exists 0, t, t. cbn. split_and!; try done; try lia. apply (sr_passed _ _ _ _ _ S). }
  assert (Hnext : t + 1 <= t' < t + 1 + Z.of_nat n).
  { destruct (decide (t' = t)) as [->|]; [|lia]. rewrite Hx in Hz. by injection Hz. }
  destruct (Z.eqb_spec x D) as [->|HxD].
  { apply (IH (t + 1)); [lia| |by exists t']. apply find_next_searching; try done.
    - exists D. split_and!; [done|done|by left].
    - intros j Hj. destruct (s_deleted st) as [j'|] eqn:Ed; injection Hj as <-; [|split; [done|by exists t; split; [lia|]]].
      destruct (sr_deleted _ _ _ _ _ S j' Ed) as (Hj & t0 & Ht0 & ->). split; [done|]. exists t0. split; [lia|done]. }
  assert (Hv : vacant x = false) by (by apply vacant_false).
  destruct (Z.eqb_spec key x) as [->|Hkey]; [eexists _, _; split; [done|]; left; by exists x|].
  destruct (Z.eqb_spec (compare key x) 0) as [Hc|Hc].
  { eexists _, _. split; [done|]. left. exists x. split_and!; try done. by apply eq_sym, Hcompare. }
  apply (IH (t + 1)); [lia| |by exists t']. apply find_next_searching; try done.
  - exists x. split_and!; [done|done|right]. intros Hn. by apply Hc, Hcompare.
  - intros j Hj. destruct (sr_deleted _ _ _ _ _ S j Hj) as (Hj' & t0 & Ht0 & ->). split; [done|]. exists t0. split; [lia|done].
Qed.

(** Where an item of the key may be put: its slot, or a vacant one that a search comes
    along before it sees an empty slot. *)
Definition place (e : Z) (vec : list Z) (m : gmap K Z) (key : K) (slot : nat) : Prop :=
  match m !! key with
  | Some x => vec !! slot = Some x
  | None => exists y t, vec !! slot = Some y /\ vacant y = true /\ 0 <= t /\ slot = slot_of e key t /\
      forall t', 0 <= t' < t -> vec !! slot_of e key t' <> Some 0
  end.

Lemma found_place e vec m key slot : holds e vec m -> found e vec key slot -> place e vec m key slot.
Proof.
  intros Hh [(x & Hx & Hv & <-)|(y & t & T & Hy & Hv & Ht & -> & Hz & Hp)]; unfold place.
  - by rewrite (h_item _ _ _ Hh _ _ Hx Hv).
  - destruct (m !! key) as [x|] eqn:Hm.
    + exfalso. destruct (h_map _ _ _ Hh _ _ Hm) as (Hn & Hvx & t0 & Ht0 & Hx & Hnz). apply vacant_false in Hvx as [Hx0 HxD].
      destruct (decide (t0 < T)) as [Hlt|].
      * destruct (Hp t0 ltac:(lia)) as (x' & Hx' & _ & Hne). rewrite Hx in Hx'. simplify_eq. by destruct Hne.
      * destruct (decide (t0 = T)) as [->|]; [rewrite Hx in Hz; by simplify_eq|]. by apply (Hnz T); [lia|].
    + exists y, t. split_and!; try done; [lia|]. intros t' Ht' Hz'. destruct (Hp t' ltac:(lia)) as (x & Hx & Hx0 & _).
      rewrite Hx in Hz'. by simplify_eq.
Qed.

(** A search in a table with an empty slot returns. *)
Lemma find_slot_spec e ht m key :
  0 <= e <= 31 -> ht_size ht = 2 ^ e -> holds e (ht_vec ht) m -> 0 ∈ ht_vec ht ->
  exists slot c, hash_find_slot ulong D hash_1 hash_2 compare ht key = Some (slot, count_search ulong c ht) /\
    place e (ht_vec ht) m (name key) slot.
Proof.
  intros He Hsize Hh (i & Hi)%list_elem_of_lookup_1. pose proof (h_length _ _ _ Hh) as Hlen.
  pose proof (lookup_lt_Some _ _ _ Hi) as Hlt.
  destruct (probe_covers e (h1 (name key)) (step (name key)) (Z.of_nat i)) as (t & Ht & Hp); [lia|apply odd_step|lia|].
  destruct (find_rounds e ht key 0 (mk_search (wrap 32 (hash_1 key)) 0 None (ht_collisions ht)) (Z.to_nat (2 ^ e)))
    as (slot & c & Hr & Hf); try done.
  - constructor; cbn; [|by left|done|intros; lia]. rewrite Hhash_1, mod_wrap by lia. unfold probe. f_equal. lia.
  - exists t. split; [lia|]. unfold slot_of. by rewrite Hp, Nat2Z.id.
  - exists slot, c. split; [|by apply found_place]. unfold hash_find_slot.
    rewrite (loop_ends 32 _ _ _ _ Hr); [done|]. rewrite Z2Nat.id by lia. apply Z.pow_le_mono_r; lia.
Qed.

Lemma place_lookup e vec m key slot : place e vec m key slot -> exists y, vec !! slot = Some y /\
  (m !! key = None -> vacant y = true) /\ (forall x, m !! key = Some x -> y = x).
Proof.
  unfold place. destruct (m !! key) as [x|]; [by exists x; split_and!; [|done|intros ? [= <-]]|].
  intros (y & t & Hy & Hv & _). by exists y.
Qed.

(** An item is stored. *)
Lemma holds_put e vec m item slot :
  holds e vec m -> vacant item = false -> place e vec m (name item) slot ->
  holds e (<[slot := item]> vec) (<[name item := item]> m).
Proof.
  intros Hh Hv Hp. destruct (place_lookup _ _ _ _ _ Hp) as (y & Hy & Hnone & Hsome).
  pose proof (lookup_lt_Some _ _ _ Hy) as Hlt. apply vacant_false in Hv as Hv'.
  assert (Hother : forall i x, i <> slot -> vec !! i = Some x -> vacant x = false -> name x <> name item).
  { intros i x Hi Hx Hvx Hn. pose proof (h_item _ _ _ Hh _ _ Hx Hvx) as Hm. rewrite Hn in Hm.
    apply Hi. apply (h_once _ _ _ Hh i slot x); [done| |done]. by rewrite Hy, (Hsome _ Hm). }
  assert (Hnz : forall i, vec !! i <> Some 0 -> <[slot := item]> vec !! i <> Some 0).
  { intros i Hi [(_ & Hz & _)|(_ & Hz)]%list_lookup_insert_Some; [lia|done]. }
  constructor.
  - rewrite length_insert. apply (h_length _ _ _ Hh).
  - intros i x [(<- & <- & _)|(Hi & Hx)]%list_lookup_insert_Some Hvx; [apply lookup_insert_eq|].
    rewrite lookup_insert_ne by (by apply not_eq_sym, (Hother i)). by apply (h_item _ _ _ Hh i).
  - intros key x [(<- & <-)|(Hne & Hm)]%lookup_insert_Some.
    + split_and!; [done|done|]. unfold place in Hp. destruct (m !! name item) as [x|] eqn:Hm.
      * destruct (h_map _ _ _ Hh _ _ Hm) as (Hn & Hvx & t & Ht & Hx & Hz).
        assert (slot_of e (name item) t = slot) as Hs by (by apply (h_once _ _ _ Hh _ _ x)).
        exists t. rewrite Hs, list_lookup_insert_eq by done. split_and!; try done. intros t' Ht'. by apply Hnz, Hz.
      * destruct Hp as (y' & t & _ & _ & Ht & -> & Hz). exists t. rewrite list_lookup_insert_eq by done.
        split_and!; try done. intros t' Ht'. by apply Hnz, Hz.
    + destruct (h_map _ _ _ Hh _ _ Hm) as (Hn & Hvx & t & Ht & Hx & Hz). split_and!; try done. exists t.
      rewrite list_lookup_insert_ne; [split_and!; try done; intros t' Ht'; by apply Hnz, Hz|].
      intros Hs. rewrite Hs in Hy. rewrite Hx in Hy. simplify_eq. destruct (m !! name item) eqn:Hmi.
      * rewrite (Hsome _ eq_refl) in *. destruct (h_map _ _ _ Hh _ _ Hmi) as [Hn' _]. by apply Hne.
      * by rewrite Hnone in Hvx.
  - intros i j x [(<- & <- & _)|(Hi & Hx)]%list_lookup_insert_Some [(<- & Hxj & _)|(Hj & Hxj)]%list_lookup_insert_Some Hvx;
      [done|exfalso; by apply (Hother j item)|subst x; exfalso; by apply (Hother i item)|by apply (h_once _ _ _ Hh i j x)].
Qed.

(** An item is deleted. *)
Lemma holds_delete e vec m key slot x :
  holds e vec m -> m !! key = Some x -> vec !! slot = Some x -> holds e (<[slot := D]> vec) (delete key m).
Proof.
  intros Hh Hm Hx. pose proof (lookup_lt_Some _ _ _ Hx) as Hlt. destruct (h_map _ _ _ Hh _ _ Hm) as (Hn & Hv & _).
  assert (HvD : vacant D = true) by (unfold HASH_VACANT; rewrite Z.eqb_refl; apply orb_true_r).
  assert (Hnz : forall i, vec !! i <> Some 0 -> <[slot := D]> vec !! i <> Some 0).
  { intros i Hi [(_ & Hz & _)|(_ & Hz)]%list_lookup_insert_Some; [lia|done]. }
  constructor.
  - rewrite length_insert. apply (h_length _ _ _ Hh).
  - intros i y [(<- & <- & _)|(Hi & Hy)]%list_lookup_insert_Some Hvy; [by rewrite HvD in Hvy|].
    pose proof (h_item _ _ _ Hh _ _ Hy Hvy) as Hmy. rewrite lookup_delete_ne; [done|]. intros ->.
    rewrite Hm in Hmy. simplify_eq. by apply Hi, (h_once _ _ _ Hh _ _ y).
  - intros key' y [Hne Hmy]%lookup_delete_Some. destruct (h_map _ _ _ Hh _ _ Hmy) as (Hny & Hvy & t & Ht & Hy & Hz).
    split_and!; try done. exists t. rewrite list_lookup_insert_ne; [split_and!; try done; intros t' Ht'; by apply Hnz, Hz|].
    intros Hs. rewrite <-Hs, Hx in Hy. by simplify_eq.
  - intros i j y [(<- & <- & _)|(Hi & Hy)]%list_lookup_insert_Some; [by rewrite HvD|].
    intros [(<- & <- & _)|(Hj & Hyj)]%list_lookup_insert_Some; [by rewrite HvD|]. by apply (h_once _ _ _ Hh).
Qed.

(** ** Counts *)

Definition zeros (vec : list Z) : Z := Z.of_nat (length (base.filter (fun x => x = 0) vec)).

Lemma zeros_insert vec i y x :
  vec !! i = Some y -> x <> 0 -> zeros (<[i := x]> vec) = zeros vec - (if y =? 0 then 1 else 0).
Proof.
  intros Hy Hx. unfold zeros. revert i Hy. induction vec as [|z vec IH]; intros i Hy; [done|].
  destruct i as [|i]; cbn in Hy.
  - injection Hy as ->. cbn [insert list_insert]. rewrite !filter_cons. rewrite (decide_False (P := x = 0)) by done.
    destruct (Z.eqb_spec y 0), (decide (y = 0)); try done; cbn [length]; lia.
  - change (<[S i := x]> (z :: vec)) with (z :: <[i := x]> vec). rewrite !filter_cons. destruct (decide (z = 0)); cbn [length]; specialize (IH i Hy); destruct (y =? 0); lia.
Qed.

Lemma zeros_positive vec : 0 < zeros vec -> 0 ∈ vec.
Proof.
  unfold zeros. destruct (base.filter (fun x => x = 0) vec) as [|x l] eqn:Hf; [cbn; lia|]. intros _.
  assert (Hx : x ∈ base.filter (fun x => x = 0) vec) by (rewrite Hf; left).
  by apply list_elem_of_filter in Hx as [-> Hx].
Qed.

Lemma zeros_new n : zeros (replicate n 0) = Z.of_nat n.
Proof. unfold zeros. f_equal. induction n as [|n IH]; [done|]. cbn [replicate]. rewrite filter_cons, decide_True by done. cbn. by rewrite IH. Qed.

Lemma holds_new e : 0 <= e -> holds e (replicate (Z.to_nat (2 ^ e)) 0) ∅.
Proof.
  intros He. pose proof (pow2_pos e He). constructor.
  - rewrite length_replicate. lia.
  - by intros i x [-> _]%lookup_replicate_1.
  - intros key x Hx. by rewrite lookup_empty in Hx.
  - by intros i j x [-> _]%lookup_replicate_1.
Qed.

(** ** The loop of [hash_rehash] *)

Definition same_config (ht ht' : hash_table) : Prop :=
  ht_size ht' = ht_size ht /\ ht_capacity ht' = ht_capacity ht /\ ht_fill ht' = ht_fill ht.

(** A table without deleted items that is being filled. *)
Definition filling (e : Z) (ht : hash_table) (m : gmap K Z) : Prop :=
  ht_size ht = 2 ^ e /\ holds e (ht_vec ht) m /\ zeros (ht_vec ht) = 2 ^ e - Z.of_nat (size m) /\ D ∉ ht_vec ht.

Lemma filling_put e ht m M item :
  0 <= e <= 31 -> filling e ht m -> m ⊆ M -> Z.of_nat (size M) < 2 ^ e -> vacant item = false -> M !! name item = Some item ->
  exists slot c, hash_find_slot ulong D hash_1 hash_2 compare ht item = Some (slot, count_search ulong c ht) /\
    filling e (set_vec (<[slot := item]> (ht_vec ht)) (count_search ulong c ht)) (<[name item := item]> m).
Proof.
  intros He (Hsize & Hh & Hz & HD0) Hsub HM Hv Hitem. pose proof (map_subseteq_size _ _ Hsub) as Hle.
  destruct (find_slot_spec e ht m item He Hsize Hh) as (slot & c & Hf & Hp); [apply zeros_positive; lia|].
  exists slot, c. split; [done|]. apply vacant_false in Hv as Hv'. split_and!; cbn; [done|by apply holds_put| |].
  - destruct (place_lookup _ _ _ _ _ Hp) as (y & Hy & Hnone & Hsome). rewrite (zeros_insert _ _ y) by (done || lia).
    destruct (m !! name item) as [x|] eqn:Hm.
    + assert (x = item) as -> by (pose proof (lookup_weaken _ _ _ _ Hm Hsub); congruence).
      rewrite (Hsome _ eq_refl), (proj2 (Z.eqb_neq item 0)), insert_id by (done || lia). lia.
    + rewrite map_size_insert_None by done. specialize (Hnone eq_refl). unfold HASH_VACANT in Hnone.
      apply orb_true_iff in Hnone as [Hy0|HyD]; bool_to_prop; subst y; [rewrite Z.eqb_refl; lia|].
      destruct HD0. by eapply list_elem_of_lookup_2.
  - intros (j & [(_ & Hj & _)|(_ & Hj)]%list_lookup_insert_Some)%list_elem_of_lookup_1; [lia|].
    apply HD0. by eapply list_elem_of_lookup_2.
Qed.

Lemma reinsert_spec e items ht m M :
  0 <= e <= 31 -> filling e ht m -> m ⊆ M -> Z.of_nat (size M) < 2 ^ e ->
  Forall (fun x => vacant x = false -> M !! name x = Some x) items ->
  exists ht' m', reinsert ulong D hash_1 hash_2 compare items ht = Some ht' /\ filling e ht' m' /\ m ⊆ m' /\ m' ⊆ M /\
    same_config ht ht' /\ (forall x, x ∈ items -> vacant x = false -> m' !! name x = Some x).
Proof.
  intros He. revert ht m. induction items as [|item items IH]; intros ht m Hf Hsub HM Hitems.
  { exists ht, m. split_and!; try done. intros x Hx. by apply not_elem_of_nil in Hx. }
  apply list.Forall_cons in Hitems as [Hitem Hitems]. cbn [reinsert]. destruct (vacant item) eqn:Hv.
  - destruct (IH ht m Hf Hsub HM Hitems) as (ht' & m' & Hr & Hf' & Hs1 & Hs2 & Hc & Hall). exists ht', m'.
    split_and!; try done. intros x [->|Hx]%elem_of_cons Hvx; [congruence|by apply Hall].
  - specialize (Hitem eq_refl). destruct (filling_put e ht m M item He Hf Hsub HM Hv Hitem) as (slot & c & -> & Hf1).
    destruct (IH _ _ Hf1) as (ht' & m' & Hr & Hf' & Hs1 & Hs2 & Hc & Hall); try done.
    { by apply insert_subseteq_l. }
    exists ht', m'. assert (Hi : m' !! name item = Some item) by (eapply lookup_weaken; [|done]; apply lookup_insert_eq).
    split_and!; try done.
    + etrans; [|done]. destruct (m !! name item) as [x|] eqn:Hm; [|by apply insert_subseteq].
      assert (x = item) as -> by (pose proof (lookup_weaken _ _ _ _ Hm Hsub); congruence). by rewrite insert_id.
    + intros x [->|Hx]%elem_of_cons Hvx; [done|by apply Hall].
Qed.

(** The items in the slots are those of the map, each once. *)
Lemma filter_once (vec : list Z) :
  (forall i j x, vec !! i = Some x -> vec !! j = Some x -> vacant x = false -> i = j) ->
  base.NoDup (base.filter (fun x => vacant x = false) vec).
Proof.
  induction vec as [|x vec IH]; intros Honce; [apply NoDup_nil_2|]. rewrite filter_cons.
  assert (Hvec : base.NoDup (base.filter (fun x => vacant x = false) vec)).
  { apply IH. intros i j y Hi Hj Hv. by injection (Honce (S i) (S j) y Hi Hj Hv). }
  case_decide as Hv; [|done]. apply NoDup_cons_2; [|done]. intros [_ (j & Hj)%list_elem_of_lookup_1]%list_elem_of_filter.
  by discriminate (Honce O (S j) x eq_refl Hj Hv).
Qed.

Lemma holds_items e vec m :
  holds e vec m -> (fun x => (name x, x)) <$> base.filter (fun x => vacant x = false) vec ≡ₚ map_to_list m.
Proof.
  intros Hh. apply NoDup_Permutation.
  - apply NoDup_fmap_2; [by intros x y [= _ ->]|]. apply filter_once. apply (h_once _ _ _ Hh).
  - apply NoDup_map_to_list.
  - intros [key x]. rewrite elem_of_map_to_list. split.
    + intros (y & [= -> ->] & [Hv (i & Hi)%list_elem_of_lookup_1]%list_elem_of_filter)%list_elem_of_fmap.
      by apply (h_item _ _ _ Hh i).
    + intros Hm. destruct (h_map _ _ _ Hh _ _ Hm) as (Hn & Hv & t & _ & Hx & _). apply list_elem_of_fmap.
      exists x. split; [by rewrite Hn|]. apply list_elem_of_filter. split; [done|]. by eapply list_elem_of_lookup_2.
Qed.

Lemma filter_disjoint (vec : list Z) :
  (length (base.filter (fun x => vacant x = false) vec) + length (base.filter (fun x => x = 0%Z) vec) <= length vec)%nat.
Proof.
  induction vec as [|x vec IH]; [done|]. rewrite !filter_cons. destruct (decide (x = 0)) as [->|]; cbn [length].
  - rewrite decide_False by done. lia.
  - case_decide; cbn [length]; lia.
Qed.

Lemma holds_room e vec m : holds e vec m -> Z.of_nat (size m) + zeros vec <= 2 ^ e.
Proof.
  intros Hh. rewrite <-(h_length _ _ _ Hh). unfold zeros. pose proof (filter_disjoint vec).
  assert (size m = length (base.filter (fun x => vacant x = false) vec)); [|lia].
  rewrite <-(length_fmap (fun x => (name x, x))), (holds_items e vec m Hh). by rewrite length_map_to_list.
Qed.

(** ** The table as a map *)

(** The counts of a table; [n] is the number of slots that have to be empty. *)
Definition counted (e n : Z) (ht : hash_table) (m : gmap K Z) : Prop :=
  4 <= e <= 31 /\ ht_size ht = 2 ^ e /\ ht_capacity ht = 2 ^ e - 2 ^ e / 16 /\ holds e (ht_vec ht) m /\
  ht_fill ht = Z.of_nat (size m) /\ ht_empty_slots ht = zeros (ht_vec ht) /\ n <= zeros (ht_vec ht).

Definition table_ok (ht : hash_table) (m : gmap K Z) : Prop := exists e, counted e (2 ^ e / 16) ht m.

Lemma pow_sixteenth e : 4 <= e -> 2 ^ e = 16 * (2 ^ e / 16) /\ 1 <= 2 ^ e / 16.
Proof.
  intros He. assert (Hp : 2 ^ e = 16 * 2 ^ (e - 4)) by (replace e with (4 + (e - 4)) at 1 by lia; rewrite Z.pow_add_r by lia; lia).
  pose proof (pow2_pos (e - 4) ltac:(lia)). rewrite Hp, Z.mul_comm, Z.div_mul by lia. lia.
Qed.

Lemma pow_bound e : 4 <= e <= 31 -> 16 <= 2 ^ e <= 2 ^ 31.
Proof. intros He. split; [change 16 with (2 ^ 4)|]; apply Z.pow_le_mono_r; lia. Qed.

Lemma wrap_ulong x : 0 <= x < 2 ^ 32 -> wrap ulong x = x.
Proof. intros Hx. apply wrap_small. destruct Hulong as [-> | ->]; unfold fits; lia. Qed.

(** The size after [hash_rehash]. *)
Lemma rehash_size e n ht m :
  counted e n ht m -> 0 <= n -> Z.of_nat (size m) < 2 ^ 30 ->
  exists e', 4 <= e' <= 31 /\ (if ht_capacity ht <=? ht_fill ht then wrap ulong (ht_size ht * 2) else ht_size ht) = 2 ^ e' /\
    (if ht_capacity ht <=? ht_fill ht
     then wrap ulong (2 ^ e' - Z.shiftr (2 ^ e') 4) else ht_capacity ht) = 2 ^ e' - 2 ^ e' / 16 /\
    Z.of_nat (size m) + 2 ^ e' / 16 <= 2 ^ e'.
Proof.
  intros (He & Hsize & Hcap & Hh & Hfill & _ & Hz) Hn Hm. pose proof (holds_room _ _ _ Hh). rewrite Hsize, Hcap, Hfill.
  pose proof (pow_sixteenth e) as Hd. pose proof (pow_bound e He) as Hb. case_bool.
  - assert (He' : e <= 30). { destruct (decide (e = 31)) as [->|]; [|lia]. change (2 ^ 31) with 2147483648 in *. cbn in *. lia. }
    exists (e + 1). assert (Hp : 2 ^ (e + 1) = 2 ^ e * 2) by (rewrite Z.pow_add_r by lia; lia).
    pose proof (pow_bound (e + 1) ltac:(lia)). pose proof (pow_sixteenth (e + 1) ltac:(lia)).
    rewrite Z.shiftr_div_pow2 by lia. change (2 ^ 4) with 16. rewrite !wrap_ulong by lia. lia.
  - exists e. lia.
Qed.

Lemma rehash_spec e n ht m :
  counted e n ht m -> 0 <= n -> Z.of_nat (size m) < 2 ^ 30 ->
  exists ht', hash_rehash ulong D hash_1 hash_2 compare ht = Some ht' /\ table_ok ht' m.
Proof.
  intros Hc Hn Hm. destruct (rehash_size e n ht m Hc Hn Hm) as (e' & He' & Hs & Hcap & Hroom).
  destruct Hc as (He & Hsize & _ & Hh & Hfill & _). pose proof (pow_sixteenth e' ltac:(lia)). pose proof (pow_bound e' He').
  unfold hash_rehash. cbv zeta. rewrite Hs, Hcap.
  match goal with |- context [reinsert _ _ _ _ _ (ht_vec ht) ?ht0] =>
    destruct (reinsert_spec e' (ht_vec ht) ht0 ∅ m) as (ht' & m' & Hr & (Hs' & Hh' & Hz' & _) & _ & Hsub & (_ & Hc' & Hf') & Hall) end.
  - lia.
  - split_and!; cbn; [done|by apply holds_new; lia| |].
    + rewrite zeros_new, map_size_empty. lia.
    + intros [Hx _]%elem_of_replicate. done.
  - apply map_empty_subseteq.
  - lia.
  - apply Forall_lookup_2. intros j x Hx. by apply (h_item _ _ _ Hh j).
  - assert (m' = m) as ->.
    { apply map_subseteq_po; [done|]. apply map_subseteq_spec. intros key x Hx.
      destruct (h_map _ _ _ Hh _ _ Hx) as (Hname & Hv & t & _ & Hvec & _). rewrite <-Hname. apply Hall; [|done].
      by eapply list_elem_of_lookup_2. }
    rewrite Hr. eexists. split; [done|]. exists e'. cbn in Hc', Hf'. split_and!; cbn; try done; try lia; try congruence.
    rewrite Hs', Hf', Hfill, wrap_ulong; lia.
Qed.

(** ** The operations *)

Abbreviation find_slot := (hash_find_slot ulong D hash_1 hash_2 compare).

Lemma table_zero ht m : table_ok ht m -> exists e, counted e (2 ^ e / 16) ht m /\ 0 ∈ ht_vec ht.
Proof.
  intros (e & Hc). exists e. split; [done|]. destruct Hc as (He & _ & _ & _ & _ & _ & Hz).
  apply zeros_positive. pose proof (pow_sixteenth e). lia.
Qed.

Lemma counted_search e n ht m c : counted e n ht m -> counted e n (count_search ulong c ht) m.
Proof. done. Qed.

Lemma find_table ht m key :
  table_ok ht m -> exists e slot c, find_slot ht key = Some (slot, count_search ulong c ht) /\
    counted e (2 ^ e / 16) ht m /\ place e (ht_vec ht) m (name key) slot.
Proof.
  intros (e & Hc & Hz)%table_zero. destruct Hc as (He & Hsize & Hc).
  destruct (find_slot_spec e ht m key) as (slot & c & Hf & Hp); try done; [lia|by destruct Hc as (_ & Hh & _)|].
  by exists e, slot, c.
Qed.

Lemma place_value e vec m key slot :
  place e vec m key slot -> holds e vec m ->
  exists y, vec !! slot = Some y /\ (if vacant y then 0 else y) = default 0 (m !! key) /\
    (vacant y = false -> m !! key = Some y).
Proof.
  intros Hp Hh. destruct (place_lookup _ _ _ _ _ Hp) as (y & Hy & Hnone & Hsome). exists y. split; [done|].
  destruct (m !! key) as [x|] eqn:Hm.
  - rewrite (Hsome x eq_refl) in *. destruct (h_map _ _ _ Hh _ _ Hm) as (_ & -> & _). done.
  - by rewrite (Hnone eq_refl).
Qed.

Lemma find_item_spec ht m key :
  table_ok ht m -> exists ht', hash_find_item ulong D hash_1 hash_2 compare ht key = Some (default 0 (m !! name key), ht') /\
    table_ok ht' m.
Proof.
  intros (e & slot & c & Hf & Hc & Hp)%(find_table ht m key). pose proof Hc as (_ & _ & _ & Hh & _).
  destruct (place_value _ _ _ _ _ Hp Hh) as (y & Hy & Hv & _).
  unfold hash_find_item. rewrite Hf. cbn [count_search ht_vec]. rewrite Hy, Hv. eexists. split; [done|]. by exists e.
Qed.

Lemma table_insert_at e ht m item slot :
  counted e (2 ^ e / 16) ht m -> vacant item = false -> place e (ht_vec ht) m (name item) slot ->
  Z.of_nat (size (<[name item := item]> m)) < 2 ^ 30 ->
  exists slot' ht', hash_insert_at ulong D hash_1 hash_2 compare ht item slot = Some (slot', ht') /\
    table_ok ht' (<[name item := item]> m).
Proof.
  intros (He & Hsize & Hcap & Hh & Hfill & Hempty & Hz) Hv Hp Hm. pose proof (pow_bound e He). pose proof (pow_sixteenth e).
  destruct (place_value _ _ _ _ _ Hp Hh) as (y & Hy & _ & Hval). pose proof (holds_room _ _ _ Hh).
  unfold hash_insert_at. rewrite Hy. cbv zeta.
  match goal with |- context [hash_rehash _ _ _ _ _ ?ht1] => assert (Hc : counted e 0 ht1 (<[name item := item]> m)) end.
  { apply vacant_false in Hv as Hv'. split_and!; cbn; try done; try lia.
    - by apply holds_put.
    - rewrite Hfill, map_size_insert. destruct (place_lookup _ _ _ _ _ Hp) as (y' & Hy' & Hnone & _).
      rewrite Hy in Hy'. injection Hy' as <-. destruct (vacant y) eqn:Hvy.
      + destruct (m !! name item) as [x|] eqn:Hmx; [|rewrite wrap_ulong by lia; cbn; lia].
        destruct (place_value _ _ _ _ _ Hp Hh) as (y' & Hy' & Hd & _). rewrite Hy in Hy'. injection Hy' as <-.
        rewrite Hvy, Hmx in Hd. cbn in Hd. destruct (h_map _ _ _ Hh _ _ Hmx) as (_ & Hvx & _).
        apply vacant_false in Hvx. lia.
      + rewrite (Hval eq_refl). cbn. lia.
    - rewrite (zeros_insert _ _ y) by (done || lia). rewrite Hempty. destruct (y =? 0); [apply wrap_ulong|]; lia.
    - unfold zeros. lia. }
  case_bool.
  - destruct (rehash_spec e 0 _ _ Hc) as (ht' & -> & Hok); [lia|done|].
    destruct (find_table ht' _ item Hok) as (e' & slot' & c & -> & Hc' & _). eexists _, _. split; [done|]. by exists e'.
  - eexists _, _. split; [done|]. exists e. destruct Hc as (C1 & C2 & C3 & C4 & C5 & C6 & C7). split_and!; try done; try lia.
    rewrite <-C6. cbn in E |- *. rewrite Hsize, Hcap, wrap_ulong in E by lia. lia.
Qed.

Lemma insert_spec ht m item :
  table_ok ht m -> vacant item = false -> Z.of_nat (size (<[name item := item]> m)) < 2 ^ 30 ->
  exists ht', hash_insert ulong D hash_1 hash_2 compare ht item = Some (default 0 (m !! name item), ht') /\
    table_ok ht' (<[name item := item]> m).
Proof.
  intros (e & slot & c & Hf & Hc & Hp)%(find_table ht m item) Hv Hm. pose proof Hc as (_ & _ & _ & Hh & _).
  destruct (place_value _ _ _ _ _ Hp Hh) as (y & Hy & Hval & _). unfold hash_insert. rewrite Hf.
  destruct (table_insert_at e (count_search ulong c ht) m item slot) as (slot' & ht' & Hi & Hok); try done.
  cbn [count_search ht_vec] in *. rewrite Hy, Hi, Hval. by exists ht'.
Qed.

Lemma delete_spec ht m key :
  table_ok ht m ->
  exists ht', hash_delete ulong D hash_1 hash_2 compare ht key = Some (default 0 (m !! name key), ht') /\
    table_ok ht' (delete (name key) m).
Proof.
  intros (e & slot & c & Hf & Hc & Hp)%(find_table ht m key). pose proof Hc as (He & Hsize & Hcap & Hh & Hfill & Hempty & Hz).
  destruct (place_value _ _ _ _ _ Hp Hh) as (y & Hy & Hval & Hin). unfold hash_delete, hash_delete_at. rewrite Hf.
  cbn [count_search ht_vec]. rewrite Hy. destruct (vacant y) eqn:Hv.
  - rewrite <-Hval. eexists. split; [done|]. rewrite delete_id; [by exists e|].
    destruct (m !! name key) as [x|] eqn:Hm; [|done]. cbn in Hval. subst x.
    by destruct (h_map _ _ _ Hh _ _ Hm) as (_ & Hv0 & _).
  - specialize (Hin eq_refl). rewrite <-Hval. eexists. split; [done|]. exists e. pose proof (pow_bound e He).
    pose proof (holds_room _ _ _ Hh) as Hroom. apply vacant_false in Hv as Hv'.
    assert (Hsz : size (delete (name key) m) = pred (size m)) by (by rewrite map_size_delete, Hin).
    assert (Hne : size m <> O) by (intros Hs%map_size_empty_iff; rewrite Hs in Hin; by rewrite lookup_empty in Hin).
    assert (Hzi : zeros (<[slot := D]> (ht_vec ht)) = zeros (ht_vec ht)).
    { rewrite (zeros_insert _ _ y) by done. rewrite (proj2 (Z.eqb_neq y 0)) by lia. lia. }
    split_and!; cbn; try done; try lia.
    + by eapply holds_delete.
    + rewrite Hfill, wrap_ulong by (unfold zeros in *; lia). lia.
Qed.

(** ** Sessions *)

(** What clients do with a table; the value is the one that the function returns. *)
Inductive table_op := Find (key : Z) | Insert (item : Z) | Delete (key : Z) | Clear.

Definition run_operation (o : table_op) (ht : hash_table) : option (Z * hash_table) :=
  match o with
  | Find key => hash_find_item ulong D hash_1 hash_2 compare ht key
  | Insert item => hash_insert ulong D hash_1 hash_2 compare ht item
  | Delete key => hash_delete ulong D hash_1 hash_2 compare ht key
  | Clear => Some (0, hash_delete_items ht)
  end.

Fixpoint run_operations (os : list table_op) (ht : hash_table) : option (list Z * hash_table) :=
  match os with
  | [] => Some ([], ht)
  | o :: os =>
      match run_operation o ht with
      | Some (v, ht) => match run_operations os ht with Some (vs, ht) => Some (v :: vs, ht) | None => None end
      | None => None
      end
  end.

(** The same on a finite map from keys to items; 0 stands for none. *)
Definition map_operation (o : table_op) (m : gmap K Z) : Z * gmap K Z :=
  match o with
  | Find key => (default 0 (m !! name key), m)
  | Insert item => (default 0 (m !! name item), <[name item := item]> m)
  | Delete key => (default 0 (m !! name key), delete (name key) m)
  | Clear => (0, ∅)
  end.

Fixpoint map_operations (os : list table_op) (m : gmap K Z) : list Z * gmap K Z :=
  match os with
  | [] => ([], m)
  | o :: os => let '(v, m) := map_operation o m in let '(vs, m) := map_operations os m in (v :: vs, m)
  end.

Definition table_op_ok (o : table_op) : Prop := match o with Insert item => vacant item = false | _ => True end.

Lemma table_clear ht m : table_ok ht m -> table_ok (hash_delete_items ht) ∅.
Proof.
  intros (e & He & Hsize & Hcap & Hh & _). exists e. pose proof (pow_sixteenth e). unfold hash_delete_items.
  pose proof (h_length _ _ _ Hh). assert (Hn : length (ht_vec ht) = Z.to_nat (2 ^ e)) by lia.
  split_and!; cbn; rewrite ?Hn, ?zeros_new, ?map_size_empty; try done; try lia. by apply holds_new; lia.
Qed.

Lemma operation_spec o ht m :
  table_ok ht m -> table_op_ok o -> Z.of_nat (size m) + 1 < 2 ^ 30 ->
  exists ht', run_operation o ht = Some ((map_operation o m).1, ht') /\ table_ok ht' (map_operation o m).2 /\
    (size (map_operation o m).2 <= S (size m))%nat.
Proof.
  intros Hok Ho Hm. destruct o as [key|item|key|]; cbn in Ho |- *.
  - destruct (find_item_spec ht m key Hok) as (ht' & Hf & Hok'). exists ht'. split_and!; [done|done|lia].
  - assert (Hs : (size (<[name item := item]> m) <= S (size m))%nat) by (rewrite map_size_insert; destruct (m !! name item); cbn; lia).
    destruct (insert_spec ht m item Hok Ho) as (ht' & Hf & Hok'); [lia|]. by exists ht'.
  - destruct (delete_spec ht m key Hok) as (ht' & Hf & Hok'). exists ht'. split_and!; [done|done|].
    rewrite map_size_delete. destruct (m !! name key); cbn; lia.
  - eexists. split_and!; [done|by eapply table_clear|]. rewrite map_size_empty. lia.
Qed.

Lemma operations_spec os ht m :
  table_ok ht m -> Forall table_op_ok os -> Z.of_nat (size m) + Z.of_nat (length os) < 2 ^ 30 ->
  exists ht', run_operations os ht = Some ((map_operations os m).1, ht') /\ table_ok ht' (map_operations os m).2.
Proof.
  revert ht m. induction os as [|o os IH]; intros ht m Hok Hos Hm; [by exists ht|].
  apply list.Forall_cons in Hos as [Ho Hos]. cbn [length] in Hm. cbn [run_operations map_operations].
  destruct (operation_spec o ht m Hok Ho) as (ht1 & -> & Hok1 & Hs); [lia|]. destruct (map_operation o m) as [v m1]. cbn [fst snd] in *.
  destruct (IH ht1 m1 Hok1 Hos) as (ht' & -> & Hok'); [lia|]. destruct (map_operations os m1) as [vs m2]. by exists ht'.
Qed.

Lemma table_init n : 8 <= n < 2 ^ 31 -> table_ok (hash_init ulong n) ∅.
Proof.
  intros Hn. exists (Z.log2 n + 1). unfold hash_init. cbv zeta. rewrite round_up_2_spec by (done || lia).
  assert (3 <= Z.log2 n) by (change 3 with (Z.log2 8); apply Z.log2_le_mono; lia).
  assert (Z.log2 n < 31) by (apply Z.log2_lt_pow2; lia). pose proof (pow_sixteenth (Z.log2 n + 1) ltac:(lia)).
  split_and!; cbn; rewrite ?zeros_new, ?map_size_empty; try done; try lia. by apply holds_new; lia.
Qed.

Lemma table_items ht m : table_ok ht m -> (fun x => (name x, x)) <$> hash_items D ht ≡ₚ map_to_list m.
Proof. intros (e & _ & _ & _ & Hh & _). by eapply holds_items. Qed.

(** ** Tables with less than 16 slots *)

(** Such a table does not grow: it has room for the number of items that it was made for. *)
Definition small_table (n e : Z) (ht : hash_table) (m : gmap K Z) : Prop :=
  0 <= e <= 3 /\ ht_size ht = 2 ^ e /\ ht_capacity ht = 2 ^ e /\ holds e (ht_vec ht) m /\
  ht_empty_slots ht = zeros (ht_vec ht) /\ n < zeros (ht_vec ht).

(** There is room for [n] items. *)
Definition has_room (n : Z) (ht : hash_table) (m : gmap K Z) : Prop :=
  table_ok ht m \/ exists e, small_table n e ht m.

Lemma small_find n e ht m key :
  0 <= n -> small_table n e ht m -> exists slot c, find_slot ht key = Some (slot, count_search ulong c ht) /\
    place e (ht_vec ht) m (name key) slot.
Proof.
  intros Hn (He & Hsize & _ & Hh & _ & Hz). apply (find_slot_spec e); try done; [lia|]. apply zeros_positive. lia.
Qed.

Lemma room_find n ht m key :
  0 <= n -> has_room n ht m ->
  exists ht', hash_find_item ulong D hash_1 hash_2 compare ht key = Some (default 0 (m !! name key), ht') /\ has_room n ht' m.
Proof.
  intros Hn [Hok|(e & Hs)].
  - destruct (find_item_spec ht m key Hok) as (ht' & Hf & Hok'). exists ht'. split; [done|by left].
  - destruct (small_find n e ht m key Hn Hs) as (slot & c & Hf & Hp). pose proof Hs as (_ & _ & _ & Hh & _).
    destruct (place_value _ _ _ _ _ Hp Hh) as (y & Hy & Hv & _). unfold hash_find_item. rewrite Hf.
    cbn [count_search ht_vec]. rewrite Hy, Hv. eexists. split; [done|]. right. by exists e.
Qed.

Lemma small_insert n e ht m item :
  0 <= n -> small_table (n + 1) e ht m -> vacant item = false ->
  exists ht', hash_insert ulong D hash_1 hash_2 compare ht item = Some (default 0 (m !! name item), ht') /\
    small_table n e ht' (<[name item := item]> m).
Proof.
  intros Hn Hs Hv. destruct (small_find (n + 1) e ht m item ltac:(lia) Hs) as (slot & c & Hf & Hp).
  destruct Hs as (He & Hsize & Hcap & Hh & Hempty & Hz). destruct (place_value _ _ _ _ _ Hp Hh) as (y & Hy & Hval & _).
  pose proof (holds_room _ _ _ Hh). assert (2 ^ e <= 2 ^ 3) by (apply Z.pow_le_mono_r; lia). apply vacant_false in Hv as Hv'.
  unfold hash_insert, hash_insert_at. rewrite Hf. cbn [count_search ht_vec ht_empty_slots ht_size ht_capacity ht_fill].
  rewrite Hy, Hsize, Hcap, Z.sub_diag, (wrap_ulong 0) by lia. cbv zeta.
  assert (He' : (if y =? 0 then wrap ulong (ht_empty_slots ht - 1) else ht_empty_slots ht) = zeros (<[slot := item]> (ht_vec ht))).
  { rewrite (zeros_insert _ _ y) by (done || lia). rewrite Hempty. destruct (y =? 0); [apply wrap_ulong|]; lia. }
  rewrite He'. assert (Hz' : n < zeros (<[slot := item]> (ht_vec ht))).
  { rewrite (zeros_insert _ _ y) by (done || lia). destruct (y =? 0); lia. }
  rewrite (proj2 (Z.ltb_ge _ 0)), Hval by lia. eexists. split; [done|]. split_and!; cbn; try done; try lia. by apply holds_put.
Qed.

Lemma room_insert n ht m item :
  0 <= n -> has_room (n + 1) ht m -> vacant item = false -> Z.of_nat (size m) + 1 < 2 ^ 30 ->
  exists ht', hash_insert ulong D hash_1 hash_2 compare ht item = Some (default 0 (m !! name item), ht') /\
    has_room n ht' (<[name item := item]> m).
Proof.
  intros Hn [Hok|(e & Hs)] Hv Hm.
  - destruct (insert_spec ht m item Hok Hv) as (ht' & Hf & Hok'); [|exists ht'; split; [done|by left]].
    rewrite map_size_insert. destruct (m !! name item); cbn; lia.
  - destruct (small_insert n e ht m item Hn Hs Hv) as (ht' & Hf & Hs'). exists ht'. split; [done|]. right. by exists e.
Qed.

Lemma room_init n : 0 < n < 2 ^ 31 -> has_room n (hash_init ulong n) ∅.
Proof.
  intros Hn. destruct (decide (8 <= n)); [left; apply table_init; lia|]. right. exists (Z.log2 n + 1).
  pose proof (Z.log2_spec n (proj1 Hn)) as Hl. pose proof (Z.log2_nonneg n).
  assert (Z.log2 n <= 2) by (change 2 with (Z.log2 7); apply Z.log2_le_mono; lia).
  assert (2 ^ (Z.log2 n + 1) <= 2 ^ 3) by (apply Z.pow_le_mono_r; lia). pose proof (pow2_pos (Z.log2 n + 1)).
  assert (Hd : 2 ^ (Z.log2 n + 1) / 16 = 0) by (apply Z.div_small; lia).
  unfold hash_init. cbv zeta. rewrite round_up_2_spec by (done || lia). rewrite Hd.
  replace (Z.succ (Z.log2 n)) with (Z.log2 n + 1) in Hl by lia.
  split_and!; cbn; rewrite ?zeros_new; try done; try lia. by apply holds_new; lia.
Qed.
End Table.

(** The keys of other addresses than those of the items do not matter. *)
Lemma holds_transfer {K} `{Countable K} D (name name' : Z -> K) h1 h2 e vec m :
  holds D name h1 h2 e vec m -> (forall key x, m !! key = Some x -> name' x = name x) -> holds D name' h1 h2 e vec m.
Proof.
  intros [Hl Hi Hm Ho] Hn. split; [done| | |done].
  - intros i x Hx Hv. specialize (Hi i x Hx Hv). by rewrite (Hn _ _ Hi).
  - intros key x Hx. destruct (Hm key x Hx) as (Hk & Hr). split; [|done]. by rewrite (Hn key x).
Qed.

Lemma counted_transfer {K} `{Countable K} D (name name' : Z -> K) h1 h2 e n ht m :
  counted D name h1 h2 e n ht m -> (forall key x, m !! key = Some x -> name' x = name x) -> counted D name' h1 h2 e n ht m.
Proof.
  intros (He & Hs & Hc & Hh & Hr) Hn. split; [done|]. split; [done|]. split; [done|]. split; [by eapply holds_transfer|done].
Qed.

Lemma table_transfer {K} `{Countable K} D (name name' : Z -> K) h1 h2 ht m :
  table_ok D name h1 h2 ht m -> (forall key x, m !! key = Some x -> name' x = name x) -> table_ok D name' h1 h2 ht m.
Proof. intros [e He] Hn. exists e. by eapply counted_transfer. Qed.

Lemma room_transfer {K} `{Countable K} D (name name' : Z -> K) h1 h2 n ht m :
  has_room D name h1 h2 n ht m -> (forall key x, m !! key = Some x -> name' x = name x) -> has_room D name' h1 h2 n ht m.
Proof.
  intros [Hok|(e & He & Hs & Hc & Hh & Hr)] Hn; [left; by eapply table_transfer|right]. exists e.
  split; [done|]. split; [done|]. split; [done|]. split; [by eapply holds_transfer|done].
Qed.

(** C14: a table of make behaves as a finite map from keys to items: whatever functions are
    used for hashing, every sequence of searches, insertions, deletions and clearings
    returns, with the values of the map; the items that [hash_map] and [hash_dump] visit are then
    those of the map, each once. *)
Theorem hash_table_is_map {K} `{Countable K} ulong D (hash_1 hash_2 : Z -> Z) (compare : Z -> Z -> Z)
    (name : Z -> K) (h1 h2 : K -> Z) n os :
  ulong = 32 \/ ulong = 64 -> D <> 0 -> (forall x, hash_1 x = h1 (name x)) -> (forall x, hash_2 x = h2 (name x)) ->
  (forall x y, compare x y = 0 <-> name x = name y) -> 8 <= n < 2 ^ 31 -> Forall (table_op_ok D) os ->
  Z.of_nat (length os) < 2 ^ 30 ->
  exists ht, run_operations ulong D hash_1 hash_2 compare os (hash_init ulong n) = Some ((map_operations name os ∅).1, ht) /\
    ht_fill ht = Z.of_nat (size (map_operations name os ∅).2) /\
    (fun x => (name x, x)) <$> hash_items D ht ≡ₚ map_to_list (map_operations name os ∅).2.
Proof.
  intros Hu HD Hh1 Hh2 Hc Hn Hos Hlen.
  destruct (operations_spec ulong D hash_1 hash_2 compare name h1 h2 Hu HD Hh1 Hh2 Hc os (hash_init ulong n) ∅) as (ht & Hr & Hok).
  - by apply table_init.
  - done.
  - rewrite map_size_empty. lia.
  - exists ht. split_and!; [done| |by eapply table_items]. by destruct Hok as (e & _ & _ & _ & _ & Hf & _).
Qed.

Definition demo_ops : list table_op :=
  [Insert 101; Insert 202; Insert 111; Find 5; Find 31; Delete 2; Find 12; Insert 12].

Lemma hash_table_is_map_witness :
  exists ht, run_operations 64 1 (fun x => INTEGER_HASH_1 64 (x mod 10)) (fun x => INTEGER_HASH_2 64 (x mod 10))
      (fun x y => x mod 10 - y mod 10) demo_ops (hash_init 64 8) =
    Some ([0; 0; 101; 0; 111; 202; 0; 0], ht) /\ ht_fill ht = 2.
Proof.
  destruct (hash_table_is_map 64 1 (fun x => INTEGER_HASH_1 64 (x mod 10)) (fun x => INTEGER_HASH_2 64 (x mod 10))
    (fun x y => x mod 10 - y mod 10) (fun x => x mod 10) (INTEGER_HASH_1 64) (INTEGER_HASH_2 64) 8 demo_ops)
    as (ht & Hr & Hf & _).
  - by right.
  - done.
  - done.
  - done.
  - intros x y. lia.
  - lia.
  - repeat constructor.
  - cbn. lia.
  - exists ht. rewrite Hr, Hf. vm_compute. split; reflexivity.
Defined.

(** Forty insertions make the table grow twice. *)
Example demo_growth :
  (fun r => (ht_size r.2, ht_rehashes r.2)) <$>
    run_operations 64 1 (INTEGER_HASH_1 64) (INTEGER_HASH_2 64) Z.sub (map (fun i => Insert (Z.of_nat i + 2)) (seq 0 40))
      (hash_init 64 8) = Some (64, 2).
Proof. vm_compute. reflexivity. Qed.
