(* ===== verification/MakeText.v ===== *)
(** * The functions of make on text ([sources/host-tools/make-3.81])

    Models the functions of [function.c] that a makefile calls on lists of words, with the
    tokens of [misc.c] and the search for [%] of [read.c].  An argument is a text and a result is
    what is added to the output; the arguments are already expanded. *)

From stdpp Require Import pretty sorting.
From S2P Require Import Prelude Util.
Open Scope Z_scope.

(** ** Words *)

(** [isblank] *)
Definition isblank (c : ascii) : bool := (zc c =? 32) || (zc c =? 9).

Section Tokens.
Context (sep : ascii -> bool).

(** [next_token] *)
Fixpoint next_token (s : cstr) : cstr :=
  match s with
  | c :: s' => if sep c then next_token s' else s
  | [] => []
  end.

(** [end_of_token]: the token and the rest. *)
Fixpoint end_of_token (s : cstr) : cstr * cstr :=
  match s with
  | c :: s' => if sep c then ([], s) else let '(t, r) := end_of_token s' in (c :: t, r)
  | [] => ([], [])
  end.

(** [find_next_token] *)
Definition find_next_token (s : cstr) : option (cstr * cstr) :=
  match next_token s with
  | [] => None
  | p => Some (end_of_token p)
  end.

(** The tokens that a loop over [find_next_token] sees. *)
Fixpoint tokens_fuel (n : nat) (s : cstr) : list cstr :=
  match n with
  | O => []
  | S n => match find_next_token s with Some (t, r) => t :: tokens_fuel n r | None => [] end
  end.

Definition tokens (s : cstr) : list cstr := tokens_fuel (length s) s.
End Tokens.

Abbreviation words := (tokens isblank).

(** Words that are written with a space after each, of which the last is removed. *)
Definition spaced (ws : list cstr) : cstr := concat (map (fun w => w ++ [space]) ws).

Definition kill_last (o : cstr) : cstr := removelast o.

(** What a function that checks its arguments does: it adds text to the output, calls
    [fatal], or has undefined behaviour. *)
Inductive answer :=
| Text (o : cstr)
| Fatal
| Undefined.

(** ** Patterns *)

Definition percent : ascii := "%"%char.
Definition backslash : ascii := "\"%char.

(** The backslashes at the front of a text. *)
Fixpoint backslashes (s : cstr) : nat :=
  match s with
  | c :: s => if bool_decide (c = backslash) then S (backslashes s) else O
  | [] => O
  end.

(** Where the scan of [find_char_unquote] is: outside of references to variables, after a dollar sign,
    or in a reference with parentheses. *)
Inductive scan :=
| Outside
| After_dollar
| In_reference (openparen closeparen : ascii) (pcount : nat).

Section Unquote.
(** The stop characters, and whether references to variables are skipped. *)
Context (stops : ascii -> bool) (ignorevars : bool).

(** The loop of [find_char_unquote]; [before] is the text before the place, the last character first.
    After a dollar sign at the end the code reads behind the string: [None]. *)
Fixpoint unquote_from (m : scan) (before s : cstr) : option (cstr * option nat) :=
  match s with
  | [] => match m with After_dollar => None | _ => Some (rev before, None) end
  | c :: s =>
      match m with
      | After_dollar =>
          unquote_from (if bool_decide (c = "("%char) then In_reference c ")"%char 1
                        else if bool_decide (c = "{"%char) then In_reference c "}"%char 1
                        else Outside) (c :: before) s
      | In_reference o cl n =>
          unquote_from (if bool_decide (c = o) then In_reference o cl (S n)
                        else if bool_decide (c = cl) then if (n - 1 =? 0)%nat then Outside else In_reference o cl (n - 1)
                        else m) (c :: before) s
      | Outside =>
          if ignorevars && bool_decide (c = "$"%char) then unquote_from After_dollar (c :: before) s
          else if stops c then
            let n := backslashes before in
            let before := drop (n - n / 2) before in
            if Nat.even n then Some (rev before ++ c :: s, Some (length before)) else unquote_from Outside (c :: before) s
          else unquote_from Outside (c :: before) s
      end
  end.
End Unquote.

(** [find_char_unquote]: the text after half of the backslashes before stop characters are
    removed, and the place of the first stop character that is not quoted. *)
Definition find_char_unquote (stop1 : ascii) (stop2 : option ascii) (blank ignorevars : bool) (string : cstr)
    : option (cstr * option nat) :=
  unquote_from (fun c => bool_decide (c = stop1) || bool_decide (Some c = stop2) || (blank && isblank c)) ignorevars Outside [] string.

(** [find_percent]; the scan does not leave the string. *)
Definition find_percent (pattern : cstr) : cstr * option nat :=
  default (pattern, None) (find_char_unquote percent None false false pattern).

(** [strcmp] is 0. *)
Definition streq (a b : cstr) : bool := bool_decide (a = b).

(** [pattern_matches], for a pattern whose [%] is known. *)
Definition pattern_matches_at (pattern : cstr) (pc : nat) (str : cstr) : bool :=
  let suffix := drop (S pc) pattern in
  if (length str <? pc + length suffix)%nat || negb (streq (take pc pattern) (take pc str)) then false
  else streq suffix (drop (length str - length suffix) str).

(** [pattern_matches] *)
Definition pattern_matches (pattern : cstr) (pc : option nat) (str : cstr) : bool :=
  match pc with
  | Some pc => pattern_matches_at pattern pc str
  | None =>
      match find_percent pattern with
      | (pattern, None) => streq pattern str
      | (pattern, Some pc) => pattern_matches_at pattern pc str
      end
  end.

(** ** Functions on words *)

(** [func_strip] *)
Definition func_strip (arg : cstr) : cstr :=
  let ws := tokens isspace arg in kill_last (spaced ws).

(** [func_firstword] *)
Definition func_firstword (arg : cstr) : cstr :=
  match find_next_token isblank arg with Some (t, _) => t | None => [] end.

(** [func_lastword] *)
Definition func_lastword (arg : cstr) : cstr := fold_left (fun _ t => t) (words arg) [].

(** [func_words]: the number is an [int] that [sprintf] writes. *)
Definition func_words (arg : cstr) : cstr := str (pretty (swrap 32 (Z.of_nat (length (words arg))))).

(** [strip_whitespace] and [check_numeric]. *)
Definition strip_whitespace (s : cstr) : cstr := rev (next_token isspace (rev (next_token isspace s))).

Definition check_numeric (s : cstr) : bool :=
  forallb (fun c => (48 <=? zc c) && (zc c <=? 57)) (strip_whitespace s) && negb (bool_decide (s = [])).

(** [atoi] of a text that [check_numeric] accepts; a value that is no [int] is undefined. *)
Definition atoi (s : cstr) : option Z :=
  let v := fold_left (fun v c => v * 10 + (zc c - 48)) (strip_whitespace s) 0 in
  if v <? 2 ^ 31 then Some v else None.

(** The loop of [func_word]. *)
Fixpoint nth_token (ts : list cstr) (i : Z) : cstr :=
  match ts with
  | [] => []
  | t :: ts => if i - 1 =? 0 then t else nth_token ts (i - 1)
  end.

(** [func_word] *)
Definition func_word (n text : cstr) : answer :=
  if check_numeric n then
    match atoi n with
    | Some i => if i =? 0 then Fatal else Text (nth_token (words text) i)
    | None => Undefined
    end
  else Fatal.

(** The loops of [func_wordlist]: the text from the token [start] on, and what is left
    after [count] more tokens. *)
Fixpoint skip_tokens (fuel : nat) (start : Z) (text : cstr) : option (cstr * cstr) :=
  match fuel with
  | O => None
  | S fuel =>
      match find_next_token isblank text with
      | None => None
      | Some (_, r) => if start - 1 =? 0 then Some (next_token isblank text, r) else skip_tokens fuel (start - 1) r
      end
  end.

Fixpoint pass_tokens (fuel : nat) (count : Z) (text : cstr) : cstr :=
  match fuel with
  | O => text
  | S fuel =>
      if count - 1 =? 0 then text
      else match find_next_token isblank text with Some (_, r) => pass_tokens fuel (count - 1) r | None => text end
  end.

(** [func_wordlist] *)
Definition func_wordlist (first last text : cstr) : answer :=
  if check_numeric first && check_numeric last then
    match atoi first, atoi last with
    | Some start, Some end_ =>
        if start <? 1 then Fatal
        else
          let count := end_ - start + 1 in
          if 0 <? count then
            match skip_tokens (S (length text)) start text with
            | Some (p, r) => let r := pass_tokens (S (length text)) count r in Text (take (length p - length r) p)
            | None => Text []
            end
          else Text []
    | _, _ => Undefined
    end
  else Fatal.

(** The text [s] at the front. *)
Definition prefix_of (s t : cstr) : bool := bool_decide (take (length s) t = s).

(** [strstr]: the place of the first occurrence. *)
Fixpoint strstr (t s : cstr) : option nat :=
  if prefix_of s t then Some O
  else match t with _ :: t => S <$> strstr t s | [] => None end.

(** [func_findstring] *)
Definition func_findstring (s text : cstr) : cstr := match strstr text s with Some _ => s | None => [] end.

(** The loop of [func_join]. *)
Fixpoint join_tokens (ts ps : list cstr) : list cstr :=
  match ts, ps with
  | t :: ts, p :: ps => (t ++ p) :: join_tokens ts ps
  | t :: ts, [] => t :: join_tokens ts []
  | [], ps => ps
  end.

Definition func_join (list1 list2 : cstr) : cstr := kill_last (spaced (join_tokens (words list1) (words list2))).

(** [func_addsuffix_addprefix] *)
Definition func_addsuffix_addprefix (is_addprefix : bool) (fix_ text : cstr) : cstr :=
  kill_last (spaced (map (fun w => if is_addprefix then fix_ ++ w else w ++ fix_) (words text))).

(** The search from the end of a word for a character: the characters before it and it with
    those after it.  The search starts at the character after the word, which is a blank
    or NUL. *)
Fixpoint search_back (stop : ascii -> bool) (before after : cstr) : option (cstr * ascii * cstr) :=
  match before with
  | [] => None
  | c :: before => if stop c then Some (rev before, c, after) else search_back stop before (c :: after)
  end.

Definition pathsep (c : ascii) : bool := bool_decide (c = "/"%char).
Definition dot_or_sep (c : ascii) : bool := bool_decide (c = "."%char) || pathsep c.

(** The parts of a word for [func_notdir_suffix] and [func_basename_dir]; [suffix] of a
    word without one is [None]. *)
Definition notdir_of (w : cstr) : cstr :=
  match search_back pathsep (rev w) [] with Some (_, _, after) => after | None => w end.

Definition suffix_of (w : cstr) : option cstr :=
  match search_back dot_or_sep (rev w) [] with
  | Some (_, c, after) => if pathsep c then None else Some (c :: after)
  | None => None
  end.

Definition dir_of (w : cstr) : cstr :=
  match search_back pathsep (rev w) [] with Some (before, c, _) => before ++ [c] | None => str "./" end.

Definition basename_of (w : cstr) : cstr :=
  match search_back dot_or_sep (rev w) [] with
  | Some (before, c, _) => if pathsep c then w else before
  | None => w
  end.

(** [func_notdir_suffix] *)
Definition func_notdir_suffix (is_suffix : bool) (arg : cstr) : cstr :=
  kill_last (spaced (if is_suffix then omap suffix_of (words arg) else map notdir_of (words arg))).

(** [func_basename_dir] *)
Definition func_basename_dir (is_basename : bool) (arg : cstr) : cstr :=
  kill_last (spaced (map (if is_basename then basename_of else dir_of) (words arg))).

(** The loop of [func_sort] over the sorted words. *)
Fixpoint without_repeats (ws : list cstr) : list cstr :=
  match ws with
  | [] => []
  | w :: ws' =>
      match ws' with
      | [] => [w]
      | x :: _ => if negb (length x =? length w)%nat || negb (streq w x) then w :: without_repeats ws' else without_repeats ws'
      end
  end.

(** [strcmp] *)
Fixpoint strcmp (a b : cstr) : Z :=
  match a, b with
  | [], [] => 0
  | [], d :: _ => - zc d
  | c :: _, [] => zc c
  | c :: a, d :: b => if zc c =? zc d then if zc c =? 0 then 0 else strcmp a b else zc c - zc d
  end.

Section Sort.
(** Whether [char] is a signed type. *)
Context (char_signed : bool).

(** A character as a [char]. *)
Definition char_value (c : ascii) : Z := if char_signed then swrap 8 (zc c) else zc c.

Definition first_char (s : cstr) : Z := match s with c :: _ => char_value c | [] => 0 end.

(** [alpha_compare] *)
Definition alpha_compare (s1 s2 : cstr) : Z :=
  if negb (first_char s1 =? first_char s2) then first_char s1 - first_char s2 else strcmp s1 s2.

Definition alpha_le (s1 s2 : cstr) : Prop := alpha_compare s1 s2 <= 0.

#[export] Instance alpha_le_dec : RelDecision alpha_le := fun s1 s2 => Z_le_dec _ _.

(** [func_sort]; [qsort] leaves the only sorted permutation. *)
Definition func_sort (arg : cstr) : cstr := kill_last (spaced (without_repeats (merge_sort alpha_le (words arg)))).
End Sort.

(** ** Substitution *)

(** The character before the place [p] of the rest of a text; [prev] is the one before
    the rest. *)
Definition char_before (prev : option ascii) (t : cstr) (p : nat) : option ascii :=
  match p with O => prev | S p => t !! p end.

Definition unblank (c : option ascii) : bool := match c with Some c => negb (isblank c) | None => false end.

(** The loop of [subst_expand]. *)
Fixpoint subst_loop (fuel : nat) (subst replace : cstr) (by_word : bool) (prev : option ascii) (t : cstr) : cstr :=
  match fuel with
  | O => []
  | S fuel =>
      let place :=
        if by_word && (length subst =? 0)%nat
        then Some (length t - length (end_of_token isblank (next_token isblank t)).2)%nat
        else strstr t subst in
      match place with
      | None => t
      | Some p =>
          let q := (p + length subst)%nat in
          let piece :=
            if by_word && (unblank (char_before prev t p) || unblank (t !! q)) then subst else replace in
          take p t ++ piece ++
          (match drop q t with
           | [] => []
           | rest => subst_loop fuel subst replace by_word (char_before prev t q) rest
           end)
      end
  end.

(** [subst_expand] *)
Definition subst_expand (text subst replace : cstr) (by_word : bool) : cstr :=
  if (length subst =? 0)%nat && negb by_word then text ++ replace
  else subst_loop (S (length text)) subst replace by_word None text.

(** [func_subst] *)
Definition func_subst (subst replace text : cstr) : cstr := subst_expand text subst replace false.

(** The tests of [patsubst_expand] on a word: the length, the first and the last character
    and the rest of the part before the [%], and the same for the part after it. *)
Definition word_fails (pre post t : cstr) : bool :=
  (length t <? length pre + length post)%nat ||
  ((0 <? length pre)%nat &&
     (negb (bool_decide (t !! 0%nat = pre !! 0%nat)) ||
      negb (bool_decide (t !! (length pre - 1)%nat = pre !! (length pre - 1)%nat)) ||
      negb (streq (take (length pre - 1) (drop 1 t)) (take (length pre - 1) (drop 1 pre))))) ||
  ((0 <? length post)%nat &&
     (negb (bool_decide (t !! (length t - 1)%nat = post !! (length post - 1)%nat)) ||
      negb (bool_decide (t !! (length t - length post)%nat = post !! 0%nat)) ||
      negb (streq (take (length post - 1) (drop (length t - length post) t)) (take (length post - 1) post)))).

(** What a word becomes, and whether a space is written after it.  The replacement is the
    text before its [%] and the text after it. *)
Definition patsubst_word (pre post rpre : cstr) (rpost : option cstr) (t : cstr) : cstr * bool :=
  if word_fails pre post t then (t, true)
  else
    match rpost with
    | Some rpost =>
        (rpre ++ take (length t - (length pre + length post)) (drop (length pre) t) ++ rpost,
         (0 <? length rpre)%nat || (0 <? length t + length rpost)%nat)
    | None => (rpre, (0 <? length rpre)%nat)
    end.

Fixpoint patsubst_words (pre post rpre : cstr) (rpost : option cstr) (ts : list cstr) : cstr * bool :=
  match ts with
  | [] => ([], false)
  | t :: ts =>
      let '(x, spaced_) := patsubst_word pre post rpre rpost t in
      let '(o, any) := patsubst_words pre post rpre rpost ts in
      (x ++ (if spaced_ then [space] else []) ++ o, spaced_ || any)
  end.

(** [patsubst_expand], as [func_patsubst] calls it. *)
Definition patsubst_expand (text pattern replace : cstr) : cstr :=
  let '(replace, rpc) := find_percent replace in
  let rpre := match rpc with Some rpc => take rpc replace | None => replace end in
  let rpost := (fun rpc => drop (S rpc) replace) <$> rpc in
  match find_percent pattern with
  | (pattern, None) => subst_expand text pattern replace true
  | (pattern, Some pc) =>
      let '(o, doneany) := patsubst_words (take pc pattern) (drop (S pc) pattern) rpre rpost (words text) in
      if doneany then kill_last o else o
  end.

Definition func_patsubst (pattern replace text : cstr) : cstr := patsubst_expand text pattern replace.

(** ** Arguments of a call *)

Section Arguments.
(** The kind of parentheses. *)
Context (openparen closeparen : ascii).

(** [find_next_argument]: the text before the comma and after it. *)
Fixpoint find_next_argument (count : Z) (s : cstr) : option (cstr * cstr) :=
  match s with
  | [] => None
  | c :: s =>
      let go count := (fun '(a, r) => (c :: a, r)) <$> find_next_argument count s in
      if bool_decide (c = openparen) then go (count + 1)
      else if bool_decide (c = closeparen) then if count - 1 <? 0 then None else go (count - 1)
      else if bool_decide (c = comma) && (count =? 0) then Some ([], s)
      else go count
  end.

(** The loop of [handle_function] for the end of the call: the text of the arguments, the text
    after it, and the number for which memory is allocated; [None] is the call of [fatal]. *)
Fixpoint call_end (count nargs : Z) (s : cstr) : option (cstr * cstr * Z) :=
  match s with
  | [] => None
  | c :: s' =>
      let go count nargs := (fun '(a, r, n) => (c :: a, r, n)) <$> call_end count nargs s' in
      if bool_decide (c = comma) then go count (nargs + 1)
      else if bool_decide (c = openparen) then go (count + 1) nargs
      else if bool_decide (c = closeparen) then if count - 1 <? 0 then Some ([], s, nargs) else go (count - 1) nargs
      else go count nargs
  end.

(** The loop of [handle_function] that chops the text into arguments. *)
Fixpoint chop_arguments (fuel : nat) (maximum_args nargs : Z) (s : cstr) : list cstr :=
  match fuel with
  | O => []
  | S fuel =>
      if nargs + 1 =? maximum_args then [s]
      else
        match find_next_argument 0 s with
        | None => [s]
        | Some (a, r) => a :: chop_arguments fuel maximum_args (nargs + 1) r
        end
  end.

Definition arguments (maximum_args : Z) (s : cstr) : list cstr := chop_arguments (S (length s)) maximum_args 0 s.
End Arguments.

(** ** Names of files *)

(** The end of a component of a path. *)
Definition component (s : cstr) : cstr * cstr := end_of_token pathsep s.

(** [(--dest)[-1] != '/'] as long as it holds. *)
Fixpoint back_up (rdest : cstr) : cstr :=
  match rdest with
  | _ :: ((d :: _) as r) => if pathsep d then r else back_up r
  | _ => []
  end.

(** The loop of [abspath], with the path so far; [None] if there is no space for it. *)
Fixpoint abspath_loop (fuel : nat) (path_max : Z) (start dest : cstr) : option cstr :=
  match fuel with
  | O => None
  | S fuel =>
      match start with
      | [] => Some dest
      | _ =>
          let '(c, end_) := component (next_token pathsep start) in
          if (length c =? 0)%nat then Some dest
          else if streq c (str ".") then abspath_loop fuel path_max end_ dest
          else if streq c (str "..") then
            abspath_loop fuel path_max end_ (if (1 <? length dest)%nat then rev (back_up (rev dest)) else dest)
          else
            let dest := if bool_decide (list.last dest = Some "/"%char) then dest else dest ++ str "/" in
            if path_max <=? Z.of_nat (length dest + length c) then None
            else abspath_loop fuel path_max end_ (dest ++ c)
      end
  end.

(** [abspath] *)
Definition abspath (path_max : Z) (starting_directory : option cstr) (name : cstr) : option cstr :=
  match name with
  | [] => None
  | c :: _ =>
      match (if pathsep c then Some (str "/") else starting_directory) with
      | None => None
      | Some dest =>
          match abspath_loop (S (length name)) path_max name dest with
          | Some dest =>
              Some (if (1 <? length dest)%nat && bool_decide (list.last dest = Some "/"%char) then removelast dest else dest)
          | None => None
          end
      end
  end.

(** [func_abspath] *)
Definition func_abspath (path_max : Z) (starting_directory : option cstr) (arg : cstr) : cstr :=
  kill_last (spaced (omap (fun w =>
    if Z.of_nat (length w) <? path_max then abspath path_max starting_directory w else None) (words arg))).

(** ** Words and texts *)

(** A word: not empty, without separators. *)
Definition is_word (sep : ascii -> bool) (w : cstr) : Prop := w <> [] /\ Forall (fun c => sep c = false) w.

Section TokenLemmas.
Context (sep : ascii -> bool).

Lemma next_token_suffix s : exists b, s = b ++ next_token sep s /\ Forall (fun c => sep c = true) b.
Proof.
  induction s as [|c s (b & Hs & Hb)]; cbn [next_token]; [by exists []|].
  destruct (sep c) eqn:E; [|by exists []]. exists (c :: b). split; [cbn; congruence|by constructor].
Qed.

Lemma next_token_head s c r : next_token sep s = c :: r -> sep c = false.
Proof.
  induction s as [|d s IH]; cbn [next_token]; [done|]. destruct (sep d) eqn:E; [done|]. by intros [= -> ->].
Qed.

Lemma end_of_token_app s :
  s = (end_of_token sep s).1 ++ (end_of_token sep s).2 /\ Forall (fun c => sep c = false) (end_of_token sep s).1 /\
  match (end_of_token sep s).2 with c :: _ => sep c = true | [] => True end.
Proof.
  induction s as [|c s (Hs & Ht & Hr)]; cbn [end_of_token]; [done|]. destruct (sep c) eqn:E; [done|].
  destruct (end_of_token sep s) as [t r]. cbn in *. split_and!; [congruence|by constructor|done].
Qed.

Lemma end_of_token_unique t r :
  Forall (fun c => sep c = false) t -> match r with c :: _ => sep c = true | [] => True end ->
  end_of_token sep (t ++ r) = (t, r).
Proof.
  intros Ht Hr. induction Ht as [|c t Hc Ht IH]; cbn [app end_of_token].
  - destruct r as [|c r]; [done|]. cbn [end_of_token]. by rewrite Hr.
  - by rewrite Hc, IH.
Qed.

(** What [find_next_token] finds. *)
Lemma find_next_token_spec s t r :
  find_next_token sep s = Some (t, r) ->
  exists b, s = b ++ t ++ r /\ Forall (fun c => sep c = true) b /\ is_word sep t /\
    match r with c :: _ => sep c = true | [] => True end.
Proof.
  unfold find_next_token. destruct (next_token_suffix s) as (b & Hs & Hb).
  destruct (next_token sep s) as [|c p] eqn:E; [done|]. apply next_token_head in E as Hc. intros Ht%(inj Some).
  pose proof (end_of_token_app (c :: p)) as (Ha & Hw & Hr). rewrite Ht in *. cbn [fst snd] in *.
  exists b. rewrite Hs, Ha. split_and!; try done. split; [|done]. intros ->. cbn in Ha. subst r. congruence.
Qed.

Lemma next_token_blank b s : Forall (fun c => sep c = true) b -> next_token sep (b ++ s) = next_token sep s.
Proof. intros Hb. induction Hb as [|c b Hc Hb IH]; [done|]. cbn [app next_token]. by rewrite Hc. Qed.

Lemma find_next_token_none s : find_next_token sep s = None <-> Forall (fun c => sep c = true) s.
Proof.
  unfold find_next_token. split.
  - destruct (next_token_suffix s) as (b & Hs & Hb). destruct (next_token sep s); [|done]. intros _. rewrite app_nil_r in Hs. by rewrite Hs.
  - intros Hb. by rewrite <-(app_nil_r s), next_token_blank.
Qed.

Lemma find_next_token_app b t r :
  Forall (fun c => sep c = true) b -> is_word sep t -> match r with c :: _ => sep c = true | [] => True end ->
  find_next_token sep (b ++ t ++ r) = Some (t, r).
Proof.
  intros Hb [Ht Hw] Hr. unfold find_next_token. rewrite next_token_blank by done. destruct t as [|c t]; [done|].
  inversion Hw as [|?? Hc _]; subst. cbn [app next_token]. rewrite Hc. f_equal. by apply (end_of_token_unique (c :: t)).
Qed.

Lemma tokens_fuel_enough n m s : (length s <= n)%nat -> (length s <= m)%nat -> tokens_fuel sep n s = tokens_fuel sep m s.
Proof.
  revert m s. induction n as [|n IH]; intros [|m] s Hn Hm; try (destruct s; [|cbn in *; lia]).
  - done.
  - done.
  - done.
  - cbn [tokens_fuel]. destruct (find_next_token sep s) as [[t r]|] eqn:E; [|done].
    apply find_next_token_spec in E as (b & -> & _ & [Ht _] & _). rewrite !length_app in *.
    destruct t; [done|]. cbn in *. f_equal. apply IH; lia.
Qed.

(** The equation of the loop over the tokens. *)
Lemma tokens_eq s :
  tokens sep s = match find_next_token sep s with Some (t, r) => t :: tokens sep r | None => [] end.
Proof.
  unfold tokens. rewrite (tokens_fuel_enough (length s) (S (length s))) by lia. cbn [tokens_fuel].
  destruct (find_next_token sep s) as [[t r]|] eqn:E; [|done].
  apply find_next_token_spec in E as (b & -> & _). f_equal. apply tokens_fuel_enough; rewrite ?length_app; lia.
Qed.

(** Induction over the tokens of a text. *)
Lemma tokens_ind (P : cstr -> list cstr -> Prop) :
  (forall b, Forall (fun c => sep c = true) b -> P b []) ->
  (forall b t r, Forall (fun c => sep c = true) b -> is_word sep t -> match r with c :: _ => sep c = true | [] => True end ->
     P r (tokens sep r) -> P (b ++ t ++ r) (t :: tokens sep r)) ->
  forall s, P s (tokens sep s).
Proof.
  intros Hnil Hcons s. remember (length s) as n eqn:Hn. revert s Hn. induction (lt_wf n) as [n _ IH]. intros s ->.
  rewrite tokens_eq. destruct (find_next_token sep s) as [[t r]|] eqn:E; [|by apply Hnil, find_next_token_none].
  apply find_next_token_spec in E as (b & -> & Hb & Ht & Hr). apply Hcons; try done. apply (IH (length r)); [|done].
  destruct Ht as [Ht _]. rewrite !length_app. destruct t; [done|]. cbn. lia.
Qed.

Lemma tokens_words s : Forall (is_word sep) (tokens sep s).
Proof. apply (tokens_ind (fun _ ws => Forall (is_word sep) ws)); intros; by constructor. Qed.

Lemma tokens_cons b t r :
  Forall (fun c => sep c = true) b -> is_word sep t -> match r with c :: _ => sep c = true | [] => True end ->
  tokens sep (b ++ t ++ r) = t :: tokens sep r.
Proof. intros Hb Ht Hr. by rewrite tokens_eq, find_next_token_app. Qed.

Lemma tokens_nil b : Forall (fun c => sep c = true) b -> tokens sep b = [].
Proof. intros Hb. rewrite tokens_eq. by rewrite (proj2 (find_next_token_none b)). Qed.
End TokenLemmas.

(** Words with single spaces between them. *)
Fixpoint unwords (ws : list cstr) : cstr :=
  match ws with
  | [] => []
  | [w] => w
  | w :: ws => w ++ space :: unwords ws
  end.

Lemma spaced_unwords w ws : spaced (w :: ws) = unwords (w :: ws) ++ [space].
Proof.
  revert w. induction ws as [|x ws IH]; intros w; [cbn; by rewrite app_nil_r|].
  change (spaced (w :: x :: ws)) with ((w ++ [space]) ++ spaced (x :: ws)). rewrite IH.
  change (unwords (w :: x :: ws)) with (w ++ space :: unwords (x :: ws)). by rewrite <-!app_assoc.
Qed.

(** The last space is the only one that is removed. *)
Lemma kill_last_spaced ws : kill_last (spaced ws) = unwords ws.
Proof. destruct ws as [|w ws]; [done|]. rewrite spaced_unwords. apply removelast_last. Qed.

Lemma words_unwords sep ws : sep space = true -> Forall (is_word sep) ws -> tokens sep (unwords ws) = ws.
Proof.
  intros Hs Hws. induction Hws as [|w ws Hw Hws IH]; [done|]. destruct ws as [|x ws].
  - cbn [unwords]. pose proof (tokens_cons sep [] w [] ltac:(done) Hw I) as H. by rewrite app_nil_r in H.
  - change (unwords (w :: x :: ws)) with ([] ++ w ++ space :: unwords (x :: ws)). rewrite tokens_cons by done. f_equal.
    rewrite <-IH at 2. rewrite !(tokens_eq sep). unfold find_next_token. cbn [next_token]. by rewrite Hs.
Qed.

(** ** Patterns *)

(** A text in which every [%] is quoted: a [%] after [run] backslashes gets twice as many
    and one more. *)
Fixpoint quote (run : nat) (s : cstr) : cstr :=
  match s with
  | [] => []
  | c :: s =>
      if bool_decide (c = percent) then replicate (S run) backslash ++ c :: quote 0 s
      else c :: quote (if bool_decide (c = backslash) then S run else 0%nat) s
  end.

(** A pattern with the text [pre] before its [%] and [post] after it. *)
Definition pattern_text (pre post : cstr) : cstr :=
  quote 0 pre ++ replicate (backslashes (rev pre)) backslash ++ percent :: post.

(** The scan for one stop character. *)
Fixpoint unquote (stop1 : ascii) (before s : cstr) : cstr * option nat :=
  match s with
  | [] => (rev before, None)
  | c :: s =>
      if bool_decide (c = stop1) then
        let n := backslashes before in
        let before := drop (n - n / 2) before in
        if Nat.even n then (rev before ++ c :: s, Some (length before)) else unquote stop1 (c :: before) s
      else unquote stop1 (c :: before) s
  end.

Lemma find_percent_eq pattern : find_percent pattern = unquote percent [] pattern.
Proof.
  unfold find_percent, find_char_unquote. cut (forall s before, unquote_from
    (fun c => bool_decide (c = percent) || bool_decide (Some c = None) || (false && isblank c)) false Outside before s = Some (unquote percent before s));
    [intros H; by rewrite H|].
  induction s as [|c s IH]; intros before; [done|]. cbn [unquote_from unquote]. rewrite (bool_decide_eq_false_2 (Some c = None)), !orb_false_r by done.
  cbn [andb]. case_bool_decide; [|apply IH]. cbv zeta. destruct (Nat.even _); [done|apply IH].
Qed.

Lemma unquote_backslashes n before s :
  unquote percent before (replicate n backslash ++ s) = unquote percent (replicate n backslash ++ before) s.
Proof.
  revert before. induction n as [|n IH]; intros before; [done|]. cbn [replicate app unquote].
  rewrite bool_decide_eq_false_2 by done. rewrite IH. f_equal. change (backslash :: before) with ([backslash] ++ before).
  rewrite app_assoc. change [backslash] with (replicate 1 backslash). rewrite <-replicate_add, Nat.add_comm. done.
Qed.

Lemma backslashes_add n before : backslashes (replicate n backslash ++ before) = (n + backslashes before)%nat.
Proof. induction n as [|n IH]; [done|]. cbn [replicate app backslashes]. rewrite bool_decide_eq_true_2 by done. cbn. by rewrite IH. Qed.

(** At a stop character after [m] backslashes, of which [n] are new. *)
Lemma unquote_stop n before s :
  let k := (n + backslashes before)%nat in (n = k - k / 2)%nat ->
  unquote percent before (replicate n backslash ++ percent :: s) =
    if Nat.even k then (rev before ++ percent :: s, Some (length before)) else unquote percent (percent :: before) s.
Proof.
  intros k Hk. rewrite unquote_backslashes. cbn [unquote]. rewrite bool_decide_eq_true_2, backslashes_add by done.
  fold k. rewrite <-Hk, drop_app_length'; [done|]. by rewrite length_replicate.
Qed.

Lemma unquote_quoted s before tail :
  unquote percent before (quote (backslashes before) s ++ tail) = unquote percent (rev s ++ before) tail.
Proof.
  revert before. induction s as [|c s IH]; intros before; [done|]. cbn [quote rev]. case_bool_decide as Hc.
  - subst c. rewrite <-app_assoc. cbn [app]. rewrite unquote_stop
      by (cbv zeta; rewrite <-(Nat.div_unique (S (backslashes before) + backslashes before) 2 (backslashes before) 1); lia).
    replace (Nat.even _) with false by (symmetry; rewrite Nat.even_add, <-(Nat.negb_odd (S _)), Nat.odd_succ;
      by destruct (Nat.even (backslashes before))).
    specialize (IH (percent :: before)). cbn [backslashes] in IH. rewrite bool_decide_eq_false_2 in IH by done.
    rewrite IH. by rewrite <-app_assoc.
  - cbn [app unquote]. rewrite bool_decide_eq_false_2 by done. rewrite <-app_assoc. cbn [app].
    specialize (IH (c :: before)). cbn [backslashes] in IH. by rewrite <-IH.
Qed.

Lemma find_percent_literal s : find_percent (quote 0 s) = (s, None).
Proof.
  rewrite find_percent_eq, <-(app_nil_r (quote 0 s)). pose proof (unquote_quoted s [] []) as H.
  cbn [backslashes] in H. rewrite H. cbn [unquote].
  by rewrite app_nil_r, rev_involutive.
Qed.

Lemma find_percent_pattern pre post : find_percent (pattern_text pre post) = (pre ++ percent :: post, Some (length pre)).
Proof.
  rewrite find_percent_eq. unfold pattern_text. pose proof (unquote_quoted pre []) as H. cbn [backslashes] in H.
  rewrite H, app_nil_r, unquote_stop.
  - replace (Nat.even _) with true; [by rewrite rev_involutive, length_rev|]. symmetry. apply Nat.even_spec.
    exists (backslashes (rev pre)). lia.
  - replace (_ + _)%nat with (backslashes (rev pre) * 2)%nat by lia. rewrite Nat.div_mul; lia.
Qed.

(** The part of a word that [%] stands for. *)
Definition stem_of (pre post w : cstr) : option cstr :=
  let stem := take (length w - (length pre + length post)) (drop (length pre) w) in
  if bool_decide (w = pre ++ stem ++ post) then Some stem else None.

Lemma stem_of_spec pre post w stem : stem_of pre post w = Some stem <-> w = pre ++ stem ++ post.
Proof.
  unfold stem_of. split; [case_bool_decide; [by intros [= <-]|done]|]. intros ->.
  rewrite drop_app_length, take_app_length' by (rewrite !length_app; lia). by rewrite bool_decide_eq_true_2.
Qed.

Lemma drop_percent pre post : drop (S (length pre)) (pre ++ percent :: post) = post.
Proof.
  change (pre ++ percent :: post) with (pre ++ [percent] ++ post). rewrite app_assoc, drop_app_length'; [done|].
  rewrite length_app. cbn. lia.
Qed.

Lemma pattern_matches_stem pre post w :
  pattern_matches_at (pre ++ percent :: post) (length pre) w = bool_decide (is_Some (stem_of pre post w)).
Proof.
  unfold pattern_matches_at, streq. rewrite take_app_length.
  rewrite drop_percent.
  apply eq_true_iff_eq. rewrite bool_decide_eq_true. unfold is_Some. setoid_rewrite stem_of_spec. split.
  - destruct (_ <? _)%nat eqn:Hl; [done|]. cbn [orb]. apply Nat.ltb_ge in Hl. case_bool_decide as Hp; [|done]. cbn [negb].
    rewrite bool_decide_eq_true. intros Hs. exists (take (length w - (length pre + length post)) (drop (length pre) w)).
    rewrite <-(take_drop (length pre) w) at 1. rewrite <-Hp. f_equal.
    rewrite <-(take_drop (length w - (length pre + length post)) (drop (length pre) w)) at 1. f_equal.
    rewrite drop_drop. symmetry. etrans; [exact Hs|]. f_equal. lia.
  - intros [stem ->]. rewrite take_app_length, bool_decide_eq_true_2 by done. rewrite !length_app.
    rewrite (proj2 (Nat.ltb_ge _ _)) by lia. cbn [orb negb]. rewrite app_assoc, drop_app_length', bool_decide_eq_true_2; [done|done|].
    rewrite length_app. lia.
Qed.

(** ** Substitution by patterns *)

Lemma prefix_tests pre t :
  (length pre <= length t)%nat ->
  (0 <? length pre)%nat &&
    (negb (bool_decide (t !! 0%nat = pre !! 0%nat)) ||
     negb (bool_decide (t !! (length pre - 1)%nat = pre !! (length pre - 1)%nat)) ||
     negb (streq (take (length pre - 1) (drop 1 t)) (take (length pre - 1) (drop 1 pre)))) =
  negb (bool_decide (take (length pre) t = pre)).
Proof.
  intros Hl. destruct pre as [|c pre]; [done|]. destruct t as [|d t]; [cbn in Hl; lia|].
  replace (length (c :: pre) - 1)%nat with (length pre) by (cbn; lia). cbn [length Nat.ltb Nat.leb andb]. unfold streq.
  change (drop 1 (d :: t)) with t. change (drop 1 (c :: pre)) with pre. rewrite (firstn_all pre), <-!negb_andb. f_equal. apply eq_true_iff_eq.
  rewrite !andb_true_iff, !bool_decide_eq_true. split.
  - intros [[[= ->] _] Hp]. cbn [firstn]. by rewrite Hp.
  - intros Hp. split_and!.
    + by injection Hp as -> _.
    + rewrite <-Hp, lookup_take_lt by lia. done.
    + by injection Hp as _ ->.
Qed.

Lemma suffix_tests post t :
  (length post <= length t)%nat ->
  (0 <? length post)%nat &&
    (negb (bool_decide (t !! (length t - 1)%nat = post !! (length post - 1)%nat)) ||
     negb (bool_decide (t !! (length t - length post)%nat = post !! 0%nat)) ||
     negb (streq (take (length post - 1) (drop (length t - length post) t)) (take (length post - 1) post))) =
  negb (bool_decide (drop (length t - length post) t = post)).
Proof.
  intros Hl. destruct (length post) as [|m] eqn:Hm.
  { destruct post; [|done]. rewrite Nat.sub_0_r, drop_all. done. }
  cbn [Nat.ltb Nat.leb andb]. rewrite <-!negb_andb. f_equal. apply eq_true_iff_eq. unfold streq.
  rewrite !andb_true_iff, !bool_decide_eq_true. replace (S m - 1)%nat with m by lia. set (u := drop (length t - S m) t).
  assert (Hu : length u = S m) by (unfold u; rewrite length_drop; lia).
  replace (t !! (length t - 1)%nat) with (u !! m) by (unfold u; rewrite lookup_drop; f_equal; lia).
  replace (t !! (length t - S m)%nat) with (u !! 0%nat) by (unfold u; rewrite lookup_drop; f_equal; lia). split; [|by intros ->].
  intros [[Hlast _] Hinit]. rewrite <-(take_drop m u), <-(take_drop m post), Hinit. f_equal.
  destruct (lookup_lt_is_Some_2 u m ltac:(lia)) as [x Hx]. rewrite (drop_S _ _ _ Hx), (drop_S post x m) by congruence.
  by rewrite !drop_ge by lia.
Qed.

Lemma word_fails_stem pre post t : word_fails pre post t = negb (bool_decide (is_Some (stem_of pre post t))).
Proof.
  rewrite <-pattern_matches_stem. unfold word_fails, pattern_matches_at, streq. rewrite take_app_length.
  rewrite drop_percent.
  destruct (length t <? length pre + length post)%nat eqn:Hl; [done|]. apply Nat.ltb_ge in Hl. cbn [orb].
  rewrite prefix_tests, suffix_tests by lia.
  rewrite (bool_decide_ext (pre = take (length pre) t) (take (length pre) t = pre)) by done.
  rewrite (bool_decide_ext (post = drop (length t - length post) t) (drop (length t - length post) t = post)) by done.
  by destruct (bool_decide (take _ _ = _)), (bool_decide (drop _ _ = _)).
Qed.

(** The replacement of a pattern: a text, or a text with a [%]. *)
Inductive replacement :=
| Plain (s : cstr)
| Around (pre post : cstr).

Definition replacement_text (r : replacement) : cstr :=
  match r with Plain s => quote 0 s | Around pre post => pattern_text pre post end.

(** What becomes of a word; a word is dropped if an empty text replaces it. *)
Definition replace_word (pre post : cstr) (r : replacement) (w : cstr) : option cstr :=
  match stem_of pre post w, r with
  | None, _ => Some w
  | Some _, Plain [] => None
  | Some _, Plain s => Some s
  | Some stem, Around rpre rpost => Some (rpre ++ stem ++ rpost)
  end.

Definition before_percent (r : replacement) : cstr := match r with Plain s => s | Around pre _ => pre end.
Definition after_percent (r : replacement) : option cstr := match r with Plain _ => None | Around _ post => Some post end.

Lemma patsubst_word_spec pre post r w :
  w <> [] -> patsubst_word pre post (before_percent r) (after_percent r) w =
    match replace_word pre post r w with Some x => (x, true) | None => ([], false) end.
Proof.
  intros Hw. unfold patsubst_word, replace_word. rewrite word_fails_stem. destruct (stem_of pre post w) as [stem|] eqn:E.
  - rewrite bool_decide_eq_true_2 by by eexists. cbn [negb]. apply stem_of_spec in E. destruct r as [[|c s]|rpre rpost]; [done|done|].
    cbn [before_percent after_percent]. f_equal.
    + rewrite E. rewrite drop_app_length, take_app_length'; [done|]. rewrite !length_app. lia.
    + destruct w; [done|]. apply orb_true_r.
  - rewrite bool_decide_eq_false_2; [done|]. by intros [? ?].
Qed.

Lemma patsubst_words_spec pre post r ws :
  Forall (fun w => w <> []) ws -> patsubst_words pre post (before_percent r) (after_percent r) ws =
    (spaced (omap (replace_word pre post r) ws), bool_decide (omap (replace_word pre post r) ws <> [])).
Proof.
  induction 1 as [|w ws Hw Hws IH]; [done|]. cbn [patsubst_words]. rewrite patsubst_word_spec, IH by done. cbn [omap list_omap].
  destruct (replace_word pre post r w) as [x|]; [|done]. cbn [orb]. f_equal.
  unfold spaced. cbn [map concat]. by rewrite <-!app_assoc.
Qed.

Lemma patsubst_pattern text pre post r :
  patsubst_expand text (pattern_text pre post) (replacement_text r) = unwords (omap (replace_word pre post r) (words text)).
Proof.
  rewrite <-kill_last_spaced. unfold patsubst_expand.
  assert (Hr : exists s pc, find_percent (replacement_text r) = (s, pc) /\
    (match pc with Some pc => take pc s | None => s end) = before_percent r /\ ((fun pc => drop (S pc) s) <$> pc) = after_percent r).
  { destruct r as [s|rpre rpost]; cbn [replacement_text].
    - rewrite find_percent_literal. by eexists _, _.
    - rewrite find_percent_pattern. eexists _, _. split; [done|]. cbn [before_percent after_percent fmap option_fmap option_map].
      by rewrite take_app_length, drop_percent. }
  destruct Hr as (s & pc & -> & -> & ->). rewrite find_percent_pattern, take_app_length.
  rewrite drop_percent.
  rewrite patsubst_words_spec. 2: { eapply list.Forall_impl; [apply (tokens_words isblank)|]. by intros w [Hw _]. }
  case_bool_decide as Ho; [done|]. by destruct (omap _ _).
Qed.

(** ** Substitution of words *)

(** A text in which [f] is applied to each word, with the blanks as they are; [acc] is the part
    of the word that is read so far. *)
Fixpoint map_words (f : cstr -> cstr) (acc s : cstr) : cstr :=
  let flush := match acc with [] => [] | _ => f acc end in
  match s with
  | [] => flush
  | c :: s => if isblank c then flush ++ c :: map_words f [] s else map_words f (acc ++ [c]) s
  end.

Definition occurs (s t : cstr) : Prop := exists a c, t = a ++ s ++ c.

Lemma prefix_of_spec s t : prefix_of s t = true <-> exists c, t = s ++ c.
Proof.
  unfold prefix_of. rewrite bool_decide_eq_true. split; [|intros [c ->]; by rewrite take_app_length].
  intros Hs. exists (drop (length s) t). by rewrite <-Hs at 1; rewrite take_drop.
Qed.

Lemma strstr_some t s p :
  strstr t s = Some p -> t = take p t ++ s ++ drop (p + length s) t /\ (s <> [] -> ~ occurs s (take p t)).
Proof.
  revert p. induction t as [|c t IH]; intros p; cbn [strstr]; destruct (prefix_of s _) eqn:E.
  1,3: intros [= <-]; apply prefix_of_spec in E as [r Hr]; rewrite Hr; change (take 0 (s ++ r)) with (@nil ascii);
    cbn [Nat.add app]; rewrite drop_app_length; split; [done|]; intros Hs (a & d & Ha); by destruct a, s.
  - done.
  - destruct (strstr t s) as [q|]; [|done]. intros [= <-]. destruct (IH q eq_refl) as [Ht Hno]. cbn [firstn Nat.add skipn app].
    split; [congruence|]. intros Hs (a & d & Ha). destruct a as [|x a].
    + assert (Hp : prefix_of s (c :: t) = true); [|congruence]. apply prefix_of_spec. exists (d ++ drop q t).
      rewrite app_assoc. cbn [app] in Ha. rewrite <-Ha. cbn [app]. by rewrite take_drop.
    + injection Ha as -> Ha. apply Hno; [done|]. by exists a, d.
Qed.

Lemma strstr_none t s : strstr t s = None -> ~ occurs s t.
Proof.
  induction t as [|c t IH]; cbn [strstr]; destruct (prefix_of s _) eqn:E; try done.
  - intros _ (a & d & Ha). destruct a, s; try done.
  - destruct (strstr t s); [done|]. intros _ (a & d & Ha). destruct a as [|x a].
    + assert (prefix_of s (c :: t) = true); [|congruence]. apply prefix_of_spec. by exists d.
    + injection Ha as -> Ha. apply IH; [done|]. by exists a, d.
Qed.

Lemma head_drop (t : cstr) n : head (drop n t) = t !! n.
Proof. revert t. induction n as [|n IH]; intros [|c t]; try done. apply IH. Qed.

Section ByWord.
Context (subst replace : cstr) (Hsubst : is_word isblank subst).

Definition swap_word (w : cstr) : cstr := if bool_decide (w = subst) then replace else w.

Lemma map_words_unblank acc w s :
  Forall (fun c => isblank c = false) w -> map_words swap_word acc (w ++ s) = map_words swap_word (acc ++ w) s.
Proof.
  intros Hw. revert acc. induction Hw as [|c w Hc Hw IH]; intros acc; [by rewrite app_nil_r|]. cbn [app map_words].
  rewrite Hc, IH, <-app_assoc. done.
Qed.

Lemma map_words_blank acc s c x :
  isblank c = true -> map_words swap_word acc (s ++ c :: x) = map_words swap_word acc s ++ c :: map_words swap_word [] x.
Proof.
  intros Hc. revert acc. induction s as [|d s IH]; intros acc; cbn [app map_words]; [by rewrite Hc|].
  destruct (isblank d); [|done]. rewrite IH. by rewrite <-app_assoc.
Qed.

Lemma map_words_same acc s : ~ occurs subst (acc ++ s) -> map_words swap_word acc s = acc ++ s.
Proof.
  assert (Hflush : forall acc s, ~ occurs subst (acc ++ s) -> match acc with [] => [] | _ => swap_word acc end = acc).
  { intros [|c a] r Hno; [done|]. unfold swap_word. rewrite bool_decide_eq_false_2; [done|]. intros Ha. apply Hno. exists [], r. by rewrite Ha. }
  revert acc. induction s as [|c s IH]; intros acc Hno; cbn [map_words].
  - rewrite (Hflush acc []) by done. by rewrite app_nil_r.
  - destruct (isblank c).
    + rewrite (Hflush acc (c :: s)) by done. rewrite IH; [done|]. cbn [app]. intros (a & d & ->). apply Hno. exists (acc ++ c :: a), d. by rewrite <-!app_assoc.
    + rewrite IH; rewrite <-app_assoc; done.
Qed.

(** The rest of a text of which the first word has been begun, or not. *)
Definition rest_of (inword : bool) (t : cstr) : cstr :=
  if inword then let '(w, r) := end_of_token isblank t in w ++ map_words swap_word [] r else map_words swap_word [] t.

Lemma rest_blank inword s c x :
  isblank c = true -> ~ occurs subst s -> rest_of inword (s ++ c :: x) = s ++ c :: map_words swap_word [] x.
Proof.
  intros Hc Hno. destruct inword; cbn [rest_of]; [|by rewrite map_words_blank, map_words_same].
  destruct (end_of_token_app isblank s) as (Hs & Hw & Hr). destruct (end_of_token isblank s) as [w r]. cbn [fst snd] in *. subst s.
  rewrite <-app_assoc. rewrite end_of_token_unique; [|done|by destruct r]. rewrite <-app_assoc, map_words_blank, map_words_same; [done| |done].
  intros (a & d & Ha). apply Hno. exists (w ++ a), d. cbn [app] in Ha. by rewrite Ha, <-app_assoc.
Qed.

Lemma rest_same inword s : ~ occurs subst s -> rest_of inword s = s.
Proof.
  intros Hno. destruct inword; cbn [rest_of]; [|by apply map_words_same].
  destruct (end_of_token_app isblank s) as (Hs & _). destruct (end_of_token isblank s) as [w r]. cbn [fst snd] in *.
  rewrite map_words_same; [done|]. intros (a & d & Ha). apply Hno. exists (w ++ a), d. cbn [app] in Ha. by rewrite Hs, Ha, <-app_assoc.
Qed.

Lemma map_words_flush acc r :
  acc <> [] -> match r with c :: _ => isblank c = true | [] => True end ->
  map_words swap_word acc r = swap_word acc ++ map_words swap_word [] r.
Proof.
  intros Ha Hr. destruct r as [|c r]; cbn [map_words]; [destruct acc; [done|by rewrite app_nil_r]|]. rewrite Hr. by destruct acc.
Qed.

(** The word of an occurrence that starts after [a]. *)
Lemma begun_word a c :
  Forall (fun c => isblank c = false) a ->
  map_words swap_word [] (a ++ subst ++ c) =
    a ++ (if bool_decide (a <> []) || unblank (head c) then subst else replace) ++ rest_of true c.
Proof.
  intros Ha. destruct Hsubst as [Hne Hs]. cbn [rest_of]. destruct (end_of_token_app isblank c) as (Hc & Hw & Hr).
  destruct (end_of_token isblank c) as [w r]. cbn [fst snd] in *.
  assert (Hu : unblank (head c) = bool_decide (w <> [])).
  { subst c. destruct w as [|d w]; [destruct r; [done|]; cbn in *; by rewrite Hr|]. inversion Hw; subst. cbn. by rewrite H1. }
  rewrite Hu, Hc, !map_words_unblank by done. rewrite map_words_flush; [|by destruct a, subst|done]. cbn [app].
  unfold swap_word. destruct w as [|d w].
  - rewrite app_nil_r, (bool_decide_eq_false_2 ([] <> [])), orb_false_r by naive_solver. destruct a as [|x a].
    + by rewrite bool_decide_eq_true_2.
    + rewrite bool_decide_eq_false_2, bool_decide_eq_true_2; [by rewrite <-!app_assoc|done|].
      intros Heq%(f_equal length). rewrite length_app in Heq. cbn in Heq. lia.
  - rewrite (bool_decide_eq_true_2 (d :: w <> [])), orb_true_r, bool_decide_eq_false_2; [by rewrite <-!app_assoc| |done].
    intros Heq%(f_equal length). rewrite !length_app in Heq. cbn in Heq. lia.
Qed.

(** The last word of a text, or a part of it. *)
Lemma split_last_word a :
  exists x w, a = x ++ w /\ Forall (fun c => isblank c = false) w /\ (x = [] \/ exists y b, x = y ++ [b] /\ isblank b = true).
Proof.
  induction a as [|c a (x & w & -> & Hw & Hx)] using rev_ind; [by exists [], []; auto|]. destruct (isblank c) eqn:E.
  - exists ((x ++ w) ++ [c]), []. split_and!; [by rewrite app_nil_r|done|]. right. by eexists _, _.
  - exists x, (w ++ [c]). split_and!; [by rewrite app_assoc|by apply Forall_app; auto|done].
Qed.

Lemma char_before_app prev a s : char_before prev (a ++ s) (length a) = match list.last a with Some c => Some c | None => prev end.
Proof.
  destruct a as [|c a _] using rev_ind; [done|]. rewrite last_snoc, length_app, Nat.add_comm. cbn [length Nat.add char_before].
  rewrite <-app_assoc. cbn [app]. by rewrite list_lookup_middle.
Qed.

(** A round that finds an occurrence. *)
Lemma subst_round prev a c :
  ~ occurs subst a ->
  a ++ (if unblank (char_before prev (a ++ subst ++ c) (length a)) || unblank (head c) then subst else replace) ++ rest_of true c =
    rest_of (unblank prev) (a ++ subst ++ c).
Proof.
  intros Hno. rewrite char_before_app. destruct (split_last_word a) as (x & w & -> & Hw & [->|(y & b & -> & Hb)]).
  - cbn [app]. destruct (unblank prev) eqn:Hp.
    + replace (unblank match list.last w with Some c => Some c | None => prev end) with true.
      2: { destruct w as [|d w _] using rev_ind; [done|]. rewrite last_snoc. apply Forall_app in Hw as [_ Hw].
           inversion Hw as [|?? Hd]; subst. cbn. by rewrite Hd. }
      cbn [orb rest_of]. destruct (end_of_token_app isblank c) as (Hc & Hwc & Hr). destruct (end_of_token isblank c) as [wc r].
      cbn [fst snd] in *. rewrite Hc, !app_assoc, end_of_token_unique; [done| |done]. destruct Hsubst. by rewrite !Forall_app.
    + cbn [rest_of]. rewrite begun_word by done. do 2 f_equal.
      destruct w as [|d w _] using rev_ind; [cbn [list.last]; by rewrite Hp|]. rewrite last_snoc. apply Forall_app in Hw as [_ Hw].
      inversion Hw as [|?? Hd]; subst. rewrite (bool_decide_eq_true_2 (_ <> [])) by by destruct w. cbn. by rewrite Hd.
  - rewrite <-!app_assoc. cbn [app]. rewrite rest_blank, begun_word; [|done|done|].
    + do 4 f_equal. destruct w as [|d w _] using rev_ind.
      * rewrite last_snoc. cbn. by rewrite Hb.
      * rewrite app_comm_cons, app_assoc, last_snoc. apply Forall_app in Hw as [_ Hw].
        inversion Hw as [|?? Hd]; subst. rewrite (bool_decide_eq_true_2 (_ <> [])) by by destruct w. cbn. by rewrite Hd.
    + intros (p & q & ->). apply Hno. exists p, (q ++ [b] ++ w). by rewrite <-!app_assoc.
Qed.

Lemma subst_loop_words fuel prev t :
  (length t < fuel)%nat -> subst_loop fuel subst replace true prev t = rest_of (unblank prev) t.
Proof.
  revert prev t. induction fuel as [|fuel IH]; intros prev t Hf; [lia|]. destruct Hsubst as [Hne Hs]. cbn [subst_loop].
  rewrite (proj2 (Nat.eqb_neq _ 0)) by by destruct subst. cbn [andb].
  destruct (strstr t subst) as [p|] eqn:E; [|by rewrite rest_same by by apply strstr_none].
  apply strstr_some in E as [Ht Hno]. specialize (Hno Hne).
  assert (Hp : (p <= length t)%nat).
  { destruct (decide (p <= length t)%nat); [done|]. rewrite take_ge, drop_ge in Ht by lia. apply (f_equal length) in Ht.
    rewrite !length_app in Ht. destruct subst; [done|]. cbn in Ht. lia. }
  set (a := take p t) in *. set (c := drop (p + length subst) t) in *. assert (Ha : p = length a) by (unfold a; rewrite length_take; lia).
  assert (Hrest : match c with [] => [] | d :: r => subst_loop fuel subst replace true (char_before prev t (p + length subst)) (d :: r) end
    = rest_of true c).
  { destruct c as [|d c'] eqn:Ec; [done|]. rewrite IH.
    - rewrite Ht, app_assoc, Ha, <-length_app, char_before_app, last_app. destruct subst as [|x s' _] using rev_ind; [done|].
      rewrite last_snoc. apply Forall_app in Hs as [_ Hs]. apply list.Forall_cons in Hs as [Hx _]. cbn [unblank]. by rewrite Hx.
    - rewrite Ht in Hf. rewrite !length_app in Hf. destruct subst; [done|]. cbn in *. lia. }
  rewrite Hrest. rewrite <-(head_drop t (p + length subst)). fold c. rewrite Ha, Ht. by apply subst_round.
Qed.
End ByWord.

(** The text of a replacement, as it is written for a pattern without [%]. *)
Definition literal_text (r : replacement) : cstr :=
  match r with Plain s => s | Around pre post => pre ++ percent :: post end.

Lemma find_percent_replacement r : (find_percent (replacement_text r)).1 = literal_text r.
Proof. destruct r; cbn [replacement_text literal_text]; [by rewrite find_percent_literal|by rewrite find_percent_pattern]. Qed.

(** C15: [patsubst] with a pattern that has a [%] applies the replacement to each word of the
    text that the pattern matches, puts the part that [%] stands for in the place of the [%] of
    the replacement, keeps the other words, and separates the words by one space; backslashes quote a
    [%] in the pattern and in the replacement. *)
Theorem patsubst_replaces text pre post r :
  func_patsubst (pattern_text pre post) (replacement_text r) text = unwords (omap (replace_word pre post r) (words text)) /\
  forall w stem, stem_of pre post w = Some stem <-> w = pre ++ stem ++ post.
Proof. split; [apply patsubst_pattern|apply stem_of_spec]. Qed.

(** [patsubst] with a pattern that is a word without a [%] replaces exactly the words of
    the text that are equal to the pattern, also where the pattern occurs inside of other words, and
    leaves the blanks of the text as they are. *)
Theorem patsubst_by_word text lit r :
  is_word isblank lit ->
  func_patsubst (quote 0 lit) (replacement_text r) text = map_words (fun w => if bool_decide (w = lit) then literal_text r else w) [] text.
Proof.
  intros Hlit. unfold func_patsubst, patsubst_expand. pose proof (find_percent_replacement r) as Hr.
  destruct (find_percent (replacement_text r)) as [s pc]. cbn [fst] in Hr. subst s. rewrite find_percent_literal.
  unfold subst_expand. rewrite andb_false_r. by rewrite subst_loop_words by (done || lia).
Qed.

Lemma patsubst_by_word_witness :
  func_patsubst (str "a\%") (str "%z") (str " a% ba%  a%a% a%") = str " %z ba%  a%a% %z".
Proof.
  etrans; [apply (patsubst_by_word (str " a% ba%  a%a% a%") (str "a%") (Around [] (str "z")))|vm_compute; reflexivity].
  split; [done|]. repeat constructor.
Defined.

(** ** Sorting *)

Lemma strcmp_opp a b : strcmp b a = - strcmp a b.
Proof.
  revert b. induction a as [|c a IH]; intros [|d b]; cbn [strcmp]; try lia. rewrite (Z.eqb_sym (zc d)).
  destruct (Z.eqb_spec (zc c) (zc d)) as [->|]; [|lia]. destruct (zc d =? 0); [done|apply IH].
Qed.

Lemma strcmp_trans a b c : strcmp a b <= 0 -> strcmp b c <= 0 -> strcmp a c <= 0.
Proof.
  revert b c. induction a as [|x a IH]; intros [|y b] [|z c]; cbn [strcmp]; try (pose proof (zc_bound x)); try (pose proof (zc_bound y));
    try (pose proof (zc_bound z)); try lia.
  - destruct (Z.eqb_spec (zc x) (zc z)); [destruct (Z.eqb_spec (zc x) 0)|]; lia.
  - destruct (Z.eqb_spec (zc x) (zc y)); [destruct (Z.eqb_spec (zc x) 0)|]; lia.
  - destruct (Z.eqb_spec (zc x) (zc y)), (Z.eqb_spec (zc y) (zc z)), (Z.eqb_spec (zc x) (zc z)); try lia.
    destruct (Z.eqb_spec (zc x) 0), (Z.eqb_spec (zc y) 0); try lia. apply IH.
Qed.

Lemma strcmp_zero a b : no_nul a -> no_nul b -> strcmp a b = 0 -> a = b.
Proof.
  intros Ha. revert b. induction Ha as [|c a Hc Ha IH]; intros b Hb; destruct Hb as [|d b Hd Hb]; cbn [strcmp]; try done; try lia.
  destruct (Z.eqb_spec (zc c) (zc d)) as [E|]; [|lia]. destruct (Z.eqb_spec (zc c) 0); [done|]. intros H%IH; [|done].
  apply zc_inj in E. congruence.
Qed.

Section SortLemmas.
Context (char_signed : bool).
Abbreviation compare := (alpha_compare char_signed).
Abbreviation le := (alpha_le char_signed).

Lemma alpha_opp a b : compare b a = - compare a b.
Proof.
  unfold alpha_compare. rewrite (Z.eqb_sym (first_char _ b)).
  destruct (first_char char_signed a =? first_char char_signed b); cbn [negb]; [|lia]. apply strcmp_opp.
Qed.

#[export] Instance alpha_le_trans : Transitive le.
Proof.
  intros a b c. unfold alpha_le, alpha_compare. generalize (first_char char_signed a), (first_char char_signed b), (first_char char_signed c).
  intros x y z. destruct (Z.eqb_spec x y), (Z.eqb_spec y z), (Z.eqb_spec x z); cbn [negb]; try lia. apply strcmp_trans.
Qed.

#[export] Instance alpha_le_total : Total le.
Proof. intros a b. unfold alpha_le. rewrite (alpha_opp a b). lia. Qed.

Lemma alpha_le_antisym a b : no_nul a -> no_nul b -> le a b -> le b a -> a = b.
Proof.
  unfold alpha_le. rewrite (alpha_opp a b). intros Ha Hb H1 H2. assert (H : compare a b = 0) by lia. revert H.
  unfold alpha_compare. destruct (Z.eqb_spec (first_char char_signed a) (first_char char_signed b)); cbn [negb]; [|lia]. by apply strcmp_zero.
Qed.

Lemma without_repeats_cons x y ws :
  without_repeats (x :: y :: ws) = if bool_decide (x = y) then without_repeats (y :: ws) else x :: without_repeats (y :: ws).
Proof.
  change (without_repeats (x :: y :: ws)) with (if negb (length y =? length x)%nat || negb (streq x y)
    then x :: without_repeats (y :: ws) else without_repeats (y :: ws)).
  unfold streq. case_bool_decide as E; [subst y; by rewrite Nat.eqb_refl|]. by rewrite orb_true_r.
Qed.

Lemma without_repeats_elem ws w : w ∈ without_repeats ws <-> w ∈ ws.
Proof.
  induction ws as [|x ws IH]; [done|]. destruct ws as [|y ws]; [done|]. rewrite without_repeats_cons.
  case_bool_decide; rewrite ?elem_of_cons, IH, ?elem_of_cons; [subst y; tauto|done].
Qed.

(** The order without equality. *)
Definition alpha_lt (a b : cstr) : Prop := compare a b < 0.

Lemma without_repeats_sorted ws :
  Forall no_nul ws -> StronglySorted le ws -> StronglySorted alpha_lt (without_repeats ws).
Proof.
  intros Hn Hs. induction Hs as [|x ws Hs IH Hx]; [constructor|]. apply list.Forall_cons in Hn as [Hnx Hn].
  destruct ws as [|y ws]; [by repeat constructor|]. specialize (IH Hn). rewrite without_repeats_cons.
  case_bool_decide as Hxy; [done|]. constructor; [done|]. apply list.Forall_forall. intros w Hw. apply (proj1 (without_repeats_elem _ _)) in Hw.
  apply list.Forall_cons in Hx as [Hxy' Hx]. unfold alpha_lt. destruct (decide (compare x y = 0)) as [Hz|Hz].
  { exfalso. apply Hxy, alpha_le_antisym; [done|by inversion Hn|done|]. unfold alpha_le. rewrite (alpha_opp x y). lia. }
  unfold alpha_le in Hxy'. assert (Hyw : le y w).
  { apply elem_of_cons in Hw as [->|Hw]; [unfold alpha_le, alpha_compare; rewrite Z.eqb_refl|].
    - cbn [negb]. pose proof (strcmp_opp y y). lia.
    - inversion Hs as [|?? _ Hy]; subst. by eapply list.Forall_forall in Hy. }
  destruct (decide (compare x w < 0)); [done|]. exfalso. assert (Hwx : le w x) by (unfold alpha_le; rewrite (alpha_opp x w); lia).
  pose proof (alpha_le_trans y w x Hyw Hwx) as H. unfold alpha_le in H. rewrite (alpha_opp x y) in H. lia.
Qed.
End SortLemmas.

Lemma tokens_chars (P : ascii -> Prop) sep s : Forall P s -> Forall (Forall P) (tokens sep s).
Proof.
  apply (tokens_ind sep (fun s ws => Forall P s -> Forall (Forall P) ws)); [constructor|].
  intros b t r _ _ _ IH Hp. rewrite !Forall_app in Hp. destruct Hp as (_ & Ht & Hr). constructor; [done|by apply IH].
Qed.

(** [sort] writes the words of its argument, each once, in strictly ascending order, whether
    [char] is signed or not. *)
Theorem func_sort_sorts char_signed arg :
  no_nul arg ->
  StronglySorted (alpha_lt char_signed) (words (func_sort char_signed arg)) /\
  (forall w, w ∈ words (func_sort char_signed arg) <-> w ∈ words arg) /\
  func_sort char_signed arg = unwords (words (func_sort char_signed arg)).
Proof.
  intros Hn. unfold func_sort. rewrite kill_last_spaced. set (ws := without_repeats _).
  assert (Hel : forall w, w ∈ ws <-> w ∈ words arg) by (intros w; unfold ws; rewrite without_repeats_elem, merge_sort_Permutation; done).
  rewrite words_unwords; [|done|].
  - split_and!; try done. apply without_repeats_sorted; [|by apply (StronglySorted_merge_sort _)].
    rewrite merge_sort_Permutation. by apply tokens_chars.
  - apply list.Forall_forall. intros w Hw%Hel. pose proof (tokens_words isblank arg) as Hws.
    by eapply list.Forall_forall in Hws.
Qed.

Lemma func_sort_sorts_witness :
  words (func_sort true (str "b a  ba b aa a")) = [str "a"; str "aa"; str "b"; str "ba"] /\
  str "ba" ∈ words (str "b a  ba b aa a").
Proof.
  split; [vm_compute; reflexivity|]. apply (func_sort_sorts true (str "b a  ba b aa a")).
  - repeat constructor; done.
  - apply (bool_decide_unpack _). vm_compute. exact I.
Defined.

(** ** Selecting words *)

Lemma nth_token_spec ts i : 1 <= i -> nth_token ts i = default [] (ts !! Z.to_nat (i - 1)).
Proof.
  revert i. induction ts as [|t ts IH]; intros i Hi; cbn [nth_token]; [done|]. destruct (Z.eqb_spec (i - 1) 0) as [->|]; [done|].
  rewrite IH by lia. replace (Z.to_nat (i - 1)) with (S (Z.to_nat (i - 1 - 1))) by lia. done.
Qed.

Lemma atoi_nonneg s v : check_numeric s = true -> atoi s = Some v -> 0 <= v.
Proof.
  unfold check_numeric, atoi. intros [Hd _]%andb_true_iff. destruct (_ <? 2 ^ 31); [|done]. intros [= <-].
  cut (forall a, 0 <= a -> 0 <= fold_left (fun v c => v * 10 + (zc c - 48)) (strip_whitespace s) a); [intros H; by apply H|].
  revert Hd. induction (strip_whitespace s) as [|c l IH]; intros Hd a Ha; [done|]. cbn [forallb] in Hd.
  rewrite !andb_true_iff in Hd. destruct Hd as [[H1%Z.leb_le _] Hd]. cbn [fold_left]. apply IH; [done|lia].
Qed.

(** The end of a text that a token can be followed by. *)
Definition boundary (r : cstr) : Prop := match r with c :: _ => isblank c = true | [] => True end.

Lemma skip_tokens_spec fuel start text :
  (length text < fuel)%nat -> 1 <= start ->
  match skip_tokens fuel start text with
  | Some (p, r) => exists x t, text = x ++ p /\ p = t ++ r /\ is_word isblank t /\ boundary r /\
      drop (Z.to_nat (start - 1)) (words text) = t :: words r
  | None => (length (words text) <= Z.to_nat (start - 1))%nat
  end.
Proof.
  revert start text. induction fuel as [|fuel IH]; intros start text Hf Hs; [lia|]. cbn [skip_tokens].
  rewrite (tokens_eq isblank text). destruct (find_next_token isblank text) as [[t r]|] eqn:E; [|cbn; lia].
  apply find_next_token_spec in E as (b & -> & Hb & [Ht Hw] & Hr). rewrite !length_app in Hf.
  destruct (Z.eqb_spec (start - 1) 0) as [->|Hne].
  - exists b, t. rewrite next_token_blank by done. split_and!; try done; [f_equal|]; destruct t as [|c t]; try done;
      cbn [app next_token]; inversion Hw as [|?? Hc]; subst; by rewrite Hc.
  - specialize (IH (start - 1) r ltac:(destruct t; [done|cbn in Hf; lia]) ltac:(lia)).
    replace (Z.to_nat (start - 1)) with (S (Z.to_nat (start - 1 - 1))) by lia. destruct (skip_tokens fuel (start - 1) r) as [[p r']|].
    + destruct IH as (x & t' & -> & IH). exists (b ++ t ++ x), t'. by rewrite <-!app_assoc.
    + cbn. lia.
Qed.

Lemma pass_tokens_spec fuel count r :
  (length r < fuel)%nat -> 1 <= count -> boundary r ->
  exists m, r = m ++ pass_tokens fuel count r /\ boundary m /\ words m = take (Z.to_nat (count - 1)) (words r).
Proof.
  revert count r. induction fuel as [|fuel IH]; intros count r Hf Hc Hr; [lia|]. cbn [pass_tokens].
  destruct (Z.eqb_spec (count - 1) 0) as [->|Hne]; [by exists []|]. rewrite (tokens_eq isblank r).
  destruct (find_next_token isblank r) as [[t r1]|] eqn:E; [|by exists []; rewrite firstn_nil].
  apply find_next_token_spec in E as (b & -> & Hb & Ht & Hr1). rewrite !length_app in Hf.
  destruct (IH (count - 1) r1) as (m & Hm & Hbm & Hw); [destruct Ht as [Ht _]; destruct t; [done|cbn in Hf; lia]|lia|done|].
  exists (b ++ t ++ m). rewrite <-!app_assoc, <-Hm. split_and!; [done| |].
  - destruct b as [|c b]; [|by inversion Hb]. destruct Ht as [Ht Hw']. destruct t as [|c t]; [done|]. cbn in Hr. inversion Hw'; congruence.
  - rewrite tokens_cons, Hw by done. by replace (Z.to_nat (count - 1)) with (S (Z.to_nat (count - 1 - 1))) by lia.
Qed.

(** For numbers as arguments, [word] gives the word with that number, and [wordlist] gives a
    part of the text whose words are those from the first number to the last; a number 0
    is a fatal error. *)
Theorem word_and_wordlist first last text s e :
  check_numeric first = true -> check_numeric last = true -> atoi first = Some s -> atoi last = Some e ->
  if s =? 0 then func_word first text = Fatal /\ func_wordlist first last text = Fatal
  else func_word first text = Text (default [] (words text !! Z.to_nat (s - 1))) /\
    exists o, func_wordlist first last text = Text o /\ occurs o text /\
      words o = take (Z.to_nat (e - s + 1)) (drop (Z.to_nat (s - 1)) (words text)).
Proof.
  intros Hf Hl Hs He. pose proof (atoi_nonneg _ _ Hf Hs) as Hpos. unfold func_word, func_wordlist. rewrite Hf, Hl, Hs, He. cbn [andb]. destruct (Z.eqb_spec s 0) as [->|Hne]; [done|].
  rewrite nth_token_spec by lia. rewrite (proj2 (Z.ltb_ge s 1)) by lia. split; [done|]. cbv zeta.
  assert (Hnil : occurs [] text) by (by exists [], text).
  destruct (Z.ltb_spec 0 (e - s + 1)); [|exists []; by replace (Z.to_nat (e - s + 1)) with 0%nat by lia].
  pose proof (skip_tokens_spec (S (length text)) s text ltac:(lia) ltac:(lia)) as Hskip.
  destruct (skip_tokens _ s text) as [[p r]|]; [|exists []; by rewrite drop_ge, firstn_nil].
  destruct Hskip as (x & t & -> & -> & Ht & Hr & ->). rewrite !length_app.
  destruct (pass_tokens_spec (S (length x + (length t + length r))) (e - s + 1) r) as (m & Hm & Hbm & Hw); [lia|lia|done|].
  set (r' := pass_tokens _ _ _) in *. exists (t ++ m).
  replace (take _ (t ++ r)) with (t ++ m).
  - split_and!; [done|exists x, r'; by rewrite Hm at 1; rewrite <-app_assoc|].
    change (t ++ m) with ([] ++ t ++ m). rewrite tokens_cons, Hw by done. by replace (Z.to_nat (e - s + 1)) with (S (Z.to_nat (e - s + 1 - 1))) by lia.
  - rewrite Hm at 2. rewrite app_assoc, take_app_length'; [done|]. rewrite Hm at 1. rewrite !length_app. lia.
Qed.

Lemma word_and_wordlist_witness :
  func_word (str "2") (str "a b  c d") = Text (str "b") /\
  exists o, func_wordlist (str "2") (str " 3 ") (str "a b  c d") = Text o /\ words o = [str "b"; str "c"].
Proof.
  destruct (word_and_wordlist (str "2") (str " 3 ") (str "a b  c d") 2 3) as (Hw & o & Ho & _ & Hws);
    [reflexivity|reflexivity|reflexivity|reflexivity|]. split; [exact Hw|]. exists o. split; [exact Ho|]. rewrite Hws. vm_compute. reflexivity.
Defined.

(** ** Names of files *)

Lemma search_back_spec stop rb after :
  match search_back stop rb after with
  | Some (before, c, rest) => rev rb ++ after = before ++ c :: rest /\ stop c = true /\
      (Forall (fun c => stop c = false) after -> Forall (fun c => stop c = false) rest)
  | None => Forall (fun c => stop c = false) rb
  end.
Proof.
  revert after. induction rb as [|c rb IH]; intros after; cbn [search_back]; [constructor|]. destruct (stop c) eqn:E.
  - cbn [rev]. by rewrite <-app_assoc.
  - specialize (IH (c :: after)). destruct (search_back stop rb (c :: after)) as [[[before d] rest]|]; [|by constructor].
    destruct IH as (Hr & Hd & Hrest). cbn [rev]. rewrite <-app_assoc. split_and!; try done. intros Ha. apply Hrest. by constructor.
Qed.

Lemma search_back_word stop w :
  match search_back stop (rev w) [] with
  | Some (before, c, rest) => w = before ++ c :: rest /\ stop c = true /\ Forall (fun c => stop c = false) rest
  | None => Forall (fun c => stop c = false) w
  end.
Proof.
  pose proof (search_back_spec stop (rev w) []) as H. destruct (search_back stop (rev w) []) as [[[before c] rest]|].
  - rewrite rev_involutive, app_nil_r in H. destruct H as (Hw & Hc & Hr). split_and!; [done|done|by apply Hr].
  - by apply Forall_rev in H; rewrite rev_involutive in H.
Qed.

Lemma suffix_none w x r : suffix_of w = None -> w = x ++ "."%char :: r -> "/"%char ∈ r.
Proof.
  unfold suffix_of. pose proof (search_back_word dot_or_sep w) as Hd. intros Hn ->.
  destruct (search_back dot_or_sep _ []) as [[[before c] rest]|].
  - destruct Hd as (Hw & Hc & Hrest). destruct (pathsep c) eqn:E; [|done]. apply bool_decide_eq_true in E. subst c.
    apply app_eq_inv in Hw as [(k & -> & Hk)|(k & -> & Hk)]; destruct k as [|d k]; try done.
    + injection Hk as <- ->. apply Forall_app in Hrest as [_ Hrest]. by inversion Hrest.
    + injection Hk as <- ->. apply elem_of_app. right. apply elem_of_cons. by left.
  - apply Forall_app in Hd as [_ Hd]. by inversion Hd.
Qed.

(** The parts of a word that is a file name belong together: [basename] and [suffix] divide it at
    the last dot, if no slash is after that dot, and [dir] and [notdir] divide it after the
    last slash; a word without a slash is in the directory [./]. *)
Theorem name_parts w :
  basename_of w ++ default [] (suffix_of w) = w /\
  match suffix_of w with
  | Some s => exists r, s = "."%char :: r /\ Forall (fun c => dot_or_sep c = false) r
  | None => forall x r, w = x ++ "."%char :: r -> "/"%char ∈ r
  end /\
  Forall (fun c => pathsep c = false) (notdir_of w) /\
  (if existsb pathsep w then dir_of w ++ notdir_of w = w else dir_of w = str "./" /\ notdir_of w = w).
Proof.
  split; [|split].
  - unfold basename_of, suffix_of. pose proof (search_back_word dot_or_sep w) as Hd.
    destruct (search_back dot_or_sep (rev w) []) as [[[before c] rest]|]; [|apply app_nil_r]. destruct Hd as (Hw & _).
    destruct (pathsep c); [apply app_nil_r|done].
  - destruct (suffix_of w) as [s|] eqn:E; [|intros x r; by apply suffix_none]. revert E. unfold suffix_of.
    pose proof (search_back_word dot_or_sep w) as Hd. destruct (search_back dot_or_sep (rev w) []) as [[[before c] rest]|]; [|done].
    destruct Hd as (_ & Hc & Hr). unfold dot_or_sep in Hc. destruct (pathsep c); [done|]. rewrite orb_false_r in Hc.
    apply bool_decide_eq_true in Hc. subst c. intros [= <-]. by exists rest.
  - unfold dir_of, notdir_of. pose proof (search_back_word pathsep w) as Hs.
    destruct (search_back pathsep (rev w) []) as [[[before c] rest]|].
    + destruct Hs as (Hw & Hc & Hr). split; [done|].
      assert (He : existsb pathsep w = true) by (rewrite Hw, existsb_app; cbn [existsb]; by rewrite Hc, orb_true_r).
      rewrite He. by rewrite Hw, <-app_assoc.
    + split; [done|]. replace (existsb pathsep w) with false; [done|]. symmetry. induction Hs as [|c w Hc Hs IH]; [done|]. cbn. by rewrite Hc.
Qed.

(** The components of a path, and the path with given components. *)
Definition components (s : cstr) : list cstr := tokens pathsep s.

Definition path_of (cs : list cstr) : cstr := match cs with [] => str "/" | _ => concat (map (fun c => "/"%char :: c) cs) end.

(** The components after [.] and [..] are followed, from a directory. *)
Definition follow_part (cs : list cstr) (c : cstr) : list cstr :=
  if streq c (str ".") then cs else if streq c (str "..") then removelast cs else cs ++ [c].

Definition resolve_parts (base : list cstr) (cs : list cstr) : list cstr := fold_left follow_part cs base.

(** What [abspath] has written when it is at the directory [cs]. *)
Definition written (cs : list cstr) (dest : cstr) : Prop :=
  Forall (is_word pathsep) cs /\ (dest = path_of cs \/ cs <> [] /\ dest = path_of cs ++ str "/").

Lemma path_of_snoc cs c : path_of (cs ++ [c]) = (match cs with [] => [] | _ => path_of cs end) ++ "/"%char :: c.
Proof.
  unfold path_of. destruct cs as [|d cs]; [cbn; by rewrite app_nil_r|]. cbn [app]. change (d :: cs ++ [c]) with ((d :: cs) ++ [c]).
  rewrite map_app, concat_app. cbn [map concat]. by rewrite app_nil_r.
Qed.

Lemma back_up_cons x d r : back_up (x :: d :: r) = if pathsep d then d :: r else back_up (d :: r).
Proof. done. Qed.

Lemma back_up_word w x :
  Forall (fun c => pathsep c = false) w -> w <> [] -> back_up (rev w ++ "/"%char :: x) = "/"%char :: x.
Proof.
  intros Hw Hne. apply Forall_rev in Hw. assert (Hr : rev w <> []) by (intros H%(f_equal (@rev ascii)); by rewrite rev_involutive in H).
  clear Hne. induction Hw as [|c r Hc Hw IH]; [done|]. destruct r as [|d r]; [done|]. cbn [app back_up].
  inversion Hw as [|?? Hd]; subst. rewrite Hd. by apply IH.
Qed.

(** The path of a directory, with a slash at its end. *)
Definition dir_path (cs : list cstr) : cstr := match cs with [] => str "/" | _ => path_of cs ++ str "/" end.

Lemma path_of_dir cs c : path_of (cs ++ [c]) = dir_path cs ++ c.
Proof. rewrite path_of_snoc. unfold dir_path. destruct cs; [done|]. by rewrite <-app_assoc. Qed.

Lemma last_unsep x c : is_word pathsep c -> list.last (x ++ c) <> Some "/"%char.
Proof.
  intros [Hne Hw]. destruct c as [|d c _] using rev_ind; [done|]. rewrite app_assoc, last_snoc. intros [= ->].
  apply Forall_app in Hw as [_ Hw]. by inversion Hw.
Qed.

Lemma written_slashed cs dest :
  written cs dest -> (if bool_decide (list.last dest = Some "/"%char) then dest else dest ++ str "/") = dir_path cs.
Proof.
  intros [Hw Hd]. unfold dir_path. destruct cs as [|c cs _] using rev_ind; [by destruct Hd as [->|[? _]]|].
  assert (Hm : forall A (x y : A), match cs ++ [c] with [] => x | _ => y end = y) by (intros; by destruct cs). rewrite Hm.
  apply Forall_app in Hw as [_ Hw]. inversion Hw as [|?? Hc]; subst. destruct Hd as [->|[_ ->]].
  - rewrite bool_decide_eq_false_2; [done|]. rewrite path_of_dir. by apply last_unsep.
  - rewrite bool_decide_eq_true_2; [done|]. apply last_snoc.
Qed.

Lemma dir_path_end cs : exists y, dir_path cs = y ++ str "/".
Proof. unfold dir_path. destruct cs; [by exists []|by eexists]. Qed.

Lemma written_back_up cs c dest : written (cs ++ [c]) dest -> rev (back_up (rev dest)) = dir_path cs.
Proof.
  intros [Hw Hd]. apply Forall_app in Hw as [_ Hw]. inversion Hw as [|?? [Hne Hc]]; subst. rewrite path_of_dir in Hd.
  destruct (dir_path_end cs) as [y Hy]. rewrite Hy in *.
  assert (Hb : back_up (rev ((y ++ str "/") ++ c)) = "/"%char :: rev y) by (rewrite !rev_app_distr; by apply back_up_word).
  assert (Hend : rev ("/"%char :: rev y) = y ++ str "/") by (cbn [rev]; by rewrite rev_involutive).
  destruct Hd as [->|[_ ->]]; [by rewrite Hb|]. rewrite rev_app_distr. change (rev (str "/")) with (str "/").
  destruct c as [|d c _] using rev_ind; [done|]. rewrite app_assoc, rev_app_distr in *. apply Forall_app in Hc as [_ Hc].
  inversion Hc as [|?? Hd']; subst. change (str "/" ++ rev [d] ++ rev ((y ++ str "/") ++ c)) with ("/"%char :: d :: rev ((y ++ str "/") ++ c)).
  rewrite back_up_cons, Hd'. change (d :: rev ((y ++ str "/") ++ c)) with (rev [d] ++ rev ((y ++ str "/") ++ c)). by rewrite Hb.
Qed.

Lemma written_length cs c dest : written (cs ++ [c]) dest -> (1 < length dest)%nat.
Proof.
  intros [Hw Hd]. apply Forall_app in Hw as [_ Hw]. inversion Hw as [|?? [Hne Hc]]; subst.
  destruct (dir_path_end cs) as [y Hy]. rewrite path_of_dir, Hy in Hd. destruct c; [done|].
  destruct Hd as [->|[_ ->]]; rewrite !length_app; cbn; lia.
Qed.

Lemma abspath_loop_eq fuel path_max start dest :
  abspath_loop (S fuel) path_max start dest =
    match find_next_token pathsep start with
    | None => Some dest
    | Some (c, end_) =>
        if streq c (str ".") then abspath_loop fuel path_max end_ dest
        else if streq c (str "..") then
          abspath_loop fuel path_max end_ (if (1 <? length dest)%nat then rev (back_up (rev dest)) else dest)
        else
          let dest := if bool_decide (list.last dest = Some "/"%char) then dest else dest ++ str "/" in
          if path_max <=? Z.of_nat (length dest + length c) then None else abspath_loop fuel path_max end_ (dest ++ c)
    end.
Proof.
  cbn [abspath_loop]. destruct start as [|x start]; [done|]. unfold find_next_token, component.
  destruct (next_token pathsep (x :: start)) as [|c p] eqn:E; [done|]. apply next_token_head in E. cbn [end_of_token]. rewrite E.
  by destruct (end_of_token pathsep p).
Qed.

Lemma back_up_shorter r : (length (back_up r) <= length r)%nat.
Proof.
  induction r as [|x r IH]; [done|]. destruct r as [|d r]; [cbn; lia|]. rewrite back_up_cons. cbn [length] in *.
  destruct (pathsep d); cbn [length]; lia.
Qed.

Lemma back_up_length dest : (length (rev (back_up (rev dest))) <= length dest)%nat.
Proof. rewrite length_rev. pose proof (back_up_shorter (rev dest)) as H. by rewrite length_rev in H. Qed.

(** What is left after the slash at the end is removed. *)
Lemma written_end cs dest :
  written cs dest ->
  (if (1 <? length dest)%nat && bool_decide (list.last dest = Some "/"%char) then removelast dest else dest) = path_of cs.
Proof.
  intros [Hw Hd]. destruct cs as [|c cs _] using rev_ind; [by destruct Hd as [->|[? _]]|].
  rewrite (proj2 (Nat.ltb_lt 1 _)) by by eapply written_length. cbn [andb]. apply Forall_app in Hw as [_ Hw].
  inversion Hw as [|?? Hc]; subst. destruct Hd as [->|[_ ->]].
  - rewrite bool_decide_eq_false_2; [done|]. rewrite path_of_dir. by apply last_unsep.
  - rewrite bool_decide_eq_true_2 by apply last_snoc. apply removelast_last.
Qed.

(** Space for a slash is needed if the rest of the name does not begin with one. *)
Definition slack (start : cstr) : Z := match start with c :: _ => if pathsep c then 0 else 1 | [] => 0 end.

Lemma written_follow cs c dest dest' :
  written cs dest -> is_word pathsep c ->
  dest' = (if streq c (str ".") then dest
           else if streq c (str "..") then if (1 <? length dest)%nat then rev (back_up (rev dest)) else dest
           else (if bool_decide (list.last dest = Some "/"%char) then dest else dest ++ str "/") ++ c) ->
  written (follow_part cs c) dest'.
Proof.
  intros Hd Hc ->. unfold follow_part. destruct (streq c (str ".")); [done|]. destruct (streq c (str "..")).
  - destruct cs as [|x cs _] using rev_ind.
    + destruct Hd as [_ [->|[? _]]]; [|done]. split; [constructor|by left].
    + rewrite (proj2 (Nat.ltb_lt 1 _)) by by eapply written_length. rewrite (written_back_up cs x) by done. rewrite removelast_last.
      destruct Hd as [Hw _]. apply Forall_app in Hw as [Hw _]. split; [done|]. unfold dir_path. destruct cs; [by left|by right].
  - rewrite (written_slashed cs) by done. rewrite <-path_of_dir. split; [|by left]. apply Forall_app. split; [apply Hd|constructor; [done|constructor]].
Qed.

Lemma abspath_loop_spec fuel path_max start cs dest :
  (length start < fuel)%nat -> written cs dest ->
  (forall d, abspath_loop fuel path_max start dest = Some d -> written (resolve_parts cs (components start)) d) /\
  (Z.of_nat (length dest) + Z.of_nat (length start) + slack start < path_max -> is_Some (abspath_loop fuel path_max start dest)).
Proof.
  revert start cs dest. induction fuel as [|fuel IH]; intros start cs dest Hf Hd; [lia|]. rewrite abspath_loop_eq.
  unfold components, resolve_parts. rewrite (tokens_eq pathsep start).
  destruct (find_next_token pathsep start) as [[c end_]|] eqn:E; [|split; [by intros d [= <-]|by eexists]].
  apply find_next_token_spec in E as (b & -> & Hb & Hc & Hend). cbn [fold_left].
  pose proof (written_follow cs c dest _ Hd Hc eq_refl) as Hd'. rewrite !length_app in Hf.
  assert (Hf' : (length end_ < fuel)%nat) by (destruct Hc as [Hne _]; destruct c; [done|cbn in Hf; lia]).
  assert (Hsl : slack end_ = 0) by (destruct end_; [done|]; cbn in *; by rewrite Hend).
  assert (Hsp : 1 <= Z.of_nat (length b) + slack (b ++ c ++ end_)).
  { destruct b as [|x b]; [|cbn; destruct (pathsep x); lia]. destruct Hc as [Hne Hw]. destruct c as [|x c]; [done|]. inversion Hw as [|?? Hx]; subst.
    cbn. rewrite Hx. lia. }
  rewrite !length_app. destruct (streq c (str ".")); [|destruct (streq c (str ".."))].
  - destruct (IH end_ _ _ Hf' Hd') as [H1 H2]. split; [done|]. intros Hb'. apply H2. lia.
  - destruct (IH end_ _ _ Hf' Hd') as [H1 H2]. split; [done|]. intros Hb'. apply H2.
    pose proof (back_up_length dest). destruct (1 <? length dest)%nat; lia.
  - cbv zeta. set (dest' := if bool_decide _ then dest else _) in *.
    assert (Hl : (length dest' <= length dest + 1)%nat) by (unfold dest'; case_bool_decide; rewrite ?length_app; cbn; lia).
    destruct (IH end_ _ _ Hf' Hd') as [H1 H2]. destruct (Z.leb_spec path_max (Z.of_nat (length dest' + length c))); split; try done; try lia.
    intros Hb'. apply H2. rewrite length_app. lia.
Qed.

(** C39: [abspath] of a name gives the path whose components are those of the current directory (for
    a name that does not start with a slash) and of the name, with [.] and [..] followed and
    without repeated slashes, or nothing; it gives nothing only if the buffer might be too
    short. *)
Theorem abspath_resolves path_max base name :
  Forall (is_word pathsep) base -> name <> [] ->
  let from := match name with c :: _ => if pathsep c then [] else base | [] => [] end in
  let path := path_of (resolve_parts from (components name)) in
  let r := abspath path_max (Some (path_of base)) name in
  (r = Some path \/ r = None) /\
  (Z.of_nat (length (path_of base)) + Z.of_nat (length name) + 1 < path_max -> r = Some path).
Proof.
  intros Hbase Hne. destruct name as [|c name]; [done|]. cbv zeta. unfold abspath.
  set (from := if pathsep c then [] else base).
  assert (Hdest : (if pathsep c then Some (str "/") else Some (path_of base)) = Some (path_of from))
    by (unfold from; by destruct (pathsep c)).
  assert (Hw : written from (path_of from)) by (split; [unfold from; by destruct (pathsep c)|by left]).
  rewrite Hdest. destruct (abspath_loop_spec (S (length (c :: name))) path_max (c :: name) from (path_of from)) as [Hsome Hroom];
    [lia|done|]. destruct (abspath_loop _ path_max (c :: name) (path_of from)) as [d|] eqn:E.
  - rewrite (written_end _ _ (Hsome d eq_refl)). auto.
  - split; [by right|]. intros Hb. destruct Hroom as [? ?]; [|done].
    assert (length (path_of from) <= length (path_of base))%nat.
    { unfold from. destruct (pathsep c); [|done]. destruct base; cbn; lia. }
    assert (slack (c :: name) <= 1) by (unfold slack; destruct (pathsep c); lia). lia.
Qed.

Lemma abspath_resolves_witness :
  abspath 4096 (Some (str "/home/u")) (str "../v//./w/") = Some (str "/home/v/w").
Proof.
  destruct (abspath_resolves 4096 [str "home"; str "u"] (str "../v//./w/")) as [_ H].
  - repeat constructor; done.
  - done.
  - etrans; [apply H; vm_compute; reflexivity|]. vm_compute. reflexivity.
Defined.

(** ** Other functions on words *)

Lemma last_fold (ws : list cstr) a : fold_left (fun _ t => t) ws a = default a (list.last ws).
Proof.
  revert a. induction ws as [|w ws IH]; intros a; [done|]. cbn [fold_left]. rewrite IH. destruct ws as [|x ws]; [done|].
  change (list.last (w :: x :: ws)) with (list.last (x :: ws)). destruct (list.last (x :: ws)) eqn:E; [done|]. by apply last_None in E.
Qed.

Lemma join_words ws1 ws2 : Forall (is_word isblank) ws1 -> Forall (is_word isblank) ws2 -> Forall (is_word isblank) (join_tokens ws1 ws2).
Proof.
  intros H1. revert ws2. induction H1 as [|w ws1 Hw H1 IH]; intros ws2 H2; [done|]. destruct H2 as [|x ws2 Hx H2]; cbn [join_tokens].
  - constructor; [done|]. by apply IH.
  - constructor; [|by apply IH]. destruct Hw as [Hw Hw'], Hx as [_ Hx']. split; [by destruct w|by apply Forall_app].
Qed.

(** What the functions do in terms of words. *)
Theorem functions_on_words arg arg2 fix_ :
  Forall (fun c => isblank c = false) fix_ ->
  func_firstword arg = default [] (head (words arg)) /\ func_lastword arg = default [] (list.last (words arg)) /\
  tokens isspace (func_strip arg) = tokens isspace arg /\ func_strip (func_strip arg) = func_strip arg /\
  words (func_join arg arg2) = join_tokens (words arg) (words arg2) /\
  words (func_addsuffix_addprefix true fix_ arg) = map (fun w => fix_ ++ w) (words arg) /\
  words (func_addsuffix_addprefix false fix_ arg) = map (fun w => w ++ fix_) (words arg).
Proof.
  intros Hfix. assert (Hstrip : tokens isspace (func_strip arg) = tokens isspace arg).
  { unfold func_strip. rewrite kill_last_spaced, words_unwords; [done|done|apply tokens_words]. }
  split_and!.
  - unfold func_firstword. rewrite (tokens_eq isblank arg). by destruct (find_next_token isblank arg) as [[t r]|].
  - apply last_fold.
  - done.
  - unfold func_strip at 1. by rewrite Hstrip.
  - unfold func_join. rewrite kill_last_spaced, words_unwords; [done|done|]. apply join_words; apply tokens_words.
  - unfold func_addsuffix_addprefix. rewrite kill_last_spaced, words_unwords; [done|done|]. apply Forall_map.
    eapply list.Forall_impl; [apply (tokens_words isblank)|]. intros w [Hne Hw]. split; [by destruct fix_, w|by apply Forall_app].
  - unfold func_addsuffix_addprefix. rewrite kill_last_spaced, words_unwords; [done|done|]. apply Forall_map.
    eapply list.Forall_impl; [apply (tokens_words isblank)|]. intros w [Hne Hw]. split; [by destruct w|by apply Forall_app].
Qed.

(** A word that becomes empty leaves a second space, as the test for the space is on the length
    of the whole word. *)
Example patsubst_empty_word : func_patsubst (str "x%") (str "%") (str "a x b") = str "a  b".
Proof. vm_compute. reflexivity. Qed.

(** An empty pattern does not match at the end of words. *)
Example patsubst_empty_pattern :
  func_patsubst [] (str "z") (str "a b") = str "a b" /\ func_patsubst [] (str "z") (str "a b ") = str "a b z".
Proof. vm_compute. split; reflexivity. Qed.

(** ** Arguments of a call *)

Fixpoint join_commas (args : list cstr) : cstr :=
  match args with
  | [] => []
  | [a] => a
  | a :: args => a ++ comma :: join_commas args
  end.

Lemma join_commas_cons a args : args <> [] -> join_commas (a :: args) = a ++ comma :: join_commas args.
Proof. by destruct args. Qed.

Lemma join_commas_length l last : (length l <= length (join_commas (l ++ [last])))%nat.
Proof.
  induction l as [|a l IH]; [cbn; lia|]. cbn [app]. rewrite join_commas_cons by by destruct l. rewrite length_app. cbn [length]. lia.
Qed.

Section ArgumentLemmas.
Context (openparen closeparen : ascii) (Hopen : openparen <> comma) (Hclose : closeparen <> comma) (Hparens : openparen <> closeparen).
Abbreviation next_argument := (find_next_argument openparen closeparen).

(** The depth of parentheses after a text without a comma outside of them and without a
    parenthesis that closes none. *)
Fixpoint depth (count : Z) (s : cstr) : option Z :=
  match s with
  | [] => Some count
  | c :: s =>
      if bool_decide (c = openparen) then depth (count + 1) s
      else if bool_decide (c = closeparen) then if count - 1 <? 0 then None else depth (count - 1) s
      else if bool_decide (c = comma) && (count =? 0) then None
      else depth count s
  end.

Lemma next_argument_some count s a r : next_argument count s = Some (a, r) -> s = a ++ comma :: r.
Proof.
  revert count a. induction s as [|c s IH]; intros count a; cbn [find_next_argument]; [done|]. repeat case_match; try done; intros Heq.
  all: try (apply fmap_Some in Heq as ([a' r'] & Hn & [= -> ->]); apply IH in Hn; by rewrite Hn).
  injection Heq as <- ->. match goal with H : _ && _ = true |- _ => apply andb_true_iff in H as [->%bool_decide_eq_true _] end. done.
Qed.

Lemma next_argument_depth count a r : depth count a = Some 0 -> 0 <= count -> next_argument count (a ++ comma :: r) = Some (a, r).
Proof.
  revert count. induction a as [|c a IH]; intros count; cbn [depth app find_next_argument].
  - intros [= ->] _. by rewrite !bool_decide_eq_false_2, bool_decide_eq_true_2 by done.
  - intros Hd Hc. repeat case_match; bool_to_prop; try done; rewrite IH by (done || lia); done.
Qed.

Lemma next_argument_none count a n : depth count a = Some n -> next_argument count a = None.
Proof.
  revert count. induction a as [|c a IH]; intros count; cbn [depth find_next_argument]; [done|].
  repeat case_match; try done; intros Hd; by rewrite (IH _ Hd).
Qed.

Lemma chop_join fuel maximum nargs s :
  (length s < fuel)%nat -> chop_arguments openparen closeparen fuel maximum nargs s <> [] /\
    join_commas (chop_arguments openparen closeparen fuel maximum nargs s) = s.
Proof.
  revert nargs s. induction fuel as [|fuel IH]; intros nargs s Hf; [lia|]. cbn [chop_arguments]. destruct (nargs + 1 =? maximum); [done|].
  destruct (next_argument 0 s) as [[a r]|] eqn:E; [|done]. apply next_argument_some in E. subst s. rewrite length_app in Hf. cbn in Hf.
  destruct (IH (nargs + 1) r ltac:(lia)) as [Hne Hj]. split; [done|]. by rewrite join_commas_cons, Hj.
Qed.

Definition commas (s : cstr) : nat := length (base.filter (fun c => c = comma) s).

Lemma chop_length fuel maximum nargs s : (length (chop_arguments openparen closeparen fuel maximum nargs s) <= S (commas s))%nat.
Proof.
  revert nargs s. induction fuel as [|fuel IH]; intros nargs s; cbn [chop_arguments]; [cbn; lia|]. destruct (nargs + 1 =? maximum); [cbn; lia|].
  destruct (next_argument 0 s) as [[a r]|] eqn:E; [|cbn; lia]. apply next_argument_some in E. subst s. cbn [length].
  specialize (IH (nargs + 1) r). unfold commas in *. rewrite list.filter_app, length_app, filter_cons_True by done. cbn [length]. lia.
Qed.

Lemma chop_max fuel maximum nargs s :
  nargs < maximum -> Z.of_nat (length (chop_arguments openparen closeparen fuel maximum nargs s)) <= maximum - nargs.
Proof.
  revert nargs s. induction fuel as [|fuel IH]; intros nargs s Hn; cbn [chop_arguments]; [cbn; lia|].
  destruct (Z.eqb_spec (nargs + 1) maximum); [cbn; lia|]. destruct (next_argument 0 s) as [[a r]|]; [|cbn; lia]. cbn [length].
  specialize (IH (nargs + 1) r ltac:(lia)). lia.
Qed.

Lemma chop_of_join fuel maximum nargs args last :
  Forall (fun a => depth 0 a = Some 0) args -> depth 0 last <> None -> (length args < fuel)%nat ->
  maximum <= nargs \/ nargs + Z.of_nat (length args) < maximum ->
  chop_arguments openparen closeparen fuel maximum nargs (join_commas (args ++ [last])) = args ++ [last].
Proof.
  intros Ha Hl. revert fuel nargs. induction Ha as [|a args Ha Hargs IH]; intros [|fuel] nargs Hf Hm; cbn [length] in *; try lia.
  - cbn [app join_commas chop_arguments]. destruct (depth 0 last) as [n|] eqn:E; [|done]. rewrite (next_argument_none 0 last n E).
    by destruct (nargs + 1 =? maximum).
  - cbn [app]. rewrite join_commas_cons by by destruct args. cbn [chop_arguments]. rewrite (proj2 (Z.eqb_neq _ _)) by lia.
    rewrite next_argument_depth by done. f_equal. apply IH; lia.
Qed.

Lemma call_end_spec count nargs s a r n :
  call_end openparen closeparen count nargs s = Some (a, r, n) -> s = a ++ r /\ head r = Some closeparen /\ n = nargs + Z.of_nat (commas a).
Proof.
  revert count nargs a. induction s as [|c s IH]; intros count nargs a; cbn [call_end]; [done|].
  assert (Hgo : forall count nargs, (fun '(a, r, n) => (c :: a, r, n)) <$> call_end openparen closeparen count nargs s = Some (a, r, n) ->
    c :: s = a ++ r /\ head r = Some closeparen /\ n = nargs + Z.of_nat (commas a) - (if bool_decide (c = comma) then 1 else 0)).
  { intros count' nargs' Heq. apply fmap_Some in Heq as ([[a' r'] n'] & Hn & [= -> -> ->]). apply IH in Hn as (-> & Hr & ->).
    split_and!; [done|done|]. unfold commas. rewrite filter_cons. case_decide as Hc; [rewrite bool_decide_eq_true_2|rewrite bool_decide_eq_false_2];
      cbn [length]; done || lia. }
  destruct (bool_decide (c = comma)); [|destruct (bool_decide (c = openparen))]; [| |destruct (bool_decide_reflect (c = closeparen)) as [->|]].
  - intros Heq%Hgo. destruct Heq as (H1 & H2 & ->). split_and!; [done|done|lia].
  - intros Heq%Hgo. destruct Heq as (H1 & H2 & ->). split_and!; [done|done|lia].
  - destruct (count - 1 <? 0).
    + intros [= <- <- <-]. split_and!; [done|done|cbn; lia].
    + intros Heq%Hgo. destruct Heq as (H1 & H2 & ->). split_and!; [done|done|lia].
  - intros Heq%Hgo. destruct Heq as (H1 & H2 & ->). split_and!; [done|done|lia].
Qed.
End ArgumentLemmas.

(** C40: the arguments of a call, joined by commas, are the text up to the closing parenthesis, they are at
    most as many as the function takes and as memory was allocated for, and a list of
    arguments in which parentheses match and hide all commas is chopped into just these arguments. *)
Theorem call_arguments (openparen closeparen : ascii) maximum s text rest nargs :
  openparen <> comma -> closeparen <> comma -> openparen <> closeparen ->
  call_end openparen closeparen 0 1 s = Some (text, rest, nargs) ->
  let args := arguments openparen closeparen maximum text in
  s = text ++ rest /\ head rest = Some closeparen /\ join_commas args = text /\ Z.of_nat (length args) <= nargs /\
  (0 < maximum -> Z.of_nat (length args) <= maximum) /\
  forall l last, text = join_commas (l ++ [last]) -> Forall (fun a => depth openparen closeparen 0 a = Some 0) l ->
    depth openparen closeparen 0 last <> None -> maximum <= 0 \/ Z.of_nat (length l) < maximum -> args = l ++ [last].
Proof.
  intros Ho Hc Hp Hend args. apply call_end_spec in Hend as (Hs & Hr & Hn). unfold args, arguments.
  split_and!; [done|done|apply chop_join; lia| | |].
  - pose proof (chop_length openparen closeparen (S (length text)) maximum 0 text). lia.
  - intros Hm. pose proof (chop_max openparen closeparen (S (length text)) maximum 0 text Hm). lia.
  - intros l last -> Hl Hlast Hm. apply chop_of_join; try done; try lia. pose proof (join_commas_length l last). lia.
Qed.

Lemma call_arguments_witness :
  arguments "(" ")" 3 (str "a%,(x,y)b%,c,d") = [str "a%"; str "(x,y)b%"; str "c,d"] /\
  join_commas (arguments "(" ")" 3 (str "a%,(x,y)b%,c,d")) = str "a%,(x,y)b%,c,d".
Proof.
  split; [vm_compute; reflexivity|].
  apply (call_arguments "(" ")" 3 (str "a%,(x,y)b%,c,d) e") (str "a%,(x,y)b%,c,d") (str ") e") 5); [done|done|done|vm_compute; reflexivity].
Defined.

(** A dollar sign at the end of a text, with references to variables skipped, makes the scan read
    behind the text. *)
Example dollar_at_end : find_char_unquote ":" None false true (str "a$") = None.
Proof. vm_compute. reflexivity. Qed.

(** A stop character in a reference to a variable, or after a backslash, is passed over. *)
Example unquote_reference : find_char_unquote ":" (Some "="%char) false true (str "$(a:b)\:c=d:") = Some (str "$(a:b):c=d:", Some 8%nat).
Proof. vm_compute. reflexivity. Qed.
