(* ===== verification/MakeFilter.v ===== *)
(** * The functions [filter] and [filter-out] of make

    Models [func_filter_filterout] of [sources/host-tools/make-3.81/function.c] with its memory:
    the words are structures at addresses, and with many literal patterns they are in a
    hash table ([MakeHash]), in which words that are equal are chained. *)

From S2P Require Import Prelude MakeHash MakeText.
Open Scope Z_scope.

(** [struct a_word]; [next] is the order of the list of addresses. *)
Record a_word := mk_word { w_str : cstr; w_length : Z; w_matched : Z; w_chain : Z }.

(** [struct a_pattern]; the character after the pattern is restored at the end. *)
Record a_pattern := mk_pattern { p_str : cstr; p_percent : option nat; p_length : Z }.

Abbreviation memory := (gmap Z a_word).

Section Filter.
(** The width of [long], the mark for deleted items, the addresses of the words that [alloca]
    returns, and of [a_word_key]. *)
Context (ulong D : Z) (alloca : nat -> Z) (a_word_key : Z).

(** The strings of structures of words. *)
Definition word_str (mem : memory) (x : Z) : cstr := from_option w_str [] (mem !! x).
Definition word_length (mem : memory) (x : Z) : Z := from_option w_length 0 (mem !! x).

(** [a_word_hash_1], [a_word_hash_2] and [a_word_hash_cmp]. *)
Definition a_word_hash_1 (mem : memory) (key : Z) : Z := STRING_HASH_1 ulong (word_str mem key).
Definition a_word_hash_2 (mem : memory) (key : Z) : Z := STRING_HASH_2 ulong (word_str mem key).

Definition a_word_hash_cmp (mem : memory) (x y : Z) : Z :=
  let result := swrap 32 (word_length mem x - word_length mem y) in
  if negb (result =? 0) then result else strcmp (word_str mem x) (word_str mem y).

(** The first loop: the patterns. *)
Definition chop_pattern (p : cstr) : a_pattern :=
  let '(s, percent) := find_percent p in mk_pattern s percent (Z.of_nat (length p)).

(** The second loop: the words, from the one with the number [i]. *)
Fixpoint chop_words (i : nat) (ws : list cstr) (mem : memory) : memory :=
  match ws with
  | [] => mem
  | w :: ws => chop_words (S i) ws (<[alloca i := mk_word w (Z.of_nat (length w)) 0 0]> mem)
  end.

Definition set_chain (x owp : Z) (mem : memory) : memory :=
  alter (fun w => mk_word (w_str w) (w_length w) (w_matched w) owp) x mem.

(** [wp->matched |= b] *)
Definition or_matched (b : bool) (x : Z) (mem : memory) : memory :=
  alter (fun w => mk_word (w_str w) (w_length w) (Z.lor (w_matched w) (Z.b2z b)) (w_chain w)) x mem.

(** The words are put into the table. *)
Fixpoint hash_words (wps : list Z) (mem : memory) (table : hash_table) : option (memory * hash_table) :=
  match wps with
  | [] => Some (mem, table)
  | wp :: wps =>
      match hash_insert ulong D (a_word_hash_1 mem) (a_word_hash_2 mem) (a_word_hash_cmp mem) table wp with
      | Some (owp, table) => hash_words wps (if owp =? 0 then mem else set_chain wp owp mem) table
      | None => None
      end
  end.

(** [while (wp)] along the chain. *)
Fixpoint match_chain (fuel : nat) (wp : Z) (mem : memory) : option memory :=
  match fuel with
  | O => None
  | S fuel =>
      if wp =? 0 then Some mem
      else
        match mem !! wp with
        | Some w => match_chain fuel (w_chain w) (or_matched true wp mem)
        | None => None
        end
  end.

(** One pattern is run through the words. *)
Definition run_pattern (wps : list Z) (hashing : bool) (pp : a_pattern) (mem : memory) (table : hash_table)
    : option (memory * hash_table) :=
  match p_percent pp with
  | Some pc =>
      Some (fold_left (fun mem wp => or_matched (pattern_matches (p_str pp) (Some pc) (word_str mem wp)) wp mem) wps mem, table)
  | None =>
      if hashing then
        let mem' := <[a_word_key := mk_word (p_str pp) (p_length pp) 0 0]> mem in
        match hash_find_item ulong D (a_word_hash_1 mem') (a_word_hash_2 mem') (a_word_hash_cmp mem') table a_word_key with
        | Some (wp, table) =>
            match match_chain (S (length wps)) wp mem with Some mem => Some (mem, table) | None => None end
        | None => None
        end
      else
        Some (fold_left (fun mem wp =>
                or_matched ((word_length mem wp =? p_length pp) &&
                  streq (take (Z.to_nat (word_length mem wp)) (p_str pp)) (take (Z.to_nat (word_length mem wp)) (word_str mem wp)))
                  wp mem) wps mem, table)
  end.

Fixpoint run_patterns (wps : list Z) (hashing : bool) (pps : list a_pattern) (mem : memory) (table : hash_table)
    : option (memory * hash_table) :=
  match pps with
  | [] => Some (mem, table)
  | pp :: pps =>
      match run_pattern wps hashing pp mem table with
      | Some (mem, table) => run_patterns wps hashing pps mem table
      | None => None
      end
  end.

(** [func_filter_filterout]: the text that is added to the output, and the table that is left if
    there was one. *)
Definition func_filter_filterout (is_filter : bool) (patterns text : cstr) : option (cstr * option hash_table) :=
  let pps := map chop_pattern (words patterns) in
  let literals := Z.of_nat (length (base.filter (fun pp => p_percent pp = None) pps)) in
  let ws := words text in
  let wps := map alloca (seq 0 (length ws)) in
  let mem := chop_words 0 ws ∅ in
  let nwords := Z.of_nat (length ws) in
  let hashing := (2 <=? literals) && (10 <=? swrap 32 (literals * nwords)) in
  match (if hashing then hash_words wps mem (hash_init ulong nwords) else Some (mem, mk_ht [] 0 0 0 0 0 0 0)) with
  | None => None
  | Some (mem, table) =>
      match (if nwords =? 0 then Some (mem, table) else run_patterns wps hashing pps mem table) with
      | None => None
      | Some (mem, table) =>
          let out := base.filter (fun wp => (if is_filter then negb (from_option w_matched 0 (mem !! wp) =? 0)
                                             else from_option w_matched 0 (mem !! wp) =? 0) = true) wps in
          Some (kill_last (spaced (map (word_str mem) out)),
                if hashing then Some (hash_free D table false).2 else None)
      end
  end.
End Filter.

(** ** What the patterns select *)

(** A pattern is written without change, or has a [%]. *)
Definition selects (p w : cstr) : bool :=
  pattern_matches p None w && (bool_decide (is_Some (find_percent p).2) || bool_decide (length (find_percent p).1 = length p)).

(** A pattern that is prepared matches a word. *)
Definition pattern_ok (pp : a_pattern) (w : cstr) : bool :=
  match p_percent pp with
  | Some pc => pattern_matches (p_str pp) (Some pc) w
  | None => (Z.of_nat (length w) =? p_length pp) && streq (p_str pp) w
  end.

Lemma chop_pattern_selects p w : pattern_ok (chop_pattern p) w = selects p w.
Proof.
  unfold pattern_ok, chop_pattern, selects, pattern_matches. destruct (find_percent p) as [s [pc|]] eqn:E; cbn [p_percent p_str p_length fst snd].
  - by rewrite andb_true_r.
  - rewrite (bool_decide_eq_false_2 (is_Some None)) by by intros [? ?]. cbn [orb]. rewrite andb_comm. unfold streq.
    case_bool_decide as Hs; [|done]. subst s. cbn [andb]. apply eq_true_iff_eq. rewrite Z.eqb_eq, bool_decide_eq_true. lia.
Qed.

Lemma patterns_select ps w : existsb (fun pp => pattern_ok pp w) (map chop_pattern ps) = existsb (fun p => selects p w) ps.
Proof. induction ps as [|p ps IH]; [done|]. cbn [map existsb]. by rewrite IH, chop_pattern_selects. Qed.

Lemma unquote_shorter stop before s : (length (unquote stop before s).1 <= length before + length s)%nat.
Proof.
  revert before. induction s as [|c s IH]; intros before; cbn [unquote]; [cbn; rewrite length_rev; lia|].
  case_bool_decide; [|etrans; [apply IH|]; cbn; lia]. cbv zeta. set (n := backslashes before).
  destruct (Nat.even n); [cbn [fst]; rewrite length_app, length_rev|etrans; [apply IH|]]; cbn [length]; rewrite length_drop; lia.
Qed.

Lemma chop_pattern_length p : Z.of_nat (length (p_str (chop_pattern p))) <= p_length (chop_pattern p).
Proof.
  unfold chop_pattern. pose proof (unquote_shorter percent [] p) as H. rewrite find_percent_eq.
  destruct (unquote percent [] p) as [s pc]. cbn in *. lia.
Qed.

(** ** The memory *)

(** The key of the structure at an address. *)
Definition word_key (mem : memory) (x : Z) : Z * cstr := (word_length mem x, word_str mem x).

Definition words_ok (mem : memory) : Prop := forall x w, mem !! x = Some w -> no_nul (w_str w) /\ 0 <= w_length w < 2 ^ 31.

(** The memories have the same words. *)
Definition shape (w : a_word) : cstr * Z * Z := (w_str w, w_length w, w_chain w).

Definition same_words (mem mem' : memory) : Prop := forall x, shape <$> mem !! x = shape <$> mem' !! x.

Lemma strcmp_same a : strcmp a a = 0.
Proof. pose proof (strcmp_opp a a). lia. Qed.

Lemma hash_cmp_key mem x y : words_ok mem -> a_word_hash_cmp mem x y = 0 <-> word_key mem x = word_key mem y.
Proof.
  intros Hok. assert (Hx : forall z, no_nul (word_str mem z) /\ 0 <= word_length mem z < 2 ^ 31).
  { intros z. unfold word_str, word_length. destruct (mem !! z) eqn:E; cbn; [by eapply Hok|]. split; [constructor|lia]. }
  destruct (Hx x) as [Hsx Hlx], (Hx y) as [Hsy Hly]. unfold a_word_hash_cmp, word_key. cbv zeta.
  assert (Hw : swrap 32 (word_length mem x - word_length mem y) = word_length mem x - word_length mem y)
    by (apply swrap_small; lia).
  rewrite Hw. destruct (Z.eqb_spec (word_length mem x - word_length mem y) 0); cbn [negb]; split.
  - intros Hs%strcmp_zero; [|done..]. f_equal; [lia|done].
  - intros [= _ ->]. apply strcmp_same.
  - lia.
  - intros [= ? _]. lia.
Qed.

Lemma same_words_key mem mem' x : same_words mem mem' -> word_key mem' x = word_key mem x.
Proof.
  intros Hs. specialize (Hs x). unfold word_key, word_length, word_str. destruct (mem !! x) as [w|], (mem' !! x) as [w'|]; try done.
  injection Hs as H1 H2 H3. cbn. congruence.
Qed.

Lemma or_matched_same b x mem : same_words mem (or_matched b x mem).
Proof.
  intros y. unfold or_matched. destruct (decide (x = y)) as [->|]; [|by rewrite lookup_alter_ne]. rewrite lookup_alter_eq. by destruct (mem !! y).
Qed.

Definition matched (mem : memory) (x : Z) : Prop := from_option w_matched 0 (mem !! x) <> 0.

Lemma matched_or b x mem y : is_Some (mem !! x) -> matched (or_matched b x mem) y <-> matched mem y \/ (x = y /\ b = true).
Proof.
  intros [w Hw]. unfold matched, or_matched. destruct (decide (x = y)) as [->|Hne].
  - rewrite lookup_alter_eq, Hw. cbn. rewrite Z.lor_eq_0_iff. destruct b; cbn; naive_solver.
  - rewrite lookup_alter_ne by done. naive_solver.
Qed.

#[export] Instance same_words_equiv : Equivalence same_words.
Proof. split; [done|by intros m m' H x|]. intros m1 m2 m3 H1 H2 x. by rewrite H1. Qed.

Lemma same_words_some mem mem' x : same_words mem mem' -> is_Some (mem !! x) -> is_Some (mem' !! x).
Proof. intros Hs [w Hw]. specialize (Hs x). rewrite Hw in Hs. by destruct (mem' !! x). Qed.

Lemma same_words_ok mem mem' : same_words mem mem' -> words_ok mem -> words_ok mem'.
Proof.
  intros Hs Hok x w' Hw'. specialize (Hs x). rewrite Hw' in Hs. destruct (mem !! x) as [w|] eqn:Hw; [|done].
  injection Hs as <- <- _. by eapply Hok.
Qed.

(** A loop over the words with a test that depends on their texts. *)
Lemma match_loop (test : memory -> Z -> bool) wps mem :
  (forall mem mem' x, same_words mem mem' -> test mem x = test mem' x) -> Forall (fun x => is_Some (mem !! x)) wps ->
  let mem' := fold_left (fun mem wp => or_matched (test mem wp) wp mem) wps mem in
  same_words mem mem' /\ forall x, matched mem' x <-> matched mem x \/ (x ∈ wps /\ test mem x = true).
Proof.
  intros Ht. revert mem. induction wps as [|wp wps IH]; intros mem Hd; [split; [done|]; intros x; rewrite elem_of_nil; naive_solver|].
  apply list.Forall_cons in Hd as [Hwp Hd]. cbn [fold_left]. pose proof (or_matched_same (test mem wp) wp mem) as Hs.
  destruct (IH (or_matched (test mem wp) wp mem)) as [Hs' Hm].
  { eapply list.Forall_impl; [exact Hd|]. intros x Hx. by eapply same_words_some. }
  split; [by etrans|]. intros x. rewrite Hm, matched_or, elem_of_cons, (Ht mem _ x Hs) by done.
  rewrite <-(Ht mem _ x Hs). naive_solver.
Qed.

(** ** Chains of equal words *)

(** The chain from the address [p] has the addresses [l]. *)
Fixpoint chained (mem : memory) (p : Z) (l : list Z) : Prop :=
  match l with
  | [] => p = 0
  | x :: l => p = x /\ x <> 0 /\ exists w, mem !! x = Some w /\ chained mem (w_chain w) l
  end.

Lemma chained_agree mem mem' p l :
  (forall x, x ∈ l -> w_chain <$> mem !! x = w_chain <$> mem' !! x) -> chained mem p l -> chained mem' p l.
Proof.
  revert p. induction l as [|x l IH]; intros p Hag; cbn [chained]; [done|]. intros (-> & Hx & w & Hw & Hl).
  assert (Hx' := Hag x ltac:(apply elem_of_cons; by left)). rewrite Hw in Hx'. destruct (mem' !! x) as [w'|] eqn:Hw'; [|done].
  injection Hx' as Hc. split_and!; [done|done|]. exists w'. split; [done|]. rewrite <-Hc. apply IH; [|done].
  intros y Hy. apply Hag, elem_of_cons. by right.
Qed.

Lemma same_words_chained mem mem' p l : same_words mem mem' -> chained mem p l -> chained mem' p l.
Proof.
  intros Hs. apply chained_agree. intros x _. specialize (Hs x). destruct (mem !! x), (mem' !! x); try done. cbn in *. by injection Hs as _ _ ->.
Qed.

(** All words of a chain are marked. *)
Lemma match_chain_spec fuel p l mem :
  (length l < fuel)%nat -> chained mem p l ->
  exists mem', match_chain fuel p mem = Some mem' /\ same_words mem mem' /\ forall x, matched mem' x <-> matched mem x \/ x ∈ l.
Proof.
  revert fuel p mem. induction l as [|a l IH]; intros [|fuel] p mem Hf; cbn [length chained match_chain] in *; try lia.
  - intros ->. exists mem. rewrite Z.eqb_refl. split_and!; [done|done|]. intros x. rewrite elem_of_nil. naive_solver.
  - intros (-> & Ha & w & Hw & Hl). rewrite (proj2 (Z.eqb_neq _ _) Ha), Hw. pose proof (or_matched_same true a mem) as Hs.
    destruct (IH fuel (w_chain w) (or_matched true a mem)) as (mem' & Hr & Hs' & Hm); [lia|by eapply same_words_chained|].
    exists mem'. split_and!; [done|by etrans|]. intros x. rewrite Hm, matched_or, elem_of_cons by done. naive_solver.
Qed.

Section Hashing.
Context (ulong D : Z) (Hulong : ulong = 32 \/ ulong = 64) (HD : D <> 0).

Abbreviation key_hash_1 := (fun k : Z * cstr => STRING_HASH_1 ulong k.2).
Abbreviation key_hash_2 := (fun k : Z * cstr => STRING_HASH_2 ulong k.2).

(** The table has the words at the addresses [wps], those with the same key chained from
    the last one to the first. *)
Definition hashed (n : Z) (mem : memory) (table : hash_table) (wps : list Z) : Prop :=
  exists m : gmap (Z * cstr) Z, has_room D (word_key mem) key_hash_1 key_hash_2 n table m /\ Z.of_nat (size m) <= Z.of_nat (length wps) /\
    forall k, chained mem (default 0 (m !! k)) (reverse (base.filter (fun x => word_key mem x = k) wps)).

Lemma set_chain_key x owp mem y : word_key (set_chain x owp mem) y = word_key mem y.
Proof.
  unfold word_key, word_length, word_str, set_chain. destruct (decide (x = y)) as [->|]; [|by rewrite lookup_alter_ne].
  rewrite lookup_alter_eq. by destruct (mem !! y).
Qed.

Lemma set_chain_ok x owp mem : words_ok mem -> words_ok (set_chain x owp mem).
Proof.
  intros Hok y w. unfold set_chain. destruct (decide (x = y)) as [->|]; [|rewrite lookup_alter_ne by done; by apply Hok].
  rewrite lookup_alter_eq. destruct (mem !! y) eqn:E; [|done]. intros [= <-]. cbn. by eapply Hok.
Qed.

Lemma hashed_insert n mem table wps x w :
  0 <= n -> Z.of_nat (length wps) + 1 < 2 ^ 30 -> words_ok mem -> hashed (n + 1) mem table wps -> HASH_VACANT D x = false -> x ∉ wps ->
  mem !! x = Some w -> w_chain w = 0 ->
  exists owp table', hash_insert ulong D (a_word_hash_1 ulong mem) (a_word_hash_2 ulong mem) (a_word_hash_cmp mem) table x = Some (owp, table') /\
    hashed n (if owp =? 0 then mem else set_chain x owp mem) table' (wps ++ [x]).
Proof.
  intros Hn Hlen Hok (m & Hroom & Hsize & Hch) Hv Hnew Hx Hc.
  destruct (room_insert ulong D (a_word_hash_1 ulong mem) (a_word_hash_2 ulong mem) (a_word_hash_cmp mem) (word_key mem) key_hash_1 key_hash_2
    Hulong HD (fun _ => eq_refl) (fun _ => eq_refl) (fun a b => hash_cmp_key mem a b Hok) n table m x) as (table' & Hins & Hroom'); [lia|done|done|lia|].
  set (owp := default 0 (m !! word_key mem x)) in *. exists owp, table'. split; [done|].
  set (mem' := if owp =? 0 then mem else set_chain x owp mem).
  assert (Hkey : forall y, word_key mem' y = word_key mem y) by (intros y; unfold mem'; destruct (owp =? 0); [done|apply set_chain_key]).
  assert (Hother : forall y, y <> x -> mem' !! y = mem !! y)
    by (intros y Hy; unfold mem'; destruct (owp =? 0); [done|]; by apply lookup_alter_ne).
  assert (Hself : exists w', mem' !! x = Some w' /\ w_chain w' = owp).
  { unfold mem'. destruct (Z.eqb_spec owp 0) as [->|]; [by exists w|]. unfold set_chain. rewrite lookup_alter_eq, Hx. by eexists. }
  exists (<[word_key mem x := x]> m). split_and!.
  - eapply room_transfer; [exact Hroom'|]. intros _ y _. apply Hkey.
  - rewrite map_size_insert, length_app. cbn. destruct (m !! word_key mem x); cbn; lia.
  - intros k. assert (Hf : base.filter (fun y => word_key mem' y = k) wps = base.filter (fun y => word_key mem y = k) wps)
      by (apply list_filter_iff; intros y; by rewrite Hkey).
    assert (Hold : chained mem' (default 0 (m !! k)) (reverse (base.filter (fun y => word_key mem y = k) wps))).
    { eapply chained_agree; [|apply Hch]. intros y Hy. rewrite Hother; [done|]. intros ->. apply Hnew.
      apply elem_of_reverse, list_elem_of_filter in Hy. apply Hy. }
    rewrite list.filter_app, Hf, reverse_app. destruct (decide (word_key mem x = k)) as [<-|Hne].
    + rewrite lookup_insert_eq, filter_cons_True, filter_nil by by rewrite Hkey. cbn [reverse rev_append app chained default].
      split_and!; [done|apply vacant_false in Hv; tauto|]. destruct Hself as (w' & Hw' & Hcw). exists w'. by rewrite Hcw.
    + rewrite lookup_insert_ne, filter_cons_False, filter_nil by (rewrite ?Hkey; done). done.
Qed.

(** The memories have the same words up to the chains. *)
Definition content (w : a_word) : cstr * Z * Z := (w_str w, w_length w, w_matched w).

Definition same_content (mem mem' : memory) : Prop := forall x, content <$> mem !! x = content <$> mem' !! x.

Lemma set_chain_content x owp mem : same_content mem (set_chain x owp mem).
Proof.
  intros y. unfold set_chain. destruct (decide (x = y)) as [->|]; [|by rewrite lookup_alter_ne]. rewrite lookup_alter_eq. by destruct (mem !! y).
Qed.

(** All words are in the table, and only chains have changed. *)
Lemma hash_words_spec todo before mem table :
  base.NoDup (before ++ todo) -> Forall (fun x => HASH_VACANT D x = false) todo ->
  Forall (fun x => w_chain <$> mem !! x = Some 0) todo -> words_ok mem -> Z.of_nat (length (before ++ todo)) < 2 ^ 30 ->
  hashed (Z.of_nat (length todo)) mem table before ->
  exists mem' table', hash_words ulong D todo mem table = Some (mem', table') /\ hashed 0 mem' table' (before ++ todo) /\
    same_content mem mem' /\ words_ok mem'.
Proof.
  revert before mem table. induction todo as [|x todo IH]; intros before mem table Hnd Hv Hc Hok Hlen Hh.
  { exists mem, table. rewrite app_nil_r. done. }
  apply list.Forall_cons in Hv as [Hvx Hv]. apply list.Forall_cons in Hc as [Hcx Hc]. apply list.NoDup_app in Hnd as Hnd'.
  destruct Hnd' as (_ & Hdis & Hnt). apply list.NoDup_cons in Hnt as [Hxt _].
  destruct (mem !! x) as [w|] eqn:Hx; [|done]. injection Hcx as Hcx. rewrite length_app in Hlen. cbn [length] in *.
  destruct (hashed_insert (Z.of_nat (length todo)) mem table before x w) as (owp & table' & Hins & Hh'); try done; try lia.
  { by replace (Z.of_nat (length todo) + 1) with (Z.of_nat (S (length todo))) by lia. }
  { intros Hb. by apply (Hdis x Hb), elem_of_cons; left. }
  cbn [hash_words]. rewrite Hins. set (mem' := if owp =? 0 then mem else _) in *.
  assert (Hs : same_content mem mem') by (unfold mem'; destruct (owp =? 0); [done|apply set_chain_content]).
  destruct (IH (before ++ [x]) mem' table') as (mem2 & table2 & Hr & Hh2 & Hs2 & Hok2); try done.
  - by rewrite <-app_assoc.
  - apply list.Forall_forall. intros y Hy. rewrite list.Forall_forall in Hc. specialize (Hc y Hy). unfold mem'. destruct (owp =? 0); [done|].
    unfold set_chain. rewrite lookup_alter_ne; [done|]. by intros ->.
  - unfold mem'. destruct (owp =? 0); [done|by apply set_chain_ok].
  - rewrite !length_app. cbn. lia.
  - exists mem2, table2. rewrite <-app_assoc in Hh2. split_and!; try done. intros y. by rewrite Hs.
Qed.

Lemma hashed_init n mem : 0 < n < 2 ^ 31 -> hashed n mem (hash_init ulong n) [].
Proof. intros Hn. exists ∅. split_and!; [by apply room_init|by rewrite map_size_empty|]. intros k. by rewrite lookup_empty. Qed.

(** ** Patterns *)

Context (a_word_key : Z).

(** What is known while the patterns are run. *)
Definition running (hashing : bool) (wps : list Z) (mem : memory) (table : hash_table) : Prop :=
  words_ok mem /\ Forall (fun x => exists w, mem !! x = Some w /\ w_length w = Z.of_nat (length (w_str w))) wps /\
  a_word_key ∉ wps /\ a_word_key <> 0 /\ (hashing = true -> hashed 0 mem table wps).

Lemma running_same hashing wps mem mem' table : same_words mem mem' -> running hashing wps mem table -> running hashing wps mem' table.
Proof.
  intros Hs (Hok & Hw & Hk & Hk0 & Hh). split_and!; [by eapply same_words_ok| |done|done|].
  - eapply list.Forall_impl; [exact Hw|]. intros x (w & Hx & Hl). specialize (Hs x). rewrite Hx in Hs.
    destruct (mem' !! x) as [w'|]; [|done]. injection Hs as H1 H2 _. exists w'. split; [done|]. congruence.
  - intros Ht. destruct (Hh Ht) as (m & Hroom & Hsize & Hch). exists m. split_and!; [|done|].
    + eapply room_transfer; [exact Hroom|]. intros _ y _. by apply same_words_key.
    + intros k. eapply same_words_chained; [done|].
      rewrite (list_filter_iff _ (fun x => word_key mem x = k)) by (intros x; by rewrite (same_words_key mem mem')). apply Hch.
Qed.

(** The key for a search does not change the words. *)
Lemma key_elsewhere (mem : memory) (wps : list Z) (m : gmap (Z * cstr) Z) w k x :
  a_word_key ∉ wps -> a_word_key <> 0 -> (forall k, chained mem (default 0 (m !! k)) (reverse (base.filter (fun x => word_key mem x = k) wps))) ->
  m !! k = Some x -> word_key (<[a_word_key := w]> mem) x = word_key mem x.
Proof.
  intros Hk Hk0 Hch Hx. unfold word_key, word_length, word_str. rewrite lookup_insert_ne; [done|]. intros <-.
  specialize (Hch k). rewrite Hx in Hch. cbn [default] in Hch. destruct (reverse _) as [|y l] eqn:E; cbn [chained] in Hch; [done|].
  destruct Hch as [Hy _]. apply Hk. assert (Hin : y ∈ reverse (base.filter (fun x => word_key mem x = k) wps)) by (rewrite E; apply elem_of_cons; by left).
  apply elem_of_reverse, list_elem_of_filter in Hin. unfold id in Hy. subst y. apply Hin.
Qed.

(** A literal pattern is looked up in the table. *)
Lemma find_words (wps : list Z) (mem : memory) table s n :
  running true wps mem table -> no_nul s -> 0 <= n < 2 ^ 31 ->
  let mem' := <[a_word_key := mk_word s n 0 0]> mem in
  exists p table', hash_find_item ulong D (a_word_hash_1 ulong mem') (a_word_hash_2 ulong mem') (a_word_hash_cmp mem') table a_word_key = Some (p, table') /\
    chained mem p (reverse (base.filter (fun x => word_key mem x = (n, s)) wps)) /\ running true wps mem table'.
Proof.
  intros (Hok & Hw & Hk & Hk0 & Hh) Hs Hn mem'. destruct (Hh eq_refl) as (m & Hroom & Hsize & Hch).
  assert (Hok' : words_ok mem').
  { intros x w. unfold mem'. destruct (decide (a_word_key = x)) as [<-|]; [rewrite lookup_insert_eq; by intros [= <-]|].
    rewrite lookup_insert_ne by done. apply Hok. }
  assert (Hag : forall k x, m !! k = Some x -> word_key mem' x = word_key mem x) by (intros k x; by apply (key_elsewhere mem wps)).
  destruct (room_find ulong D (a_word_hash_1 ulong mem') (a_word_hash_2 ulong mem') (a_word_hash_cmp mem') (word_key mem') key_hash_1 key_hash_2
    Hulong HD (fun _ => eq_refl) (fun _ => eq_refl) (fun a b => hash_cmp_key mem' a b Hok') 0 table m a_word_key) as (table' & Hf & Hroom');
    [done|by eapply room_transfer|].
  eexists _, table'. split; [exact Hf|]. assert (Hkey : word_key mem' a_word_key = (n, s)) by (unfold word_key, word_length, word_str, mem'; by rewrite lookup_insert_eq).
  rewrite Hkey. split; [apply Hch|]. split_and!; try done. intros _. exists m. split_and!; [|done|done].
  eapply room_transfer; [exact Hroom'|]. intros k x Hx. symmetry. by eapply Hag.
Qed.

Lemma running_some hashing wps mem table : running hashing wps mem table -> Forall (fun x => is_Some (mem !! x)) wps.
Proof. intros (_ & Hw & _). eapply list.Forall_impl; [exact Hw|]. intros x (w & Hx & _). by eexists. Qed.

Lemma running_length hashing wps mem table x :
  running hashing wps mem table -> x ∈ wps -> word_length mem x = Z.of_nat (length (word_str mem x)).
Proof.
  intros (_ & Hw & _) Hx. eapply list.Forall_forall in Hw as (w & Hw & Hl); [|exact Hx]. unfold word_length, word_str. by rewrite Hw.
Qed.

Lemma same_words_str mem mem' x : same_words mem mem' -> word_str mem x = word_str mem' x.
Proof. intros Hs. by injection (same_words_key mem mem' x Hs). Qed.

(** A pattern marks the words that it matches, with the table or without it. *)
Lemma run_pattern_spec hashing wps pp mem table :
  running hashing wps mem table -> Z.of_nat (length (p_str pp)) <= p_length pp < 2 ^ 31 -> no_nul (p_str pp) ->
  exists mem' table', run_pattern ulong D a_word_key wps hashing pp mem table = Some (mem', table') /\
    running hashing wps mem' table' /\ same_words mem mem' /\
    forall x, x ∈ wps -> matched mem' x <-> matched mem x \/ pattern_ok pp (word_str mem x) = true.
Proof.
  intros Hrun Hlen Hnul. pose proof (running_some _ _ _ _ Hrun) as Hsome. unfold run_pattern, pattern_ok. destruct (p_percent pp) as [pc|].
  - destruct (match_loop (fun mem x => pattern_matches (p_str pp) (Some pc) (word_str mem x)) wps mem) as [Hs Hm]; [|done|].
    { intros m m' x Hs. by rewrite (same_words_str m m'). }
    eexists _, table. split; [done|]. split_and!; [by eapply running_same|done|]. intros x Hx. rewrite Hm. naive_solver.
  - destruct hashing.
    + destruct (find_words wps mem table (p_str pp) (p_length pp)) as (p & table' & Hf & Hch & Hrun'); [done|done|lia|].
      pose proof (length_filter (fun x => word_key mem x = (p_length pp, p_str pp)) wps) as Hlf.
      cbv zeta. rewrite Hf. eapply (match_chain_spec (S (length wps))) in Hch as (mem' & -> & Hs & Hm); [|rewrite length_reverse; lia].
      exists mem', table'. split_and!; [done|by eapply running_same|done|]. intros x Hx. rewrite Hm, elem_of_reverse, list_elem_of_filter.
      unfold word_key. rewrite (running_length _ _ _ _ x Hrun Hx), andb_true_iff, Z.eqb_eq. unfold streq. rewrite bool_decide_eq_true.
      rewrite pair_equal_spec. naive_solver.
    + pose (test := fun mem x => (word_length mem x =? p_length pp) &&
        streq (take (Z.to_nat (word_length mem x)) (p_str pp)) (take (Z.to_nat (word_length mem x)) (word_str mem x))).
      destruct (match_loop test wps mem) as [Hs Hm]; [|done|].
      { intros m m' x Hs. unfold test. injection (same_words_key m m' x Hs) as -> ->. done. }
      eexists _, table. split; [done|]. split_and!; [by eapply running_same|done|]. intros x Hx. etrans; [apply Hm|].
      replace (test mem x) with ((Z.of_nat (length (word_str mem x)) =? p_length pp) && streq (p_str pp) (word_str mem x)); [naive_solver|].
      unfold test. rewrite (running_length _ _ _ _ x Hrun Hx). destruct (Z.eqb_spec (Z.of_nat (length (word_str mem x))) (p_length pp)); [|done].
      cbn [andb]. rewrite !take_ge by lia. done.
Qed.

Lemma run_patterns_spec hashing wps pps mem table :
  running hashing wps mem table ->
  Forall (fun pp => Z.of_nat (length (p_str pp)) <= p_length pp < 2 ^ 31 /\ no_nul (p_str pp)) pps ->
  exists mem' table', run_patterns ulong D a_word_key wps hashing pps mem table = Some (mem', table') /\ same_words mem mem' /\
    forall x, x ∈ wps -> matched mem' x <-> matched mem x \/ existsb (fun pp => pattern_ok pp (word_str mem x)) pps = true.
Proof.
  intros Hrun Hpps. revert mem table Hrun. induction Hpps as [|pp pps [Hl Hn] Hpps IH]; intros mem table Hrun; cbn [run_patterns existsb].
  { exists mem, table. split_and!; [done|done|]. intros x _. naive_solver. }
  destruct (run_pattern_spec hashing wps pp mem table Hrun Hl Hn) as (mem1 & table1 & -> & Hrun1 & Hs1 & Hm1).
  destruct (IH mem1 table1 Hrun1) as (mem2 & table2 & -> & Hs2 & Hm2). exists mem2, table2. split_and!; [done|by etrans|].
  intros x Hx. rewrite Hm2, Hm1, orb_true_iff, (same_words_str mem mem1) by done. tauto.
Qed.
End Hashing.

(** ** The function *)

Lemma chop_words_spec alloca i ws mem :
  base.NoDup (map alloca (seq i (length ws))) ->
  Forall2 (fun x w => chop_words alloca i ws mem !! x = Some (mk_word w (Z.of_nat (length w)) 0 0)) (map alloca (seq i (length ws))) ws /\
  forall x, x ∉ map alloca (seq i (length ws)) -> chop_words alloca i ws mem !! x = mem !! x.
Proof.
  revert i mem. induction ws as [|w ws IH]; intros i mem Hnd; cbn [length seq map chop_words] in *; [split; [constructor|done]|].
  apply list.NoDup_cons in Hnd as [Hni Hnd]. destruct (IH (S i) (<[alloca i := mk_word w (Z.of_nat (length w)) 0 0]> mem) Hnd) as [Hf Ho].
  split; [constructor; [|done]|].
  - rewrite Ho by done. apply lookup_insert_eq.
  - intros x Hx. apply not_elem_of_cons in Hx as [Hne Hx]. rewrite Ho by done. by apply lookup_insert_ne.
Qed.

Lemma tokens_length sep s : (length (tokens sep s) <= length s)%nat.
Proof.
  apply (tokens_ind sep (fun s ws => (length ws <= length s)%nat)); [cbn; lia|]. intros b t r _ [Ht _] _ IH. rewrite !length_app.
  destruct t; [done|]. cbn. lia.
Qed.

Lemma word_length_le sep s w : w ∈ tokens sep s -> (length w <= length s)%nat.
Proof.
  revert w. apply (tokens_ind sep (fun s ws => forall w, w ∈ ws -> (length w <= length s)%nat)); [intros; by apply not_elem_of_nil in H0|].
  intros b t r _ _ _ IH w [->|Hw]%elem_of_cons; rewrite !length_app; [lia|]. specialize (IH w Hw). lia.
Qed.

Lemma unquote_no_nul stop before s : no_nul before -> no_nul s -> no_nul (unquote stop before s).1.
Proof.
  revert before. unfold no_nul. induction s as [|c s IH]; intros before Hb Hs; cbn [unquote]; [by apply Forall_rev|].
  apply list.Forall_cons in Hs as [Hc Hs]. case_bool_decide; [|apply IH; [by constructor|done]]. cbv zeta.
  assert (Hd : Forall (fun c => zc c <> 0) (drop (backslashes before - backslashes before / 2) before)) by by apply Forall_drop.
  destruct (Nat.even _); [cbn [fst]; apply Forall_app; split; [by apply Forall_rev|by constructor]|]. apply IH; [by constructor|done].
Qed.

Lemma chop_patterns_ok patterns :
  no_nul patterns -> Z.of_nat (length patterns) < 2 ^ 31 ->
  Forall (fun pp => Z.of_nat (length (p_str pp)) <= p_length pp < 2 ^ 31 /\ no_nul (p_str pp)) (map chop_pattern (words patterns)).
Proof.
  intros Hn Hl. apply Forall_map, list.Forall_forall. intros p Hp. pose proof (chop_pattern_length p).
  pose proof (word_length_le _ _ _ Hp). pose proof (tokens_chars _ isblank _ Hn) as Hns. eapply list.Forall_forall in Hns; [|exact Hp].
  pose proof (unquote_no_nul percent [] p ltac:(constructor) Hns) as Hu. unfold chop_pattern in *. rewrite find_percent_eq in *.
  destruct (unquote percent [] p). cbn in *. split; [lia|done].
Qed.

Lemma map_filter_words (f : Z -> cstr) (P : Z -> Prop) (Q : cstr -> Prop) `{!forall x, Decision (P x), !forall w, Decision (Q w)} wps ws :
  Forall2 (fun x w => f x = w /\ (P x <-> Q w)) wps ws -> map f (base.filter P wps) = base.filter Q ws.
Proof.
  induction 1 as [|x w wps ws [Hf Hpq] _ IH]; [done|]. rewrite !filter_cons. destruct (decide (P x)), (decide (Q w)); try tauto.
  cbn [map]. congruence.
Qed.

Section Function.
Context (ulong D : Z) (alloca : nat -> Z) (a_word_key : Z) (text : cstr).
Context (Hulong : ulong = 32 \/ ulong = 64) (HD : D <> 0) (Hnul : no_nul text) (Hlen : Z.of_nat (length text) < 2 ^ 30).

Abbreviation wps := (map alloca (seq 0 (length (words text)))).
Abbreviation start := (chop_words alloca 0 (words text) ∅).

Context (Hnd : base.NoDup wps) (Hv : Forall (fun x => HASH_VACANT D x = false) wps) (Hk : a_word_key ∉ wps) (Hk0 : a_word_key <> 0).

Lemma start_words_ok : words_ok start.
Proof.
  destruct (chop_words_spec alloca 0 (words text) ∅ Hnd) as [Hw Ho]. intros x w Hx.
  destruct (decide (x ∈ wps)) as [Hin|Hni]; [|by rewrite Ho in Hx].
  apply list_elem_of_lookup in Hin as [i Hi]. destruct (Forall2_lookup_l _ _ _ _ _ Hw Hi) as (s & Hs & He).
  apply list_elem_of_lookup_2 in Hs. rewrite He in Hx. injection Hx as <-. cbn. pose proof (word_length_le _ _ _ Hs). split; [|lia].
  pose proof (tokens_chars _ isblank _ Hnul) as Hns. by eapply list.Forall_forall in Hns.
Qed.

(** The table, if one is used, has all the words. *)
Lemma table_start (hashing : bool) :
  (hashing = true -> words text <> []) ->
  exists mem table, (if hashing then hash_words ulong D wps start (hash_init ulong (Z.of_nat (length (words text))))
     else Some (start, mk_ht [] 0 0 0 0 0 0 0)) = Some (mem, table) /\ same_content start mem /\ words_ok mem /\
     (hashing = true -> hashed ulong D 0 mem table wps).
Proof.
  intros Hne. pose proof start_words_ok as Hok. pose proof (tokens_length isblank text) as Htl.
  assert (Hl : length wps = length (words text)) by by rewrite length_map, length_seq.
  destruct hashing; [|by eexists start, _].
  destruct (hash_words_spec ulong D Hulong HD wps [] start (hash_init ulong (Z.of_nat (length (words text))))) as (mem & table & Hr & Hh & Hs & Hok').
  - done.
  - done.
  - destruct (chop_words_spec alloca 0 (words text) ∅ Hnd) as [Hw _]. apply list.Forall_forall. intros x Hx.
    apply list_elem_of_lookup in Hx as [i Hi]. by destruct (Forall2_lookup_l _ _ _ _ _ Hw Hi) as (s & _ & ->).
  - done.
  - cbn [app]. lia.
  - rewrite Hl. apply hashed_init; [done|]. destruct (words text); [by destruct (Hne eq_refl)|]. cbn [length] in *. lia.
  - by exists mem, table.
Qed.

(** The words before the first pattern is run. *)
Lemma words_running (hashing : bool) mem table :
  same_content start mem -> words_ok mem -> (hashing = true -> hashed ulong D 0 mem table wps) ->
  running ulong D a_word_key hashing wps mem table /\ Forall2 (fun x w => word_str mem x = w /\ ~ matched mem x) wps (words text).
Proof.
  intros Hs Hok Hh. destruct (chop_words_spec alloca 0 (words text) ∅ Hnd) as [Hw _].
  assert (Hat : Forall2 (fun x w => exists c, mem !! x = Some (mk_word w (Z.of_nat (length w)) 0 c)) wps (words text)).
  { eapply list.Forall2_impl; [exact Hw|]. intros x w Hx. cbn in Hx. specialize (Hs x). rewrite Hx in Hs.
    destruct (mem !! x) as [[s l m c]|]; [|done]. injection Hs as -> -> ->. by exists c. }
  split; [split_and!; [done| |done|done|done]|].
  - apply list.Forall_forall. intros x Hx. apply list_elem_of_lookup in Hx as [i Hi].
    destruct (Forall2_lookup_l _ _ _ _ _ Hat Hi) as (w & _ & c & ->). by eexists.
  - eapply list.Forall2_impl; [exact Hat|]. intros x w [c Hx]. unfold word_str, matched. rewrite Hx. cbn. split; [done|tauto].
Qed.
End Function.



(** A literal pattern with a quoted [%] selects nothing: its length is taken before the backslash is
    removed. *)
Example filter_quoted_percent :
  func_filter_filterout 64 1 (fun i => 16 + 8 * Z.of_nat i) 8 true (str "a\%") (str "a% b") = Some ([], None) /\
  pattern_matches (str "a\%") None (str "a%") = true.
Proof. vm_compute. split; reflexivity. Qed.
