(* ===== verification/MakeStrings.v ===== *)
(** * The cache of strings of make ([sources/host-tools/make-3.81/strcache.c])

    Strings are copied into blocks, each followed by a NUL, and found by the hash table
    ([MakeHash]), so that equal strings have the same address.  The bytes of a block are those that are
    written so far.  [xmalloc] is a parameter; the counts for the statistics are modelled but
    not their output. *)

From S2P Require Import Prelude MakeHash MakeText.
Open Scope Z_scope.

(** [struct strcache]; [end] is the address after the bytes. *)
Record strcache := mk_sc { sc_buffer : Z; sc_bytes : cstr; sc_count : Z; sc_bytesfree : Z }.

(** The static variables. *)
Record cache := mk_cache { c_bufsize : Z; c_blocks : list strcache; c_strings : hash_table }.

Definition CACHE_BUFFER_SIZE : Z := 4096.

(** The text from a place of a block to the next NUL. *)
Fixpoint until_nul (s : cstr) : cstr :=
  match s with
  | [] => []
  | c :: s => if zc c =? 0 then [] else c :: until_nul s
  end.

Definition nul : ascii := cz 0.

(** An address is in the part of a block that is written. *)
Definition in_block (x : Z) (b : strcache) : bool := (sc_buffer b <=? x) && (x <? sc_buffer b + Z.of_nat (length (sc_bytes b))).

(** The string at an address. *)
Fixpoint cached_text (bs : list strcache) (x : Z) : option cstr :=
  match bs with
  | [] => None
  | b :: bs => if in_block x b then Some (until_nul (drop (Z.to_nat (x - sc_buffer b)) (sc_bytes b))) else cached_text bs x
  end.

Section Cache.
(** The width of [long], the mark for deleted items, and the address of the buffer of a new
    block, from the buffers that there are and the size. *)
Context (ulong D : Z) (xmalloc : list (Z * Z) -> Z -> Z).

Definition sc_size (b : strcache) : Z := Z.of_nat (length (sc_bytes b)) + sc_bytesfree b.
Definition sc_range (b : strcache) : Z * Z := (sc_buffer b, sc_size b).

(** [new_cache] *)
Definition new_cache (bufsize : Z) (bs : list strcache) : list strcache :=
  mk_sc (xmalloc (map sc_range bs) bufsize) [] 0 bufsize :: bs.

(** The loop of [add_string] over the blocks, from the one with the index [i]. *)
Fixpoint best_block (len : Z) (i : nat) (best : option (nat * strcache)) (bs : list strcache) : option (nat * strcache) :=
  match bs with
  | [] => best
  | sp :: bs =>
      let better := match best with None => true | Some (_, b) => sc_bytesfree sp <? sc_bytesfree b end in
      best_block len (S i) (if (len <? sc_bytesfree sp) && better then Some (i, sp) else best) bs
  end.

(** The string is added to a block. *)
Definition append_string (s : cstr) (b : strcache) : strcache :=
  mk_sc (sc_buffer b) (sc_bytes b ++ s ++ [nul]) (swrap 32 (sc_count b + 1)) (sc_bytesfree b - (Z.of_nat (length s) + 1)).

(** [add_string] *)
Definition add_string (s : cstr) : M cache Z := fun st =>
  let len := Z.of_nat (length s) in
  let bufsize := if c_bufsize st <? len then swrap 32 (len * 2) else c_bufsize st in
  let '(i, best, bs) :=
    match best_block len 0 None (c_blocks st) with
    | Some (i, b) => (i, b, c_blocks st)
    | None => let bs := new_cache bufsize (c_blocks st) in (0%nat, mk_sc (xmalloc (map sc_range (c_blocks st)) bufsize) [] 0 bufsize, bs)
    end in
  if sc_bytesfree best <=? len then Fail (Msg "assertion failed" []) (mk_cache bufsize bs (c_strings st))
  else
    Ret (sc_buffer best + Z.of_nat (length (sc_bytes best)))
      (mk_cache bufsize (<[i := append_string s best]> bs) (c_strings st)).

(** What the hash functions see: the bytes [s] with a NUL after them at the address [key], and
    the cache. *)
Definition text_at (st : cache) (key : Z) (s : cstr) (x : Z) : cstr :=
  if x =? key then until_nul s else default [] (cached_text (c_blocks st) x).

(** [str_hash_1], [str_hash_2] and [str_hash_cmp]; the case of letters matters. *)
Definition str_hash_1 (st : cache) (key : Z) (s : cstr) (x : Z) : Z := STRING_HASH_1 ulong (text_at st key s x).
Definition str_hash_2 (st : cache) (key : Z) (s : cstr) (x : Z) : Z := STRING_HASH_2 ulong (text_at st key s x).
Definition str_hash_cmp (st : cache) (key : Z) (s : cstr) (x y : Z) : Z := strcmp (text_at st key s x) (text_at st key s y).

Definition set_strings (table : hash_table) (st : cache) : cache := mk_cache (c_bufsize st) (c_blocks st) table.

(** [add_hash] of the bytes [s] at the address [str_]; a search that does not end is
    [Crash]. *)
Definition add_hash (str_ : Z) (s : cstr) : M cache Z := fun st =>
  match hash_find_slot ulong D (str_hash_1 st str_ s) (str_hash_2 st str_ s) (str_hash_cmp st str_ s) (c_strings st) str_ with
  | None => Crash
  | Some (slot, table) =>
      match ht_vec table !! slot with
      | None => Crash
      | Some key =>
          if negb (HASH_VACANT D key) then Ret key (set_strings table st)
          else
            match add_string s (set_strings table st) with
            | Ret key st =>
                match hash_insert_at ulong D (str_hash_1 st str_ s) (str_hash_2 st str_ s) (str_hash_cmp st str_ s) (c_strings st) key slot with
                | Some (_, table) => Ret key (set_strings table st)
                | None => Crash
                end
            | Fail e st => Fail e st
            | Crash => Crash
            end
      end
  end.

(** [strcache_iscached] *)
Definition strcache_iscached (x : Z) (st : cache) : bool := existsb (in_block x) (c_blocks st).

(** [strcache_add] of the string at an address. *)
Definition strcache_add (str_ : Z) (s : cstr) : M cache Z := add_hash str_ s.

(** [strcache_add_len]: the bytes are copied to the address [key] of [alloca]. *)
Definition strcache_add_len (key : Z) (bytes : cstr) (len : nat) : M cache Z := add_hash key (take len bytes).

(** [strcache_setbufsize] *)
Definition strcache_setbufsize (size : Z) (st : cache) : Z * cache :=
  let bufsize := if c_bufsize st <? size then size else c_bufsize st in
  (bufsize, mk_cache bufsize (c_blocks st) (c_strings st)).

(** [strcache_init], with the values of the static variables at the start. *)
Definition strcache_init : cache := mk_cache CACHE_BUFFER_SIZE [] (hash_init ulong 1000).
End Cache.

(** ** Texts in blocks *)

Lemma until_nul_no_nul s : no_nul (until_nul s).
Proof. induction s as [|c s IH]; cbn [until_nul]; [constructor|]. destruct (Z.eqb_spec (zc c) 0); [constructor|by constructor]. Qed.

Lemma until_nul_id s : no_nul s -> until_nul s = s.
Proof. induction 1 as [|c s Hc Hs IH]; [done|]. cbn [until_nul]. by rewrite (proj2 (Z.eqb_neq _ 0) Hc), IH. Qed.

Lemma until_nul_end s : no_nul s -> until_nul (s ++ [nul]) = s.
Proof. induction 1 as [|c s Hc Hs IH]; [done|]. cbn [app until_nul]. by rewrite (proj2 (Z.eqb_neq _ 0) Hc), IH. Qed.

Lemma until_nul_more l e : nul ∈ l -> until_nul (l ++ e) = until_nul l.
Proof.
  induction l as [|c l IH]; intros Hn; [by apply elem_of_nil in Hn|]. cbn [app until_nul]. destruct (Z.eqb_spec (zc c) 0) as [|Hc]; [done|].
  apply elem_of_cons in Hn as [<-|Hn]; [done|]. by rewrite IH.
Qed.

Section Texts.
(** Addresses that [malloc] does not give to the cache. *)
Context (outside : Z -> Prop).

Definition apart (r r' : Z * Z) : Prop := r.1 + r.2 <= r'.1 \/ r'.1 + r'.2 <= r.1.

Record block_ok (b : strcache) : Prop := {
  b_free : 0 <= sc_bytesfree b;
  b_end : sc_bytes b = [] \/ list.last (sc_bytes b) = Some nul;
  b_outside : forall x, outside x -> x < sc_buffer b \/ sc_buffer b + sc_size b <= x;
}.

Definition blocks_ok (bs : list strcache) : Prop :=
  Forall block_ok bs /\ forall i j b b', bs !! i = Some b -> bs !! j = Some b' -> i <> j -> apart (sc_range b) (sc_range b').

Definition read_block (x : Z) (b : strcache) : cstr := until_nul (drop (Z.to_nat (x - sc_buffer b)) (sc_bytes b)).

Lemma in_block_spec x b : in_block x b = true <-> sc_buffer b <= x < sc_buffer b + Z.of_nat (length (sc_bytes b)).
Proof. unfold in_block. rewrite andb_true_iff, Z.leb_le, Z.ltb_lt. done. Qed.

Lemma cached_text_inv bs x t : cached_text bs x = Some t -> exists i b, bs !! i = Some b /\ in_block x b = true /\ t = read_block x b.
Proof.
  induction bs as [|b bs IH]; cbn [cached_text]; [done|]. destruct (in_block x b) eqn:E.
  - intros [= <-]. by exists 0%nat, b.
  - intros (i & b' & Hi & Hb)%IH. by exists (S i), b'.
Qed.

Lemma cached_text_at bs i b x : blocks_ok bs -> bs !! i = Some b -> in_block x b = true -> cached_text bs x = Some (read_block x b).
Proof.
  intros [Hok Hap] Hi Hx. destruct (cached_text bs x) as [t|] eqn:E.
  - apply cached_text_inv in E as (j & b' & Hj & Hx' & ->). destruct (decide (i = j)) as [->|Hne]; [congruence|].
    apply in_block_spec in Hx, Hx'. pose proof (Hap i j b b' Hi Hj Hne) as Ha.
    apply (Forall_lookup_1 _ _ _ _ Hok) in Hi as [Hf _ _], Hj as [Hf' _ _]. unfold apart, sc_range, sc_size in Ha. cbn in Ha. lia.
  - exfalso. clear Hok Hap. revert i Hi E. induction bs as [|d bs IH]; intros i Hi E; [done|]. cbn [cached_text] in E.
    destruct (in_block x d) eqn:Ed; [done|]. destruct i as [|i]; [cbn in Hi; congruence|by apply (IH i)].
Qed.

Lemma cached_not_outside bs x t : blocks_ok bs -> cached_text bs x = Some t -> ~ outside x.
Proof.
  intros [Hok _] (i & b & Hi & Hx & _)%cached_text_inv Hout. apply (Forall_lookup_1 _ _ _ _ Hok) in Hi as [Hf _ Ho]. apply in_block_spec in Hx.
  specialize (Ho x Hout). unfold sc_size in Ho. lia.
Qed.

Lemma append_size s b : sc_size (append_string s b) = sc_size b.
Proof. unfold sc_size, append_string. cbn. rewrite !length_app. cbn. lia. Qed.

Lemma append_block_ok s b : Z.of_nat (length s) < sc_bytesfree b -> block_ok b -> block_ok (append_string s b).
Proof.
  intros Hl [Hf He Ho]. split.
  - cbn. lia.
  - right. cbn. by rewrite app_assoc, last_snoc.
  - rewrite append_size. exact Ho.
Qed.

Lemma append_blocks_ok bs i s b :
  blocks_ok bs -> bs !! i = Some b -> Z.of_nat (length s) < sc_bytesfree b -> blocks_ok (<[i := append_string s b]> bs).
Proof.
  intros [Hok Hap] Hi Hl. pose proof (Forall_lookup_1 _ _ _ _ Hok Hi) as Hb. split; [apply Forall_insert; [done|by apply append_block_ok]|].
  assert (Hr : forall j c, (<[i := append_string s b]> bs) !! j = Some c -> exists c', bs !! j = Some c' /\ sc_range c' = sc_range c).
  { intros j c. rewrite list_lookup_insert. case_decide as Hj; [|by intros; exists c].
    intros [= <-]. destruct Hj as [<- _]. exists b. split; [done|]. unfold sc_range. by rewrite append_size. }
  intros j k c d Hj Hk Hne. apply Hr in Hj as (c' & Hj & <-), Hk as (d' & Hk & <-). by apply (Hap j k).
Qed.

(** Texts stay, and the new one is there. *)
Lemma append_texts bs i s b :
  blocks_ok bs -> bs !! i = Some b -> Z.of_nat (length s) < sc_bytesfree b -> no_nul s ->
  let bs' := <[i := append_string s b]> bs in
  (forall x t, cached_text bs x = Some t -> cached_text bs' x = Some t) /\
  cached_text bs' (sc_buffer b + Z.of_nat (length (sc_bytes b))) = Some s.
Proof.
  intros Hok Hi Hl Hs bs'. pose proof (append_blocks_ok bs i s b Hok Hi Hl) as Hok'. fold bs' in Hok'.
  assert (Hi' : bs' !! i = Some (append_string s b)) by (apply list_lookup_insert_eq; by eapply lookup_lt_Some). split.
  - intros x t (j & c & Hj & Hx & ->)%cached_text_inv. destruct (decide (i = j)) as [<-|Hne].
    + rewrite Hi in Hj. injection Hj as <-. apply in_block_spec in Hx as Hx'.
      rewrite (cached_text_at bs' i _ x Hok' Hi'). 2: { apply in_block_spec. cbn. rewrite length_app. lia. }
      f_equal. unfold read_block. cbn. rewrite drop_app_le by lia. apply until_nul_more.
      destruct Hok as [Hok _]. pose proof (b_end _ (Forall_lookup_1 _ _ _ _ Hok Hi)) as [He|He]; [rewrite He in Hx'; cbn in Hx'; lia|].
      rewrite last_lookup in He. apply list_elem_of_lookup. exists (pred (length (sc_bytes b)) - Z.to_nat (x - sc_buffer b))%nat.
      rewrite lookup_drop. rewrite <-He. f_equal. lia.
    + apply (cached_text_at bs' j c x Hok'); [|done]. unfold bs'. by rewrite list_lookup_insert_ne.
  - rewrite (cached_text_at bs' i _ _ Hok' Hi'). 2: { apply in_block_spec. cbn. rewrite !length_app. cbn. lia. }
    f_equal. unfold read_block. cbn. replace (Z.to_nat _) with (length (sc_bytes b)) by lia. rewrite drop_app_length. by apply until_nul_end.
Qed.
End Texts.

Lemma best_block_some len i best bs j b :
  best_block len i best bs = Some (j, b) ->
  best = Some (j, b) \/ (i <= j)%nat /\ bs !! (j - i)%nat = Some b /\ len < sc_bytesfree b.
Proof.
  revert i best. induction bs as [|sp bs IH]; intros i best; cbn [best_block]; [by left|]. intros [H|(Hj & Hb & Hl)]%IH.
  - destruct ((len <? sc_bytesfree sp) && _) eqn:E; [|by left]. apply andb_true_iff in E as [E%Z.ltb_lt _].
    injection H as -> ->. right. by rewrite Nat.sub_diag.
  - right. split_and!; [lia| |done]. replace (j - i)%nat with (S (j - S i)) by lia. done.
Qed.

(** ** The cache *)

Section Interning.
Context (ulong D : Z) (xmalloc : list (Z * Z) -> Z -> Z) (outside : Z -> Prop).
Context (Hulong : ulong = 32 \/ ulong = 64) (HD : D <> 0) (Hout0 : outside 0) (HoutD : outside D).

(** What is used of [malloc]: a new buffer does not overlap the others, nor addresses of other
    objects. *)
Context (Hmalloc : forall ranges size, 0 <= size ->
  (forall r, r ∈ ranges -> apart (xmalloc ranges size, size) r) /\
  (forall x, outside x -> x < xmalloc ranges size \/ xmalloc ranges size + size <= x)).

Lemma new_cache_ok size bs : 0 <= size -> blocks_ok outside bs -> blocks_ok outside (new_cache xmalloc size bs).
Proof.
  intros Hs [Hok Hap]. destruct (Hmalloc (map sc_range bs) size Hs) as [Hr Ho]. unfold new_cache.
  assert (Hnew : forall j b, bs !! j = Some b -> apart (xmalloc (map sc_range bs) size, size) (sc_range b)).
  { intros j b Hj. apply Hr. apply (list_elem_of_fmap_2 sc_range). by eapply list_elem_of_lookup_2. }
  split; [constructor; [|done]|].
  - split; [done|by left|]. exact Ho.
  - intros [|i] [|j] b b' Hi Hj Hne; cbn in Hi, Hj; simplify_eq; [by apply (Hnew j)|apply or_comm; by apply (Hnew i)|].
    apply (Hap i j); [done|done|lia].
Qed.

Lemma new_cache_texts size bs x : cached_text (new_cache xmalloc size bs) x = cached_text bs x.
Proof.
  unfold new_cache. cbn [cached_text]. destruct (in_block x _) eqn:E; [|done]. apply in_block_spec in E. cbn in E. lia.
Qed.

(** A string that is shorter than the size of a buffer is added. *)
Lemma add_string_spec s st :
  blocks_ok outside (c_blocks st) -> no_nul s -> Z.of_nat (length s) < c_bufsize st ->
  exists p bs, add_string xmalloc s st = Ret p (mk_cache (c_bufsize st) bs (c_strings st)) /\ blocks_ok outside bs /\
    (forall x t, cached_text (c_blocks st) x = Some t -> cached_text bs x = Some t) /\ cached_text bs p = Some s.
Proof.
  intros Hok Hs Hl. unfold add_string. cbv zeta. rewrite (proj2 (Z.ltb_ge (c_bufsize st) _)) by lia.
  destruct (best_block _ 0 None (c_blocks st)) as [[i b]|] eqn:E.
  - apply best_block_some in E as [E|(_ & Hi & Hb)]; [done|]. rewrite Nat.sub_0_r in Hi. rewrite (proj2 (Z.leb_gt _ _)) by lia.
    eexists _, _. split; [done|]. split; [by apply append_blocks_ok|]. by apply (append_texts outside).
  - cbn [sc_bytesfree]. rewrite (proj2 (Z.leb_gt _ _)) by lia.
    pose proof (new_cache_ok (c_bufsize st) (c_blocks st) ltac:(lia) Hok) as Hok'. set (bs := new_cache _ _ _) in *.
    destruct (append_texts outside bs 0 s (mk_sc (xmalloc (map sc_range (c_blocks st)) (c_bufsize st)) [] 0 (c_bufsize st)))
      as [Hold Hnew]; [done|done|done|done|].
    eexists _, _. split; [done|]. split; [by apply append_blocks_ok|]. split; [|exact Hnew].
    intros x t Hx. apply Hold. unfold bs. by rewrite new_cache_texts.
Qed.

Abbreviation hash_of_1 := (STRING_HASH_1 ulong).
Abbreviation hash_of_2 := (STRING_HASH_2 ulong).

(** The text at an address of the cache. *)
Definition cache_name (bs : list strcache) (x : Z) : cstr := default [] (cached_text bs x).

(** The table finds exactly the strings of the map. *)
Definition cache_ok (st : cache) (m : gmap cstr Z) : Prop :=
  blocks_ok outside (c_blocks st) /\ table_ok D (cache_name (c_blocks st)) hash_of_1 hash_of_2 (c_strings st) m /\
  forall k x, m !! k = Some x -> cached_text (c_blocks st) x = Some k.

Lemma cached_text_no_nul bs x t : cached_text bs x = Some t -> no_nul t.
Proof. intros (i & b & _ & _ & ->)%cached_text_inv. apply until_nul_no_nul. Qed.

Lemma text_cmp st key s x y : str_hash_cmp st key s x y = 0 <-> text_at st key s x = text_at st key s y.
Proof.
  assert (Hn : forall z, no_nul (text_at st key s z)).
  { intros z. unfold text_at. destruct (z =? key); [apply until_nul_no_nul|]. destruct (cached_text _ z) eqn:E; [by eapply cached_text_no_nul|constructor]. }
  unfold str_hash_cmp. split; [by apply strcmp_zero|]. intros ->. pose proof (strcmp_opp (text_at st key s y) (text_at st key s y)). lia.
Qed.

(** The argument is a string outside of the cache, or one of its strings. *)
Definition argument (st : cache) (str_ : Z) (s : cstr) : Prop := outside str_ \/ cached_text (c_blocks st) str_ = Some s.

Lemma text_at_item st str_ s x t :
  blocks_ok outside (c_blocks st) -> no_nul s -> argument st str_ s -> cached_text (c_blocks st) x = Some t ->
  text_at st str_ s x = t.
Proof.
  intros Hok Hs Harg Hx. unfold text_at. destruct (Z.eqb_spec x str_) as [->|]; [|by rewrite Hx]. rewrite until_nul_id by done.
  destruct Harg as [Ho|Hc]; [|congruence]. by destruct (cached_not_outside outside _ _ _ Hok Hx).
Qed.

Lemma cached_name bs x t : cached_text bs x = Some t -> cache_name bs x = t.
Proof. intros Hx. unfold cache_name. by rewrite Hx. Qed.

Lemma text_at_new st' str_ s p :
  blocks_ok outside (c_blocks st') -> no_nul s -> cached_text (c_blocks st') p = Some s -> text_at st' str_ s p = s.
Proof. intros Hok Hs Hp. unfold text_at. destruct (p =? str_); [by apply until_nul_id|]. by rewrite Hp. Qed.

(** The table after a new string is added. *)
Lemma insert_new str_ s st m e slot c p bs :
  cache_ok st m -> argument st str_ s -> no_nul s -> Z.of_nat (size m) + 1 < 2 ^ 30 -> m !! s = None ->
  counted D (text_at st str_ s) hash_of_1 hash_of_2 e (2 ^ e / 16) (c_strings st) m -> place D hash_of_1 hash_of_2 e (ht_vec (c_strings st)) m s slot ->
  blocks_ok outside bs -> (forall x t, cached_text (c_blocks st) x = Some t -> cached_text bs x = Some t) -> cached_text bs p = Some s ->
  let st1 := mk_cache (c_bufsize st) bs (count_search ulong c (c_strings st)) in
  exists q st' m', match hash_insert_at ulong D (str_hash_1 ulong st1 str_ s) (str_hash_2 ulong st1 str_ s) (str_hash_cmp st1 str_ s) (c_strings st1) p slot with
    | Some (_, table) => Ret p (set_strings table st1) | None => Crash end = Ret q st' /\
    cache_ok st' m' /\ m ⊆ m' /\ m' !! s = Some q /\ c_bufsize st' = c_bufsize st /\ Z.of_nat (size m') <= Z.of_nat (size m) + 1.
Proof.
  intros (Hok & Htab & Hm) Harg Hs Hsize Hnone Hc Hp Hok' Hold Hnew st1.
  assert (Harg' : argument st1 str_ s) by (destruct Harg as [|Harg]; [by left|right; by apply Hold]).
  assert (Hname : forall k x, m !! k = Some x -> text_at st1 str_ s x = text_at st str_ s x).
  { intros k x Hx. apply Hm in Hx. rewrite !(text_at_item _ str_ s x k); auto. }
  pose proof (text_at_new st1 str_ s p Hok' Hs Hnew) as Hp'.
  assert (Hv : HASH_VACANT D p = false).
  { apply vacant_false. split; intros ->; by apply (cached_not_outside outside _ _ _ Hok' Hnew). }
  destruct (table_insert_at ulong D (str_hash_1 ulong st1 str_ s) (str_hash_2 ulong st1 str_ s) (str_hash_cmp st1 str_ s) (text_at st1 str_ s)
    hash_of_1 hash_of_2 Hulong HD (fun _ => eq_refl) (fun _ => eq_refl) (text_cmp st1 str_ s) e (count_search ulong c (c_strings st)) m p slot)
    as (slot' & table & Hins & Htab'); rewrite ?Hp'.
  - apply (counted_transfer D (text_at st str_ s)); [exact Hc|exact Hname].
  - exact Hv.
  - exact Hp.
  - rewrite map_size_insert, Hnone. cbn. lia.
  - cbn [c_strings st1]. rewrite Hins. rewrite Hp' in Htab'. eexists p, _, (<[s := p]> m). split; [done|].
    assert (Hm' : forall k x, (<[s := p]> m) !! k = Some x -> cached_text bs x = Some k).
    { intros k x. rewrite lookup_insert. case_decide as Hk; [intros [= <-]; by subst k|]. intros Hx. by apply Hold, Hm. }
    split_and!; [|by apply insert_subseteq|apply lookup_insert_eq|done|rewrite map_size_insert, Hnone; cbn; lia].
    split_and!; [done| |done]. eapply table_transfer; [exact Htab'|]. intros k x Hx. apply Hm' in Hx.
    rewrite (text_at_item st1 str_ s x k), (cached_name _ _ k); auto.
Qed.

(** A call returns the address of the string in the cache, which it has from then on. *)
Lemma strcache_add_spec str_ s st m :
  cache_ok st m -> argument st str_ s -> no_nul s -> Z.of_nat (length s) < c_bufsize st -> Z.of_nat (size m) + 1 < 2 ^ 30 ->
  exists p st' m', strcache_add ulong D xmalloc str_ s st = Ret p st' /\ cache_ok st' m' /\ m ⊆ m' /\ m' !! s = Some p /\
    c_bufsize st' = c_bufsize st /\ Z.of_nat (size m') <= Z.of_nat (size m) + 1.
Proof.
  intros Hcache Harg Hs Hl Hsize. pose proof Hcache as (Hok & Htab & Hm). unfold strcache_add, add_hash.
  assert (Hself : text_at st str_ s str_ = s) by (unfold text_at; rewrite Z.eqb_refl; by apply until_nul_id).
  assert (Hag : forall k x, m !! k = Some x -> text_at st str_ s x = cache_name (c_blocks st) x).
  { intros k x Hx. rewrite (text_at_item st str_ s x k), (cached_name _ _ k); auto. }
  pose proof (table_transfer D _ (text_at st str_ s) _ _ _ _ Htab Hag) as Htab'.
  destruct (find_table ulong D (str_hash_1 ulong st str_ s) (str_hash_2 ulong st str_ s) (str_hash_cmp st str_ s) (text_at st str_ s)
    hash_of_1 hash_of_2 Hulong HD (fun _ => eq_refl) (fun _ => eq_refl) (text_cmp st str_ s) (c_strings st) m str_ Htab')
    as (e & slot & c & -> & Hc & Hp). rewrite Hself in Hp. pose proof Hc as (_ & _ & _ & Hh & _). cbn [count_search ht_vec].
  destruct (place_lookup D hash_of_1 hash_of_2 e (ht_vec (c_strings st)) m s slot Hp) as (y & Hy & Hnone & Hsome). rewrite Hy.
  destruct (m !! s) as [x|] eqn:Hx.
  - rewrite (Hsome x eq_refl) in *. destruct (h_map _ _ _ _ _ _ _ Hh _ _ Hx) as (_ & -> & _). cbn [negb].
    eexists _, _, m. split; [done|]. split_and!; done || lia.
  - rewrite (Hnone eq_refl). cbn [negb].
    destruct (add_string_spec s (set_strings (count_search ulong c (c_strings st)) st) Hok Hs Hl) as (p & bs & -> & Hok' & Hold & Hnew).
    apply (insert_new str_ s st m e slot c p bs); auto.
Qed.

(** ** Sessions *)

(** Calls of [strcache_add]: the address of the argument and its text. *)
Fixpoint add_all (calls : list (Z * cstr)) : M cache (list Z) :=
  match calls with
  | [] => lret []
  | (str_, s) :: calls => (let* p := strcache_add ulong D xmalloc str_ s in let* ps := add_all calls in lret (p :: ps))%ndk
  end.

Lemma add_all_spec calls st m :
  cache_ok st m -> Forall (fun c => outside c.1 /\ no_nul c.2 /\ Z.of_nat (length c.2) < c_bufsize st) calls ->
  Z.of_nat (size m) + Z.of_nat (length calls) < 2 ^ 30 ->
  exists ps st' m', add_all calls st = Ret ps st' /\ cache_ok st' m' /\ m ⊆ m' /\ Forall2 (fun c p => m' !! c.2 = Some p) calls ps.
Proof.
  revert st m. induction calls as [|[str_ s] calls IH]; intros st m Hok Hc Hl; cbn [add_all]; [by exists [], st, m|].
  apply list.Forall_cons in Hc as [(Ho & Hs & Hlen) Hc]. cbn [fst snd length] in *.
  destruct (strcache_add_spec str_ s st m Hok) as (p & st1 & m1 & Hr & Hok1 & Hsub & Hp & Hbuf & Hsz); [by left|done|done|lia|].
  destruct (IH st1 m1) as (ps & st2 & m2 & Hr2 & Hok2 & Hsub2 & Hps); [done|by rewrite Hbuf|lia|].
  exists (p :: ps), st2, m2. unfold lbind. rewrite Hr, Hr2. split_and!; [done|done|by etrans|]. constructor; [|done]. by eapply lookup_weaken.
Qed.

Lemma strcache_init_ok : cache_ok (strcache_init ulong) ∅.
Proof.
  split_and!; [split; [constructor|by intros]| |done]. apply table_init; [done|]. lia.
Qed.
End Interning.

(** C18: the cache of strings gives equal strings the same address and different strings different
    addresses, and the string is still at its address after any further calls, for
    strings that are shorter than a buffer. *)
Theorem strcache_interns ulong D xmalloc (outside : Z -> Prop) calls :
  ulong = 32 \/ ulong = 64 -> D <> 0 -> outside 0 -> outside D ->
  (forall ranges size, 0 <= size -> (forall r, r ∈ ranges -> apart (xmalloc ranges size, size) r) /\
    (forall x, outside x -> x < xmalloc ranges size \/ xmalloc ranges size + size <= x)) ->
  Forall (fun c => outside c.1 /\ no_nul c.2 /\ Z.of_nat (length c.2) < CACHE_BUFFER_SIZE) calls -> Z.of_nat (length calls) < 2 ^ 30 ->
  exists ps st, add_all ulong D xmalloc calls (strcache_init ulong) = Ret ps st /\
    Forall2 (fun c p => cached_text (c_blocks st) p = Some c.2 /\ strcache_iscached p st = true) calls ps /\
    forall i j c c' p p', calls !! i = Some c -> calls !! j = Some c' -> ps !! i = Some p -> ps !! j = Some p' -> p = p' <-> c.2 = c'.2.
Proof.
  intros Hu HD H0 HoD Hmalloc Hc Hl.
  destruct (add_all_spec ulong D xmalloc outside Hu HD H0 HoD Hmalloc calls (strcache_init ulong) ∅) as (ps & st & m & Hr & Hok & _ & Hps).
  - by apply strcache_init_ok.
  - exact Hc.
  - rewrite map_size_empty. lia.
  - exists ps, st. destruct Hok as (_ & _ & Hm). split_and!; [done| |].
    + eapply list.Forall2_impl; [exact Hps|]. intros c p Hp. apply Hm in Hp as Ht. split; [done|].
      apply cached_text_inv in Ht as (i & b & Hi & Hb & _). apply existsb_exists. exists b. split; [|done].
      apply list_elem_of_In. by eapply list_elem_of_lookup_2.
    + intros i j c c' p p' Hi Hj Hpi Hpj. pose proof (Forall2_lookup_lr _ _ _ _ _ _ Hps Hi Hpi) as H1.
      pose proof (Forall2_lookup_lr _ _ _ _ _ _ Hps Hj Hpj) as H2. cbn in H1, H2. split; [|congruence].
      intros <-. apply Hm in H1, H2. congruence.
Qed.

(** An allocator that uses the addresses after the buffers that there are. *)
Definition bump (ranges : list (Z * Z)) (size : Z) : Z := fold_right (fun r a => Z.max a (r.1 + r.2)) 4096 ranges.

Lemma bump_above ranges size : 4096 <= bump ranges size /\ forall r, r ∈ ranges -> r.1 + r.2 <= bump ranges size.
Proof.
  induction ranges as [|q ranges [IH1 IH2]]; [split; [done|]; intros r Hr; by apply elem_of_nil in Hr|].
  change (bump (q :: ranges) size) with (Z.max (bump ranges size) (q.1 + q.2)). split; [lia|].
  intros r [->|Hr]%elem_of_cons; [lia|]. specialize (IH2 r Hr). lia.
Qed.

Definition demo_calls : list (Z * cstr) := [(16, str "all"); (16, str "a.o"); (24, str "all"); (16, []); (16, str "a.c"); (32, str "a.o"); (16, [])].

Lemma strcache_interns_witness :
  exists st, add_all 64 8 bump demo_calls (strcache_init 64) = Ret [4096; 4100; 4096; 4104; 4105; 4100; 4104] st /\
    cached_text (c_blocks st) 4100 = Some (str "a.o").
Proof.
  destruct (strcache_interns 64 8 bump (fun x => x < 4096) demo_calls) as (ps & st & Hr & Hps & _).
  - by right.
  - done.
  - done.
  - done.
  - intros ranges size Hsize. destruct (bump_above ranges size) as [H1 H2]. split; [|intros x Hx; left; lia].
    intros r Hr. right. by apply H2.
  - repeat (constructor; [split; [done|split; [repeat (constructor; [done|]); constructor|done]]|]). constructor.
  - done.
  - assert (E : ps = [4096; 4100; 4096; 4104; 4105; 4100; 4104]).
    { apply (f_equal (fun r => match r with Ret ps _ => ps | _ => [] end)) in Hr. vm_compute in Hr. by rewrite <-Hr. }
    subst ps. exists st. split; [exact Hr|]. by destruct (Forall2_lookup_lr _ _ _ 1%nat _ _ Hps eq_refl eq_refl).
Defined.

(** A string that is as long as a buffer makes the assertion fail, unless an earlier block has
    space for it. *)
Lemma add_string_exact xmalloc s st :
  Z.of_nat (length s) = c_bufsize st -> best_block (c_bufsize st) 0 None (c_blocks st) = None ->
  exists st', add_string xmalloc s st = Fail (Msg "assertion failed" []) st'.
Proof.
  intros Hl Hb. unfold add_string. cbv zeta. rewrite Hl, Hb, Z.ltb_irrefl. cbn [sc_bytesfree]. rewrite Z.leb_refl. by eexists.
Qed.

Example strcache_exact :
  match strcache_add 64 8 bump 16 (replicate 8 "a"%char) (mk_cache 8 [] (hash_init 64 1000)) with Fail _ _ => True | _ => False end.
Proof. vm_compute. exact I. Qed.
